(* ===== verification/_CoqProject ===== *)
-Q . S2P
Prelude.v
XompLoop.v
XompRuntime.v
XompTask.v
XompRegion.v
XompSync.v
BitVector.v
SymType.v
SymExpr.v
SymSimplify.v
SymFuel.v
SymEval.v
SymGood.v
SymTyping.v
SymAC.v
SymSound.v
SymBits.v
SymAdd.v
SymShift.v
SymTop.v
SymTotal.v
SymFold.v
SymMake.v
SymSubst.v
SymLimits.v
VarIds.v
SawyerInterval.v
SawyerIntervalMap.v
SawyerMapFacts.v
SawyerMapTheorems.v
SawyerIntervalSet.v
SawyerAddressMap.v
SawyerSearch.v
SawyerAddressSpace.v
SawyerSpaceFacts.v
RiscOps.v
RiscConcrete.v
RiscConcreteFacts.v
RiscArith.v
RiscMulDiv.v
RiscData.v
RiscRefine.v
RiscSymbolic.v
RiscBuild.v
RiscSim.v
RiscExec.v
RegDescriptor.v
RiscRegisters.v
RiscRegFacts.v
RiscRegTheorems.v
RiscMachine.v
RiscRun.v
RiscX86.v
RiscX86Insn.v
RiscX86Flags.v
RiscX86Operands.v
RiscX86Arith.v
RiscX86Jump.v
RiscX86Vector.v
RiscX86VectorFacts.v
RiscX86Misc.v
RiscX86Process.v
RiscMemory.v
RiscMemoryFacts.v
RiscMemoryRun.v
RiscMemoryTheorems.v
RiscX86Stack.v
RiscX86StackTheorems.v
RiscX86String.v
RiscX86StringTheorems.v
RiscX86Theorems.v
