(* ===== verification/Prelude.v ===== *)
(** * A verification of four cores of ROSE

    ROSE is a compiler infrastructure: front ends build a syntax tree that
    analyses and transformations change and that back ends print again, and a
    binary analysis framework lifts machine code to symbolic expressions.  This
    library models four parts of its run-time logic.

    - The OpenMP run-time layer, [src/midend/programTransformation/ompLowering/],
      that the code produced by the OpenMP translator calls:
      [xomp.c] and the generated pieces [run_me_*.inc].
    - The symbolic expressions of binary analysis,
      [src/Rose/BinaryAnalysis/SymbolicExpression.{h,C}], with the operations on
      bit vectors under them, [src/Sawyer/BitVector.h] and
      [src/Sawyer/BitVectorSupport.h].
    - The interval containers of its support library,
      [src/Sawyer/Interval.h], [IntervalMap.h] (with what it uses of [Map.h]) and
      [IntervalSet.h], and the address maps over them, [AddressMap.h], with
      the buffers that hold their storage.
    - The semantics of instructions,
      [src/Rose/BinaryAnalysis/InstructionSemantics/]: the operations every
      instruction is written in, [BaseSemantics/RiscOperators.{h,C}], their
      concrete and symbolic implementations, [ConcreteSemantics.C] and
      [SymbolicSemantics.C], the state of registers,
      [BaseSemantics/RegisterStateGeneric.C] with [RegisterDescriptor.{h,C}],
      the memory of concrete semantics, and the instructions of x86,
      [DispatcherX86.C] over [BaseSemantics/Dispatcher.C].

    (All paths are relative to the directory [src/] of the repository.)

    ** Conventions

    Machine integers are numbers of [Z] whose range is checked ([chk_int],
    [chk_long]) where C leaves an overflow undefined, and that wrap around where
    it does not.  Code that may fail returns an [outcome]: a result, a thrown
    exception ([Throw]), a failed assertion ([AssertFail]), an aborted process
    ([Abort]) or undefined behaviour ([Undefined]).  State is passed along.
    Recursion that is not structural, foremost [Interior::simplifyTop], takes fuel
    and fails with [NoFuel] without it; no theorem takes that for an answer.
    Definitions are executable, and witnesses run them.

    ** The OpenMP layer

    - [XompLoop]: the schedule of loops that the layer computes itself,
      [XOMP_loop_default] and [XOMP_static_even_divide]: the blocks of the
      threads partition the iterations; which loops are refused.
    - [XompRuntime]: the scheduled loops, [XOMP_loop_<schedule>_{init,start,next}]
      and the Fortran entries, over a run-time library (libgomp or Omni) that is
      a record of operations with laws: the half-open bounds of the library are
      turned into closed ones and back; whatever the chunks, the threads of a
      team run every iteration once, and a client's loop terminates.
    - [XompTask]: [xomp_task] packs the parameters of a Fortran task into bytes
      that [run_me_task_<n>] decodes: the round trip, and where it fails.
    - [XompRegion]: parallel regions with the parameter array of
      [xomp_parallel_start], the instrumentation log, sections.
    - [XompSync]: barriers, critical and atomic sections, locks: the calls made
      are balanced.

    ** Symbolic expressions

    - [BitVector]: vectors of bits as numbers with a width.  The loops of the
      library (long multiplication, comparison by differing bit, rotation by
      shifts) are the arithmetic operations on those numbers.
    - [SymType]: the 32-bit encoding of a type, refined by a record.
    - [SymExpr]: the tree of leaves and interior nodes, its construction and
      typing ([adjustWidth]), the order and the equalities of expressions.
    - [SymTyping]: the type system of expressions as rules, one for each group of
      operators; the constructor of nodes accepts exactly the nodes that a rule
      types, with its type ([interior_well_typed]).
    - [SymSimplify]: the passes over a node, the simplifier of every operator,
      and the loop that applies them until nothing changes.
    - [SymMake]: the [make*] functions that users call.
    - [SymSubst]: substitution, renaming of variables, and sets as conditionals.
    - [VarIds]: the identifiers of variables, under concurrent requests.

    The theorems about simplification rest on a semantics that the code does not
    have, and that is their specification: [SymEval] gives every expression a
    value for an assignment of its variables.  [SymGood] says which nodes the
    simplifier is sound for ([ok_node]) and [SymLimits] runs it on the others,
    where the code is wrong.  [SymAC], [SymSound], [SymBits], [SymAdd] and
    [SymShift] prove the passes one by one, for any sound simplifier of what
    they build, and [SymTop] ties the knot: the expression that
    [Interior::instance] returns has the type and the value of the node asked
    for, when that is one of [ok_node] ([instance_keeps_value]).  [SymFuel] shows
    that fuel does not matter and that simplified expressions stay as they are;
    [SymTotal] and [SymFold] show that an operator on constants does become a
    constant, with enough fuel and within the same limits.  The theorems of
    [SymMake] and [SymSubst] are proved from the contract of a simplifier, the
    class [SoundSimplifier], of which [simplifyTop] is an instance: builders
    compute what they are named for, to substitute is to assign, and to rename
    variables carries assignments over (in expressions of integers without
    shifts, [plain]).

    ** Interval containers

    - [SawyerInterval]: an interval is its least and greatest value, of an
      unsigned type of [w] bits not narrower than [int]; set operations, sizes
      and iterators, with their wrapping around.
    - [SawyerIntervalMap]: a map is the list of its nodes in order with the
      number of scalars it holds; an iterator is a position in that list.  What
      adjoining nodes have to do with each other is up to a policy ([Policy]).
    - [SawyerMapFacts] and [SawyerMapTheorems]: a policy is lawful
      ([LawfulPolicy]) when merging and splitting keep what a node says of each
      scalar.  For any lawful policy, a map is a function from scalars that
      insertion and removal update ([IntervalMap_refines]), searches and limits
      read ([IntervalMap_lookup], [unmapped_scalars], [unmapped_runs],
      [IntervalMap_predicates]), and that under the default policy determines
      the nodes ([IntervalMap_canonical]).  No assertion of the code fails.
    - [SawyerSearch]: which nodes the searches for overlaps and for room find.
    - [SawyerIntervalSet]: the operators of sets of intervals are those of sets,
      except for the intersection with one interval.
    - [SawyerAddressMap]: the policy of address maps is lawful: an address keeps
      its place in its buffer.  There a buffer is a number, its identity.
    - [SawyerAddressSpace]: buffers in a heap that segments and maps share, the
      constraints that select addresses, and reading and writing through a map,
      with copies on a write.  [SawyerSpaceFacts]: what that does to a single byte
      of the map, and that maps with storage of their own do not see each other.

    ** Instruction semantics

    The behaviour of an instruction is a program over an interface of operations
    on values, and a semantic domain implements that interface.

    - [RiscOps]: the interface, a class [RiscOperators] over values and a state,
      in a monad of state and failure; the operations that the code builds from
      it (carries, comparisons, conversions, classes of floating point numbers).
    - [RiscConcrete]: the domain of bit vectors, with [RiscConcreteFacts], what
      each operation computes.  [RiscArith], [RiscMulDiv] and [RiscData] say what
      the operations built from them compute on numbers, and where they err.
    - [RiscSymbolic]: the domain of symbolic expressions, over [SymMake], with
      definers, trimming of large expressions and the questions to the solver.
    - [RiscRefine] relates two domains: a class [Simulation] of relations between
      values and between states under which all primitives of one cover those of
      the other, and the theorems that then so do the operations built from
      them.  [RiscBuild] and [RiscSim] show that symbolic execution covers
      concrete execution ([symbolic_primitives]): under every assignment of the
      variables that the context of the solver allows, the result of a symbolic
      operation that returns has the value that the concrete operation computes.
      [RiscExec] makes that an instance and draws the conclusions: the numbers that
      symbolic comparisons, carries, counts, reversals and floating point fields
      stand for ([symbolic_comparisons], [symbolic_derived]).
    - [RegDescriptor]: the word that packs the number, offset and width of a
      register, and the sets of bits that such words name.
    - [RiscRegisters]: the stored parts of registers, which reads and writes
      split, join and create, as two switches allow.  [RiscRegFacts] and
      [RiscRegTheorems] show that whatever the parts, the state represents bits
      that are known or not ([represents]): reads return them, writes and
      removals change the ones they name, for either setting of the switches.
    - [RiscMachine]: registers and memory behind one interface
      ([HasRegisters], [MemoryOperators]), the operands of instructions and their
      addresses.  [RiscRun] is the logic of programs on registers: [runs p f a g]
      says that [p] gives [a] and takes the bits [f] to [g], whatever the parts
      that store them.
    - [RiscMemory]: the memory of concrete semantics, pages allocated on demand
      and values of several bytes, and the machine of registers, memory and heap.
      [RiscMemoryFacts] and [RiscMemoryRun] extend the logic to memory ([goes]);
      [RiscMemoryTheorems] has the promises: a memory is a function from addresses
      to bytes ([memory_refines]), a copy is another memory ([clone_isolated]),
      and a value that is written is read again ([memory_roundtrip]).

    ** Instructions of x86

    - [RiscX86]: registers, modes, and what the instructions share: flags,
      conditions, repetition, addition, rotation, shifts, saturation.
    - [RiscX86Insn], [RiscX86Vector] and [RiscX86Misc]: one program for each of
      the structures [IP_*] of [DispatcherX86.C], with its operands, prefixes and
      exceptions.  [RiscX86Process]: the table from kinds of instructions to these
      programs, the advance of the instruction pointer, and the processing of
      an instruction.
    - [RiscX86Flags], [RiscX86Operands], [RiscX86Arith], [RiscX86Jump] and
      [RiscX86VectorFacts]: rules of the logic for the shared programs.
    - [RiscX86Theorems]: arithmetic and bitwise instructions compute numbers and
      the flags that belong to them ([x86_arithmetic], [x86_bitwise]); what is
      conditional follows the relation that was compared ([x86_conditions], with what a
      jump of 16 bits does to the instruction pointer in 32-bit mode);
      packed instructions compute lane by lane ([x86_vector_lanes]), and where
      saturation is right and where it is not ([x86_saturation]).
    - [RiscX86Stack] and [RiscX86StackTheorems]: [PUSH] and [POP] (with the address
      size of the mode), [CALL] and [RET] undo each other, with memory.
    - [RiscX86String] and [RiscX86StringTheorems]: a repeated [STOS], fetched and
      executed again and again with the address size of the mode, always comes to
      its end ([rep_stos_completes]).

    ** Fuel

    [simplifyTop] spends one unit per round and per level of nested
    simplification.  More fuel never changes a result ([simplifyTop_more]), and
    the runs on constants are shown to end by a measure: a round finishes, or
    leaves fewer operands, or as many and in order.  A loop over the values of an
    interval is given two units more than there are values.  The loop that pads
    the map given to a memory takes fuel, since it need not end; no theorem is
    about it.  A repeated instruction takes none: that it ends is an induction on its counter.

    ** Parameters

    The run-time libraries of OpenMP, the answers of an SMT solver, the
    addresses that break ties between equivalent expressions, the results of
    [malloc], the random choice of a pool, the names of new variables, the
    value that a register is initialized with, and the instruction that converts
    an integer with the arithmetic of the host ([IP_cvtsi2sd]) are arguments.  Their laws are
    stated where they are used (a library hands out each chunk once; a solver
    that answers that two expressions cannot differ is right), with instances.

    ** Not modelled

    - Comments of expressions, attributes, hash values, printing, visitors and
      serialization: they do not influence the results modelled here.
    - Of the containers, the templates that copy a map of another type (they
      would not compile), iterators over single values, serialization, and of
      address maps the buffers on files, matching backward, and the operations
      that keep, erase or change what matches.
    - The representation of bit vectors by words and the conversions to and
      from text.
    - Sharing of subtrees: expressions are immutable but for caches, so a tree
      stands for a node; pointer equality, where [commutative] and
      [compareStructure] use it, is equality of trees or a parameter.
    - Of instruction semantics, the memory states of the symbolic domain, the
      dispatchers of other architectures, the initial state that is updated
      as it is read, arithmetic on floating point numbers (that of
      the host or of the solver), the kinds and the merging of values, and the
      properties and writers kept for registers.  The arguments of a call are
      evaluated from left to right, and of concrete semantics the code for
      x86-64 hosts is the one modelled.
    - The rest of ROSE: the syntax trees and their generated interface, front
      ends, back ends, the OpenMP lowering itself, disassemblers,
      partitioning, model checking, solvers, tools, examples and
      vendored code.  They are tables, drivers or I/O over external parsers, or
      clients of the parts above. *)
From Stdlib Require Export ZArith List Lia Bool.
From stdpp Require Export base tactics numbers list.
Open Scope Z_scope.

(** * Outcomes

    The modelled C and C++ code either returns, throws, aborts, fails an
    assertion, or runs into behaviour the language leaves undefined. *)

Inductive failure :=
  | Throw         (* a C++ exception is thrown *)
  | Abort         (* ROSE_ABORT or exit is called *)
  | AssertFail    (* an assertion fails *)
  | Undefined     (* undefined behaviour, such as a signed overflow *)
  | NoFuel.       (* the model's recursion bound is exhausted *)

#[export] Instance failure_eq_dec : EqDecision failure.
Proof. solve_decision. Defined.

Inductive outcome (A : Type) :=
  | Ret (a : A)
  | Fail (e : failure).
Arguments Ret {A} a.
Arguments Fail {A} e.

Definition obind {A B} (m : outcome A) (k : A -> outcome B) : outcome B :=
  match m with
  | Ret a => k a
  | Fail e => Fail e
  end.

Declare Scope outcome_scope.
Delimit Scope outcome_scope with outcome.
Notation "'let!' x ':=' m 'in' k" := (obind m (fun x => k))
  (at level 10, x name, k at level 200) : outcome_scope.
Notation "'let!' ' x ':=' m 'in' k" := (obind m (fun y => match y with x => k end))
  (at level 10, x strict pattern, k at level 200) : outcome_scope.
Open Scope outcome_scope.

(** [require_ b e] continues when [b] holds and fails with [e] otherwise. *)
Definition require_ (b : bool) (e : failure) : outcome unit :=
  if b then Ret tt else Fail e.
Notation "'assert!' b 'else' e 'in' k" := (obind (require_ b e) (fun _ => k))
  (at level 10, k at level 200) : outcome_scope.

Lemma obind_Ret {A B} (m : outcome A) (k : A -> outcome B) b :
  obind m k = Ret b -> exists a, m = Ret a /\ k a = Ret b.
Proof. destruct m; simpl; [eauto | discriminate]. Qed.

Lemma require_Ret b e u : require_ b e = Ret u -> b = true.
Proof. destruct b; [reflexivity | discriminate]. Qed.

(** Decompose every hypothesis stating that a computation returned. *)
Ltac inv_outcome :=
  repeat match goal with
  | H : obind ?m _ = Ret _ |- _ =>
      let x := fresh "x" in let Hx := fresh "H" in
      apply obind_Ret in H; destruct H as (x & Hx & H)
  | H : require_ _ _ = Ret _ |- _ => apply require_Ret in H
  | H : Ret _ = Ret _ |- _ => injection H; clear H; intros
  | H : Fail _ = Ret _ |- _ => discriminate H
  end.

(** Split every comparison of integers that the goal tests. *)
Ltac case_cmp :=
  repeat match goal with
  | |- context [Z.ltb ?a ?b] => destruct (Z.ltb_spec a b)
  | |- context [Z.leb ?a ?b] => destruct (Z.leb_spec a b)
  | |- context [Z.eqb ?a ?b] => destruct (Z.eqb_spec a b)
  end.

(** * C integers

    A C [int] or [long] is a [Z].  Signed arithmetic is checked: a result
    outside the type is undefined behaviour, never a wrapped value.  A
    conversion to a narrower signed type wraps, as the compilers ROSE
    supports define it. *)

Definition INT_MAX : Z := 2147483647.
Definition INT_MIN : Z := -2147483648.
Definition LONG_MAX : Z := 9223372036854775807.
Definition LONG_MIN : Z := -9223372036854775808.

Definition int_ok (x : Z) : bool := (INT_MIN <=? x) && (x <=? INT_MAX).
Definition long_ok (x : Z) : bool := (LONG_MIN <=? x) && (x <=? LONG_MAX).

Definition chk_int (x : Z) : outcome Z := if int_ok x then Ret x else Fail Undefined.
Definition chk_long (x : Z) : outcome Z := if long_ok x then Ret x else Fail Undefined.

(** Division truncates toward zero and traps on a zero divisor. *)
Definition int_div (x y : Z) : outcome Z :=
  if y =? 0 then Fail Undefined else chk_int (Z.quot x y).
Definition long_div (x y : Z) : outcome Z :=
  if y =? 0 then Fail Undefined else chk_long (Z.quot x y).
Definition long_rem (x y : Z) : outcome Z :=
  if y =? 0 then Fail Undefined
  else let! _ := chk_long (Z.quot x y) in Ret (Z.rem x y).

(** Conversion to a signed type of [w] bits. *)
Definition to_signed (w x : Z) : Z :=
  (x + 2 ^ (w - 1)) mod 2 ^ w - 2 ^ (w - 1).
Definition to_int (x : Z) : Z := to_signed 32 x.
Definition to_long (x : Z) : Z := to_signed 64 x.

Lemma int_ok_spec x : int_ok x = true <-> INT_MIN <= x <= INT_MAX.
Proof. unfold int_ok. rewrite andb_true_iff, !Z.leb_le. reflexivity. Qed.

Lemma long_ok_spec x : long_ok x = true <-> LONG_MIN <= x <= LONG_MAX.
Proof. unfold long_ok. rewrite andb_true_iff, !Z.leb_le. reflexivity. Qed.

Lemma chk_int_ok x : INT_MIN <= x <= INT_MAX -> chk_int x = Ret x.
Proof. intros H. unfold chk_int. now rewrite (proj2 (int_ok_spec x) H). Qed.

Lemma chk_long_ok x : LONG_MIN <= x <= LONG_MAX -> chk_long x = Ret x.
Proof. intros H. unfold chk_long. now rewrite (proj2 (long_ok_spec x) H). Qed.

Lemma chk_int_Ret x y : chk_int x = Ret y -> y = x /\ INT_MIN <= x <= INT_MAX.
Proof.
  unfold chk_int. destruct (int_ok x) eqn:E; [|discriminate].
  intros [= <-]. split; [reflexivity | now apply int_ok_spec].
Qed.

Lemma chk_long_Ret x y : chk_long x = Ret y -> y = x /\ LONG_MIN <= x <= LONG_MAX.
Proof.
  unfold chk_long. destruct (long_ok x) eqn:E; [|discriminate].
  intros [= <-]. split; [reflexivity | now apply long_ok_spec].
Qed.

Lemma to_signed_id w x : 0 < w -> - 2 ^ (w - 1) <= x < 2 ^ (w - 1) -> to_signed w x = x.
Proof.
  intros Hw Hx. unfold to_signed.
  assert (E : 2 ^ w = 2 * 2 ^ (w - 1)) by (rewrite <- Z.pow_succ_r by lia; f_equal; lia).
  rewrite Z.mod_small; lia.
Qed.

Lemma to_int_id x : INT_MIN <= x <= INT_MAX -> to_int x = x.
Proof. intros H. apply to_signed_id; unfold INT_MIN, INT_MAX in H; [|cbn]; lia. Qed.

(** Run the checked operations whose range side conditions [lia] proves. *)
Ltac c_arith :=
  cbn [obind];
  repeat (first [ rewrite chk_int_ok by (unfold INT_MIN, INT_MAX in *; lia)
                | rewrite chk_long_ok by (unfold LONG_MIN, LONG_MAX in *; lia) ];
          cbn [obind]).

(** * Lists *)

Lemma flat_map_ext_in {A B} (f g : A -> list B) l :
  (forall a, In a l -> f a = g a) -> flat_map f l = flat_map g l.
Proof. intros H. rewrite !flat_map_concat_map. f_equal. now apply map_ext_in. Qed.

(** Consecutive cuts at increasing offsets give back the whole range. *)
Lemma seq_cuts (off : nat -> nat) T :
  (forall t, (t < T)%nat -> (off t <= off (S t))%nat) ->
  flat_map (fun t => seq (off t) (off (S t) - off t)) (seq 0 T) =
  seq (off 0%nat) (off T - off 0%nat) /\ (off 0%nat <= off T)%nat.
Proof.
  induction T as [|T IH]; intros Hmono.
  - rewrite Nat.sub_diag. split; [reflexivity | lia].
  - destruct IH as [IH Hle]; [intros t Ht; apply Hmono; lia|].
    pose proof (Hmono T ltac:(lia)). split; [|lia].
    rewrite seq_S, flat_map_app, IH. cbn [flat_map]. rewrite app_nil_r, Nat.add_0_l.
    replace (off (S T) - off 0)%nat with ((off T - off 0) + (off (S T) - off T))%nat by lia.
    rewrite seq_app. repeat f_equal. lia.
Qed.

(** Cutting the first [n] numbers into [T] consecutive blocks of at most [c]. *)
Lemma seq_blocks c T n :
  (n <= T * c)%nat ->
  flat_map (fun t => seq (t * c) (Nat.min c (n - t * c))) (seq 0 T) = seq 0 n.
Proof.
  intros Hn. destruct (seq_cuts (fun t => Nat.min (t * c) n) T) as [H _]; [nia|].
  rewrite (Nat.min_r (T * c)) in H by lia.
  rewrite Nat.mul_0_l, Nat.min_0_l, Nat.sub_0_r in H. rewrite <- H. apply flat_map_ext_in. intros t _. cbv beta.
  destruct (Nat.le_gt_cases n (t * c)).
  - replace (n - t * c)%nat with 0%nat by lia. rewrite Nat.min_0_r.
    assert (E : (Nat.min (S t * c) n - Nat.min (t * c) n = 0)%nat) by lia.
    now rewrite E.
  - f_equal; lia.
Qed.

Lemma map_seq_shift {A} (f : nat -> A) a m :
  map f (seq a m) = map (fun k => f (a + k)%nat) (seq 0 m).
Proof.
  revert f a. induction m as [|m IH]; intros f a; [reflexivity|].
  cbn [seq map]. rewrite Nat.add_0_r, IH, (IH _ 1%nat). f_equal.
  apply map_ext. intros k. f_equal. lia.
Qed.

(** Floor division is monotone, hence commutes with [min]. *)
Lemma Z_div_min a b s : 0 < s -> Z.min a b / s = Z.min (a / s) (b / s).
Proof.
  intros Hs. destruct (Z.le_ge_cases a b) as [H|H].
  - rewrite !Z.min_l; [reflexivity | now apply Z.div_le_mono | assumption].
  - rewrite !Z.min_r; [reflexivity | now apply Z.div_le_mono | assumption].
Qed.
