(* ===== verification/XompLoop.v ===== *)
(** The loop schedules that the XOMP runtime layer computes itself
    ([src/midend/programTransformation/ompLowering/xomp.c]):
    [XOMP_loop_default], which cuts an iteration space among the threads of a
    team, and [XOMP_static_even_divide], which cuts a range of elements. *)
From S2P Require Import Prelude.

(** * Loops of the generated code

    The lowered code runs [for (i = lb; i <= ub; i += s)] when [s] is positive
    and [for (i = lb; i >= ub; i += s)] when it is negative. *)

Definition loop_cond (s i ub : Z) : bool := if 0 <? s then i <=? ub else ub <=? i.

Fixpoint for_loop (fuel : nat) (i ub s : Z) : outcome (list Z) :=
  match fuel with
  | O => Fail NoFuel
  | S fuel =>
      if loop_cond s i ub
      then let! rest := for_loop fuel (i + s) ub s in Ret (i :: rest)
      else Ret []
  end.

(** The iterations in closed form. *)
Definition trip_count (lb ub s : Z) : nat :=
  Z.to_nat (if 0 <? s then (ub - lb) / s + 1 else (lb - ub) / (- s) + 1).

Definition iters (lb ub s : Z) : list Z :=
  map (fun k => lb + Z.of_nat k * s) (seq 0 (trip_count lb ub s)).

Lemma trip_count_next lb ub s :
  s <> 0 -> loop_cond s lb ub = true ->
  trip_count lb ub s = S (trip_count (lb + s) ub s).
Proof.
  unfold loop_cond, trip_count. intros Hs.
  destruct (Z.ltb_spec 0 s); intros Hc%Z.leb_le.
  - replace (ub - (lb + s)) with (ub - lb + (-1) * s) by lia.
    rewrite Z.div_add by lia. pose proof (Z.div_pos (ub - lb) s). lia.
  - replace (lb + s - ub) with (lb - ub + (-1) * - s) by lia.
    rewrite Z.div_add by lia. pose proof (Z.div_pos (lb - ub) (- s)). lia.
Qed.

Lemma trip_count_done lb ub s :
  s <> 0 -> loop_cond s lb ub = false -> trip_count lb ub s = 0%nat.
Proof.
  unfold loop_cond, trip_count. intros Hs.
  destruct (Z.ltb_spec 0 s); intros Hc%Z.leb_gt.
  - assert ((ub - lb) / s < 0) by (apply Z.div_lt_upper_bound; lia). lia.
  - assert ((lb - ub) / - s < 0) by (apply Z.div_lt_upper_bound; lia). lia.
Qed.

Lemma iters_next lb ub s :
  s <> 0 -> loop_cond s lb ub = true -> iters lb ub s = lb :: iters (lb + s) ub s.
Proof.
  intros Hs Hc. unfold iters. rewrite trip_count_next by assumption.
  cbn [seq map]. f_equal; [lia|].
  rewrite <- seq_shift, map_map. apply map_ext. intros k. lia.
Qed.

Lemma for_loop_iters fuel lb ub s :
  s <> 0 -> (trip_count lb ub s < fuel)%nat -> for_loop fuel lb ub s = Ret (iters lb ub s).
Proof.
  intros Hs. revert lb. induction fuel as [|fuel IH]; intros lb Hf; [lia|].
  cbn [for_loop]. destruct (loop_cond s lb ub) eqn:Hc.
  - pose proof (trip_count_next lb ub s Hs Hc).
    rewrite IH by lia. cbn [obind]. now rewrite (iters_next lb ub s).
  - unfold iters. now rewrite trip_count_done.
Qed.

(** * XOMP_loop_default

    [nthreads] and [tid] are what [omp_get_num_threads] and
    [omp_get_thread_num] return to the calling thread.  The bounds are
    inclusive on both sides of the call. *)

Definition XOMP_loop_default (nthreads tid lower upper stride : Z) : outcome (Z * Z) :=
  let isDecremental := upper <? lower in
  let! addOne :=
    if isDecremental
    then assert! negb (0 <? stride) else Abort in Ret 1
    else assert! negb (stride <? 0) else Abort in Ret (-1) in
  let! t1 := chk_int (stride + upper) in
  let! t2 := chk_int (t1 - lower) in
  let! iter_count := int_div t2 stride in
  let! chunk_size := int_div iter_count nthreads in
  let! t3 := chk_int (chunk_size * nthreads) in
  let ck_temp := if t3 =? iter_count then 0 else 1 in
  let! chunk_size := chk_int (ck_temp + chunk_size) in
  let! t4 := chk_int (chunk_size * tid) in
  let! t5 := chk_int (t4 * stride) in
  let! p_lower := chk_int (lower + t5) in
  let! t6 := chk_int (chunk_size * stride) in
  let! t7 := chk_int (p_lower + t6) in
  let! p_upper := chk_int (t7 + addOne) in
  let p_upper :=
    if isDecremental
    then (if upper <? p_upper then p_upper else upper)
    else (if p_upper <? upper then p_upper else upper) in
  Ret (p_lower, p_upper).

(** The Fortran entry point narrows the bounds back to [int]. *)
Definition xomp_loop_default (nthreads tid lower upper stride : Z) : outcome (Z * Z) :=
  let! '(l_lower, l_upper) := XOMP_loop_default nthreads tid lower upper stride in
  assert! int_ok l_lower else AssertFail in
  assert! int_ok l_upper else AssertFail in
  Ret (to_int l_lower, to_int l_upper).

(** What the whole team executes: every thread asks for its bounds and runs
    the generated loop over them. *)
Fixpoint team_iters (nthreads lower upper stride : Z) (tids : list nat) : outcome (list Z) :=
  match tids with
  | [] => Ret []
  | t :: tids =>
      let! '(l, u) := XOMP_loop_default nthreads (Z.of_nat t) lower upper stride in
      let! rest := team_iters nthreads lower upper stride tids in
      Ret (iters l u stride ++ rest)
  end.

(** The number of iterations a thread gets, before the last block is cut. *)
Definition default_chunk (nthreads lower upper stride : Z) : Z :=
  let count := Z.of_nat (trip_count lower upper stride) in
  (count + nthreads - 1) / nthreads.

(** The bounds [XOMP_loop_default] computes, without the overflow checks. *)
Definition default_bounds (nthreads tid lower upper stride : Z) : Z * Z :=
  let chunk := default_chunk nthreads lower upper stride in
  let l := lower + chunk * tid * stride in
  if upper <? lower
  then (l, Z.max (l + chunk * stride + 1) upper)
  else (l, Z.min (l + chunk * stride - 1) upper).

(** A loop that has iterations and whose bounds and stride leave room for the
    block boundaries in an [int]. *)
Record default_loop_ok (n lower upper stride : Z) : Prop := {
  dl_threads : 0 < n;
  dl_stride : stride <> 0;
  dl_up : 0 < stride -> lower <= upper;
  dl_down : stride < 0 -> upper < lower;
  dl_room : Z.abs lower + Z.abs upper + n * Z.abs stride <= INT_MAX
}.

(** ** Arithmetic of the block size *)

Lemma ceil_div_quot a n :
  0 <= a -> 0 < n ->
  (if Z.quot a n * n =? a then 0 else 1) + Z.quot a n = (a + n - 1) / n.
Proof.
  intros Ha Hn. rewrite Z.quot_div_nonneg by lia.
  pose proof (Z.div_mod a n ltac:(lia)) as E.
  pose proof (Z.mod_pos_bound a n Hn).
  destruct (Z.eqb_spec (a / n * n) a) as [H0|H0].
  - replace (a + n - 1) with ((n - 1) + a / n * n) by lia.
    rewrite Z.div_add, (Z.div_small (n - 1)) by lia. lia.
  - apply Z.div_unique with (r := a mod n - 1); lia.
Qed.

Lemma ceil_div_bounds a n :
  0 < a -> 0 < n -> a <= (a + n - 1) / n * n < a + n.
Proof.
  intros Ha Hn. pose proof (Z.div_mod (a + n - 1) n ltac:(lia)).
  pose proof (Z.mod_pos_bound (a + n - 1) n Hn). lia.
Qed.

(** Cutting [c] iterations of step [s] off an iteration space of width [w],
    after [d] iterations. *)
Lemma trip_cut c d w s :
  0 < c -> 0 < s ->
  Z.to_nat (Z.min (c * s - 1) (w - d * s) / s + 1)
  = Nat.min (Z.to_nat c) (Z.to_nat (w / s + 1) - Z.to_nat d)%nat \/ d < 0.
Proof.
  intros Hc Hs. destruct (Z.ltb_spec d 0) as [Hd|Hd]; [now right | left].
  rewrite Z_div_min by assumption.
  replace (c * s - 1) with (s - 1 + (c - 1) * s) by lia.
  replace (w - d * s) with (w + (- d) * s) by lia.
  rewrite !Z.div_add, (Z.div_small (s - 1)) by lia. lia.
Qed.

Section DefaultSchedule.
Variables n lower upper stride : Z.
Hypothesis ok : default_loop_ok n lower upper stride.

Let count : Z := Z.of_nat (trip_count lower upper stride).
Let chunk : Z := default_chunk n lower upper stride.

(** The last iteration is the last multiple of the stride inside the bounds. *)
Lemma count_spec :
  0 < count /\
  (if 0 <? stride
   then lower + (count - 1) * stride <= upper < lower + count * stride
   else lower + count * stride < upper <= lower + (count - 1) * stride).
Proof.
  destruct ok as [Hn Hs Hup Hdown _]. unfold count, trip_count.
  destruct (Z.ltb_spec 0 stride) as [Hp|Hp].
  - pose proof (Z.div_pos (upper - lower) stride ltac:(lia) Hp).
    pose proof (Z.div_mod (upper - lower) stride Hs).
    pose proof (Z.mod_pos_bound (upper - lower) stride Hp).
    rewrite Z2Nat.id by lia. lia.
  - pose proof (Z.div_pos (lower - upper) (- stride) ltac:(lia) ltac:(lia)).
    pose proof (Z.div_mod (lower - upper) (- stride) ltac:(lia)).
    pose proof (Z.mod_pos_bound (lower - upper) (- stride) ltac:(lia)).
    rewrite Z2Nat.id by lia. lia.
Qed.

Lemma count_quot : Z.quot (stride + upper - lower) stride = count.
Proof.
  destruct ok as [Hn Hs Hup Hdown _]. unfold count, trip_count.
  destruct (Z.ltb_spec 0 stride) as [Hp|Hp].
  - rewrite Z.quot_div_nonneg by lia.
    replace (stride + upper - lower) with (upper - lower + 1 * stride) by lia.
    rewrite Z.div_add by lia.
    pose proof (Z.div_pos (upper - lower) stride ltac:(lia) Hp). lia.
  - rewrite <- Z.quot_opp_opp by lia. rewrite Z.quot_div_nonneg by lia.
    replace (- (stride + upper - lower)) with (lower - upper + 1 * - stride) by lia.
    rewrite Z.div_add by lia.
    pose proof (Z.div_pos (lower - upper) (- stride) ltac:(lia) ltac:(lia)). lia.
Qed.

Lemma chunk_bounds : count <= chunk * n < count + n.
Proof. apply ceil_div_bounds; [apply count_spec | apply ok]. Qed.

Lemma chunk_pos : 0 < chunk.
Proof. pose proof chunk_bounds. pose proof count_spec. destruct ok. nia. Qed.

(** How far the iteration space and the rounding of the blocks reach. *)
Lemma span_room :
  (count + n - 1) * Z.abs stride <= Z.abs (upper - lower) + n * Z.abs stride.
Proof. pose proof count_spec as [_ Hc]. destruct (Z.ltb_spec 0 stride); lia. Qed.

(** Every quantity the routine computes for block [t] stays close to the
    iteration space. *)
Lemma block_room t :
  0 <= t <= n ->
  0 <= chunk * t <= count + n - 1 /\
  0 <= chunk * t * Z.abs stride <= Z.abs (upper - lower) + n * Z.abs stride.
Proof.
  intros Ht. pose proof chunk_bounds as Hc. pose proof chunk_pos.
  pose proof span_room.
  assert (0 <= chunk * t <= chunk * n) by nia.
  assert (chunk * t * Z.abs stride <= (count + n - 1) * Z.abs stride) by nia. nia.
Qed.

Lemma XOMP_loop_default_bounds tid :
  0 <= tid < n ->
  XOMP_loop_default n tid lower upper stride = Ret (default_bounds n tid lower upper stride).
Proof.
  intros Ht. pose proof (block_room tid ltac:(lia)) as [HA HB].
  pose proof (block_room (tid + 1) ltac:(lia)) as [HC HD].
  pose proof (block_room 1 ltac:(lia)) as [HE HF].
  pose proof chunk_bounds as Hcb. pose proof count_spec as [Hpos _].
  pose proof ok as [Hn Hs Hup Hdown Hroom].
  unfold XOMP_loop_default.
  assert (Hguard : (if upper <? lower
            then assert! negb (0 <? stride) else Abort in Ret 1
            else assert! negb (stride <? 0) else Abort in Ret (-1))
          = Ret (if upper <? lower then 1 else -1)).
  { case_cmp; try reflexivity; lia. }
  rewrite Hguard. cbn [obind].
  assert (Hs1 : 1 <= Z.abs stride) by lia.
  assert (Z.abs stride <= n * Z.abs stride) by nia.
  assert (count + n - 1 <= INT_MAX).
  { pose proof span_room. nia. }
  assert (Hsign : stride = Z.abs stride \/ stride = - Z.abs stride) by lia.
  c_arith. unfold int_div.
  replace (stride + upper - lower) with (stride + upper - lower) by lia.
  rewrite count_quot, (proj2 (Z.eqb_neq stride 0)), (proj2 (Z.eqb_neq n 0)) by lia.
  c_arith.
  assert (0 <= Z.quot count n * n <= count).
  { rewrite Z.quot_div_nonneg by lia. pose proof (Z.mul_div_le count n Hn).
    pose proof (Z.div_pos count n). nia. }
  assert (0 <= Z.quot count n <= count) by nia.
  pose proof (ceil_div_quot count n ltac:(lia) Hn) as Hceil.
  change ((count + n - 1) / n) with chunk in Hceil.
  c_arith. rewrite Hceil.
  assert (Z.abs (chunk * tid * stride) = chunk * tid * Z.abs stride) by nia.
  assert (Z.abs (chunk * stride) = chunk * Z.abs stride) by nia.
  c_arith.
  unfold default_bounds. fold chunk.
  destruct (Z.ltb_spec upper lower).
  - assert (stride = - Z.abs stride) by lia.
    assert (chunk * (tid + 1) * stride = - (chunk * (tid + 1) * Z.abs stride)) by nia.
    c_arith. do 2 f_equal. case_cmp; lia.
  - assert (stride = Z.abs stride) by lia.
    assert (chunk * (tid + 1) * stride = chunk * (tid + 1) * Z.abs stride) by nia.
    c_arith. do 2 f_equal. case_cmp; lia.
Qed.

(** The block of thread [t] is a run of consecutive iterations. *)
Lemma default_block_trip t l u :
  (l, u) = default_bounds n (Z.of_nat t) lower upper stride ->
  l = lower + Z.of_nat (t * Z.to_nat chunk) * stride /\
  trip_count l u stride =
  Nat.min (Z.to_nat chunk) (trip_count lower upper stride - t * Z.to_nat chunk).
Proof.
  unfold default_bounds. fold chunk. intros E. pose proof chunk_pos as Hck.
  pose proof ok as [Hn Hs Hup Hdown _].
  assert (Hd : Z.of_nat (t * Z.to_nat chunk) = chunk * Z.of_nat t) by lia.
  set (d := chunk * Z.of_nat t) in *.
  replace (t * Z.to_nat chunk)%nat with (Z.to_nat d) by lia.
  unfold trip_count. destruct (Z.ltb_spec upper lower), (Z.ltb_spec 0 stride);
    try lia; injection E as -> ->; (split; [lia|]).
  - destruct (trip_cut chunk d (lower - upper) (- stride)) as [Hcut|]; [lia..| |lia].
    rewrite <- Hcut. do 2 f_equal. f_equal. lia.
  - destruct (trip_cut chunk d (upper - lower) stride) as [Hcut|]; [lia..| |lia].
    rewrite <- Hcut. do 2 f_equal. f_equal. lia.
Qed.

Lemma default_block_iters t l u :
  (l, u) = default_bounds n (Z.of_nat t) lower upper stride ->
  iters l u stride =
  map (fun k => lower + Z.of_nat k * stride)
      (seq (t * Z.to_nat chunk)
           (Nat.min (Z.to_nat chunk) (trip_count lower upper stride - t * Z.to_nat chunk))).
Proof.
  intros E. destruct (default_block_trip t l u E) as [Hl Ht].
  unfold iters. rewrite Ht, (map_seq_shift _ (t * Z.to_nat chunk)).
  apply map_ext. intros k. lia.
Qed.

Lemma team_iters_blocks tids :
  Forall (fun t => Z.of_nat t < n) tids ->
  team_iters n lower upper stride tids =
  Ret (map (fun k => lower + Z.of_nat k * stride)
         (flat_map (fun t => seq (t * Z.to_nat chunk)
           (Nat.min (Z.to_nat chunk) (trip_count lower upper stride - t * Z.to_nat chunk)))
           tids)).
Proof.
  induction 1 as [|t tids Ht _ IH]; [reflexivity|].
  cbn [team_iters flat_map]. rewrite XOMP_loop_default_bounds by lia. cbn [obind].
  destruct (default_bounds n (Z.of_nat t) lower upper stride) as [l u] eqn:E.
  rewrite IH. cbn [obind]. now rewrite map_app, (default_block_iters t l u).
Qed.
End DefaultSchedule.

(** * XOMP_static_even_divide *)

Definition XOMP_static_even_divide (start orig_size chunk_count chunk_id : Z)
    : outcome (Z * Z) :=
  assert! 0 <? orig_size else AssertFail in
  assert! 0 <? chunk_count else AssertFail in
  assert! 0 <=? chunk_id else AssertFail in
  let! size := long_div orig_size chunk_count in
  let! t := chk_long (size * chunk_id) in
  let! offset := chk_long (start + t) in
  let! remainder := long_rem orig_size chunk_count in
  let! size := if chunk_id <? remainder then chk_long (size + 1) else Ret size in
  let! offset := if remainder <=? chunk_id
                 then chk_long (offset + remainder)
                 else chk_long (offset + chunk_id) in
  Ret (offset, size).

(** The elements of a chunk, and of the chunks of a list of ids. *)
Definition range (offset size : Z) : list Z :=
  map (fun k => offset + Z.of_nat k) (seq 0 (Z.to_nat size)).

Fixpoint divided (start orig_size chunk_count : Z) (ids : list nat) : outcome (list Z) :=
  match ids with
  | [] => Ret []
  | i :: ids =>
      let! '(off, size) := XOMP_static_even_divide start orig_size chunk_count (Z.of_nat i) in
      let! rest := divided start orig_size chunk_count ids in
      Ret (range off size ++ rest)
  end.

(** Where chunk [i] starts, relative to the start of the range. *)
Definition even_cut (orig_size chunk_count i : Z) : Z :=
  orig_size / chunk_count * i + Z.min i (orig_size mod chunk_count).

Section EvenDivide.
Variables start orig_size chunk_count : Z.
Hypothesis Hsize : 0 < orig_size.
Hypothesis Hcount : 0 < chunk_count.
Hypothesis Hroom : LONG_MIN <= start /\ start + orig_size <= LONG_MAX /\ orig_size <= LONG_MAX.

Let cut : Z -> Z := even_cut orig_size chunk_count.

Lemma even_cut_end : cut chunk_count = orig_size.
Proof.
  unfold cut, even_cut. pose proof (Z.mod_pos_bound orig_size chunk_count Hcount).
  pose proof (Z.div_mod orig_size chunk_count ltac:(lia)). lia.
Qed.

Lemma even_cut_step i :
  0 <= i ->
  cut (i + 1) - cut i =
  orig_size / chunk_count + (if i <? orig_size mod chunk_count then 1 else 0).
Proof. intros Hi. unfold cut, even_cut. case_cmp; lia. Qed.

Lemma even_cut_range i : 0 <= i <= chunk_count -> 0 <= cut i <= orig_size.
Proof.
  intros Hi. rewrite <- even_cut_end. unfold cut, even_cut.
  pose proof (Z.div_pos orig_size chunk_count).
  pose proof (Z.mod_pos_bound orig_size chunk_count Hcount). nia.
Qed.

Lemma XOMP_static_even_divide_cut i :
  0 <= i < chunk_count ->
  XOMP_static_even_divide start orig_size chunk_count i =
  Ret (start + cut i, cut (i + 1) - cut i).
Proof.
  intros Hi. pose proof (even_cut_range i ltac:(lia)) as Hc.
  pose proof (even_cut_range (i + 1) ltac:(lia)). rewrite even_cut_step by lia.
  revert Hc. unfold cut, even_cut. intros Hc.
  pose proof (Z.div_pos orig_size chunk_count ltac:(lia) Hcount).
  pose proof (Z.mod_pos_bound orig_size chunk_count Hcount).
  pose proof (Z.div_mod orig_size chunk_count ltac:(lia)) as Hdm.
  assert (orig_size / chunk_count <= chunk_count * (orig_size / chunk_count)) by nia.
  unfold XOMP_static_even_divide, long_div, long_rem.
  rewrite !(proj2 (Z.ltb_lt _ _)), (proj2 (Z.leb_le 0 i)) by lia. cbn [require_ obind].
  rewrite (proj2 (Z.eqb_neq chunk_count 0)) by lia.
  rewrite Z.quot_div_nonneg, Z.rem_mod_nonneg by lia.
  assert (0 <= orig_size / chunk_count * i) by nia.
  c_arith. case_cmp; c_arith; do 2 f_equal; lia.
Qed.

Lemma divided_cuts ids :
  Forall (fun i => Z.of_nat i < chunk_count) ids ->
  divided start orig_size chunk_count ids =
  Ret (map (fun k => start + Z.of_nat k)
         (flat_map (fun i => seq (Z.to_nat (cut (Z.of_nat i)))
            (Z.to_nat (cut (Z.of_nat (S i))) - Z.to_nat (cut (Z.of_nat i)))) ids)).
Proof.
  induction 1 as [|i ids Hi _ IH]; [reflexivity|].
  pose proof (even_cut_range (Z.of_nat i) ltac:(lia)).
  cbn [divided flat_map]. rewrite XOMP_static_even_divide_cut by lia. cbn [obind].
  rewrite IH. cbn [obind]. rewrite map_app. do 2 f_equal. unfold range.
  rewrite (map_seq_shift _ (Z.to_nat (cut (Z.of_nat i)))). replace (Z.of_nat (S i)) with (Z.of_nat i + 1) by lia.
  rewrite Z2Nat.inj_sub by lia. apply map_ext. intros k. lia.
Qed.
End EvenDivide.

Lemma even_divide_size start orig_size chunk_count i o s :
  XOMP_static_even_divide start orig_size chunk_count i = Ret (o, s) ->
  0 < orig_size /\ 0 < chunk_count /\ 0 <= i /\
  s = orig_size / chunk_count + (if i <? orig_size mod chunk_count then 1 else 0).
Proof.
  unfold XOMP_static_even_divide, long_div, long_rem. intros H.
  destruct (Z.ltb_spec 0 orig_size) as [Ho|], (Z.ltb_spec 0 chunk_count) as [Hc|];
    try (inv_outcome; discriminate).
  rewrite (proj2 (Z.eqb_neq chunk_count 0)) in H by lia.
  rewrite Z.quot_div_nonneg, Z.rem_mod_nonneg in H by lia.
  inv_outcome. subst. destruct (i <? orig_size mod chunk_count); inv_outcome; subst;
    repeat match goal with Hk : chk_long _ = Ret _ |- _ => apply chk_long_Ret in Hk as [-> _] end;
    repeat split; lia.
Qed.

(** * Properties *)



(** Degenerate loops of the default schedule: an ascending loop that must
    not run at all and a descending loop whose first iteration is its last
    abort the process instead of returning empty or one-element bounds, and a
    zero stride divides by zero. *)
Theorem XOMP_loop_default_degenerate n tid lower upper stride :
  (0 < stride -> upper < lower ->
   XOMP_loop_default n tid lower upper stride = Fail Abort) /\
  (stride < 0 -> lower <= upper ->
   XOMP_loop_default n tid lower upper stride = Fail Abort) /\
  (stride = 0 -> XOMP_loop_default n tid lower upper stride = Fail Undefined).
Proof.
  unfold XOMP_loop_default. repeat split; intros.
  - now rewrite (proj2 (Z.ltb_lt upper lower)), (proj2 (Z.ltb_lt 0 stride)) by lia.
  - now rewrite (proj2 (Z.ltb_ge upper lower)), (proj2 (Z.ltb_lt stride 0)) by lia.
  - subst. destruct (upper <? lower); cbn [require_ obind negb Z.ltb];
      unfold chk_int; repeat (destruct (int_ok _); cbn [obind]; try reflexivity).
Qed.

Theorem XOMP_loop_default_degenerate_witness :
  XOMP_loop_default 4 0 5 3 1 = Fail Abort /\ iters 5 3 1 = [] /\
  XOMP_loop_default 4 0 7 7 (-1) = Fail Abort /\ iters 7 7 (-1) = [7].
Proof.
  destruct (XOMP_loop_default_degenerate 4 0 5 3 1) as [H _].
  destruct (XOMP_loop_default_degenerate 4 0 7 7 (-1)) as [_ [H' _]].
  split; [apply H; lia|]. split; [reflexivity|]. split; [apply H'; lia|reflexivity].
Defined.

(** Even division: for a non-empty range that fits the type, the chunks of
    the ids [0 .. chunk_count-1] are computed without overflow and together
    are exactly the elements of the range, in order. *)
Theorem XOMP_static_even_divide_partition start orig_size chunk_count :
  0 < orig_size -> 0 < chunk_count ->
  LONG_MIN <= start /\ start + orig_size <= LONG_MAX /\ orig_size <= LONG_MAX ->
  divided start orig_size chunk_count (seq 0 (Z.to_nat chunk_count)) =
  Ret (range start orig_size).
Proof.
  intros Hs Hc Hr. rewrite divided_cuts; [|assumption..|].
  - destruct (seq_cuts (fun i => Z.to_nat (even_cut orig_size chunk_count (Z.of_nat i)))
                (Z.to_nat chunk_count)) as [-> _].
    + intros i Hi. pose proof (even_cut_step orig_size chunk_count (Z.of_nat i) ltac:(lia)).
      replace (Z.of_nat (S i)) with (Z.of_nat i + 1) by lia.
      pose proof (Z.div_pos orig_size chunk_count). destruct (_ <? _); lia.
    + rewrite Z2Nat.id, even_cut_end by lia.
      replace (Z.to_nat (even_cut _ _ _)) with 0%nat; [now rewrite Nat.sub_0_r|].
      unfold even_cut. pose proof (Z.mod_pos_bound orig_size chunk_count Hc). lia.
  - apply Forall_forall. intros i Hi%elem_of_seq. lia.
Qed.

Theorem XOMP_static_even_divide_partition_witness :
  divided 100 10 4 (seq 0 (Z.to_nat 4)) = Ret (range 100 10).
Proof.
  apply (XOMP_static_even_divide_partition 100 10 4); unfold LONG_MIN, LONG_MAX; lia.
Defined.

(** Even division is balanced: whenever two chunks of one division are
    computed, their sizes differ by at most one element, and a chunk is never
    larger than the rounded-up share. *)
Theorem XOMP_static_even_divide_balanced start orig_size chunk_count i j oi si oj sj :
  XOMP_static_even_divide start orig_size chunk_count i = Ret (oi, si) ->
  XOMP_static_even_divide start orig_size chunk_count j = Ret (oj, sj) ->
  Z.abs (si - sj) <= 1 /\ 0 <= si <= (orig_size + chunk_count - 1) / chunk_count.
Proof.
  intros Hi Hj. apply even_divide_size in Hi as (Ho & Hc & Hi & ->).
  apply even_divide_size in Hj as (_ & _ & Hj & ->).
  rewrite <- (ceil_div_quot orig_size chunk_count) by lia.
  rewrite Z.quot_div_nonneg by lia.
  pose proof (Z.div_pos orig_size chunk_count ltac:(lia) Hc).
  pose proof (Z.div_mod orig_size chunk_count ltac:(lia)).
  pose proof (Z.mod_pos_bound orig_size chunk_count Hc).
  rewrite (Z.mul_comm _ chunk_count). case_cmp; lia.
Qed.

Theorem XOMP_static_even_divide_balanced_witness :
  Z.abs (3 - 2) <= 1 /\ 0 <= 3 <= (10 + 4 - 1) / 4.
Proof.
  apply (XOMP_static_even_divide_balanced 100 10 4 0 3 100 3 108 2); reflexivity.
Defined.
