(* ===== verification/XompRuntime.v ===== *)
(** The scheduled worksharing loops of the XOMP layer
    ([src/midend/programTransformation/ompLowering/xomp.c]): initialisation,
    [XOMP_loop_*_start], [XOMP_loop_*_next] and their Fortran entry points, over
    the runtime library ([libgomp] or Omni) they call.  The library is not part
    of the repository: it is the record [runtime], whose documented behaviour
    the class [ChunkServer] states. *)
From S2P Require Import Prelude XompLoop.

(** Which library the layer is compiled for: [USE_ROSE_GOMP_OPENMP_LIBRARY]. *)
Inductive backend := Gomp | Omni.
#[export] Instance backend_eq_dec : EqDecision backend.
Proof. solve_decision. Defined.

Inductive schedule := Static | Dynamic | Guided | Runtime.

(** * The runtime library

    Every operation names the calling thread.  An output parameter is passed
    with the value its location holds before the call and returned with the
    value it holds after.  The [runtime] schedule takes no chunk size. *)

Record runtime (St : Type) := {
  (** [GOMP_loop_<schedule>_start], [GOMP_loop_ordered_<schedule>_start] *)
  GOMP_loop_start (tid : nat) (k : schedule) (ordered : bool)
    (start end_ incr : Z) (chunk : option Z) (istart iend : Z) : St -> bool * Z * Z * St;
  (** [GOMP_loop_<schedule>_next], [GOMP_loop_ordered_<schedule>_next] *)
  GOMP_loop_next (tid : nat) (k : schedule) (ordered : bool)
    (istart iend : Z) : St -> bool * Z * Z * St;
  (** [_ompc_<schedule>_sched_next], on two [int] locations *)
  ompc_sched_next (tid : nat) (k : schedule) (l u : Z) : St -> bool * Z * Z * St;
  (** [_ompc_<schedule>_sched_init] *)
  ompc_sched_init (tid : nat) (k : schedule) (lower upper stride : Z)
    (chunk : option Z) : St -> St;
  (** [_ompc_init_ordered] *)
  ompc_init_ordered (tid : nat) (lb step : Z) : St -> St
}.
Arguments GOMP_loop_start {St} r.
Arguments GOMP_loop_next {St} r.
Arguments ompc_sched_next {St} r.
Arguments ompc_sched_init {St} r.
Arguments ompc_init_ordered {St} r.

(** * The bounds on both sides of the layer *)

(** A [long] location whose low half is written as an [int] through a cast
    pointer, on a little-endian target with 64-bit longs; and the [int] read
    there. *)
Definition set_int (old v : Z) : Z := old - old mod 2 ^ 32 + v mod 2 ^ 32.
Definition get_int (old : Z) : Z := to_int old.

(** Inclusive to exclusive upper bound: [if (incr > 0) end++; else end--;]. *)
Definition to_exclusive (incr e : Z) : outcome Z :=
  if 0 <? incr then chk_long (e + 1) else chk_long (e - 1).

(** Exclusive to inclusive, after a start and after a next. *)
Definition to_inclusive (incr e : Z) : outcome Z :=
  if 0 <? incr then chk_long (e - 1) else chk_long (e + 1).
Definition next_inclusive (l u : Z) : outcome Z :=
  if l <? u then chk_long (u - 1) else chk_long (u + 1).

Section Layer.
Context {St : Type} (R : runtime St) (be : backend) (tid : nat).

(** [_ompc_*_sched_next ((int * )l, (int * )u)] on two [long] locations. *)
Definition omni_next (k : schedule) (l u : Z) (s : St) : bool * Z * Z * St :=
  let '(rt, vl, vu, s) := ompc_sched_next R tid k (get_int l) (get_int u) s in
  (rt, set_int l vl, set_int u vu, s).

(** ** Start

    [istart] is what the caller's location holds before the call and [lend]
    the indeterminate value of the local variable. *)
Definition loop_start (k : schedule) (ordered : bool) (start end_ incr : Z)
    (chunk : option Z) (istart lend : Z) (s : St) : outcome (bool * Z * Z * St) :=
  let! end_ := to_exclusive incr end_ in
  let '(rt, istart, lend, s) :=
    match be with
    | Gomp => GOMP_loop_start R tid k ordered start end_ incr chunk istart lend s
    | Omni => omni_next k istart lend s
    end in
  let! iend := to_inclusive incr lend in
  Ret (rt, istart, iend, s).

Definition XOMP_loop_static_start start end_ incr chunk_size :=
  loop_start Static false start end_ incr (Some chunk_size).
Definition XOMP_loop_dynamic_start start end_ incr chunk_size :=
  loop_start Dynamic false start end_ incr (Some chunk_size).
Definition XOMP_loop_guided_start start end_ incr chunk_size :=
  loop_start Guided false start end_ incr (Some chunk_size).
Definition XOMP_loop_runtime_start start end_ incr :=
  loop_start Runtime false start end_ incr None.
Definition XOMP_loop_ordered_static_start start end_ incr chunk_size :=
  loop_start Static true start end_ incr (Some chunk_size).
Definition XOMP_loop_ordered_dynamic_start start end_ incr chunk_size :=
  loop_start Dynamic true start end_ incr (Some chunk_size).
Definition XOMP_loop_ordered_guided_start start end_ incr chunk_size :=
  loop_start Guided true start end_ incr (Some chunk_size).

(** The ordered runtime start initialises its locals and asks Omni nothing. *)
Definition XOMP_loop_ordered_runtime_start (start end_ incr istart : Z) (s : St)
    : outcome (bool * Z * Z * St) :=
  let rt := false in
  let lend := 0 in
  let! end_ := to_exclusive incr end_ in
  let '(rt, istart, lend, s) :=
    match be with
    | Gomp => GOMP_loop_start R tid Runtime true start end_ incr None istart lend s
    | Omni => (rt, istart, lend, s)
    end in
  let! iend := to_inclusive incr lend in
  Ret (rt, istart, iend, s).

(** ** Next *)
Definition loop_next (k : schedule) (ordered : bool) (l lu : Z) (s : St)
    : outcome (bool * Z * Z * St) :=
  let '(rt, l, lu, s) :=
    match be with
    | Gomp => GOMP_loop_next R tid k ordered l lu s
    | Omni => omni_next k l lu s
    end in
  let! u := next_inclusive l lu in
  Ret (rt, l, u, s).

Definition XOMP_loop_static_next := loop_next Static false.
Definition XOMP_loop_dynamic_next := loop_next Dynamic false.
Definition XOMP_loop_guided_next := loop_next Guided false.
Definition XOMP_loop_runtime_next := loop_next Runtime false.
Definition XOMP_loop_ordered_static_next := loop_next Static true.
Definition XOMP_loop_ordered_dynamic_next := loop_next Dynamic true.
Definition XOMP_loop_ordered_guided_next := loop_next Guided true.
Definition XOMP_loop_ordered_runtime_next := loop_next Runtime true.

(** ** Initialisation: empty for [libgomp] *)
Definition init_upper (stride upper : Z) : outcome Z :=
  if 0 <? stride then chk_int (upper + 1) else chk_int (upper - 1).

Definition loop_init (k : schedule) (lower upper stride : Z) (chunk : option Z) (s : St)
    : outcome St :=
  match be with
  | Gomp => Ret s
  | Omni =>
      let! upper := init_upper stride upper in
      Ret (ompc_sched_init R tid k lower upper stride chunk s)
  end.

Definition loop_ordered_init (k : schedule) (lower upper stride : Z)
    (chunk : option Z) (s : St) : outcome St :=
  match be with
  | Gomp => Ret s
  | Omni =>
      let! upper := init_upper stride upper in
      let s := ompc_init_ordered R tid lower upper s in
      let chunk := option_map (fun c => if c =? 0 then 1 else c) chunk in
      Ret (ompc_sched_init R tid k lower upper stride chunk s)
  end.

Definition XOMP_loop_static_init lower upper stride chunk_size :=
  loop_init Static lower upper stride (Some chunk_size).
Definition XOMP_loop_dynamic_init lower upper stride chunk_size :=
  loop_init Dynamic lower upper stride (Some chunk_size).
Definition XOMP_loop_guided_init lower upper stride chunk_size :=
  loop_init Guided lower upper stride (Some chunk_size).
Definition XOMP_loop_runtime_init lower upper stride :=
  loop_init Runtime lower upper stride None.
Definition XOMP_loop_ordered_static_init lower upper stride chunk_size :=
  loop_ordered_init Static lower upper stride (Some chunk_size).
Definition XOMP_loop_ordered_dynamic_init lower upper stride chunk_size :=
  loop_ordered_init Dynamic lower upper stride (Some chunk_size).
Definition XOMP_loop_ordered_guided_init lower upper stride chunk_size :=
  loop_ordered_init Guided lower upper stride (Some chunk_size).
Definition XOMP_loop_ordered_runtime_init lower upper stride :=
  loop_ordered_init Runtime lower upper stride None.

(** ** Fortran entry points

    [int] locations take the bounds; their range is asserted only when a chunk
    was served, so that garbage is not. *)
Definition fortran_bounds (r : outcome (bool * Z * Z * St)) : outcome (bool * Z * Z * St) :=
  let! '(rt, l, u, s) := r in
  assert! negb rt || int_ok l else AssertFail in
  assert! negb rt || int_ok u else AssertFail in
  Ret (rt, to_int l, to_int u, s).

Definition xomp_loop_static_start start end_ incr chunk_size l_istart lend s :=
  fortran_bounds (XOMP_loop_static_start start end_ incr chunk_size l_istart lend s).
Definition xomp_loop_dynamic_start start end_ incr chunk_size l_istart lend s :=
  fortran_bounds (XOMP_loop_dynamic_start start end_ incr chunk_size l_istart lend s).
Definition xomp_loop_guided_start start end_ incr chunk_size l_istart lend s :=
  fortran_bounds (XOMP_loop_guided_start start end_ incr chunk_size l_istart lend s).
Definition xomp_loop_runtime_start start end_ incr l_istart lend s :=
  fortran_bounds (XOMP_loop_runtime_start start end_ incr l_istart lend s).
Definition xomp_loop_ordered_static_start start end_ incr chunk_size l_istart lend s :=
  fortran_bounds (XOMP_loop_ordered_static_start start end_ incr chunk_size l_istart lend s).
Definition xomp_loop_ordered_dynamic_start start end_ incr chunk_size l_istart lend s :=
  fortran_bounds (XOMP_loop_ordered_dynamic_start start end_ incr chunk_size l_istart lend s).
Definition xomp_loop_ordered_guided_start start end_ incr chunk_size l_istart lend s :=
  fortran_bounds (XOMP_loop_ordered_guided_start start end_ incr chunk_size l_istart lend s).
Definition xomp_loop_ordered_runtime_start start end_ incr l_istart s :=
  fortran_bounds (XOMP_loop_ordered_runtime_start start end_ incr l_istart s).

Definition xomp_loop_static_next l_l lu s := fortran_bounds (XOMP_loop_static_next l_l lu s).
Definition xomp_loop_dynamic_next l_l lu s := fortran_bounds (XOMP_loop_dynamic_next l_l lu s).
Definition xomp_loop_guided_next l_l lu s := fortran_bounds (XOMP_loop_guided_next l_l lu s).
Definition xomp_loop_runtime_next l_l lu s := fortran_bounds (XOMP_loop_runtime_next l_l lu s).
Definition xomp_loop_ordered_static_next l_l lu s :=
  fortran_bounds (XOMP_loop_ordered_static_next l_l lu s).
Definition xomp_loop_ordered_dynamic_next l_l lu s :=
  fortran_bounds (XOMP_loop_ordered_dynamic_next l_l lu s).
Definition xomp_loop_ordered_guided_next l_l lu s :=
  fortran_bounds (XOMP_loop_ordered_guided_next l_l lu s).
Definition xomp_loop_ordered_runtime_next l_l lu s :=
  fortran_bounds (XOMP_loop_ordered_runtime_next l_l lu s).
End Layer.

(** * What the library promises

    A half-open chunk [(l, u)] and its iterations. *)

Definition half_iters (incr : Z) (c : Z * Z) : list Z :=
  iters c.1 (if 0 <? incr then c.2 - 1 else c.2 + 1) incr.

Definition chunk_ok (incr : Z) (c : Z * Z) : Prop :=
  LONG_MIN <= c.1 <= LONG_MAX /\ LONG_MIN <= c.2 <= LONG_MAX /\
  if 0 <? incr then c.1 < c.2 else c.2 < c.1.

(** [libgomp]'s documented behaviour: the first start of a loop cuts its
    iteration space into non-empty chunks; every start and next either serves
    one of the chunks left to serve and returns true, or returns false and
    writes nothing. *)
Class ChunkServer {St} (R : runtime St) := {
  fresh : St -> Prop;
  todo : St -> list (Z * Z);
  serves : list (Z * Z) -> Z -> bool * Z * Z * St -> Prop :=
    fun chunks old r =>
      let '(rt, l, u, s) := r in
      ~ fresh s /\
      if rt then chunks ≡ₚ (l, u) :: todo s else todo s = chunks /\ u = old;
  start_fresh tid k ord start end_ incr chunk l u s :
    fresh s -> incr <> 0 ->
    LONG_MIN <= start <= LONG_MAX -> LONG_MIN <= end_ <= LONG_MAX ->
    exists chunks,
      Forall (chunk_ok incr) chunks /\
      flat_map (half_iters incr) chunks ≡ₚ half_iters incr (start, end_) /\
      serves chunks u (GOMP_loop_start R tid k ord start end_ incr chunk l u s);
  start_begun tid k ord start end_ incr chunk l u s :
    ~ fresh s -> serves (todo s) u (GOMP_loop_start R tid k ord start end_ incr chunk l u s);
  next_begun tid k ord l u s :
    ~ fresh s -> serves (todo s) u (GOMP_loop_next R tid k ord l u s)
}.

(** For a demand-driven schedule, false means that no chunk is left. *)
Class WorkConserving {St} (R : runtime St) `{!ChunkServer R} := {
  start_drained tid k ord start end_ incr chunk l u s l' u' s' :
    GOMP_loop_start R tid k ord start end_ incr chunk l u s = (false, l', u', s') ->
    todo s' = [];
  next_drained tid k ord l u s l' u' s' :
    GOMP_loop_next R tid k ord l u s = (false, l', u', s') -> todo s' = []
}.

(** * A team at work

    The threads call in any order; [calls] lists the calling thread of each
    call with the garbage in its uninitialised local.  A thread's first call is
    a start, its later ones are nexts, and it runs the generated inclusive loop
    over the bounds it gets. *)
Section Team.
Context {St : Type} (R : runtime St).
Variables (k : schedule) (ordered : bool) (start end_ incr : Z) (chunk : option Z).

Definition thread_call (begun : bool) (tid : nat) (junk : Z) (s : St)
    : outcome (bool * Z * Z * St) :=
  if begun
  then loop_next R Gomp tid k ordered junk junk s
  else loop_start R Gomp tid k ordered start end_ incr chunk junk junk s.

Fixpoint team_run (calls : list (nat * Z)) (begun : list nat) (s : St)
    : outcome (list Z * St) :=
  match calls with
  | [] => Ret ([], s)
  | (t, junk) :: calls =>
      let! '(rt, l, u, s) := thread_call (bool_decide (t ∈ begun)) t junk s in
      let! '(rest, s) := team_run calls (t :: begun) s in
      Ret ((if rt then iters l u incr else []) ++ rest, s)
  end.

(** One thread alone: [if (start) do { loop } while (next)]. *)
Fixpoint next_loop (fuel : nat) (tid : nat) (junk : Z) (rt : bool) (l u : Z) (s : St)
    : outcome (list Z * St) :=
  if rt then
    match fuel with
    | O => Fail NoFuel
    | S fuel =>
        let! '(rt, l', u', s) := loop_next R Gomp tid k ordered junk junk s in
        let! '(rest, s) := next_loop fuel tid junk rt l' u' s in
        Ret (iters l u incr ++ rest, s)
    end
  else Ret ([], s).

Definition client_loop (fuel : nat) (tid : nat) (junk : Z) (s : St) : outcome (list Z * St) :=
  let! '(rt, l, u, s) := loop_start R Gomp tid k ordered start end_ incr chunk junk junk s in
  next_loop fuel tid junk rt l u s.

Context `{!ChunkServer R}.
Hypothesis Hincr : incr <> 0.

(** The wrapper's result [r'] is the library's result [r] with the upper bound
    made inclusive, over the same iterations. *)
Definition wraps (r r' : bool * Z * Z * St) : Prop :=
  let '(rt, l, u, s) := r in let '(rt', l', u', s') := r' in
  rt' = rt /\ l' = l /\ s' = s /\ (rt = true -> iters l u' incr = half_iters incr (l, u)).

Lemma served_chunk_ok chunks old l u s :
  Forall (chunk_ok incr) chunks -> serves chunks old (true, l, u, s) ->
  chunk_ok incr (l, u) /\ Forall (chunk_ok incr) (todo s).
Proof.
  intros Hall [_ Hp]. rewrite Hp in Hall. now apply Forall_cons in Hall.
Qed.

Lemma served_rest_ok chunks old rt l u s :
  Forall (chunk_ok incr) chunks -> serves chunks old (rt, l, u, s) ->
  Forall (chunk_ok incr) (todo s).
Proof.
  destruct rt; [apply served_chunk_ok|]. intros Hall [_ [-> _]]. exact Hall.
Qed.

Lemma inclusive_wraps chunks junk rt l u s :
  LONG_MIN < junk < LONG_MAX ->
  Forall (chunk_ok incr) chunks -> serves chunks junk (rt, l, u, s) ->
  (exists u', to_inclusive incr u = Ret u' /\ wraps (rt, l, u, s) (rt, l, u', s)) /\
  (exists u', next_inclusive l u = Ret u' /\ wraps (rt, l, u, s) (rt, l, u', s)).
Proof.
  intros Hj Hall Hs. unfold to_inclusive, next_inclusive, wraps, half_iters.
  destruct rt.
  - destruct (served_chunk_ok _ _ _ _ _ Hall Hs) as [(Hl & Hu & Hd) _].
    cbn in Hl, Hu, Hd |- *. destruct (Z.ltb_spec 0 incr).
    + rewrite (proj2 (Z.ltb_lt l u)) by lia. split; eexists; (split; [apply chk_long_ok; lia|easy]).
    + rewrite (proj2 (Z.ltb_ge l u)) by lia. split; eexists; (split; [apply chk_long_ok; lia|easy]).
  - destruct Hs as [_ [_ ->]]. split.
    + destruct (0 <? incr); eexists; (split; [apply chk_long_ok; lia|easy]).
    + destruct (l <? junk); eexists; (split; [apply chk_long_ok; lia|easy]).
Qed.

(** A call of a thread once the loop is under way. *)
Lemma call_begun begun tid junk s :
  ~ fresh s -> Forall (chunk_ok incr) (todo s) -> LONG_MIN < junk < LONG_MAX ->
  LONG_MIN < end_ < LONG_MAX ->
  exists rt l u u' s', thread_call begun tid junk s = Ret (rt, l, u', s') /\
    serves (todo s) junk (rt, l, u, s') /\ wraps (rt, l, u, s') (rt, l, u', s').
Proof.
  intros Hf Hall Hj He. unfold thread_call, loop_next, loop_start, to_exclusive. destruct begun.
  - pose proof (next_begun tid k ordered junk junk s Hf) as Hs.
    destruct (GOMP_loop_next R tid k ordered junk junk s) as [[[rt l] u] s'].
    destruct (inclusive_wraps _ _ _ _ _ _ Hj Hall Hs) as [_ (u' & E & Hw)].
    rewrite E. exists rt, l, u, u', s'. split; [reflexivity | now split].
  - assert (exists e, (if 0 <? incr then chk_long (end_ + 1) else chk_long (end_ - 1)) = Ret e)
      as [e ->] by (destruct (0 <? incr); eexists; apply chk_long_ok; lia).
    cbn [obind]. pose proof (start_begun tid k ordered start e incr chunk junk junk s Hf) as Hs.
    destruct (GOMP_loop_start R tid k ordered start e incr chunk junk junk s) as [[[rt l] u] s'].
    destruct (inclusive_wraps _ _ _ _ _ _ Hj Hall Hs) as [(u' & E & Hw) _].
    rewrite E. exists rt, l, u, u', s'. split; [reflexivity | now split].
Qed.

(** The first call of the team cuts the iteration space. *)
Lemma call_first tid junk s :
  fresh s -> LONG_MIN < junk < LONG_MAX ->
  LONG_MIN <= start <= LONG_MAX -> LONG_MIN < end_ < LONG_MAX ->
  exists chunks rt l u u' s',
    Forall (chunk_ok incr) chunks /\
    flat_map (half_iters incr) chunks ≡ₚ iters start end_ incr /\
    thread_call false tid junk s = Ret (rt, l, u', s') /\
    serves chunks junk (rt, l, u, s') /\ wraps (rt, l, u, s') (rt, l, u', s').
Proof.
  intros Hf Hj Hst He. unfold thread_call, loop_start, to_exclusive.
  set (e := if 0 <? incr then end_ + 1 else end_ - 1).
  assert (LONG_MIN <= e <= LONG_MAX) by (unfold e; case_cmp; lia).
  replace (if 0 <? incr then chk_long (end_ + 1) else chk_long (end_ - 1)) with (chk_long e)
    by (unfold e; now destruct (0 <? incr)).
  rewrite chk_long_ok by assumption. cbn [obind].
  destruct (start_fresh tid k ordered start e incr chunk junk junk s)
    as (chunks & Hall & Hsp & Hs); [assumption..|].
  destruct (GOMP_loop_start R tid k ordered start e incr chunk junk junk s) as [[[rt l] u] s'].
  destruct (inclusive_wraps _ _ _ _ _ _ Hj Hall Hs) as [(u' & E & Hw) _].
  rewrite E. exists chunks, rt, l, u, u', s'. split; [assumption|].
  split; [|split; [reflexivity | now split]].
  rewrite Hsp. unfold half_iters, e. cbn.
  destruct (0 <? incr); (replace (_ - 1) with end_ by lia) || (replace (_ + 1) with end_ by lia);
    reflexivity.
Qed.

(** The chunks a call serves and leaves, in iterations. *)
Lemma served_iters chunks junk rt l u u' s :
  serves chunks junk (rt, l, u, s) -> wraps (rt, l, u, s) (rt, l, u', s) ->
  flat_map (half_iters incr) chunks ≡ₚ
  (if rt then iters l u' incr else []) ++ flat_map (half_iters incr) (todo s).
Proof.
  intros [_ Hs] (_ & _ & _ & Hw). destruct rt.
  - rewrite Hs, (Hw eq_refl). reflexivity.
  - destruct Hs as [-> _]. reflexivity.
Qed.

Definition junk_ok (c : nat * Z) : Prop := LONG_MIN < c.2 < LONG_MAX.

Lemma team_run_begun calls begun s :
  ~ fresh s -> Forall (chunk_ok incr) (todo s) -> LONG_MIN < end_ < LONG_MAX ->
  Forall junk_ok calls ->
  exists ex s', team_run calls begun s = Ret (ex, s') /\
    flat_map (half_iters incr) (todo s) ≡ₚ ex ++ flat_map (half_iters incr) (todo s').
Proof.
  intros Hf Hall He Hj. revert begun s Hf Hall.
  induction Hj as [|[t junk] calls Hj _ IH]; intros begun s Hf Hall.
  - exists [], s. split; reflexivity.
  - cbn [team_run].
    destruct (call_begun (bool_decide (t ∈ begun)) t junk s Hf Hall Hj He)
      as (rt & l & u & u' & s' & -> & Hs & Hw).
    cbn [obind]. destruct (IH (t :: begun) s') as (ex & s'' & -> & Hp);
      [apply Hs | eapply served_rest_ok; eassumption |].
    cbn [obind]. eexists _, _. split; [reflexivity|].
    now rewrite (served_iters _ _ _ _ _ _ _ Hs Hw), Hp, app_assoc.
Qed.

Lemma next_loop_drains `{!WorkConserving R} fuel tid junk rt l u u' s chunks :
  LONG_MIN < junk < LONG_MAX -> LONG_MIN < end_ < LONG_MAX ->
  Forall (chunk_ok incr) chunks ->
  serves chunks junk (rt, l, u, s) -> wraps (rt, l, u, s) (rt, l, u', s) ->
  (rt = false -> todo s = []) -> (length chunks <= fuel)%nat ->
  exists ex s', next_loop fuel tid junk rt l u' s = Ret (ex, s') /\
    flat_map (half_iters incr) chunks ≡ₚ ex.
Proof.
  intros Hj He. revert rt l u u' s chunks.
  induction fuel as [|fuel IH]; intros rt l u u' s chunks Hall Hs Hw Hd Hlen;
    pose proof (served_iters _ _ _ _ _ _ _ Hs Hw) as Hp;
    pose proof (served_rest_ok _ _ _ _ _ _ Hall Hs) as Hrest;
    (destruct rt; [|exists [], s; split; [reflexivity | now rewrite Hp, Hd]]);
    destruct Hs as [Hf Hperm]; pose proof (Permutation_length Hperm) as Hn; cbn in Hn; [lia|].
  cbn [next_loop].
  destruct (call_begun true tid junk s Hf Hrest Hj He)
    as (rt & l1 & u1 & u1' & s1 & E & Hs1 & Hw1).
  unfold thread_call in E. rewrite E. cbn [obind].
  destruct (IH rt l1 u1 u1' s1 (todo s)) as (ex & s2 & -> & Hp2);
    [assumption..| |lia|].
  { intros ->. unfold loop_next in E.
    destruct (GOMP_loop_next R tid k ordered junk junk s) as [[[rt1 l2] u2] s2] eqn:En.
    cbn in E. inv_outcome. subst. exact (next_drained _ _ _ _ _ _ _ _ _ En). }
  cbn [obind]. eexists _, _. split; [reflexivity|]. now rewrite Hp, Hp2.
Qed.

(** No chunk is empty, so there are at most as many chunks as iterations. *)
Lemma chunks_le_iters chunks :
  Forall (chunk_ok incr) chunks ->
  (length chunks <= length (flat_map (half_iters incr) chunks))%nat.
Proof.
  induction 1 as [|[l u] chunks (_ & _ & Hd) _ IH]; [reflexivity|].
  cbn [flat_map length]. rewrite length_app. unfold half_iters at 1. cbn in Hd |- *.
  rewrite (iters_next l) by (assumption || (unfold loop_cond; destruct (0 <? incr); lia)).
  cbn [length]. lia.
Qed.
End Team.

(** * A demand-driven library with chunks of one iteration

    An instance of the interface: [None] before the loop starts, then the
    queue of chunks. *)

Definition one_by_one_chunks (start end_ incr : Z) : list (Z * Z) :=
  map (fun x => (x, if 0 <? incr then x + 1 else x - 1)) (half_iters incr (start, end_)).

Definition pop (l u : Z) (q : list (Z * Z)) : bool * Z * Z * option (list (Z * Z)) :=
  match q with
  | [] => (false, l, u, Some [])
  | c :: q => (true, c.1, c.2, Some q)
  end.

Definition one_by_one : runtime (option (list (Z * Z))) := {|
  GOMP_loop_start _ _ _ start end_ incr _ l u s :=
    pop l u (match s with None => one_by_one_chunks start end_ incr | Some q => q end);
  GOMP_loop_next _ _ _ l u s := pop l u (match s with None => [] | Some q => q end);
  ompc_sched_next _ _ l u s := pop l u (match s with None => [] | Some q => q end);
  ompc_sched_init _ _ lower upper stride _ _ := Some (one_by_one_chunks lower upper stride);
  ompc_init_ordered _ _ _ s := s
|}.

Lemma in_iters x l u s : s <> 0 -> In x (iters l u s) -> if 0 <? s then l <= x <= u else u <= x <= l.
Proof.
  intros Hs [k [<- Hk%in_seq]]%in_map_iff. unfold trip_count in Hk. destruct (Z.ltb_spec 0 s).
  - pose proof (Z.mul_div_le (u - l) s ltac:(lia)).
    generalize dependent ((u - l) / s). intros. nia.
  - pose proof (Z.mul_div_le (l - u) (- s) ltac:(lia)).
    generalize dependent ((l - u) / - s). intros. nia.
Qed.

Lemma iters_one x s : iters x x s = [x].
Proof.
  unfold iters, trip_count. rewrite Z.sub_diag, !Zdiv_0_l.
  destruct (0 <? s); change (Z.to_nat (0 + 1)) with 1%nat; cbn [seq map];
    now rewrite Z.mul_0_l, Z.add_0_r.
Qed.

Lemma one_by_one_chunks_ok start end_ incr :
  incr <> 0 -> LONG_MIN <= start <= LONG_MAX -> LONG_MIN <= end_ <= LONG_MAX ->
  Forall (chunk_ok incr) (one_by_one_chunks start end_ incr).
Proof.
  intros Hi Hs He. apply List.Forall_forall. intros c [x [<- Hx]]%in_map_iff.
  apply in_iters in Hx; [|assumption]. unfold chunk_ok. cbn in *. destruct (0 <? incr); lia.
Qed.

Lemma one_by_one_chunks_iters start end_ incr :
  flat_map (half_iters incr) (one_by_one_chunks start end_ incr) = half_iters incr (start, end_).
Proof.
  unfold one_by_one_chunks. induction (half_iters incr (start, end_)) as [|x q IH]; [reflexivity|].
  cbn [map flat_map]. rewrite IH. unfold half_iters. cbn.
  destruct (0 <? incr); [replace (x + 1 - 1) with x by lia | replace (x - 1 + 1) with x by lia];
    now rewrite iters_one.
Qed.

#[export] Program Instance one_by_one_server : ChunkServer one_by_one := {|
  fresh s := s = None;
  todo s := match s with None => [] | Some q => q end
|}.
Next Obligation.
  intros tid k ord start end_ incr chunk l u s -> Hi Hs He.
  exists (one_by_one_chunks start end_ incr). split; [now apply one_by_one_chunks_ok|].
  split; [now rewrite one_by_one_chunks_iters|].
  cbn. unfold pop. destruct (one_by_one_chunks start end_ incr) as [|[] ]; cbn; easy.
Qed.
Next Obligation.
  intros tid k ord start end_ incr chunk l u [[|[]]|] Hf; cbn in *; easy.
Qed.
Next Obligation.
  intros tid k ord l u [[|[]]|] Hf; cbn in *; easy.
Qed.

Lemma pop_false l u q l' u' s' : pop l u q = (false, l', u', s') -> s' = Some [].
Proof. destruct q; cbn; congruence. Qed.

#[export] Instance one_by_one_conserving : WorkConserving one_by_one.
Proof.
  split; cbn; intros;
    match goal with H : pop _ _ _ = _ |- _ => apply pop_false in H; now subst end.
Qed.

(** * Properties *)



(** C27. The client loop terminates with the whole loop done: over a library
    whose false answer means that nothing is left, the generated code
    [if (start) do ... while (next)] of a thread alone makes at most one next
    call per iteration and executes every iteration exactly once. *)
Theorem client_loop_complete {St} (R : runtime St) `{!ChunkServer R, !WorkConserving R}
    k ordered start end_ incr chunk tid junk s :
  incr <> 0 -> LONG_MIN <= start <= LONG_MAX -> LONG_MIN < end_ < LONG_MAX ->
  LONG_MIN < junk < LONG_MAX -> fresh s ->
  exists executed s',
    client_loop R k ordered start end_ incr chunk (trip_count start end_ incr) tid junk s
      = Ret (executed, s') /\
    executed ≡ₚ iters start end_ incr.
Proof.
  intros Hi Hs He Hj Hf.
  destruct (call_first R k ordered start end_ incr chunk Hi tid junk s Hf Hj Hs He)
    as (chunks & rt & l & u & u' & s' & Hall & Hsp & E & Hsv & Hw).
  unfold client_loop. unfold thread_call in E. rewrite E. cbn [obind].
  destruct (next_loop_drains R k ordered start end_ incr chunk Hi (trip_count start end_ incr)
    tid junk rt l u u' s' chunks) as (ex & s'' & -> & Hp); try assumption.
  - intros ->. unfold loop_start in E. inv_outcome.
    destruct (GOMP_loop_start R _ _ _ _ _ _ _ _ _ _) as [[[rt1 l2] u2] s2] eqn:En.
    inv_outcome. subst. exact (start_drained _ _ _ _ _ _ _ _ _ _ _ _ _ En).
  - pose proof (chunks_le_iters incr Hi chunks Hall) as Hn. rewrite Hsp in Hn.
    unfold iters in Hn. now rewrite length_map, length_seq in Hn.
  - eexists _, _. split; [reflexivity|]. now rewrite <- Hp.
Qed.

Theorem client_loop_complete_witness :
  exists executed s',
    client_loop one_by_one Guided true 1 9 2 (Some 1) (trip_count 1 9 2) 0 5 None
      = Ret (executed, s') /\
    executed ≡ₚ iters 1 9 2.
Proof.
  apply (client_loop_complete one_by_one Guided true 1 9 2 (Some 1) 0 5 None);
    unfold LONG_MIN, LONG_MAX; try lia; easy.
Defined.

(** Writing an [int] into the low half of a [long]. *)
Lemma set_int_eq old v :
  INT_MIN <= v <= INT_MAX -> (set_int old v = v <-> old / 2 ^ 32 = v / 2 ^ 32).
Proof.
  intros Hv. unfold set_int. pose proof (Z.div_mod old (2 ^ 32) ltac:(lia)).
  pose proof (Z.div_mod v (2 ^ 32) ltac:(lia)). lia.
Qed.

Lemma to_inclusive_inj incr e e' r :
  to_inclusive incr e = Ret r -> to_inclusive incr e' = Ret r -> e = e'.
Proof.
  unfold to_inclusive. destruct (0 <? incr); intros [-> _]%chk_long_Ret [H _]%chk_long_Ret; lia.
Qed.

(** Omni on a 64-bit target: when the library serves the chunk [(vl, vu)],
    a start returns its lower bound only if the upper half of the caller's
    location already held the sign of [vl], and its upper bound only if the
    upper half of the uninitialised local held the sign of [vu]: the layer
    writes two [int]s through cast pointers into [long]s it never sets. *)
Theorem loop_start_omni_high_half {St} (R : runtime St) tid k ordered start end_ incr chunk
    istart lend s vl vu s' l u iend s'' :
  ompc_sched_next R tid k (get_int istart) (get_int lend) s = (true, vl, vu, s') ->
  INT_MIN <= vl <= INT_MAX -> INT_MIN <= vu <= INT_MAX ->
  to_inclusive incr vu = Ret u ->
  loop_start R Omni tid k ordered start end_ incr chunk istart lend s
    = Ret (true, l, iend, s'') ->
  (l = vl <-> istart / 2 ^ 32 = vl / 2 ^ 32) /\ (iend = u <-> lend / 2 ^ 32 = vu / 2 ^ 32).
Proof.
  intros Hn Hvl Hvu Hu H. unfold loop_start, omni_next in H. rewrite Hn in H.
  inv_outcome. subst. rewrite <- (set_int_eq istart), <- (set_int_eq lend) by assumption.
  split; [reflexivity|]. split.
  - intros ->. now apply (to_inclusive_inj incr _ _ u).
  - intros E. rewrite E in *. congruence.
Qed.

(** A library that always serves [(-5, 3)], called with a cleared location for
    the lower bound and one full of ones for the upper bound: the layer returns
    4294967291 and -4294967294. *)
Definition serve_minus5_3 : runtime unit := {|
  GOMP_loop_start _ _ _ _ _ _ _ l u s := (false, l, u, s);
  GOMP_loop_next _ _ _ l u s := (false, l, u, s);
  ompc_sched_next _ _ l u s := (true, -5, 3, s);
  ompc_sched_init _ _ _ _ _ _ s := s;
  ompc_init_ordered _ _ _ s := s
|}.

Theorem loop_start_omni_high_half_witness :
  loop_start serve_minus5_3 Omni 0 Static false (-5) 2 1 (Some 8) 0 (-1) tt
    = Ret (true, 4294967291, -4294967294, tt) /\
  (4294967291 = -5 <-> 0 / 2 ^ 32 = -5 / 2 ^ 32) /\
  (-4294967294 = 2 <-> -1 / 2 ^ 32 = 3 / 2 ^ 32).
Proof.
  split; [vm_compute; reflexivity|].
  apply (loop_start_omni_high_half serve_minus5_3 0 Static false (-5) 2 1 (Some 8)
           0 (-1) tt (-5) 3 tt 4294967291 2 (-4294967294) tt);
    unfold INT_MIN, INT_MAX; try lia; vm_compute; reflexivity.
Defined.

(** Ordered loops with the runtime schedule never run over Omni: their
    start asks the library nothing, leaves its state as it was and returns
    false for every loop whose bounds do not overflow, so the client executes
    no iteration at all. *)
Theorem XOMP_loop_ordered_runtime_start_omni {St} (R : runtime St) tid start end_ incr istart s :
  LONG_MIN < end_ < LONG_MAX ->
  XOMP_loop_ordered_runtime_start R Omni tid start end_ incr istart s
    = Ret (false, istart, if 0 <? incr then -1 else 1, s).
Proof.
  intros He. unfold XOMP_loop_ordered_runtime_start, to_exclusive, to_inclusive.
  destruct (0 <? incr); c_arith; reflexivity.
Qed.

Theorem XOMP_loop_ordered_runtime_start_omni_witness :
  XOMP_loop_ordered_runtime_start serve_minus5_3 Omni 0 1 100 1 42 tt = Ret (false, 42, -1, tt) /\
  iters 1 100 1 <> [].
Proof.
  split; [|now vm_compute].
  apply (XOMP_loop_ordered_runtime_start_omni serve_minus5_3 0 1 100 1 42 tt).
  unfold LONG_MIN, LONG_MAX; lia.
Defined.

(** The Fortran entry points return the layer's bounds unchanged: whenever
    one of them returns a served chunk, its [int] bounds are the [long] bounds
    of the C routine, for a start and for a next; a served bound that an [int]
    cannot hold stops the program instead of being truncated. *)
Theorem fortran_bounds_exact {St} (R : runtime St) be tid start end_ incr chunk a b s rt l u s' :
  (XOMP_loop_static_start R be tid start end_ incr chunk a b s = Ret (rt, l, u, s') ->
   xomp_loop_static_start R be tid start end_ incr chunk a b s
   = if rt && negb (int_ok l && int_ok u) then Fail AssertFail
     else Ret (rt, to_int l, to_int u, s')) /\
  (XOMP_loop_static_next R be tid a b s = Ret (rt, l, u, s') ->
   xomp_loop_static_next R be tid a b s
   = if rt && negb (int_ok l && int_ok u) then Fail AssertFail
     else Ret (rt, to_int l, to_int u, s')) /\
  (int_ok l = true -> int_ok u = true -> to_int l = l /\ to_int u = u).
Proof.
  unfold xomp_loop_static_start, xomp_loop_static_next, fortran_bounds.
  split; [|split].
  1, 2: intros ->; cbn [obind]; destruct rt, (int_ok l), (int_ok u); reflexivity.
  intros ?%int_ok_spec ?%int_ok_spec. now rewrite !to_int_id.
Qed.

Theorem fortran_bounds_exact_witness :
  xomp_loop_static_start one_by_one Gomp 0 3 9 2 1 0 0 None
    = Ret (true, 3, 3, Some [(5, 6); (7, 8); (9, 10)]) /\ to_int 3 = 3.
Proof.
  destruct (fortran_bounds_exact one_by_one Gomp 0 3 9 2 1 0 0 None true 3 3
              (Some [(5, 6); (7, 8); (9, 10)])) as (H & _ & H').
  split; [apply H; vm_compute; reflexivity | apply H'; vm_compute; reflexivity].
Defined.
