(* ===== verification/XompTask.v ===== *)
(** Fortran tasks of the XOMP layer: [xomp_task] packs a task's parameters into
    one data segment ([ompLowering/xomp.c]) and [run_me_task_<n>] unpacks them
    ([ompLowering/run_me_task_defs.inc]). *)
From S2P Require Import Prelude XompRuntime.

(** * Bytes and buffers

    A byte is a number below 256.  A buffer is the list of its bytes; an access
    outside it is undefined behaviour.  The target is little-endian with 8-byte
    pointers, 4-byte ints and 1-byte booleans. *)

Fixpoint le_bytes (n : nat) (v : Z) : list Z :=
  match n with
  | O => []
  | S n => v mod 256 :: le_bytes n (v / 256)
  end.

Fixpoint le_val (bs : list Z) : Z :=
  match bs with
  | [] => 0
  | b :: bs => b + 256 * le_val bs
  end.

Definition write (buf : list Z) (off : nat) (bs : list Z) : outcome (list Z) :=
  if (off + length bs <=? length buf)%nat
  then Ret (take off buf ++ bs ++ drop (off + length bs) buf)
  else Fail Undefined.

Definition read (buf : list Z) (off n : nat) : outcome (list Z) :=
  if (off + n <=? length buf)%nat then Ret (take n (drop off buf)) else Fail Undefined.

(** The [n] bytes of the memory at address [a]. *)
Definition load (mem : Z -> Z) (a : Z) (n : nat) : list Z :=
  map (fun i => mem (a + Z.of_nat i)) (seq 0 n).

(** * Packing

    The variable arguments of [xomp_task] come as triplets: the by-value flag,
    the size and the address, each read through a pointer. *)

Record triplet := { by_value : Z; v_size : Z; addr : Z }.

Definition pack_param (mem : Z -> Z) (p : triplet) (buf : list Z) (p_offset : nat)
    : outcome (list Z * nat) :=
  let bValue := if by_value p =? 1 then 1 else 0 in
  let! buf := write buf p_offset [bValue] in
  let p_offset := (p_offset + 1)%nat in
  assert! negb (by_value p =? 0) || (v_size p =? 8) else AssertFail in
  let! buf := write buf p_offset (le_bytes 4 (v_size p)) in
  let p_offset := (p_offset + 4)%nat in
  assert! 0 <=? v_size p else Undefined in
  let! buf :=
    if by_value p =? 0
    then write buf p_offset (take (Z.to_nat (v_size p)) (le_bytes 8 (addr p)))
    else write buf p_offset (load mem (addr p) (Z.to_nat (v_size p))) in
  Ret (buf, (p_offset + Z.to_nat (v_size p))%nat).

Fixpoint pack_params (mem : Z -> Z) (n : nat) (args : list triplet)
    (buf : list Z) (p_offset : nat) : outcome (list Z * nat) :=
  match n, args with
  | O, _ => Ret (buf, p_offset)
  | S _, [] => Fail Undefined
  | S n, p :: args =>
      let! '(buf, p_offset) := pack_param mem p buf p_offset in
      pack_params mem n args buf p_offset
  end.

(** The function a task runs: the outlined routine itself or an unpacker. *)
Inductive task_fn := Outlined (func : Z) | RunMeTask (n : nat).

Record task_call := {
  fn : task_fn; data : option (list Z); cpyfn_arg : Z;
  arg_size : Z; arg_align : Z; if_clause : bool; untied : Z
}.

(** [malloced] is what [malloc(512)] returns: uninitialised bytes or nothing. *)
Definition xomp_task (mem : Z -> Z) (malloced : option (list Z))
    (func cpyfn arg_size arg_align if_clause untied argcount : Z) (args : list triplet)
    : outcome task_call :=
  let cpyfn := 0 in
  let largcount := Z.quot argcount 3 in
  assert! largcount * 3 =? argcount else AssertFail in
  let bif_clause := negb (if_clause =? 0) in
  let uuntied := untied mod 2 ^ 32 in
  if largcount =? 0
  then Ret {| fn := Outlined func; data := None; cpyfn_arg := cpyfn; arg_size := arg_size;
              arg_align := arg_align; if_clause := bif_clause; untied := uuntied |}
  else
    let larg_size := 512 in
    match malloced with
    | None => Fail Abort
    | Some pg_parameter =>
        let! pg_parameter := write pg_parameter 0 (le_bytes 8 func) in
        let! '(pg_parameter, p_offset) :=
          pack_params mem (Z.to_nat largcount) args pg_parameter 8 in
        if (1 <=? largcount) && (largcount <=? 256)
        then Ret {| fn := RunMeTask (Z.to_nat largcount); data := Some pg_parameter;
                    cpyfn_arg := cpyfn; arg_size := larg_size; arg_align := arg_align;
                    if_clause := bif_clause; untied := uuntied |}
        else Fail Abort
    end.

(** [XOMP_task]: the library runs the call, or, with Omni, nothing does. *)
Definition XOMP_task (be : backend) (call : task_call) : option task_call :=
  match be with Gomp => Some call | Omni => None end.

(** * Unpacking

    What the outlined routine gets: the address of a fresh copy of a value, or
    the address packed. *)
Inductive passed := PValue (bytes : list Z) | PAddress (a : Z).

Definition read_bool (bs : list Z) : outcome bool :=
  match bs with
  | [0] => Ret false
  | [1] => Ret true
  | _ => Fail Undefined
  end.

Fixpoint unpack_params (n : nat) (data : list Z) (offset : nat) : outcome (list passed) :=
  match n with
  | O => Ret []
  | S n =>
      let! flag := read data offset 1 in
      let! bValue := read_bool flag in
      let offset := (offset + 1)%nat in
      let! size := read data offset 4 in
      let v_size := to_signed 32 (le_val size) in
      let offset := (offset + 4)%nat in
      let! p :=
        if bValue
        then
          assert! 0 <=? v_size else Undefined in
          let! bytes := read data offset (Z.to_nat v_size) in Ret (PValue bytes)
        else
          assert! v_size =? 8 else AssertFail in
          let! bytes := read data offset (Z.to_nat v_size) in Ret (PAddress (le_val bytes)) in
      let offset := (offset + 4)%nat in (* [offset += sizeof(v_size)] *)
      let! rest := unpack_params n data offset in
      Ret (p :: rest)
  end.

(** [run_me_task_<n>]: the routine called and its arguments. *)
Definition run_me_task (n : nat) (data : list Z) : outcome (Z * list passed) :=
  let! func := read data 0 8 in
  let! p := unpack_params n data 8 in
  Ret (le_val func, p).

(** What running the packed task does: the call the outlined routine gets. *)
Definition run_task (call : task_call) : outcome (Z * list passed) :=
  match fn call, data call with
  | Outlined func, _ => Ret (func, [])
  | RunMeTask n, Some data => run_me_task n data
  | RunMeTask _, None => Fail Undefined
  end.

(** * What the caller meant *)

Definition param_ok (p : triplet) : Prop :=
  (by_value p = 1 /\ 0 <= v_size p <= INT_MAX) \/
  (by_value p = 0 /\ v_size p = 8 /\ 0 <= addr p < 2 ^ 64).

Definition passed_of (mem : Z -> Z) (p : triplet) : passed :=
  if by_value p =? 1 then PValue (load mem (addr p) (Z.to_nat (v_size p)))
  else PAddress (addr p).

(** The bytes a parameter takes in the segment. *)
Definition payload (mem : Z -> Z) (p : triplet) : list Z :=
  if by_value p =? 0 then le_bytes 8 (addr p)
  else load mem (addr p) (Z.to_nat (v_size p)).

Definition packed (mem : Z -> Z) (p : triplet) : list Z :=
  by_value p :: le_bytes 4 (v_size p) ++ payload mem p.

Definition segment (mem : Z -> Z) (args : list triplet) : list Z :=
  flat_map (packed mem) args.

(** ** Byte lemmas *)

Lemma length_le_bytes n v : length (le_bytes n v) = n.
Proof. revert v. induction n; cbn; auto. Qed.

Lemma le_val_bytes n v : le_val (le_bytes n v) = v mod 256 ^ Z.of_nat n.
Proof.
  revert v. induction n as [|n IH]; intros v.
  - symmetry. apply Z.mod_1_r.
  - cbn [le_bytes le_val]. rewrite IH, Nat2Z.inj_succ, Z.pow_succ_r by lia.
    rewrite Z.rem_mul_r by lia. lia.
Qed.

Lemma le_bytes_app n m v :
  le_bytes (n + m) v = le_bytes n v ++ le_bytes m (v / 256 ^ Z.of_nat n).
Proof.
  revert v. induction n as [|n IH]; intros v; [now rewrite Z.div_1_r|].
  cbn [Nat.add le_bytes app]. rewrite IH, Z.div_div by lia.
  now rewrite Nat2Z.inj_succ, Z.pow_succ_r by lia.
Qed.

Lemma le_val_app bs cs : le_val (bs ++ cs) = le_val bs + 256 ^ Z.of_nat (length bs) * le_val cs.
Proof.
  induction bs as [|b bs IH]; [cbn [app le_val length]; lia|].
  cbn [app le_val length]. rewrite IH, Nat2Z.inj_succ, Z.pow_succ_r by lia. lia.
Qed.

Lemma le_val_bytes_8 a : 0 <= a < 2 ^ 64 -> le_val (le_bytes 8 a) = a.
Proof. intros Ha. rewrite le_val_bytes. apply Z.mod_small. exact Ha. Qed.

Lemma to_signed_bytes_4 v : 0 <= v <= INT_MAX -> to_signed 32 (le_val (le_bytes 4 v)) = v.
Proof.
  unfold INT_MAX. intros Hv. rewrite le_val_bytes.
  change (256 ^ Z.of_nat 4) with (2 ^ 32). rewrite Z.mod_small by lia.
  apply to_signed_id; cbn; lia.
Qed.

Lemma length_load mem a n : length (load mem a n) = n.
Proof. unfold load. now rewrite length_map, length_seq. Qed.

(** ** Writing and reading at the end of a prefix *)

Lemma write_app pre bs post off :
  off = length pre ->
  write (pre ++ post) off bs =
  if (length bs <=? length post)%nat then Ret (pre ++ bs ++ drop (length bs) post)
  else Fail Undefined.
Proof.
  intros ->. unfold write. rewrite length_app.
  destruct (Nat.leb_spec (length bs) (length post)), (Nat.leb_spec (length pre + length bs) (length pre + length post));
    try lia; [|reflexivity].
  rewrite take_app_length, drop_app_ge, Nat.add_sub' by lia. reflexivity.
Qed.

Lemma read_app pre bs post off n :
  off = length pre -> n = length bs -> read (pre ++ bs ++ post) off n = Ret bs.
Proof.
  intros -> ->. unfold read. rewrite !length_app.
  rewrite (proj2 (Nat.leb_le _ _)) by lia.
  now rewrite drop_app_length, take_app_length.
Qed.

Lemma read_head bs post n : n = length bs -> read (bs ++ post) 0 n = Ret bs.
Proof. exact (read_app [] bs post 0 n eq_refl). Qed.

Lemma length_packed mem p :
  param_ok p -> length (packed mem p) = (5 + Z.to_nat (v_size p))%nat.
Proof.
  intros Hp. unfold packed, payload. cbn [length]. rewrite length_app, length_le_bytes.
  destruct Hp as [[-> Hs]|(-> & -> & _)]; [|reflexivity].
  cbn [Z.eqb]. now rewrite length_load.
Qed.

(** Packing one parameter appends its bytes, if they fit. *)
Lemma pack_param_app mem p pre post off :
  param_ok p -> off = length pre ->
  pack_param mem p (pre ++ post) off =
  if (length (packed mem p) <=? length post)%nat
  then Ret (pre ++ packed mem p ++ drop (length (packed mem p)) post,
            (off + length (packed mem p))%nat)
  else Fail Undefined.
Proof.
  intros Hp Hoff. rewrite length_packed by assumption.
  assert (Hflag : (if by_value p =? 1 then 1 else 0) = by_value p)
    by (destruct Hp as [[-> _]|[-> _]]; reflexivity).
  assert (Hchk : negb (by_value p =? 0) || (v_size p =? 8) = true)
    by (destruct Hp as [[-> _]|(-> & -> & _)]; reflexivity).
  assert (Hpos : 0 <= v_size p) by (destruct Hp as [[_ H]|(_ & -> & _)]; lia).
  assert (Hpay : forall buf o,
    (if by_value p =? 0
     then write buf o (take (Z.to_nat (v_size p)) (le_bytes 8 (addr p)))
     else write buf o (load mem (addr p) (Z.to_nat (v_size p))))
    = write buf o (payload mem p)).
  { intros buf o. unfold payload. destruct Hp as [[-> _]|(-> & -> & _)]; [reflexivity|].
    cbn [Z.eqb]. now rewrite firstn_all2 by (rewrite length_le_bytes; reflexivity). }
  assert (Hlen : length (payload mem p) = Z.to_nat (v_size p)).
  { pose proof (length_packed mem p Hp) as H. unfold packed in H. cbn [length] in H.
    rewrite length_app, length_le_bytes in H. lia. }
  unfold pack_param. rewrite Hflag, Hchk, (proj2 (Z.leb_le 0 (v_size p))) by assumption.
  cbn [require_ obind]. rewrite write_app by assumption. cbn [length].
  destruct (Nat.leb_spec 1 (length post)) as [H1|H1]; cbn [obind];
    [|rewrite (proj2 (Nat.leb_gt _ _)) by lia; reflexivity].
  rewrite app_assoc, write_app by (rewrite length_app; cbn [length]; lia).
  rewrite length_le_bytes, length_drop.
  destruct (Nat.leb_spec 4 (length post - 1)) as [H4|H4]; cbn [obind];
    [|rewrite (proj2 (Nat.leb_gt _ _)) by lia; reflexivity].
  rewrite Hpay, app_assoc, write_app
    by (rewrite !length_app, length_le_bytes; cbn [length]; lia).
  rewrite Hlen, !length_drop.
  destruct (Nat.leb_spec (Z.to_nat (v_size p)) (length post - 1 - 4)); cbn [obind].
  - rewrite (proj2 (Nat.leb_le _ _)) by lia. unfold packed.
    rewrite <- !app_assoc, !drop_drop. cbn [app].
    rewrite <- !app_assoc. do 2 f_equal. lia.
  - rewrite (proj2 (Nat.leb_gt _ _)) by lia. reflexivity.
Qed.

Lemma pack_params_app mem args pre post off :
  Forall param_ok args -> off = length pre ->
  pack_params mem (length args) args (pre ++ post) off =
  if (length (segment mem args) <=? length post)%nat
  then Ret (pre ++ segment mem args ++ drop (length (segment mem args)) post,
            (off + length (segment mem args))%nat)
  else Fail Undefined.
Proof.
  intros Hall. revert pre post off.
  induction Hall as [|p args Hp _ IH]; intros pre post off Hoff.
  - cbn. now rewrite Nat.add_0_r.
  - cbn [pack_params length segment flat_map]. rewrite pack_param_app by assumption.
    rewrite length_app. fold (segment mem args).
    destruct (Nat.leb_spec (length (packed mem p)) (length post)); cbn [obind];
      [|rewrite (proj2 (Nat.leb_gt _ _)) by lia; reflexivity].
    rewrite app_assoc, IH by (rewrite length_app; lia). rewrite length_drop.
    destruct (Nat.leb_spec (length (segment mem args)) (length post - length (packed mem p))).
    + rewrite (proj2 (Nat.leb_le _ _)) by lia.
      rewrite <- !app_assoc, drop_drop, Nat.add_assoc. reflexivity.
    + rewrite (proj2 (Nat.leb_gt _ _)) by lia. reflexivity.
Qed.

(** Unpacking one parameter reads it back and moves on by nine bytes. *)
Lemma unpack_param_app mem p n pre post off :
  param_ok p -> off = length pre ->
  unpack_params (S n) (pre ++ packed mem p ++ post) off =
  let! rest := unpack_params n (pre ++ packed mem p ++ post) (off + 9) in
  Ret (passed_of mem p :: rest).
Proof.
  intros Hp Hoff. cbn [unpack_params].
  set (buf := pre ++ packed mem p ++ post).
  assert (E0 : buf = pre ++ [by_value p] ++ le_bytes 4 (v_size p) ++ payload mem p ++ post)
    by (unfold buf, packed; cbn [app]; rewrite <- app_assoc; reflexivity).
  assert (R1 : read buf off 1 = Ret [by_value p]) by (rewrite E0; now apply read_app).
  assert (R2 : read buf (off + 1) 4 = Ret (le_bytes 4 (v_size p))).
  { rewrite E0, (app_assoc pre). apply read_app; [rewrite length_app; cbn; lia|reflexivity]. }
  assert (R3 : read buf (off + 1 + 4) (Z.to_nat (v_size p)) = Ret (payload mem p)).
  { rewrite E0, (app_assoc pre), (app_assoc (pre ++ _)).
    apply read_app; [rewrite !length_app, length_le_bytes; cbn; lia|].
    pose proof (length_packed mem p Hp) as H. unfold packed in H. cbn [length] in H.
    rewrite length_app, length_le_bytes in H. lia. }
  rewrite R1, R2. cbn [obind].
  replace (off + 9)%nat with (off + 1 + 4 + 4)%nat by lia. unfold passed_of.
  revert R3. unfold payload.
  destruct Hp as [(-> & Hs)|(-> & -> & Ha)]; cbn [read_bool obind Z.eqb Pos.eqb]; intros R3.
  - rewrite to_signed_bytes_4, (proj2 (Z.leb_le 0 (v_size p))) by lia. cbn [require_ obind].
    now rewrite R3.
  - rewrite to_signed_bytes_4 by (unfold INT_MAX; lia). cbn [require_ obind Z.eqb Pos.eqb].
    rewrite R3. cbn [obind]. now rewrite le_val_bytes_8.
Qed.

(** All parameters but the last take four bytes. *)
Definition words_but_last (args : list triplet) : Prop :=
  Forall (fun p => v_size p = 4) (removelast args).

Lemma unpack_params_app mem args pre post off :
  Forall param_ok args -> words_but_last args -> off = length pre ->
  unpack_params (length args) (pre ++ segment mem args ++ post) off
  = Ret (map (passed_of mem) args).
Proof.
  intros Hall. revert pre off. unfold words_but_last.
  induction Hall as [|p args Hp Hall IH]; intros pre off Hw Hoff; [reflexivity|].
  cbn [length segment flat_map map]. rewrite <- app_assoc, unpack_param_app by assumption.
  destruct args as [|q args]; [reflexivity|].
  apply Forall_cons in Hw as [H4 Hw].
  rewrite (app_assoc pre). fold (segment mem (q :: args)).
  rewrite IH; [reflexivity | assumption |].
  rewrite length_app, length_packed, H4 by assumption. lia.
Qed.

(** The segment of a call with at least one parameter. *)
Lemma xomp_task_segment mem buf func cpyfn sz al ifc unt argcount args :
  Forall param_ok args -> (1 <= length args <= 256)%nat ->
  argcount = 3 * Z.of_nat (length args) -> length buf = 512%nat ->
  xomp_task mem (Some buf) func cpyfn sz al ifc unt argcount args =
  if (8 + length (segment mem args) <=? 512)%nat
  then Ret {| fn := RunMeTask (length args);
              data := Some (le_bytes 8 func ++ segment mem args
                            ++ drop (8 + length (segment mem args)) buf);
              cpyfn_arg := 0; arg_size := 512; arg_align := al;
              if_clause := negb (ifc =? 0); untied := unt mod 2 ^ 32 |}
  else Fail Undefined.
Proof.
  intros Hall Hlen -> Hbuf. unfold xomp_task.
  assert (Hq : Z.quot (3 * Z.of_nat (length args)) 3 = Z.of_nat (length args))
    by (rewrite Z.mul_comm; apply Z.quot_mul; lia).
  rewrite Hq, (proj2 (Z.eqb_eq _ _)) by lia. cbn [require_ obind].
  rewrite (proj2 (Z.eqb_neq (Z.of_nat (length args)) 0)), Nat2Z.id by lia.
  pose proof (write_app [] (le_bytes 8 func) buf 0 eq_refl) as Hw.
  cbn [app] in Hw. rewrite Hw, length_le_bytes, Hbuf. cbn [Nat.leb obind].
  rewrite pack_params_app, length_drop, Hbuf
    by (assumption || now rewrite length_le_bytes).
  rewrite (proj2 (Z.leb_le 1 _)), (proj2 (Z.leb_le _ 256)) by lia.
  destruct (Nat.leb_spec (length (segment mem args)) (512 - 8));
    [rewrite (proj2 (Nat.leb_le _ _)) by lia | rewrite (proj2 (Nat.leb_gt _ _)) by lia];
    cbn [obind andb]; [|reflexivity].
  now rewrite drop_drop.
Qed.

Definition reference (a : Z) : triplet := {| by_value := 0; v_size := 8; addr := a |}.

(** Nine bytes after the start of a reference that another parameter follows,
    the unpacker reads the upper half of the address: the flag is its fifth
    byte and the size the number its three topmost bytes make. *)
Lemma unpack_shifted mem pre a rest n off ps :
  0 <= a < 2 ^ 64 -> a / 2 ^ 40 <> 8 -> off = (length pre + 9)%nat ->
  unpack_params (S n) (pre ++ packed mem (reference a) ++ 0 :: rest) off = Ret ps ->
  exists bytes ps', ps = PValue bytes :: ps'.
Proof.
  intros Ha H8 ->.
  set (pre' := pre ++ 0 :: le_bytes 4 8 ++ le_bytes 4 a).
  set (size := le_bytes 3 (a / 2 ^ 40) ++ [0]).
  assert (E : pre ++ packed mem (reference a) ++ 0 :: rest
              = pre' ++ le_bytes 1 (a / 2 ^ 32) ++ size ++ rest).
  { unfold pre', size, packed, payload, reference. cbn [by_value v_size addr Z.eqb].
    rewrite (le_bytes_app 4 4 a : le_bytes 8 a = _).
    rewrite (le_bytes_app 1 3 (a / 256 ^ Z.of_nat 4) : le_bytes 4 (_ / _) = _).
    rewrite Z.div_div by lia.
    rewrite <- !app_assoc. cbn [app]. rewrite <- !app_assoc. reflexivity. }
  assert (Hpre : (length pre + 9)%nat = length pre')
    by (unfold pre'; rewrite length_app; cbn [length]; rewrite length_app, !length_le_bytes; lia).
  assert (Hsize : to_signed 32 (le_val size) = a / 2 ^ 40).
  { unfold size. rewrite le_val_app, le_val_bytes, Z.mul_0_r, Z.add_0_r.
    assert (0 <= a / 2 ^ 40 < 2 ^ 24)
      by (split; [apply Z.div_pos | apply Z.div_lt_upper_bound]; lia).
    change (256 ^ Z.of_nat 3) with (2 ^ 24).
    rewrite Z.mod_small by assumption. apply to_signed_id; lia. }
  rewrite E, Hpre. cbn [unpack_params]. rewrite read_app by reflexivity. cbn [obind].
  destruct (read_bool _) as [b|]; [|discriminate]. cbn [obind].
  rewrite app_assoc, read_app by (rewrite ?length_app; reflexivity). cbn [obind].
  rewrite Hsize. destruct b; intros H; inv_outcome; subst; [eauto|].
  match goal with E8 : (_ =? 8) = true |- _ => now apply Z.eqb_eq in E8 end.
Qed.

(** * Properties *)

(** C28. Task round trip: a task whose parameters fit the segment and all but
    the last of which take four bytes runs its outlined routine with exactly
    the parameters the caller named: copies of the values as they were at the
    call, and the addresses of the rest. *)
Theorem xomp_task_roundtrip mem buf func cpyfn sz al ifc unt argcount args :
  Forall param_ok args -> (1 <= length args <= 256)%nat ->
  argcount = 3 * Z.of_nat (length args) -> length buf = 512%nat ->
  0 <= func < 2 ^ 64 -> (8 + length (segment mem args) <= 512)%nat ->
  words_but_last args ->
  exists call,
    xomp_task mem (Some buf) func cpyfn sz al ifc unt argcount args = Ret call /\
    run_task call = Ret (func, map (passed_of mem) args).
Proof.
  intros Hall Hlen Hcount Hbuf Hf Hfit Hw. eexists. split.
  - rewrite xomp_task_segment by assumption. now rewrite (proj2 (Nat.leb_le _ _)).
  - cbn [run_task fn data run_me_task]. unfold run_me_task.
    rewrite read_head by reflexivity. cbn [obind].
    rewrite unpack_params_app by (assumption || now rewrite length_le_bytes).
    cbn [obind]. now rewrite le_val_bytes_8.
Qed.

Definition sample_args : list triplet :=
  [{| by_value := 1; v_size := 4; addr := 100 |}; {| by_value := 0; v_size := 8; addr := 2 ^ 47 |}].

Theorem xomp_task_roundtrip_witness :
  exists call,
    xomp_task (fun a => a mod 256) (Some (repeat 170 512)) 4096 0 8 8 1 0 6 sample_args = Ret call /\
    run_task call = Ret (4096, [PValue [100; 101; 102; 103]; PAddress (2 ^ 47)]).
Proof.
  apply (xomp_task_roundtrip (fun a => a mod 256) (repeat 170 512) 4096 0 8 8 1 0 6 sample_args);
    try reflexivity; try lia; [|cbn; lia|now apply Nat.leb_le|now repeat constructor].
  constructor; [left; cbn; unfold INT_MAX; lia|].
  constructor; [right; cbn; lia|constructor].
Defined.

(** C40. The segment of 512 bytes is never checked: a task whose parameters
    need more writes past the end of the allocation, whatever their kind. *)
Theorem xomp_task_overflow mem buf func cpyfn sz al ifc unt argcount args :
  Forall param_ok args -> (1 <= length args <= 256)%nat ->
  argcount = 3 * Z.of_nat (length args) -> length buf = 512%nat ->
  512 < 8 + Z.of_nat (length args) * 5 + fold_right (fun p n => v_size p + n) 0 args ->
  xomp_task mem (Some buf) func cpyfn sz al ifc unt argcount args = Fail Undefined.
Proof.
  intros Hall Hlen Hcount Hbuf Hbig. rewrite xomp_task_segment by assumption.
  assert (Hseg : Z.of_nat (length (segment mem args)) =
    Z.of_nat (length args) * 5 + fold_right (fun p n => v_size p + n) 0 args).
  { clear -Hall. induction Hall as [|p args Hp _ IH]; [reflexivity|].
    cbn [segment flat_map fold_right length]. rewrite length_app, length_packed by assumption.
    fold (segment mem args). destruct Hp as [[_ H]|(_ & H & _)]; lia. }
  now rewrite (proj2 (Nat.leb_gt _ _)) by lia.
Qed.

Theorem xomp_task_overflow_witness :
  xomp_task (fun _ => 0) (Some (repeat 0 512)) 4096 0 8 8 1 0 117
    (repeat {| by_value := 0; v_size := 8; addr := 64 |} 39) = Fail Undefined.
Proof.
  apply (xomp_task_overflow (fun _ => 0) (repeat 0 512) 4096 0 8 8 1 0 117
    (repeat {| by_value := 0; v_size := 8; addr := 64 |} 39)); try reflexivity.
  - apply List.Forall_forall. intros p ->%repeat_spec. right. cbn. lia.
  - cbn. lia.
Defined.


(** Two parameters passed by reference never arrive: the unpacker moves
    on by the size of the size field instead of the size of the parameter, so
    after the first address it reads a flag and a size out of the middle of
    that address; for no pair of addresses (the first not of the form
    8 * 2^40 + x) does the outlined routine get them. *)
Theorem xomp_task_two_references mem buf func cpyfn sz al ifc unt a1 a2 :
  length buf = 512%nat -> 0 <= func < 2 ^ 64 ->
  0 <= a1 < 2 ^ 64 -> 0 <= a2 < 2 ^ 64 -> a1 / 2 ^ 40 <> 8 ->
  exists call,
    xomp_task mem (Some buf) func cpyfn sz al ifc unt 6 [reference a1; reference a2] = Ret call /\
    run_task call <> Ret (func, [PAddress a1; PAddress a2]).
Proof.
  intros Hbuf Hf H1 H2 H8.
  assert (Hp1 : param_ok (reference a1)) by (right; cbn; lia).
  assert (Hp2 : param_ok (reference a2)) by (right; cbn; lia).
  eexists. split.
  - rewrite xomp_task_segment; [|now repeat constructor|cbn; lia|reflexivity|assumption].
    unfold segment. cbn [flat_map]. rewrite !length_app, !length_packed by assumption.
    reflexivity.
  - cbn [run_task fn data]. unfold run_me_task. rewrite read_head by reflexivity. cbn [obind].
    cbn [segment flat_map length]. rewrite <- app_assoc, unpack_param_app
      by (assumption || now rewrite length_le_bytes).
    destruct (unpack_params 1 _ _) as [ps|] eqn:E; cbn [obind]; [|discriminate].
    change (packed mem (reference a2)) with (0 :: le_bytes 4 8 ++ payload mem (reference a2)) in E.
    cbn [app] in E. apply unpack_shifted in E as (bytes & ps' & ->); try assumption; [discriminate|].
    now rewrite length_le_bytes.
Qed.

Theorem xomp_task_two_references_witness :
  exists call,
    xomp_task (fun _ => 0) (Some (repeat 0 512)) 4096 0 8 8 1 0 6
      [reference 140737488355328; reference 64] = Ret call /\
    run_task call <> Ret (4096, [PAddress 140737488355328; PAddress 64]).
Proof.
  apply (xomp_task_two_references (fun _ => 0) (repeat 0 512) 4096 0 8 8 1 0);
    reflexivity || lia || easy.
Defined.
