(* ===== verification/XompRegion.v ===== *)
(** Parallel regions, sections and synchronisation of the XOMP layer
    ([ompLowering/xomp.c], with the unpackers of [run_me_defs.inc] and the
    dispatch of [run_me_callers.inc]). *)
From S2P Require Import Prelude XompRuntime.

(** * State

    The global state of the layer: the parameter array of Fortran regions, the
    instrumentation switch and its log file, and the calls made so far to the
    runtime library, oldest first. *)

Definition MAX_OUTLINED_FUNC_PARAMETER_COUNT : nat := 256.

(** The routine a region runs: an outlined function or an unpacker. *)
Inductive routine := Func (f : Z) | RunMe (n : nat).

(** Its argument: a pointer of the caller or the address of [g_parameter]. *)
Inductive datum := Ptr (p : Z) | GParameter.

Inductive lib_call :=
  | LGOMP_parallel_start (fn : routine) (data : datum) (num_threads : Z)
  | LCall (fn : routine) (data : datum)
  | LGOMP_parallel_end
  | Lompc_do_parallel (fn : routine) (data : datum)
  | Lompc_init
  | Lompc_terminate (exitcode : Z).

(** A line of the log: time stamp, level and, for a region, its place. *)
Record event := { stamp : Z; level : Z; place : option (Z * Z) }.

Inductive file := Null | Opened (log : list event) | Closed (log : list event).

Record layer := {
  g_parameter : list Z;
  env_region_instr_val : bool;
  fp : file;
  calls : list lib_call
}.

Definition set_fp (st : layer) (f : file) : layer :=
  {| g_parameter := g_parameter st; env_region_instr_val := env_region_instr_val st;
     fp := f; calls := calls st |}.
Definition call (st : layer) (cs : list lib_call) : layer :=
  {| g_parameter := g_parameter st; env_region_instr_val := env_region_instr_val st;
     fp := fp st; calls := calls st ++ cs |}.

(** [fprintf (fp, ...)]: undefined on a null or closed stream. *)
Definition fprintf (st : layer) (e : event) : outcome layer :=
  match fp st with
  | Opened log => Ret (set_fp st (Opened (log ++ [e])))
  | _ => Fail Undefined
  end.

(** A [%s] of a null pointer is undefined. *)
Definition fprintf_place (st : layer) (t lvl : Z) (file_name : option Z) (line_no : Z)
    : outcome layer :=
  match file_name with
  | None => Fail Undefined
  | Some f => fprintf st {| stamp := t; level := lvl; place := Some (f, line_no) |}
  end.

(** * Initialisation and termination

    [env] is what [getenv] finds: nothing, a text [sscanf] reads no number
    from, or a number; [opened] is whether [fopen] succeeds. *)
Definition XOMP_init (be : backend) (env : option (option Z)) (opened : bool) (now : Z)
    (st : layer) : outcome layer :=
  let! instr :=
    match env with
    | None => Ret (env_region_instr_val st)
    | Some None => Fail Undefined
    | Some (Some v) =>
        assert! (v =? 0) || (v =? 1) else AssertFail in Ret (v =? 1)
    end in
  let st := {| g_parameter := g_parameter st; env_region_instr_val := instr;
               fp := fp st; calls := calls st |} in
  let! st :=
    if instr then
      let st := set_fp st (if opened then Opened [] else Null) in
      if opened then fprintf st {| stamp := now; level := 1; place := None |} else Ret st
    else Ret st in
  Ret (match be with Gomp => st | Omni => call st [Lompc_init] end).

Definition XOMP_terminate (be : backend) (exitcode now : Z) (st : layer) : outcome layer :=
  let! st :=
    if env_region_instr_val st then
      let! st := fprintf st {| stamp := now; level := 1; place := None |} in
      match fp st with Opened log => Ret (set_fp st (Closed log)) | _ => Fail Undefined end
    else Ret st in
  Ret (match be with Gomp => st | Omni => call st [Lompc_terminate exitcode] end).

(** * Parallel regions *)

Definition XOMP_parallel_start (be : backend) (func : routine) (data : datum)
    (ifClauseValue numThreadsSpecified : Z) (file_name : option Z) (line_no t1 t2 : Z)
    (st : layer) : outcome layer :=
  let! st :=
    if env_region_instr_val st then
      let! st := fprintf_place st t1 1 file_name line_no in
      fprintf_place st t2 2 file_name line_no
    else Ret st in
  match be with
  | Gomp =>
      let numThread := if ifClauseValue =? 0 then 1 else numThreadsSpecified in
      Ret (call st [LGOMP_parallel_start func data numThread; LCall func data])
  | Omni => Ret (call st [Lompc_do_parallel func data])
  end.

Definition XOMP_parallel_end (be : backend) (file_name : option Z) (line_no t1 t2 : Z)
    (st : layer) : outcome layer :=
  let! st :=
    if env_region_instr_val st then
      let! st := fprintf_place st t1 2 file_name line_no in
      fprintf_place st t2 1 file_name line_no
    else Ret st in
  Ret (match be with Gomp => call st [LGOMP_parallel_end] | Omni => st end).

Definition xomp_parallel_end (be : backend) (t1 t2 : Z) (st : layer) : outcome layer :=
  XOMP_parallel_end be None 0 t1 t2 st.

(** [g_parameter[i] = v]: undefined past the end of the array. *)
Definition set_parameter (st : layer) (i : nat) (v : Z) : outcome layer :=
  if (i <? length (g_parameter st))%nat
  then Ret {| g_parameter := <[i := v]> (g_parameter st);
              env_region_instr_val := env_region_instr_val st; fp := fp st; calls := calls st |}
  else Fail Undefined.

(** The loop that stores the variable arguments from position [i] on. *)
Fixpoint store_parameters (st : layer) (i : nat) (n : nat) (args : list Z) : outcome layer :=
  match n, args with
  | O, _ => Ret st
  | S _, [] => Fail Undefined
  | S n, a :: args =>
      let! st := set_parameter st i a in store_parameters st (S i) n args
  end.

Definition xomp_parallel_start (be : backend) (func ifClauseValue numThread argcount : Z)
    (args : list Z) (t1 t2 : Z) (st : layer) : outcome layer :=
  let p_offset := 1%nat in
  if argcount =? 0
  then XOMP_parallel_start be (Func func) (Ptr 0) ifClauseValue numThread None 0 t1 t2 st
  else
    let! st := set_parameter st 0 func in
    let! st := store_parameters st p_offset (Z.to_nat argcount) args in
    if (1 <=? argcount) && (argcount <=? 256)
    then XOMP_parallel_start be (RunMe (Z.to_nat argcount)) GParameter
           ifClauseValue numThread None 0 t1 t2 st
    else Fail Abort.

(** [run_me_<n>]: the outlined routine and the arguments it is called with. *)
Definition run_me (n : nat) (data : list Z) : outcome (Z * list Z) :=
  match data with
  | func :: params =>
      if (n <=? length params)%nat then Ret (func, take n params) else Fail Undefined
  | [] => Fail Undefined
  end.

(** What a thread of a region does with its routine and argument; an outlined
    function gets the single pointer. *)
Definition run_routine (st : layer) (fn : routine) (data : datum) : outcome (Z * list Z) :=
  match fn, data with
  | Func f, Ptr p => Ret (f, [p])
  | RunMe n, GParameter => run_me n (g_parameter st)
  | _, _ => Fail Undefined
  end.

(** * Sections

    The part of the library that hands out sections, over its state. *)
Record sections_lib (St : Type) := {
  GOMP_sections_start (tid : nat) (count : Z) : St -> Z * St;
  GOMP_sections_next (tid : nat) : St -> Z * St;
  ompc_section_init (tid : nat) (count : Z) : St -> St;
  ompc_section_id (tid : nat) : St -> Z * St
}.
Arguments GOMP_sections_start {St} s.
Arguments GOMP_sections_next {St} s.
Arguments ompc_section_init {St} s.
Arguments ompc_section_id {St} s.

Section Sections.
Context {St : Type} (L : sections_lib St).

Definition XOMP_sections_init_next (be : backend) (tid : nat) (section_count : Z) (s : St)
    : outcome (Z * St) :=
  match be with
  | Gomp =>
      let '(result, s) := GOMP_sections_start L tid section_count s in
      let! result := chk_int (result - 1) in Ret (result, s)
  | Omni => Ret (ompc_section_id L tid (ompc_section_init L tid section_count s))
  end.

Definition XOMP_sections_next (be : backend) (tid : nat) (s : St) : outcome (Z * St) :=
  match be with
  | Gomp =>
      let '(result, s) := GOMP_sections_next L tid s in
      let! result := chk_int (result - 1) in Ret (result, s)
  | Omni => Ret (ompc_section_id L tid s)
  end.

(** The sections of a team, threads calling in the order of [tids]: the first
    call of a thread starts, the others ask for the next; the generated code
    runs the section whose number it gets, unless that is negative. *)
Fixpoint team_sections (be : backend) (count : Z) (tids begun : list nat) (s : St)
    : outcome (list Z * St) :=
  match tids with
  | [] => Ret ([], s)
  | t :: tids =>
      let! '(id, s) :=
        if bool_decide (t ∈ begun) then XOMP_sections_next be t s
        else XOMP_sections_init_next be t count s in
      let! '(rest, s) := team_sections be count tids (t :: begun) s in
      Ret ((if 0 <=? id then [id] else []) ++ rest, s)
  end.
End Sections.

(** [libgomp] hands out the numbers [1 .. count], each once, and 0 for "none
    left". *)
Class SectionServer {St} (L : sections_lib St) := {
  unstarted : St -> Prop;
  remaining : St -> list Z;
  hands_out : list Z -> Z * St -> Prop :=
    fun ids r =>
      ~ unstarted r.2 /\
      ((r.1 = 0 /\ remaining r.2 = ids) \/ ids ≡ₚ r.1 :: remaining r.2);
  sections_start_first tid n s :
    unstarted s -> hands_out (map Z.of_nat (seq 1 n)) (GOMP_sections_start L tid (Z.of_nat n) s);
  sections_start_again tid n s :
    ~ unstarted s -> hands_out (remaining s) (GOMP_sections_start L tid n s);
  sections_next_again tid s :
    ~ unstarted s -> hands_out (remaining s) (GOMP_sections_next L tid s)
}.

Section SectionTeam.
Context {St : Type} (L : sections_lib St) `{!SectionServer L}.

Definition section_ids (ids : list Z) : Prop := Forall (fun id => 1 <= id <= INT_MAX) ids.

(** One call: the number handed out, made to start from 0. *)
Lemma handed_out ids r :
  section_ids ids -> hands_out ids r ->
  (let! result := chk_int (r.1 - 1) in Ret (result, r.2)) = Ret (r.1 - 1, r.2) /\
  section_ids (remaining r.2) /\
  map Z.pred ids ≡ₚ
    (if 0 <=? r.1 - 1 then [r.1 - 1] else []) ++ map Z.pred (remaining r.2).
Proof.
  intros Hids [_ [[Hr Hrem]|Hp]].
  - rewrite Hr, Hrem. split; [reflexivity|]. now split.
  - unfold section_ids in *. rewrite Hp in Hids. apply Forall_cons in Hids as [Hid Hids].
    rewrite chk_int_ok by (unfold INT_MIN; lia). split; [reflexivity|]. split; [assumption|].
    rewrite (proj2 (Z.leb_le 0 _)) by lia. rewrite Hp. cbn. now rewrite Z.sub_1_r.
Qed.

Lemma team_sections_begun count tids begun s :
  ~ unstarted s -> section_ids (remaining s) ->
  exists ex s', team_sections L Gomp count tids begun s = Ret (ex, s') /\
    map Z.pred (remaining s) ≡ₚ ex ++ map Z.pred (remaining s').
Proof.
  revert begun s. induction tids as [|t tids IH]; intros begun s Hu Hids.
  - exists [], s. now split.
  - cbn [team_sections]. unfold XOMP_sections_next, XOMP_sections_init_next.
    assert (exists r, hands_out (remaining s) r /\
      (if bool_decide (t ∈ begun)
       then let '(result, s) := GOMP_sections_next L t s in
            let! result := chk_int (result - 1) in Ret (result, s)
       else let '(result, s) := GOMP_sections_start L t count s in
            let! result := chk_int (result - 1) in Ret (result, s))
      = (let! result := chk_int (r.1 - 1) in Ret (result, r.2))) as (r & Hr & ->).
    { case_bool_decide.
      - exists (GOMP_sections_next L t s). split; [now apply sections_next_again|].
        now destruct (GOMP_sections_next L t s).
      - exists (GOMP_sections_start L t count s). split; [now apply sections_start_again|].
        now destruct (GOMP_sections_start L t count s). }
    destruct (handed_out _ _ Hids Hr) as (-> & Hrest & Hp). cbn [obind].
    destruct (IH (t :: begun) r.2) as (ex & s' & -> & Hp'); [apply Hr|assumption|].
    cbn [obind]. eexists _, _. split; [reflexivity|]. now rewrite Hp, Hp', app_assoc.
Qed.
End SectionTeam.

(** A library that hands the sections out in order. *)
Definition hand (s : list Z) : Z * option (list Z) :=
  match s with [] => (0, Some []) | id :: s => (id, Some s) end.

Definition in_order : sections_lib (option (list Z)) := {|
  GOMP_sections_start _ count s :=
    hand (match s with None => map Z.of_nat (seq 1 (Z.to_nat count)) | Some ids => ids end);
  GOMP_sections_next _ s := hand (match s with None => [] | Some ids => ids end);
  ompc_section_init _ count s := s;
  ompc_section_id _ s := (-1, s)
|}.

#[export] Program Instance in_order_server : SectionServer in_order := {|
  unstarted s := s = None;
  remaining s := match s with None => [] | Some ids => ids end
|}.
Next Obligation.
  intros tid n s ->. cbn. rewrite Nat2Z.id.
  destruct (map Z.of_nat (seq 1 n)); (split; [easy|]); [left|right]; easy.
Qed.
Next Obligation.
  intros tid n [[|id ids]|] Hs; [..|easy]; (split; [easy|]); [left|right]; easy.
Qed.
Next Obligation.
  intros tid [[|id ids]|] Hs; [..|easy]; (split; [easy|]); [left|right]; easy.
Qed.

(** * Properties *)

(** C30. Sections: whatever order the threads of a team call in, no call
    fails, and the sections they run, numbered from 0 as the generated switch
    expects, together with those not handed out yet are exactly the sections
    [0 .. n-1], each once. *)
Theorem team_sections_partition {St} (L : sections_lib St) `{!SectionServer L} n tids s :
  unstarted s -> tids <> [] -> Z.of_nat n <= INT_MAX ->
  exists executed s',
    team_sections L Gomp (Z.of_nat n) tids [] s = Ret (executed, s') /\
    executed ++ map Z.pred (remaining s') ≡ₚ map Z.of_nat (seq 0 n).
Proof.
  intros Hu Hne Hn. destruct tids as [|t tids]; [easy|].
  cbn [team_sections]. rewrite bool_decide_eq_false_2 by apply not_elem_of_nil.
  pose proof (sections_start_first t n s Hu) as Hr. unfold XOMP_sections_init_next.
  destruct (GOMP_sections_start L t (Z.of_nat n) s) as [id s1].
  assert (Hids : section_ids (map Z.of_nat (seq 1 n))).
  { apply List.Forall_forall. intros x [k [<- Hk%in_seq]]%in_map_iff. lia. }
  destruct (handed_out L _ _ Hids Hr) as (E & Hrest & Hp). cbn [fst snd] in E, Hrest, Hp.
  rewrite E. cbn [obind].
  destruct (team_sections_begun L (Z.of_nat n) tids [t] s1) as (ex & s' & -> & Hp');
    [apply Hr|assumption|].
  cbn [obind]. eexists _, _. split; [reflexivity|].
  rewrite <- app_assoc, <- Hp', <- Hp, <- seq_shift, !map_map.
  erewrite map_ext; [reflexivity|]. intros k. cbv beta. lia.
Qed.

Theorem team_sections_partition_witness :
  exists executed s',
    team_sections in_order Gomp (Z.of_nat 3) [0; 1; 1; 0]%nat [] None = Ret (executed, s') /\
    executed ++ map Z.pred (remaining s') ≡ₚ map Z.of_nat (seq 0 3).
Proof.
  apply (team_sections_partition in_order 3 [0; 1; 1; 0]%nat None);
    [reflexivity | easy | unfold INT_MAX; lia].
Defined.

Definition with_parameters (st : layer) (g : list Z) : layer :=
  {| g_parameter := g; env_region_instr_val := env_region_instr_val st;
     fp := fp st; calls := calls st |}.

(** Storing the arguments fills the array from the given position, up to its
    end and not past it. *)
Lemma store_parameters_app st args pre post i :
  g_parameter st = pre ++ post -> i = length pre ->
  store_parameters st i (length args) args =
  if (length args <=? length post)%nat
  then Ret (with_parameters st (pre ++ args ++ drop (length args) post))
  else Fail Undefined.
Proof.
  revert st pre post i. induction args as [|a args IH]; intros st pre post i Hg Hi.
  - cbn. rewrite drop_0. destruct st; cbn in *. now rewrite <- Hg.
  - cbn [length store_parameters]. unfold set_parameter. rewrite Hg, length_app, Hi.
    destruct post as [|b post]; cbn [length].
    + now rewrite Nat.add_0_r, Nat.ltb_irrefl.
    + rewrite (proj2 (Nat.ltb_lt _ _)) by lia. cbn [obind].
      rewrite (IH _ (pre ++ [a]) post).
      * cbn [Nat.leb drop app]. now rewrite <- app_assoc.
      * cbn [g_parameter]. rewrite <- app_assoc. cbn [app].
        rewrite insert_app_r_alt, Nat.sub_diag by lia. reflexivity.
      * rewrite length_app. cbn. lia.
Qed.

(** Fortran regions get their parameters: with up to 255 arguments and
    instrumentation off, the layer asks for one thread if the clause is false
    and for the specified number otherwise, runs the routine on the calling
    thread too, and every thread that runs it calls the outlined subroutine
    with exactly the arguments of the region, in order. *)
Theorem xomp_parallel_start_arguments func ifc num args t1 t2 st :
  (1 <= length args <= 255)%nat -> length (g_parameter st) = MAX_OUTLINED_FUNC_PARAMETER_COUNT ->
  env_region_instr_val st = false ->
  exists st',
    xomp_parallel_start Gomp func ifc num (Z.of_nat (length args)) args t1 t2 st = Ret st' /\
    calls st' = calls st ++
      [LGOMP_parallel_start (RunMe (length args)) GParameter (if ifc =? 0 then 1 else num);
       LCall (RunMe (length args)) GParameter] /\
    run_routine st' (RunMe (length args)) GParameter = Ret (func, args).
Proof.
  unfold MAX_OUTLINED_FUNC_PARAMETER_COUNT. intros Hn Hg Hi.
  destruct (g_parameter st) as [|g0 g] eqn:Eg; [discriminate|]. injection Hg as Hg.
  unfold xomp_parallel_start, set_parameter.
  rewrite (proj2 (Z.eqb_neq (Z.of_nat (length args)) 0)), Nat2Z.id, Eg by lia. cbn [length Nat.ltb Nat.leb obind].
  rewrite (store_parameters_app _ args [func] g), (proj2 (Nat.leb_le _ _)) by (reflexivity || lia).
  cbn [obind]. rewrite (proj2 (Z.leb_le 1 _)), (proj2 (Z.leb_le _ 256)) by lia. cbn [andb].
  unfold XOMP_parallel_start. cbn [env_region_instr_val with_parameters]. rewrite Hi. cbn [obind].
  eexists. split; [reflexivity|]. split; [reflexivity|].
  cbn [run_routine call g_parameter with_parameters run_me app].
  rewrite length_app, (proj2 (Nat.leb_le _ _)) by lia.
  now rewrite take_app_length.
Qed.

Theorem xomp_parallel_start_arguments_witness :
  exists st',
    xomp_parallel_start Gomp 4096 0 8 (Z.of_nat 2) [64; 72] 0 0
      {| g_parameter := repeat 0 256; env_region_instr_val := false; fp := Null; calls := [] |}
      = Ret st' /\
    calls st' = [] ++ [LGOMP_parallel_start (RunMe 2) GParameter 1; LCall (RunMe 2) GParameter] /\
    run_routine st' (RunMe 2) GParameter = Ret (4096, [64; 72]).
Proof.
  apply (xomp_parallel_start_arguments 4096 0 8 [64; 72] 0 0
    {| g_parameter := repeat 0 256; env_region_instr_val := false; fp := Null; calls := [] |});
    [cbn; lia | reflexivity | reflexivity].
Defined.

(** The parameter array is one entry short: it has
    [MAX_OUTLINED_FUNC_PARAMETER_COUNT] = 256 entries and the routine takes the
    first, so a region with 256 arguments, which the dispatch supports, writes
    past its end. *)
Theorem xomp_parallel_start_256 be func ifc num args t1 t2 st :
  length args = MAX_OUTLINED_FUNC_PARAMETER_COUNT ->
  length (g_parameter st) = MAX_OUTLINED_FUNC_PARAMETER_COUNT ->
  xomp_parallel_start be func ifc num 256 args t1 t2 st = Fail Undefined.
Proof.
  unfold MAX_OUTLINED_FUNC_PARAMETER_COUNT. intros Hn Hg.
  destruct (g_parameter st) as [|g0 g] eqn:Eg; [discriminate|]. injection Hg as Hg.
  unfold xomp_parallel_start, set_parameter. rewrite Eg. cbn [Z.eqb length Nat.ltb Nat.leb obind].
  change (Z.to_nat 256) with 256%nat. rewrite <- Hn at 1.
  rewrite (store_parameters_app _ args [func] g), (proj2 (Nat.leb_gt _ _)) by (reflexivity || lia).
  reflexivity.
Qed.

Theorem xomp_parallel_start_256_witness :
  xomp_parallel_start Gomp 4096 1 4 256 (repeat 8 256) 0 0
    {| g_parameter := repeat 0 256; env_region_instr_val := false; fp := Null; calls := [] |}
  = Fail Undefined.
Proof.
  apply (xomp_parallel_start_256 Gomp 4096 1 4 (repeat 8 256) 0 0
    {| g_parameter := repeat 0 256; env_region_instr_val := false; fp := Null; calls := [] |});
    reflexivity.
Defined.

(** A C program with a sequence of regions: initialise, enter and leave each
    region, terminate.  A region is its routine, argument, clauses and place. *)
Record region := { rg_fn : Z; rg_data : Z; rg_if : Z; rg_num : Z; rg_file : Z; rg_line : Z }.

Fixpoint run_regions (clock : nat -> Z) (i : nat) (rs : list region) (st : layer) : outcome layer :=
  match rs with
  | [] => Ret st
  | r :: rs =>
      let! st := XOMP_parallel_start Gomp (Func (rg_fn r)) (Ptr (rg_data r)) (rg_if r) (rg_num r)
                   (Some (rg_file r)) (rg_line r) (clock i) (clock (i + 1)%nat) st in
      let! st := XOMP_parallel_end Gomp (Some (rg_file r)) (rg_line r)
                   (clock (i + 2)%nat) (clock (i + 3)%nat) st in
      run_regions clock (i + 4) rs st
  end.

Definition run_program (clock : nat -> Z) (env : option (option Z)) (opened : bool)
    (rs : list region) (st : layer) : outcome layer :=
  let! st := XOMP_init Gomp env opened (clock 0%nat) st in
  let! st := run_regions clock 1 rs st in
  XOMP_terminate Gomp 0 (clock (1 + 4 * length rs)%nat) st.

Definition region_levels (rs : list region) : list Z := flat_map (fun _ => [1; 2; 2; 1]) rs.

Lemma run_regions_log clock i rs st log :
  env_region_instr_val st = true -> fp st = Opened log ->
  exists st' log', run_regions clock i rs st = Ret st' /\
    env_region_instr_val st' = true /\ fp st' = Opened (log ++ log') /\
    map level log' = region_levels rs /\
    map stamp log' = map clock (seq i (4 * length rs)).
Proof.
  revert i st log. induction rs as [|r rs IH]; intros i st log Hi Hf.
  - exists st, []. now rewrite app_nil_r.
  - cbn [run_regions]. unfold XOMP_parallel_start, XOMP_parallel_end, fprintf_place, fprintf.
    rewrite Hi, Hf. cbn [obind set_fp fp call env_region_instr_val]. rewrite Hi. cbn [obind set_fp fp call].
    edestruct IH as (st' & log' & -> & Hi' & Hf' & Hl & Hs);
      [| |exists st'; eexists (_ :: _ :: _ :: _ :: log'); split; [reflexivity|]];
      [exact Hi | reflexivity |].
    split; [exact Hi'|]. split; [rewrite Hf', <- !app_assoc; reflexivity|].
    cbn [map level stamp region_levels flat_map]. rewrite Hl, Hs. split; [reflexivity|].
    replace (4 * length (r :: rs))%nat with (4 + 4 * length rs)%nat by (cbn [length]; lia).
    rewrite seq_app. cbn [seq map app Nat.add]. repeat f_equal; lia.
Qed.

(** The instrumentation log of a program: when the environment turns it
    on and the file opens, a program that runs its regions one after another
    ends with the file closed on a log whose levels step from serial (1) to
    parallel (2) and back at every region, each change recorded by the level
    before and the level after, with the time stamps in the order taken. *)
Theorem run_program_log clock rs st :
  exists st' log,
    run_program clock (Some (Some 1)) true rs st = Ret st' /\ fp st' = Closed log /\
    map level log = 1 :: region_levels rs ++ [1] /\
    map stamp log = map clock (seq 0 (2 + 4 * length rs)).
Proof.
  unfold run_program, XOMP_init, fprintf.
  cbn [Z.eqb Pos.eqb orb require_ obind set_fp fp app env_region_instr_val].
  edestruct (run_regions_log clock 1 rs) as (st' & log & -> & Hi & Hf & Hl & Hs);
    [reflexivity | cbn [fp]; reflexivity |].
  cbn [obind]. unfold XOMP_terminate, fprintf. rewrite Hi, Hf. cbn [obind set_fp fp].
  eexists _, _. split; [reflexivity|]. split; [reflexivity|].
  rewrite <- app_assoc. cbn [app map level stamp]. rewrite !map_app, Hl, Hs. split; [reflexivity|].
  replace (2 + 4 * length rs)%nat with (1 + (4 * length rs + 1))%nat by lia.
  rewrite !seq_app, !map_app. reflexivity.
Qed.
