(* ===== verification/XompSync.v ===== *)
(** Synchronisation constructs of the XOMP layer ([ompLowering/xomp.c]): each
    entry point is the list of calls it makes to the runtime library. *)
From S2P Require Import Prelude XompRuntime.

Inductive sync_call :=
  | LGOMP_barrier | Lompc_barrier
  | LGOMP_critical_name_start (name : Z) | LGOMP_critical_name_end (name : Z)
  | Lompc_enter_critical (name : Z) | Lompc_exit_critical (name : Z)
  | LGOMP_atomic_start | LGOMP_atomic_end | Lompc_atomic_lock | Lompc_atomic_unlock
  | LGOMP_ordered_start | LGOMP_ordered_end
  | LGOMP_loop_end | LGOMP_loop_end_nowait
  | LGOMP_sections_end | LGOMP_sections_end_nowait
  | LGOMP_taskwait
  | Lsync_synchronize | Lompc_flush (addr nbyte : Z).

Definition XOMP_barrier (be : backend) : list sync_call :=
  match be with Gomp => [LGOMP_barrier] | Omni => [Lompc_barrier] end.
Definition XOMP_critical_start (be : backend) (name : Z) : list sync_call :=
  match be with Gomp => [LGOMP_critical_name_start name] | Omni => [Lompc_enter_critical name] end.
Definition XOMP_critical_end (be : backend) (name : Z) : list sync_call :=
  match be with Gomp => [LGOMP_critical_name_end name] | Omni => [Lompc_exit_critical name] end.
Definition XOMP_atomic_start (be : backend) : list sync_call :=
  match be with Gomp => [LGOMP_atomic_start] | Omni => [Lompc_atomic_lock] end.
Definition XOMP_atomic_end (be : backend) : list sync_call :=
  match be with Gomp => [LGOMP_atomic_end] | Omni => [Lompc_atomic_unlock] end.
Definition XOMP_ordered_start (be : backend) : list sync_call :=
  match be with Gomp => [LGOMP_ordered_start] | Omni => [] end.
Definition XOMP_ordered_end (be : backend) : list sync_call :=
  match be with Gomp => [LGOMP_ordered_end] | Omni => [] end.
Definition XOMP_loop_end (be : backend) : list sync_call :=
  match be with Gomp => [LGOMP_loop_end] | Omni => [] end.
Definition XOMP_loop_end_nowait (be : backend) : list sync_call :=
  match be with Gomp => [LGOMP_loop_end_nowait] | Omni => [] end.
Definition XOMP_sections_end (be : backend) : list sync_call :=
  match be with Gomp => [LGOMP_sections_end] | Omni => [] end.
Definition XOMP_sections_end_nowait (be : backend) : list sync_call :=
  match be with Gomp => [LGOMP_sections_end_nowait] | Omni => [] end.
Definition XOMP_taskwait (be : backend) : list sync_call :=
  match be with Gomp => [LGOMP_taskwait] | Omni => [] end.
Definition XOMP_flush_all (be : backend) : list sync_call :=
  match be with Gomp => [Lsync_synchronize] | Omni => [Lompc_flush 0 0] end.
Definition XOMP_flush_one (be : backend) (startAddress nbyte : Z) : list sync_call :=
  match be with Gomp => [Lsync_synchronize] | Omni => [Lompc_flush startAddress nbyte] end.

(** The master test and the single construct are answers of the library. *)
Definition XOMP_master (be : backend) (omp_get_thread_num : Z) (ompc_is_master : bool) : bool :=
  match be with Gomp => omp_get_thread_num =? 0 | Omni => ompc_is_master end.
Definition XOMP_single (be : backend) (GOMP_single_start ompc_do_single : bool) : bool :=
  match be with Gomp => GOMP_single_start | Omni => ompc_do_single end.

(** * Locks

    The locks the calls take and release.  A thread that asks for a lock it
    holds is stuck, and so is one that releases another than the last taken. *)
Inductive lock := Critical (name : Z) | Atomic | Ordered.

#[export] Instance lock_eq_dec : EqDecision lock.
Proof. solve_decision. Defined.

Definition lock_effect (c : sync_call) : option (bool * lock) :=
  match c with
  | LGOMP_critical_name_start n | Lompc_enter_critical n => Some (true, Critical n)
  | LGOMP_critical_name_end n | Lompc_exit_critical n => Some (false, Critical n)
  | LGOMP_atomic_start | Lompc_atomic_lock => Some (true, Atomic)
  | LGOMP_atomic_end | Lompc_atomic_unlock => Some (false, Atomic)
  | LGOMP_ordered_start => Some (true, Ordered)
  | LGOMP_ordered_end => Some (false, Ordered)
  | _ => None
  end.

Fixpoint run_locks (cs : list sync_call) (held : list lock) : option (list lock) :=
  match cs with
  | [] => Some held
  | c :: cs =>
      match lock_effect c with
      | None => run_locks cs held
      | Some (true, l) => if bool_decide (l ∈ held) then None else run_locks cs (l :: held)
      | Some (false, l) =>
          match held with
          | l' :: held => if bool_decide (l = l') then run_locks cs held else None
          | [] => None
          end
      end
  end.

Lemma run_locks_app cs ds held :
  run_locks (cs ++ ds) held = match run_locks cs held with
                              | Some held => run_locks ds held | None => None end.
Proof.
  revert held. induction cs as [|c cs IH]; intros held; [reflexivity|].
  cbn [app run_locks]. destruct (lock_effect c) as [[[] l]|]; [..|apply IH].
  - case_bool_decide; [reflexivity | apply IH].
  - destruct held as [|l' held]; [reflexivity|]. case_bool_decide; [apply IH | reflexivity].
Qed.

(** The synchronisation of a structured block of the source program. *)
Inductive block :=
  | Skip
  | Barrier
  | Seq (a b : block)
  | InCritical (name : Z) (b : block)
  | InAtomic (b : block)
  | InOrdered (b : block).

Fixpoint block_calls (be : backend) (b : block) : list sync_call :=
  match b with
  | Skip => []
  | Barrier => XOMP_barrier be
  | Seq a b => block_calls be a ++ block_calls be b
  | InCritical n b => XOMP_critical_start be n ++ block_calls be b ++ XOMP_critical_end be n
  | InAtomic b => XOMP_atomic_start be ++ block_calls be b ++ XOMP_atomic_end be
  | InOrdered b => XOMP_ordered_start be ++ block_calls be b ++ XOMP_ordered_end be
  end.

(** No construct is nested in one on the same lock, as OpenMP requires. *)
Fixpoint well_nested (held : list lock) (b : block) : Prop :=
  match b with
  | Skip | Barrier => True
  | Seq a b => well_nested held a /\ well_nested held b
  | InCritical n b => (Critical n ∉ held) /\ well_nested (Critical n :: held) b
  | InAtomic b => (Atomic ∉ held) /\ well_nested (Atomic :: held) b
  | InOrdered b => (Ordered ∉ held) /\ well_nested (Ordered :: held) b
  end.

(** The locks the two libraries hold for the constructs entered: Omni's layer
    takes none for [ordered]. *)
Definition held_by (be : backend) (held : list lock) : list lock :=
  match be with
  | Gomp => held
  | Omni => filter (fun l => l <> Ordered) held
  end.

Lemma held_by_cons be l held :
  held_by be (l :: held) =
  if bool_decide (be = Omni /\ l = Ordered) then held_by be held else l :: held_by be held.
Proof.
  destruct be; cbn [held_by].
  - now rewrite bool_decide_eq_false_2 by easy.
  - rewrite filter_cons. repeat case_bool_decide || case_decide; naive_solver.
Qed.

Lemma not_held_by be l held : l ∉ held -> l ∉ held_by be held.
Proof. destruct be; [done|]. cbn. rewrite list_elem_of_filter. tauto. Qed.

Lemma block_calls_nested be b held :
  well_nested held b -> run_locks (block_calls be b) (held_by be held) = Some (held_by be held).
Proof.
  revert held. induction b as [| |a IHa b IHb|n b IH|b IH|b IH]; cbn; intros held H.
  - reflexivity.
  - destruct be; reflexivity.
  - destruct H as [Ha Hb]. now rewrite run_locks_app, IHa, IHb.
  - destruct H as [Hn Hb]. specialize (IH _ Hb). apply (not_held_by be) in Hn.
    rewrite held_by_cons, bool_decide_eq_false_2 in IH by naive_solver.
    destruct be; cbn [XOMP_critical_start XOMP_critical_end app run_locks lock_effect];
      rewrite bool_decide_eq_false_2, run_locks_app, IH by assumption; cbn;
      now rewrite bool_decide_eq_true_2.
  - destruct H as [Hn Hb]. specialize (IH _ Hb). apply (not_held_by be) in Hn.
    rewrite held_by_cons, bool_decide_eq_false_2 in IH by naive_solver.
    destruct be; cbn [XOMP_atomic_start XOMP_atomic_end app run_locks lock_effect];
      rewrite bool_decide_eq_false_2, run_locks_app, IH by assumption; cbn;
      now rewrite bool_decide_eq_true_2.
  - destruct H as [Hn Hb]. specialize (IH _ Hb). apply (not_held_by be) in Hn.
    rewrite held_by_cons in IH. destruct be; cbn [XOMP_ordered_start XOMP_ordered_end app].
    + rewrite bool_decide_eq_false_2 in IH by naive_solver. cbn [run_locks lock_effect].
      rewrite bool_decide_eq_false_2, run_locks_app, IH by assumption. cbn.
      now rewrite bool_decide_eq_true_2.
    + rewrite bool_decide_eq_true_2 in IH by done. now rewrite app_nil_r.
Qed.

(** Critical, atomic and ordered blocks keep the lock discipline: for
    every well-nested block, over either library, the calls the layer makes
    take no lock twice, release each lock they take and only it, last taken
    first, and leave the thread with the locks it held, whether or not the
    layer takes a lock for [ordered]. *)
Theorem block_calls_balanced be b :
  well_nested [] b -> run_locks (block_calls be b) [] = Some [].
Proof. intros H. pose proof (block_calls_nested be b [] H) as E. now destruct be. Qed.

Theorem block_calls_balanced_witness :
  run_locks (block_calls Gomp (InOrdered (Seq (InCritical 1 (InAtomic Skip)) Barrier))) [] = Some [].
Proof.
  apply (block_calls_balanced Gomp (InOrdered (Seq (InCritical 1 (InAtomic Skip)) Barrier))).
  repeat split; apply (bool_decide_unpack _); reflexivity.
Defined.
