(* ===== verification/BitVector.v ===== *)
(** Bit vectors ([src/Sawyer/BitVector.h], [src/Sawyer/BitVectorSupport.h]).

    A vector of [w] bits is the number [v] its bits spell, [0 <= v < 2^w]; the
    definitions work on bit ranges the way the code does, above the words it
    stores them in. *)
From S2P Require Import Prelude.

Definition bv_ok (w v : Z) : Prop := 0 <= v < 2 ^ w.

(** * Ranges of bits *)

(** The [n] bits from bit [lo] on, as a number. *)
Definition get_bits (v lo n : Z) : Z := (v / 2 ^ lo) mod 2 ^ n.

(** [copy]: replace the [n] bits from [lo] on by the low bits of [x]. *)
Definition set_bits (v lo n x : Z) : Z :=
  v mod 2 ^ lo + (x mod 2 ^ n) * 2 ^ lo + v / 2 ^ (lo + n) * 2 ^ (lo + n).

(** [setValue]: make all bits of a range the same. *)
Definition bv_setValue (v lo n : Z) (value : bool) : Z :=
  set_bits v lo n (if value then -1 else 0).

Definition bv_get (v i : Z) : bool := get_bits v i 1 =? 1.

Definition bv_resize (w v w' : Z) : Z :=
  if w <? w' then bv_setValue v w (w' - w) false else get_bits v 0 w'.

(** * Integers *)

(** [fromInteger] on a fresh vector of [w] bits; [value] has 64 bits. *)
Definition bv_fromInteger (w value : Z) : Z :=
  if w =? 0 then 0
  else
    let v := set_bits 0 0 (Z.min w 64) value in
    if 64 <=? w then set_bits v 64 (w - 64) 0 else v.

(** [toInteger] on the range of [n] bits from [lo] on. *)
Definition bv_toInteger_range (v lo n : Z) : Z := get_bits v lo (Z.min n 64).
Definition bv_toInteger (w v : Z) : Z := bv_toInteger_range v 0 w.

(** [toSignedInteger]: vectors of one bit and of 64 and more keep their bits. *)
Definition bv_toSignedInteger (w v : Z) : Z :=
  let u := bv_toInteger w v in
  let u := if (1 <? w) && (w <? 64) && bv_get u (w - 1)
           then set_bits u w (64 - w) (-1) else u in
  to_signed 64 u.

(** * Searching *)

Definition bv_isEqualToZero (v : Z) : bool := v =? 0.
Definition bv_isAllSet (w v : Z) : bool := v =? 2 ^ w - 1.
Definition bv_mostSignificantSetBit (v : Z) : option Z :=
  if v =? 0 then None else Some (Z.log2 v).
Definition bv_leastSignificantSetBit (v : Z) : option Z :=
  if v =? 0 then None else Some (Z.log2 (Z.land v (- v))).
Definition bv_mostSignificantClearBit (w v : Z) : option Z :=
  bv_mostSignificantSetBit (2 ^ w - 1 - v).

(** * Shifts and rotates *)

Definition bv_shiftLeft (w v nShift : Z) (newBits : bool) : Z :=
  if nShift <? w then
    let nbits := w - nShift in
    let v := set_bits v nShift nbits (get_bits v 0 nbits) in
    bv_setValue v 0 nShift newBits
  else bv_setValue v 0 w newBits.

Definition bv_shiftRight (w v nShift : Z) (newBits : bool) : Z :=
  if nShift <? w then
    let nbits := w - nShift in
    let v := set_bits v 0 nbits (get_bits v nShift nbits) in
    bv_setValue v nbits nShift newBits
  else bv_setValue v 0 w newBits.

Definition bv_shiftRightArithmetic (w v nShift : Z) : Z :=
  if w =? 0 then v else bv_shiftRight w v nShift (bv_get v (w - 1)).

Definition bv_rotateRight (w v nShift : Z) : Z :=
  if w =? 0 then v
  else
    let nShift := nShift mod w in
    if nShift =? 0 then v
    else
      let saved := get_bits v 0 nShift in
      let v := bv_shiftRight w v nShift false in
      set_bits v (w - nShift) nShift saved.

Definition bv_rotateLeft (w v nShift : Z) : Z :=
  if w =? 0 then v else bv_rotateRight w v (w - nShift mod w).

(** * Arithmetic *)

Definition bv_invert (w v : Z) : Z := Z.lxor v (2 ^ w - 1).
Definition bv_increment (w v : Z) : Z := (v + 1) mod 2 ^ w.
Definition bv_decrement (w v : Z) : Z := (v - 1) mod 2 ^ w.
Definition bv_negate (w v : Z) : Z := bv_increment w (bv_invert w v).
Definition bv_add (w a b : Z) : Z := (a + b) mod 2 ^ w.

(** [signExtend] from [w1] bits to [w2]. *)
Definition bv_signExtend (w1 v w2 : Z) : Z :=
  if w2 =? 0 then 0
  else if w1 =? 0 then 0
  else if w1 <? w2 then
    bv_setValue (set_bits 0 0 w1 v) w1 (w2 - w1) (bv_get v (w1 - 1))
  else get_bits v 0 w2.

(** The long multiplication: bits [i ..] of [a], with the addend shifted. *)
Fixpoint mul_loop (n : nat) (w i a addend product : Z) : Z :=
  match n with
  | O => product
  | S n =>
      let product := if bv_get a i then bv_add w product addend else product in
      mul_loop n w (i + 1) a (bv_shiftLeft w addend 1 false) product
  end.

Definition bv_multiply (w1 a w2 b : Z) : Z :=
  let w := w1 + w2 in
  mul_loop (Z.to_nat w1) w 0 a (bv_resize w2 b w) 0.

Definition bv_multiplySigned (w1 a w2 b : Z) : Z :=
  let w := w1 + w2 in
  let aIsNeg := (1 <? w1) && bv_get a (w1 - 1) in
  let a := if aIsNeg then bv_negate w1 a else a in
  let bIsNeg := (1 <? w2) && bv_get b (w2 - 1) in
  let b := if bIsNeg then bv_negate w2 b else b in
  let b := bv_resize w2 b w in
  let product := mul_loop (Z.to_nat w1) w 0 a b 0 in
  if xorb aIsNeg bIsNeg then bv_negate w product else product.

(** * Comparison *)

(** Vectors of the same size, from the high bits down. *)
Definition compare_same (a b : Z) : Z := if a <? b then -1 else if b <? a then 1 else 0.

Definition bv_compare (w1 a w2 b : Z) : Z :=
  if w1 <? w2 then
    if get_bits b w1 (w2 - w1) =? 0 then compare_same a (get_bits b 0 w1) else -1
  else if w2 <? w1 then
    if get_bits a w2 (w1 - w2) =? 0 then compare_same (get_bits a 0 w2) b else 1
  else compare_same a b.

(** Signed comparison of non-empty vectors of the same size. *)
Definition compareSigned_same (w a b : Z) : Z :=
  match bv_get a (w - 1), bv_get b (w - 1) with
  | false, false => bv_compare w a w b
  | true, true => if a =? b then 0 else if bv_get a (Z.log2 (Z.lxor a b)) then 1 else -1
  | true, false => -1
  | false, true => 1
  end.

(** The shorter vector first. *)
Definition compareSigned_shorter (w1 a w2 b : Z) : Z :=
  match bv_get a (w1 - 1), bv_get b (w2 - 1) with
  | false, false => bv_compare w1 a w2 b
  | true, true =>
      if bv_isAllSet (w2 - w1) (get_bits b w1 (w2 - w1)) && bv_get b (w1 - 1)
      then compareSigned_same w1 a (get_bits b 0 w1) else 1
  | true, false => -1
  | false, true => 1
  end.

Definition bv_compareSigned (w1 a w2 b : Z) : Z :=
  if w1 <? w2 then compareSigned_shorter w1 a w2 b
  else if w2 <? w1 then - compareSigned_shorter w2 b w1 a
  else compareSigned_same w1 a b.

(** * What the vectors mean

    The two's complement value of a vector of [w] bits. *)
Definition sval (w v : Z) : Z := if bv_get v (w - 1) then v - 2 ^ w else v.

(** * Bit ranges *)

Lemma pow2_pos n : 0 <= n -> 0 < 2 ^ n.
Proof. intros Hn. apply Z.pow_pos_nonneg; lia. Qed.

Lemma pow2_split a b : 0 <= a <= b -> 2 ^ b = 2 ^ (b - a) * 2 ^ a.
Proof. intros H. rewrite <- Z.pow_add_r by lia. f_equal. lia. Qed.

Lemma pow2_le a b : 0 <= a <= b -> 2 ^ a <= 2 ^ b.
Proof. intros H. apply Z.pow_le_mono_r; lia. Qed.

Lemma mod_pow2_range v n : 0 <= n -> 0 <= v mod 2 ^ n < 2 ^ n.
Proof. intros Hn. apply Z.mod_pos_bound, pow2_pos, Hn. Qed.

Lemma get_bits_range v lo n : 0 <= n -> 0 <= get_bits v lo n < 2 ^ n.
Proof. apply mod_pow2_range. Qed.

Lemma get_bits_0 v n : get_bits v 0 n = v mod 2 ^ n.
Proof. unfold get_bits. now rewrite Z.pow_0_r, Z.div_1_r. Qed.

(** A number below [2^w] has no bits from [w] on. *)
Lemma div_pow2_0 w v n : bv_ok w v -> 0 <= w <= n -> v / 2 ^ n = 0.
Proof. intros [H0 H1] Hn. apply Z.div_small. pose proof (pow2_le w n Hn). lia. Qed.

Lemma div_pow2_ok w v n : bv_ok w v -> 0 <= n <= w -> bv_ok (w - n) (v / 2 ^ n).
Proof.
  unfold bv_ok. intros [H0 H1] Hn. pose proof (pow2_pos n ltac:(lia)). split.
  - apply Z.div_pos; lia.
  - apply Z.div_lt_upper_bound; [lia|]. rewrite Z.mul_comm, <- pow2_split by lia. lia.
Qed.

Lemma ok_le w w' v : bv_ok w v -> 0 <= w <= w' -> bv_ok w' v.
Proof. unfold bv_ok. intros H Hw. pose proof (pow2_le w w' Hw). lia. Qed.

Lemma mod_ok w v : 0 <= w -> bv_ok w (v mod 2 ^ w).
Proof. apply mod_pow2_range. Qed.

(** Putting [h] above the [n] low bits [l]. *)
Lemma join_div n l h : 0 <= n -> bv_ok n l -> (l + h * 2 ^ n) / 2 ^ n = h.
Proof.
  unfold bv_ok. intros Hn Hl. pose proof (pow2_pos n Hn).
  rewrite Z.div_add by lia. rewrite Z.div_small by lia. lia.
Qed.

Lemma join_mod n l h : 0 <= n -> bv_ok n l -> (l + h * 2 ^ n) mod 2 ^ n = l.
Proof.
  unfold bv_ok. intros Hn Hl. pose proof (pow2_pos n Hn).
  rewrite Z.mod_add by lia. apply Z.mod_small. lia.
Qed.

Lemma join_ok n w l h : 0 <= n <= w -> bv_ok n l -> bv_ok (w - n) h -> bv_ok w (l + h * 2 ^ n).
Proof. unfold bv_ok. intros Hn Hl Hh. rewrite (pow2_split n w) by lia. nia. Qed.

Lemma ones_mod n : 0 <= n -> (-1) mod 2 ^ n = 2 ^ n - 1.
Proof.
  intros Hn. pose proof (pow2_pos n Hn). symmetry.
  apply Z.mod_unique with (q := -1); lia.
Qed.

(** What a range is filled with. *)
Definition fill (n : Z) (b : bool) : Z := if b then 2 ^ n - 1 else 0.

Lemma fill_ok n b : 0 <= n -> bv_ok n (fill n b).
Proof. intros Hn. pose proof (pow2_pos n Hn). unfold bv_ok, fill. destruct b; lia. Qed.

Lemma setValue_spec v lo n b :
  0 <= lo -> 0 <= n ->
  bv_setValue v lo n b = v mod 2 ^ lo + fill n b * 2 ^ lo + v / 2 ^ (lo + n) * 2 ^ (lo + n).
Proof.
  intros Hlo Hn. unfold bv_setValue, set_bits, fill. destruct b.
  - now rewrite ones_mod.
  - now rewrite Z.mod_0_l by (pose proof (pow2_pos n Hn); lia).
Qed.

(** Filling the top bits of a vector. *)
Lemma setValue_top w v lo n b :
  bv_ok w v -> 0 <= lo -> 0 <= n -> w <= lo + n -> 0 <= w ->
  bv_setValue v lo n b = v mod 2 ^ lo + fill n b * 2 ^ lo.
Proof.
  intros Hv Hlo Hn Hw H0. rewrite setValue_spec, (div_pow2_0 w v (lo + n)) by (assumption || lia). lia.
Qed.

Lemma bv_get_testbit v i : 0 <= i -> bv_get v i = Z.testbit v i.
Proof.
  intros Hi. unfold bv_get, get_bits. rewrite Z.pow_1_r, <- Z.testbit_spec' by assumption.
  now destruct (Z.testbit v i).
Qed.

(** The top bit of a vector says whether it reaches half the range. *)
Lemma top_bit w v : 0 < w -> bv_ok w v -> bv_get v (w - 1) = (2 ^ (w - 1) <=? v).
Proof.
  intros Hw [H0 H1]. unfold bv_get, get_bits. rewrite Z.pow_1_r.
  pose proof (pow2_pos (w - 1) ltac:(lia)) as Hp.
  pose proof (pow2_split 1 w ltac:(lia)) as Hs. rewrite Z.pow_1_r in Hs.
  destruct (Z.leb_spec (2 ^ (w - 1)) v) as [Hc|Hc].
  - replace (v / 2 ^ (w - 1)) with 1; [reflexivity|]. apply Z.div_unique with (r := v - 2 ^ (w - 1)); lia.
  - now rewrite Z.div_small by lia.
Qed.

Lemma sval_cases w v :
  0 < w -> bv_ok w v ->
  (bv_get v (w - 1) = false /\ v < 2 ^ (w - 1) /\ sval w v = v) \/
  (bv_get v (w - 1) = true /\ 2 ^ (w - 1) <= v /\ sval w v = v - 2 ^ w).
Proof.
  intros Hw Hv. unfold sval. rewrite top_bit by assumption.
  destruct (Z.leb_spec (2 ^ (w - 1)) v); [right|left]; auto.
Qed.

Lemma sval_range w v : 0 < w -> bv_ok w v -> - 2 ^ (w - 1) <= sval w v < 2 ^ (w - 1).
Proof.
  intros Hw Hv. pose proof (pow2_split 1 w ltac:(lia)) as Hs. rewrite Z.pow_1_r in Hs.
  pose proof (pow2_pos (w - 1) ltac:(lia)).
  destruct (sval_cases w v Hw Hv) as [(_ & H1 & ->)|(_ & H1 & ->)]; destruct Hv; lia.
Qed.

Lemma sval_mod w v : 0 < w -> bv_ok w v -> sval w v mod 2 ^ w = v.
Proof.
  intros Hw Hv. pose proof (pow2_pos w ltac:(lia)).
  destruct (sval_cases w v Hw Hv) as [(_ & _ & ->)|(_ & _ & ->)].
  - now apply Z.mod_small.
  - replace (v - 2 ^ w) with (v + (-1) * 2 ^ w) by lia.
    rewrite Z.mod_add by lia. now apply Z.mod_small.
Qed.

Lemma sval_of_mod w x : 0 < w -> - 2 ^ (w - 1) <= x < 2 ^ (w - 1) -> sval w (x mod 2 ^ w) = x.
Proof.
  intros Hw Hx. pose proof (pow2_split 1 w ltac:(lia)) as Hs. rewrite Z.pow_1_r in Hs.
  pose proof (mod_ok w x ltac:(lia)) as Hok.
  assert (E : x mod 2 ^ w = if x <? 0 then x + 2 ^ w else x).
  { destruct (Z.ltb_spec x 0).
    - symmetry. apply Z.mod_unique with (q := -1); lia.
    - apply Z.mod_small. lia. }
  destruct (sval_cases w _ Hw Hok) as [(_ & H & ->)|(_ & H & ->)]; rewrite E in *;
    destruct (Z.ltb_spec x 0); lia.
Qed.

(** * What the operations compute *)

Lemma shiftLeft_spec w v n b :
  bv_ok w v -> 0 <= w -> 0 <= n ->
  bv_shiftLeft w v n b = (v * 2 ^ n) mod 2 ^ w + fill (Z.min n w) b.
Proof.
  intros Hv Hw Hn. unfold bv_shiftLeft. pose proof (pow2_pos w Hw).
  destruct (Z.ltb_spec n w).
  - rewrite Z.min_l by lia. unfold set_bits.
    replace (n + (w - n)) with w by lia.
    rewrite (div_pow2_0 w v w Hv) by lia. rewrite get_bits_0, Z.mod_mod
      by (pose proof (pow2_pos (w - n) ltac:(lia)); lia).
    rewrite Z.mul_0_l, Z.add_0_r, setValue_spec by lia.
    rewrite !Z.add_0_l, join_div by (assumption || now apply mod_ok).
    rewrite Z.pow_0_r, Z.mod_1_r, (pow2_split n w) by lia.
    rewrite Z.mul_mod_distr_r by (pose proof (pow2_pos n Hn); pose proof (pow2_pos (w - n) ltac:(lia)); lia).
    lia.
  - rewrite Z.min_r, (setValue_top w) by (assumption || lia).
    rewrite Z.pow_0_r, Z.mod_1_r, (pow2_split w n) by lia.
    rewrite Z.mul_assoc, Z.mod_mul by lia. lia.
Qed.

Lemma shiftLeft_ok w v n b : bv_ok w v -> 0 <= w -> 0 <= n -> bv_ok w (bv_shiftLeft w v n b).
Proof.
  intros Hv Hw Hn. rewrite shiftLeft_spec by assumption.
  destruct (Z.le_gt_cases w n).
  - rewrite Z.min_r, (pow2_split w n), Z.mul_assoc, Z.mod_mul by (pose proof (pow2_pos w Hw); lia).
    apply fill_ok. lia.
  - rewrite Z.min_l, (pow2_split n w) by lia.
    pose proof (pow2_pos n Hn). pose proof (pow2_pos (w - n) ltac:(lia)).
    rewrite Z.mul_mod_distr_r by lia. rewrite Z.add_comm.
    apply join_ok; [lia| now apply fill_ok | apply mod_ok; lia].
Qed.

Lemma shiftRight_spec w v n b :
  bv_ok w v -> 0 <= w -> 0 <= n ->
  bv_shiftRight w v n b = v / 2 ^ n + fill (Z.min n w) b * 2 ^ (w - Z.min n w).
Proof.
  intros Hv Hw Hn. unfold bv_shiftRight. pose proof (pow2_pos n Hn).
  destruct (Z.ltb_spec n w).
  - rewrite Z.min_l by lia. unfold set_bits. rewrite Z.pow_0_r, Z.mod_1_r, !Z.add_0_l.
    pose proof (div_pow2_ok w v n Hv ltac:(lia)) as Hd.
    assert (E : get_bits v n (w - n) = v / 2 ^ n) by (unfold get_bits; now rewrite Z.mod_small).
    rewrite E, (Z.mod_small (v / 2 ^ n)) by exact Hd. rewrite Z.mul_1_r.
    rewrite (setValue_top w).
    + now rewrite join_mod by (exact Hd || lia).
    + apply join_ok; [lia|exact Hd|]. apply div_pow2_ok; [assumption | lia].
    + lia.
    + lia.
    + lia.
    + lia.
  - rewrite Z.min_r, (setValue_top w), (div_pow2_0 w v n Hv) by (assumption || lia).
    rewrite Z.sub_diag, Z.pow_0_r, Z.mod_1_r. reflexivity.
Qed.

Lemma shiftRight_ok w v n b : bv_ok w v -> 0 <= w -> 0 <= n -> bv_ok w (bv_shiftRight w v n b).
Proof.
  intros Hv Hw Hn. rewrite shiftRight_spec by assumption.
  destruct (Z.le_gt_cases w n).
  - rewrite Z.min_r, (div_pow2_0 w v n Hv), Z.sub_diag, Z.pow_0_r, Z.mul_1_r by lia.
    apply fill_ok. lia.
  - rewrite Z.min_l by lia. apply join_ok; [lia|apply div_pow2_ok; [assumption|lia]|].
    replace (w - (w - n)) with n by lia. now apply fill_ok.
Qed.

Lemma rotateRight_spec w v n :
  bv_ok w v -> 0 < w -> 0 <= n ->
  bv_rotateRight w v n = v / 2 ^ (n mod w) + (v mod 2 ^ (n mod w)) * 2 ^ (w - n mod w).
Proof.
  intros Hv Hw Hn. unfold bv_rotateRight.
  rewrite (proj2 (Z.eqb_neq w 0)) by lia. pose proof (Z.mod_pos_bound n w Hw) as Hm.
  destruct (Z.eqb_spec (n mod w) 0) as [->|Hz].
  - rewrite Z.pow_0_r, Z.div_1_r, Z.mod_1_r. lia.
  - set (m := n mod w) in *.
    pose proof (shiftRight_spec w v m false Hv ltac:(lia) ltac:(lia)) as Hs.
    cbn [fill] in Hs. rewrite Z.mul_0_l, Z.add_0_r in Hs. rewrite Hs.
    unfold set_bits. replace (w - m + m) with w by lia.
    pose proof (div_pow2_ok w v m Hv ltac:(lia)) as Hd.
    rewrite (div_pow2_0 (w - m) _ w Hd), (Z.mod_small (v / 2 ^ m)) by (exact Hd || lia).
    rewrite get_bits_0, Z.mod_mod by (pose proof (pow2_pos m ltac:(lia)); lia). lia.
Qed.

Lemma rotateRight_ok w v n : bv_ok w v -> 0 < w -> 0 <= n -> bv_ok w (bv_rotateRight w v n).
Proof.
  intros Hv Hw Hn. rewrite rotateRight_spec by assumption.
  pose proof (Z.mod_pos_bound n w Hw). set (m := n mod w) in *.
  apply join_ok; [lia|apply div_pow2_ok; [assumption|lia]|].
  replace (w - (w - m)) with m by lia. apply mod_ok. lia.
Qed.

(** Rotating left, by the complementary right rotation. *)
Lemma rotateLeft_ok w v n : bv_ok w v -> 0 < w -> bv_ok w (bv_rotateLeft w v n).
Proof.
  intros Hv Hw. unfold bv_rotateLeft. rewrite (proj2 (Z.eqb_neq w 0)) by lia.
  pose proof (Z.mod_pos_bound n w Hw). apply rotateRight_ok; [assumption|lia..].
Qed.

Lemma rotateLeft_spec w v n :
  bv_ok w v -> 0 < w ->
  bv_rotateLeft w v n = v / 2 ^ (w - n mod w) + (v mod 2 ^ (w - n mod w)) * 2 ^ (n mod w).
Proof.
  intros Hv Hw. unfold bv_rotateLeft. rewrite (proj2 (Z.eqb_neq w 0)) by lia.
  pose proof (Z.mod_pos_bound n w Hw) as Hm. rewrite rotateRight_spec by (assumption || lia).
  destruct (Z.eq_dec (n mod w) 0) as [->|Hz].
  - rewrite Z.sub_0_r, Z.mod_same, Z.pow_0_r, Z.div_1_r, Z.mod_1_r by lia.
    rewrite (div_pow2_0 w v w Hv), (Z.mod_small v) by (exact Hv || lia). lia.
  - rewrite (Z.mod_small (w - n mod w)) by lia. do 3 f_equal. lia.
Qed.

Lemma shiftRightArithmetic_spec w v n :
  0 < w -> 0 <= n -> bv_ok w v -> bv_shiftRightArithmetic w v n = (sval w v / 2 ^ n) mod 2 ^ w.
Proof.
  intros Hw Hn Hv. pose proof (pow2_pos n Hn). pose proof (pow2_pos w ltac:(lia)).
  unfold bv_shiftRightArithmetic. rewrite (proj2 (Z.eqb_neq w 0)), shiftRight_spec by (assumption || lia).
  destruct (Z.le_gt_cases n w) as [Hnw|Hnw].
  - rewrite Z.min_l by lia. pose proof (pow2_split n w ltac:(lia)) as Hs.
    pose proof (pow2_pos (w - n) ltac:(lia)).
    assert (Hq : 0 <= v / 2 ^ n < 2 ^ (w - n)).
    { unfold bv_ok in Hv. split; [apply Z.div_pos; lia | apply Z.div_lt_upper_bound; lia]. }
    unfold sval. destruct (bv_get v (w - 1)); cbn [fill].
    + replace (v - 2 ^ w) with (v + - 2 ^ (w - n) * 2 ^ n) by lia.
      rewrite Z.div_add by lia. apply Z.mod_unique with (q := -1); nia.
    + rewrite Z.mod_small; nia.
  - rewrite Z.min_r by lia. rewrite Z.sub_diag, Z.pow_0_r, Z.mul_1_r.
    pose proof (pow2_le w n ltac:(lia)). unfold bv_ok in Hv. rewrite Z.div_small by lia. unfold sval.
    destruct (bv_get v (w - 1)); cbn [fill].
    + assert (E : (v - 2 ^ w) / 2 ^ n = -1)
        by (symmetry; apply Z.div_unique with (r := v - 2 ^ w + 2 ^ n); lia).
      rewrite E. apply Z.mod_unique with (q := -1); lia.
    + rewrite Z.div_small by lia. now rewrite Z.mod_0_l by lia.
Qed.

Lemma set_bits_fresh n x : set_bits 0 0 n x = x mod 2 ^ n.
Proof. unfold set_bits. rewrite Z.pow_0_r, Z.mod_1_r, Zdiv_0_l. lia. Qed.

Lemma fromInteger_spec w value :
  0 <= w -> 0 <= value < 2 ^ 64 -> bv_fromInteger w value = value mod 2 ^ w.
Proof.
  intros Hw Hv. unfold bv_fromInteger. destruct (Z.eqb_spec w 0) as [->|Hz].
  { now rewrite Z.pow_0_r, Z.mod_1_r. }
  rewrite set_bits_fresh.
  destruct (Z.leb_spec 64 w).
  - rewrite Z.min_r, (Z.mod_small value) by lia. unfold set_bits.
    replace (64 + (w - 64)) with w by lia. pose proof (pow2_le 64 w ltac:(lia)).
    rewrite (Z.mod_small value), (Z.div_small value), (Z.mod_small value) by lia.
    rewrite Z.mod_0_l by lia. lia.
  - now rewrite Z.min_l by lia.
Qed.

Lemma toInteger_spec w v : bv_ok w v -> 0 <= w -> bv_toInteger w v = v mod 2 ^ 64.
Proof.
  intros Hv Hw. unfold bv_toInteger, bv_toInteger_range. rewrite get_bits_0.
  destruct (Z.le_gt_cases w 64); [|now rewrite Z.min_r by lia].
  rewrite Z.min_l by lia. rewrite (Z.mod_small v) by exact Hv.
  symmetry. apply Z.mod_small. exact (ok_le w 64 v Hv ltac:(lia)).
Qed.

Lemma toInteger_small w v : bv_ok w v -> 0 <= w <= 64 -> bv_toInteger w v = v.
Proof.
  intros Hv Hw. rewrite toInteger_spec by (assumption || lia).
  apply Z.mod_small. exact (ok_le w 64 v Hv Hw).
Qed.

(** The value a vector has for [toSigned]: a single bit counts as 0 or 1. *)
Definition tsval (w v : Z) : Z := if 1 <? w then sval w v else v.

Lemma toSignedInteger_spec w v :
  bv_ok w v -> 0 < w <= 64 -> bv_toSignedInteger w v = tsval w v.
Proof.
  intros Hv Hw. unfold bv_toSignedInteger, tsval. rewrite toInteger_small by (assumption || lia).
  pose proof (ok_le w 64 v Hv ltac:(lia)) as Hv64.
  destruct (Z.ltb_spec 1 w) as [H1|H1]; cbn [andb].
  2:{ apply to_signed_id; [lia|]. destruct Hv. replace w with 1 in * by lia. lia. }
  destruct (sval_cases w v ltac:(lia) Hv) as [(Hb & Hlt & ->)|(Hb & Hge & ->)]; rewrite Hb.
  - rewrite andb_false_r. pose proof (pow2_le (w - 1) 63 ltac:(lia)). destruct Hv.
    apply to_signed_id; lia.
  - rewrite andb_true_r. destruct (Z.ltb_spec w 64) as [H64|H64].
    + unfold set_bits. replace (w + (64 - w)) with 64 by lia.
      rewrite (Z.mod_small v), ones_mod by (exact Hv || lia).
      rewrite (Z.div_small v) by exact Hv64. rewrite Z.mul_0_l, Z.add_0_r.
      rewrite Z.mul_sub_distr_r, <- pow2_split by lia.
      pose proof (pow2_le (w - 1) 63 ltac:(lia)).
      pose proof (pow2_split 1 w ltac:(lia)) as Hs. rewrite Z.pow_1_r in Hs. destruct Hv.
      unfold to_signed. change (2 ^ 64) with (2 * 2 ^ 63). change (64 - 1) with 63.
      replace (v + (2 * 2 ^ 63 - 1 * 2 ^ w) + 2 ^ 63) with ((v - 2 ^ w + 2 ^ 63) + 1 * (2 * 2 ^ 63)) by lia.
      rewrite Z.mod_add by lia. rewrite Z.mod_small by lia. lia.
    + replace w with 64 in * by lia. unfold to_signed. change (64 - 1) with 63 in *.
      change (2 ^ 64) with (2 * 2 ^ 63) in *. destruct Hv.
      replace (v + 2 ^ 63) with ((v - 2 ^ 63) + 1 * (2 * 2 ^ 63)) by lia.
      rewrite Z.mod_add by lia. rewrite Z.mod_small by lia. lia.
Qed.

Lemma resize_spec w v w' : bv_ok w v -> 0 <= w -> 0 <= w' -> bv_resize w v w' = v mod 2 ^ w'.
Proof.
  intros Hv Hw Hw'. unfold bv_resize. destruct (Z.ltb_spec w w').
  - rewrite (setValue_top w) by (assumption || lia). cbn [fill].
    rewrite Z.mod_small by exact Hv.
    rewrite Z.mod_small by exact (ok_le w w' v Hv ltac:(lia)). lia.
  - apply get_bits_0.
Qed.

Lemma invert_spec w v : bv_ok w v -> 0 <= w -> bv_invert w v = 2 ^ w - 1 - v.
Proof.
  intros Hv Hw. unfold bv_invert. rewrite Z.sub_1_r, <- Z.ones_equiv.
  assert (Hb : forall i, Z.testbit v i = true -> Z.testbit (Z.ones w) i = true).
  { intros i Hi. destruct (Z.ltb_spec i 0); [now rewrite Z.testbit_neg_r in Hi by lia|].
    destruct (Z.le_gt_cases w i); [|now apply Z.ones_spec_low].
    rewrite <- (Z.mod_small v (2 ^ w)), Z.mod_pow2_bits_high in Hi by (exact Hv || lia).
    discriminate. }
  assert (H0 : Z.land v (Z.lxor v (Z.ones w)) = 0).
  { apply Z.bits_inj'. intros i Hi. rewrite Z.land_spec, Z.lxor_spec, Z.bits_0.
    specialize (Hb i). destruct (Z.testbit v i), (Z.testbit (Z.ones w) i); try reflexivity.
    now discriminate Hb. }
  apply Z.add_nocarry_lxor in H0.
  rewrite <- Z.lxor_assoc, Z.lxor_nilpotent, Z.lxor_0_l in H0. lia.
Qed.

Lemma invert_ok w v : bv_ok w v -> 0 <= w -> bv_ok w (bv_invert w v).
Proof. intros Hv Hw. rewrite invert_spec by assumption. unfold bv_ok in *. lia. Qed.

Lemma negate_spec w v : bv_ok w v -> 0 <= w -> bv_negate w v = (- v) mod 2 ^ w.
Proof.
  intros Hv Hw. unfold bv_negate, bv_increment. rewrite invert_spec by assumption.
  replace (2 ^ w - 1 - v + 1) with (- v + 1 * 2 ^ w) by lia.
  apply Z.mod_add. pose proof (pow2_pos w Hw). lia.
Qed.

(** Negating a negative number gives its absolute value. *)
Lemma negate_abs w v :
  0 < w -> bv_ok w v -> bv_get v (w - 1) = true -> bv_negate w v = - sval w v.
Proof.
  intros Hw Hv Hb. rewrite negate_spec by (assumption || lia).
  destruct (sval_cases w v Hw Hv) as [(Hb' & _)|(_ & Hge & ->)]; [congruence|].
  symmetry. destruct Hv. pose proof (pow2_pos (w - 1) ltac:(lia)).
  apply Z.mod_unique with (q := -1); lia.
Qed.

Lemma signExtend_spec w1 v w2 :
  0 < w1 -> 0 <= w2 -> bv_ok w1 v -> bv_signExtend w1 v w2 = sval w1 v mod 2 ^ w2.
Proof.
  intros Hw1 Hw2 Hv. unfold bv_signExtend.
  destruct (Z.eqb_spec w2 0) as [->|Hz]; [now rewrite Z.pow_0_r, Z.mod_1_r|].
  rewrite (proj2 (Z.eqb_neq w1 0)) by lia.
  assert (Hs : sval w1 v = v + (if bv_get v (w1 - 1) then -1 else 0) * 2 ^ w1)
    by (unfold sval; destruct (bv_get v (w1 - 1)); lia).
  pose proof (pow2_pos w1 ltac:(lia)). pose proof (pow2_pos w2 ltac:(lia)).
  destruct (Z.ltb_spec w1 w2).
  - rewrite set_bits_fresh, (Z.mod_small v) by exact Hv.
    rewrite (setValue_top w1), (Z.mod_small v) by (exact Hv || lia). rewrite Hs.
    rewrite (pow2_split w1 w2) by lia. unfold fill, bv_ok in *.
    pose proof (pow2_pos (w2 - w1) ltac:(lia)).
    destruct (bv_get v (w1 - 1)).
    + apply Z.mod_unique with (q := -1); nia.
    + rewrite !Z.mul_0_l, Z.add_0_r. symmetry. apply Z.mod_small. nia.
  - rewrite get_bits_0, Hs, (pow2_split w2 w1), Z.mul_assoc by lia.
    now rewrite Z.mod_add by lia.
Qed.

(** ** Multiplication *)

Lemma mul_loop_spec n w i a addend product :
  0 <= w -> 0 <= i -> bv_ok w addend -> bv_ok w product ->
  mul_loop n w i a addend product =
  (product + addend * get_bits a i (Z.of_nat n)) mod 2 ^ w.
Proof.
  intros Hw. pose proof (pow2_pos w Hw) as Hp. revert i addend product.
  induction n as [|n IH]; intros i addend product Hi Ha Hpr.
  - cbn [mul_loop]. change (Z.of_nat 0) with 0. unfold get_bits. rewrite Z.pow_0_r, Z.mod_1_r.
    rewrite Z.mul_0_r, Z.add_0_r. symmetry. now apply Z.mod_small.
  - cbn [mul_loop]. pose proof (shiftLeft_spec w addend 1 false Ha Hw ltac:(lia)) as Hs.
    cbn [fill] in Hs. rewrite Z.add_0_r, Z.pow_1_r in Hs. rewrite Hs.
    set (product' := if bv_get a i then bv_add w product addend else product).
    assert (Hpr' : product' = (product + addend * get_bits a i 1) mod 2 ^ w).
    { unfold product', bv_get, bv_add. pose proof (get_bits_range a i 1 ltac:(lia)) as Hr.
      rewrite Z.pow_1_r in Hr. destruct (Z.eqb_spec (get_bits a i 1) 1) as [->|Hne].
      - now rewrite Z.mul_1_r.
      - replace (get_bits a i 1) with 0 by lia. rewrite Z.mul_0_r, Z.add_0_r.
        symmetry. now apply Z.mod_small. }
    rewrite IH by (lia || (rewrite Hpr'; now apply mod_ok) || now apply mod_ok).
    rewrite Hpr', <- Z.add_mod_idemp_r, Z.mul_mod_idemp_l, Z.add_mod_idemp_r by lia.
    rewrite Z.add_mod_idemp_l by lia. f_equal.
    assert (Hbits : get_bits a i (Z.of_nat (S n))
                    = get_bits a i 1 + 2 * get_bits a (i + 1) (Z.of_nat n)).
    { unfold get_bits. rewrite Nat2Z.inj_succ, Z.pow_succ_r, Z.pow_add_r, !Z.pow_1_r by lia.
      rewrite Z.rem_mul_r, Z.div_div by (pose proof (pow2_pos i Hi); pose proof (pow2_pos (Z.of_nat n) ltac:(lia)); lia).
      reflexivity. }
    rewrite Hbits. lia.
Qed.

Lemma mul_loop_all w1 w a b :
  0 <= w1 -> 0 <= w -> bv_ok w1 a -> bv_ok w b ->
  mul_loop (Z.to_nat w1) w 0 a b 0 = (b * a) mod 2 ^ w.
Proof.
  intros Hw1 Hw Ha Hb. pose proof (pow2_pos w Hw).
  rewrite mul_loop_spec by (assumption || lia || (split; lia)).
  rewrite get_bits_0, Z2Nat.id by assumption. rewrite (Z.mod_small a) by exact Ha. reflexivity.
Qed.

Lemma multiply_spec w1 a w2 b :
  0 <= w1 -> 0 <= w2 -> bv_ok w1 a -> bv_ok w2 b -> bv_multiply w1 a w2 b = a * b.
Proof.
  intros Hw1 Hw2 Ha Hb. unfold bv_multiply. pose proof (ok_le w2 (w1 + w2) b Hb ltac:(lia)) as Hb'.
  rewrite resize_spec, (Z.mod_small b) by (exact Hb' || assumption || lia).
  rewrite mul_loop_all by (assumption || lia). rewrite Z.mul_comm. apply Z.mod_small.
  rewrite Z.pow_add_r by assumption. unfold bv_ok in *. nia.
Qed.

(** The magnitude [multiplySigned] takes of an operand. *)
Lemma tsval_abs w v :
  0 < w -> bv_ok w v ->
  let neg := (1 <? w) && bv_get v (w - 1) in
  (if neg then bv_negate w v else v) = Z.abs (tsval w v) /\
  bv_ok w (Z.abs (tsval w v)) /\ tsval w v = (if neg then -1 else 1) * Z.abs (tsval w v).
Proof.
  intros Hw Hv. unfold tsval. destruct (Z.ltb_spec 1 w) as [H1|H1]; cbn [andb].
  - pose proof (sval_range w v Hw Hv). pose proof (pow2_split 1 w ltac:(lia)) as Hp.
    rewrite Z.pow_1_r in Hp. unfold bv_ok in *.
    destruct (sval_cases w v Hw Hv) as [(Hb & Hlt & Hs)|(Hb & Hge & Hs)].
    + rewrite Hb, Hs. lia.
    + rewrite negate_abs by assumption. rewrite Hb. lia.
  - unfold bv_ok in *. lia.
Qed.

Lemma multiplySigned_spec w1 a w2 b :
  0 < w1 -> 0 < w2 -> bv_ok w1 a -> bv_ok w2 b ->
  bv_multiplySigned w1 a w2 b = (tsval w1 a * tsval w2 b) mod 2 ^ (w1 + w2).
Proof.
  intros Hw1 Hw2 Ha Hb. unfold bv_multiplySigned.
  destruct (tsval_abs w1 a Hw1 Ha) as (-> & Ha' & Ea).
  destruct (tsval_abs w2 b Hw2 Hb) as (-> & Hb' & Eb).
  set (na := (1 <? w1) && bv_get a (w1 - 1)) in *. set (nb := (1 <? w2) && bv_get b (w2 - 1)) in *.
  pose proof (ok_le w2 (w1 + w2) _ Hb' ltac:(lia)) as Hb''.
  rewrite resize_spec, (Z.mod_small (Z.abs (tsval w2 b))) by (exact Hb'' || assumption || lia).
  rewrite mul_loop_all by (assumption || lia).
  rewrite Ea, Eb. set (x := Z.abs (tsval w1 a)) in *. set (y := Z.abs (tsval w2 b)) in *.
  pose proof (pow2_pos (w1 + w2) ltac:(lia)).
  destruct na, nb; cbn [xorb]; rewrite ?negate_spec by (lia || (apply mod_ok; lia));
    try (f_equal; lia).
  all: rewrite <- (Z.sub_0_l (_ mod _)), Zminus_mod_idemp_r; f_equal; lia.
Qed.

(** ** Comparison *)

Lemma compare_spec w1 a w2 b :
  0 <= w1 -> 0 <= w2 -> bv_ok w1 a -> bv_ok w2 b -> bv_compare w1 a w2 b = compare_same a b.
Proof.
  intros Hw1 Hw2 Ha Hb. unfold bv_compare, get_bits, bv_ok in *.
  destruct (Z.ltb_spec w1 w2) as [Hc|Hc]; [|destruct (Z.ltb_spec w2 w1) as [Hc'|Hc']; [|reflexivity]].
  - rewrite Z.pow_0_r, Z.div_1_r. pose proof (div_pow2_ok w2 b w1 Hb ltac:(lia)) as Hd.
    rewrite (Z.mod_small (b / 2 ^ w1)) by exact Hd. pose proof (pow2_pos w1 Hw1).
    pose proof (Z.div_mod b (2 ^ w1) ltac:(lia)). pose proof (mod_pow2_range b w1 Hw1).
    destruct (Z.eqb_spec (b / 2 ^ w1) 0) as [E|E]; unfold compare_same, bv_ok in *.
    + replace (b mod 2 ^ w1) with b by lia. reflexivity.
    + rewrite (proj2 (Z.ltb_lt a b)) by nia. reflexivity.
  - rewrite Z.pow_0_r, Z.div_1_r. pose proof (div_pow2_ok w1 a w2 Ha ltac:(lia)) as Hd.
    rewrite (Z.mod_small (a / 2 ^ w2)) by exact Hd. pose proof (pow2_pos w2 Hw2).
    pose proof (Z.div_mod a (2 ^ w2) ltac:(lia)). pose proof (mod_pow2_range a w2 Hw2).
    destruct (Z.eqb_spec (a / 2 ^ w2) 0) as [E|E]; unfold compare_same, bv_ok in *.
    + replace (a mod 2 ^ w2) with a by lia. reflexivity.
    + rewrite (proj2 (Z.ltb_ge a b)), (proj2 (Z.ltb_lt b a)) by nia. reflexivity.
Qed.

(** The highest bit where two numbers differ decides their order. *)
Lemma highest_difference a b :
  0 <= a -> 0 <= b -> a <> b -> bv_get a (Z.log2 (Z.lxor a b)) = (b <? a).
Proof.
  intros Ha Hb Hne. set (k := Z.log2 (Z.lxor a b)).
  assert (Hx : 0 < Z.lxor a b).
  { assert (0 <= Z.lxor a b) by (apply Z.lxor_nonneg; lia).
    assert (Z.lxor a b <> 0) by (rewrite Z.lxor_eq_0_iff; assumption). lia. }
  pose proof (Z.log2_nonneg (Z.lxor a b)) as Hk. fold k in Hk.
  assert (Hhi : a / 2 ^ (k + 1) = b / 2 ^ (k + 1)).
  { apply Z.bits_inj'. intros i Hi. rewrite !Z.div_pow2_bits by lia.
    pose proof (Z.bits_above_log2 (Z.lxor a b) (i + (k + 1)) ltac:(lia) ltac:(unfold k in *; lia)) as H.
    rewrite Z.lxor_spec in H. now apply xorb_eq in H. }
  assert (Hbit : Z.testbit a k = negb (Z.testbit b k)).
  { pose proof (Z.bit_log2 (Z.lxor a b) Hx) as H. fold k in H. rewrite Z.lxor_spec in H.
    destruct (Z.testbit a k), (Z.testbit b k); easy. }
  rewrite bv_get_testbit by assumption.
  pose proof (pow2_pos k Hk) as Hp.
  pose proof (Z.testbit_spec' a k Hk) as Ea. pose proof (Z.testbit_spec' b k Hk) as Eb.
  rewrite Z.pow_add_r, Z.pow_1_r, <- !Z.div_div in Hhi by lia.
  pose proof (Z.div_mod (a / 2 ^ k) 2 ltac:(lia)) as Da. pose proof (Z.div_mod (b / 2 ^ k) 2 ltac:(lia)) as Db.
  pose proof (Z.div_mod a (2 ^ k) ltac:(lia)). pose proof (mod_pow2_range a k Hk).
  pose proof (Z.div_mod b (2 ^ k) ltac:(lia)). pose proof (mod_pow2_range b k Hk).
  rewrite <- Ea in Da. rewrite <- Eb in Db.
  destruct (Z.testbit b k); cbn [negb] in Hbit; rewrite Hbit in *; cbn [Z.b2z] in *;
    destruct (Z.ltb_spec b a); try reflexivity; nia.
Qed.

Lemma compareSigned_same_spec w a b :
  0 < w -> bv_ok w a -> bv_ok w b ->
  compareSigned_same w a b = compare_same (sval w a) (sval w b).
Proof.
  intros Hw Ha Hb. unfold compareSigned_same.
  destruct (sval_cases w a Hw Ha) as [(Ga & La & ->)|(Ga & La & ->)],
           (sval_cases w b Hw Hb) as [(Gb & Lb & ->)|(Gb & Lb & ->)]; rewrite Ga, Gb.
  - apply compare_spec; assumption || lia.
  - unfold compare_same, bv_ok in *. case_cmp; lia.
  - unfold compare_same, bv_ok in *. case_cmp; lia.
  - unfold compare_same. destruct (Z.eqb_spec a b) as [->|Hne].
    + now rewrite Z.ltb_irrefl.
    + rewrite highest_difference by (assumption || apply Ha || apply Hb).
      case_cmp; lia.
Qed.

Lemma compareSigned_shorter_spec w1 a w2 b :
  0 < w1 < w2 -> bv_ok w1 a -> bv_ok w2 b ->
  compareSigned_shorter w1 a w2 b = compare_same (sval w1 a) (sval w2 b).
Proof.
  intros Hw Ha Hb. unfold compareSigned_shorter.
  destruct (sval_cases w1 a ltac:(lia) Ha) as [(Ga & La & Sa)|(Ga & La & Sa)],
           (sval_cases w2 b ltac:(lia) Hb) as [(Gb & Lb & Sb)|(Gb & Lb & Sb)]; rewrite Ga, Gb.
  - rewrite Sa, Sb. apply compare_spec; assumption || lia.
  - rewrite Sa, Sb. unfold compare_same, bv_ok in *. case_cmp; lia.
  - rewrite Sa, Sb. unfold compare_same, bv_ok in *. case_cmp; lia.
  - pose proof (div_pow2_ok w2 b w1 Hb ltac:(lia)) as Hh.
    pose proof (mod_ok w1 b ltac:(lia)) as Hl. pose proof (pow2_pos w1 ltac:(lia)).
    pose proof (Z.div_mod b (2 ^ w1) ltac:(lia)) as Db.
    pose proof (pow2_split w1 w2 ltac:(lia)) as Hp.
    pose proof (pow2_split 1 w1 ltac:(lia)) as Hp1. rewrite Z.pow_1_r in Hp1.
    rewrite get_bits_0. unfold bv_isAllSet. unfold get_bits at 1.
    rewrite (Z.mod_small (b / 2 ^ w1)) by exact Hh.
    assert (Hg : bv_get b (w1 - 1) = bv_get (b mod 2 ^ w1) (w1 - 1))
      by (rewrite !bv_get_testbit, Z.mod_pow2_bits_low by lia; reflexivity).
    rewrite Hg. destruct (Z.eqb_spec (b / 2 ^ w1) (2 ^ (w2 - w1) - 1)) as [E|E]; cbn [andb].
    + destruct (sval_cases w1 _ ltac:(lia) Hl) as [(Gl & Ll & Sl)|(Gl & Ll & Sl)]; rewrite Gl.
      * rewrite Sa, Sb. unfold compare_same, bv_ok in *. case_cmp; nia.
      * rewrite compareSigned_same_spec by (assumption || lia). rewrite Sl, Sb. f_equal. nia.
    + rewrite Sa, Sb. unfold compare_same, bv_ok in *.
      assert (b / 2 ^ w1 <= 2 ^ (w2 - w1) - 2) by lia. case_cmp; nia.
Qed.

Lemma compareSigned_spec w1 a w2 b :
  0 < w1 -> 0 < w2 -> bv_ok w1 a -> bv_ok w2 b ->
  bv_compareSigned w1 a w2 b = compare_same (sval w1 a) (sval w2 b).
Proof.
  intros Hw1 Hw2 Ha Hb. unfold bv_compareSigned.
  destruct (Z.ltb_spec w1 w2); [now apply compareSigned_shorter_spec|].
  destruct (Z.ltb_spec w2 w1).
  - rewrite compareSigned_shorter_spec by (assumption || lia). unfold compare_same. case_cmp; lia.
  - replace w2 with w1 in * by lia. now apply compareSigned_same_spec.
Qed.

Ltac compare_cases a b :=
  unfold compare_same; destruct (Z.ltb_spec a b), (Z.ltb_spec b a), (Z.eqb_spec a b);
  reflexivity || lia.

Lemma compare_same_eq a b : (compare_same a b =? 0) = (a =? b).
Proof. compare_cases a b. Qed.

Lemma compare_same_lt a b : (compare_same a b <? 0) = (a <? b).
Proof. compare_cases a b. Qed.

Lemma compare_same_gt a b : (0 <? compare_same a b) = (b <? a).
Proof. compare_cases a b. Qed.

Lemma mostSignificantSetBit_spec w v i :
  bv_ok w v -> bv_mostSignificantSetBit v = Some i -> 0 <= i < w /\ 2 ^ i <= v < 2 ^ (i + 1).
Proof.
  unfold bv_mostSignificantSetBit. intros [H0 H1]. destruct (Z.eqb_spec v 0); [discriminate|].
  intros [= <-]. pose proof (Z.log2_spec v ltac:(lia)). pose proof (Z.log2_nonneg v).
  rewrite Z.add_1_r. split; [|assumption]. split; [assumption|]. apply Z.log2_lt_pow2; lia.
Qed.

(** The signed product of two values fits both widths together, also when one of them is a single bit. *)
Lemma tsval_bounds w v : 0 < w -> bv_ok w v -> w = 1 /\ 0 <= tsval w v <= 1 \/ 1 < w /\ - 2 ^ (w - 1) <= tsval w v < 2 ^ (w - 1).
Proof.
  intros Hw Hv. unfold tsval. destruct (Z.ltb_spec 1 w); [right|left].
  - pose proof (sval_range w v Hw Hv). lia.
  - assert (w = 1) as -> by lia. unfold bv_ok in Hv. lia.
Qed.

Lemma signed_product_fits w1 w2 x y :
  (w1 = 1 /\ 0 <= x <= 1 \/ 1 < w1 /\ - 2 ^ (w1 - 1) <= x < 2 ^ (w1 - 1)) ->
  (w2 = 1 /\ 0 <= y <= 1 \/ 1 < w2 /\ - 2 ^ (w2 - 1) <= y < 2 ^ (w2 - 1)) ->
  - 2 ^ (w1 + w2 - 1) <= x * y < 2 ^ (w1 + w2 - 1).
Proof.
  intros [[-> Hx]|[H1 Hx]] [[-> Hy]|[H2 Hy]].
  - change (2 ^ (1 + 1 - 1)) with 2. nia.
  - replace (1 + w2 - 1) with (1 + (w2 - 1)) by lia. rewrite Z.pow_add_r by lia. pose proof (pow2_pos (w2 - 1) ltac:(lia)). nia.
  - replace (w1 + 1 - 1) with (1 + (w1 - 1)) by lia. rewrite Z.pow_add_r by lia. pose proof (pow2_pos (w1 - 1) ltac:(lia)). nia.
  - replace (w1 + w2 - 1) with (1 + ((w1 - 1) + (w2 - 1))) by lia. rewrite !Z.pow_add_r by lia.
    pose proof (pow2_pos (w1 - 1) ltac:(lia)). pose proof (pow2_pos (w2 - 1) ltac:(lia)). nia.
Qed.

(** * Properties *)

(** C23. Multiplication: the product of two vectors, as long as both together,
    is the exact product of their values, and the signed product that of their
    two's complement values, a vector of one bit being 0 or 1. *)
Theorem bv_multiply_correct w1 a w2 b :
  0 < w1 -> 0 < w2 -> bv_ok w1 a -> bv_ok w2 b ->
  let value w v := if 1 <? w then sval w v else v in
  bv_ok (w1 + w2) (bv_multiply w1 a w2 b) /\ bv_multiply w1 a w2 b = a * b /\
  sval (w1 + w2) (bv_multiplySigned w1 a w2 b) = value w1 a * value w2 b.
Proof.
  intros Hw1 Hw2 Ha Hb value. rewrite multiply_spec, multiplySigned_spec by (assumption || lia).
  split; [|split; [reflexivity|]].
  - unfold bv_ok in *. rewrite Z.pow_add_r by lia. nia.
  - apply sval_of_mod; [lia|]. pose proof (tsval_bounds w1 a Hw1 Ha). pose proof (tsval_bounds w2 b Hw2 Hb).
    now apply signed_product_fits.
Qed.

Theorem bv_multiply_correct_witness :
  bv_ok 9 (bv_multiply 1 1 8 200) /\ bv_multiply 1 1 8 200 = 1 * 200 /\
  sval 9 (bv_multiplySigned 1 1 8 200) = 1 * (- 56).
Proof. apply (bv_multiply_correct 1 1 8 200); unfold bv_ok; lia. Defined.

(** Rotations by one amount are inverse to each other. *)
Theorem bv_rotate_inverse w v n :
  0 < w -> 0 <= n -> bv_ok w v ->
  bv_rotateLeft w (bv_rotateRight w v n) n = v /\ bv_rotateRight w (bv_rotateLeft w v n) n = v.
Proof.
  assert (R : forall w v m, 0 <= m <= w -> bv_ok w v ->
    let r := v / 2 ^ m + (v mod 2 ^ m) * 2 ^ (w - m) in
    bv_ok w r /\ r / 2 ^ (w - m) + (r mod 2 ^ (w - m)) * 2 ^ m = v).
  { clear w v n. intros w v m Hm Hv r. pose proof (pow2_pos m ltac:(lia)). pose proof (pow2_pos (w - m) ltac:(lia)).
    pose proof (pow2_split m w ltac:(lia)) as Hs. unfold bv_ok in *.
    pose proof (Z.div_mod v (2 ^ m) ltac:(lia)). pose proof (Z.mod_pos_bound v (2 ^ m) ltac:(lia)).
    assert (Hq : 0 <= v / 2 ^ m < 2 ^ (w - m))
      by (split; [apply Z.div_pos; lia | apply Z.div_lt_upper_bound; lia]).
    split; [subst r; nia|].
    assert (E1 : r / 2 ^ (w - m) = v mod 2 ^ m)
      by (symmetry; apply Z.div_unique with (r := v / 2 ^ m); [left; exact Hq | subst r; lia]).
    assert (E2 : r mod 2 ^ (w - m) = v / 2 ^ m)
      by (symmetry; apply Z.mod_unique with (q := v mod 2 ^ m); [left; exact Hq | subst r; lia]).
    rewrite E1, E2. lia. }
  intros Hw Hn Hv. pose proof (Z.mod_pos_bound n w Hw) as Hm.
  destruct (R w v (n mod w) ltac:(lia) Hv) as [Hr E].
  destruct (R w v (w - n mod w) ltac:(lia) Hv) as [Hl E'].
  replace (w - (w - n mod w)) with (n mod w) in * by lia.
  rewrite (rotateLeft_spec w v n), (rotateRight_spec w v n) by (assumption || lia).
  now rewrite rotateLeft_spec, rotateRight_spec by (assumption || lia).
Qed.

Theorem bv_rotate_inverse_witness :
  bv_rotateLeft 8 (bv_rotateRight 8 147 11) 11 = 147 /\ bv_rotateRight 8 (bv_rotateLeft 8 147 11) 11 = 147.
Proof. apply (bv_rotate_inverse 8 147 11); unfold bv_ok; lia. Defined.

(** The signed operations are those of the two's complement value: the
    comparison orders it, whatever the two widths, the arithmetic right shift
    is its floor division by a power of two, and sign extension keeps it. *)
Theorem bv_signed_value w v w' v' n :
  0 < w -> 0 < w' -> 0 <= n -> bv_ok w v -> bv_ok w' v' ->
  (bv_compareSigned w v w' v' < 0 <-> sval w v < sval w' v') /\
  (bv_compareSigned w v w' v' = 0 <-> sval w v = sval w' v') /\
  sval w (bv_shiftRightArithmetic w v n) = sval w v / 2 ^ n /\
  (w <= w' -> sval w' (bv_signExtend w v w') = sval w v).
Proof.
  intros Hw Hw' Hn Hv Hv'. rewrite compareSigned_spec, signExtend_spec by (assumption || lia).
  pose proof (sval_range w v Hw Hv) as Hr.
  split; [unfold compare_same; case_cmp; lia|]. split; [unfold compare_same; case_cmp; lia|].
  split; [|intros Hle; apply sval_of_mod; [lia|]; pose proof (pow2_le (w - 1) (w' - 1) ltac:(lia)); lia].
  rewrite shiftRightArithmetic_spec by assumption. pose proof (pow2_pos n Hn).
  apply sval_of_mod; [lia|].
  pose proof (pow2_pos (w - 1) ltac:(lia)).
  split; [apply Z.div_le_lower_bound; nia | apply Z.div_lt_upper_bound; nia].
Qed.

Theorem bv_signed_value_witness :
  (bv_compareSigned 8 200 16 3 < 0 <-> sval 8 200 < sval 16 3) /\
  (bv_compareSigned 8 200 16 3 = 0 <-> sval 8 200 = sval 16 3) /\
  sval 8 (bv_shiftRightArithmetic 8 200 2) = sval 8 200 / 2 ^ 2 /\
  (8 <= 16 -> sval 16 (bv_signExtend 8 200 16) = sval 8 200).
Proof. apply (bv_signed_value 8 200 16 3 2); unfold bv_ok; lia. Defined.
