(* ===== verification/SymType.v ===== *)
(** Types of symbolic expressions ([class Type] of
    [src/Rose/BinaryAnalysis/SymbolicExpression.h] and [SymbolicExpression.C]):
    a class, a total width and a secondary width, packed into 32 bits. *)
From S2P Require Import Prelude.
From stdpp Require Import pretty strings.
Open Scope Z_scope.

Inductive TypeClass := INTEGER | FP | MEMORY | INVALID.

#[export] Instance TypeClass_eq_dec : EqDecision TypeClass.
Proof. solve_decision. Defined.

(** The type as its accessors show it. *)
Record type := mkType { typeClass : TypeClass; nBits : Z; secondaryWidth : Z }.

#[export] Instance type_eq_dec : EqDecision type.
Proof. solve_decision. Defined.

(** The widths are 15-bit fields; wider ones throw. *)
Definition width_ok (n : Z) : bool := (0 <=? n) && (n <=? 32767).

Definition makeType (tc : TypeClass) (w1 w2 : Z) : outcome type :=
  assert! w1 <=? 32767 else Throw in
  assert! w2 <=? 32767 else Throw in
  Ret (mkType tc w1 w2).

Definition type_none : type := mkType INVALID 0 0.
Definition type_integer (nBits : Z) : outcome type := makeType INTEGER nBits 0.
Definition type_memory (addressWidth valueWidth : Z) : outcome type :=
  makeType MEMORY valueWidth addressWidth.
Definition type_floatingPoint (exponentWidth significandWidth : Z) : outcome type :=
  makeType FP (1 + exponentWidth + significandWidth - 1) exponentWidth.

Definition type_isValid (t : type) : bool := bool_decide (typeClass t <> INVALID).

Definition addressWidth (t : type) : outcome Z :=
  assert! bool_decide (typeClass t = MEMORY) else AssertFail in Ret (secondaryWidth t).
Definition exponentWidth (t : type) : outcome Z :=
  assert! bool_decide (typeClass t = FP) else AssertFail in Ret (secondaryWidth t).
Definition significandWidth (t : type) : outcome Z :=
  assert! bool_decide (typeClass t = FP) else AssertFail in
  assert! 1 + secondaryWidth t - 1 <? nBits t else AssertFail in
  Ret (nBits t - (1 + secondaryWidth t - 1)).

(** * The packed representation

    [fields_]: the total width in bits 0 to 14, the secondary width in bits 15
    to 29, the class in bits 30 and 31. *)
Definition class_code (tc : TypeClass) : Z :=
  match tc with INTEGER => 0 | FP => 1 | MEMORY => 2 | INVALID => 3 end.
Definition code_class (c : Z) : TypeClass :=
  if c =? 0 then INTEGER else if c =? 1 then FP else if c =? 2 then MEMORY else INVALID.

Definition fields_typeClass (f : Z) : TypeClass := code_class (Z.land (Z.shiftr f 30) 3).
Definition fields_nBits (f : Z) : Z := Z.land f 32767.
Definition fields_secondaryWidth (f : Z) : Z := Z.land (Z.shiftr f 15) 32767.

Definition set_typeClass (f : Z) (tc : TypeClass) : Z :=
  Z.lor (Z.land f 0x3fffffff) (Z.shiftl (class_code tc) 30).
Definition set_nBits (f n : Z) : outcome Z :=
  assert! n <=? 32767 else Throw in Ret (Z.lor (Z.land f 0xffff8000) n).
Definition set_secondaryWidth (f n : Z) : outcome Z :=
  assert! n <=? 32767 else Throw in Ret (Z.lor (Z.land f 0xc0007fff) (Z.shiftl n 15)).

(** The constructor [Type (tc, w1, w2)]. *)
Definition pack (tc : TypeClass) (w1 w2 : Z) : outcome Z :=
  let fields_ := set_typeClass 0 tc in
  let! fields_ := set_nBits fields_ w1 in
  set_secondaryWidth fields_ w2.

Definition unpack (f : Z) : type :=
  mkType (fields_typeClass f) (fields_nBits f) (fields_secondaryWidth f).

(** [operator==] and [operator<] on the packed words. *)
Definition fields_eq (f g : Z) : bool := f =? g.
Definition fields_lt (f g : Z) : bool := f <? g.

(** The order the words give to types. *)
Definition type_lt (s t : type) : bool :=
  if class_code (typeClass s) =? class_code (typeClass t) then
    if secondaryWidth s =? secondaryWidth t then nBits s <? nBits t
    else secondaryWidth s <? secondaryWidth t
  else class_code (typeClass s) <? class_code (typeClass t).

(** * Printing *)
Inductive TypeStyle := FULL | ABBREVIATED.

#[export] Instance TypeStyle_eq_dec : EqDecision TypeStyle.
Proof. solve_decision. Defined.

Definition print_Z (n : Z) : string := pretty n.

Definition type_print (t : type) (style : TypeStyle) : outcome string :=
  match typeClass t, style with
  | INTEGER, ABBREVIATED => Ret ("u" ++ print_Z (nBits t))%string
  | INTEGER, FULL => Ret (print_Z (nBits t) ++ "-bit integer")%string
  | FP, _ =>
      let! e := exponentWidth t in
      let! s := significandWidth t in
      if bool_decide (style = ABBREVIATED) && (e =? 11) && (s =? 53) then Ret "f64"%string
      else if bool_decide (style = ABBREVIATED) && (e =? 8) && (s =? 24) then Ret "f32"%string
      else Ret (print_Z (nBits t) ++ "-bit float(e=" ++ print_Z e ++ " s=" ++ print_Z s ++ ")")%string
  | MEMORY, ABBREVIATED =>
      let! a := addressWidth t in
      Ret ("m" ++ print_Z (nBits t) ++ "[" ++ print_Z a ++ "]")%string
  | MEMORY, FULL =>
      let! a := addressWidth t in
      Ret (print_Z (nBits t) ++ "-bit memory(a=" ++ print_Z a ++ ")")%string
  | INVALID, _ => Ret "invalid"%string
  end.

(** * Packing *)

Lemma lor_shiftl a b n : 0 <= n -> 0 <= a < 2 ^ n -> Z.lor a (Z.shiftl b n) = a + b * 2 ^ n.
Proof.
  intros Hn Ha. rewrite <- Z.shiftl_mul_pow2 by assumption.
  symmetry. apply Z.add_nocarry_lor, Z.bits_inj'. intros i Hi.
  rewrite Z.land_spec, Z.bits_0. destruct (Z.ltb_spec i n).
  - rewrite (Z.shiftl_spec_low b n i) by lia. apply andb_false_r.
  - rewrite <- (Z.mod_small a (2 ^ n)), Z.mod_pow2_bits_high by lia. reflexivity.
Qed.

Definition fields_of (tc : TypeClass) (w1 w2 : Z) : Z := w1 + w2 * 2 ^ 15 + class_code tc * 2 ^ 30.

Lemma pack_fields tc w1 w2 :
  0 <= w1 <= 32767 -> 0 <= w2 <= 32767 -> pack tc w1 w2 = Ret (fields_of tc w1 w2).
Proof.
  intros H1 H2. unfold pack, set_nBits, set_secondaryWidth.
  rewrite !(proj2 (Z.leb_le _ 32767)) by lia. cbn [require_ obind]. f_equal.
  assert (Hf : forall m, Z.land (set_typeClass 0 tc) m = Z.land (Z.shiftl (class_code tc) 30) m)
    by (intros m; now destruct tc).
  assert (Hn : Z.land w1 0xc0007fff = w1).
  { change 0xc0007fff with (Z.lor (Z.ones 15) 0xc0000000).
    rewrite Z.land_lor_distr_r, Z.land_ones, Z.mod_small by lia.
    rewrite <- (Z.mod_small w1 (2 ^ 15)) at 2 by lia.
    rewrite <- Z.land_ones, <- Z.land_assoc by lia.
    change (Z.land (Z.ones 15) 0xc0000000) with 0. now rewrite Z.land_0_r, Z.lor_0_r. }
  rewrite Hf, Z.land_lor_distr_l, Hn.
  replace (Z.land (Z.land (Z.shiftl (class_code tc) 30) 0xffff8000) 0xc0007fff)
    with (Z.shiftl (class_code tc) 30) by now destruct tc.
  rewrite (Z.lor_comm _ w1), <- Z.lor_assoc, (Z.lor_comm (Z.shiftl (class_code tc) 30)), Z.lor_assoc.
  rewrite (lor_shiftl w1), lor_shiftl by lia. reflexivity.
Qed.

Lemma unpack_fields tc w1 w2 :
  0 <= w1 <= 32767 -> 0 <= w2 <= 32767 -> unpack (fields_of tc w1 w2) = mkType tc w1 w2.
Proof.
  intros H1 H2. unfold unpack, fields_typeClass, fields_nBits, fields_secondaryWidth, fields_of.
  change 32767 with (Z.ones 15). change 3 with (Z.ones 2).
  rewrite !Z.land_ones, !Z.shiftr_div_pow2 by lia.
  assert (E : (w1 + w2 * 2 ^ 15 + class_code tc * 2 ^ 30) = w1 + (w2 + class_code tc * 2 ^ 15) * 2 ^ 15) by lia.
  f_equal.
  - rewrite Z.div_add, Z.div_small by lia. now destruct tc.
  - rewrite E, Z.mod_add by lia. apply Z.mod_small. lia.
  - rewrite E, Z.div_add, Z.div_small, Z.add_0_l, Z.mod_add by lia. apply Z.mod_small. lia.
Qed.

(** Packed types: for every class and every pair of widths the fields can
    hold, the constructor succeeds, its 32-bit word gives back the class and
    both widths, two words are equal exactly when the types are, and [<] on
    words is the lexicographic order on class, secondary width and width; a
    width that does not fit throws. *)
Theorem pack_refines tc w1 w2 tc' w1' w2' :
  0 <= w1 -> 0 <= w2 -> 0 <= w1' <= 32767 -> 0 <= w2' <= 32767 ->
  (w1 <= 32767 /\ w2 <= 32767 ->
   exists f g, pack tc w1 w2 = Ret f /\ pack tc' w1' w2' = Ret g /\ 0 <= f < 2 ^ 32 /\
     unpack f = mkType tc w1 w2 /\
     (fields_eq f g = true <-> mkType tc w1 w2 = mkType tc' w1' w2') /\
     fields_lt f g = type_lt (mkType tc w1 w2) (mkType tc' w1' w2')) /\
  (32767 < w1 \/ 32767 < w2 -> pack tc w1 w2 = Fail Throw).
Proof.
  intros H1 H2 H1' H2'. split.
  - intros [L1 L2]. exists (fields_of tc w1 w2), (fields_of tc' w1' w2').
    rewrite !pack_fields, unpack_fields by lia. do 2 (split; [reflexivity|]).
    split; [unfold fields_of; destruct tc; cbn; lia|]. split; [reflexivity|]. split.
    + unfold fields_eq. rewrite Z.eqb_eq. split; [|now intros [= -> -> ->]].
      intros E. rewrite <- (unpack_fields tc w1 w2), E by lia. now rewrite unpack_fields by lia.
    + unfold fields_lt, type_lt, fields_of. cbn [typeClass nBits secondaryWidth].
      destruct tc, tc'; cbn [class_code Z.eqb Z.ltb Z.compare Pos.eqb Pos.compare Pos.compare_cont];
        case_cmp; try reflexivity; try lia.
  - intros H. unfold pack, set_nBits, set_secondaryWidth.
    destruct (Z.leb_spec w1 32767), (Z.leb_spec w2 32767); try lia; reflexivity.
Qed.

Theorem pack_refines_witness :
  exists f g, pack FP 64 11 = Ret f /\ pack INTEGER 64 0 = Ret g /\ 0 <= f < 2 ^ 32 /\
    unpack f = mkType FP 64 11 /\
    (fields_eq f g = true <-> mkType FP 64 11 = mkType INTEGER 64 0) /\
    fields_lt f g = type_lt (mkType FP 64 11) (mkType INTEGER 64 0).
Proof. apply (pack_refines FP 64 11 INTEGER 64 0); lia. Defined.

(** Floating-point types: the widths a type is built from are the widths
    its accessors return, as long as the significand has a stored bit; the
    accessors of other classes fail their assertion. *)
Theorem floatingPoint_widths e s t :
  0 <= e -> 1 <= s -> type_floatingPoint e s = Ret t ->
  exponentWidth t = Ret e /\ significandWidth t = Ret s /\ nBits t = e + s /\
  addressWidth t = Fail AssertFail.
Proof.
  intros He Hs H. unfold type_floatingPoint, makeType in H. inv_outcome. subst.
  unfold exponentWidth, significandWidth, addressWidth. cbn [typeClass secondaryWidth nBits].
  rewrite !bool_decide_eq_true_2, bool_decide_eq_false_2 by easy. cbn [require_ obind].
  rewrite (proj2 (Z.ltb_lt _ _)) by lia. cbn [require_ obind]. repeat split; try f_equal; lia.
Qed.

Theorem floatingPoint_widths_witness :
  exponentWidth (mkType FP 64 11) = Ret 11 /\ significandWidth (mkType FP 64 11) = Ret 53 /\
  nBits (mkType FP 64 11) = 11 + 53 /\ addressWidth (mkType FP 64 11) = Fail AssertFail.
Proof. apply (floatingPoint_widths 11 53); [lia..|reflexivity]. Defined.
