(* ===== verification/SymExpr.v ===== *)
(** Symbolic expressions ([src/Rose/BinaryAnalysis/SymbolicExpression.h] and
    [SymbolicExpression.C]): the tree, its construction with the type of every
    operator, and the comparisons of trees.

    A node is its structure: comments, attributes and cached hashes are left
    out, being no part of any result, and two nodes with the same structure are
    not told apart, as if every expression were shared. *)
From S2P Require Import Prelude BitVector SymType.

(** * Operators, in the order the code declares them *)

Inductive Operator :=
  | OP_ADD | OP_AND | OP_ASR | OP_CONCAT | OP_EQ | OP_EXTRACT | OP_INVERT | OP_ITE | OP_LET
  | OP_LSSB | OP_MSSB | OP_NE | OP_NEGATE | OP_NOOP | OP_OR | OP_READ | OP_ROL | OP_ROR
  | OP_SDIV | OP_SET | OP_SEXTEND | OP_SGE | OP_SGT | OP_SHL0 | OP_SHL1 | OP_SHR0 | OP_SHR1
  | OP_SLE | OP_SLT | OP_SMOD | OP_SMUL | OP_UDIV | OP_UEXTEND | OP_UGE | OP_UGT | OP_ULE
  | OP_ULT | OP_UMOD | OP_UMUL | OP_WRITE | OP_XOR | OP_ZEROP | OP_FP_ABS | OP_FP_NEGATE
  | OP_FP_ADD | OP_FP_MUL | OP_FP_DIV | OP_FP_MULADD | OP_FP_SQRT | OP_FP_MOD | OP_FP_ROUND
  | OP_FP_MIN | OP_FP_MAX | OP_FP_LE | OP_FP_LT | OP_FP_GE | OP_FP_GT | OP_FP_EQ
  | OP_FP_ISNORM | OP_FP_ISSUBNORM | OP_FP_ISZERO | OP_FP_ISINFINITE | OP_FP_ISNAN
  | OP_FP_ISNEG | OP_FP_ISPOS | OP_CONVERT | OP_REINTERPRET | OP_NONE.

#[export] Instance Operator_eq_dec : EqDecision Operator.
Proof. solve_decision. Defined.

Definition op_index (op : Operator) : Z :=
  match op with
  | OP_ADD => 0 | OP_AND => 1 | OP_ASR => 2 | OP_CONCAT => 3 | OP_EQ => 4 | OP_EXTRACT => 5
  | OP_INVERT => 6 | OP_ITE => 7 | OP_LET => 8 | OP_LSSB => 9 | OP_MSSB => 10 | OP_NE => 11
  | OP_NEGATE => 12 | OP_NOOP => 13 | OP_OR => 14 | OP_READ => 15 | OP_ROL => 16
  | OP_ROR => 17 | OP_SDIV => 18 | OP_SET => 19 | OP_SEXTEND => 20 | OP_SGE => 21
  | OP_SGT => 22 | OP_SHL0 => 23 | OP_SHL1 => 24 | OP_SHR0 => 25 | OP_SHR1 => 26
  | OP_SLE => 27 | OP_SLT => 28 | OP_SMOD => 29 | OP_SMUL => 30 | OP_UDIV => 31
  | OP_UEXTEND => 32 | OP_UGE => 33 | OP_UGT => 34 | OP_ULE => 35 | OP_ULT => 36
  | OP_UMOD => 37 | OP_UMUL => 38 | OP_WRITE => 39 | OP_XOR => 40 | OP_ZEROP => 41
  | OP_FP_ABS => 42 | OP_FP_NEGATE => 43 | OP_FP_ADD => 44 | OP_FP_MUL => 45
  | OP_FP_DIV => 46 | OP_FP_MULADD => 47 | OP_FP_SQRT => 48 | OP_FP_MOD => 49
  | OP_FP_ROUND => 50 | OP_FP_MIN => 51 | OP_FP_MAX => 52 | OP_FP_LE => 53 | OP_FP_LT => 54
  | OP_FP_GE => 55 | OP_FP_GT => 56 | OP_FP_EQ => 57 | OP_FP_ISNORM => 58
  | OP_FP_ISSUBNORM => 59 | OP_FP_ISZERO => 60 | OP_FP_ISINFINITE => 61 | OP_FP_ISNAN => 62
  | OP_FP_ISNEG => 63 | OP_FP_ISPOS => 64 | OP_CONVERT => 65 | OP_REINTERPRET => 66
  | OP_NONE => 67
  end.

Definition op_eqb (a b : Operator) : bool := op_index a =? op_index b.

Lemma op_eqb_spec a b : op_eqb a b = true <-> a = b.
Proof.
  unfold op_eqb. rewrite Z.eqb_eq. split; [|now intros ->].
  destruct a, b; intros H; first [reflexivity | discriminate H].
Qed.

(** * Nodes

    A constant has its bits, a variable its number, an interior node its
    operator and operands; all have a type and user flags. *)
Inductive expr :=
  | Const (t : type) (bits flags : Z)
  | Var (t : type) (name flags : Z)
  | Node (op : Operator) (t : type) (children : list expr) (flags : Z).

Definition expr_type (e : expr) : type :=
  match e with Const t _ _ | Var t _ _ | Node _ t _ _ => t end.
Definition expr_nBits (e : expr) : Z := nBits (expr_type e).
Definition expr_flags (e : expr) : Z :=
  match e with Const _ _ f | Var _ _ f | Node _ _ _ f => f end.
Definition children (e : expr) : list expr :=
  match e with Node _ _ cs _ => cs | _ => [] end.
Definition getOperator (e : expr) : Operator :=
  match e with Node op _ _ _ => op | _ => OP_NONE end.
Definition isInterior (e : expr) : bool := match e with Node _ _ _ _ => true | _ => false end.
Definition isOperator (e : expr) (op : Operator) : bool :=
  isInterior e && op_eqb (getOperator e) op.

Definition isConstant (e : expr) : bool := match e with Const _ _ _ => true | _ => false end.
Definition isVariable2 (e : expr) : bool := match e with Var _ _ _ => true | _ => false end.
Definition has_class (e : expr) (tc : TypeClass) : bool :=
  bool_decide (typeClass (expr_type e) = tc).
Definition isIntegerExpr (e : expr) : bool := has_class e INTEGER.
Definition isFloatingPointExpr (e : expr) : bool := has_class e FP.
Definition isMemoryExpr (e : expr) : bool := has_class e MEMORY.
Definition isScalarExpr (e : expr) : bool := isIntegerExpr e || isFloatingPointExpr e.
Definition isIntegerConstant (e : expr) : bool := isIntegerExpr e && isConstant e.
Definition isFloatingPointConstant (e : expr) : bool := isFloatingPointExpr e && isConstant e.
Definition isIntegerVariable (e : expr) : bool := isIntegerExpr e && isVariable2 e.
Definition isFloatingPointVariable (e : expr) : bool := isFloatingPointExpr e && isVariable2 e.
Definition isMemoryVariable (e : expr) : bool := isMemoryExpr e && isVariable2 e.

(** The bits of an integer constant. *)
Definition integer_constant (e : expr) : option Z :=
  match e with
  | Const t v _ => if bool_decide (typeClass t = INTEGER) then Some v else None
  | _ => None
  end.

Definition domainWidth (e : expr) : outcome Z := addressWidth (expr_type e).

(** [Leaf::toUnsigned]; beyond 64 bits it asks for the range of the one bit
    above the highest set bit. *)
Definition toUnsigned (e : expr) : option Z :=
  match integer_constant e with
  | None => None
  | Some v =>
      if expr_nBits e <=? 64 then Some (bv_toInteger (expr_nBits e) v)
      else
        let mssb := default 0 (bv_mostSignificantSetBit v) in
        if mssb <? 64 then Some (bv_toInteger_range v (mssb + 1) 1) else None
  end.

Definition toSigned (e : expr) : option Z :=
  match integer_constant e with
  | None => None
  | Some v =>
      let w := expr_nBits e in
      if w <=? 64 then Some (bv_toSignedInteger w v)
      else if bv_get v (w - 1) then
        if 63 <=? default 0 (bv_mostSignificantClearBit w v) then None
        else Some (bv_toSignedInteger w v)
      else if 63 <=? default 0 (bv_mostSignificantSetBit v) then None
      else Some (bv_toSignedInteger w v)
  end.

Definition isFloatingPointNan (e : expr) : bool :=
  match e with
  | Const t v _ =>
      if bool_decide (typeClass t = FP) then
        let s := nBits t - secondaryWidth t in
        bv_isAllSet (secondaryWidth t) (get_bits v (s - 1) (secondaryWidth t))
        && negb (get_bits v 0 (s - 1) =? 0)
      else false
  | _ => false
  end.

(** [Node::matchAddVariableConstant]: the variable's number, the constant. *)
Definition matchAddVariableConstant (e : expr) : option (expr * expr) :=
  match e with
  | Node OP_ADD _ [a; b] _ =>
      if isIntegerVariable a && isIntegerConstant b then Some (a, b)
      else if isIntegerConstant a && isIntegerVariable b then Some (b, a)
      else None
  | _ => None
  end.

(** * Node counts, saturating at 64 bits *)
Definition MAX_NNODES : Z := 2 ^ 64 - 1.

Definition add_nnodes (n c : Z) : Z :=
  if n =? MAX_NNODES then n
  else if (n + c) mod 2 ^ 64 <? n then MAX_NNODES else (n + c) mod 2 ^ 64.

Fixpoint nNodes (e : expr) : Z :=
  match e with
  | Node _ _ cs _ => fold_left (fun n c => add_nnodes n (nNodes c)) cs 1
  | _ => 1
  end.

(** * The type of an interior node ([Interior::adjustWidth])

    [ty] is the type the caller asks for, or [type_none]. *)

Definition require_args (cs : list expr) (n : nat) : outcome unit :=
  require_ (length cs =? n)%nat Throw.
Definition integer_arg (e : expr) : outcome unit := require_ (isIntegerExpr e) Throw.
Definition nth_arg (cs : list expr) (i : nat) : expr :=
  default (Const type_none 0 0) (cs !! i).

(** The operators over floating-point operands with a Boolean result. *)
Definition adjustWidth_fp (op : Operator) (cs : list expr) : outcome type :=
  match op with
  | OP_FP_LE | OP_FP_LT | OP_FP_GE | OP_FP_GT | OP_FP_EQ =>
      let! _ := require_args cs 2 in
      assert! isFloatingPointExpr (nth_arg cs 0) else Throw in
      assert! isFloatingPointExpr (nth_arg cs 1) else Throw in
      type_integer 1
  | _ (* OP_FP_ISNORM ... OP_FP_ISPOS *) =>
      let! _ := require_args cs 1 in
      assert! isFloatingPointExpr (nth_arg cs 0) else Throw in
      type_integer 1
  end.

(** All operands of one type, which is the type of the result. *)
Definition adjustWidth_default (cs : list expr) : outcome type :=
  let t := expr_type (nth_arg cs 0) in
  assert! forallb (fun c => bool_decide (expr_type c = t)) cs else Throw in
  Ret t.

Definition adjustWidth_op (op : Operator) (cs : list expr) (ty : type) : outcome type :=
  let c0 := nth_arg cs 0 in let c1 := nth_arg cs 1 in let c2 := nth_arg cs 2 in
  match op with
  | OP_ASR | OP_ROL | OP_ROR | OP_SHL0 | OP_SHL1 | OP_SHR0 | OP_SHR1 =>
      let! _ := require_args cs 2 in
      let! _ := integer_arg c0 in
      let! _ := integer_arg c1 in
      type_integer (expr_nBits c1)
  | OP_CONCAT => type_integer (fold_left (fun n c => n + expr_nBits c) cs 0)
  | OP_CONVERT => let! _ := require_args cs 1 in Ret ty
  | OP_REINTERPRET =>
      let! _ := require_args cs 1 in
      if expr_nBits c0 =? nBits ty then Ret ty else type_integer 0
  | OP_EQ | OP_NE | OP_SGE | OP_SGT | OP_SLE | OP_SLT | OP_UGE | OP_UGT | OP_ULE | OP_ULT =>
      let! _ := require_args cs 2 in
      let! _ := integer_arg c0 in
      let! _ := integer_arg c1 in
      assert! expr_nBits c0 =? expr_nBits c1 else Throw in
      type_integer 1
  | OP_EXTRACT =>
      let! _ := require_args cs 3 in
      assert! isIntegerConstant c0 else Throw in
      assert! isIntegerConstant c1 else Throw in
      assert! expr_nBits c0 <=? 64 else Throw in
      assert! expr_nBits c1 <=? 64 else Throw in
      assert! isScalarExpr c2 else Throw in
      let from := default 0 (toUnsigned c0) in
      let to := default 0 (toUnsigned c1) in
      assert! from <? to else Throw in
      type_integer (to - from)
  | OP_ITE =>
      let! _ := require_args cs 3 in
      let! _ := integer_arg c0 in
      assert! expr_nBits c0 =? 1 else Throw in
      assert! bool_decide (expr_type c1 = expr_type c2) else Throw in
      Ret (expr_type c1)
  | OP_LET => let! _ := require_args cs 3 in Ret (expr_type c2)
  | OP_LSSB | OP_MSSB | OP_NEGATE =>
      let! _ := require_args cs 1 in
      let! _ := integer_arg c0 in
      Ret (expr_type c0)
  | OP_READ =>
      let! _ := require_args cs 2 in
      assert! isMemoryExpr c0 else Throw in
      let! _ := integer_arg c1 in
      let! w := domainWidth c0 in
      assert! w =? expr_nBits c1 else Throw in
      type_integer (expr_nBits c0)
  | OP_SDIV | OP_UDIV =>
      let! _ := require_args cs 2 in
      let! _ := integer_arg c0 in
      let! _ := integer_arg c1 in
      Ret (expr_type c0)
  | OP_SEXTEND =>
      let! _ := require_args cs 2 in
      assert! isIntegerConstant c0 else Throw in
      assert! expr_nBits c0 <=? 64 else Throw in
      let! _ := integer_arg c1 in
      type_integer (default 0 (toUnsigned c0))
  | OP_UEXTEND =>
      let! _ := require_args cs 2 in
      assert! isIntegerConstant c0 else Throw in
      assert! expr_nBits c0 <=? 64 else Throw in
      assert! isScalarExpr c1 else Throw in
      type_integer (default 0 (toUnsigned c0))
  | OP_SMOD | OP_UMOD =>
      let! _ := require_args cs 2 in
      let! _ := integer_arg c0 in
      let! _ := integer_arg c1 in
      Ret (expr_type c1)
  | OP_SMUL | OP_UMUL =>
      assert! forallb isIntegerExpr cs else Throw in
      type_integer (fold_left (fun n c => n + expr_nBits c) cs 0)
  | OP_WRITE =>
      let! _ := require_args cs 3 in
      assert! isMemoryExpr c0 else Throw in
      let! _ := integer_arg c1 in
      let! _ := integer_arg c2 in
      let! w := domainWidth c0 in
      assert! expr_nBits c1 =? w else Throw in
      assert! expr_nBits c2 =? expr_nBits c0 else Throw in
      Ret (expr_type c0)
  | OP_ZEROP =>
      let! _ := require_args cs 1 in
      let! _ := integer_arg c0 in
      type_integer 1
  | OP_FP_LE | OP_FP_LT | OP_FP_GE | OP_FP_GT | OP_FP_EQ
  | OP_FP_ISNORM | OP_FP_ISSUBNORM | OP_FP_ISZERO | OP_FP_ISINFINITE | OP_FP_ISNAN
  | OP_FP_ISNEG | OP_FP_ISPOS => adjustWidth_fp op cs
  | _ => adjustWidth_default cs
  end.

Definition adjustWidth (op : Operator) (cs : list expr) (ty : type) : outcome type :=
  match cs with
  | [] => Fail Throw
  | _ =>
      let! t := adjustWidth_op op cs ty in
      assert! negb (nBits t =? 0) else AssertFail in
      Ret t
  end.

(** [Interior::adjustBitFlags] *)
Definition adjustBitFlags (flags : Z) (cs : list expr) : Z :=
  fold_left (fun f c => Z.lor f (expr_flags c)) cs flags.

(** The constructor of [Interior]. *)
Definition interior (ty : type) (op : Operator) (cs : list expr) (flags : Z) : outcome expr :=
  let! t := adjustWidth op cs ty in
  let flags := adjustBitFlags flags cs in
  assert! negb (type_isValid ty) || bool_decide (ty = t) else Throw in
  Ret (Node op t cs flags).

(** * Leaves *)

(** [Leaf::createVariable] *)
Definition createVariable (ty : type) (id flags : Z) : outcome expr :=
  assert! negb (nBits ty =? 0) else Throw in Ret (Var ty id flags).

(** [Leaf::createConstant], from the width and the bits of a vector. *)
Definition createConstant (ty : type) (size bits flags : Z) : outcome expr :=
  assert! nBits ty =? size else Throw in
  assert! negb (size =? 0) else Throw in
  Ret (Const ty bits flags).

Definition makeVariable (ty : type) (id flags : Z) : outcome expr := createVariable ty id flags.
Definition makeConstant (ty : type) (size bits flags : Z) : outcome expr :=
  createConstant ty size bits flags.
Definition makeIntegerVariable (w id flags : Z) : outcome expr :=
  let! t := type_integer w in createVariable t id flags.
Definition makeIntegerConstant (w value flags : Z) : outcome expr :=
  let! t := type_integer w in createConstant t w (bv_fromInteger w value) flags.
(** [makeIntegerConstant] from a bit vector. *)
Definition makeIntegerConstant_bits (size bits flags : Z) : outcome expr :=
  let! t := type_integer size in createConstant t size bits flags.
Definition makeBooleanConstant (b : bool) (flags : Z) : outcome expr :=
  let! t := type_integer 1 in createConstant t 1 (if b then 1 else 0) flags.
Definition makeMemoryVariable (addressWidth valueWidth id flags : Z) : outcome expr :=
  let! t := type_memory addressWidth valueWidth in createVariable t id flags.
Definition makeFloatingPointVariable (eb sb id flags : Z) : outcome expr :=
  let! t := type_floatingPoint eb sb in createVariable t id flags.
Definition makeFloatingPointNan (eb sb flags : Z) : outcome expr :=
  let! t := type_floatingPoint eb sb in createConstant t (eb + sb) (2 ^ (eb + sb) - 1) flags.

(** [makeFloatingPointConstant] writes the bytes of the number into a vector
    created with as many bits as the number has bytes; writing past the end of
    a vector fails its range assertion. *)
Fixpoint put_bytes (size v lo : Z) (bytes : list Z) : outcome Z :=
  match bytes with
  | [] => Ret v
  | b :: bytes =>
      assert! lo + 8 <=? size else AssertFail in
      put_bytes size (set_bits v lo 8 b) (lo + 8) bytes
  end.

Definition makeFloatingPointConstant_float (bytes : list Z) (flags : Z) : outcome expr :=
  let! bv := put_bytes 4 0 0 bytes in
  let! t := type_floatingPoint 8 24 in createConstant t 4 bv flags.
Definition makeFloatingPointConstant_double (bytes : list Z) (flags : Z) : outcome expr :=
  let! bv := put_bytes 8 0 0 bytes in
  let! t := type_floatingPoint 11 53 in createConstant t 8 bv flags.

(** * Comparing trees *)

(** [isEquivalentTo]: the pointer test, the hashes and the table of pairs
    already compared only save work. *)
Fixpoint isEquivalentTo (a b : expr) : bool :=
  match a, b with
  | Const t v f, Const t' v' f' => (nBits t =? nBits t') && (f =? f') && (v =? v')
  | Var t n f, Var t' n' f' => (nBits t =? nBits t') && (f =? f') && (n =? n')
  | Node op t cs f, Node op' t' cs' f' =>
      bool_decide (t = t') && (f =? f') && op_eqb op op' &&
      (fix equivalent (cs cs' : list expr) : bool :=
         match cs, cs' with
         | [], [] => true
         | c :: cs, c' :: cs' => isEquivalentTo c c' && equivalent cs cs'
         | _, _ => false
         end) cs cs'
  | _, _ => false
  end.

Definition cmp_Z (a b : Z) : Z := if a =? b then 0 else if a <? b then -1 else 1.

(** [compareStructure]; [same] is the test that two pointers are equal. *)
Section CompareStructure.
Variable same : expr -> expr -> bool.

Definition compareStructure_leaf (a b : expr) : Z :=
  if negb (expr_nBits a =? expr_nBits b) then (if expr_nBits a <? expr_nBits b then -1 else 1)
  else if negb (expr_flags a =? expr_flags b) then (if expr_flags a <? expr_flags b then -1 else 1)
  else if xorb (isIntegerConstant a) (isIntegerConstant b)
       then (if isIntegerConstant a then -1 else 1)
  else if xorb (isFloatingPointConstant a) (isFloatingPointConstant b)
       then (if isFloatingPointConstant a then -1 else 1)
  else match a, b with
       | Const t v _, Const t' v' _ => bv_compare (nBits t) v (nBits t') v'
       | Var _ n _, Var _ n' _ => if n <? n' then -1 else 1
       | _, _ => 0
       end.

Fixpoint compareStructure (a b : expr) : Z :=
  if same a b then 0
  else
    match a, b with
    | Node _ _ _ _, (Const _ _ _ | Var _ _ _) => 1
    | (Const _ _ _ | Var _ _ _), Node _ _ _ _ => -1
    | Node op t cs f, Node op' t' cs' f' =>
        if negb (op_eqb op op') then (if op_index op <? op_index op' then -1 else 1)
        else if negb (bool_decide (t = t')) then (if type_lt t t' then -1 else 1)
        else if negb (length cs =? length cs')%nat
             then (if (length cs <? length cs')%nat then -1 else 1)
        else if negb (f =? f') then (if f <? f' then -1 else 1)
        else
          (fix compare (cs cs' : list expr) : Z :=
             match cs, cs' with
             | c :: cs, c' :: cs' =>
                 let cmp := compareStructure c c' in
                 if cmp =? 0 then compare cs cs' else cmp
             | _, _ => 0
             end) cs cs'
    | _, _ => compareStructure_leaf a b
    end.
End CompareStructure.

(** ** The order of commutative operands ([expr_cmp]) *)

Definition first_greater (a b : bool) (k : Z) : Z := if xorb a b then (if a then 1 else -1) else k.

Definition leaf_bits (e : expr) : Z := match e with Const _ v _ => v | _ => 0 end.
Definition leaf_name (e : expr) : Z := match e with Var _ n _ => n | _ => 0 end.

Definition expr_cmp_leaf (a b : expr) : Z :=
  let compare_bits := bv_compare (expr_nBits a) (leaf_bits a) (expr_nBits b) (leaf_bits b) in
  let compare_names := cmp_Z (leaf_name a) (leaf_name b) in
  first_greater (isFloatingPointConstant a) (isFloatingPointConstant b)
    (if isFloatingPointConstant a then compare_bits
     else first_greater (isIntegerConstant a) (isIntegerConstant b)
       (if isIntegerConstant a then compare_bits
        else first_greater (isMemoryVariable a) (isMemoryVariable b)
          (if isMemoryVariable a then compare_names
           else first_greater (isFloatingPointVariable a) (isFloatingPointVariable b)
             compare_names))).

Fixpoint expr_cmp (a b : expr) : Z :=
  match a, b with
  | Node _ _ _ _, (Const _ _ _ | Var _ _ _) => -1
  | (Const _ _ _ | Var _ _ _), Node _ _ _ _ => 1
  | Node op _ cs _, Node op' _ cs' _ =>
      if negb (op_eqb op op') then (if op_index op <? op_index op' then -1 else 1)
      else
        (fix compare (cs cs' : list expr) : Z :=
           match cs, cs' with
           | [], [] => 0
           | [], _ => -1
           | _, [] => 1
           | c :: cs, c' :: cs' =>
               let cmp := expr_cmp c c' in
               if cmp =? 0 then compare cs cs' else cmp
           end) cs cs'
  | _, _ => expr_cmp_leaf a b
  end.

(** [commutative_order]: [addr] is the address of a node. *)
Definition commutative_order (addr : expr -> Z) (a b : expr) : bool :=
  let cmp := expr_cmp a b in
  if cmp =? 0 then addr a <? addr b else cmp <? 0.

(** Structural equality, for the tests the code makes on pointers. *)
Fixpoint expr_eqb (a b : expr) : bool :=
  match a, b with
  | Const t v f, Const t' v' f' => bool_decide (t = t') && (v =? v') && (f =? f')
  | Var t n f, Var t' n' f' => bool_decide (t = t') && (n =? n') && (f =? f')
  | Node op t cs f, Node op' t' cs' f' =>
      op_eqb op op' && bool_decide (t = t') && (f =? f') &&
      (fix eqb (cs cs' : list expr) : bool :=
         match cs, cs' with
         | [], [] => true
         | c :: cs, c' :: cs' => expr_eqb c c' && eqb cs cs'
         | _, _ => false
         end) cs cs'
  | _, _ => false
  end.

(** ** Equality with the help of a solver

    A solver answers whether [a = b] or [a <> b] can be satisfied together with
    the assertions it holds. *)
Inductive Satisfiable := SAT_NO | SAT_YES | SAT_UNKNOWN.

#[export] Instance Satisfiable_eq_dec : EqDecision Satisfiable.
Proof. solve_decision. Defined.

Record SmtSolver := {
  hasAssertions : bool;
  check_ne : expr -> expr -> outcome Satisfiable;
  check_eq : expr -> expr -> outcome Satisfiable
}.

Section Equality.
Variable solver : option SmtSolver.

(** Equal if there is no solution for the inequality. *)
Definition solver_equal (a b : expr) : outcome bool :=
  match solver with
  | None => Ret false
  | Some s => let! r := check_ne s a b in Ret (bool_decide (r = SAT_NO))
  end.

Definition solver_context : bool :=
  match solver with None => false | Some s => hasAssertions s end.

(** [Leaf::mustEqual] *)
Definition mustEqual_leaf (a b : expr) : outcome bool :=
  if expr_eqb a b then Ret true
  else if negb (expr_flags a =? expr_flags b) then Ret false
  else if isInterior b then solver_equal a b
  else if isConstant a && isConstant b then
    if isIntegerConstant a && isIntegerConstant b
    then Ret (bv_compare (expr_nBits a) (leaf_bits a) (expr_nBits b) (leaf_bits b) =? 0)
    else solver_equal a b
  else if solver_context then solver_equal a b
  else if isVariable2 a && isVariable2 b then
    assert! negb (leaf_name a =? leaf_name b) || bool_decide (expr_type a = expr_type b)
      else AssertFail in
    Ret (leaf_name a =? leaf_name b)
  else Ret false.

(** [Interior::mustEqual] *)
Definition mustEqual (a b : expr) : outcome bool :=
  if isInterior a
  then if isEquivalentTo a b then Ret true else solver_equal a b
  else mustEqual_leaf a b.

(** [mayEqual]: [callback] is the user's predicate, undecided when [None]. *)
Variable callback : expr -> expr -> option bool.

Definition same_width (a b : expr) : outcome unit :=
  require_ (expr_nBits a =? expr_nBits b) AssertFail.

(** The test on [V + C]: an answer, or nothing. *)
Definition mayEqual_offsets (a b : expr) : outcome (option bool) :=
  match matchAddVariableConstant a with
  | None => Ret None
  | Some (va, ca) =>
      match matchAddVariableConstant b with
      | Some (vb, cb) =>
          if leaf_name va =? leaf_name vb then
            let! _ := same_width va vb in
            let! _ := same_width ca cb in
            Ret (Some (bv_compare (expr_nBits ca) (leaf_bits ca) (expr_nBits cb) (leaf_bits cb) =? 0))
          else Ret None
      | None =>
          if isIntegerVariable b && (leaf_name va =? leaf_name b) then
            let! _ := same_width va b in
            let! _ := same_width ca va in
            assert! negb (bv_isEqualToZero (leaf_bits ca)) else AssertFail in
            Ret (Some false)
          else Ret None
      end
  end.

Definition mayEqual_interior (a b : expr) : outcome bool :=
  if expr_eqb a b then Ret true
  else
    match callback a b with
    | Some r => Ret r
    | None =>
        let! r := mayEqual_offsets a b in
        match r with
        | Some r => Ret r
        | None =>
            if isEquivalentTo a b then Ret true
            else
              match solver with
              | None => Ret true
              | Some s => let! r := check_eq s a b in Ret (negb (bool_decide (r = SAT_NO)))
              end
        end
    end.

(** The leaf's own test for [V] against [V + C] matches the leaf itself
    against [V + C], so it never applies. *)
Definition mayEqual_leaf (a b : expr) : outcome bool :=
  if expr_eqb a b then Ret true
  else if isInterior b then mayEqual_interior b a
  else
    match callback a b with
    | Some r => Ret r
    | None =>
        if isVariable2 a && isVariable2 b && bool_decide (expr_type a = expr_type b) then Ret true
        else if isIntegerConstant a && isIntegerConstant b
        then Ret (bv_compare (expr_nBits a) (leaf_bits a) (expr_nBits b) (leaf_bits b) =? 0)
        else if isFloatingPointConstant a && isFloatingPointConstant b
        then Ret (negb (isFloatingPointNan a) && negb (isFloatingPointNan b)
                  && (expr_nBits a =? expr_nBits b) && (leaf_bits a =? leaf_bits b))
        else if isIntegerVariable a && bool_decide (matchAddVariableConstant a <> None)
        then Ret false
        else
          match solver with
          | None => Ret true
          | Some s => let! r := check_eq s a b in Ret (bool_decide (r = SAT_YES))
          end
    end.

Definition mayEqual (a b : expr) : outcome bool :=
  if isInterior a then mayEqual_interior a b else mayEqual_leaf a b.
End Equality.

(** * Induction over trees *)

Lemma expr_tree_ind (P : expr -> Prop) :
  (forall t v f, P (Const t v f)) -> (forall t n f, P (Var t n f)) ->
  (forall op t cs f, Forall P cs -> P (Node op t cs f)) -> forall e, P e.
Proof.
  intros HC HV HN. fix IH 1. intros [t v f|t n f|op t cs f]; [apply HC | apply HV | apply HN].
  induction cs as [|c cs IHcs]; constructor; [apply IH | exact IHcs].
Qed.

(** ** Equality tests *)

Fixpoint all2 {A} (f : A -> A -> bool) (xs ys : list A) : bool :=
  match xs, ys with
  | [], [] => true
  | x :: xs, y :: ys => f x y && all2 f xs ys
  | _, _ => false
  end.

Lemma isEquivalentTo_node op t cs f op' t' cs' f' :
  isEquivalentTo (Node op t cs f) (Node op' t' cs' f') =
  bool_decide (t = t') && (f =? f') && op_eqb op op' && all2 isEquivalentTo cs cs'.
Proof.
  cbn [isEquivalentTo]. f_equal. revert cs'.
  induction cs as [|c cs IH]; intros [|c' cs']; try reflexivity. cbn [all2]. now rewrite IH.
Qed.

Lemma expr_eqb_node op t cs f op' t' cs' f' :
  expr_eqb (Node op t cs f) (Node op' t' cs' f') =
  op_eqb op op' && bool_decide (t = t') && (f =? f') && all2 expr_eqb cs cs'.
Proof.
  cbn [expr_eqb]. f_equal. revert cs'.
  induction cs as [|c cs IH]; intros [|c' cs']; try reflexivity. cbn [all2]. now rewrite IH.
Qed.

Ltac destr_bool :=
  repeat match goal with
  | H : _ && _ = true |- _ => apply andb_true_iff in H; destruct H
  | H : (_ =? _) = true |- _ => apply Z.eqb_eq in H
  | H : bool_decide _ = true |- _ => apply bool_decide_eq_true_1 in H
  | H : op_eqb _ _ = true |- _ => apply op_eqb_spec in H
  end.

Lemma op_eqb_refl op : op_eqb op op = true.
Proof. now apply op_eqb_spec. Qed.

Lemma all2_refl {A} (f : A -> A -> bool) xs : Forall (fun x => f x x = true) xs -> all2 f xs xs = true.
Proof. induction 1 as [|x xs Hx _ IH]; [reflexivity|]. cbn. now rewrite Hx, IH. Qed.

Lemma all2_eq {A} (f : A -> A -> bool) xs ys :
  Forall (fun x => forall y, f x y = true -> x = y) xs -> all2 f xs ys = true -> xs = ys.
Proof.
  intros H. revert ys. induction H as [|x xs Hx _ IH]; intros [|y ys]; try discriminate; [reflexivity|].
  cbn. intros E. destr_bool. f_equal; auto.
Qed.

Lemma expr_eqb_refl e : expr_eqb e e = true.
Proof.
  induction e as [t v f|t n f|op t cs f IH] using expr_tree_ind.
  1, 2: cbn; now rewrite bool_decide_eq_true_2, !Z.eqb_refl.
  rewrite expr_eqb_node, op_eqb_refl, bool_decide_eq_true_2, Z.eqb_refl by reflexivity.
  now rewrite all2_refl.
Qed.

Lemma expr_eqb_eq a b : expr_eqb a b = true -> a = b.
Proof.
  revert b. induction a as [t v f|t n f|op t cs f IH] using expr_tree_ind;
    intros [t' v' f'|t' n' f'|op' t' cs' f']; try discriminate.
  1, 2: cbn; intros H; destr_bool; congruence.
  rewrite expr_eqb_node. intros H. destr_bool. subst. f_equal. now apply (all2_eq expr_eqb).
Qed.

#[export] Instance expr_eq_dec : EqDecision expr.
Proof.
  intros a b. destruct (expr_eqb a b) eqn:E; [left; now apply expr_eqb_eq|right].
  intros ->. now rewrite expr_eqb_refl in E.
Defined.

Lemma isEquivalentTo_refl e : isEquivalentTo e e = true.
Proof.
  induction e as [t v f|t n f|op t cs f IH] using expr_tree_ind.
  1, 2: cbn; now rewrite !Z.eqb_refl.
  rewrite isEquivalentTo_node, op_eqb_refl, bool_decide_eq_true_2, Z.eqb_refl by reflexivity.
  now rewrite all2_refl.
Qed.

(** Equivalent trees have the same kind, width and flags. *)
Lemma isEquivalentTo_shape a b :
  isEquivalentTo a b = true -> expr_nBits a = expr_nBits b /\ expr_flags a = expr_flags b.
Proof.
  destruct a, b; try discriminate; [| |rewrite isEquivalentTo_node]; cbn; intros H; destr_bool;
    subst; auto.
Qed.

Lemma isEquivalentTo_sym a b : isEquivalentTo a b = isEquivalentTo b a.
Proof.
  revert b. induction a as [t v f|t n f|op t cs f IH] using expr_tree_ind;
    intros [t' v' f'|t' n' f'|op' t' cs' f']; try reflexivity.
  1, 2: cbn; rewrite (Z.eqb_sym (nBits t)), (Z.eqb_sym f); f_equal; apply Z.eqb_sym.
  rewrite !isEquivalentTo_node, (Z.eqb_sym f).
  unfold op_eqb. rewrite (Z.eqb_sym (op_index op)).
  replace (bool_decide (t = t')) with (bool_decide (t' = t)) by (apply bool_decide_ext; easy).
  f_equal. revert cs'. induction IH as [|c cs Hc _ IH]; intros [|c' cs']; try reflexivity.
  cbn. now rewrite Hc, IH.
Qed.

Lemma isEquivalentTo_trans a b c :
  isEquivalentTo a b = true -> isEquivalentTo b c = true -> isEquivalentTo a c = true.
Proof.
  revert b c. induction a as [t v f|t n f|op t cs f IH] using expr_tree_ind;
    intros [t' v' f'|t' n' f'|op' t' cs' f'] [t'' v'' f''|t'' n'' f''|op'' t'' cs'' f''];
    try discriminate.
  1, 2: cbn; intros H1 H2; destr_bool; repeat (apply andb_true_iff; split); apply Z.eqb_eq; congruence.
  rewrite !isEquivalentTo_node. intros H1 H2. destr_bool. subst.
  rewrite bool_decide_eq_true_2, Z.eqb_refl, op_eqb_refl by reflexivity. cbn [andb].
  match goal with H1 : all2 _ cs cs' = true, H2 : all2 _ cs' cs'' = true |- _ => revert H1 H2 end.
  revert cs' cs''. induction IH as [|c cs Hc _ IH]; intros [|c' cs'] [|c'' cs'']; try easy.
  cbn. intros H1 H2. destr_bool. apply andb_true_iff. split; [eapply Hc|eapply IH]; eassumption.
Qed.

(** * Well-typed trees

    Constants have bits of their width, and every interior node has the type
    the code computes for its operands. *)
Fixpoint wt (e : expr) : Prop :=
  match e with
  | Const t v _ => 0 < nBits t <= 32767 /\ bv_ok (nBits t) v
  | Var t _ _ => 0 < nBits t <= 32767
  | Node op t cs _ =>
      0 < nBits t <= 32767 /\ adjustWidth op cs t = Ret t /\
      (fix all (cs : list expr) : Prop :=
         match cs with [] => True | c :: cs => wt c /\ all cs end) cs
  end.

Lemma wt_node op t cs f :
  wt (Node op t cs f) <-> 0 < nBits t <= 32767 /\ adjustWidth op cs t = Ret t /\ Forall wt cs.
Proof.
  cbn [wt]. do 2 (apply and_iff_compat_l; try reflexivity).
  induction cs as [|c cs IH]; [easy|]. now rewrite Forall_cons, IH.
Qed.

Lemma wt_width e : wt e -> 0 < expr_nBits e <= 32767.
Proof. destruct e; cbn; tauto. Qed.

(** * The order of commutative operands *)

Fixpoint lex_cmp {A} (f : A -> A -> Z) (xs ys : list A) : Z :=
  match xs, ys with
  | [], [] => 0
  | [], _ => -1
  | _, [] => 1
  | x :: xs, y :: ys => let cmp := f x y in if cmp =? 0 then lex_cmp f xs ys else cmp
  end.

(** Two comparisons in sequence, as a fact about their answers. *)
Definition then_cmp (g h : Z) : Z := if g =? 0 then h else g.

Lemma expr_cmp_node op t cs f op' t' cs' f' :
  expr_cmp (Node op t cs f) (Node op' t' cs' f') =
  then_cmp (cmp_Z (op_index op) (op_index op')) (lex_cmp expr_cmp cs cs').
Proof.
  cbn [expr_cmp]. unfold op_eqb, then_cmp, cmp_Z. destruct (Z.eqb_spec (op_index op) (op_index op')); cbn [negb].
  - cbn. revert cs'. induction cs as [|c cs IH]; intros [|c' cs']; try reflexivity.
    cbn [lex_cmp]. now rewrite IH.
  - now destruct (_ <? _).
Qed.

(** A three-way comparison [f] is a total preorder on the elements of [P]:
    reversing it negates it, and along a chain the smaller answer wins. *)
Definition three_way {A} (P : A -> Prop) (f : A -> A -> Z) (x : A) : Prop :=
  forall y, P y -> f y x = - f x y /\
    forall z, P z -> f x y <= 0 -> f y z <= 0 -> f x z = Z.min (f x y) (f y z).

Lemma cmp_Z_range a b : -1 <= cmp_Z a b <= 1.
Proof. unfold cmp_Z. case_cmp; lia. Qed.
Lemma cmp_Z_anti a b : cmp_Z b a = - cmp_Z a b.
Proof. unfold cmp_Z. case_cmp; lia. Qed.
Lemma cmp_Z_trans a b c : cmp_Z a b <= 0 -> cmp_Z b c <= 0 -> cmp_Z a c = Z.min (cmp_Z a b) (cmp_Z b c).
Proof. unfold cmp_Z. case_cmp; lia. Qed.

Lemma then_cmp_range g h : -1 <= g <= 1 -> -1 <= h <= 1 -> -1 <= then_cmp g h <= 1.
Proof. unfold then_cmp. case_cmp; lia. Qed.
Lemma then_cmp_anti g h : then_cmp (- g) (- h) = - then_cmp g h.
Proof. unfold then_cmp. case_cmp; lia. Qed.
Lemma then_cmp_trans gxy gyz gxz hxy hyz hxz :
  -1 <= gxy <= 1 -> -1 <= gyz <= 1 -> -1 <= hxy <= 1 -> -1 <= hyz <= 1 ->
  (gxy <= 0 -> gyz <= 0 -> gxz = Z.min gxy gyz) ->
  (hxy <= 0 -> hyz <= 0 -> hxz = Z.min hxy hyz) ->
  then_cmp gxy hxy <= 0 -> then_cmp gyz hyz <= 0 ->
  then_cmp gxz hxz = Z.min (then_cmp gxy hxy) (then_cmp gyz hyz).
Proof. unfold then_cmp. intros. case_cmp; lia. Qed.

Lemma lex_cmp_cons {A} (f : A -> A -> Z) x xs y ys :
  lex_cmp f (x :: xs) (y :: ys) = then_cmp (f x y) (lex_cmp f xs ys).
Proof. reflexivity. Qed.

Lemma lex_cmp_range {A} (f : A -> A -> Z) xs ys :
  (forall x y, -1 <= f x y <= 1) -> -1 <= lex_cmp f xs ys <= 1.
Proof.
  intros Hf. revert ys. induction xs as [|x xs IH]; intros [|y ys]; try (cbn; lia).
  rewrite lex_cmp_cons. now apply then_cmp_range.
Qed.

Lemma lex_three_way {A} (P : A -> Prop) (f : A -> A -> Z) xs :
  (forall x y, -1 <= f x y <= 1) -> Forall (three_way P f) xs ->
  three_way (Forall P) (lex_cmp f) xs.
Proof.
  intros Hf H. induction H as [|x xs Hx _ IH].
  - intros [|y ys] Hys; (split; [reflexivity|]).
    + intros [|z zs] _; cbn; lia.
    + intros [|z zs] _ _; [cbn; lia|]. intros Hle.
      pose proof (lex_cmp_range f (y :: ys) (z :: zs) Hf). cbn [lex_cmp] in *. lia.
  - intros [|y ys] Hys; [split; [reflexivity|]; intros z _; cbn; lia|].
    apply Forall_cons in Hys as [Py Hys].
    destruct (Hx y Py) as (An & T). destruct (IH ys Hys) as (An' & T').
    rewrite !lex_cmp_cons. split; [now rewrite An, An', then_cmp_anti|].
    intros [|z zs] Hzs; [cbn; lia|]. apply Forall_cons in Hzs as [Pz Hzs].
    rewrite !lex_cmp_cons. apply then_cmp_trans; auto using lex_cmp_range.
Qed.

Lemma bv_compare_cmp w1 a w2 b :
  0 <= w1 -> 0 <= w2 -> bv_ok w1 a -> bv_ok w2 b -> bv_compare w1 a w2 b = cmp_Z a b.
Proof.
  intros. rewrite compare_spec by assumption. unfold cmp_Z. compare_cases a b.
Qed.

(** Leaves compare by kind, then by bits or name. *)
Definition leaf_rank (e : expr) : Z :=
  if isFloatingPointConstant e then 4 else if isIntegerConstant e then 3
  else if isMemoryVariable e then 2 else if isFloatingPointVariable e then 1 else 0.
Definition leaf_value (e : expr) : Z :=
  if isFloatingPointConstant e || isIntegerConstant e then leaf_bits e else leaf_name e.

Lemma leaf_bits_ok e : wt e -> isConstant e = true -> 0 <= expr_nBits e /\ bv_ok (expr_nBits e) (leaf_bits e).
Proof. destruct e; try discriminate. unfold expr_nBits. cbn. intros [H1 H2] _. split; [lia | exact H2]. Qed.

Lemma compare_bits_cmp a b :
  wt a -> wt b -> isConstant a = true -> isConstant b = true ->
  bv_compare (expr_nBits a) (leaf_bits a) (expr_nBits b) (leaf_bits b)
  = cmp_Z (leaf_bits a) (leaf_bits b).
Proof.
  intros Ha Hb Ca Cb. destruct (leaf_bits_ok a Ha Ca), (leaf_bits_ok b Hb Cb).
  now apply bv_compare_cmp.
Qed.

Lemma expr_cmp_leaf_spec a b :
  wt a -> wt b ->
  expr_cmp_leaf a b =
  then_cmp (cmp_Z (leaf_rank a) (leaf_rank b)) (cmp_Z (leaf_value a) (leaf_value b)).
Proof.
  intros Ha Hb. unfold expr_cmp_leaf, leaf_rank, leaf_value, first_greater.
  pose proof (compare_bits_cmp a b Ha Hb) as Hc.
  assert (Ca : isFloatingPointConstant a || isIntegerConstant a = true -> isConstant a = true)
    by (unfold isFloatingPointConstant, isIntegerConstant; destruct (isConstant a); [easy|]; now rewrite !andb_false_r).
  assert (Cb : isFloatingPointConstant b || isIntegerConstant b = true -> isConstant b = true)
    by (unfold isFloatingPointConstant, isIntegerConstant; destruct (isConstant b); [easy|]; now rewrite !andb_false_r).
  destruct (isFloatingPointConstant a), (isFloatingPointConstant b), (isIntegerConstant a), (isIntegerConstant b);
    cbn [xorb orb] in *; rewrite ?Hc by auto; try reflexivity;
    destruct (isMemoryVariable a), (isMemoryVariable b), (isFloatingPointVariable a), (isFloatingPointVariable b);
    reflexivity.
Qed.

Lemma expr_cmp_leaf_range a b : -1 <= expr_cmp_leaf a b <= 1.
Proof.
  assert (H : forall w1 v1 w2 v2, -1 <= bv_compare w1 v1 w2 v2 <= 1)
    by (intros; unfold bv_compare, compare_same; case_cmp; lia).
  unfold expr_cmp_leaf, first_greater. pose proof (cmp_Z_range (leaf_name a) (leaf_name b)).
  repeat match goal with |- context [if ?c then _ else _] => destruct c end; auto; lia.
Qed.

Lemma expr_cmp_range a b : -1 <= expr_cmp a b <= 1.
Proof.
  revert b. induction a as [t v f|t n f|op t cs f IH] using expr_tree_ind;
    intros [t' v' f'|t' n' f'|op' t' cs' f']; try apply expr_cmp_leaf_range; try (cbn; lia).
  rewrite expr_cmp_node.
  apply then_cmp_range; [apply cmp_Z_range|]. revert cs'.
  induction IH as [|c cs Hc _ IH]; intros [|c' cs']; try (cbn; lia).
  rewrite lex_cmp_cons. now apply then_cmp_range.
Qed.

Lemma expr_cmp_three_way a : wt a -> three_way wt expr_cmp a.
Proof.
  assert (Hleaf : forall a b, wt a -> wt b -> expr_cmp_leaf b a = - expr_cmp_leaf a b).
  { intros x y Hx Hy. rewrite !expr_cmp_leaf_spec by assumption.
    now rewrite (cmp_Z_anti (leaf_rank x)), (cmp_Z_anti (leaf_value x)), then_cmp_anti. }
  assert (Htrans : forall a b c, wt a -> wt b -> wt c -> expr_cmp_leaf a b <= 0 ->
    expr_cmp_leaf b c <= 0 -> expr_cmp_leaf a c = Z.min (expr_cmp_leaf a b) (expr_cmp_leaf b c)).
  { intros x y z Hx Hy Hz. rewrite !expr_cmp_leaf_spec by assumption.
    apply then_cmp_trans; auto using cmp_Z_range, cmp_Z_trans. }
  induction a as [t v f|t n f|op t cs f IH] using expr_tree_ind; intros Ha b Hb.
  - destruct b as [t' v' f'|t' n' f'|op' t' cs' f'].
    + split; [now apply Hleaf|]. intros [] Hc; [now apply Htrans..|cbn; lia].
    + split; [now apply Hleaf|]. intros [] Hc; [now apply Htrans..|cbn; lia].
    + split; [reflexivity|]. intros c Hc. cbn. lia.
  - destruct b as [t' v' f'|t' n' f'|op' t' cs' f'].
    + split; [now apply Hleaf|]. intros [] Hc; [now apply Htrans..|cbn; lia].
    + split; [now apply Hleaf|]. intros [] Hc; [now apply Htrans..|cbn; lia].
    + split; [reflexivity|]. intros c Hc. cbn. lia.
  - assert (Hnl : forall c, isInterior c = false ->
        expr_cmp (Node op t cs f) c = -1 /\ expr_cmp c (Node op t cs f) = 1) by now intros [].
    destruct (isInterior b) eqn:Ib.
    2:{ destruct (Hnl b Ib) as [-> ->]. split; [reflexivity|]. intros c Hc _.
        destruct b; try discriminate; destruct c; cbn; try lia;
          pose proof (expr_cmp_leaf_range); intros; rewrite Z.min_l; try apply H; lia. }
    destruct b as [| |op' t' cs' f']; try discriminate.
    apply wt_node in Ha as (_ & _ & Ha). apply wt_node in Hb as (_ & _ & Hb).
    assert (H3 : Forall (three_way wt expr_cmp) cs)
      by (clear -IH Ha; induction IH; constructor; apply Forall_cons in Ha as [? ?]; auto).
    pose proof (lex_three_way wt expr_cmp cs expr_cmp_range H3 cs' Hb) as [An T].
    split; [now rewrite !expr_cmp_node, (cmp_Z_anti (op_index op)), An, then_cmp_anti|].
    intros c Hc. destruct c as [| |op'' t'' cs'' f'']; [cbn; pose proof (expr_cmp_range (Node op t cs f) (Node op' t' cs' f')); cbn in *; lia..|].
    apply wt_node in Hc as (_ & _ & Hc). rewrite !expr_cmp_node.
    apply then_cmp_trans; auto using cmp_Z_range, cmp_Z_trans, lex_cmp_range, expr_cmp_range.
Qed.

Lemma expr_cmp_refl a : wt a -> expr_cmp a a = 0.
Proof. intros Ha. pose proof (proj1 (expr_cmp_three_way a Ha a Ha)). lia. Qed.

(** * Construction *)

Lemma type_integer_Ret w t : type_integer w = Ret t -> t = mkType INTEGER w 0 /\ w <= 32767.
Proof.
  unfold type_integer, makeType. intros H. inv_outcome. subst.
  split; [reflexivity|]. now apply Z.leb_le.
Qed.

Lemma type_integer_ok w : w <= 32767 -> type_integer w = Ret (mkType INTEGER w 0).
Proof. intros H. unfold type_integer, makeType. rewrite (proj2 (Z.leb_le w 32767)) by assumption. reflexivity. Qed.

(** The type asked for matters only to conversions, which take it as it is. *)
Lemma adjustWidth_op_idem op cs ty t :
  adjustWidth_op op cs ty = Ret t -> nBits t <> 0 -> adjustWidth_op op cs t = Ret t.
Proof.
  destruct op; cbn [adjustWidth_op]; intros H Hn; try exact H; inv_outcome; subst.
  - now rewrite H0.
  - rewrite H0. cbn [obind]. destruct (Z.eqb_spec (expr_nBits (nth_arg cs 0)) (nBits ty)) as [E|E].
    + inv_outcome. subst. now rewrite (proj2 (Z.eqb_eq _ _)).
    + now apply type_integer_Ret in H as [-> _].
Qed.

Lemma adjustWidth_idem op cs ty t : adjustWidth op cs ty = Ret t -> adjustWidth op cs t = Ret t.
Proof.
  unfold adjustWidth. destruct cs; [discriminate|]. intros H. inv_outcome. subst.
  apply negb_true_iff, Z.eqb_neq in H1 as Hn.
  rewrite (adjustWidth_op_idem _ _ _ _ H0 Hn). cbn [obind]. now rewrite H1.
Qed.

(** Where the type of an interior node comes from: an operand, the caller, or
    an integer type of a width the fields can hold. *)
Lemma adjustWidth_op_source op cs ty t :
  cs <> [] -> adjustWidth_op op cs ty = Ret t ->
  (exists i, (i < length cs)%nat /\ t = expr_type (nth_arg cs i)) \/ t = ty \/
  (exists w, type_integer w = Ret t).
Proof.
  intros Hne. assert (Hlen : (0 < length cs)%nat) by (destruct cs; [easy | cbn; lia]).
  assert (Hargs : forall n u, require_args cs n = Ret u -> length cs = n)
    by (unfold require_args; intros n u Hu; apply require_Ret, Nat.eqb_eq in Hu; exact Hu).
  destruct op; cbn [adjustWidth_op]; unfold adjustWidth_default, adjustWidth_fp; intros H;
    inv_outcome; subst;
    repeat match goal with Hu : require_args cs _ = Ret _ |- _ => apply Hargs in Hu end;
    try (right; right; eexists; eassumption);
    try (right; left; reflexivity);
    try (left; eexists; split; [|reflexivity]; lia).
  destruct (_ =? _); inv_outcome; subst; [now right; left | right; right; eexists; eassumption].
Qed.

Lemma nth_arg_wt cs i : Forall wt cs -> (i < length cs)%nat -> wt (nth_arg cs i).
Proof.
  intros H Hi. unfold nth_arg. apply lookup_lt_is_Some_2 in Hi as [c Hc]. rewrite Hc.
  exact (Forall_lookup_1 _ _ _ _ H Hc).
Qed.

Lemma fold_width_nonneg cs n : Forall wt cs -> 0 <= n -> 0 <= fold_left (fun n c => n + expr_nBits c) cs n.
Proof.
  intros H. revert n. induction H as [|c cs Hc _ IH]; intros n Hn; [assumption|].
  cbn. apply IH. pose proof (wt_width c Hc). lia.
Qed.

Lemma toUnsigned_nonneg e n : wt e -> toUnsigned e = Some n -> 0 <= n.
Proof.
  destruct e as [t v f| |]; try discriminate. unfold toUnsigned, integer_constant, expr_nBits. cbn.
  destruct (bool_decide _); [|discriminate]. intros [Ht Hv]. unfold bv_toInteger, bv_toInteger_range.
  destruct (_ <=? 64).
  - intros [= <-]. apply get_bits_range. lia.
  - destruct (_ <? 64); [|discriminate]. intros [= <-]. apply get_bits_range. lia.
Qed.

Lemma adjustWidth_op_nonneg op cs ty t :
  Forall wt cs -> adjustWidth_op op cs ty = Ret t -> 0 <= nBits ty -> 0 <= nBits t.
Proof.
  intros Hcs H Hty.
  assert (Harg : forall i, 0 <= nBits (expr_type (nth_arg cs i))).
  { intros i. destruct (lt_dec i (length cs)) as [He|He].
    - pose proof (wt_width _ (nth_arg_wt cs i Hcs He)). unfold expr_nBits in *. lia.
    - unfold nth_arg. now rewrite lookup_ge_None_2 by lia. }
  assert (Hu : forall i, 0 <= default 0 (toUnsigned (nth_arg cs i))).
  { intros e. destruct (toUnsigned (nth_arg cs e)) eqn:E; [|cbn; lia]. cbn.
    destruct (lt_dec e (length cs)) as [He|He].
    - exact (toUnsigned_nonneg _ _ (nth_arg_wt cs e Hcs He) E).
    - unfold nth_arg in E. rewrite lookup_ge_None_2 in E by lia. discriminate. }
  pose proof (fold_width_nonneg cs 0 Hcs ltac:(lia)) as Hsum.
  assert (Hw : forall n, 0 <= n -> type_integer n = Ret t -> 0 <= nBits t)
    by (intros n Hn Hn'; apply type_integer_Ret in Hn' as [-> _]; exact Hn).
  destruct op; cbn [adjustWidth_op] in H; unfold adjustWidth_default, adjustWidth_fp in H;
    inv_outcome; subst; try apply Harg; try assumption;
    try (eapply Hw; [|eassumption]; first [lia | apply Hu | apply Harg | apply Hsum]).
  destruct (_ =? _); [inv_outcome; now subst | eapply Hw; [|eassumption]; lia].
Qed.

Lemma adjustWidth_wt op cs ty t f :
  Forall wt cs -> 0 <= nBits ty <= 32767 -> adjustWidth op cs ty = Ret t -> wt (Node op t cs f).
Proof.
  intros Hcs Hty H. apply wt_node. split; [|split; [now apply adjustWidth_idem in H | exact Hcs]].
  assert (Hne' : cs <> []) by (intros ->; discriminate).
  assert (H0 : adjustWidth_op op cs ty = Ret t /\ nBits t <> 0).
  { unfold adjustWidth in H. destruct cs as [|c cs']; [easy|]. inv_outcome. subst.
    split; [assumption|]. now apply Z.eqb_neq, negb_true_iff. }
  destruct H0 as [H0 H1].
  destruct (adjustWidth_op_source _ _ _ _ Hne' H0) as [(i & Hi & ->)|[->|[w Hw]]].
  - exact (wt_width _ (nth_arg_wt _ i Hcs Hi)).
  - lia.
  - pose proof (adjustWidth_op_nonneg _ _ _ _ Hcs H0 ltac:(lia)).
    apply type_integer_Ret in Hw as [-> Hw]. cbn in *. lia.
Qed.

Lemma interior_Ret ty op cs flags e :
  interior ty op cs flags = Ret e ->
  exists t, e = Node op t cs (adjustBitFlags flags cs) /\ adjustWidth op cs ty = Ret t /\
    (typeClass ty <> INVALID -> t = ty).
Proof.
  unfold interior. intros H. inv_outcome. subst. exists x. split; [reflexivity|]. split; [assumption|].
  intros Hv. unfold type_isValid in H1. rewrite bool_decide_eq_true_2 in H1 by assumption.
  cbn in H1. now apply bool_decide_eq_true_1 in H1.
Qed.

Lemma interior_wt ty op cs flags e :
  Forall wt cs -> 0 <= nBits ty <= 32767 -> interior ty op cs flags = Ret e -> wt e.
Proof.
  intros Hcs Hty H. apply interior_Ret in H as (t & -> & H & _). now apply (adjustWidth_wt op cs ty).
Qed.

(** * Values of constants and counts *)

Lemma toSignedInteger_wide w v :
  64 < w -> bv_ok w v -> LONG_MIN <= sval w v <= LONG_MAX -> bv_toSignedInteger w v = sval w v.
Proof.
  unfold LONG_MIN, LONG_MAX. intros Hw Hv Hr. unfold bv_toSignedInteger.
  rewrite (proj2 (Z.ltb_ge w 64)) by lia. rewrite andb_false_r. cbn [andb].
  rewrite toInteger_spec by (assumption || lia). unfold to_signed.
  rewrite Zplus_mod_idemp_l. pose proof (sval_mod w v ltac:(lia) Hv) as Hm.
  assert (Hq : exists q, v = sval w v + q * 2 ^ 64).
  { exists ((if bv_get v (w - 1) then 1 else 0) * 2 ^ (w - 64)). rewrite <- Z.mul_assoc.
    rewrite <- pow2_split by lia. unfold sval. destruct (bv_get v (w - 1)); lia. }
  destruct Hq as [q Hq]. rewrite Hq at 1.
  replace (sval w v + q * 2 ^ 64 + 2 ^ (64 - 1)) with ((sval w v + 2 ^ 63) + q * 2 ^ 64) by lia.
  rewrite Z.mod_add by lia. change (64 - 1) with 63. change (2 ^ 63) with 9223372036854775808 in *.
  change (2 ^ 64) with 18446744073709551616. rewrite Z.mod_small by lia. lia.
Qed.

Lemma mssb_bound n v : 0 <= v -> 0 < n -> (n <=? default 0 (bv_mostSignificantSetBit v)) = (2 ^ n <=? v).
Proof.
  intros Hv Hn. unfold bv_mostSignificantSetBit. pose proof (pow2_pos n ltac:(lia)).
  destruct (Z.eqb_spec v 0) as [->|Hz]; cbn [default].
  - rewrite !(proj2 (Z.leb_gt _ _)) by lia. reflexivity.
  - apply eq_true_iff_eq. rewrite !Z.leb_le. symmetry. apply Z.log2_le_pow2. lia.
Qed.

Fixpoint tree_size (e : expr) : Z :=
  match e with
  | Node _ _ cs _ => fold_left (fun n c => n + tree_size c) cs 1
  | _ => 1
  end.

Lemma fold_tree_size_ge cs n :
  Forall (fun c => 1 <= tree_size c) cs -> n <= fold_left (fun n c => n + tree_size c) cs n.
Proof.
  intros H. revert n. induction H as [|c cs Hc _ IH]; intros n; [reflexivity|].
  cbn. specialize (IH (n + tree_size c)). lia.
Qed.

Lemma tree_size_pos e : 1 <= tree_size e.
Proof.
  induction e as [t v f|t n f|op t cs f IH] using expr_tree_ind; [reflexivity..|].
  now apply fold_tree_size_ge.
Qed.

Lemma add_nnodes_spec n c :
  1 <= n -> 1 <= c ->
  add_nnodes (Z.min MAX_NNODES n) (Z.min MAX_NNODES c) = Z.min MAX_NNODES (n + c).
Proof.
  unfold add_nnodes, MAX_NNODES. change (2 ^ 64 - 1) with 18446744073709551615.
  change (2 ^ 64) with 18446744073709551616. intros Hn Hc.
  set (a := Z.min 18446744073709551615 n). set (b := Z.min 18446744073709551615 c).
  destruct (Z.eqb_spec a 18446744073709551615); [lia|].
  destruct (Z.lt_ge_cases (a + b) 18446744073709551616) as [H|H].
  - rewrite Z.mod_small by lia. rewrite (proj2 (Z.ltb_ge _ a)) by lia. lia.
  - assert (E : (a + b) mod 18446744073709551616 = a + b - 18446744073709551616)
      by (symmetry; apply Z.mod_unique with (q := 1); lia).
    rewrite E, (proj2 (Z.ltb_lt _ a)) by lia. lia.
Qed.

Lemma testbit_fold_flags cs flags i :
  Z.testbit (adjustBitFlags flags cs) i =
  Z.testbit flags i || existsb (fun c => Z.testbit (expr_flags c) i) cs.
Proof.
  unfold adjustBitFlags. revert flags. induction cs as [|c cs IH]; intros flags.
  - now rewrite orb_false_r.
  - cbn. now rewrite IH, Z.lor_spec, orb_assoc.
Qed.

Lemma toUnsigned_spec w v f :
  0 < w -> bv_ok w v ->
  toUnsigned (Const (mkType INTEGER w 0) v f) =
  if w <=? 64 then Some v else if v <? 2 ^ 64 then Some 0 else None.
Proof.
  intros Hw Hv. unfold toUnsigned, integer_constant, expr_nBits. cbn [expr_type typeClass nBits].
  rewrite bool_decide_eq_true_2 by reflexivity.
  destruct (Z.leb_spec w 64); [now rewrite toInteger_small by (assumption || lia)|].
  pose proof (mssb_bound 64 v (proj1 Hv) ltac:(lia)) as Hm. rewrite Z.leb_antisym in Hm.
  destruct (Z.ltb_spec (default 0 (bv_mostSignificantSetBit v)) 64); cbn [negb] in Hm;
    destruct (Z.leb_spec (2 ^ 64) v); try discriminate;
    [rewrite (proj2 (Z.ltb_lt v _)) by lia | now rewrite (proj2 (Z.ltb_ge v _)) by lia].
  f_equal. unfold bv_toInteger_range, get_bits.
  rewrite Z.div_small; [reflexivity|]. destruct Hv.
  unfold bv_mostSignificantSetBit. destruct (Z.eqb_spec v 0) as [->|Hz]; cbn [default]; [lia|].
  pose proof (Z.log2_spec v ltac:(lia)). now rewrite Z.add_1_r.
Qed.

Lemma toSigned_spec w v f :
  0 < w -> bv_ok w v ->
  toSigned (Const (mkType INTEGER w 0) v f) =
  if (LONG_MIN <=? tsval w v) && (tsval w v <=? LONG_MAX) then Some (tsval w v) else None.
Proof.
  intros Hw Hv. unfold toSigned, integer_constant, expr_nBits. cbn [expr_type typeClass nBits].
  rewrite bool_decide_eq_true_2 by reflexivity.
  destruct (Z.leb_spec w 64).
  - rewrite toSignedInteger_spec by (assumption || lia).
    pose proof (tsval_abs w v Hw Hv) as (_ & Ha & _).
    assert (Hr : LONG_MIN <= tsval w v <= LONG_MAX).
    { unfold LONG_MIN, LONG_MAX, tsval, bv_ok in *. destruct (Z.ltb_spec 1 w).
      - pose proof (sval_range w v Hw Hv). pose proof (pow2_le (w - 1) 63 ltac:(lia)).
        change (2 ^ 63) with 9223372036854775808 in *. lia.
      - replace w with 1 in * by lia. lia. }
    unfold LONG_MIN, LONG_MAX in *.
    now rewrite (proj2 (Z.leb_le _ _)), (proj2 (Z.leb_le _ _)) by lia.
  - assert (T : tsval w v = sval w v) by (unfold tsval; now rewrite (proj2 (Z.ltb_lt 1 w)) by lia).
    rewrite T. pose proof (sval_range w v Hw Hv) as Hr.
    pose proof (pow2_le 64 (w - 1) ltac:(lia)) as Hp.
    assert (E64 : 2 ^ 64 = LONG_MAX + 1 + (LONG_MAX + 1)) by reflexivity.
    assert (E63 : 2 ^ 63 = LONG_MAX + 1) by reflexivity.
    assert (EM : LONG_MIN = - LONG_MAX - 1) by reflexivity.
    destruct (sval_cases w v Hw Hv) as [(Hb & Hc & S)|(Hb & Hc & S)]; rewrite Hb.
    + rewrite mssb_bound by (destruct Hv; lia). rewrite (proj2 (Z.leb_le LONG_MIN _)) by (destruct Hv; lia).
      cbn [andb]. destruct (Z.leb_spec (2 ^ 63) v), (Z.leb_spec (sval w v) LONG_MAX); try lia; [reflexivity|].
      rewrite toSignedInteger_wide by (assumption || (destruct Hv; lia)). reflexivity.
    + unfold bv_mostSignificantClearBit. rewrite mssb_bound by (destruct Hv; lia).
      rewrite (proj2 (Z.leb_le (sval w v) LONG_MAX)), andb_true_r by (destruct Hv; unfold LONG_MAX; lia).
      destruct (Z.leb_spec (2 ^ 63) (2 ^ w - 1 - v)), (Z.leb_spec LONG_MIN (sval w v)); try lia; [reflexivity|].
      rewrite toSignedInteger_wide by (assumption || (destruct Hv; unfold LONG_MAX in *; lia)). reflexivity.
Qed.

(** * Properties *)

(** The operands of commutative operators are sorted by a strict order:
    on well-typed operands [commutative_order] is irreflexive and transitive,
    and orders any two nodes at different addresses one way or the other, as
    the sort it is passed to requires. *)
Theorem commutative_order_strict addr a b c :
  wt a -> wt b -> wt c ->
  commutative_order addr a a = false /\
  (commutative_order addr a b = true -> commutative_order addr b c = true ->
   commutative_order addr a c = true) /\
  (addr a <> addr b -> commutative_order addr a b = negb (commutative_order addr b a)).
Proof.
  intros Ha Hb Hc. unfold commutative_order. rewrite expr_cmp_refl by assumption.
  destruct (expr_cmp_three_way a Ha b Hb) as [An T]. specialize (T c Hc). rewrite An.
  split; [now rewrite Z.eqb_refl, Z.ltb_irrefl|]. split.
  - destruct (Z.eqb_spec (expr_cmp a b) 0) as [E|E], (Z.eqb_spec (expr_cmp b c) 0) as [E'|E'];
      rewrite !Z.ltb_lt; intros H1 H2; rewrite T, ?E, ?E' by lia;
      case_cmp; rewrite ?Z.ltb_lt in *; lia.
  - intros Hne. destruct (Z.eqb_spec (expr_cmp a b) 0) as [E|E].
    + rewrite E. cbn. case_cmp; try reflexivity; lia.
    + rewrite (proj2 (Z.eqb_neq (- expr_cmp a b) 0)) by lia. case_cmp; try reflexivity; lia.
Qed.

Theorem commutative_order_strict_witness :
  let x := Var (mkType INTEGER 8 0) 1 0 in let y := Var (mkType INTEGER 8 0) 2 0 in
  let c := Const (mkType INTEGER 8 0) 7 0 in
  commutative_order (fun _ => 0) x x = false /\
  (commutative_order (fun _ => 0) x y = true -> commutative_order (fun _ => 0) y c = true ->
   commutative_order (fun _ => 0) x c = true) /\
  ((fun _ : expr => 0) x <> 0 ->
   commutative_order (fun _ => 0) x y = negb (commutative_order (fun _ => 0) y x)).
Proof.
  intros x y c. apply (commutative_order_strict (fun _ => 0) x y c); cbn; unfold bv_ok; lia.
Defined.

(** Two nodes for one variable have no structural order: each compares
    greater than the other, although they are equivalent. *)
Theorem compareStructure_variable same t n f :
  same (Var t n f) (Var t n f) = false ->
  compareStructure same (Var t n f) (Var t n f) = 1 /\
  isEquivalentTo (Var t n f) (Var t n f) = true.
Proof.
  intros H. split; [|apply isEquivalentTo_refl]. cbn [compareStructure]. rewrite H.
  unfold compareStructure_leaf. rewrite !Z.eqb_refl, !xorb_nilpotent. cbn [negb].
  now rewrite Z.ltb_irrefl.
Qed.

Theorem compareStructure_variable_witness :
  compareStructure (fun _ _ => false) (Var (mkType INTEGER 32 0) 5 0) (Var (mkType INTEGER 32 0) 5 0) = 1 /\
  isEquivalentTo (Var (mkType INTEGER 32 0) 5 0) (Var (mkType INTEGER 32 0) 5 0) = true.
Proof. apply (compareStructure_variable (fun _ _ => false)). reflexivity. Defined.

(** [toUnsigned] is the value of a constant of at most 64 bits, but 0 for
    every wider constant whose value fits 64 bits, and nothing beyond. *)
Theorem toUnsigned_value w v f :
  0 < w -> bv_ok w v ->
  toUnsigned (Const (mkType INTEGER w 0) v f) =
  if w <=? 64 then Some v else if v <? 2 ^ 64 then Some 0 else None.
Proof. exact (toUnsigned_spec w v f). Qed.

Theorem toUnsigned_value_witness :
  toUnsigned (Const (mkType INTEGER 128 0) 5 0) = Some 0 /\
  toUnsigned (Const (mkType INTEGER 64 0) 5 0) = Some 5.
Proof.
  split.
  - apply (toUnsigned_value 128 5 0); unfold bv_ok; lia.
  - apply (toUnsigned_value 64 5 0); unfold bv_ok; lia.
Defined.

(** [toSigned] is exact: a constant's two's complement value when it fits
    64 bits, whatever the width, and nothing otherwise. *)
Theorem toSigned_exact w v f :
  0 < w -> bv_ok w v ->
  toSigned (Const (mkType INTEGER w 0) v f) =
  if (LONG_MIN <=? tsval w v) && (tsval w v <=? LONG_MAX) then Some (tsval w v) else None.
Proof. exact (toSigned_spec w v f). Qed.

Theorem toSigned_exact_witness :
  toSigned (Const (mkType INTEGER 72 0) (2 ^ 72 - 5) 0) = Some (-5) /\
  toSigned (Const (mkType INTEGER 72 0) (2 ^ 63) 0) = None.
Proof.
  split.
  - apply (toSigned_exact 72 (2 ^ 72 - 5) 0); unfold bv_ok; lia.
  - apply (toSigned_exact 72 (2 ^ 63) 0); unfold bv_ok; lia.
Defined.

(** The node count kept in every node is the size of its tree, saturated at
    the largest 64-bit number, although it is computed with wrapping additions. *)
Theorem nNodes_saturates e : nNodes e = Z.min MAX_NNODES (tree_size e).
Proof.
  induction e as [t v f|t n f|op t cs f IH] using expr_tree_ind; [reflexivity..|].
  cbn [nNodes tree_size].
  enough (H : forall n, 1 <= n ->
    fold_left (fun n c => add_nnodes n (nNodes c)) cs (Z.min MAX_NNODES n) =
    Z.min MAX_NNODES (fold_left (fun n c => n + tree_size c) cs n)) by now apply (H 1).
  induction IH as [|c cs Hc _ IH]; intros n Hn; [reflexivity|].
  cbn [fold_left]. rewrite Hc, add_nnodes_spec by (assumption || apply tree_size_pos).
  pose proof (tree_size_pos c). apply IH. lia.
Qed.
