(* ===== verification/SymSimplify.v ===== *)
(** Simplification of symbolic expressions
    ([src/Rose/BinaryAnalysis/SymbolicExpression.C]): the passes over an
    interior node, the simplifier of every operator, and the loop that runs
    them ([Interior::simplifyTop]).

    A pass that returns its own node answers [None]; one that returns another
    node answers [Some] of it.  The simplifiers build new expressions, which are
    simplified in their turn: that recursion is the parameter [simplify] of the
    passes, and [simplifyTop] ties it with a bound on its depth. *)
From S2P Require Import Prelude BitVector SymType SymExpr.
Open Scope Z_scope.

Definition some (m : outcome expr) : outcome (option expr) := let! e := m in Ret (Some e).

(** The child at a position, and the bits of a child that is a constant. *)
Definition arg (e : expr) (i : nat) : expr := nth_arg (children e) i.
Definition arg_constant (e : expr) (i : nat) : option Z := integer_constant (arg e i).
Definition isLeaf (e : expr) : bool := negb (isInterior e).

(** [new Interior(type(), getOperator(), cs, comment(), 0)] *)
Definition rebuild (e : expr) (cs : list expr) : outcome (option expr) :=
  some (interior (expr_type e) (getOperator e) cs 0).

(** * Passes that build nothing but their result *)

(** [Interior::associative]: the operands, those of the same operator replaced
    by their own operands. *)
Fixpoint flatten (op : Operator) (e : expr) : list expr :=
  match e with
  | Node op' _ cs _ => if op_eqb op' op then flat_map (flatten op) cs else [e]
  | _ => [e]
  end.

Definition associative (e : expr) : outcome (option expr) :=
  let op := getOperator e in
  if existsb (fun c => isOperator c op) (children e)
  then rebuild e (flat_map (flatten op) (children e))
  else Ret None.

(** [Interior::commutative]: [before] is the order the operands are sorted by. *)
Fixpoint insert_operand (before : expr -> expr -> bool) (c : expr) (cs : list expr) : list expr :=
  match cs with
  | [] => [c]
  | c' :: cs' => if before c' c then c' :: insert_operand before c cs' else c :: cs
  end.
Definition sort_operands (before : expr -> expr -> bool) (cs : list expr) : list expr :=
  fold_right (insert_operand before) [] cs.

Definition commutative (addr : expr -> Z) (e : expr) : outcome (option expr) :=
  let sorted := sort_operands (commutative_order addr) (children e) in
  if all2 expr_eqb sorted (children e) then Ret None else rebuild e sorted.

(** [Interior::idempotent]: drop every operand equal to the one before it. *)
Fixpoint drop_repeated (solver : option SmtSolver) (prev : expr) (cs : list expr) :
  outcome (list expr) :=
  match cs with
  | [] => Ret []
  | c :: cs =>
      let! same := mustEqual solver prev c in
      if same then drop_repeated solver prev cs
      else let! cs' := drop_repeated solver c cs in Ret (c :: cs')
  end.

Definition idempotent (solver : option SmtSolver) (e : expr) : outcome (option expr) :=
  match children e with
  | [] => Ret None
  | c :: cs =>
      let! cs' := drop_repeated solver c cs in
      if (length cs' =? length cs)%nat then Ret None else rebuild e (c :: cs')
  end.

(** [Interior::involutary] *)
Definition involutary (e : expr) : outcome (option expr) :=
  match children e with
  | [Node op _ [c] _] => Ret (if op_eqb op (getOperator e) then Some c else None)
  | _ => Ret None
  end.

(** [Interior::poisonNan] *)
Definition poisonNan (e : expr) : outcome (option expr) :=
  match List.find isFloatingPointNan (children e) with
  | None => Ret None
  | Some leaf =>
      let! eb := exponentWidth (expr_type leaf) in
      let! sb := significandWidth (expr_type leaf) in
      some (makeFloatingPointNan eb sb (expr_flags e))
  end.

(** [Interior::unaryNoOp] *)
Definition unaryNoOp (e : expr) : outcome (option expr) :=
  match children e with [c] => Ret (Some c) | _ => Ret None end.

(** [Interior::foldConstants]: [fold] replaces every run of at least two
    constants; [run] is the run that ends before [cs]. *)
Section FoldConstants.
Variable fold : list expr -> outcome expr.

Definition fold_run (run : list expr) : outcome (list expr * bool) :=
  match run with
  | [] => Ret ([], false)
  | [c] => Ret ([c], false)
  | _ => let! f := fold run in Ret ([f], true)
  end.

Fixpoint fold_runs (run cs : list expr) : outcome (list expr * bool) :=
  match cs with
  | [] => fold_run run
  | c :: cs =>
      if isIntegerConstant c then fold_runs (run ++ [c]) cs
      else
        let! ' (l, m) := fold_run run in
        let! ' (l', m') := fold_runs [] cs in
        Ret (l ++ c :: l', m || m')
  end.

Definition foldConstants (e : expr) : outcome (option expr) :=
  let! ' (newOperands, modified) := fold_runs [] (children e) in
  if negb modified then Ret None
  else match newOperands with [c] => Ret (Some c) | _ => rebuild e newOperands end.
End FoldConstants.

(** * Folding runs of constants *)

Definition fold_flags (cs : list expr) : Z := adjustBitFlags 0 cs.
Definition run_width (cs : list expr) : Z := expr_nBits (nth_arg cs 0).

Definition AddSimplifier_fold (cs : list expr) : outcome expr :=
  let w := run_width cs in
  makeIntegerConstant_bits w (fold_left (fun acc c => bv_add w acc (leaf_bits c)) cs 0) (fold_flags cs).

Definition AndSimplifier_fold (cs : list expr) : outcome expr :=
  let w := run_width cs in
  makeIntegerConstant_bits w (fold_left (fun acc c => Z.land acc (leaf_bits c)) cs (2 ^ w - 1))
    (fold_flags cs).

Definition OrSimplifier_fold (cs : list expr) : outcome expr :=
  makeIntegerConstant_bits (run_width cs) (fold_left (fun acc c => Z.lor acc (leaf_bits c)) cs 0)
    (fold_flags cs).

Definition XorSimplifier_fold (cs : list expr) : outcome expr :=
  makeIntegerConstant_bits (run_width cs)
    (fold_left (fun acc c => Z.lxor acc (leaf_bits c)) (tail cs) (leaf_bits (nth_arg cs 0)))
    (fold_flags cs).

(** The product and its width. *)
Definition product (mul : Z -> Z -> Z -> Z -> Z) (cs : list expr) : Z * Z :=
  fold_left (fun '(w, p) c => (w + expr_nBits c, mul w p (expr_nBits c) (leaf_bits c)))
    (tail cs) (run_width cs, leaf_bits (nth_arg cs 0)).

Definition SmulSimplifier_fold (cs : list expr) : outcome expr :=
  let (w, p) := product bv_multiplySigned cs in makeIntegerConstant_bits w p (fold_flags cs).

Definition UmulSimplifier_fold (cs : list expr) : outcome expr :=
  let (w, p) := product bv_multiply cs in makeIntegerConstant_bits w p (fold_flags cs).

Definition total_width (cs : list expr) : Z := fold_left (fun n c => n + expr_nBits c) cs 0.

Definition ConcatSimplifier_fold (cs : list expr) : outcome expr :=
  let resultSize := total_width cs in
  let (_, accumulator) :=
    fold_left (fun '(sa, acc) c =>
      let sa := sa - expr_nBits c in (sa, set_bits acc sa (expr_nBits c) (leaf_bits c)))
      cs (resultSize, 0) in
  makeIntegerConstant_bits resultSize accumulator (fold_flags cs).

(** * Passes that build simplified expressions *)

Section Rewrite.
Variable simplify : option SmtSolver -> expr -> outcome expr.
Variable solver : option SmtSolver.

(** [Interior::instance]: construct the node, then simplify it. *)
Definition instance_with (solver : option SmtSolver) (ty : type) (op : Operator)
    (cs : list expr) (flags : Z) : outcome expr :=
  let! e := interior ty op cs flags in simplify solver e.
Definition instance := instance_with solver.

Definition makeExtract (begin end_ a : expr) (flags : Z) : outcome expr :=
  instance type_none OP_EXTRACT [begin; end_; a] flags.
Definition makeExtend (newSize a : expr) (flags : Z) : outcome expr :=
  instance type_none OP_UEXTEND [newSize; a] flags.
Definition makeConcat (hi lo : expr) (flags : Z) : outcome expr :=
  instance type_none OP_CONCAT [hi; lo] flags.
Definition makeIte (cond a b : expr) (flags : Z) : outcome expr :=
  instance type_none OP_ITE [cond; a; b] flags.
Definition makeAdd (a b : expr) (flags : Z) : outcome expr :=
  if isFloatingPointExpr a && isFloatingPointExpr b
  then instance type_none OP_FP_ADD [a; b] flags
  else instance type_none OP_ADD [a; b] flags.
Definition makeNegate (a : expr) (flags : Z) : outcome expr :=
  if isFloatingPointExpr a then instance type_none OP_FP_NEGATE [a] flags
  else instance type_none OP_NEGATE [a] flags.

(** Extraction between offsets, as 32-bit constants. *)
Definition extract_between (from to : Z) (a : expr) (flags : Z) : outcome expr :=
  let! f := makeIntegerConstant 32 from 0 in
  let! t := makeIntegerConstant 32 to 0 in
  makeExtract f t a flags.

(** [Node::newFlags] *)
Definition newFlags (e : expr) (flags : Z) : outcome expr :=
  if flags =? expr_flags e then Ret e
  else
    match e with
    | Node op t cs _ => instance_with None t op cs flags
    | Const t v _ => makeConstant t (nBits t) v flags
    | Var t n _ => makeVariable t n flags
    end.

(** [Interior::additiveNesting]; the width of the extension is an 8-bit
    constant. *)
Definition additive_operand (w : Z) (c : expr) : outcome expr :=
  if expr_nBits c =? w then Ret c
  else let! n := makeIntegerConstant 8 w 0 in makeExtend n c 0.

Definition additiveNesting (e : expr) : outcome (option expr) :=
  let nested := arg e 1 in
  if isOperator nested (getOperator e) then
    assert! (length (children nested) =? length (children e))%nat else AssertFail in
    assert! expr_nBits nested =? expr_nBits e else AssertFail in
    let w := Z.max (expr_nBits (arg e 0)) (expr_nBits (arg nested 0)) in
    let! a := additive_operand w (arg e 0) in
    let! b := additive_operand w (arg nested 0) in
    let! sum := makeAdd a b 0 in
    rebuild e [sum; arg nested 1]
  else Ret None.

(** [Interior::identity]: drop the constants equal to [ident]. *)
Definition is_identity (ident : Z) (c : expr) : bool :=
  match integer_constant c with
  | Some v => bv_compare (expr_nBits c) v (expr_nBits c) (bv_fromInteger (expr_nBits c) ident) =? 0
  | None => false
  end.

Definition identity (ident : Z) (e : expr) : outcome (option expr) :=
  let args := List.filter (fun c => negb (is_identity ident c)) (children e) in
  if (length args =? length (children e))%nat then Ret None
  else
    match args with
    | [] => some (makeIntegerConstant (expr_nBits e) ident 0)
    | [c] =>
        if negb (expr_nBits c =? expr_nBits e) then
          let! n := makeIntegerConstant 8 (expr_nBits e) 0 in some (makeExtend n c 0)
        else Ret (Some c)
    | _ =>
        let! inode := interior type_none (getOperator e) args 0 in
        Ret (if expr_nBits inode =? expr_nBits e then Some inode else None)
    end.

(** ** Addition *)

(** [are_duals]: whether two operands cancel, and the adjustment left. *)
Definition are_duals (a b : expr) (adjustment w : Z) : outcome (option Z) :=
  assert! expr_nBits a =? expr_nBits b else AssertFail in
  let (a, b) := if isInterior b then (a, b) else (b, a) in
  if isOperator b OP_NEGATE then
    assert! (length (children b) =? 1)%nat else AssertFail in
    Ret (if isEquivalentTo a (arg b 0) then Some adjustment else None)
  else if isOperator b OP_INVERT then
    Ret (if isEquivalentTo a (arg b 0) then Some (bv_decrement w adjustment) else None)
  else Ret None.

(** Cancel the dual of [a] among the operands after it; the search stops at
    the first operand that is already cancelled. *)
Fixpoint cancel_dual (w : Z) (a : expr) (cs : list (option expr)) (adjustment : Z) :
  outcome (option (list (option expr) * Z)) :=
  match cs with
  | Some b :: cs =>
      let! d := are_duals a b adjustment w in
      match d with
      | Some adjustment => Ret (Some (None :: cs, adjustment))
      | None =>
          let! r := cancel_dual w a cs adjustment in
          Ret (match r with
               | Some (cs, adjustment) => Some (Some b :: cs, adjustment)
               | None => None
               end)
      end
  | _ => Ret None
  end.

(** All the operands in turn, [n] of them: those left, the adjustment, and
    whether any was cancelled. *)
Fixpoint cancel_duals (w : Z) (n : nat) (cs : list (option expr)) (adjustment : Z) :
  outcome (list expr * Z * bool) :=
  match n, cs with
  | S n, None :: cs => cancel_duals w n cs adjustment
  | S n, Some a :: cs =>
      let! r := cancel_dual w a cs adjustment in
      match r with
      | Some (cs, adjustment) =>
          let! ' (l, adjustment, _) := cancel_duals w n cs adjustment in
          Ret (l, adjustment, true)
      | None =>
          let! ' (l, adjustment, had) := cancel_duals w n cs adjustment in
          Ret (a :: l, adjustment, had)
      end
  | _, _ => Ret ([], adjustment, false)
  end.

Fixpoint omap_list (f : expr -> outcome expr) (cs : list expr) : outcome (list expr) :=
  match cs with
  | [] => Ret []
  | c :: cs => let! c := f c in let! cs := omap_list f cs in Ret (c :: cs)
  end.

(** The operands of the sum that [c] negates. *)
Definition negated_sum (c : expr) : list expr :=
  match children c with
  | [s] => if isOperator c OP_NEGATE && isOperator s OP_ADD then children s else []
  | _ => []
  end.

(** [distributeNegations] *)
Fixpoint distribute_negations (cs : list expr) : outcome (list expr * bool) :=
  match cs with
  | [] => Ret ([], false)
  | c :: cs =>
      match negated_sum c with
      | _ :: _ =>
          let! negated := omap_list (fun a => makeNegate a 0) (negated_sum c) in
          let! ' (l, _) := distribute_negations cs in
          Ret (negated ++ l, true)
      | [] =>
          let! ' (l, distributed) := distribute_negations cs in
          Ret (c :: l, distributed)
      end
  end.

(** The sum of an [ite] and something else, with the sum hoisted into it. *)
Definition hoist_ite (e : expr) : option (outcome expr) :=
  match children e with
  | [a; b] =>
      if isOperator a OP_ITE then
        if isOperator b OP_ITE then None
        else Some (let! x := makeAdd (arg a 1) b 0 in
                   let! y := makeAdd (arg a 2) b 0 in
                   makeIte (arg a 0) x y 0)
      else if isOperator b OP_ITE then
        Some (let! x := makeAdd a (arg b 1) 0 in
              let! y := makeAdd a (arg b 2) 0 in
              makeIte (arg b 0) x y 0)
      else None
  | _ => None
  end.

Definition AddSimplifier_rewrite (e : expr) : outcome (option expr) :=
  match hoist_ite e with
  | Some m => some m
  | None =>
      let w := expr_nBits e in
      let cs := children e in
      let! ' (kept, adjustment, had_duals) := cancel_duals w (length cs) (map Some cs) 0 in
      if negb had_duals then
        let! ' (distributed, changed) := distribute_negations cs in
        if changed then some (instance type_none OP_ADD distributed 0) else Ret None
      else
        let! kept :=
          if bv_isEqualToZero adjustment then Ret kept
          else let! c := makeIntegerConstant_bits w adjustment 0 in Ret (kept ++ [c]) in
        match kept with
        | [] => some (makeIntegerConstant w 0 0)
        | [c] => Ret (Some c)
        | _ => some (instance type_none OP_ADD kept 0)
        end
  end.

(** ** Bitwise operators *)

Definition is_zero (c : expr) : bool :=
  match integer_constant c with Some v => bv_isEqualToZero v | None => false end.
Definition is_all_set (c : expr) : bool :=
  match integer_constant c with Some v => bv_isAllSet (expr_nBits c) v | None => false end.

Definition AndSimplifier_rewrite (e : expr) : outcome (option expr) :=
  match List.find is_zero (children e) with
  | Some c => some (makeIntegerConstant (expr_nBits e) 0 (expr_flags c))
  | None =>
      if forallb (isEquivalentTo (arg e 0)) (tail (children e)) then Ret (Some (arg e 0))
      else Ret None
  end.

(** What remains of the operands of [e], if any was removed. *)
Definition remaining (e : expr) (args : list expr) : outcome (option expr) :=
  match args with
  | [] => some (makeIntegerConstant (expr_nBits e) 0 0)
  | [c] => Ret (Some c)
  | _ =>
      if (length args =? length (children e))%nat then Ret None
      else some (instance (expr_type e) (getOperator e) args 0)
  end.

Definition OrSimplifier_rewrite (e : expr) : outcome (option expr) :=
  match List.find is_all_set (List.filter (fun c => negb (is_zero c)) (children e)) with
  | Some c => some (makeIntegerConstant_bits (expr_nBits c) (leaf_bits c) (expr_flags c))
  | None => remaining e (List.filter (fun c => negb (is_zero c)) (children e))
  end.

(** Remove the first operand of [cs] equal to [c]. *)
Fixpoint remove_equal (c : expr) (cs : list expr) : outcome (option (list expr)) :=
  match cs with
  | [] => Ret None
  | c' :: cs =>
      let! same := mustEqual solver c c' in
      if same then Ret (Some cs)
      else
        let! r := remove_equal c cs in
        Ret (match r with Some cs => Some (c' :: cs) | None => None end)
  end.

(** Remove zeros and pairs of equal operands; [n] bounds their number. *)
Fixpoint cancel_pairs (n : nat) (cs : list expr) : outcome (list expr) :=
  match n, cs with
  | S n, c :: cs =>
      if is_zero c then cancel_pairs n cs
      else
        let! r := remove_equal c cs in
        match r with
        | Some cs => cancel_pairs n cs
        | None => let! cs := cancel_pairs n cs in Ret (c :: cs)
        end
  | _, _ => Ret []
  end.

Definition XorSimplifier_rewrite (e : expr) : outcome (option expr) :=
  let! args := cancel_pairs (length (children e)) (children e) in
  remaining e args.

(** ** Concatenation *)

(** The condition shared by operands that are all [ite]s, with their branches. *)
Fixpoint common_condition (cond : option expr) (cs : list expr) :
  outcome (option (expr * list expr * list expr)) :=
  match cs with
  | [] => Ret (match cond with Some k => Some (k, [], []) | None => None end)
  | c :: cs =>
      if isOperator c OP_ITE then
        let! ok := match cond with None => Ret true | Some k => mustEqual solver (arg c 0) k end in
        if ok then
          let! r := common_condition (Some (default (arg c 0) cond)) cs in
          Ret (match r with
               | Some (k, ts, fs) => Some (k, arg c 1 :: ts, arg c 2 :: fs)
               | None => None
               end)
        else Ret None
      else Ret None
  end.

(** The offsets of an extraction whose offsets are known. *)
Definition extract_offsets (c : expr) : outcome (option (Z * Z)) :=
  if isOperator c OP_EXTRACT && (expr_nBits (arg c 0) <=? 64) && (expr_nBits (arg c 1) <=? 64)
     && isIntegerConstant (arg c 0) && isIntegerConstant (arg c 1)
  then
    let lo := default 0 (toUnsigned (arg c 0)) in
    let hi := default 0 (toUnsigned (arg c 1)) in
    assert! lo <? hi else AssertFail in
    Ret (Some (lo, hi))
  else Ret None.

(** Whether two nodes take bits from the same expression; a missing child is
    dereferenced. *)
Definition same_source (p c : expr) : outcome bool :=
  assert! (2 <? length (children p))%nat else Undefined in
  if expr_nBits (arg p 2) =? expr_nBits (arg c 2) then mustEqual solver (arg p 2) (arg c 2)
  else Ret false.

(** Join adjacent extractions; [acc] holds the operands so far, the last one
    first, and [prev] the last one if it can be joined. *)
Fixpoint merge_extracts (acc : list expr) (prev : option expr) (prevLo : Z) (cs : list expr) :
  outcome (list expr) :=
  match cs with
  | [] => Ret (rev acc)
  | c :: cs =>
      let! cur := extract_offsets c in
      let lo := match cur with Some (lo, _) => lo | None => 0 end in
      let! joined :=
        match prev, cur with
        | Some p, Some (_, hi) => if hi =? prevLo then same_source p c else Ret false
        | _, _ => Ret false
        end in
      match joined, prev with
      | true, Some p =>
          let! m := makeExtract (arg c 0) (arg p 1) (arg c 2) 0 in
          merge_extracts (m :: tail acc) (if isInterior m then Some m else None) lo cs
      | _, _ =>
          merge_extracts (c :: acc) (match cur with Some _ => Some c | None => None end) lo cs
      end
  end.

Definition ConcatSimplifier_rewrite (e : expr) : outcome (option expr) :=
  let! hoisted := common_condition None (children e) in
  match hoisted with
  | Some (condition, trueValues, falseValues) =>
      let! trueConcat := instance type_none OP_CONCAT trueValues 0 in
      let! falseConcat := instance type_none OP_CONCAT falseValues 0 in
      some (instance type_none OP_ITE [condition; trueConcat; falseConcat] 0)
  | None =>
      let! newArgs := merge_extracts [] None 0 (children e) in
      match newArgs with
      | [c] => some (newFlags c (expr_flags e))
      | _ =>
          if (length newArgs =? length (children e))%nat then Ret None
          else some (instance (expr_type e) (getOperator e) newArgs (expr_flags e))
      end
  end.

(** ** Conversion and extraction *)

Definition ConvertSimplifier_rewrite (e : expr) : outcome (option expr) :=
  let a := arg e 0 in
  if bool_decide (expr_type e = expr_type a) then Ret (Some a)
  else if isIntegerExpr e && isIntegerExpr a then
    if expr_nBits a <? expr_nBits e then
      let! n := makeIntegerConstant 16 (expr_nBits e) 0 in
      some (makeExtend n a (expr_flags e))
    else
      let! z := makeIntegerConstant 16 0 0 in
      let! n := makeIntegerConstant 16 (expr_nBits e) 0 in
      some (makeExtract z n a (expr_flags e))
  else Ret None.

(** The parts of a concatenation, the low one first, that hold the bits from
    [from] up to [to]; [partAt] is the offset of the first part. *)
Fixpoint extract_parts (parts : list expr) (partAt from to : Z) : outcome (list expr) :=
  match parts with
  | [] => Ret []
  | part :: parts =>
      let partEnd := partAt + expr_nBits part in
      if partEnd <=? from then extract_parts parts partEnd from to
      else if to <=? partAt then Ret []
      else if (partAt <? from) && (to <? partEnd) then
        let! x := extract_between (from - partAt) (to - partAt) part 0 in
        let! l := extract_parts parts partEnd (from + (to - from)) to in
        Ret (x :: l)
      else if partAt <? from then
        assert! partEnd <=? to else AssertFail in
        let! x := extract_between (from - partAt) (expr_nBits part) part 0 in
        let! l := extract_parts parts partEnd (from + (partEnd - from)) to in
        Ret (x :: l)
      else if to <? partEnd then
        assert! partAt =? from else AssertFail in
        let! x := extract_between 0 (to - from) part 0 in
        Ret [x]
      else
        assert! from <=? partAt else AssertFail in
        assert! partEnd <=? to else AssertFail in
        let! l := extract_parts parts partEnd partEnd to in
        Ret (part :: l)
  end.

(** The offsets of [e] are constants of at most 64 bits. *)
Definition extract_limits (e : expr) : outcome (option (Z * Z)) :=
  assert! isLeaf (arg e 0) && isLeaf (arg e 1) else Undefined in
  assert! negb (isIntegerConstant (arg e 0)) || (expr_nBits (arg e 0) <=? 64) else AssertFail in
  assert! negb (isIntegerConstant (arg e 1)) || (expr_nBits (arg e 1) <=? 64) else AssertFail in
  Ret (if isIntegerConstant (arg e 0) && isIntegerConstant (arg e 1)
       then Some (default 0 (toUnsigned (arg e 0)), default 0 (toUnsigned (arg e 1)))
       else None).

Definition ExtractSimplifier_rewrite (e : expr) : outcome (option expr) :=
  let operand := arg e 2 in
  let! limits := extract_limits e in
  match limits with
  | None => Ret None
  | Some (from, to) =>
      if (to <=? from) || (expr_nBits operand <? to) then Ret None
      else
        match integer_constant operand with
        | Some v => some (makeIntegerConstant_bits (to - from) (get_bits v from (to - from)) (expr_flags e))
        | None =>
            if (from =? 0) && (to =? expr_nBits operand) then Ret (Some operand)
            else if isOperator operand OP_CONCAT then
              let! newChildren := extract_parts (rev (children operand)) 0 from to in
              match newChildren with
              | [] => Fail Undefined
              | [c] => Ret (Some c)
              | _ => some (instance type_none OP_CONCAT (rev newChildren) 0)
              end
            else if isOperator operand OP_EXTRACT
                    && isIntegerConstant (arg operand 0) && isIntegerConstant (arg operand 1) then
              let from2 := default 0 (toUnsigned (arg operand 0)) in
              some (extract_between (from2 + from) (from2 + to) (arg operand 2) 0)
            else if (from =? 0) && isOperator operand OP_UEXTEND && (to <=? expr_nBits operand)
                    && (expr_nBits (arg operand 1) =? to)
            then Ret (Some (arg operand 1))
            else Ret None
        end
  end.

(** ** Unary operators, conditionals *)

(** An integer constant with the flags of the node it replaces. *)
Definition folded (e : expr) (w v : Z) : outcome (option expr) :=
  some (makeIntegerConstant_bits w v (expr_flags e)).
Definition folded_bool (e : expr) (b : bool) : outcome (option expr) :=
  some (makeBooleanConstant b (expr_flags e)).

(** [Optional::get] *)
Definition get_some (o : option Z) : outcome Z :=
  match o with Some x => Ret x | None => Fail Throw end.

Definition InvertSimplifier_rewrite (e : expr) : outcome (option expr) :=
  match arg_constant e 0 with
  | Some v => let w := expr_nBits (arg e 0) in folded e w (bv_invert w v)
  | None => Ret None
  end.

Definition NegateSimplifier_rewrite (e : expr) : outcome (option expr) :=
  match arg_constant e 0 with
  | Some v => let w := expr_nBits (arg e 0) in folded e w (bv_negate w v)
  | None => Ret None
  end.

Definition LssbSimplifier_rewrite (e : expr) : outcome (option expr) :=
  match arg_constant e 0 with
  | Some v =>
      match bv_leastSignificantSetBit v with
      | Some idx => some (makeIntegerConstant (expr_nBits e) idx 0)
      | None => some (makeIntegerConstant (expr_nBits e) 0 (expr_flags e))
      end
  | None => Ret None
  end.

Definition MssbSimplifier_rewrite (e : expr) : outcome (option expr) :=
  match arg_constant e 0 with
  | Some v =>
      match bv_mostSignificantSetBit v with
      | Some idx => some (makeIntegerConstant (expr_nBits e) idx 0)
      | None => some (makeIntegerConstant (expr_nBits e) 0 (expr_flags e))
      end
  | None => Ret None
  end.

Definition ZeropSimplifier_rewrite (e : expr) : outcome (option expr) :=
  match arg_constant e 0 with
  | Some v => folded_bool e (bv_isEqualToZero v)
  | None => Ret None
  end.

Definition NoopSimplifier_rewrite (e : expr) : outcome (option expr) :=
  match children e with [c] => Ret (Some c) | _ => Ret None end.

Definition ReinterpretSimplifier_rewrite (e : expr) : outcome (option expr) :=
  if bool_decide (expr_type e = expr_type (arg e 0)) then Ret (Some (arg e 0)) else Ret None.

Definition same_extracts (a b : expr) : outcome bool :=
  if isOperator a OP_EXTRACT && isOperator b OP_EXTRACT && (expr_nBits a =? expr_nBits b) then
    let! same_from := mustEqual solver (arg a 0) (arg b 0) in
    let! same_to := if same_from then mustEqual solver (arg a 1) (arg b 1) else Ret false in
    Ret (same_to && (expr_nBits (arg a 2) =? expr_nBits (arg b 2)))
  else Ret false.

Definition IteSimplifier_rewrite (e : expr) : outcome (option expr) :=
  let a := arg e 1 in let b := arg e 2 in
  match arg_constant e 0 with
  | Some v =>
      assert! expr_nBits (arg e 0) =? 1 else Throw in
      Ret (Some (if negb (bv_isEqualToZero v) then a else b))
  | None =>
      if isEquivalentTo a b then Ret (Some a)
      else
        let! hoist := same_extracts a b in
        if hoist then
          let! newIte := makeIte (arg e 0) (arg a 2) (arg b 2) 0 in
          some (makeExtract (arg a 0) (arg a 1) newIte 0)
        else if isOperator (arg e 0) OP_INVERT then
          some (makeIte (arg (arg e 0) 0) b a (expr_flags e))
        else Ret None
  end.

(** ** Rotations, extensions and shifts *)

(** The exponent of a power of two. *)
Definition isPowerOfTwo (n : Z) : option Z :=
  if (0 <? n) && (n =? 2 ^ Z.log2 n) then Some (Z.log2 n) else None.

Definition rotate_amount (e : expr) : option Z :=
  match arg_constant e 0 with
  | None => None
  | Some v =>
      let w := expr_nBits (arg e 0) in
      if w <=? 64 then toUnsigned (arg e 0)
      else
        match bv_mostSignificantSetBit v with
        | None => Some 0
        | Some msb =>
            if msb <? 64 then Some (bv_toInteger w v)
            else
              match isPowerOfTwo (expr_nBits e) with
              | Some twoPow => Some (bv_toInteger_range v 0 (twoPow + 1))
              | None => None
              end
        end
  end.

(** [RolSimplifier] and [RorSimplifier] differ in the rotation only. *)
Definition rotate_rewrite (rotate : Z -> Z -> Z -> Z) (e : expr) : outcome (option expr) :=
  match rotate_amount e with
  | None => Ret None
  | Some sa =>
      match arg_constant e 1 with
      | Some v => let w := expr_nBits (arg e 1) in folded e w (rotate w v sa)
      | None =>
          let w := expr_nBits e in
          if sa mod w =? 0 then Ret (Some (arg e 1))
          else if w <? sa then
            let! n := makeIntegerConstant (expr_nBits (arg e 0)) (sa mod w) (expr_flags (arg e 0)) in
            some (instance (expr_type e) (getOperator e) [n; arg e 1] (expr_flags e))
          else Ret None
      end
  end.
Definition RolSimplifier_rewrite := rotate_rewrite bv_rotateLeft.
Definition RorSimplifier_rewrite := rotate_rewrite bv_rotateRight.

Definition UextendSimplifier_rewrite (e : expr) : outcome (option expr) :=
  let a := arg e 1 in
  let oldsize := expr_nBits a in
  let newsize := expr_nBits e in
  if oldsize =? newsize then Ret (Some a)
  else
    match integer_constant a with
    | Some v => folded e newsize (bv_resize oldsize v newsize)
    | None =>
        if isOperator a OP_UEXTEND && (oldsize <=? newsize) && (expr_nBits (arg a 1) <=? oldsize)
        then some (makeExtend (arg e 0) (arg a 1) 0)
        else if isOperator a OP_UEXTEND && (expr_nBits (arg a 1) <=? newsize) && (newsize <=? oldsize)
        then some (makeExtend (arg e 0) (arg a 1) 0)
        else if newsize <? oldsize then some (extract_between 0 newsize a 0)
        else Ret None
    end.

Definition SextendSimplifier_rewrite (e : expr) : outcome (option expr) :=
  let a := arg e 1 in
  let oldsize := expr_nBits a in
  let newsize := expr_nBits e in
  if oldsize =? newsize then Ret (Some a)
  else
    match integer_constant a with
    | Some v => folded e newsize (bv_signExtend oldsize v newsize)
    | None =>
        if newsize <? oldsize then some (extract_between 0 newsize a 0) else Ret None
    end.

Definition AsrSimplifier_rewrite (e : expr) : outcome (option expr) :=
  assert! (length (children e) =? 2)%nat else AssertFail in
  match arg_constant e 0, arg_constant e 1 with
  | Some _, Some v =>
      let! sa := get_some (toUnsigned (arg e 0)) in
      let w := expr_nBits (arg e 1) in
      folded e w (bv_shiftRightArithmetic w v sa)
  | _, _ => Ret None
  end.

(** [IntegerOps::isPowerOfTwo] and [IntegerOps::log2max]. *)
Definition IntegerOps_isPowerOfTwo (n : Z) : bool := (n =? 0) || (n =? 2 ^ Z.log2 n).
Definition log2max (n : Z) : Z := Z.log2_up n.

Definition strength_operand (w : Z) (c : expr) : outcome expr :=
  if expr_nBits c <? w then let! n := makeIntegerConstant 32 w 0 in makeExtend n c 0 else Ret c.

Definition combine_strengths (strength1 strength2 : expr) (value_width : Z) : outcome (option expr) :=
  let sum_width := Z.max (expr_nBits strength1) (expr_nBits strength2) in
  let sum_width :=
    if IntegerOps_isPowerOfTwo value_width then Z.max sum_width (log2max value_width + 1)
    else Z.max (sum_width + 1) (log2max value_width + 1) in
  if 64 <? sum_width then Ret None
  else
    let! strength1 := strength_operand sum_width strength1 in
    let! strength2 := strength_operand sum_width strength2 in
    some (makeAdd strength1 strength2 0).

(** The shift amount, at most the width of the value. *)
Definition shift_amount (e : expr) : option Z :=
  match arg_constant e 0 with
  | None => None
  | Some v =>
      let w := expr_nBits (arg e 0) in
      let sa :=
        if w <=? 64 then toUnsigned (arg e 0)
        else
          match bv_mostSignificantSetBit v with
          | None => Some 0
          | Some msb => if msb <? 64 then Some (bv_toInteger w v) else Some (expr_nBits e)
          end in
      match sa with Some sa => Some (Z.min (expr_nBits e) sa) | None => None end
  end.

(** Combine a shift of a shift; [None] when there is nothing to combine. *)
Definition combine_shifts (e : expr) : outcome (option expr) :=
  let a := arg e 1 in
  if isOperator a (getOperator e) then
    let! strength := combine_strengths (arg e 0) (arg a 0) (expr_nBits a) in
    match strength with
    | Some s => some (instance (expr_type e) (getOperator e) [s; arg a 1] 0)
    | None => Ret None
    end
  else Ret None.

(** The bits shifted in, a constant made from 64 bits. *)
Definition new_bits (newbits : bool) (sa : Z) : outcome expr :=
  makeIntegerConstant sa (if newbits then 2 ^ 64 - 1 else 0) 0.

(** [ShlSimplifier]; [newbits] is the bit shifted in. *)
Definition ShlSimplifier_rewrite (newbits : bool) (e : expr) : outcome (option expr) :=
  let w := expr_nBits e in
  let sa := shift_amount e in
  match sa, arg_constant e 1 with
  | Some sa, Some v => let wv := expr_nBits (arg e 1) in folded e wv (bv_shiftLeft wv v sa newbits)
  | _, _ =>
      let! combined := combine_shifts e in
      match combined, sa with
      | Some e', _ => Ret (Some e')
      | None, None => Ret None
      | None, Some sa =>
          if w <=? sa then some (makeIntegerConstant_bits w (fill w newbits) 0)
          else if sa =? 0 then Ret (Some (arg e 1))
          else
            let! hiBits := extract_between 0 (w - sa) (arg e 1) 0 in
            let! loBits := new_bits newbits sa in
            some (makeConcat hiBits loBits 0)
      end
  end.

(** [ShrSimplifier] *)
Definition ShrSimplifier_rewrite (newbits : bool) (e : expr) : outcome (option expr) :=
  let w := expr_nBits e in
  let sa := shift_amount e in
  match sa, arg_constant e 1 with
  | Some sa, Some v => let wv := expr_nBits (arg e 1) in folded e wv (bv_shiftRight wv v sa newbits)
  | _, _ =>
      let! combined := combine_shifts e in
      match combined, sa with
      | Some e', _ => Ret (Some e')
      | None, None => Ret None
      | None, Some sa =>
          if w <=? sa then folded e w (fill w newbits)
          else if sa =? 0 then Ret (Some (arg e 1))
          else
            let! loBits := extract_between sa w (arg e 1) 0 in
            let! hiBits := new_bits newbits sa in
            some (makeConcat hiBits loBits 0)
      end
  end.

(** ** Comparisons and division *)

(** The comparisons fold two constants by the sign of [compare]; those true of
    equal operands also test for equality, without a solver. *)
Definition compare_rewrite (compare : Z -> Z -> Z -> Z -> Z) (test : Z -> bool) (e : expr) :
  outcome (option expr) :=
  let a := arg e 0 in let b := arg e 1 in
  match integer_constant a, integer_constant b with
  | Some va, Some vb => folded_bool e (test (compare (expr_nBits a) va (expr_nBits b) vb))
  | _, _ =>
      if test 0 then
        let! same := mustEqual None a b in
        if same then folded_bool e true else Ret None
      else Ret None
  end.
Definition EqSimplifier_rewrite := compare_rewrite bv_compare (fun cmp => cmp =? 0).
Definition SgeSimplifier_rewrite := compare_rewrite bv_compareSigned (fun cmp => 0 <=? cmp).
Definition SgtSimplifier_rewrite := compare_rewrite bv_compareSigned (fun cmp => 0 <? cmp).
Definition SleSimplifier_rewrite := compare_rewrite bv_compareSigned (fun cmp => cmp <=? 0).
Definition SltSimplifier_rewrite := compare_rewrite bv_compareSigned (fun cmp => cmp <? 0).
Definition UgeSimplifier_rewrite := compare_rewrite bv_compare (fun cmp => 0 <=? cmp).
Definition UgtSimplifier_rewrite := compare_rewrite bv_compare (fun cmp => 0 <? cmp).
Definition UleSimplifier_rewrite := compare_rewrite bv_compare (fun cmp => cmp <=? 0).
Definition UltSimplifier_rewrite := compare_rewrite bv_compare (fun cmp => cmp <? 0).

(** Division and remainder fold constants of at most 64 bits; [width] is the
    operand whose width the result has. *)
Definition division_rewrite (value : expr -> option Z) (divide : Z -> Z -> outcome Z)
    (width : nat) (e : expr) : outcome (option expr) :=
  match arg_constant e 0, arg_constant e 1 with
  | Some _, Some vb =>
      if negb (bv_isEqualToZero vb) && (expr_nBits (arg e 0) <=? 64) && (expr_nBits (arg e 1) <=? 64)
      then
        let! a := get_some (value (arg e 0)) in
        let! b := get_some (value (arg e 1)) in
        let! r := divide a b in
        some (makeIntegerConstant (expr_nBits (arg e width)) (r mod 2 ^ 64) (expr_flags e))
      else Ret None
  | _, _ => Ret None
  end.
Definition ulong_div (a b : Z) : outcome Z := if b =? 0 then Fail Undefined else Ret (a / b).
Definition ulong_rem (a b : Z) : outcome Z := if b =? 0 then Fail Undefined else Ret (a mod b).
Definition SdivSimplifier_rewrite := division_rewrite toSigned long_div 0.
Definition SmodSimplifier_rewrite := division_rewrite toSigned long_rem 1.
Definition UdivSimplifier_rewrite := division_rewrite toUnsigned ulong_div 0.
Definition UmodSimplifier_rewrite := division_rewrite toUnsigned ulong_rem 1.

(** ** Sets *)

Fixpoint distinct_elements (seen cs : list expr) : list expr :=
  match cs with
  | [] => []
  | c :: cs =>
      if existsb (isEquivalentTo c) seen then distinct_elements seen cs
      else c :: distinct_elements (seen ++ [c]) cs
  end.

Definition SetSimplifier_rewrite (e : expr) : outcome (option expr) :=
  match children e with
  | [c] => Ret (Some c)
  | cs =>
      let elements := distinct_elements [] cs in
      if (length elements =? length cs)%nat then Ret None
      else
        match elements with
        | [c] => Ret (Some c)
        | _ => some (instance (expr_type e) (getOperator e) elements 0)
        end
  end.

(** * One round of the passes *)

(** [a->p()->q()], and [p] tried first, [q] when it changed nothing. *)
Definition andThen (p q : expr -> outcome (option expr)) (e : expr) : outcome (option expr) :=
  let! r := p e in
  match r with
  | None => q e
  | Some e' => let! r' := q e' in Ret (Some (default e' r'))
  end.
Definition orElse (p q : expr -> outcome (option expr)) (e : expr) : outcome (option expr) :=
  let! r := p e in
  match r with None => q e | Some e' => Ret (Some e') end.

Variable addr : expr -> Z.

Definition sorted_flat (next : expr -> outcome (option expr)) : expr -> outcome (option expr) :=
  andThen associative (andThen (commutative addr) next).

Definition simplify_step (e : expr) : outcome (option expr) :=
  match getOperator e with
  | OP_NONE => Fail AssertFail
  | OP_ADD =>
      orElse AddSimplifier_rewrite
        (orElse (sorted_flat (identity 0))
           (orElse unaryNoOp (foldConstants AddSimplifier_fold))) e
  | OP_AND =>
      orElse (sorted_flat (andThen (idempotent solver) (identity (2 ^ 64 - 1))))
        (orElse (foldConstants AndSimplifier_fold) AndSimplifier_rewrite) e
  | OP_ASR => orElse additiveNesting AsrSimplifier_rewrite e
  | OP_XOR =>
      orElse (sorted_flat (identity 0))
        (orElse (foldConstants XorSimplifier_fold) XorSimplifier_rewrite) e
  | OP_CONCAT =>
      orElse (andThen associative (foldConstants ConcatSimplifier_fold)) ConcatSimplifier_rewrite e
  | OP_CONVERT => ConvertSimplifier_rewrite e
  | OP_EQ => orElse (commutative addr) EqSimplifier_rewrite e
  | OP_EXTRACT => ExtractSimplifier_rewrite e
  | OP_INVERT => orElse (fun e => involutary e) InvertSimplifier_rewrite e
  | OP_ITE => IteSimplifier_rewrite e
  | OP_LSSB => LssbSimplifier_rewrite e
  | OP_MSSB => MssbSimplifier_rewrite e
  | OP_NE => commutative addr e
  | OP_NEGATE => orElse (fun e => involutary e) NegateSimplifier_rewrite e
  | OP_NOOP => NoopSimplifier_rewrite e
  | OP_OR =>
      orElse (sorted_flat (andThen (idempotent solver) (identity 0)))
        (orElse (foldConstants OrSimplifier_fold) OrSimplifier_rewrite) e
  | OP_REINTERPRET => ReinterpretSimplifier_rewrite e
  | OP_ROL => RolSimplifier_rewrite e
  | OP_ROR => RorSimplifier_rewrite e
  | OP_SDIV => SdivSimplifier_rewrite e
  | OP_SET => orElse (andThen associative (commutative addr)) SetSimplifier_rewrite e
  | OP_SEXTEND => SextendSimplifier_rewrite e
  | OP_SGE => SgeSimplifier_rewrite e
  | OP_SGT => SgtSimplifier_rewrite e
  | OP_SHL0 => orElse additiveNesting (ShlSimplifier_rewrite false) e
  | OP_SHL1 => orElse additiveNesting (ShlSimplifier_rewrite true) e
  | OP_SHR0 => orElse additiveNesting (ShrSimplifier_rewrite false) e
  | OP_SHR1 => orElse additiveNesting (ShrSimplifier_rewrite true) e
  | OP_SLE => SleSimplifier_rewrite e
  | OP_SLT => SltSimplifier_rewrite e
  | OP_SMOD => SmodSimplifier_rewrite e
  | OP_SMUL => sorted_flat (foldConstants SmulSimplifier_fold) e
  | OP_UDIV => UdivSimplifier_rewrite e
  | OP_UEXTEND => UextendSimplifier_rewrite e
  | OP_UGE => UgeSimplifier_rewrite e
  | OP_UGT => UgtSimplifier_rewrite e
  | OP_ULE => UleSimplifier_rewrite e
  | OP_ULT => UltSimplifier_rewrite e
  | OP_UMOD => UmodSimplifier_rewrite e
  | OP_UMUL => orElse (sorted_flat (identity 1)) (foldConstants UmulSimplifier_fold) e
  | OP_ZEROP => ZeropSimplifier_rewrite e
  | OP_FP_ABS | OP_FP_NEGATE | OP_FP_ADD | OP_FP_MUL | OP_FP_DIV | OP_FP_MULADD | OP_FP_SQRT
  | OP_FP_MOD | OP_FP_ROUND | OP_FP_MIN | OP_FP_MAX => poisonNan e
  | OP_LET | OP_READ | OP_WRITE => Ret None
  | OP_FP_LE | OP_FP_LT | OP_FP_GE | OP_FP_GT | OP_FP_EQ | OP_FP_ISNORM | OP_FP_ISSUBNORM
  | OP_FP_ISZERO | OP_FP_ISINFINITE | OP_FP_ISNAN | OP_FP_ISNEG | OP_FP_ISPOS => Ret None
  end.
End Rewrite.

(** [Interior::simplifyTop]: the passes are repeated until they change nothing.
    [fuel] bounds the rounds and the depth of the recursion together. *)
Fixpoint simplifyTop (fuel : nat) (addr : expr -> Z) (solver : option SmtSolver) (e : expr) :
  outcome expr :=
  match fuel with
  | O => Fail NoFuel
  | S fuel =>
      if isInterior e then
        let! r := simplify_step (simplifyTop fuel addr) solver addr e in
        match r with
        | None => Ret e
        | Some e' => simplifyTop fuel addr solver e'
        end
      else Ret e
  end.

(** [Interior::instance] *)
Definition make (fuel : nat) (addr : expr -> Z) (solver : option SmtSolver) (ty : type)
    (op : Operator) (cs : list expr) (flags : Z) : outcome expr :=
  instance (simplifyTop fuel addr) solver ty op cs flags.
