(* ===== verification/SymFuel.v ===== *)
(** The fuel of [simplifyTop] only bounds the computation: a result is the
    result with any more fuel, so it is the result of the program's loop and
    recursion, which have no bound. *)
From S2P Require Import Prelude BitVector SymType SymExpr SymSimplify.
Open Scope Z_scope.

(** [m'] computes what [m] computes, or [m] ran out of fuel. *)
Definition extends {A} (m m' : outcome A) : Prop := m = Fail NoFuel \/ m = m'.

Lemma extends_refl {A} (m : outcome A) : extends m m.
Proof. now right. Qed.

Lemma extends_bind {A B} (m m' : outcome A) (k k' : A -> outcome B) :
  extends m m' -> (forall a, extends (k a) (k' a)) -> extends (obind m k) (obind m' k').
Proof.
  intros [->| ->] Hk; [now left|]. destruct m'; cbn; [apply Hk|now right].
Qed.

Lemma some_extends m m' : extends m m' -> extends (some m) (some m').
Proof. intros H. apply extends_bind; [assumption|]. intros a. apply extends_refl. Qed.

(** Compare two computations that differ in their recursive calls only. *)
Ltac split_case :=
  match goal with
  | |- context [match ?x with _ => _ end] =>
      lazymatch x with context [match _ with _ => _ end] => fail | _ => destruct x end
  end.

Ltac extend_with lemmas :=
  repeat first
    [ apply extends_refl
    | lemmas
    | apply some_extends
    | apply extends_bind; [|intros ?]
    | split_case ].

Section Monotone.
Variables simplify simplify' : option SmtSolver -> expr -> outcome expr.
Hypothesis simplify_extends : forall s e, extends (simplify s e) (simplify' s e).
Variable solver : option SmtSolver.

Ltac extend := extend_with ltac:(apply simplify_extends).

Lemma instance_with_extends s ty op cs f :
  extends (instance_with simplify s ty op cs f) (instance_with simplify' s ty op cs f).
Proof. unfold instance_with. extend. Qed.

Ltac builders :=
  first [ apply instance_with_extends
        | progress unfold instance, makeExtract, makeExtend, makeConcat, makeIte, makeAdd, makeNegate,
            extract_between, additive_operand, strength_operand ].
Ltac extend ::= extend_with builders.

Lemma newFlags_extends e f : extends (newFlags simplify e f) (newFlags simplify' e f).
Proof. unfold newFlags. extend. Qed.

Lemma additiveNesting_extends e :
  extends (additiveNesting simplify solver e) (additiveNesting simplify' solver e).
Proof. unfold additiveNesting. extend. Qed.

Lemma identity_extends ident e : extends (identity simplify solver ident e) (identity simplify' solver ident e).
Proof. unfold identity. extend. Qed.

Lemma omap_list_extends f f' cs : (forall c, extends (f c) (f' c)) -> extends (omap_list f cs) (omap_list f' cs).
Proof. intros Hf. induction cs as [|c cs IH]; cbn [omap_list]; extend_with ltac:(first [apply Hf | apply IH]). Qed.

Lemma distribute_negations_extends cs :
  extends (distribute_negations simplify solver cs) (distribute_negations simplify' solver cs).
Proof.
  induction cs as [|c cs IH]; cbn [distribute_negations]; [apply extends_refl|].
  extend_with ltac:(first [apply omap_list_extends; intros ? | apply IH | builders]).
Qed.

Lemma AddSimplifier_extends e :
  extends (AddSimplifier_rewrite simplify solver e) (AddSimplifier_rewrite simplify' solver e).
Proof.
  unfold AddSimplifier_rewrite, hoist_ite.
  extend_with ltac:(first [apply distribute_negations_extends | builders]).
Qed.

Lemma remaining_extends e args : extends (remaining simplify solver e args) (remaining simplify' solver e args).
Proof. unfold remaining. extend. Qed.

Lemma OrSimplifier_extends e :
  extends (OrSimplifier_rewrite simplify solver e) (OrSimplifier_rewrite simplify' solver e).
Proof. unfold OrSimplifier_rewrite. extend_with ltac:(apply remaining_extends). Qed.

Lemma XorSimplifier_extends e :
  extends (XorSimplifier_rewrite simplify solver e) (XorSimplifier_rewrite simplify' solver e).
Proof. unfold XorSimplifier_rewrite. extend_with ltac:(apply remaining_extends). Qed.

Lemma merge_extracts_extends cs : forall acc prev lo,
  extends (merge_extracts simplify solver acc prev lo cs) (merge_extracts simplify' solver acc prev lo cs).
Proof.
  induction cs as [|c cs IH]; intros acc prev lo; cbn [merge_extracts]; [apply extends_refl|].
  extend_with ltac:(first [apply IH | builders]).
Qed.

Lemma ConcatSimplifier_extends e :
  extends (ConcatSimplifier_rewrite simplify solver e) (ConcatSimplifier_rewrite simplify' solver e).
Proof.
  unfold ConcatSimplifier_rewrite.
  extend_with ltac:(first [apply merge_extracts_extends | apply newFlags_extends | builders]).
Qed.

Lemma ConvertSimplifier_extends e :
  extends (ConvertSimplifier_rewrite simplify solver e) (ConvertSimplifier_rewrite simplify' solver e).
Proof. unfold ConvertSimplifier_rewrite. extend. Qed.

Lemma extract_parts_extends parts : forall at_ from to,
  extends (extract_parts simplify solver parts at_ from to) (extract_parts simplify' solver parts at_ from to).
Proof.
  induction parts as [|p parts IH]; intros at_ from to; cbn [extract_parts]; [apply extends_refl|].
  extend_with ltac:(first [apply IH | builders]).
Qed.

Lemma ExtractSimplifier_extends e :
  extends (ExtractSimplifier_rewrite simplify solver e) (ExtractSimplifier_rewrite simplify' solver e).
Proof.
  unfold ExtractSimplifier_rewrite. extend_with ltac:(first [apply extract_parts_extends | builders]).
Qed.

Lemma IteSimplifier_extends e :
  extends (IteSimplifier_rewrite simplify solver e) (IteSimplifier_rewrite simplify' solver e).
Proof. unfold IteSimplifier_rewrite. extend. Qed.

Lemma rotate_extends rotate e :
  extends (rotate_rewrite simplify solver rotate e) (rotate_rewrite simplify' solver rotate e).
Proof. unfold rotate_rewrite. extend. Qed.

Lemma UextendSimplifier_extends e :
  extends (UextendSimplifier_rewrite simplify solver e) (UextendSimplifier_rewrite simplify' solver e).
Proof. unfold UextendSimplifier_rewrite. extend. Qed.

Lemma SextendSimplifier_extends e :
  extends (SextendSimplifier_rewrite simplify solver e) (SextendSimplifier_rewrite simplify' solver e).
Proof. unfold SextendSimplifier_rewrite. extend. Qed.

Lemma combine_shifts_extends e :
  extends (combine_shifts simplify solver e) (combine_shifts simplify' solver e).
Proof. unfold combine_shifts, combine_strengths. extend. Qed.

Lemma ShlSimplifier_extends b e :
  extends (ShlSimplifier_rewrite simplify solver b e) (ShlSimplifier_rewrite simplify' solver b e).
Proof. unfold ShlSimplifier_rewrite. extend_with ltac:(first [apply combine_shifts_extends | builders]). Qed.

Lemma ShrSimplifier_extends b e :
  extends (ShrSimplifier_rewrite simplify solver b e) (ShrSimplifier_rewrite simplify' solver b e).
Proof. unfold ShrSimplifier_rewrite. extend_with ltac:(first [apply combine_shifts_extends | builders]). Qed.

Lemma SetSimplifier_extends e :
  extends (SetSimplifier_rewrite simplify solver e) (SetSimplifier_rewrite simplify' solver e).
Proof. unfold SetSimplifier_rewrite. extend. Qed.

Lemma orElse_extends p p' q q' e :
  extends (p e) (p' e) -> extends (q e) (q' e) -> extends (orElse p q e) (orElse p' q' e).
Proof. intros Hp Hq. unfold orElse. apply extends_bind; [assumption|]. intros [e'|]; [apply extends_refl|assumption]. Qed.

Lemma andThen_extends p p' q q' e :
  extends (p e) (p' e) -> (forall e, extends (q e) (q' e)) -> extends (andThen p q e) (andThen p' q' e).
Proof.
  intros Hp Hq. unfold andThen. apply extends_bind; [assumption|]. intros [e'|]; [|apply Hq].
  apply extends_bind; [apply Hq|]. intros r. apply extends_refl.
Qed.

Variable addr : expr -> Z.

Lemma sorted_flat_extends q q' e :
  (forall e, extends (q e) (q' e)) -> extends (sorted_flat addr q e) (sorted_flat addr q' e).
Proof.
  intros Hq. apply andThen_extends; [apply extends_refl|]. intros e1. apply andThen_extends; [apply extends_refl|assumption].
Qed.

Lemma simplify_step_extends e :
  extends (simplify_step simplify solver addr e) (simplify_step simplify' solver addr e).
Proof.
  unfold simplify_step. destruct (getOperator e);
    repeat first [ apply extends_refl | apply orElse_extends | apply sorted_flat_extends; intros ?
                 | apply andThen_extends; [|intros ?] | apply additiveNesting_extends | apply identity_extends
                 | apply AddSimplifier_extends | apply OrSimplifier_extends | apply XorSimplifier_extends
                 | apply ConcatSimplifier_extends | apply ConvertSimplifier_extends | apply ExtractSimplifier_extends
                 | apply IteSimplifier_extends | apply rotate_extends | apply UextendSimplifier_extends
                 | apply SextendSimplifier_extends | apply ShlSimplifier_extends | apply ShrSimplifier_extends
                 | apply SetSimplifier_extends ].
Qed.
End Monotone.

Lemma simplifyTop_extends addr n m s e :
  (n <= m)%nat -> extends (simplifyTop n addr s e) (simplifyTop m addr s e).
Proof.
  revert m s e. induction n as [|n IH]; intros m s e Hm; [now left|]. destruct m as [|m]; [lia|].
  cbn [simplifyTop]. destruct (isInterior e); [|apply extends_refl]. apply extends_bind.
  - apply simplify_step_extends. intros s' e'. apply IH. lia.
  - intros [e'|]; [|apply extends_refl]. apply IH. lia.
Qed.

(** A result is the same with more fuel. *)
Lemma simplifyTop_more addr n m s e e' :
  (n <= m)%nat -> simplifyTop n addr s e = Ret e' -> simplifyTop m addr s e = Ret e'.
Proof. intros Hm H. destruct (simplifyTop_extends addr n m s e Hm) as [E|E]; congruence. Qed.

(** Simplifying is idempotent: what [simplifyTop] returns, it returns again
    unchanged, and at any later time. *)
Theorem simplifyTop_idempotent addr n m s e e' :
  (n <= m)%nat -> simplifyTop n addr s e = Ret e' -> simplifyTop m addr s e' = Ret e'.
Proof.
  intros Hm H. apply (simplifyTop_more addr n m); [assumption|]. clear m Hm. revert s e e' H.
  induction n as [|n IH]; intros s e e' H; [discriminate|]. pose proof H as H0. cbn [simplifyTop] in H.
  destruct (isInterior e); [|now injection H as <-]. inv_outcome. destruct x as [e1|]; [|now injection H as <-].
  apply (simplifyTop_more addr n (S n)); [lia|]. exact (IH s e1 e' H).
Qed.

Theorem simplifyTop_idempotent_witness :
  let v := Var (mkType INTEGER 8 0) 1 0 in let c n := Const (mkType INTEGER 8 0) n 0 in
  let e := Node OP_ADD (mkType INTEGER 8 0) [c 250; v; c 10] 0 in
  let e' := Node OP_ADD (mkType INTEGER 8 0) [v; c 4] 0 in
  simplifyTop 4 (fun _ => 0) None e = Ret e' /\ simplifyTop 9 (fun _ => 0) None e' = Ret e'.
Proof.
  split; [vm_compute; reflexivity|].
  apply (simplifyTop_idempotent (fun _ => 0) 4 9 None
    (Node OP_ADD (mkType INTEGER 8 0) [Const (mkType INTEGER 8 0) 250 0; Var (mkType INTEGER 8 0) 1 0; Const (mkType INTEGER 8 0) 10 0] 0));
    [lia | vm_compute; reflexivity].
Defined.
