(* ===== verification/SymEval.v ===== *)
(** The meaning of symbolic expressions: the value of a tree under values for
    its variables, and the facts about it that do not depend on simplification.

    The code has no evaluator; this is the specification its simplifications
    are proved against.  Every node denotes a number of its width.  Operators
    the code gives no arithmetic of its own (memory, binding, floating point,
    division by zero) are the uninterpreted function [uf]. *)
From S2P Require Import Prelude BitVector SymType SymExpr.
From Stdlib Require Import Permutation Morphisms Setoid.
Open Scope Z_scope.

(** * Values *)

Definition bool_Z (b : bool) : Z := if b then 1 else 0.

(** The associative and commutative operators, as monoids over [Z] whose
    result is truncated to the width of the node. *)
Definition ac_op (op : Operator) : bool :=
  match op with
  | OP_ADD | OP_AND | OP_OR | OP_XOR | OP_UMUL | OP_SMUL => true
  | _ => false
  end.

Definition ac_comb (op : Operator) : Z -> Z -> Z :=
  match op with
  | OP_AND => Z.land | OP_OR => Z.lor | OP_XOR => Z.lxor
  | OP_UMUL | OP_SMUL => Z.mul
  | _ => Z.add
  end.
Definition ac_unit (op : Operator) : Z :=
  match op with OP_AND => -1 | OP_UMUL | OP_SMUL => 1 | _ => 0 end.

(** An operand, as its width and value, in the monoid of an operator. *)
Definition ac_inj (op : Operator) (a : Z * Z) : Z :=
  match op with OP_SMUL => tsval a.1 a.2 | _ => a.2 end.
Definition ac_val (op : Operator) (args : list (Z * Z)) : Z :=
  fold_right (ac_comb op) (ac_unit op) (map (ac_inj op) args).

(** Concatenation, the high part first. *)
Definition concat2 (a b : Z * Z) : Z * Z := (a.1 + b.1, a.2 * 2 ^ b.1 + b.2).
Definition concat_val (args : list (Z * Z)) : Z * Z := fold_right concat2 (0, 0) args.

Section Eval.
Variable uf : Operator -> Z -> list Z -> Z.

Definition eval_op1 (op : Operator) (w : Z) (a : Z * Z) : Z :=
  let (wa, a) := a in
  match op with
  | OP_INVERT => -1 - a
  | OP_NEGATE => - a
  | OP_NOOP | OP_CONVERT | OP_REINTERPRET => a
  | OP_LSSB => Z.log2 (Z.land a (- a))
  | OP_MSSB => Z.log2 a
  | OP_ZEROP => bool_Z (a =? 0)
  | _ => uf op w [a]
  end.

Definition eval_op2 (op : Operator) (w : Z) (a b : Z * Z) : Z :=
  let (wa, a) := a in let (wb, b) := b in
  match op with
  | OP_EQ => bool_Z (a =? b)
  | OP_NE => bool_Z (negb (a =? b))
  | OP_UGE => bool_Z (b <=? a) | OP_UGT => bool_Z (b <? a)
  | OP_ULE => bool_Z (a <=? b) | OP_ULT => bool_Z (a <? b)
  | OP_SGE => bool_Z (sval wb b <=? sval wa a) | OP_SGT => bool_Z (sval wb b <? sval wa a)
  | OP_SLE => bool_Z (sval wa a <=? sval wb b) | OP_SLT => bool_Z (sval wa a <? sval wb b)
  | OP_UEXTEND => b
  | OP_SEXTEND => sval wb b
  | OP_SHL0 => b * 2 ^ a
  | OP_SHL1 => b * 2 ^ a + 2 ^ a - 1
  | OP_SHR0 => b / 2 ^ a
  | OP_SHR1 => -1 - (2 ^ wb - 1 - b) / 2 ^ a
  | OP_ASR => sval wb b / 2 ^ a
  | OP_ROL => b * 2 ^ (a mod wb) + b / 2 ^ (wb - a mod wb)
  | OP_ROR => b / 2 ^ (a mod wb) + b * 2 ^ (wb - a mod wb)
  | OP_UDIV => if b =? 0 then uf op w [a; b] else a / b
  | OP_UMOD => if b =? 0 then uf op w [a; b] else a mod b
  | OP_SDIV => if b =? 0 then uf op w [a; b] else Z.quot (tsval wa a) (tsval wb b)
  | OP_SMOD => if b =? 0 then uf op w [a; b] else Z.rem (tsval wa a) (tsval wb b)
  | _ => uf op w [a; b]
  end.

Definition eval_op3 (op : Operator) (w : Z) (a b c : Z * Z) : Z :=
  match op with
  | OP_ITE => if a.2 =? 0 then c.2 else b.2
  | OP_EXTRACT => c.2 / 2 ^ a.2
  | _ => uf op w [a.2; b.2; c.2]
  end.

Definition eval_op (op : Operator) (w : Z) (args : list (Z * Z)) : Z :=
  if ac_op op then ac_val op args
  else if op_eqb op OP_CONCAT then (concat_val args).2
  else
    match args with
    | [a] => eval_op1 op w a
    | [a; b] => eval_op2 op w a b
    | [a; b; c] => eval_op3 op w a b c
    | _ => uf op w (map snd args)
    end.

Variable env : Z -> Z.

Fixpoint eval (e : expr) : Z :=
  match e with
  | Const _ v _ => v
  | Var t n _ => env n mod 2 ^ nBits t
  | Node op t cs _ => eval_op op (nBits t) (map (fun c => (expr_nBits c, eval c)) cs) mod 2 ^ nBits t
  end.

(** The width and value of an operand. *)
Definition wv (e : expr) : Z * Z := (expr_nBits e, eval e).

(** The value a node with these operands has. *)
Definition eval_list (op : Operator) (w : Z) (cs : list expr) : Z :=
  eval_op op w (map wv cs) mod 2 ^ w.

Lemma bool_Z_ok b : bv_ok 1 (bool_Z b).
Proof. destruct b; unfold bv_ok; cbn; lia. Qed.

Lemma eval_node op t cs f : eval (Node op t cs f) = eval_list op (nBits t) cs.
Proof. reflexivity. Qed.

Lemma eval_ok e : wt e -> bv_ok (expr_nBits e) (eval e).
Proof.
  destruct e as [t v f|t n f|op t cs f]; intros H; [exact (proj2 H)|..];
    apply mod_ok; apply wt_width in H; unfold expr_nBits in H; cbn in *; lia.
Qed.

(** Equivalent trees have equal values. *)
Lemma isEquivalentTo_eval a b : isEquivalentTo a b = true -> eval a = eval b.
Proof.
  revert b. induction a as [t v f|t n f|op t cs f IH] using expr_tree_ind;
    intros [t' v' f'|t' n' f'|op' t' cs' f']; try discriminate.
  - cbn. intros H. destr_bool. congruence.
  - cbn. intros H. destr_bool. congruence.
  - rewrite isEquivalentTo_node, !eval_node. intros H. destr_bool. subst.
    match goal with H : all2 _ _ _ = true |- _ => rename H into Ha end.
    unfold eval_list. do 2 f_equal. revert cs' Ha.
    induction IH as [|c cs Hc _ IH]; intros [|c' cs']; try discriminate; [reflexivity|].
    cbn. intros Ha. destr_bool. f_equal; [|now apply IH].
    unfold wv. f_equal; [|now apply Hc]. now apply isEquivalentTo_shape.
Qed.

(** A solver tells the truth about inequality in the states it is asked about. *)
Definition solver_agrees (solver : option SmtSolver) : Prop :=
  forall s a b, solver = Some s -> check_ne s a b = Ret SAT_NO -> eval a = eval b.

Lemma solver_equal_eval solver a b :
  solver_agrees solver -> solver_equal solver a b = Ret true -> eval a = eval b.
Proof.
  unfold solver_equal. intros Hs. destruct solver as [s|]; [|discriminate].
  intros H. inv_outcome. match goal with H : bool_decide _ = true |- _ => apply bool_decide_eq_true_1 in H end.
  subst. now apply (Hs s).
Qed.

Lemma isConstant_inv e : isConstant e = true -> exists t v f, e = Const t v f.
Proof. destruct e; try discriminate. eauto. Qed.
Lemma isVariable2_inv e : isVariable2 e = true -> exists t n f, e = Var t n f.
Proof. destruct e; try discriminate. eauto. Qed.

Lemma mustEqual_leaf_eval solver a b :
  solver_agrees solver -> wt a -> wt b -> mustEqual_leaf solver a b = Ret true -> eval a = eval b.
Proof.
  intros Hs Ha Hb. unfold mustEqual_leaf. intros H.
  destruct (expr_eqb a b) eqn:E; [now apply expr_eqb_eq in E as ->|].
  destruct (negb _); [discriminate|].
  destruct (isInterior b); [now apply (solver_equal_eval solver)|].
  destruct (isConstant a && isConstant b) eqn:Ec.
  - apply andb_true_iff in Ec as [Ca Cb].
    apply isConstant_inv in Ca as (t & v & f & ->). apply isConstant_inv in Cb as (t' & v' & f' & ->).
    destruct (_ && _); [|now apply (solver_equal_eval solver)].
    injection H as H. unfold expr_nBits in H. cbn in Ha, Hb, H |- *. destruct Ha as [? Ha], Hb as [? Hb].
    rewrite compare_spec, compare_same_eq in H by (assumption || lia). now apply Z.eqb_eq.
  - destruct (solver_context _); [now apply (solver_equal_eval solver)|].
    destruct (isVariable2 a && isVariable2 b) eqn:Ev; [|discriminate].
    apply andb_true_iff in Ev as [Va Vb].
    apply isVariable2_inv in Va as (t & n & f & ->). apply isVariable2_inv in Vb as (t' & n' & f' & ->).
    inv_outcome. destr_bool. cbn in *. subst.
    match goal with H : _ || _ = true |- _ => rewrite Z.eqb_refl in H; apply bool_decide_eq_true_1 in H end.
    now subst.
Qed.

Lemma mustEqual_eval solver a b :
  solver_agrees solver -> wt a -> wt b -> mustEqual solver a b = Ret true -> eval a = eval b.
Proof.
  intros Hs Ha Hb. unfold mustEqual. destruct (isInterior a).
  - destruct (isEquivalentTo a b) eqn:E; [intros _; now apply isEquivalentTo_eval|].
    now apply solver_equal_eval.
  - now apply mustEqual_leaf_eval.
Qed.
End Eval.

(** * Arithmetic modulo a power of two *)

Definition eqm (w a b : Z) : Prop := a mod 2 ^ w = b mod 2 ^ w.

#[export] Instance eqm_equivalence w : Equivalence (eqm w).
Proof. unfold eqm. split; red; congruence. Qed.

Lemma eqm_mod w a : 0 <= w -> eqm w (a mod 2 ^ w) a.
Proof. intros Hw. apply Z.mod_mod. pose proof (pow2_pos w Hw). lia. Qed.

Lemma eqm_bits w a b :
  0 <= w -> eqm w a b <-> forall i, 0 <= i < w -> Z.testbit a i = Z.testbit b i.
Proof.
  intros Hw. unfold eqm. split.
  - intros H i Hi. rewrite <- (Z.mod_pow2_bits_low a w i), H by lia. now apply Z.mod_pow2_bits_low.
  - intros H. apply Z.bits_inj'. intros i Hi. destruct (Z.ltb_spec i w).
    + rewrite !Z.mod_pow2_bits_low by assumption. now apply H.
    + now rewrite !Z.mod_pow2_bits_high by lia.
Qed.

Lemma eqm_neg w a b : w < 0 -> eqm w a b <-> a = b.
Proof. intros Hw. unfold eqm. rewrite Z.pow_neg_r, !Zmod_0_r by assumption. reflexivity. Qed.

Lemma eqm_le w w' a b : 0 <= w <= w' -> eqm w' a b -> eqm w a b.
Proof. intros Hw. rewrite !eqm_bits by lia. intros H i Hi. apply H. lia. Qed.

#[export] Instance eqm_add w : Proper (eqm w ==> eqm w ==> eqm w) Z.add.
Proof. unfold eqm. intros a a' H b b' H'. now rewrite Zplus_mod, H, H', <- Zplus_mod. Qed.
#[export] Instance eqm_mul w : Proper (eqm w ==> eqm w ==> eqm w) Z.mul.
Proof. unfold eqm. intros a a' H b b' H'. now rewrite Zmult_mod, H, H', <- Zmult_mod. Qed.
#[export] Instance eqm_opp w : Proper (eqm w ==> eqm w) Z.opp.
Proof. intros a a' H. now rewrite <- (Z.mul_1_l a), <- (Z.mul_1_l a'), <- !Z.mul_opp_l, H. Qed.
#[export] Instance eqm_sub w : Proper (eqm w ==> eqm w ==> eqm w) Z.sub.
Proof. intros a a' H b b' H'. now rewrite <- !Z.add_opp_r, H, H'. Qed.

(** A bitwise operation keeps congruence modulo a power of two. *)
Lemma eqm_bitwise (f : Z -> Z -> Z) (g : bool -> bool -> bool) :
  (forall a b i, Z.testbit (f a b) i = g (Z.testbit a i) (Z.testbit b i)) ->
  forall w, Proper (eqm w ==> eqm w ==> eqm w) f.
Proof.
  intros Hf w a a' H b b' H'. destruct (Z.lt_ge_cases w 0).
  - apply eqm_neg in H, H'; [|assumption..]. now subst.
  - rewrite eqm_bits in * by assumption. intros i Hi. now rewrite !Hf, H, H'.
Qed.

#[export] Instance eqm_land w : Proper (eqm w ==> eqm w ==> eqm w) Z.land.
Proof. exact (eqm_bitwise _ _ Z.land_spec w). Qed.
#[export] Instance eqm_lor w : Proper (eqm w ==> eqm w ==> eqm w) Z.lor.
Proof. exact (eqm_bitwise _ _ Z.lor_spec w). Qed.
#[export] Instance eqm_lxor w : Proper (eqm w ==> eqm w ==> eqm w) Z.lxor.
Proof. exact (eqm_bitwise _ _ Z.lxor_spec w). Qed.

(** ** The monoids of the commutative operators *)

#[export] Instance ac_comb_proper op w : Proper (eqm w ==> eqm w ==> eqm w) (ac_comb op).
Proof. destruct op; cbn [ac_comb]; typeclasses eauto. Qed.

Lemma ac_comb_comm op a b : ac_comb op a b = ac_comb op b a.
Proof. destruct op; cbn; auto using Z.add_comm, Z.mul_comm, Z.land_comm, Z.lor_comm, Z.lxor_comm. Qed.
Lemma ac_comb_assoc op a b c : ac_comb op a (ac_comb op b c) = ac_comb op (ac_comb op a b) c.
Proof.
  destruct op; cbn;
    first [apply Z.add_assoc | apply Z.mul_assoc | apply Z.land_assoc | apply Z.lor_assoc
          | symmetry; apply Z.lxor_assoc].
Qed.
Lemma ac_comb_unit op a : ac_comb op (ac_unit op) a = a.
Proof. destruct op; cbn; auto using Z.add_0_l, Z.mul_1_l, Z.land_m1_l, Z.lor_0_l, Z.lxor_0_l. Qed.

Lemma ac_val_cons op x l : ac_val op (x :: l) = ac_comb op (ac_inj op x) (ac_val op l).
Proof. reflexivity. Qed.

Lemma ac_val_app op l m : ac_val op (l ++ m) = ac_comb op (ac_val op l) (ac_val op m).
Proof.
  induction l as [|x l IH]; cbn [app]; [now rewrite ac_comb_unit|].
  now rewrite !ac_val_cons, IH, ac_comb_assoc.
Qed.

Lemma ac_val_one op x : ac_val op [x] = ac_inj op x.
Proof. rewrite ac_val_cons. unfold ac_val. cbn [map fold_right]. now rewrite ac_comb_comm, ac_comb_unit. Qed.

Lemma ac_val_perm op l m : Permutation l m -> ac_val op l = ac_val op m.
Proof.
  induction 1 as [|x l m _ IH|x y l|l m n _ IH1 _ IH2]; [reflexivity|..].
  - now rewrite !ac_val_cons, IH.
  - rewrite !ac_val_cons, !ac_comb_assoc. f_equal. apply ac_comb_comm.
  - congruence.
Qed.

Lemma concat2_assoc a b c : 0 <= b.1 -> 0 <= c.1 -> concat2 a (concat2 b c) = concat2 (concat2 a b) c.
Proof.
  intros Hb Hc. destruct a as [wa a], b as [wb b], c as [wc c]. unfold concat2. cbn [fst snd] in *.
  rewrite Z.pow_add_r by assumption. f_equal; lia.
Qed.

Lemma concat_val_cons x l : concat_val (x :: l) = concat2 x (concat_val l).
Proof. reflexivity. Qed.

Lemma concat_val_width l : (concat_val l).1 = fold_right Z.add 0 (map fst l).
Proof. induction l as [|x l IH]; [reflexivity|]. rewrite concat_val_cons. cbn. now rewrite IH. Qed.

(** Operands of non-negative width and values of their width. *)
Definition args_ok (l : list (Z * Z)) : Prop := Forall (fun a => 0 < a.1 /\ bv_ok a.1 a.2) l.

Lemma concat_val_ok l : args_ok l -> 0 <= (concat_val l).1 /\ bv_ok (concat_val l).1 (concat_val l).2.
Proof.
  induction 1 as [|[w v] l [Hw Hv] _ [IHw IH]]; [unfold bv_ok; cbn; lia|].
  rewrite concat_val_cons. unfold concat2, bv_ok in *. cbn [fst snd] in *.
  rewrite Z.pow_add_r by lia. pose proof (pow2_pos w ltac:(lia)). nia.
Qed.

Lemma concat_val_app l m : args_ok l -> args_ok m -> concat_val (l ++ m) = concat2 (concat_val l) (concat_val m).
Proof.
  intros Hl Hm. induction Hl as [|x l [Hw _] Hl IH]; cbn [app].
  - unfold concat2. cbn. now destruct (concat_val m).
  - rewrite !concat_val_cons, IH. apply concat2_assoc; apply concat_val_ok; assumption.
Qed.

(** Products are exact in the width of all their operands together. *)
Definition widths (l : list (Z * Z)) : Z := fold_right Z.add 0 (map fst l).

Lemma widths_ge l : args_ok l -> Z.of_nat (length l) <= widths l.
Proof.
  unfold widths. induction 1 as [|x l [Hx _] _ IH]; [reflexivity|]. cbn [map fold_right length]. lia.
Qed.

Lemma umul_bound l : args_ok l -> 0 <= ac_val OP_UMUL l <= 2 ^ widths l.
Proof.
  unfold widths. induction 1 as [|[w v] l [Hw Hv] Hl IH]; [cbn; lia|].
  rewrite ac_val_cons. cbn [ac_comb ac_inj map fold_right fst snd] in *.
  pose proof (widths_ge l Hl). unfold widths, bv_ok in *. rewrite Z.pow_add_r by lia. nia.
Qed.

Lemma umul_exact l : l <> [] -> args_ok l -> bv_ok (widths l) (ac_val OP_UMUL l).
Proof.
  intros Hne Hl. destruct Hl as [|[w v] l [Hw Hv] Hl]; [easy|].
  pose proof (umul_bound l Hl). pose proof (widths_ge l Hl).
  rewrite ac_val_cons. unfold widths, bv_ok in *. cbn [ac_comb ac_inj map fold_right fst snd] in *.
  rewrite Z.pow_add_r by lia. nia.
Qed.

Lemma tsval_bound w v : 0 < w -> bv_ok w v -> Z.abs (tsval w v) <= 2 ^ (w - 1).
Proof.
  intros Hw Hv. unfold tsval. destruct (Z.ltb_spec 1 w).
  - pose proof (sval_range w v Hw Hv). lia.
  - replace w with 1 in * by lia. unfold bv_ok in Hv.
    change (2 ^ 1) with 2 in Hv. change (2 ^ (1 - 1)) with 1. lia.
Qed.

Lemma smul_bound l : args_ok l -> Z.abs (ac_val OP_SMUL l) <= 2 ^ (widths l - Z.of_nat (length l)).
Proof.
  unfold widths. induction 1 as [|[w v] l [Hw Hv] Hl IH]; [reflexivity|].
  rewrite ac_val_cons. cbn [ac_comb ac_inj map fold_right fst snd length] in *.
  pose proof (tsval_bound w v Hw Hv). pose proof (widths_ge l Hl). unfold widths in *.
  rewrite Z.abs_mul.
  replace (w + fold_right Z.add 0 (map fst l) - Z.of_nat (S (length l)))
    with ((w - 1) + (fold_right Z.add 0 (map fst l) - Z.of_nat (length l))) by lia.
  rewrite Z.pow_add_r by lia. apply Z.mul_le_mono_nonneg; lia.
Qed.

Lemma tsval_mod w v : 0 < w -> bv_ok w v -> tsval w v mod 2 ^ w = v.
Proof.
  intros Hw Hv. unfold tsval. destruct (1 <? w); [now apply sval_mod|]. now apply Z.mod_small.
Qed.

Lemma smul_exact l : l <> [] -> args_ok l -> tsval (widths l) (ac_val OP_SMUL l mod 2 ^ widths l) = ac_val OP_SMUL l.
Proof.
  intros Hne Hl. destruct l as [|[w v] [|y l]]; [easy|..].
  - inversion Hl as [|? ? [Hw Hv] _]; subst. cbn [fst snd] in *.
    rewrite ac_val_one. unfold widths. cbn [map fold_right fst ac_inj snd]. rewrite Z.add_0_r.
    now rewrite tsval_mod.
  - pose proof (smul_bound _ Hl) as Hb. pose proof (widths_ge _ Hl) as Hw. cbn [length] in *.
    set (W := widths _) in *. unfold tsval. rewrite (proj2 (Z.ltb_lt 1 W)) by lia.
    apply sval_of_mod; [lia|].
    pose proof (pow2_le (W - Z.of_nat (S (S (length l)))) (W - 2) ltac:(lia)).
    pose proof (pow2_split 1 (W - 1) ltac:(lia)) as Hs. rewrite Z.pow_1_r in Hs.
    replace (W - 1 - 1) with (W - 2) in Hs by lia. pose proof (pow2_pos (W - 2) ltac:(lia)). lia.
Qed.
