(* ===== verification/SymGood.v ===== *)
(** The expressions the simplifications are sound for, and what it means for a
    pass over [SymbolicExpression.C]'s trees to be sound.

    [ok_node] collects what each operator needs.  The conditions that are not
    mere typing are the ones the code turns out to rely on: a conjunction of at
    most 64 bits, a product of at most 255, no shift of a shift of the same
    kind, an extraction within its operand. *)
From S2P Require Import Prelude BitVector SymType SymExpr SymSimplify SymEval.
From Stdlib Require Import Permutation Morphisms Setoid.
Open Scope Z_scope.

Definition ints (cs : list expr) : bool := forallb isIntegerExpr cs.

Definition ok_node (op : Operator) (t : type) (cs : list expr) : bool :=
  match op with
  | OP_ADD | OP_OR | OP_XOR | OP_NEGATE | OP_NOOP | OP_LSSB | OP_MSSB | OP_CONCAT
  | OP_SMUL | OP_ROL | OP_ROR | OP_EQ | OP_NE | OP_SGE | OP_SGT | OP_SLE | OP_SLT | OP_UGE | OP_UGT
  | OP_ULE | OP_ULT | OP_ZEROP | OP_SDIV | OP_SMOD | OP_UDIV | OP_UMOD | OP_UEXTEND | OP_SEXTEND =>
      ints cs
  | OP_INVERT => ints cs && (length cs =? 1)%nat
  | OP_AND => ints cs && (nBits t <=? 64)
  | OP_UMUL => ints cs && (nBits t <=? 255)
  | OP_EXTRACT => ints cs && (default 0 (toUnsigned (nth_arg cs 1)) <=? expr_nBits (nth_arg cs 2))
  | OP_SHL0 | OP_SHR0 => ints cs && negb (isOperator (nth_arg cs 1) op)
  | OP_SHL1 | OP_SHR1 => ints cs && negb (isOperator (nth_arg cs 1) op) && (nBits t <=? 64)
  | OP_ASR => ints cs && negb (isOperator (nth_arg cs 1) op) && (expr_nBits (nth_arg cs 0) <=? 64)
  | OP_CONVERT => ints cs && bool_decide (typeClass t = INTEGER)
  | OP_REINTERPRET | OP_ITE | OP_READ | OP_WRITE | OP_LET
  | OP_FP_LE | OP_FP_LT | OP_FP_GE | OP_FP_GT | OP_FP_EQ | OP_FP_ISNORM | OP_FP_ISSUBNORM
  | OP_FP_ISZERO | OP_FP_ISINFINITE | OP_FP_ISNAN | OP_FP_ISNEG | OP_FP_ISPOS => true
  | OP_SET | OP_FP_ABS | OP_FP_NEGATE | OP_FP_ADD | OP_FP_MUL | OP_FP_DIV | OP_FP_MULADD
  | OP_FP_SQRT | OP_FP_MOD | OP_FP_ROUND | OP_FP_MIN | OP_FP_MAX | OP_NONE => false
  end.

(** A simplified extraction is not of a concatenation or of an extraction. *)
Definition nf_node (op : Operator) (cs : list expr) : bool :=
  match op with
  | OP_EXTRACT => negb (isOperator (nth_arg cs 2) OP_CONCAT) && negb (isOperator (nth_arg cs 2) OP_EXTRACT)
  | _ => true
  end.

(** An integer type has no secondary width. *)
Definition type_ok (t : type) : bool :=
  negb (bool_decide (typeClass t = INTEGER)) || (secondaryWidth t =? 0).

Fixpoint good (e : expr) : bool :=
  match e with
  | Node op t cs _ => type_ok t && ok_node op t cs && nf_node op cs && forallb good cs
  | Const t _ _ | Var t _ _ => type_ok t
  end.

(** A node about to be simplified. *)
Definition pre (e : expr) : bool :=
  match e with
  | Node op t cs _ => type_ok t && ok_node op t cs && forallb good cs
  | Const t _ _ | Var t _ _ => type_ok t
  end.

Definition Good (e : expr) : Prop := wt e /\ good e = true.
Definition Pre (e : expr) : Prop := wt e /\ pre e = true.

Lemma good_pre e : good e = true -> pre e = true.
Proof. destruct e; try easy. cbn. rewrite !andb_true_iff. tauto. Qed.

Lemma Good_Pre e : Good e -> Pre e.
Proof. intros [? ?]. split; [assumption | now apply good_pre]. Qed.

Lemma forallb_Forall {A} (p : A -> bool) l : forallb p l = true <-> Forall (fun x => p x = true) l.
Proof. induction l; cbn; [easy|]. now rewrite andb_true_iff, Forall_cons, IHl. Qed.

Lemma Forall_wt_good cs : Forall Good cs <-> Forall wt cs /\ forallb good cs = true.
Proof. rewrite forallb_Forall, <- Forall_and. reflexivity. Qed.

Lemma Pre_node op t cs f :
  Pre (Node op t cs f) <->
  (0 < nBits t <= 32767 /\ type_ok t = true) /\ adjustWidth op cs t = Ret t /\ Forall Good cs /\
  ok_node op t cs = true.
Proof.
  unfold Pre. rewrite wt_node, Forall_wt_good. cbn [pre]. rewrite !andb_true_iff. tauto.
Qed.

Lemma Good_node op t cs f :
  Good (Node op t cs f) <-> Pre (Node op t cs f) /\ nf_node op cs = true.
Proof.
  unfold Good, Pre. cbn [good pre]. rewrite !andb_true_iff. tauto.
Qed.

Lemma ints_Forall cs : ints cs = true <-> Forall (fun c => isIntegerExpr c = true) cs.
Proof. apply forallb_Forall. Qed.

Lemma integer_type e : isIntegerExpr e = true -> typeClass (expr_type e) = INTEGER.
Proof. apply bool_decide_eq_true_1. Qed.

(** ** What the typing of a node says of its operands *)

Lemma adjustWidth_Ret op cs ty t :
  adjustWidth op cs ty = Ret t -> adjustWidth_op op cs ty = Ret t /\ nBits t <> 0 /\ cs <> [].
Proof.
  unfold adjustWidth. destruct cs; [discriminate|]. intros H. inv_outcome. subst.
  repeat split; [assumption| |discriminate]. now apply Z.eqb_neq, negb_true_iff.
Qed.

Lemma require_args_Ret cs n u : require_args cs n = Ret u -> length cs = n.
Proof. unfold require_args. intros H. now apply require_Ret, Nat.eqb_eq in H. Qed.
Lemma integer_arg_Ret e u : integer_arg e = Ret u -> isIntegerExpr e = true.
Proof. unfold integer_arg. intros H. now apply require_Ret in H. Qed.

(** Read the typing equation of a node. *)
Ltac inv_width H :=
  let Hn := fresh "Hn" in let Hne := fresh "Hne" in
  apply adjustWidth_Ret in H; destruct H as (H & Hn & Hne);
  cbn [adjustWidth_op] in H; unfold adjustWidth_fp in H;
  inv_outcome;
  repeat match goal with
  | H : require_args _ _ = Ret _ |- _ => apply require_args_Ret in H
  | H : integer_arg _ = Ret _ |- _ => apply integer_arg_Ret in H
  | H : type_integer _ = Ret _ |- _ => apply type_integer_Ret in H; destruct H
  end;
  destr_bool.

(** Look up the operands of a node in a list of known length. *)
Ltac cbn_args := unfold arg, nth_arg in *; cbn [lookup list_lookup default from_option id children] in *.

(** Name the operands of a node with a known number of them. *)
Ltac name_args cs :=
  match goal with
  | H : length cs = 1%nat |- _ =>
      let a := fresh "a" in destruct cs as [|a [|? ?]]; try discriminate H; clear H
  | H : length cs = 2%nat |- _ =>
      let a := fresh "a" in let b := fresh "b" in
      destruct cs as [|a [|b [|? ?]]]; try discriminate H; clear H
  | H : length cs = 3%nat |- _ =>
      let a := fresh "a" in let b := fresh "b" in let c := fresh "c" in
      destruct cs as [|a [|b [|c [|? ?]]]]; try discriminate H; clear H
  end; cbn_args.

Lemma width_default cs t : adjustWidth_default cs = Ret t -> Forall (fun c => expr_type c = t) cs.
Proof.
  unfold adjustWidth_default. intros H. inv_outcome. subst.
  match goal with H : forallb _ _ = true |- _ => apply forallb_Forall in H; apply (Forall_impl _ _ _ H) end.
  intros c Hc. now apply bool_decide_eq_true_1 in Hc.
Qed.

(** Operators whose operands all have the type of the result. *)
Definition same_type_op (op : Operator) : bool :=
  match op with
  | OP_ADD | OP_AND | OP_OR | OP_XOR => true
  | _ => false
  end.

Lemma total_width_widths cs n : fold_left (fun n c => n + expr_nBits c) cs n = n + fold_right Z.add 0 (map expr_nBits cs).
Proof. revert n. induction cs as [|c cs IH]; intros n; cbn; [lia|]. rewrite IH. lia. Qed.

(** The width of a product or a concatenation. *)
Lemma sum_width op cs ty t :
  op = OP_UMUL \/ op = OP_SMUL \/ op = OP_CONCAT -> adjustWidth op cs ty = Ret t ->
  typeClass t = INTEGER /\ nBits t = fold_right Z.add 0 (map expr_nBits cs).
Proof.
  intros Hop H. rewrite <- (Z.add_0_l (fold_right _ _ _)), <- total_width_widths.
  destruct Hop as [->|[->| ->]]; inv_width H; subst; now split.
Qed.

(** ** Types of good expressions *)

Lemma Pre_type_ok e : Pre e -> type_ok (expr_type e) = true.
Proof. intros [_ H]. destruct e; cbn in *; destr_bool; assumption. Qed.

Lemma type_ok_integer t : type_ok t = true -> typeClass t = INTEGER -> t = mkType INTEGER (nBits t) 0.
Proof.
  destruct t as [c w s]. unfold type_ok. cbn. intros H ->.
  rewrite bool_decide_eq_true_2 in H by reflexivity. cbn in H. apply Z.eqb_eq in H. now subst.
Qed.

Lemma Pre_integer_type e : Pre e -> isIntegerExpr e = true -> expr_type e = mkType INTEGER (expr_nBits e) 0.
Proof. intros He Hi. apply type_ok_integer; [now apply Pre_type_ok | now apply integer_type]. Qed.

Lemma adjustWidth_type_ok op cs ty t :
  Forall Good cs -> type_ok ty = true -> adjustWidth op cs ty = Ret t -> type_ok t = true.
Proof.
  intros Hcs Hty H. apply adjustWidth_Ret in H as (H & _ & Hne).
  destruct (adjustWidth_op_source _ _ _ _ Hne H) as [(i & Hi & ->)|[->|[w Hw]]].
  - apply Pre_type_ok, Good_Pre. unfold nth_arg. apply lookup_lt_is_Some_2 in Hi as [c Hc].
    rewrite Hc. exact (Forall_lookup_1 _ _ _ _ Hcs Hc).
  - assumption.
  - now apply type_integer_Ret in Hw as [-> _].
Qed.

(** ** Constants that are made *)

Lemma makeIntegerConstant_bits_ok w v f :
  0 < w <= 32767 -> makeIntegerConstant_bits w v f = Ret (Const (mkType INTEGER w 0) v f).
Proof.
  intros Hw. unfold makeIntegerConstant_bits. rewrite type_integer_ok by lia. cbn [obind].
  unfold createConstant. cbn [nBits]. rewrite Z.eqb_refl, (proj2 (Z.eqb_neq w 0)) by lia. reflexivity.
Qed.

Lemma makeIntegerConstant_ok w v f :
  0 < w <= 32767 -> makeIntegerConstant w v f = Ret (Const (mkType INTEGER w 0) (bv_fromInteger w v) f).
Proof. apply makeIntegerConstant_bits_ok. Qed.

(** Take a node apart: its typing, then its operands. *)
Ltac open_node Hp :=
  apply Pre_node in Hp; destruct Hp as ([?Hw ?Hto] & ?Ha & ?Hg & ?Hok);
  cbn [ok_node ints forallb] in *.

Ltac split_Forall :=
  repeat match goal with
  | H : Forall _ (_ :: _) |- _ => apply Forall_cons in H; destruct H
  | H : Forall _ [] |- _ => clear H
  end.

(** Unfold the value of a node with a known operator. *)
Ltac eval_args :=
  unfold eval_list, eval_op; cbn [ac_op op_eqb op_index Z.eqb Pos.eqb map eval_op1 eval_op2 eval_op3 wv fst snd].
