(* ===== verification/SymTyping.v ===== *)
(** The type system of symbolic expressions: which trees are well typed, by a
    rule for each group of operators, and that the constructor of
    [SymbolicExpression.C]'s interior nodes ([Interior::adjustWidth]) accepts
    exactly the nodes that a rule types, with the type that it gives. *)
From S2P Require Import Prelude BitVector SymType SymExpr SymSimplify SymGood.
Open Scope Z_scope.

#[local] Notation int w := (mkType INTEGER w 0).
#[local] Notation width := expr_nBits.

(** * The rules *)

Definition integer (e : expr) : Prop := typeClass (expr_type e) = INTEGER.
Definition floating (e : expr) : Prop := typeClass (expr_type e) = FP.

(** A memory state, of an address width and a value width. *)
Definition memory (e : expr) (address value : Z) : Prop := expr_type e = mkType MEMORY value address.

(** An integer constant of at most 64 bits and its value. *)
Inductive literal : expr -> Z -> Prop :=
  | Literal t v f : typeClass t = INTEGER -> nBits t <= 64 -> literal (Const t v f) v.

Definition total_width (cs : list expr) : Z := foldr (fun c n => width c + n) 0 cs.

Definition shift_ops : list Operator := [OP_ASR; OP_ROL; OP_ROR; OP_SHL0; OP_SHL1; OP_SHR0; OP_SHR1].
Definition relations : list Operator := [OP_EQ; OP_NE; OP_SGE; OP_SGT; OP_SLE; OP_SLT; OP_UGE; OP_UGT; OP_ULE; OP_ULT].
Definition fp_relations : list Operator := [OP_FP_LE; OP_FP_LT; OP_FP_GE; OP_FP_GT; OP_FP_EQ].
Definition fp_tests : list Operator :=
  [OP_FP_ISNORM; OP_FP_ISSUBNORM; OP_FP_ISZERO; OP_FP_ISINFINITE; OP_FP_ISNAN; OP_FP_ISNEG; OP_FP_ISPOS].
Definition same_type_ops : list Operator :=
  [OP_ADD; OP_AND; OP_OR; OP_XOR; OP_INVERT; OP_NOOP; OP_SET; OP_NONE;
   OP_FP_ABS; OP_FP_NEGATE; OP_FP_ADD; OP_FP_MUL; OP_FP_DIV; OP_FP_MULADD; OP_FP_SQRT; OP_FP_MOD; OP_FP_ROUND; OP_FP_MIN; OP_FP_MAX].

(** [node_type ty op cs t]: the operator [op] on the operands [cs] has type [t],
    where [ty] is the type that a conversion or a reinterpretation is asked for. *)
Inductive node_type (ty : type) : Operator -> list expr -> type -> Prop :=
  | T_same op a cs : In op same_type_ops -> Forall (fun c => expr_type c = expr_type a) cs -> node_type ty op (a :: cs) (expr_type a)
  | T_shift op n a : In op shift_ops -> integer n -> integer a -> node_type ty op [n; a] (int (width a))
  | T_relation op a b : In op relations -> integer a -> integer b -> width a = width b -> node_type ty op [a; b] (int 1)
  | T_concat cs : node_type ty OP_CONCAT cs (int (total_width cs))
  | T_extract i j a from to : literal i from -> literal j to -> from < to -> integer a \/ floating a ->
      node_type ty OP_EXTRACT [i; j; a] (int (to - from))
  | T_signed_extend n a w : literal n w -> integer a -> node_type ty OP_SEXTEND [n; a] (int w)
  | T_unsigned_extend n a w : literal n w -> integer a \/ floating a -> node_type ty OP_UEXTEND [n; a] (int w)
  | T_convert a : node_type ty OP_CONVERT [a] ty
  | T_reinterpret a : width a = nBits ty -> node_type ty OP_REINTERPRET [a] ty
  | T_ite c a b : integer c -> width c = 1 -> expr_type a = expr_type b -> node_type ty OP_ITE [c; a; b] (expr_type a)
  | T_let x v e : node_type ty OP_LET [x; v; e] (expr_type e)
  | T_unary op a : In op [OP_LSSB; OP_MSSB; OP_NEGATE] -> integer a -> node_type ty op [a] (expr_type a)
  | T_zerop a : integer a -> node_type ty OP_ZEROP [a] (int 1)
  | T_quotient op a b : In op [OP_SDIV; OP_UDIV] -> integer a -> integer b -> node_type ty op [a; b] (expr_type a)
  | T_remainder op a b : In op [OP_SMOD; OP_UMOD] -> integer a -> integer b -> node_type ty op [a; b] (expr_type b)
  | T_product op cs : In op [OP_SMUL; OP_UMUL] -> Forall integer cs -> node_type ty op cs (int (total_width cs))
  | T_read m p wa wv : memory m wa wv -> integer p -> width p = wa -> node_type ty OP_READ [m; p] (int wv)
  | T_write m p v wa wv : memory m wa wv -> integer p -> width p = wa -> integer v -> width v = wv ->
      node_type ty OP_WRITE [m; p; v] (mkType MEMORY wv wa)
  | T_fp_relation op a b : In op fp_relations -> floating a -> floating b -> node_type ty op [a; b] (int 1)
  | T_fp_test op a : In op fp_tests -> floating a -> node_type ty op [a] (int 1).

(** The widths that a type can have. *)
Definition width_in_range (t : type) : Prop := 0 < nBits t <= 32767.

(** Every node of a tree has the type of its rule, a constant fits its width. *)
Inductive well_typed : expr -> Prop :=
  | WT_const t v f : width_in_range t -> 0 <= v < 2 ^ nBits t -> well_typed (Const t v f)
  | WT_var t n f : width_in_range t -> well_typed (Var t n f)
  | WT_node op t cs f : width_in_range t -> Forall well_typed cs -> node_type t op cs t -> well_typed (Node op t cs f).

(** * The code follows the rules *)

Lemma isIntegerExpr_spec e : isIntegerExpr e = true <-> integer e.
Proof. apply bool_decide_eq_true. Qed.

Lemma isFloatingPointExpr_spec e : isFloatingPointExpr e = true <-> floating e.
Proof. apply bool_decide_eq_true. Qed.

Lemma isScalarExpr_spec e : isScalarExpr e = true <-> integer e \/ floating e.
Proof. unfold isScalarExpr. now rewrite orb_true_iff, isIntegerExpr_spec, isFloatingPointExpr_spec. Qed.

Lemma total_width_fold cs n : fold_left (fun n c => n + width c) cs n = n + total_width cs.
Proof. revert n. induction cs as [|c cs IH]; intros n; cbn [fold_left]; [cbn; lia|]. rewrite IH. unfold total_width. cbn [foldr]. lia. Qed.

Lemma literal_spec e n : wt e -> literal e n <-> isIntegerConstant e = true /\ (width e <=? 64) = true /\ default 0 (toUnsigned e) = n.
Proof.
  intros Hw. destruct e as [t v f| |]; [|split; [intros H; inversion H|intros (H & _); unfold isIntegerConstant in H; now rewrite andb_false_r in H]..].
  unfold isIntegerConstant. rewrite andb_true_r, isIntegerExpr_spec. unfold integer, width, expr_type, toUnsigned, integer_constant. cbn [wt] in Hw.
  split.
  - intros H. inversion H as [t' v' f' Ht Hn]; subst. rewrite bool_decide_eq_true_2 by assumption. unfold expr_nBits, expr_type.
    rewrite (proj2 (Z.leb_le _ _) Hn), toInteger_small by (apply Hw || lia). now repeat split.
  - intros (Ht & Hn & Hv). unfold expr_nBits, expr_type in Hv. rewrite bool_decide_eq_true_2, Hn, toInteger_small in Hv by (assumption || apply Hw || (apply Z.leb_le in Hn; lia)).
    cbn [default from_option id] in Hv. subst v. constructor; [assumption|now apply Z.leb_le].
Qed.

Lemma memory_at e wa : isMemoryExpr e = true -> domainWidth e = Ret wa -> memory e wa (width e).
Proof.
  intros H Hd. apply bool_decide_eq_true in H. unfold domainWidth, addressWidth in Hd. rewrite bool_decide_eq_true_2 in Hd by assumption.
  injection Hd as <-. unfold memory, width. destruct (expr_type e) as [c n s]. cbn in *. now subst c.
Qed.

Lemma same_types cs t : forallb (fun c => bool_decide (expr_type c = t)) cs = true <-> Forall (fun c => expr_type c = t) cs.
Proof. rewrite forallb_Forall. apply Forall_proper; [|reflexivity]. intros c. apply bool_decide_eq_true. Qed.

Lemma all_integers cs : forallb isIntegerExpr cs = true <-> Forall integer cs.
Proof. rewrite forallb_Forall. apply Forall_proper; [|reflexivity]. intros c. apply isIntegerExpr_spec. Qed.

Lemma memory_value m wa wv : memory m wa wv -> isMemoryExpr m = true /\ domainWidth m = Ret wa /\ width m = wv.
Proof. unfold memory, isMemoryExpr, has_class, domainWidth, addressWidth, width, expr_nBits. now intros ->. Qed.

(** What the tests of [adjustWidth] say. *)
Ltac read_tests :=
  repeat match goal with
  | H : require_args _ _ = Ret _ |- _ => apply require_args_Ret in H
  | H : integer_arg _ = Ret _ |- _ => apply integer_arg_Ret in H
  | H : type_integer _ = Ret _ |- _ => apply type_integer_Ret in H; destruct H as [H ?]
  | H : isIntegerExpr _ = true |- _ => apply isIntegerExpr_spec in H
  | H : isFloatingPointExpr _ = true |- _ => apply isFloatingPointExpr_spec in H
  | H : isScalarExpr _ = true |- _ => apply isScalarExpr_spec in H
  | H : forallb isIntegerExpr _ = true |- _ => apply all_integers in H
  | H : forallb _ _ = true |- _ => apply same_types in H
  | H : isMemoryExpr ?e = true, Hd : domainWidth ?e = Ret ?w |- _ => apply (memory_at e w H) in Hd; clear H
  | H : bool_decide _ = true |- _ => apply bool_decide_eq_true in H
  | H : (_ =? _) = true |- _ => apply Z.eqb_eq in H
  | H : (_ <? _) = true |- _ => apply Z.ltb_lt in H
  end.

Lemma literal_at e : wt e -> isIntegerConstant e = true -> (width e <=? 64) = true -> literal e (default 0 (toUnsigned e)).
Proof. intros Hw Hc Hn. now apply literal_spec. Qed.

Create HintDb typing.
#[export] Hint Constructors node_type : typing.
#[export] Hint Resolve literal_at : typing.
#[export] Hint Extern 1 (In _ _) => cbn; tauto : typing.

(** What it accepts has a rule. *)
Lemma adjustWidth_op_typed op cs ty t :
  cs <> [] -> Forall wt cs -> nBits t <> 0 -> adjustWidth_op op cs ty = Ret t -> node_type ty op cs t.
Proof.
  intros Hne Hcs Ht H. destruct op; cbn [adjustWidth_op] in H; unfold adjustWidth_fp, adjustWidth_default in H; inv_outcome; read_tests; subst.
  all: repeat match goal with H : length ?l = _ |- _ => name_args l end; split_Forall.
  all: try (rewrite total_width_fold, Z.add_0_l).
  all: try solve [eauto 6 with typing | destruct cs as [|a cs]; [easy|]; cbn_args; split_Forall; eauto with typing].
  - match goal with H : memory _ _ _ |- _ => rewrite H end. eauto with typing.
  - match goal with H : (if ?c then _ else _) = _ |- _ => destruct c eqn:E; inv_outcome; read_tests; subst end; [auto with typing|now elim Ht].
Qed.

(** A rule's premises pass the tests. *)
Ltac pass_tests :=
  repeat match goal with
  | H : literal ?e ?n, Hw : wt ?e |- _ => apply (literal_spec e n Hw) in H as (? & ? & ?)
  | H : memory ?m ?wa ?wv |- _ => pose proof (memory_value m wa wv H) as (? & ? & ?); unfold memory in H
  | H : integer ?e |- _ => apply isIntegerExpr_spec in H
  | H : floating ?e |- _ => apply isFloatingPointExpr_spec in H
  | H : integer ?e \/ floating ?e |- _ => apply isScalarExpr_spec in H
  | H : Forall integer ?cs |- _ => apply all_integers in H
  | H : Forall (fun c => expr_type c = _) ?cs |- _ => apply same_types in H
  | H : ?x = true |- context [?x] => rewrite H
  | H : domainWidth ?e = _ |- context [domainWidth ?e] => rewrite H
  | H : width ?e = _ |- context [width ?e] => rewrite H
  | H : default 0 (toUnsigned ?e) = _ |- context [toUnsigned ?e] => rewrite H
  | H : ?x < ?y |- context [?x <? ?y] => rewrite (proj2 (Z.ltb_lt x y) H)
  | |- context [?x =? ?x] => rewrite Z.eqb_refl
  | H : ?x = ?y |- context [bool_decide (?x = ?y)] => rewrite (bool_decide_eq_true_2 _ H)
  | |- context [bool_decide (?x = ?x)] => rewrite (bool_decide_eq_true_2 (x = x) eq_refl)
  | |- _ => progress cbn [require_ obind forallb andb]
  end.

(** The rules type only what it accepts. *)
Lemma node_type_adjustWidth_op op cs ty t :
  Forall wt cs -> width_in_range t -> node_type ty op cs t -> adjustWidth_op op cs ty = Ret t.
Proof.
  intros Hcs [_ Ht] H. destruct H; repeat match goal with H : In _ _ |- _ => cbn in H; repeat destruct H as [<-|H]; [..|contradiction] end.
  all: cbn [adjustWidth_op]; unfold adjustWidth_fp, adjustWidth_default, require_args, integer_arg; cbn_args; split_Forall; cbn [length Nat.eqb require_ obind].
  all: rewrite ?total_width_fold, ?Z.add_0_l; pass_tests; try (apply type_integer_ok; assumption || lia).
  all: reflexivity || congruence.
Qed.

Lemma node_type_operands ty op cs t : node_type ty op cs t -> nBits t <> 0 -> cs <> [].
Proof. intros H Ht ->. inversion H; subst; now elim Ht. Qed.

Lemma adjustWidth_typed op cs ty t :
  Forall wt cs -> 0 <= nBits ty <= 32767 -> adjustWidth op cs ty = Ret t <-> node_type ty op cs t /\ width_in_range t.
Proof.
  intros Hcs Hty. split.
  - intros H. pose proof (adjustWidth_wt op cs ty t 0 Hcs Hty H) as Hw. apply wt_node in Hw as (Hr & _ & _).
    split; [|exact Hr]. apply adjustWidth_Ret in H as (H & Hn & Hne). now apply adjustWidth_op_typed.
  - intros [H Hr]. unfold width_in_range in Hr. pose proof (node_type_operands ty op cs t H ltac:(lia)) as Hne.
    unfold adjustWidth. destruct cs as [|c cs]; [easy|]. rewrite (node_type_adjustWidth_op op _ ty t Hcs Hr H). cbn [obind].
    now rewrite (proj2 (Z.eqb_neq _ _)) by lia.
Qed.

(** Well-typedness by the rules is that of the code. *)
Lemma well_typed_wt e : well_typed e <-> wt e.
Proof.
  induction e as [t v f|t n f|op t cs f IH] using expr_tree_ind.
  - split; [now inversion 1|]. intros [H1 H2]. now constructor.
  - split; [now inversion 1|]. now constructor.
  - assert (Hcs : Forall well_typed cs <-> Forall wt cs) by (induction IH as [|c cs' Hc _ IHl]; [easy|]; rewrite !Forall_cons; tauto).
    rewrite wt_node. split.
    + inversion 1 as [| |op' t' cs' f' Hr Hall Ht]; subst. apply Hcs in Hall. split; [exact Hr|]. split; [|exact Hall].
      apply adjustWidth_typed; [exact Hall|destruct Hr; lia|now split].
    + intros (Hr & Ha & Hall). pose proof (proj1 (adjustWidth_typed op cs t t Hall ltac:(lia)) Ha) as [Ht _]. constructor; try assumption. now apply Hcs.
Qed.

(** * The constructor of nodes *)

(** C29. Construction of an interior node from well-typed operands: the
    constructor accepts exactly the nodes that a rule of the type system types
    ([node_type], one rule for each group of operators), with the type of the
    rule, which must be the one that is requested when one is; the node carries
    exactly the flags of the request and of its operands, and is well typed. *)
Theorem interior_well_typed ty op cs flags :
  Forall well_typed cs -> 0 <= nBits ty <= 32767 ->
  (forall e, interior ty op cs flags = Ret e <->
    exists t f, e = Node op t cs f /\ node_type ty op cs t /\ 0 < nBits t <= 32767 /\ (typeClass ty <> INVALID -> t = ty) /\
      forall i, Z.testbit f i = Z.testbit flags i || existsb (fun c => Z.testbit (expr_flags c) i) cs) /\
  (forall e, interior ty op cs flags = Ret e -> well_typed e).
Proof.
  intros Hcs Hty. assert (Hwt : Forall wt cs) by (revert Hcs; apply Forall_proper; [intros c; symmetry; apply well_typed_wt|reflexivity]). split.
  - intros e. split.
    + intros H. apply interior_Ret in H as (t & -> & Ha & Ht). apply adjustWidth_typed in Ha as [Hn Hr]; [|assumption..].
      exists t, (adjustBitFlags flags cs). repeat split; try assumption; try apply Hr. apply testbit_fold_flags.
    + intros (t & f & -> & Hn & Hr & Ht & Hf). unfold interior. rewrite (proj2 (adjustWidth_typed op cs ty t Hwt Hty) (conj Hn Hr)). cbn [obind].
      assert (E : adjustBitFlags flags cs = f) by (apply Z.bits_inj'; intros i _; now rewrite testbit_fold_flags, Hf). rewrite E.
      unfold type_isValid. destruct (decide (typeClass ty <> INVALID)) as [Hv|Hv].
      * rewrite (bool_decide_eq_true_2 (ty = t)) by (symmetry; auto). now rewrite orb_true_r.
      * now rewrite bool_decide_eq_false_2.
  - intros e H. apply well_typed_wt. exact (interior_wt _ _ _ _ _ Hwt Hty H).
Qed.

(** Operands of two widths have a concatenation, and no sum. *)
Theorem interior_well_typed_witness :
  let v w := Var (int w) 3 2 in
  interior type_none OP_CONCAT [v 8; v 16] 1 = Ret (Node OP_CONCAT (int 24) [v 8; v 16] 3) /\
  well_typed (Node OP_CONCAT (int 24) [v 8; v 16] 3) /\
  forall e, interior type_none OP_ADD [v 8; v 16] 1 <> Ret e.
Proof.
  intros v.
  assert (Hv : Forall well_typed [v 8; v 16]) by (repeat constructor; cbn; lia).
  assert (H0 : 0 <= nBits type_none <= 32767) by (cbn; lia).
  assert (E : interior type_none OP_CONCAT [v 8; v 16] 1 = Ret (Node OP_CONCAT (int 24) [v 8; v 16] 3)) by reflexivity.
  split; [exact E|]. split; [exact (proj2 (interior_well_typed type_none OP_CONCAT [v 8; v 16] 1 Hv H0) _ E)|].
  intros e H. apply (proj1 (interior_well_typed type_none OP_ADD [v 8; v 16] 1 Hv H0)) in H as (t & f & _ & Hn & _).
  inversion Hn as [op a cs _ Hs| | | | | | | | | | | | | | | | | | |]; subst; try (match goal with H : In _ _ |- _ => cbn in H; intuition discriminate end).
  apply Forall_cons in Hs as [Hs _]. discriminate Hs.
Defined.
