(* ===== verification/SymAC.v ===== *)
(** Soundness of the passes over associative and commutative operators
    ([Interior::associative], [commutative], [idempotent], [identity],
    [foldConstants] and the folding of every operator, in
    [SymbolicExpression.C]). *)
From S2P Require Import Prelude BitVector SymType SymExpr SymSimplify SymEval SymGood.
From Stdlib Require Import Permutation Morphisms Setoid.
Open Scope Z_scope.

Section Sound.
Variable uf : Operator -> Z -> list Z -> Z.
Variable ctx : (Z -> Z) -> Prop.

(** [e] has the type [t] and the value [v] in every state of [ctx]. *)
Definition denotes (P : expr -> Prop) (e : expr) (t : type) (v : (Z -> Z) -> Z) : Prop :=
  P e /\ expr_type e = t /\ forall env, ctx env -> eval uf env e = v env.

Definition sound_pass (op : Operator) (p : expr -> outcome (option expr)) : Prop :=
  forall t cs f r, Pre (Node op t cs f) -> p (Node op t cs f) = Ret (Some r) ->
  denotes Pre r t (fun env => eval_list uf env op (nBits t) cs).

(** A sound pass whose result is again a node of the operator. *)
Definition keeping_pass (op : Operator) (p : expr -> outcome (option expr)) : Prop :=
  sound_pass op p /\
  forall t cs f r, Pre (Node op t cs f) -> p (Node op t cs f) = Ret (Some r) ->
  isInterior r = true /\ getOperator r = op.

Lemma orElse_sound op p q : sound_pass op p -> sound_pass op q -> sound_pass op (orElse p q).
Proof.
  intros Hp Hq t cs f r Hpre H. unfold orElse in H. inv_outcome.
  destruct x; inv_outcome; subst; [now apply (Hp t cs f) | now apply (Hq t cs f r)].
Qed.

Lemma andThen_sound op p q : keeping_pass op p -> sound_pass op q -> sound_pass op (andThen p q).
Proof.
  intros [Hp Hk] Hq t cs f r Hpre H. unfold andThen in H. inv_outcome.
  destruct x as [e'|]; [|now apply (Hq t cs f r)]. inv_outcome. subst.
  destruct (Hp _ _ _ _ Hpre H0) as (He & Ht & Hv), (Hk _ _ _ _ Hpre H0) as [Hi Hop].
  destruct x as [r|]; cbn [default from_option] in *; [|now apply (Hp t cs f)].
  destruct e' as [| |op' t' cs' f']; try discriminate. cbn in Ht, Hop. subst.
  destruct (Hq _ _ _ _ He H1) as (Hr & Hrt & Hrv). repeat split; try apply Hr; [assumption|].
  intros env Henv. rewrite Hrv, <- Hv by assumption. reflexivity.
Qed.

Lemma andThen_keeping op p q : keeping_pass op p -> keeping_pass op q -> keeping_pass op (andThen p q).
Proof.
  intros Hp [Hq Hqk]. split; [now apply andThen_sound|].
  destruct Hp as [Hp Hk]. intros t cs f r Hpre H. unfold andThen in H. inv_outcome.
  destruct x as [e'|]; [|now apply (Hqk t cs f r)]. inv_outcome. subst.
  destruct (Hp _ _ _ _ Hpre H0) as (He & Ht & Hv), (Hk _ _ _ _ Hpre H0) as [Hi Hop].
  destruct x as [r|]; cbn [default] in *; [|now split].
  destruct e' as [| |op' t' cs' f']; try discriminate. cbn in Ht, Hop. subst.
  now apply (Hqk _ _ _ _ He H1).
Qed.

(** ** Rebuilding a node *)

Lemma interior_sound ty op cs' flags r :
  0 <= nBits ty <= 32767 -> type_ok ty = true -> Forall Good cs' ->
  (forall t, adjustWidth op cs' ty = Ret t -> ok_node op t cs' = true) ->
  interior ty op cs' flags = Ret r ->
  exists t, adjustWidth op cs' ty = Ret t /\ (typeClass ty <> INVALID -> t = ty) /\
    denotes Pre r t (fun env => eval_list uf env op (nBits t) cs') /\
    isInterior r = true /\ getOperator r = op /\ children r = cs'.
Proof.
  intros Hty Hto Hcs Hok H. apply interior_Ret in H as (t & -> & Ha & Ht).
  exists t. split; [assumption|]. split; [assumption|]. split; [|now repeat split].
  split; [|now split].
  pose proof (proj1 (Forall_wt_good cs') Hcs) as [Hw Hg].
  pose proof (adjustWidth_wt op cs' ty t (adjustBitFlags flags cs') Hw Hty Ha) as Hwt.
  split; [assumption|]. cbn [pre]. rewrite (Hok t Ha), (adjustWidth_type_ok op cs' ty t) by assumption.
  exact Hg.
Qed.

Lemma rebuild_sound op t cs f cs' r :
  Pre (Node op t cs f) -> typeClass t = INTEGER -> Forall Good cs' -> ok_node op t cs' = true ->
  (forall env, ctx env -> eval_list uf env op (nBits t) cs' = eval_list uf env op (nBits t) cs) ->
  rebuild (Node op t cs f) cs' = Ret (Some r) ->
  denotes Pre r t (fun env => eval_list uf env op (nBits t) cs) /\
  isInterior r = true /\ getOperator r = op /\ children r = cs'.
Proof.
  intros Hpre Hc Hcs Hok Hv H. unfold rebuild, some in H. inv_outcome.
  subst. apply Pre_node in Hpre as (Hw & _).
  assert (Hinv : typeClass t <> INVALID) by (rewrite Hc; discriminate).
  destruct (interior_Ret _ _ _ _ _ H0) as (t0 & _ & Ha & Ht0). cbn [expr_type getOperator] in *.
  pose proof (Ht0 Hinv). subst t0.
  destruct (interior_sound t op cs' 0 r) as (t' & Ha' & Ht' & (Hp & Hrt & Hre) & Hr); try assumption; [lia|tauto| |].
  { intros t' Ha'. rewrite Ha in Ha'. now injection Ha' as <-. }
  rewrite Ha in Ha'. injection Ha' as <-. split; [|assumption].
  repeat split; try apply Hp; [assumption|]. intros env Henv. now rewrite Hre, Hv.
Qed.

(** * Associative operators *)

Definition assoc_op (op : Operator) : bool := ac_op op || op_eqb op OP_CONCAT.

(** An operand of an associative node of width [w]. *)
Definition elem (op : Operator) (w : Z) (c : expr) : Prop :=
  Good c /\ isIntegerExpr c = true /\ (same_type_op op = true -> expr_nBits c = w).

Definition width_bound (op : Operator) (w : Z) : Prop :=
  match op with OP_AND => w <= 64 | OP_UMUL => w <= 255 | _ => True end.

Lemma assoc_cases op :
  assoc_op op = true -> same_type_op op = true \/ op = OP_UMUL \/ op = OP_SMUL \/ op = OP_CONCAT.
Proof. clear uf ctx. destruct op; cbn; intros H; try discriminate H; tauto. Qed.

Lemma same_type_width op cs ty : same_type_op op = true -> adjustWidth_op op cs ty = adjustWidth_default cs.
Proof. now destruct op. Qed.

Lemma Pre_elems op t cs f :
  assoc_op op = true -> Pre (Node op t cs f) ->
  Forall (elem op (nBits t)) cs /\ typeClass t = INTEGER /\ cs <> [] /\ width_bound op (nBits t).
Proof.
  clear ctx. intros Hop Hp. apply Pre_node in Hp as (Hw & Ha & Hg & Hok).
  assert (Hi : ints cs = true /\ width_bound op (nBits t)).
  { destruct op; try discriminate; cbn [ok_node width_bound] in *; destr_bool; split; auto;
      now apply Z.leb_le. }
  destruct Hi as [Hi Hb]. apply ints_Forall in Hi.
  assert (Hne : cs <> []) by (intros ->; discriminate).
  assert (H : (same_type_op op = true -> Forall (fun c => expr_type c = t) cs) /\ typeClass t = INTEGER).
  { destruct (assoc_cases op Hop) as [Hs|Hs].
    - apply adjustWidth_Ret in Ha as (Ha & _ & _). rewrite same_type_width in Ha by assumption.
      apply width_default in Ha. split; [auto|].
      destruct cs as [|c cs]; [easy|]. apply Forall_cons in Ha as [<- _], Hi as [Hi _].
      now apply integer_type.
    - split; [intros Hf; destruct Hs as [->|[->| ->]]; discriminate|]. now apply (sum_width op cs t t). }
  destruct H as [Ht Hc]. split; [|now repeat split].
  rewrite Forall_forall in *. intros c Hc'. repeat split; [apply (Hg c Hc')..|now apply Hi|].
  intros Hs. unfold expr_nBits. now rewrite (Ht Hs c Hc').
Qed.

Lemma elems_ok op t cs :
  assoc_op op = true -> Forall (elem op (nBits t)) cs -> width_bound op (nBits t) -> ok_node op t cs = true.
Proof.
  intros Hop He Hb. assert (Hi : ints cs = true).
  { apply ints_Forall. apply (Forall_impl _ _ _ He). intros c Hc. apply Hc. }
  destruct op; try discriminate; cbn [ok_node width_bound] in *; try assumption;
    rewrite Hi; now apply Z.leb_le.
Qed.

Lemma elems_Good op w cs : Forall (elem op w) cs -> Forall Good cs.
Proof. intros H. apply (Forall_impl _ _ _ H). intros c Hc. apply Hc. Qed.

Lemma Good_width_pos e : Good e -> 0 < expr_nBits e.
Proof. intros [H _]. apply wt_width in H. lia. Qed.

Lemma Good_args_ok env cs : Forall Good cs -> args_ok (map (wv uf env) cs).
Proof.
  intros H. unfold args_ok. rewrite Forall_map. apply (Forall_impl _ _ _ H). intros c Hc.
  split; [now apply Good_width_pos|]. apply eval_ok, Hc.
Qed.

(** Two lists of operands are interchangeable among the operands of a node. *)
Definition seg_eq (env : Z -> Z) (op : Operator) (w : Z) (m m' : list expr) : Prop :=
  if op_eqb op OP_CONCAT
  then concat_val (map (wv uf env) m) = concat_val (map (wv uf env) m')
  else eqm w (ac_val op (map (wv uf env) m)) (ac_val op (map (wv uf env) m')).

#[local] Instance seg_eq_equivalence env op w : Equivalence (seg_eq env op w).
Proof.
  unfold seg_eq. destruct (op_eqb op OP_CONCAT); split; red; [congruence..|reflexivity|now symmetry|].
  intros x y z H1 H2. now transitivity (ac_val op (map (wv uf env) y)).
Qed.

Lemma seg_app env op w a a' b b' :
  Forall Good a -> Forall Good a' -> Forall Good b -> Forall Good b' ->
  seg_eq env op w a a' -> seg_eq env op w b b' -> seg_eq env op w (a ++ b) (a' ++ b').
Proof.
  intros Ha Ha' Hb Hb'. unfold seg_eq. rewrite !map_app. destruct (op_eqb op OP_CONCAT).
  - rewrite !concat_val_app by now apply Good_args_ok. congruence.
  - rewrite !ac_val_app. intros H1 H2. now rewrite H1, H2.
Qed.

Lemma seg_eval env op w m m' :
  assoc_op op = true -> seg_eq env op w m m' -> eval_list uf env op w m = eval_list uf env op w m'.
Proof.
  unfold assoc_op, seg_eq, eval_list, eval_op. destruct (op_eqb op OP_CONCAT) eqn:E.
  - apply op_eqb_spec in E as ->. cbn. congruence.
  - rewrite orb_false_r. intros ->. auto.
Qed.

Lemma seg_perm env op w m m' : op <> OP_CONCAT -> Permutation m m' -> seg_eq env op w m m'.
Proof.
  intros Hop Hp. unfold seg_eq. destruct (op_eqb op OP_CONCAT) eqn:E; [now apply op_eqb_spec in E|].
  now rewrite (ac_val_perm op _ _ (Permutation_map _ Hp)).
Qed.

(** ** Associativity *)

Lemma map_fst_wv env cs : map fst (map (wv uf env) cs) = map expr_nBits cs.
Proof. now rewrite map_map. Qed.

(** A nested node stands for its operands. *)
Lemma seg_nested env op w t cs f :
  assoc_op op = true -> Pre (Node op t cs f) -> (same_type_op op = true -> nBits t = w) ->
  seg_eq env op w [Node op t cs f] cs.
Proof.
  intros Hop Hp Hw. destruct (Pre_elems _ _ _ _ Hop Hp) as (He & _ & Hne & _).
  pose proof (Good_args_ok env cs (elems_Good _ _ _ He)) as Hok.
  assert (Hm : map (wv uf env) cs <> []) by (destruct cs; [easy | discriminate]).
  apply Pre_node in Hp as (Hpos & Ha & _ & _).
  unfold seg_eq. destruct (op_eqb op OP_CONCAT) eqn:E.
  - apply op_eqb_spec in E as ->. apply sum_width in Ha as [_ Ha]; [|tauto].
    pose proof (concat_val_ok _ Hok) as [_ Hv]. pose proof (concat_val_width (map (wv uf env) cs)) as Hcw.
    rewrite map_fst_wv, <- Ha in Hcw. rewrite Hcw in Hv.
    cbn [map]. rewrite concat_val_cons. unfold wv at 1. rewrite eval_node.
    unfold eval_list, eval_op, concat2. cbn [ac_op fst snd concat_val fold_right map expr_nBits expr_type].
    change (op_eqb OP_CONCAT OP_CONCAT) with true. cbv iota. unfold expr_nBits. cbn [expr_type].
    rewrite Z.mod_small by exact Hv. rewrite Z.pow_0_r, Z.mul_1_r, !Z.add_0_r, <- Hcw.
    now destruct (concat_val _).
  - cbn [map]. rewrite ac_val_one. unfold wv at 1. rewrite eval_node.
    unfold eval_list, eval_op, expr_nBits. cbn [expr_type].
    assert (Hac : ac_op op = true) by (unfold assoc_op in Hop; now rewrite E, orb_false_r in Hop).
    rewrite Hac. destruct (assoc_cases op Hop) as [Hs|Hs].
    + assert (Hi : forall x, ac_inj op x = x.2) by (destruct op; discriminate || reflexivity).
      rewrite Hi. cbn [snd]. rewrite Hw by assumption. apply eqm_mod. rewrite <- Hw by assumption. lia.
    + destruct Hs as [->|[->| ->]]; [| |discriminate];
        (apply sum_width in Ha as [_ Ha]; [|tauto]); rewrite <- (map_fst_wv env) in Ha; fold (widths (map (wv uf env) cs)) in Ha.
      * cbn [ac_inj snd]. rewrite Z.mod_small; [reflexivity|]. rewrite Ha. now apply umul_exact.
      * cbn [ac_inj fst snd]. rewrite Ha. now rewrite smul_exact.
Qed.

Lemma flatten_spec env op w e :
  assoc_op op = true -> elem op w e ->
  Forall (elem op w) (flatten op e) /\ seg_eq env op w (flatten op e) [e].
Proof.
  intros Hop. induction e as [t v f|t n f|op' t cs f IH] using expr_tree_ind; intros He.
  1, 2: cbn; split; [now apply Forall_singleton | reflexivity].
  cbn [flatten]. destruct (op_eqb op' op) eqn:E; [|split; [now apply Forall_singleton | reflexivity]].
  apply op_eqb_spec in E as ->. destruct He as (Hg & Hi & Hw).
  apply Good_node in Hg as [Hp _]. destruct (Pre_elems _ _ _ _ Hop Hp) as (Hcs & _ & _ & _).
  assert (Hcs' : Forall (elem op w) cs).
  { apply (Forall_impl _ _ _ Hcs). intros c (? & ? & Hc). split; [assumption|]. split; [assumption|].
    intros Hs. rewrite (Hc Hs). exact (Hw Hs). }
  assert (H : Forall (elem op w) (flat_map (flatten op) cs) /\ seg_eq env op w (flat_map (flatten op) cs) cs).
  { clear Hp Hcs Hi Hw. induction IH as [|c cs Hc _ IHcs]; [split; [constructor | reflexivity]|].
    apply Forall_cons in Hcs' as [Hc' Hcs']. destruct (Hc Hc') as [H1 H2], (IHcs Hcs') as [H3 H4].
    cbn [flat_map]. split; [now apply Forall_app|].
    change (c :: cs) with ([c] ++ cs).
    apply seg_app; try assumption; [now apply (elems_Good op w)| |now apply (elems_Good op w)..].
    apply Forall_singleton, Hc'. }
  destruct H as [H1 H2]. split; [assumption|]. rewrite H2. symmetry.
  apply seg_nested; try assumption.
Qed.

Lemma flatten_list_spec env op w cs :
  assoc_op op = true -> Forall (elem op w) cs ->
  Forall (elem op w) (flat_map (flatten op) cs) /\ seg_eq env op w (flat_map (flatten op) cs) cs.
Proof.
  intros Hop. induction 1 as [|c cs Hc Hcs [IH1 IH2]]; [split; [constructor | reflexivity]|].
  destruct (flatten_spec env op w c Hop Hc) as [H1 H2].
  cbn [flat_map]. split; [now apply Forall_app|]. change (c :: cs) with ([c] ++ cs).
  apply seg_app; try assumption; try (now apply (elems_Good op w)).
  apply Forall_singleton, Hc.
Qed.

(** Rebuilding an associative node with interchangeable operands. *)
Lemma rebuild_assoc op t cs f cs' r :
  assoc_op op = true -> Pre (Node op t cs f) -> Forall (elem op (nBits t)) cs' ->
  (forall env, ctx env -> seg_eq env op (nBits t) cs' cs) ->
  rebuild (Node op t cs f) cs' = Ret (Some r) ->
  denotes Pre r t (fun env => eval_list uf env op (nBits t) cs) /\ isInterior r = true /\ getOperator r = op.
Proof.
  intros Hop Hp Hcs' Hs H. destruct (Pre_elems _ _ _ _ Hop Hp) as (_ & Hc & _ & Hb).
  destruct (rebuild_sound op t cs f cs' r) as (H1 & H2 & H3 & _); try assumption.
  - now apply (elems_Good op (nBits t)).
  - now apply elems_ok.
  - intros env Henv. apply seg_eval; auto.
  - split; [|split]; assumption.
Qed.

Lemma associative_keeping op : assoc_op op = true -> keeping_pass op associative.
Proof.
  intros Hop.
  assert (H : forall t cs f r, Pre (Node op t cs f) -> associative (Node op t cs f) = Ret (Some r) ->
    denotes Pre r t (fun env => eval_list uf env op (nBits t) cs) /\ isInterior r = true /\ getOperator r = op).
  { intros t cs f r Hp H. unfold associative in H. cbn [getOperator children] in H.
    destruct (existsb _ _); [|discriminate]. destruct (Pre_elems _ _ _ _ Hop Hp) as (He & _).
    apply (rebuild_assoc op t cs f _ r Hop Hp) in H; [assumption| |].
    - exact (proj1 (flatten_list_spec (fun _ => 0) op _ cs Hop He)).
    - intros env _. exact (proj2 (flatten_list_spec env op _ cs Hop He)). }
  split; intros t cs f r Hp Hr; now apply (H t cs f r).
Qed.

(** ** Commutativity *)

Lemma insert_operand_perm before c cs : Permutation (insert_operand before c cs) (c :: cs).
Proof.
  induction cs as [|c' cs IH]; [reflexivity|]. cbn. destruct (before c' c); [|reflexivity].
  rewrite IH. apply perm_swap.
Qed.

Lemma sort_operands_perm before cs : Permutation (sort_operands before cs) cs.
Proof.
  induction cs as [|c cs IH]; [reflexivity|]. unfold sort_operands in *. cbn [fold_right].
  now rewrite insert_operand_perm, IH.
Qed.

Lemma commutative_keeping addr op :
  assoc_op op = true -> op <> OP_CONCAT -> keeping_pass op (commutative addr).
Proof.
  intros Hop Hne.
  assert (H : forall t cs f r, Pre (Node op t cs f) -> commutative addr (Node op t cs f) = Ret (Some r) ->
    denotes Pre r t (fun env => eval_list uf env op (nBits t) cs) /\ isInterior r = true /\ getOperator r = op).
  { intros t cs f r Hp H. unfold commutative in H. cbn [children] in H.
    destruct (all2 _ _ _); [discriminate|]. destruct (Pre_elems _ _ _ _ Hop Hp) as (He & _).
    apply (rebuild_assoc op t cs f _ r Hop Hp) in H; [assumption| |].
    - now rewrite sort_operands_perm.
    - intros env _. apply seg_perm; [assumption | apply sort_operands_perm]. }
  split; intros t cs f r Hp Hr; now apply (H t cs f r).
Qed.

(** ** Building expressions *)

Definition solver_ok (s : option SmtSolver) : Prop :=
  forall env, ctx env -> solver_agrees uf env s.

Lemma solver_ok_None : solver_ok None.
Proof. intros env _ s a b H. discriminate. Qed.

Lemma Const_Good w v f : 0 < w <= 32767 -> bv_ok w v -> Good (Const (mkType INTEGER w 0) v f).
Proof. intros Hw Hv. split; [now split | reflexivity]. Qed.

Lemma denotes_const w v f g :
  0 < w <= 32767 -> bv_ok w v -> (forall env, ctx env -> g env = v) ->
  denotes Good (Const (mkType INTEGER w 0) v f) (mkType INTEGER w 0) g.
Proof.
  intros Hw Hv Hg. split; [now apply Const_Good|]. split; [reflexivity|].
  intros env Henv. now rewrite Hg.
Qed.

Lemma makeIntegerConstant_bits_Ret w v f c :
  makeIntegerConstant_bits w v f = Ret c -> c = Const (mkType INTEGER w 0) v f /\ w <= 32767 /\ w <> 0.
Proof.
  unfold makeIntegerConstant_bits, createConstant. intros H. inv_outcome. subst.
  match goal with H : type_integer _ = Ret _ |- _ => apply type_integer_Ret in H as [-> H] end.
  repeat split; [assumption|]. now apply Z.eqb_neq, negb_true_iff.
Qed.

Lemma makeIntegerConstant_Ret w v f c :
  makeIntegerConstant w v f = Ret c ->
  c = Const (mkType INTEGER w 0) (bv_fromInteger w v) f /\ w <= 32767 /\ w <> 0.
Proof. exact (makeIntegerConstant_bits_Ret w (bv_fromInteger w v) f c). Qed.

Lemma fromInteger_ok w v : 0 <= w -> 0 <= v < 2 ^ 64 -> bv_ok w (bv_fromInteger w v).
Proof. intros Hw Hv. rewrite fromInteger_spec by assumption. now apply mod_ok. Qed.

Lemma fromInteger_id w v : 0 <= w -> 0 <= v < 2 ^ 64 -> v < 2 ^ w -> bv_fromInteger w v = v.
Proof. intros Hw Hv Hlt. rewrite fromInteger_spec by assumption. apply Z.mod_small. lia. Qed.

(** The value of a node as the passes see it. *)
Lemma denotes_weaken e t v : denotes Good e t v -> denotes Pre e t v.
Proof. intros (He & H). split; [now apply Good_Pre | assumption]. Qed.

Lemma denotes_ext P e t v v' :
  (forall env, ctx env -> v env = v' env) -> denotes P e t v -> denotes P e t v'.
Proof. intros Hv (He & Ht & H). split; [assumption|]. split; [assumption|]. intros env Henv. now rewrite H, Hv. Qed.

Section Recursion.
Variable simplify : option SmtSolver -> expr -> outcome expr.
Hypothesis simplify_sound : forall s e e',
  solver_ok s -> Pre e -> simplify s e = Ret e' ->
  denotes Good e' (expr_type e) (fun env => eval uf env e).

Lemma instance_sound s ty op cs flags e :
  solver_ok s -> 0 <= nBits ty <= 32767 -> type_ok ty = true -> Forall Good cs ->
  (forall t, adjustWidth op cs ty = Ret t -> ok_node op t cs = true) ->
  instance_with simplify s ty op cs flags = Ret e ->
  exists t, adjustWidth op cs ty = Ret t /\ (typeClass ty <> INVALID -> t = ty) /\
    denotes Good e t (fun env => eval_list uf env op (nBits t) cs).
Proof.
  intros Hs Hty Hto Hcs Hok H. unfold instance_with in H. inv_outcome.
  destruct (interior_sound ty op cs flags x Hty Hto Hcs Hok H0) as (t & Ha & Ht & (Hp & Hxt & Hx) & _).
  exists t. split; [assumption|]. split; [assumption|].
  destruct (simplify_sound s x e Hs Hp H) as (Hg & Het & He).
  split; [assumption|]. split; [congruence|]. intros env Henv. now rewrite He, Hx.
Qed.

(** A node asked for without a type. *)
Lemma instance_none s op cs flags e :
  solver_ok s -> Forall Good cs ->
  (forall t, adjustWidth op cs type_none = Ret t -> ok_node op t cs = true) ->
  instance_with simplify s type_none op cs flags = Ret e ->
  exists t, adjustWidth op cs type_none = Ret t /\
    denotes Good e t (fun env => eval_list uf env op (nBits t) cs).
Proof.
  intros Hs Hcs Hok H.
  destruct (instance_sound s type_none op cs flags e) as (t & Ha & _ & Hd); try assumption;
    [cbn; lia | reflexivity | eauto].
Qed.

Variable solver : option SmtSolver.
Hypothesis solver_sound : solver_ok solver.

Lemma makeExtend_sound k w a f fl n e :
  0 < k <= 64 -> 0 <= w < 2 ^ k -> Good a -> isIntegerExpr a = true ->
  makeIntegerConstant k w fl = Ret n -> makeExtend simplify solver n a f = Ret e ->
  denotes Good e (mkType INTEGER w 0) (fun env => eval uf env a mod 2 ^ w).
Proof.
  intros Hk Hw Ha Hi Hn H. apply makeIntegerConstant_Ret in Hn as [-> _].
  pose proof (pow2_le k 64 ltac:(lia)) as Hk64.
  rewrite fromInteger_id in H by lia.
  apply instance_none in H as (t & Ht & H); [|assumption| |].
  - assert (E : t = mkType INTEGER w 0).
    { inv_width Ht. subst. cbn_args.
      rewrite toUnsigned_spec by (unfold bv_ok; lia). now rewrite (proj2 (Z.leb_le k 64)) by lia. }
    subst. exact H.
  - repeat constructor; try apply Ha; cbn; unfold bv_ok; lia.
  - intros t Ht. cbn. now rewrite Hi.
Qed.

Lemma extract_between_sound from to a fl e :
  Good a -> isIntegerExpr a = true -> 0 <= from < to -> to <= expr_nBits a ->
  extract_between simplify solver from to a fl = Ret e ->
  denotes Good e (mkType INTEGER (to - from) 0) (fun env => eval uf env a / 2 ^ from mod 2 ^ (to - from)).
Proof.
  intros Ha Hi Hf Hto H. unfold extract_between in H. inv_outcome.
  apply makeIntegerConstant_Ret in H0 as [-> _], H1 as [-> _].
  pose proof (wt_width a (proj1 Ha)) as Hw.
  assert (Hp : 32767 < 2 ^ 32) by reflexivity.
  assert (Hp' : 2 ^ 32 < 2 ^ 64) by reflexivity.
  rewrite !fromInteger_id in H by lia.
  assert (U : forall v, 0 <= v < 2 ^ 32 -> toUnsigned (Const (mkType INTEGER 32 0) v 0) = Some v)
    by (intros v Hv; rewrite toUnsigned_spec by (unfold bv_ok; lia); reflexivity).
  apply instance_none in H as (t & Ht & H); [|assumption| |].
  - assert (E : t = mkType INTEGER (to - from) 0).
    { inv_width Ht. subst. cbn_args.
      now rewrite !U by lia. }
    subst. exact H.
  - repeat constructor; try apply Ha; cbn; unfold bv_ok; lia.
  - intros t Ht. cbn -[Z.leb toUnsigned]. rewrite Hi, U by lia. now apply Z.leb_le.
Qed.

(** ** Identities *)

(** The constant the code takes for the identity of an operator. *)
Definition identity_constant (op : Operator) : Z :=
  match op with OP_AND => 2 ^ 64 - 1 | OP_UMUL | OP_SMUL => 1 | _ => 0 end.

Lemma identity_constant_unit op w :
  0 < w -> width_bound op w -> eqm w (identity_constant op) (ac_unit op).
Proof.
  intros Hw Hb. destruct op; cbn [identity_constant ac_unit]; try reflexivity.
  unfold eqm. replace (2 ^ 64 - 1) with (-1 + 2 ^ (64 - w) * 2 ^ w).
  - apply Z.mod_add. pose proof (pow2_pos w ltac:(lia)). lia.
  - cbn in Hb. rewrite <- Z.pow_add_r by lia. replace (64 - w + w) with 64 by lia. lia.
Qed.

Lemma integer_constant_Some e v :
  integer_constant e = Some v -> exists t f, e = Const t v f /\ typeClass t = INTEGER.
Proof.
  destruct e as [t v' f| |]; try discriminate. cbn.
  case_bool_decide; [|discriminate]. intros [= ->]. eauto.
Qed.

Lemma integer_constant_eval env e v :
  Good e -> integer_constant e = Some v -> eval uf env e = v /\ bv_ok (expr_nBits e) v.
Proof. intros [Hw _] H. apply integer_constant_Some in H as (t & f & -> & _). split; [reflexivity|apply Hw]. Qed.

Lemma identity_constant_range op : 0 <= identity_constant op < 2 ^ 64.
Proof. destruct op; cbn; lia. Qed.

Lemma is_identity_seg env op w c :
  assoc_op op = true -> op <> OP_CONCAT -> op <> OP_SMUL -> 0 < w -> width_bound op w -> elem op w c ->
  is_identity (identity_constant op) c = true -> seg_eq env op w [c] [].
Proof.
  intros Hop Hc Hs Hw Hb (Hg & Hi & He) H. unfold is_identity in H.
  destruct (integer_constant c) as [v|] eqn:E; [|discriminate].
  destruct (integer_constant_eval env c v Hg E) as [Hv Hok]. pose proof (Good_width_pos c Hg) as Hwc.
  pose proof (identity_constant_range op) as Hr.
  rewrite compare_spec, compare_same_eq in H
    by (try assumption; try (apply fromInteger_ok; assumption || lia); lia).
  apply Z.eqb_eq in H. rewrite fromInteger_spec in H by (assumption || lia).
  unfold seg_eq. destruct (op_eqb op OP_CONCAT) eqn:Ec; [now apply op_eqb_spec in Ec|].
  cbn [map]. rewrite ac_val_one. unfold wv. rewrite Hv.
  change (ac_val op []) with (ac_unit op).
  destruct (assoc_cases op Hop) as [Ht|[->|[->| ->]]]; try congruence.
  - assert (E1 : ac_inj op (expr_nBits c, v) = v) by (destruct op; discriminate || reflexivity).
    rewrite E1, H, He by assumption. rewrite eqm_mod by lia. now apply identity_constant_unit.
  - cbn [ac_inj snd ac_unit identity_constant] in *. rewrite H, Z.mod_small; [reflexivity|].
    pose proof (pow2_le 1 (expr_nBits c) ltac:(lia)). lia.
Qed.

Lemma filter_identity env op w cs :
  assoc_op op = true -> op <> OP_CONCAT -> op <> OP_SMUL -> 0 < w -> width_bound op w ->
  Forall (elem op w) cs ->
  let args := List.filter (fun c => negb (is_identity (identity_constant op) c)) cs in
  Forall (elem op w) args /\ seg_eq env op w args cs.
Proof.
  intros Hop Hc Hs Hw Hb. induction 1 as [|c cs He Hcs [IH1 IH2]]; [split; [constructor | reflexivity]|].
  cbn [List.filter]. destruct (is_identity _ c) eqn:E; cbn [negb].
  - split; [assumption|]. rewrite <- (app_nil_l (List.filter _ cs)). change (c :: cs) with ([c] ++ cs).
    apply seg_app; try assumption; try (now apply (elems_Good op w)).
    + apply Forall_singleton, He.
    + symmetry. now apply is_identity_seg.
  - split; [now constructor|]. change (c :: ?l) with ([c] ++ l).
    apply seg_app; try assumption; try (now apply (elems_Good op w)); try reflexivity;
      apply Forall_singleton, He.
Qed.

(** A single operand of the width of the node has its value. *)
Lemma eval_list_one env op w c :
  assoc_op op = true -> Good c -> expr_nBits c = w -> eval_list uf env op w [c] = eval uf env c.
Proof.
  intros Hop Hg Hw. pose proof (eval_ok uf env c (proj1 Hg)) as Hv. pose proof (Good_width_pos c Hg).
  unfold eval_list, eval_op. destruct (ac_op op) eqn:Ha.
  - cbn [map]. rewrite ac_val_one. unfold wv. rewrite Hw in *.
    destruct op; try discriminate; cbn [ac_inj fst snd]; try (now apply Z.mod_small).
    now apply tsval_mod.
  - unfold assoc_op in Hop. rewrite Ha in Hop. cbn in Hop. rewrite Hop.
    cbn [map]. rewrite concat_val_cons. unfold wv, concat2. cbn [concat_val fold_right fst snd map].
    rewrite Z.pow_0_r, Z.mul_1_r, Z.add_0_r, Hw in *. now apply Z.mod_small.
Qed.

Lemma elem_type op t cs f w c :
  assoc_op op = true -> Pre (Node op t cs f) -> elem op w c -> expr_nBits c = nBits t -> expr_type c = t.
Proof.
  intros Hop Hp (Hg & Hi & _) Hw. destruct (Pre_elems _ _ _ _ Hop Hp) as (_ & Ht & _).
  rewrite (Pre_integer_type c) by (try apply Good_Pre; assumption). rewrite Hw. symmetry.
  apply type_ok_integer; [|assumption]. now apply (Pre_type_ok (Node op t cs f)).
Qed.

Lemma filter_widths (p : expr -> bool) cs :
  Forall Good cs ->
  fold_right Z.add 0 (map expr_nBits (List.filter p cs)) <= fold_right Z.add 0 (map expr_nBits cs).
Proof.
  induction 1 as [|c cs Hc _ IH]; [reflexivity|]. pose proof (Good_width_pos c Hc).
  cbn [List.filter]. destruct (p c); cbn [map fold_right]; lia.
Qed.

(** A node over some of the operands of another is within its bounds. *)
Lemma sub_node_ok op t cs f p t' :
  assoc_op op = true -> Pre (Node op t cs f) ->
  adjustWidth op (List.filter p cs) type_none = Ret t' -> ok_node op t' (List.filter p cs) = true.
Proof.
  clear solver solver_sound simplify_sound simplify ctx.
  intros Hop Hp Ha'. destruct (Pre_elems _ _ _ _ Hop Hp) as (He & _ & _ & Hb).
  assert (Hf : Forall (elem op (nBits t)) (List.filter p cs)).
  { clear -He. induction He as [|c cs Hc _ IH]; [constructor|]. cbn. destruct (p c); [now constructor | assumption]. }
  apply Pre_node in Hp as (_ & Ha & Hg & _).
  apply (elems_ok op t'); [assumption| |].
  - destruct (assoc_cases op Hop) as [Hs|Hs].
    + apply adjustWidth_Ret in Ha' as (Ha' & _ & Hne). rewrite same_type_width in Ha' by assumption.
      apply width_default in Ha'. rewrite Forall_forall in *. intros c Hc.
      destruct (Hf c Hc) as (? & ? & ?). split; [assumption|]. split; [assumption|]. intros _.
      unfold expr_nBits. now rewrite (Ha' c Hc).
    + apply (Forall_impl _ _ _ Hf). intros c (? & ? & _). split; [assumption|]. split; [assumption|].
      intros Hf'. destruct Hs as [->|[->| ->]]; discriminate.
  - destruct (same_type_op op) eqn:Hs.
    + apply adjustWidth_Ret in Ha' as (Ha' & _ & Hne). rewrite same_type_width in Ha' by assumption.
      apply width_default in Ha'. destruct (List.filter p cs) as [|c l]; [easy|].
      apply Forall_cons in Ha' as [<- _], Hf as [(_ & _ & Hw) _]. fold (expr_nBits c). now rewrite Hw.
    + destruct op; try discriminate Hs; try exact I.
      apply sum_width in Ha as [_ Ha]; [|tauto]. apply sum_width in Ha' as [_ Ha']; [|tauto].
      pose proof (filter_widths p cs Hg). cbn [width_bound] in *. lia.
Qed.

Lemma identity_sound op :
  assoc_op op = true -> op <> OP_CONCAT -> op <> OP_SMUL ->
  sound_pass op (identity simplify solver (identity_constant op)).
Proof.
  intros Hop Hnc Hns t cs f r Hp H.
  destruct (Pre_elems _ _ _ _ Hop Hp) as (He & Hti & Hne & Hb).
  pose proof (proj1 (Pre_node op t cs f) Hp) as ([Hw Hto] & Ha & _ & _).
  pose proof (fun env => filter_identity env op (nBits t) cs Hop Hnc Hns ltac:(lia) Hb He) as Hf.
  pose proof (sub_node_ok op t cs f (fun c => negb (is_identity (identity_constant op) c))) as Hsub.
  cbv zeta in Hf. unfold identity in H. cbn [children getOperator] in H.
  change (expr_nBits (Node op t cs f)) with (nBits t) in H. set (args := List.filter _ cs) in *.
  assert (Hargs : Forall (elem op (nBits t)) args) by exact (proj1 (Hf (fun _ => 0))).
  assert (Hseg : forall env, eval_list uf env op (nBits t) args = eval_list uf env op (nBits t) cs)
    by (intros env; apply seg_eval; [assumption | apply Hf]).
  destruct (_ =? _)%nat; [discriminate|]. clearbody args.
  assert (Et : t = mkType INTEGER (nBits t) 0) by now apply type_ok_integer.
  apply (denotes_ext _ _ _ (fun env => eval_list uf env op (nBits t) args)); [intros; apply Hseg|].
  destruct args as [|c [|c' args]].
  - unfold some in H. inv_outcome. subst. apply makeIntegerConstant_Ret in H0 as (-> & _ & _).
    pose proof (identity_constant_range op). apply denotes_weaken.
    split; [apply Const_Good; [lia | now apply fromInteger_ok; lia]|]. split; [now symmetry|].
    intros env _. unfold eval_list, eval_op. cbn [eval]. rewrite fromInteger_spec by (assumption || lia).
    assert (Hac : ac_op op = true).
    { unfold assoc_op in Hop. destruct (ac_op op); [reflexivity|]. cbn in Hop. now apply op_eqb_spec in Hop. }
    rewrite Hac. apply identity_constant_unit; assumption || lia.
  - pose proof (proj1 (Forall_singleton _ _) Hargs) as Hc. pose proof Hc as (Hg & Hi & Hsw).
    destruct (Z.eqb_spec (expr_nBits c) (nBits t)) as [E|E]; cbn [negb] in H.
    + injection H as <-. apply denotes_weaken. split; [assumption|].
      split; [now apply (elem_type op t cs f (nBits t))|].
      intros env Henv. symmetry. now apply eval_list_one.
    + destruct (assoc_cases op Hop) as [Hs|[->|[->| ->]]]; try congruence; [now rewrite Hsw in E|].
      cbn [width_bound] in Hb. unfold some in H. inv_outcome. subst. apply denotes_weaken. rewrite Et at 1.
      eapply denotes_ext; [|eapply (makeExtend_sound 8 (nBits t) c); try eassumption; [lia|]].
      * intros env _. unfold eval_list, eval_op. cbn [ac_op map]. now rewrite ac_val_one.
      * split; [lia|]. change (2 ^ 8) with 256. lia.
  - inv_outcome. destruct (interior_Ret _ _ _ _ _ H0) as (t0 & Hx & Ha0 & _).
    destruct (interior_sound type_none op (c :: c' :: args) 0 x) as (t' & Ha' & _ & Hd & _);
      try assumption; [cbn; lia | reflexivity | now apply (elems_Good op (nBits t)) | eauto |].
    rewrite Ha0 in Ha'. injection Ha' as <-.
    destruct (Z.eqb_spec (expr_nBits x) (nBits t)) as [E|E]; [|discriminate]. subst x.
    assert (E' : t0 = t).
    { destruct Hd as [Hp0 _]. destruct (Pre_elems _ _ _ _ Hop Hp0) as (_ & Ht0 & _).
      apply Pre_type_ok in Hp0. rewrite Et. rewrite <- E. now apply type_ok_integer. }
    subst t0. injection H as <-. exact Hd.
Qed.

(** ** Repeated operands *)

Definition idempotent_op (op : Operator) : bool :=
  match op with OP_AND | OP_OR => true | _ => false end.

Lemma ac_val_twice op x l : idempotent_op op = true -> ac_val op (x :: x :: l) = ac_val op (x :: l).
Proof.
  intros Hop. rewrite !ac_val_cons, ac_comb_assoc. f_equal.
  destruct op; try discriminate; [apply Z.land_diag | apply Z.lor_diag].
Qed.

Lemma drop_repeated_sound op w prev cs cs' :
  idempotent_op op = true -> elem op w prev -> Forall (elem op w) cs ->
  drop_repeated solver prev cs = Ret cs' ->
  Forall (elem op w) cs' /\
  forall env, ctx env -> seg_eq env op w (prev :: cs') (prev :: cs).
Proof.
  intros Hop Hprev Hcs. revert prev Hprev cs'.
  assert (Hs : same_type_op op = true /\ op_eqb op OP_CONCAT = false) by (destruct op; try discriminate; now split).
  destruct Hs as [Hs Hnc].
  induction Hcs as [|c cs Hc Hcs IH]; intros prev Hprev cs' H; cbn [drop_repeated] in H.
  - injection H as <-. split; [constructor | reflexivity].
  - inv_outcome. destruct x.
    + destruct (IH prev Hprev cs' H) as [H1 H2]. split; [assumption|]. intros env Henv.
      rewrite (H2 env Henv). unfold seg_eq. rewrite Hnc. cbn [map].
      assert (E : wv uf env c = wv uf env prev).
      { unfold wv. f_equal; [now rewrite (proj2 (proj2 Hc)), (proj2 (proj2 Hprev))|]. symmetry.
        apply (mustEqual_eval uf env solver); [now apply solver_sound|apply Hprev|apply Hc|assumption]. }
      now rewrite E, ac_val_twice.
    + inv_outcome. subst. destruct (IH c Hc _ H1) as [H2 H3].
      split; [now constructor|]. intros env Henv. change (prev :: ?l) with ([prev] ++ l).
      apply seg_app; try (now apply (elems_Good op w); constructor); try reflexivity; [..|now apply H3];
        try apply Forall_singleton; try apply Hprev.
Qed.

Lemma idempotent_keeping op :
  idempotent_op op = true -> keeping_pass op (idempotent solver).
Proof.
  intros Hop. assert (Hop' : assoc_op op = true) by (destruct op; easy).
  assert (H : forall t cs f r, Pre (Node op t cs f) -> idempotent solver (Node op t cs f) = Ret (Some r) ->
    denotes Pre r t (fun env => eval_list uf env op (nBits t) cs) /\ isInterior r = true /\ getOperator r = op).
  { intros t cs f r Hp H. unfold idempotent in H. cbn [children] in H.
    destruct cs as [|c cs]; [discriminate|]. inv_outcome. destruct (_ =? _)%nat; [discriminate|].
    destruct (Pre_elems _ _ _ _ Hop' Hp) as (He & _). apply Forall_cons in He as [Hc Hcs].
    destruct (drop_repeated_sound op (nBits t) c cs x Hop Hc Hcs H0) as [H1 H2].
    apply (rebuild_assoc op t (c :: cs) f (c :: x) r Hop' Hp) in H; [assumption|now constructor|assumption]. }
  split; intros t cs f r Hp Hr; now apply (H t cs f r).
Qed.

(** ** Folding constants *)

(** What folding a run of constants must give. *)
Definition fold_sound (op : Operator) (fold : list expr -> outcome expr) : Prop :=
  forall w run c, (2 <= length run)%nat -> Forall (elem op w) run -> forallb isIntegerConstant run = true ->
  fold run = Ret c ->
  elem op w c /\ (same_type_op op = false -> expr_nBits c = fold_right Z.add 0 (map expr_nBits run)) /\
  forall env, seg_eq env op w [c] run.

Definition sum_widths (cs : list expr) : Z := fold_right Z.add 0 (map expr_nBits cs).

Lemma sum_widths_app l m : sum_widths (l ++ m) = sum_widths l + sum_widths m.
Proof. unfold sum_widths. rewrite map_app. induction l as [|x l IH]; cbn; [reflexivity|]. rewrite IH. lia. Qed.

(** Interchangeable operands, of the same total width where it matters. *)
Definition seg_sim (op : Operator) (w : Z) (m m' : list expr) : Prop :=
  Forall (elem op w) m /\ (same_type_op op = false -> sum_widths m = sum_widths m') /\
  forall env, seg_eq env op w m m'.

Lemma seg_sim_refl op w m : Forall (elem op w) m -> seg_sim op w m m.
Proof. intros H. repeat split; [assumption|]. intros env. reflexivity. Qed.

Lemma seg_sim_app op w a a' b b' :
  Forall (elem op w) a' -> Forall (elem op w) b' ->
  seg_sim op w a a' -> seg_sim op w b b' -> seg_sim op w (a ++ b) (a' ++ b').
Proof.
  intros Ha' Hb' (Ha & Wa & Sa) (Hb & Wb & Sb). split; [now apply Forall_app|]. split.
  - intros Hs. now rewrite !sum_widths_app, Wa, Wb.
  - intros env. apply seg_app; auto; now apply (elems_Good op w).
Qed.

Lemma fold_run_sim op fold w run l m :
  fold_sound op fold -> Forall (elem op w) run -> forallb isIntegerConstant run = true ->
  fold_run fold run = Ret (l, m) -> seg_sim op w l run.
Proof.
  intros Hf He Hc H. unfold fold_run in H. destruct run as [|c [|c' run]].
  - injection H as <- <-. now apply seg_sim_refl.
  - injection H as <- <-. now apply seg_sim_refl.
  - inv_outcome. subst. destruct (Hf w (c :: c' :: run) _ ltac:(cbn; lia) He Hc H0) as (H1 & H2 & H3).
    split; [now apply Forall_singleton|]. split; [|assumption].
    intros Hs. unfold sum_widths at 1. cbn [map fold_right]. rewrite H2 by assumption. unfold sum_widths. lia.
Qed.

Lemma fold_runs_sim op fold w cs run l m :
  fold_sound op fold -> Forall (elem op w) run -> forallb isIntegerConstant run = true ->
  Forall (elem op w) cs -> fold_runs fold run cs = Ret (l, m) -> seg_sim op w l (run ++ cs).
Proof.
  intros Hf Hr Hrc Hcs. revert run l m Hr Hrc.
  induction Hcs as [|c cs Hc Hcs IH]; intros run l m Hr Hrc H; cbn [fold_runs] in H.
  - rewrite app_nil_r. now apply (fold_run_sim op fold w run l m).
  - destruct (isIntegerConstant c) eqn:E.
    + rewrite cons_middle, app_assoc. apply (IH _ _ m); [|rewrite forallb_app, Hrc; cbn; now rewrite E|assumption].
      apply Forall_app. split; [assumption | now apply Forall_singleton].
    + inv_outcome. destruct x as [l1 m1]. inv_outcome. destruct x as [l2 m2]. inv_outcome. subst.
      apply seg_sim_app; [assumption|now constructor|now apply (fold_run_sim op fold w run l1 m1)|].
      change (c :: ?l) with ([c] ++ l). apply seg_sim_app; [now apply Forall_singleton|assumption| |].
      * apply seg_sim_refl. now apply Forall_singleton.
      * now apply (IH [] l2 m2).
Qed.

Lemma foldConstants_sound op fold :
  assoc_op op = true -> fold_sound op fold -> sound_pass op (foldConstants fold).
Proof.
  intros Hop Hf t cs f r Hp H. unfold foldConstants in H. cbn [children] in H.
  destruct (Pre_elems _ _ _ _ Hop Hp) as (He & Hti & Hne & Hb). inv_outcome. destruct x as [l m].
  destruct m; [|discriminate]. cbn [negb] in H.
  destruct (fold_runs_sim op fold (nBits t) cs [] l true Hf ltac:(constructor) eq_refl He H0) as (H1 & H2 & H3).
  cbn [app] in *.
  assert (Hseg : forall env, eval_list uf env op (nBits t) l = eval_list uf env op (nBits t) cs)
    by (intros env; apply seg_eval; auto).
  destruct l as [|c [|c' l]].
  - apply (rebuild_assoc op t cs f [] r Hop Hp) in H; [apply H|assumption|auto].
  - injection H as <-. pose proof (proj1 (Forall_singleton _ _) H1) as Hc.
    assert (Hw : expr_nBits c = nBits t).
    { destruct (same_type_op op) eqn:Hs; [now apply Hc|].
      specialize (H2 eq_refl). unfold sum_widths in H2. cbn [map fold_right] in H2. rewrite Z.add_0_r in H2.
      rewrite H2. symmetry. apply Pre_node in Hp as (_ & Ha & _ & _).
      apply (sum_width op cs t t); [|assumption]. destruct (assoc_cases op Hop); [congruence | assumption]. }
    apply denotes_weaken. split; [apply Hc|]. split; [now apply (elem_type op t cs f (nBits t))|].
    intros env _. rewrite <- Hseg. symmetry. apply eval_list_one; [assumption|apply Hc|assumption].
  - apply (rebuild_assoc op t cs f _ r Hop Hp) in H; [apply H|assumption|auto].
Qed.
End Recursion.

(** ** The folds of the operators *)

Lemma run_constants env op w run :
  Forall (elem op w) run -> forallb isIntegerConstant run = true ->
  map (wv uf env) run = map (fun c => (expr_nBits c, leaf_bits c)) run /\
  args_ok (map (fun c => (expr_nBits c, leaf_bits c)) run).
Proof.
  intros He Hc. assert (E : map (wv uf env) run = map (fun c => (expr_nBits c, leaf_bits c)) run).
  { apply map_ext_in. intros c Hin. apply forallb_Forall in Hc. rewrite Forall_forall in Hc.
    apply list_elem_of_In in Hin. specialize (Hc c Hin). unfold isIntegerConstant in Hc. destr_bool.
    destruct c; try discriminate. reflexivity. }
  split; [assumption|]. rewrite <- E. now apply Good_args_ok, (elems_Good op w).
Qed.

Lemma folded_elem op w v fl c :
  0 < w -> bv_ok w v -> makeIntegerConstant_bits w v fl = Ret c -> elem op w c /\ c = Const (mkType INTEGER w 0) v fl.
Proof.
  intros Hw Hv H. apply makeIntegerConstant_bits_Ret in H as (-> & Hle & _).
  split; [|reflexivity]. split; [now apply Const_Good|]. now split.
Qed.

Lemma seg_const env op w v fl run :
  0 < w -> bv_ok w v -> op <> OP_CONCAT ->
  eqm w (ac_inj op (w, v)) (ac_val op (map (wv uf env) run)) ->
  seg_eq env op w [Const (mkType INTEGER w 0) v fl] run.
Proof.
  intros Hw Hv Hop H. unfold seg_eq. destruct (op_eqb op OP_CONCAT) eqn:E; [now apply op_eqb_spec in E|].
  cbn [map]. now rewrite ac_val_one.
Qed.

(** Folding from the left agrees with the monoid, modulo the width. *)
Lemma fold_left_comb op w (g : Z -> Z -> Z) run a :
  (forall acc x, eqm w (g acc x) (ac_comb op acc x)) -> same_type_op op = true ->
  eqm w (fold_left (fun acc c => g acc (leaf_bits c)) run a)
    (ac_comb op a (ac_val op (map (fun c => (expr_nBits c, leaf_bits c)) run))).
Proof.
  intros Hg Hs. revert a. induction run as [|c run IH]; intros a; cbn [fold_left map].
  - now rewrite ac_comb_comm, ac_comb_unit.
  - rewrite IH, ac_val_cons, Hg, ac_comb_assoc.
    assert (E : ac_inj op (expr_nBits c, leaf_bits c) = leaf_bits c) by (destruct op; discriminate || reflexivity).
    now rewrite E.
Qed.

Lemma fold_left_ok w (g : Z -> Z -> Z) run a :
  (forall acc x, bv_ok w acc -> bv_ok w x -> bv_ok w (g acc x)) -> bv_ok w a ->
  Forall (fun c => bv_ok w (leaf_bits c)) run -> bv_ok w (fold_left (fun acc c => g acc (leaf_bits c)) run a).
Proof.
  intros Hg Ha H. revert a Ha. induction H as [|c run Hc _ IH]; intros a Ha; [assumption|].
  cbn. apply IH. now apply Hg.
Qed.

Lemma run_bits_ok op w run :
  same_type_op op = true -> Forall (elem op w) run -> forallb isIntegerConstant run = true ->
  Forall (fun c => bv_ok w (leaf_bits c)) run.
Proof.
  intros Hs He Hc. destruct (run_constants (fun _ => 0) op w run He Hc) as [_ H].
  unfold args_ok in H. rewrite Forall_map in H. rewrite Forall_forall in *. intros c Hin.
  rewrite <- (proj2 (proj2 (He c Hin)) Hs). now apply H.
Qed.

Lemma bitwise_ok (f : Z -> Z -> Z) (g : bool -> bool -> bool) :
  (forall a b i, Z.testbit (f a b) i = g (Z.testbit a i) (Z.testbit b i)) -> g false false = false ->
  forall w a b, 0 <= w -> bv_ok w a -> bv_ok w b -> bv_ok w (f a b).
Proof.
  intros Hf Hg w a b Hw Ha Hb. assert (E : f a b = f a b mod 2 ^ w); [|rewrite E; now apply mod_ok].
  apply Z.bits_inj'. intros i Hi. destruct (Z.ltb_spec i w).
  - now rewrite Z.mod_pow2_bits_low.
  - rewrite Z.mod_pow2_bits_high, Hf by lia. unfold bv_ok in *.
    rewrite <- (Z.mod_small a (2 ^ w)), <- (Z.mod_small b (2 ^ w)), !Z.mod_pow2_bits_high by lia. exact Hg.
Qed.

Lemma run_width_elem op w run :
  same_type_op op = true -> (2 <= length run)%nat -> Forall (elem op w) run -> run_width run = w /\ 0 < w.
Proof.
  intros Hs Hl He. destruct run as [|c run]; [cbn in Hl; lia|]. apply Forall_cons in He as [(Hg & _ & Hc) _].
  unfold run_width. cbn_args. rewrite <- (Hc Hs). split; [reflexivity|]. now apply Good_width_pos.
Qed.

(** The fold of a bitwise operator or of addition. *)
Lemma fold_sound_same op (g : Z -> Z -> Z -> Z) (start : list expr -> Z) (rest : list expr -> list expr) fold :
  same_type_op op = true ->
  (forall w acc x, 0 < w -> bv_ok w acc -> bv_ok w x -> bv_ok w (g w acc x)) ->
  (forall w acc x, 0 < w -> eqm w (g w acc x) (ac_comb op acc x)) ->
  (forall w run, 0 < w -> (2 <= length run)%nat -> run_width run = w -> Forall (fun c => bv_ok w (leaf_bits c)) run ->
    bv_ok w (start run) /\ Forall (fun c => bv_ok w (leaf_bits c)) (rest run) /\
    eqm w (ac_comb op (start run) (ac_val op (map (fun c => (expr_nBits c, leaf_bits c)) (rest run))))
          (ac_val op (map (fun c => (expr_nBits c, leaf_bits c)) run))) ->
  (forall run, fold run = makeIntegerConstant_bits (run_width run)
     (fold_left (fun acc c => g (run_width run) acc (leaf_bits c)) (rest run) (start run)) (fold_flags run)) ->
  fold_sound op fold.
Proof.
  intros Hs Hok Hcomb Hstart Hfold w run c Hl He Hc H. rewrite Hfold in H.
  destruct (run_width_elem op w run Hs Hl He) as [Hrw Hw]. rewrite Hrw in H.
  destruct (Hstart w run Hw Hl Hrw (run_bits_ok op w run Hs He Hc)) as (H1 & H2 & H3).
  assert (Hv : bv_ok w (fold_left (fun acc c => g w acc (leaf_bits c)) (rest run) (start run)))
    by (apply fold_left_ok; auto).
  apply (folded_elem op) in H as [Hel ->]; try assumption.
  split; [assumption|]. split; [congruence|]. intros env. apply seg_const; try assumption.
  - intros ->. discriminate.
  - rewrite (proj1 (run_constants env op w run He Hc)), <- H3, <- (fold_left_comb op w (g w)); try auto.
    destruct op; discriminate || reflexivity.
Qed.

Lemma AddSimplifier_fold_sound : fold_sound OP_ADD AddSimplifier_fold.
Proof.
  apply (fold_sound_same OP_ADD bv_add (fun _ => 0) (fun run => run)); try reflexivity.
  - intros w acc x Hw _ _. apply mod_ok. lia.
  - intros w acc x Hw. apply eqm_mod. lia.
  - intros w run Hw _ _ H. split; [unfold bv_ok; pose proof (pow2_pos w ltac:(lia)); lia|]. now split.
Qed.

Lemma AndSimplifier_fold_sound : fold_sound OP_AND AndSimplifier_fold.
Proof.
  apply (fold_sound_same OP_AND (fun _ => Z.land) (fun run => 2 ^ run_width run - 1) (fun run => run)); try reflexivity.
  - intros w acc x Hw. apply (bitwise_ok Z.land andb Z.land_spec eq_refl). lia.
  - intros w run Hw _ -> H. pose proof (pow2_pos w ltac:(lia)).
    split; [unfold bv_ok; lia|]. split; [assumption|].
    assert (E : eqm w (2 ^ w - 1) (-1)).
    { unfold eqm. replace (2 ^ w - 1) with (-1 + 1 * 2 ^ w) by lia. apply Z.mod_add. lia. }
    cbn [ac_comb]. rewrite E. now rewrite Z.land_m1_l.
Qed.

Lemma OrSimplifier_fold_sound : fold_sound OP_OR OrSimplifier_fold.
Proof.
  apply (fold_sound_same OP_OR (fun _ => Z.lor) (fun _ => 0) (fun run => run)); try reflexivity.
  - intros w acc x Hw. apply (bitwise_ok Z.lor orb Z.lor_spec eq_refl). lia.
  - intros w run Hw _ _ H. split; [unfold bv_ok; pose proof (pow2_pos w ltac:(lia)); lia|]. now split.
Qed.

Lemma XorSimplifier_fold_sound : fold_sound OP_XOR XorSimplifier_fold.
Proof.
  apply (fold_sound_same OP_XOR (fun _ => Z.lxor) (fun run => leaf_bits (nth_arg run 0)) (@tail expr)); try reflexivity.
  - intros w acc x Hw. apply (bitwise_ok Z.lxor xorb Z.lxor_spec eq_refl). lia.
  - intros w run Hw Hl _ H. destruct run as [|c run]; [cbn in Hl; lia|].
    apply Forall_cons in H as [H1 H2]. now repeat split; try apply H1.
Qed.

(** Products: the width and value of a prefix. *)
Lemma product_spec op mul W p run :
  (op = OP_UMUL /\ mul = bv_multiply) \/ (op = OP_SMUL /\ mul = bv_multiplySigned) ->
  0 < W -> bv_ok W p ->
  args_ok (map (fun c => (expr_nBits c, leaf_bits c)) run) ->
  let r := fold_left (fun '(w, p) c => (w + expr_nBits c, mul w p (expr_nBits c) (leaf_bits c))) run (W, p) in
  r.1 = W + sum_widths run /\ bv_ok r.1 r.2 /\ 0 < r.1 /\
  ac_inj op r = ac_comb op (ac_inj op (W, p)) (ac_val op (map (fun c => (expr_nBits c, leaf_bits c)) run)).
Proof.
  intros Hop HW Hp Hrun. revert W p HW Hp.
  induction run as [|c run IH]; intros W p HW Hp; cbn [fold_left map].
  - unfold sum_widths. cbn. rewrite ac_comb_comm, ac_comb_unit. repeat split; try apply Hp; lia.
  - apply Forall_cons in Hrun as [[Hwc Hc] Hrun]. cbn [fst snd] in Hwc, Hc.
    set (p' := mul W p (expr_nBits c) (leaf_bits c)).
    assert (H : bv_ok (W + expr_nBits c) p' /\
      ac_inj op (W + expr_nBits c, p') = ac_comb op (ac_inj op (W, p)) (ac_inj op (expr_nBits c, leaf_bits c))).
    { assert (Hl : args_ok [(W, p); (expr_nBits c, leaf_bits c)]) by (apply Forall_cons; split; [now split|]; apply Forall_singleton; now split).
      assert (Hws : widths [(W, p); (expr_nBits c, leaf_bits c)] = W + expr_nBits c) by (unfold widths; cbn; lia).
      assert (Hne : [(W, p); (expr_nBits c, leaf_bits c)] <> []) by discriminate.
      subst p'. destruct Hop as [[-> ->]|[-> ->]].
      - rewrite multiply_spec by (assumption || lia). pose proof (umul_exact _ Hne Hl) as H.
        rewrite Hws, ac_val_cons, ac_val_one in H. now split.
      - rewrite multiplySigned_spec by (assumption || lia). split; [apply mod_ok; lia|].
        pose proof (smul_exact _ Hne Hl) as H. rewrite Hws, ac_val_cons, ac_val_one in H. exact H. }
    destruct H as [H1 H2]. destruct (IH Hrun (W + expr_nBits c) p' ltac:(lia) H1) as (H3 & H4 & H5 & H6).
    cbv zeta in *. rewrite ac_val_cons, ac_comb_assoc, <- H2. split; [|split; [exact H4 | split; [exact H5 | exact H6]]].
    rewrite H3. unfold sum_widths. cbn [map fold_right]. lia.
Qed.

(** A product of constants, whichever of the two. *)
Lemma product_fold_sound op mul fold :
  (op = OP_UMUL /\ mul = bv_multiply) \/ (op = OP_SMUL /\ mul = bv_multiplySigned) ->
  (forall run, fold run = let (w, p) := product mul run in makeIntegerConstant_bits w p (fold_flags run)) ->
  fold_sound op fold.
Proof.
  intros Hop Hfold w run c Hl He Hc H. rewrite Hfold in H.
  pose proof (fun env => proj1 (run_constants env op w run He Hc)) as Hm.
  destruct (run_constants (fun _ => 0) op w run He Hc) as [_ Hok].
  destruct run as [|c0 run]; [cbn in Hl; lia|]. apply Forall_cons in Hok as [[Hw0 Hv0] Hok].
  unfold product, run_width in H. cbn_args. cbn [tail fst snd] in *.
  pose proof (product_spec op mul (expr_nBits c0) (leaf_bits c0) run Hop Hw0 Hv0 Hok) as Hp. cbv zeta in Hp.
  destruct (fold_left _ run (expr_nBits c0, leaf_bits c0)) as [W p]. destruct Hp as (HW & Hv & Hpos & Hval).
  cbn [fst snd] in *. apply (folded_elem op) in H as [Hel ->]; try assumption.
  assert (Hs : same_type_op op = false) by now destruct Hop as [[-> _]|[-> _]].
  split; [|split].
  - destruct Hel as (H1 & H2 & _). split; [assumption|]. split; [assumption|congruence].
  - intros _. exact HW.
  - intros env. unfold seg_eq. destruct (op_eqb op OP_CONCAT) eqn:E.
    + apply op_eqb_spec in E as ->. destruct Hop as [[? _]|[? _]]; discriminate.
    + rewrite (Hm env). cbn [map]. rewrite ac_val_one, ac_val_cons, <- Hval. reflexivity.
Qed.

Lemma UmulSimplifier_fold_sound : fold_sound OP_UMUL UmulSimplifier_fold.
Proof. apply (product_fold_sound OP_UMUL bv_multiply); [now left | reflexivity]. Qed.

Lemma SmulSimplifier_fold_sound : fold_sound OP_SMUL SmulSimplifier_fold.
Proof. apply (product_fold_sound OP_SMUL bv_multiplySigned); [now right | reflexivity]. Qed.

Lemma const_args_cons c run :
  args_ok (map (fun c => (expr_nBits c, leaf_bits c)) (c :: run)) ->
  0 < expr_nBits c /\ bv_ok (expr_nBits c) (leaf_bits c) /\
  args_ok (map (fun c => (expr_nBits c, leaf_bits c)) run).
Proof. intros H. apply Forall_cons in H as [[? ?] ?]. split; [|split]; assumption. Qed.

(** Concatenation: after a prefix, the accumulator holds its bits above [sa]. *)
Lemma concat_fold_spec sa P run :
  args_ok (map (fun c => (expr_nBits c, leaf_bits c)) run) -> sum_widths run <= sa ->
  fold_left (fun '(sa, acc) c =>
      let sa := sa - expr_nBits c in (sa, set_bits acc sa (expr_nBits c) (leaf_bits c)))
    run (sa, P * 2 ^ sa) =
  (sa - sum_widths run,
   (P * 2 ^ sum_widths run + (concat_val (map (fun c => (expr_nBits c, leaf_bits c)) run)).2) *
   2 ^ (sa - sum_widths run)).
Proof.
  intros Hok. revert sa P. induction run as [|c run IH]; intros sa P Hsa; cbn [fold_left map].
  - unfold sum_widths. cbn. f_equal; [lia|]. rewrite Z.sub_0_r. lia.
  - apply const_args_cons in Hok as (Hw & Hv & Hok).
    pose proof (concat_val_ok _ Hok) as [Hcw _].
    assert (Hcs : (concat_val (map (fun c => (expr_nBits c, leaf_bits c)) run)).1 = sum_widths run)
      by (rewrite concat_val_width, map_map; reflexivity).
    assert (Hs : sum_widths (c :: run) = expr_nBits c + sum_widths run) by reflexivity.
    rewrite Hs in Hsa |- *. rewrite Hcs in Hcw. set (lo := sa - expr_nBits c).
    assert (Hlo : 0 <= lo) by (subst lo; lia).
    assert (E : set_bits (P * 2 ^ sa) lo (expr_nBits c) (leaf_bits c) =
      (P * 2 ^ expr_nBits c + leaf_bits c) * 2 ^ lo).
    { unfold set_bits. replace (lo + expr_nBits c) with sa by (subst lo; lia).
      rewrite (Z.mod_small (leaf_bits c)) by exact Hv.
      assert (H1 : P * 2 ^ sa = P * 2 ^ expr_nBits c * 2 ^ lo).
      { rewrite <- Z.mul_assoc, <- Z.pow_add_r by lia. do 2 f_equal. subst lo. lia. }
      rewrite Z.div_mul by (pose proof (pow2_pos sa ltac:(lia)); lia).
      rewrite H1 at 1. rewrite Z.mod_mul by (pose proof (pow2_pos lo ltac:(subst lo; lia)); lia).
      rewrite H1. lia. }
    rewrite E. cbv zeta. rewrite IH by (assumption || subst lo; lia). rewrite concat_val_cons.
    unfold concat2. cbn [fst snd]. rewrite Hcs. f_equal; [subst lo; lia|].
    replace (lo - sum_widths run) with (sa - (expr_nBits c + sum_widths run)) by (subst lo; lia).
    f_equal. rewrite (Z.pow_add_r 2 (expr_nBits c)) by lia. lia.
Qed.

Lemma ConcatSimplifier_fold_sound : fold_sound OP_CONCAT ConcatSimplifier_fold.
Proof.
  intros w run c Hl He Hc H.
  destruct (run_constants (fun _ => 0) OP_CONCAT w run He Hc) as [_ Hok].
  pose proof (concat_val_ok _ Hok) as [Hcw Hv].
  assert (Hcs : (concat_val (map (fun c => (expr_nBits c, leaf_bits c)) run)).1 = sum_widths run)
    by (rewrite concat_val_width, map_map; reflexivity).
  assert (Ht : total_width run = sum_widths run) by (unfold total_width; rewrite total_width_widths; reflexivity).
  unfold ConcatSimplifier_fold in H. rewrite Ht in H.
  pose proof (concat_fold_spec (sum_widths run) 0 run Hok ltac:(lia)) as Hf.
  rewrite !Z.mul_0_l, Z.sub_diag, Z.pow_0_r, Z.mul_1_r, Z.add_0_l in Hf. cbv zeta in Hf. rewrite Hf in H. rewrite Hcs in Hv.
  assert (Hpos : 0 < sum_widths run).
  { destruct run as [|c0 run]; [cbn in Hl; lia|]. apply const_args_cons in Hok as (Hw0 & _ & Hok).
    pose proof (widths_ge _ Hok) as Hg. unfold widths in Hg. rewrite map_map in Hg. cbn [fst] in Hg.
    unfold sum_widths. cbn [map fold_right]. change (fun x => expr_nBits x) with expr_nBits in Hg. lia. }
  apply (folded_elem OP_CONCAT) in H as [(H1 & H2 & _) ->]; try assumption.
  split; [|split].
  - split; [assumption|]. split; [assumption|discriminate].
  - reflexivity.
  - intros env. unfold seg_eq. cbn [map]. change (op_eqb OP_CONCAT OP_CONCAT) with true. cbv iota.
    rewrite (proj1 (run_constants env OP_CONCAT w run He Hc)), concat_val_cons. unfold wv, concat2.
    cbn [concat_val fold_right fst snd eval expr_nBits expr_type map].
    rewrite Z.pow_0_r, Z.mul_1_r, !Z.add_0_r. unfold expr_nBits at 1. cbn [expr_type nBits]. rewrite <- Hcs.
    now destruct (concat_val _).
Qed.
End Sound.
