(* ===== verification/SymSound.v ===== *)
(** Soundness of the simplifiers ([SymbolicExpression.C]): every rewriting of
    an operator, and [Interior::simplifyTop] as a whole, keeps the type and the
    value of a good expression. *)
From S2P Require Import Prelude BitVector SymType SymExpr SymSimplify SymEval SymGood SymAC.
From Stdlib Require Import Permutation Morphisms Setoid.
Open Scope Z_scope.

Section Sound.
Variable uf : Operator -> Z -> list Z -> Z.
Variable ctx : (Z -> Z) -> Prop.

#[local] Notation sound op p := (sound_pass uf ctx op p).
#[local] Notation ev env e := (eval uf env e).

(** ** Operands *)

Lemma int_arg a :
  Good a -> isIntegerExpr a = true ->
  0 < expr_nBits a <= 32767 /\ expr_type a = mkType INTEGER (expr_nBits a) 0 /\
  forall env, bv_ok (expr_nBits a) (ev env a).
Proof.
  intros Ha Hi. split; [exact (wt_width a (proj1 Ha))|]. split; [apply Pre_integer_type; [now apply Good_Pre | assumption]|].
  intros env. apply eval_ok, Ha.
Qed.

Lemma const_arg a v :
  Good a -> integer_constant a = Some v ->
  isIntegerExpr a = true /\ isConstant a = true /\ leaf_bits a = v /\ bv_ok (expr_nBits a) v /\
  (forall env, ev env a = v) /\ exists f, a = Const (mkType INTEGER (expr_nBits a) 0) v f.
Proof.
  intros Ha H. pose proof (fun env => integer_constant_eval uf env a v Ha H) as Hv.
  apply integer_constant_Some in H as (t & f & -> & Ht).
  assert (Hi : isIntegerExpr (Const t v f) = true) by now apply bool_decide_eq_true_2.
  split; [assumption|]. split; [reflexivity|]. split; [reflexivity|].
  split; [apply (Hv (fun _ => 0))|]. split; [intros env; apply Hv|]. exists f.
  destruct (int_arg _ Ha Hi) as (_ & E & _). cbn [expr_type] in E. now rewrite <- E.
Qed.

(** A node replaced by one of its operands, or by a constant. *)
Lemma sound_operand op t cs f a :
  Pre (Node op t cs f) -> Good a -> expr_type a = t ->
  (forall env, ctx env -> ev env a = eval_list uf env op (nBits t) cs) ->
  denotes uf ctx Pre a t (fun env => eval_list uf env op (nBits t) cs).
Proof. intros _ Ha Ht Hv. split; [now apply Good_Pre|]. now split. Qed.

Lemma sound_const (w v fl : Z) (t : type) (g : (Z -> Z) -> Z) :
  t = mkType INTEGER w 0 -> 0 < w <= 32767 -> bv_ok w v -> (forall env, ctx env -> g env = v) ->
  denotes uf ctx Pre (Const (mkType INTEGER w 0) v fl) t g.
Proof. intros -> Hw Hv Hg. now apply denotes_weaken, denotes_const. Qed.

Lemma folded_Ret e w v r : folded e w v = Ret (Some r) -> r = Const (mkType INTEGER w 0) v (expr_flags e).
Proof.
  unfold folded, some. intros H. inv_outcome. subst.
  now apply makeIntegerConstant_bits_Ret in H0 as [-> _].
Qed.

Lemma folded_bool_Ret e b r :
  folded_bool e b = Ret (Some r) -> r = Const (mkType INTEGER 1 0) (bool_Z b) (expr_flags e).
Proof.
  unfold folded_bool, some, makeBooleanConstant, createConstant. intros H. inv_outcome. subst.
  match goal with H : type_integer 1 = _ |- _ => apply type_integer_Ret in H as [-> _] end. now destruct b.
Qed.

Lemma bool_Z_mod b : bool_Z b mod 2 ^ 1 = bool_Z b.
Proof. apply Z.mod_small, bool_Z_ok. Qed.

(** ** Unary operators *)

(** The operand of a unary operator whose type the result has. *)
Lemma unary_node op t cs f :
  op = OP_INVERT \/ op = OP_NEGATE \/ op = OP_LSSB \/ op = OP_MSSB -> Pre (Node op t cs f) ->
  exists a, cs = [a] /\ Good a /\ isIntegerExpr a = true /\ expr_type a = t /\ expr_nBits a = nBits t /\
    t = mkType INTEGER (nBits t) 0 /\ 0 < nBits t <= 32767.
Proof.
  intros Hop Hp. open_node Hp.
  assert (H : ints cs = true /\ length cs = 1%nat /\ t = expr_type (nth_arg cs 0)).
  { destruct Hop as [->|[->|[->| ->]]]; cbn [ok_node] in Hok; [|inv_width Ha; subst; auto..].
    destr_bool. apply Nat.eqb_eq in H0. split; [assumption|]. split; [assumption|].
    apply adjustWidth_Ret in Ha as (Ha & _ & _). apply width_default in Ha. name_args cs. now split_Forall. }
  destruct H as (Hi & Hl & Ht). name_args cs. cbn in Hi. destr_bool. split_Forall. exists a.
  match goal with H : Good a, Hi : isIntegerExpr a = true |- _ => destruct (int_arg a H Hi) as (Hwa & Hta & _);
    subst t; exact (conj eq_refl (conj H (conj Hi (conj eq_refl (conj eq_refl (conj Hta Hw)))))) end.
Qed.

Lemma complement_ok w v : 0 <= w -> bv_ok w v -> (-1 - v) mod 2 ^ w = 2 ^ w - 1 - v /\ bv_ok w (2 ^ w - 1 - v).
Proof.
  intros Hw Hv. unfold bv_ok in *. split; [|lia]. symmetry. apply Z.mod_unique with (q := -1); lia.
Qed.

Lemma neg_mod_twice w v : 0 <= w -> bv_ok w v -> (- ((- v) mod 2 ^ w)) mod 2 ^ w = v.
Proof.
  intros Hw Hv. assert (E : eqm w (- ((- v) mod 2 ^ w)) v) by (rewrite eqm_mod by assumption; now rewrite Z.opp_involutive).
  rewrite E. now apply Z.mod_small.
Qed.

Lemma involutary_sound op : op = OP_INVERT \/ op = OP_NEGATE -> sound op involutary.
Proof.
  intros Hop t cs f r Hp H. destruct (unary_node op t cs f) as (a & -> & Ha & Hi & Ht & Hwa & Et & Hw); [tauto|assumption|].
  unfold involutary in H. cbn [children getOperator] in H.
  destruct a as [| |op' t' cs' f']; try discriminate. destruct cs' as [|b [|? ?]]; try discriminate.
  destruct (op_eqb op' op) eqn:E; [|discriminate]. apply op_eqb_spec in E as ->. injection H as <-.
  pose proof (proj1 (Good_node _ _ _ _) Ha) as [Hp' _].
  destruct (unary_node op t' [b] f') as (b' & Eb & Hb & Hib & Htb & Hwb & Et' & _); [tauto|assumption|].
  injection Eb as <-. cbn [expr_type] in Ht. subst t'.
  apply (sound_operand op t _ f); [assumption|assumption|assumption|]. intros env _.
  pose proof (eval_ok uf env b (proj1 Hb)) as Hv. rewrite Hwb in Hv.
  destruct Hop as [->| ->]; eval_args; rewrite eval_node; eval_args; symmetry.
  - destruct (complement_ok (nBits t) (ev env b)) as [-> H2]; [lia|assumption|].
    destruct (complement_ok (nBits t) _ ltac:(lia) H2) as [-> _]. lia.
  - apply neg_mod_twice; [lia|assumption].
Qed.

Lemma InvertSimplifier_sound : sound OP_INVERT InvertSimplifier_rewrite.
Proof.
  intros t cs f r Hp H. destruct (unary_node OP_INVERT t cs f ltac:(auto) Hp) as (a & -> & Ha & Hi & Ht & Hwa & Et & Hw).
  unfold InvertSimplifier_rewrite, arg_constant in H. cbn_args.
  destruct (integer_constant a) as [v|] eqn:E; [|discriminate].
  destruct (const_arg a v Ha E) as (_ & _ & _ & Hv & Hev & _). apply folded_Ret in H as ->. rewrite Hwa in *.
  rewrite invert_spec by (assumption || lia). destruct (complement_ok (nBits t) v ltac:(lia) Hv) as [E1 E2].
  apply sound_const; try assumption. intros env _. eval_args. now rewrite Hev.
Qed.

Lemma NegateSimplifier_sound : sound OP_NEGATE NegateSimplifier_rewrite.
Proof.
  intros t cs f r Hp H. destruct (unary_node OP_NEGATE t cs f ltac:(auto) Hp) as (a & -> & Ha & Hi & Ht & Hwa & Et & Hw).
  unfold NegateSimplifier_rewrite, arg_constant in H. cbn_args.
  destruct (integer_constant a) as [v|] eqn:E; [|discriminate].
  destruct (const_arg a v Ha E) as (_ & _ & _ & Hv & Hev & _). apply folded_Ret in H as ->. rewrite Hwa in *.
  rewrite negate_spec by (assumption || lia).
  apply sound_const; try assumption; [apply mod_ok; lia|]. intros env _. eval_args. now rewrite Hev.
Qed.

Lemma log2_ok w x : 0 < w -> 0 <= x < 2 ^ w -> bv_ok w (Z.log2 x) /\ 0 <= Z.log2 x < w.
Proof.
  intros Hw Hx. pose proof (Z.log2_nonneg x). pose proof (Z.pow_gt_lin_r 2 w ltac:(lia) ltac:(lia)).
  assert (Z.log2 x < w).
  { destruct (Z.eq_dec x 0) as [->|Hz]; [cbn; lia|]. apply Z.log2_lt_pow2; lia. }
  unfold bv_ok. lia.
Qed.

Lemma lowest_bit_ok w v : 0 <= w -> bv_ok w v -> bv_ok w (Z.land v (- v)).
Proof.
  intros Hw Hv. assert (E : eqm w (Z.land v (- v)) (Z.land v ((- v) mod 2 ^ w)))
    by (now rewrite eqm_mod by assumption).
  assert (Hn : 0 <= Z.land v (- v)) by (apply Z.land_nonneg; left; apply Hv).
  split; [assumption|]. apply Z.bounded_iff_bits_nonneg; [assumption..|]. intros l Hl. rewrite Z.land_spec.
  rewrite <- (Z.mod_small v (2 ^ w)) at 1 by exact Hv. now rewrite Z.mod_pow2_bits_high by lia.
Qed.

(** The index of a bit as a constant. *)
Lemma index_const w idx fl r t g :
  t = mkType INTEGER w 0 -> 0 < w <= 32767 -> bv_ok w idx -> 0 <= idx < w ->
  some (makeIntegerConstant w idx fl) = Ret (Some r) -> (forall env, ctx env -> g env = idx) ->
  denotes uf ctx Pre r t g.
Proof.
  intros Ht Hw Hv Hi H Hg. unfold some in H. inv_outcome. subst.
  match goal with H : makeIntegerConstant _ _ _ = _ |- _ => apply makeIntegerConstant_Ret in H as (-> & _ & _) end.
  assert (E : 32767 < 2 ^ 64) by reflexivity. unfold bv_ok in Hv.
  rewrite fromInteger_id by lia. now apply sound_const.
Qed.

Lemma LssbSimplifier_sound : sound OP_LSSB LssbSimplifier_rewrite.
Proof.
  intros t cs f r Hp H. destruct (unary_node OP_LSSB t cs f ltac:(auto) Hp) as (a & -> & Ha & Hi & Ht & Hwa & Et & Hw).
  unfold LssbSimplifier_rewrite, arg_constant in H. cbn_args.
  destruct (integer_constant a) as [v|] eqn:E; [|discriminate].
  destruct (const_arg a v Ha E) as (_ & _ & _ & Hv & Hev & _). rewrite Hwa in Hv.
  pose proof (log2_ok (nBits t) _ ltac:(lia) (lowest_bit_ok (nBits t) v ltac:(lia) Hv)) as [H1 H2].
  unfold bv_leastSignificantSetBit in H. destruct (Z.eqb_spec v 0) as [->|Hz].
  - eapply index_const; try eassumption; intros env _; eval_args; rewrite Hev; reflexivity.
  - eapply index_const; try eassumption; intros env _; eval_args; rewrite Hev; now apply Z.mod_small.
Qed.

Lemma MssbSimplifier_sound : sound OP_MSSB MssbSimplifier_rewrite.
Proof.
  intros t cs f r Hp H. destruct (unary_node OP_MSSB t cs f ltac:(auto) Hp) as (a & -> & Ha & Hi & Ht & Hwa & Et & Hw).
  unfold MssbSimplifier_rewrite, arg_constant in H. cbn_args.
  destruct (integer_constant a) as [v|] eqn:E; [|discriminate].
  destruct (const_arg a v Ha E) as (_ & _ & _ & Hv & Hev & _). rewrite Hwa in Hv.
  pose proof (log2_ok (nBits t) _ ltac:(lia) Hv) as [H1 H2].
  unfold bv_mostSignificantSetBit in H. destruct (Z.eqb_spec v 0) as [->|Hz].
  - eapply index_const; try eassumption; intros env _; eval_args; rewrite Hev; reflexivity.
  - eapply index_const; try eassumption; intros env _; eval_args; rewrite Hev; now apply Z.mod_small.
Qed.

Lemma ZeropSimplifier_sound : sound OP_ZEROP ZeropSimplifier_rewrite.
Proof.
  intros t cs f r Hp H. open_node Hp. inv_width Ha. name_args cs. split_Forall. subst t.
  unfold ZeropSimplifier_rewrite, arg_constant in H. cbn_args.
  destruct (integer_constant a) as [v|] eqn:E; [|discriminate].
  match goal with Ha : Good a |- _ => destruct (const_arg a v Ha E) as (_ & _ & _ & Hv & Hev & _) end.
  apply folded_bool_Ret in H as ->. apply sound_const; [reflexivity|lia|apply bool_Z_ok|].
  intros env _. eval_args. rewrite Hev. apply bool_Z_mod.
Qed.

Lemma unary_operand_sound op a t f :
  op = OP_NOOP \/ op = OP_REINTERPRET \/ op = OP_CONVERT -> Pre (Node op t [a] f) -> expr_type a = t ->
  denotes uf ctx Pre a t (fun env => eval_list uf env op (nBits t) [a]).
Proof.
  intros Hop Hp Ht. pose proof Hp as Hp'. apply Pre_node in Hp as (_ & _ & Hg & _). split_Forall.
  apply (sound_operand op t [a] f); [assumption..|]. intros env _.
  match goal with Ha : Good a |- _ => pose proof (eval_ok uf env a (proj1 Ha)) as Hv end.
  unfold expr_nBits in Hv. rewrite Ht in Hv. symmetry.
  destruct Hop as [->|[->| ->]]; eval_args; now apply Z.mod_small.
Qed.

Lemma NoopSimplifier_sound : sound OP_NOOP NoopSimplifier_rewrite.
Proof.
  intros t cs f r Hp H. unfold NoopSimplifier_rewrite in H. cbn [children] in H.
  destruct cs as [|a [|? ?]]; try discriminate. injection H as <-.
  apply (unary_operand_sound OP_NOOP a t f); [tauto|assumption|].
  apply Pre_node in Hp as (_ & Ha & _). apply adjustWidth_Ret in Ha as (Ha & _).
  apply width_default in Ha. now split_Forall.
Qed.

Lemma ReinterpretSimplifier_sound : sound OP_REINTERPRET ReinterpretSimplifier_rewrite.
Proof.
  intros t cs f r Hp H. unfold ReinterpretSimplifier_rewrite in H.
  case_bool_decide as E; [|discriminate]. injection H as <-. pose proof Hp as Hp'.
  open_node Hp. inv_width Ha. name_args cs. apply (unary_operand_sound OP_REINTERPRET a t f); [tauto|assumption|].
  now rewrite <- E.
Qed.

(** ** Comparisons *)

Definition compare_op (op : Operator) : bool :=
  match op with
  | OP_EQ | OP_NE | OP_SGE | OP_SGT | OP_SLE | OP_SLT | OP_UGE | OP_UGT | OP_ULE | OP_ULT => true
  | _ => false
  end.

Lemma compare_node op t cs f :
  compare_op op = true -> Pre (Node op t cs f) ->
  exists a b, cs = [a; b] /\ Good a /\ Good b /\ isIntegerExpr a = true /\ isIntegerExpr b = true /\
    expr_nBits b = expr_nBits a /\ 0 < expr_nBits a /\ t = mkType INTEGER 1 0.
Proof.
  intros Hop Hp. open_node Hp.
  assert (H : length cs = 2%nat /\ isIntegerExpr (nth_arg cs 0) = true /\ isIntegerExpr (nth_arg cs 1) = true /\
    expr_nBits (nth_arg cs 0) = expr_nBits (nth_arg cs 1) /\ t = mkType INTEGER 1 0)
    by (destruct op; try discriminate Hop; clear Hok; inv_width Ha; auto).
  destruct H as (Hl & Hi & Hi' & E & ->). name_args cs. split_Forall. exists a, b.
  match goal with H : Good a |- _ => pose proof (Good_width_pos a H) end. auto 10.
Qed.

Lemma compare_sound op cmp test :
  compare_op op = true ->
  (forall w a b, 0 < w -> bv_ok w a -> bv_ok w b -> cmp w a w b = compare_same a b \/ cmp w a w b = compare_same (sval w a) (sval w b)) ->
  (forall w a b, 0 < w -> bv_ok w a -> bv_ok w b -> eval_op2 uf op 1 (w, a) (w, b) = bool_Z (test (cmp w a w b))) ->
  sound op (compare_rewrite cmp test).
Proof.
  intros Hop Hcmp Hval t cs f r Hp H.
  destruct (compare_node op t cs f Hop Hp) as (a & b & -> & Ha & Hb & Hia & Hib & Hw & Hpos & ->).
  assert (Hev : forall env, eval_list uf env op 1 [a; b] =
    bool_Z (test (cmp (expr_nBits a) (ev env a) (expr_nBits a) (ev env b)))).
  { intros env. destruct (int_arg a Ha Hia) as (_ & _ & Hva), (int_arg b Hb Hib) as (_ & _ & Hvb). rewrite Hw in Hvb.
    rewrite <- Hval by auto. unfold eval_list, eval_op. cbn [map]. unfold wv. rewrite Hw.
    destruct op; try discriminate Hop; cbn -[Z.pow Z.modulo bool_Z]; apply bool_Z_mod. }
  unfold compare_rewrite in H. cbn_args.
  assert (Hfold : forall va vb, integer_constant a = Some va -> integer_constant b = Some vb ->
    folded_bool (Node op (mkType INTEGER 1 0) [a; b] f) (test (cmp (expr_nBits a) va (expr_nBits b) vb)) = Ret (Some r) ->
    denotes uf ctx Pre r (mkType INTEGER 1 0) (fun env => eval_list uf env op 1 [a; b])).
  { intros va vb Ea Eb H'. destruct (const_arg a va Ha Ea) as (_ & _ & _ & _ & Eva & _).
    destruct (const_arg b vb Hb Eb) as (_ & _ & _ & _ & Evb & _).
    apply folded_bool_Ret in H' as ->. apply sound_const; [reflexivity|lia|apply bool_Z_ok|].
    intros env _. rewrite Hev, Eva, Evb, Hw. reflexivity. }
  assert (Hsame : (if test 0 then let! same := mustEqual None a b in
      if same then folded_bool (Node op (mkType INTEGER 1 0) [a; b] f) true else Ret None else Ret None) = Ret (Some r) ->
    denotes uf ctx Pre r (mkType INTEGER 1 0) (fun env => eval_list uf env op 1 [a; b])).
  { destruct (test 0) eqn:Et; [|discriminate]. intros H'. inv_outcome. destruct x; [|discriminate].
    apply folded_bool_Ret in H' as ->. apply sound_const; [reflexivity|lia|apply bool_Z_ok|].
    intros env Henv. rewrite Hev.
    rewrite (mustEqual_eval uf env None a b (solver_ok_None uf ctx env Henv) (proj1 Ha) (proj1 Hb) H0).
    destruct (int_arg b Hb Hib) as (_ & _ & Hvb). rewrite Hw in Hvb.
    assert (E : cmp (expr_nBits a) (ev env b) (expr_nBits a) (ev env b) = 0).
    { destruct (Hcmp (expr_nBits a) (ev env b) (ev env b)) as [->| ->]; auto;
        unfold compare_same; now rewrite Z.ltb_irrefl. }
    now rewrite E, Et. }
  destruct (integer_constant a) as [va|] eqn:Ea; [|now apply Hsame].
  destruct (integer_constant b) as [vb|] eqn:Eb; [|now apply Hsame]. now apply (Hfold va vb).
Qed.

Lemma compare_unsigned w a b : 0 < w -> bv_ok w a -> bv_ok w b -> bv_compare w a w b = compare_same a b.
Proof. intros Hw Ha Hb. apply compare_spec; assumption || lia. Qed.

(** The comparison of each simplifier is the one its operator means. *)
Ltac compare_case spec :=
  apply compare_sound; [reflexivity | intros; rewrite spec by assumption; auto |];
  intros; cbn [eval_op2]; rewrite spec by assumption; f_equal; cbv beta; unfold compare_same;
  match goal with |- context [if ?x <? ?y then _ else _] => destruct (Z.ltb_spec x y), (Z.ltb_spec y x) end;
  case_cmp;
  first [reflexivity | exfalso; lia].

Lemma EqSimplifier_sound : sound OP_EQ EqSimplifier_rewrite.
Proof. compare_case compare_unsigned. Qed.
Lemma UgeSimplifier_sound : sound OP_UGE UgeSimplifier_rewrite.
Proof. compare_case compare_unsigned. Qed.
Lemma UgtSimplifier_sound : sound OP_UGT UgtSimplifier_rewrite.
Proof. compare_case compare_unsigned. Qed.
Lemma UleSimplifier_sound : sound OP_ULE UleSimplifier_rewrite.
Proof. compare_case compare_unsigned. Qed.
Lemma UltSimplifier_sound : sound OP_ULT UltSimplifier_rewrite.
Proof. compare_case compare_unsigned. Qed.
Lemma SgeSimplifier_sound : sound OP_SGE SgeSimplifier_rewrite.
Proof. compare_case compareSigned_spec. Qed.
Lemma SgtSimplifier_sound : sound OP_SGT SgtSimplifier_rewrite.
Proof. compare_case compareSigned_spec. Qed.
Lemma SleSimplifier_sound : sound OP_SLE SleSimplifier_rewrite.
Proof. compare_case compareSigned_spec. Qed.
Lemma SltSimplifier_sound : sound OP_SLT SltSimplifier_rewrite.
Proof. compare_case compareSigned_spec. Qed.

(** Equality and inequality do not depend on the order of their operands. *)
Lemma commutative_compare_sound addr op : op = OP_EQ \/ op = OP_NE -> sound op (commutative addr).
Proof.
  intros Hop t cs f r Hp H.
  destruct (compare_node op t cs f) as (a & b & -> & Ha & Hb & Hia & Hib & Hw & Hpos & ->);
    [destruct Hop as [->| ->]; reflexivity|assumption|].
  unfold commutative in H. cbn [children] in H. destruct (all2 _ _ _); [discriminate|].
  assert (Hperm : sort_operands (commutative_order addr) [a; b] = [a; b] \/
                  sort_operands (commutative_order addr) [a; b] = [b; a])
    by (apply Permutation_length_2_inv, Permutation_sym, sort_operands_perm).
  eapply rebuild_sound; try eassumption; try reflexivity.
  - destruct Hperm as [->| ->]; repeat (constructor; [assumption|]); constructor.
  - destruct Hperm as [->| ->], Hop as [->| ->]; cbn; now rewrite ?Hia, ?Hib.
  - intros env _. destruct Hperm as [->| ->]; [reflexivity|].
    destruct Hop as [->| ->]; eval_args; now rewrite Z.eqb_sym.
Qed.

(** ** Division *)

Definition division_op (op : Operator) : bool :=
  match op with OP_SDIV | OP_SMOD | OP_UDIV | OP_UMOD => true | _ => false end.

(** The operand whose width the result has. *)
Definition division_width (op : Operator) : nat :=
  match op with OP_SDIV | OP_UDIV => 0 | _ => 1 end.

Lemma division_node op t cs f :
  division_op op = true -> Pre (Node op t cs f) ->
  exists a b, cs = [a; b] /\ Good a /\ Good b /\ isIntegerExpr a = true /\ isIntegerExpr b = true /\
    t = expr_type (nth_arg [a; b] (division_width op)).
Proof.
  intros Hop Hp. open_node Hp.
  assert (H : length cs = 2%nat /\ isIntegerExpr (nth_arg cs 0) = true /\ isIntegerExpr (nth_arg cs 1) = true /\
    t = expr_type (nth_arg cs (division_width op)))
    by (destruct op; try discriminate Hop; clear Hok; cbn [division_width]; inv_width Ha; auto).
  destruct H as (Hl & Hi & Hi' & E).
  destruct cs as [|a [|b [|? ?]]]; try discriminate Hl. split_Forall. exists a, b. cbn_args. auto 10.
Qed.

Lemma fromInteger_mod w q : 0 <= w <= 64 -> bv_fromInteger w (q mod 2 ^ 64) = q mod 2 ^ w.
Proof.
  intros Hw. rewrite fromInteger_spec by (try lia; apply Z.mod_pos_bound; reflexivity).
  apply (eqm_le w 64); [assumption|]. apply eqm_mod. lia.
Qed.

Lemma division_sound op value divide :
  division_op op = true ->
  (forall wa va fa wb vb fb xa xb q w,
     0 < wa <= 64 -> bv_ok wa va -> 0 < wb <= 64 -> bv_ok wb vb -> vb <> 0 ->
     value (Const (mkType INTEGER wa 0) va fa) = Some xa -> value (Const (mkType INTEGER wb 0) vb fb) = Some xb ->
     divide xa xb = Ret q -> eval_op2 uf op w (wa, va) (wb, vb) = q) ->
  sound op (division_rewrite value divide (division_width op)).
Proof.
  intros Hop Hdiv t cs f r Hp H.
  destruct (division_node op t cs f Hop Hp) as (a & b & -> & Ha & Hb & Hia & Hib & Et).
  unfold division_rewrite, arg_constant in H. cbn [arg children] in H.
  change (arg (Node op t [a; b] f) 0) with a in H. change (arg (Node op t [a; b] f) 1) with b in H.
  destruct (integer_constant a) as [va|] eqn:Ea; [|discriminate].
  destruct (integer_constant b) as [vb|] eqn:Eb; [|discriminate].
  destruct (const_arg a va Ha Ea) as (_ & _ & _ & Hva & Eva & fa & Ca).
  destruct (const_arg b vb Hb Eb) as (_ & _ & _ & Hvb & Evb & fb & Cb).
  destruct (int_arg a Ha Hia) as (Hwa & Hta & _), (int_arg b Hb Hib) as (Hwb & Htb & _).
  destruct (negb _ && _ && _) eqn:Ec; [|discriminate]. destr_bool.
  match goal with H : negb _ = true |- _ => apply negb_true_iff, Z.eqb_neq in H end.
  repeat match goal with H : (_ <=? _) = true |- _ => apply Z.leb_le in H end.
  inv_outcome. unfold get_some in *.
  destruct (value a) as [xa|] eqn:Va; [|discriminate]. destruct (value b) as [xb|] eqn:Vb; [|discriminate].
  inv_outcome. subst x x0.
  assert (Hq : eval_op2 uf op (nBits t) (expr_nBits a, va) (expr_nBits b, vb) = x1).
  { rewrite Ca in Va. rewrite Cb in Vb. eapply Hdiv; try eassumption; lia. }
  set (c := arg (Node op t [a; b] f) (division_width op)) in *.
  assert (Hc : c = a \/ c = b) by (subst c; destruct op; try discriminate Hop; auto).
  assert (Htc : t = mkType INTEGER (expr_nBits c) 0 /\ 0 < expr_nBits c <= 64).
  { assert (Et' : t = expr_type c) by exact Et. rewrite Et'. destruct Hc as [->| ->]; split; assumption || lia. }
  destruct Htc as [Htc Hwc]. unfold some in H. inv_outcome. subst.
  match goal with H : makeIntegerConstant _ _ _ = Ret _ |- _ => apply makeIntegerConstant_Ret in H as (-> & _ & _) end.
  rewrite fromInteger_mod by lia. apply sound_const; [assumption|lia|apply mod_ok; lia|].
  intros env _. unfold eval_list, eval_op. cbn [map]. unfold wv. rewrite Eva, Evb.
  assert (Hn : ac_op op = false /\ op_eqb op OP_CONCAT = false) by (destruct op; discriminate Hop || now split).
  destruct Hn as [-> ->]. rewrite Htc. reflexivity.
Qed.

Lemma toUnsigned_64 w v f : 0 < w <= 64 -> bv_ok w v -> toUnsigned (Const (mkType INTEGER w 0) v f) = Some v.
Proof. intros Hw Hv. rewrite toUnsigned_spec by (assumption || lia). now rewrite (proj2 (Z.leb_le w 64)) by lia. Qed.

Lemma toSigned_Some w v f x : 0 < w -> bv_ok w v -> toSigned (Const (mkType INTEGER w 0) v f) = Some x -> x = tsval w v.
Proof.
  intros Hw Hv. rewrite toSigned_spec by assumption. destruct (_ && _); [|discriminate]. congruence.
Qed.

Lemma long_div_Ret a b q : long_div a b = Ret q -> q = Z.quot a b.
Proof. unfold long_div. destruct (b =? 0); [discriminate|]. intros H. now apply chk_long_Ret in H. Qed.
Lemma long_rem_Ret a b q : long_rem a b = Ret q -> q = Z.rem a b.
Proof. unfold long_rem. destruct (b =? 0); [discriminate|]. intros H. inv_outcome. now subst. Qed.

(** The quotient and remainder of constants are those of the operator. *)
Ltac unsigned_case :=
  intros wa va fa wb vb fb xa xb q w Hwa Hva Hwb Hvb Hne Ha Hb Hd;
  rewrite toUnsigned_64 in Ha, Hb by assumption; injection Ha as <-; injection Hb as <-;
  cbn [eval_op2]; rewrite (proj2 (Z.eqb_neq vb 0) Hne) in *; now injection Hd.
Ltac signed_case spec :=
  intros wa va fa wb vb fb xa xb q w Hwa Hva Hwb Hvb Hne Ha Hb Hd;
  apply toSigned_Some in Ha as ->, Hb as ->; [|assumption || lia..];
  cbn [eval_op2]; rewrite (proj2 (Z.eqb_neq vb 0) Hne); symmetry; now apply spec.

Lemma UdivSimplifier_sound : sound OP_UDIV UdivSimplifier_rewrite.
Proof. apply (division_sound OP_UDIV); [reflexivity|]. unfold ulong_div. unsigned_case. Qed.
Lemma UmodSimplifier_sound : sound OP_UMOD UmodSimplifier_rewrite.
Proof. apply (division_sound OP_UMOD); [reflexivity|]. unfold ulong_rem. unsigned_case. Qed.
Lemma SdivSimplifier_sound : sound OP_SDIV SdivSimplifier_rewrite.
Proof. apply (division_sound OP_SDIV); [reflexivity|]. signed_case long_div_Ret. Qed.
Lemma SmodSimplifier_sound : sound OP_SMOD SmodSimplifier_rewrite.
Proof. apply (division_sound OP_SMOD); [reflexivity|]. signed_case long_rem_Ret. Qed.

(** ** Bitwise operators *)

Lemma is_zero_spec c : Good c -> is_zero c = true -> isIntegerExpr c = true /\ forall env, ev env c = 0.
Proof.
  intros Hc. unfold is_zero. destruct (integer_constant c) as [v|] eqn:E; [|discriminate].
  intros H. apply Z.eqb_eq in H. destruct (const_arg c v Hc E) as (Hi & _ & _ & _ & Hev & _).
  subst. now split.
Qed.

Lemma find_Some_split {A} (p : A -> bool) l x :
  List.find p l = Some x -> p x = true /\ exists l1 l2, l = l1 ++ x :: l2.
Proof.
  induction l as [|y l IH]; [discriminate|]. cbn. destruct (p y) eqn:E.
  - intros [= <-]. split; [assumption|]. now exists [], l.
  - intros H. destruct (IH H) as (Hp & l1 & l2 & ->). split; [assumption|]. now exists (y :: l1), l2.
Qed.

(** An operand that decides the value of a node, wherever it stands. *)
Lemma ac_val_absorb op l1 x l2 z :
  (forall y, ac_comb op z y = z) -> ac_inj op x = z -> ac_val op (l1 ++ x :: l2) = z.
Proof.
  intros Hz Hx. rewrite ac_val_app, ac_val_cons, Hx, Hz, ac_comb_comm. apply Hz.
Qed.

Lemma AndSimplifier_sound : sound OP_AND AndSimplifier_rewrite.
Proof.
  intros t cs f r Hp H. destruct (Pre_elems OP_AND t cs f eq_refl Hp) as (He & Hti & Hne & _).
  pose proof (Pre_type_ok _ Hp) as Hto. cbn [expr_type] in Hto. pose proof (type_ok_integer t Hto Hti) as Et.
  pose proof (proj1 (Pre_node _ _ _ _) Hp) as ((Hw & _) & Ha & _ & _).
  unfold AndSimplifier_rewrite in H. cbn [children] in H. destruct (List.find is_zero cs) as [c|] eqn:Ef.
  - apply find_Some_split in Ef as (Hz & l1 & l2 & ->).
    apply Forall_app in He as [_ He]. apply Forall_cons in He as [(Hc & _) _].
    destruct (is_zero_spec c Hc Hz) as [_ Hev].
    eapply (index_const (nBits t) 0); try eassumption;
      [unfold bv_ok; pose proof (pow2_pos (nBits t)); lia|lia|].
    intros env _. unfold eval_list, eval_op. cbn [ac_op].
    rewrite map_app. cbn [map]. rewrite (ac_val_absorb OP_AND _ _ _ 0); [reflexivity|apply Z.land_0_l|apply Hev].
  - destruct cs as [|c cs]; [easy|]. unfold arg in H. cbn_args. cbn [tail] in H.
    destruct (forallb _ cs) eqn:Es; [|discriminate]. injection H as <-.
    apply Forall_cons in He as [(Hc & Hi & Hwc) He]. cbn [same_type_op] in Hwc. specialize (Hwc eq_refl).
    apply (sound_operand OP_AND t (c :: cs) f); [assumption|assumption| |].
    + apply (elem_type OP_AND t (c :: cs) f (nBits t)); auto. now split.
    + intros env _. symmetry. apply forallb_Forall in Es.
      assert (E : ac_val OP_AND (map (wv uf env) (c :: cs)) = ev env c).
      { clear -Es. induction Es as [|d cs Hd _ IH]; [cbn; apply Z.land_m1_r|].
        cbn [map] in *. rewrite !ac_val_cons in *. cbn [ac_comb ac_inj wv snd] in *.
        rewrite <- (isEquivalentTo_eval uf env c d Hd), Z.land_assoc, Z.land_diag. exact IH. }
      unfold eval_list, eval_op. cbn [ac_op]. rewrite E. apply Z.mod_small.
      rewrite <- Hwc. apply eval_ok, Hc.
Qed.

(** Operands that have no effect on the value of a node. *)
Lemma filter_unit op w p cs env :
  assoc_op op = true -> Forall (elem op w) cs ->
  (forall c, elem op w c -> p c = false -> seg_eq uf env op w [c] []) ->
  Forall (elem op w) (List.filter p cs) /\ seg_eq uf env op w (List.filter p cs) cs.
Proof.
  intros Hop He Hz. induction He as [|c cs Hc He [IH1 IH2]]; [split; [constructor | now unfold seg_eq; destruct (op_eqb _ _)]|].
  assert (Hg1 : Forall Good [c]) by (apply Forall_singleton, Hc).
  pose proof (elems_Good op w _ He) as Hg2. pose proof (elems_Good op w _ IH1) as Hg3.
  cbn [List.filter]. change (c :: cs) with ([c] ++ cs). destruct (p c) eqn:E.
  - split; [now constructor|]. change (c :: ?l) with ([c] ++ l).
    apply seg_app; try assumption. now apply seg_eq_equivalence.
  - split; [assumption|]. rewrite <- (app_nil_l (List.filter p cs)).
    apply seg_app; try assumption; [constructor|]. apply seg_eq_equivalence. now apply Hz.
Qed.

Lemma zero_seg op w c env :
  op = OP_OR \/ op = OP_XOR -> elem op w c -> is_zero c = true -> seg_eq uf env op w [c] [].
Proof.
  intros Hop (Hc & _) Hz. destruct (is_zero_spec c Hc Hz) as [_ Hev].
  destruct Hop as [->| ->]; unfold seg_eq; cbn -[Z.pow]; now rewrite Hev.
Qed.

Section Recursion.
Variable simplify : option SmtSolver -> expr -> outcome expr.
Hypothesis simplify_sound : forall s e e',
  solver_ok uf ctx s -> Pre e -> simplify s e = Ret e' ->
  denotes uf ctx Good e' (expr_type e) (fun env => ev env e).
Variable solver : option SmtSolver.
Hypothesis solver_sound : solver_ok uf ctx solver.

Lemma remaining_sound op t cs f args r :
  op = OP_OR \/ op = OP_XOR -> Pre (Node op t cs f) -> Forall (elem op (nBits t)) args ->
  (forall env, ctx env -> eval_list uf env op (nBits t) args = eval_list uf env op (nBits t) cs) ->
  remaining simplify solver (Node op t cs f) args = Ret (Some r) ->
  denotes uf ctx Pre r t (fun env => eval_list uf env op (nBits t) cs).
Proof.
  intros Hop Hp Hargs Hev H. assert (Hop' : assoc_op op = true /\ same_type_op op = true) by (destruct Hop as [->| ->]; now split).
  destruct Hop' as [Ha Hs]. destruct (Pre_elems op t cs f Ha Hp) as (He & Hti & Hne & Hb).
  pose proof (Pre_type_ok _ Hp) as Hto. cbn [expr_type] in Hto. pose proof (type_ok_integer t Hto Hti) as Et.
  pose proof (proj1 (Pre_node _ _ _ _) Hp) as ((Hw & _) & Had & _ & _).
  apply (denotes_ext _ _ _ _ _ (fun env => eval_list uf env op (nBits t) args)); [assumption|].
  unfold remaining in H. cbn [children getOperator] in H. destruct args as [|c [|c' args]].
  - eapply (index_const (nBits t) 0); try eassumption;
      [unfold bv_ok; pose proof (pow2_pos (nBits t)); lia|lia|].
    intros env _. destruct Hop as [->| ->]; reflexivity.
  - injection H as <-. pose proof (proj1 (Forall_singleton _ _) Hargs) as Hc. pose proof Hc as (Hg & Hi & Hwc).
    specialize (Hwc Hs). apply denotes_weaken. split; [assumption|].
    split; [now apply (elem_type op t cs f (nBits t))|]. intros env _. symmetry. now apply eval_list_one.
  - destruct (_ =? _)%nat; [discriminate|]. unfold some in H. inv_outcome. subst.
    eapply instance_sound in H0; try eassumption.
    + destruct H0 as (t' & _ & Ht' & Hd). cbn [expr_type] in Ht'. rewrite Hti in Ht'.
      rewrite (Ht' ltac:(discriminate)) in Hd. now apply denotes_weaken.
    + cbn [expr_type]. lia.
    + now apply (elems_Good op (nBits t)).
    + intros t' Ha'. cbn [expr_type] in Ha'.
      assert (Hi : ints (c :: c' :: args) = true).
      { apply ints_Forall. apply (Forall_impl _ _ _ Hargs). intros x Hx. apply Hx. }
      destruct Hop as [->| ->]; exact Hi.
Qed.

Lemma OrSimplifier_sound : sound OP_OR (OrSimplifier_rewrite simplify solver).
Proof.
  intros t cs f r Hp H. destruct (Pre_elems OP_OR t cs f eq_refl Hp) as (He & Hti & _).
  pose proof (Pre_type_ok _ Hp) as Hto. cbn [expr_type] in Hto. pose proof (type_ok_integer t Hto Hti) as Et.
  pose proof (proj1 (Pre_node _ _ _ _) Hp) as ((Hw & _) & _).
  assert (Hf : forall env, Forall (elem OP_OR (nBits t)) (List.filter (fun c => negb (is_zero c)) cs) /\
    seg_eq uf env OP_OR (nBits t) (List.filter (fun c => negb (is_zero c)) cs) cs).
  { intros env. apply filter_unit; [reflexivity|assumption|]. intros c Hc Hz. apply negb_false_iff in Hz.
    apply zero_seg; auto. }
  unfold OrSimplifier_rewrite in H. cbn [children] in H.
  destruct (List.find is_all_set _) as [c|] eqn:Ef.
  - apply find_Some_split in Ef as (Hz & l1 & l2 & E). unfold is_all_set in Hz.
    destruct (integer_constant c) as [v|] eqn:Ec; [|discriminate]. apply Z.eqb_eq in Hz.
    rewrite E in Hf. pose proof (proj1 (Hf (fun _ => 0))) as Hel. apply Forall_app in Hel as [_ Hel].
    apply Forall_cons in Hel as [(Hc & Hi & Hwc) _]. specialize (Hwc eq_refl).
    destruct (const_arg c v Hc Ec) as (_ & _ & Hlb & Hv & Hev & _).
    unfold some in H. inv_outcome. subst x.
    apply makeIntegerConstant_bits_Ret in H0 as (-> & _ & _). rewrite Hlb, Hwc in *.
    apply sound_const; try assumption. intros env _.
    rewrite <- (seg_eval uf env OP_OR (nBits t) _ _ eq_refl (proj2 (Hf env))).
    unfold eval_list, eval_op. cbn [ac_op]. rewrite map_app. cbn [map].
    rewrite ac_val_app, ac_val_cons. cbn [ac_comb ac_inj wv snd]. rewrite Hev, Hz.
    assert (E1 : eqm (nBits t) (2 ^ nBits t - 1) (-1)).
    { unfold eqm. replace (2 ^ nBits t - 1) with (-1 + 1 * 2 ^ nBits t) by lia. apply Z.mod_add.
      pose proof (pow2_pos (nBits t)). lia. }
    transitivity ((2 ^ nBits t - 1) mod 2 ^ nBits t); [|apply Z.mod_small; now rewrite <- Hz].
    change (eqm (nBits t) (Z.lor (ac_val OP_OR (map (wv uf env) l1)) (Z.lor (2 ^ nBits t - 1) (ac_val OP_OR (map (wv uf env) l2))))
      (2 ^ nBits t - 1)).
    rewrite E1. now rewrite Z.lor_m1_l, Z.lor_m1_r.
  - apply (remaining_sound OP_OR t cs f _ r) in H; [assumption|now left|assumption|exact (proj1 (Hf (fun _ => 0)))|].
    intros env _. apply seg_eval; [reflexivity|apply Hf].
Qed.

Lemma remove_equal_spec c cs cs' :
  Good c -> Forall Good cs -> remove_equal solver c cs = Ret (Some cs') ->
  exists d, Permutation cs (d :: cs') /\ forall env, ctx env -> ev env c = ev env d.
Proof.
  intros Hc Hcs. revert cs'. induction Hcs as [|x cs Hx Hcs IH]; intros cs' H; [discriminate|].
  cbn [remove_equal] in H. inv_outcome. destruct x0.
  - injection H as <-. exists x. split; [reflexivity|]. intros env Henv.
    apply (mustEqual_eval uf env solver); [now apply solver_sound|apply Hc|apply Hx|assumption].
  - inv_outcome. destruct x0 as [l|]; [|discriminate]. injection H as <-.
    destruct (IH l H1) as (d & Hp & He). exists d. split; [|assumption].
    rewrite Hp. apply perm_swap.
Qed.

Lemma cancel_pairs_sound w n cs args :
  (length cs <= n)%nat -> Forall (elem OP_XOR w) cs -> cancel_pairs solver n cs = Ret args ->
  Forall (elem OP_XOR w) args /\ forall env, ctx env -> seg_eq uf env OP_XOR w args cs.
Proof.
  revert cs args. induction n as [|n IH]; intros cs args Hn He H.
  { destruct cs; [|cbn in Hn; lia]. injection H as <-. split; [constructor|]. intros env _. now unfold seg_eq. }
  destruct He as [|c cs Hc He]; cbn [cancel_pairs] in H.
  { injection H as <-. split; [constructor|]. intros env _. now unfold seg_eq. }
  cbn [length] in Hn.
  assert (Hg1 : Forall Good [c]) by (apply Forall_singleton, Hc). pose proof (elems_Good _ _ _ He) as Hg2.
  destruct (is_zero c) eqn:Ez.
  - destruct (IH cs args ltac:(lia) He H) as [H1 H2]. split; [assumption|]. intros env Henv.
    change (c :: cs) with ([c] ++ cs). rewrite <- (app_nil_l args).
    apply seg_app; auto; [now apply (elems_Good OP_XOR w)|]. apply seg_eq_equivalence. apply zero_seg; auto.
  - inv_outcome. destruct x as [l|].
    + destruct (remove_equal_spec c cs l (proj1 Hc) Hg2 H0) as (d & Hp & Hcd).
      assert (Hl : Forall (elem OP_XOR w) (d :: l)) by now rewrite <- Hp.
      apply Forall_cons in Hl as [Hd Hl].
      assert (Hlen : (length l <= n)%nat) by (apply Permutation_length in Hp; cbn in Hp; lia).
      destruct (IH l args Hlen Hl H) as [H1 H2]. split; [assumption|]. intros env Henv.
      etransitivity; [now apply H2|]. unfold seg_eq. cbn [op_eqb op_index Z.eqb Pos.eqb map].
      rewrite ac_val_cons, (ac_val_perm OP_XOR (map (wv uf env) cs) _ (Permutation_map _ Hp)). cbn [map].
      rewrite !ac_val_cons. cbn [ac_comb ac_inj wv snd]. rewrite (Hcd env Henv).
      now rewrite <- Z.lxor_assoc, Z.lxor_nilpotent, Z.lxor_0_l.
    + inv_outcome. subst. destruct (IH cs x ltac:(lia) He H1) as [H2 H3].
      split; [now constructor|]. intros env Henv. change (c :: ?l) with ([c] ++ l).
      apply seg_app; auto; [now apply (elems_Good OP_XOR w)|]. apply seg_eq_equivalence.
Qed.

Lemma XorSimplifier_sound : sound OP_XOR (XorSimplifier_rewrite simplify solver).
Proof.
  intros t cs f r Hp H. destruct (Pre_elems OP_XOR t cs f eq_refl Hp) as (He & _).
  unfold XorSimplifier_rewrite in H. cbn [children] in H. inv_outcome.
  destruct (cancel_pairs_sound (nBits t) (length cs) cs x ltac:(lia) He H0) as [H1 H2].
  apply (remaining_sound OP_XOR t cs f x r) in H; [assumption|now right|assumption|assumption|].
  intros env Henv. apply seg_eval; [reflexivity|now apply H2].
Qed.

(** ** Conditionals *)

Lemma Ite_node t cs f :
  Pre (Node OP_ITE t cs f) ->
  exists c a b, cs = [c; a; b] /\ Good c /\ Good a /\ Good b /\ isIntegerExpr c = true /\ expr_nBits c = 1 /\
    expr_type a = t /\ expr_type b = t.
Proof.
  intros Hp. open_node Hp. inv_width Ha. subst. name_args cs. split_Forall.
  match goal with H : bool_decide _ = true |- _ => apply bool_decide_eq_true_1 in H | _ => idtac end.
  exists a, b, c. auto 10.
Qed.

Lemma ite_value env t c a b :
  Good a -> Good b -> expr_type a = t -> expr_type b = t ->
  eval_list uf env OP_ITE (nBits t) [c; a; b] = if ev env c =? 0 then ev env b else ev env a.
Proof.
  intros Ha Hb <- Ht. pose proof (eval_ok uf env a (proj1 Ha)). pose proof (eval_ok uf env b (proj1 Hb)) as Hvb.
  unfold expr_nBits in *. rewrite Ht in Hvb. eval_args. destruct (_ =? 0); now apply Z.mod_small.
Qed.

Lemma makeIte_sound t c a b fl e :
  Good c -> Good a -> Good b -> expr_type a = t -> expr_type b = t ->
  makeIte simplify solver c a b fl = Ret e ->
  denotes uf ctx Good e t (fun env => if ev env c =? 0 then ev env b else ev env a).
Proof.
  intros Hc Ha Hb Hta Htb H. eapply instance_none in H; try eassumption; [|now repeat (constructor; [assumption|])|reflexivity].
  destruct H as (t' & Ha' & Hd). inv_width Ha'. cbn_args. subst t'. rewrite Hta in Hd.
  eapply denotes_ext; [|exact Hd]. intros env _. now apply ite_value.
Qed.

(** ** Extraction *)

(** An offset of an extraction: a constant of at most 64 bits. *)
Definition offset (c : expr) (n : Z) : Prop :=
  Good c /\ isIntegerConstant c = true /\ expr_nBits c <= 64 /\ toUnsigned c = Some n /\
  forall env, ev env c = n.

Lemma offset_const c : Good c -> isIntegerConstant c = true -> expr_nBits c <= 64 -> exists n, offset c n /\ 0 <= n.
Proof.
  intros Hg Hi Hw. pose proof Hi as Hi'. unfold isIntegerConstant in Hi. destr_bool.
  destruct (int_arg c Hg) as (Hwc & _); [assumption|].
  destruct c as [t v fl| |]; try discriminate. unfold isIntegerExpr, has_class in *. destr_bool.
  assert (Ec : integer_constant (Const t v fl) = Some v) by (cbn; now rewrite bool_decide_eq_true_2).
  destruct (const_arg _ v Hg Ec) as (_ & _ & _ & Hv & Hev & f' & E). exists v.
  split; [|apply Hv]. repeat split; try assumption; try apply Hg. injection E as Et _.
  cbn [expr_nBits expr_type] in *. rewrite Et. apply toUnsigned_64; [split; [apply Hwc|assumption]|exact Hv].
Qed.

Lemma Extract_node t cs f :
  Pre (Node OP_EXTRACT t cs f) ->
  exists fc tc x from to, cs = [fc; tc; x] /\ offset fc from /\ offset tc to /\ Good x /\
    isIntegerExpr x = true /\ 0 <= from < to /\ to <= expr_nBits x /\ t = mkType INTEGER (to - from) 0.
Proof.
  intros Hp. open_node Hp. inv_width Ha. name_args cs. split_Forall. destr_bool.
  repeat match goal with H : (_ <=? _) = true |- _ => apply Z.leb_le in H end.
  repeat match goal with H : (_ <? _) = true |- _ => apply Z.ltb_lt in H end.
  cbn [ints forallb] in *. destr_bool.
  destruct (offset_const a) as (from & Hf & Hf0); try assumption.
  destruct (offset_const b) as (to & Ht & Ht0); try assumption.
  exists a, b, c, from, to. pose proof Hf as (_ & _ & _ & Uf & _). pose proof Ht as (_ & _ & _ & Ut & _).
  rewrite Uf, Ut in *. cbn [default from_option id] in *. auto 12.
Qed.

Lemma extract_value env fc tc x from to :
  offset fc from -> eval_list uf env OP_EXTRACT (to - from) [fc; tc; x] = ev env x / 2 ^ from mod 2 ^ (to - from).
Proof. intros (_ & _ & _ & _ & Hf). eval_args. now rewrite Hf. Qed.

Lemma makeExtract_sound fc tc x from to fl e :
  offset fc from -> offset tc to -> Good x -> isIntegerExpr x = true -> 0 <= from < to -> to <= expr_nBits x ->
  makeExtract simplify solver fc tc x fl = Ret e ->
  denotes uf ctx Good e (mkType INTEGER (to - from) 0) (fun env => ev env x / 2 ^ from mod 2 ^ (to - from)).
Proof.
  intros Hf Ht Hx Hi Hft Hto H. pose proof Hf as (Gf & Cf & _ & Uf & _). pose proof Ht as (Gt & Ct & _ & Ut & _).
  eapply instance_none in H; try eassumption.
  - destruct H as (t' & Ha & Hd). inv_width Ha. cbn_args. subst t'. rewrite Uf, Ut in *. cbn [default from_option id] in *.
    eapply denotes_ext; [|exact Hd]. intros env _. now apply extract_value.
  - repeat (constructor; [assumption|]). constructor.
  - intros t' _. cbn -[toUnsigned Z.leb]. unfold isIntegerConstant in *. destr_bool. rewrite Ut.
    repeat match goal with H : isIntegerExpr _ = true |- _ => rewrite H end. now apply Z.leb_le.
Qed.

(** The node under an operator test. *)
Lemma isOperator_inv e op : isOperator e op = true -> exists t cs f, e = Node op t cs f.
Proof.
  unfold isOperator. intros H. destr_bool. destruct e; try discriminate. cbn in *. subst. eauto.
Qed.

(** Equal offsets are equal numbers, whatever the solver says. *)
Lemma mustEqual_offset s a b m n :
  offset a m -> offset b n -> mustEqual s a b = Ret true -> m = n.
Proof.
  intros (Ga & Ca & _ & _ & Ea) (Gb & Cb & _ & _ & Eb) H.
  specialize (Ea (fun _ => 0)). specialize (Eb (fun _ => 0)).
  unfold isIntegerConstant in Ca, Cb. destr_bool.
  destruct a as [t v f| |]; try discriminate. destruct b as [t' v' f'| |]; try discriminate.
  cbn in Ea, Eb. subst. cbn [mustEqual isInterior] in H. unfold mustEqual_leaf in H.
  destruct (expr_eqb _ _) eqn:E; [apply expr_eqb_eq in E; congruence|].
  destruct (negb _); [discriminate|]. cbn [isInterior isConstant andb] in H.
  unfold isIntegerConstant in H. cbn [isConstant] in H.
  repeat match goal with Hi : isIntegerExpr _ = true |- _ => rewrite Hi in H; clear Hi end.
  cbn [andb leaf_bits] in H. injection H as H.
  pose proof (eval_ok uf (fun _ => 0) _ (proj1 Ga)) as Va. pose proof (eval_ok uf (fun _ => 0) _ (proj1 Gb)) as Vb.
  cbn [eval] in *. pose proof (Good_width_pos _ Ga). pose proof (Good_width_pos _ Gb).
  rewrite compare_spec, compare_same_eq in H by (assumption || lia). now apply Z.eqb_eq.
Qed.

Lemma same_extracts_spec a b :
  Good a -> Good b -> same_extracts solver a b = Ret true ->
  exists f1 f2 fa ta xa fb tb xb from to,
    a = Node OP_EXTRACT (mkType INTEGER (to - from) 0) [fa; ta; xa] f1 /\
    b = Node OP_EXTRACT (mkType INTEGER (to - from) 0) [fb; tb; xb] f2 /\
    offset fa from /\ offset ta to /\ offset fb from /\ Good xa /\ Good xb /\
    isIntegerExpr xa = true /\ isIntegerExpr xb = true /\ 0 <= from < to /\ to <= expr_nBits xa /\
    expr_nBits xa = expr_nBits xb.
Proof.
  intros Ha Hb. unfold same_extracts.
  destruct (isOperator a OP_EXTRACT) eqn:Ea; [|discriminate].
  destruct (isOperator b OP_EXTRACT) eqn:Eb; [|discriminate].
  destruct (_ =? _) eqn:En; [|discriminate]. cbn [andb]. intros H.
  apply isOperator_inv in Ea as (t1 & cs1 & f1 & ->), Eb as (t2 & cs2 & f2 & ->).
  destruct (Extract_node t1 cs1 f1) as (fa & ta & xa & from & to & -> & Ofa & Ota & Gxa & Ixa & Hft & Hto & ->);
    [now apply Good_Pre|].
  destruct (Extract_node t2 cs2 f2) as (fb & tb & xb & from' & to' & -> & Ofb & Otb & Gxb & Ixb & Hft' & Hto' & ->);
    [now apply Good_Pre|].
  cbn_args. destruct (mustEqual solver fa fb) as [[|]|] eqn:Mf; cbn [obind] in H; try discriminate.
  destruct (mustEqual solver ta tb) as [[|]|] eqn:Mt; cbn [obind andb] in H; try discriminate.
  injection H as H. apply Z.eqb_eq in H.
  pose proof (mustEqual_offset solver fa fb _ _ Ofa Ofb Mf) as <-.
  pose proof (mustEqual_offset solver ta tb _ _ Ota Otb Mt) as <-.
  exists f1, f2, fa, ta, xa, fb, tb, xb, from, to. auto 15.
Qed.

Lemma IteSimplifier_sound : sound OP_ITE (IteSimplifier_rewrite simplify solver).
Proof.
  intros t cs f r Hp H. destruct (Ite_node t cs f Hp) as (c & a & b & -> & Hc & Ha & Hb & Hic & Hwc & Hta & Htb).
  apply (denotes_ext _ _ _ _ _ (fun env => if ev env c =? 0 then ev env b else ev env a));
    [intros env _; symmetry; now apply ite_value|].
  unfold IteSimplifier_rewrite, arg_constant in H. cbn_args.
  assert (Hone : forall x, Good x -> expr_type x = t -> (forall env, ctx env -> (if ev env c =? 0 then ev env b else ev env a) = ev env x) ->
    denotes uf ctx Pre x t (fun env => if ev env c =? 0 then ev env b else ev env a)).
  { intros x Hx Htx Hv. apply denotes_weaken. split; [assumption|]. split; [assumption|].
    intros env Henv. now rewrite Hv. }
  destruct (integer_constant c) as [v|] eqn:Ec.
  { destruct (const_arg c v Hc Ec) as (_ & _ & _ & _ & Hev & _). inv_outcome. subst r.
    unfold bv_isEqualToZero. destruct (v =? 0) eqn:Ev; cbn [negb]; apply Hone; auto; intros env _; now rewrite Hev, Ev. }
  destruct (isEquivalentTo a b) eqn:Eab.
  { injection H as <-. apply Hone; auto. intros env _. rewrite (isEquivalentTo_eval uf env a b Eab).
    now destruct (_ =? 0). }
  destruct (same_extracts solver a b) as [[|]|] eqn:Es; cbn [obind] in H; [| |discriminate].
  - destruct (same_extracts_spec a b Ha Hb Es) as
      (f1 & f2 & fa & ta & xa & fb & tb & xb & from & to & -> & -> & Ofa & Ota & Ofb & Gxa & Gxb & Ixa & Ixb & Hft & Hto & Hw).
    cbn_args. cbn [expr_type] in Hta. subst t. inv_outcome. unfold some in H. inv_outcome. subst.
    destruct (int_arg xa Gxa Ixa) as (_ & Txa & _), (int_arg xb Gxb Ixb) as (_ & Txb & _).
    rewrite <- Hw in Txb. eapply makeIte_sound in H0; try eassumption.
    destruct H0 as (Gx & Tx & Vx).
    assert (Ix : isIntegerExpr x = true) by (unfold isIntegerExpr, has_class; rewrite Tx; now apply bool_decide_eq_true_2).
    eapply makeExtract_sound in H1; try eassumption; [|unfold expr_nBits at 1; rewrite Tx; exact Hto].
    apply denotes_weaken. eapply denotes_ext; [|exact H1].
    intros env Henv. cbv beta. rewrite Vx by assumption. rewrite !eval_node. cbn [nBits]. rewrite !extract_value by assumption.
    now destruct (_ =? 0).
  - destruct (isOperator c OP_INVERT) eqn:Eo; [|discriminate].
    apply isOperator_inv in Eo as (tc & cs' & f' & ->).
    destruct (unary_node OP_INVERT tc cs' f' ltac:(auto) (Good_Pre _ Hc)) as (x & -> & Hx & Hix & Htx & Hwx & _).
    unfold some in H. inv_outcome. subst. cbn_args. eapply makeIte_sound in H0; try eassumption; try reflexivity.
    apply denotes_weaken. eapply denotes_ext; [|exact H0].
    intros env _. rewrite eval_node. eval_args. unfold expr_nBits in Hwc. cbn [expr_type] in Hwc.
    destruct (int_arg x Hx Hix) as (_ & _ & Hv). specialize (Hv env). rewrite Hwx, Hwc in *.
    destruct (complement_ok 1 _ ltac:(lia) Hv) as [-> _]. unfold bv_ok in Hv. change (2 ^ 1) with 2 in *.
    destruct (Z.eqb_spec (ev env x) 0) as [->|Hz]; [reflexivity|].
    now replace (ev env x) with 1 by lia.
Qed.

(** ** Extension and conversion *)

Lemma extend_node op t cs f :
  op = OP_UEXTEND \/ op = OP_SEXTEND -> Pre (Node op t cs f) ->
  exists c a, cs = [c; a] /\ offset c (nBits t) /\ Good a /\ isIntegerExpr a = true /\
    t = mkType INTEGER (nBits t) 0 /\ 0 < nBits t <= 32767.
Proof.
  intros Hop Hp. open_node Hp.
  assert (H : length cs = 2%nat /\ isIntegerConstant (nth_arg cs 0) = true /\ expr_nBits (nth_arg cs 0) <= 64 /\
    isIntegerExpr (nth_arg cs 1) = true /\ t = mkType INTEGER (default 0 (toUnsigned (nth_arg cs 0))) 0).
  { assert (Hi : ints cs = true) by (destruct Hop as [->| ->]; exact Hok).
    assert (H : length cs = 2%nat /\ isIntegerConstant (nth_arg cs 0) = true /\ (expr_nBits (nth_arg cs 0) <=? 64) = true /\
      t = mkType INTEGER (default 0 (toUnsigned (nth_arg cs 0))) 0)
      by (destruct Hop as [->| ->]; clear Hok; inv_width Ha; auto).
    destruct H as (Hl & Hc & Hle & Ht). apply Z.leb_le in Hle. split; [assumption|]. split; [assumption|].
    split; [assumption|]. split; [|assumption]. name_args cs. cbn in Hi. now destr_bool. }
  destruct H as (Hl & Hc & Hle & Hi & Ht). name_args cs. split_Forall.
  destruct (offset_const a) as (n & Hn & _); try assumption. exists a, b.
  assert (En : nBits t = n) by (rewrite Ht; cbn [nBits]; now destruct Hn as (_ & _ & _ & -> & _)).
  rewrite En. split; [reflexivity|]. split; [assumption|]. split; [assumption|]. split; [assumption|].
  rewrite <- En. split; [|lia]. rewrite Ht. reflexivity.
Qed.

Lemma makeExtend_offset_sound c a w fl e :
  offset c w -> Good a -> isIntegerExpr a = true -> makeExtend simplify solver c a fl = Ret e ->
  denotes uf ctx Good e (mkType INTEGER w 0) (fun env => ev env a mod 2 ^ w).
Proof.
  intros Hc Ha Hi H. pose proof Hc as (Gc & Cc & _ & Uc & _). eapply instance_none in H; try eassumption.
  - destruct H as (t & Ht & Hd). inv_width Ht. cbn_args. subst t. rewrite Uc in *. exact Hd.
  - repeat (constructor; [assumption|]). constructor.
  - intros t _. unfold isIntegerConstant in Cc. destr_bool. cbn.
    repeat match goal with H : isIntegerExpr _ = true |- _ => rewrite H end. reflexivity.
Qed.

(** The low bits of an operand, by an extraction. *)
Lemma low_bits_sound w a e fl :
  Good a -> isIntegerExpr a = true -> 0 < w <= expr_nBits a ->
  some (extract_between simplify solver 0 w a fl) = Ret (Some e) ->
  denotes uf ctx Good e (mkType INTEGER w 0) (fun env => ev env a mod 2 ^ w).
Proof.
  intros Ha Hi Hw H. unfold some in H. inv_outcome. subst.
  eapply (extract_between_sound uf ctx simplify simplify_sound solver solver_sound 0 w) in H0; try assumption; try lia.
  rewrite Z.sub_0_r in H0. eapply denotes_ext; [|exact H0]. intros env _. cbv beta.
  now rewrite Z.pow_0_r, Z.div_1_r.
Qed.

Lemma UextendSimplifier_sound : sound OP_UEXTEND (UextendSimplifier_rewrite simplify solver).
Proof.
  intros t cs f r Hp H. destruct (extend_node OP_UEXTEND t cs f ltac:(auto) Hp) as (c & a & -> & Hc & Ha & Hi & Et & Hw).
  destruct (int_arg a Ha Hi) as (Hwa & Hta & Hva).
  apply (denotes_ext _ _ _ _ _ (fun env => ev env a mod 2 ^ nBits t)); [reflexivity|].
  unfold UextendSimplifier_rewrite in H. change (expr_nBits (Node OP_UEXTEND t [c; a] f)) with (nBits t) in H. cbn_args.
  destruct (Z.eqb_spec (expr_nBits a) (nBits t)) as [E|E].
  { injection H as <-. apply denotes_weaken. split; [assumption|]. split; [now rewrite Hta, E|].
    intros env _. rewrite Z.mod_small; [reflexivity|]. rewrite <- E. apply Hva. }
  destruct (integer_constant a) as [v|] eqn:Ea.
  { destruct (const_arg a v Ha Ea) as (_ & _ & _ & Hv & Hev & _). apply folded_Ret in H as ->.
    rewrite resize_spec by (assumption || lia). apply sound_const; try assumption; [apply mod_ok; lia|].
    intros env _. now rewrite Hev. }
  assert (Hext : forall t' cs' f', a = Node OP_UEXTEND t' cs' f' ->
    expr_nBits (nth_arg cs' 1) <= expr_nBits a -> expr_nBits (nth_arg cs' 1) <= nBits t ->
    some (makeExtend simplify solver c (nth_arg cs' 1) 0) = Ret (Some r) ->
    denotes uf ctx Pre r t (fun env => ev env a mod 2 ^ nBits t)).
  { intros t' cs' f' -> Hle1 Hle2 H'. unfold some in H'. inv_outcome. subst.
    destruct (extend_node OP_UEXTEND t' cs' f' ltac:(auto) (Good_Pre _ Ha)) as (c' & x & -> & _ & Hx & Hix & _ & Hw').
    cbn_args. eapply makeExtend_offset_sound in H0; try eassumption. rewrite <- Et in H0. apply denotes_weaken.
    eapply denotes_ext; [|exact H0]. intros env _. cbv beta. rewrite eval_node. eval_args.
    destruct (int_arg x Hx Hix) as (Hwx & _ & Hvx). specialize (Hvx env). change (expr_nBits (Node OP_UEXTEND t' [c'; x] f')) with (nBits t') in *.
    rewrite (Z.mod_small _ (2 ^ nBits t')); [reflexivity|]. apply (ok_le (expr_nBits x)); [assumption|lia]. }
  destruct (isOperator a OP_UEXTEND) eqn:Eo; cbn [andb] in H.
  - apply isOperator_inv in Eo as (t' & cs' & f' & ->). cbn [children] in H.
    destruct (_ && _) eqn:Ec in H.
    { destr_bool. repeat match goal with H : (_ <=? _) = true |- _ => apply Z.leb_le in H end.
      apply (Hext t' cs' f'); cbn_args; [reflexivity|lia|lia|exact H]. }
    destruct (_ && _) eqn:Ec' in H.
    { destr_bool. repeat match goal with H : (_ <=? _) = true |- _ => apply Z.leb_le in H end.
      apply (Hext t' cs' f'); cbn_args; [reflexivity|lia|lia|exact H]. }
    destruct (Z.ltb_spec (nBits t) (expr_nBits (Node OP_UEXTEND t' cs' f'))); [|discriminate].
    apply low_bits_sound in H; try assumption; [|lia]. rewrite <- Et in H. now apply denotes_weaken.
  - destruct (Z.ltb_spec (nBits t) (expr_nBits a)); [|discriminate].
    apply low_bits_sound in H; try assumption; [|lia]. rewrite <- Et in H. now apply denotes_weaken.
Qed.

Lemma sval_eqm w v w' : 0 < w -> bv_ok w v -> 0 <= w' <= w -> sval w v mod 2 ^ w' = v mod 2 ^ w'.
Proof.
  intros Hw Hv Hw'. apply (eqm_le w' w); [assumption|]. unfold eqm. rewrite sval_mod by assumption.
  symmetry. now apply Z.mod_small.
Qed.

Lemma SextendSimplifier_sound : sound OP_SEXTEND (SextendSimplifier_rewrite simplify solver).
Proof.
  intros t cs f r Hp H. destruct (extend_node OP_SEXTEND t cs f ltac:(auto) Hp) as (c & a & -> & Hc & Ha & Hi & Et & Hw).
  destruct (int_arg a Ha Hi) as (Hwa & Hta & Hva).
  apply (denotes_ext _ _ _ _ _ (fun env => sval (expr_nBits a) (ev env a) mod 2 ^ nBits t)); [reflexivity|].
  unfold SextendSimplifier_rewrite in H. change (expr_nBits (Node OP_SEXTEND t [c; a] f)) with (nBits t) in H. cbn_args.
  destruct (Z.eqb_spec (expr_nBits a) (nBits t)) as [E|E].
  { injection H as <-. apply denotes_weaken. split; [assumption|]. split; [now rewrite Hta, E|].
    intros env _. rewrite sval_eqm by (auto; lia). rewrite Z.mod_small; [reflexivity|]. rewrite <- E. apply Hva. }
  destruct (integer_constant a) as [v|] eqn:Ea.
  { destruct (const_arg a v Ha Ea) as (_ & _ & _ & Hv & Hev & _). apply folded_Ret in H as ->.
    rewrite signExtend_spec by (assumption || lia). apply sound_const; try assumption; [apply mod_ok; lia|].
    intros env _. now rewrite Hev. }
  destruct (Z.ltb_spec (nBits t) (expr_nBits a)); [|discriminate].
  apply low_bits_sound in H; try assumption; [|lia]. rewrite <- Et in H. apply denotes_weaken.
  eapply denotes_ext; [|exact H]. intros env _. cbv beta. symmetry. apply sval_eqm; auto; lia.
Qed.

Lemma offset_make k n fl c :
  0 < k <= 64 -> 0 <= n < 2 ^ k -> makeIntegerConstant k n fl = Ret c -> offset c n.
Proof.
  intros Hk Hn H. pose proof (pow2_le k 64 ltac:(lia)). apply makeIntegerConstant_Ret in H as (-> & Hw & _).
  rewrite fromInteger_id by lia.
  assert (Hg : Good (Const (mkType INTEGER k 0) n fl)) by (apply Const_Good; [lia|exact Hn]).
  split; [assumption|]. split; [reflexivity|]. split; [cbn; lia|]. split; [|reflexivity].
  apply toUnsigned_64; [lia|exact Hn].
Qed.

Lemma ConvertSimplifier_sound : sound OP_CONVERT (ConvertSimplifier_rewrite simplify solver).
Proof.
  intros t cs f r Hp H. pose proof Hp as Hp'. open_node Hp. inv_width Ha. name_args cs. split_Forall. destr_bool.
  cbn [ints forallb] in *. destr_bool. clear Hn Hne.
  match goal with H : Good a, Hi : isIntegerExpr a = true |- _ => rename H into Ga; rename Hi into Ia end.
  destruct (int_arg a Ga Ia) as (Hwa & Hta & Hva).
  assert (Et : t = mkType INTEGER (nBits t) 0) by now apply type_ok_integer.
  unfold ConvertSimplifier_rewrite in H. cbn_args. case_bool_decide as E.
  { injection H as <-. now apply (unary_operand_sound OP_CONVERT a t f); [tauto|assumption|]. }
  destruct (_ && _); [|discriminate]. change (expr_nBits (Node OP_CONVERT t [a] f)) with (nBits t) in H.
  apply (denotes_ext _ _ _ _ _ (fun env => ev env a mod 2 ^ nBits t)); [reflexivity|].
  assert (E16 : 32767 < 2 ^ 16) by reflexivity. assert (E64 : 2 ^ 16 < 2 ^ 64) by reflexivity.
  apply denotes_weaken. rewrite Et. cbn [nBits].
  destruct (Z.ltb_spec (expr_nBits a) (nBits t)); unfold some in H; inv_outcome; subst.
  - eapply (makeExtend_sound uf ctx simplify simplify_sound solver solver_sound 16 (nBits t) a); try eassumption; lia.
  - match goal with Hz : makeIntegerConstant 16 0 0 = _, Hn : makeIntegerConstant 16 (nBits t) 0 = _, Hx : makeExtract _ _ _ _ _ _ = _ |- _ =>
      apply offset_make in Hz; [|lia..]; apply offset_make in Hn; [|lia..];
      eapply makeExtract_sound in Hx; try eassumption; [|lia..];
      rewrite Z.sub_0_r in Hx; eapply denotes_ext; [|exact Hx] end.
    intros env _. cbv beta. now rewrite Z.pow_0_r, Z.div_1_r.
Qed.
End Recursion.
End Sound.
