(* ===== verification/SymBits.v ===== *)
(** Soundness of the simplifiers of extraction and concatenation: the parts of
    a concatenation that an extraction needs, an extraction of an extraction,
    adjacent extractions that are joined, and a condition common to all parts. *)
From S2P Require Import Prelude BitVector SymType SymExpr SymSimplify SymEval SymGood SymAC SymSound.
From Stdlib Require Import Permutation Morphisms Setoid.
Open Scope Z_scope.

(** * Bits of concatenated numbers *)

(** [V] above the [w] bits of [v]. *)
Lemma bits_below V w v f n :
  0 <= f -> 0 <= n -> f + n <= w -> (V * 2 ^ w + v) / 2 ^ f mod 2 ^ n = v / 2 ^ f mod 2 ^ n.
Proof.
  intros Hf Hn Hw. pose proof (pow2_pos f Hf). rewrite (pow2_split f w) by lia.
  rewrite (pow2_split n (w - f)) by lia.
  replace (V * (2 ^ (w - f - n) * 2 ^ n * 2 ^ f) + v) with (v + V * 2 ^ (w - f - n) * 2 ^ n * 2 ^ f) by ring.
  rewrite Z.div_add by lia. pose proof (pow2_pos n Hn). apply Z.mod_add. lia.
Qed.

Lemma bits_across V w v f n :
  0 <= f <= w -> w <= f + n -> bv_ok w v ->
  (V * 2 ^ w + v) / 2 ^ f mod 2 ^ n = V mod 2 ^ (f + n - w) * 2 ^ (w - f) + v / 2 ^ f.
Proof.
  intros Hf Hn Hv. pose proof (pow2_pos f ltac:(lia)). pose proof (pow2_pos (w - f) ltac:(lia)).
  rewrite (pow2_split f w) by lia.
  replace (V * (2 ^ (w - f) * 2 ^ f) + v) with (v + V * 2 ^ (w - f) * 2 ^ f) by ring.
  rewrite Z.div_add by lia. pose proof (div_pow2_ok w v f Hv Hf) as Hvf.
  rewrite (pow2_split (w - f) n), (Z.mul_comm (2 ^ (n - (w - f)))) by lia.
  pose proof (pow2_pos (n - (w - f)) ltac:(lia)).
  rewrite Z.rem_mul_r, join_mod, join_div by (assumption || lia).
  replace (n - (w - f)) with (f + n - w) by lia. lia.
Qed.

Lemma bits_above V w v f n :
  0 <= w <= f -> bv_ok w v -> (V * 2 ^ w + v) / 2 ^ f mod 2 ^ n = V / 2 ^ (f - w) mod 2 ^ n.
Proof.
  intros Hf Hv. pose proof (pow2_pos w ltac:(lia)). pose proof (pow2_pos (f - w) ltac:(lia)).
  rewrite (pow2_split w f), Z.mul_comm, (Z.mul_comm (2 ^ (f - w))), <- Z.div_div by lia.
  now rewrite Z.add_comm, Z.mul_comm, join_div by (assumption || lia).
Qed.

(** Bits of bits. *)
Lemma bits_bits v f n f' n' :
  0 <= f -> 0 <= f' -> 0 <= n' -> f' + n' <= n ->
  v / 2 ^ f mod 2 ^ n / 2 ^ f' mod 2 ^ n' = v / 2 ^ (f + f') mod 2 ^ n'.
Proof.
  intros Hf Hf' Hn' Hn. pose proof (pow2_pos n ltac:(lia)).
  rewrite Z.pow_add_r, <- Z.div_div by (pose proof (pow2_pos f Hf); pose proof (pow2_pos f' Hf'); lia).
  rewrite (Z.div_mod (v / 2 ^ f) (2 ^ n)) at 2 by lia. rewrite (Z.mul_comm (2 ^ n)). symmetry. apply bits_below; lia.
Qed.

Section Sound.
Variable uf : Operator -> Z -> list Z -> Z.
Variable ctx : (Z -> Z) -> Prop.
#[local] Notation sound op p := (sound_pass uf ctx op p).
#[local] Notation ev env e := (eval uf env e).

Section Recursion.
Variable simplify : option SmtSolver -> expr -> outcome expr.
Hypothesis simplify_sound : forall s e e',
  solver_ok uf ctx s -> Pre e -> simplify s e = Ret e' ->
  denotes uf ctx Good e' (expr_type e) (fun env => ev env e).
Variable solver : option SmtSolver.
Hypothesis solver_sound : solver_ok uf ctx solver.

(** * Extraction *)

Lemma Concat_node t cs f :
  Pre (Node OP_CONCAT t cs f) ->
  Forall (fun c => Good c /\ isIntegerExpr c = true) cs /\ cs <> [] /\ sum_widths cs = nBits t /\ t = mkType INTEGER (nBits t) 0.
Proof.
  clear ctx simplify simplify_sound solver solver_sound.
  intros Hp. pose proof (Pre_elems OP_CONCAT t cs f eq_refl Hp) as (He & Ht & Hne & _).
  pose proof (proj1 (Pre_node _ _ _ _) Hp) as ((_ & Hto) & Ha & _). apply sum_width in Ha as [_ Hs]; [|auto].
  repeat split; try assumption; [|easy|now apply type_ok_integer].
  apply (Forall_impl _ _ _ He). intros c (Hc & Hi & _). now split.
Qed.

(** The concatenation of parts, the low one first. *)
Definition low_first (env : Z -> Z) (parts : list expr) : Z * Z := concat_val (map (wv uf env) (rev parts)).

Definition int_parts (parts : list expr) : Prop := Forall (fun c => Good c /\ isIntegerExpr c = true) parts.

Lemma int_parts_args_ok env parts : int_parts parts -> args_ok (map (wv uf env) parts).
Proof. intros H. apply Good_args_ok. apply (Forall_impl _ _ _ H). now intros c []. Qed.

Lemma low_first_cons env part parts :
  int_parts (part :: parts) ->
  low_first env (part :: parts) =
    ((low_first env parts).1 + expr_nBits part, (low_first env parts).2 * 2 ^ expr_nBits part + ev env part).
Proof.
  intros H. apply Forall_cons in H as [Hp H]. unfold low_first. cbn [rev]. rewrite map_app, concat_val_app.
  - assert (E : concat_val (map (wv uf env) [part]) = wv uf env part).
    { cbn. unfold concat2, wv. cbn. f_equal; lia. }
    now rewrite E.
  - apply int_parts_args_ok, Forall_rev, H.
  - apply int_parts_args_ok. now apply Forall_singleton.
Qed.

Lemma extract_parts_done parts partAt from to :
  int_parts parts -> from <= partAt -> to <= partAt -> extract_parts simplify solver parts partAt from to = Ret [].
Proof.
  destruct parts as [|p parts]; [reflexivity|]. intros H Hf Ht. apply Forall_cons in H as [[Hp _] _].
  apply Good_width_pos in Hp. cbn [extract_parts]. cbv zeta.
  rewrite (proj2 (Z.leb_gt _ _)) by lia. now rewrite (proj2 (Z.leb_le _ _)) by lia.
Qed.

(** What is known of an integer expression. *)
Lemma denotes_integer e n g :
  denotes uf ctx Good e (mkType INTEGER n 0) g ->
  Good e /\ isIntegerExpr e = true /\ expr_nBits e = n /\ forall env, ctx env -> ev env e = g env.
Proof.
  intros (Hg & Ht & Hv). split; [assumption|]. unfold isIntegerExpr, has_class, expr_nBits. rewrite Ht.
  split; [reflexivity|]. now split.
Qed.

Lemma low_first_width env parts : (low_first env parts).1 = sum_widths parts.
Proof.
  unfold low_first. rewrite concat_val_width, map_map. cbn [wv fst]. unfold sum_widths.
  induction parts as [|p parts IH]; [reflexivity|]. cbn [rev map fold_right]. rewrite map_app, <- IH. clear IH.
  generalize (map (fun c => expr_nBits c) (rev parts)). intros l. induction l as [|n l IH]; cbn in *; [reflexivity|].
  rewrite IH. lia.
Qed.

(** Parts that make up [n] bits of value [v]. *)
Definition parts_of (l : list expr) (n : Z) (v : (Z -> Z) -> Z) : Prop :=
  int_parts l /\ sum_widths l = n /\ forall env, ctx env -> (low_first env l).2 = v env.

(** The bits asked for that lie in the first part, and those above it. *)
Lemma join_parts part parts partAt from to x l :
  int_parts (part :: parts) -> partAt <= from -> from <= partAt + expr_nBits part <= to ->
  denotes uf ctx Good x (mkType INTEGER (partAt + expr_nBits part - from) 0)
    (fun env => ev env part / 2 ^ (from - partAt)) ->
  parts_of l (to - (partAt + expr_nBits part))
    (fun env => (low_first env parts).2 / 2 ^ 0 mod 2 ^ (to - (partAt + expr_nBits part))) ->
  parts_of (x :: l) (to - from)
    (fun env => (low_first env (part :: parts)).2 / 2 ^ (from - partAt) mod 2 ^ (to - from)).
Proof.
  intros Hp Hf Hto Hx (Hl & Wl & Hv). apply denotes_integer in Hx as (Gx & Ix & Wx & Vx).
  assert (Hxl : int_parts (x :: l)) by (constructor; auto). split; [assumption|].
  split; [unfold sum_widths in *; cbn [map fold_right]; lia|].
  intros env Henv. rewrite !low_first_cons by assumption. cbn [snd]. rewrite Hv, Vx, Wx by assumption.
  apply Forall_cons in Hp as [[Hp _] _]. pose proof (eval_ok uf env part (proj1 Hp)).
  rewrite bits_across by (assumption || lia). rewrite Z.pow_0_r, Z.div_1_r.
  replace (from - partAt + (to - from) - expr_nBits part) with (to - (partAt + expr_nBits part)) by lia.
  now replace (expr_nBits part - (from - partAt)) with (partAt + expr_nBits part - from) by lia.
Qed.

Lemma one_part part parts partAt from to x :
  int_parts (part :: parts) -> partAt <= from -> from < to <= partAt + expr_nBits part ->
  denotes uf ctx Good x (mkType INTEGER (to - from) 0)
    (fun env => ev env part / 2 ^ (from - partAt) mod 2 ^ (to - from)) ->
  parts_of [x] (to - from)
    (fun env => (low_first env (part :: parts)).2 / 2 ^ (from - partAt) mod 2 ^ (to - from)).
Proof.
  intros Hp Hf Hto Hx. apply denotes_integer in Hx as (Gx & Ix & Wx & Vx).
  assert (Hl : int_parts [x]) by now apply Forall_singleton. split; [assumption|].
  split; [cbn; lia|]. intros env Henv. rewrite !low_first_cons by assumption. cbn [snd].
  rewrite Vx by assumption. rewrite bits_below by lia. unfold low_first. cbn [rev map concat_val fold_right fst snd].
  now rewrite Z.mul_0_l, !Z.add_0_l.
Qed.

Ltac name_results :=
  try match goal with H : extract_parts _ _ _ _ _ _ = Ret _ |- _ => rename H into Hl end;
  try match goal with H : extract_between _ _ _ _ _ _ = Ret _ |- _ => rename H into Hx end.

Lemma extract_parts_sound parts partAt from to l :
  int_parts parts -> partAt <= from -> from < to \/ from = partAt /\ to = partAt ->
  to <= partAt + sum_widths parts -> extract_parts simplify solver parts partAt from to = Ret l ->
  parts_of l (to - from) (fun env => (low_first env parts).2 / 2 ^ (from - partAt) mod 2 ^ (to - from)).
Proof.
  intros Hp. revert partAt from l. induction Hp as [|part parts [Gp Ip] Hp IH]; intros partAt from l Hf Hto Hw H.
  - injection H as <-. unfold sum_widths in Hw. cbn in Hw. split; [constructor|]. split; [cbn; lia|].
    intros env _. replace (to - from) with 0 by lia. now rewrite Z.mod_1_r.
  - assert (Hpp : int_parts (part :: parts)) by (constructor; auto). pose proof (Good_width_pos part Gp) as Hwp.
    destruct Hto as [Hto|[-> ->]].
    2: { rewrite extract_parts_done in H by (assumption || lia). injection H as <-. split; [constructor|].
         split; [cbn; lia|]. intros env _. now rewrite Z.sub_diag, Z.pow_0_r, Z.mod_1_r. }
    assert (Hs : sum_widths (part :: parts) = expr_nBits part + sum_widths parts) by reflexivity.
    cbn [extract_parts] in H. cbv zeta in H.
    destruct (Z.leb_spec (partAt + expr_nBits part) from).
    { apply IH in H; [|lia..]. destruct H as (Hl & Wl & Hv). split; [assumption|]. split; [assumption|]. intros env Henv.
      rewrite Hv, low_first_cons by assumption. cbn [snd]. rewrite bits_above by (try apply eval_ok, Gp; lia).
      now replace (from - partAt - expr_nBits part) with (from - (partAt + expr_nBits part)) by lia. }
    rewrite (proj2 (Z.leb_gt to partAt)) in H by lia.
    destruct (Z.ltb_spec partAt from); cbn [andb] in H.
    + destruct (Z.ltb_spec to (partAt + expr_nBits part)); inv_outcome; name_results; subst.
      * rewrite extract_parts_done in Hl by (assumption || lia). injection Hl as <-.
        apply (one_part part parts partAt); try assumption; try lia.
        eapply extract_between_sound in Hx; try eassumption; [|lia..].
        now replace (to - partAt - (from - partAt)) with (to - from) in Hx by lia.
      * apply (join_parts part parts partAt); try assumption; try lia.
        -- eapply extract_between_sound in Hx; try eassumption; [|lia..].
           replace (expr_nBits part - (from - partAt)) with (partAt + expr_nBits part - from) in Hx by lia.
           eapply denotes_ext; [|exact Hx]. intros env _. cbv beta. apply Z.mod_small.
           replace (partAt + expr_nBits part - from) with (expr_nBits part - (from - partAt)) by lia.
           apply div_pow2_ok; [apply eval_ok, Gp|lia].
        -- replace (from + (partAt + expr_nBits part - from)) with (partAt + expr_nBits part) in Hl by lia.
           apply IH in Hl; [|lia..]. now rewrite Z.sub_diag in Hl.
    + assert (from = partAt) by lia. subst from.
      destruct (Z.ltb_spec to (partAt + expr_nBits part)); inv_outcome; name_results; subst.
      * apply (one_part part parts partAt); try assumption; try lia.
        eapply extract_between_sound in Hx; try eassumption; [|lia..].
        rewrite Z.sub_0_r in Hx. now rewrite Z.sub_diag.
      * apply (join_parts part parts partAt); try assumption; try lia.
        -- replace (partAt + expr_nBits part - partAt) with (expr_nBits part) by lia.
           split; [assumption|]. split; [now apply int_arg|]. intros env _. now rewrite Z.sub_diag, Z.pow_0_r, Z.div_1_r.
        -- apply IH in Hl; [|lia..]. now rewrite Z.sub_diag in Hl.
Qed.

Lemma concat_value env w cs :
  int_parts cs -> sum_widths cs = w -> eval_list uf env OP_CONCAT w cs = (concat_val (map (wv uf env) cs)).2.
Proof.
  intros Hc <-. pose proof (int_parts_args_ok env cs Hc) as Hok. eval_args. apply Z.mod_small.
  destruct (concat_val_ok _ Hok) as [_ Hv]. rewrite concat_val_width, map_map in Hv. exact Hv.
Qed.

Lemma sum_widths_rev l : sum_widths (rev l) = sum_widths l.
Proof.
  pose proof (low_first_width (fun _ => 0) l) as E. unfold low_first in E.
  rewrite concat_val_width, map_map in E. exact E.
Qed.

(** The limits of an extraction. *)
Lemma extract_limits_node t fc tc x f from to :
  offset uf fc from -> offset uf tc to ->
  extract_limits (Node OP_EXTRACT t [fc; tc; x] f) = Ret (Some (from, to)).
Proof.
  intros (_ & Cf & Wf & Uf & _) (_ & Ct & Wt & Ut & _). unfold extract_limits. cbn_args.
  rewrite Cf, Ct, Uf, Ut, !(proj2 (Z.leb_le _ _)) by assumption.
  assert (Hl : forall c, isIntegerConstant c = true -> isLeaf c = true) 
    by (intros c E; unfold isIntegerConstant in E; destr_bool; now destruct c).
  now rewrite !Hl.
Qed.

(** Several parts, the high one first. *)
Lemma concat_list_sound l fl e :
  int_parts l -> instance simplify solver type_none OP_CONCAT l fl = Ret e ->
  denotes uf ctx Good e (mkType INTEGER (sum_widths l) 0) (fun env => (concat_val (map (wv uf env) l)).2).
Proof.
  intros Hl H. eapply instance_none in H; try eassumption.
  - destruct H as (t & Ha & Hd). apply sum_width in Ha as [Hc Hn]; [|auto].
    assert (Ht : t = mkType INTEGER (sum_widths l) 0).
    { destruct Hd as (Gd & Td & _). rewrite <- Td in *. apply Good_Pre, Pre_type_ok in Gd.
      apply type_ok_integer in Gd; [|assumption]. now rewrite Gd, Hn. }
    rewrite <- Ht. eapply denotes_ext; [|exact Hd]. intros env Henv. now apply concat_value.
  - apply (Forall_impl _ _ _ Hl). now intros c [].
  - intros t _. cbn [ok_node]. apply ints_Forall. apply (Forall_impl _ _ _ Hl). now intros c [].
Qed.

Lemma concat_parts_sound l n v fl e :
  parts_of l n v -> instance simplify solver type_none OP_CONCAT (rev l) fl = Ret e ->
  denotes uf ctx Good e (mkType INTEGER n 0) v.
Proof.
  intros (Hl & Wl & Hv) H. apply concat_list_sound in H; [|now apply Forall_rev].
  rewrite sum_widths_rev, Wl in H. eapply denotes_ext; [|exact H]. intros env Henv. now apply Hv.
Qed.

Lemma ExtractSimplifier_sound : sound OP_EXTRACT (ExtractSimplifier_rewrite simplify solver).
Proof.
  intros t cs f r Hp H. destruct (Extract_node uf t cs f Hp) as (fc & tc & x & from & to & -> & Hf & Ht & Gx & Ix & Hft & Hto & ->).
  apply (denotes_ext uf ctx _ _ _ (fun env => ev env x / 2 ^ from mod 2 ^ (to - from))).
  { intros env _. symmetry. now apply extract_value. }
  destruct (int_arg uf x Gx Ix) as (Hwx & Htx & Hvx).
  unfold ExtractSimplifier_rewrite in H. rewrite (extract_limits_node _ fc tc x f from to Hf Ht) in H.
  cbn [obind] in H. cbn_args. rewrite (proj2 (Z.leb_gt to from)), (proj2 (Z.ltb_ge _ to)) in H by lia. cbn [orb] in H.
  destruct (integer_constant x) as [v|] eqn:Ex.
  { destruct (const_arg uf x v Gx Ex) as (_ & _ & _ & Hv & Hev & _). unfold some in H. inv_outcome. subst.
    apply makeIntegerConstant_bits_Ret in H0 as (-> & Hn & _). apply (sound_const uf ctx); [reflexivity|lia| |].
    - apply get_bits_range. lia.
    - intros env _. cbv beta. now rewrite Hev. }
  destruct ((from =? 0) && (to =? expr_nBits x)) eqn:Eall.
  { apply andb_true_iff in Eall as [E1 E2]. apply Z.eqb_eq in E1. apply Z.eqb_eq in E2. injection H as <-.
    subst from to. rewrite Z.sub_0_r in *. split; [now apply Good_Pre|].
    split; [assumption|]. intros env _. rewrite Z.pow_0_r, Z.div_1_r. symmetry. apply Z.mod_small, Hvx. }
  clear Eall. destruct (isOperator x OP_CONCAT) eqn:Eo.
  { apply isOperator_inv in Eo as (tx & cx & fx & ->). destruct (Concat_node tx cx fx (Good_Pre _ Gx)) as (Hc & Hne & Hs & Etx).
    cbn [children] in H. inv_outcome.
    assert (Hl : parts_of x (to - from) (fun env => ev env (Node OP_CONCAT tx cx fx) / 2 ^ from mod 2 ^ (to - from))).
    { eapply extract_parts_sound in H0; [|now apply Forall_rev|lia..|rewrite sum_widths_rev, Hs; exact Hto].
      rewrite Z.sub_0_r in H0. destruct H0 as (Hl & Wl & Hv). split; [assumption|]. split; [assumption|].
      intros env Henv. rewrite Hv by assumption. unfold low_first. rewrite rev_involutive, eval_node.
      now rewrite concat_value. }
    destruct x as [|c [|c' l]]; [discriminate| |].
    - injection H as <-. destruct Hl as (Hl & Wl & Hv). destruct (proj1 (Forall_singleton _ _) Hl) as [Gc Ic].
      cbn in Wl. split; [now apply Good_Pre|]. split; [rewrite (proj1 (proj2 (int_arg uf c Gc Ic))); f_equal; lia|].
      intros env Henv. rewrite <- Hv by assumption. cbn. lia.
    - unfold some in H. inv_outcome. subst. eapply concat_parts_sound in H1; try eassumption. now apply denotes_weaken. }
  destruct (isOperator x OP_EXTRACT) eqn:Ee; cbn [andb] in H.
  { apply isOperator_inv in Ee as (tx & cx & fx & ->).
    destruct (Extract_node uf tx cx fx (Good_Pre _ Gx)) as (fc2 & tc2 & y & from2 & to2 & -> & Hf2 & Ht2 & Gy & Iy & Hft2 & Hto2 & ->).
    cbn_args. pose proof Hf2 as (_ & Cf2 & _ & Uf2 & _). pose proof Ht2 as (_ & Ct2 & _).
    rewrite Cf2, Ct2 in H. cbn [andb] in H. rewrite Uf2 in H. unfold some in H. inv_outcome. subst.
    cbn [expr_nBits expr_type nBits] in Hto, Hwx.
    cbn [default from_option id] in H0. eapply extract_between_sound in H0; try eassumption; [|lia..]. apply denotes_weaken.
    replace (from2 + to - (from2 + from)) with (to - from) in H0 by lia.
    eapply denotes_ext; [|exact H0]. intros env Henv. cbv beta. rewrite eval_node. cbn [nBits].
    rewrite (extract_value uf env _ _ _ _ _ Hf2). rewrite bits_bits by lia. reflexivity. }
  destruct (_ && (expr_nBits _ =? to)) eqn:Eu in H; [|discriminate].
  apply andb_true_iff in Eu as [Eu Ew]. apply andb_true_iff in Eu as [Eu _]. apply andb_true_iff in Eu as [Ef Eo'].
  injection H as <-. apply isOperator_inv in Eo' as (tx & cx & fx & ->).
  destruct (extend_node uf OP_UEXTEND tx cx fx ltac:(auto) (Good_Pre _ Gx)) as (c & y & -> & _ & Gy & Iy & _).
  cbn_args. apply Z.eqb_eq in Ef. apply Z.eqb_eq in Ew. subst from to. destruct (int_arg uf y Gy Iy) as (Hwy & Hty & Hvy).
  rewrite Z.sub_0_r. split; [now apply Good_Pre|]. split; [assumption|]. intros env _.
  change (expr_nBits (Node OP_UEXTEND tx [c; y] fx)) with (nBits tx) in Hto.
  assert (Hy : bv_ok (nBits tx) (ev env y)) by (apply (ok_le (expr_nBits y)); [apply Hvy|lia]).
  rewrite eval_node. eval_args. rewrite Z.pow_0_r, Z.div_1_r.
  rewrite !(Z.mod_small _ (2 ^ nBits tx)) by exact Hy. symmetry. apply Z.mod_small, Hvy.
Qed.

(** An extraction that is left alone is in normal form. *)
Lemma ExtractSimplifier_nf t cs f :
  Pre (Node OP_EXTRACT t cs f) -> ExtractSimplifier_rewrite simplify solver (Node OP_EXTRACT t cs f) = Ret None ->
  nf_node OP_EXTRACT cs = true.
Proof.
  intros Hp H. destruct (Extract_node uf t cs f Hp) as (fc & tc & x & from & to & -> & Hf & Ht & Gx & _ & Hft & Hto & _).
  unfold ExtractSimplifier_rewrite in H. rewrite (extract_limits_node _ fc tc x f from to Hf Ht) in H.
  cbn [obind nf_node] in *. cbn_args. rewrite (proj2 (Z.leb_gt to from)), (proj2 (Z.ltb_ge _ to)) in H by lia.
  cbn [orb] in H. destruct x as [| |op tx cx fx]; [reflexivity..|]. cbn [integer_constant] in H.
  destruct (_ && (to =? _)); [discriminate|].
  destruct (isOperator _ OP_CONCAT); [inv_outcome; destruct x as [|? [|? ?]]; unfold some in H; inv_outcome; discriminate|].
  destruct (isOperator _ OP_EXTRACT) eqn:Ee; [|reflexivity]. apply isOperator_inv in Ee as (? & ? & ? & [= -> -> -> ->]).
  destruct (Extract_node uf _ _ _ (Good_Pre _ Gx)) as (fc2 & tc2 & y & from2 & to2 & -> & Hf2 & Ht2 & _).
  cbn_args. pose proof Hf2 as (_ & Cf2 & _). pose proof Ht2 as (_ & Ct2 & _).
  rewrite Cf2, Ct2 in H. cbn [andb] in H. unfold some in H. inv_outcome. discriminate.
Qed.

(** * Concatenation *)

(** Conditionals with one condition: what the parts are on either side of it. *)
Definition branches (k : expr) (ts fs cs : list expr) : Prop :=
  int_parts ts /\ int_parts fs /\ map expr_nBits ts = map expr_nBits cs /\ map expr_nBits fs = map expr_nBits cs /\
  forall env, ctx env -> map (wv uf env) cs = map (wv uf env) (if ev env k =? 0 then fs else ts).

Lemma common_condition_sound cond cs k ts fs :
  int_parts cs -> common_condition solver cond cs = Ret (Some (k, ts, fs)) ->
  match cond with
  | Some k' => k = k' /\ (Good k -> branches k ts fs cs)
  | None => Good k /\ isIntegerExpr k = true /\ expr_nBits k = 1 /\ branches k ts fs cs
  end.
Proof.
  intros Hcs. revert cond k ts fs. induction Hcs as [|c cs [Gc Ic] Hcs IH]; intros cond k ts fs H; cbn [common_condition] in H.
  - destruct cond as [k'|]; [|discriminate]. injection H as -> <- <-. split; [reflexivity|]. intros _.
    split; [constructor|]. split; [constructor|]. split; [reflexivity|]. split; [reflexivity|].
    intros env _. now destruct (_ =? 0).
  - destruct (isOperator c OP_ITE) eqn:Eo; [|discriminate]. apply isOperator_inv in Eo as (t & cs' & f & ->).
    destruct (Ite_node t cs' f (Good_Pre _ Gc)) as (kc & a & b & -> & Gk & Ga & Gb & Ik & Wk & Ta & Tb).
    cbn_args. inv_outcome. destruct x; [|discriminate]. inv_outcome. destruct x as [[[k1 ts1] fs1]|]; [|discriminate].
    injection H as -> <- <-. apply IH in H1. destruct H1 as [Ek Hb].
    assert (Hia : isIntegerExpr a = true /\ isIntegerExpr b = true).
    { unfold isIntegerExpr, has_class in *. now rewrite Ta, Tb. }
    assert (Hbr : Good k -> (forall env, ctx env -> ev env kc = ev env k) -> branches k (a :: ts1) (b :: fs1) (Node OP_ITE t [kc; a; b] f :: cs)).
    { intros Gk' Hk. destruct (Hb Gk') as (H1 & H2 & H3 & H4 & H5). split; [constructor; tauto|]. split; [constructor; tauto|].
      assert (Hwab : expr_nBits a = nBits t /\ expr_nBits b = nBits t) by (unfold expr_nBits; now rewrite Ta, Tb).
      destruct Hwab as [Wa Wb].
      cbn [map]. rewrite H3, H4, Wa, Wb. split; [reflexivity|]. split; [reflexivity|].
      intros env Henv. cbn [map]. rewrite H5 by assumption. unfold wv at 1. rewrite eval_node, ite_value, Hk by assumption.
      destruct (ev env k =? 0); cbn [map]; f_equal; unfold wv; now rewrite ?Wa, ?Wb. }
    destruct cond as [k'|]; cbn [default from_option id] in *; subst k.
    + split; [reflexivity|]. intros Gk'. apply Hbr; [assumption|]. intros env Henv.
      apply (mustEqual_eval uf env solver); [now apply solver_sound|apply Gk|apply Gk'|assumption].
    + split; [assumption|]. split; [assumption|]. split; [assumption|]. now apply Hbr.
Qed.

Lemma hoist_condition_sound k ts fs cs e1 e2 e :
  Good k -> int_parts cs -> branches k ts fs cs ->
  instance simplify solver type_none OP_CONCAT ts 0 = Ret e1 ->
  instance simplify solver type_none OP_CONCAT fs 0 = Ret e2 ->
  instance simplify solver type_none OP_ITE [k; e1; e2] 0 = Ret e ->
  denotes uf ctx Good e (mkType INTEGER (sum_widths cs) 0) (fun env => (concat_val (map (wv uf env) cs)).2).
Proof.
  intros Gk Hcs (Ht & Hf & Wt & Wf & Hv) H1 H2 H.
  assert (E1 : sum_widths ts = sum_widths cs) by (unfold sum_widths; now rewrite Wt).
  assert (E2 : sum_widths fs = sum_widths cs) by (unfold sum_widths; now rewrite Wf).
  apply concat_list_sound in H1; [|assumption]. apply concat_list_sound in H2; [|assumption]. rewrite E1 in H1. rewrite E2 in H2.
  destruct H1 as (G1 & T1 & V1), H2 as (G2 & T2 & V2).
  eapply makeIte_sound in H; try eassumption. eapply denotes_ext; [|exact H].
  intros env Henv. cbv beta. rewrite V1, V2, Hv by assumption. now destruct (_ =? 0).
Qed.

(** Two adjacent extractions of the same bits. *)
Lemma adjacent_bits v lo a b :
  0 <= lo -> 0 <= a -> 0 <= b ->
  v / 2 ^ (lo + b) mod 2 ^ a * 2 ^ b + v / 2 ^ lo mod 2 ^ b = v / 2 ^ lo mod 2 ^ (a + b).
Proof.
  intros Hlo Ha Hb. pose proof (pow2_pos lo Hlo). pose proof (pow2_pos a Ha). pose proof (pow2_pos b Hb).
  rewrite (Z.add_comm a b), (Z.pow_add_r 2 b a) by assumption. rewrite Z.rem_mul_r by lia.
  rewrite Z.pow_add_r, <- Z.div_div by lia. lia.
Qed.

(** What [simplify] makes of an extraction in normal form: the same node, a
    leaf, or the operand it takes the low bits of. *)
Hypothesis simplify_extract : forall s t fc tc x f from m,
  solver_ok uf ctx s -> Pre (Node OP_EXTRACT t [fc; tc; x] f) -> nf_node OP_EXTRACT [fc; tc; x] = true ->
  offset uf fc from -> simplify s (Node OP_EXTRACT t [fc; tc; x] f) = Ret m ->
  isInterior m = false \/ from = 0 \/ m = Node OP_EXTRACT t [fc; tc; x] f.

(** An expression that later parts may be joined to, its low offset known. *)
Definition extracts_from (p : expr) (lo : Z) : Prop :=
  lo = 0 \/ exists t fc tc x f, p = Node OP_EXTRACT t [fc; tc; x] f /\ offset uf fc lo.

Definition joinable (prev : option expr) (lo : Z) (acc : list expr) : Prop :=
  match prev with
  | None => True
  | Some p => (exists acc', acc = p :: acc') /\ extracts_from p lo
  end.

Lemma makeExtract_shape fc tc x from to m :
  offset uf fc from -> offset uf tc to -> Good x -> isIntegerExpr x = true -> 0 <= from < to -> to <= expr_nBits x ->
  nf_node OP_EXTRACT [fc; tc; x] = true -> makeExtract simplify solver fc tc x 0 = Ret m ->
  isInterior m = true -> extracts_from m from.
Proof.
  intros Hf Ht Gx Ix Hft Hto Hnf H Hm. unfold makeExtract, instance, instance_with in H. inv_outcome.
  pose proof Hf as (Gf & Cf & Wf & Uf & Ef). pose proof Ht as (Gt & Ct & _ & Ut & _).
  apply (interior_sound uf ctx) in H0; [|cbn; lia|reflexivity|now repeat (constructor; [assumption|])|].
  - destruct H0 as (t & _ & _ & (Hp & _) & Hi & Ho & Hc). destruct x0 as [| |op t' cs f]; try discriminate.
    cbn in Ho, Hc. subst op cs. eapply simplify_extract in H; try eassumption.
    destruct H as [H|[H|H]]; [congruence|now left|right]. exists t', fc, tc, x, f. now split.
  - intros t _. cbn -[toUnsigned Z.leb]. unfold isIntegerConstant in *. destr_bool. rewrite Ut.
    repeat match goal with Hi : isIntegerExpr _ = true |- _ => rewrite Hi end. now apply Z.leb_le.
Qed.

Lemma extract_offsets_spec c lo hi :
  Good c -> extract_offsets c = Ret (Some (lo, hi)) ->
  exists t fc tc x f, c = Node OP_EXTRACT t [fc; tc; x] f /\ offset uf fc lo /\ offset uf tc hi /\
    Good x /\ isIntegerExpr x = true /\ 0 <= lo < hi /\ hi <= expr_nBits x /\ t = mkType INTEGER (hi - lo) 0 /\
    nf_node OP_EXTRACT [fc; tc; x] = true.
Proof.
  intros Gc H. unfold extract_offsets in H. destruct (isOperator c OP_EXTRACT) eqn:Eo; [|discriminate].
  apply isOperator_inv in Eo as (t & cs & f & ->).
  destruct (Extract_node uf t cs f (Good_Pre _ Gc)) as (fc & tc & x & from & to & -> & Hf & Ht & Gx & Ix & Hft & Hto & Et).
  pose proof (proj2 (proj1 (Good_node _ _ _ _) Gc)) as Hnf.
  cbn_args. pose proof Hf as (_ & Cf & Wf & Uf & _). pose proof Ht as (_ & Ct & Wt & Ut & _).
  rewrite Cf, Ct, !(proj2 (Z.leb_le _ 64)), Uf, Ut in H by assumption. cbn [andb default from_option id] in H.
  inv_outcome. subst. exists (mkType INTEGER (hi - lo) 0), fc, tc, x, f. auto 12.
Qed.

(** Joining an extraction to the one before it. *)
Lemma join_extracts p plo c lo hi m :
  Good p -> extracts_from p plo -> Good c -> extract_offsets c = Ret (Some (lo, hi)) -> hi = plo ->
  same_source solver p c = Ret true ->
  makeExtract simplify solver (arg c 0) (arg p 1) (arg c 2) 0 = Ret m ->
  Good m /\ isIntegerExpr m = true /\ expr_nBits m = expr_nBits p + expr_nBits c /\
  (isInterior m = true -> extracts_from m lo) /\
  forall env, ctx env -> wv uf env m = concat2 (wv uf env p) (wv uf env c).
Proof.
  intros Gp Hp Gc Hc -> Hs H.
  destruct (extract_offsets_spec c lo plo Gc Hc) as (tc & fc & tc' & xc & f & -> & Hlo & Hhi & Gx & Ix & Hlt & Hle & Et & Hnf).
  destruct Hp as [->|(tp & fp & tp' & xp & f' & -> & Hplo)]; [lia|].
  destruct (Extract_node uf _ _ _ (Good_Pre _ Gp)) as (fp2 & tp2 & xp2 & plo2 & phi & [= <- <- <-] & Hplo2 & Hphi & Gxp & Ixp & Hplt & Hple & Etp).
  assert (plo2 = plo) as -> by (destruct Hplo2 as (_ & _ & _ & U2 & _), Hplo as (_ & _ & _ & U1 & _); congruence).
  unfold same_source in Hs. cbn_args. inv_outcome.
  destruct (Z.eqb_spec (expr_nBits xp) (expr_nBits xc)) as [Ew|]; [|discriminate].
  assert (Ex : forall env, ctx env -> ev env xp = ev env xc).
  { intros env Henv. apply (mustEqual_eval uf env solver); [now apply solver_sound|apply Gxp|apply Gx|assumption]. }
  pose proof (makeExtract_shape fc tp' xc lo phi m) as Hsh.
  eapply makeExtract_sound in H as Hd; try eassumption; [|lia..]. apply denotes_integer in Hd as (Gm & Im & Wm & Vm).
  assert (Wp : expr_nBits (Node OP_EXTRACT tp [fp; tp'; xp] f') = phi - plo) by now rewrite Etp.
  assert (Wc : expr_nBits (Node OP_EXTRACT tc [fc; tc'; xc] f) = plo - lo) by now rewrite Et.
  split; [assumption|]. split; [assumption|]. split; [lia|]. split.
  { apply Hsh; try assumption; lia. }
  intros env Henv. unfold wv, concat2. rewrite Vm, Wm, Wp, Wc by assumption. cbn [fst snd]. f_equal; [lia|].
  rewrite !eval_node. rewrite Etp, Et. cbn [nBits].
  rewrite (extract_value uf env fp tp' xp plo phi Hplo), (extract_value uf env fc tc' xc lo plo Hlo), Ex by assumption.
  replace (phi - lo) with (phi - plo + (plo - lo)) by lia. rewrite <- adjacent_bits by lia.
  now replace (lo + (plo - lo)) with plo by lia.
Qed.

Lemma merge_extracts_sound cs acc prev prevLo l :
  int_parts acc -> int_parts cs -> joinable prev prevLo acc ->
  merge_extracts simplify solver acc prev prevLo cs = Ret l ->
  int_parts l /\ sum_widths l = sum_widths (rev acc ++ cs) /\
  forall env, ctx env -> concat_val (map (wv uf env) l) = concat_val (map (wv uf env) (rev acc ++ cs)).
Proof.
  intros Ha Hcs. revert acc prev prevLo Ha l. induction Hcs as [|c cs [Gc Ic] Hcs IH]; intros acc prev prevLo Ha l Hj H.
  - injection H as <-. rewrite app_nil_r. split; [now apply Forall_rev|]. now split.
  - cbn [merge_extracts] in H. cbv zeta in H. inv_outcome.
    assert (Hnext : forall prev' lo', joinable prev' lo' (c :: acc) ->
      merge_extracts simplify solver (c :: acc) prev' lo' cs = Ret l ->
      int_parts l /\ sum_widths l = sum_widths (rev acc ++ c :: cs) /\
      forall env, ctx env -> concat_val (map (wv uf env) l) = concat_val (map (wv uf env) (rev acc ++ c :: cs))).
    { intros prev' lo' Hj' H'. apply IH in H'; [|now constructor|assumption]. cbn [rev] in H'.
      now rewrite <- app_assoc in H'. }
    assert (Hcur : joinable (match x with Some _ => Some c | None => None end)
                            (match x with Some (lo, _) => lo | None => 0 end) (c :: acc)).
    { destruct x as [[lo hi]|]; [|exact I]. split; [now exists acc|]. right.
      destruct (extract_offsets_spec c lo hi Gc H0) as (t & fc & tc & x & f & -> & Hlo & _). now exists t, fc, tc, x, f. }
    destruct x0 as [|]; [|exact (Hnext _ _ Hcur H)].
    destruct prev as [p|]; [|destruct x as [[? ?]|]; discriminate].
    destruct x as [[lo hi]|]; [|discriminate]. destruct (Z.eqb_spec hi prevLo) as [E|]; [|discriminate].
    inv_outcome. destruct Hj as [[acc' ->] Hp]. apply Forall_cons in Ha as [[Gp Ip] Ha]. cbn [tail] in H.
    destruct (join_extracts p prevLo c lo hi x Gp Hp Gc H0 E H1 H2) as (Gm & Im & Wm & Sm & Vm).
    apply IH in H; [|constructor; auto|].
    + destruct H as (Hl & Wl & Vl). split; [assumption|].
      assert (Hok : forall env l, int_parts l -> args_ok (map (wv uf env) l)) by (intros; now apply int_parts_args_ok).
      cbn [rev]. rewrite <- !app_assoc in *. cbn [app rev] in *. rewrite <- app_assoc in *. cbn [app] in *. split.
      * rewrite Wl. rewrite !sum_widths_app. unfold sum_widths. cbn [map fold_right]. lia.
      * intros env Henv. rewrite Vl by assumption. rewrite !map_app, !concat_val_app.
        2-5: try (apply Hok; try apply Forall_rev; repeat (constructor; [now split|]); assumption).
        f_equal. cbn [map]. rewrite !concat_val_cons, Vm by assumption. symmetry.
        apply concat2_assoc; [cbn; pose proof (Good_width_pos c Gc); lia|]. apply concat_val_ok, Hok, Hcs.
    + destruct (isInterior x) eqn:Ei; [|exact I]. split; [now exists acc'|]. now apply Sm.
Qed.

Lemma newFlags_sound e fl r :
  Good e -> isIntegerExpr e = true -> newFlags simplify e fl = Ret r ->
  denotes uf ctx Good r (expr_type e) (fun env => ev env e).
Proof.
  intros Ge Ie H. unfold newFlags in H. destruct (fl =? expr_flags e).
  { injection H as <-. split; [assumption|]. now split. }
  destruct e as [t v f|t n f|op t cs f].
  - unfold makeConstant, createConstant in H. inv_outcome. subst. split; [exact Ge|]. now split.
  - unfold makeVariable, createVariable in H. inv_outcome. subst. split; [exact Ge|]. now split.
  - pose proof (proj1 (Pre_node _ _ _ _) (Good_Pre _ Ge)) as ((Hw & Hto) & Ha & Hcs & Hok).
    apply integer_type in Ie. cbn [expr_type] in Ie.
    eapply (instance_sound uf ctx simplify simplify_sound None) in H; try assumption; [|apply solver_ok_None|lia|].
    + destruct H as (t' & _ & Ht & Hd). rewrite Ht in Hd by congruence.
      eapply denotes_ext; [|exact Hd]. intros env _. now rewrite eval_node.
    + intros t' Ha'. rewrite Ha in Ha'. now injection Ha' as <-.
Qed.

Lemma ConcatSimplifier_sound : sound OP_CONCAT (ConcatSimplifier_rewrite simplify solver).
Proof.
  intros t cs f r Hp H. destruct (Concat_node t cs f Hp) as (Hcs & Hne & Hs & Et).
  apply (denotes_ext uf ctx _ _ _ (fun env => (concat_val (map (wv uf env) cs)).2)).
  { intros env _. symmetry. now apply concat_value. }
  rewrite Et. cbn [nBits]. rewrite <- Hs. apply denotes_weaken.
  unfold ConcatSimplifier_rewrite in H. cbn [children expr_type getOperator expr_flags] in H. inv_outcome.
  destruct x as [[[k ts] fs]|].
  - unfold some in H. inv_outcome. subst. apply common_condition_sound in H0; [|assumption].
    destruct H0 as (Gk & Ik & Wk & Hb). eapply hoist_condition_sound; eassumption.
  - inv_outcome. apply merge_extracts_sound in H1; try assumption; [|constructor|exact I].
    cbn [rev app] in H1. destruct H1 as (Hl & Wl & Vl).
    destruct x as [|c [|c' l]].
    + destruct (proj1 (Pre_node _ _ _ _) Hp) as ((Hw & _) & _). cbn in Wl. lia.
    + unfold some in H. inv_outcome. subst. destruct (proj1 (Forall_singleton _ _) Hl) as [Gc Ic].
      apply newFlags_sound in H1; [|assumption..]. cbn in Wl. rewrite <- Wl, Z.add_0_r.
      rewrite <- (proj1 (proj2 (int_arg uf c Gc Ic))). eapply denotes_ext; [|exact H1].
      intros env Henv. cbv beta. rewrite <- Vl by assumption. cbn. lia.
    + destruct (_ =? _)%nat; [discriminate|]. unfold some in H. inv_outcome. subst.
      eapply (instance_sound uf ctx simplify simplify_sound solver) in H1; try assumption.
      * destruct H1 as (t' & _ & Ht & Hd). rewrite Hs, <- Et. rewrite Ht in Hd by (rewrite Et; discriminate).
        eapply denotes_ext; [|exact Hd]. intros env Henv. cbv beta. rewrite concat_value by (assumption || congruence).
        now rewrite Vl.
      * destruct (proj1 (Pre_node _ _ _ _) Hp) as ((Hw & _) & _). lia.
      * now apply (Pre_type_ok (Node OP_CONCAT t cs f)).
      * apply (Forall_impl _ _ _ Hl). now intros y [].
      * intros t' _. cbn [ok_node]. apply ints_Forall. apply (Forall_impl _ _ _ Hl). now intros y [].
Qed.
End Recursion.
End Sound.
