(* ===== verification/SymAdd.v ===== *)
(** Soundness of the simplifier of sums: the conditional hoisted out of a sum,
    the operands that cancel each other, the negations distributed over a
    nested sum. *)
From S2P Require Import Prelude BitVector SymType SymExpr SymSimplify SymEval SymGood SymAC SymSound.
From Stdlib Require Import Permutation Morphisms Setoid.
Open Scope Z_scope.

Section Sound.
Variable uf : Operator -> Z -> list Z -> Z.
Variable ctx : (Z -> Z) -> Prop.
#[local] Notation sound op p := (sound_pass uf ctx op p).
#[local] Notation ev env e := (eval uf env e).

(** * Sums *)

Definition sum_val (env : Z -> Z) (cs : list expr) : Z := ac_val OP_ADD (map (wv uf env) cs).

Lemma sum_val_cons env c cs : sum_val env (c :: cs) = ev env c + sum_val env cs.
Proof. unfold sum_val. cbn [map]. now rewrite ac_val_cons. Qed.

Lemma sum_val_app env l m : sum_val env (l ++ m) = sum_val env l + sum_val env m.
Proof. unfold sum_val. rewrite map_app, ac_val_app. reflexivity. Qed.

Lemma eval_sum env w cs : eval_list uf env OP_ADD w cs = sum_val env cs mod 2 ^ w.
Proof. reflexivity. Qed.

(** Integer operands of one width. *)
Definition terms (w : Z) (cs : list expr) : Prop := Forall (elem OP_ADD w) cs.

Lemma elem_width w c : elem OP_ADD w c -> expr_nBits c = w.
Proof. intros (_ & _ & H). now apply H. Qed.

Lemma elem_bits env w c : elem OP_ADD w c -> bv_ok w (ev env c).
Proof. intros H. rewrite <- (elem_width w c H). apply eval_ok, H. Qed.

Lemma elem_int w c : Good c -> isIntegerExpr c = true -> expr_nBits c = w -> elem OP_ADD w c.
Proof. intros Hg Hi Hw. split; [assumption|]. now split. Qed.

(** * Operands that cancel *)

(** Operands with some removed. *)
Definition kept_val (env : Z -> Z) (cs : list (option expr)) : Z :=
  fold_right (fun c n => match c with Some c => ev env c | None => 0 end + n) 0 cs.
Definition kept_terms (w : Z) (cs : list (option expr)) : Prop :=
  Forall (fun c => match c with Some c => elem OP_ADD w c | None => True end) cs.

Lemma kept_val_map env cs : kept_val env (map Some cs) = sum_val env cs.
Proof. induction cs as [|c cs IH]; [reflexivity|]. rewrite sum_val_cons, <- IH. reflexivity. Qed.

(** One operand is the negation of the other, or its complement. *)
Lemma dual_sum env w op b t cs f :
  op = OP_NEGATE \/ op = OP_INVERT -> elem OP_ADD w (Node op t cs f) -> isEquivalentTo b (arg (Node op t cs f) 0) = true ->
  eqm w (ev env b + ev env (Node op t cs f)) (if op_eqb op OP_NEGATE then 0 else -1).
Proof.
  intros Hop He Hb. pose proof (elem_width _ _ He) as Hw. pose proof (wt_width _ (proj1 (proj1 He))) as Hwp.
  destruct (unary_node uf op t cs f ltac:(tauto) (Good_Pre _ (proj1 He))) as (x & -> & Gx & Ix & Tx & Wx & Et & _).
  cbn_args. rewrite (isEquivalentTo_eval uf env _ _ Hb), eval_node.
  change (expr_nBits (Node op t [x] f)) with (nBits t) in *. rewrite Hw in *.
  assert (Hm : eqm w (ev env x + eval_list uf env op w [x]) (ev env x + eval_op uf op w [wv uf env x])).
  { unfold eval_list. cbn [map]. now rewrite eqm_mod by lia. }
  rewrite Hm. destruct Hop as [->| ->]; cbn; unfold eqm; f_equal; lia.
Qed.

Lemma are_duals_sound w a b adj adj' :
  elem OP_ADD w a -> elem OP_ADD w b -> bv_ok w adj -> are_duals a b adj w = Ret (Some adj') ->
  bv_ok w adj' /\ forall env, eqm w (ev env a + ev env b + adj) adj'.
Proof.
  intros Ha Hb Hadj H. unfold are_duals in H. inv_outcome. clear H0.
  pose proof (Good_width_pos a (proj1 Ha)) as Hw. rewrite (elem_width w a Ha) in Hw.
  assert (Hsum : exists p q, (if isInterior b then (a, b) else (b, a)) = (p, q) /\ elem OP_ADD w p /\ elem OP_ADD w q /\
    forall env, ev env a + ev env b = ev env p + ev env q).
  { destruct (isInterior b); eexists _, _; repeat split; try apply Ha; try apply Hb; intros env; lia. }
  destruct Hsum as (p & q & E & Hx & Hy & Hs). rewrite E in H. clear E.
  destruct (isOperator q OP_NEGATE) eqn:En.
  - inv_outcome. apply isOperator_inv in En as (t & cs & f & ->).
    destruct (isEquivalentTo _ _) eqn:E in H; [|discriminate]. injection H as <-. split; [assumption|]. intros env.
    rewrite Hs, (dual_sum env w OP_NEGATE p t cs f ltac:(auto) Hy E). reflexivity.
  - destruct (isOperator q OP_INVERT) eqn:Ei; [|discriminate]. apply isOperator_inv in Ei as (t & cs & f & ->).
    destruct (isEquivalentTo _ _) eqn:E in H; [|discriminate]. injection H as <-.
    split; [apply mod_ok; lia|]. intros env. unfold bv_decrement.
    rewrite Hs, (dual_sum env w OP_INVERT p t cs f ltac:(auto) Hy E), eqm_mod by lia. cbn. unfold eqm. f_equal. lia.
Qed.

Lemma cancel_dual_sound w a cs adj cs' adj' :
  elem OP_ADD w a -> kept_terms w cs -> bv_ok w adj -> cancel_dual w a cs adj = Ret (Some (cs', adj')) ->
  kept_terms w cs' /\ length cs' = length cs /\ bv_ok w adj' /\
  forall env, eqm w (ev env a + kept_val env cs + adj) (kept_val env cs' + adj').
Proof.
  intros Ha Hcs. revert adj cs' adj'. induction Hcs as [|[b|] cs Hb Hcs IH]; intros adj cs' adj' Hadj H; try discriminate.
  cbn [cancel_dual] in H. inv_outcome. destruct x as [adj1|].
  - injection H as <- <-. destruct (are_duals_sound w a b adj adj1 Ha Hb Hadj H0) as (Hok & Hs).
    split; [now constructor|]. split; [reflexivity|]. split; [assumption|]. intros env. cbn [kept_val fold_right].
    fold (kept_val env cs). rewrite <- (Hs env). unfold eqm. f_equal. lia.
  - inv_outcome. destruct x as [[cs1 adj1]|]; [|discriminate]. injection H as <- <-.
    destruct (IH adj cs1 adj1 Hadj H1) as (Hk & Hl & Hok & Hs). split; [now constructor|]. split; [cbn; lia|].
    split; [assumption|]. intros env. cbn [kept_val fold_right]. fold (kept_val env cs). fold (kept_val env cs1).
    replace (ev env b + kept_val env cs1 + adj1) with (ev env b + (kept_val env cs1 + adj1)) by lia.
    rewrite <- (Hs env). unfold eqm. f_equal. lia.
Qed.

Lemma cancel_duals_sound w n cs adj l adj' had :
  (length cs <= n)%nat -> kept_terms w cs -> bv_ok w adj -> cancel_duals w n cs adj = Ret (l, adj', had) ->
  terms w l /\ bv_ok w adj' /\ forall env, eqm w (kept_val env cs + adj) (sum_val env l + adj').
Proof.
  revert cs adj l adj' had. induction n as [|n IH]; intros [|[a|] cs] adj l adj' had Hn Hcs Hadj H; cbn in Hn; try lia;
    cbn [cancel_duals] in H; try (injection H as <- <- <-; split; [constructor|]; now split).
  - apply Forall_cons in Hcs as [Ha Hcs]. inv_outcome. destruct x as [[cs1 adj1]|]; inv_outcome.
    + destruct x as [[l1 adj2] h]. injection H as <- <- <-.
      destruct (cancel_dual_sound w a cs adj cs1 adj1 Ha Hcs Hadj H0) as (Hk & Hl & Hok & Hs).
      destruct (IH cs1 adj1 l1 adj2 h ltac:(lia) Hk Hok H1) as (Ht & Hok2 & Hs2).
      split; [assumption|]. split; [assumption|]. intros env. rewrite <- Hs2. rewrite <- Hs. reflexivity.
    + destruct x as [[l1 adj2] h]. injection H as <- <- <-.
      destruct (IH cs adj l1 adj2 h ltac:(lia) Hcs Hadj H1) as (Ht & Hok2 & Hs2).
      split; [now constructor|]. split; [assumption|]. intros env. rewrite sum_val_cons.
      cbn [kept_val fold_right]. fold (kept_val env cs).
      replace (ev env a + sum_val env l1 + adj2) with (ev env a + (sum_val env l1 + adj2)) by lia.
      rewrite <- (Hs2 env). unfold eqm. f_equal. lia.
  - apply Forall_cons in Hcs as [_ Hcs]. destruct (IH cs adj l adj' had ltac:(lia) Hcs Hadj H) as (Ht & Hok & Hs).
    split; [assumption|]. split; [assumption|]. intros env. rewrite <- Hs. reflexivity.
Qed.

Section Recursion.
Variable simplify : option SmtSolver -> expr -> outcome expr.
Hypothesis simplify_sound : forall s e e',
  solver_ok uf ctx s -> Pre e -> simplify s e = Ret e' ->
  denotes uf ctx Good e' (expr_type e) (fun env => ev env e).
Variable solver : option SmtSolver.
Hypothesis solver_sound : solver_ok uf ctx solver.

Lemma sum_sound w cs fl e :
  terms w cs -> instance simplify solver type_none OP_ADD cs fl = Ret e ->
  denotes uf ctx Good e (mkType INTEGER w 0) (fun env => sum_val env cs mod 2 ^ w).
Proof.
  intros Hcs H. eapply instance_none in H; try eassumption.
  - destruct H as (t & Ha & Hd). pose proof Ha as Ha'. apply adjustWidth_Ret in Ha' as (Ha' & _ & Hne).
    rewrite same_type_width in Ha' by reflexivity. apply width_default in Ha'.
    destruct cs as [|c cs]; [easy|]. apply Forall_cons in Ha' as [Ht _]. apply Forall_cons in Hcs as [Hc _].
    rewrite (proj1 (proj2 (int_arg uf c (proj1 Hc) (proj1 (proj2 Hc))))), (elem_width w c Hc) in Ht.
    now subst t.
  - now apply (elems_Good OP_ADD w).
  - intros t _. cbn [ok_node]. apply ints_Forall. apply (Forall_impl _ _ _ Hcs). intros c Hc. apply Hc.
Qed.

Lemma makeAdd_sound w a b fl e :
  elem OP_ADD w a -> elem OP_ADD w b -> makeAdd simplify solver a b fl = Ret e ->
  denotes uf ctx Good e (mkType INTEGER w 0) (fun env => (ev env a + ev env b) mod 2 ^ w).
Proof.
  intros Ha Hb H. unfold makeAdd in H. replace (isFloatingPointExpr a) with false in H.
  - cbn [andb] in H. apply sum_sound with (w := w) in H; [|repeat (constructor; [assumption|]); constructor].
    eapply denotes_ext; [|exact H]. intros env _. cbv beta. rewrite !sum_val_cons. now rewrite Z.add_assoc, Z.add_0_r.
  - destruct Ha as (_ & Ia & _). apply integer_type in Ia. unfold isFloatingPointExpr, has_class. now rewrite Ia.
Qed.

Lemma makeNegate_sound w a fl e :
  elem OP_ADD w a -> makeNegate simplify solver a fl = Ret e ->
  denotes uf ctx Good e (mkType INTEGER w 0) (fun env => (- ev env a) mod 2 ^ w).
Proof.
  intros Ha H. destruct (int_arg uf a (proj1 Ha) (proj1 (proj2 Ha))) as (_ & Ta & _).
  rewrite (elem_width w a Ha) in Ta. unfold makeNegate in H. replace (isFloatingPointExpr a) with false in H.
  - eapply instance_none in H; try eassumption.
    + destruct H as (t & Hw & Hd). inv_width Hw. cbn_args. subst t. rewrite Ta in Hd. exact Hd.
    + constructor; [apply Ha|constructor].
    + intros t _. destruct Ha as (_ & Ia & _). cbn. now rewrite Ia.
  - unfold isFloatingPointExpr, has_class. now rewrite Ta.
Qed.

(** An integer result, as an operand. *)
Lemma denotes_elem e w g :
  denotes uf ctx Good e (mkType INTEGER w 0) g ->
  elem OP_ADD w e /\ forall env, ctx env -> ev env e = g env.
Proof.
  intros (Hg & Ht & Hv). split; [|assumption]. apply elem_int; [assumption| |].
  - unfold isIntegerExpr, has_class. now rewrite Ht.
  - unfold expr_nBits. now rewrite Ht.
Qed.

(** * Hoisting a conditional *)

Lemma hoist_ite_sound t cs f r :
  Pre (Node OP_ADD t cs f) ->
  forall m, hoist_ite simplify solver (Node OP_ADD t cs f) = Some m -> m = Ret r ->
  denotes uf ctx Good r t (fun env => sum_val env cs mod 2 ^ nBits t).
Proof.
  intros Hp m H Hm. destruct (Pre_elems OP_ADD t cs f eq_refl Hp) as (He & Ht & _).
  pose proof (Pre_type_ok _ Hp) as Hto. cbn [expr_type] in Hto. apply type_ok_integer in Hto as Et; [|assumption].
  unfold hoist_ite in H. cbn [children] in H. destruct cs as [|a [|b [|? ?]]]; try discriminate.
  apply Forall_cons in He as [Ha He]. apply Forall_cons in He as [Hb _].
  assert (Hite : forall t' k x y f', elem OP_ADD (nBits t) (Node OP_ITE t' [k; x; y] f') ->
    Good k /\ elem OP_ADD (nBits t) x /\ elem OP_ADD (nBits t) y /\
    forall env, ev env (Node OP_ITE t' [k; x; y] f') = if ev env k =? 0 then ev env y else ev env x).
  { intros t' k x y f' Hc. destruct (Ite_node t' _ f' (Good_Pre _ (proj1 Hc))) as (? & ? & ? & [= <- <- <-] & Gk & Gx & Gy & _ & _ & Tx & Ty).
    pose proof (elem_width _ _ Hc) as Hw. pose proof (proj1 (proj2 Hc)) as Hi. unfold isIntegerExpr, has_class, expr_nBits in Hi, Hw. cbn in Hi, Hw.
    split; [assumption|]. split; [|split].
    1, 2: apply elem_int; [assumption|unfold isIntegerExpr, has_class|unfold expr_nBits]; now rewrite ?Tx, ?Ty.
    intros env. rewrite eval_node. now apply ite_value. }
  rewrite Et. destruct (isOperator a OP_ITE) eqn:Ea.
  - destruct (isOperator b OP_ITE); [discriminate|]. injection H as <-. apply isOperator_inv in Ea as (t' & cs' & f' & ->).
    destruct (Ite_node t' cs' f' (Good_Pre _ (proj1 Ha))) as (k & x & y & -> & _).
    destruct (Hite _ _ _ _ _ Ha) as (Gk & Hx & Hy & Hev). cbn_args. inv_outcome.
    apply makeAdd_sound with (w := nBits t) in H, H0; try assumption. destruct H as (G1 & T1 & V1), H0 as (G2 & T2 & V2).
    eapply makeIte_sound in Hm; try eassumption. eapply denotes_ext; [|exact Hm].
    intros env Henv. cbv beta. rewrite !sum_val_cons, Hev, V1, V2 by assumption.
    destruct (ev env k =? 0); now rewrite Z.add_assoc, Z.add_0_r.
  - destruct (isOperator b OP_ITE) eqn:Eb; [|discriminate]. injection H as <-. apply isOperator_inv in Eb as (t' & cs' & f' & ->).
    destruct (Ite_node t' cs' f' (Good_Pre _ (proj1 Hb))) as (k & x & y & -> & _).
    destruct (Hite _ _ _ _ _ Hb) as (Gk & Hx & Hy & Hev). cbn_args. inv_outcome.
    apply makeAdd_sound with (w := nBits t) in H, H0; try assumption. destruct H as (G1 & T1 & V1), H0 as (G2 & T2 & V2).
    eapply makeIte_sound in Hm; try eassumption. eapply denotes_ext; [|exact Hm].
    intros env Henv. cbv beta. rewrite !sum_val_cons, Hev, V1, V2 by assumption.
    destruct (ev env k =? 0); now rewrite Z.add_assoc, Z.add_0_r.
Qed.

(** * Distributing a negation over a sum *)

Lemma negated_sum_spec w c :
  elem OP_ADD w c -> negated_sum c <> [] ->
  terms w (negated_sum c) /\ forall env, eqm w (ev env c) (- sum_val env (negated_sum c)).
Proof.
  intros Hc Hne. unfold negated_sum in *. destruct c as [| |op t cs f]; try easy. cbn [children] in *.
  destruct cs as [|s [|? ?]]; try easy. destruct (_ && _) eqn:E; [|easy]. apply andb_true_iff in E as [E1 E2].
  apply isOperator_inv in E1 as (? & ? & ? & [= -> <- <- <-]). apply isOperator_inv in E2 as (ts & cs & fs & ->).
  pose proof (elem_width _ _ Hc) as Hw. pose proof (wt_width _ (proj1 (proj1 Hc))) as Hwp.
  destruct (unary_node uf OP_NEGATE t _ f ltac:(auto) (Good_Pre _ (proj1 Hc))) as (x & [= <-] & Gx & Ix & Tx & Wx & Et & _).
  change (expr_nBits (Node OP_NEGATE t [Node OP_ADD ts cs fs] f)) with (nBits t) in *.
  destruct (Pre_elems OP_ADD ts cs fs eq_refl (Good_Pre _ Gx)) as (He & _).
  change (expr_nBits (Node OP_ADD ts cs fs)) with (nBits ts) in Wx. rewrite Wx, Hw in He. cbn [children].
  split; [assumption|]. intros env. rewrite eval_node. eval_args. rewrite Hw, eqm_mod by lia.
  rewrite eval_node, eval_sum, Wx, Hw. now rewrite eqm_mod by lia.
Qed.

Lemma negate_terms w cs l :
  terms w cs -> omap_list (fun a => makeNegate simplify solver a 0) cs = Ret l ->
  terms w l /\ forall env, ctx env -> eqm w (sum_val env l) (- sum_val env cs).
Proof.
  intros Hcs. revert l. induction Hcs as [|c cs Hc Hcs IH]; intros l H; cbn [omap_list] in H; inv_outcome; subst.
  - split; [constructor|]. reflexivity.
  - pose proof (Good_width_pos c (proj1 Hc)) as Hw. rewrite (elem_width _ _ Hc) in Hw.
    apply (makeNegate_sound w) in H0; [|assumption]. apply denotes_elem in H0 as [Hx Vx].
    destruct (IH _ H1) as [Hl Hs]. split; [now constructor|]. intros env Henv.
    rewrite !sum_val_cons, Vx, Hs, eqm_mod by (assumption || lia). unfold eqm. f_equal. lia.
Qed.

Lemma distribute_negations_sound w cs l b :
  terms w cs -> distribute_negations simplify solver cs = Ret (l, b) ->
  terms w l /\ forall env, ctx env -> eqm w (sum_val env l) (sum_val env cs).
Proof.
  intros Hcs. revert l b. induction Hcs as [|c cs Hc Hcs IH]; intros l b H; cbn [distribute_negations] in H.
  - injection H as <- <-. split; [constructor|]. reflexivity.
  - destruct (negated_sum c) as [|y ys] eqn:E.
    + inv_outcome. destruct x as [l1 b1]. injection H as <- <-. destruct (IH _ _ H0) as [Hl Hs].
      split; [now constructor|]. intros env Henv. rewrite !sum_val_cons. now rewrite Hs.
    + rewrite <- E in H. inv_outcome. destruct x0 as [l1 b1]. injection H as <- <-.
      destruct (negated_sum_spec w c Hc) as [Ht Hv]; [now rewrite E|].
      destruct (negate_terms w _ _ Ht H0) as [Hx Hsx]. destruct (IH _ _ H1) as [Hl Hs].
      split; [now apply Forall_app|]. intros env Henv. rewrite sum_val_app, sum_val_cons, Hs, Hsx, <- Hv by assumption.
      reflexivity.
Qed.

Lemma AddSimplifier_sound : sound OP_ADD (AddSimplifier_rewrite simplify solver).
Proof.
  intros t cs f r Hp H. destruct (Pre_elems OP_ADD t cs f eq_refl Hp) as (He & Ht & _).
  pose proof (proj1 (Pre_node _ _ _ _) Hp) as ((Hw & _) & _).
  pose proof (Pre_type_ok _ Hp) as Hto. cbn [expr_type] in Hto. apply type_ok_integer in Hto as Et; [|assumption].
  apply denotes_weaken. eapply denotes_ext; [intros env _; symmetry; apply eval_sum|].
  unfold AddSimplifier_rewrite in H. destruct (hoist_ite _ _ _) as [m|] eqn:Eh.
  { unfold some in H. inv_outcome. subst. eapply hoist_ite_sound; eauto. }
  clear Eh. cbn [children] in H. change (expr_nBits (Node OP_ADD t cs f)) with (nBits t) in H. rewrite Et. cbn [nBits].
  assert (Hk : kept_terms (nBits t) (map Some cs)) by now apply Forall_map.
  assert (H0w : bv_ok (nBits t) 0) by (unfold bv_ok; pose proof (pow2_pos (nBits t)); lia).
  inv_outcome. destruct x as [[kept adj] had].
  destruct (cancel_duals_sound (nBits t) (length cs) (map Some cs) 0 kept adj had) as (Hl & Hadj & Hs);
    [now rewrite length_map|assumption..|].
  destruct had; cbn [negb] in H.
  - inv_outcome.
    assert (Hx : terms (nBits t) x /\ forall env, eqm (nBits t) (sum_val env x) (sum_val env cs)).
    { assert (Hs' : forall env, eqm (nBits t) (sum_val env kept + adj) (sum_val env cs)).
      { intros env. rewrite <- Hs, kept_val_map, Z.add_0_r. reflexivity. }
      unfold bv_isEqualToZero in H1. destruct (Z.eqb_spec adj 0) as [->|Hz].
      - injection H1 as <-. split; [assumption|]. intros env. now rewrite <- Hs', Z.add_0_r.
      - inv_outcome. subst x. apply makeIntegerConstant_bits_Ret in H2 as (-> & _).
        split; [apply Forall_app; split; [assumption|]; constructor; [|constructor]|].
        + apply elem_int; [now apply Const_Good|reflexivity..].
        + intros env. rewrite <- Hs', sum_val_app. f_equiv. unfold sum_val. cbn. unfold eqm. f_equal. lia. }
    destruct Hx as [Hx Vx]. destruct x as [|c [|c' x]].
    + unfold some in H. inv_outcome. subst. apply makeIntegerConstant_Ret in H2 as (-> & _).
      rewrite fromInteger_id by (destruct H0w; lia). apply denotes_const; [assumption|exact H0w|]. intros env _.
      cbv beta. rewrite <- (Vx env). cbn. now apply Z.mod_0_l, Z.pow_nonzero; lia.
    + injection H as <-. apply Forall_cons in Hx as [Hc _]. destruct (int_arg uf c (proj1 Hc) (proj1 (proj2 Hc))) as (_ & Tc & Vc).
      rewrite (elem_width _ _ Hc) in Tc. split; [apply Hc|]. split; [assumption|]. intros env _.
      cbv beta. rewrite <- (Vx env), sum_val_cons, Z.add_0_r. symmetry. now apply Z.mod_small, elem_bits.
    + unfold some in H. inv_outcome. subst. eapply sum_sound in H2; [|eassumption]. eapply denotes_ext; [|exact H2].
      intros env _. exact (Vx env).
  - inv_outcome. destruct x as [l b]. destruct (distribute_negations_sound _ _ _ _ He H1) as [Hd Vd].
    destruct b; [|discriminate]. unfold some in H. inv_outcome. subst. eapply sum_sound in H2; [|eassumption].
    eapply denotes_ext; [|exact H2]. intros env Henv. now apply Vd.
Qed.
End Recursion.
End Sound.
