(* ===== verification/SymShift.v ===== *)
(** Soundness of the simplifiers of rotations and shifts, for the shift amounts
    whose folding the code has a correct implementation of. *)
From S2P Require Import Prelude BitVector SymType SymExpr SymSimplify SymEval SymGood SymAC SymSound SymBits.
From Stdlib Require Import Permutation Morphisms Setoid.
Open Scope Z_scope.

(** * Shifted and rotated numbers *)

Lemma shl_mod w v k : 0 <= k <= w -> (v * 2 ^ k) mod 2 ^ w = v mod 2 ^ (w - k) * 2 ^ k.
Proof.
  intros Hk. pose proof (pow2_pos k ltac:(lia)). pose proof (pow2_pos (w - k) ltac:(lia)).
  rewrite (pow2_split k w) by lia. now rewrite Z.mul_mod_distr_r by lia.
Qed.

Lemma shl_wide w v n : 0 <= w <= n -> (v * 2 ^ n) mod 2 ^ w = 0.
Proof.
  intros Hn. pose proof (pow2_pos w ltac:(lia)). rewrite (pow2_split w n), Z.mul_assoc by lia. apply Z.mod_mul. lia.
Qed.

Lemma shiftLeft_value w v n (b : bool) :
  bv_ok w v -> 0 <= w -> 0 <= n ->
  (v * 2 ^ n + (if b then 2 ^ n - 1 else 0)) mod 2 ^ w = bv_shiftLeft w v (Z.min w n) b.
Proof.
  intros Hv Hw Hn. rewrite shiftLeft_spec by (assumption || lia). rewrite (Z.min_l _ w) by lia.
  pose proof (pow2_pos w Hw). pose proof (pow2_pos n Hn). destruct (Z.le_gt_cases w n).
  - rewrite Z.min_l, shl_wide by lia. destruct b; cbn [fill].
    + replace (v * 2 ^ n + (2 ^ n - 1)) with (-1 + (v + 1) * 2 ^ (n - w) * 2 ^ w) by (rewrite (pow2_split w n) by lia; ring).
      rewrite Z.mod_add, ones_mod by lia. lia.
    + now rewrite Z.add_0_r, shl_wide by lia.
  - rewrite Z.min_r by lia. pose proof (mod_pow2_range v (w - n) ltac:(lia)). pose proof (pow2_split n w ltac:(lia)).
    rewrite <- Z.add_mod_idemp_l by lia. rewrite shl_mod by lia.
    apply Z.mod_small. destruct b; cbn [fill]; nia.
Qed.

Lemma shiftRight_value w v n (b : bool) :
  bv_ok w v -> 0 <= w -> 0 <= n ->
  (if b then -1 - (2 ^ w - 1 - v) / 2 ^ n else v / 2 ^ n) mod 2 ^ w = bv_shiftRight w v (Z.min w n) b.
Proof.
  intros Hv Hw Hn. pose proof (shiftRight_ok w v (Z.min w n) b Hv Hw ltac:(lia)) as Hok.
  rewrite shiftRight_spec in * by (assumption || lia). rewrite (Z.min_l _ w) in * by lia.
  pose proof (pow2_pos w Hw). pose proof (pow2_pos n Hn). destruct (Z.le_gt_cases w n).
  - rewrite Z.min_l in * by lia. rewrite Z.sub_diag, Z.pow_0_r, Z.mul_1_r in *.
    pose proof (pow2_le w n ltac:(lia)). unfold bv_ok in Hv. rewrite !(Z.div_small v), (Z.div_small (2 ^ w - 1 - v)) by lia.
    destruct b; cbn [fill]; [|now rewrite Z.mod_0_l by lia]. change (-1 - 0) with (-1). rewrite ones_mod by lia. lia.
  - rewrite Z.min_r in * by lia. destruct b; cbn [fill] in *.
    + pose proof (pow2_split n w ltac:(lia)) as Es.
      replace (2 ^ w - 1 - v) with (-1 - v + 2 ^ (w - n) * 2 ^ n) by lia. rewrite Z.div_add by lia.
      assert (E : (-1 - v) / 2 ^ n = -1 - v / 2 ^ n).
      { symmetry. pose proof (Z.mod_pos_bound v (2 ^ n) ltac:(lia)). pose proof (Z.div_mod v (2 ^ n) ltac:(lia)).
        apply Z.div_unique with (r := 2 ^ n - 1 - v mod 2 ^ n); lia. }
      rewrite E. symmetry. apply Z.mod_unique with (q := -1); [left; exact Hok|]. lia.
    + rewrite Z.mul_0_l, Z.add_0_r in *. apply Z.mod_small. exact Hok.
Qed.

Lemma rotateLeft_value w v n :
  bv_ok w v -> 0 < w -> (v * 2 ^ (n mod w) + v / 2 ^ (w - n mod w)) mod 2 ^ w = bv_rotateLeft w v n.
Proof.
  intros Hv Hw. pose proof (rotateLeft_ok w v n Hv Hw) as Hok. rewrite rotateLeft_spec in * by assumption.
  pose proof (Z.mod_pos_bound n w Hw). pose proof (pow2_pos w ltac:(lia)).
  rewrite <- Z.add_mod_idemp_l by lia. rewrite shl_mod by lia. rewrite Z.add_comm. now apply Z.mod_small.
Qed.

Lemma rotateRight_value w v n :
  bv_ok w v -> 0 < w -> 0 <= n -> (v / 2 ^ (n mod w) + v * 2 ^ (w - n mod w)) mod 2 ^ w = bv_rotateRight w v n.
Proof.
  intros Hv Hw Hn. pose proof (rotateRight_ok w v n Hv Hw Hn) as Hok. rewrite rotateRight_spec in * by assumption.
  pose proof (Z.mod_pos_bound n w Hw). pose proof (pow2_pos w ltac:(lia)).
  rewrite <- Z.add_mod_idemp_r by lia. rewrite shl_mod by lia.
  replace (w - (w - n mod w)) with (n mod w) by lia. now apply Z.mod_small.
Qed.

Section Sound.
Variable uf : Operator -> Z -> list Z -> Z.
Variable ctx : (Z -> Z) -> Prop.
#[local] Notation sound op p := (sound_pass uf ctx op p).
#[local] Notation ev env e := (eval uf env e).

(** Operators that shift their second operand by the first. *)
Definition shift_op (op : Operator) : bool :=
  match op with OP_ASR | OP_ROL | OP_ROR | OP_SHL0 | OP_SHL1 | OP_SHR0 | OP_SHR1 => true | _ => false end.

Lemma shift_node op t cs f :
  shift_op op = true -> Pre (Node op t cs f) ->
  exists sa a, cs = [sa; a] /\ Good sa /\ isIntegerExpr sa = true /\ Good a /\ isIntegerExpr a = true /\
    t = mkType INTEGER (nBits t) 0 /\ nBits t = expr_nBits a /\ expr_type a = t /\ 0 < nBits t <= 32767 /\
    ok_node op t cs = true.
Proof.
  intros Hop Hp. pose proof (proj1 (Pre_node _ _ _ _) Hp) as ((Hw & _) & Ha & Hg & Hok).
  assert (H : length cs = 2%nat /\ isIntegerExpr (nth_arg cs 0) = true /\ isIntegerExpr (nth_arg cs 1) = true /\
    t = mkType INTEGER (expr_nBits (nth_arg cs 1)) 0).
  { destruct op; try discriminate Hop; clear Hok; inv_width Ha; subst; auto. }
  destruct H as (Hl & Hi0 & Hi1 & Et). name_args cs. split_Forall. exists a, b.
  destruct (int_arg uf b) as (_ & Tb & _); try assumption.
  split; [reflexivity|]. split; [assumption|]. split; [assumption|]. split; [assumption|]. split; [assumption|].
  rewrite Et in *. cbn [nBits] in *. auto.
Qed.

(** The amount of a shift or rotation, when it is a constant. *)
Lemma amount_const op t sa a f v :
  Good sa -> arg_constant (Node op t [sa; a] f) 0 = Some v ->
  bv_ok (expr_nBits sa) v /\ 0 < expr_nBits sa /\ (forall env, ev env sa = v) /\
  (expr_nBits sa <= 64 -> toUnsigned sa = Some v).
Proof.
  intros Gs H. unfold arg_constant in H. cbn_args. destruct (const_arg uf sa v Gs H) as (Is & _ & _ & Hv & Hev & f' & E).
  destruct (int_arg uf sa Gs Is) as (Hw & _). split; [assumption|]. split; [lia|]. split; [assumption|].
  intros Hle. rewrite E. cbn [expr_nBits expr_type nBits] in *. now apply toUnsigned_64.
Qed.

(** ** Rotations *)

Lemma rotate_amount_spec op t sa a f n v :
  Good sa -> 0 < nBits t <= 32767 -> arg_constant (Node op t [sa; a] f) 0 = Some v ->
  rotate_amount (Node op t [sa; a] f) = Some n ->
  0 <= n /\ n mod nBits t = v mod nBits t /\ n <= v /\ n < 2 ^ 64.
Proof.
  intros Gs Ht Hc H. destruct (amount_const op t sa a f v Gs Hc) as (Hv & Hw & _ & Hu).
  unfold rotate_amount in H. rewrite Hc in H. change (expr_nBits (Node op t [sa; a] f)) with (nBits t) in H. cbn_args.
  destruct (Z.leb_spec (expr_nBits sa) 64).
  { rewrite Hu in H by assumption. injection H as <-. pose proof (ok_le _ 64 v Hv ltac:(lia)) as [? ?]. lia. }
  destruct (bv_mostSignificantSetBit v) as [m|] eqn:Em.
  - destruct (mostSignificantSetBit_spec _ _ _ Hv Em) as [Hm Hr]. destruct (Z.ltb_spec m 64).
    + injection H as <-. pose proof (pow2_le (m + 1) 64 ltac:(lia)). rewrite toInteger_spec, Z.mod_small by (assumption || lia). lia.
    + destruct (isPowerOfTwo (nBits t)) as [k|] eqn:Ek; [|discriminate]. injection H as <-.
      unfold isPowerOfTwo in Ek. destruct (_ && _) eqn:E; [|discriminate]. injection Ek as <-.
      apply andb_true_iff in E as [_ E]. apply Z.eqb_eq in E. set (k := Z.log2 (nBits t)) in *.
      assert (Hk : 0 <= k) by apply Z.log2_nonneg.
      assert (Hk14 : k <= 14) by exact (Z.log2_le_mono (nBits t) 32767 ltac:(lia)).
      unfold bv_toInteger_range. rewrite Z.min_l, get_bits_0 by lia.
      pose proof (mod_pow2_range v (k + 1) ltac:(lia)). pose proof (pow2_le (k + 1) 64 ltac:(lia)) as Hp.
      assert (Hlt : 2 ^ (k + 1) < 2 ^ 64) by (apply Z.pow_lt_mono_r; lia).
      split; [lia|]. split; [|split; [|lia]].
      * rewrite E. rewrite (Z.add_comm k 1), Z.pow_add_r by lia. rewrite (Z.mul_comm (2 ^ 1)).
        pose proof (pow2_pos k Hk). rewrite Z.rem_mul_r by (change (2 ^ 1) with 2; lia).
        rewrite Z.mul_comm, Z.mod_add by lia. now apply Z.mod_mod; lia.
      * apply Z.mod_le; [apply Hv|apply pow2_pos; lia].
  - injection H as <-. unfold bv_mostSignificantSetBit in Em. destruct (Z.eqb_spec v 0); [|discriminate]. subst. lia.
Qed.

Section Recursion.
Variable simplify : option SmtSolver -> expr -> outcome expr.
Hypothesis simplify_sound : forall s e e',
  solver_ok uf ctx s -> Pre e -> simplify s e = Ret e' ->
  denotes uf ctx Good e' (expr_type e) (fun env => ev env e).
Variable solver : option SmtSolver.
Hypothesis solver_sound : solver_ok uf ctx solver.

(** A rotation depends on the amount modulo the width only. *)
Lemma rotate_sound op rotate :
  op = OP_ROL /\ rotate = bv_rotateLeft \/ op = OP_ROR /\ rotate = bv_rotateRight ->
  sound op (rotate_rewrite simplify solver rotate).
Proof.
  intros Hop t cs f r Hp H. assert (Hs : shift_op op = true) by (now destruct Hop as [[-> _]|[-> _]]).
  destruct (shift_node op t cs f Hs Hp) as (sa & a & -> & Gs & Is & Ga & Ia & Et & Ew & Ta & Hw & _).
  assert (Hval : forall env n c, Good c -> isIntegerExpr c = true -> 0 <= n -> ev env c mod nBits t = n mod nBits t ->
    eval_list uf env op (nBits t) [c; a] = rotate (nBits t) (ev env a) n).
  { intros env n c Gc Ic Hn Hc. pose proof (eval_ok uf env a (proj1 Ga)) as Hv. rewrite <- Ew in Hv.
    destruct Hop as [[-> ->]|[-> ->]]; eval_args; rewrite <- Ew, Hc;
      [now apply rotateLeft_value|now apply rotateRight_value]. }
  assert (Hrot : forall v n m, bv_ok (nBits t) v -> 0 <= n -> 0 <= m -> n mod nBits t = m mod nBits t ->
    rotate (nBits t) v n = rotate (nBits t) v m /\ bv_ok (nBits t) (rotate (nBits t) v n)).
  { intros v n m Hv Hn Hm E. destruct Hop as [[_ ->]|[_ ->]].
    - split; [rewrite !rotateLeft_spec by (assumption || lia); now rewrite E|apply rotateLeft_ok; [assumption|lia]].
    - split; [rewrite !rotateRight_spec by (assumption || lia); now rewrite E|apply rotateRight_ok; [assumption|lia..]]. }
  unfold rotate_rewrite in H. destruct (rotate_amount _) as [n|] eqn:En; [|discriminate].
  destruct (arg_constant (Node op t [sa; a] f) 0) as [v|] eqn:Ec; [|now unfold rotate_amount in En; rewrite Ec in En].
  destruct (amount_const op t sa a f v Gs Ec) as (Hv & Hws & Hev & _).
  destruct (rotate_amount_spec op t sa a f n v Gs Hw Ec En) as (Hn & Hmod & Hle & Hlt).
  apply (denotes_ext uf ctx _ _ _ (fun env => rotate (nBits t) (ev env a) n)).
  { intros env _. symmetry. apply Hval; try assumption. now rewrite Hev. }
  unfold arg_constant in H. cbn_args. change (expr_nBits (Node op t [sa; a] f)) with (nBits t) in H.
  destruct (integer_constant a) as [va|] eqn:Ea.
  { destruct (const_arg uf a va Ga Ea) as (_ & _ & _ & Hva & Heva & _). apply folded_Ret in H as ->. rewrite <- Ew in *.
    apply (sound_const uf ctx); try assumption; [now apply (Hrot va n n)|]. intros env _. cbv beta. now rewrite Heva. }
  destruct (Z.eqb_spec (n mod nBits t) 0) as [Ez|Ez].
  { injection H as <-. split; [now apply Good_Pre|]. split; [assumption|]. intros env _.
    pose proof (eval_ok uf env a (proj1 Ga)) as Hva. rewrite <- Ew in Hva.
    rewrite (proj1 (Hrot (ev env a) n 0 Hva Hn ltac:(lia) ltac:(rewrite Ez, Z.mod_0_l; lia))).
    destruct Hop as [[_ ->]|[_ ->]].
    - rewrite rotateLeft_spec by (assumption || lia). rewrite Z.mod_0_l, Z.sub_0_r, Z.pow_0_r, Z.mul_1_r by lia.
      rewrite (Z.div_small (ev env a)), Z.mod_small by exact Hva. lia.
    - rewrite rotateRight_spec by (assumption || lia). rewrite Z.mod_0_l, Z.pow_0_r, Z.div_1_r, Z.mod_1_r by lia. lia. }
  destruct (Z.ltb_spec (nBits t) n) as [Hbig|]; [|discriminate]. inv_outcome. unfold some in H. inv_outcome. subst r.
  apply makeIntegerConstant_Ret in H0 as (-> & Hmax & _). pose proof (Z.mod_pos_bound n (nBits t) ltac:(lia)) as Hb.
  assert (Hx : n mod nBits t < 2 ^ expr_nBits sa) by (destruct Hv; lia).
  rewrite fromInteger_id in H1 by lia. eapply (instance_sound uf ctx simplify simplify_sound solver) in H1; try assumption.
  - destruct H1 as (t' & _ & Ht' & Hd). cbn [expr_type] in Ht'. rewrite Ht' in Hd by (rewrite Et; discriminate).
    apply denotes_weaken. eapply denotes_ext; [|exact Hd]. intros env _. cbv beta. apply Hval; try assumption.
    + apply Const_Good; [lia|]. split; lia.
    + reflexivity.
    + cbn. apply Z.mod_mod. lia.
  - cbn [expr_type]. lia.
  - rewrite Et. reflexivity.
  - constructor; [apply Const_Good; [lia|split; lia]|]. constructor; [exact Ga|constructor].
  - intros t' _. assert (Hi : ints [Const (mkType INTEGER (expr_nBits sa) 0) (n mod nBits t) (expr_flags sa); a] = true) by (cbn; now rewrite Ia).
    destruct Hop as [[-> _]|[-> _]]; exact Hi.
Qed.

Lemma AsrSimplifier_sound : sound OP_ASR AsrSimplifier_rewrite.
Proof.
  intros t cs f r Hp H. destruct (shift_node OP_ASR t cs f eq_refl Hp) as (sa & a & -> & Gs & Is & Ga & Ia & Et & Ew & Ta & Hw & Hok).
  cbn [ok_node] in Hok. apply andb_true_iff in Hok as [_ Hle]. cbn_args. apply Z.leb_le in Hle.
  unfold AsrSimplifier_rewrite in H. inv_outcome.
  destruct (arg_constant _ 0) as [n|] eqn:En; [|discriminate]. destruct (amount_const OP_ASR t sa a f n Gs En) as (Hn & _ & Hev & Hu).
  unfold arg_constant in H. cbn_args. destruct (integer_constant a) as [v|] eqn:Ea; [|discriminate].
  destruct (const_arg uf a v Ga Ea) as (_ & _ & _ & Hv & Heva & _). rewrite (Hu Hle) in H. cbn [get_some obind] in H.
  apply folded_Ret in H as ->. rewrite <- Ew in *. apply (sound_const uf ctx); try assumption.
  - rewrite shiftRightArithmetic_spec by (assumption || apply Hn || lia). apply mod_ok. lia.
  - intros env _. cbv beta. eval_args. rewrite Hev, Heva, <- Ew. symmetry.
    apply shiftRightArithmetic_spec; [lia|apply Hn|assumption].
Qed.

(** ** Shifts *)

Lemma shift_amount_spec op t sa a f n v :
  Good sa -> 0 < nBits t <= 32767 -> arg_constant (Node op t [sa; a] f) 0 = Some v ->
  shift_amount (Node op t [sa; a] f) = Some n -> n = Z.min (nBits t) v.
Proof.
  intros Gs Ht Hc H. destruct (amount_const op t sa a f v Gs Hc) as (Hv & Hw & _ & Hu).
  unfold shift_amount in H. rewrite Hc in H. change (expr_nBits (Node op t [sa; a] f)) with (nBits t) in H. cbn_args.
  destruct (Z.leb_spec (expr_nBits sa) 64); [now rewrite Hu in H by assumption; injection H|].
  destruct (bv_mostSignificantSetBit v) as [m|] eqn:Em.
  - destruct (mostSignificantSetBit_spec _ _ _ Hv Em) as [Hm Hr]. destruct (Z.ltb_spec m 64); injection H as <-.
    + pose proof (pow2_le (m + 1) 64 ltac:(lia)). rewrite toInteger_spec, Z.mod_small by (assumption || lia). reflexivity.
    + pose proof (pow2_le 64 m ltac:(lia)). assert (2 ^ 15 < 2 ^ 64) by reflexivity. change (2 ^ 15) with 32768 in *. lia.
  - injection H as <-. unfold bv_mostSignificantSetBit in Em. destruct (Z.eqb_spec v 0); [|discriminate]. now subst.
Qed.

(** No shift of the same kind below: nothing to combine. *)
Lemma not_nested op t cs f :
  op = OP_ASR \/ op = OP_SHL0 \/ op = OP_SHL1 \/ op = OP_SHR0 \/ op = OP_SHR1 -> ok_node op t cs = true ->
  isOperator (arg (Node op t cs f) 1) op = false.
Proof.
  intros Hop Hok. apply negb_true_iff. unfold arg. cbn [children].
  destruct Hop as [->|[->|[->|[->| ->]]]]; cbn [ok_node] in Hok; destr_bool; assumption.
Qed.

Lemma additiveNesting_none op t cs f r :
  op = OP_ASR \/ op = OP_SHL0 \/ op = OP_SHL1 \/ op = OP_SHR0 \/ op = OP_SHR1 -> ok_node op t cs = true ->
  additiveNesting simplify solver (Node op t cs f) = Ret r -> r = None.
Proof.
  intros Hop Hok H. unfold additiveNesting in H. cbn [getOperator] in H.
  rewrite not_nested in H by assumption. now injection H.
Qed.

Lemma additiveNesting_sound op :
  op = OP_ASR \/ op = OP_SHL0 \/ op = OP_SHL1 \/ op = OP_SHR0 \/ op = OP_SHR1 ->
  sound op (additiveNesting simplify solver).
Proof.
  intros Hop t cs f r Hp H. apply Pre_node in Hp as (_ & _ & _ & Hok). now apply additiveNesting_none in H.
Qed.

(** The constant that fills the vacated bits. *)
Lemma new_bits_sound b sa e :
  0 < sa -> (b = true -> sa <= 64) -> new_bits b sa = Ret e -> e = Const (mkType INTEGER sa 0) (fill sa b) 0 /\ sa <= 32767.
Proof.
  intros Hsa Hb H. apply makeIntegerConstant_Ret in H as (-> & Hw & _). split; [|assumption]. f_equal.
  pose proof (pow2_pos sa ltac:(lia)). destruct b; rewrite fromInteger_spec by lia; [|now apply Z.mod_0_l; lia].
  specialize (Hb eq_refl). rewrite (pow2_split sa 64) by lia. unfold fill.
  replace (2 ^ (64 - sa) * 2 ^ sa - 1) with (-1 + 2 ^ (64 - sa) * 2 ^ sa) by lia. rewrite Z.mod_add, ones_mod by lia. reflexivity.
Qed.

Lemma makeConcat_sound hi lo fl e :
  Good hi -> isIntegerExpr hi = true -> Good lo -> isIntegerExpr lo = true ->
  makeConcat simplify solver hi lo fl = Ret e ->
  denotes uf ctx Good e (mkType INTEGER (expr_nBits hi + expr_nBits lo) 0)
    (fun env => ev env hi * 2 ^ expr_nBits lo + ev env lo).
Proof.
  intros Gh Ih Gl Il H. eapply (concat_list_sound uf ctx simplify simplify_sound solver solver_sound) in H.
  - unfold sum_widths in H. cbn [map fold_right] in H. rewrite Z.add_0_r in H.
    eapply denotes_ext; [|exact H]. intros env _. cbn. now rewrite !Z.add_0_r, Z.mul_1_r.
  - constructor; [now split|]. constructor; [now split|constructor].
Qed.

(** A shift of [v] by [n], as the library shifts. *)
Definition shl_of (b : bool) : Operator := if b then OP_SHL1 else OP_SHL0.
Definition shr_of (b : bool) : Operator := if b then OP_SHR1 else OP_SHR0.

Lemma shl_value env b w sa a v :
  w = expr_nBits a -> Good a -> 0 <= v -> ev env sa = v ->
  eval_list uf env (shl_of b) w [sa; a] = bv_shiftLeft w (ev env a) (Z.min w v) b.
Proof.
  intros -> Ga Hn Hs. pose proof (Good_width_pos a Ga).
  rewrite <- shiftLeft_value by (try apply eval_ok, Ga; lia). destruct b; cbn [shl_of]; eval_args; rewrite Hs; f_equal; lia.
Qed.

Lemma shr_value env b w sa a v :
  w = expr_nBits a -> Good a -> 0 <= v -> ev env sa = v ->
  eval_list uf env (shr_of b) w [sa; a] = bv_shiftRight w (ev env a) (Z.min w v) b.
Proof.
  intros -> Ga Hn Hs. pose proof (Good_width_pos a Ga).
  rewrite <- shiftRight_value by (try apply eval_ok, Ga; lia). now destruct b; cbn [shr_of]; eval_args; rewrite Hs.
Qed.

Lemma shl_ok_width b t cs : ok_node (shl_of b) t cs = true -> b = true -> nBits t <= 64.
Proof. intros H ->. cbn in H. destr_bool. now apply Z.leb_le. Qed.
Lemma shr_ok_width b t cs : ok_node (shr_of b) t cs = true -> b = true -> nBits t <= 64.
Proof. intros H ->. cbn in H. destr_bool. now apply Z.leb_le. Qed.

Lemma combine_shifts_none op t cs f :
  op = OP_ASR \/ op = OP_SHL0 \/ op = OP_SHL1 \/ op = OP_SHR0 \/ op = OP_SHR1 -> ok_node op t cs = true ->
  combine_shifts simplify solver (Node op t cs f) = Ret None.
Proof. intros Hop Hok. unfold combine_shifts. cbn [getOperator]. now rewrite not_nested. Qed.

Lemma shift_sizes (w n : Z) v : 0 < w -> 0 <= v -> n = Z.min w v -> 0 <= n <= w.
Proof. lia. Qed.

Lemma ShlSimplifier_sound b : sound (shl_of b) (ShlSimplifier_rewrite simplify solver b).
Proof.
  intros t cs f r Hp H.
  destruct (shift_node (shl_of b) t cs f ltac:(now destruct b) Hp) as (sa & a & -> & Gs & Is & Ga & Ia & Et & Ew & Ta & Hw & Hok).
  unfold ShlSimplifier_rewrite in H. rewrite combine_shifts_none in H by (try assumption; destruct b; tauto).
  change (expr_nBits (Node (shl_of b) t [sa; a] f)) with (nBits t) in H.
  destruct (shift_amount _) as [n|] eqn:En; [|discriminate].
  destruct (arg_constant (Node (shl_of b) t [sa; a] f) 0) as [v|] eqn:Ec; [|now unfold shift_amount in En; rewrite Ec in En].
  destruct (amount_const _ t sa a f v Gs Ec) as (Hv & _ & Hev & _).
  pose proof (shift_amount_spec _ t sa a f n v Gs Hw Ec En) as Hn.
  pose proof (shift_sizes (nBits t) n v ltac:(lia) (proj1 Hv) Hn) as Hn'.
  apply (denotes_ext uf ctx _ _ _ (fun env => bv_shiftLeft (nBits t) (ev env a) n b)).
  { intros env _. rewrite Hn. symmetry. apply shl_value; auto. apply Hv. }
  assert (Hva : forall env, bv_ok (nBits t) (ev env a)) by (intros env; rewrite Ew; apply eval_ok, Ga).
  unfold arg_constant in H. cbn_args. destruct (integer_constant a) as [va|] eqn:Ea.
  { destruct (const_arg uf a va Ga Ea) as (_ & _ & _ & Hca & Heva & _). apply folded_Ret in H as ->. rewrite <- Ew in *.
    apply (sound_const uf ctx); try assumption; [apply shiftLeft_ok; [assumption|lia..]|].
    intros env _. cbv beta. now rewrite Heva. }
  cbn [obind] in H. destruct (Z.leb_spec (nBits t) n) as [Hle|Hlt].
  { unfold some in H. inv_outcome. subst r. apply makeIntegerConstant_bits_Ret in H0 as (-> & _).
    apply (sound_const uf ctx); [assumption|assumption|apply fill_ok; lia|]. intros env _. cbv beta.
    rewrite shiftLeft_spec by (auto; lia). rewrite shl_wide, Z.min_r by lia. lia. }
  destruct (Z.eqb_spec n 0) as [E0|E0].
  { injection H as <-. split; [now apply Good_Pre|]. split; [assumption|]. intros env _.
    rewrite shiftLeft_spec by (auto; lia). rewrite E0, Z.min_l, Z.pow_0_r, Z.mul_1_r, Z.mod_small by (try apply Hva; lia).
    unfold fill. destruct b; lia. }
  inv_outcome. unfold some in H. inv_outcome. subst r.
  eapply extract_between_sound in H0; try eassumption; [|lia..]. rewrite Z.sub_0_r in H0.
  apply denotes_integer in H0 as (Gx & Ix & Wx & Vx).
  apply new_bits_sound in H1 as [-> Hs]; [|lia|intros Hb; pose proof (shl_ok_width b t _ Hok Hb); lia].
  apply makeConcat_sound in H2; try assumption; [|apply Const_Good; [lia|apply fill_ok; lia]|reflexivity].
  cbn [expr_nBits expr_type nBits] in H2. rewrite Wx in H2. replace (nBits t - n + n) with (nBits t) in H2 by lia.
  rewrite <- Et in H2. apply denotes_weaken. eapply denotes_ext; [|exact H2]. intros env Henv. cbv beta.
  rewrite Vx, shiftLeft_spec by (auto; lia). rewrite shl_mod, Z.min_l, Z.pow_0_r, Z.div_1_r by lia. reflexivity.
Qed.

Lemma ShrSimplifier_sound b : sound (shr_of b) (ShrSimplifier_rewrite simplify solver b).
Proof.
  intros t cs f r Hp H.
  destruct (shift_node (shr_of b) t cs f ltac:(now destruct b) Hp) as (sa & a & -> & Gs & Is & Ga & Ia & Et & Ew & Ta & Hw & Hok).
  unfold ShrSimplifier_rewrite in H. rewrite combine_shifts_none in H by (try assumption; destruct b; tauto).
  change (expr_nBits (Node (shr_of b) t [sa; a] f)) with (nBits t) in H.
  destruct (shift_amount _) as [n|] eqn:En; [|discriminate].
  destruct (arg_constant (Node (shr_of b) t [sa; a] f) 0) as [v|] eqn:Ec; [|now unfold shift_amount in En; rewrite Ec in En].
  destruct (amount_const _ t sa a f v Gs Ec) as (Hv & _ & Hev & _).
  pose proof (shift_amount_spec _ t sa a f n v Gs Hw Ec En) as Hn.
  pose proof (shift_sizes (nBits t) n v ltac:(lia) (proj1 Hv) Hn) as Hn'.
  apply (denotes_ext uf ctx _ _ _ (fun env => bv_shiftRight (nBits t) (ev env a) n b)).
  { intros env _. rewrite Hn. symmetry. apply shr_value; auto. apply Hv. }
  assert (Hva : forall env, bv_ok (nBits t) (ev env a)) by (intros env; rewrite Ew; apply eval_ok, Ga).
  unfold arg_constant in H. cbn_args. destruct (integer_constant a) as [va|] eqn:Ea.
  { destruct (const_arg uf a va Ga Ea) as (_ & _ & _ & Hca & Heva & _). apply folded_Ret in H as ->. rewrite <- Ew in *.
    apply (sound_const uf ctx); try assumption; [apply shiftRight_ok; [assumption|lia..]|].
    intros env _. cbv beta. now rewrite Heva. }
  cbn [obind] in H. destruct (Z.leb_spec (nBits t) n) as [Hle|Hlt].
  { apply folded_Ret in H as ->.
    apply (sound_const uf ctx); [assumption|assumption|apply fill_ok; lia|]. intros env _. cbv beta.
    rewrite shiftRight_spec by (auto; lia). rewrite (div_pow2_0 (nBits t)), Z.min_r, Z.sub_diag by (auto; lia). lia. }
  destruct (Z.eqb_spec n 0) as [E0|E0].
  { injection H as <-. split; [now apply Good_Pre|]. split; [assumption|]. intros env _.
    rewrite shiftRight_spec by (auto; lia). rewrite E0, Z.min_l, Z.pow_0_r, Z.div_1_r by lia.
    unfold fill. destruct b; lia. }
  inv_outcome. unfold some in H. inv_outcome. subst r.
  eapply extract_between_sound in H0; try eassumption; [|lia..].
  apply denotes_integer in H0 as (Gx & Ix & Wx & Vx).
  apply new_bits_sound in H1 as [-> Hs]; [|lia|intros Hb; pose proof (shr_ok_width b t _ Hok Hb); lia].
  apply makeConcat_sound in H2; try assumption; [|apply Const_Good; [lia|apply fill_ok; lia]|reflexivity].
  cbn [expr_nBits expr_type nBits] in H2. rewrite Wx in H2. replace (n + (nBits t - n)) with (nBits t) in H2 by lia.
  rewrite <- Et in H2. apply denotes_weaken. eapply denotes_ext; [|exact H2]. intros env Henv. cbv beta.
  rewrite Vx, shiftRight_spec by (auto; lia). rewrite Z.min_l by lia. cbn [eval].
  rewrite (Z.mod_small (_ / _)) by (apply div_pow2_ok; [apply Hva|lia]). lia.
Qed.
End Recursion.
End Sound.
