(* ===== verification/SymTop.v ===== *)
(** Soundness of [Interior::simplifyTop] and [Interior::instance]: whatever the
    loop rewrites, and however often, a good expression keeps its type and its
    value under every assignment the solver agrees with. *)
From S2P Require Import Prelude BitVector SymType SymExpr SymSimplify SymEval SymGood SymAC SymSound SymBits SymAdd SymShift.
From Stdlib Require Import Permutation Morphisms Setoid.
Open Scope Z_scope.

Section Sound.
Variable uf : Operator -> Z -> list Z -> Z.
Variable ctx : (Z -> Z) -> Prop.
Variable addr : expr -> Z.
#[local] Notation sound op p := (sound_pass uf ctx op p).
#[local] Notation ev env e := (eval uf env e).

Lemma unaryNoOp_sound op : same_type_op op = true -> sound op unaryNoOp.
Proof.
  intros Hop t cs f r Hp H. assert (Ha : assoc_op op = true) by now destruct op.
  destruct (Pre_elems op t cs f Ha Hp) as (He & _). unfold unaryNoOp in H. cbn [children] in H.
  destruct cs as [|c [|? ?]]; try discriminate. injection H as <-. apply Forall_cons in He as [Hc _].
  assert (Hw : expr_nBits c = nBits t) by now apply Hc.
  split; [apply Good_Pre, Hc|]. split; [now apply (elem_type op t [c] f (nBits t))|].
  intros env _. symmetry. apply eval_list_one; [assumption|apply Hc|assumption].
Qed.

Lemma sorted_flat_sound op next :
  assoc_op op = true -> op <> OP_CONCAT -> sound op next -> sound op (sorted_flat addr next).
Proof.
  intros Ha Hc Hn. apply andThen_sound; [now apply associative_keeping|].
  apply andThen_sound; [now apply commutative_keeping|assumption].
Qed.

(** * One round *)

Section Step.
Variable simplify : option SmtSolver -> expr -> outcome expr.
Hypothesis simplify_sound : forall s e e',
  solver_ok uf ctx s -> Pre e -> simplify s e = Ret e' ->
  denotes uf ctx Good e' (expr_type e) (fun env => ev env e).
Hypothesis simplify_extract : forall s t fc tc x f from m,
  solver_ok uf ctx s -> Pre (Node OP_EXTRACT t [fc; tc; x] f) -> nf_node OP_EXTRACT [fc; tc; x] = true ->
  offset uf fc from -> simplify s (Node OP_EXTRACT t [fc; tc; x] f) = Ret m ->
  isInterior m = false \/ from = 0 \/ m = Node OP_EXTRACT t [fc; tc; x] f.
Variable solver : option SmtSolver.
Hypothesis solver_sound : solver_ok uf ctx solver.

Lemma none_sound op : sound op (fun _ => Ret None).
Proof. intros t cs f r _ H. discriminate. Qed.

(** An operator the semantics leaves out. *)
Lemma left_out op p : (forall t cs, ok_node op t cs = false) -> sound op p.
Proof. intros Hno t cs f r Hp _. apply Pre_node in Hp as (_ & _ & _ & Hok). now rewrite Hno in Hok. Qed.

(** The pass that a round runs for an operator. *)
Ltac round := unfold simplify_step; intros t cs f r Hp; cbn [getOperator]; revert t cs f r Hp.

Lemma identity_pass op ident :
  assoc_op op = true -> op <> OP_CONCAT -> op <> OP_SMUL -> ident = identity_constant op ->
  sound op (identity simplify solver ident).
Proof. intros. subst. now apply (identity_sound uf ctx simplify simplify_sound). Qed.

Lemma arithmetic_round op :
  assoc_op op = true -> sound op (simplify_step simplify solver addr).
Proof.
  destruct op; try discriminate; intros _; round.
  - (* ADD *)
    apply orElse_sound; [now apply AddSimplifier_sound|].
    apply orElse_sound; [apply sorted_flat_sound; try easy; now apply identity_pass|].
    apply orElse_sound; [now apply unaryNoOp_sound|]. apply foldConstants_sound; [reflexivity|apply AddSimplifier_fold_sound].
  - (* AND *)
    apply orElse_sound.
    { apply sorted_flat_sound; try easy. apply andThen_sound; [now apply idempotent_keeping|]. now apply identity_pass. }
    apply orElse_sound; [apply foldConstants_sound; [reflexivity|apply AndSimplifier_fold_sound]|]. apply AndSimplifier_sound.
  - (* CONCAT *)
    apply orElse_sound; [|now apply ConcatSimplifier_sound].
    apply andThen_sound; [now apply associative_keeping|].
    apply foldConstants_sound; [reflexivity|apply ConcatSimplifier_fold_sound].
  - (* OR *)
    apply orElse_sound.
    { apply sorted_flat_sound; try easy. apply andThen_sound; [now apply idempotent_keeping|]. now apply identity_pass. }
    apply orElse_sound; [apply foldConstants_sound; [reflexivity|apply OrSimplifier_fold_sound]|]. now apply OrSimplifier_sound.
  - (* SMUL *)
    apply sorted_flat_sound; try easy. apply foldConstants_sound; [reflexivity|apply SmulSimplifier_fold_sound].
  - (* UMUL *)
    apply orElse_sound; [apply sorted_flat_sound; try easy; now apply identity_pass|].
    apply foldConstants_sound; [reflexivity|apply UmulSimplifier_fold_sound].
  - (* XOR *)
    apply orElse_sound; [apply sorted_flat_sound; try easy; now apply identity_pass|].
    apply orElse_sound; [apply foldConstants_sound; [reflexivity|apply XorSimplifier_fold_sound]|]. now apply XorSimplifier_sound.
Qed.

Lemma shift_round op :
  shift_op op = true -> sound op (simplify_step simplify solver addr).
Proof.
  destruct op; try discriminate; intros _; round;
    try (apply orElse_sound; [apply additiveNesting_sound; tauto|]).
  - apply AsrSimplifier_sound.
  - apply rotate_sound; auto.
  - apply rotate_sound; auto.
  - now apply (ShlSimplifier_sound uf ctx simplify simplify_sound solver solver_sound false).
  - now apply (ShlSimplifier_sound uf ctx simplify simplify_sound solver solver_sound true).
  - now apply (ShrSimplifier_sound uf ctx simplify simplify_sound solver solver_sound false).
  - now apply (ShrSimplifier_sound uf ctx simplify simplify_sound solver solver_sound true).
Qed.

Lemma simplify_step_sound op : sound op (simplify_step simplify solver addr).
Proof.
  destruct (assoc_op op) eqn:Ea; [now apply arithmetic_round|].
  destruct (shift_op op) eqn:Es; [now apply shift_round|].
  destruct op; try discriminate Ea; try discriminate Es; try (apply left_out; reflexivity); clear Ea Es; round;
    try apply none_sound.
  - apply orElse_sound; [apply commutative_compare_sound; tauto|apply EqSimplifier_sound].
  - now apply ExtractSimplifier_sound.
  - apply orElse_sound; [apply (involutary_sound uf ctx OP_INVERT); tauto|apply InvertSimplifier_sound].
  - now apply IteSimplifier_sound.
  - apply LssbSimplifier_sound.
  - apply MssbSimplifier_sound.
  - apply commutative_compare_sound; tauto.
  - apply orElse_sound; [apply (involutary_sound uf ctx OP_NEGATE); tauto|apply NegateSimplifier_sound].
  - apply NoopSimplifier_sound.
  - apply SdivSimplifier_sound.
  - now apply SextendSimplifier_sound.
  - apply SgeSimplifier_sound.
  - apply SgtSimplifier_sound.
  - apply SleSimplifier_sound.
  - apply SltSimplifier_sound.
  - apply SmodSimplifier_sound.
  - apply UdivSimplifier_sound.
  - now apply UextendSimplifier_sound.
  - apply UgeSimplifier_sound.
  - apply UgtSimplifier_sound.
  - apply UleSimplifier_sound.
  - apply UltSimplifier_sound.
  - apply UmodSimplifier_sound.
  - apply ZeropSimplifier_sound.
  - now apply ConvertSimplifier_sound.
  - apply ReinterpretSimplifier_sound.
Qed.

Lemma simplify_step_nf op t cs f :
  Pre (Node op t cs f) -> simplify_step simplify solver addr (Node op t cs f) = Ret None -> nf_node op cs = true.
Proof.
  intros Hp H. destruct op; try reflexivity. unfold simplify_step in H. cbn [getOperator] in H.
  exact (ExtractSimplifier_nf uf simplify solver t cs f Hp H).
Qed.
End Step.

(** * The loop *)

Lemma simplifyTop_leaf fuel s e e' : isInterior e = false -> simplifyTop fuel addr s e = Ret e' -> e' = e.
Proof. intros Hi H. destruct fuel; cbn [simplifyTop] in H; [discriminate|]. rewrite Hi in H. now injection H. Qed.

Lemma simplifyTop_extract fuel s t fc tc x f from m :
  Pre (Node OP_EXTRACT t [fc; tc; x] f) -> nf_node OP_EXTRACT [fc; tc; x] = true ->
  offset uf fc from -> simplifyTop fuel addr s (Node OP_EXTRACT t [fc; tc; x] f) = Ret m ->
  isInterior m = false \/ from = 0 \/ m = Node OP_EXTRACT t [fc; tc; x] f.
Proof.
  intros Hp Hnf Hf H. destruct fuel as [|fuel]; [discriminate|]. cbn [simplifyTop isInterior] in H.
  destruct (Extract_node uf t _ f Hp) as (? & ? & ? & from' & to & [= <- <- <-] & Hf' & Ht & _ & _ & Hft & Hto & _).
  assert (from' = from) as -> by (destruct Hf' as (_ & _ & _ & U2 & _), Hf as (_ & _ & _ & U1 & _); congruence).
  inv_outcome. unfold simplify_step in H0. cbn [getOperator] in H0. unfold ExtractSimplifier_rewrite in H0.
  rewrite (extract_limits_node uf _ fc tc x f from to Hf Ht) in H0. cbn [obind nf_node] in *. cbn_args.
  rewrite (proj2 (Z.leb_gt to from)), (proj2 (Z.ltb_ge _ to)) in H0 by lia. cbn [orb] in H0.
  destruct (integer_constant x) as [v|].
  { unfold some in H0. inv_outcome. subst. apply makeIntegerConstant_bits_Ret in H1 as [-> _].
    apply simplifyTop_leaf in H as ->; [now left|reflexivity]. }
  destruct (Z.eqb_spec from 0) as [|Hz]; [now right; left|]. cbn [andb] in H0.
  apply andb_true_iff in Hnf as [Hn1 Hn2]. apply negb_true_iff in Hn1. apply negb_true_iff in Hn2. rewrite Hn1, Hn2 in H0. cbn [andb] in H0.
  injection H0 as <-. injection H as <-. now right; right.
Qed.

Lemma simplifyTop_sound fuel : forall s e e',
  solver_ok uf ctx s -> Pre e -> simplifyTop fuel addr s e = Ret e' ->
  denotes uf ctx Good e' (expr_type e) (fun env => ev env e).
Proof.
  induction fuel as [|fuel IH]; intros s e e' Hs Hp H; [discriminate|]. cbn [simplifyTop] in H.
  destruct e as [t v f|t n f|op t cs f]; cbn [isInterior] in H; [injection H as <-; split; [exact Hp|now split]..|].
  inv_outcome. destruct x as [e1|].
  - assert (H1 : denotes uf ctx Pre e1 t (fun env => eval_list uf env op (nBits t) cs)).
    { apply (simplify_step_sound (simplifyTop fuel addr) IH) with (solver := s) (f := f); try assumption.
      intros. now apply (simplifyTop_extract fuel s0 t0 fc tc x f0 from). }
    destruct H1 as (Hp1 & Ht1 & Hv1). destruct (IH s e1 e' Hs Hp1 H) as (Hg & Ht & Hv).
    split; [assumption|]. split; [now rewrite Ht|]. intros env Henv. rewrite Hv, Hv1, eval_node by assumption. reflexivity.
  - injection H as <-. split; [|now split]. apply Good_node. split; [assumption|].
    now apply (simplify_step_nf (simplifyTop fuel addr) s op t cs f).
Qed.
End Sound.

(** * The contract of [Interior::instance] *)

(** C1. For the nodes that the simplifier handles correctly, what
    [Interior::instance] returns is worth what the node asked for is worth:
    whichever rewritings the simplifier makes, in whatever order the operands
    are stored in memory and whatever the solver answers, the expression has
    the type that [adjustWidth] gives the node, is well typed, and has the value
    of the operator on the operands under every assignment for which the
    solver's answers are true.  The operands must be such expressions themselves
    ([Good]), and the node must satisfy [ok_node]: integer operands, except for
    reads and writes of memory, conditionals, reinterpretations, [LET] and the
    floating point tests; a conjunction of at most 64 bits and an unsigned
    product of at most 255; no shift of a shift of the same kind, a shift that
    brings in ones of at most 64 bits and an arithmetic shift by an amount of at most
    64 bits of width; an extraction within its operand; no floating point
    arithmetic and no [SET].  Outside of them the code can be wrong, as the runs
    of [SymLimits] show. *)
Theorem instance_keeps_value uf ctx addr fuel solver ty op cs flags e :
  solver_ok uf ctx solver -> 0 <= nBits ty <= 32767 -> type_ok ty = true -> Forall Good cs ->
  (forall t, adjustWidth op cs ty = Ret t -> ok_node op t cs = true) ->
  make fuel addr solver ty op cs flags = Ret e ->
  exists t, adjustWidth op cs ty = Ret t /\ expr_type e = t /\ Good e /\
    forall env, ctx env -> eval uf env e = eval_list uf env op (nBits t) cs.
Proof.
  intros Hs Hty Hto Hcs Hok H.
  destruct (instance_sound uf ctx (simplifyTop fuel addr) (simplifyTop_sound uf ctx addr fuel) solver ty op cs flags e)
    as (t & Ha & _ & Hg & Ht & Hv); try assumption.
  exists t. auto.
Qed.

(** A solver that has been told that two variables are equal. *)
Definition byte_var (n : Z) : expr := Var (mkType INTEGER 8 0) n 0.
Definition told_equal : SmtSolver := {|
  hasAssertions := true;
  check_ne a b := Ret (if expr_eqb a (byte_var 1) && expr_eqb b (byte_var 2) then SAT_NO else SAT_UNKNOWN);
  check_eq a b := Ret SAT_UNKNOWN
|}.

Lemma byte_var_Good n : Good (byte_var n).
Proof. now repeat split. Qed.

(** The exclusive or of the two variables, under that assertion, is zero. *)
Theorem instance_keeps_value_witness :
  make 5 (fun _ => 0) (Some told_equal) type_none OP_XOR [byte_var 1; byte_var 2] 0 =
    Ret (Const (mkType INTEGER 8 0) 0 0) /\
  exists t, adjustWidth OP_XOR [byte_var 1; byte_var 2] type_none = Ret t /\
    expr_type (Const (mkType INTEGER 8 0) 0 0) = t /\ Good (Const (mkType INTEGER 8 0) 0 0) /\
    forall env, env 1 mod 2 ^ 8 = env 2 mod 2 ^ 8 ->
      eval (fun _ _ _ => 0) env (Const (mkType INTEGER 8 0) 0 0) =
      eval_list (fun _ _ _ => 0) env OP_XOR (nBits t) [byte_var 1; byte_var 2].
Proof.
  split; [vm_compute; reflexivity|].
  apply (instance_keeps_value (fun _ _ _ => 0) (fun env => env 1 mod 2 ^ 8 = env 2 mod 2 ^ 8) (fun _ => 0) 5
    (Some told_equal) type_none OP_XOR [byte_var 1; byte_var 2] 0).
  - intros env He s a b [= <-]. cbn. destruct (_ && _) eqn:E; [|discriminate]. intros _.
    apply andb_true_iff in E as [Ea Eb]. apply expr_eqb_eq in Ea as ->. apply expr_eqb_eq in Eb as ->. exact He.
  - cbn. lia.
  - reflexivity.
  - repeat (constructor; [apply byte_var_Good|]). constructor.
  - intros t _. reflexivity.
  - vm_compute. reflexivity.
Defined.
