(* ===== verification/SymTotal.v ===== *)
(** Termination of [Interior::simplifyTop] on constants: an operator applied to
    constants is folded to a constant, whatever the number of operands and
    their order.  A run is described by the result it has with enough fuel. *)
From S2P Require Import Prelude BitVector SymType SymExpr SymSimplify SymFuel SymEval SymGood SymAC SymSound SymBits SymShift SymTop.
From Stdlib Require Import Permutation Sorted.
Open Scope Z_scope.

(** * Sorting *)

Section Sorting.
Variable before : expr -> expr -> bool.
Variable P : expr -> Prop.
Hypothesis before_asym : forall a b, P a -> P b -> before a b = true -> before b a = false.
Hypothesis not_before_trans : forall a b c, P a -> P b -> P c ->
  before b a = false -> before c b = false -> before c a = false.

Definition ordered : list expr -> Prop := StronglySorted (fun a b => before b a = false).

Lemma insert_ordered c cs : P c -> Forall P cs -> ordered cs -> ordered (insert_operand before c cs).
Proof.
  intros Hc Hcs Ho. induction Ho as [|c' cs Ho IH Hf]; [repeat constructor|].
  apply Forall_cons in Hcs as [Hc' Hcs]. cbn [insert_operand]. destruct (before c' c) eqn:E.
  - constructor; [now apply IH|]. rewrite (insert_operand_perm before c cs). constructor; [now apply before_asym|assumption].
  - constructor; [now constructor|]. constructor; [assumption|].
    rewrite Forall_forall in *. intros d Hd. apply (not_before_trans c c' d); auto.
Qed.

Lemma sort_ordered cs : Forall P cs -> ordered (sort_operands before cs).
Proof.
  induction 1 as [|c cs Hc Hcs IH]; [constructor|]. apply insert_ordered; [assumption| |assumption].
  change (Forall P (sort_operands before cs)). now rewrite sort_operands_perm.
Qed.

Lemma sort_of_ordered cs : ordered cs -> sort_operands before cs = cs.
Proof.
  induction 1 as [|c cs Ho IH Hf]; [reflexivity|]. change (insert_operand before c (sort_operands before cs) = c :: cs). rewrite IH.
  destruct Hf as [|c' cs Hc' _]; [reflexivity|]. cbn. now rewrite Hc'.
Qed.
End Sorting.

Lemma commutative_order_asym addr a b :
  wt a -> wt b -> commutative_order addr a b = true -> commutative_order addr b a = false.
Proof.
  intros Ha Hb. unfold commutative_order. rewrite (proj1 (expr_cmp_three_way a Ha b Hb)).
  destruct (Z.eqb_spec (expr_cmp a b) 0) as [->|Hne]; cbn [Z.opp Z.eqb].
  - intros H. apply Z.ltb_lt in H. apply Z.ltb_ge. lia.
  - intros H. apply Z.ltb_lt in H. rewrite (proj2 (Z.eqb_neq (- expr_cmp a b) 0)) by lia. apply Z.ltb_ge. lia.
Qed.

Lemma commutative_order_not_before addr a b c :
  wt a -> wt b -> wt c ->
  commutative_order addr b a = false -> commutative_order addr c b = false -> commutative_order addr c a = false.
Proof.
  intros Ha Hb Hc. unfold commutative_order. destruct (expr_cmp_three_way a Ha b Hb) as [An T]. specialize (T c Hc).
  rewrite An, (proj1 (expr_cmp_three_way b Hb c Hc)), (proj1 (expr_cmp_three_way a Ha c Hc)).
  set (x := expr_cmp a b) in *. set (y := expr_cmp b c) in *. set (z := expr_cmp a c) in *.
  destruct (Z.eqb_spec (- x) 0), (Z.eqb_spec (- y) 0), (Z.eqb_spec (- z) 0); rewrite ?Z.ltb_ge; intros; try lia.
Qed.

(** * Runs *)

Section Runs.
Variable addr : expr -> Z.
Variable s : option SmtSolver.

(** [e] simplifies to [e'], with enough fuel. *)
Definition simplifies (e e' : expr) : Prop := exists n, simplifyTop n addr s e = Ret e'.

Lemma simplifies_unique e e1 e2 : simplifies e e1 -> simplifies e e2 -> e1 = e2.
Proof.
  intros [n Hn] [m Hm]. apply (simplifyTop_more addr n (Nat.max n m)) in Hn; [|lia].
  apply (simplifyTop_more addr m (Nat.max n m)) in Hm; [|lia]. congruence.
Qed.

Lemma simplifies_leaf e : isInterior e = false -> simplifies e e.
Proof. intros H. exists 1%nat. cbn [simplifyTop]. now rewrite H. Qed.

(** One round, with enough fuel for the expressions it builds. *)
Definition rounds_to (e e' : expr) : Prop :=
  exists k, simplify_step (simplifyTop k addr) s addr e = Ret (Some e').

Lemma simplifies_step e e1 e' : isInterior e = true -> rounds_to e e1 -> simplifies e1 e' -> simplifies e e'.
Proof.
  intros Hi [k Hk] [n Hn]. exists (S (Nat.max k n)). cbn [simplifyTop]. rewrite Hi.
  destruct (simplify_step_extends (simplifyTop k addr) (simplifyTop (Nat.max k n) addr)
    ltac:(intros; apply simplifyTop_extends; lia) s addr e) as [E|E]; [congruence|].
  rewrite <- E, Hk. cbn [obind]. apply (simplifyTop_more addr n); [lia|assumption].
Qed.

(** The expression becomes an integer constant. *)
Definition folds (e : expr) : Prop := exists c, isConstant c = true /\ simplifies e c.

Lemma folds_step e e1 : isInterior e = true -> rounds_to e e1 -> folds e1 -> folds e.
Proof. intros Hi Hr (c & Hc & Hs). exists c. split; [assumption|]. now apply (simplifies_step e e1). Qed.

Lemma folds_const c : isConstant c = true -> folds c.
Proof. intros Hc. exists c. split; [assumption|]. apply simplifies_leaf. now destruct c. Qed.

(** Rounds keep the invariant of a node, whatever the solver answers. *)
Lemma rounds_Pre op t cs f e :
  Pre (Node op t cs f) -> rounds_to (Node op t cs f) e -> Pre e /\ expr_type e = t.
Proof.
  intros Hp [k Hk].
  assert (Hs : solver_ok (fun _ _ _ => 0) (fun _ => False) s) by (intros env []).
  apply (simplify_step_sound (fun _ _ _ => 0) (fun _ => False) addr (simplifyTop k addr)
    (simplifyTop_sound _ _ addr k)) in Hk; try assumption.
  - destruct Hk as (H1 & H2 & _). now split.
  - intros. eapply simplifyTop_extract; eassumption.
Qed.

(** * Constant operands *)

Definition constant (c : expr) : Prop := Good c /\ isIntegerConstant c = true.

Lemma constant_form c :
  constant c -> exists w v f, c = Const (mkType INTEGER w 0) v f /\ 0 < w <= 32767 /\ bv_ok w v.
Proof.
  intros [Hg Hc]. unfold isIntegerConstant in Hc. apply andb_true_iff in Hc as [Hi Hc].
  destruct (isConstant_inv c Hc) as (t & v & f & ->).
  destruct (int_arg (fun _ _ _ => 0) _ Hg Hi) as (Hw & Ht & Hv).
  change (expr_nBits (Const t v f)) with (nBits t) in *. cbn [expr_type] in Ht.
  exists (nBits t), v, f. rewrite <- Ht. split; [reflexivity|]. split; [exact Hw|]. exact (Hv (fun _ => 0)).
Qed.

Lemma constant_leaf c : constant c -> isConstant c = true.
Proof. intros [_ H]. unfold isIntegerConstant in H. now apply andb_true_iff in H. Qed.

(** A computation that returns a constant. *)
Definition gives (m : outcome (option expr)) : Prop := exists c, isConstant c = true /\ m = Ret (Some c).

Lemma folds_round e k :
  isInterior e = true -> gives (simplify_step (simplifyTop k addr) s addr e) -> folds e.
Proof.
  intros Hi (c & Hc & Hr). apply (folds_step e c); [assumption| |now apply folds_const]. now exists k.
Qed.

Lemma gives_operand c : isConstant c = true -> gives (Ret (Some c)).
Proof. intros H. now exists c. Qed.

Lemma gives_constant w v f : 0 < w <= 32767 -> gives (some (makeIntegerConstant_bits w v f)).
Proof. intros Hw. unfold some. rewrite makeIntegerConstant_bits_ok by assumption. now apply gives_operand. Qed.

Lemma gives_integer w v f : 0 < w <= 32767 -> gives (some (makeIntegerConstant w v f)).
Proof. apply gives_constant. Qed.

Lemma gives_folded e w v : 0 < w <= 32767 -> gives (folded e w v).
Proof. apply gives_constant. Qed.

Lemma gives_bool e b : gives (folded_bool e b).
Proof. destruct b; now eexists. Qed.

#[local] Hint Resolve gives_operand gives_constant gives_integer gives_folded gives_bool : gives.

(** A node of constants, its operands named and taken apart. *)
Ltac take_constants :=
  repeat match goal with
  | H : Forall constant (_ :: _) |- _ => apply Forall_cons in H; destruct H
  | H : Forall constant [] |- _ => clear H
  end;
  repeat match goal with
  | H : constant ?c |- _ =>
      is_var c;
      let w := fresh "w" in let v := fresh "v" in let f := fresh "f" in
      pose proof H; destruct (constant_form c H) as (w & v & f & -> & ? & ?)
  end.

(** Look at the operands that a pass looks at. *)
Ltac see :=
  unfold arg_constant, arg, nth_arg in *; cbn [children lookup list_lookup default from_option id integer_constant
    isInterior isOperator andb typeClass expr_type obind getOperator expr_nBits nBits] in *;
  rewrite ?bool_decide_eq_true_2 by reflexivity.

(** The operators that fold constants; a product needs two of them, a rotation
    an amount of at most 64 bits, and a quotient operands of at most 64 bits, a
    divisor that is not zero, and no overflow. *)
Definition divides (signed : bool) (cs : list expr) : bool :=
  let a := nth_arg cs 0 in let b := nth_arg cs 1 in
  (expr_nBits a <=? 64) && (expr_nBits b <=? 64) && negb (leaf_bits b =? 0) &&
  (negb signed || (expr_nBits a <? 64) || negb (tsval (expr_nBits b) (leaf_bits b) =? -1)).

Definition foldable (op : Operator) (cs : list expr) : bool :=
  match op with
  | OP_ADD | OP_AND | OP_OR | OP_XOR | OP_CONCAT
  | OP_INVERT | OP_NEGATE | OP_LSSB | OP_MSSB | OP_ZEROP
  | OP_EQ | OP_SGE | OP_SGT | OP_SLE | OP_SLT | OP_UGE | OP_UGT | OP_ULE | OP_ULT
  | OP_UEXTEND | OP_SEXTEND | OP_EXTRACT | OP_CONVERT | OP_ITE
  | OP_SHL0 | OP_SHL1 | OP_SHR0 | OP_SHR1 | OP_ASR => true
  | OP_NOOP => (length cs =? 1)%nat
  | OP_UMUL | OP_SMUL => (2 <=? length cs)%nat
  | OP_ROL | OP_ROR => expr_nBits (nth_arg cs 0) <=? 64
  | OP_UDIV | OP_UMOD => divides false cs
  | OP_SDIV | OP_SMOD => divides true cs
  | _ => false
  end.

Definition unary_fold (op : Operator) : bool :=
  match op with OP_INVERT | OP_NEGATE | OP_LSSB | OP_MSSB | OP_ZEROP | OP_NOOP => true | _ => false end.

Ltac cases :=
  repeat (auto with gives;
    match goal with |- gives (match ?x with _ => _ end) => destruct x end); auto with gives.

Lemma unary_folds op t cs f :
  unary_fold op = true -> foldable op cs = true -> Pre (Node op t cs f) -> Forall constant cs -> folds (Node op t cs f).
Proof.
  intros Hop Hf Hp Hcs. pose proof (proj1 (Pre_node _ _ _ _) Hp) as ((Hw & _) & Ha & _ & Hok).
  assert (Hl : length cs = 1%nat).
  { destruct op; try discriminate Hop; try (clear Hok; inv_width Ha; assumption).
    - cbn in Hok. destr_bool. now apply Nat.eqb_eq.
    - now apply Nat.eqb_eq in Hf. }
  name_args cs. take_constants. apply folds_round with (k := O); [reflexivity|].
  destruct op; try discriminate Hop; unfold simplify_step, orElse, involutary, InvertSimplifier_rewrite, NegateSimplifier_rewrite,
    LssbSimplifier_rewrite, MssbSimplifier_rewrite, ZeropSimplifier_rewrite, NoopSimplifier_rewrite; see; cases.
Qed.

Lemma ordered_compare_folds op t cs f :
  compare_op op = true -> op <> OP_EQ -> op <> OP_NE -> Pre (Node op t cs f) -> Forall constant cs -> folds (Node op t cs f).
Proof.
  intros Hop H1 H2 Hp Hcs. destruct (compare_node op t cs f Hop Hp) as (a & b & -> & _).
  take_constants. apply folds_round with (k := O); [reflexivity|].
  destruct op; try discriminate Hop; try congruence; unfold simplify_step, SgeSimplifier_rewrite, SgtSimplifier_rewrite,
    SleSimplifier_rewrite, SltSimplifier_rewrite, UgeSimplifier_rewrite, UgtSimplifier_rewrite, UleSimplifier_rewrite,
    UltSimplifier_rewrite, compare_rewrite; see; cases.
Qed.

Lemma extension_folds op t cs f :
  op = OP_UEXTEND \/ op = OP_SEXTEND -> Pre (Node op t cs f) -> Forall constant cs -> folds (Node op t cs f).
Proof.
  intros Hop Hp Hcs. destruct (extend_node (fun _ _ _ => 0) op t cs f Hop Hp) as (c & a & -> & _ & _ & _ & Et & Hw).
  take_constants. apply folds_round with (k := O); [reflexivity|].
  destruct Hop as [->| ->]; unfold simplify_step, UextendSimplifier_rewrite, SextendSimplifier_rewrite; see; cases.
Qed.

Lemma extract_folds t cs f :
  Pre (Node OP_EXTRACT t cs f) -> Forall constant cs -> folds (Node OP_EXTRACT t cs f).
Proof.
  intros Hp Hcs. destruct (Extract_node (fun _ _ _ => 0) t cs f Hp) as (fc & tc & x & from & to & -> & Hf & Ht & _ & _ & Hft & Hto & Et).
  pose proof (proj1 (Pre_node _ _ _ _) Hp) as ((Hw & _) & _).
  apply Forall_cons in Hcs as [_ Hcs]. apply Forall_cons in Hcs as [_ Hcs]. take_constants.
  apply folds_round with (k := O); [reflexivity|]. unfold simplify_step. cbn [getOperator]. unfold ExtractSimplifier_rewrite.
  rewrite (extract_limits_node (fun _ _ _ => 0) t fc tc _ f from to Hf Ht). see.
  rewrite (proj2 (Z.leb_gt to from)), (proj2 (Z.ltb_ge _ to)) by lia. cbn [orb]. apply gives_constant.
  rewrite Et in Hw. exact Hw.
Qed.

Lemma ite_folds t cs f :
  Pre (Node OP_ITE t cs f) -> Forall constant cs -> folds (Node OP_ITE t cs f).
Proof.
  intros Hp Hcs. destruct (Ite_node t cs f Hp) as (c & a & b & -> & _ & _ & _ & _ & Wc & _).
  take_constants. apply folds_round with (k := O); [reflexivity|]. unfold simplify_step, IteSimplifier_rewrite.
  see. subst. cbn [Z.eqb Pos.eqb require_ obind]. cases. destruct (negb _); now apply gives_operand.
Qed.

Lemma long_div_gives w a b f :
  0 < w <= 32767 -> b <> 0 -> LONG_MIN <= a <= LONG_MAX -> (LONG_MIN < a \/ b <> -1) ->
  gives (let! r := long_div a b in some (makeIntegerConstant w (r mod 2 ^ 64) f)) /\
  gives (let! r := long_rem a b in some (makeIntegerConstant w (r mod 2 ^ 64) f)).
Proof.
  intros Hw Hb Ha Ho. unfold long_div, long_rem. rewrite (proj2 (Z.eqb_neq b 0)) by assumption.
  rewrite chk_long_ok; [now split; apply gives_integer|]. unfold LONG_MIN, LONG_MAX in *.
  pose proof (Z.quot_abs a b Hb) as Hq. destruct (Z.eq_dec (Z.abs b) 1) as [E1|E1].
  - assert (Hcase : b = 1 \/ b = -1) by lia. destruct Hcase as [->| ->]; [rewrite Z.quot_1_r; lia|].
    change (-1) with (- (1)). rewrite Z.quot_opp_r, Z.quot_1_r by lia. lia.
  - assert (Z.abs a / Z.abs b <= Z.abs a / 2) by (apply Z.div_le_compat_l; lia).
    assert (Z.abs a / 2 <= 2 ^ 62) by (apply Z.div_le_upper_bound; lia).
    rewrite Z.quot_div_nonneg in Hq by lia. lia.
Qed.

Lemma tsval_range w v : 0 < w -> bv_ok w v -> - 2 ^ (w - 1) <= tsval w v <= 2 ^ (w - 1) - 1 \/ 0 <= tsval w v < 2.
Proof.
  intros Hw Hv. unfold tsval. destruct (Z.ltb_spec 1 w); [left; pose proof (sval_range w v Hw Hv); lia|].
  right. replace w with 1 in Hv by lia. exact Hv.
Qed.

Lemma tsval_long w v : 0 < w <= 64 -> bv_ok w v ->
  LONG_MIN <= tsval w v <= LONG_MAX /\ (w < 64 -> LONG_MIN < tsval w v).
Proof.
  intros Hw Hv. unfold LONG_MIN, LONG_MAX. destruct (tsval_range w v ltac:(lia) Hv) as [Hr|Hr]; [|lia].
  pose proof (pow2_le (w - 1) 63 ltac:(lia)). split; [lia|]. intros Hlt. pose proof (pow2_le (w - 1) 62 ltac:(lia)). lia.
Qed.

Lemma toSigned_64 w v f : 0 < w <= 64 -> bv_ok w v -> toSigned (Const (mkType INTEGER w 0) v f) = Some (tsval w v).
Proof.
  intros Hw Hv. rewrite toSigned_spec by (assumption || lia). pose proof (tsval_long w v Hw Hv).
  now rewrite !(proj2 (Z.leb_le _ _)) by lia.
Qed.

Lemma division_folds op t cs f :
  division_op op = true -> foldable op cs = true -> Pre (Node op t cs f) -> Forall constant cs -> folds (Node op t cs f).
Proof.
  intros Hop Hf Hp Hcs. destruct (division_node op t cs f Hop Hp) as (a & b & -> & _).
  apply Forall_cons in Hcs as [Ca Hcs]. apply Forall_cons in Hcs as [Cb _].
  destruct (constant_form a Ca) as (wa & va & fa & -> & Hwa & Hva). destruct (constant_form b Cb) as (wb & vb & fb & -> & Hwb & Hvb).
  apply folds_round with (k := O); [reflexivity|].
  assert (Hd : divides (op_eqb op OP_SDIV || op_eqb op OP_SMOD) [Const (mkType INTEGER wa 0) va fa; Const (mkType INTEGER wb 0) vb fb] = true)
    by (destruct op; try discriminate Hop; exact Hf).
  clear Hf. unfold divides in Hd. cbn [nth_arg lookup list_lookup default from_option id expr_nBits expr_type nBits leaf_bits] in Hd.
  apply andb_true_iff in Hd as [Hd Ho]. apply andb_true_iff in Hd as [Hd Hz]. apply andb_true_iff in Hd as [Ea Eb].
  pose proof (proj1 (Z.leb_le _ _) Ea). pose proof (proj1 (Z.leb_le _ _) Eb).
  assert (Hs : tsval wb vb <> 0).
  { intros E. pose proof (tsval_mod wb vb ltac:(lia) Hvb) as Em. apply negb_true_iff, Z.eqb_neq in Hz.
    rewrite E, Z.mod_0_l in Em by (pose proof (pow2_pos wb); lia). lia. }
  destruct (tsval_long wa va ltac:(lia) Hva) as [Hl Hl'].
  destruct op; try discriminate Hop; unfold simplify_step, SdivSimplifier_rewrite, SmodSimplifier_rewrite,
    UdivSimplifier_rewrite, UmodSimplifier_rewrite, division_rewrite, bv_isEqualToZero; see; rewrite Hz, Ea, Eb; cbn [andb];
    rewrite ?toSigned_64, ?toUnsigned_64 by (assumption || lia); cbn [get_some obind];
    try (unfold ulong_div, ulong_rem; apply negb_true_iff in Hz; rewrite Hz; cbn [obind]; now apply gives_integer).
  all: apply long_div_gives; try assumption.
  all: change (negb true || ?x || ?y) with (x || y) in Ho; apply orb_true_iff in Ho as [Ho|Ho];
    [left; apply Z.ltb_lt in Ho; lia|right; now apply negb_true_iff, Z.eqb_neq in Ho].
Qed.

(** ** Shifts and rotations *)

Lemma shift_amount_some op t sa a f : constant sa -> 0 < nBits t <= 32767 ->
  exists v, arg_constant (Node op t [sa; a] f) 0 = Some v /\ shift_amount (Node op t [sa; a] f) = Some (Z.min (nBits t) v).
Proof.
  intros Hs Ht. destruct (constant_form sa Hs) as (w & v & g & -> & Hw & Hv). exists v. split; [reflexivity|].
  assert (E : exists n, shift_amount (Node op t [Const (mkType INTEGER w 0) v g; a] f) = Some n).
  { unfold shift_amount. see. destruct (Z.leb_spec w 64); [rewrite toUnsigned_64 by (assumption || lia); eauto|].
    destruct (bv_mostSignificantSetBit v) as [m|]; [|eauto]. destruct (m <? 64); eauto. }
  destruct E as [n E]. rewrite E. f_equal. apply (shift_amount_spec (fun _ _ _ => 0) op t _ a f n v (proj1 Hs) Ht eq_refl E).
Qed.

Lemma additiveNesting_constants op t cs f : Forall constant cs -> length cs = 2%nat ->
  forall k, additiveNesting (simplifyTop k addr) s (Node op t cs f) = Ret None.
Proof.
  intros Hcs Hl k. name_args cs. take_constants. reflexivity.
Qed.

Lemma shift_folds op t cs f :
  shift_op op = true -> foldable op cs = true -> Pre (Node op t cs f) -> Forall constant cs -> folds (Node op t cs f).
Proof.
  intros Hop Hf Hp Hcs.
  destruct (shift_node (fun _ _ _ => 0) op t cs f Hop Hp) as (sa & a & -> & _ & _ & _ & _ & _ & Ew & _ & Hw & Hok).
  apply folds_round with (k := O); [reflexivity|].
  pose proof (additiveNesting_constants op t [sa; a] f Hcs eq_refl O) as Ha.
  apply Forall_cons in Hcs as [Cs Hcs]. apply Forall_cons in Hcs as [Ca _].
  destruct (shift_amount_some op t sa a f Cs Hw) as (n & En & Hn).
  destruct (constant_form a Ca) as (wa & va & fa & -> & Hwa & Hva).
  assert (Hu : expr_nBits sa <= 64 -> toUnsigned sa = Some n).
  { destruct (constant_form sa Cs) as (w & v & g & -> & Hw' & Hv). intros Hle. injection En as <-. apply toUnsigned_64; [|assumption].
    change (0 < w <= 64). change (w <= 64) in Hle. lia. }
  destruct op; try discriminate Hop; cbn [simplify_step getOperator]; unfold orElse; rewrite ?Ha; cbn [obind];
    unfold ShlSimplifier_rewrite, ShrSimplifier_rewrite, AsrSimplifier_rewrite, RolSimplifier_rewrite, RorSimplifier_rewrite, rotate_rewrite.
  - cbn [ok_node] in Hok. apply andb_true_iff in Hok as [_ Hle]. apply Z.leb_le in Hle. rewrite En. see. rewrite Hu by exact Hle. now apply gives_folded.
  - apply Z.leb_le in Hf. unfold rotate_amount. rewrite En. see. unfold expr_nBits in *. rewrite (proj2 (Z.leb_le _ _) Hf), Hu by exact Hf. now apply gives_folded.
  - apply Z.leb_le in Hf. unfold rotate_amount. rewrite En. see. unfold expr_nBits in *. rewrite (proj2 (Z.leb_le _ _) Hf), Hu by exact Hf. now apply gives_folded.
  - rewrite Hn. see. now apply gives_folded.
  - rewrite Hn. see. now apply gives_folded.
  - rewrite Hn. see. now apply gives_folded.
  - rewrite Hn. see. now apply gives_folded.
Qed.

(** ** Conversion and equality *)

(** A simplified node that is built on the way to a constant. *)
Lemma makes_constant op cs fl t :
  adjustWidth op cs type_none = Ret t -> Pre (Node op t cs (adjustBitFlags fl cs)) ->
  folds (Node op t cs (adjustBitFlags fl cs)) ->
  exists k c, isConstant c = true /\ forall n, (k <= n)%nat -> instance (simplifyTop n addr) s type_none op cs fl = Ret c.
Proof.
  intros Ha Hp (c & Hc & k & Hk). exists k, c. split; [assumption|]. intros n Hn.
  unfold instance, instance_with, interior. rewrite Ha. cbn [obind].
  change (type_isValid type_none) with false. cbn [negb orb require_ obind].
  now apply (simplifyTop_more addr k).
Qed.

Lemma makeExtend_constant w c a fl :
  0 < w <= 32767 -> offset (fun _ _ _ => 0) c w -> constant c -> constant a ->
  exists k x, isConstant x = true /\ forall n, (k <= n)%nat -> makeExtend (simplifyTop n addr) s c a fl = Ret x.
Proof.
  intros Hw (Gc & Cc & Wc & Uc & _) Hc Ha. pose proof Ha as [Ga Ia]. unfold isIntegerConstant in Ia. apply andb_true_iff in Ia as [Ia _].
  assert (Et : adjustWidth OP_UEXTEND [c; a] type_none = Ret (mkType INTEGER w 0)).
  { unfold adjustWidth. cbn [adjustWidth_op]. cbn_args. unfold require_args. cbn [length Nat.eqb require_ obind].
    rewrite Cc, (proj2 (Z.leb_le _ _) Wc), Uc. unfold isScalarExpr. rewrite Ia. cbn [require_ obind orb default from_option id].
    rewrite type_integer_ok by lia. cbn [obind nBits]. now rewrite (proj2 (Z.eqb_neq w 0)) by lia. }
  assert (Hp : Pre (Node OP_UEXTEND (mkType INTEGER w 0) [c; a] (adjustBitFlags fl [c; a]))).
  { apply Pre_node. split; [now split|]. split; [exact Et|]. split; [constructor; [assumption|constructor; [assumption|constructor]]|].
    unfold isIntegerConstant in Cc. apply andb_true_iff in Cc as [Ic _]. cbn. now rewrite Ic, Ia. }
  apply (makes_constant OP_UEXTEND [c; a] fl _ Et Hp).
  apply extension_folds; [now left|assumption|]. constructor; [assumption|constructor; [assumption|constructor]].
Qed.

Lemma makeExtract_constant from to fc tc a fl :
  offset (fun _ _ _ => 0) fc from -> offset (fun _ _ _ => 0) tc to -> constant fc -> constant tc -> constant a ->
  0 <= from < to -> to <= expr_nBits a ->
  exists k x, isConstant x = true /\ forall n, (k <= n)%nat -> makeExtract (simplifyTop n addr) s fc tc a fl = Ret x.
Proof.
  intros (Gf & Cf & Wf & Uf & _) (Gt & Ct & Wt & Ut & _) Hfc Htc Ha Hft Hto. pose proof Ha as [Ga Ia].
  unfold isIntegerConstant in Ia. apply andb_true_iff in Ia as [Ia _]. pose proof (wt_width a (proj1 Ga)).
  assert (Hcs : Forall constant [fc; tc; a]) by (constructor; [assumption|constructor; [assumption|constructor; [assumption|constructor]]]).
  assert (Et : adjustWidth OP_EXTRACT [fc; tc; a] type_none = Ret (mkType INTEGER (to - from) 0)).
  { unfold adjustWidth. cbn [adjustWidth_op]. cbn_args. unfold require_args. cbn [length Nat.eqb require_ obind].
    rewrite Cf, Ct, !(proj2 (Z.leb_le _ _)) by assumption. unfold isScalarExpr. rewrite Uf, Ut, Ia. cbn [require_ obind orb default from_option id].
    rewrite (proj2 (Z.ltb_lt from to)) by lia. cbn [require_ obind]. unfold expr_nBits in *.
    rewrite type_integer_ok by lia. cbn [obind nBits]. now rewrite (proj2 (Z.eqb_neq (to - from) 0)) by lia. }
  assert (Hp : Pre (Node OP_EXTRACT (mkType INTEGER (to - from) 0) [fc; tc; a] (adjustBitFlags fl [fc; tc; a]))).
  { apply Pre_node. split; [split; [cbn; unfold expr_nBits in *; lia|reflexivity]|]. split; [exact Et|]. split; [apply (Forall_impl _ _ _ Hcs); intros x Hx; apply Hx|].
    unfold isIntegerConstant in Cf, Ct. destr_bool. cbn [ok_node ints forallb]. cbn_args. rewrite Ut. cbn [default from_option id].
    rewrite (proj2 (Z.leb_le _ _) Hto). now repeat match goal with H : isIntegerExpr _ = true |- _ => rewrite H; clear H end. }
  apply (makes_constant OP_EXTRACT [fc; tc; a] fl _ Et Hp). now apply extract_folds.
Qed.

(** An offset made from a number. *)
Lemma offset_constant k n fl :
  0 < k <= 64 -> 0 <= n < 2 ^ k -> exists c, makeIntegerConstant k n fl = Ret c /\ offset (fun _ _ _ => 0) c n /\ constant c.
Proof.
  intros Hk Hn. exists (Const (mkType INTEGER k 0) (bv_fromInteger k n) fl).
  assert (E : makeIntegerConstant k n fl = Ret (Const (mkType INTEGER k 0) (bv_fromInteger k n) fl)) by (apply makeIntegerConstant_ok; lia).
  split; [exact E|]. pose proof (offset_make (fun _ _ _ => 0) k n fl _ Hk Hn E) as Ho. split; [assumption|]. split; [apply Ho|reflexivity].
Qed.

Lemma convert_folds t cs f : Pre (Node OP_CONVERT t cs f) -> Forall constant cs -> folds (Node OP_CONVERT t cs f).
Proof.
  intros Hp Hcs. pose proof (proj1 (Pre_node _ _ _ _) Hp) as ((Hw & Hto) & Ha & _ & Hok). cbn [ok_node] in Hok.
  apply andb_true_iff in Hok as [_ Hc]. apply bool_decide_eq_true_1 in Hc.
  assert (Hl : length cs = 1%nat) by (inv_width Ha; assumption). name_args cs. apply Forall_cons in Hcs as [Ca _].
  pose proof Ca as [Ga Ia]. unfold isIntegerConstant in Ia. apply andb_true_iff in Ia as [Ia _].
  destruct (int_arg (fun _ _ _ => 0) a Ga Ia) as (Hwa & Hta & _).
  assert (Ie : isIntegerExpr (Node OP_CONVERT t [a] f) = true) by (apply bool_decide_eq_true_2; exact Hc).
  assert (E16 : 32767 < 2 ^ 16) by reflexivity.
  assert (E : exists k, gives (simplify_step (simplifyTop k addr) s addr (Node OP_CONVERT t [a] f))).
  2:{ destruct E as [k Hk]. now apply (folds_round _ k). }
  cbn [simplify_step getOperator]. unfold ConvertSimplifier_rewrite. cbn_args. case_bool_decide as Et.
  { exists O. apply gives_operand, constant_leaf, Ca. }
  rewrite Ie, Ia. cbn [andb]. change (expr_nBits (Node OP_CONVERT t [a] f)) with (nBits t).
  destruct (offset_constant 16 (nBits t) 0 ltac:(lia) ltac:(lia)) as (n & En & On & Cn). rewrite En.
  destruct (Z.ltb_spec (expr_nBits a) (nBits t)); cbn [obind].
  - destruct (makeExtend_constant (nBits t) n a f Hw On Cn Ca) as (k & x & Hx & Hk). exists k. unfold some.
    change (expr_flags (Node OP_CONVERT t [a] f)) with f. rewrite Hk by lia. now apply gives_operand.
  - destruct (offset_constant 16 0 0 ltac:(lia) ltac:(lia)) as (z & Ez & Oz & Cz). rewrite Ez. cbn [obind].
    destruct (makeExtract_constant 0 (nBits t) z n a f Oz On Cz Cn Ca ltac:(lia) ltac:(lia)) as (k & x & Hx & Hk). exists k. unfold some.
    change (expr_flags (Node OP_CONVERT t [a] f)) with f. rewrite Hk by lia. now apply gives_operand.
Qed.

(** ** Sorting the operands *)

Definition sorted (cs : list expr) : bool := all2 expr_eqb (sort_operands (commutative_order addr) cs) cs.

Lemma all2_eqb_refl cs : all2 expr_eqb cs cs = true.
Proof. induction cs as [|c cs IH]; [reflexivity|]. cbn. now rewrite expr_eqb_refl. Qed.

Lemma sorted_sort cs : Forall wt cs -> sorted (sort_operands (commutative_order addr) cs) = true.
Proof.
  intros H. unfold sorted. rewrite sort_of_ordered; [apply all2_eqb_refl|].
  apply sort_ordered with (P := wt); [apply commutative_order_asym|apply commutative_order_not_before|assumption].
Qed.

Lemma rebuild_ok op t cs f cs' :
  adjustWidth op cs' t = Ret t -> rebuild (Node op t cs f) cs' = Ret (Some (Node op t cs' (adjustBitFlags 0 cs'))).
Proof.
  intros Ha. unfold rebuild, some, interior. cbn [expr_type getOperator]. rewrite Ha. cbn [obind].
  now rewrite bool_decide_eq_true_2, orb_true_r by reflexivity.
Qed.

Lemma constants_wt cs : Forall constant cs -> Forall wt cs.
Proof. intros H. apply (Forall_impl _ _ _ H). intros c Hc. apply Hc. Qed.
Lemma constants_Good cs : Forall constant cs -> Forall Good cs.
Proof. intros H. apply (Forall_impl _ _ _ H). intros c Hc. apply Hc. Qed.

(** Sorting changes nothing, or gives the sorted node. *)
Lemma commutative_constants op t cs f :
  (forall cs', Permutation cs' cs -> adjustWidth op cs' t = Ret t) ->
  commutative addr (Node op t cs f) =
    Ret (if sorted cs then None
         else Some (Node op t (sort_operands (commutative_order addr) cs)
                (adjustBitFlags 0 (sort_operands (commutative_order addr) cs)))).
Proof.
  intros Hp. unfold commutative. cbn [children]. fold (sorted cs). destruct (sorted cs); [reflexivity|].
  apply rebuild_ok, Hp, sort_operands_perm.
Qed.

Lemma eq_folds t cs f : Pre (Node OP_EQ t cs f) -> Forall constant cs -> folds (Node OP_EQ t cs f).
Proof.
  intros Hp Hcs.
  assert (Hs : forall cs f, Pre (Node OP_EQ t cs f) -> Forall constant cs -> sorted cs = true -> folds (Node OP_EQ t cs f)).
  { clear. intros cs f Hp Hcs Hs. destruct (compare_node OP_EQ t cs f eq_refl Hp) as (a & b & -> & _).
    apply folds_round with (k := O); [reflexivity|]. cbn [simplify_step getOperator]. unfold orElse, commutative. cbn [children].
    fold (sorted [a; b]). rewrite Hs. cbn [obind]. take_constants. unfold EqSimplifier_rewrite, compare_rewrite. see. apply gives_bool. }
  destruct (sorted cs) eqn:E; [now apply Hs|].
  set (cs' := sort_operands (commutative_order addr) cs).
  assert (Hpm : forall l, Permutation l cs -> adjustWidth OP_EQ l t = Ret t).
  { intros l Hl. destruct (compare_node OP_EQ t cs f eq_refl Hp) as (a & b & -> & _ & _ & Ia & Ib & Ew & _ & ->).
    apply Permutation_sym, Permutation_length_2_inv in Hl as [->| ->]; unfold adjustWidth; cbn [adjustWidth_op]; cbn_args;
      unfold require_args, integer_arg; rewrite Ia, Ib, Ew, Z.eqb_refl; reflexivity. }
  assert (Hp' : Pre (Node OP_EQ t cs' (adjustBitFlags 0 cs'))).
  { pose proof (proj1 (Pre_node _ _ _ _) Hp) as (Hw & _ & Hg & Hok). apply Pre_node. split; [assumption|].
    split; [apply Hpm, sort_operands_perm|]. unfold cs'. split; [now rewrite sort_operands_perm|].
    cbn [ok_node] in *. rewrite ints_Forall in *. now rewrite sort_operands_perm. }
  apply (folds_step _ (Node OP_EQ t cs' (adjustBitFlags 0 cs'))); [reflexivity| |apply Hs; [assumption| |now apply sorted_sort, constants_wt]].
  - exists O. cbn [simplify_step getOperator]. unfold orElse. rewrite commutative_constants, E by assumption. reflexivity.
  - unfold cs'. now rewrite sort_operands_perm.
Qed.

End Runs.
