(* ===== verification/SymFold.v ===== *)
(** Constant folding of the operators with any number of operands, and its
    theorem: [Interior::simplifyTop] turns an operator applied to constants
    into a constant.  Every round either finishes or leaves fewer operands, or
    as many and in order. *)
From S2P Require Import Prelude BitVector SymType SymExpr SymSimplify SymFuel SymEval SymGood SymAC SymSound SymBits SymShift SymTop SymTotal.
From Stdlib Require Import Permutation Morphisms Setoid.
Open Scope Z_scope.

#[export] Instance sum_widths_Proper : Proper (Permutation ==> eq) sum_widths.
Proof. intros l l' H. unfold sum_widths. induction H; cbn; lia. Qed.

Lemma sum_widths_nonneg cs : Forall Good cs -> 0 <= sum_widths cs.
Proof.
  induction 1 as [|c cs Hc _ IH]; [easy|]. pose proof (Good_width_pos c Hc). unfold sum_widths in *. cbn [map fold_right]. lia.
Qed.

Section Nary.
Variable addr : expr -> Z.
Variable s : option SmtSolver.
#[local] Notation folds := (folds addr s).
#[local] Notation sorted := (sorted addr).
#[local] Notation top k := (simplifyTop k addr).

(** * Rows of constants *)

(** The operands of a node of an associative operator. *)
Definition row (op : Operator) (t : type) (cs : list expr) : Prop :=
  (t = mkType INTEGER (nBits t) 0 /\ 0 < nBits t <= 32767 /\ width_bound op (nBits t)) /\
  cs <> [] /\ Forall (elem op (nBits t)) cs /\ Forall constant cs /\
  (same_type_op op = false -> sum_widths cs = nBits t).

Lemma Pre_row op t cs f : assoc_op op = true -> Pre (Node op t cs f) -> Forall constant cs -> row op t cs.
Proof.
  intros Hop Hp Hc. destruct (Pre_elems op t cs f Hop Hp) as (He & Ht & Hne & Hb).
  pose proof (proj1 (Pre_node _ _ _ _) Hp) as ((Hw & Hto) & Ha & _).
  split; [split; [now apply type_ok_integer|now split]|]. repeat (split; [assumption|]).
  intros Hs. destruct (assoc_cases op Hop) as [E|E]; [congruence|]. now apply (sum_width op cs t t) in Ha.
Qed.

Lemma row_width op t cs ty : assoc_op op = true -> row op t cs -> adjustWidth op cs ty = Ret t.
Proof.
  intros Hop ((Ht & Hw & _) & Hne & He & _ & Hs). unfold adjustWidth.
  destruct cs as [|c cs]; [easy|]. set (l := c :: cs) in *.
  enough (E : adjustWidth_op op l ty = Ret t).
  { rewrite E. cbn [obind]. now rewrite (proj2 (Z.eqb_neq _ _)) by lia. }
  assert (Hi : forallb isIntegerExpr l = true) by (apply forallb_Forall, (Forall_impl _ _ _ He); intros x Hx; apply Hx).
  assert (Hsum : same_type_op op = false -> type_integer (fold_left (fun n c => n + expr_nBits c) l 0) = Ret t).
  { intros E. rewrite total_width_widths. change (fold_right Z.add 0 (map expr_nBits l)) with (sum_widths l).
    rewrite (Hs E), Z.add_0_l, type_integer_ok by lia. now rewrite <- Ht. }
  destruct (same_type_op op) eqn:E.
  - rewrite same_type_width by assumption. unfold adjustWidth_default.
    assert (Hall : Forall (fun x => expr_type x = t) l).
    { apply (Forall_impl _ _ _ He). intros x (Gx & Ix & Wx). rewrite (Pre_integer_type x (Good_Pre x Gx) Ix), (Wx E). now rewrite <- Ht. }
    assert (E0 : expr_type (nth_arg l 0) = t) by (apply Forall_cons in Hall; apply Hall). rewrite E0.
    rewrite (proj2 (forallb_Forall _ _)); [reflexivity|]. apply (Forall_impl _ _ _ Hall). intros x Hx. now apply bool_decide_eq_true_2.
  - destruct (assoc_cases op Hop) as [E'|[->|[->| ->]]]; [congruence|..]; cbn [adjustWidth_op]; rewrite ?Hi; cbn [require_ obind]; now apply Hsum.
Qed.

Lemma row_Pre op t cs f : assoc_op op = true -> row op t cs -> Pre (Node op t cs f).
Proof.
  intros Hop Hr. pose proof (row_width op t cs t Hop Hr) as Ha. destruct Hr as ((Ht & Hw & Hb) & Hne & He & _ & _).
  apply Pre_node. split; [split; [assumption|now rewrite Ht]|]. split; [assumption|]. split; [now apply (elems_Good op (nBits t))|].
  now apply elems_ok.
Qed.

Lemma row_perm op t cs cs' : Permutation cs' cs -> row op t cs -> row op t cs'.
Proof.
  intros Hp (Ht & Hne & He & Hc & Hs). split; [assumption|]. split; [intros E; apply Hne; rewrite E in Hp; now apply Permutation_nil|].
  split; [now rewrite Hp|]. split; [now rewrite Hp|]. now rewrite (sum_widths_Proper _ _ Hp).
Qed.

Lemma row_sub op t cs cs' :
  same_type_op op = true -> cs' <> [] -> (forall c, c ∈ cs' -> c ∈ cs) -> row op t cs -> row op t cs'.
Proof.
  intros Hs Hne Hin (Ht & _ & He & Hc & _). split; [assumption|]. split; [assumption|].
  rewrite !Forall_forall in *. split; [|split; [|congruence]]; intros c Hc'; auto.
Qed.

Lemma row_operand op t cs c : row op t cs -> c ∈ cs -> elem op (nBits t) c /\ constant c.
Proof.
  intros (_ & _ & He & Hc & _) Hin. rewrite Forall_forall in He, Hc. auto.
Qed.

Lemma row_total op t cs : row op t cs -> same_type_op op = false -> total_width cs = nBits t.
Proof. intros (_ & _ & _ & _ & Hs) E. unfold total_width. rewrite total_width_widths. exact (Hs E). Qed.

(** * Folding the constants *)

Lemma fold_runs_constants fold run cs :
  Forall constant cs -> fold_runs fold run cs = fold_run fold (run ++ cs).
Proof.
  intros H. revert run. induction H as [|c cs [_ Hc] _ IH]; intros run; cbn [fold_runs]; [now rewrite app_nil_r|].
  now rewrite Hc, IH, <- app_assoc.
Qed.

(** A fold that gives a constant. *)
Definition total_fold (op : Operator) (fold : list expr -> outcome expr) : Prop :=
  forall t cs, row op t cs -> exists c, isConstant c = true /\ fold cs = Ret c.

Lemma foldConstants_row op fold t cs f :
  total_fold op fold -> row op t cs -> (2 <= length cs)%nat -> gives (foldConstants fold (Node op t cs f)).
Proof.
  intros Hf Hr Hl. destruct (Hf t cs Hr) as (c & Hc & E). unfold foldConstants. cbn [children].
  rewrite fold_runs_constants by apply Hr. rewrite app_nil_l. destruct cs as [|c1 [|c2 cs]]; [cbn in Hl; lia..|].
  cbn [fold_run]. rewrite E. now exists c.
Qed.

Lemma foldConstants_one op fold t c f : constant c -> foldConstants fold (Node op t [c] f) = Ret None.
Proof. intros [_ Hc]. unfold foldConstants. cbn. now rewrite Hc. Qed.

Lemma total_constant w v f : 0 < w <= 32767 -> exists c, isConstant c = true /\ makeIntegerConstant_bits w v f = Ret c.
Proof. intros Hw. rewrite makeIntegerConstant_bits_ok by assumption. now eexists. Qed.

Lemma row_run_width op t cs : same_type_op op = true -> row op t cs -> run_width cs = nBits t.
Proof. intros Hs (_ & Hne & He & _). destruct cs as [|c cs]; [easy|]. apply Forall_cons in He as [(_ & _ & Hw) _]. now apply Hw. Qed.

Lemma product_width (mul : Z -> Z -> Z -> Z -> Z) cs W p : (fold_left (fun '(w, p) c => (w + expr_nBits c, mul w p (expr_nBits c) (leaf_bits c))) cs (W, p)).1 = W + sum_widths cs.
Proof.
  revert W p. induction cs as [|c cs IH]; intros W p; cbn [fold_left]; [cbn; lia|]. rewrite IH. unfold sum_widths. cbn. lia.
Qed.

Lemma same_fold_total op fold :
  same_type_op op = true -> (forall cs, exists v f, fold cs = makeIntegerConstant_bits (run_width cs) v f) -> total_fold op fold.
Proof.
  intros Hs Hf t cs Hr. destruct (Hf cs) as (v & f & ->). rewrite (row_run_width op t cs Hs Hr). apply total_constant, Hr.
Qed.

Lemma product_total op mul :
  same_type_op op = false ->
  total_fold op (fun cs => let (w, p) := product mul cs in makeIntegerConstant_bits w p (fold_flags cs)).
Proof.
  intros Hs t cs Hr. destruct cs as [|c cs]; [now destruct Hr as (_ & ? & _)|].
  destruct (product mul (c :: cs)) as [w p] eqn:E.
  assert (Ew : w = nBits t).
  { destruct Hr as (_ & _ & _ & _ & Hr). rewrite <- (Hr Hs). change w with (w, p).1. rewrite <- E. unfold product. cbn [tail].
    now rewrite product_width. }
  subst w. apply total_constant, Hr.
Qed.

Lemma concat_total : total_fold OP_CONCAT ConcatSimplifier_fold.
Proof.
  intros t cs Hr. unfold ConcatSimplifier_fold. rewrite (row_total OP_CONCAT t cs Hr eq_refl).
  destruct (fold_left _ cs _) as [a b]. apply total_constant, Hr.
Qed.

Lemma add_total : total_fold OP_ADD AddSimplifier_fold.
Proof. apply same_fold_total; [reflexivity|]. intros cs. do 2 eexists. reflexivity. Qed.
Lemma and_total : total_fold OP_AND AndSimplifier_fold.
Proof. apply same_fold_total; [reflexivity|]. intros cs. do 2 eexists. reflexivity. Qed.
Lemma or_total : total_fold OP_OR OrSimplifier_fold.
Proof. apply same_fold_total; [reflexivity|]. intros cs. do 2 eexists. reflexivity. Qed.
Lemma xor_total : total_fold OP_XOR XorSimplifier_fold.
Proof. apply same_fold_total; [reflexivity|]. intros cs. do 2 eexists. reflexivity. Qed.
Lemma umul_total : total_fold OP_UMUL UmulSimplifier_fold.
Proof. apply product_total. reflexivity. Qed.
Lemma smul_total : total_fold OP_SMUL SmulSimplifier_fold.
Proof. apply product_total. reflexivity. Qed.

(** * The passes *)

(** The result of a pass over [n] constants: nothing, a constant, or fewer
    constants. *)
Definition shrinks (op : Operator) (t : type) (n : nat) (r : option expr) : Prop :=
  match r with
  | None => True
  | Some e =>
      isConstant e = true \/
      same_type_op op = true /\ exists cs f, e = Node op t cs f /\ row op t cs /\ (length cs < n)%nat
  end.

(** A pass that shrinks every row, given enough fuel. *)
Definition shrinking (op : Operator) (t : type) (p : nat -> expr -> outcome (option expr)) : Prop :=
  forall cs f, row op t cs -> exists k r, p k (Node op t cs f) = Ret r /\ shrinks op t (length cs) r.

Lemma shrinks_le op t n m r : (n <= m)%nat -> shrinks op t n r -> shrinks op t m r.
Proof. intros Hn. destruct r as [e|]; [|easy]. intros [H|(Hs & cs & f & E & Hr & Hl)]; [now left|right]. split; [assumption|]. exists cs, f. split; [assumption|]. split; [assumption|lia]. Qed.

Lemma filter_le {A} (p : A -> bool) l : (length (List.filter p l) <= length l)%nat.
Proof. induction l as [|x l IH]; cbn; [lia|]. destruct (p x); cbn; lia. Qed.

Lemma same_type_assoc op : same_type_op op = true -> assoc_op op = true.
Proof. now destruct op. Qed.

Lemma identity_same op t ident :
  same_type_op op = true -> shrinking op t (fun k => identity (top k) s ident).
Proof.
  intros Hs cs f Hr. exists O. unfold identity. cbn [children getOperator].
  change (expr_nBits (Node op t cs f)) with (nBits t).
  set (keep := fun c => negb (is_identity ident c)). pose proof (filter_le keep cs) as Hle.
  destruct (length (List.filter keep cs) =? length cs)%nat eqn:E; [exists None; now split|]. apply Nat.eqb_neq in E.
  assert (Hin : forall c, c ∈ List.filter keep cs -> c ∈ cs).
  { intros c Hc. apply list_elem_of_In in Hc. apply list_elem_of_In. now apply filter_In in Hc. }
  destruct (List.filter keep cs) as [|c [|c' l]] eqn:El.
  - unfold some. rewrite makeIntegerConstant_ok by apply Hr. eexists. split; [reflexivity|]. now left.
  - assert (Hc : elem op (nBits t) c /\ constant c) by (apply (row_operand op t cs c Hr), Hin; constructor).
    destruct Hc as [(_ & _ & Hw) Hc]. rewrite (Hw Hs), Z.eqb_refl. eexists. split; [reflexivity|]. left. now apply constant_leaf.
  - assert (Hr' : row op t (c :: c' :: l)) by (apply (row_sub op t cs); [assumption|easy|assumption|assumption]).
    unfold interior. rewrite (row_width op t _ type_none (same_type_assoc op Hs) Hr'). cbn [obind].
    eexists. split; [reflexivity|]. unfold expr_nBits. cbn [expr_type]. rewrite Z.eqb_refl. right. split; [assumption|].
    do 2 eexists. split; [reflexivity|]. split; [assumption|lia].
Qed.

Lemma mustEqual_constants a b : constant a -> constant b -> exists r, mustEqual s a b = Ret r.
Proof.
  intros [_ Ha] [_ Hb]. unfold mustEqual, mustEqual_leaf.
  assert (Hi : forall c, isIntegerConstant c = true -> isInterior c = false /\ isConstant c = true)
    by (intros c H; unfold isIntegerConstant in H; apply andb_true_iff in H as [_ H]; now destruct c).
  destruct (Hi a Ha) as [-> Ca], (Hi b Hb) as [Ib Cb]. rewrite Ib, Ca, Cb, Ha, Hb. cbn [andb].
  destruct (expr_eqb a b); [eauto|]. destruct (negb _); eauto.
Qed.

Lemma drop_repeated_constants prev cs :
  constant prev -> Forall constant cs ->
  exists cs', drop_repeated s prev cs = Ret cs' /\ (length cs' <= length cs)%nat /\ forall c, c ∈ cs' -> c ∈ cs.
Proof.
  intros Hp Hc. revert prev Hp. induction Hc as [|c cs Hc Hcs IH]; intros prev Hp; cbn [drop_repeated]; [now exists []|].
  destruct (mustEqual_constants prev c Hp Hc) as ([|] & ->); cbn [obind].
  - destruct (IH prev Hp) as (cs' & -> & Hl & Hin). exists cs'. split; [reflexivity|]. split; [cbn; lia|]. intros x Hx. right. auto.
  - destruct (IH c Hc) as (cs' & -> & Hl & Hin). exists (c :: cs'). split; [reflexivity|]. split; [cbn; lia|].
    intros x Hx. apply elem_of_cons in Hx as [->|Hx]; [left|right; auto].
Qed.

Lemma idempotent_same op t : same_type_op op = true -> shrinking op t (fun _ => idempotent s).
Proof.
  intros Hs cs f Hr. exists O. unfold idempotent. cbn [children].
  destruct cs as [|c cs]; [now destruct Hr as (_ & ? & _)|]. pose proof Hr as (_ & _ & _ & Hc & _). apply Forall_cons in Hc as [Hc Hcs].
  destruct (drop_repeated_constants c cs Hc Hcs) as (cs' & -> & Hl & Hin). cbn [obind].
  destruct (length cs' =? length cs)%nat eqn:E; [exists None; now split|]. apply Nat.eqb_neq in E.
  assert (Hr' : row op t (c :: cs')).
  { apply (row_sub op t (c :: cs)); [assumption|easy| |assumption]. intros x Hx. apply elem_of_cons in Hx as [->|Hx]; [left|right; auto]. }
  rewrite rebuild_ok by exact (row_width op t _ t (same_type_assoc op Hs) Hr').
  eexists. split; [reflexivity|]. right. split; [assumption|]. do 2 eexists. split; [reflexivity|]. split; [assumption|]. cbn [length]. lia.
Qed.

(** A pass after another; the second leaves constants alone. *)
Lemma andThen_shrinking op t p q :
  shrinking op t (fun _ => p) -> shrinking op t q -> (forall k c, isConstant c = true -> q k c = Ret None) ->
  shrinking op t (fun k => andThen p (q k)).
Proof.
  intros Hp Hq Hc cs f Hr. destruct (Hp cs f Hr) as (_ & r & Er & Hs). unfold andThen. setoid_rewrite Er. cbn [obind].
  destruct r as [e|]; [|now apply Hq]. destruct Hs as [He|(Hst & cs' & f' & -> & Hr' & Hl)].
  - exists O, (Some e). rewrite (Hc O e He). split; [reflexivity|now left].
  - destruct (Hq cs' f' Hr') as (k & r & E & Hs). exists k. rewrite E. eexists. split; [reflexivity|].
    destruct r as [e|]; cbn [default from_option id]; [exact (shrinks_le op t (length cs') (length cs) (Some e) ltac:(lia) Hs)|].
    right. split; [assumption|]. exists cs', f'. split; [reflexivity|]. split; [assumption|lia].
Qed.

Lemma identity_leaf ident k c : isConstant c = true -> identity (top k) s ident c = Ret None.
Proof. now destruct c. Qed.

(** The idempotent operators. *)
Lemma meet_shrinking op t ident :
  same_type_op op = true -> shrinking op t (fun k => andThen (idempotent s) (identity (top k) s ident)).
Proof.
  intros Hs. apply andThen_shrinking; [now apply idempotent_same|now apply identity_same|]. intros k c. apply identity_leaf.
Qed.

(** The identity of a product, whose operands may be narrower than it. *)
Lemma identity_umul t : shrinking OP_UMUL t (fun k => identity (top k) s 1).
Proof.
  intros cs f Hr. unfold identity. cbn [children getOperator]. change (expr_nBits (Node OP_UMUL t cs f)) with (nBits t).
  set (keep := fun c => negb (is_identity 1 c)). pose proof Hr as ((Ht & Hw & Hb) & Hne & He & Hc & Hs). specialize (Hs eq_refl).
  destruct (length (List.filter keep cs) =? length cs)%nat eqn:E; [exists O, None; now split|]. apply Nat.eqb_neq in E.
  assert (Hin : forall c, c ∈ List.filter keep cs -> c ∈ cs).
  { intros c Hc'. apply list_elem_of_In in Hc'. apply list_elem_of_In. now apply filter_In in Hc'. }
  assert (Hsum : sum_widths (List.filter keep cs) < sum_widths cs).
  { clear -E Hc. apply constants_Good in Hc. induction Hc as [|c cs Gc Hc IH]; [easy|]. pose proof (Good_width_pos c Gc).
    pose proof (filter_widths keep cs Hc). unfold sum_widths in *. cbn [List.filter] in *.
    destruct (keep c); cbn [length map fold_right] in *; [|lia]. specialize (IH ltac:(lia)). lia. }
  assert (Hnar : Forall constant (List.filter keep cs)).
  { rewrite Forall_forall in *. intros c Hc'. auto. }
  destruct (List.filter keep cs) as [|c [|c' l]] eqn:El.
  - exists O. unfold some. rewrite makeIntegerConstant_ok by assumption. eexists. split; [reflexivity|]. now left.
  - pose proof (proj1 (Forall_singleton _ _) Hnar) as Cc. destruct (Z.eqb_spec (expr_nBits c) (nBits t)); cbn [negb].
    + exists O, (Some c). split; [reflexivity|]. left. now apply constant_leaf.
    + cbn [width_bound] in Hb. 
      destruct (offset_constant 8 (nBits t) 0 ltac:(lia) ltac:(change (2 ^ 8) with 256; lia)) as (width & En & On & Cn). rewrite En. cbn [obind].
      destruct (makeExtend_constant addr s (nBits t) width c 0 Hw On Cn Cc) as (k & x & Hx & Hk). exists k. unfold some. rewrite Hk by lia.
      eexists. split; [reflexivity|]. now left.
  - exists O. set (args := c :: c' :: l) in *.
    assert (Hpos : 0 < sum_widths args).
    { apply constants_Good in Hnar. unfold args in *. apply Forall_cons in Hnar as [Gc Hnar]. apply Forall_cons in Hnar as [Gc' Hnar].
      pose proof (Good_width_pos c Gc). pose proof (Good_width_pos c' Gc'). pose proof (sum_widths_nonneg l Hnar).
      unfold sum_widths in *. cbn [map fold_right]. lia. }
    assert (Hr' : row OP_UMUL (mkType INTEGER (sum_widths args) 0) args).
    { split; [cbn [nBits width_bound] in *; split; [reflexivity|lia]|]. split; [easy|]. split; [|split; [assumption|reflexivity]].
      rewrite Forall_forall in *. intros x Hx. specialize (He x (Hin x Hx)). destruct He as (G & I & _). split; [assumption|]. now split. }
    unfold interior. rewrite (row_width OP_UMUL _ args type_none eq_refl Hr'). cbn [obind].
    exists None. split; [|exact I]. change (type_isValid type_none) with false. cbn [negb orb require_ obind].
    change (expr_nBits (Node OP_UMUL _ args _)) with (sum_widths args). now rewrite (proj2 (Z.eqb_neq _ _)) by lia.
Qed.

Lemma foldConstants_shrinking op t fold : total_fold op fold -> shrinking op t (fun _ => foldConstants fold).
Proof.
  intros Hf cs f Hr. exists O. destruct cs as [|c [|c' cs]].
  - now destruct Hr as (_ & ? & _).
  - exists None. split; [|exact I]. apply foldConstants_one. destruct Hr as (_ & _ & _ & H & _). exact (proj1 (Forall_singleton _ _) H).
  - destruct (foldConstants_row op fold t (c :: c' :: cs) f Hf Hr ltac:(cbn; lia)) as (x & Hx & ->). exists (Some x). split; [reflexivity|now left].
Qed.

(** * The rounds *)

(** What one round leaves: fewer operands, or as many and in order. *)
Definition progress (op : Operator) (t : type) (cs : list expr) (e : expr) : Prop :=
  isConstant e = true \/
  exists cs' f, e = Node op t cs' f /\ row op t cs' /\
    ((same_type_op op = true /\ (length cs' < length cs)%nat) \/ (length cs' = length cs /\ sorted cs = false /\ sorted cs' = true)).

Lemma associative_constants op t cs f : Forall constant cs -> associative (Node op t cs f) = Ret None.
Proof.
  intros H. unfold associative. cbn [children getOperator].
  replace (existsb _ cs) with false; [reflexivity|]. symmetry. induction H as [|c cs [_ Hc] _ IH]; [reflexivity|].
  cbn [existsb]. unfold isIntegerConstant in Hc. apply andb_true_iff in Hc as [_ Hc]. now destruct c.
Qed.

Lemma sorted_flat_progress op t p cs f :
  assoc_op op = true -> shrinking op t p -> row op t cs ->
  exists k r, sorted_flat addr (p k) (Node op t cs f) = Ret r /\ match r with None => True | Some e => progress op t cs e end.
Proof.
  intros Hop Hp Hr. unfold sorted_flat, andThen at 1. rewrite associative_constants by apply Hr. cbn [obind]. unfold andThen.
  rewrite commutative_constants by (intros l Hl; apply row_width; [assumption|now apply (row_perm op t cs)]).
  destruct (sorted cs) eqn:Es; cbn [obind].
  - destruct (Hp cs f Hr) as (k & r & E & Hs). exists k, r. split; [assumption|]. destruct r as [e|]; [|exact I].
    destruct Hs as [He|(Hst & cs' & f' & -> & Hr' & Hl)]; [now left|right]. exists cs', f'. auto.
  - set (cs1 := sort_operands _ cs). set (f1 := adjustBitFlags 0 cs1).
    assert (Hpm : Permutation cs1 cs) by apply sort_operands_perm.
    pose proof (row_perm op t cs cs1 Hpm Hr) as Hr1. pose proof (Permutation_length Hpm) as Hl1.
    assert (Hs1 : sorted cs1 = true) by (apply sorted_sort, constants_wt; apply Hr).
    destruct (Hp cs1 f1 Hr1) as (k & r & E & Hs). exists k. rewrite E. cbn [obind]. eexists. split; [reflexivity|].
    destruct r as [e|]; cbn [default from_option id].
    + destruct Hs as [He|(Hst & cs' & f' & -> & Hr' & Hl)]; [now left|right]. exists cs', f'. rewrite Hl1 in Hl. auto.
    + right. exists cs1, f1. auto 7.
Qed.

(** ** The passes that finish a row in order *)

Lemma cancel_duals_constants w n cs adjustment :
  Forall (fun c => constant c /\ expr_nBits c = w) cs -> (length cs <= n)%nat ->
  cancel_duals w n (map Some cs) adjustment = Ret (cs, adjustment, false).
Proof.
  intros Hc. revert n. induction Hc as [|c cs [Hc Hw] Hcs IH]; intros n Hn; [destruct n; reflexivity|].
  destruct n as [|n]; [cbn in Hn; lia|]. cbn [map cancel_duals].
  assert (Hd : cancel_dual w c (map Some cs) adjustment = Ret None).
  { clear IH Hn. induction Hcs as [|d cs [Hd Hwd] _ IH]; [reflexivity|]. cbn [map cancel_dual].
    assert (E : are_duals c d adjustment w = Ret None).
    { unfold are_duals. rewrite Hw, Hwd, Z.eqb_refl. cbn [require_ obind].
      destruct (constant_form c Hc) as (? & ? & ? & -> & _), (constant_form d Hd) as (? & ? & ? & -> & _). reflexivity. }
    rewrite E. cbn [obind]. now rewrite IH. }
  rewrite Hd. cbn [obind]. rewrite IH by (cbn in Hn; lia). reflexivity.
Qed.

Lemma distribute_negations_constants k cs :
  Forall constant cs -> distribute_negations (top k) s cs = Ret (cs, false).
Proof.
  induction 1 as [|c cs Hc _ IH]; [reflexivity|]. destruct (constant_form c Hc) as (? & ? & ? & -> & _).
  cbn [distribute_negations negated_sum children]. now rewrite IH.
Qed.

Lemma AddSimplifier_constants k t cs f :
  row OP_ADD t cs -> AddSimplifier_rewrite (top k) s (Node OP_ADD t cs f) = Ret None.
Proof.
  intros Hr. pose proof Hr as (_ & _ & He & Hc & _). unfold AddSimplifier_rewrite, hoist_ite. cbn [children].
  change (expr_nBits (Node OP_ADD t cs f)) with (nBits t).
  replace (match cs with [a; b] => _ | _ => None end) with (@None (outcome expr)).
  2:{ destruct cs as [|a [|b [|c cs]]]; try reflexivity. apply Forall_cons in Hc as [Ha Hc]. apply Forall_cons in Hc as [Hb _].
      destruct (constant_form a Ha) as (? & ? & ? & -> & _), (constant_form b Hb) as (? & ? & ? & -> & _). reflexivity. }
  rewrite cancel_duals_constants; [|apply Forall_and; split; [assumption|]|lia].
  2:{ apply (Forall_impl _ _ _ He). intros c (_ & _ & Hw). now apply Hw. }
  cbn [obind negb]. now rewrite distribute_negations_constants.
Qed.

Lemma AndSimplifier_one t c f : 0 < nBits t <= 32767 -> constant c -> gives (AndSimplifier_rewrite (Node OP_AND t [c] f)).
Proof.
  intros Ht Hc. unfold AndSimplifier_rewrite. cbn [children List.find]. destruct (is_zero c); [now apply gives_integer|].
  cbn. apply gives_operand. now apply constant_leaf.
Qed.

Lemma OrSimplifier_one k t c f : 0 < nBits t <= 32767 -> constant c -> gives (OrSimplifier_rewrite (top k) s (Node OP_OR t [c] f)).
Proof.
  intros Ht Hc. pose proof (constant_leaf c Hc) as Hl. destruct (constant_form c Hc) as (w & v & g & -> & Hw & Hv).
  unfold OrSimplifier_rewrite. cbn [children List.filter]. destruct (is_zero _); cbn [negb List.find remaining]; [now apply gives_integer|].
  destruct (is_all_set _); [now apply gives_constant|now apply gives_operand].
Qed.

Lemma XorSimplifier_one k t c f : 0 < nBits t <= 32767 -> constant c -> gives (XorSimplifier_rewrite (top k) s (Node OP_XOR t [c] f)).
Proof.
  intros Ht Hc. unfold XorSimplifier_rewrite. cbn [children length cancel_pairs remove_equal].
  destruct (is_zero c); cbn [obind remaining]; [now apply gives_integer|]. apply gives_operand. now apply constant_leaf.
Qed.

Lemma ConcatSimplifier_one k t c f : constant c -> gives (ConcatSimplifier_rewrite (top k) s (Node OP_CONCAT t [c] f)).
Proof.
  intros Hc. destruct (constant_form c Hc) as (w & v & g & -> & Hw & Hv). unfold ConcatSimplifier_rewrite. cbn.
  unfold newFlags. cbn [expr_flags]. destruct (f =? g); [now apply gives_operand|].
  unfold some, makeConstant, createConstant. cbn [nBits]. rewrite Z.eqb_refl, (proj2 (Z.eqb_neq w 0)) by lia. now apply gives_operand.
Qed.

Lemma gives_progress op t cs m : gives m -> exists e, m = Ret (Some e) /\ progress op t cs e.
Proof. intros (c & Hc & ->). exists c. split; [reflexivity|now left]. Qed.

(** One of two passes makes progress, if the second does when the first answers
    nothing. *)
Lemma orElse_progress op t cs f (p q : nat -> expr -> outcome (option expr)) :
  (exists k r, p k (Node op t cs f) = Ret r /\ match r with None => True | Some e => progress op t cs e end) ->
  (forall k, exists e, q k (Node op t cs f) = Ret (Some e) /\ progress op t cs e) ->
  exists k e, orElse (p k) (q k) (Node op t cs f) = Ret (Some e) /\ progress op t cs e.
Proof.
  intros (k & r & E & Hr) Hq. exists k. unfold orElse. rewrite E. cbn [obind]. destruct r as [e|]; [now exists e|]. apply Hq.
Qed.

Lemma folding_then op t cs f fold (q : expr -> outcome (option expr)) :
  total_fold op fold -> row op t cs -> (forall c, cs = [c] -> constant c -> gives (q (Node op t cs f))) ->
  exists e, orElse (foldConstants fold) q (Node op t cs f) = Ret (Some e) /\ progress op t cs e.
Proof.
  intros Hf Hr Hq. apply gives_progress. destruct cs as [|c [|c' cs]].
  - now destruct Hr as (_ & ? & _).
  - assert (Hc : constant c) by (destruct Hr as (_ & _ & _ & H & _); exact (proj1 (Forall_singleton _ _) H)).
    unfold orElse. rewrite foldConstants_one by assumption. cbn [obind]. now apply (Hq c).
  - unfold orElse. destruct (foldConstants_row op fold t (c :: c' :: cs) f Hf Hr ltac:(cbn; lia)) as (x & Hx & ->). now apply gives_operand.
Qed.

Lemma nary_round op t cs f :
  assoc_op op = true -> foldable op cs = true -> row op t cs ->
  exists k e, simplify_step (top k) s addr (Node op t cs f) = Ret (Some e) /\ progress op t cs e.
Proof.
  intros Hop Hf Hr. pose proof Hr as ((_ & Ht & _) & _). destruct op; try discriminate Hop; cbn [simplify_step getOperator].
  - (* ADD *) unfold orElse at 1. setoid_rewrite AddSimplifier_constants; [|assumption]. cbn [obind].
    apply (orElse_progress OP_ADD t cs f (fun k => sorted_flat addr (identity (top k) s 0)) (fun _ => orElse unaryNoOp (foldConstants AddSimplifier_fold))).
    + apply (sorted_flat_progress OP_ADD t (fun k => identity (top k) s 0)); [reflexivity|now apply identity_same|assumption].
    + intros _. apply gives_progress. unfold orElse, unaryNoOp. cbn [children]. destruct cs as [|c [|c' cs]]; cbn [obind].
      * now destruct Hr as (_ & ? & _).
      * apply gives_operand, constant_leaf. destruct Hr as (_ & _ & _ & H & _). exact (proj1 (Forall_singleton _ _) H).
      * apply (foldConstants_row OP_ADD _ t); [exact add_total|assumption|cbn; lia].
  - (* AND *)
    apply (orElse_progress OP_AND t cs f (fun k => sorted_flat addr (andThen (idempotent s) (identity (top k) s (2 ^ 64 - 1))))
      (fun _ => orElse (foldConstants AndSimplifier_fold) AndSimplifier_rewrite)).
    + apply (sorted_flat_progress OP_AND t (fun k => andThen (idempotent s) (identity (top k) s (2 ^ 64 - 1)))); [reflexivity| |assumption].
      now apply meet_shrinking.
    + intros _. apply folding_then; [exact and_total|assumption|]. intros c -> Hc. now apply AndSimplifier_one.
  - (* CONCAT *) exists O. unfold orElse at 1. unfold andThen. rewrite associative_constants by apply Hr. cbn [obind].
    apply (folding_then OP_CONCAT t cs f); [exact concat_total|assumption|]. intros c -> Hc. now apply ConcatSimplifier_one.
  - (* OR *)
    apply (orElse_progress OP_OR t cs f (fun k => sorted_flat addr (andThen (idempotent s) (identity (top k) s 0)))
      (fun k => orElse (foldConstants OrSimplifier_fold) (OrSimplifier_rewrite (top k) s))).
    + apply (sorted_flat_progress OP_OR t (fun k => andThen (idempotent s) (identity (top k) s 0))); [reflexivity| |assumption].
      now apply meet_shrinking.
    + intros k. apply folding_then; [exact or_total|assumption|]. intros c -> Hc. now apply OrSimplifier_one.
  - (* SMUL *)
    cbn [foldable] in Hf. apply Nat.leb_le in Hf.
    destruct (sorted_flat_progress OP_SMUL t (fun _ => foldConstants SmulSimplifier_fold) cs f eq_refl
      (foldConstants_shrinking OP_SMUL t _ smul_total) Hr) as (k & r & E & Hp). exists k.
    destruct r as [e|]; [exists e; now split|]. exfalso.
    revert E. unfold sorted_flat, andThen at 1. rewrite associative_constants by apply Hr. cbn [obind]. unfold andThen.
    rewrite commutative_constants by (intros l Hl; apply row_width; [reflexivity|now apply (row_perm OP_SMUL t cs)]).
    destruct (sorted cs); cbn [obind]; [|intros E; inv_outcome; discriminate].
    destruct (foldConstants_row OP_SMUL _ t cs f smul_total Hr Hf) as (x & _ & ->). discriminate.
  - (* UMUL *)
    cbn [foldable] in Hf. apply Nat.leb_le in Hf.
    apply (orElse_progress OP_UMUL t cs f (fun k => sorted_flat addr (identity (top k) s 1)) (fun _ => foldConstants UmulSimplifier_fold)).
    + apply (sorted_flat_progress OP_UMUL t (fun k => identity (top k) s 1)); [reflexivity|apply identity_umul|assumption].
    + intros _. apply gives_progress. apply (foldConstants_row OP_UMUL _ t); [exact umul_total|assumption|assumption].
  - (* XOR *)
    apply (orElse_progress OP_XOR t cs f (fun k => sorted_flat addr (identity (top k) s 0))
      (fun k => orElse (foldConstants XorSimplifier_fold) (XorSimplifier_rewrite (top k) s))).
    + apply (sorted_flat_progress OP_XOR t (fun k => identity (top k) s 0)); [reflexivity|now apply identity_same|assumption].
    + intros k. apply folding_then; [exact xor_total|assumption|]. intros c -> Hc. now apply XorSimplifier_one.
Qed.

(** The operands still to go, and whether they are in order. *)
Definition work (cs : list expr) : nat := 2 * length cs + (if sorted cs then 0 else 1).

Lemma nary_folds op t cs f :
  assoc_op op = true -> foldable op cs = true -> row op t cs -> folds (Node op t cs f).
Proof.
  intros Hop. remember (work cs) as n eqn:En. revert cs f En. induction (Nat.lt_wf_0 n) as [n _ IH]. intros cs f -> Hf Hr.
  destruct (nary_round op t cs f Hop Hf Hr) as (k & e & E & Hp).
  apply (folds_step addr s _ e); [reflexivity|now exists k|]. destruct Hp as [He|(cs' & f' & -> & Hr' & Hp)]; [now apply folds_const|].
  assert (Hf' : foldable op cs' = true).
  { destruct Hp as [[Hs _]|(Hl & _)]; [|destruct op; try discriminate Hop; cbn [foldable] in *; congruence].
    destruct op; try discriminate Hs; reflexivity. }
  refine (IH (work cs') _ cs' f' eq_refl Hf' Hr'). unfold work.
  destruct Hp as [[_ Hl]|(-> & -> & ->)]; [|lia]. destruct (sorted cs), (sorted cs'); lia.
Qed.

End Nary.

(** * Every operator *)

Lemma constants_folds addr s op t cs f :
  Pre (Node op t cs f) -> Forall constant cs -> foldable op cs = true -> folds addr s (Node op t cs f).
Proof.
  intros Hp Hc Hf. destruct (assoc_op op) eqn:Ea; [now apply nary_folds, (Pre_row op t cs f)|].
  destruct (shift_op op) eqn:Es; [now apply shift_folds|].
  destruct (division_op op) eqn:Ed; [now apply division_folds|].
  destruct (unary_fold op) eqn:Eu; [now apply unary_folds|].
  destruct (compare_op op) eqn:Ec.
  - destruct (op_eqb op OP_EQ) eqn:Ee; [apply op_eqb_spec in Ee as ->; now apply eq_folds|].
    apply ordered_compare_folds; try assumption; intros ->; discriminate.
  - destruct op; try discriminate;
      first [now apply convert_folds | now apply extract_folds | now apply ite_folds | apply extension_folds; tauto].
Qed.

(** C2. The simplifier terminates on constants and finishes its job: an
    operator applied to integer constants, however many and in whatever order,
    becomes the constant that is the value of the operator on them, for every
    operator the code folds ([foldable]: all the integer operators but [OP_NE],
    with at least two operands for a product and one for [OP_NOOP], a rotation by at most 64 bits of amount, and a quotient
    or remainder of at most 64 bits whose divisor is not zero and that does not
    overflow), on a node that is well typed and within the limits that [Pre]
    puts on the simplifier: a conjunction of at most 64 bits, an unsigned product of at
    most 255, a shift that brings in ones of at most 64 bits, an arithmetic shift by an
    amount of at most 64 bits of width, and an extraction within its operand.
    ([SymLimits] has the runs that are wrong outside of these.) *)
Theorem constants_fold uf env addr s op t cs f :
  solver_agrees uf env s -> Pre (Node op t cs f) -> Forall constant cs -> foldable op cs = true ->
  exists n g, simplifyTop n addr s (Node op t cs f) = Ret (Const t (eval_list uf env op (nBits t) cs) g).
Proof.
  intros Hs Hp Hc Hf. destruct (constants_folds addr s op t cs f Hp Hc Hf) as (c & Hcc & n & Hn).
  destruct (simplifyTop_sound uf (fun e => e = env) addr n s (Node op t cs f) c) as (_ & Ht & Hv); [now intros ? ->|assumption|assumption|].
  apply isConstant_inv in Hcc as (t' & v & g & ->). cbn [expr_type] in Ht. subst t'.
  specialize (Hv env eq_refl). rewrite eval_node in Hv. cbn [eval] in Hv. subst v. now exists n, g.
Qed.

(** Four bytes out of order; the sum wraps around. *)
Theorem constants_fold_witness :
  let byte v := Const (mkType INTEGER 8 0) v 0 in
  exists n g, simplifyTop n (fun _ => 0) None (Node OP_ADD (mkType INTEGER 8 0) [byte 200; byte 0; byte 99; byte 7] 0) =
    Ret (Const (mkType INTEGER 8 0) 50 g).
Proof.
  assert (H : forall v, 0 <= v < 2 ^ 8 -> constant (Const (mkType INTEGER 8 0) v 0)).
  { intros v Hv. split; [|reflexivity]. split; [split; [cbn; lia|exact Hv]|reflexivity]. }
  intros byte.
  apply (constants_fold (fun _ _ _ => 0) (fun _ => 0) (fun _ => 0) None OP_ADD (mkType INTEGER 8 0) [byte 200; byte 0; byte 99; byte 7] 0).
  - discriminate.
  - apply Pre_node. split; [split; [cbn; lia|reflexivity]|]. split; [reflexivity|]. split; [|reflexivity].
    repeat (constructor; [apply H; lia|]). constructor.
  - repeat (constructor; [apply H; lia|]). constructor.
  - reflexivity.
Defined.
