(* ===== verification/SymMake.v ===== *)
(** The builders of expressions that users of the library call
    ([src/Rose/BinaryAnalysis/SymbolicExpression.C], "Factory functions"), and
    what they build.  A builder calls [Interior::instance], hence the simplifier;
    its theorems are proved against the simplifier's contract
    ([SoundSimplifier]), which [Interior::simplifyTop] fulfils. *)
From S2P Require Import Prelude BitVector SymType SymExpr SymSimplify SymEval SymGood SymAC SymSound SymBits SymAdd SymShift SymTop.
Open Scope Z_scope.

(** * The builders *)

Section Make.
Variable simplify : option SmtSolver -> expr -> outcome expr.
Variable solver : option SmtSolver.
#[local] Notation makeExtract := (makeExtract simplify solver).
#[local] Notation makeIte := (makeIte simplify solver).
#[local] Notation makeAdd := (makeAdd simplify solver).
#[local] Notation makeNegate := (makeNegate simplify solver).

(** [Interior::instance] with a type, and with one to three operands. *)
Definition node (ty : type) (op : Operator) (cs : list expr) (flags : Z) : outcome expr :=
  instance simplify solver ty op cs flags.
Definition node1 (op : Operator) (a : expr) (flags : Z) : outcome expr := node type_none op [a] flags.
Definition node2 (op : Operator) (a b : expr) (flags : Z) : outcome expr := node type_none op [a; b] flags.
Definition node3 (op : Operator) (a b c : expr) (flags : Z) : outcome expr := node type_none op [a; b; c] flags.

Definition both_fp (a b : expr) : bool := isFloatingPointExpr a && isFloatingPointExpr b.

(** The floating point operator when both operands are floating point. *)
Definition fp_or_int (fop op : Operator) (a b : expr) (flags : Z) : outcome expr :=
  if both_fp a b then node2 fop a b flags else node2 op a b flags.

(** A number as a constant of the width of an operand. *)
Definition constant_like (a : expr) (n : Z) : outcome expr := makeIntegerConstant (expr_nBits a) n 0.

(** ** Arithmetic *)

Definition makeAdd_int (a : expr) (b flags : Z) : outcome expr :=
  let! c := constant_like a b in makeAdd a c flags.
Definition makeSubtract (a b : expr) (flags : Z) : outcome expr :=
  let! n := makeNegate b 0 in makeAdd a n flags.
(** The overload that takes a number adds it. *)
Definition makeSubtract_int (a : expr) (b flags : Z) : outcome expr :=
  let! c := constant_like a b in makeAdd a c flags.
Definition makeMul := fp_or_int OP_FP_MUL OP_UMUL.
Definition makeMul_int (a : expr) (b flags : Z) : outcome expr :=
  let! c := constant_like a b in makeMul a c flags.
Definition makeSignedMul := fp_or_int OP_FP_MUL OP_SMUL.
Definition makeDiv := fp_or_int OP_FP_DIV OP_UDIV.
Definition makeSignedDiv := fp_or_int OP_FP_DIV OP_SDIV.
Definition makeMod := fp_or_int OP_FP_MOD OP_UMOD.
Definition makeMod_int (a : expr) (b flags : Z) : outcome expr :=
  let! c := constant_like a b in makeMod a c flags.
Definition makeSignedMod := fp_or_int OP_FP_MOD OP_SMOD.
Definition makeMultiplyAdd (a b c : expr) (flags : Z) : outcome expr :=
  if isFloatingPointExpr a && isFloatingPointExpr b && isFloatingPointExpr c then node3 OP_FP_MULADD a b c flags
  else let! p := makeSignedMul a b 0 in makeAdd p c flags.

(** ** Bits *)

Definition makeBooleanAnd (a b : expr) (flags : Z) : outcome expr := node2 OP_AND a b flags.
Definition makeBooleanOr (a b : expr) (flags : Z) : outcome expr := node2 OP_OR a b flags.
Definition makeAnd (a b : expr) (flags : Z) : outcome expr := node2 OP_AND a b flags.
Definition makeOr (a b : expr) (flags : Z) : outcome expr := node2 OP_OR a b flags.
Definition makeXor (a b : expr) (flags : Z) : outcome expr := node2 OP_XOR a b flags.
Definition makeInvert (a : expr) (flags : Z) : outcome expr := node1 OP_INVERT a flags.
Definition makeLssb (a : expr) (flags : Z) : outcome expr := node1 OP_LSSB a flags.
Definition makeMssb (a : expr) (flags : Z) : outcome expr := node1 OP_MSSB a flags.
Definition makeImplies (a b : expr) (flags : Z) : outcome expr :=
  let! both := makeAnd a b 0 in let! no := makeInvert a 0 in makeOr both no flags.
Definition makeAsr (sa a : expr) (flags : Z) : outcome expr := node2 OP_ASR sa a flags.
Definition makeAsr_int (sa : Z) (a : expr) (flags : Z) : outcome expr :=
  let! n := constant_like a sa in makeAsr n a flags.
Definition makeRol (sa a : expr) (flags : Z) : outcome expr := node2 OP_ROL sa a flags.
Definition makeRol_int (sa : Z) (a : expr) (flags : Z) : outcome expr :=
  let! n := constant_like a sa in makeRol n a flags.
Definition makeRor (sa a : expr) (flags : Z) : outcome expr := node2 OP_ROR sa a flags.
Definition makeRor_int (sa : Z) (a : expr) (flags : Z) : outcome expr :=
  let! n := constant_like a sa in makeRor n a flags.
Definition makeShl0 (sa a : expr) (flags : Z) : outcome expr := node2 OP_SHL0 sa a flags.
Definition makeShl0_int (sa : Z) (a : expr) (flags : Z) : outcome expr :=
  let! n := constant_like a sa in makeShl0 n a flags.
Definition makeShl1 (sa a : expr) (flags : Z) : outcome expr := node2 OP_SHL1 sa a flags.
Definition makeShl1_int (sa : Z) (a : expr) (flags : Z) : outcome expr :=
  let! n := constant_like a sa in makeShl1 n a flags.
Definition makeShr0 (sa a : expr) (flags : Z) : outcome expr := node2 OP_SHR0 sa a flags.
Definition makeShr0_int (sa : Z) (a : expr) (flags : Z) : outcome expr :=
  let! n := constant_like a sa in makeShr0 n a flags.
Definition makeShr1 (sa a : expr) (flags : Z) : outcome expr := node2 OP_SHR1 sa a flags.
Definition makeShr1_int (sa : Z) (a : expr) (flags : Z) : outcome expr :=
  let! n := constant_like a sa in makeShr1 n a flags.

(** ** Width and type *)

Definition makeExtract_int (begin end_ : Z) (a : expr) (flags : Z) : outcome expr :=
  let! b := constant_like a begin in let! e := constant_like a end_ in makeExtract b e a flags.
Definition makeSignExtend (newSize a : expr) (flags : Z) : outcome expr := node2 OP_SEXTEND newSize a flags.
Definition makeConvert (a : expr) (dstType : type) (flags : Z) : outcome expr := node dstType OP_CONVERT [a] flags.
Definition makeReinterpret (a : expr) (dstType : type) (flags : Z) : outcome expr := node dstType OP_REINTERPRET [a] flags.

(** ** Comparisons *)

Definition makeEq := fp_or_int OP_FP_EQ OP_EQ.
Definition makeEq_int (a : expr) (b flags : Z) : outcome expr :=
  let! c := constant_like a b in makeEq a c flags.
Definition makeGe := fp_or_int OP_FP_GE OP_UGE.
Definition makeGe_int (a : expr) (b flags : Z) : outcome expr :=
  let! c := constant_like a b in makeGe a c flags.
Definition makeGt := fp_or_int OP_FP_GT OP_UGT.
Definition makeGt_int (a : expr) (b flags : Z) : outcome expr :=
  let! c := constant_like a b in makeGt a c flags.
Definition makeLe := fp_or_int OP_FP_LE OP_ULE.
Definition makeLe_int (a : expr) (b flags : Z) : outcome expr :=
  let! c := constant_like a b in makeLe a c flags.
Definition makeLt := fp_or_int OP_FP_LT OP_ULT.
Definition makeLt_int (a : expr) (b flags : Z) : outcome expr :=
  let! c := constant_like a b in makeLt a c flags.
Definition makeSignedGe := fp_or_int OP_FP_GE OP_SGE.
Definition makeSignedGt := fp_or_int OP_FP_GT OP_SGT.
Definition makeSignedLe := fp_or_int OP_FP_LE OP_SLE.
Definition makeSignedLt := fp_or_int OP_FP_LT OP_SLT.
Definition makeNe (a b : expr) (flags : Z) : outcome expr :=
  if both_fp a b then let! same := node2 OP_FP_EQ a b 0 in makeInvert same flags else node2 OP_NE a b flags.
Definition makeNe_int (a : expr) (b flags : Z) : outcome expr :=
  let! c := constant_like a b in makeNe a c flags.

(** ** Selection *)

Definition makeMax (a b : expr) (flags : Z) : outcome expr :=
  if both_fp a b then node2 OP_FP_MAX a b flags else let! c := makeGe a b 0 in makeIte c a b flags.
Definition makeMax_int (a : expr) (b flags : Z) : outcome expr :=
  let! c := constant_like a b in makeMax a c flags.
Definition makeMin (a b : expr) (flags : Z) : outcome expr :=
  if both_fp a b then node2 OP_FP_MIN a b flags else let! c := makeLe a b 0 in makeIte c a b flags.
Definition makeMin_int (a : expr) (b flags : Z) : outcome expr :=
  let! c := constant_like a b in makeMin a c flags.
Definition makeSignedMax (a b : expr) (flags : Z) : outcome expr :=
  if both_fp a b then node2 OP_FP_MAX a b flags else let! c := makeSignedGe a b 0 in makeIte c a b flags.
Definition makeSignedMin (a b : expr) (flags : Z) : outcome expr :=
  if both_fp a b then node2 OP_FP_MIN a b flags else let! c := makeSignedLe a b 0 in makeIte c a b flags.

(** ** Tests *)

Definition makeIsNeg (a : expr) (flags : Z) : outcome expr :=
  if isFloatingPointExpr a then node1 OP_FP_ISNEG a flags
  else let! z := constant_like a 0 in makeSignedLt a z flags.
Definition makeIsPos (a : expr) (flags : Z) : outcome expr :=
  if isFloatingPointExpr a then node1 OP_FP_ISPOS a flags
  else let! z := constant_like a 0 in makeGt a z flags.
Definition makeSignedIsPos (a : expr) (flags : Z) : outcome expr :=
  if isFloatingPointExpr a then node1 OP_FP_ISPOS a flags
  else let! z := constant_like a 0 in makeSignedGt a z flags.
Definition makeZerop (a : expr) (flags : Z) : outcome expr :=
  if isFloatingPointExpr a then node1 OP_FP_ISZERO a flags
  else node1 OP_ZEROP a flags.
Definition makeIsInfinite (a : expr) (flags : Z) : outcome expr := node1 OP_FP_ISINFINITE a flags.
Definition makeIsNan (a : expr) (flags : Z) : outcome expr := node1 OP_FP_ISNAN a flags.
Definition makeIsNorm (a : expr) (flags : Z) : outcome expr := node1 OP_FP_ISNORM a flags.
Definition makeIsSubnorm (a : expr) (flags : Z) : outcome expr := node1 OP_FP_ISSUBNORM a flags.
Definition makeRound (a : expr) (flags : Z) : outcome expr := node1 OP_FP_ROUND a flags.
Definition makeSqrt (a : expr) (flags : Z) : outcome expr := node1 OP_FP_SQRT a flags.

(** ** Sets, memory and binding *)

Definition makeSet (a b : expr) (flags : Z) : outcome expr := node2 OP_SET a b flags.
Definition makeSet3 (a b c : expr) (flags : Z) : outcome expr := node3 OP_SET a b c flags.
Definition makeRead (mem addr : expr) (flags : Z) : outcome expr := node2 OP_READ mem addr flags.
Definition makeWrite (mem addr a : expr) (flags : Z) : outcome expr := node3 OP_WRITE mem addr a flags.
Definition makeLet (a b c : expr) (flags : Z) : outcome expr := node3 OP_LET a b c flags.
End Make.

(** * The contract of the simplifier *)

(** A simplifier keeps the type and the value of what it simplifies. *)
Class SoundSimplifier (uf : Operator -> Z -> list Z -> Z) (ctx : (Z -> Z) -> Prop)
    (simplify : option SmtSolver -> expr -> outcome expr) : Prop :=
  simplifier_keeps : forall s e e',
    solver_ok uf ctx s -> Pre e -> simplify s e = Ret e' ->
    denotes uf ctx Good e' (expr_type e) (fun env => eval uf env e).

#[export] Instance simplifyTop_SoundSimplifier uf ctx addr fuel : SoundSimplifier uf ctx (simplifyTop fuel addr).
Proof. exact (simplifyTop_sound uf ctx addr fuel). Qed.

(** * What the builders build *)

Section Meaning.
Variable uf : Operator -> Z -> list Z -> Z.
Variable ctx : (Z -> Z) -> Prop.
Variable simplify : option SmtSolver -> expr -> outcome expr.
Context {simplifier : SoundSimplifier uf ctx simplify}.
Variable solver : option SmtSolver.
Hypothesis solver_sound : solver_ok uf ctx solver.
#[local] Notation ev env e := (eval uf env e).

(** [e] is an integer of [w] bits with the value [v]. *)
Definition worth (e : expr) (w : Z) (v : (Z -> Z) -> Z) : Prop := denotes uf ctx Good e (mkType INTEGER w 0) v.

(** An integer operand of [w] bits. *)
Definition operand (w : Z) (e : expr) : Prop := Good e /\ isIntegerExpr e = true /\ expr_nBits e = w.

Lemma operand_elem w e : operand w e -> elem OP_ADD w e.
Proof. intros (Hg & Hi & Hw). now apply elem_int. Qed.

Lemma operand_bits w e env : operand w e -> 0 < w <= 32767 /\ bv_ok w (ev env e).
Proof. intros (Hg & Hi & <-). destruct (int_arg uf e Hg Hi) as (Hw & _ & Hv). now split. Qed.

Lemma operand_type w e : operand w e -> expr_type e = mkType INTEGER w 0.
Proof. intros (Hg & Hi & <-). now destruct (int_arg uf e Hg Hi) as (_ & Ht & _). Qed.

Lemma operand_not_fp w e : operand w e -> isFloatingPointExpr e = false.
Proof. intros (_ & Hi & _). apply integer_type in Hi. unfold isFloatingPointExpr, has_class. now rewrite Hi. Qed.

Lemma worth_operand e w v : worth e w v -> operand w e /\ forall env, ctx env -> ev env e = v env.
Proof.
  intros (Hg & Ht & Hv). split; [|assumption]. split; [assumption|]. unfold isIntegerExpr, has_class, expr_nBits. now rewrite Ht.
Qed.

Lemma constant_like_operand w a n c :
  operand w a -> 0 <= n < 2 ^ 64 -> constant_like a n = Ret c -> operand w c /\ forall env, ev env c = n mod 2 ^ w.
Proof.
  intros Ha Hn H. destruct (operand_bits w a (fun _ => 0) Ha) as [Hw _]. destruct Ha as (_ & _ & Ew).
  unfold constant_like in H. rewrite Ew in H. apply makeIntegerConstant_Ret in H as (-> & _).
  rewrite fromInteger_spec by lia. split; [|reflexivity].
  split; [apply Const_Good; [lia|apply mod_ok; lia]|]. now split.
Qed.

Lemma node_denotes op cs fl e :
  Forall Good cs -> (forall t, adjustWidth op cs type_none = Ret t -> ok_node op t cs = true) ->
  node simplify solver type_none op cs fl = Ret e ->
  exists t, adjustWidth op cs type_none = Ret t /\ denotes uf ctx Good e t (fun env => eval_list uf env op (nBits t) cs).
Proof. intros. now apply (instance_none uf ctx simplify simplifier solver op cs fl e). Qed.

Lemma fp_or_int_node fop op w a b fl :
  operand w a -> fp_or_int simplify solver fop op a b fl = node simplify solver type_none op [a; b] fl.
Proof. intros Ha. unfold fp_or_int, both_fp, node2. now rewrite (operand_not_fp w a Ha). Qed.

Lemma ints_two w w' a b : operand w a -> operand w' b -> ints [a; b] = true /\ Forall Good [a; b].
Proof.
  intros (Ga & Ia & _) (Gb & Ib & _). split; [cbn; now rewrite Ia, Ib|]. constructor; [assumption|]. constructor; [assumption|constructor].
Qed.

(** The builders of comparisons of integers. *)
Lemma comparison_worth op w a b fl e :
  compare_op op = true -> operand w a -> operand w b -> node simplify solver type_none op [a; b] fl = Ret e ->
  worth e 1 (fun env => eval_op2 uf op 1 (w, ev env a) (w, ev env b)).
Proof.
  intros Hop Ha Hb H. destruct (ints_two w w a b Ha Hb) as [Hi Hg].
  apply node_denotes in H as (t & Ht & Hd); [|assumption|intros t _; now destruct op].
  assert (Et : t = mkType INTEGER 1 0) by (destruct op; try discriminate Hop; inv_width Ht; congruence). subst t.
  eapply denotes_ext; [|exact Hd]. intros env _. unfold eval_list, eval_op. cbn [map nBits]. unfold wv.
  destruct Ha as (_ & _ & ->), Hb as (_ & _ & ->). destruct op; try discriminate Hop; cbn -[Z.pow Z.modulo bool_Z]; now rewrite bool_Z_mod.
Qed.

(** The conditional of a comparison. *)
Lemma select_worth op w a b fl e (test : Z -> Z -> bool) :
  compare_op op = true -> operand w a -> operand w b ->
  (forall va vb, eval_op2 uf op 1 (w, va) (w, vb) = bool_Z (test va vb)) ->
  (let! c := node simplify solver type_none op [a; b] 0 in makeIte simplify solver c a b fl) = Ret e ->
  worth e w (fun env => if test (ev env a) (ev env b) then ev env a else ev env b).
Proof.
  intros Hop Ha Hb Ht H. inv_outcome. apply (comparison_worth op w) in H0; try assumption. apply worth_operand in H0 as [Hc Vc].
  apply (makeIte_sound uf ctx simplify simplifier solver solver_sound (mkType INTEGER w 0)) in H;
    try apply Hc; try apply Ha; try apply Hb; try now apply (operand_type w).
  eapply denotes_ext; [|exact H]. intros env Henv. cbv beta. rewrite Vc, Ht by assumption. now destruct (test _ _).
Qed.

(** A node of two integers of one width. *)
Lemma same_width_worth op w a b fl e :
  op = OP_AND \/ op = OP_OR -> (op = OP_AND -> w <= 64) -> operand w a -> operand w b ->
  node simplify solver type_none op [a; b] fl = Ret e ->
  worth e w (fun env => eval_list uf env op w [a; b]).
Proof.
  intros Hop Hand Ha Hb H. destruct (ints_two w w a b Ha Hb) as [Hi Hg].
  assert (Et : forall t, adjustWidth op [a; b] type_none = Ret t -> t = mkType INTEGER w 0).
  { intros t Ht. apply adjustWidth_Ret in Ht as (Ht & _). rewrite same_type_width in Ht by (now destruct Hop as [->| ->]).
    apply width_default in Ht. apply Forall_cons in Ht as [<- _]. now apply operand_type. }
  apply node_denotes in H as (t & Ht & Hd); [|assumption|].
  - rewrite (Et t Ht) in Hd. exact Hd.
  - intros t Ht. rewrite (Et t Ht). destruct Hop as [->| ->]; cbn [ok_node nBits]; rewrite Hi; [|reflexivity].
    now apply Z.leb_le, Hand.
Qed.

Lemma invert_worth w a fl e :
  operand w a -> node simplify solver type_none OP_INVERT [a] fl = Ret e ->
  worth e w (fun env => (-1 - ev env a) mod 2 ^ w).
Proof.
  intros Ha H. pose proof Ha as (Ga & Ia & _).
  apply node_denotes in H as (t & Ht & Hd); [|constructor; [assumption|constructor]|intros t _; cbn; now rewrite Ia].
  apply adjustWidth_Ret in Ht as (Ht & _). apply width_default in Ht. apply Forall_cons in Ht as [<- _].
  rewrite (operand_type w a Ha) in Hd. exact Hd.
Qed.

(** * The theorems *)

(** [makeSubtract] of two integers of one width is their difference,
    wrapped around at the width; that is an addition of a negation, both
    simplified. *)
Theorem makeSubtract_value w a b fl e :
  operand w a -> operand w b -> makeSubtract simplify solver a b fl = Ret e ->
  worth e w (fun env => (ev env a - ev env b) mod 2 ^ w).
Proof.
  intros Ha Hb H. unfold makeSubtract in H. inv_outcome. destruct (operand_bits w a (fun _ => 0) Ha) as [Hw _].
  apply (makeNegate_sound uf ctx simplify simplifier solver solver_sound w) in H0; [|now apply operand_elem].
  apply worth_operand in H0 as [Hn Vn].
  apply (makeAdd_sound uf ctx simplify simplifier solver solver_sound w) in H; try now apply operand_elem.
  eapply denotes_ext; [|exact H]. intros env Henv. cbv beta. rewrite Vn by assumption. now rewrite Z.add_mod_idemp_r, Z.add_opp_r by (pose proof (pow2_pos w); lia).
Qed.

(** The overload of [makeSubtract] whose second operand is a number adds
    the number instead of subtracting it. *)
Theorem makeSubtract_int_adds w a n fl e :
  operand w a -> 0 <= n < 2 ^ 64 -> makeSubtract_int simplify solver a n fl = Ret e ->
  worth e w (fun env => (ev env a + n) mod 2 ^ w).
Proof.
  intros Ha Hn H. unfold makeSubtract_int in H. inv_outcome. destruct (operand_bits w a (fun _ => 0) Ha) as [Hw _].
  destruct (constant_like_operand w a n _ Ha Hn H0) as [Hc Vc].
  apply (makeAdd_sound uf ctx simplify simplifier solver solver_sound w) in H; try now apply operand_elem.
  eapply denotes_ext; [|exact H]. intros env _. cbv beta. rewrite Vc. apply Z.add_mod_idemp_r. pose proof (pow2_pos w). lia.
Qed.

(** The builders of a maximum and a minimum, of integers of one width:
    conditionals that select the greater or the smaller operand, unsigned or in
    two's complement. *)
Theorem selection_value w a b fl e :
  operand w a -> operand w b ->
  (makeMax simplify solver a b fl = Ret e -> worth e w (fun env => Z.max (ev env a) (ev env b))) /\
  (makeMin simplify solver a b fl = Ret e -> worth e w (fun env => Z.min (ev env a) (ev env b))) /\
  (makeSignedMax simplify solver a b fl = Ret e ->
     worth e w (fun env => Z.max (sval w (ev env a)) (sval w (ev env b)) mod 2 ^ w)) /\
  (makeSignedMin simplify solver a b fl = Ret e ->
     worth e w (fun env => Z.min (sval w (ev env a)) (sval w (ev env b)) mod 2 ^ w)).
Proof.
  intros Ha Hb. unfold makeMax, makeMin, makeSignedMax, makeSignedMin, both_fp, makeGe, makeLe, makeSignedGe, makeSignedLe.
  rewrite !(operand_not_fp w a Ha). cbn [andb]. rewrite !(fp_or_int_node _ _ w) by assumption.
  pose proof (fun env => operand_bits w a env Ha) as Ba. pose proof (fun env => operand_bits w b env Hb) as Bb.
  split; [|split; [|split]]; intros H.
  - apply (select_worth _ w) with (test := fun x y => y <=? x) in H; try assumption; try reflexivity.
    eapply denotes_ext; [|exact H]. intros env _. cbv beta. destruct (Z.leb_spec (ev env b) (ev env a)); lia.
  - apply (select_worth _ w) with (test := fun x y => x <=? y) in H; try assumption; try reflexivity.
    eapply denotes_ext; [|exact H]. intros env _. cbv beta. destruct (Z.leb_spec (ev env a) (ev env b)); lia.
  - apply (select_worth _ w) with (test := fun x y => sval w y <=? sval w x) in H; try assumption; try reflexivity.
    eapply denotes_ext; [|exact H]. intros env _. cbv beta. destruct (Ba env), (Bb env).
    destruct (Z.leb_spec (sval w (ev env b)) (sval w (ev env a))); [rewrite Z.max_l|rewrite Z.max_r]; rewrite ?sval_mod by (assumption || lia); reflexivity || lia.
  - apply (select_worth _ w) with (test := fun x y => sval w x <=? sval w y) in H; try assumption; try reflexivity.
    eapply denotes_ext; [|exact H]. intros env _. cbv beta. destruct (Ba env), (Bb env).
    destruct (Z.leb_spec (sval w (ev env a)) (sval w (ev env b))); [rewrite Z.min_l|rewrite Z.min_r]; rewrite ?sval_mod by (assumption || lia); reflexivity || lia.
Qed.

(** [makeImplies] of integers of at most 64 bits is the implication, bit by
    bit. *)
Theorem makeImplies_bits w a b fl e :
  operand w a -> operand w b -> w <= 64 -> makeImplies simplify solver a b fl = Ret e ->
  operand w e /\ forall env, ctx env -> forall i, 0 <= i < w ->
    Z.testbit (ev env e) i = implb (Z.testbit (ev env a) i) (Z.testbit (ev env b) i).
Proof.
  intros Ha Hb Hw H. unfold makeImplies in H. inv_outcome.
  apply (same_width_worth OP_AND w) in H0; auto. apply worth_operand in H0 as [Ho V0].
  apply (invert_worth w) in H1; [|assumption]. apply worth_operand in H1 as [Hn V1].
  apply (same_width_worth OP_OR w) in H; auto. apply worth_operand in H as [He V].
  split; [assumption|]. intros env Henv i Hi. rewrite V by assumption. unfold eval_list, eval_op. cbn [ac_op map].
  rewrite Z.mod_pow2_bits_low by lia. unfold ac_val, wv. cbn [map fold_right ac_comb ac_inj ac_unit snd].
  rewrite V0, V1 by assumption. unfold eval_list, eval_op. cbn [ac_op map]. unfold ac_val, wv. cbn [map fold_right ac_comb ac_inj ac_unit snd].
  replace (-1 - ev env a) with (Z.lnot (ev env a)) by (unfold Z.lnot; lia).
  rewrite !Z.lor_spec, !Z.mod_pow2_bits_low, !Z.land_spec, Z.lnot_spec by lia. change (-(1)) with (-1). rewrite !Z.bits_m1, Z.bits_0 by lia.
  now destruct (Z.testbit (ev env a) i), (Z.testbit (ev env b) i).
Qed.

Lemma integer_constant_arg w c : operand w c -> isConstant c = true -> isIntegerConstant c = true.
Proof. intros (_ & Hi & _) Hc. unfold isIntegerConstant. now rewrite Hi, Hc. Qed.

(** The overload of [makeExtract] whose offsets are numbers makes them
    constants of the width of the operand.  It extracts the bits when the
    operand has at most 64 bits, and throws for any offsets when it has more,
    since an offset may have at most 64 bits. *)
Theorem makeExtract_int_spec w from to a fl :
  operand w a -> 0 <= from < to -> to <= w ->
  (64 < w -> makeExtract_int simplify solver from to a fl = Fail Throw) /\
  (w <= 64 -> forall e, makeExtract_int simplify solver from to a fl = Ret e ->
    worth e (to - from) (fun env => ev env a / 2 ^ from mod 2 ^ (to - from))).
Proof.
  intros Ha Hft Hto. destruct (operand_bits w a (fun _ => 0) Ha) as [Hw _]. pose proof Ha as (Ga & Ia & Ew).
  unfold makeExtract_int, constant_like. rewrite Ew. split.
  - intros Hbig. rewrite !makeIntegerConstant_ok by lia. cbn [obind]. unfold makeExtract, instance, instance_with, interior, adjustWidth.
    cbn [adjustWidth_op]. cbn_args. unfold require_args. cbn [length Nat.eqb require_ obind isIntegerConstant].
    change (expr_nBits (Const (mkType INTEGER w 0) ?v ?f)) with w. now rewrite (proj2 (Z.leb_gt w 64)).
  - intros Hle e H. inv_outcome. pose proof (Z.pow_gt_lin_r 2 w ltac:(lia) ltac:(lia)).
    apply (offset_make uf) in H0; [|lia..]. apply (offset_make uf) in H1; [|lia..].
    apply (makeExtract_sound uf ctx simplify simplifier solver solver_sound _ _ _ from to) in H; try assumption; lia.
Qed.

Lemma shift_worth op w sa a fl e :
  op = OP_SHL0 \/ op = OP_SHR0 -> operand w sa -> operand w a -> isOperator a op = false ->
  node simplify solver type_none op [sa; a] fl = Ret e ->
  worth e w (fun env => eval_list uf env op w [sa; a]).
Proof.
  intros Hop Hs Ha Hn H. destruct (ints_two w w sa a Hs Ha) as [Hi Hg].
  apply node_denotes in H as (t & Ht & Hd); [|assumption|].
  - assert (Et : t = mkType INTEGER w 0).
    { pose proof Ha as (_ & _ & Ew). rewrite <- Ew. destruct Hop as [->| ->]; inv_width Ht; cbn_args; congruence. }
    now subst t.
  - intros t _. destruct Hop as [->| ->]; cbn [ok_node]; rewrite Hi; cbn_args; now rewrite Hn.
Qed.

(** The overloads of the shift builders whose amount is a number make it a
    constant of the width of the operand, so the amount that is shifted by is
    the number modulo two to that power: a shift of a four-bit operand by 16
    leaves it as it is. *)
Theorem makeShift_int_value w n a fl e :
  operand w a -> 0 <= n < 2 ^ 64 ->
  (isOperator a OP_SHL0 = false -> makeShl0_int simplify solver n a fl = Ret e ->
     worth e w (fun env => (ev env a * 2 ^ (n mod 2 ^ w)) mod 2 ^ w)) /\
  (isOperator a OP_SHR0 = false -> makeShr0_int simplify solver n a fl = Ret e ->
     worth e w (fun env => ev env a / 2 ^ (n mod 2 ^ w))).
Proof.
  intros Ha Hn. split; intros Ho H; unfold makeShl0_int, makeShr0_int in H; inv_outcome;
    destruct (constant_like_operand w a n _ Ha Hn H0) as [Hc Vc].
  - apply (shift_worth OP_SHL0 w) in H; auto. eapply denotes_ext; [|exact H]. intros env _. cbv beta. eval_args. now rewrite Vc.
  - apply (shift_worth OP_SHR0 w) in H; auto. eapply denotes_ext; [|exact H]. intros env _. cbv beta. eval_args. rewrite Vc.
    destruct (operand_bits w a env Ha) as [Hw Hv]. apply Z.mod_small. pose proof (Z.mod_pos_bound n (2 ^ w) (pow2_pos w ltac:(lia))) as Hm.
    pose proof (pow2_pos (n mod 2 ^ w) ltac:(lia)). unfold bv_ok in Hv. split; [apply Z.div_pos; lia|].
    apply Z.div_lt_upper_bound; nia.
Qed.

(** The tests of the sign of an integer: [makeIsNeg] and [makeSignedIsPos]
    read it in two's complement, [makeIsPos] as unsigned, where only zero is
    not positive. *)
Theorem sign_tests_value w a fl e :
  operand w a ->
  (makeIsNeg simplify solver a fl = Ret e -> worth e 1 (fun env => bool_Z (sval w (ev env a) <? 0))) /\
  (makeSignedIsPos simplify solver a fl = Ret e -> worth e 1 (fun env => bool_Z (0 <? sval w (ev env a)))) /\
  (makeIsPos simplify solver a fl = Ret e -> worth e 1 (fun env => bool_Z (negb (ev env a =? 0)))).
Proof.
  intros Ha. unfold makeIsNeg, makeSignedIsPos, makeIsPos, makeSignedLt, makeSignedGt, makeGt. rewrite (operand_not_fp w a Ha).
  destruct (operand_bits w a (fun _ => 0) Ha) as [Hw _].
  assert (Hz : sval w 0 = 0) by (rewrite <- (Z.mod_0_l (2 ^ w)) at 1 by (pose proof (pow2_pos w); lia); apply sval_of_mod; pose proof (pow2_pos (w - 1)); lia).
  split; [|split]; intros H; inv_outcome; rewrite (fp_or_int_node _ _ w) in H by assumption;
    destruct (constant_like_operand w a 0 _ Ha ltac:(lia) H0) as [Hc Vc];
    apply (comparison_worth _ w) in H; try assumption; try reflexivity;
    (eapply denotes_ext; [|exact H]); intros env _; cbv beta; cbn [eval_op2]; rewrite Vc, Z.mod_0_l, ?Hz by (pose proof (pow2_pos w); lia);
    try reflexivity.
  destruct (operand_bits w a env Ha) as [_ [Hv _]]. destruct (Z.ltb_spec 0 (ev env a)), (Z.eqb_spec (ev env a) 0); try reflexivity; lia.
Qed.
End Meaning.

(** * Witnesses: bytes, simplified by the code's simplifier *)

Lemma byte_operand n : operand 8 (byte_var n).
Proof. split; [apply byte_var_Good|]. now split. Qed.

#[local] Notation run := (simplifyTop 20 (fun _ => 0)).
#[local] Notation no_uf := (fun _ _ _ => 0).
#[local] Notation always := (fun _ => True).

Theorem makeSubtract_value_witness :
  exists e, makeSubtract run None (byte_var 1) (byte_var 2) 0 = Ret e /\
    worth no_uf always e 8 (fun env => (eval no_uf env (byte_var 1) - eval no_uf env (byte_var 2)) mod 2 ^ 8).
Proof.
  eexists. split; [vm_compute; reflexivity|].
  apply (makeSubtract_value no_uf always run None (solver_ok_None _ _) 8 (byte_var 1) (byte_var 2) 0);
    [apply byte_operand|apply byte_operand|vm_compute; reflexivity].
Defined.

Theorem makeSubtract_int_adds_witness :
  exists e, makeSubtract_int run None (byte_var 1) 3 0 = Ret e /\
    worth no_uf always e 8 (fun env => (eval no_uf env (byte_var 1) + 3) mod 2 ^ 8).
Proof.
  eexists. split; [vm_compute; reflexivity|].
  apply (makeSubtract_int_adds no_uf always run None (solver_ok_None _ _) 8 (byte_var 1) 3 0);
    [apply byte_operand|lia|vm_compute; reflexivity].
Defined.

Theorem selection_value_witness :
  exists e, makeSignedMin run None (byte_var 1) (byte_var 2) 0 = Ret e /\
    worth no_uf always e 8 (fun env =>
      Z.min (sval 8 (eval no_uf env (byte_var 1))) (sval 8 (eval no_uf env (byte_var 2))) mod 2 ^ 8).
Proof.
  eexists. split; [vm_compute; reflexivity|].
  apply (selection_value no_uf always run None (solver_ok_None _ _) 8 (byte_var 1) (byte_var 2) 0);
    [apply byte_operand|apply byte_operand|vm_compute; reflexivity].
Defined.

Theorem makeImplies_bits_witness :
  exists e, makeImplies run None (byte_var 1) (byte_var 2) 0 = Ret e /\ operand 8 e /\
    forall env, True -> forall i, 0 <= i < 8 -> Z.testbit (eval no_uf env e) i =
      implb (Z.testbit (eval no_uf env (byte_var 1)) i) (Z.testbit (eval no_uf env (byte_var 2)) i).
Proof.
  eexists. split; [vm_compute; reflexivity|].
  apply (makeImplies_bits no_uf always run None (solver_ok_None _ _) 8 (byte_var 1) (byte_var 2) 0);
    [apply byte_operand|apply byte_operand|lia|vm_compute; reflexivity].
Defined.

Definition wide_var : expr := Var (mkType INTEGER 128 0) 7 0.
Lemma wide_operand : operand 128 wide_var.
Proof. now repeat split. Qed.

Theorem makeExtract_int_spec_witness : makeExtract_int run None 0 8 wide_var 0 = Fail Throw.
Proof.
  apply (makeExtract_int_spec no_uf always run None (solver_ok_None _ _) 128 0 8 wide_var 0); [apply wide_operand|lia..].
Defined.

Definition nibble_var : expr := Var (mkType INTEGER 4 0) 5 0.
Lemma nibble_operand : operand 4 nibble_var.
Proof. now repeat split. Qed.

(** A shift by 16 that shifts by nothing. *)
Theorem makeShift_int_value_witness :
  makeShl0_int run None 16 nibble_var 0 = Ret nibble_var /\
  worth no_uf always nibble_var 4 (fun env => (eval no_uf env nibble_var * 2 ^ (16 mod 2 ^ 4)) mod 2 ^ 4).
Proof.
  split; [vm_compute; reflexivity|].
  apply (makeShift_int_value no_uf always run None (solver_ok_None _ _) 4 16 nibble_var 0 nibble_var);
    [apply nibble_operand|lia|reflexivity|vm_compute; reflexivity].
Defined.

Theorem sign_tests_value_witness :
  exists e, makeIsNeg run None (byte_var 1) 0 = Ret e /\
    worth no_uf always e 1 (fun env => bool_Z (sval 8 (eval no_uf env (byte_var 1)) <? 0)).
Proof.
  eexists. split; [vm_compute; reflexivity|].
  apply (sign_tests_value no_uf always run None (solver_ok_None _ _) 8 (byte_var 1) 0); [apply byte_operand|vm_compute; reflexivity].
Defined.
