(* ===== verification/SymSubst.v ===== *)
(** Substitution in symbolic expressions, renaming of their variables, and sets
    as conditionals ([src/Rose/BinaryAnalysis/SymbolicExpression.{C,h}]:
    [SingleSubstituter], [MultiSubstituter], [VariableRenamer], the function
    template [substitute], [setToIte]).

    A substituter remembers what it made of every expression it has seen, up to
    equivalence, and rebuilds, hence simplifies, a node one of whose children
    has changed.  Whether a child has changed is a test of pointers; here it is
    a parameter that may only say that equal expressions are the same.

    The theorems say that a substitution is an assignment and that a renaming
    carries assignments over, for integer expressions without shifts; that a
    set's conditionals select a member; and that the template cannot rebuild a
    conversion. *)
From S2P Require Import Prelude BitVector SymType SymExpr SymSimplify SymEval SymGood SymAC SymSound SymTop SymMake.
Open Scope Z_scope.

(** * Definitions *)

(** [ExprExprHashMap]: keys are compared by [isEquivalentTo], and the first
    value inserted for a key stays.  The hash by which the table is searched is
    the same for equivalent keys, except that it distinguishes memories of
    different address widths. *)
Definition ExprMap : Type := list (expr * expr).
Definition find_expr (m : ExprMap) (e : expr) : option expr :=
  match List.find (fun p => isEquivalentTo (fst p) e) m with Some p => Some (snd p) | None => None end.
Definition insert_expr (m : ExprMap) (k v : expr) : ExprMap := m ++ [(k, v)].

Section Substitute.
Variable simplify : option SmtSolver -> expr -> outcome expr.
Variable solver : option SmtSolver.
Variable same : expr -> expr -> bool.

(** The loop over the children of a node, and whether one has changed; [step]
    treats one child. *)
Section Children.
Context {S : Type} (step : expr -> S -> outcome (expr * S)).

Fixpoint rebuild_children (cs : list expr) (s : S) : outcome (list expr * bool * S) :=
  match cs with
  | [] => Ret ([], false, s)
  | child :: cs =>
      let! ' (newChild, s) := step child s in
      let! ' (newChildren, changed, s) := rebuild_children cs s in
      Ret (newChild :: newChildren, negb (same newChild child) || changed, s)
  end.
End Children.

Section Substituter.
Variable replacement : expr -> option expr.

(** The two substituters differ in what they replace. *)
Fixpoint substituter (input : expr) (seen : ExprMap) : outcome (expr * ExprMap) :=
  match find_expr seen input with
  | Some r => Ret (r, seen)
  | None =>
      match replacement input with
      | Some r => Ret (r, insert_expr seen input r)
      | None =>
          match input with
          | Node op t cs f =>
              let! ' (newChildren, anyChildChanged, seen) := rebuild_children substituter cs seen in
              let! r := if anyChildChanged then instance_with simplify solver t op newChildren f else Ret input in
              Ret (r, insert_expr seen input r)
          | _ => Ret (input, insert_expr seen input input)
          end
      end
  end.
End Substituter.

Definition SingleSubstituter (from to : expr) : expr -> ExprMap -> outcome (expr * ExprMap) :=
  substituter (fun input => if isEquivalentTo input from then Some to else None).
Definition MultiSubstituter (substitutions : ExprMap) : expr -> ExprMap -> outcome (expr * ExprMap) :=
  substituter (find_expr substitutions).

(** [Interior::substitute] and [Leaf::substitute] *)
Definition substitute (e from to : expr) : outcome expr :=
  assert! expr_nBits from =? expr_nBits to else AssertFail in
  if isEquivalentTo e from then Ret to
  else if isInterior e then let! ' (r, _) := SingleSubstituter from to e [] in Ret r
  else Ret e.

(** [Node::substituteMultiple] *)
Definition substituteMultiple (e : expr) (substitutions : ExprMap) : outcome expr :=
  let! ' (r, _) := MultiSubstituter substitutions e [] in Ret r.

(** [VariableRenamer]: new variables are numbered from [nextVariableId]. *)
Record Renaming := { seen : ExprMap; index : ExprMap; nextVariableId : Z }.

(** Remember what an expression was renamed to. *)
Definition saw (input r : expr) (s : Renaming) : Renaming :=
  {| seen := insert_expr (seen s) input r; index := index s; nextVariableId := nextVariableId s |}.
(** Record the new name of a variable. *)
Definition named (input r : expr) (s : Renaming) : Renaming :=
  {| seen := seen s; index := insert_expr (index s) input r; nextVariableId := (nextVariableId s + 1) mod 2 ^ 64 |}.

Fixpoint rename (input : expr) (s : Renaming) : outcome (expr * Renaming) :=
  match find_expr (seen s) input with
  | Some r => Ret (r, s)
  | None =>
      match input with
      | Node op t cs f =>
          let! ' (newChildren, anyChildRenamed, s) := rebuild_children rename cs s in
          let! r := if anyChildRenamed then instance_with simplify solver t op newChildren f else Ret input in
          Ret (r, saw input r s)
      | Var t _ f =>
          match find_expr (index s) input with
          | Some r => Ret (r, saw input r s)
          | None =>
              let! r := makeVariable t (nextVariableId s) f in
              Ret (r, saw input r (named input r s))
          end
      | Const _ _ _ => Ret (input, saw input input s)
      end
  end.

(** [Node::renameVariables] *)
Definition renameVariables (e : expr) (names : ExprMap) (nextId : Z) : outcome (expr * ExprMap * Z) :=
  let! ' (r, s) := rename e {| seen := []; index := names; nextVariableId := nextId |} in
  Ret (r, index s, nextVariableId s).

(** The template [substitute]: [subber] is tried on every expression; a node is
    rebuilt without its type. *)
Fixpoint substitute_by (subber : expr -> outcome expr) (src : expr) : outcome expr :=
  let! dst := subber src in
  if negb (same dst src) then Ret dst
  else
    match src with
    | Node op t cs f =>
        let! ' (newChildren, anyChildChanged) :=
          (fix children (cs : list expr) : outcome (list expr * bool) :=
             match cs with
             | [] => Ret ([], false)
             | child :: cs =>
                 let! newChild := substitute_by subber child in
                 let! ' (newChildren, changed) := children cs in
                 Ret (newChild :: newChildren, negb (same newChild child) || changed)
             end) cs in
        if anyChildChanged then instance_with simplify solver type_none op newChildren f else Ret src
    | _ => Ret src
    end.

(** [setToIte]: the members are numbered from one; [condVar] selects one. *)
Fixpoint set_conditionals (condVar : expr) (i : Z) (members : list expr) : outcome expr :=
  match members with
  | [] => Fail AssertFail
  | [member] => Ret member
  | member :: members =>
      let! retval := set_conditionals condVar (i + 1) members in
      let! n := makeIntegerConstant 32 i 0 in
      let! cond := makeEq simplify solver condVar n 0 in
      makeIte simplify solver cond member retval 0
  end.

Definition setToIte (set condVar : expr) : outcome expr :=
  if isOperator set OP_SET then set_conditionals condVar 1 (children set) else Ret set.
End Substitute.

(** [Node::getVariables], in the order of the traversal, with repetitions. *)
Fixpoint getVariables (e : expr) : list expr :=
  match e with
  | Var _ _ _ => [e]
  | Node _ _ cs _ => flat_map getVariables cs
  | Const _ _ _ => []
  end.

(** * Where substitution is sound *)

(** Expressions of integers only, without shifts. *)
Definition shifts (op : Operator) : bool :=
  match op with OP_SHL0 | OP_SHL1 | OP_SHR0 | OP_SHR1 | OP_ASR => true | _ => false end.

Fixpoint plain (e : expr) : bool :=
  isIntegerExpr e && match e with Node op _ cs _ => negb (shifts op) && forallb plain cs | _ => true end.

Lemma plain_node op t cs f :
  plain (Node op t cs f) = true -> typeClass t = INTEGER /\ shifts op = false /\ Forall (fun c => plain c = true) cs.
Proof.
  cbn [plain]. rewrite !andb_true_iff, negb_true_iff, forallb_Forall. intros (H & Hs & Hc). split; [|now split].
  now apply integer_type in H.
Qed.

Lemma plain_integer e : plain e = true -> isIntegerExpr e = true.
Proof. destruct e; cbn [plain]; rewrite andb_true_iff; tauto. Qed.

Section Sound.
Variable uf : Operator -> Z -> list Z -> Z.
(** The assignment the result is evaluated under, and the one that gives the
    replaced expressions the values of their replacements. *)
Variable env env0 : Z -> Z.
#[local] Notation ctx := (fun e : Z -> Z => e = env).
#[local] Notation ev e := (eval uf env e).
#[local] Notation ev0 e := (eval uf env0 e).
Variable simplify : option SmtSolver -> expr -> outcome expr.
Context {simplifier : SoundSimplifier uf ctx simplify}.
Variable solver : option SmtSolver.
Hypothesis solver_sound : solver_ok uf ctx solver.
Variable same : expr -> expr -> bool.
Hypothesis same_eq : forall a b, same a b = true -> a = b.

(** One expression stands for another. *)
Definition stands_for (e' e : expr) : Prop :=
  Good e' /\ isIntegerExpr e' = true /\ expr_nBits e' = expr_nBits e /\ ev e' = ev0 e.

Lemma stands_refl e : Good e -> isIntegerExpr e = true -> ev e = ev0 e -> stands_for e e.
Proof. intros Hg Hi Hv. split; [assumption|]. now split. Qed.

Lemma stands_wv e' e : stands_for e' e -> wv uf env e' = wv uf env0 e.
Proof. intros (_ & _ & Hw & Hv). unfold wv. now rewrite Hw, Hv. Qed.

(** What has been seen stands for itself. *)
Definition memo_ok (m : ExprMap) : Prop := Forall (fun p => stands_for (snd p) (fst p)) m.

Lemma find_expr_stands m e r : memo_ok m -> find_expr m e = Some r -> stands_for r e.
Proof.
  intros Hm H. unfold find_expr in H. destruct (List.find _ m) as [[k v]|] eqn:E; [|discriminate]. injection H as <-.
  apply List.find_some in E as [Hin E]. cbn [fst snd] in *. apply list_elem_of_In in Hin.
  pose proof (proj1 (Forall_forall _ _) Hm _ Hin) as (Hg & Hi & Hw & Hv). cbn [fst snd] in *.
  split; [assumption|]. split; [assumption|]. rewrite Hw, Hv. split; [now apply isEquivalentTo_shape|now apply isEquivalentTo_eval].
Qed.

Lemma insert_expr_ok m k v : memo_ok m -> stands_for v k -> memo_ok (insert_expr m k v).
Proof. intros Hm Hv. apply Forall_app. split; [assumption|]. constructor; [assumption|constructor]. Qed.

Lemma stands_integers cs' cs : Forall2 stands_for cs' cs -> ints cs' = true /\ Forall Good cs' /\ map (wv uf env) cs' = map (wv uf env0) cs.
Proof.
  induction 1 as [|c' c cs' cs Hc _ (Hi & Hg & Hw)]; [easy|]. pose proof (stands_wv _ _ Hc) as Ew. destruct Hc as (Gc & Ic & _).
  cbn [ints forallb map]. rewrite Ic, Ew, Hw. split; [exact Hi|]. split; [now constructor|reflexivity].
Qed.

(** Offsets of equal value are the same number. *)
Lemma same_offset c' c :
  Good c' -> isIntegerConstant c' = true -> (expr_nBits c' <=? 64) = true ->
  Good c -> isIntegerConstant c = true -> (expr_nBits c <=? 64) = true -> ev c' = ev0 c -> toUnsigned c' = toUnsigned c.
Proof.
  intros G' C' W' G C W E. apply Z.leb_le in W, W'.
  destruct (offset_const uf c' G' C' W') as (n' & (_ & _ & _ & -> & V') & _).
  destruct (offset_const uf c G C W) as (n & (_ & _ & _ & -> & V) & _). now rewrite V, V' in E; subst.
Qed.

Lemma ok_node_stands op t cs' cs :
  Forall2 stands_for cs' cs -> shifts op = false -> Forall Good cs ->
  adjustWidth op cs t = Ret t -> adjustWidth op cs' t = Ret t ->
  ok_node op t cs = true -> ok_node op t cs' = true.
Proof.
  intros H Hs Hg Ha Ha' Hok. destruct (stands_integers _ _ H) as (Hi & Hg' & _).
  destruct op; try discriminate Hs; cbn [ok_node] in *; try exact Hi; try exact Hok; rewrite ?Hi; cbn [andb];
    try (apply andb_true_iff in Hok as [_ Hok]; try exact Hok; now rewrite (Forall2_length _ _ _ H)).
  apply andb_true_iff in Hok as [_ Hok]. inv_width Ha. inv_width Ha'.
  name_args cs. name_args cs'. repeat match goal with H : Forall2 _ (_ :: _) (_ :: _) |- _ => apply Forall2_cons in H as [? ?] end.
  cbn_args. destruct H0 as (_ & _ & _ & Hv), H9 as (_ & _ & Hw & _). split_Forall.
  now rewrite (same_offset b0 b), Hw by assumption.
Qed.

Lemma rebuilt_stands op t cs' cs f g e :
  Forall2 stands_for cs' cs -> shifts op = false -> Good (Node op t cs f) -> typeClass t = INTEGER ->
  instance_with simplify solver t op cs' g = Ret e -> stands_for e (Node op t cs f).
Proof.
  intros H Hs Hn Hc Hi. apply Good_node in Hn as [Hp _]. pose proof (proj1 (Pre_node _ _ _ _) Hp) as ((Hw & Hto) & Ha & Hg & Hok).
  destruct (stands_integers _ _ H) as (_ & Hg' & Hm). assert (Hv : typeClass t <> INVALID) by (rewrite Hc; discriminate).
  assert (Hadj : forall t', adjustWidth op cs' t = Ret t' -> t' = t).
  { intros t' Ha'. unfold instance_with, interior in Hi. rewrite Ha' in Hi. cbn [obind] in Hi. inv_outcome.
    match goal with H : _ || _ = true |- _ => apply orb_true_iff in H as [E|E] end.
    - unfold type_isValid in E. now rewrite bool_decide_eq_true_2 in E.
    - now apply bool_decide_eq_true_1 in E. }
  destruct (instance_sound uf ctx simplify simplifier solver t op cs' g e) as (t' & Ha' & Ht & (Ge & Te & Ve)); try assumption; [lia| |].
  - intros t' Ha'. pose proof (Hadj t' Ha') as ->. now apply (ok_node_stands op t cs' cs).
  - rewrite (Ht Hv) in *. split; [assumption|]. split; [apply bool_decide_eq_true_2; now rewrite Te|].
    split; [unfold expr_nBits; now rewrite Te|]. rewrite Ve, eval_node by reflexivity. unfold eval_list. now rewrite Hm.
Qed.

(** ** The children *)

(** A step that extends the state, and whose result is right provided that its
    state is at the end. *)
Section Children_loop.
Context {S : Type} (extends : S -> S -> Prop) (final inv : S -> Prop).
Context {extends_pre : PreOrder extends}.
Hypothesis final_before : forall s s', extends s s' -> final s' -> final s.

Definition right_step (step : expr -> S -> outcome (expr * S)) (c : expr) : Prop :=
  forall s r s', step c s = Ret (r, s') -> extends s s' /\ (final s' -> inv s -> stands_for r c /\ inv s').

Lemma rebuild_children_stands step cs : Forall (right_step step) cs -> forall s l b s',
  rebuild_children same step cs s = Ret (l, b, s') ->
  extends s s' /\ (final s' -> inv s -> Forall2 stands_for l cs /\ inv s') /\ (b = false -> l = cs).
Proof using same_eq extends_pre final_before.
  induction 1 as [|c cs Hc _ IH]; intros s l b s' H; cbn [rebuild_children] in H.
  - injection H as <- <- <-. split; [reflexivity|]. now split.
  - apply obind_Ret in H as ([c' s1] & E1 & H). apply obind_Ret in H as ([[l' b'] s2] & E2 & H). injection H as <- <- <-.
    destruct (Hc _ _ _ E1) as [X1 Hc'], (IH _ _ _ _ E2) as (X2 & Hl & Hb). split; [now transitivity s1|]. split.
    + intros Hf Hs. destruct (Hc' (final_before _ _ X2 Hf) Hs) as [Sc Hs1], (Hl Hf Hs1) as [Sl Hs2]. split; [now constructor|assumption].
    + intros E. apply orb_false_iff in E as [E E']. apply negb_false_iff in E. now rewrite (same_eq _ _ E), (Hb E').
Qed.
End Children_loop.

#[local] Instance any_state_pre (S : Type) : PreOrder (fun _ _ : S => True).
Proof. now split. Qed.

(** A node rebuilt when a child has changed. *)
Lemma node_stands op t cs f l (b : bool) e :
  Good (Node op t cs f) -> plain (Node op t cs f) = true -> Forall2 stands_for l cs -> (b = false -> l = cs) ->
  (if b then instance_with simplify solver t op l f else Ret (Node op t cs f)) = Ret e ->
  stands_for e (Node op t cs f).
Proof.
  intros Hg Hp Hl Hb H. destruct (plain_node op t cs f Hp) as (Hc & Hs & _). destruct b; [now apply (rebuilt_stands op t l cs f f)|].
  injection H as <-. rewrite (Hb eq_refl) in Hl. apply stands_refl; [assumption|now apply plain_integer|].
  rewrite !eval_node. unfold eval_list. now destruct (stands_integers _ _ Hl) as (_ & _ & ->).
Qed.

Lemma node_children op t cs f : Good (Node op t cs f) -> Forall Good cs.
Proof. intros Hg. apply Good_node in Hg as [Hp _]. now apply Pre_node in Hp as (_ & _ & Hg & _). Qed.

(** ** The substituter *)

Section Run.
Variable replacement : expr -> option expr.
Hypothesis replacement_stands : forall e r, Good e -> isIntegerExpr e = true -> replacement e = Some r -> stands_for r e.

(** The variables that stay have the same value. *)
Definition kept (e : expr) : Prop := forall x, x ∈ getVariables e -> replacement x = None -> ev x = ev0 x.

Definition substitutes (e : expr) : Prop :=
  forall seen r seen', memo_ok seen -> substituter simplify solver same replacement e seen = Ret (r, seen') ->
  stands_for r e /\ memo_ok seen'.

Lemma substituter_stands e : Good e -> plain e = true -> kept e -> substitutes e.
Proof.
  induction e as [t v f|t n f|op t cs f IH] using expr_tree_ind; intros Hg Hp Hk seen r seen' Hm H; cbn [substituter] in H;
    (destruct (find_expr seen _) as [x|] eqn:Ef; [injection H as <- <-; split; [now apply (find_expr_stands seen)|assumption]|]);
    (destruct (replacement _) as [x|] eqn:Er;
      [injection H as <- <-; pose proof (replacement_stands _ _ Hg (plain_integer _ Hp) Er); split; [assumption|now apply insert_expr_ok]|]).
  - injection H as <- <-. pose proof (stands_refl _ Hg (plain_integer _ Hp) eq_refl). split; [assumption|now apply insert_expr_ok].
  - injection H as <- <-. pose proof (stands_refl _ Hg (plain_integer _ Hp) (Hk _ ltac:(now apply list_elem_of_singleton) Er)). split; [assumption|now apply insert_expr_ok].
  - destruct (plain_node op t cs f Hp) as (_ & _ & Hpc). apply obind_Ret in H as ([[l b] s1] & E1 & H).
    apply obind_Ret in H as (x & E2 & H). injection H as <- <-.
    assert (Hkc : Forall kept cs).
    { apply Forall_forall. intros c Hc' x0 Hx. apply Hk. apply list_elem_of_In, in_flat_map. exists c. now split; apply list_elem_of_In. }
    apply (rebuild_children_stands (fun _ _ => True) (fun _ => True) memo_ok) in E1 as (_ & Hl & Hb); [|easy|].
    + destruct (Hl I Hm) as [Sl Hm1]. pose proof (node_stands op t cs f l b x Hg Hp Sl Hb E2). split; [assumption|now apply insert_expr_ok].
    + pose proof (node_children op t cs f Hg) as Hgc. rewrite Forall_forall in *. intros c Hc s r s' E. split; [easy|]. intros _ Hs.
      now apply (IH c Hc (Hgc c Hc) (Hpc c Hc) (Hkc c Hc) s).
Qed.
End Run.

Lemma memo_nil : memo_ok [].
Proof. constructor. Qed.

(** ** The renamer *)

Section Rename.
(** The first identifier. *)
Variable firstId : Z.

(** The variables that have a new name, in the order of their names. *)
Definition numbered (names : ExprMap) : Prop :=
  forall i k v, names !! i = Some (k, v) ->
  exists t n f, k = Var t n f /\ v = Var t ((firstId + Z.of_nat i) mod 2 ^ 64) f /\ operand (nBits t) k.
Definition in_order (s : Renaming) : Prop :=
  numbered (index s) /\ nextVariableId s = (firstId + Z.of_nat (length (index s))) mod 2 ^ 64.

Definition more_names (s s' : Renaming) : Prop :=
  (exists l, index s' = index s ++ l) /\ (in_order s -> in_order s').

#[local] Instance more_names_pre : PreOrder more_names.
Proof.
  split.
  - intros s. split; [exists []; now rewrite app_nil_r|easy].
  - intros s1 s2 s3 [[l H] Hi] [[l' H'] Hi']. split; [exists (l ++ l'); now rewrite H', H, app_assoc|tauto].
Qed.

Lemma more_names_saw input r s : more_names s (saw input r s).
Proof. split; [exists []; now rewrite app_nil_r|easy]. Qed.

Lemma in_order_named t n f s :
  operand (nBits t) (Var t n f) -> in_order s -> in_order (named (Var t n f) (Var t (nextVariableId s) f) s).
Proof.
  intros Hg [Hn Hi]. split; cbn [named index nextVariableId].
  - intros i k v H. unfold insert_expr in H. apply lookup_app_Some in H as [H|[Hl H]]; [now apply Hn|].
    apply list_lookup_singleton_Some in H as [Hl' [= <- <-]]. exists t, n, f. split; [reflexivity|]. split; [|assumption].
    rewrite Hi. do 3 f_equal. lia.
  - unfold insert_expr. rewrite length_app, Hi, Zplus_mod_idemp_l. cbn [length]. f_equal. lia.
Qed.

Lemma rename_stands e : Good e -> plain e = true ->
  right_step more_names (fun s => memo_ok (index s)) (fun s => memo_ok (seen s)) (rename simplify solver same) e.
Proof.
  induction e as [t v f|t n f|op t cs f IH] using expr_tree_ind; intros Hg Hp s r s' H; cbn [rename] in H;
    (destruct (find_expr (seen s) _) as [x|] eqn:Ef;
      [injection H as <- <-; split; [reflexivity|]; intros _ Hs; split; [now apply (find_expr_stands (seen s))|assumption]|]).
  - injection H as <- <-. split; [apply more_names_saw|]. intros _ Hs.
    pose proof (stands_refl _ Hg (plain_integer _ Hp) eq_refl). split; [assumption|now apply insert_expr_ok].
  - destruct (find_expr (index s) _) as [x|] eqn:Ei.
    + injection H as <- <-. split; [apply more_names_saw|]. intros Hf Hs. pose proof (find_expr_stands _ _ _ Hf Ei).
      split; [assumption|now apply insert_expr_ok].
    + apply obind_Ret in H as (x & E & H). unfold makeVariable, createVariable in E. inv_outcome. subst. split.
      * split; [eexists; reflexivity|]. intros Ho. apply in_order_named; [|assumption]. split; [assumption|]. split; [now apply plain_integer|reflexivity].
      * intros Hf Hs. apply Forall_app in Hf as [_ Hf]. apply Forall_cons in Hf as [Hf _]. split; [assumption|now apply insert_expr_ok].
  - destruct (plain_node op t cs f Hp) as (_ & _ & Hpc). apply obind_Ret in H as ([[l b] s1] & E1 & H).
    apply obind_Ret in H as (x & E2 & H). injection H as <- <-.
    apply (rebuild_children_stands more_names (fun s => memo_ok (index s)) (fun s => memo_ok (seen s))) in E1 as (He & Hl & Hb).
    + split; [etransitivity; [exact He|apply more_names_saw]|]. intros Hf Hs. destruct (Hl Hf Hs) as [Sl Hm1].
      pose proof (node_stands op t cs f l b x Hg Hp Sl Hb E2). split; [assumption|now apply insert_expr_ok].
    + intros s2 s3 [[l' H'] _] Hf. rewrite H' in Hf. now apply Forall_app in Hf as [Hf _].
    + pose proof (node_children op t cs f Hg) as Hgc. rewrite Forall_forall in *. intros c Hc. now apply (IH c Hc (Hgc c Hc) (Hpc c Hc)).
Qed.
End Rename.
End Sound.

(** * The theorems *)

Lemma getVariables_Var e x : x ∈ getVariables e -> exists t n f, x = Var t n f.
Proof.
  induction e as [t v f|t n f|op t cs f IH] using expr_tree_ind; cbn [getVariables]; intros H.
  - now apply not_elem_of_nil in H.
  - apply list_elem_of_singleton in H as ->. eauto.
  - apply list_elem_of_In, in_flat_map in H as (c & Hc & H). apply list_elem_of_In in Hc, H.
    rewrite Forall_forall in IH. eauto.
Qed.

(** An assignment with one variable changed. *)
Definition assign (n v : Z) (env : Z -> Z) : Z -> Z := fun x => if x =? n then v else env x.

Section Theorems.
Variable uf : Operator -> Z -> list Z -> Z.
Variable env : Z -> Z.
Variable simplify : option SmtSolver -> expr -> outcome expr.
Context {simplifier : SoundSimplifier uf (fun e => e = env) simplify}.
Variable solver : option SmtSolver.
Hypothesis solver_true : solver_agrees uf env solver.
Variable same : expr -> expr -> bool.
Hypothesis same_eq : forall a b, same a b = true -> a = b.

Lemma solver_true_ok : solver_ok uf (fun e => e = env) solver.
Proof. now intros ? ->. Qed.

(** Substituting an expression for a variable is assigning its value to
    the variable: the result has, under any assignment, the value that the
    original has when the variable is worth the substituted expression.  It
    holds of integer expressions without shifts all of whose occurrences of the
    variable are equivalent to the one replaced; the substituter's memory of
    the expressions it has seen and the simplification of what it rebuilds do
    not show. *)
Theorem substitute_value e t n f to r :
  Good e -> plain e = true -> Good (Var t n f) -> operand (nBits t) to ->
  (forall x, x ∈ getVariables e -> leaf_name x = n -> isEquivalentTo x (Var t n f) = true) ->
  substitute simplify solver same e (Var t n f) to = Ret r ->
  operand (expr_nBits e) r /\ eval uf env r = eval uf (assign n (eval uf env to) env) e.
Proof.
  intros Hg Hp Gv Ht Hocc H. set (env0 := assign n (eval uf env to) env). pose proof Ht as (Gt & It & Wt).
  assert (Hfrom : forall x, isEquivalentTo x (Var t n f) = true -> stands_for uf env env0 to x).
  { intros x Hx. split; [assumption|]. split; [assumption|]. rewrite (proj1 (isEquivalentTo_shape _ _ Hx)). split; [assumption|].
    rewrite (isEquivalentTo_eval uf env0 _ _ Hx). cbn [eval]. unfold env0, assign. rewrite Z.eqb_refl. symmetry. apply Z.mod_small.
    destruct (operand_bits uf _ to env Ht) as [_ Hb]. exact Hb. }
  assert (Hk : kept uf env env0 (fun input => if isEquivalentTo input (Var t n f) then Some to else None) e).
  { intros x Hx Hr. destruct (isEquivalentTo x (Var t n f)) eqn:E; [discriminate|].
    destruct (getVariables_Var e x Hx) as (t' & n' & f' & ->). cbn [eval]. unfold env0, assign.
    destruct (Z.eqb_spec n' n) as [->|]; [|reflexivity]. rewrite (Hocc _ Hx eq_refl) in E. discriminate. }
  assert (Hr : stands_for uf env env0 r e).
  { unfold substitute in H. inv_outcome. destruct (isEquivalentTo e (Var t n f)) eqn:E; [injection H as <-; now apply Hfrom|].
    destruct (isInterior e) eqn:Ei.
    - inv_outcome. match goal with p : expr * ExprMap |- _ => destruct p as [r1 m] end. injection H as ->. unfold SingleSubstituter in H1.
      eapply (substituter_stands uf env env0 simplify solver solver_true_ok same same_eq) in H1; [apply H1|..]; try eassumption; [|apply memo_nil].
      intros k v _ _ Hv. cbn beta in Hv. destruct (isEquivalentTo k (Var t n f)) eqn:Ek; [|discriminate]. injection Hv as <-. now apply Hfrom.
    - injection H as <-. apply stands_refl; [assumption|now apply plain_integer|].
      destruct e as [? ? ?|t' n' f'|]; [reflexivity| |discriminate]. apply (Hk _ ltac:(now apply list_elem_of_singleton)). now rewrite E. }
  destruct Hr as (Gr & Ir & Wr & Vr). split; [|exact Vr]. split; [assumption|]. now split.
Qed.

(** C37. Substituting many expressions at once, in an expression of integers
    without shifts: under two assignments such that every replacement is worth,
    in the first, what the expression it replaces is worth in the second, and
    the variables that are not replaced are worth the same in both, the result
    has in the first the value that the original has in the second.  The
    expression is [Good] (well typed, every node within the limits of the simplifier) and
    [plain] (every node an integer, hence no memory or floating point, and no shift), the
    replacements are [Good] integers of the width of what they replace, the
    simplifier is sound, expressions taken for the same are equal, and the
    solver's answers are true in the first assignment. *)
Theorem substituteMultiple_value e substitutions env0 r :
  Good e -> plain e = true ->
  (forall k v, (k, v) ∈ substitutions -> operand (expr_nBits k) v /\ eval uf env v = eval uf env0 k) ->
  (forall x, x ∈ getVariables e -> find_expr substitutions x = None -> eval uf env x = eval uf env0 x) ->
  substituteMultiple simplify solver same e substitutions = Ret r ->
  operand (expr_nBits e) r /\ eval uf env r = eval uf env0 e.
Proof.
  intros Hg Hp Hs Hk H. unfold substituteMultiple in H. inv_outcome. match goal with p : expr * ExprMap |- _ => destruct p as [r1 m] end. injection H as ->. unfold MultiSubstituter in H0.
  eapply (substituter_stands uf env env0 simplify solver solver_true_ok same same_eq) in H0; try eassumption; [| |apply memo_nil].
  - destruct H0 as [(Gr & Ir & Wr & Vr) _]. split; [|exact Vr]. split; [assumption|]. now split.
  - intros k0 v0 _ _ Hx. apply (find_expr_stands uf env env0 substitutions); [|assumption]. apply Forall_forall. intros [k v] Hkv.
    destruct (Hs k v Hkv) as ((Gv & Iv & Wv) & Ev). now repeat split; try apply Gv.
Qed.

(** ** Sets *)

#[local] Notation ev e := (eval uf env e).

(** The number of a member. *)
Lemma member_number i n : 0 <= i < 2 ^ 32 -> makeIntegerConstant 32 i 0 = Ret n -> operand 32 n /\ ev n = i.
Proof.
  intros Hi H. apply makeIntegerConstant_Ret in H as (-> & _). rewrite fromInteger_spec by lia. rewrite Z.mod_small by lia.
  split; [|reflexivity]. split; [apply Const_Good; [lia|split; lia]|now split].
Qed.

Lemma set_conditionals_value w condVar members i r :
  Forall (operand w) members -> operand 32 condVar -> 0 <= i -> i + Z.of_nat (length members) <= 2 ^ 32 ->
  set_conditionals simplify solver condVar i members = Ret r ->
  operand w r /\
  ev r = let v := ev condVar in let vs := map (fun m => ev m) members in
         if v <? i then List.last vs 0 else nth (Z.to_nat (v - i)) vs (List.last vs 0).
Proof.
  intros Hm Hc. revert i r. induction members as [|m1 members IH]; intros i r Hi Hn H; [discriminate|].
  apply Forall_cons in Hm as [H1 Hm]. destruct members as [|m2 members].
  - injection H as <-. split; [assumption|]. cbn. destruct (_ <? _); [reflexivity|]. now destruct (Z.to_nat _) as [|[|?]].
  - set (ms := m2 :: members) in *. assert (Hlast : forall y, List.last (y :: map (fun m => ev m) ms) 0 = List.last (map (fun m => ev m) ms) 0) by reflexivity.
    change (set_conditionals simplify solver condVar i (m1 :: ms)) with
      (let! retval := set_conditionals simplify solver condVar (i + 1) ms in
       let! n := makeIntegerConstant 32 i 0 in
       let! cond := makeEq simplify solver condVar n 0 in makeIte simplify solver cond m1 retval 0) in H.
    cbn [length] in Hn. inv_outcome. apply IH in H0 as [Ox Vx]; [|assumption|lia|lia].
    apply member_number in H2 as [On Vn]; [|lia]. unfold makeEq in H3. rewrite (fp_or_int_node simplify solver OP_FP_EQ OP_EQ 32) in H3 by assumption.
    eapply (comparison_worth uf (fun e => e = env) simplify solver solver_true_ok OP_EQ 32) in H3; try assumption; [|reflexivity].
    apply worth_operand in H3 as [(Gc & _) Vc].
    apply (makeIte_sound uf (fun e => e = env) simplify simplifier solver solver_true_ok (mkType INTEGER w 0)) in H;
      [|assumption|apply H1|apply Ox|now apply (operand_type uf w)..].
    destruct (worth_operand uf (fun e => e = env) r w _ H) as [Or Vr]. split; [assumption|].
    rewrite (Vr env eq_refl), (Vc env eq_refl), Vx, Vn. cbn [eval_op2 map]. cbv zeta. rewrite Hlast.
    destruct (operand_bits uf 32 condVar env Hc) as [_ [Hv _]]. set (v := ev condVar) in *.
    destruct (Z.eqb_spec v i) as [->|Hne]; cbn [bool_Z].
    + rewrite Z.ltb_irrefl, Z.sub_diag. reflexivity.
    + destruct (Z.ltb_spec v i), (Z.ltb_spec v (i + 1)); try lia; [reflexivity|].
      replace (Z.to_nat (v - i)) with (S (Z.to_nat (v - (i + 1)))) by lia. reflexivity.
Qed.

(** The conditionals that a set is expanded into select one member: with a
    selector worth [v], the member number [v] counted from one, and the last
    member for zero and for the numbers past the end. *)
Theorem setToIte_value w t members f condVar r :
  Forall (operand w) members -> operand 32 condVar -> Z.of_nat (length members) < 2 ^ 32 ->
  setToIte simplify solver (Node OP_SET t members f) condVar = Ret r ->
  operand w r /\
  ev r = let v := ev condVar in let vs := map (fun m => ev m) members in
         if v <? 1 then List.last vs 0 else nth (Z.to_nat (v - 1)) vs (List.last vs 0).
Proof. intros Hm Hc Hn H. apply (set_conditionals_value w condVar members 1); try assumption; lia. Qed.
End Theorems.

(** ** Renaming *)

(** The assignment that gives a new variable what the old one had. *)
Definition renamed_assignment (firstId : Z) (names : ExprMap) (env : Z -> Z) : Z -> Z :=
  fun x => match names !! Z.to_nat ((x - firstId) mod 2 ^ 64) with Some (k, _) => env (leaf_name k) | None => 0 end.

Lemma renamed_assignment_at firstId (names : ExprMap) env i k v :
  Z.of_nat (length names) <= 2 ^ 64 -> names !! i = Some (k, v) ->
  renamed_assignment firstId names env ((firstId + Z.of_nat i) mod 2 ^ 64) = env (leaf_name k).
Proof.
  intros Hl H. unfold renamed_assignment. rewrite Zminus_mod_idemp_l. replace (firstId + Z.of_nat i - firstId) with (Z.of_nat i) by lia.
  apply lookup_lt_Some in H as Hi. rewrite (Z.mod_small (Z.of_nat i)), Nat2Z.id by lia. now rewrite H.
Qed.

Section Renaming.
Variable uf : Operator -> Z -> list Z -> Z.
Variable simplify : option SmtSolver -> expr -> outcome expr.
Context {simplifier : forall env, SoundSimplifier uf (fun e => e = env) simplify}.
Variable solver : option SmtSolver.
Hypothesis solver_true : forall env, solver_agrees uf env solver.
Variable same : expr -> expr -> bool.
Hypothesis same_eq : forall a b, same a b = true -> a = b.

Lemma names_stand firstId (names : ExprMap) env :
  Z.of_nat (length names) <= 2 ^ 64 -> numbered firstId names ->
  memo_ok uf (renamed_assignment firstId names env) env names.
Proof.
  intros Hl Hn. unfold memo_ok. apply Forall_lookup. intros i [k v] H.
  destruct (Hn i k v H) as (t & n & f & -> & -> & Hg & Hc & _). cbn [fst snd].
  split; [exact Hg|]. split; [exact Hc|]. split; [reflexivity|]. cbn [eval].
  now rewrite (renamed_assignment_at firstId names env i (Var t n f) _ Hl H).
Qed.

(** C36. Renaming the variables of an expression of integers without shifts loses
    nothing: the new variables are numbered in order from [firstId], each of the
    type and flags of the one it replaces, so that every assignment of the old
    variables carries over to the new ones, and the result, simplified on the
    way, has under the latter the value of the original under the former.  The
    expression is [Good] (well typed, every node within the limits of the
    simplifier) and [plain] (every node an integer, hence no memory or floating point, and no
    shift), the index of new names is empty at first and has at most 2^64 names at the
    end, the simplifier is sound, expressions taken for the same are equal, and the solver's answers are true in every assignment. *)
Theorem renameVariables_value e firstId r names nextId :
  Good e -> plain e = true -> 0 <= firstId < 2 ^ 64 -> Z.of_nat (length names) <= 2 ^ 64 ->
  renameVariables simplify solver same e [] firstId = Ret (r, names, nextId) ->
  numbered firstId names /\ nextId = (firstId + Z.of_nat (length names)) mod 2 ^ 64 /\
  operand (expr_nBits e) r /\ forall env, eval uf (renamed_assignment firstId names env) r = eval uf env e.
Proof.
  intros Hg Hp Hf Hl H. unfold renameVariables in H. apply obind_Ret in H as ([r' s'] & E & H). injection H as -> <- <-.
  pose proof (fun env => rename_stands uf _ env simplify solver
    (solver_true_ok uf (renamed_assignment firstId (index s') env) solver (solver_true _)) same same_eq firstId e Hg Hp _ _ _ E) as Hr.
  destruct (Hr (fun _ => 0)) as [[_ Ho] _]. destruct Ho as [Hn Hi].
  { split; [intros i k v H; discriminate|]. cbn [index nextVariableId length]. rewrite Z.add_0_r. symmetry. now apply Z.mod_small. }
  split; [assumption|]. split; [assumption|].
  assert (Hs : forall env, stands_for uf (renamed_assignment firstId (index s') env) env r e).
  { intros env. destruct (Hr env) as [_ Hs]. apply Hs; [now apply names_stand|constructor]. }
  split; [|intros env; apply (Hs env)]. destruct (Hs (fun _ => 0)) as (Gr & Ir & Wr & _). split; [assumption|]. now split.
Qed.
End Renaming.

(** ** The template *)

(** The template [substitute] cannot rebuild a conversion: it passes no type
    to the node it makes, and the node of a conversion or a reinterpretation
    takes its type from there, so whenever the operand of one has changed the
    width assertion fails.  [Interior::substitute] passes the type. *)
Theorem substitute_by_untyped simplify solver same subber op t c c' f :
  op = OP_CONVERT \/ op = OP_REINTERPRET -> 0 < expr_nBits c' ->
  subber (Node op t [c] f) = Ret (Node op t [c] f) -> same (Node op t [c] f) (Node op t [c] f) = true ->
  substitute_by simplify solver same subber c = Ret c' -> same c' c = false ->
  substitute_by simplify solver same subber (Node op t [c] f) = Fail AssertFail.
Proof.
  intros Hop Hw Hn Hsame Hc Hc'. cbn [substitute_by]. rewrite Hn. cbn [obind]. rewrite Hsame. cbn [negb].
  rewrite Hc. cbn [obind]. rewrite Hc'. cbn [negb orb]. unfold instance_with, interior.
  assert (Ha : adjustWidth op [c'] type_none = Fail AssertFail); [|now rewrite Ha].
  destruct Hop as [->| ->]; cbn; [reflexivity|]. now destruct (Z.eqb_spec (expr_nBits c') 0); [lia|].
Qed.

(** * Witnesses *)

#[local] Notation run := (simplifyTop 20 (fun _ => 0)).
#[local] Notation no_uf := (fun _ _ _ => 0).

(** A difference of two bytes. *)
Definition byte_diff : expr :=
  Node OP_ADD (mkType INTEGER 8 0) [byte_var 1; Node OP_NEGATE (mkType INTEGER 8 0) [byte_var 2] 0] 0.
Lemma byte_diff_Good : Good byte_diff.
Proof. split; [cbn; repeat split; lia|reflexivity]. Qed.

Lemma no_solver_agrees uf env : solver_agrees uf env None.
Proof. intros s a b H. discriminate. Qed.

#[local] Notation ids_env := (fun n : Z => n).

(** The difference of a byte and itself. *)
Theorem substitute_value_witness :
  substitute run None expr_eqb byte_diff (byte_var 2) (byte_var 1) = Ret (Const (mkType INTEGER 8 0) 0 0) /\
  operand 8 (Const (mkType INTEGER 8 0) 0 0) /\
  eval no_uf ids_env (Const (mkType INTEGER 8 0) 0 0) = eval no_uf (assign 2 (eval no_uf ids_env (byte_var 1)) ids_env) byte_diff.
Proof.
  split; [vm_compute; reflexivity|].
  apply (substitute_value no_uf ids_env run None (no_solver_agrees _ _) expr_eqb expr_eqb_eq byte_diff (mkType INTEGER 8 0) 2 0 (byte_var 1)).
  - apply byte_diff_Good.
  - reflexivity.
  - apply byte_var_Good.
  - apply byte_operand.
  - intros x Hx. apply elem_of_cons in Hx as [->|Hx]; [intros [=]|]. apply list_elem_of_singleton in Hx as ->. reflexivity.
  - vm_compute. reflexivity.
Defined.

(** Two bytes exchanged. *)
Definition exchange : ExprMap := [(byte_var 1, byte_var 2); (byte_var 2, byte_var 1)].
Definition exchanged : expr :=
  Node OP_ADD (mkType INTEGER 8 0) [Node OP_NEGATE (mkType INTEGER 8 0) [byte_var 1] 0; byte_var 2] 0.

Theorem substituteMultiple_value_witness :
  substituteMultiple run None expr_eqb byte_diff exchange = Ret exchanged /\
  operand 8 exchanged /\ eval no_uf ids_env exchanged = eval no_uf (fun n => 3 - n) byte_diff.
Proof.
  split; [vm_compute; reflexivity|].
  apply (substituteMultiple_value no_uf ids_env run None (no_solver_agrees _ _) expr_eqb expr_eqb_eq byte_diff exchange (fun n => 3 - n)).
  - apply byte_diff_Good.
  - reflexivity.
  - intros k v H. apply elem_of_cons in H as [[= -> ->]|H]; [split; [apply byte_operand|reflexivity]|].
    apply list_elem_of_singleton in H as [= -> ->]. split; [apply byte_operand|reflexivity].
  - intros x H. apply elem_of_cons in H as [->|H]; [discriminate|]. apply list_elem_of_singleton in H as ->. discriminate.
  - vm_compute. reflexivity.
Defined.

(** A selector and three members. *)
Definition selector : expr := Var (mkType INTEGER 32 0) 9 0.
Definition three_bytes : list expr := [byte_var 1; byte_var 2; byte_var 3].

(** The selector is nine here, so the last member. *)
Theorem setToIte_value_witness :
  exists r, setToIte run None (Node OP_SET (mkType INTEGER 8 0) three_bytes 0) selector = Ret r /\
    operand 8 r /\ eval no_uf ids_env r = 3.
Proof.
  eexists. split; [vm_compute; reflexivity|].
  apply (setToIte_value no_uf ids_env run None (no_solver_agrees _ _) 8 (mkType INTEGER 8 0) three_bytes 0 selector).
  - repeat (constructor; [apply byte_operand|]). constructor.
  - now repeat split.
  - cbn. lia.
  - vm_compute. reflexivity.
Defined.

(** The last identifier, and the first one after it has wrapped around. *)
Theorem renameVariables_value_witness :
  exists r names, renameVariables run None expr_eqb byte_diff [] (2 ^ 64 - 1) = Ret (r, names, 1) /\
    numbered (2 ^ 64 - 1) names /\ 1 = (2 ^ 64 - 1 + Z.of_nat (length names)) mod 2 ^ 64 /\ operand 8 r /\
    forall env, eval no_uf (renamed_assignment (2 ^ 64 - 1) names env) r = eval no_uf env byte_diff.
Proof.
  eexists _, _. split; [vm_compute; reflexivity|].
  apply (renameVariables_value no_uf run None (fun env => no_solver_agrees _ env) expr_eqb expr_eqb_eq byte_diff).
  - apply byte_diff_Good.
  - reflexivity.
  - lia.
  - cbn [length]. lia.
  - vm_compute. reflexivity.
Defined.

(** The conversion of a byte to sixteen bits. *)
Definition widened (e : expr) : expr := Node OP_CONVERT (mkType INTEGER 16 0) [e] 0.
Definition one_for_two (e : expr) : outcome expr := Ret (if expr_eqb e (byte_var 1) then byte_var 2 else e).

(** [substitute] replaces its operand. *)
Theorem substitute_by_untyped_witness :
  substitute_by run None expr_eqb one_for_two (widened (byte_var 1)) = Fail AssertFail /\
  exists r, substitute run None expr_eqb (widened (byte_var 1)) (byte_var 1) (byte_var 2) = Ret r.
Proof.
  split; [|eexists; vm_compute; reflexivity].
  apply (substitute_by_untyped run None expr_eqb one_for_two OP_CONVERT (mkType INTEGER 16 0) (byte_var 1) (byte_var 2) 0);
    first [now left|reflexivity].
Defined.
