(* ===== verification/SymLimits.v ===== *)
(** What [Interior::instance] makes of expressions outside the domain of
    [instance_keeps_value]: each bound of [ok_node] is there because of one of
    these runs. *)
From S2P Require Import Prelude BitVector SymType SymExpr SymSimplify SymEval.
Open Scope Z_scope.

#[local] Notation int w := (mkType INTEGER w 0).
#[local] Notation built op cs := (make 20 (fun _ => 0) None type_none op cs 0).

(** The identity of a conjunction is 64 one bits, whatever its width: a mask of
    the low half of 128 bits is dropped. *)
Example and_mask_dropped :
  built OP_AND [Const (int 128) (2 ^ 64 - 1) 0; Var (int 128) 1 0] = Ret (Var (int 128) 1 0).
Proof. vm_compute. reflexivity. Qed.

(** Two nested shifts by amounts of eight bits: the amounts are added in eight
    bits, so shifting by 200 and by 100 becomes shifting by 44. *)
Example nested_shift_wraps :
  (let! inner := built OP_ASR [Const (int 8) 200 0; Var (int 512) 1 0] in
   built OP_ASR [Const (int 8) 100 0; inner]) =
  Ret (Node OP_ASR (int 512) [Const (int 8) 44 0; Var (int 512) 1 0] 0).
Proof. vm_compute. reflexivity. Qed.

(** A shift that brings in 100 one bits brings in 64 of them. *)
Example shift_in_ones_64 :
  built OP_SHL1 [Const (int 8) 100 0; Var (int 128) 1 0] =
  Ret (Node OP_CONCAT (int 128)
         [Node OP_EXTRACT (int 28) [Const (int 32) 0 0; Const (int 32) 28 0; Var (int 128) 1 0] 0;
          Const (int 100) (2 ^ 64 - 1) 0] 0).
Proof. vm_compute. reflexivity. Qed.

(** A product by one is extended to the width of the product modulo 256: the
    264-bit product of a byte and 256 bits becomes eight bits wide. *)
Example product_narrowed :
  (let! e := built OP_UMUL [Const (int 8) 1 0; Var (int 256) 1 0] in Ret (expr_nBits e)) = Ret 8 /\
  adjustWidth OP_UMUL [Const (int 8) 1 0; Var (int 256) 1 0] type_none = Ret (int 264).
Proof. split; vm_compute; reflexivity. Qed.

(** An arithmetic shift by a constant wider than 64 bits does not shift. *)
Example wide_amount_ignored :
  built OP_ASR [Const (int 128) 5 0; Const (int 8) 128 0] = Ret (Const (int 8) 128 0).
Proof. vm_compute. reflexivity. Qed.

(** The quotient that overflows is computed. *)
Example signed_quotient_overflow :
  built OP_SDIV [Const (int 64) (2 ^ 63) 0; Const (int 64) (2 ^ 64 - 1) 0] = Fail Undefined.
Proof. vm_compute. reflexivity. Qed.

(** A well-formed conditional of two extractions throws, when the expressions
    extracted from have one width and two types. *)
Example hoisted_extractions_throw :
  let offset n := Const (int 32) n 0 in
  (let! x := built OP_EXTRACT [offset 0; offset 8; Var (int 32) 1 0] in
   let! y := built OP_EXTRACT [offset 0; offset 8; Var (mkType FP 32 8) 2 0] in
   assert! bool_decide (expr_type x = expr_type y) else AssertFail in
   built OP_ITE [Var (int 1) 3 0; x; y]) = Fail Throw.
Proof. vm_compute. reflexivity. Qed.

(** A concatenation of one floating point operand is that operand, not an
    integer. *)
Example concatenation_of_one :
  built OP_CONCAT [Var (mkType FP 32 8) 2 0] = Ret (Var (mkType FP 32 8) 2 0) /\
  adjustWidth OP_CONCAT [Var (mkType FP 32 8) 2 0] type_none = Ret (int 32).
Proof. split; vm_compute; reflexivity. Qed.

(** Sixteen bits are extracted from eight. *)
Example extraction_beyond_operand :
  built OP_EXTRACT [Const (int 32) 0 0; Const (int 32) 16 0; Var (int 8) 1 0] =
  Ret (Node OP_EXTRACT (int 16) [Const (int 32) 0 0; Const (int 32) 16 0; Var (int 8) 1 0] 0).
Proof. vm_compute. reflexivity. Qed.
