(* ===== verification/VarIds.v ===== *)
(** The identifiers of variables ([Leaf::nextNameCounter] in
    [src/Rose/BinaryAnalysis/SymbolicExpression.C]), handed out to several
    threads from sixteen pools, each under its own lock and replenished from a
    global counter, or from one counter when identifiers are serialized.

    A request to use an identifier again, the high-water mark, takes several
    critical sections; the requests of threads interleave between them.  Each
    critical section is an action here, and a history is any list of actions. *)
From S2P Require Import Prelude.
Open Scope Z_scope.

(** * State and actions *)

Definition u64 (x : Z) : Z := x mod 2 ^ 64.

(** The argument that asks for a new identifier. *)
Definition NEW_ID : Z := 2 ^ 64 - 1.

Record IdPool := { nextId : Z; endId : Z }.
Record Ids := { pools : list IdPool; globalNextId : Z }.

Definition nPools : nat := 16.
Definition poolSize : Z := 10000.
Definition no_ids : Ids := {| pools := repeat {| nextId := 0; endId := 0 |} nPools; globalNextId := 0 |}.

(** Fill a pool that is empty; the global counter is locked inside the pool. *)
Definition replenish (pool : IdPool) (globalNextId : Z) : IdPool * Z :=
  if endId pool <=? nextId pool
  then ({| nextId := globalNextId; endId := u64 (globalNextId + poolSize) |}, u64 (globalNextId + poolSize))
  else (pool, globalNextId).

(** The critical section of a request, with the pool that was chosen at random. *)
Definition take_id (i : nat) (s : Ids) : outcome (Z * Ids) :=
  match pools s !! i with
  | None => Fail Undefined
  | Some pool =>
      let (pool, g) := replenish pool (globalNextId s) in
      Ret (nextId pool,
           {| pools := <[i := {| nextId := u64 (nextId pool + 1); endId := endId pool |}]> (pools s);
              globalNextId := g |})
  end.

(** The critical sections of a high-water mark: the global counter, then every
    pool in turn.  The loop over the pools has an inner loop over as many
    indices that treats the same pool. *)
Definition raise_global (highWaterMark : Z) (s : Ids) : Ids :=
  {| pools := pools s;
     globalNextId := if globalNextId s <=? highWaterMark then u64 (highWaterMark + 1) else globalNextId s |}.

Definition discard (highWaterMark : Z) (pool : IdPool) : IdPool :=
  if endId pool <=? highWaterMark then {| nextId := 0; endId := 0 |}
  else if nextId pool <=? highWaterMark then {| nextId := u64 (highWaterMark + 1); endId := endId pool |}
  else pool.

Definition discard_loop (highWaterMark : Z) (pool : IdPool) : IdPool :=
  Nat.iter nPools (discard highWaterMark) pool.

Definition purge_pool (i : nat) (highWaterMark : Z) (s : Ids) : outcome Ids :=
  match pools s !! i with
  | None => Fail Undefined
  | Some pool =>
      Ret {| pools := <[i := discard_loop highWaterMark pool]> (pools s);
             globalNextId := globalNextId s |}
  end.

Inductive action :=
  | Take (i : nat)
  | Raise (highWaterMark : Z)
  | Purge (i : nat) (highWaterMark : Z).

(** The identifiers an action hands out, and the state after it. *)
Definition act (a : action) (s : Ids) : outcome (list Z * Ids) :=
  match a with
  | Take i => let! ' (x, s) := take_id i s in Ret ([x], s)
  | Raise h => Ret ([], raise_global h s)
  | Purge i h => let! s := purge_pool i h s in Ret ([], s)
  end.

Fixpoint run_actions (acts : list action) (s : Ids) : outcome (list Z * Ids) :=
  match acts with
  | [] => Ret ([], s)
  | a :: acts =>
      let! ' (ids, s) := act a s in
      let! ' (ids', s) := run_actions acts s in
      Ret (ids ++ ids', s)
  end.

(** ** A call of [nextNameCounter] *)

(** What a call does, with the pool chosen. *)
Definition name_actions (i : nat) (highWaterMark : Z) : list action :=
  if highWaterMark =? NEW_ID then [Take i]
  else Raise highWaterMark :: map (fun i => Purge i highWaterMark) (seq 0 nPools).

(** With [serializeVariableIds]: one counter under one lock. *)
Definition serial_name (highWaterMark counter : Z) : Z * Z :=
  if highWaterMark =? NEW_ID then (u64 (counter + 1), u64 (counter + 1))
  else (highWaterMark, Z.max counter highWaterMark).

Record Names := { ids : Ids; serial_counter : Z }.

Definition nextNameCounter (serializeVariableIds : bool) (i : nat) (highWaterMark : Z) (n : Names) :
  outcome (Z * Names) :=
  if serializeVariableIds then
    let (x, c) := serial_name highWaterMark (serial_counter n) in
    Ret (x, {| ids := ids n; serial_counter := c |})
  else
    let! ' (l, s) := run_actions (name_actions i highWaterMark) (ids n) in
    Ret (List.hd highWaterMark l, {| ids := s; serial_counter := serial_counter n |}).

(** The new identifiers of a sequence of calls in the serialized mode. *)
Fixpoint serial_ids (calls : list Z) (counter : Z) : list Z :=
  match calls with
  | [] => []
  | h :: calls =>
      let (x, c) := serial_name h counter in
      if h =? NEW_ID then x :: serial_ids calls c else serial_ids calls c
  end.

(** * The invariant *)

(** The identifiers a pool has left. *)
Definition live (p : IdPool) (x : Z) : Prop := nextId p <= x < endId p.

(** How far a history can move the global counter, and the same for the serial
    counter; the marks are identifiers. *)
Definition id_budget (acts : list action) (g : Z) : Z :=
  fold_left (fun g a => match a with Take _ => g + poolSize | Raise h => Z.max g (h + 1) | Purge _ _ => g end) acts g.
Definition mark_ok (a : action) : Prop :=
  match a with Take _ => True | Raise h | Purge _ h => 0 <= h end.

Record Inv (s : Ids) (issued : list Z) : Prop := {
  inv_length : length (pools s) = nPools;
  inv_pool : forall i p, pools s !! i = Some p -> 0 <= nextId p <= endId p /\ endId p <= globalNextId s;
  inv_disjoint : forall i j p q x, pools s !! i = Some p -> pools s !! j = Some q -> live p x -> live q x -> i = j;
  inv_issued : forall x, x ∈ issued -> 0 <= x < globalNextId s /\ forall i p, pools s !! i = Some p -> ~ live p x;
  inv_nodup : NoDup issued;
}.

Lemma no_ids_Inv : Inv no_ids [].
Proof.
  assert (H : forall i p, pools no_ids !! i = Some p -> p = {| nextId := 0; endId := 0 |}).
  { intros i p Hp. apply list_elem_of_lookup_2, list_elem_of_In, repeat_spec in Hp. assumption. }
  split.
  - reflexivity.
  - intros i p Hp. apply H in Hp as ->. cbn. lia.
  - intros i j p q x Hp Hq. apply H in Hp as ->. unfold live. cbn. lia.
  - intros x Hx. now apply not_elem_of_nil in Hx.
  - constructor.
Qed.

Lemma u64_id x : 0 <= x < 2 ^ 64 -> u64 x = x.
Proof. apply Z.mod_small. Qed.

Lemma id_budget_le acts g : g <= id_budget acts g.
Proof.
  unfold id_budget. revert g. induction acts as [|[i|h|i h] acts IH]; intros g; cbn [fold_left]; [lia|..]; unfold poolSize in *;
    try (etransitivity; [|apply IH]; lia).
Qed.

Lemma discard_spec h p :
  0 <= h -> 0 <= nextId p <= endId p -> endId p < 2 ^ 64 ->
  let p' := discard_loop h p in
  p' = discard h p /\ 0 <= nextId p' <= endId p' /\ endId p' <= endId p /\ forall x, live p' x <-> live p x /\ h < x.
Proof.
  intros Hh Hp He.
  assert (Hd : discard h (discard h p) = discard h p).
  { unfold discard at 2 3. destruct (Z.leb_spec (endId p) h); [unfold discard; cbn [nextId endId]; now rewrite (proj2 (Z.leb_le 0 h))|].
    destruct (Z.leb_spec (nextId p) h).
    - rewrite u64_id by lia. unfold discard. cbn [nextId endId]. now rewrite !(proj2 (Z.leb_gt _ h)) by lia.
    - unfold discard. now rewrite !(proj2 (Z.leb_gt _ h)) by lia. }
  assert (Hi : forall n, Nat.iter (S n) (discard h) p = discard h p).
  { induction n as [|n IH]; [reflexivity|]. change (discard h (Nat.iter (S n) (discard h) p) = discard h p). now rewrite IH. }
  cbv zeta. unfold discard_loop, nPools. rewrite Hi. split; [reflexivity|]. unfold discard.
  destruct (Z.leb_spec (endId p) h); [cbn [nextId endId]; unfold live; cbn [nextId endId]; split; [lia|split; [lia|]]; intros x; lia|].
  destruct (Z.leb_spec (nextId p) h); unfold live; cbn [nextId endId]; rewrite ?u64_id by lia; (split; [lia|split; [lia|]]); intros x; lia.
Qed.

(** A pool is replaced, the others stay. *)
Lemma lookup_replaced (l : list IdPool) i p j q :
  <[i := p]> l !! j = Some q -> (j = i /\ q = p) \/ (j <> i /\ l !! j = Some q).
Proof.
  destruct (decide (i = j)) as [<-|Hne].
  - intros H. left. split; [reflexivity|].
    assert (Hl : (i < length l)%nat) by (apply lookup_lt_Some in H; now rewrite length_insert in H).
    rewrite list_lookup_insert_eq in H by assumption. congruence.
  - rewrite list_lookup_insert_ne by assumption. intros H. right. now split.
Qed.

(** Replacing a pool by one with some of its identifiers. *)
Lemma Inv_shrink s issued i p p' :
  Inv s issued -> pools s !! i = Some p -> 0 <= nextId p' <= endId p' -> endId p' <= endId p ->
  (forall x, live p' x -> live p x) ->
  Inv {| pools := <[i := p']> (pools s); globalNextId := globalNextId s |} issued.
Proof.
  intros [Hlen Hp Hd Hi Hn] E Hp' He Hl.
  assert (Hsub : forall j q, <[i := p']> (pools s) !! j = Some q -> exists q0, pools s !! j = Some q0 /\ forall x, live q x -> live q0 x).
  { intros j q Hq. apply lookup_replaced in Hq as [[-> ->]|[_ Hq]]; [now exists p|now exists q]. }
  split; cbn [pools globalNextId].
  - now rewrite length_insert.
  - intros j q Hq. apply lookup_replaced in Hq as [[-> ->]|[_ Hq]]; [|now apply (Hp j)]. destruct (Hp i p E). lia.
  - intros j k q r x Hq Hr Lq Lr. destruct (Hsub j q Hq) as (q0 & Hq0 & Sq), (Hsub k r Hr) as (r0 & Hr0 & Sr).
    apply (Hd j k q0 r0 x); auto.
  - intros x Hx. destruct (Hi x Hx) as [Hg Hnl]. split; [assumption|]. intros j q Hq L. destruct (Hsub j q Hq) as (q0 & Hq0 & Sq).
    apply (Hnl j q0); auto.
  - assumption.
Qed.

(** Replenishing an empty pool. *)
Lemma Inv_replenish s issued i p :
  Inv s issued -> pools s !! i = Some p -> globalNextId s + poolSize < 2 ^ 64 ->
  let (p', g) := replenish p (globalNextId s) in
  Inv {| pools := <[i := p']> (pools s); globalNextId := g |} issued /\
  nextId p' < endId p' /\ globalNextId s <= g <= globalNextId s + poolSize /\
  (nextId p' = nextId p \/ nextId p' = globalNextId s) /\ (nextId p < endId p -> p' = p).
Proof.
  intros HI E Hg. pose proof HI as [Hlen Hp Hd Hi Hn]. destruct (Hp i p E) as [Hpp Hpe]. unfold replenish, poolSize in *.
  destruct (Z.leb_spec (endId p) (nextId p)); [|split; [now apply (Inv_shrink s issued i p)|repeat split; try lia; now left]].
  rewrite u64_id by lia. cbn [nextId endId]. split; [|repeat split; try lia; now right]. split; cbn [pools globalNextId].
  - now rewrite length_insert.
  - intros j q Hq. apply lookup_replaced in Hq as [[-> ->]|[_ Hq]]; [cbn; lia|]. destruct (Hp j q Hq). lia.
  - assert (Hfar : forall j q x, pools s !! j = Some q -> live q x -> globalNextId s <= x -> False).
    { intros j q x Hq L Hx. destruct (Hp j q Hq). unfold live in L. lia. }
    intros j k q r x Hq Hr Lq Lr. apply lookup_replaced in Hq as [[-> ->]|[Nj Hq]], Hr as [[-> ->]|[Nk Hr]]; [reflexivity| | |].
    + exfalso. apply (Hfar k r x Hr Lr). unfold live in Lq. cbn in Lq. lia.
    + exfalso. apply (Hfar j q x Hq Lq). unfold live in Lr. cbn in Lr. lia.
    + now apply (Hd j k q r x).
  - intros x Hx. destruct (Hi x Hx) as [Hgx Hnl]. split; [lia|]. intros j q Hq L.
    apply lookup_replaced in Hq as [[-> ->]|[_ Hq]]; [unfold live in L; cbn in L; lia|now apply (Hnl j q)].
  - assumption.
Qed.

Lemma take_Inv s issued i x s' :
  Inv s issued -> globalNextId s + poolSize < 2 ^ 64 -> take_id i s = Ret (x, s') ->
  Inv s' (issued ++ [x]) /\ globalNextId s <= globalNextId s' <= globalNextId s + poolSize.
Proof.
  intros HI Hg H. unfold take_id in H. destruct (pools s !! i) as [p|] eqn:E; [|discriminate].
  pose proof (Inv_replenish s issued i p HI E Hg) as Hr. destruct (replenish p (globalNextId s)) as [p' g].
  destruct Hr as (HI' & Hlt & Hg' & _). injection H as <- <-. cbn [globalNextId]. split; [|lia].
  assert (Hl : (i < length (pools s))%nat) by now apply lookup_lt_Some in E.
  assert (E' : <[i := p']> (pools s) !! i = Some p') by now apply list_lookup_insert_eq.
  pose proof HI' as [Hlen Hp Hd Hi Hn]. cbn [pools globalNextId] in *. destruct (Hp i p' E') as [Hpp Hpe].
  assert (Hnew : nextId p' ∉ issued).
  { intros Hx. destruct (Hi _ Hx) as [_ Hnl]. apply (Hnl i p' E'). unfold live. lia. }
  rewrite u64_id by (unfold poolSize in *; lia).
  pose proof (Inv_shrink _ issued i p' {| nextId := nextId p' + 1; endId := endId p' |} HI' E') as Hs. cbn [pools globalNextId nextId endId] in Hs.
  rewrite list_insert_insert_eq in Hs. destruct Hs as [Sl Sp Sd Si Sn]; [lia|lia|unfold live; cbn [nextId endId]; lia|].
  split; cbn [pools globalNextId] in *; [assumption|assumption|assumption| |].
  - intros x Hx. apply elem_of_app in Hx as [Hx|Hx]; [now apply Si|]. apply list_elem_of_singleton in Hx as ->.
    split; [lia|]. intros j q Hq L. apply lookup_replaced in Hq as [[-> ->]|[Nj Hq]]; [unfold live in L; cbn in L; lia|].
    apply Nj. apply (Hd j i q p' (nextId p')); [now rewrite list_lookup_insert_ne|assumption|assumption|]. unfold live. lia.
  - apply NoDup_app. split; [assumption|]. split; [|apply NoDup_singleton].
    intros x Hx Hx'. apply list_elem_of_singleton in Hx' as ->. contradiction.
Qed.

Lemma act_Inv a s issued l s' :
  Inv s issued -> mark_ok a -> id_budget [a] (globalNextId s) < 2 ^ 64 -> act a s = Ret (l, s') ->
  Inv s' (issued ++ l) /\ globalNextId s <= globalNextId s' <= id_budget [a] (globalNextId s).
Proof.
  intros HI Hm Hb H. destruct a as [i|h|i h]; cbn [act] in H; unfold id_budget in *; cbn [fold_left mark_ok] in *.
  - inv_outcome. destruct x as [x s1]. inv_outcome. subst. now apply (take_Inv s issued i).
  - injection H as <- <-. rewrite app_nil_r. unfold raise_global. cbn [globalNextId].
    assert (Hg : globalNextId s <= (if globalNextId s <=? h then u64 (h + 1) else globalNextId s) <= Z.max (globalNextId s) (h + 1)).
    { destruct (Z.leb_spec (globalNextId s) h); rewrite ?u64_id by lia; lia. }
    split; [|exact Hg]. destruct HI as [Hlen Hp Hd Hi Hn]. split; cbn [pools globalNextId]; try assumption.
    + intros i p Hq. destruct (Hp i p Hq). lia.
    + intros x Hx. destruct (Hi x Hx). split; [lia|assumption].
  - inv_outcome. subst. rewrite app_nil_r. unfold purge_pool in H0. destruct (pools s !! i) as [p|] eqn:E; [|discriminate].
    injection H0 as <-. cbn [globalNextId]. split; [|lia]. destruct (inv_pool _ _ HI i p E) as [Hp He].
    destruct (discard_spec h p Hm Hp ltac:(lia)) as (_ & H1 & H2 & H3).
    apply (Inv_shrink s issued i p); [assumption|assumption|exact H1|exact H2|]. intros x Hx. now apply H3.
Qed.

Lemma id_budget_app a b g : id_budget (a ++ b) g = id_budget b (id_budget a g).
Proof. apply fold_left_app. Qed.

Lemma id_budget_mono acts g g' : g <= g' -> id_budget acts g <= id_budget acts g'.
Proof.
  unfold id_budget. revert g g'. induction acts as [|[i|h|i h] acts IH]; intros g g' H; cbn [fold_left]; [assumption|..]; apply IH; lia.
Qed.

Lemma run_Inv acts s issued l s' :
  Inv s issued -> Forall mark_ok acts -> id_budget acts (globalNextId s) < 2 ^ 64 -> run_actions acts s = Ret (l, s') ->
  Inv s' (issued ++ l) /\ globalNextId s <= globalNextId s' <= id_budget acts (globalNextId s).
Proof.
  intros HI Hm. revert s issued l HI. induction Hm as [|a acts Ha Hm IH]; intros s issued l HI Hb H; cbn [run_actions] in H.
  - injection H as <- <-. rewrite app_nil_r. split; [assumption|]. unfold id_budget. cbn. lia.
  - inv_outcome. destruct x as [l1 s1]. inv_outcome. destruct x as [l2 s2]. injection H as <- <-.
    change (a :: acts) with ([a] ++ acts) in Hb |- *. rewrite id_budget_app in *.
    pose proof (id_budget_le acts (id_budget [a] (globalNextId s))).
    destruct (act_Inv a s issued l1 s1 HI Ha ltac:(lia) H0) as [HI1 Hg1].
    pose proof (id_budget_mono acts _ _ (proj2 Hg1)).
    destruct (IH s1 (issued ++ l1) l2 HI1 ltac:(lia) H1) as [HI2 Hg2]. rewrite app_assoc. split; [assumption|lia].
Qed.

(** * Above a high-water mark *)

(** The global counter and some pools are past the mark. *)
Definition above (h : Z) (done : nat -> Prop) (s : Ids) : Prop :=
  h < globalNextId s /\ forall i p x, done i -> pools s !! i = Some p -> live p x -> h < x.

Lemma act_above h done a s issued l s' :
  Inv s issued -> mark_ok a -> id_budget [a] (globalNextId s) < 2 ^ 64 -> act a s = Ret (l, s') ->
  above h done s ->
  above h done s' /\ (forall i, a = Take i -> done i -> forall x, x ∈ l -> h < x) /\
  (forall i, a = Purge i h -> above h (fun j => done j \/ j = i) s').
Proof.
  intros HI Hm Hb H [Hg Hd]. pose proof (proj2 (act_Inv a s issued l s' HI Hm Hb H)) as Hgs.
  destruct a as [i|m|i m]; cbn [act] in H; unfold id_budget in Hb; cbn [fold_left mark_ok] in *.
  - inv_outcome. destruct x as [x s1]. inv_outcome. subst. split; [|split; [|easy]].
    + split; [lia|]. unfold take_id in H0. destruct (pools s !! i) as [p|] eqn:E; [|discriminate].
      pose proof (Inv_replenish s issued i p HI E Hb) as Hr. destruct (replenish p (globalNextId s)) as [p' g] eqn:Er.
      destruct Hr as (HI' & Hlt & Hg' & Hn & Hsame). injection H0 as <- <-. cbn [pools globalNextId] in *.
      assert (E' : <[i := p']> (pools s) !! i = Some p') by (apply list_lookup_insert_eq; now apply lookup_lt_Some in E).
      pose proof (inv_pool _ _ HI' i p' E') as [Hp' He']. cbn [globalNextId] in He'. unfold poolSize in *.
      intros j q y Hj Hq L. apply lookup_replaced in Hq as [[-> ->]|[Nj Hq]]; [|now apply (Hd j q)].
      unfold live in L. cbn [nextId endId] in L. destruct (inv_pool _ _ HI i p E).
      destruct (Z.lt_ge_cases (nextId p) (endId p)) as [Hne|Hem].
      * rewrite (Hsame Hne) in *. rewrite u64_id in L by lia. apply (Hd i p y Hj E). unfold live. lia.
      * destruct Hn as [Hn|Hn]; rewrite u64_id in L by lia; [|lia].
        unfold replenish in Er. rewrite (proj2 (Z.leb_le _ _) Hem) in Er. injection Er as <- <-. cbn [nextId] in *. lia.
    + intros j [= ->] Hj y Hy. apply list_elem_of_singleton in Hy as ->.
      unfold take_id in H0. destruct (pools s !! j) as [p|] eqn:E; [|discriminate]. unfold replenish in H0.
      destruct (Z.leb_spec (endId p) (nextId p)); injection H0 as <- _; [exact Hg|]. apply (Hd j p _ Hj E). unfold live. lia.
  - injection H as <- <-. split; [|split; easy]. split; [lia|]. exact Hd.
  - inv_outcome. subst. unfold purge_pool in H0. destruct (pools s !! i) as [p|] eqn:E; [|discriminate]. injection H0 as <-.
    destruct (inv_pool _ _ HI i p E) as [Hp He]. destruct (discard_spec m p Hm Hp ltac:(lia)) as (_ & H1 & H2 & H3).
    split; [|split; [easy|]].
    + split; [exact Hg|]. cbn [pools]. intros j q x Hj Hq L. apply lookup_replaced in Hq as [[-> ->]|[Nj Hq]]; [|now apply (Hd j q)].
      apply H3 in L as [L _]. now apply (Hd i p).
    + intros k [= -> ->]. split; [exact Hg|]. cbn [pools]. intros j q x Hj Hq L.
      apply lookup_replaced in Hq as [[-> ->]|[Nj Hq]]; [now apply H3 in L|]. destruct Hj as [Hj| ->]; [|easy]. now apply (Hd j q).
Qed.

Lemma run_above h acts s issued l s' (done : nat -> Prop) :
  Inv s issued -> Forall mark_ok acts -> id_budget acts (globalNextId s) < 2 ^ 64 -> run_actions acts s = Ret (l, s') ->
  above h done s ->
  above h (fun i => done i \/ Purge i h ∈ acts) s' /\
  ((forall i, Take i ∈ acts -> done i) -> forall x, x ∈ l -> h < x).
Proof.
  intros HI Hm. revert s issued l done HI. induction Hm as [|a acts Ha Hm IH]; intros s issued l done HI Hb H Hab; cbn [run_actions] in H.
  - injection H as <- <-. split; [|intros _ x Hx; now apply not_elem_of_nil in Hx].
    destruct Hab as [Hg Hd]. split; [assumption|]. intros i p x [Hi|Hi]; [now apply (Hd i)|now apply not_elem_of_nil in Hi].
  - inv_outcome. destruct x as [l1 s1]. inv_outcome. destruct x as [l2 s2]. injection H as <- <-.
    change (a :: acts) with ([a] ++ acts) in Hb. rewrite id_budget_app in Hb.
    pose proof (id_budget_le acts (id_budget [a] (globalNextId s))).
    destruct (act_Inv a s issued l1 s1 HI Ha ltac:(lia) H0) as [HI1 Hg1].
    pose proof (id_budget_mono acts _ _ (proj2 Hg1)).
    destruct (act_above h done a s issued l1 s1 HI Ha ltac:(lia) H0 Hab) as (A1 & A2 & A3).
    assert (Hab1 : above h (fun i => done i \/ a = Purge i h) s1).
    { destruct A1 as [Hg Hd]. split; [assumption|]. intros i p x [Hi| ->]; [now apply (Hd i)|].
      destruct (A3 i eq_refl) as [_ Hd']. apply Hd'. now right. }
    destruct (IH s1 (issued ++ l1) l2 _ HI1 ltac:(lia) H1 Hab1) as [B1 B2]. split.
    + destruct B1 as [Hg Hd]. split; [assumption|]. intros i p x Hi. apply Hd. destruct Hi as [Hi|Hi]; [now left; left|].
      apply elem_of_cons in Hi as [<-|Hi]; [left; now right|now right].
    + intros Ht x Hx. apply elem_of_app in Hx as [Hx|Hx].
      * destruct a as [i|m|i m]; cbn [act] in H0.
        -- apply (A2 i eq_refl); [apply Ht; left|assumption].
        -- injection H0 as <- _. now apply not_elem_of_nil in Hx.
        -- inv_outcome. subst. now apply not_elem_of_nil in Hx.
      * apply B2; [|assumption]. intros i Hi. left. apply Ht. now right.
Qed.

(** ** The serialized mode *)

Definition mark_max (c h : Z) : Z := if h =? NEW_ID then c + 1 else Z.max c h.

Lemma mark_max_le calls c : c <= fold_left mark_max calls c.
Proof.
  revert c. induction calls as [|h calls IH]; intros c; cbn [fold_left]; [lia|].
  etransitivity; [|apply IH]. unfold mark_max. destruct (_ =? _); lia.
Qed.

Lemma serial_ids_above calls c :
  0 <= c -> fold_left mark_max calls c < 2 ^ 64 ->
  NoDup (serial_ids calls c) /\ forall x, x ∈ serial_ids calls c -> c < x.
Proof.
  revert c. induction calls as [|h calls IH]; intros c Hc Hb; cbn [serial_ids fold_left] in *;
    [split; [constructor|intros x Hx; now apply not_elem_of_nil in Hx]|].
  pose proof (mark_max_le calls (mark_max c h)). unfold serial_name.
  assert (Em : mark_max c h = if h =? NEW_ID then c + 1 else Z.max c h) by reflexivity.
  destruct (Z.eqb_spec h NEW_ID) as [E|E]; rewrite Em in *.
  - rewrite u64_id by lia. destruct (IH (c + 1) ltac:(lia) Hb) as [Hn Ha]. split.
    + constructor; [|assumption]. intros Hx. apply Ha in Hx. lia.
    + intros x Hx. apply elem_of_cons in Hx as [->|Hx]; [lia|]. apply Ha in Hx. lia.
  - destruct (IH (Z.max c h) ltac:(lia) Hb) as [Hn Ha]. split; [assumption|]. intros x Hx. apply Ha in Hx. lia.
Qed.

(** * The theorems *)

(** C39. No identifier is handed out twice.  However the critical sections of
    the threads interleave, whichever pools the requests fall on, and whatever
    high-water marks are set on the way, the new identifiers are distinct, as
    long as a budget of ten thousand identifiers for each request (the most that one can
    take from the global counter), on top of the marks, does not reach two to the 64; and so are those of the
    serialized mode, as long as its counter does not. *)
Theorem variable_ids_unique acts l s calls :
  (Forall mark_ok acts -> id_budget acts 0 < 2 ^ 64 -> run_actions acts no_ids = Ret (l, s) -> NoDup l) /\
  (fold_left mark_max calls 0 < 2 ^ 64 -> NoDup (serial_ids calls 0)).
Proof.
  split.
  - intros Hm Hb H. destruct (run_Inv acts no_ids [] l s no_ids_Inv Hm Hb H) as [HI _]. apply (inv_nodup _ _ HI).
  - intros Hb. now apply serial_ids_above.
Qed.

(** A high-water mark holds from the moment its call returns: once the
    global counter has been raised and every pool purged, with any actions of
    other threads in between, every identifier handed out afterwards is greater
    than the mark, by whatever history. *)
Theorem high_water_mark_respected h before during after l1 l2 l3 s1 s2 s3 :
  Forall mark_ok (before ++ Raise h :: during ++ after) ->
  id_budget (before ++ Raise h :: during ++ after) 0 < 2 ^ 64 ->
  (forall i, (i < nPools)%nat -> Purge i h ∈ during) ->
  run_actions before no_ids = Ret (l1, s1) -> run_actions (Raise h :: during) s1 = Ret (l2, s2) ->
  run_actions after s2 = Ret (l3, s3) -> forall x, x ∈ l3 -> h < x.
Proof.
  intros Hm Hb Hall H1 H2 H3. apply Forall_app in Hm as [Hm1 Hm]. apply Forall_cons in Hm as [Hh Hm]. apply Forall_app in Hm as [Hm2 Hm3].
  change (Raise h :: during ++ after) with ((Raise h :: during) ++ after) in Hb. rewrite !id_budget_app in Hb.
  pose proof (id_budget_le after (id_budget (Raise h :: during) (id_budget before 0))) as B3.
  pose proof (id_budget_le (Raise h :: during) (id_budget before 0)) as B2.
  destruct (run_Inv before no_ids [] l1 s1 no_ids_Inv Hm1 ltac:(cbn [globalNextId no_ids]; lia) H1) as [I1 [_ G1]].
  cbn [globalNextId no_ids] in G1. pose proof (id_budget_mono (Raise h :: during) _ _ G1) as M2.
  destruct (run_Inv (Raise h :: during) s1 _ l2 s2 I1 ltac:(now constructor) ltac:(lia) H2) as [I2 [_ G2]].
  pose proof (id_budget_mono after _ _ (Z.le_trans _ _ _ G2 M2)) as M3.
  cbn [run_actions act obind] in H2. inv_outcome. destruct x as [l s']. injection H2 as _ <-.
  destruct (act_Inv (Raise h) s1 _ [] (raise_global h s1) I1 Hh) as [Ir [_ Gr]]; [|reflexivity|].
  { pose proof (id_budget_le during (id_budget [Raise h] (globalNextId s1))). change (Raise h :: during) with ([Raise h] ++ during) in *.
    rewrite !id_budget_app in *. lia. }
  assert (Ab : above h (fun _ => False) (raise_global h s1)).
  { split; [|easy]. unfold raise_global. cbn [globalNextId]. unfold id_budget in Gr. cbn [fold_left mark_ok raise_global globalNextId] in Gr, Hh.
    destruct (Z.leb_spec (globalNextId s1) h); [|lia].
    assert (h + 1 < 2 ^ 64) by (unfold id_budget in B2, B3; cbn [fold_left] in B2, B3; pose proof (id_budget_le during (Z.max (id_budget before 0) (h + 1))); unfold id_budget in *; cbn [fold_left] in *; lia).
    rewrite u64_id by lia. lia. }
  assert (Hb2 : id_budget during (globalNextId (raise_global h s1)) < 2 ^ 64).
  { pose proof (id_budget_mono during _ _ Gr). change (Raise h :: during) with ([Raise h] ++ during) in *. rewrite !id_budget_app in *. lia. }
  destruct (run_above h during _ _ _ _ _ Ir Hm2 Hb2 H Ab) as [[Ag Ad] _].
  assert (Ab2 : above h (fun _ => True) s').
  { split; [assumption|]. intros i p x _ Hp. apply (Ad i p x); [|assumption]. right. apply Hall.
    rewrite <- (inv_length _ _ I2). now apply lookup_lt_Some in Hp. }
  destruct (run_above h after _ _ _ _ _ I2 Hm3 ltac:(lia) H3 Ab2) as [_ Ha]. now apply Ha.
Qed.

(** Two requests on one pool, a mark that interleaves with a request on another
    pool, and requests after it. *)
Definition history : list action :=
  [Take 3; Take 3; Raise 12345] ++ Take 5 :: map (fun i => Purge i 12345) (seq 0 nPools) ++ [Take 3; Take 7].

Theorem variable_ids_unique_witness :
  exists s, run_actions history no_ids = Ret ([0; 1; 12346; 22346; 32346], s) /\
    NoDup [0; 1; 12346; 22346; 32346] /\
    serial_ids [NEW_ID; 7; NEW_ID] 0 = [1; 8] /\ NoDup (serial_ids [NEW_ID; 7; NEW_ID] 0).
Proof.
  eexists. split; [vm_compute; reflexivity|]. split.
  - eapply (proj1 (variable_ids_unique history [0; 1; 12346; 22346; 32346] _ [])); [|vm_compute; reflexivity|vm_compute; reflexivity].
    unfold history. cbn. repeat (constructor; [cbn; lia|]). constructor.
  - split; [vm_compute; reflexivity|]. apply (proj2 (variable_ids_unique [] [] no_ids [NEW_ID; 7; NEW_ID])). vm_compute. reflexivity.
Defined.

Theorem high_water_mark_respected_witness :
  let h := 12345 in
  exists s1 s2 s3, run_actions [Take 3; Take 3] no_ids = Ret ([0; 1], s1) /\
    run_actions (Raise h :: Take 5 :: map (fun i => Purge i h) (seq 0 nPools)) s1 = Ret ([12346], s2) /\
    run_actions [Take 3; Take 7] s2 = Ret ([22346; 32346], s3) /\ forall x, x ∈ [22346; 32346] -> h < x.
Proof.
  intros h. do 3 eexists. split; [vm_compute; reflexivity|]. split; [vm_compute; reflexivity|]. split; [vm_compute; reflexivity|].
  eapply (high_water_mark_respected h [Take 3; Take 3] (Take 5 :: map (fun i => Purge i h) (seq 0 nPools)) [Take 3; Take 7]).
  - subst h. cbn. repeat (constructor; [cbn; lia|]). constructor.
  - vm_compute. reflexivity.
  - intros i Hi. right. apply list_elem_of_In, in_map_iff. exists i. split; [reflexivity|]. apply in_seq. unfold nPools in *. lia.
  - vm_compute. reflexivity.
  - vm_compute. reflexivity.
  - vm_compute. reflexivity.
Defined.
