(* ===== verification/SawyerInterval.v ===== *)
(** Intervals ([src/Sawyer/Interval.h]): a range of values of an unsigned type of
    [w] bits, given by its least and greatest value, or empty.

    Arithmetic on values wraps around, as it does for unsigned types that are not
    narrower than [int].  The accessors [least()] and [greatest()] assert that
    the interval is not empty; where the code has just tested that, the fields
    are read here.  The theorems relate the operations to sets of values, and say
    where wrapping around makes them differ. *)
From S2P Require Import Prelude.
From stdpp Require Import list_numbers.
Open Scope Z_scope.

(** * Definitions *)

(** [class Interval]; the empty one has its ends the wrong way round. *)
Record Interval := mkInterval { lo_ : Z; hi_ : Z }.

#[export] Instance Interval_EqDecision : EqDecision Interval.
Proof. solve_decision. Defined.

Definition Interval_empty : Interval := {| lo_ := 1; hi_ := 0 |}.
Definition Interval_singleton (value : Z) : Interval := {| lo_ := value; hi_ := value |}.
Definition Interval_isEmpty (i : Interval) : bool := (1 =? lo_ i) && (0 =? hi_ i).

Definition Interval_least (i : Interval) : outcome Z :=
  assert! negb (Interval_isEmpty i) else AssertFail in Ret (lo_ i).
Definition Interval_greatest (i : Interval) : outcome Z :=
  assert! negb (Interval_isEmpty i) else AssertFail in Ret (hi_ i).

(** The smallest interval with two points. *)
Definition Interval_hull (v1 v2 : Z) : Interval := {| lo_ := Z.min v1 v2; hi_ := Z.max v1 v2 |}.

Definition Interval_isSingleton (i : Interval) : bool := lo_ i =? hi_ i.

Definition Interval_eqb (i other : Interval) : bool := (lo_ i =? lo_ other) && (hi_ i =? hi_ other).

Definition Interval_intersection (i other : Interval) : Interval :=
  if Interval_isEmpty i || Interval_isEmpty other || (hi_ i <? lo_ other) || (hi_ other <? lo_ i)
  then Interval_empty
  else Interval_hull (Z.max (lo_ i) (lo_ other)) (Z.min (hi_ i) (hi_ other)).
Definition Interval_overlaps (i other : Interval) : bool := negb (Interval_isEmpty (Interval_intersection i other)).
Definition Interval_contains (i other : Interval) : bool :=
  Interval_isEmpty other ||
  (negb (Interval_isEmpty i) && (lo_ i <=? lo_ other) && (hi_ other <=? hi_ i)).

Definition Interval_isLeftOf (i right : Interval) : bool :=
  Interval_isEmpty i || Interval_isEmpty right || (hi_ i <? lo_ right).
Definition Interval_isRightOf (i left : Interval) : bool :=
  Interval_isEmpty i || Interval_isEmpty left || (hi_ left <? lo_ i).

(** The hull with another interval, and with a value. *)
Definition Interval_hull_with (i other : Interval) : Interval :=
  if Interval_isEmpty i then other
  else if Interval_isEmpty other then i
  else Interval_hull (Z.min (lo_ i) (lo_ other)) (Z.max (hi_ i) (hi_ other)).
Definition Interval_hull_value (i : Interval) (value : Z) : Interval :=
  if Interval_isEmpty i then Interval_singleton value
  else Interval_hull (Z.min (lo_ i) value) (Z.max (hi_ i) value).

Section Width.
(** The number of bits of the values. *)
Variable w : Z.
#[local] Notation wrap x := (x mod 2 ^ w).

(** The limits of the type. *)
Definition const_max : Z := 2 ^ w - 1.

Definition Interval_whole : Interval := Interval_hull 0 const_max.
Definition Interval_isWhole (i : Interval) : bool := (lo_ i =? 0) && (hi_ i =? const_max).

Definition Interval_baseSizeOverflows (base size : Z) : bool :=
  (wrap (base + size) <? base) && negb (wrap (base + size) =? 0).
Definition Interval_baseSize (lo size : Z) : outcome Interval :=
  assert! negb (Interval_baseSizeOverflows lo size) else AssertFail in
  Ret (if 0 =? size then Interval_empty else Interval_hull lo (wrap (lo + size - 1))).
Definition Interval_baseSizeSat (lo size : Z) : outcome Interval :=
  if Interval_baseSizeOverflows lo size then Ret (Interval_hull lo const_max) else Interval_baseSize lo size.

Definition Interval_isLeftAdjacent (i right : Interval) : bool :=
  Interval_isEmpty i || Interval_isEmpty right ||
  (negb (Interval_isWhole i) && (wrap (hi_ i + 1) =? lo_ right)).
Definition Interval_isRightAdjacent (i left : Interval) : bool :=
  Interval_isEmpty i || Interval_isEmpty left ||
  (negb (Interval_isWhole left) && (wrap (hi_ left + 1) =? lo_ i)).
Definition Interval_isAdjacent (i other : Interval) : bool :=
  Interval_isEmpty i || Interval_isEmpty other ||
  (negb (Interval_isWhole i) && (wrap (hi_ i + 1) =? lo_ other)) ||
  (negb (Interval_isWhole other) && (wrap (hi_ other + 1) =? lo_ i)).

Definition Interval_size (i : Interval) : Z := if Interval_isEmpty i then 0 else wrap (hi_ i - lo_ i + 1).

Definition Interval_split (i : Interval) (splitPoint : Z) : Interval * Interval :=
  if Interval_isEmpty i then (Interval_empty, Interval_empty)
  else if splitPoint <? lo_ i then (Interval_empty, i)
  else if splitPoint <? hi_ i then (Interval_hull (lo_ i) splitPoint, Interval_hull (wrap (splitPoint + 1)) (hi_ i))
  else (i, Interval_empty).

Definition Interval_join (i right : Interval) : outcome Interval :=
  if Interval_isEmpty i then Ret right
  else if Interval_isEmpty right then Ret i
  else
    assert! (wrap (hi_ i + 1) =? lo_ right) && (hi_ i <? lo_ right) else AssertFail in
    Ret (Interval_hull_with i right).

Definition Interval_shiftRightSat (i : Interval) (n : Z) : Interval :=
  if Interval_isEmpty i || Interval_baseSizeOverflows (lo_ i) n then Interval_empty
  else if Interval_baseSizeOverflows (hi_ i) n then Interval_hull (wrap (lo_ i + n)) const_max
  else Interval_hull (wrap (lo_ i + n)) (wrap (hi_ i + n)).

(** ** Iterators *)

(** [class ConstIterator]: a position between the ends, or just outside. *)
Record ConstIterator := { first_ : Z; cur_ : Z; last_ : Z; atEnd_ : bool }.

Definition iterator_default : ConstIterator := {| first_ := 0; cur_ := 0; last_ := 0; atEnd_ := true |}.
Definition dereference (it : ConstIterator) : outcome Z :=
  assert! negb (atEnd_ it) else AssertFail in Ret (cur_ it).
Definition iterator_equal (it other : ConstIterator) : bool :=
  if atEnd_ it || atEnd_ other then atEnd_ it && atEnd_ other else cur_ it =? cur_ other.

Definition set_end (it : ConstIterator) (b : bool) : ConstIterator :=
  {| first_ := first_ it; cur_ := cur_ it; last_ := last_ it; atEnd_ := b |}.
Definition set_cur (it : ConstIterator) (x : Z) : ConstIterator :=
  {| first_ := first_ it; cur_ := x; last_ := last_ it; atEnd_ := atEnd_ it |}.

Definition increment (it : ConstIterator) : outcome ConstIterator :=
  if cur_ it =? last_ it then Ret (set_end it true)
  else if atEnd_ it then
    assert! cur_ it =? first_ it else AssertFail in Ret (set_end it false)
  else Ret (set_cur it (wrap (cur_ it + 1))).
Definition decrement (it : ConstIterator) : outcome ConstIterator :=
  if cur_ it =? first_ it then Ret (set_end it true)
  else if atEnd_ it then
    assert! cur_ it =? last_ it else AssertFail in Ret (set_end it false)
  else Ret (set_cur it (wrap (cur_ it - 1))).

Definition Interval_begin (i : Interval) : ConstIterator :=
  if Interval_isEmpty i then iterator_default
  else {| first_ := lo_ i; cur_ := lo_ i; last_ := hi_ i; atEnd_ := false |}.
Definition Interval_end (i : Interval) : outcome ConstIterator :=
  if Interval_isEmpty i then Ret iterator_default
  else increment {| first_ := lo_ i; cur_ := hi_ i; last_ := hi_ i; atEnd_ := false |}.

(** A loop over a range of iterators, [for (it = begin; it != end; ++it)]. *)
Fixpoint range_values (fuel : nat) (it end_ : ConstIterator) : outcome (list Z) :=
  match fuel with
  | O => Fail NoFuel
  | S fuel =>
      if iterator_equal it end_ then Ret []
      else
        let! x := dereference it in
        let! it := increment it in
        let! xs := range_values fuel it end_ in
        Ret (x :: xs)
  end.
Definition Interval_values (fuel : nat) (i : Interval) : outcome (list Z) :=
  let! end_ := Interval_end i in range_values fuel (Interval_begin i) end_.
End Width.

(** * Intervals as sets of values *)

Definition member (x : Z) (i : Interval) : Prop := lo_ i <= x <= hi_ i.

Lemma isEmpty_true i : Interval_isEmpty i = true <-> i = Interval_empty.
Proof.
  destruct i as [l h]. unfold Interval_isEmpty, Interval_empty. cbn [lo_ hi_]. rewrite andb_true_iff, !Z.eqb_eq. split.
  - intros [<- <-]. reflexivity.
  - intros [= -> ->]. easy.
Qed.

Lemma isEmpty_false i : lo_ i <= hi_ i -> Interval_isEmpty i = false.
Proof. intros H. apply not_true_iff_false. rewrite isEmpty_true. intros ->. cbn in H. lia. Qed.

Lemma member_empty x : ~ member x Interval_empty.
Proof. unfold member. cbn. lia. Qed.

Lemma Interval_eqb_spec i j : Interval_eqb i j = true <-> i = j.
Proof.
  destruct i, j. unfold Interval_eqb. cbn. rewrite andb_true_iff, !Z.eqb_eq. split; [intros [-> ->]; reflexivity|intros [= -> ->]; easy].
Qed.

Lemma hull_le a b : a <= b -> Interval_hull a b = mkInterval a b.
Proof. intros H. unfold Interval_hull. now rewrite Z.min_l, Z.max_r. Qed.

Section Facts.
Variable w : Z.
Hypothesis width : 0 < w.
#[local] Notation wrap x := (x mod 2 ^ w).

(** An interval that is not empty, within the type. *)
Definition proper (i : Interval) : Prop := 0 <= lo_ i <= hi_ i /\ hi_ i <= const_max w.
Definition Interval_ok (i : Interval) : Prop := i = Interval_empty \/ proper i.

Lemma pow_w : 2 <= 2 ^ w.
Proof using width. change 2 with (2 ^ 1) at 1. apply Z.pow_le_mono_r; lia. Qed.

Lemma proper_not_empty i : proper i -> Interval_isEmpty i = false.
Proof. intros [H _]. apply isEmpty_false. lia. Qed.

Lemma wrap_id x : 0 <= x <= const_max w -> wrap x = x.
Proof. unfold const_max. intros H. apply Z.mod_small. lia. Qed.

Lemma wrap_succ x : 0 <= x <= const_max w -> wrap (x + 1) = if x =? const_max w then 0 else x + 1.
Proof using width.
  unfold const_max. pose proof pow_w. intros Hx. destruct (Z.eqb_spec x (2 ^ w - 1)) as [->|].
  - replace (2 ^ w - 1 + 1) with (2 ^ w) by lia. apply Z_mod_same_full.
  - apply Z.mod_small. lia.
Qed.

(** A sum of two values, wrapped around once at most. *)
Lemma wrap_sum x y : 0 <= x <= const_max w -> 0 <= y <= const_max w ->
  wrap (x + y) = if x + y <? 2 ^ w then x + y else x + y - 2 ^ w.
Proof using width.
  unfold const_max. intros Hx Hy. destruct (Z.ltb_spec (x + y) (2 ^ w)); [apply Z.mod_small; lia|].
  replace (x + y) with (x + y - 2 ^ w + 1 * 2 ^ w) at 1 by lia. rewrite Z_mod_plus_full. apply Z.mod_small. lia.
Qed.

(** The test for overflow misses one sum. *)
Lemma baseSizeOverflows_spec x y : 0 <= x <= const_max w -> 0 <= y <= const_max w ->
  Interval_baseSizeOverflows w x y = (2 ^ w <? x + y).
Proof using width.
  intros Hx Hy. unfold Interval_baseSizeOverflows. rewrite wrap_sum by assumption. unfold const_max in *.
  destruct (Z.ltb_spec (x + y) (2 ^ w)).
  - rewrite (proj2 (Z.ltb_ge _ _)) by lia. symmetry. apply Z.ltb_ge. lia.
  - rewrite (proj2 (Z.ltb_lt _ _)) by lia. cbn [andb].
    destruct (Z.eqb_spec (x + y - 2 ^ w) 0), (Z.ltb_spec (2 ^ w) (x + y)); lia || reflexivity.
Qed.
End Facts.

(** Intervals by cases: the empty one, or its bounds. *)
Ltac interval_cases :=
  repeat match goal with
  | H : Interval_ok _ _ |- _ =>
      let Hp := fresh "Hp" in
      destruct H as [-> | Hp]; [|pose proof (proper_not_empty _ _ Hp)]
  | H : Interval_isEmpty ?i = _ |- context [Interval_isEmpty ?i] => rewrite H
  end.

(** * The theorems *)

Section Theorems.
Variable w : Z.
Hypothesis width : 0 < w.
#[local] Notation ok := (Interval_ok w).

Lemma Interval_hull_ok a b : 0 <= a <= b -> b <= const_max w -> ok (Interval_hull a b).
Proof. intros H Hb. rewrite hull_le by lia. right. split; [exact H|exact Hb]. Qed.

Lemma intersection_member i j x : ok i -> ok j -> (member x (Interval_intersection i j) <-> member x i /\ member x j).
Proof.
  intros Hi Hj. unfold Interval_intersection. destruct Hi as [->|Hi]; [cbn; unfold member; cbn; lia|].
  destruct Hj as [->|Hj]; [rewrite orb_true_r; unfold member; cbn; lia|].
  rewrite !(proper_not_empty w) by assumption. cbn [orb]. unfold proper, member in *.
  destruct (Z.ltb_spec (hi_ i) (lo_ j)), (Z.ltb_spec (hi_ j) (lo_ i)); cbn; lia.
Qed.

Lemma intersection_ok i j : ok i -> ok j -> ok (Interval_intersection i j).
Proof.
  intros Hi Hj. unfold Interval_intersection. destruct Hi as [->|Hi]; [now left|].
  destruct Hj as [->|Hj]; [rewrite orb_true_r; now left|].
  rewrite !(proper_not_empty w) by assumption. cbn [orb]. unfold proper in *.
  destruct (Z.ltb_spec (hi_ i) (lo_ j)), (Z.ltb_spec (hi_ j) (lo_ i)); cbn [orb]; try (now left). apply Interval_hull_ok; lia.
Qed.

Lemma overlaps_spec i j : ok i -> ok j -> (Interval_overlaps i j = true <-> exists x, member x i /\ member x j).
Proof.
  intros Hi Hj. unfold Interval_overlaps. rewrite negb_true_iff. split.
  - intros H. exists (lo_ (Interval_intersection i j)). apply intersection_member; try assumption.
    destruct (intersection_ok i j Hi Hj) as [E|[Hp _]]; [|unfold member; lia].
    apply isEmpty_true in E. congruence.
  - intros (x & Hx). apply (intersection_member i j x Hi Hj) in Hx. apply not_true_iff_false. rewrite isEmpty_true.
    intros E. rewrite E in Hx. now apply member_empty in Hx.
Qed.

Lemma contains_spec i j : ok i -> ok j -> (Interval_contains i j = true <-> forall x, member x j -> member x i).
Proof.
  intros Hi Hj. unfold Interval_contains. destruct Hj as [->|Hj]; [split; [intros _ x Hx; now apply member_empty in Hx|reflexivity]|].
  rewrite (proper_not_empty w j Hj). cbn [orb]. unfold proper, member in *. destruct Hi as [->|Hi].
  - split; [discriminate|]. intros H. specialize (H (lo_ j)). cbn in H. lia.
  - rewrite (proper_not_empty w i Hi). cbn [negb andb]. rewrite andb_true_iff, !Z.leb_le. split; [lia|].
    intros H. pose proof (H (lo_ j)). pose proof (H (hi_ j)). lia.
Qed.

(** The smallest interval around two. *)
Lemma hull_with_spec i j k : ok i -> ok j -> ok k ->
  ok (Interval_hull_with i j) /\
  ((forall x, member x (Interval_hull_with i j) -> member x k) <->
   (forall x, member x i -> member x k) /\ (forall x, member x j -> member x k)).
Proof.
  intros Hi Hj Hk. unfold Interval_hull_with. destruct (Interval_isEmpty i) eqn:Ei.
  { apply isEmpty_true in Ei as ->. split; [assumption|]. split; [|tauto]. intros H. split; [|assumption].
    intros x Hx. now apply member_empty in Hx. }
  destruct (Interval_isEmpty j) eqn:Ej.
  { apply isEmpty_true in Ej as ->. split; [assumption|]. split; [|tauto]. intros H. split; [assumption|].
    intros x Hx. now apply member_empty in Hx. }
  destruct Hi as [->|Hi]; [discriminate|]. destruct Hj as [->|Hj]; [discriminate|]. unfold proper in Hi, Hj.
  split; [apply Interval_hull_ok; lia|]. rewrite hull_le by lia. unfold member. cbn [lo_ hi_]. split.
  - intros H. pose proof (H (Z.min (lo_ i) (lo_ j))). pose proof (H (Z.max (hi_ i) (hi_ j))). split; intros x; lia.
  - intros [H H'] x. pose proof (H (lo_ i)). pose proof (H (hi_ i)). pose proof (H' (lo_ j)). pose proof (H' (hi_ j)). lia.
Qed.

Lemma split_spec i p : ok i -> 0 <= p <= const_max w ->
  let (l, r) := Interval_split w i p in
  ok l /\ ok r /\ forall x, (member x l <-> member x i /\ x <= p) /\ (member x r <-> member x i /\ p < x).
Proof.
  intros Hi Hp. unfold Interval_split. destruct Hi as [->|Hi].
  { cbn. unfold member. cbn. split; [now left|]. split; [now left|]. lia. }
  rewrite (proper_not_empty w i Hi). unfold proper, member in *.
  destruct (Z.ltb_spec p (lo_ i)); [|destruct (Z.ltb_spec p (hi_ i))].
  - split; [now left|]. split; [now right|]. cbn. lia.
  - rewrite wrap_id by lia. rewrite !hull_le by lia. cbn [lo_ hi_]. split; [right; split; cbn; lia|]. split; [right; split; cbn; lia|]. lia.
  - split; [now right|]. split; [now left|]. cbn. lia.
Qed.

Lemma join_spec i j : ok i -> ok j -> Interval_isEmpty i = false -> Interval_isEmpty j = false ->
  Interval_join w i j = if hi_ i + 1 =? lo_ j then Ret (mkInterval (lo_ i) (hi_ j)) else Fail AssertFail.
Proof.
  intros Hi Hj Ei Ej. unfold Interval_join. rewrite Ei, Ej. destruct Hi as [->|Hi]; [discriminate|]. destruct Hj as [->|Hj]; [discriminate|].
  unfold proper in *. rewrite wrap_succ by (assumption || lia).
  destruct (Z.eqb_spec (hi_ i + 1) (lo_ j)).
  - rewrite (proj2 (Z.eqb_neq (hi_ i) _)) by lia. rewrite (proj2 (Z.eqb_eq _ _)), (proj2 (Z.ltb_lt _ _)) by lia.
    cbn [andb require_ obind]. f_equal. unfold Interval_hull_with. rewrite Ei, Ej. rewrite hull_le by lia. f_equal; lia.
  - destruct (Z.eqb_spec (hi_ i) (const_max w)).
    + destruct (Z.eqb_spec 0 (lo_ j)); [|reflexivity]. rewrite (proj2 (Z.ltb_ge _ _)) by lia. reflexivity.
    + now rewrite (proj2 (Z.eqb_neq _ _)) by lia.
Qed.

(** Intervals are sets: the intersection, the parts of a split and the
    containment and overlap tests are those of the sets of values, the hull is
    the smallest interval around both, and every operation returns an interval
    of the type. *)
Theorem Interval_sets i j k p :
  ok i -> ok j -> ok k -> 0 <= p <= const_max w ->
  (ok (Interval_intersection i j) /\ forall x, member x (Interval_intersection i j) <-> member x i /\ member x j) /\
  (Interval_contains i j = true <-> forall x, member x j -> member x i) /\
  (Interval_overlaps i j = true <-> exists x, member x i /\ member x j) /\
  (ok (Interval_hull_with i j) /\
   ((forall x, member x (Interval_hull_with i j) -> member x k) <->
    (forall x, member x i -> member x k) /\ (forall x, member x j -> member x k))) /\
  (let (l, r) := Interval_split w i p in
   ok l /\ ok r /\ forall x, (member x l <-> member x i /\ x <= p) /\ (member x r <-> member x i /\ p < x)).
Proof.
  intros Hi Hj Hk Hp. split; [split; [now apply intersection_ok|intros x; now apply intersection_member]|].
  split; [now apply contains_spec|]. split; [now apply overlaps_spec|]. split; [now apply hull_with_spec|now apply split_spec].
Qed.

(** Adjacency wraps around: for intervals that are not empty, the test holds
    when the right one follows the left one, and also when the left one ends at
    the greatest value of the type and the right one starts at zero, unless the
    left one is everything.  [join] accepts only the former. *)
Theorem isLeftAdjacent_wraps i j :
  ok i -> ok j -> Interval_isEmpty i = false -> Interval_isEmpty j = false ->
  (Interval_isLeftAdjacent w i j = true <->
   hi_ i + 1 = lo_ j \/ (hi_ i = const_max w /\ lo_ j = 0 /\ lo_ i <> 0)) /\
  Interval_isRightAdjacent w j i = Interval_isLeftAdjacent w i j /\
  Interval_join w i j = if hi_ i + 1 =? lo_ j then Ret (mkInterval (lo_ i) (hi_ j)) else Fail AssertFail.
Proof.
  intros Hi Hj Ei Ej. split; [|split; [unfold Interval_isRightAdjacent, Interval_isLeftAdjacent; now rewrite Ei, Ej|now apply (join_spec i j)]].
  unfold Interval_isLeftAdjacent, Interval_isWhole. rewrite Ei, Ej. cbn [orb].
  destruct Hi as [->|Hi]; [discriminate|]. destruct Hj as [->|Hj]; [discriminate|]. unfold proper in *.
  rewrite wrap_succ by (assumption || lia). rewrite andb_true_iff, negb_true_iff, andb_false_iff, !Z.eqb_neq, Z.eqb_eq.
  destruct (Z.eqb_spec (hi_ i) (const_max w)); lia.
Qed.

(** Shifting upwards with saturation: the values that stay within the type
    are those shifted, unless an end lands exactly one past the greatest value.
    The test for overflow misses that sum: an end that is there becomes zero,
    and the result is then an interval from zero, or everything. *)
Theorem shiftRightSat_value i n :
  ok i -> Interval_isEmpty i = false -> 0 <= n <= const_max w ->
  let r := Interval_shiftRightSat w i n in
  (lo_ i + n <> 2 ^ w -> hi_ i + n <> 2 ^ w ->
   ok r /\ forall x, member x r <-> x <= const_max w /\ member (x - n) i) /\
  (lo_ i + n < 2 ^ w -> hi_ i + n = 2 ^ w -> r = mkInterval 0 (lo_ i + n)) /\
  (lo_ i + n = 2 ^ w -> r = if lo_ i =? hi_ i then mkInterval 0 0 else Interval_whole w).
Proof.
  intros Hi Ei Hn r. subst r. unfold Interval_shiftRightSat. rewrite Ei. cbn [orb]. destruct Hi as [->|Hi]; [discriminate|].
  unfold proper in Hi. rewrite !baseSizeOverflows_spec, !wrap_sum by (assumption || lia). unfold const_max in *.
  destruct (Z.ltb_spec (2 ^ w) (lo_ i + n)) as [Hl|Hl]; [split; [|lia]; intros _ _; split; [now left|]; unfold member; cbn; lia|].
  destruct (Z.ltb_spec (2 ^ w) (hi_ i + n)) as [Hh|Hh], (Z.ltb_spec (lo_ i + n) (2 ^ w)) as [Hl'|Hl'].
  - split; [|lia]. intros _ _. rewrite hull_le by lia. unfold member. cbn [lo_ hi_]. split; [right; split; cbn; unfold const_max; lia|lia].
  - split; [lia|]. split; [lia|]. intros E. rewrite (proj2 (Z.eqb_neq _ _)) by lia. unfold Interval_whole, const_max. f_equal. lia.
  - split; [|split; [|lia]].
    + intros _ H. rewrite (proj2 (Z.ltb_lt _ _)) by lia. rewrite hull_le by lia. unfold member. cbn [lo_ hi_].
      split; [right; split; cbn; unfold const_max; lia|lia].
    + intros _ E. rewrite (proj2 (Z.ltb_ge _ _)) by lia. unfold Interval_hull. f_equal; lia.
  - split; [lia|]. split; [lia|]. intros E. rewrite (proj2 (Z.eqb_eq _ _)) by lia. rewrite (proj2 (Z.ltb_ge _ _)) by lia.
    unfold Interval_hull. f_equal; lia.
Qed.

(** ** Iterators *)

Lemma range_values_seq n first cur last end_ :
  atEnd_ end_ = true -> 0 <= cur -> last <= const_max w -> last - cur = Z.of_nat n ->
  forall fuel, (S n < fuel)%nat ->
  range_values w fuel {| first_ := first; cur_ := cur; last_ := last; atEnd_ := false |} end_ = Ret (seqZ cur (last - cur + 1)).
Proof.
  intros He. revert cur. induction n as [|n IH]; intros cur H0 Hl Hn fuel Hf; (destruct fuel as [|fuel]; [lia|]);
    cbn [range_values]; unfold iterator_equal; cbn [atEnd_]; rewrite He; cbn [orb andb]; unfold dereference, increment; cbn [atEnd_ negb require_ obind cur_ last_ first_].
  - rewrite (proj2 (Z.eqb_eq _ _)) by lia. cbn [obind]. destruct fuel as [|fuel]; [lia|].
    cbn [range_values]. unfold iterator_equal, set_end. cbn [atEnd_ orb]. rewrite He. cbn [andb obind].
    replace (last - cur + 1) with 1 by lia. reflexivity.
  - rewrite (proj2 (Z.eqb_neq _ _)) by lia. cbn [obind]. unfold set_cur. cbn [first_ last_ atEnd_]. rewrite wrap_succ, (proj2 (Z.eqb_neq cur _)) by lia.
    rewrite IH by lia. cbn [obind]. rewrite (seqZ_cons cur) by lia. do 3 f_equal; lia.
Qed.

(** The loop over the values of an interval visits each once, in order, and
    ends, also when the interval ends at the greatest value of the type, where
    the counter of an ordinary loop would wrap around. *)
Theorem Interval_values_complete i fuel :
  ok i -> (Z.to_nat (hi_ i - lo_ i + 2) < fuel)%nat ->
  Interval_values w fuel i = Ret (seqZ (lo_ i) (hi_ i - lo_ i + 1)).
Proof.
  intros [->|Hi] Hf; unfold Interval_values, Interval_end, Interval_begin.
  - destruct fuel; [lia|]. reflexivity.
  - rewrite (proper_not_empty w i Hi). unfold increment. cbn [cur_ last_]. rewrite Z.eqb_refl. cbn [obind].
    unfold proper in Hi. apply (range_values_seq (Z.to_nat (hi_ i - lo_ i))); [reflexivity|lia..].
Qed.

(** Going back from the end: the iterator past the greatest value moves to
    it, except for an interval of one value, where it stays at the end. *)
Theorem decrement_end i :
  ok i -> Interval_isEmpty i = false ->
  exists e, Interval_end w i = Ret e /\ atEnd_ e = true /\
    decrement w e = Ret (if Interval_isSingleton i then e else set_end e false) /\
    dereference (set_end e false) = Ret (hi_ i).
Proof.
  intros Hi Ei. eexists. unfold Interval_end, increment. rewrite Ei. cbn [cur_ last_]. rewrite Z.eqb_refl.
  split; [reflexivity|]. split; [reflexivity|]. unfold decrement, set_end, Interval_isSingleton. cbn [cur_ first_ last_ atEnd_].
  rewrite Z.eqb_refl, (Z.eqb_sym (lo_ i)). split; [now destruct (hi_ i =? lo_ i)|reflexivity].
Qed.
End Theorems.

(** * Witnesses: 32-bit values *)

#[local] Notation top := 4294967295.

Lemma interval32 a b : 0 <= a <= b -> b <= top -> Interval_ok 32 (mkInterval a b).
Proof. intros H Hb. right. split; [exact H|exact Hb]. Qed.

Theorem Interval_sets_witness :
  Interval_intersection (mkInterval 2 9) (mkInterval 5 top) = mkInterval 5 9 /\
  forall x, member x (Interval_intersection (mkInterval 2 9) (mkInterval 5 top)) <->
    member x (mkInterval 2 9) /\ member x (mkInterval 5 top).
Proof.
  split; [reflexivity|].
  destruct (Interval_sets 32 (mkInterval 2 9) (mkInterval 5 top) (mkInterval 0 0) 7) as [[_ H] _];
    [apply interval32; lia..|unfold const_max; lia|exact H].
Defined.

(** The last values and the first ones. *)
Theorem isLeftAdjacent_wraps_witness :
  Interval_isLeftAdjacent 32 (mkInterval 200 top) (mkInterval 0 3) = true /\
  Interval_join 32 (mkInterval 200 top) (mkInterval 0 3) = Fail AssertFail.
Proof.
  destruct (isLeftAdjacent_wraps 32 ltac:(lia) (mkInterval 200 top) (mkInterval 0 3)) as (H & _ & Hj);
    [apply interval32; lia..|reflexivity|reflexivity|].
  split; [apply H; right; easy|exact Hj].
Defined.

(** Shifted by six, six of the last values become almost everything, and five of
    them stay five. *)
Theorem shiftRightSat_value_witness :
  Interval_shiftRightSat 32 (mkInterval (top - 10) (top - 5)) 6 = mkInterval 0 (top - 4) /\
  forall x, member x (Interval_shiftRightSat 32 (mkInterval (top - 10) (top - 6)) 6) <->
    x <= const_max 32 /\ member (x - 6) (mkInterval (top - 10) (top - 6)).
Proof.
  destruct (shiftRightSat_value 32 ltac:(lia) (mkInterval (top - 10) (top - 5)) 6) as (_ & H & _);
    [apply interval32; lia|reflexivity|unfold const_max; lia|].
  destruct (shiftRightSat_value 32 ltac:(lia) (mkInterval (top - 10) (top - 6)) 6) as (H' & _);
    [apply interval32; lia|reflexivity|unfold const_max; lia|].
  split; [apply H; reflexivity|apply H'; discriminate].
Defined.

Theorem Interval_values_complete_witness :
  Interval_values 32 5 (mkInterval (top - 1) top) = Ret [top - 1; top].
Proof. apply (Interval_values_complete 32 ltac:(lia) (mkInterval (top - 1) top) 5); [apply interval32; lia|cbn; lia]. Defined.

Theorem decrement_end_witness :
  exists e, Interval_end 32 (mkInterval 7 7) = Ret e /\ atEnd_ e = true /\ decrement 32 e = Ret e /\
    dereference (set_end e false) = Ret 7.
Proof. apply (decrement_end 32 (mkInterval 7 7)); [apply interval32; lia|reflexivity]. Defined.
