(* ===== verification/SawyerIntervalMap.v ===== *)
(** Maps from intervals to values ([src/Sawyer/IntervalMap.h]) over the sorted map
    of [src/Sawyer/Map.h]: definitions.

    A map is the list of its nodes in order, with the count of values it keeps.
    Keys never overlap, and are compared by their greatest values.  An iterator
    is a position in the list: the nodes before it, nearest first, and the nodes
    from it on.  How the values of a node are merged, split and truncated is a
    policy, which may fail its assertions; the default policy merges equal
    values, and that of [src/Sawyer/AddressMap.h] segments of one buffer.

    No key of a map is empty, so that reading the fields of a key is calling its
    accessors, whose assertions hold. *)
From S2P Require Import Prelude SawyerInterval.
Open Scope Z_scope.

(** * Policies *)

(** [merge]: the merged value, if any; [split]: the left and the right value. *)
Class Policy (V : Type) := {
  policy_merge : Interval -> V -> Interval -> V -> outcome (option V);
  policy_split : Interval -> V -> Z -> outcome (V * V);
  policy_truncate : Interval -> V -> Z -> outcome V
}.

(** [class MergePolicy] *)
Definition MergePolicy (V : Type) `{EqDecision V} : Policy V := {|
  policy_merge _ leftValue _ rightValue := Ret (if decide (leftValue = rightValue) then Some leftValue else None);
  policy_split _ value _ := Ret (value, value);
  policy_truncate _ value _ := Ret value
|}.

(** * Sorted maps *)

Section Map.
Context {V : Type}.

Definition Node : Type := Interval * V.
(** The nodes before an iterator, nearest first, and those from it on. *)
Definition Position : Type := list Node * list Node.

Definition IntervalCompare (a b : Interval) : bool := hi_ a <? hi_ b.

Fixpoint lower_bound (key : Interval) (before nodes : list Node) : Position :=
  match nodes with
  | n :: nodes' => if IntervalCompare (fst n) key then lower_bound key (n :: before) nodes' else (before, nodes)
  | [] => (before, [])
  end.
Fixpoint upper_bound (key : Interval) (before nodes : list Node) : Position :=
  match nodes with
  | n :: nodes' => if IntervalCompare key (fst n) then (before, nodes) else upper_bound key (n :: before) nodes'
  | [] => (before, [])
  end.

(** A value for an equivalent key is replaced. *)
Fixpoint Map_insert (key : Interval) (value : V) (nodes : list Node) : list Node :=
  match nodes with
  | [] => [(key, value)]
  | (k, v) :: nodes' =>
      if IntervalCompare k key then (k, v) :: Map_insert key value nodes'
      else if IntervalCompare key k then (key, value) :: nodes
      else (k, value) :: nodes'
  end.
Definition Map_insertMultiple (nodes others : list Node) : list Node :=
  fold_left (fun nodes n => Map_insert (fst n) (snd n) nodes) others nodes.

Definition node_at (it : Position) : option Node := List.hd_error (snd it).
Definition at_end (it : Position) : bool := match snd it with [] => true | _ => false end.
Definition at_begin (it : Position) : bool := match fst it with [] => true | _ => false end.
Definition prior (it : Position) : Position :=
  match it with (n :: before, from) => (before, n :: from) | _ => it end.
Definition Map_eraseAt (it : Position) : list Node := rev_append (fst it) (List.tl (snd it)).
End Map.

Arguments Node : clear implicits.
Arguments Position : clear implicits.

(** * Interval maps *)

Record IntervalMap (V : Type) := { map_ : list (Node V); size_ : Z }.
Arguments map_ {V}.
Arguments size_ {V}.

Section IntervalMap.
(** The number of bits of the scalars. *)
Variable w : Z.
#[local] Notation wrap x := (x mod 2 ^ w).
Context {V : Type}.
#[local] Notation IMap := (IntervalMap V).
#[local] Notation size i := (Interval_size w i).
#[local] Notation hull := Interval_hull.

Definition IntervalMap_empty : IMap := {| map_ := []; size_ := 0 |}.
Definition IntervalMap_isEmpty (m : IMap) : bool := match map_ m with [] => true | _ => false end.
Definition nIntervals (m : IMap) : Z := Z.of_nat (length (map_ m)).
Definition IntervalMap_size (m : IMap) : Z := size_ m.
Definition IntervalMap_clear (m : IMap) : IMap := IntervalMap_empty.

(** The end iterator. *)
Definition end_of (m : IMap) : Position V := (rev (map_ m), []).

Definition splitInterval (i : Interval) (splitPoint : Z) : outcome (Interval * Interval) :=
  assert! negb (Interval_isEmpty i) else AssertFail in
  assert! (lo_ i <? splitPoint) && (splitPoint <=? hi_ i) else AssertFail in
  Ret (hull (lo_ i) (wrap (splitPoint - 1)), hull splitPoint (hi_ i)).

Definition isLarge (i : Interval) (n : Z) : bool :=
  negb (Interval_isEmpty i) && ((size i =? 0) || (n <=? size i)).

(** ** Searching *)

Definition lowerBound (scalar : Z) (m : IMap) : Position V := lower_bound (Interval_singleton scalar) [] (map_ m).

Fixpoint skip_to (scalar : Z) (before nodes : list (Node V)) : Position V :=
  match nodes with
  | n :: nodes' => if lo_ (fst n) <=? scalar then skip_to scalar (n :: before) nodes' else (before, nodes)
  | [] => (before, [])
  end.
Definition upperBound (scalar : Z) (m : IMap) : Position V :=
  let (before, nodes) := upper_bound (Interval_singleton scalar) [] (map_ m) in skip_to scalar before nodes.

Definition findPrior (scalar : Z) (m : IMap) : Position V :=
  if IntervalMap_isEmpty m then end_of m
  else
    let lb := lowerBound scalar m in
    if match node_at lb with Some n => lo_ (fst n) <=? scalar | None => false end then lb
    else if at_begin lb then end_of m
    else prior lb.

Definition IntervalMap_find (scalar : Z) (m : IMap) : Position V :=
  let found := lowerBound scalar m in
  match node_at found with
  | None => end_of m
  | Some n => if scalar <? lo_ (fst n) then end_of m else found
  end.

(** The range of the nodes that overlap, as its first and last iterators. *)
Definition findAll (i : Interval) (m : IMap) : Position V * Position V :=
  if Interval_isEmpty i then (end_of m, end_of m)
  else
    let begin_ := lowerBound (lo_ i) m in
    match node_at begin_ with
    | None => (end_of m, end_of m)
    | Some n => if hi_ i <? lo_ (fst n) then (end_of m, end_of m) else (begin_, upperBound (hi_ i) m)
    end.

Definition findFirstOverlap (i : Interval) (m : IMap) : Position V :=
  if Interval_isEmpty i then end_of m
  else
    let lb := lowerBound (lo_ i) m in
    match node_at lb with
    | Some n => if Interval_overlaps i (fst n) then lb else end_of m
    | None => end_of m
    end.

(** The first nodes of two maps that overlap. *)
Fixpoint findFirstOverlap2 {V2} (these : list (Node V)) : list (Node V2) -> option (Node V * Node V2) :=
  fix inner others :=
    match these, others with
    | n :: these', o :: others' =>
        if Interval_overlaps (fst n) (fst o) then Some (n, o)
        else if hi_ (fst n) <? hi_ (fst o) then findFirstOverlap2 these' others
        else inner others'
    | _, _ => None
    end.

Definition firstFit (n : Z) (start : list (Node V)) : option (Node V) :=
  List.find (fun node => isLarge (fst node) n) start.

Fixpoint bestFit_loop (n : Z) (best : option (Node V)) (nodes : list (Node V)) : option (Node V) :=
  match nodes with
  | [] => best
  | node :: nodes =>
      if (size (fst node) =? n) && negb (n =? 0) then Some node
      else if (n <? size (fst node)) &&
              match best with None => true | Some b => size (fst node) <? size (fst b) end
      then bestFit_loop n (Some node) nodes
      else bestFit_loop n best nodes
  end.
Definition bestFit (n : Z) (start : list (Node V)) : option (Node V) := bestFit_loop n None start.

Fixpoint firstUnmapped_loop (minAddr : Z) (nodes : list (Node V)) : Interval :=
  match nodes with
  | [] => hull minAddr (const_max w)
  | (k, _) :: nodes =>
      if minAddr <? lo_ k then hull minAddr (wrap (lo_ k - 1))
      else if hi_ k =? const_max w then Interval_empty
      else firstUnmapped_loop (wrap (hi_ k + 1)) nodes
  end.
Definition firstUnmapped (minAddr : Z) (m : IMap) : Interval :=
  firstUnmapped_loop minAddr (snd (lowerBound minAddr m)).

(** The loop backs up until it is at the first node. *)
Fixpoint lastUnmapped_loop (maxAddr : Z) (k : Interval) (before : list (Node V)) : Interval :=
  match before with
  | n :: before =>
      if hi_ k <? maxAddr then hull (wrap (hi_ k + 1)) maxAddr
      else if lo_ k =? 0 then Interval_empty
      else lastUnmapped_loop (wrap (lo_ k - 1)) (fst n) before
  | [] =>
      if hi_ k <? maxAddr then hull (wrap (hi_ k + 1)) maxAddr
      else if 0 <? lo_ k then hull 0 (wrap (lo_ k - 1))
      else Interval_empty
  end.
Definition lastUnmapped (maxAddr : Z) (m : IMap) : Interval :=
  if IntervalMap_isEmpty m then hull 0 maxAddr
  else
    match findPrior maxAddr m with
    | (_, []) => if 0 <? maxAddr then hull 0 maxAddr else Interval_empty
    | (before, n :: _) => lastUnmapped_loop maxAddr (fst n) before
    end.

Definition exists_ (scalar : Z) (m : IMap) : bool := negb (at_end (IntervalMap_find scalar m)).

(** ** Accessors *)

(** The lookup of a scalar that is not mapped throws. *)
Definition IntervalMap_get (scalar : Z) (m : IMap) : outcome V :=
  match node_at (IntervalMap_find scalar m) with None => Fail Throw | Some n => Ret (snd n) end.
Definition getOptional (scalar : Z) (m : IMap) : option V := option_map snd (node_at (IntervalMap_find scalar m)).
Definition getOrElse (scalar : Z) (dflt : V) (m : IMap) : V :=
  match node_at (IntervalMap_find scalar m) with None => dflt | Some n => snd n end.

(** ** Limits *)

Definition IntervalMap_least (m : IMap) : outcome Z :=
  match map_ m with [] => Fail AssertFail | n :: _ => Ret (lo_ (fst n)) end.
Definition IntervalMap_greatest (m : IMap) : outcome Z :=
  match rev (map_ m) with [] => Fail AssertFail | n :: _ => Ret (hi_ (fst n)) end.
Definition IntervalMap_hull (m : IMap) : outcome Interval :=
  if IntervalMap_isEmpty m then Ret Interval_empty
  else let! l := IntervalMap_least m in let! g := IntervalMap_greatest m in Ret (hull l g).

Definition least_limit (lowerLimit : Z) (m : IMap) : option Z :=
  match node_at (lowerBound lowerLimit m) with None => None | Some n => Some (Z.max lowerLimit (lo_ (fst n))) end.
Definition greatest_limit (upperLimit : Z) (m : IMap) : option Z :=
  match node_at (findPrior upperLimit m) with None => None | Some n => Some (Z.min upperLimit (hi_ (fst n))) end.

Fixpoint leastUnmapped_loop (lowerLimit : Z) (nodes : list (Node V)) : option Z :=
  match nodes with
  | [] => Some lowerLimit
  | (k, _) :: nodes =>
      if lowerLimit <? lo_ k then Some lowerLimit
      else if wrap (hi_ k + 1) <=? lo_ k then None
      else leastUnmapped_loop (wrap (hi_ k + 1)) nodes
  end.
Definition leastUnmapped (lowerLimit : Z) (m : IMap) : option Z :=
  leastUnmapped_loop lowerLimit (snd (lowerBound lowerLimit m)).

(** The loop visits the nodes backwards. *)
Fixpoint greatestUnmapped_loop (upperLimit : Z) (nodes : list (Node V)) : option Z :=
  match nodes with
  | [] => Some upperLimit
  | (k, _) :: nodes =>
      if hi_ k <? upperLimit then Some upperLimit
      else if hi_ k <=? wrap (lo_ k - 1) then None
      else greatestUnmapped_loop (wrap (lo_ k - 1)) nodes
  end.
Definition greatestUnmapped (upperLimit : Z) (m : IMap) : option Z :=
  match findPrior upperLimit m with
  | (_, []) => Some upperLimit
  | (before, n :: _) => greatestUnmapped_loop upperLimit (n :: before)
  end.

(** ** Predicates *)

Definition IntervalMap_overlaps (i : Interval) (m : IMap) : bool := negb (at_end (findFirstOverlap i m)).
Definition isDistinct (i : Interval) (m : IMap) : bool := negb (IntervalMap_overlaps i m).
Definition overlaps_map {V2} (other : IntervalMap V2) (m : IMap) : bool :=
  match findFirstOverlap2 (map_ m) (map_ other) with Some _ => true | None => false end.

Fixpoint contains_loop (key : Interval) (nodes : list (Node V)) : outcome bool :=
  match nodes with
  | [] => Ret false
  | (k, _) :: nodes =>
      if lo_ key <? lo_ k then Ret false
      else
        assert! Interval_overlaps key k else AssertFail in
        if hi_ key <=? hi_ k then Ret true
        else
          let! ' (_, key) := splitInterval key (wrap (hi_ k + 1)) in
          contains_loop key nodes
  end.
Definition IntervalMap_contains (key : Interval) (m : IMap) : outcome bool :=
  if Interval_isEmpty key then Ret true else contains_loop key (snd (IntervalMap_find (lo_ key) m)).

(** ** Mutators *)

Section Mutators.
Context `{Policy V}.

(** The loop over the nodes that the erasure may overlap: [kept] are those it
    passed before it began to erase, [insertions] what has to be inserted back. *)
Fixpoint erase_loop (erasure : Interval) (nodes kept : list (Node V)) (begun : bool) (insertions : list (Node V)) (n : Z) :
  outcome (list (Node V) * list (Node V) * Z * list (Node V)) :=
  match nodes with
  | [] => Ret (kept, insertions, n, [])
  | (k, v) :: nodes' =>
      if Interval_isLeftOf erasure k then Ret (kept, insertions, n, nodes)
      else if Interval_contains erasure k then
        erase_loop erasure nodes' kept true insertions (wrap (n - size k))
      else if (lo_ k <? lo_ erasure) && (hi_ erasure <? hi_ k) then
        assert! negb begun else AssertFail in
        let! ' (rt1, rt2) := splitInterval k (wrap (hi_ erasure + 1)) in
        let! ' (v, rightValue) := policy_split k v (lo_ rt2) in
        let insertions := Map_insert rt2 rightValue insertions in
        let! ' (lt1, _) := splitInterval rt1 (lo_ erasure) in
        let! v := policy_truncate rt1 v (lo_ erasure) in
        erase_loop erasure nodes' kept true (Map_insert lt1 v insertions) (wrap (n - size erasure))
      else if lo_ k <? lo_ erasure then
        assert! negb begun else AssertFail in
        let! ' (l, r) := splitInterval k (lo_ erasure) in
        let! v := policy_truncate k v (lo_ erasure) in
        erase_loop erasure nodes' kept true (Map_insert l v insertions) (wrap (n - size r))
      else if hi_ erasure <? hi_ k then
        let! ' (l, r) := splitInterval k (wrap (hi_ erasure + 1)) in
        let! ' (_, rightValue) := policy_split k v (lo_ r) in
        erase_loop erasure nodes' kept true (Map_insert r rightValue insertions) (wrap (n - size l))
      else erase_loop erasure nodes' (if begun then kept else kept ++ [(k, v)]) begun insertions n
  end.

Definition IntervalMap_erase (erasure : Interval) (m : IMap) : outcome IMap :=
  if Interval_isEmpty erasure then Ret m
  else
    let (before, nodes) := lowerBound (lo_ erasure) m in
    let! ' (kept, insertions, n, after) := erase_loop erasure nodes [] false [] (size_ m) in
    Ret {| map_ := Map_insertMultiple (rev_append before (kept ++ after)) insertions; size_ := n |}.

(** [eraseMultiple], over the keys of another map. *)
Fixpoint IntervalMap_eraseMultiple (keys : list Interval) (m : IMap) : outcome IMap :=
  match keys with
  | [] => Ret m
  | k :: keys => let! m := IntervalMap_erase k m in IntervalMap_eraseMultiple keys m
  end.

(** Merge with a left-adjoining node, or a right-adjoining one, if there is one
    that the policy agrees to merge; it is removed. *)
Definition merge_left (key : Interval) (value : V) (m : IMap) : outcome (Interval * V * IMap) :=
  if wrap (lo_ key - 1) <? lo_ key then
    let left := IntervalMap_find (wrap (lo_ key - 1)) m in
    match node_at left with
    | Some (k, v) =>
        if wrap (hi_ k + 1) =? lo_ key then
          let! merged := policy_merge k v key value in
          match merged with
          | Some v => Ret (hull (lo_ k) (hi_ key), v, {| map_ := Map_eraseAt left; size_ := wrap (size_ m - size k) |})
          | None => Ret (key, value, m)
          end
        else Ret (key, value, m)
    | None => Ret (key, value, m)
    end
  else Ret (key, value, m).

Definition merge_right (key : Interval) (value : V) (m : IMap) : outcome (Interval * V * IMap) :=
  if hi_ key <? wrap (hi_ key + 1) then
    let right := IntervalMap_find (wrap (hi_ key + 1)) m in
    match node_at right with
    | Some (k, v) =>
        if wrap (hi_ key + 1) =? lo_ k then
          let! merged := policy_merge key value k v in
          match merged with
          | Some v => Ret (hull (lo_ key) (hi_ k), v, {| map_ := Map_eraseAt right; size_ := wrap (size_ m - size k) |})
          | None => Ret (key, value, m)
          end
        else Ret (key, value, m)
    | None => Ret (key, value, m)
    end
  else Ret (key, value, m).

Definition insert_node (key : Interval) (value : V) (m : IMap) : outcome IMap :=
  let! ' (key, value, m) := merge_left key value m in
  let! ' (key, value, m) := merge_right key value m in
  Ret {| map_ := Map_insert key value (map_ m); size_ := wrap (size_ m + size key) |}.

Definition IntervalMap_insert (key : Interval) (value : V) (makeHole : bool) (m : IMap) : outcome IMap :=
  if Interval_isEmpty key then Ret m
  else if makeHole then let! m := IntervalMap_erase key m in insert_node key value m
  else
    match node_at (lowerBound (lo_ key) m) with
    | Some n => if Interval_overlaps key (fst n) then Ret m else insert_node key value m
    | None => insert_node key value m
    end.

Fixpoint IntervalMap_insertMultiple (nodes : list (Node V)) (makeHole : bool) (m : IMap) : outcome IMap :=
  match nodes with
  | [] => Ret m
  | (k, v) :: nodes => let! m := IntervalMap_insert k v makeHole m in IntervalMap_insertMultiple nodes makeHole m
  end.
End Mutators.
End IntervalMap.
