(* ===== verification/SawyerMapFacts.v ===== *)
(** Facts about interval maps: the invariant of the list of nodes, what the
    searches find, and what erasing and inserting do to the contents, a function
    from scalars to what the values hold there.

    A policy is lawful when merging, splitting and truncating values keep what
    they hold; the facts about the mutators are proved against that interface. *)
From S2P Require Import Prelude SawyerInterval SawyerIntervalMap.
Open Scope Z_scope.

Definition memberb (x : Z) (i : Interval) : bool := (lo_ i <=? x) && (x <=? hi_ i).
Lemma memberb_spec x i : reflect (member x i) (memberb x i).
Proof. apply iff_reflect. unfold member, memberb. rewrite andb_true_iff, !Z.leb_le. reflexivity. Qed.

Lemma memberb_in x i : member x i -> memberb x i = true.
Proof. now destruct (memberb_spec x i). Qed.

(** What a value holds at a scalar of its interval. *)
Class LawfulPolicy (w : Z) (V A : Type) {P : Policy V} := {
  holds : Interval -> V -> Z -> A;
  merge_lawful i v j u :
    proper w i -> proper w j -> hi_ i + 1 = lo_ j ->
    exists r, policy_merge i v j u = Ret r /\
      forall m, r = Some m -> forall x, memberb x (mkInterval (lo_ i) (hi_ j)) = true ->
        holds (mkInterval (lo_ i) (hi_ j)) m x = if memberb x i then holds i v x else holds j u x;
  split_lawful i v p :
    proper w i -> lo_ i < p <= hi_ i ->
    exists l r, policy_split i v p = Ret (l, r) /\
      (forall x, memberb x (mkInterval (lo_ i) (p - 1)) = true -> holds (mkInterval (lo_ i) (p - 1)) l x = holds i v x) /\
      (forall x, memberb x (mkInterval p (hi_ i)) = true -> holds (mkInterval p (hi_ i)) r x = holds i v x);
  truncate_lawful i v p :
    proper w i -> lo_ i < p <= hi_ i ->
    exists l, policy_truncate i v p = Ret l /\
      forall x, memberb x (mkInterval (lo_ i) (p - 1)) = true -> holds (mkInterval (lo_ i) (p - 1)) l x = holds i v x
}.

Section Facts.
Variable w : Z.
Hypothesis width : 0 < w.
#[local] Notation wrap x := (x mod 2 ^ w).
Context {V A : Type} {P : Policy V} {L : LawfulPolicy w V A}.
#[local] Notation nodes := (list (Node V)).

(** * The invariant of the nodes *)

(** The keys are in order from [b] on, proper and apart. *)
Fixpoint chain (b : Z) (l : nodes) : Prop :=
  match l with
  | [] => True
  | (k, _) :: l => b <= lo_ k /\ proper w k /\ chain (hi_ k + 1) l
  end.

Fixpoint contents (l : nodes) (x : Z) : option A :=
  match l with
  | [] => None
  | (k, v) :: l => if memberb x k then Some (holds k v x) else contents l x
  end.

(** The number of scalars. *)
Fixpoint total (l : nodes) : Z :=
  match l with [] => 0 | (k, _) :: l => hi_ k - lo_ k + 1 + total l end.

Lemma chain_weaken b b' l : b' <= b -> chain b l -> chain b' l.
Proof. intros Hb. destruct l as [|[k v] l]; [easy|]. cbn. intros (H & H'). split; [lia|assumption]. Qed.

Lemma contents_below b l x : chain b l -> x < b -> contents l x = None.
Proof.
  revert b. induction l as [|[k v] l IH]; intros b H Hx; [reflexivity|]. cbn in *. destruct H as (H & [Hp _] & Hl).
  destruct (memberb_spec x k) as [Hm|]; [unfold member in Hm; lia|]. apply (IH (hi_ k + 1)); [assumption|lia].
Qed.

(** The bound that a chain leaves for what follows it. *)
Fixpoint upper (b : Z) (l : nodes) : Z :=
  match l with [] => b | (k, _) :: l => upper (hi_ k + 1) l end.

Lemma chain_app b l1 l2 : chain b (l1 ++ l2) <-> chain b l1 /\ chain (upper b l1) l2.
Proof. revert b. induction l1 as [|[k v] l IH]; intros b; cbn; [tauto|]. rewrite IH. tauto. Qed.

Lemma upper_app b l1 l2 : upper b (l1 ++ l2) = upper (upper b l1) l2.
Proof. revert b. induction l1 as [|[k v] l IH]; intros b; [reflexivity|]. cbn. apply IH. Qed.

Lemma upper_le b l : chain b l -> b <= upper b l.
Proof.
  revert b. induction l as [|[k v] l IH]; intros b H; [reflexivity|]. cbn in *. destruct H as (H & [Hp _] & Hl). specialize (IH _ Hl). lia.
Qed.

Lemma chain_Forall b l : chain b l -> Forall (fun n => b <= lo_ (fst n) /\ proper w (fst n) /\ hi_ (fst n) < upper b l) l.
Proof.
  revert b. induction l as [|[k v] l IH]; intros b H; [constructor|]. cbn in *. destruct H as (H & Hp & Hl).
  pose proof (upper_le _ _ Hl). constructor; [cbn; split; [assumption|]; split; [assumption|lia]|].
  eapply Forall_impl; [apply (IH _ Hl)|]. cbn. intros n (Hn & H'). split; [|assumption]. unfold proper in Hp. lia.
Qed.

Lemma contents_app b l1 l2 x : chain b (l1 ++ l2) ->
  contents (l1 ++ l2) x = if x <? upper b l1 then contents l1 x else contents l2 x.
Proof.
  revert b. induction l1 as [|[k v] l IH]; intros b H; cbn [app] in *.
  - cbn. destruct (Z.ltb_spec x b); [now apply (contents_below b)|reflexivity].
  - cbn [contents upper chain] in *. destruct H as (H & Hp & Hl). rewrite (IH _ Hl).
    apply chain_app in Hl as [Hl _]. pose proof (upper_le _ _ Hl). destruct (memberb_spec x k) as [Hm|]; [|reflexivity].
    unfold member in Hm. rewrite (proj2 (Z.ltb_lt _ _)) by lia. reflexivity.
Qed.

Lemma total_app l1 l2 : total (l1 ++ l2) = total l1 + total l2.
Proof. induction l1 as [|[k v] l IH]; [reflexivity|]. cbn. rewrite IH. lia. Qed.

(** * Positions *)

(** The nodes whose keys end before a scalar come first. *)
Definition before (s : Z) (l : nodes) : Prop := Forall (fun n => hi_ (fst n) < s) l.

Lemma before_upper b s l : chain b l -> b <= s -> (before s l <-> upper b l <= s).
Proof.
  unfold before. revert b. induction l as [|[k v] l IH]; intros b H Hb; cbn in *.
  - split; [easy|constructor].
  - destruct H as (H & Hp & Hl). unfold proper in Hp. rewrite Forall_cons. cbn. split.
    + intros [Hk Hf]. apply (IH _ Hl); [lia|assumption].
    + intros Hu. pose proof (upper_le _ _ Hl). split; [lia|]. apply (IH _ Hl); [lia|assumption].
Qed.

Lemma lower_bound_spec s acc l : let (bef, from) := lower_bound (Interval_singleton s) acc l in
  exists l1, bef = rev l1 ++ acc /\ l = l1 ++ from /\ before s l1 /\
    match from with [] => True | n :: _ => s <= hi_ (fst n) end.
Proof.
  revert acc. induction l as [|[k v] l IH]; intros acc; cbn.
  - exists []. now repeat split; constructor.
  - unfold IntervalCompare. cbn. destruct (Z.ltb_spec (hi_ k) s) as [Hk|Hk].
    + specialize (IH ((k, v) :: acc)). destruct (lower_bound _ _ _) as [bef from]. destruct IH as (l1 & -> & -> & Hb & Hf).
      exists ((k, v) :: l1). cbn. rewrite <- app_assoc. split; [reflexivity|]. split; [reflexivity|]. split; [now constructor|assumption].
    + exists []. split; [reflexivity|]. split; [reflexivity|]. split; [constructor|assumption].
Qed.

Lemma lowerBound_spec s m : exists l1 from, lowerBound s m = (rev l1, from) /\ map_ m = l1 ++ from /\ before s l1 /\
  match from with [] => True | n :: _ => s <= hi_ (fst n) end.
Proof.
  unfold lowerBound. pose proof (lower_bound_spec s [] (map_ m)) as H. destruct (lower_bound _ _ _) as [bef from].
  destruct H as (l1 & -> & H). exists l1, from. now rewrite app_nil_r.
Qed.

(** Where the list is known to be split. *)
Lemma lower_bound_at s acc l1 from : before s l1 -> match from with [] => True | n :: _ => s <= hi_ (fst n) end ->
  lower_bound (Interval_singleton s) acc (l1 ++ from) = (rev l1 ++ acc, from).
Proof.
  intros Hb Hf. revert acc. induction Hb as [|[k v] l1 Hk _ IH]; intros acc; cbn [app lower_bound].
  - destruct from as [|[k v] from]; [reflexivity|]. cbn in *. unfold IntervalCompare. cbn. now rewrite (proj2 (Z.ltb_ge _ _)).
  - unfold IntervalCompare. cbn in *. rewrite (proj2 (Z.ltb_lt _ _)) by assumption. rewrite IH, <- app_assoc. reflexivity.
Qed.

Lemma Map_insert_between b l1 k v l2 : chain b (l1 ++ (k, v) :: l2) -> Map_insert k v (l1 ++ l2) = l1 ++ (k, v) :: l2.
Proof.
  revert b. induction l1 as [|[k1 v1] l1 IH]; intros b H; cbn [app Map_insert] in *.
  - destruct l2 as [|[k2 v2] l2]; [reflexivity|]. cbn in *. unfold IntervalCompare, proper in *.
    rewrite (proj2 (Z.ltb_ge _ _)), (proj2 (Z.ltb_lt _ _)) by lia. reflexivity.
  - cbn in H. destruct H as (_ & _ & H). pose proof H as Hc. apply chain_app in Hc as [H1 Hc]. pose proof (upper_le _ _ H1).
    cbn in Hc. unfold IntervalCompare, proper in *. rewrite (proj2 (Z.ltb_lt _ _)) by lia. now rewrite (IH _ H).
Qed.

Lemma Map_insertMultiple_between b l1 l2 ps : chain b (l1 ++ ps ++ l2) -> Map_insertMultiple (l1 ++ l2) ps = l1 ++ ps ++ l2.
Proof.
  unfold Map_insertMultiple. revert l1. induction ps as [|[k v] ps IH]; intros l1 H; [reflexivity|]. cbn [fold_left fst snd].
  rewrite (Map_insert_between b).
  - specialize (IH (l1 ++ [(k, v)])). rewrite <- !app_assoc in IH. now apply IH.
  - clear IH. apply chain_app in H as [H1 H]. apply chain_app. split; [assumption|]. cbn in *. destruct H as (Hb & Hp & H).
    split; [assumption|]. split; [assumption|]. apply chain_app in H as [Hps H]. apply (chain_weaken (upper (hi_ k + 1) ps)); [now apply upper_le|assumption].
Qed.

(** * Erasing *)

Lemma proper_size k : proper w k -> Interval_size w k = wrap (hi_ k - lo_ k + 1).
Proof. intros H. unfold Interval_size. now rewrite (proper_not_empty w). Qed.

Lemma splitInterval_spec k p : proper w k -> lo_ k < p <= hi_ k ->
  splitInterval w k p = Ret (mkInterval (lo_ k) (p - 1), mkInterval p (hi_ k)).
Proof.
  intros Hk Hp. unfold splitInterval. rewrite (proper_not_empty w) by assumption. cbn [negb require_ obind].
  rewrite (proj2 (Z.ltb_lt _ _)), (proj2 (Z.leb_le _ _)) by lia. cbn [andb require_ obind]. unfold proper in Hk.
  rewrite wrap_id by lia. now rewrite !hull_le by lia.
Qed.

Lemma wrap_step T a n : wrap (wrap T - wrap a) = wrap (T - a) /\ wrap (T - a - n) = wrap (T - (a + n)).
Proof. split; [now rewrite Zminus_mod_idemp_l, Zminus_mod_idemp_r|f_equal; lia]. Qed.

(** Appending to the insertions, which end before [b]. *)
Lemma Map_insert_last ins k v : chain 0 ins -> upper 0 ins <= lo_ k -> proper w k -> Map_insert k v ins = ins ++ [(k, v)].
Proof.
  intros Hc Hu Hk. rewrite <- (app_nil_r ins) at 1. apply (Map_insert_between 0). apply chain_app. split; [assumption|]. now split.
Qed.

(** Where a node that is left comes from. *)
Definition left_of (e : Interval) (l : nodes) (n : Node V) : Prop :=
  exists k v, In (k, v) l /\ (lo_ (fst n) = lo_ k \/ lo_ (fst n) = hi_ e + 1) /\ (hi_ (fst n) = hi_ k \/ hi_ (fst n) = lo_ e - 1).

(** What the loop returns: the insertions so far and more, the count less what
    was erased, and the nodes it did not reach. *)
Definition erases (e : Interval) (b : Z) (l : nodes) (begun : bool) (ins : nodes) (T : Z) : Prop :=
  exists ps after,
    erase_loop w e l [] begun ins (wrap T) = Ret ([], ins ++ ps, wrap (T - (total l - total (ps ++ after))), after) /\
    chain b (ps ++ after) /\
    (forall x, contents (ps ++ after) x = if memberb x e then None else contents l x) /\
    Forall (left_of e l) (ps ++ after).

Lemma left_of_cons e n l m : left_of e l m -> left_of e (n :: l) m.
Proof. intros (k & v & H & Hb). exists k, v. split; [now right|assumption]. Qed.

(** Some pieces of a node, and what the loop does with the rest. *)
Lemma erases_cons e b k v l begun ins pieces ins' T d :
  chain b ((k, v) :: l) ->
  erase_loop w e ((k, v) :: l) [] begun ins (wrap T) = erase_loop w e l [] true ins' (wrap (wrap T - wrap d)) ->
  ins' = ins ++ pieces -> d = hi_ k - lo_ k + 1 - total pieces ->
  chain b pieces -> upper b pieces <= hi_ k + 1 ->
  (forall x, contents pieces x = if memberb x e then None else if memberb x k then contents [(k, v)] x else None) ->
  Forall (left_of e ((k, v) :: l)) pieces ->
  erases e (hi_ k + 1) l true ins' (T - d) -> erases e b ((k, v) :: l) begun ins T.
Proof.
  intros Hc E -> -> Hp Hu Hx Hf (ps & after & E' & Hc' & Hx' & Hf'). exists (pieces ++ ps), after. rewrite E.
  destruct (wrap_step T (hi_ k - lo_ k + 1 - total pieces) 0) as [-> _]. rewrite E'. rewrite <- !app_assoc.
  assert (Hall : chain b (pieces ++ ps ++ after)) by (apply chain_app; split; [assumption|now apply (chain_weaken (hi_ k + 1))]).
  split; [do 3 f_equal; cbn [total]; rewrite !total_app; f_equal; lia|]. split; [assumption|]. split.
  - intros x. rewrite (contents_app b) by assumption. rewrite Hx, Hx'. cbn [contents]. destruct Hc as (Hb & Hpk & Hl).
    destruct (Z.ltb_spec x (upper b pieces)) as [Hlt|Hge].
    + destruct (memberb x e); [reflexivity|]. destruct (memberb x k); [reflexivity|]. symmetry. apply (contents_below (hi_ k + 1)); [assumption|lia].
    + destruct (memberb_spec x e) as [|He]; [reflexivity|]. destruct (memberb_spec x k) as [Hm|]; [|reflexivity]. exfalso.
      specialize (Hx x). cbn [contents] in Hx. destruct (memberb_spec x e); [contradiction|]. destruct (memberb_spec x k) as [_|]; [|contradiction].
      rewrite <- (app_nil_r pieces), (contents_app b), (proj2 (Z.ltb_ge _ _)) in Hx by (rewrite ?app_nil_r; assumption). discriminate.
  - apply Forall_app. split; [assumption|]. eapply Forall_impl; [exact Hf'|]. intros n. apply left_of_cons.
Qed.

Lemma erases_stop e b l begun ins T :
  proper w e -> chain b l -> match l with [] => True | n :: _ => hi_ e < lo_ (fst n) end -> erases e b l begun ins T.
Proof.
  intros He Hc Hl. exists [], l. rewrite app_nil_r. cbn [app]. split; [|split; [assumption|split]].
  - destruct l as [|[k v] l]; cbn [erase_loop]; [now rewrite Z.sub_diag, Z.sub_0_r|]. cbn in Hl.
    unfold Interval_isLeftOf. rewrite (proj2 (Z.ltb_lt _ _)) by assumption. now rewrite orb_true_r, Z.sub_diag, Z.sub_0_r.
  - intros x. destruct (memberb_spec x e) as [Hm|]; [|reflexivity]. destruct l as [|[k v] l]; [reflexivity|].
    apply (contents_below (lo_ k)); [|unfold member in Hm; cbn in Hl; lia]. cbn in *. split; [lia|]. apply Hc.
  - apply Forall_forall. intros [k v] H. exists k, v. split; [now apply list_elem_of_In|]. now split; left.
Qed.

Ltac interval_bools := repeat match goal with |- context [memberb ?x ?i] => destruct (memberb_spec x i) end; unfold member in *; cbn [lo_ hi_] in *; try reflexivity; try lia.

Lemma erase_loop_spec e l b begun ins T :
  proper w e -> chain b l -> (begun = true -> lo_ e <= b) -> (begun = false -> ins = []) ->
  chain 0 ins -> upper 0 ins <= b -> match l with [] => True | n :: _ => lo_ e <= hi_ (fst n) end ->
  erases e b l begun ins T.
Proof.
  intros He. revert b begun ins T. induction l as [|[k v] l IH]; intros b begun ins T Hc Hb Hi Hins Hu Hh; [now apply erases_stop|].
  pose proof Hc as (Hbk & Hk & Hl). cbn [fst] in Hh. pose proof He as (He1 & He2). pose proof Hk as (Hk1 & Hk2).
  destruct (Z.ltb_spec (hi_ e) (lo_ k)) as [Hleft|Hleft]; [apply erases_stop; [assumption|assumption|exact Hleft]|].
  assert (Hnext : forall ins' T', chain 0 ins' -> upper 0 ins' <= hi_ k + 1 -> lo_ e <= hi_ k + 1 -> erases e (hi_ k + 1) l true ins' T').
  { intros ins' T' Hc' Hu' Hle. apply IH; [assumption|now intros _|discriminate|assumption|assumption|].
    destruct l as [|[k2 v2] l2]; [exact I|]. cbn in *. unfold proper in *. lia. }
  assert (Hstop : Interval_isLeftOf e k = false).
  { unfold Interval_isLeftOf. rewrite !(proper_not_empty w) by assumption. now apply Z.ltb_ge. }
  assert (Hcont : Interval_contains e k = (lo_ e <=? lo_ k) && (hi_ k <=? hi_ e)).
  { unfold Interval_contains. now rewrite !(proper_not_empty w) by assumption. }
  destruct (Z.leb_spec (lo_ e) (lo_ k)) as [Hlo|Hlo], (Z.leb_spec (hi_ k) (hi_ e)) as [Hhi|Hhi]; cbn [andb] in Hcont.
  - (* the whole node *)
    apply (erases_cons e b k v l begun ins [] ins T (hi_ k - lo_ k + 1)); try assumption; try exact I.
    + cbn [erase_loop]. now rewrite Hstop, Hcont, proper_size.
    + now rewrite app_nil_r.
    + cbn. lia.
    + cbn. lia.
    + intros x. cbn [contents]. interval_bools.
    + constructor.
    + apply Hnext; [assumption|lia|lia].
  - (* its left part *)
    assert (Hp : proper w (mkInterval (hi_ e + 1) (hi_ k))) by (unfold proper; cbn; lia).
    destruct (split_lawful k v (hi_ e + 1) Hk ltac:(lia)) as (lv & rv & Es & _ & Hr).
    apply (erases_cons e b k v l begun ins [(mkInterval (hi_ e + 1) (hi_ k), rv)] (ins ++ [(mkInterval (hi_ e + 1) (hi_ k), rv)]) T (hi_ e - lo_ k + 1)); try assumption.
    + cbn [erase_loop]. rewrite Hstop, Hcont, (proj2 (Z.ltb_ge (lo_ k) (lo_ e))), (proj2 (Z.ltb_lt (hi_ e) (hi_ k))) by lia. cbn [andb].
      rewrite (wrap_id w (hi_ e + 1)) by lia. rewrite splitInterval_spec by (assumption || lia). cbn [obind lo_]. rewrite Es. cbn [obind].
      rewrite Map_insert_last by (cbn; assumption || lia). rewrite proper_size by (split; cbn; lia). cbn [lo_ hi_]. now replace (hi_ e + 1 - 1) with (hi_ e) by lia.
    + reflexivity.
    + cbn. lia.
    + cbn. split; [lia|]. now split.
    + cbn. lia.
    + intros x. cbn [contents]. specialize (Hr x). interval_bools; now rewrite Hr.
    + constructor; [|constructor]. exists k, v. cbn. split; [now left|]. split; [now right|now left].
    + apply Hnext; [apply chain_app; split; [assumption|]; cbn; split; [lia|now split]| |lia].
      rewrite upper_app. cbn. lia.
  - (* its right part *)
    destruct begun; [specialize (Hb eq_refl); lia|]. rewrite (Hi eq_refl).
    assert (Hp : proper w (mkInterval (lo_ k) (lo_ e - 1))) by (split; cbn; lia).
    destruct (truncate_lawful k v (lo_ e) Hk ltac:(lia)) as (lv & Et & Hx).
    apply (erases_cons e b k v l false [] [(mkInterval (lo_ k) (lo_ e - 1), lv)] [(mkInterval (lo_ k) (lo_ e - 1), lv)] T (hi_ k - lo_ e + 1)); try assumption.
    + cbn [erase_loop]. rewrite Hstop, Hcont, (proj2 (Z.ltb_lt (lo_ k) (lo_ e))), (proj2 (Z.ltb_ge (hi_ e) (hi_ k))) by lia. cbn [andb negb require_ obind].
      rewrite splitInterval_spec by (assumption || lia). cbn [obind]. rewrite Et. cbn [obind Map_insert].
      now rewrite proper_size by (split; cbn; lia).
    + reflexivity.
    + cbn. lia.
    + cbn. split; [lia|]. now split.
    + cbn. lia.
    + intros x. cbn [contents]. specialize (Hx x). interval_bools; now rewrite Hx.
    + constructor; [|constructor]. exists k, v. cbn. split; [now left|]. split; [now left|now right].
    + apply Hnext; cbn; try lia. split; [lia|]. now split.
  - (* its middle *)
    destruct begun; [specialize (Hb eq_refl); lia|]. rewrite (Hi eq_refl).
    assert (Hp : proper w (mkInterval (lo_ k) (hi_ e))) by (split; cbn; lia).
    assert (Hp1 : proper w (mkInterval (lo_ k) (lo_ e - 1))) by (split; cbn; lia).
    assert (Hp2 : proper w (mkInterval (hi_ e + 1) (hi_ k))) by (split; cbn; lia).
    destruct (split_lawful k v (hi_ e + 1) Hk ltac:(lia)) as (lv & rv & Es & Hl1 & Hr).
    replace (hi_ e + 1 - 1) with (hi_ e) in Hl1 by lia.
    destruct (truncate_lawful (mkInterval (lo_ k) (hi_ e)) lv (lo_ e) Hp ltac:(cbn; lia)) as (lv' & Et & Hx). cbn [lo_] in Hx.
    set (ps := [(mkInterval (lo_ k) (lo_ e - 1), lv'); (mkInterval (hi_ e + 1) (hi_ k), rv)]).
    apply (erases_cons e b k v l false [] ps ps T (hi_ e - lo_ e + 1)); try assumption.
    + cbn [erase_loop]. rewrite Hstop, Hcont, (proj2 (Z.ltb_lt (lo_ k) (lo_ e))), (proj2 (Z.ltb_lt (hi_ e) (hi_ k))) by lia. cbn [andb negb require_ obind].
      rewrite (wrap_id w (hi_ e + 1)) by lia. rewrite splitInterval_spec by (assumption || lia). cbn [obind lo_]. rewrite Es. cbn [obind].
      replace (hi_ e + 1 - 1) with (hi_ e) by lia. rewrite splitInterval_spec by (assumption || (cbn; lia)). cbn [obind lo_]. rewrite Et. cbn [obind].
      cbn [Map_insert]. unfold IntervalCompare. cbn [hi_]. rewrite (proj2 (Z.ltb_ge (hi_ k) _)), (proj2 (Z.ltb_lt (lo_ e - 1) _)) by lia.
      now rewrite proper_size.
    + reflexivity.
    + cbn. lia.
    + cbn. split; [lia|]. split; [assumption|]. split; [lia|]. now split.
    + cbn. lia.
    + intros x. subst ps. cbn [contents]. specialize (Hx x). specialize (Hl1 x). specialize (Hr x). interval_bools; rewrite ?Hx, ?Hl1, ?Hr by (reflexivity || (apply memberb_in; unfold member; cbn; lia)); reflexivity.
    + constructor; [|constructor; [|constructor]]; exists k, v; cbn; (split; [now left|]); split; lia.
    + apply Hnext; cbn; try lia. split; [lia|]. split; [assumption|]. split; [lia|]. now split.
Qed.

(** The invariant of a map. *)
Definition wf (m : IntervalMap V) : Prop := chain 0 (map_ m) /\ size_ m = wrap (total (map_ m)).

Lemma wf_empty : wf IntervalMap_empty.
Proof. split; [exact I|]. cbn. symmetry. apply Z.mod_0_l. pose proof (pow_w w width). lia. Qed.

Lemma erase_spec e m : Interval_ok w e -> wf m ->
  exists m', IntervalMap_erase w e m = Ret m' /\ wf m' /\
    (forall x, contents (map_ m') x = if memberb x e then None else contents (map_ m) x) /\
    Forall (left_of e (map_ m)) (map_ m').
Proof.
  intros [->|He] [Hc Hs].
  { exists m. split; [reflexivity|]. split; [now split|]. split.
    - intros x. destruct (memberb_spec x Interval_empty) as [Hm|]; [now apply member_empty in Hm|reflexivity].
    - apply Forall_forall. intros [k v] H. exists k, v. split; [now apply list_elem_of_In|]. now split; left. }
  destruct (lowerBound_spec (lo_ e) m) as (l1 & from & El & Em & Hb & Hf). rewrite Em in Hc. pose proof Hc as Hc0.
  apply chain_app in Hc as [H1 H2]. pose proof He as ((He1 & _) & _). apply (before_upper 0) in Hb; [|assumption|assumption].
  destruct (erase_loop_spec e from (upper 0 l1) false [] (total (map_ m)) He H2 ltac:(discriminate) ltac:(reflexivity) I (upper_le _ _ H1) Hf)
    as (ps & after & E & Hp & Hx & Ho).
  cbn [app] in E. eexists. split.
  { unfold IntervalMap_erase. rewrite (proper_not_empty w) by assumption. rewrite El, Hs, E. cbn [obind app]. reflexivity. }
  assert (Hall : chain 0 (l1 ++ ps ++ after)) by (apply chain_app; now split).
  assert (En : Map_insertMultiple (rev_append (rev l1) after) ps = l1 ++ ps ++ after).
  { rewrite rev_append_rev, rev_involutive. now apply (Map_insertMultiple_between 0). }
  unfold wf. cbn [map_ size_]. rewrite En. split; [split; [assumption|]|split].
  - rewrite Em, !total_app. f_equal. lia.
  - intros x. rewrite (contents_app 0 l1 (ps ++ after)), Em, (contents_app 0 l1 from) by assumption. rewrite Hx.
    destruct (Z.ltb_spec x (upper 0 l1)); [|reflexivity]. destruct (memberb_spec x e) as [Hm|]; [unfold member in Hm; lia|reflexivity].
  - rewrite Em. apply Forall_app. split.
    + apply Forall_forall. intros [k v] H. exists k, v. split; [apply in_or_app; left; now apply list_elem_of_In|]. now split; left.
    + eapply Forall_impl; [exact Ho|]. intros n (k & v & H & Hn). exists k, v. split; [apply in_or_app; now right|assumption].
Qed.

(** * Inserting *)

(** A map with room for a node between two parts. *)
Definition room (l1 : nodes) (key : Interval) (v : V) (l2 : nodes) : Prop := chain 0 (l1 ++ (key, v) :: l2).

Lemma room_chain l1 key v l2 : room l1 key v l2 -> chain 0 (l1 ++ l2) /\ upper 0 l1 <= lo_ key /\ proper w key /\ chain (hi_ key + 1) l2.
Proof.
  intros H. apply chain_app in H as (H1 & Hk & Hp & H2). split; [|easy]. apply chain_app. split; [assumption|].
  apply (chain_weaken (hi_ key + 1)); [unfold proper in Hp; lia|assumption].
Qed.

Lemma room_value l1 key v v' l2 : room l1 key v l2 -> room l1 key v' l2.
Proof. intros H. apply chain_app in H as (H1 & H2). apply chain_app. now split. Qed.

(** The node that the search for the scalar before a key finds. *)
Lemma find_left m l1 key v l2 : map_ m = l1 ++ l2 -> room l1 key v l2 -> 0 < lo_ key ->
  (exists l1' lk lv, l1 = l1' ++ [(lk, lv)] /\ hi_ lk + 1 = lo_ key /\
     IntervalMap_find (lo_ key - 1) m = (rev l1', (lk, lv) :: l2)) \/
  (upper 0 l1 < lo_ key /\ IntervalMap_find (lo_ key - 1) m = end_of m).
Proof.
  intros Em Hr H0. destruct (room_chain _ _ _ _ Hr) as (Hc & Hu & Hk & H2). pose proof Hc as Hc'. apply chain_app in Hc as [H1 _].
  unfold IntervalMap_find, lowerBound. rewrite Em.
  destruct (Z.eq_dec (upper 0 l1) (lo_ key)) as [E|E].
  - left. destruct l1 as [|[lk lv] l1' _] using rev_ind; [cbn in E; lia|]. exists l1', lk, lv.
    rewrite upper_app in E. cbn in E. split; [reflexivity|]. split; [assumption|]. rewrite <- app_assoc.
    apply chain_app in H1 as [H1 (Hlk & [Hp _] & _)]. rewrite lower_bound_at; cbn [app fst].
    + unfold node_at. cbn. rewrite app_nil_r. destruct (Z.ltb_spec (lo_ key - 1) (lo_ lk)); [lia|reflexivity].
    + apply (before_upper 0); [assumption|lia|lia].
    + lia.
  - right. split; [lia|]. rewrite lower_bound_at.
    + unfold node_at. cbn. destruct l2 as [|[k2 v2] l2]; [reflexivity|]. cbn in *. unfold proper in Hk.
      rewrite (proj2 (Z.ltb_lt _ _)) by lia. reflexivity.
    + apply (before_upper 0); [assumption|lia|lia].
    + destruct l2 as [|[k2 v2] l2]; [exact I|]. cbn in *. unfold proper in *. lia.
Qed.

(** And after a key. *)
Lemma find_right m l1 key v l2 : map_ m = l1 ++ l2 -> room l1 key v l2 ->
  match l2 with
  | (rk, rv) :: l2' => if hi_ key + 1 =? lo_ rk then IntervalMap_find (hi_ key + 1) m = (rev l1, (rk, rv) :: l2')
                       else IntervalMap_find (hi_ key + 1) m = end_of m
  | [] => IntervalMap_find (hi_ key + 1) m = end_of m
  end.
Proof.
  intros Em Hr. destruct (room_chain _ _ _ _ Hr) as (Hc & Hu & [Hk _] & H2). apply chain_app in Hc as [H1 _].
  assert (Hb : before (hi_ key + 1) l1) by (apply (before_upper 0); [assumption|lia|lia]).
  unfold IntervalMap_find, lowerBound. rewrite Em, lower_bound_at; [|assumption|].
  - unfold node_at. cbn [snd]. rewrite app_nil_r. destruct l2 as [|[rk rv] l2]; [reflexivity|]. cbn in *.
    destruct (Z.eqb_spec (hi_ key + 1) (lo_ rk)), (Z.ltb_spec (hi_ key + 1) (lo_ rk)); lia || reflexivity.
  - destruct l2 as [|[k2 v2] l2]; [exact I|]. cbn in *. unfold proper in *. lia.
Qed.

Lemma contents_cons_app l1 n l2 x : chain 0 (l1 ++ n :: l2) ->
  contents (l1 ++ n :: l2) x = if x <? upper 0 l1 then contents l1 x else contents (n :: l2) x.
Proof. apply (contents_app 0). Qed.

(** Two nodes made one hold what the two did. *)
Lemma contents_merge l1 i v j u m l2 :
  room l1 i v ((j, u) :: l2) -> hi_ i + 1 = lo_ j -> policy_merge i v j u = Ret (Some m) ->
  room l1 (mkInterval (lo_ i) (hi_ j)) m l2 /\
  forall x, contents (l1 ++ (mkInterval (lo_ i) (hi_ j), m) :: l2) x = contents (l1 ++ (i, v) :: (j, u) :: l2) x.
Proof.
  intros Hr E Hm. pose proof Hr as Hr'. apply chain_app in Hr as (H1 & Hi & Hpi & Hj & Hpj & H2).
  assert (Hroom : room l1 (mkInterval (lo_ i) (hi_ j)) m l2).
  { apply chain_app. split; [assumption|]. cbn. split; [assumption|]. split; [unfold proper in *; cbn; lia|assumption]. }
  split; [assumption|]. intros x. rewrite !contents_cons_app by assumption. destruct (x <? upper 0 l1); [reflexivity|].
  destruct (merge_lawful i v j u Hpi Hpj E) as (r & Er & Hh). rewrite Hm in Er. injection Er as <-.
  specialize (Hh m eq_refl x). cbn [contents]. unfold proper in *. interval_bools; rewrite ?Hh by reflexivity; reflexivity.
Qed.

Lemma size_without m l1 k v l2 : map_ m = l1 ++ (k, v) :: l2 -> size_ m = wrap (total (map_ m)) -> proper w k ->
  wrap (size_ m - Interval_size w k) = wrap (total (l1 ++ l2)).
Proof.
  intros Em -> Hk. rewrite proper_size, Em, !total_app by assumption. cbn [total].
  rewrite Zminus_mod_idemp_l, Zminus_mod_idemp_r. f_equal. lia.
Qed.

(** What merging leaves: room for the merged node, which holds what the node and
    its neighbour did, or the node as it was next to one that does not merge. *)
Definition left_result (l1 : nodes) (key : Interval) (v : V) (l2 : nodes) (r : outcome (Interval * V * IntervalMap V)) : Prop :=
  exists l1' key' v' m', r = Ret (key', v', m') /\
    map_ m' = l1' ++ l2 /\ size_ m' = wrap (total (map_ m')) /\ room l1' key' v' l2 /\
    (forall x, contents (l1' ++ (key', v') :: l2) x = contents (l1 ++ (key, v) :: l2) x) /\
    ((l1' = l1 /\ key' = key /\ v' = v /\
      forall l lk lv, l1 = l ++ [(lk, lv)] -> hi_ lk + 1 = lo_ key -> policy_merge lk lv key v = Ret None) \/
     exists lk lv, l1 = l1' ++ [(lk, lv)] /\ hi_ lk + 1 = lo_ key /\ policy_merge lk lv key v = Ret (Some v') /\
       key' = mkInterval (lo_ lk) (hi_ key)).

Definition right_result (l1 : nodes) (key : Interval) (v : V) (l2 : nodes) (r : outcome (Interval * V * IntervalMap V)) : Prop :=
  exists l2' key' v' m', r = Ret (key', v', m') /\
    map_ m' = l1 ++ l2' /\ size_ m' = wrap (total (map_ m')) /\ room l1 key' v' l2' /\
    (forall x, contents (l1 ++ (key', v') :: l2') x = contents (l1 ++ (key, v) :: l2) x) /\
    ((l2' = l2 /\ key' = key /\ v' = v /\
      forall l rk rv, l2 = (rk, rv) :: l -> hi_ key + 1 = lo_ rk -> policy_merge key v rk rv = Ret None) \/
     exists rk rv, l2 = (rk, rv) :: l2' /\ hi_ key + 1 = lo_ rk /\ policy_merge key v rk rv = Ret (Some v') /\
       key' = mkInterval (lo_ key) (hi_ rk)).

Lemma left_result_same m l1 key v l2 :
  map_ m = l1 ++ l2 -> size_ m = wrap (total (map_ m)) -> room l1 key v l2 ->
  (forall l lk lv, l1 = l ++ [(lk, lv)] -> hi_ lk + 1 = lo_ key -> policy_merge lk lv key v = Ret None) ->
  left_result l1 key v l2 (Ret (key, v, m)).
Proof. intros Em Hs Hr Hno. exists l1, key, v, m. repeat (split; [assumption || reflexivity|]). now left. Qed.

Lemma right_result_same m l1 key v l2 :
  map_ m = l1 ++ l2 -> size_ m = wrap (total (map_ m)) -> room l1 key v l2 ->
  (forall l rk rv, l2 = (rk, rv) :: l -> hi_ key + 1 = lo_ rk -> policy_merge key v rk rv = Ret None) ->
  right_result l1 key v l2 (Ret (key, v, m)).
Proof. intros Em Hs Hr Hno. exists l2, key, v, m. repeat (split; [assumption || reflexivity|]). now left. Qed.

Lemma merge_left_spec m l1 key v l2 :
  map_ m = l1 ++ l2 -> size_ m = wrap (total (map_ m)) -> room l1 key v l2 ->
  left_result l1 key v l2 (merge_left w key v m).
Proof.
  intros Em Hs Hr. destruct (room_chain _ _ _ _ Hr) as (Hc & Hu & Hk & H2). pose proof Hk as ([Hk0 Hk1] & Hk2).
  pose proof (left_result_same m l1 key v l2 Em Hs Hr) as Hsame. unfold merge_left.
  destruct (Z.eq_dec (lo_ key) 0) as [E0|E0].
  { rewrite E0, (proj2 (Z.ltb_ge _ _)) by (apply Z.mod_pos_bound; pose proof (pow_w w width); lia).
    apply Hsame. intros l lk lv -> E. exfalso. apply chain_app in Hc as [Hc _]. apply chain_app in Hc as [_ (_ & [Hp _] & _)]. lia. }
  rewrite (wrap_id w (lo_ key - 1)), (proj2 (Z.ltb_lt _ _)) by lia.
  destruct (find_left m l1 key v l2 Em Hr ltac:(lia)) as [(l1' & lk & lv & -> & E & Ef)|[E Ef]]; rewrite Ef.
  - unfold node_at. cbn [snd List.hd_error]. rewrite E, (wrap_id w), Z.eqb_refl by lia.
    unfold room in Hr. rewrite <- app_assoc in Hr. cbn [app] in Hr. pose proof Hr as Hr'. apply chain_app in Hr' as (_ & _ & Hlk & _).
    destruct (merge_lawful lk lv key v Hlk Hk E) as (r & Er & _). rewrite Er. cbn [obind]. destruct r as [v'|].
    + destruct (contents_merge _ _ _ _ _ _ _ Hr E Er) as [Hr' Hx]. rewrite hull_le by (unfold proper in *; lia).
      eexists l1', _, v', _. split; [reflexivity|]. unfold Map_eraseAt. cbn [map_ size_ fst snd List.tl].
      rewrite rev_append_rev, rev_involutive. rewrite <- app_assoc in Em. cbn [app] in Em. split; [reflexivity|].
      split; [now apply (size_without m l1' lk lv l2)|]. split; [assumption|]. split; [intros x; rewrite Hx, <- app_assoc; reflexivity|].
      right. now exists lk, lv.
    + apply Hsame. intros l lk' lv' Ea _. apply app_inj_tail in Ea as [_ [= <- <-]]. exact Er.
  - cbn [end_of node_at snd List.hd_error]. apply Hsame. intros l lk lv -> E'. rewrite upper_app in E. cbn in E. lia.
Qed.

Lemma merge_right_spec m l1 key v l2 :
  map_ m = l1 ++ l2 -> size_ m = wrap (total (map_ m)) -> room l1 key v l2 ->
  right_result l1 key v l2 (merge_right w key v m).
Proof.
  intros Em Hs Hr. destruct (room_chain _ _ _ _ Hr) as (Hc & Hu & Hk & H2). pose proof Hk as ([Hk0 Hk1] & Hk2).
  pose proof (right_result_same m l1 key v l2 Em Hs Hr) as Hsame. unfold merge_right. rewrite wrap_succ by (assumption || lia).
  destruct (Z.eqb_spec (hi_ key) (const_max w)) as [E0|E0].
  { rewrite (proj2 (Z.ltb_ge _ _)) by lia. apply Hsame. intros l rk rv -> E. cbn in H2. unfold proper in H2. lia. }
  rewrite (proj2 (Z.ltb_lt _ _)) by lia. pose proof (find_right m l1 key v l2 Em Hr) as Ef. destruct l2 as [|[rk rv] l2'].
  { rewrite Ef. cbn [end_of node_at snd List.hd_error]. apply Hsame. discriminate. }
  destruct (Z.eqb_spec (hi_ key + 1) (lo_ rk)) as [E|E]; rewrite Ef.
  - unfold node_at. cbn [snd List.hd_error]. rewrite E, Z.eqb_refl. destruct H2 as (_ & Hrk & H2).
    destruct (merge_lawful key v rk rv Hk Hrk E) as (r & Er & _). rewrite Er. cbn [obind]. destruct r as [v'|].
    + destruct (contents_merge _ _ _ _ _ _ _ Hr E Er) as [Hr' Hx]. rewrite hull_le by (unfold proper in *; lia).
      eexists l2', _, v', _. split; [reflexivity|]. unfold Map_eraseAt. cbn [map_ size_ fst snd List.tl].
      rewrite rev_append_rev, rev_involutive. split; [reflexivity|].
      split; [now apply (size_without m l1 rk rv l2')|]. split; [assumption|]. split; [assumption|]. right. now exists rk, rv.
    + apply Hsame. intros l rk' rv' [= <- <- _] _. exact Er.
  - cbn [end_of node_at snd List.hd_error]. apply Hsame. intros l rk' rv' [= <- <- _]. contradiction.
Qed.

(** Inserting where there is room: the two merges, in order. *)
Lemma insert_node_spec m l1 key v l2 :
  map_ m = l1 ++ l2 -> size_ m = wrap (total (map_ m)) -> room l1 key v l2 ->
  exists m' l1' k1 v1 l2' k2 v2 m1, insert_node w key v m = Ret m' /\ wf m' /\
    (forall x, contents (map_ m') x = contents (l1 ++ (key, v) :: l2) x) /\
    left_result l1 key v l2 (Ret (k1, v1, m1)) /\ map_ m1 = l1' ++ l2 /\ room l1' k1 v1 l2 /\
    right_result l1' k1 v1 l2 (merge_right w k1 v1 m1) /\
    map_ m' = l1' ++ (k2, v2) :: l2' /\ exists m2, merge_right w k1 v1 m1 = Ret (k2, v2, m2) /\ map_ m2 = l1' ++ l2'.
Proof.
  intros Em Hs Hr. pose proof (merge_left_spec m l1 key v l2 Em Hs Hr) as HL. pose proof HL as HL0.
  destruct HL as (l1' & k1 & v1 & m1 & E1 & Em1 & Hs1 & Hr1 & Hx1 & _).
  pose proof (merge_right_spec m1 l1' k1 v1 l2 Em1 Hs1 Hr1) as HR. pose proof HR as HR0.
  destruct HR as (l2' & k2 & v2 & m2 & E2 & Em2 & Hs2 & Hr2 & Hx2 & _).
  eexists _, l1', k1, v1, l2', k2, v2, m1. split.
  { unfold insert_node. rewrite E1. cbn [obind]. rewrite E2. cbn [obind].
    rewrite Em2, (Map_insert_between 0) by assumption. reflexivity. }
  destruct (room_chain _ _ _ _ Hr2) as (_ & _ & Hk2 & _). split; [split; cbn [map_ size_]; [assumption|]|].
  - rewrite Hs2, Em2, proper_size, !total_app by assumption. cbn [total]. rewrite <- Zplus_mod. f_equal. lia.
  - split; [intros x; cbn [map_]; now rewrite Hx2|]. rewrite E1 in HL0.
    repeat (split; [assumption|]). split; [reflexivity|]. now exists m2.
Qed.

(** Room for a key that is not mapped. *)
Lemma room_for b l key v : chain b l -> b <= lo_ key -> proper w key -> (forall x, member x key -> contents l x = None) ->
  exists l1 l2, l = l1 ++ l2 /\ chain b (l1 ++ (key, v) :: l2).
Proof.
  intros Hc Hb Hk Hno. revert b Hc Hb. induction l as [|[k u] l IH]; intros b Hc Hb.
  - exists [], []. cbn. easy.
  - pose proof Hc as (Hbk & Hp & Hl). destruct (Z.lt_ge_cases (hi_ k) (lo_ key)) as [Hlt|Hge].
    + destruct (IH) with (b := hi_ k + 1) as (l1 & l2 & -> & H); [|assumption|lia|].
      * intros x Hx. specialize (Hno x Hx). cbn in Hno. now destruct (memberb x k).
      * exists ((k, u) :: l1), l2. now split.
    + exists [], ((k, u) :: l). split; [reflexivity|]. cbn. split; [assumption|]. split; [assumption|]. split; [|now split].
      enough (hi_ key < lo_ k) by lia. apply Z.nle_gt. intros Hle. unfold proper in *.
      specialize (Hno (Z.max (lo_ k) (lo_ key)) ltac:(unfold member; lia)). cbn in Hno.
      destruct (memberb_spec (Z.max (lo_ k) (lo_ key)) k) as [|Hn]; [discriminate|]. apply Hn. unfold member. lia.
Qed.

Lemma contents_room l1 key v l2 x : room l1 key v l2 ->
  contents (l1 ++ (key, v) :: l2) x = if memberb x key then Some (holds key v x) else contents (l1 ++ l2) x.
Proof.
  intros Hr. destruct (room_chain _ _ _ _ Hr) as (Hc & Hu & Hk & H2). rewrite contents_cons_app, (contents_app 0 l1 l2) by assumption.
  cbn [contents]. unfold proper in Hk. destruct (Z.ltb_spec x (upper 0 l1)); [|reflexivity].
  destruct (memberb_spec x key) as [Hm|]; [unfold member in Hm; lia|reflexivity].
Qed.

(** Whether an insertion happens. *)
Definition is_free (key : Interval) (l : nodes) : Prop := forall x, member x key -> contents l x = None.

Lemma overlaps_first l1 from key b : chain b (l1 ++ from) -> 0 <= b <= lo_ key -> before (lo_ key) l1 -> proper w key ->
  match from with [] => True | n :: _ => lo_ key <= hi_ (fst n) end ->
  is_free key (l1 ++ from) <-> match from with [] => True | n :: _ => Interval_overlaps key (fst n) = false end.
Proof.
  intros Hc Hb Hbef Hk Hf. pose proof Hc as Hc'. apply chain_app in Hc' as [H1 H2]. apply (before_upper b) in Hbef; [|assumption|lia].
  assert (Hx : forall x, member x key -> contents (l1 ++ from) x = contents from x).
  { intros x Hx. rewrite (contents_app b), (proj2 (Z.ltb_ge _ _)) by (assumption || (unfold member in Hx; lia)). reflexivity. }
  unfold is_free. destruct from as [|[k v] from]; [split; [easy|intros _ x Hm; now rewrite Hx]|]. cbn [fst] in *. destruct H2 as (_ & Hp & H2).
  split.
  - intros Hno. apply not_true_iff_false. rewrite (overlaps_spec w) by now right. intros (x & Hxk & Hxn).
    specialize (Hno x Hxk). rewrite Hx in Hno by assumption. cbn in Hno. now destruct (memberb_spec x k).
  - intros Ho x Hm. rewrite Hx by assumption. cbn. destruct (memberb_spec x k) as [Hmk|Hn].
    + exfalso. apply not_true_iff_false in Ho. apply Ho. apply (overlaps_spec w); [now right|now right|]. now exists x.
    + apply (contents_below (hi_ k + 1)); [assumption|]. unfold member, proper in *.
      enough (x < lo_ k) by lia. apply Z.nle_gt. intros Hle. apply Hn. split; [assumption|].
      apply Z.nlt_ge. intros Hgt. apply not_true_iff_false in Ho. apply Ho. apply (overlaps_spec w); [now right|now right|].
      exists (Z.max (lo_ k) (lo_ key)). unfold member. lia.
Qed.

(** * Searching *)

Lemma node_at_cons bef (n : Node V) f : node_at (bef, n :: f) = Some n.
Proof. reflexivity. Qed.
Lemma node_at_end (m : IntervalMap V) : node_at (end_of m) = None.
Proof. reflexivity. Qed.

Lemma find_spec x m : wf m -> 0 <= x ->
  match node_at (IntervalMap_find x m) with
  | Some (k, v) => In (k, v) (map_ m) /\ member x k /\ contents (map_ m) x = Some (holds k v x)
  | None => contents (map_ m) x = None
  end.
Proof.
  intros [Hc _] Hx. unfold IntervalMap_find. destruct (lowerBound_spec x m) as (l1 & from & -> & Em & Hb & Hf). rewrite Em in *.
  pose proof Hc as Hc'. apply chain_app in Hc' as [H1 H2]. apply (before_upper 0) in Hb; [|assumption|assumption].
  rewrite (contents_app 0 l1 from), (proj2 (Z.ltb_ge _ _)) by assumption.
  destruct from as [|[k v] from]; [reflexivity|]. rewrite node_at_cons. cbn [fst] in *. destruct H2 as (_ & Hp & H2).
  destruct (Z.ltb_spec x (lo_ k)) as [Hlt|Hge].
  - rewrite node_at_end. apply (contents_below (lo_ k)); [|assumption]. cbn. split; [lia|now split].
  - rewrite node_at_cons. split; [apply in_or_app; right; now left|]. cbn [contents].
    split; [now split|]. now rewrite memberb_in by now split.
Qed.

Lemma contents_above b l x : chain b l -> upper b l <= x -> contents l x = None.
Proof. intros Hc Hx. rewrite <- (app_nil_r l), (contents_app b), (proj2 (Z.ltb_ge _ _)) by (rewrite ?app_nil_r; assumption). reflexivity. Qed.

Lemma contents_snoc b l k v x : chain b (l ++ [(k, v)]) ->
  contents (l ++ [(k, v)]) x = if memberb x k then Some (holds k v x) else contents l x.
Proof.
  intros Hc. rewrite (contents_app b) by assumption. apply chain_app in Hc as (H1 & Hk & _). cbn.
  destruct (Z.ltb_spec x (upper b l)); destruct (memberb_spec x k) as [Hm|]; try reflexivity.
  - unfold member in Hm. lia.
  - symmetry. now apply (contents_above b).
Qed.

(** Nodes that start after a scalar do not matter to it. *)
Lemma contents_prefix b l1 l2 x : chain b (l1 ++ l2) -> match l2 with [] => True | n :: _ => x < lo_ (fst n) end ->
  contents (l1 ++ l2) x = contents l1 x.
Proof.
  intros Hc Hx. rewrite (contents_app b) by assumption. apply chain_app in Hc as [H1 H2].
  destruct (Z.ltb_spec x (upper b l1)); [reflexivity|]. rewrite (contents_above b l1) by assumption.
  destruct l2 as [|[k v] l2]; [reflexivity|]. apply (contents_below (lo_ k)); [|assumption]. cbn in *. split; [lia|apply H2].
Qed.

(** The node [findPrior] finds starts at or before the scalar, and no later node
    does. *)
Lemma findPrior_spec x m : wf m -> 0 <= x -> exists p s, findPrior x m = (rev p, s) /\ map_ m = p ++ s /\
  match s with
  | [] => forall y, y <= x -> contents (map_ m) y = None
  | n :: s' => lo_ (fst n) <= x /\ match s' with [] => True | n' :: _ => x < lo_ (fst n') end
  end.
Proof.
  intros [Hc _] Hx. unfold findPrior. destruct (lowerBound_spec x m) as (l1 & from & -> & Em & Hb & Hf). rewrite Em in *.
  assert (Hend : l1 = [] -> match from with [] => True | n :: _ => x < lo_ (fst n) end ->
    exists p s, end_of m = (rev p, s) /\ l1 ++ from = p ++ s /\
    match s with [] => forall y, y <= x -> contents (l1 ++ from) y = None | _ => False end).
  { intros -> Hl. exists from, []. unfold end_of. rewrite Em. split; [reflexivity|]. split; [now rewrite app_nil_r|]. intros y Hy.
    rewrite (contents_prefix 0 []); [reflexivity|assumption|]. destruct from as [|n from]; [exact I|lia]. }
  assert (Hlast : match from with [] => True | n :: _ => x < lo_ (fst n) end ->
    exists p s, (if at_begin (rev l1, from) then end_of m else prior (rev l1, from)) = (rev p, s) /\ l1 ++ from = p ++ s /\
    match s with [] => forall y, y <= x -> contents (l1 ++ from) y = None
    | n :: s' => lo_ (fst n) <= x /\ match s' with [] => True | n' :: _ => x < lo_ (fst n') end end).
  { intros Hl. destruct l1 as [|[k v] l1' _] using rev_ind.
    - destruct (Hend eq_refl Hl) as (p & [|? ?] & E & Ep & H); [|contradiction]. now exists p, [].
    - clear Hend. exists l1', ((k, v) :: from). rewrite rev_app_distr. cbn [rev app at_begin fst prior].
      split; [reflexivity|]. split; [now rewrite <- app_assoc|]. apply Forall_app in Hb as [_ Hb]. apply Forall_cons in Hb as [Hb _].
      apply chain_app in Hc as [Hc _]. apply chain_app in Hc as [_ (_ & [Hp _] & _)]. cbn in *. split; [lia|assumption]. }
  unfold IntervalMap_isEmpty. rewrite Em. destruct from as [|n from].
  - destruct (l1 ++ []) as [|n0 l0] eqn:El.
    + apply app_eq_nil in El as [-> _]. destruct (Hend eq_refl I) as (p & [|? ?] & E & Ep & H); [|contradiction]. now exists p, [].
    + now apply Hlast.
  - destruct (l1 ++ n :: from) as [|n0 l0] eqn:El; [now apply app_eq_nil in El as [_ ?]|]. rewrite node_at_cons.
    destruct (Z.leb_spec (lo_ (fst n)) x) as [Hle|Hlt]; [|now apply Hlast].
    exists l1, (n :: from). split; [reflexivity|]. split; [now rewrite El|]. split; [assumption|].
    rewrite <- El in Hc. destruct n as [k v], from as [|[k2 v2] from]; [exact I|]. apply chain_app in Hc as [_ (_ & _ & Hk & _)]. cbn in *. lia.
Qed.

(** ** Scalars that are not mapped *)

Definition mapped (l : nodes) (x : Z) : Prop := contents l x <> None.

Lemma mapped_cons k v l x : mapped ((k, v) :: l) x <-> member x k \/ mapped l x.
Proof. unfold mapped. cbn. destruct (memberb_spec x k); [|tauto]. split; [now left|discriminate]. Qed.

Lemma mapped_snoc b l k v x : chain b (l ++ [(k, v)]) -> (mapped (l ++ [(k, v)]) x <-> member x k \/ mapped l x).
Proof. intros Hc. unfold mapped. rewrite (contents_snoc b) by assumption. destruct (memberb_spec x k); [|tauto]. split; [now left|discriminate]. Qed.

Lemma not_mapped l x : contents l x = None <-> ~ mapped l x.
Proof. unfold mapped. destruct (contents l x); [split; [discriminate|]|tauto]. intros H. exfalso. now apply H. Qed.

(** The least scalar from [limit] on that is not mapped, if there is one. *)
Definition least_free (l : nodes) (limit : Z) (r : option Z) : Prop :=
  match r with
  | Some y => limit <= y <= const_max w /\ ~ mapped l y /\ forall z, limit <= z < y -> mapped l z
  | None => forall z, limit <= z <= const_max w -> mapped l z
  end.

Lemma leastUnmapped_loop_spec b l limit : chain b l -> 0 <= limit <= const_max w ->
  match l with [] => True | n :: _ => limit <= hi_ (fst n) end -> least_free l limit (leastUnmapped_loop w limit l).
Proof.
  revert b limit. induction l as [|[k v] l IH]; intros b limit Hc Hlim Hh; cbn [leastUnmapped_loop].
  - cbn. split; [lia|]. split; [now apply not_mapped|lia].
  - destruct Hc as (_ & Hk & Hl). pose proof Hk as (Hk1 & Hk2). cbn [fst] in Hh. destruct (Z.ltb_spec limit (lo_ k)) as [Hlt|Hge].
    + cbn. split; [lia|]. split; [|lia]. rewrite mapped_cons. pose proof (proj1 (not_mapped _ _) (contents_below _ _ limit Hl ltac:(lia))) as Hn.
      unfold member. intros [?|?]; [lia|now apply Hn].
    + rewrite wrap_succ by (assumption || lia). destruct (Z.eqb_spec (hi_ k) (const_max w)) as [E|E].
      * rewrite (proj2 (Z.leb_le _ _)) by lia. intros z Hz. apply mapped_cons. left. unfold member. lia.
      * rewrite (proj2 (Z.leb_gt _ _)) by lia. assert (Hn : match l with [] => True | n :: _ => hi_ k + 1 <= hi_ (fst n) end).
        { destruct l as [|[k2 v2] l]; [exact I|]. cbn in *. unfold proper in *. lia. }
        pose proof (IH _ (hi_ k + 1) Hl ltac:(lia) Hn) as Hr. destruct (leastUnmapped_loop _ _ _) as [y|]; cbn in *.
        -- destruct Hr as (Hy & Hno & Hall). split; [lia|]. split; [rewrite mapped_cons; unfold member; intros [?|?]; [lia|contradiction]|].
           intros z Hz. apply mapped_cons. destruct (Z.le_gt_cases z (hi_ k)); [left; unfold member; lia|right; apply Hall; lia].
        -- intros z Hz. apply mapped_cons. destruct (Z.le_gt_cases z (hi_ k)); [left; unfold member; lia|right; apply Hr; lia].
Qed.

(** The greatest scalar up to [limit] that is not mapped; the nodes are in
    reverse. *)
Definition greatest_free (l : nodes) (limit : Z) (r : option Z) : Prop :=
  match r with
  | Some y => 0 <= y <= limit /\ ~ mapped l y /\ forall z, y < z <= limit -> mapped l z
  | None => forall z, 0 <= z <= limit -> mapped l z
  end.

Lemma greatestUnmapped_loop_spec r limit : chain 0 (rev r) -> 0 <= limit <= const_max w ->
  match r with [] => True | n :: _ => lo_ (fst n) <= limit end -> greatest_free (rev r) limit (greatestUnmapped_loop w limit r).
Proof.
  revert limit. induction r as [|[k v] r IH]; intros limit Hc Hlim Hh; cbn [greatestUnmapped_loop].
  - cbn. split; [lia|]. split; [now apply not_mapped|lia].
  - cbn [rev] in *. pose proof Hc as Hc'. apply chain_app in Hc' as [H1 (Hu & Hk & _)]. pose proof Hk as (Hk1 & Hk2). cbn [fst] in Hh.
    assert (Hm : forall x, mapped (rev r ++ [(k, v)]) x <-> member x k \/ mapped (rev r) x) by (intros x; now apply (mapped_snoc 0)).
    unfold member in Hm. destruct (Z.ltb_spec (hi_ k) limit) as [Hlt|Hge].
    + cbn. split; [lia|]. split; [|lia]. rewrite Hm. pose proof (proj1 (not_mapped _ _) (contents_above 0 (rev r) limit H1 ltac:(lia))) as Hn.
      intros [?|?]; [lia|now apply Hn].
    + destruct (Z.eq_dec (lo_ k) 0) as [E|E].
      * rewrite E. replace (0 - 1) with (-1) by lia. assert (Ew : wrap (-1) = const_max w).
        { unfold const_max. pose proof (pow_w w width). replace (-1) with (2 ^ w - 1 + (-1) * 2 ^ w) by lia. rewrite Z_mod_plus_full. apply Z.mod_small. lia. }
        rewrite Ew, (proj2 (Z.leb_le _ _)) by lia. intros z Hz. apply Hm. lia.
      * rewrite (wrap_id w (lo_ k - 1)), (proj2 (Z.leb_gt _ _)) by lia.
        assert (Hn : match r with [] => True | n :: _ => lo_ (fst n) <= lo_ k - 1 end).
        { destruct r as [|[k2 v2] r]; [exact I|]. cbn [rev] in H1, Hu. rewrite upper_app in Hu. apply chain_app in H1 as [_ (_ & [Hp _] & _)]. cbn in *. lia. }
        pose proof (IH (lo_ k - 1) H1 ltac:(lia) Hn) as Hr. destruct (greatestUnmapped_loop _ _ _) as [y|]; cbn in *.
        -- destruct Hr as (Hy & Hno & Hall). split; [lia|]. split; [rewrite Hm; intros [?|?]; [lia|contradiction]|].
           intros z Hz. apply Hm. destruct (Z.le_gt_cases (lo_ k) z); [left; lia|right; apply Hall; lia].
        -- intros z Hz. apply Hm. destruct (Z.le_gt_cases (lo_ k) z); [left; lia|right; apply Hr; lia].
Qed.

Lemma mapped_from b l1 l2 limit : chain b (l1 ++ l2) -> b <= limit -> before limit l1 ->
  forall x, limit <= x -> (mapped (l1 ++ l2) x <-> mapped l2 x).
Proof.
  intros Hc Hb Hbef x Hx. pose proof Hc as Hc'. apply chain_app in Hc' as [H1 _]. apply (before_upper b) in Hbef; [|assumption|assumption].
  unfold mapped. now rewrite (contents_app b), (proj2 (Z.ltb_ge _ _)) by (assumption || lia).
Qed.

(** * Nodes and contents *)

Lemma contents_In b l k v x : chain b l -> In (k, v) l -> member x k -> contents l x = Some (holds k v x).
Proof.
  revert b. induction l as [|[k0 v0] l IH]; intros b Hc Hin Hx; [easy|]. destruct Hc as (_ & Hp & Hl). cbn. destruct Hin as [[= -> ->]|Hin].
  - now rewrite memberb_in.
  - pose proof (chain_Forall _ _ Hl) as Hf. rewrite Forall_forall in Hf.
    specialize (Hf (k, v) ltac:(now apply list_elem_of_In)). cbn in Hf. destruct (memberb_spec x k0) as [Hm|]; [unfold member in *; lia|].
    now apply (IH _ Hl).
Qed.

Lemma contents_Some l x a : contents l x = Some a -> exists k v, In (k, v) l /\ member x k /\ holds k v x = a.
Proof.
  induction l as [|[k v] l IH]; [discriminate|]. cbn. destruct (memberb_spec x k).
  - intros [= <-]. exists k, v. split; [now left|easy].
  - intros H. destruct (IH H) as (k' & v' & Hin & H'). exists k', v'. split; [now right|assumption].
Qed.

(** The nodes before and after one. *)
Lemma room_nodes l1 key v l2 k u : room l1 key v l2 -> In (k, u) (l1 ++ l2) ->
  proper w k /\ ((In (k, u) l1 /\ hi_ k < lo_ key) \/ (In (k, u) l2 /\ hi_ key < lo_ k)).
Proof.
  intros Hr Hin. destruct (room_chain _ _ _ _ Hr) as (Hc & Hu & Hk & H2). apply chain_app in Hc as [H1 _].
  apply in_app_or in Hin as [Hin|Hin].
  - pose proof (chain_Forall _ _ H1) as Hf. rewrite Forall_forall in Hf.
    specialize (Hf (k, u) ltac:(now apply list_elem_of_In)). cbn in Hf. split; [apply Hf|]. left. split; [assumption|lia].
  - pose proof (chain_Forall _ _ H2) as Hf. rewrite Forall_forall in Hf.
    specialize (Hf (k, u) ltac:(now apply list_elem_of_In)). cbn in Hf. split; [apply Hf|]. right. split; [assumption|lia].
Qed.
End Facts.
