(* ===== verification/SawyerMapTheorems.v ===== *)
(** Interval maps are functions: erasing and inserting intervals refine the
    operations on the contents, searches return what they are named for, and the
    default policy keeps the fewest nodes, so that equal contents are equal
    nodes. *)
From S2P Require Import Prelude SawyerInterval SawyerIntervalMap SawyerMapFacts.
Open Scope Z_scope.

(** * Policies that are lawful *)

#[export] Instance MergePolicy_lawful w V `{EqDecision V} : LawfulPolicy w V V (P := MergePolicy V).
Proof.
  refine {| holds := fun _ v _ => v |}.
  - intros i v j u _ _ _. eexists. split; [reflexivity|]. cbn. intros m. destruct (decide (v = u)) as [->|]; [|discriminate].
    intros [= <-] x _. now destruct (memberb x i).
  - intros i v p _ _. exists v, v. easy.
  - intros i v p _ _. exists v. easy.
Defined.

(** Sequences of operations. *)
Inductive map_op (V : Type) :=
  | Erase (i : Interval)
  | Insert (key : Interval) (value : V)
  | Clear.
Arguments Erase {V}.
Arguments Insert {V}.
Arguments Clear {V}.

Section Run.
Variable w : Z.
Context {V A : Type} {P : Policy V}.

Definition map_step (op : map_op V) (m : IntervalMap V) : outcome (IntervalMap V) :=
  match op with
  | Erase i => IntervalMap_erase w i m
  | Insert key value => IntervalMap_insert w key value true m
  | Clear => Ret (IntervalMap_clear m)
  end.
Fixpoint map_run (ops : list (map_op V)) (m : IntervalMap V) : outcome (IntervalMap V) :=
  match ops with
  | [] => Ret m
  | op :: ops => let! m := map_step op m in map_run ops m
  end.

(** What they mean for a function. *)
Definition fun_step {L : LawfulPolicy w V A} (op : map_op V) (f : Z -> option A) : Z -> option A :=
  match op with
  | Erase i => fun x => if memberb x i then None else f x
  | Insert key value => fun x => if memberb x key then Some (holds key value x) else f x
  | Clear => fun _ => None
  end.

Definition op_ok (op : map_op V) : Prop :=
  match op with Erase i => Interval_ok w i | Insert key _ => Interval_ok w key | Clear => True end.
End Run.

Section Theorems.
Variable w : Z.
Hypothesis width : 0 < w.
Context {V A : Type} {P : Policy V} {L : LawfulPolicy w V A}.
#[local] Notation wf := (wf w).
#[local] Notation contents := (contents w).
#[local] Notation mapped := (mapped w).
#[local] Notation wrap x := (x mod 2 ^ w).

(** ** Inserting *)

Lemma insert_node_contents m l1 key v l2 :
  map_ m = l1 ++ l2 -> wf m -> room w l1 key v l2 ->
  exists m', insert_node w key v m = Ret m' /\ wf m' /\
    forall x, contents (map_ m') x = if memberb x key then Some (holds key v x) else contents (map_ m) x.
Proof.
  intros Em [_ Hs] Hr. destruct (insert_node_spec w width m l1 key v l2 Em Hs Hr) as (m' & ? & ? & ? & ? & ? & ? & ? & E & Hwf & Hx & _).
  exists m'. split; [assumption|]. split; [assumption|]. intros y. rewrite Hx, Em. now apply contents_room.
Qed.

Lemma insert_spec key v m : Interval_ok w key -> wf m ->
  exists m', IntervalMap_insert w key v true m = Ret m' /\ wf m' /\
    forall x, contents (map_ m') x = if memberb x key then Some (holds key v x) else contents (map_ m) x.
Proof.
  intros [->|Hk] Hm.
  - exists m. split; [reflexivity|]. split; [assumption|]. intros x. destruct (memberb_spec x Interval_empty) as [H|]; [now apply member_empty in H|reflexivity].
  - destruct (erase_spec w width key m (or_intror Hk) Hm) as (m1 & E & Hm1 & Hx1 & _). pose proof Hm1 as [Hc1 _].
    destruct (room_for w 0 (map_ m1) key v Hc1) as (l1 & l2 & El & Hr); [apply Hk|assumption| |].
    { intros x Hx. rewrite Hx1. now rewrite memberb_in. }
    destruct (insert_node_contents m1 l1 key v l2 El Hm1 Hr) as (m' & E' & Hm' & Hx').
    exists m'. unfold IntervalMap_insert. rewrite (proper_not_empty w), E by assumption. cbn [obind]. split; [assumption|].
    split; [assumption|]. intros x. rewrite Hx', Hx1. now destruct (memberb x key).
Qed.

(** C7. A map of intervals refines a function: however often intervals are
    inserted and erased, no assertion fails, the nodes stay in order, proper and
    apart, the count of values is theirs, and a scalar is mapped to what the
    operations on the function say, whatever the policy merged and split. *)
Theorem IntervalMap_refines ops m f :
  Forall (op_ok w) ops -> wf m -> (forall x, contents (map_ m) x = f x) ->
  exists m', map_run w ops m = Ret m' /\ wf m' /\ forall x, contents (map_ m') x = fold_left (fun f op => fun_step w op f) ops f x.
Proof.
  intros Ho. revert m f. induction Ho as [|op ops Hop _ IH]; intros m f Hm Hf; [now exists m|].
  cbn [map_run fold_left].
  assert (H : exists m1, map_step w op m = Ret m1 /\ wf m1 /\ forall x, contents (map_ m1) x = fun_step w op f x).
  { destruct op as [i|key v|]; cbn [map_step fun_step op_ok] in *.
    - destruct (erase_spec w width i m Hop Hm) as (m1 & E & Hm1 & Hx & _). exists m1. split; [assumption|]. split; [assumption|].
      intros x. now rewrite Hx, Hf.
    - destruct (insert_spec key v m Hop Hm) as (m1 & E & Hm1 & Hx). exists m1. split; [assumption|]. split; [assumption|].
      intros x. now rewrite Hx, Hf.
    - exists IntervalMap_empty. split; [reflexivity|]. split; [now apply wf_empty|reflexivity]. }
  destruct H as (m1 & -> & Hm1 & Hx). cbn [obind]. now apply IH.
Qed.

(** Without making a hole, an insertion happens if no scalar of the key is
    mapped, and changes nothing otherwise. *)
Theorem insert_without_hole key v m :
  Interval_ok w key -> wf m ->
  exists m', IntervalMap_insert w key v false m = Ret m' /\ wf m' /\
    (is_free w key (map_ m) -> forall x, contents (map_ m') x = if memberb x key then Some (holds key v x) else contents (map_ m) x) /\
    (~ is_free w key (map_ m) -> m' = m).
Proof.
  intros [->|Hk] Hm.
  - exists m. split; [reflexivity|]. split; [assumption|]. split; [|easy].
    intros _ x. destruct (memberb_spec x Interval_empty) as [H|]; [now apply member_empty in H|reflexivity].
  - unfold IntervalMap_insert. rewrite (proper_not_empty w) by assumption. pose proof Hm as [Hc _].
    destruct (lowerBound_spec (lo_ key) m) as (l1 & from & El & Em & Hb & Hf). rewrite El.
    pose proof Hk as ((Hk0 & _) & _). rewrite Em in Hc.
    pose proof (overlaps_first w l1 from key 0 Hc ltac:(lia) Hb Hk Hf) as Hfree. rewrite <- Em in Hfree.
    assert (Hins : is_free w key (map_ m) -> exists m', insert_node w key v m = Ret m' /\ wf m' /\
      (is_free w key (map_ m) -> forall x, contents (map_ m') x = if memberb x key then Some (holds key v x) else contents (map_ m) x) /\
      (~ is_free w key (map_ m) -> m' = m)).
    { intros Hno. rewrite <- Em in Hc. destruct (room_for w 0 (map_ m) key v Hc Hk0 Hk Hno) as (l1' & l2 & El' & Hr).
      destruct (insert_node_contents m l1' key v l2 El' Hm Hr) as (m' & E & Hm' & Hx). now exists m'. }
    destruct from as [|n from]; [now apply Hins, Hfree|]. rewrite node_at_cons.
    destruct (Interval_overlaps key (fst n)); [|now apply Hins, Hfree].
    exists m. split; [reflexivity|]. split; [assumption|]. split; [|easy]. intros H. apply Hfree in H. discriminate.
Qed.

(** ** Searching *)

(** Looking up a scalar: the value returned is that of the node around it and
    holds what is mapped there; a scalar that is not mapped makes [get] throw,
    gives nothing, and the default. *)
Theorem IntervalMap_lookup x m dflt :
  wf m -> 0 <= x ->
  match contents (map_ m) x with
  | Some a => exists k v, In (k, v) (map_ m) /\ member x k /\ holds k v x = a /\ IntervalMap_get x m = Ret v /\
      getOptional x m = Some v /\ getOrElse x dflt m = v /\ exists_ x m = true
  | None => IntervalMap_get x m = Fail Throw /\ getOptional x m = None /\ getOrElse x dflt m = dflt /\ exists_ x m = false
  end.
Proof.
  intros Hm Hx. pose proof (find_spec w x m Hm Hx) as H. unfold IntervalMap_get, getOptional, getOrElse, exists_, at_end.
  destruct (IntervalMap_find x m) as [bef [|[k v] from]]; cbn [node_at snd List.hd_error] in *.
  - rewrite H. easy.
  - destruct H as (Hin & Hk & ->). exists k, v. easy.
Qed.

Lemma leastUnmapped_spec limit m : wf m -> 0 <= limit <= const_max w -> least_free w (map_ m) limit (leastUnmapped w limit m).
Proof.
  intros [Hc _] Hlim. unfold leastUnmapped. destruct (lowerBound_spec limit m) as (l1 & from & -> & Em & Hb & Hf). cbn [snd]. rewrite Em in *.
  pose proof Hc as Hc'. apply chain_app in Hc' as [_ H2].
  pose proof (leastUnmapped_loop_spec w width _ from limit H2 Hlim Hf) as H.
  pose proof (mapped_from w 0 l1 from limit Hc ltac:(lia) Hb) as Hm.
  destruct (leastUnmapped_loop w limit from) as [y|]; cbn in *.
  - destruct H as (Hy & Hno & Hall). split; [assumption|]. split; [now rewrite Hm by lia|]. intros z Hz. apply Hm; [lia|]. now apply Hall.
  - intros z Hz. apply Hm; [lia|]. now apply H.
Qed.

Lemma greatestUnmapped_spec limit m : wf m -> 0 <= limit <= const_max w -> greatest_free w (map_ m) limit (greatestUnmapped w limit m).
Proof.
  intros Hm Hlim. pose proof Hm as [Hc _]. unfold greatestUnmapped. destruct (findPrior_spec w limit m Hm ltac:(lia)) as (p & s & -> & Em & Hs).
  destruct s as [|n s].
  - cbn. split; [lia|]. split; [|lia]. apply not_mapped. apply Hs. lia.
  - destruct Hs as [Hlo Hnext]. rewrite Em in *.
    assert (Hpre : forall y, y <= limit -> (mapped (p ++ n :: s) y <-> mapped (p ++ [n]) y)).
    { intros y Hy. unfold SawyerMapFacts.mapped. replace (p ++ n :: s) with ((p ++ [n]) ++ s) in * by now rewrite <- app_assoc.
      rewrite (contents_prefix w 0 (p ++ [n]) s); [reflexivity|assumption|]. destruct s as [|n' s]; [exact I|lia]. }
    assert (Hr : chain w 0 (rev (n :: rev p))).
    { cbn [rev]. rewrite rev_involutive. replace (p ++ n :: s) with ((p ++ [n]) ++ s) in Hc by now rewrite <- app_assoc. now apply chain_app in Hc. }
    pose proof (greatestUnmapped_loop_spec w width (n :: rev p) limit Hr Hlim Hlo) as H. cbn [rev] in H. rewrite rev_involutive in H.
    destruct (greatestUnmapped_loop w limit (n :: rev p)) as [y|]; cbn in *.
    + destruct H as (Hy & Hno & Hall). split; [assumption|]. split; [now rewrite Hpre by lia|]. intros z Hz. apply Hpre; [lia|]. now apply Hall.
    + intros z Hz. apply Hpre; [lia|]. now apply H.
Qed.

(** The least scalar from a limit on that is not mapped, and the greatest up
    to a limit, are found whenever there are any, also next to the ends of the
    type where the loops would overflow. *)
Theorem unmapped_scalars limit m :
  wf m -> 0 <= limit <= const_max w ->
  match leastUnmapped w limit m with
  | Some y => limit <= y <= const_max w /\ ~ mapped (map_ m) y /\ forall z, limit <= z < y -> mapped (map_ m) z
  | None => forall z, limit <= z <= const_max w -> mapped (map_ m) z
  end /\
  match greatestUnmapped w limit m with
  | Some y => 0 <= y <= limit /\ ~ mapped (map_ m) y /\ forall z, y < z <= limit -> mapped (map_ m) z
  | None => forall z, 0 <= z <= limit -> mapped (map_ m) z
  end.
Proof. intros Hm Hlim. split; [exact (leastUnmapped_spec limit m Hm Hlim)|exact (greatestUnmapped_spec limit m Hm Hlim)]. Qed.

(** ** Runs of scalars that are not mapped *)

(** A run of scalars that are not mapped, and that goes on no further. *)
Definition run_up (l : list (Node V)) (y : Z) (r : Interval) : Prop :=
  lo_ r = y /\ y <= hi_ r <= const_max w /\ (forall x, member x r -> ~ mapped l x) /\ (hi_ r = const_max w \/ mapped l (hi_ r + 1)).
Definition run_down (l : list (Node V)) (y : Z) (r : Interval) : Prop :=
  hi_ r = y /\ 0 <= lo_ r <= y /\ (forall x, member x r -> ~ mapped l x) /\ (lo_ r = 0 \/ mapped l (lo_ r - 1)).

Lemma firstUnmapped_loop_spec l b limit : chain w b l -> 0 <= limit <= const_max w ->
  match l with [] => True | n :: _ => limit <= hi_ (fst n) end ->
  match leastUnmapped_loop w limit l with
  | None => firstUnmapped_loop w limit l = Interval_empty
  | Some y => run_up l y (firstUnmapped_loop w limit l)
  end.
Proof.
  revert b limit. induction l as [|[k v] l IH]; intros b limit Hc Hlim Hh; cbn [leastUnmapped_loop firstUnmapped_loop].
  - rewrite hull_le by lia. split; [reflexivity|]. cbn. split; [lia|]. split; [|now left]. intros x _ H. now apply H.
  - destruct Hc as (_ & Hk & Hl). pose proof Hk as ((Hk0 & Hk1) & Hk2). cbn [fst] in Hh.
    assert (Hm : forall x, mapped ((k, v) :: l) x <-> member x k \/ mapped l x) by (intros x; apply mapped_cons). unfold member in Hm.
    destruct (Z.ltb_spec limit (lo_ k)) as [Hlt|Hge].
    + rewrite (wrap_id w) by lia. rewrite hull_le by lia. split; [reflexivity|]. cbn [lo_ hi_]. split; [lia|]. split.
      * intros x Hx Hmx. unfold member in Hx. cbn in Hx. apply Hm in Hmx as [?|H]; [lia|]. apply H. apply (contents_below w (hi_ k + 1)); [assumption|lia].
      * right. apply Hm. left. lia.
    + rewrite wrap_succ by (assumption || lia). destruct (Z.eqb_spec (hi_ k) (const_max w)) as [E|E].
      * now rewrite (proj2 (Z.leb_le _ _)) by lia.
      * rewrite (proj2 (Z.leb_gt _ _)) by lia. assert (Hn : match l with [] => True | n :: _ => hi_ k + 1 <= hi_ (fst n) end).
        { destruct l as [|[k2 v2] l]; [exact I|]. cbn in *. unfold proper in *. lia. }
        pose proof (IH _ (hi_ k + 1) Hl ltac:(lia) Hn) as Hr. pose proof (leastUnmapped_loop_spec w width _ l (hi_ k + 1) Hl ltac:(lia) Hn) as Hy.
        destruct (leastUnmapped_loop _ _ _) as [y|]; [|exact Hr]. destruct Hr as (El & Hhi & Hno & Hend), Hy as (Hy & _).
        split; [assumption|]. split; [assumption|]. split.
        -- intros x Hx Hmx. apply Hm in Hmx as [?|H]; [unfold member in Hx; lia|now apply (Hno x)].
        -- destruct Hend as [?|Hend]; [now left|]. right. apply Hm. now right.
Qed.

Lemma wrap_minus_one : wrap (0 - 1) = const_max w.
Proof using width.
  unfold const_max. pose proof (pow_w w width). replace (0 - 1) with (2 ^ w - 1 + (-1) * 2 ^ w) by lia. rewrite Z_mod_plus_full. apply Z.mod_small. lia.
Qed.

Lemma lastUnmapped_loop_spec bef k v limit : chain w 0 (rev bef ++ [(k, v)]) -> 0 <= limit <= const_max w -> lo_ k <= limit ->
  match greatestUnmapped_loop w limit ((k, v) :: bef) with
  | None => lastUnmapped_loop w limit k bef = Interval_empty
  | Some y => run_down (rev bef ++ [(k, v)]) y (lastUnmapped_loop w limit k bef)
  end.
Proof.
  revert k v limit. induction bef as [|[k1 v1] bef IH]; intros k v limit Hc Hlim Hh;
    pose proof Hc as Hc'; apply chain_app in Hc' as [H1 (Hu & Hk & _)]; pose proof Hk as ((Hk0 & Hk1) & Hk2);
    pose proof (fun x => mapped_snoc w 0 _ k v x Hc) as Hm; unfold member in Hm; cbn [greatestUnmapped_loop lastUnmapped_loop];
    (destruct (Z.ltb_spec (hi_ k) limit) as [Hlt|Hge];
      [rewrite (wrap_id w (hi_ k + 1)) by lia; rewrite hull_le by lia; split; [reflexivity|]; cbn [lo_ hi_]; split; [lia|]; split;
        [intros x Hx Hmx; unfold member in Hx; cbn [lo_ hi_] in Hx; apply Hm in Hmx as [?|Hmx]; [lia|]; apply Hmx; apply (contents_above w 0); [assumption|lia]
        |right; apply Hm; left; lia]|]).
  - destruct (Z.eq_dec (lo_ k) 0) as [E|E].
    + rewrite E, wrap_minus_one, (proj2 (Z.leb_le _ _)) by lia. reflexivity.
    + rewrite (wrap_id w (lo_ k - 1)), (proj2 (Z.leb_gt _ _)), (proj2 (Z.ltb_lt 0 _)), hull_le by lia.
      split; [reflexivity|]. cbn [lo_ hi_]. split; [lia|]. split; [|now left]. intros x Hx Hmx. unfold member in Hx. cbn [lo_ hi_] in Hx.
      apply Hm in Hmx as [?|Hmx]; [lia|now apply Hmx].
  - cbn [rev] in H1, Hu. rewrite upper_app in Hu. pose proof H1 as H1'. apply chain_app in H1' as [_ (_ & [[Hp0 Hp1] _] & _)]. cbn in Hu.
    rewrite (wrap_id w (lo_ k - 1)), (proj2 (Z.leb_gt _ _)), (proj2 (Z.eqb_neq (lo_ k) 0)) by lia. cbn [fst].
    pose proof (IH k1 v1 (lo_ k - 1) H1 ltac:(lia) ltac:(lia)) as Hr.
    pose proof (greatestUnmapped_loop_spec w width ((k1, v1) :: bef) (lo_ k - 1) H1 ltac:(lia) ltac:(cbn; lia)) as Hy.
    destruct (greatestUnmapped_loop w (lo_ k - 1) ((k1, v1) :: bef)) as [y|] eqn:Eg; cbn [greatestUnmapped_loop] in Eg; rewrite Eg; [|exact Hr].
    destruct Hr as (El & Hlo & Hno & Hend), Hy as (Hy & _). split; [assumption|]. split; [assumption|]. split.
    + intros x Hx Hmx. apply Hm in Hmx as [?|H]; [unfold member in Hx; lia|now apply (Hno x)].
    + destruct Hend as [?|Hend]; [now left|]. right. apply Hm. now right.
Qed.

Lemma lastUnmapped_loop_node bef (n : Node V) limit : chain w 0 (rev bef ++ [n]) -> 0 <= limit <= const_max w -> lo_ (fst n) <= limit ->
  match greatestUnmapped_loop w limit (n :: bef) with
  | None => lastUnmapped_loop w limit (fst n) bef = Interval_empty
  | Some y => run_down (rev bef ++ [n]) y (lastUnmapped_loop w limit (fst n) bef)
  end.
Proof. destruct n as [k v]. exact (lastUnmapped_loop_spec bef k v limit). Qed.

Lemma firstUnmapped_spec limit m : wf m -> 0 <= limit <= const_max w ->
  match leastUnmapped w limit m with
  | None => firstUnmapped w limit m = Interval_empty
  | Some y => run_up (map_ m) y (firstUnmapped w limit m)
  end.
Proof.
  intros [Hc _] Hlim.
  unfold leastUnmapped, firstUnmapped. destruct (lowerBound_spec limit m) as (l1 & from & -> & Em & Hb & Hf). cbn [snd]. rewrite Em in *.
  pose proof (mapped_from w 0 l1 from limit Hc ltac:(lia) Hb) as Hfrom. apply chain_app in Hc as [_ H2].
  pose proof (firstUnmapped_loop_spec from _ limit H2 Hlim Hf) as Hr. pose proof (leastUnmapped_loop_spec w width _ from limit H2 Hlim Hf) as Hy.
  destruct (leastUnmapped_loop w limit from) as [y|]; [|exact Hr]. destruct Hr as (El & Hhi & Hno & Hend), Hy as (Hy & _).
  split; [assumption|]. split; [assumption|]. split.
  + intros x Hx Hmx. apply Hfrom in Hmx; [|unfold member in Hx; lia]. now apply (Hno x).
  + destruct Hend as [?|Hend]; [now left|]. right. apply Hfrom; [lia|assumption].
Qed.

Lemma lastUnmapped_spec limit m : wf m -> 0 <= limit <= const_max w ->
  match greatestUnmapped w limit m with
  | None => lastUnmapped w limit m = Interval_empty
  | Some y => (0 < limit \/ IntervalMap_isEmpty m = true -> run_down (map_ m) y (lastUnmapped w limit m)) /\
      (limit = 0 -> IntervalMap_isEmpty m = false -> lastUnmapped w limit m = Interval_empty)
  end.
Proof.
  intros Hm Hlim. pose proof Hm as [Hc _].
  pose proof (greatestUnmapped_spec limit m Hm Hlim) as Hy. unfold greatestUnmapped, lastUnmapped in *.
  destruct (findPrior_spec w limit m Hm ltac:(lia)) as (p & s & Ep & Em & Hs). rewrite Ep in *.
  destruct s as [|n s].
  + split.
    * intros Hor. assert (Er : (if IntervalMap_isEmpty m then Interval_hull 0 limit else if 0 <? limit then Interval_hull 0 limit else Interval_empty) = mkInterval 0 limit).
      { rewrite hull_le by lia. destruct (IntervalMap_isEmpty m); [reflexivity|]. destruct Hor as [H|H]; [|discriminate]. now rewrite (proj2 (Z.ltb_lt _ _)). }
      rewrite Er. split; [reflexivity|]. cbn. split; [lia|]. split; [|now left]. intros x Hx. unfold member in Hx. cbn in Hx. apply not_mapped. apply Hs. lia.
    * intros -> ->. reflexivity.
  + destruct Hs as [Hlo Hnext]. assert (Ene : IntervalMap_isEmpty m = false) by (unfold IntervalMap_isEmpty; rewrite Em; now destruct p).
    rewrite Ene. cbn [fst] in *. rewrite Em in *.
    assert (Hc2 : chain w 0 ((p ++ [n]) ++ s)) by (rewrite <- app_assoc; exact Hc).
    assert (Hpre : forall y, y <= limit -> (mapped (p ++ n :: s) y <-> mapped (p ++ [n]) y)).
    { intros y Hyl. unfold SawyerMapFacts.mapped. enough (E : contents ((p ++ [n]) ++ s) y = contents (p ++ [n]) y).
      { rewrite <- app_assoc in E. split; intros H Hn; apply H; [exact (eq_trans E Hn)|exact (eq_trans (eq_sym E) Hn)]. }
      apply (contents_prefix w 0); [assumption|]. destruct s as [|n' s]; [exact I|lia]. }
    assert (Hr : chain w 0 (rev (rev p) ++ [n])) by (rewrite rev_involutive; now apply chain_app in Hc2).
    pose proof (lastUnmapped_loop_node (rev p) n limit Hr Hlim Hlo) as H. rewrite rev_involutive in H.
    destruct (greatestUnmapped_loop w limit (n :: rev p)) as [y|]; [|exact H]. destruct Hy as ((Hy0 & Hy1) & Hyn & _).
    split.
    * intros _. destruct H as (El & Hlo' & Hno & Hend). split; [assumption|]. split; [assumption|]. split.
      -- intros x Hx Hmx. apply Hpre in Hmx; [|unfold member in Hx; lia]. now apply (Hno x).
      -- destruct Hend as [?|Hend]; [now left|]. right. apply Hpre; [lia|assumption].
    * intros -> _. exfalso. apply Hyn. apply Hpre; [lia|]. rewrite rev_involutive in Hr. destruct n as [k v]. apply (mapped_snoc w 0); [assumption|]. left.
      apply chain_app in Hr as [_ (_ & [[Hk0 Hk1] _] & _)]. cbn in Hlo. unfold member. lia.
Qed.

(** The first run of scalars that are not mapped, from a limit on, and the
    last one up to a limit: they start and end at the scalars that
    [leastUnmapped] and [greatestUnmapped] find, and extend as far as possible.
    The exception is the limit zero in a map that is not empty: zero may not be
    mapped, and yet [lastUnmapped] returns no run. *)
Theorem unmapped_runs limit m :
  wf m -> 0 <= limit <= const_max w ->
  match leastUnmapped w limit m with
  | None => firstUnmapped w limit m = Interval_empty
  | Some y => run_up (map_ m) y (firstUnmapped w limit m)
  end /\
  match greatestUnmapped w limit m with
  | None => lastUnmapped w limit m = Interval_empty
  | Some y => (0 < limit \/ IntervalMap_isEmpty m = true -> run_down (map_ m) y (lastUnmapped w limit m)) /\
      (limit = 0 -> IntervalMap_isEmpty m = false -> lastUnmapped w limit m = Interval_empty)
  end.
Proof. intros Hm Hlim. split; [now apply firstUnmapped_spec|now apply lastUnmapped_spec]. Qed.

(** ** Containment *)

Lemma contains_loop_spec l b key : chain w b l -> proper w key ->
  match l with [] => True | n :: _ => lo_ key <= hi_ (fst n) end ->
  exists r, contains_loop w key l = Ret r /\ (r = true <-> forall x, member x key -> mapped l x).
Proof.
  revert b key. induction l as [|[k v] l IH]; intros b key Hc Hk Hf; cbn [contains_loop].
  - exists false. split; [reflexivity|]. split; [discriminate|]. intros H. exfalso. apply (H (lo_ key)); [|reflexivity].
    unfold proper, member in *. lia.
  - destruct Hc as (_ & Hp & Hl). pose proof Hk as (Hk1 & Hk2). pose proof Hp as (Hp1 & Hp2). cbn [fst] in Hf.
    assert (Hm : forall x, mapped ((k, v) :: l) x <-> member x k \/ mapped l x) by apply mapped_cons. unfold member in Hm.
    destruct (Z.ltb_spec (lo_ key) (lo_ k)) as [Hlt|Hge].
    { exists false. split; [reflexivity|]. split; [discriminate|]. intros H. exfalso. specialize (H (lo_ key) ltac:(unfold member; lia)).
      apply Hm in H as [?|H]; [lia|]. apply H. apply (contents_below w (hi_ k + 1)); [assumption|lia]. }
    assert (Ho : Interval_overlaps key k = true).
    { apply (overlaps_spec w); [now right|now right|]. exists (lo_ key). unfold member. lia. }
    rewrite Ho. cbn [require_ obind]. destruct (Z.leb_spec (hi_ key) (hi_ k)) as [Hle|Hgt].
    + exists true. split; [reflexivity|]. split; [|reflexivity]. intros _ x Hx. apply Hm. left. unfold member in Hx. lia.
    + rewrite (wrap_id w), splitInterval_spec by (assumption || lia). cbn [obind].
      destruct (IH _ (mkInterval (hi_ k + 1) (hi_ key)) Hl) as (r & -> & Hr); [split; cbn; lia| |].
      { destruct l as [|[k2 v2] l]; [exact I|]. cbn in *. unfold proper in *. lia. }
      exists r. split; [reflexivity|]. rewrite Hr. unfold member. cbn [lo_ hi_]. split.
      * intros H x Hx. apply Hm. destruct (Z.le_gt_cases x (hi_ k)); [left; lia|right; apply H; lia].
      * intros H x Hx. specialize (H x ltac:(lia)). apply Hm in H as [?|H]; [lia|assumption].
Qed.

(** C38. The predicates: [contains] visits the nodes without failing and tells
    whether every scalar of the interval is mapped, [overlaps] whether one is. *)
Theorem IntervalMap_predicates key m :
  Interval_ok w key -> wf m ->
  (exists r, IntervalMap_contains w key m = Ret r /\ (r = true <-> forall x, member x key -> mapped (map_ m) x)) /\
  (IntervalMap_overlaps key m = true <-> exists x, member x key /\ mapped (map_ m) x).
Proof.
  intros [->|Hk] Hm.
  { split; [exists true; split; [reflexivity|]; split; [intros _ x Hx; now apply member_empty in Hx|reflexivity]|].
    split; [discriminate|]. intros (x & Hx & _). now apply member_empty in Hx. }
  pose proof Hm as [Hc _]. pose proof Hk as ((Hk0 & Hk1) & _). destruct (lowerBound_spec (lo_ key) m) as (l1 & from & El & Em & Hb & Hf).
  unfold IntervalMap_contains, IntervalMap_overlaps, findFirstOverlap, IntervalMap_find. rewrite !(proper_not_empty w), El by assumption.
  rewrite Em in Hc. pose proof (mapped_from w 0 l1 from (lo_ key) Hc Hk0 Hb) as Hfrom.
  pose proof (overlaps_first w l1 from key 0 Hc ltac:(lia) Hb Hk Hf) as Hfree. rewrite <- Em in Hfree, Hfrom.
  pose proof Hc as Hc'. apply chain_app in Hc' as [_ H2]. split.
  - assert (Hloop : forall l, (l = from \/ (l = [] /\ match from with [] => True | n :: _ => lo_ key < lo_ (fst n) end)) ->
      exists r, contains_loop w key l = Ret r /\ (r = true <-> forall x, member x key -> mapped (map_ m) x)).
    { intros l [->|[-> Hlt]].
      - destruct (contains_loop_spec from _ key H2 Hk Hf) as (r & E & Hr). exists r. split; [assumption|]. rewrite Hr.
        split; intros H x Hx; apply Hfrom; (unfold member in Hx; lia) || now apply H.
      - exists false. split; [reflexivity|]. split; [discriminate|]. intros H. exfalso.
        specialize (H (lo_ key) ltac:(unfold member; lia)). apply Hfrom in H; [|lia]. apply H.
        destruct from as [|[k v] from]; [reflexivity|]. apply (contents_below w (lo_ k)); [|assumption]. split; [lia|apply H2]. }
    destruct from as [|n from]; [apply Hloop; now right|]. rewrite node_at_cons.
    destruct (Z.ltb_spec (lo_ key) (lo_ (fst n))); apply Hloop; [now right|now left].
  - assert (Hex : (exists x, member x key /\ mapped (map_ m) x) <-> ~ is_free w key (map_ m)).
    { split.
      - intros (x & Hx & Hmx) Hno. now apply Hmx, Hno.
      - intros Hno. destruct from as [|n from]; [exfalso; now apply Hno, Hfree|].
        destruct (Interval_overlaps key (fst n)) eqn:Ho; [|exfalso; now apply Hno, Hfree].
        destruct n as [k v]. apply (overlaps_spec w) in Ho as (x & Hx & Hxk); [|now right|right; apply H2].
        exists x. split; [assumption|]. apply Hfrom; [unfold member in Hx; lia|]. apply mapped_cons. now left. }
    rewrite Hex, Hfree. destruct from as [|n from]; [now cbn|]. rewrite node_at_cons.
    destruct (Interval_overlaps key (fst n)); cbn; split; easy.
Qed.
End Theorems.

(** * The default policy *)

Section Canonical.
Variable w : Z.
Hypothesis width : 0 < w.
Context {V : Type} `{EqDecision V}.
#[local] Instance default_policy : Policy V := MergePolicy V.
#[local] Notation wf := (wf w).
#[local] Notation contents := (contents w (V := V) (P := default_policy) (L := MergePolicy_lawful w V)).

(** Every node is as large as it can be. *)
Definition maximal (l : list (Node V)) : Prop :=
  forall k v, In (k, v) l -> contents l (lo_ k - 1) <> Some v /\ contents l (hi_ k + 1) <> Some v.

Lemma default_In l k v x : chain w 0 l -> In (k, v) l -> member x k -> contents l x = Some v.
Proof. exact (contents_In w (P := default_policy) (L := MergePolicy_lawful w V) 0 l k v x). Qed.

Lemma default_Some l x v : contents l x = Some v -> exists k, In (k, v) l /\ member x k.
Proof.
  intros H. apply (contents_Some w (P := default_policy) (L := MergePolicy_lawful w V)) in H as (k & u & Hin & Hx & <-). now exists k.
Qed.

Lemma erase_maximal e m m' : Interval_ok w e -> wf m -> maximal (map_ m) -> IntervalMap_erase w e m = Ret m' -> maximal (map_ m').
Proof.
  intros [->|He] Hm Hmax E; [injection E as <-; exact Hmax|].
  destruct (erase_spec w width e m (or_intror He) Hm) as (m1 & E1 & [Hc1 _] & Hx & Ho). rewrite E1 in E. injection E as ->.
  rewrite Forall_forall in Ho. intros k' v' Hin. pose proof (chain_Forall _ _ _ Hc1) as Hf. rewrite Forall_forall in Hf.
  destruct (Hf (k', v') ltac:(now apply list_elem_of_In)) as (_ & [Hk' _] & _). cbn [fst] in Hk'.
  assert (Hv : forall x, member x k' -> contents (map_ m') x = Some v') by (intros x Hx'; now apply (default_In _ k')).
  destruct (Ho (k', v') ltac:(now apply list_elem_of_In)) as (k & v & Hkv & Hlo & Hhi). cbn [fst] in *.
  destruct (Hmax k v Hkv) as [Hml Hmh]. destruct Hm as [Hc _]. pose proof (chain_Forall _ _ _ Hc) as Hf'. rewrite Forall_forall in Hf'.
  destruct (Hf' (k, v) ltac:(now apply list_elem_of_In)) as (_ & [Hk _] & _). cbn [fst] in Hk. destruct He as ((He0 & He1) & _).
  assert (Hsame : forall x y, member x k -> member y k' -> x = y -> v = v').
  { intros x y Hxk Hyk' <-. specialize (Hv x Hyk'). rewrite Hx in Hv. destruct (memberb x e); [discriminate|].
    rewrite (default_In _ k v x Hc Hkv Hxk) in Hv. now injection Hv. }
  split; intros Hn; rewrite Hx in Hn; match type of Hn with context [memberb ?x e] => destruct (memberb_spec x e) as [|Hne] end; try discriminate.
  - destruct Hlo as [E|E]; [|apply Hne; unfold member; lia]. rewrite E in Hn. apply Hml. rewrite Hn. f_equal. symmetry.
    apply (Hsame (lo_ k) (lo_ k')); unfold member; lia.
  - destruct Hhi as [E|E]; [|apply Hne; unfold member; lia]. rewrite E in Hn. apply Hmh. rewrite Hn. f_equal. symmetry.
    apply (Hsame (hi_ k) (hi_ k')); unfold member; lia.
Qed.

Lemma merge_refused i v j u : policy_merge i v j u = Ret None -> v <> u.
Proof. cbn. destruct (decide (v = u)); [discriminate|easy]. Qed.
Lemma merge_accepted i v j u m : policy_merge i v j u = Ret (Some m) -> v = m /\ u = m.
Proof. cbn. destruct (decide (v = u)) as [->|]; [|discriminate]. now intros [= ->]. Qed.

(** What was left of the new node, and right of it, does not merge with it. *)
Lemma left_side m l1 key v l2 k1 v1 m1 :
  map_ m = l1 ++ l2 -> wf m -> maximal (map_ m) -> room w l1 key v l2 ->
  left_result w l1 key v l2 (Ret (k1, v1, m1)) ->
  v1 = v /\ hi_ k1 = hi_ key /\ lo_ k1 <= lo_ key /\ contents (l1 ++ (key, v) :: l2) (lo_ k1 - 1) <> Some v.
Proof.
  intros Em [Hc _] Hmax Hr (l1' & k' & v' & m' & [= <- <- <-] & _ & _ & _ & _ & H). rewrite Em in Hc.
  destruct (room_chain w _ _ _ _ Hr) as (_ & Hu & ((_ & Hk) & _) & H2). rewrite (contents_room w) by assumption.
  destruct H as [(-> & -> & -> & Hno)|(lk & lv & -> & E & Hmerge & ->)].
  - split; [reflexivity|]. split; [reflexivity|]. split; [reflexivity|].
    destruct (memberb_spec (lo_ key - 1) key) as [Hm|_]; [unfold member in Hm; lia|].
    rewrite (contents_prefix w 0) by (assumption || (destruct l2 as [|[k2 v2] l2]; [exact I|]; cbn in *; lia)).
    destruct l1 as [|[lk lv] l _] using rev_ind; [discriminate|]. apply chain_app in Hc as [H1 _].
    rewrite (contents_snoc w 0) by assumption. rewrite upper_app in Hu. cbn in Hu.
    destruct (memberb_spec (lo_ key - 1) lk) as [Hm|Hm].
    + intros [= ->]. unfold member in Hm. apply (merge_refused lk v key v); [|reflexivity]. apply (Hno l lk v eq_refl). lia.
    + apply chain_app in H1 as [H1 (Hl & [Hp _] & _)]. unfold member in Hm. rewrite (contents_above w 0 l) by (assumption || lia). discriminate.
  - apply merge_accepted in Hmerge as [-> ->]. cbn [lo_ hi_]. split; [reflexivity|]. split; [reflexivity|].
    assert (Hin : In (lk, v1) (map_ m)) by (rewrite Em; apply in_or_app; left; apply in_or_app; right; now left).
    destruct (Hmax lk v1 Hin) as [Hl _]. rewrite Em in Hl. apply chain_app in Hc as [Hc _]. apply chain_app in Hc as [_ (_ & [Hp _] & _)].
    split; [lia|]. destruct (memberb_spec (lo_ lk - 1) key) as [Hm|_]; [unfold member in Hm; lia|exact Hl].
Qed.

Lemma right_side m l1 key v l2 l1' k1 k2 v2 m2 :
  map_ m = l1 ++ l2 -> wf m -> maximal (map_ m) -> room w l1 key v l2 -> hi_ k1 = hi_ key ->
  right_result w l1' k1 v l2 (Ret (k2, v2, m2)) ->
  v2 = v /\ lo_ k2 = lo_ k1 /\ hi_ key <= hi_ k2 /\ contents (l1 ++ (key, v) :: l2) (hi_ k2 + 1) <> Some v.
Proof.
  intros Em [Hc _] Hmax Hr Hk1 (l2' & k' & v' & m' & [= <- <- <-] & _ & _ & _ & _ & H). rewrite Em in Hc.
  destruct (room_chain w _ _ _ _ Hr) as (_ & Hu & ((_ & Hk) & _) & H2). rewrite (contents_room w) by assumption.
  destruct H as [(-> & -> & -> & Hno)|(rk & rv & -> & E & Hmerge & ->)].
  - split; [reflexivity|]. split; [reflexivity|]. rewrite Hk1 in *. split; [reflexivity|].
    destruct (memberb_spec (hi_ key + 1) key) as [Hm|_]; [unfold member in Hm; lia|].
    rewrite (contents_app w 0), (proj2 (Z.ltb_ge _ _)) by (assumption || lia).
    destruct l2 as [|[rk rv] l2]; [discriminate|]. destruct H2 as (Hrk & [Hp _] & H2). cbn [SawyerMapFacts.contents].
    destruct (memberb_spec (hi_ key + 1) rk) as [Hm|Hm].
    + intros [= ->]. unfold member in Hm. apply (merge_refused k1 v rk v); [|reflexivity]. apply (Hno l2 rk v eq_refl). lia.
    + unfold member in Hm. rewrite (contents_below w (hi_ rk + 1)) by (assumption || lia). discriminate.
  - apply merge_accepted in Hmerge as [-> ->]. cbn [lo_ hi_]. split; [reflexivity|]. split; [reflexivity|].
    assert (Hin : In (rk, v2) (map_ m)) by (rewrite Em; apply in_or_app; right; now left).
    destruct (Hmax rk v2 Hin) as [_ Hh]. rewrite Em in Hh. destruct H2 as (Hrk & [Hp _] & H2).
    split; [lia|]. destruct (memberb_spec (hi_ rk + 1) key) as [Hm|_]; [unfold member in Hm; lia|exact Hh].
Qed.

Lemma insert_node_maximal m l1 key v l2 m' :
  map_ m = l1 ++ l2 -> wf m -> maximal (map_ m) -> room w l1 key v l2 ->
  insert_node w key v m = Ret m' -> maximal (map_ m').
Proof.
  intros Em Hm Hmax Hr E. pose proof Hm as [Hc Hs].
  destruct (insert_node_spec w width m l1 key v l2 Em Hs Hr) as (m0 & l1' & k1 & v1 & l2' & k2 & v2 & m1 & E0 & Hwf & Hx & HL & Em1 & Hr1 & HR & Em' & m2 & E2 & Em2).
  rewrite E0 in E. injection E as ->. destruct (left_side m l1 key v l2 k1 v1 m1 Em Hm Hmax Hr HL) as (-> & Hh1 & Hl1 & HnL).
  rewrite E2 in HR. destruct (right_side m l1 key v l2 l1' k1 k2 v2 m2 Em Hm Hmax Hr Hh1 HR) as (-> & Hl2 & Hh2 & HnR).
  rewrite <- Hl2 in HnL. rewrite <- Hx in HnL, HnR.
  assert (Hold : forall k u, In (k, u) (l1' ++ l2') -> In (k, u) (map_ m)).
  { intros k u Hin. destruct HL as (? & ? & ? & ? & [= <- <- <-] & Em1' & _ & _ & _ & HL). rewrite Em1 in Em1'. apply app_inv_tail in Em1' as <-.
    destruct HR as (? & ? & ? & ? & [= <- <- <-] & Em2' & _ & _ & _ & HR). rewrite Em2 in Em2'. apply app_inv_head in Em2' as <-. rewrite Em.
    apply in_app_or in Hin as [Hin|Hin]; apply in_or_app; [left|right].
    - destruct HL as [(-> & _)|(lk & lv & -> & _)]; [assumption|apply in_or_app; now left].
    - destruct HR as [(-> & _)|(rk & rv & -> & _)]; [assumption|now right]. }
  pose proof Hwf as [Hc' _]. rewrite Em' in Hc'. destruct (room_chain w _ _ _ _ Hc') as (_ & _ & ((_ & Hk2) & _) & _).
  assert (Hroom : forall x, memberb x key = false -> contents (map_ m') x = contents (map_ m) x).
  { intros x Hn. now rewrite Hx, (contents_room w), Hn, Em by assumption. }
  assert (Hkey : forall x, memberb x key = true -> contents (map_ m') x = Some v).
  { intros x Hn. now rewrite Hx, (contents_room w), Hn by assumption. }
  intros k u Hin. rewrite Em' in Hin. apply in_elt_inv in Hin as [[= -> ->]|Hin]; [now split|].
  destruct (room_nodes w _ _ _ _ k u Hc' Hin) as (((_ & Hk) & _) & Hside). destruct (Hmax k u (Hold k u Hin)) as [Hml Hmh].
  assert (Hu : forall x, member x k -> contents (map_ m') x = Some u).
  { intros x Hxk. apply (default_In _ k); [apply Hwf| |assumption]. rewrite Em'. apply in_or_app. apply in_app_or in Hin as [?|?]; [now left|right; now right]. }
  split; intros Hn.
  - destruct (memberb_spec (lo_ k - 1) key) as [Hxk|Hxk]; [|rewrite Hroom in Hn by (apply not_true_iff_false; now destruct (memberb_spec (lo_ k - 1) key)); contradiction].
    rewrite Hkey in Hn by now apply memberb_in. injection Hn as ->. unfold member in Hxk.
    apply HnR. rewrite <- (Hu (lo_ k)) by (unfold member; lia). f_equal. lia.
  - destruct (memberb_spec (hi_ k + 1) key) as [Hxk|Hxk]; [|rewrite Hroom in Hn by (apply not_true_iff_false; now destruct (memberb_spec (hi_ k + 1) key)); contradiction].
    rewrite Hkey in Hn by now apply memberb_in. injection Hn as ->. unfold member in Hxk.
    apply HnL. rewrite <- (Hu (hi_ k)) by (unfold member; lia). f_equal. lia.
Qed.

(** The invariant of a map with the default policy. *)
Definition canonical (m : IntervalMap V) : Prop := wf m /\ maximal (map_ m).

Lemma canonical_empty : canonical IntervalMap_empty.
Proof. split; [now apply wf_empty|intros k v []]. Qed.

Lemma canonical_erase e m m' : Interval_ok w e -> canonical m -> IntervalMap_erase w e m = Ret m' -> canonical m'.
Proof.
  intros He [Hm Hmax] E. split; [|now apply (erase_maximal e m)].
  destruct (erase_spec w width e m He Hm) as (m1 & E1 & Hm1 & _). rewrite E in E1. now injection E1 as <-.
Qed.

Lemma canonical_insert key v m m' : Interval_ok w key -> canonical m -> IntervalMap_insert w key v true m = Ret m' -> canonical m'.
Proof.
  intros Hk [Hm Hmax] E. split.
  { destruct (insert_spec w width key v m Hk Hm) as (m1 & E1 & Hm1 & _). rewrite E in E1. now injection E1 as <-. }
  destruct Hk as [->|Hk]; [injection E as <-; exact Hmax|].
  unfold IntervalMap_insert in E. rewrite (proper_not_empty w) in E by assumption. apply obind_Ret in E as (m1 & E1 & E).
  destruct (erase_spec w width key m (or_intror Hk) Hm) as (m1' & E1' & Hm1 & Hx1 & _). rewrite E1 in E1'. injection E1' as <-.
  pose proof Hm1 as [Hc1 _]. destruct (room_for w 0 (map_ m1) key v Hc1) as (l1 & l2 & El & Hr); [apply Hk|assumption| |].
  { intros x Hx. rewrite Hx1. now rewrite memberb_in. }
  apply (insert_node_maximal m1 l1 key v l2); try assumption. apply (erase_maximal key m); try assumption. now right.
Qed.

Lemma canonical_run ops m m' : Forall (op_ok w) ops -> canonical m -> map_run w ops m = Ret m' -> canonical m'.
Proof.
  intros Ho. revert m. induction Ho as [|op ops Hop _ IH]; intros m Hm E; cbn [map_run] in E; [now injection E as <-|].
  apply obind_Ret in E as (m1 & E1 & E). apply (IH m1); [|assumption]. destruct op as [i|key v|]; cbn [map_step op_ok] in *.
  - now apply (canonical_erase i m).
  - now apply (canonical_insert key v m).
  - injection E1 as <-. apply canonical_empty.
Qed.

Lemma maximal_tail b k v l : chain w b ((k, v) :: l) -> maximal ((k, v) :: l) -> maximal l.
Proof.
  intros (_ & Hp & Hl) Hmax j u Hin. destruct (Hmax j u (or_intror Hin)) as [H1 H2].
  assert (Hcons : forall x, contents l x = Some u -> contents ((k, v) :: l) x = Some u).
  { intros x Hx. cbn. destruct (memberb_spec x k) as [Hm|]; [|assumption].
    unfold member in Hm. rewrite (contents_below w (hi_ k + 1)) in Hx by (assumption || lia). discriminate. }
  split; intros Hx; apply Hcons in Hx; contradiction.
Qed.

Lemma maximal_head b k v l k' v' l' :
  chain w b ((k, v) :: l) -> chain w b ((k', v') :: l') -> maximal ((k, v) :: l) ->
  (forall x, contents ((k, v) :: l) x = contents ((k', v') :: l') x) -> lo_ k' <= lo_ k /\ (lo_ k = lo_ k' -> v = v' /\ hi_ k' <= hi_ k).
Proof.
  intros (_ & ((_ & Hk) & _) & Hl) (_ & ((_ & Hk') & _) & Hl') Hmax Hx. split.
  - apply Z.nlt_ge. intros Hlt. specialize (Hx (lo_ k)). cbn [SawyerMapFacts.contents] in Hx. rewrite memberb_in in Hx by (unfold member; lia).
    destruct (memberb_spec (lo_ k) k') as [Hm|]; [unfold member in Hm; lia|].
    rewrite (contents_below w (hi_ k' + 1)) in Hx by (assumption || lia). discriminate.
  - intros E. assert (Ev : v = v').
    { specialize (Hx (lo_ k)). cbn [SawyerMapFacts.contents] in Hx. rewrite !memberb_in in Hx by (unfold member; lia). now injection Hx. }
    split; [assumption|]. apply Z.nlt_ge. intros Hlt. destruct (Hmax k v (or_introl eq_refl)) as [_ H]. apply H. rewrite Hx.
    cbn [SawyerMapFacts.contents]. rewrite memberb_in by (unfold member; lia). now rewrite Ev.
Qed.

Lemma maximal_unique l : forall b l', chain w b l -> chain w b l' -> maximal l -> maximal l' ->
  (forall x, contents l x = contents l' x) -> l = l'.
Proof.
  assert (Hempty : forall b k v l, chain w b ((k, v) :: l) -> (forall x, contents ((k, v) :: l) x = None) -> False).
  { intros b k v l0 (_ & ((_ & Hk) & _) & _) Hx. specialize (Hx (lo_ k)). cbn in Hx. rewrite memberb_in in Hx by (unfold member; lia). discriminate. }
  induction l as [|[k v] l IH]; intros b l' Hc Hc' Hm Hm' Hx; (destruct l' as [|[k' v'] l']); [reflexivity| | |].
  - exfalso. apply (Hempty b k' v' l' Hc'). intros x. now rewrite <- Hx.
  - exfalso. apply (Hempty b k v l Hc). exact Hx.
  - destruct (maximal_head b k v l k' v' l' Hc Hc' Hm Hx) as [H1 H2].
    destruct (maximal_head b k' v' l' k v l Hc' Hc Hm') as [H3 H4]; [intros x; symmetry; apply Hx|].
    assert (E : lo_ k = lo_ k') by lia. destruct (H2 E) as [<- H5], (H4 (eq_sym E)) as [_ H6].
    assert (Ek : k = k') by (destruct k, k'; cbn in *; f_equal; lia). subst k'. f_equal.
    apply (IH (hi_ k + 1)); [apply Hc|apply Hc'|now apply (maximal_tail b k v)|now apply (maximal_tail b k v)|].
    intros x. destruct (Z.lt_ge_cases x (hi_ k + 1)) as [Hlt|Hge].
    + destruct Hc as (_ & _ & Hc), Hc' as (_ & _ & Hc'). now rewrite !(contents_below w (hi_ k + 1)).
    + specialize (Hx x). cbn in Hx. destruct (memberb_spec x k) as [Hmk|]; [unfold member in Hmk; lia|assumption].
Qed.

Lemma canonical_unique m m' : canonical m -> canonical m' -> (forall x, contents (map_ m) x = contents (map_ m') x) -> m = m'.
Proof.
  intros [[Hc Hs] Hm] [[Hc' Hs'] Hm'] Hx. assert (E : map_ m = map_ m') by now apply (maximal_unique _ 0).
  destruct m as [l n], m' as [l' n']. cbn in *. subst. reflexivity.
Qed.

(** C24. With the default policy a map has a normal form: two maps that map the
    same scalars to the same values have the same nodes and the same count,
    whatever operations built them. *)
Theorem IntervalMap_canonical ops ops' m m' :
  Forall (op_ok w) ops -> Forall (op_ok w) ops' ->
  map_run w ops IntervalMap_empty = Ret m -> map_run w ops' IntervalMap_empty = Ret m' ->
  (forall x, contents (map_ m) x = contents (map_ m') x) -> m = m'.
Proof.
  intros Ho Ho' E E' Hx. apply canonical_unique; [|now apply (canonical_run ops' IntervalMap_empty); try apply canonical_empty|assumption].
  now apply (canonical_run ops IntervalMap_empty); try apply canonical_empty.
Qed.
End Canonical.
