(* ===== verification/SawyerIntervalSet.v ===== *)
(** Sets of scalars kept as intervals ([src/Sawyer/IntervalSet.h]): interval maps
    with the value zero everywhere and the default policy.

    The theorems say that the operators are those of sets, that equality is
    equality of the members, and where intersecting with one interval is not
    what it says. *)
From S2P Require Import Prelude SawyerInterval SawyerIntervalMap SawyerMapFacts SawyerMapTheorems.
Open Scope Z_scope.

(** * Definitions *)

Section IntervalSet.
Variable w : Z.
#[local] Notation wrap x := (x mod 2 ^ w).
#[local] Existing Instance default_policy.

(** [class IntervalSet], which has a map. *)
Definition IntervalSet : Type := IntervalMap Z.

Definition IntervalSet_empty : IntervalSet := IntervalMap_empty.
Definition intervals (s : IntervalSet) : list Interval := map fst (map_ s).

Definition IntervalSet_isEmpty (s : IntervalSet) : bool := IntervalMap_isEmpty s.
Definition IntervalSet_exists (scalar : Z) (s : IntervalSet) : bool := exists_ scalar s.
Definition IntervalSet_hull (s : IntervalSet) : outcome Interval := IntervalMap_hull s.

Definition IntervalSet_insert (i : Interval) (s : IntervalSet) : outcome IntervalSet := IntervalMap_insert w i 0 true s.
Definition IntervalSet_erase (i : Interval) (s : IntervalSet) : outcome IntervalSet := IntervalMap_erase w i s.

Fixpoint insert_intervals (l : list Interval) (s : IntervalSet) : outcome IntervalSet :=
  match l with
  | [] => Ret s
  | i :: l => let! s := IntervalSet_insert i s in insert_intervals l s
  end.
Definition IntervalSet_insertMultiple (other s : IntervalSet) : outcome IntervalSet := insert_intervals (intervals other) s.
Definition IntervalSet_eraseMultiple (other s : IntervalSet) : outcome IntervalSet :=
  IntervalMap_eraseMultiple w (intervals other) s.

(** The loop over the nodes from the least value of [restricted] on: what is
    still to be covered, whether its top is, and the set so far. *)
Fixpoint invert_loop (restricted : Interval) (nodes : list (Node Z)) (pending : Z) (inverted : IntervalSet) :
  outcome (Z * bool * IntervalSet) :=
  match nodes with
  | [] => Ret (pending, true, inverted)
  | (k, _) :: nodes =>
      if hi_ restricted <? lo_ k then Ret (pending, true, inverted)
      else
        let! inverted :=
          if pending <? lo_ k then IntervalSet_insert (Interval_hull pending (wrap (lo_ k - 1))) inverted
          else Ret inverted in
        if hi_ k <? hi_ restricted then invert_loop restricted nodes (wrap (hi_ k + 1)) inverted
        else Ret (pending, false, inverted)
  end.

(** [invert(restricted)] and [invert()] *)
Definition invert_within (restricted : Interval) (s : IntervalSet) : outcome IntervalSet :=
  if Interval_isEmpty restricted then Ret IntervalSet_empty
  else
    let! ' (pending, insertTop, inverted) :=
      invert_loop restricted (snd (lowerBound (lo_ restricted) s)) (lo_ restricted) IntervalSet_empty in
    if insertTop : bool then IntervalSet_insert (Interval_hull pending (hi_ restricted)) inverted else Ret inverted.
Definition IntervalSet_invert (s : IntervalSet) : outcome IntervalSet := invert_within (Interval_whole w) s.

(** [intersect], with an interval and with a set *)
Definition intersect_interval (i : Interval) (s : IntervalSet) : outcome IntervalSet :=
  if IntervalSet_isEmpty s then Ret s
  else if Interval_isEmpty i then Ret (IntervalMap_clear s)
  else
    let! h := IntervalSet_hull s in
    let! s := if lo_ h <? lo_ i then IntervalSet_erase (Interval_hull (lo_ h) (wrap (lo_ i - 1))) s else Ret s in
    let! h := IntervalSet_hull s in
    if negb (Interval_isEmpty h) && (hi_ i <? hi_ h) then IntervalSet_erase (Interval_hull (hi_ i) (hi_ h)) s
    else Ret s.
Definition IntervalSet_intersect (other s : IntervalSet) : outcome IntervalSet :=
  let! h := IntervalSet_hull s in
  let! other := invert_within h other in
  IntervalSet_eraseMultiple other s.

(** ** Operators *)

Fixpoint intervals_differ (a b : list Interval) : bool :=
  match a, b with
  | i :: a, j :: b => if negb (Interval_eqb i j) then true else intervals_differ a b
  | _, _ => false
  end.
Definition IntervalSet_neq (s other : IntervalSet) : bool :=
  negb (nIntervals s =? nIntervals other) || intervals_differ (intervals s) (intervals other).
Definition IntervalSet_eq (s other : IntervalSet) : bool := negb (IntervalSet_neq s other).

Definition IntervalSet_complement (s : IntervalSet) : outcome IntervalSet := IntervalSet_invert s.
Definition IntervalSet_union (s other : IntervalSet) : outcome IntervalSet :=
  if nIntervals s <? nIntervals other then IntervalSet_insertMultiple s other else IntervalSet_insertMultiple other s.
Definition IntervalSet_intersection (s other : IntervalSet) : outcome IntervalSet :=
  if nIntervals s <? nIntervals other then IntervalSet_intersect s other else IntervalSet_intersect other s.
Definition IntervalSet_difference (s other : IntervalSet) : outcome IntervalSet := IntervalSet_eraseMultiple other s.
Definition IntervalSet_intersection_interval (s : IntervalSet) (i : Interval) : outcome IntervalSet := intersect_interval i s.
End IntervalSet.

(** * Sets of scalars *)

Section Facts.
Variable w : Z.
Hypothesis width : 0 < w.
#[local] Existing Instance default_policy.
#[local] Notation wrap x := (x mod 2 ^ w).
#[local] Notation contents := (contents w (V := Z) (P := default_policy) (L := MergePolicy_lawful w Z)).

Definition mem (l : list (Node Z)) (x : Z) : Prop := contents l x <> None.
Definition elem (s : IntervalSet) (x : Z) : Prop := mem (map_ s) x.

(** The invariant of a set. *)
Definition set_ok (s : IntervalSet) : Prop := canonical w s /\ forall x v, contents (map_ s) x = Some v -> v = 0.

(** What an operation promises: a set with the members that it should have. *)
Definition makes (r : outcome IntervalSet) (p : Z -> Prop) : Prop :=
  exists s, r = Ret s /\ set_ok s /\ forall x, elem s x <-> p x.

Lemma makes_ext r p q : (forall x, p x <-> q x) -> makes r p -> makes r q.
Proof. intros H (s & E & Hs & Hx). exists s. split; [assumption|]. split; [assumption|]. intros x. now rewrite Hx. Qed.

Lemma makes_bind r p (k : IntervalSet -> outcome IntervalSet) q :
  makes r p -> (forall s, set_ok s -> (forall x, elem s x <-> p x) -> makes (k s) q) -> makes (obind r k) q.
Proof. intros (s & -> & Hs & Hx) Hk. now apply Hk. Qed.

Lemma makes_ret s : set_ok s -> makes (Ret s) (elem s).
Proof. intros Hs. exists s. easy. Qed.

Lemma set_ok_empty : set_ok IntervalSet_empty.
Proof. split; [now apply canonical_empty|discriminate]. Qed.

Lemma not_elem_empty x : ~ elem IntervalSet_empty x.
Proof. intros H. now apply H. Qed.

Lemma insert_makes i s : Interval_ok w i -> set_ok s -> makes (IntervalSet_insert w i s) (fun x => elem s x \/ member x i).
Proof.
  intros Hi [[Hwf Hmax] Hz]. destruct (insert_spec w width i 0 s Hi Hwf) as (s' & E & Hwf' & Hx). exists s'. split; [exact E|].
  split; [split; [now apply (canonical_insert w width i 0 s)|]|].
  - intros x v. rewrite Hx. destruct (memberb x i); [now intros [= <-]|apply Hz].
  - intros x. unfold elem, mem. rewrite Hx. destruct (memberb_spec x i); [split; [now right|discriminate]|]. split; [now left|]. now intros [?|?].
Qed.

Lemma erase_makes i s : Interval_ok w i -> set_ok s -> makes (IntervalSet_erase w i s) (fun x => elem s x /\ ~ member x i).
Proof.
  intros Hi [[Hwf Hmax] Hz]. destruct (erase_spec w width i s Hi Hwf) as (s' & E & Hwf' & Hx & _). exists s'. split; [exact E|].
  split; [split; [now apply (canonical_erase w width i s)|]|].
  - intros x v. rewrite Hx. destruct (memberb x i); [discriminate|apply Hz].
  - intros x. unfold elem, mem. rewrite Hx. destruct (memberb_spec x i); [split; [easy|now intros [_ ?]]|]. split; [now split|now intros [? _]].
Qed.

(** The intervals of a set. *)
Lemma intervals_ok s : set_ok s -> Forall (Interval_ok w) (intervals s).
Proof.
  intros [[[Hc _] _] _]. pose proof (chain_Forall w _ _ Hc) as Hf. apply Forall_map. eapply Forall_impl; [exact Hf|]. intros n (_ & Hp & _). now right.
Qed.

Lemma elem_intervals s x : elem s x <-> Exists (member x) (intervals s).
Proof.
  unfold elem, mem, intervals. induction (map_ s) as [|[k v] l IH]; cbn.
  - rewrite Exists_nil. split; [easy|tauto].
  - rewrite Exists_cons, <- IH. destruct (memberb_spec x k); [split; [now left|discriminate]|]. split; [now right|]. now intros [?|?].
Qed.

Lemma insert_intervals_makes l s : Forall (Interval_ok w) l -> set_ok s ->
  makes (insert_intervals w l s) (fun x => elem s x \/ Exists (member x) l).
Proof.
  intros Hi. revert s. induction Hi as [|i l Hi _ IH]; intros s Hs; cbn [insert_intervals].
  - apply (makes_ext _ (elem s)); [|now apply makes_ret]. intros x. rewrite Exists_nil. tauto.
  - apply (makes_bind _ _ _ _ (insert_makes i s Hi Hs)). intros s' Hs' Hx.
    eapply makes_ext; [|now apply IH]. intros x. rewrite Exists_cons, Hx. tauto.
Qed.

Lemma erase_intervals_makes l s : Forall (Interval_ok w) l -> set_ok s ->
  makes (IntervalMap_eraseMultiple w l s) (fun x => elem s x /\ ~ Exists (member x) l).
Proof.
  intros Hi. revert s. induction Hi as [|i l Hi _ IH]; intros s Hs; cbn [IntervalMap_eraseMultiple].
  - apply (makes_ext _ (elem s)); [|now apply makes_ret]. intros x. rewrite Exists_nil. tauto.
  - apply (makes_bind _ _ _ _ (erase_makes i s Hi Hs)). intros s' Hs' Hx.
    eapply makes_ext; [|now apply IH]. intros x. rewrite Exists_cons, Hx. tauto.
Qed.

(** The hull of a set that is not empty ends at members. *)
Lemma hull_spec s : set_ok s ->
  (IntervalSet_isEmpty s = true /\ IntervalSet_hull s = Ret Interval_empty /\ forall x, ~ elem s x) \/
  (IntervalSet_isEmpty s = false /\ exists h, IntervalSet_hull s = Ret h /\ proper w h /\ elem s (lo_ h) /\ elem s (hi_ h) /\
     forall x, elem s x -> member x h).
Proof.
  intros [[[Hc _] _] _]. unfold IntervalSet_isEmpty, IntervalSet_hull, IntervalMap_hull, IntervalMap_isEmpty, IntervalMap_least, IntervalMap_greatest, elem, mem.
  destruct (map_ s) as [|[k v] l] eqn:E; [left; split; [reflexivity|]; split; [reflexivity|]; intros x H; now apply H|right; split; [reflexivity|]].
  match goal with |- context [rev ?L] => destruct (rev L) as [|[j u] r] eqn:Er end; [apply (f_equal (@rev _)) in Er; rewrite rev_involutive in Er; discriminate|].
  assert (El : (k, v) :: l = rev r ++ [(j, u)]) by (apply (f_equal (@rev _)) in Er; rewrite rev_involutive in Er; exact Er).
  assert (Hc' : chain w 0 (rev r ++ [(j, u)])) by (rewrite <- El; exact Hc).
  assert (Hin : In (j, u) ((k, v) :: l)) by (rewrite El; apply in_or_app; right; now left). clear Er.
  cbn [obind fst]. eexists. split; [reflexivity|]. pose proof Hc' as Hl. apply chain_app in Hl as [Hl (Hu & Hj & _)].
  pose proof Hc as (_ & Hk & Hl2). pose proof Hk as ((Hk0 & Hk1) & Hk2). pose proof Hj as ((Hj0 & Hj1) & Hj2).
  assert (Hkj : lo_ k <= hi_ j).
  { destruct Hin as [[= <- <-]|Hin]; [lia|]. pose proof (chain_Forall w _ _ Hl2) as Hf. rewrite Forall_forall in Hf.
    specialize (Hf (j, u) ltac:(now apply list_elem_of_In)). cbn in Hf. lia. }
  rewrite hull_le by assumption. cbn [lo_ hi_]. split; [split; cbn; lia|]. split; [|split].
  - cbn. rewrite memberb_in by (unfold member; lia). discriminate.
  - rewrite (default_In w _ j u (hi_ j)) by (assumption || (unfold member; lia)). discriminate.
  - intros x H. unfold member. cbn [lo_ hi_]. split.
    + apply Z.nlt_ge. intros Hlt. apply H. apply (contents_below w (lo_ k)); [|assumption]. split; [lia|now split].
    + apply Z.nlt_ge. intros Hgt. apply H. enough (Hn : contents (rev r ++ [(j, u)]) x = None) by (rewrite <- El in Hn; exact Hn). apply (contents_above w 0); [assumption|]. rewrite upper_app. cbn. lia.
Qed.

Lemma interval_ok a b : 0 <= a <= b -> b <= const_max w -> Interval_ok w (Interval_hull a b).
Proof. exact (Interval_hull_ok w a b). Qed.

Lemma member_hull a b x : a <= b -> (member x (Interval_hull a b) <-> a <= x <= b).
Proof. intros H. rewrite hull_le by assumption. reflexivity. Qed.

(** The rest of an inversion: the members that are still to be found. *)
Lemma invert_loop_spec r l b pending inv :
  proper w r -> chain w b l -> 0 <= pending <= hi_ r -> set_ok inv ->
  match l with [] => True | n :: _ => pending <= hi_ (fst n) end ->
  makes (let! ' (pending, insertTop, inverted) := invert_loop w r l pending inv in
         if insertTop : bool then IntervalSet_insert w (Interval_hull pending (hi_ r)) inverted else Ret inverted)
    (fun x => elem inv x \/ (pending <= x <= hi_ r /\ ~ mem l x)).
Proof.
  intros Hr. revert b pending inv. induction l as [|[k v] l IH]; intros b pending inv Hc Hp Hinv Hh; pose proof Hr as (Hr1 & Hr2).
  - cbn [invert_loop obind]. eapply makes_ext; [|apply insert_makes; [apply interval_ok; lia|assumption]].
    intros x. cbv beta. rewrite member_hull by lia. unfold mem. cbn. split; (intros [?|H]; [now left|right]); [split; [lia|tauto]|lia].
  - destruct Hc as (_ & Hk & Hl). pose proof Hk as ((Hk0 & Hk1) & Hk2). cbn [fst] in Hh. cbn [invert_loop].
    assert (Hm : forall x, mem ((k, v) :: l) x <-> member x k \/ mem l x) by (intros x; apply (mapped_cons w)). unfold member in Hm.
    assert (Hbelow : forall x, x < lo_ k -> ~ mem ((k, v) :: l) x).
    { intros x Hx H. apply Hm in H as [?|H]; [lia|]. apply H. apply (contents_below w (hi_ k + 1)); [assumption|lia]. }
    destruct (Z.ltb_spec (hi_ r) (lo_ k)) as [Hout|Hin]; cbn [obind].
    { eapply makes_ext; [|apply insert_makes; [apply interval_ok; lia|assumption]]. intros x. cbv beta. rewrite member_hull by lia.
      split; (intros [?|H]; [now left|right]); [split; [assumption|apply Hbelow; lia]|apply H]. }
    assert (Hgap : makes (if pending <? lo_ k then IntervalSet_insert w (Interval_hull pending (wrap (lo_ k - 1))) inv else Ret inv)
      (fun x => elem inv x \/ pending <= x < lo_ k)).
    { destruct (Z.ltb_spec pending (lo_ k)) as [Hlt|Hge].
      - rewrite (wrap_id w) by lia. eapply makes_ext; [|apply insert_makes; [apply interval_ok; lia|assumption]].
        intros x. cbv beta. rewrite member_hull by lia. split; (intros [?|H]; [now left|right; lia]).
      - eapply makes_ext; [|now apply makes_ret]. intros x. split; [now left|]. intros [?|H]; [assumption|lia]. }
    destruct Hgap as (inv' & -> & Hinv' & Hx'). cbn [obind]. destruct (Z.ltb_spec (hi_ k) (hi_ r)) as [Hmore|Hdone].
    + rewrite (wrap_id w) by lia. eapply makes_ext; [|apply (IH (hi_ k + 1) (hi_ k + 1) inv')]; [|assumption|lia|assumption|].
      * intros x. cbv beta. rewrite Hx', Hm. split; [intros [[?|H]|[H Hn]]|intros [?|[H Hn]]].
        -- now left.
        -- right. split; [lia|]. rewrite <- Hm. apply Hbelow. lia.
        -- right. split; [lia|]. intros [?|?]; [lia|contradiction].
        -- left. now left.
        -- destruct (Z.lt_ge_cases x (lo_ k)); [left; right; lia|]. right. split; [|tauto]. destruct (Z.le_gt_cases x (hi_ k)); [exfalso; apply Hn; left; lia|lia].
      * destruct l as [|[k2 v2] l]; [exact I|]. cbn in *. unfold proper in *. lia.
    + cbn [obind]. eapply makes_ext; [|apply makes_ret; exact Hinv']. intros x. cbv beta. rewrite Hx', Hm. split; (intros [?|H]; [now left|]).
      * right. split; [lia|]. rewrite <- Hm. apply Hbelow. lia.
      * right. destruct H as [H Hn]. destruct (Z.lt_ge_cases x (lo_ k)); [lia|]. exfalso. apply Hn. left. lia.
Qed.

Lemma invert_within_makes r s : Interval_ok w r -> set_ok s -> makes (invert_within w r s) (fun x => member x r /\ ~ elem s x).
Proof.
  intros Hr [[[Hc _] _] _]. unfold invert_within. destruct Hr as [->|Hr].
  - eapply makes_ext; [|apply makes_ret, set_ok_empty]. intros x. split; [intros H; now apply not_elem_empty in H|].
    intros [H _]. now apply member_empty in H.
  - rewrite (proper_not_empty w) by assumption. destruct (lowerBound_spec (lo_ r) s) as (l1 & from & -> & Em & Hb & Hf). cbn [snd].
    rewrite Em in Hc. pose proof Hr as ((Hr0 & Hr1) & _). pose proof (mapped_from w 0 l1 from (lo_ r) Hc Hr0 Hb) as Hm.
    apply chain_app in Hc as [_ H2]. eapply makes_ext; [|apply (invert_loop_spec r from (upper 0 l1)); try assumption; [lia|apply set_ok_empty]].
    intros x. cbv beta. unfold elem at 2. rewrite Em. unfold member. split.
    + intros [H|[H Hn]]; [now apply not_elem_empty in H|]. split; [assumption|]. intros Hx. apply Hn, Hm; [lia|assumption].
    + intros [H Hn]. right. split; [assumption|]. intros Hx. apply Hn, Hm; [lia|assumption].
Qed.

Lemma elem_range s x : set_ok s -> elem s x -> 0 <= x <= const_max w.
Proof.
  intros Hs H. apply elem_intervals in H. pose proof (intervals_ok s Hs) as Hi.
  apply Exists_exists in H as (i & Hin & Hx). rewrite Forall_forall in Hi. destruct (Hi i Hin) as [->|((Hi0 & _) & Hi1)].
  - now apply member_empty in Hx.
  - unfold member in Hx. lia.
Qed.

Lemma whole_ok : Interval_ok w (Interval_whole w).
Proof. unfold Interval_whole, const_max. pose proof (pow_w w width). apply interval_ok; unfold const_max; lia. Qed.

Lemma member_whole x : member x (Interval_whole w) <-> 0 <= x <= const_max w.
Proof. unfold Interval_whole. apply member_hull. unfold const_max. pose proof (pow_w w width). lia. Qed.

Lemma union_makes s t : set_ok s -> set_ok t -> makes (IntervalSet_union w s t) (fun x => elem s x \/ elem t x).
Proof.
  intros Hs Ht. unfold IntervalSet_union, IntervalSet_insertMultiple.
  destruct (_ <? _); (eapply makes_ext; [|now apply insert_intervals_makes; [apply intervals_ok|]]); intros x; cbv beta; rewrite <- elem_intervals; tauto.
Qed.

Lemma difference_makes s t : set_ok s -> set_ok t -> makes (IntervalSet_difference w s t) (fun x => elem s x /\ ~ elem t x).
Proof.
  intros Hs Ht. unfold IntervalSet_difference, IntervalSet_eraseMultiple.
  eapply makes_ext; [|apply erase_intervals_makes; [now apply intervals_ok|assumption]]. intros x. cbv beta. now rewrite <- elem_intervals.
Qed.

Lemma not_not_elem s x : ~ ~ elem s x -> elem s x.
Proof. unfold elem, mem. destruct (contents (map_ s) x); [discriminate|]. intros H. exfalso. now apply H. Qed.

Lemma intersect_makes s t : set_ok s -> set_ok t -> makes (IntervalSet_intersect w t s) (fun x => elem s x /\ elem t x).
Proof.
  intros Hs Ht. unfold IntervalSet_intersect.
  assert (Hh : exists h, IntervalSet_hull s = Ret h /\ Interval_ok w h /\ forall x, elem s x -> member x h).
  { destruct (hull_spec s Hs) as [(_ & E & Hno)|(_ & h & E & Hp & _ & _ & Hx)].
    - exists Interval_empty. split; [assumption|]. split; [now left|]. intros x H. now apply Hno in H.
    - exists h. split; [assumption|]. split; [now right|assumption]. }
  destruct Hh as (h & -> & Hp & Hx). cbn [obind]. apply (makes_bind _ _ _ _ (invert_within_makes h t Hp Ht)). intros t' Ht' Hx'.
  eapply makes_ext; [|apply (difference_makes s t' Hs Ht')]. intros x. cbv beta. rewrite Hx'. split.
  - intros [H Hn]. split; [assumption|]. apply not_not_elem. intros Hnt. apply Hn. split; [now apply Hx|assumption].
  - intros [H Hxt]. split; [assumption|]. now intros [_ ?].
Qed.

(** C15. The operators on sets of intervals are those on sets of scalars: the
    union, the difference, the intersection and the complement, also within an
    interval, have the members they should, are in normal form, and fail no
    assertion. *)
Theorem IntervalSet_algebra s t r :
  set_ok s -> set_ok t -> Interval_ok w r ->
  makes (IntervalSet_union w s t) (fun x => elem s x \/ elem t x) /\
  makes (IntervalSet_intersection w s t) (fun x => elem s x /\ elem t x) /\
  makes (IntervalSet_difference w s t) (fun x => elem s x /\ ~ elem t x) /\
  makes (IntervalSet_complement w s) (fun x => 0 <= x <= const_max w /\ ~ elem s x) /\
  makes (invert_within w r s) (fun x => member x r /\ ~ elem s x) /\
  makes (IntervalSet_insert w r s) (fun x => elem s x \/ member x r) /\
  makes (IntervalSet_erase w r s) (fun x => elem s x /\ ~ member x r).
Proof.
  intros Hs Ht Hr. split; [now apply union_makes|]. split.
  { unfold IntervalSet_intersection. destruct (_ <? _); [|now apply intersect_makes].
    eapply makes_ext; [|now apply intersect_makes]. intros x. cbv beta. tauto. }
  split; [now apply difference_makes|]. split.
  { eapply makes_ext; [|apply (invert_within_makes _ s whole_ok Hs)]. intros x. cbv beta. now rewrite member_whole. }
  split; [now apply invert_within_makes|]. split; [now apply insert_makes|now apply erase_makes].
Qed.

Lemma intervals_differ_spec a b : length a = length b -> (intervals_differ a b = false <-> a = b).
Proof.
  revert b. induction a as [|i a IH]; intros [|j b] H; try discriminate; cbn [intervals_differ]; [easy|].
  injection H as H. destruct (Interval_eqb i j) eqn:E; cbn [negb].
  - apply Interval_eqb_spec in E as ->. rewrite IH by assumption. split; [now intros ->|now intros [= ->]].
  - split; [discriminate|]. intros [= -> ->]. apply not_true_iff_false in E. exfalso. apply E. now apply Interval_eqb_spec.
Qed.

(** Two sets are equal, by their lists of intervals, exactly if they have the
    same members. *)
Theorem IntervalSet_equality s t : set_ok s -> set_ok t -> (IntervalSet_eq s t = true <-> forall x, elem s x <-> elem t x).
Proof.
  intros Hs Ht. assert (E : IntervalSet_eq s t = true <-> intervals s = intervals t).
  { unfold IntervalSet_eq, IntervalSet_neq, nIntervals. rewrite negb_true_iff, orb_false_iff, negb_false_iff, Z.eqb_eq. unfold intervals. split.
    - intros [Hl H]. apply intervals_differ_spec; [rewrite !length_map; exact (Nat2Z.inj _ _ Hl)|assumption].
    - intros H. pose proof (f_equal (@length _) H) as Hl. rewrite !length_map in Hl. split; [exact (f_equal Z.of_nat Hl)|]. now apply intervals_differ_spec; [rewrite !length_map|]. }
  rewrite E. split.
  - intros H x. now rewrite !elem_intervals, H.
  - intros H. enough (Est : s = t) by now rewrite Est. destruct Hs as [Hs Hz], Ht as [Ht Hz']. apply (canonical_unique w); try assumption.
    intros x. specialize (H x). unfold elem, mem in H. specialize (Hz x). specialize (Hz' x).
    destruct (contents (map_ s) x) as [u|], (contents (map_ t) x) as [v|]; try reflexivity.
    + now rewrite (Hz u), (Hz' v).
    + exfalso. destruct H as [H _]. now apply H.
    + exfalso. destruct H as [_ H]. now apply H.
Qed.

(** Intersecting with one interval loses a member: when the set has members
    above the interval, the greatest value of the interval is erased with
    them, although it belongs to the intersection. *)
Theorem intersect_interval_loses i s :
  set_ok s -> proper w i ->
  makes (intersect_interval w i s) (fun x => elem s x /\ member x i /\ ~ (x = hi_ i /\ exists y, hi_ i < y /\ elem s y)).
Proof.
  intros Hs Hi. pose proof Hi as ((Hi0 & Hi1) & Hi2). unfold intersect_interval.
  destruct (hull_spec s Hs) as [(-> & _ & Hno)|(-> & h & -> & [[Hh0 Hh1] Hh2] & Hl & _ & Hx)].
  { eapply makes_ext; [|now apply makes_ret]. intros x. split; [intros H; now apply Hno in H|intros [H _]; now apply Hno in H]. }
  rewrite (proper_not_empty w) by assumption. cbn [obind].
  assert (Hlow : makes (if lo_ h <? lo_ i then IntervalSet_erase w (Interval_hull (lo_ h) (wrap (lo_ i - 1))) s else Ret s)
    (fun x => elem s x /\ lo_ i <= x)).
  { destruct (Z.ltb_spec (lo_ h) (lo_ i)).
    - rewrite (wrap_id w) by lia. eapply makes_ext; [|apply erase_makes; [apply interval_ok; lia|assumption]].
      intros x. cbv beta. rewrite member_hull by lia. split; intros [H' Hn]; (split; [assumption|]); apply Hx in H'; unfold member in H'; lia.
    - eapply makes_ext; [|now apply makes_ret]. intros x. split; [intros H'; split; [assumption|]; apply Hx in H'; unfold member in H'; lia|now intros [? _]]. }
  apply (makes_bind _ _ _ _ Hlow). intros s' Hs' Hx'.
  destruct (hull_spec s' Hs') as [(_ & -> & Hno')|(_ & h' & -> & [[Hp0 Hp1] Hp2] & _ & Hh' & Hm')].
  { cbn [obind Interval_isEmpty]. eapply makes_ext; [|now apply makes_ret]. intros x. split; [intros H; now apply Hno' in H|].
    intros (H & [Hm _] & _). exfalso. apply (Hno' x), Hx'. now split. }
  cbn [obind]. rewrite isEmpty_false by lia. cbn [negb andb]. destruct (Z.ltb_spec (hi_ i) (hi_ h')) as [Hlt|Hge].
  - eapply makes_ext; [|apply erase_makes; [apply interval_ok; lia|assumption]]. intros x. cbv beta. rewrite member_hull, Hx' by lia. unfold member. split.
    + intros [[H Hx1] Hn]. pose proof (Hm' x (proj2 (Hx' x) (conj H Hx1))) as Hmx. unfold member in Hmx. split; [assumption|]. split; lia.
    + intros (H & Hm & Hn). split; [now split|]. intros Hr. apply Hn. split; [lia|]. exists (hi_ h'). split; [assumption|]. now apply Hx'.
  - eapply makes_ext; [|now apply makes_ret]. intros x. cbv beta. rewrite Hx'. unfold member. split.
    + intros [H Hx1]. pose proof (Hm' x (proj2 (Hx' x) (conj H Hx1))) as Hmx. unfold member in Hmx. split; [assumption|]. split; [lia|].
      intros (-> & y & Hy & Hsy). assert (Hly : lo_ i <= y) by lia. pose proof (Hm' y (proj2 (Hx' y) (conj Hsy Hly))) as Hmy. unfold member in Hmy. lia.
    + intros (H & Hm & _). now split.
Qed.
End Facts.

(** * Witnesses *)

#[local] Existing Instance default_policy.

Lemma proper32 a b : 0 <= a <= b -> b <= 4294967295 -> proper 32 (mkInterval a b).
Proof. intros H Hb. split; [exact H|exact Hb]. Qed.

(** Two ways to the same map. *)
Theorem IntervalMap_canonical_witness :
  let m := {| map_ := [(mkInterval 10 29, 3)]; size_ := 20 |} in
  map_run 32 [Insert (mkInterval 10 19) 3; Insert (mkInterval 20 29) 3] IntervalMap_empty = Ret m /\
  map_run 32 [Insert (mkInterval 5 29) 3; Erase (mkInterval 0 9)] IntervalMap_empty = Ret m /\ m = m.
Proof.
  intros m. split; [vm_compute; reflexivity|]. split; [vm_compute; reflexivity|].
  apply (IntervalMap_canonical 32 eq_refl [Insert (mkInterval 10 19) 3; Insert (mkInterval 20 29) 3] [Insert (mkInterval 5 29) 3; Erase (mkInterval 0 9)]);
    try (repeat (constructor; [right; apply proper32; lia|]); constructor); try (vm_compute; reflexivity).
Defined.

(** The bytes from 10 to 29, but not 20. *)
Definition with_gap : IntervalSet := {| map_ := [(mkInterval 10 19, 0); (mkInterval 21 29, 0)]; size_ := 19 |}.
Lemma with_gap_ok : set_ok 32 with_gap.
Proof.
  split; [split; [split; [|reflexivity]|]|].
  - cbn. split; [lia|]. split; [apply proper32; lia|]. split; [lia|]. split; [apply proper32; lia|exact I].
  - intros k v [[= <- <-]|[[= <- <-]|[]]]; now split.
  - intros x v. cbn. destruct (memberb _ _); [now intros [= <-]|]. destruct (memberb _ _); [now intros [= <-]|discriminate].
Qed.
Definition middle : IntervalSet := {| map_ := [(mkInterval 15 25, 0)]; size_ := 11 |}.
Lemma middle_ok : set_ok 32 middle.
Proof.
  split; [split; [split; [|reflexivity]|]|].
  - cbn. split; [lia|]. split; [apply proper32; lia|exact I].
  - intros k v [[= <- <-]|[]]. now split.
  - intros x v. cbn. destruct (memberb _ _); [now intros [= <-]|discriminate].
Qed.

Theorem IntervalSet_algebra_witness :
  IntervalSet_intersection 32 with_gap middle = Ret {| map_ := [(mkInterval 15 19, 0); (mkInterval 21 25, 0)]; size_ := 10 |} /\
  makes 32 (IntervalSet_intersection 32 with_gap middle) (fun x => elem 32 with_gap x /\ elem 32 middle x).
Proof.
  split; [vm_compute; reflexivity|].
  apply (IntervalSet_algebra 32 eq_refl with_gap middle Interval_empty with_gap_ok middle_ok). now left.
Defined.

Theorem IntervalSet_equality_witness : IntervalSet_eq with_gap middle = false /\ ~ (forall x, elem 32 with_gap x <-> elem 32 middle x).
Proof.
  split; [reflexivity|]. intros H. apply (IntervalSet_equality 32 with_gap middle with_gap_ok middle_ok) in H. discriminate.
Defined.

(** The intersection with the interval from 10 to 19 misses 19. *)
Theorem intersect_interval_loses_witness :
  intersect_interval 32 (mkInterval 10 19) with_gap = Ret {| map_ := [(mkInterval 10 18, 0)]; size_ := 9 |} /\
  makes 32 (intersect_interval 32 (mkInterval 10 19) with_gap)
    (fun x => elem 32 with_gap x /\ member x (mkInterval 10 19) /\ ~ (x = 19 /\ exists y, 19 < y /\ elem 32 with_gap y)).
Proof.
  split; [vm_compute; reflexivity|].
  apply (intersect_interval_loses 32 eq_refl (mkInterval 10 19) with_gap with_gap_ok). apply proper32; lia.
Defined.
