(* ===== verification/SawyerAddressMap.v ===== *)
(** The policy of address maps ([SegmentMergePolicy] in [src/Sawyer/AddressMap.h],
    with the segments of [src/Sawyer/AddressSegment.h]): segments are windows on
    buffers, and merge when they are one window.

    The policy is lawful: whatever is merged and split, an address refers to the
    same place of the same buffer.  The witnesses of the facts about interval maps
    are address maps.  Buffers are reference counted; here a buffer is a number,
    its identity. *)
From S2P Require Import Prelude SawyerInterval SawyerIntervalMap SawyerMapFacts SawyerMapTheorems SawyerIntervalSet.
From Stdlib Require Import String.
Open Scope Z_scope.

(** * Definitions *)

(** [class AddressSegment] *)
Record Segment := { buffer_ : Z; offset_ : Z; accessibility_ : Z; name_ : string }.

Section Policy.
Variable w : Z.
#[local] Notation wrap x := (x mod 2 ^ w).

Definition segment_merge (leftInterval : Interval) (leftSegment : Segment) (rightInterval : Interval) (rightSegment : Segment) :
  outcome (option Segment) :=
  assert! negb (Interval_isEmpty leftInterval) else AssertFail in
  assert! negb (Interval_isEmpty rightInterval) else AssertFail in
  assert! wrap (hi_ leftInterval + 1) =? lo_ rightInterval else AssertFail in
  Ret (if (accessibility_ leftSegment =? accessibility_ rightSegment) && String.eqb (name_ leftSegment) (name_ rightSegment)
          && (buffer_ leftSegment =? buffer_ rightSegment)
          && (wrap (offset_ leftSegment + Interval_size w leftInterval) =? offset_ rightSegment)
       then Some leftSegment else None).

Definition set_offset (segment : Segment) (offset : Z) : Segment :=
  {| buffer_ := buffer_ segment; offset_ := offset; accessibility_ := accessibility_ segment; name_ := name_ segment |}.

Definition segment_split (i : Interval) (segment : Segment) (splitPoint : Z) : outcome (Segment * Segment) :=
  assert! negb (Interval_isEmpty i) else AssertFail in
  assert! Interval_contains i (Interval_singleton splitPoint) else AssertFail in
  Ret (segment, set_offset segment (wrap (wrap (offset_ segment + splitPoint) - lo_ i))).

Definition segment_truncate (i : Interval) (segment : Segment) (splitPoint : Z) : outcome Segment :=
  assert! negb (Interval_isEmpty i) else AssertFail in
  assert! Interval_contains i (Interval_singleton splitPoint) else AssertFail in
  Ret segment.

Definition SegmentMergePolicy : Policy Segment := {|
  policy_merge := segment_merge; policy_split := segment_split; policy_truncate := segment_truncate
|}.
End Policy.

(** * The policy is lawful *)

(** The place an address refers to, and what may be done there. *)
Record Place := { place_buffer : Z; place_offset : Z; place_accessibility : Z; place_name : string }.

Definition place (w : Z) (i : Interval) (s : Segment) (x : Z) : Place :=
  {| place_buffer := buffer_ s; place_offset := (offset_ s + (x - lo_ i)) mod 2 ^ w;
     place_accessibility := accessibility_ s; place_name := name_ s |}.

Lemma contains_point i p : lo_ i < p <= hi_ i -> Interval_contains i (Interval_singleton p) = true.
Proof.
  intros H. unfold Interval_contains. rewrite (isEmpty_false (Interval_singleton p)), (isEmpty_false i) by (cbn; lia). cbn [lo_ hi_ Interval_singleton orb negb andb].
  apply andb_true_iff. split; apply Z.leb_le; lia.
Qed.

Lemma segment_merge_lawful w i v j u : 0 < w ->
  proper w i -> proper w j -> hi_ i + 1 = lo_ j ->
  exists r, segment_merge w i v j u = Ret r /\
    forall m, r = Some m -> forall x, memberb x (mkInterval (lo_ i) (hi_ j)) = true ->
      place w (mkInterval (lo_ i) (hi_ j)) m x = if memberb x i then place w i v x else place w j u x.
Proof.
  intros Hw Hi Hj E. unfold segment_merge. rewrite !(proper_not_empty w) by assumption. cbn [negb require_ obind].
  pose proof Hi as ((Hi0 & Hi1) & Hi2). pose proof Hj as ((Hj0 & Hj1) & Hj2).
  rewrite (wrap_id w), E, Z.eqb_refl by lia. cbn [require_ obind]. eexists. split; [reflexivity|]. intros m.
  destruct (_ && _) eqn:Ec; [|discriminate]. intros [= <-] x Hx. apply andb_true_iff in Ec as [Ec Eo]. apply andb_true_iff in Ec as [Ec Eb].
  apply andb_true_iff in Ec as [Ea En]. apply Z.eqb_eq in Ea, Eb, Eo. apply String.eqb_eq in En.
  destruct (memberb x i); [reflexivity|]. unfold place. cbn [lo_]. f_equal; try assumption.
  rewrite <- Eo, (proper_size w) by assumption. rewrite Zplus_mod_idemp_r, Zplus_mod_idemp_l. f_equal. lia.
Qed.

#[export] Instance SegmentMergePolicy_lawful w : 0 < w -> LawfulPolicy w Segment Place (P := SegmentMergePolicy w).
Proof.
  intros Hw. refine {| holds := place w |}.
  - intros i v j u. now apply segment_merge_lawful.
  - intros i v p Hi Hp. cbn [policy_split SegmentMergePolicy]. unfold segment_split.
    rewrite (proper_not_empty w), contains_point by assumption. cbn [negb require_ obind]. eexists _, _. split; [reflexivity|].
    split; intros x _; [reflexivity|]. unfold place, set_offset. cbn [buffer_ offset_ accessibility_ name_ lo_]. f_equal.
    rewrite Zminus_mod_idemp_l, Zplus_mod_idemp_l. f_equal. lia.
  - intros i v p Hi Hp. cbn [policy_truncate SegmentMergePolicy]. unfold segment_truncate.
    rewrite (proper_not_empty w), contains_point by assumption. cbn [negb require_ obind]. eexists. split; [reflexivity|]. reflexivity.
Defined.

(** * Witnesses *)

(** Two adjacent segments of one buffer become one, and are split by an erasure
    across the border: what is left of the second half is at its place. *)
Definition text (offset : Z) : Segment := {| buffer_ := 7; offset_ := offset; accessibility_ := 5; name_ := "text" |}.
Definition text_ops : list (map_op Segment) :=
  [Insert (mkInterval 4096 8191) (text 0); Insert (mkInterval 8192 12287) (text 4096); Erase (mkInterval 6144 10239)].
Definition lt32 : 0 < 32 := eq_refl.
#[local] Instance policy32 : Policy Segment := SegmentMergePolicy 32.
#[local] Instance lawful32 : LawfulPolicy 32 Segment Place := SegmentMergePolicy_lawful 32 lt32.

Theorem IntervalMap_refines_witness :
  exists m, map_run 32 text_ops IntervalMap_empty = Ret m /\
    map_ m = [(mkInterval 4096 6143, text 0); (mkInterval 10240 12287, text 6144)] /\ wf 32 m /\
    contents 32 (map_ m) 10241 = Some {| place_buffer := 7; place_offset := 6145; place_accessibility := 5; place_name := "text" |}.
Proof.
  destruct (IntervalMap_refines 32 lt32 text_ops IntervalMap_empty (fun _ => None)) as (m & E & Hm & Hx).
  - repeat (constructor; [right; split; cbn; unfold const_max; lia|]). constructor.
  - now apply wf_empty.
  - reflexivity.
  - exists m. split; [exact E|]. split; [vm_compute in E; now injection E as <-|]. split; [exact Hm|]. rewrite Hx. reflexivity.
Defined.

(** A segment that would overlap is not inserted. *)
Definition text_map : IntervalMap Segment := {| map_ := [(mkInterval 4096 8191, text 0)]; size_ := 4096 |}.
Lemma text_map_wf : wf 32 text_map.
Proof. split; [|reflexivity]. cbn. split; [lia|]. split; [|exact I]. split; cbn; unfold const_max; lia. Qed.

Theorem insert_without_hole_witness :
  IntervalMap_insert 32 (mkInterval 8000 9000) (text 64) false text_map = Ret text_map.
Proof.
  destruct (insert_without_hole 32 lt32 (mkInterval 8000 9000) (text 64) text_map) as (m & E & _ & _ & Hno).
  - right. split; cbn; unfold const_max; lia.
  - apply text_map_wf.
  - rewrite E. f_equal. apply Hno. intros H. discriminate (H 8000 ltac:(unfold member; cbn; lia)).
Defined.

Theorem IntervalMap_lookup_witness :
  IntervalMap_get 5000 text_map = Ret (text 0) /\ IntervalMap_get 9000 text_map = Fail Throw.
Proof.
  pose proof (IntervalMap_lookup 32 5000 text_map (text 0) text_map_wf ltac:(lia)) as H.
  pose proof (IntervalMap_lookup 32 9000 text_map (text 0) text_map_wf ltac:(lia)) as H'.
  split; [|exact (proj1 H')]. destruct H as (k & v & [[= <- <-]|[]] & _ & _ & E & _). exact E.
Defined.

(** The last address of the space is mapped, and so is everything below a hole. *)
Definition top_map : IntervalMap Segment :=
  {| map_ := [(mkInterval 4096 8191, text 0); (mkInterval 8192 4294967295, text 64)]; size_ := 4294963200 |}.
Lemma top_map_wf : wf 32 top_map.
Proof.
  split; [|reflexivity]. cbn. split; [lia|]. split; [split; cbn; unfold const_max; lia|]. split; [lia|]. split; [split; cbn; unfold const_max; lia|exact I].
Qed.

Theorem unmapped_scalars_witness :
  leastUnmapped 32 5000 top_map = None /\ (forall z, 5000 <= z <= const_max 32 -> mapped 32 (map_ top_map) z) /\
  greatestUnmapped 32 5000 top_map = Some 4095 /\ ~ mapped 32 (map_ top_map) 4095.
Proof.
  destruct (unmapped_scalars 32 lt32 5000 top_map top_map_wf ltac:(unfold const_max; lia)) as [Hl Hg].
  split; [reflexivity|]. split; [exact Hl|]. split; [reflexivity|]. exact (proj1 (proj2 Hg)).
Defined.

(** Nothing is mapped at zero, and [lastUnmapped] finds nothing there. *)
Theorem unmapped_runs_witness :
  firstUnmapped 32 0 top_map = mkInterval 0 4095 /\ run_up 32 (map_ top_map) 0 (mkInterval 0 4095) /\
  lastUnmapped 32 0 top_map = Interval_empty /\ ~ mapped 32 (map_ top_map) 0.
Proof.
  destruct (unmapped_runs 32 lt32 0 top_map top_map_wf ltac:(unfold const_max; lia)) as [Hf Hl].
  split; [reflexivity|]. split; [exact Hf|]. split; [apply Hl; reflexivity|]. intros H. now apply H.
Defined.

Theorem IntervalMap_predicates_witness :
  IntervalMap_contains 32 (mkInterval 5000 9000) top_map = Ret true /\
  (forall x, member x (mkInterval 5000 9000) -> mapped 32 (map_ top_map) x) /\ IntervalMap_overlaps (mkInterval 5 4095) top_map = false.
Proof.
  destruct (IntervalMap_predicates 32 (mkInterval 5000 9000) top_map) as [(r & E & Hr) _];
    [right; split; cbn; unfold const_max; lia|apply top_map_wf|].
  split; [reflexivity|]. split; [|reflexivity]. apply Hr. vm_compute in E. now injection E as <-.
Defined.
