(* ===== verification/SawyerSearch.v ===== *)
(** Searches of interval maps for nodes ([findAll], [overlaps] of two maps,
    [firstFit] and [bestFit] in [src/Sawyer/IntervalMap.h]): which nodes they find,
    and which one they prefer. *)
From S2P Require Import Prelude SawyerInterval SawyerIntervalMap SawyerMapFacts SawyerMapTheorems SawyerAddressMap.
Open Scope Z_scope.

(** The nodes of a range of iterators. *)
Definition range_nodes {V} (r : Position V * Position V) : list (Node V) :=
  firstn (length (snd (fst r)) - length (snd (snd r))) (snd (fst r)).

Section Searches.
Variable w : Z.
Hypothesis width : 0 < w.
Context {V A : Type} {P : Policy V} {L : LawfulPolicy w V A}.
#[local] Notation nodes := (list (Node V)).
#[local] Notation wf := (wf w).

(** * Overlapping nodes *)

Lemma overlaps_bounds i k : proper w i -> proper w k ->
  Interval_overlaps i k = (lo_ k <=? hi_ i) && (lo_ i <=? hi_ k).
Proof.
  intros Hi Hk. apply eq_true_iff_eq. rewrite (overlaps_spec w), andb_true_iff, !Z.leb_le by now right.
  unfold proper, member in *. split; [intros (x & Hx); lia|]. intros H. exists (Z.max (lo_ i) (lo_ k)). lia.
Qed.

Lemma overlaps_empty k : Interval_overlaps Interval_empty k = false.
Proof. reflexivity. Qed.

Lemma upper_bound_spec s acc (l : nodes) : exists l1 from, upper_bound (Interval_singleton s) acc l = (rev l1 ++ acc, from) /\
  l = l1 ++ from /\ Forall (fun n => hi_ (fst n) <= s) l1.
Proof.
  revert acc. induction l as [|n l IH]; intros acc; cbn [upper_bound]; [now exists [], []|].
  unfold IntervalCompare. change (hi_ (Interval_singleton s)) with s.
  destruct (Z.ltb_spec s (hi_ (fst n))); [now exists [], (n :: l)|].
  destruct (IH (n :: acc)) as (l1 & from & -> & -> & Hf). exists (n :: l1), from. cbn. rewrite <- app_assoc.
  split; [reflexivity|]. split; [reflexivity|now constructor].
Qed.

Lemma skip_to_spec s acc (l : nodes) : exists l1 from, skip_to s acc l = (rev l1 ++ acc, from) /\
  l = l1 ++ from /\ Forall (fun n => lo_ (fst n) <= s) l1 /\ match from with [] => True | n :: _ => s < lo_ (fst n) end.
Proof.
  revert acc. induction l as [|n l IH]; intros acc; cbn; [now exists [], []|].
  destruct (Z.leb_spec (lo_ (fst n)) s) as [Hk|Hk]; [|now exists [], (n :: l)].
  destruct (IH (n :: acc)) as (l1 & from & -> & -> & Hf & Hr). exists (n :: l1), from. cbn. rewrite <- app_assoc.
  split; [reflexivity|]. split; [reflexivity|]. split; [now constructor|assumption].
Qed.

(** [upperBound] is after the nodes that start at or before the scalar. *)
Lemma upperBound_spec s (m : IntervalMap V) : wf m -> exists p q, upperBound s m = (rev p, q) /\ map_ m = p ++ q /\
  Forall (fun n => lo_ (fst n) <= s) p /\ match q with [] => True | n :: _ => s < lo_ (fst (n : Node V)) end.
Proof.
  intros [Hc _]. unfold upperBound. destruct (upper_bound_spec s [] (map_ m)) as (l1 & from & -> & Em & H1).
  destruct (skip_to_spec s (rev l1 ++ []) from) as (l2 & q & -> & -> & H2 & Hq). exists (l1 ++ l2), q.
  rewrite Em in *. rewrite rev_app_distr, app_nil_r, app_assoc. split; [reflexivity|]. split; [reflexivity|]. split; [|assumption].
  apply Forall_app. split; [|assumption]. apply chain_app in Hc as [Hc _]. apply chain_Forall in Hc.
  rewrite Forall_forall in *. intros n Hn. specialize (H1 n Hn). destruct (Hc n Hn) as (_ & Hp & _). unfold proper in Hp. lia.
Qed.

Lemma chain_proper b (l : nodes) : chain w b l -> Forall (fun n => proper w (fst n)) l.
Proof. intros H. apply chain_Forall in H. eapply Forall_impl; [exact H|]. now intros n (_ & Hp & _). Qed.

Lemma chain_ends b n (l : nodes) s : chain w b (n :: l) -> s <= hi_ (fst n) -> Forall (fun n => s <= hi_ (fst n)) (n :: l).
Proof.
  destruct n as [k v]. cbn. intros (_ & _ & Hl) Hs. constructor; [assumption|]. apply chain_Forall in Hl.
  eapply Forall_impl; [exact Hl|]. cbn. intros n (Hn & Hp & _). unfold proper in Hp. lia.
Qed.

Lemma chain_starts b n (l : nodes) s : chain w b (n :: l) -> s < lo_ (fst n) -> Forall (fun n => s < lo_ (fst n)) (n :: l).
Proof.
  destruct n as [k v]. cbn. intros (_ & Hk & Hl) Hs. constructor; [assumption|]. apply chain_Forall in Hl.
  eapply Forall_impl; [exact Hl|]. cbn. intros n (Hn & _). unfold proper in Hk. lia.
Qed.

Lemma filter_all {T} (f : T -> bool) l : Forall (fun x => f x = true) l -> List.filter f l = l.
Proof. induction 1 as [|x l Hx _ IH]; [reflexivity|]. cbn. now rewrite Hx, IH. Qed.

Lemma filter_none {T} (f : T -> bool) l : Forall (fun x => f x = false) l -> List.filter f l = [].
Proof. induction 1 as [|x l Hx _ IH]; [reflexivity|]. cbn. now rewrite Hx. Qed.

(** Nodes on either side of an interval do not overlap it. *)
Lemma left_apart i (l : nodes) : proper w i -> Forall (fun n => proper w (fst n)) l -> before (lo_ i) l ->
  Forall (fun n => Interval_overlaps i (fst n) = false) l.
Proof.
  intros Hi Hp Hb. unfold before in Hb. rewrite Forall_forall in *. intros n Hn. rewrite overlaps_bounds by now auto.
  specialize (Hb n Hn). apply andb_false_iff. right. apply Z.leb_gt. lia.
Qed.

Lemma right_apart i (l : nodes) b : proper w i -> chain w b l ->
  match l with [] => True | n :: _ => hi_ i < lo_ (fst n) end -> Forall (fun n => Interval_overlaps i (fst n) = false) l.
Proof.
  intros Hi Hc Hr. destruct l as [|n l]; [constructor|]. pose proof (chain_proper _ _ Hc) as Hp.
  pose proof (chain_starts _ _ _ _ Hc Hr) as Hs. rewrite Forall_forall in *. intros n' Hn. rewrite overlaps_bounds by now auto.
  specialize (Hs n' Hn). apply andb_false_iff. left. apply Z.leb_gt. lia.
Qed.

(** The nodes between the two bounds are those that overlap. *)
Lemma findAll_parts i (m : IntervalMap V) : Interval_ok w i -> wf m -> exists l1 l2 l3, map_ m = l1 ++ l2 ++ l3 /\
  findAll i m = ((rev l1, l2 ++ l3), (rev (l1 ++ l2), l3)) /\
  List.filter (fun n => Interval_overlaps i (fst n)) (map_ m) = l2.
Proof.
  intros Hi Hm. assert (Hend : findAll i m = (end_of m, end_of m) ->
    Forall (fun n => Interval_overlaps i (fst n) = false) (map_ m) ->
    exists l1 l2 l3, map_ m = l1 ++ l2 ++ l3 /\ findAll i m = ((rev l1, l2 ++ l3), (rev (l1 ++ l2), l3)) /\
      List.filter (fun n => Interval_overlaps i (fst n)) (map_ m) = l2).
  { intros E H. exists (map_ m), [], []. rewrite E, !app_nil_r. split; [reflexivity|]. split; [reflexivity|now apply filter_none]. }
  destruct Hi as [->|Hi].
  { apply Hend; [reflexivity|]. apply Forall_forall. intros n _. apply overlaps_empty. }
  destruct (lowerBound_spec (lo_ i) m) as (l1 & from & El & Em & Hb & Hf). pose proof Hm as [Hc _]. rewrite Em in Hc.
  apply chain_app in Hc as [H1 H2]. pose proof (left_apart i l1 Hi (chain_proper _ _ H1) Hb) as Hl.
  pose proof (right_apart i from _ Hi H2) as Hr.
  unfold findAll in *. rewrite (proper_not_empty w), El in * by assumption. destruct from as [|n from].
  { apply Hend; [reflexivity|]. rewrite Em. apply Forall_app. now split; [|constructor]. }
  rewrite node_at_cons in *. destruct (Z.ltb_spec (hi_ i) (lo_ (fst n))) as [Hlt|Hge].
  { apply Hend; [reflexivity|]. rewrite Em. apply Forall_app. split; [assumption|now apply Hr]. }
  destruct (upperBound_spec (hi_ i) m Hm) as (p & q & Eu & Ep & Hp & Hq). rewrite Em in Ep.
  assert (Hsplit : exists l2, p = l1 ++ l2 /\ n :: from = l2 ++ q).
  { apply app_eq_app in Ep as (l & [[E1 E2]|[E1 E2]]); [|exists l; now rewrite E1, E2].
    destruct l as [|o l]; [exists []; rewrite app_nil_r in *; now rewrite E1|]. exfalso. rewrite E2 in Hq. cbn in Hq.
    pose proof (chain_proper _ _ H1) as Hpl. unfold before in Hb. rewrite E1 in Hpl, Hb. apply Forall_app in Hpl as [_ Hpl], Hb as [_ Hb].
    inversion_clear Hpl as [|? ? Ho _]. inversion_clear Hb as [|? ? Hbo _]. unfold proper in *. lia. }
  destruct Hsplit as (l2 & -> & Ef). exists l1, l2, q. rewrite Ef in Em. rewrite Eu, Em, Ef. split; [reflexivity|]. split; [reflexivity|].
  pose proof (chain_ends _ _ _ _ H2 Hf) as He. pose proof (chain_proper _ _ H2) as Hpr. rewrite Ef in *.
  apply chain_app in H2 as [_ H3]. apply Forall_app in Hp as [_ Hp], He as [He _], Hpr as [Hpr _].
  rewrite !List.filter_app, (filter_none _ l1), (filter_none _ q), app_nil_r by (assumption || now apply (right_apart _ _ _ Hi H3)).
  apply filter_all. rewrite Forall_forall in *. intros o Ho. rewrite overlaps_bounds by now auto.
  specialize (He o Ho). specialize (Hp o Ho). now rewrite !(proj2 (Z.leb_le _ _)).
Qed.

(** * The sizes of nodes *)

(** The number of scalars in a key, which is not its [size()] when that wraps. *)
Definition span (n : Node V) : Z := hi_ (fst n) - lo_ (fst n) + 1.

Lemma size_span n : proper w (fst n) ->
  1 <= span n <= 2 ^ w /\ Interval_size w (fst n) = if span n =? 2 ^ w then 0 else span n.
Proof using width.
  intros Hp. pose proof (pow_w w width). rewrite proper_size by assumption. unfold span, proper, const_max in *. split; [lia|].
  destruct (Z.eqb_spec (hi_ (fst n) - lo_ (fst n) + 1) (2 ^ w)) as [->|]; [apply Z.mod_same; lia|apply Z.mod_small; lia].
Qed.

Lemma isLarge_span n x : 0 <= x < 2 ^ w -> proper w (fst n) -> isLarge w (fst n) x = (x <=? span n).
Proof using width.
  intros Hx Hp. destruct (size_span n Hp) as [Hs Hw]. unfold isLarge. rewrite Hw, (proper_not_empty w) by assumption. cbn [negb andb].
  destruct (Z.eqb_spec (span n) (2 ^ w)) as [E|]; [rewrite E; symmetry; apply Z.leb_le; lia|]. now rewrite (proj2 (Z.eqb_neq _ _)) by lia.
Qed.

(** A node that [bestFit] takes: the whole space does not count. *)
Definition fits (x : Z) (n : Node V) : Prop := x <= span n < 2 ^ w.

Definition first_of (x : Z) (l : nodes) (r : option (Node V)) : Prop :=
  match r with
  | None => Forall (fun n => span n < x) l
  | Some b => exists l1 l2, l = l1 ++ b :: l2 /\ x <= span b /\ Forall (fun n => span n < x) l1
  end.

Lemma firstFit_first x l : 0 <= x < 2 ^ w -> Forall (fun n => proper w (fst n)) l -> first_of x l (firstFit w x l).
Proof using width.
  intros Hx Hp. induction Hp as [|n l Hn _ IH]; [constructor|]. unfold firstFit in *. cbn [List.find]. rewrite isLarge_span by assumption.
  destruct (Z.leb_spec x (span n)); [exists [], l; now repeat split|].
  destruct (List.find _ l) as [b|]; cbn in *; [|now constructor]. destruct IH as (l1 & l2 & -> & Hb & H1).
  exists (n :: l1), l2. split; [reflexivity|]. split; [assumption|now constructor].
Qed.

(** The first of the smallest nodes that fit. *)
Definition best_of (x : Z) (l : nodes) (r : option (Node V)) : Prop :=
  match r with
  | None => Forall (fun n => ~ fits x n) l
  | Some b => exists l1 l2, l = l1 ++ b :: l2 /\ fits x b /\
      Forall (fun n => fits x n -> span b < span n) l1 /\ Forall (fun n => fits x n -> span b <= span n) l2
  end.

Lemma best_of_all x l r : best_of x l r ->
  Forall (fun n => fits x n -> match r with Some b => span b <= span n | None => False end) l.
Proof.
  destruct r as [b|]; cbn; [|exact id]. intros (l1 & l2 & -> & _ & H1 & H2). apply Forall_app. split; [|now constructor].
  eapply Forall_impl; [exact H1|]. cbn. intros n H Hn. specialize (H Hn). lia.
Qed.

(** A better node takes the place of the best, another one does not. *)
Lemma best_of_better x p r n : best_of x p r -> fits x n ->
  match r with Some b => span n < span b | None => True end -> best_of x (p ++ [n]) (Some n).
Proof.
  intros Hb Hn Hr. exists p, []. split; [reflexivity|]. split; [assumption|]. split; [|constructor].
  eapply Forall_impl; [exact (best_of_all _ _ _ Hb)|]. cbn. intros o Ho Hf. specialize (Ho Hf). destruct r; [lia|contradiction].
Qed.

Lemma best_of_worse x p r n : best_of x p r -> (fits x n -> match r with Some b => span b <= span n | None => False end) ->
  best_of x (p ++ [n]) r.
Proof.
  destruct r as [b|]; cbn; intros Hb Hn; [|apply Forall_app; split; [assumption|now constructor]].
  destruct Hb as (l1 & l2 & -> & Hf & H1 & H2). exists l1, (l2 ++ [n]). rewrite <- app_assoc. split; [reflexivity|]. split; [assumption|].
  split; [assumption|]. apply Forall_app. split; [assumption|now constructor].
Qed.

Lemma bestFit_loop_best x l : 0 <= x < 2 ^ w -> Forall (fun n => proper w (fst n)) l -> forall p r,
  best_of x p r -> match r with Some b => x < span b /\ Interval_size w (fst b) = span b | None => True end ->
  best_of x (p ++ l) (bestFit_loop w x r l).
Proof using width.
  intros Hx Hp. induction Hp as [|n l Hn _ IH]; intros p r Hb Hr; [now rewrite app_nil_r|].
  destruct (size_span n Hn) as [Hs Hw]. cbn [bestFit_loop]. rewrite Hw. destruct (Z.eqb_spec (span n) (2 ^ w)) as [Ew|Ew].
  { assert (Hno : ~ fits x n) by (unfold fits; lia). replace ((0 =? x) && negb (x =? 0)) with false by (destruct (Z.eqb_spec 0 x); [now subst|reflexivity]).
    rewrite (proj2 (Z.ltb_ge x 0)) by lia. cbn [andb]. rewrite (app_assoc p [n] l : p ++ n :: l = _). apply IH; [|assumption]. now apply best_of_worse. }
  assert (Hn2 : span n < 2 ^ w) by lia. destruct (Z.eqb_spec (span n) x) as [Ex|Ex].
  { rewrite (proj2 (Z.eqb_neq x 0)) by lia. cbn [negb andb]. exists p, l. split; [reflexivity|].
    split; [unfold fits; lia|]. split; [|apply Forall_forall; unfold fits; lia].
    eapply Forall_impl; [exact (best_of_all _ _ _ Hb)|]. cbn. intros o Ho Hf. specialize (Ho Hf). destruct r; [lia|contradiction]. }
  cbn [andb]. rewrite (app_assoc p [n] l : p ++ n :: l = _). destruct (Z.ltb_spec x (span n)) as [Hlt|Hge]; cbn [andb].
  - assert (Hfit : fits x n) by (unfold fits; lia). destruct r as [b|]; [|apply IH; [now apply (best_of_better _ _ None)|lia]].
    rewrite (proj2 Hr). destruct (Z.ltb_spec (span n) (span b)); apply IH; try assumption; [|lia|].
    + now apply (best_of_better _ _ (Some b)).
    + now apply (best_of_worse _ _ (Some b)).
  - apply IH; [|assumption]. apply best_of_worse; [assumption|]. unfold fits. lia.
Qed.

(** Which node a search for room finds: [firstFit] the first with at least
    the given number of scalars, [bestFit] the first of the smallest of those,
    except that it passes over a node that covers the whole type, whose size
    wraps to zero. *)
Theorem fit_finds x (m : IntervalMap V) : 0 <= x < 2 ^ w -> wf m ->
  first_of x (map_ m) (firstFit w x (map_ m)) /\ best_of x (map_ m) (bestFit w x (map_ m)).
Proof using width.
  intros Hx [Hc _]. apply chain_proper in Hc. split; [now apply firstFit_first|].
  apply (bestFit_loop_best x (map_ m) Hx Hc []); constructor.
Qed.

(** [findAll] finds the nodes that overlap an interval, all of them and in
    order. *)
Theorem findAll_overlapping i (m : IntervalMap V) : Interval_ok w i -> wf m ->
  range_nodes (findAll i m) = List.filter (fun n => Interval_overlaps i (fst n)) (map_ m).
Proof using width.
  intros Hi Hm. destruct (findAll_parts i m Hi Hm) as (l1 & l2 & l3 & _ & -> & ->). unfold range_nodes. cbn [fst snd].
  rewrite length_app, Nat.add_sub. rewrite firstn_app, Nat.sub_diag, firstn_all. apply app_nil_r.
Qed.

Lemma mapped_in (l : nodes) x : mapped w l x <-> exists n, In n l /\ member x (fst n).
Proof.
  induction l as [|[k v] l IH]; [split; [intros H; now elim H|intros (n & [] & _)]|]. rewrite mapped_cons, IH. cbn [In]. split.
  - intros [H|(n & H & Hx)]; [exists (k, v); split; [now left|assumption]|exists n; split; [now right|assumption]].
  - intros (n & [<-|H] & Hx); [now left|right; now exists n].
Qed.
End Searches.

(** * Two maps *)

Section Maps.
Variable w : Z.
Hypothesis width : 0 < w.
Context {V A : Type} {P : Policy V} {L : LawfulPolicy w V A}.
Context {V' A' : Type} {P' : Policy V'} {L' : LawfulPolicy w V' A'}.

Lemma findFirstOverlap2_some (these : list (Node V)) (others : list (Node V')) n o :
  findFirstOverlap2 these others = Some (n, o) -> In n these /\ In o others /\ Interval_overlaps (fst n) (fst o) = true.
Proof.
  revert others. induction these as [|a these IH]; intros others; [now destruct others|]. induction others as [|b others IHo]; [discriminate|].
  cbn. destruct (Interval_overlaps (fst a) (fst b)) eqn:E.
  - intros [= <- <-]. split; [now left|]. split; [now left|assumption].
  - destruct (hi_ (fst a) <? hi_ (fst b)).
    + intros H. apply IH in H as (Hn & Ho & H). split; [now right|now split].
    + intros H. apply IHo in H as (Hn & Ho & H). split; [assumption|]. split; [now right|assumption].
Qed.

(** Whichever of two nodes ends first overlaps nothing that is still to come. *)
Lemma findFirstOverlap2_none (these : list (Node V)) (others : list (Node V')) b b' :
  chain w b these -> chain w b' others -> findFirstOverlap2 these others = None ->
  forall n o, In n these -> In o others -> Interval_overlaps (fst n) (fst o) = false.
Proof using width.
  revert b others b'. induction these as [|[k v] these IH]; intros b others b' Ht Ho; [easy|]. revert b' Ho.
  induction others as [|[k' v'] others IHo]; intros b' Ho; [easy|]. cbn. destruct (Interval_overlaps k k') eqn:E; [discriminate|].
  pose proof (chain_proper _ _ _ Ht) as Hpt. pose proof (chain_proper _ _ _ Ho) as Hpo.
  pose proof Ht as (_ & Hk & Ht'). pose proof Ho as (_ & Hk' & Ho'). pose proof E as E'. rewrite (overlaps_bounds w) in E' by assumption.
  apply andb_false_iff in E'. rewrite !Z.leb_gt in E'. unfold proper in Hk, Hk'. destruct (Z.ltb_spec (hi_ k) (hi_ k')) as [Hlt|Hge]; intros H n o Hn Hin.
  - destruct Hn as [<-|Hn]; [|now apply (IH _ ((k', v') :: others) b' Ht' Ho H)]. cbn [fst]. apply (chain_starts w _ _ _ (hi_ k)) in Ho; [|cbn; lia].
    assert (Hel : o ∈ (k', v') :: others) by now apply list_elem_of_In.
    rewrite Forall_forall in Ho, Hpo. specialize (Ho o Hel). rewrite (overlaps_bounds w) by (now apply Hpo || (split; lia)).
    apply andb_false_iff. left. apply Z.leb_gt. lia.
  - destruct Hin as [<-|Hin]; [|now apply (IHo _ Ho' H)]. cbn [fst]. apply (chain_starts w _ _ _ (hi_ k')) in Ht; [|cbn; lia].
    assert (Hel : n ∈ (k, v) :: these) by now apply list_elem_of_In.
    rewrite Forall_forall in Ht, Hpt. specialize (Ht n Hel). rewrite (overlaps_bounds w) by (now apply Hpt || (split; lia)).
    apply andb_false_iff. right. apply Z.leb_gt. lia.
Qed.

(** Two maps overlap, as the walk over their nodes side by side finds, exactly
    when some scalar is mapped by both, whatever their values and policies. *)
Theorem overlaps_map_common (m : IntervalMap V) (other : IntervalMap V') : wf w m -> wf w other ->
  (overlaps_map other m = true <-> exists x, mapped w (map_ m) x /\ mapped w (map_ other) x).
Proof using width.
  intros [Hm _] [Ho _]. pose proof (chain_proper _ _ _ Hm) as Hpm. pose proof (chain_proper _ _ _ Ho) as Hpo.
  rewrite Forall_forall in Hpm. rewrite Forall_forall in Hpo. unfold overlaps_map. destruct (findFirstOverlap2 (map_ m) (map_ other)) as [[n o]|] eqn:E.
  - apply findFirstOverlap2_some in E as (Hn & Hin & E). split; [intros _|reflexivity].
    apply (overlaps_spec w) in E as (x & Hx & Hx'); [|right; now apply Hpm, list_elem_of_In|right; now apply Hpo, list_elem_of_In].
    exists x. rewrite !mapped_in. split; [now exists n|now exists o].
  - split; [discriminate|]. intros (x & H & H'). exfalso. apply mapped_in in H as (n & Hn & Hx), H' as (o & Hin & Hx').
    pose proof (findFirstOverlap2_none _ _ _ _ Hm Ho E n o Hn Hin) as Hno. apply not_true_iff_false in Hno. apply Hno.
    apply (overlaps_spec w); [right; now apply Hpm, list_elem_of_In|right; now apply Hpo, list_elem_of_In|]. now exists x.
Qed.
End Maps.

(** * Witnesses *)

#[local] Existing Instance policy32.
#[local] Existing Instance lawful32.

(** Rooms of sixteen, eight, eight and four addresses. *)
Definition rooms : IntervalMap Segment :=
  {| map_ := [(mkInterval 0 15, text 0); (mkInterval 32 39, text 0); (mkInterval 64 71, text 0); (mkInterval 100 103, text 0)];
     size_ := 36 |}.
Lemma rooms_wf : wf 32 rooms.
Proof. split; [|reflexivity]. cbn. unfold proper, const_max. cbn. lia. Qed.

Theorem fit_finds_witness :
  firstFit 32 6 (map_ rooms) = Some (mkInterval 0 15, text 0) /\ bestFit 32 6 (map_ rooms) = Some (mkInterval 32 39, text 0) /\
  exists l1 l2, map_ rooms = l1 ++ (mkInterval 32 39, text 0) :: l2 /\
    Forall (fun n => fits 32 6 n -> 8 < span n) l1 /\ Forall (fun n => fits 32 6 n -> 8 <= span n) l2.
Proof.
  destruct (fit_finds 32 eq_refl 6 rooms ltac:(lia) rooms_wf) as [_ (l1 & l2 & E & _ & H)].
  split; [reflexivity|]. split; [reflexivity|]. exists l1, l2. split; [exact E|exact H].
Defined.

Theorem findAll_overlapping_witness :
  range_nodes (findAll (mkInterval 15 64) rooms) = firstn 3 (map_ rooms).
Proof.
  rewrite (findAll_overlapping 32 eq_refl (mkInterval 15 64) rooms);
    [reflexivity|right; split; cbn; unfold const_max; lia|apply rooms_wf].
Defined.

(** Marks with numbers for values, against segments. *)
Definition marks : IntervalMap Z := {| map_ := [(mkInterval 0 4095, 1); (mkInterval 8000 9000, 2)]; size_ := 5097 |}.
Lemma marks_wf : wf 32 marks.
Proof. split; [|reflexivity]. cbn. unfold proper, const_max. cbn. lia. Qed.

Theorem overlaps_map_common_witness :
  overlaps_map marks text_map = true /\
  exists x, mapped 32 (map_ text_map) x /\ mapped 32 (P := MergePolicy Z) (L := MergePolicy_lawful 32 Z) (map_ marks) x.
Proof.
  split; [reflexivity|].
  apply (overlaps_map_common 32 eq_refl (P' := MergePolicy Z) (L' := MergePolicy_lawful 32 Z) text_map marks text_map_wf marks_wf).
  reflexivity.
Defined.
