(* ===== verification/SawyerAddressSpace.v ===== *)
(** Address spaces with storage: buffers ([src/Sawyer/AllocatingBuffer.h]), and the
    constraints, reads and writes of address maps ([src/Sawyer/AddressMap.h]) with
    addresses of 64 bits, as [src/Rose/BinaryAnalysis/MemoryMap.h] has them.

    Buffers are reference counted and shared by segments and by maps: they live in
    a heap, and a segment names one.  A buffer whose writes are to be seen by one
    map only is marked to be copied on a write.  The buffers are those that
    allocate their storage; files, the direction [MATCH_BACKWARD] and the other
    users of constraints are not modelled. *)
From S2P Require Import Prelude SawyerInterval SawyerIntervalMap SawyerAddressMap.
From Stdlib Require Import String.
From stdpp Require Import gmap.
Open Scope Z_scope.

#[local] Notation w := 64.
#[local] Notation wrap x := (x mod 2 ^ 64).
#[local] Notation hull := Interval_hull.

(** Maps of segments merge them by their policy. *)
#[export] Instance address_policy : Policy Segment := SegmentMergePolicy 64.

(** * Buffers *)

(** [class AllocatingBuffer] *)
Record Buffer := mkBuffer { values_ : list Z; copyOnWrite : bool }.

Definition buffer_instance (size : Z) : Buffer := {| values_ := repeat 0 (Z.to_nat size); copyOnWrite := false |}.
Definition buffer_size (b : Buffer) : Z := Z.of_nat (length (values_ b)).
Definition available (b : Buffer) (start : Z) : Z := if start <? buffer_size b then buffer_size b - start else 0.
Definition buffer_resize (b : Buffer) (newSize : Z) : Buffer :=
  let n := Z.to_nat newSize in
  {| values_ := firstn n (values_ b) ++ repeat 0 (n - length (values_ b)); copyOnWrite := copyOnWrite b |}.

(** The values from [address] on, at most [n]. *)
Definition buffer_read (b : Buffer) (address n : Z) : list Z :=
  let n := Z.min n (available b address) in
  if 0 <? n then firstn (Z.to_nat n) (skipn (Z.to_nat address) (values_ b)) else [].
(** How many values were written, and the buffer. *)
Definition buffer_write (b : Buffer) (buf : list Z) (address n : Z) : Z * Buffer :=
  let n := Z.min n (available b address) in
  if 0 <? n then
    let a := Z.to_nat address in
    (n, {| values_ := firstn a (values_ b) ++ firstn (Z.to_nat n) buf ++ skipn (a + Z.to_nat n) (values_ b);
           copyOnWrite := copyOnWrite b |})
  else (n, b).
Definition buffer_copy (b : Buffer) : outcome Buffer :=
  let (nWritten, newBuffer) := buffer_write (buffer_instance (buffer_size b)) (values_ b) 0 (buffer_size b) in
  if negb (nWritten =? buffer_size b) then Fail Throw else Ret newBuffer.

(** The buffers there are; a new one is at the next place. *)
Record Heap := mkHeap { buffers : gmap Z Buffer; nextBuffer : Z }.

Definition heap_new (b : Buffer) (h : Heap) : Z * Heap :=
  (nextBuffer h, mkHeap (<[nextBuffer h := b]> (buffers h)) (nextBuffer h + 1)).
Definition heap_get (p : Z) (h : Heap) : outcome Buffer := match buffers h !! p with Some b => Ret b | None => Fail Undefined end.
Definition heap_set (p : Z) (b : Buffer) (h : Heap) : Heap := mkHeap (<[p := b]> (buffers h)) (nextBuffer h).

(** * Constraints *)

Definition EXECUTABLE : Z := 1.
Definition WRITABLE : Z := 2.
Definition READABLE : Z := 4.
Definition IMMUTABLE : Z := 8.

(** [AddressMapConstraints]; a predicate is told whether those before it hold. *)
Record Constraints := mkConstraints {
  never_ : bool;
  least_ : option Z;
  greatest_ : option Z;
  anchored_ : option Interval;
  maxSize_ : Z;
  singleSegment_ : bool;
  requiredAccess_ : Z;
  prohibitedAccess_ : Z;
  nameSubstring_ : string;
  segmentPredicates_ : list (bool -> Interval -> Segment -> bool)
}.

Definition SIZE_MAX : Z := 2 ^ 64 - 1.
Definition unconstrained : Constraints := mkConstraints false None None None SIZE_MAX false 0 0 EmptyString [].

Definition c_require (bits : Z) (c : Constraints) : Constraints :=
  mkConstraints (never_ c) (least_ c) (greatest_ c) (anchored_ c) (maxSize_ c) (singleSegment_ c) (Z.lor (requiredAccess_ c) bits)
    (prohibitedAccess_ c) (nameSubstring_ c) (segmentPredicates_ c).
Definition c_prohibit (bits : Z) (c : Constraints) : Constraints :=
  mkConstraints (never_ c) (least_ c) (greatest_ c) (anchored_ c) (maxSize_ c) (singleSegment_ c) (requiredAccess_ c)
    (Z.lor (prohibitedAccess_ c) bits) (nameSubstring_ c) (segmentPredicates_ c).
Definition c_access (bits : Z) (c : Constraints) : Constraints := c_prohibit (Z.lxor bits (2 ^ 32 - 1)) (c_require bits c).
Definition c_substr (s : string) (c : Constraints) : outcome Constraints :=
  assert! String.eqb (nameSubstring_ c) EmptyString || String.eqb (nameSubstring_ c) s else AssertFail in
  Ret (mkConstraints (never_ c) (least_ c) (greatest_ c) (anchored_ c) (maxSize_ c) (singleSegment_ c) (requiredAccess_ c)
         (prohibitedAccess_ c) s (segmentPredicates_ c)).
Definition c_none (c : Constraints) : Constraints :=
  mkConstraints true (least_ c) (greatest_ c) (anchored_ c) (maxSize_ c) (singleSegment_ c) (requiredAccess_ c) (prohibitedAccess_ c)
    (nameSubstring_ c) (segmentPredicates_ c).
Definition c_anchor (a : option Interval) (c : Constraints) : Constraints :=
  mkConstraints (never_ c) (least_ c) (greatest_ c) a (maxSize_ c) (singleSegment_ c) (requiredAccess_ c) (prohibitedAccess_ c)
    (nameSubstring_ c) (segmentPredicates_ c).
Definition c_range (l g : option Z) (c : Constraints) : Constraints :=
  mkConstraints (never_ c) l g (anchored_ c) (maxSize_ c) (singleSegment_ c) (requiredAccess_ c) (prohibitedAccess_ c)
    (nameSubstring_ c) (segmentPredicates_ c).

Definition c_at (x : Z) (c : Constraints) : Constraints :=
  let a := match anchored_ c with Some a => Interval_intersection a (Interval_singleton x) | None => Interval_singleton x end in
  let retval := c_anchor (Some a) c in
  if Interval_isEmpty a then c_none retval else retval.
(** The constraint that nothing matches is computed, and dropped. *)
Definition c_atOrAfter (least : Z) (c : Constraints) : Constraints :=
  c_range (Some (match least_ c with Some l => Z.max l least | None => least end)) (greatest_ c) c.
Definition c_atOrBefore (greatest : Z) (c : Constraints) : Constraints :=
  c_range (least_ c) (Some (match greatest_ c with Some g => Z.min g greatest | None => greatest end)) c.
Definition c_at_interval (x : Interval) (c : Constraints) : outcome Constraints :=
  let a := match anchored_ c with Some a => Interval_intersection a x | None => x end in
  let retval := c_anchor (Some a) c in
  if Interval_isEmpty a then Ret (c_none retval)
  else let! l := Interval_least x in let! g := Interval_greatest x in Ret (c_atOrBefore g (c_atOrAfter l retval)).
Definition c_limit (x : Z) (c : Constraints) : Constraints :=
  let n := Z.min (maxSize_ c) x in
  let retval := mkConstraints (never_ c) (least_ c) (greatest_ c) (anchored_ c) n (singleSegment_ c) (requiredAccess_ c)
                  (prohibitedAccess_ c) (nameSubstring_ c) (segmentPredicates_ c) in
  if 0 =? n then c_none retval else retval.
Definition c_within (x : Interval) (c : Constraints) : Constraints :=
  if Interval_isEmpty x then c_none c else c_atOrBefore (hi_ x) (c_atOrAfter (lo_ x) c).
Definition c_within_hull (lo hi : Z) (c : Constraints) : Constraints := if lo <=? hi then c_within (hull lo hi) c else c_none c.
Definition c_baseSize (base size : Z) (c : Constraints) : Constraints :=
  if 0 <? size then c_atOrBefore (wrap (base + size - 1)) (c_atOrAfter base c) else c_none c.
Definition c_after (x : Z) (c : Constraints) : Constraints := if x =? const_max w then c_none c else c_atOrAfter (x + 1) c.
Definition c_before (x : Z) (c : Constraints) : Constraints := if x =? 0 then c_none c else c_atOrBefore (x - 1) c.
Definition c_singleSegment (c : Constraints) : Constraints :=
  mkConstraints (never_ c) (least_ c) (greatest_ c) (anchored_ c) (maxSize_ c) true (requiredAccess_ c) (prohibitedAccess_ c)
    (nameSubstring_ c) (segmentPredicates_ c).
Definition c_segmentPredicate (p : bool -> Interval -> Segment -> bool) (c : Constraints) : Constraints :=
  mkConstraints (never_ c) (least_ c) (greatest_ c) (anchored_ c) (maxSize_ c) (singleSegment_ c) (requiredAccess_ c)
    (prohibitedAccess_ c) (nameSubstring_ c) (segmentPredicates_ c ++ [p]).

Definition c_segmentPredicates (ps : list (bool -> Interval -> Segment -> bool)) (c : Constraints) : Constraints :=
  fold_left (fun c p => c_segmentPredicate p c) ps c.

Definition hasNonAddressConstraints (c : Constraints) : bool :=
  negb (never_ c) &&
  (negb (requiredAccess_ c =? 0) || negb (prohibitedAccess_ c =? 0) || negb (String.eqb (nameSubstring_ c) EmptyString) ||
   negb (maxSize_ c =? SIZE_MAX) || singleSegment_ c || match segmentPredicates_ c with [] => false | _ => true end).

Definition addressConstraints (c : Constraints) : Constraints :=
  mkConstraints false (least_ c) (greatest_ c) (anchored_ c) (maxSize_ c) false 0 0 EmptyString [].

(** * Matching *)

Definition AddressMap : Type := IntervalMap Segment.

Definition isAccessible (s : Segment) (requiredAccess prohibitedAccess : Z) : bool :=
  (requiredAccess =? Z.land (accessibility_ s) requiredAccess) && (0 =? Z.land (accessibility_ s) prohibitedAccess).
Definition contains_string (s sub : string) : bool := match String.index 0 sub s with Some _ => true | None => false end.
Definition isSatisfied (n : Node Segment) (c : Constraints) : bool :=
  isAccessible (snd n) (requiredAccess_ c) (prohibitedAccess_ c) && contains_string (name_ (snd n)) (nameSubstring_ c) &&
  fold_left (fun chain p => p chain (fst n) (snd n)) (segmentPredicates_ c) true.

(** The position of the first node, and the least address. *)
Definition constraintLowerBound (amap : AddressMap) (c : Constraints) (useAnchor : bool) : Position Segment * Z :=
  let nothing := (end_of amap, 0) in
  if IntervalMap_isEmpty amap || never_ c then nothing
  else
    match (if useAnchor then anchored_ c else None), least_ c with
    | Some a, _ =>
        if match least_ c with Some l => lo_ a <? l | None => false end || match greatest_ c with Some g => g <? hi_ a | None => false end
        then nothing
        else
          let lb := lowerBound (lo_ a) amap in
          match node_at lb with
          | None => nothing
          | Some n => if lo_ a <? lo_ (fst n) then nothing else (lb, lo_ a)
          end
    | None, Some l =>
        let lb := lowerBound l amap in
        match node_at lb with None => nothing | Some n => (lb, Z.max l (lo_ (fst n))) end
    | None, None =>
        let lb := ([], map_ amap) in (lb, match node_at lb with Some n => lo_ (fst n) | None => 0 end)
    end.

Definition next_position (it : Position Segment) : Position Segment :=
  match it with (before, n :: from) => (n :: before, from) | _ => it end.

(** The position after the last node, and the greatest address, of a forward match. *)
Definition constraintUpperBound (amap : AddressMap) (c : Constraints) : outcome (Position Segment * Z) :=
  let nothing := (([], map_ amap), 0) in
  if IntervalMap_isEmpty amap || never_ c then Ret nothing
  else
    match greatest_ c with
    | Some g =>
        let ub := findPrior g amap in
        match node_at ub with
        | None => Ret nothing
        | Some n => Ret (next_position ub, Z.min (hi_ (fst n)) g)
        end
    | None => let! g := IntervalMap_greatest amap in Ret (end_of amap, g)
    end.

(** [while (begin!=end && !isSatisfied( *begin, c))]: the nodes from there on, of
    which [after] are not before the end.  A position past the end of the list is
    dereferenced when the end comes before the beginning. *)
Fixpoint skip_unsatisfied (c : Constraints) (from : list (Node Segment)) (after : nat) : outcome (option (list (Node Segment))) :=
  if (length from =? after)%nat then Ret (Some from)
  else
    match from with
    | [] => Fail Undefined
    | n :: from' =>
        if isSatisfied n c then Ret (Some from)
        else match anchored_ c with Some _ => Ret None | None => skip_unsatisfied c from' after end
    end.

(** The loop over the nodes that match: the last address, and how many nodes. *)
Fixpoint match_loop (c : Constraints) (contiguous whole first : bool) (minAddr addr nElmtsFound : Z) (count : nat)
    (from : list (Node Segment)) (after : nat) : outcome (option (Z * nat)) :=
  if (length from =? after)%nat then Ret (Some (addr, count))
  else
    match from with
    | [] => Fail Undefined
    | n :: from' =>
        let go :=
          let here := Z.max minAddr (lo_ (fst n)) in
          let nElmtsHere := wrap (hi_ (fst n) + 1 - here) in
          if maxSize_ c <=? wrap (nElmtsFound + nElmtsHere)
          then Ret (Some (wrap (here + wrap (maxSize_ c - nElmtsFound) - 1), S count))
          else match_loop c contiguous whole false minAddr (hi_ (fst n)) (wrap (nElmtsFound + nElmtsHere)) (S count) from' after in
        if first then go
        else if singleSegment_ c then Ret (Some (addr, count))
        else if contiguous && negb (wrap (addr + 1) =? lo_ (fst n)) then Ret (Some (addr, count))
        else if negb (isSatisfied n c) then Ret (if whole then None else Some (addr, count))
        else go
    end.

(** The addresses that match, and where the nodes are: those before them, and how
    many they are. *)
Definition matchForward (amap : AddressMap) (c : Constraints) (contiguous whole : bool) : outcome (Interval * (Position Segment * nat)) :=
  let nothing := (Interval_empty, (end_of amap, O)) in
  if never_ c || IntervalMap_isEmpty amap then Ret nothing
  else
    let (begin_, minAddr) := constraintLowerBound amap c true in
    if at_end begin_ then Ret nothing
    else
      let! ' (end_, maxAddr) := constraintUpperBound amap c in
      if at_begin end_ then Ret nothing
      else
        let after := length (snd end_) in
        let! found := skip_unsatisfied c (snd begin_) after in
        match found with
        | None => Ret nothing
        | Some from =>
            if (length from =? after)%nat then Ret nothing
            else
              let skipped := firstn (length (snd begin_) - length from) (snd begin_) in
              let position := (rev_append skipped (fst begin_), from) in
              let minAddr := match from with n :: _ => Z.max minAddr (lo_ (fst n)) | [] => minAddr end in
              if contiguous || hasNonAddressConstraints c then
                let! m := match_loop c contiguous whole true minAddr minAddr 0 O from after in
                match m with
                | None => Ret nothing
                | Some (addr, count) => Ret (hull minAddr (Z.min maxAddr addr), (position, count))
                end
              else Ret (hull minAddr maxAddr, (position, (length from - after)%nat))
        end.

(** * Reading and writing *)

Definition AddressMap_next (amap : AddressMap) (c : Constraints) : outcome (option Z) :=
  let! ' (i, _) := matchForward amap (c_limit 1 c) true false in Ret (if Interval_isEmpty i then None else Some (lo_ i)).
Definition AddressMap_exists (amap : AddressMap) (c : Constraints) : outcome bool :=
  let! r := AddressMap_next amap c in Ret (match r with Some _ => true | None => false end).
Definition AddressMap_available (amap : AddressMap) (c : Constraints) : outcome Interval :=
  let! ' (i, _) := matchForward amap c true false in Ret i.

(** The part of a node in an interval, and its place in the buffer. *)
Definition part_of (i : Interval) (n : Node Segment) : outcome (Interval * Z) :=
  let part := Interval_intersection i (fst n) in
  assert! negb (Interval_isEmpty part) else AssertFail in
  Ret (part, wrap (wrap (lo_ part - lo_ (fst n)) + offset_ (snd n))).

Fixpoint read_loop (h : Heap) (i : Interval) (count : nat) (from : list (Node Segment)) : outcome (list Z) :=
  match count, from with
  | O, _ => Ret []
  | S _, [] => Fail Undefined
  | S count, n :: from =>
      let! ' (part, bufferOffset) := part_of i n in
      let! b := heap_get (buffer_ (snd n)) h in
      let here := buffer_read b bufferOffset (Interval_size w part) in
      assert! Z.of_nat (length here) =? Interval_size w part else AssertFail in
      let! rest := read_loop h i count from in
      Ret (here ++ rest)
  end.
Definition AddressMap_read (h : Heap) (amap : AddressMap) (c : Constraints) : outcome (list Z * Interval) :=
  let! ' (i, (position, count)) := matchForward amap c true false in
  let! buf := read_loop h i count (snd position) in Ret (buf, i).

Definition with_buffer (p : Z) (s : Segment) : Segment :=
  {| buffer_ := p; offset_ := offset_ s; accessibility_ := accessibility_ s; name_ := name_ s |}.
(** Segments of the buffer, from a node on, have the copy. *)
Definition repoint (old new : Z) (l : list (Node Segment)) : list (Node Segment) :=
  map (fun n => (fst n, if buffer_ (snd n) =? old then with_buffer new (snd n) else snd n)) l.

(** The buffer to write to: a copy if it is marked. *)
Definition writable_buffer (h : Heap) (from : list (Node Segment)) (p : Z) : outcome (Heap * list (Node Segment) * Z) :=
  let! b := heap_get p h in
  if copyOnWrite b then
    let! newBuffer := buffer_copy b in
    let (q, h) := heap_new newBuffer h in Ret (h, repoint p q from, q)
  else Ret (h, from, p).

(** The nodes that were visited are in [before]. *)
Fixpoint write_loop (h : Heap) (i : Interval) (count : nat) (before from : list (Node Segment)) (buf : list Z) (totalWritten : Z) :
  outcome (Heap * list (Node Segment) * Interval) :=
  match count, from with
  | O, _ => Ret (h, rev_append before from, i)
  | S _, [] => Fail Undefined
  | S count, n :: _ =>
      let! ' (part, bufferOffset) := part_of i n in
      let! ' (h, from, p) := writable_buffer h from (buffer_ (snd n)) in
      let! b := heap_get p h in
      let (nValues, b) := buffer_write b buf bufferOffset (Interval_size w part) in
      let h := heap_set p b h in
      if nValues =? 0 then let! written := Interval_baseSize w (lo_ i) totalWritten in Ret (h, rev_append before from, written)
      else
        assert! nValues =? Interval_size w part else AssertFail in
        match from with
        | [] => Fail Undefined
        | n :: from => write_loop h i count (n :: before) from (skipn (Z.to_nat nValues) buf) (totalWritten + nValues)
        end
  end.
Definition AddressMap_write (h : Heap) (amap : AddressMap) (buf : list Z) (c : Constraints) : outcome (Heap * AddressMap * Interval) :=
  let! ' (i, (position, count)) := matchForward amap (c_prohibit IMMUTABLE c) true false in
  let! ' (h, nodes, written) := write_loop h i count (fst position) (snd position) buf 0 in
  Ret (h, {| map_ := nodes; size_ := size_ amap |}, written).

(** [AddressMap(const AddressMap&, bool copyOnWrite)] *)
Definition mark_copyOnWrite (s : Segment) (h : Heap) : Heap :=
  match buffers h !! buffer_ s with Some b => heap_set (buffer_ s) {| values_ := values_ b; copyOnWrite := true |} h | None => h end.
Definition AddressMap_copy (h : Heap) (other : AddressMap) (cow : bool) : Heap * AddressMap :=
  (if cow then fold_left (fun h n => mark_copyOnWrite (snd n) h) (map_ other) h else h, other).
