(* ===== verification/SawyerSpaceFacts.v ===== *)
(** Facts about address spaces with storage: what is matched, read and written at
    one address, and what a write does to the other addresses of the map and to
    other maps that share its buffers. *)
From S2P Require Import Prelude SawyerInterval SawyerIntervalMap SawyerMapFacts SawyerMapTheorems SawyerAddressMap SawyerAddressSpace.
From Stdlib Require Import String.
From stdpp Require Import gmap.
Open Scope Z_scope.

Definition lt64 : 0 < 64 := eq_refl.
#[export] Instance lawful_addresses : LawfulPolicy 64 Segment Place := SegmentMergePolicy_lawful 64 lt64.

#[local] Notation wrap x := (x mod 2 ^ 64).
#[local] Notation contents := (contents 64).
#[local] Notation wf := (wf 64).

(** * Buffers *)

Definition byte_ok (v : Z) : Prop := 0 <= v < 256.

Lemma read_one b a : 0 <= a -> match values_ b !! Z.to_nat a with Some v => buffer_read b a 1 = [v] | None => True end.
Proof.
  intros Ha. destruct (_ !! _) as [v|] eqn:E; [|exact I]. pose proof (lookup_lt_Some _ _ _ E) as Hl.
  unfold buffer_read, available, buffer_size. rewrite (proj2 (Z.ltb_lt a _)), Z.min_l by lia. cbn [Z.ltb Z.compare].
  change (Z.to_nat 1) with 1%nat. now rewrite (drop_S _ _ _ E).
Qed.

Lemma write_one b a v : 0 <= a -> (Z.to_nat a < length (values_ b))%nat ->
  buffer_write b [v] a 1 = (1, {| values_ := <[Z.to_nat a := v]> (values_ b); copyOnWrite := copyOnWrite b |}).
Proof.
  intros Ha Hl. unfold buffer_write, available, buffer_size. rewrite (proj2 (Z.ltb_lt a _)), Z.min_l by lia. cbn [Z.ltb Z.compare].
  change (Z.to_nat 1) with 1%nat. cbn [firstn]. rewrite insert_take_drop by assumption. do 3 f_equal. cbn [app]. now rewrite Nat.add_1_r.
Qed.

Lemma copy_ok b : buffer_copy b = Ret {| values_ := values_ b; copyOnWrite := false |}.
Proof.
  assert (Hs : buffer_size (buffer_instance (buffer_size b)) = buffer_size b).
  { unfold buffer_size at 1. cbn [values_ buffer_instance]. rewrite repeat_length. unfold buffer_size. now rewrite Nat2Z.id. }
  unfold buffer_copy, buffer_write, available. rewrite Hs, Z.sub_0_r. destruct (values_ b) as [|x l] eqn:E.
  { unfold buffer_size in *. rewrite E. reflexivity. }
  assert (Hn : 0 < buffer_size b) by (unfold buffer_size; rewrite E; cbn [length]; lia).
  rewrite (proj2 (Z.ltb_lt 0 (buffer_size b)) Hn), Z.min_id, (proj2 (Z.ltb_lt 0 (buffer_size b)) Hn), Z.eqb_refl. cbn [negb]. rewrite <- E.
  do 2 f_equal. change (Z.to_nat 0) with O. unfold buffer_size, buffer_instance. cbn [firstn app Nat.add values_].
  rewrite Nat2Z.id, firstn_all, skipn_all2, app_nil_r by (rewrite repeat_length; lia). reflexivity.
Qed.

(** * Matching one address *)

Lemma contains_nothing s : contains_string s EmptyString = true.
Proof. now destruct s. Qed.

(** The constraints of one address, without access of some kind. *)
Definition one (x prohibited : Z) : Constraints := mkConstraints false None None (Some (Interval_singleton x)) 1 false 0 prohibited EmptyString [].

Lemma at_one_ok x : c_limit 1 (c_at x unconstrained) = one x 0.
Proof.
  unfold c_at. cbn [anchored_ unconstrained]. replace (Interval_isEmpty (Interval_singleton x)) with false; [reflexivity|].
  unfold Interval_isEmpty. cbn [lo_ hi_ Interval_singleton]. case_cmp; cbn [andb]; reflexivity || lia.
Qed.

Lemma satisfied_one n x p : isSatisfied n (one x p) = (0 =? Z.land (accessibility_ (snd n)) p).
Proof. unfold isSatisfied, isAccessible. cbn [requiredAccess_ prohibitedAccess_ nameSubstring_ segmentPredicates_ one fold_left]. now rewrite Z.land_0_r, contains_nothing, !andb_true_r. Qed.

(** A segment that is not the whole address space. *)
Lemma match_one x p (m : AddressMap) : wf m -> 0 <= x <= const_max 64 ->
  match contents (map_ m) x with
  | Some pl =>
      exists l1 k s l2, map_ m = l1 ++ (k, s) :: l2 /\ member x k /\ pl = place 64 k s x /\
        (place_accessibility pl = accessibility_ s) /\
        (lo_ k <> 0 \/ hi_ k <> const_max 64 -> Z.land (accessibility_ s) p = 0 ->
         matchForward m (one x p) true false = Ret (Interval_singleton x, ((rev l1, (k, s) :: l2), 1%nat)))
  | None => exists at_, matchForward m (one x p) true false = Ret (Interval_empty, (at_, O))
  end.
Proof.
  intros [Hc Hs] Hx. unfold matchForward. cbn [never_ one orb]. destruct (IntervalMap_isEmpty m) eqn:Ee.
  { destruct (map_ m) eqn:Em; [|unfold IntervalMap_isEmpty in Ee; now rewrite Em in Ee]. cbn [SawyerMapFacts.contents]. eauto. }
  unfold constraintLowerBound. rewrite Ee. cbn [orb never_ one anchored_ least_ greatest_ lo_ Interval_singleton].
  destruct (lowerBound_spec x m) as (l1 & from & El & Em & Hb & Hf). rewrite El. pose proof Hc as Hc'. rewrite Em in Hc'.
  pose proof Hc' as Hc2. apply chain_app in Hc2 as [H1 H2]. apply (before_upper 64 0) in Hb; [|assumption|lia].
  rewrite Em, (contents_app 64 0 l1 from), (proj2 (Z.ltb_ge _ _)) by assumption.
  destruct from as [|[k s] l2]; [cbn; eauto|]. rewrite node_at_cons. cbn [fst lo_] in *. destruct H2 as (_ & Hp & H2).
  cbn [SawyerMapFacts.contents]. destruct (Z.ltb_spec x (lo_ k)) as [Hlt|Hge].
  { destruct (memberb_spec x k) as [M|_]; [unfold member in M; lia|]. rewrite (contents_below 64 (hi_ k + 1)) by (assumption || (unfold proper in Hp; lia)).
    cbn [at_end end_of snd]. eauto. }
  rewrite memberb_in by now split. exists l1, k, s, l2. split; [reflexivity|]. split; [now split|]. split; [reflexivity|]. split; [reflexivity|].
  intros Hk Hacc. cbn [at_end snd]. unfold constraintUpperBound. rewrite Ee. cbn [orb never_ one greatest_].
  unfold IntervalMap_greatest, end_of. rewrite Em, rev_app_distr. cbn [rev]. match goal with |- context [?a ++ rev l1] => destruct a as [|n r] eqn:Er; [now destruct (rev l2)|] end.
  cbn [app obind at_begin fst snd length Nat.eqb]. cbn [skip_unsatisfied length Nat.eqb].
  rewrite satisfied_one. cbn [snd]. rewrite Hacc. cbn [Z.eqb obind length Nat.eqb].
  rewrite Nat.sub_diag. cbn [firstn rev_append match_loop length Nat.eqb]. cbn [fst maxSize_ one lo_]. unfold proper, const_max in *.
  rewrite Z.max_l by lia. rewrite Z.max_l by lia. rewrite Z.add_0_l, Zmod_mod.
  assert (Hsize : 0 < wrap (hi_ k + 1 - x)) by (rewrite Z.mod_small; lia). rewrite (proj2 (Z.leb_le 1 _)) by lia. cbn [obind].
  change (wrap (1 - 0)) with 1. replace (x + 1 - 1) with x by lia. rewrite Z.mod_small by lia.
  assert (Hg : x <= hi_ (fst n)).
  { assert (Hin : In n ((k, s) :: l2)) by (apply in_rev; exact (eq_ind_r (fun z => In n z) (in_eq n r) Er)).
    destruct Hin as [<-|Hin]; [assumption|]. pose proof (chain_Forall 64 _ _ H2) as F2. rewrite Forall_forall in F2.
    specialize (F2 n ltac:(now apply list_elem_of_In)). unfold proper in *. lia. }
  rewrite Z.min_r by assumption. unfold Interval_hull. now rewrite Z.min_id, Z.max_id.
Qed.

(** * Bytes *)

Definition heap_ok (h : Heap) : Prop :=
  forall p b, buffers h !! p = Some b -> p < nextBuffer h /\ Z.of_nat (length (values_ b)) < 2 ^ 64 /\ Forall byte_ok (values_ b).

(** The byte at a place, and at an address. *)
Definition byte_in (h : Heap) (pl : Place) : option Z := b ← buffers h !! place_buffer pl; values_ b !! Z.to_nat (place_offset pl).
Definition byte_at (h : Heap) (m : AddressMap) (x : Z) : option Z := pl ← contents (map_ m) x; byte_in h pl.

(** Every address has a place of its own, in storage that may be written. *)
Definition stored_in (h : Heap) (pl : Place) : Prop :=
  Z.land (place_accessibility pl) IMMUTABLE = 0 /\
  exists b, buffers h !! place_buffer pl = Some b /\ place_offset pl < Z.of_nat (length (values_ b)).
Record space_ok (h : Heap) (m : AddressMap) : Prop := {
  space_heap : heap_ok h;
  space_wf : wf m;
  space_stored : forall x pl, contents (map_ m) x = Some pl -> stored_in h pl;
  space_own : forall x y p q, contents (map_ m) x = Some p -> contents (map_ m) y = Some q ->
    place_buffer p = place_buffer q -> place_offset p = place_offset q -> x = y
}.

(** Buffers that two maps share are marked to be copied. *)
Definition separate (h : Heap) (m o : AddressMap) : Prop :=
  forall x y p q, contents (map_ m) x = Some p -> contents (map_ o) y = Some q -> place_buffer p = place_buffer q ->
  exists b, buffers h !! place_buffer p = Some b /\ copyOnWrite b = true.

Lemma separate_sym h m o : separate h m o -> separate h o m.
Proof. intros H x y p q Hp Hq E. rewrite E. eapply H; [exact Hq|exact Hp|congruence]. Qed.

Lemma place_offset_nonneg m x pl : contents m x = Some pl -> 0 <= place_offset pl < 2 ^ 64.
Proof. intros H. apply contents_Some in H as (k & s & _ & _ & <-). apply Z.mod_pos_bound. lia. Qed.

Lemma mapped_byte h m x : space_ok h m -> byte_at h m x = None <-> contents (map_ m) x = None.
Proof.
  intros H. unfold byte_at. destruct (contents (map_ m) x) as [pl|] eqn:E; [|easy]. cbn. split; [|discriminate]. intros Hn.
  destruct (space_stored _ _ H x pl E) as (_ & b & Hb & Hl). unfold byte_in in Hn. rewrite Hb in Hn. cbn in Hn.
  apply place_offset_nonneg in E. apply lookup_ge_None in Hn. lia.
Qed.

Lemma byte_at_ok h m x v : space_ok h m -> byte_at h m x = Some v -> byte_ok v.
Proof.
  intros H E. unfold byte_at in E. apply bind_Some in E as (pl & _ & E). unfold byte_in in E. apply bind_Some in E as (b & Hb & E).
  destruct (space_heap _ _ H _ _ Hb) as (_ & _ & Hf). rewrite Forall_forall in Hf. apply Hf. now apply list_elem_of_lookup_2 in E.
Qed.

(** No segment is the whole address space: its buffer would be too long. *)
Lemma not_whole h m k s x : space_ok h m -> In (k, s) (map_ m) -> member x k -> lo_ k <> 0 \/ hi_ k <> const_max 64.
Proof.
  intros H Hin Hx. destruct (Z.eq_dec (lo_ k) 0) as [E0|]; [|now left]. destruct (Z.eq_dec (hi_ k) (const_max 64)) as [E1|]; [|now right].
  exfalso. unfold const_max in E1. set (y := wrap (- 1 - offset_ s)). assert (Hy : 0 <= y < 2 ^ 64) by (apply Z.mod_pos_bound; lia).
  assert (Hm : member y k) by (unfold member; lia). pose proof (space_wf _ _ H) as [Hc _].
  pose proof (contents_In 64 0 _ k s y Hc Hin Hm) as E. destruct (space_stored _ _ H y _ E) as (_ & b & Hb & Hl).
  destruct (space_heap _ _ H _ _ Hb) as (_ & Hlen & _). unfold place in Hl. cbn [SawyerMapFacts.holds lawful_addresses place_offset] in Hl.
  cbn [SegmentMergePolicy_lawful] in Hl. change (wrap (offset_ s + (y - lo_ k)) < Z.of_nat (length (values_ b))) in Hl.
  unfold y in Hl. rewrite E0, Z.sub_0_r, Zplus_mod_idemp_r in Hl. replace (offset_ s + (-1 - offset_ s)) with (-1) in Hl by lia.
  change (wrap (-1)) with (2 ^ 64 - 1) in Hl. lia.
Qed.

(** The node of an address is matched, whatever access is prohibited that it lacks. *)
Lemma match_at h m x p pl : space_ok h m -> 0 <= x <= const_max 64 -> contents (map_ m) x = Some pl -> p = 0 \/ p = IMMUTABLE ->
  exists l1 k s l2, map_ m = l1 ++ (k, s) :: l2 /\ member x k /\ pl = place 64 k s x /\
    matchForward m (one x p) true false = Ret (Interval_singleton x, ((rev l1, (k, s) :: l2), 1%nat)).
Proof.
  intros H Hx E Hp. pose proof (match_one x p m (space_wf _ _ H) Hx) as Hm. rewrite E in Hm. destruct Hm as (l1 & k & s & l2 & Em & Hk & Epl & Eacc & Hm).
  exists l1, k, s, l2. split; [assumption|]. split; [assumption|]. split; [assumption|]. apply Hm.
  - apply (not_whole h m k s x H); [rewrite Em; apply in_or_app; right; now left|assumption].
  - destruct (space_stored _ _ H x pl E) as [Ha _]. rewrite Eacc in Ha. destruct Hp as [->| ->]; [now rewrite Z.land_0_r|assumption].
Qed.

Lemma exists_ok h m x : space_ok h m -> 0 <= x <= const_max 64 ->
  AddressMap_exists m (c_at x unconstrained) = Ret (match byte_at h m x with Some _ => true | None => false end).
Proof.
  intros H Hx. unfold AddressMap_exists, AddressMap_next. rewrite at_one_ok. destruct (contents (map_ m) x) as [pl|] eqn:E.
  - destruct (match_at h m x 0 pl H Hx E (or_introl eq_refl)) as (l1 & k & s & l2 & _ & _ & _ & ->). cbn [obind].
    replace (Interval_isEmpty (Interval_singleton x)) with false by (unfold Interval_isEmpty; cbn [lo_ hi_ Interval_singleton]; case_cmp; cbn [andb]; reflexivity || lia).
    cbn [obind]. destruct (byte_at h m x) eqn:Eb; [reflexivity|]. apply (mapped_byte h m x H) in Eb. congruence.
  - pose proof (match_one x 0 m (space_wf _ _ H) Hx) as Hm. rewrite E in Hm. destruct Hm as (a & ->). cbn [obind].
    apply (mapped_byte h m x H) in E. now rewrite E.
Qed.

Lemma part_of_one x k s : member x k -> part_of (Interval_singleton x) (k, s) = Ret (Interval_singleton x, place_offset (place 64 k s x)).
Proof.
  unfold member. intros Hx. unfold part_of. cbn [fst snd]. assert (He : forall i, lo_ i <= hi_ i -> Interval_isEmpty i = false).
  { intros i Hi. unfold Interval_isEmpty. case_cmp; cbn [andb]; reflexivity || lia. }
  assert (E : Interval_intersection (Interval_singleton x) k = Interval_singleton x).
  { unfold Interval_intersection. rewrite !He by (cbn; lia). cbn [orb lo_ hi_ Interval_singleton]. rewrite !(proj2 (Z.ltb_ge _ _)) by lia. cbn [orb].
    rewrite Z.max_l, Z.min_l by lia. unfold Interval_hull, Interval_singleton. now rewrite Z.min_id, Z.max_id. }
  rewrite E, He by (cbn; lia). cbn [negb require_ obind lo_ Interval_singleton place_offset place]. do 2 f_equal.
  rewrite Zplus_mod_idemp_l. f_equal. lia.
Qed.

Lemma size_one x : Interval_size 64 (Interval_singleton x) = 1.
Proof.
  unfold Interval_size. replace (Interval_isEmpty (Interval_singleton x)) with false
    by (unfold Interval_isEmpty; cbn [lo_ hi_ Interval_singleton]; case_cmp; cbn [andb]; reflexivity || lia).
  cbn [lo_ hi_ Interval_singleton]. rewrite Z.sub_diag. reflexivity.
Qed.

(** Reading one address. *)
Lemma read_at h m x v : space_ok h m -> 0 <= x <= const_max 64 -> byte_at h m x = Some v ->
  AddressMap_read h m (one x 0) = Ret ([v], Interval_singleton x).
Proof.
  intros H Hx Hv. unfold byte_at in Hv. apply bind_Some in Hv as (pl & E & Hv).
  destruct (match_at h m x 0 pl H Hx E (or_introl eq_refl)) as (l1 & k & s & l2 & _ & Hk & Epl & Em). unfold AddressMap_read. rewrite Em.
  cbn [obind snd read_loop]. rewrite part_of_one by assumption. rewrite <- Epl. cbn [obind snd].
  unfold byte_in in Hv. apply bind_Some in Hv as (b & Hb & Hv). assert (Eb : place_buffer pl = buffer_ s) by now rewrite Epl.
  unfold heap_get. rewrite <- Eb, Hb. cbn [obind]. rewrite size_one. pose proof (place_offset_nonneg _ _ _ E) as Ho.
  pose proof (read_one b (place_offset pl) ltac:(lia)) as Hr. rewrite Hv in Hr. rewrite Hr. reflexivity.
Qed.

(** * Writing one address *)

(** Segments with another buffer. *)
Definition moved (o n : Z) (pl : Place) : Place :=
  if place_buffer pl =? o
  then {| place_buffer := n; place_offset := place_offset pl; place_accessibility := place_accessibility pl; place_name := place_name pl |}
  else pl.

Lemma contents_repoint o n l y : contents (repoint o n l) y = option_map (moved o n) (contents l y).
Proof.
  induction l as [|[k s] l IH]; [reflexivity|]. cbn. destruct (memberb y k); [|exact IH]. cbn. f_equal. unfold moved. cbn.
  now destruct (buffer_ s =? o).
Qed.
Lemma chain_repoint b o n l : chain 64 b (repoint o n l) <-> chain 64 b l.
Proof. revert b. induction l as [|[k s] l IH]; intros b; [reflexivity|]. cbn. now rewrite IH. Qed.
Lemma total_repoint o n l : SawyerMapFacts.total (repoint o n l) = SawyerMapFacts.total l.
Proof. induction l as [|[k s] l IH]; [reflexivity|]. cbn. f_equal. exact IH. Qed.

(** The map after the segments from a node on have another buffer. *)
Definition moved_from (l1 from : list (Node Segment)) (o n : Z) (m : AddressMap) : AddressMap := {| map_ := l1 ++ repoint o n from; size_ := size_ m |}.

Lemma contents_moved m l1 from o n y : wf m -> map_ m = l1 ++ from ->
  contents (map_ (moved_from l1 from o n m)) y = contents (map_ m) y \/
  contents (map_ (moved_from l1 from o n m)) y = option_map (moved o n) (contents (map_ m) y).
Proof.
  intros [Hc _] Em. cbn [map_ moved_from]. rewrite Em in *. pose proof Hc as Hc'. apply chain_app in Hc' as [H1 H2].
  rewrite (contents_app 64 0 l1 from), (contents_app 64 0 l1 (repoint o n from)) by (try (apply chain_app; rewrite chain_repoint); easy).
  destruct (y <? upper 0 l1); [now left|]. right. apply contents_repoint.
Qed.

Lemma wf_moved m l1 from o n : wf m -> map_ m = l1 ++ from -> wf (moved_from l1 from o n m).
Proof.
  intros [Hc Hs] Em. rewrite Em in *. unfold wf, SawyerMapFacts.wf. cbn [map_ size_ moved_from]. rewrite Hs, !total_app, total_repoint. split; [|reflexivity].
  apply chain_app in Hc as [H1 H2]. apply chain_app. split; [assumption|]. now apply chain_repoint.
Qed.

(** A copy of a buffer, for the segments from a node on. *)
Section Copy.
Context (h : Heap) (m : AddressMap) (p : Z) (b : Buffer) (l1 from : list (Node Segment)).
Hypothesis Hok : space_ok h m.
Hypothesis Hb : buffers h !! p = Some b.
Hypothesis Em : map_ m = l1 ++ from.
Let q := nextBuffer h.
Let h' := mkHeap (<[q := {| values_ := values_ b; copyOnWrite := false |}]> (buffers h)) (nextBuffer h + 1).
Let m' := moved_from l1 from p q m.

Lemma old_buffer r c : buffers h !! r = Some c -> r <> q /\ buffers h' !! r = Some c.
Proof. intros Hr. destruct (space_heap _ _ Hok _ _ Hr) as (Hlt & _). split; [unfold q; lia|]. cbn. rewrite lookup_insert_ne; [assumption|unfold q; lia]. Qed.

Lemma copied_heap : heap_ok h'.
Proof.
  intros r c Hr. cbn in Hr. destruct (decide (r = q)) as [->|Hne].
  - rewrite lookup_insert_eq in Hr. injection Hr as <-. destruct (space_heap _ _ Hok _ _ Hb) as (_ & Hl & Hf). cbn. split; [unfold q; lia|now split].
  - rewrite lookup_insert_ne in Hr by congruence. destruct (space_heap _ _ Hok _ _ Hr) as (Hlt & Hl & Hf). cbn. split; [lia|now split].
Qed.

(** The place of an address: as it was, or at the same offset in the copy. *)
Lemma copied_place y r : contents (map_ m') y = Some r ->
  exists r0, contents (map_ m) y = Some r0 /\ place_offset r = place_offset r0 /\ place_accessibility r = place_accessibility r0 /\
    (r = r0 \/ place_buffer r0 = p /\ place_buffer r = q).
Proof.
  intros Hr. destruct (contents_moved m l1 from p q y (space_wf _ _ Hok) Em) as [E|E]; fold m' in E; rewrite E in Hr.
  - exists r. split; [assumption|]. split; [reflexivity|]. split; [reflexivity|now left].
  - destruct (contents (map_ m) y) as [r0|]; [|discriminate]. injection Hr as <-. exists r0. split; [reflexivity|]. unfold moved.
    destruct (Z.eqb_spec (place_buffer r0) p); cbn; (split; [reflexivity|]; split; [reflexivity|]); [now right|now left].
Qed.

Lemma copied_byte r r0 : stored_in h r0 -> place_offset r = place_offset r0 -> (r = r0 \/ place_buffer r0 = p /\ place_buffer r = q) ->
  byte_in h' r = byte_in h r0.
Proof.
  intros (_ & c & Hc & _) Ho Hr. unfold byte_in. rewrite Ho, Hc. destruct Hr as [->|[E E']].
  - now rewrite (proj2 (old_buffer _ _ Hc)).
  - rewrite E in Hc. rewrite E'. cbn. rewrite lookup_insert_eq. rewrite Hc in Hb. injection Hb as ->. reflexivity.
Qed.

Lemma copied_ok : space_ok h' m' /\ forall y, byte_at h' m' y = byte_at h m y.
Proof.
  assert (Hs : forall y r, contents (map_ m') y = Some r -> stored_in h' r).
  { intros y r Hr. destruct (copied_place y r Hr) as (r0 & E & Ho & Ha & Hd). destruct (space_stored _ _ Hok y r0 E) as (Hacc & c & Hc & Hl).
    split; [congruence|]. rewrite Ho. destruct Hd as [->|[E1 E2]].
    - exists c. split; [now apply old_buffer|assumption].
    - rewrite E1, Hb in Hc. injection Hc as <-. eexists. rewrite E2. cbn. rewrite lookup_insert_eq. split; [reflexivity|assumption]. }
  split.
  - split; [apply copied_heap|exact (wf_moved _ _ _ _ _ (space_wf _ _ Hok) Em)|assumption|].
    intros x y r1 r2 H1 H2 Eb Eo. destruct (copied_place x r1 H1) as (s1 & E1 & O1 & _ & D1), (copied_place y r2 H2) as (s2 & E2 & O2 & _ & D2).
    apply (space_own _ _ Hok x y s1 s2 E1 E2); [|congruence].
    assert (Hold : forall x s, contents (map_ m) x = Some s -> place_buffer s <> q).
    { intros z s E. destruct (space_stored _ _ Hok z s E) as (_ & c & Hc & _). now apply (old_buffer _ _ Hc). }
    pose proof (Hold _ _ E1). pose proof (Hold _ _ E2). destruct D1 as [->|[]], D2 as [->|[]]; congruence.
  - intros y. unfold byte_at. destruct (contents (map_ m') y) as [r|] eqn:Er.
    + destruct (copied_place y r Er) as (r0 & E & Ho & _ & Hd). rewrite E. cbn. apply copied_byte; [now apply (space_stored _ _ Hok y)|assumption..].
    + destruct (contents_moved m l1 from p q y (space_wf _ _ Hok) Em) as [E|E]; fold m' in E; rewrite Er in E; [now rewrite <- E|].
      destruct (contents (map_ m) y); [discriminate|reflexivity].
Qed.

(** Another map sees nothing of that, and nothing of the copy. *)
Lemma copied_other o : space_ok h o -> separate h m o ->
  space_ok h' o /\ separate h' m' o /\ (forall y, byte_at h' o y = byte_at h o y) /\ forall y r, contents (map_ o) y = Some r -> place_buffer r <> q.
Proof.
  intros Ho Hsep. assert (Hq : forall y r, contents (map_ o) y = Some r -> place_buffer r <> q /\ buffers h' !! place_buffer r = buffers h !! place_buffer r).
  { intros y r E. destruct (space_stored _ _ Ho y r E) as (_ & c & Hc & _). destruct (old_buffer _ _ Hc) as [Hne E']. split; [assumption|congruence]. }
  split; [|split; [|split]].
  - split; [apply copied_heap|apply Ho| |apply Ho]. intros y r E. destruct (space_stored _ _ Ho y r E) as (Ha & c & Hc & Hl). split; [assumption|].
    exists c. split; [now apply old_buffer|assumption].
  - intros x y r1 r2 H1 H2 Eb. destruct (Hq _ _ H2) as [Hne E']. destruct (copied_place x r1 H1) as (s1 & E1 & _ & _ & [->|[]]); [|congruence].
    destruct (Hsep x y s1 r2 E1 H2 Eb) as (c & Hc & Hcow). exists c. split; [now apply old_buffer|assumption].
  - intros y. unfold byte_at. destruct (contents (map_ o) y) as [r|] eqn:E; [|reflexivity]. cbn. unfold byte_in. now rewrite (proj2 (Hq y r E)).
  - intros y r E. now apply (Hq y r).
Qed.
End Copy.

(** A value for a place, in a buffer of its own. *)
Section Set_.
Context (h : Heap) (m : AddressMap) (x v : Z) (pl : Place) (b : Buffer).
Hypothesis Hok : space_ok h m.
Hypothesis Hv : byte_ok v.
Hypothesis Hpl : contents (map_ m) x = Some pl.
Hypothesis Hb : buffers h !! place_buffer pl = Some b.
Let c := {| values_ := <[Z.to_nat (place_offset pl) := v]> (values_ b); copyOnWrite := copyOnWrite b |}.
Let h' := heap_set (place_buffer pl) c h.

Lemma set_buffer r d : buffers h !! r = Some d -> exists d', buffers h' !! r = Some d' /\ length (values_ d') = length (values_ d) /\ copyOnWrite d' = copyOnWrite d.
Proof.
  intros Hd. cbn. destruct (decide (r = place_buffer pl)) as [->|Hne].
  - rewrite lookup_insert_eq. rewrite Hd in Hb. injection Hb as ->. eexists. split; [reflexivity|]. cbn. now rewrite length_insert.
  - rewrite lookup_insert_ne by congruence. now exists d.
Qed.

Lemma set_heap : heap_ok h'.
Proof.
  intros r d Hd. cbn in Hd. destruct (decide (r = place_buffer pl)) as [->|Hne].
  - rewrite lookup_insert_eq in Hd. injection Hd as <-. destruct (space_heap _ _ Hok _ _ Hb) as (Hlt & Hl & Hf). cbn.
    rewrite length_insert. split; [assumption|]. split; [assumption|]. now apply Forall_insert.
  - rewrite lookup_insert_ne in Hd by congruence. now apply (space_heap _ _ Hok).
Qed.

Lemma set_space o : space_ok h o -> space_ok h' o.
Proof.
  intros Ho. split; [apply set_heap|apply Ho| |apply Ho]. intros y r E. destruct (space_stored _ _ Ho y r E) as (Ha & d & Hd & Hl).
  split; [assumption|]. destruct (set_buffer _ _ Hd) as (d' & Hd' & El & _). exists d'. split; [assumption|]. now rewrite El.
Qed.

Lemma set_bytes y : byte_at h' m y = if y =? x then Some v else byte_at h m y.
Proof.
  destruct (space_stored _ _ Hok x pl Hpl) as (_ & b' & Hb' & Hl). rewrite Hb in Hb'. injection Hb' as <-.
  unfold byte_at. destruct (Z.eqb_spec y x) as [->|Hne].
  - rewrite Hpl. cbn. unfold byte_in. cbn. rewrite lookup_insert_eq. cbn. apply list_lookup_insert_eq. pose proof (place_offset_nonneg _ _ _ Hpl). lia.
  - destruct (contents (map_ m) y) as [r|] eqn:E; [|reflexivity]. cbn. unfold byte_in. cbn. destruct (decide (place_buffer r = place_buffer pl)) as [Er|Er].
    + rewrite Er, lookup_insert_eq, Hb. cbn. apply list_lookup_insert_ne. intros En. apply Hne. apply (space_own _ _ Hok y x r pl E Hpl Er).
      pose proof (place_offset_nonneg _ _ _ Hpl). pose proof (place_offset_nonneg _ _ _ E). lia.
    + now rewrite lookup_insert_ne by congruence.
Qed.

Lemma set_other o : space_ok h o -> separate h m o -> (forall y r, contents (map_ o) y = Some r -> place_buffer r <> place_buffer pl) ->
  separate h' m o /\ forall y, byte_at h' o y = byte_at h o y.
Proof.
  intros Ho Hsep Hne. split.
  - intros x1 y p q Hp Hq E. destruct (Hsep x1 y p q Hp Hq E) as (d & Hd & Hcow). destruct (set_buffer _ _ Hd) as (d' & Hd' & _ & Ec).
    exists d'. split; [assumption|congruence].
  - intros y. unfold byte_at. destruct (contents (map_ o) y) as [r|] eqn:E; [|reflexivity]. cbn. unfold byte_in. cbn.
    now rewrite lookup_insert_ne by (symmetry; exact (Hne y r E)).
Qed.
End Set_.

(** What a map and the heap become: the bytes are [g], and another map that is
    separate stays so, with its bytes. *)
Definition evolves (h : Heap) (m : AddressMap) (h' : Heap) (m' : AddressMap) (g : Z -> option Z) : Prop :=
  space_ok h' m' /\ (forall y, byte_at h' m' y = g y) /\
  forall o, space_ok h o -> separate h m o -> space_ok h' o /\ separate h' m' o /\ forall y, byte_at h' o y = byte_at h o y.

Lemma map_eta (m : AddressMap) l : map_ m = l -> {| map_ := l; size_ := size_ m |} = m.
Proof. intros <-. now destruct m. Qed.

(** What is done to the node of the address. *)
Lemma write_node h x v l1 k s l2 b n h1 from1 : member x k -> 0 <= n -> (Z.to_nat n < length (values_ b))%nat ->
  n = place_offset (place 64 k s x) -> buffers h1 !! buffer_ (snd (hd (k, s) from1)) = Some b -> from1 <> [] ->
  writable_buffer h ((k, s) :: l2) (buffer_ s) = Ret (h1, from1, buffer_ (snd (hd (k, s) from1))) ->
  write_loop h (Interval_singleton x) 1 (rev l1) ((k, s) :: l2) [v] 0 =
    Ret (heap_set (buffer_ (snd (hd (k, s) from1))) {| values_ := <[Z.to_nat n := v]> (values_ b); copyOnWrite := copyOnWrite b |} h1,
         l1 ++ from1, Interval_singleton x).
Proof.
  intros Hk Hn Hl En Hb Hne Hw. cbn [write_loop]. rewrite part_of_one by assumption. cbn [obind fst snd]. rewrite Hw. cbn [obind fst snd].
  unfold heap_get. rewrite Hb. cbn [obind]. rewrite size_one, <- En, write_one by assumption. cbn [Z.eqb require_ obind fst snd].
  destruct from1 as [|n1 from1]; [contradiction|]. cbn [Pos.eqb require_ obind]. rewrite rev_append_rev. cbn [rev]. rewrite rev_involutive, <- app_assoc. reflexivity.
Qed.

#[local] Ltac node_written H := eexists _, _; split; [etransitivity; [exact (f_equal (fun r => obind r _) H)|reflexivity]|].

Lemma write_at h m x v : space_ok h m -> 0 <= x <= const_max 64 -> byte_ok v -> byte_at h m x <> None ->
  exists h' m', AddressMap_write h m [v] (one x 0) = Ret (h', m', Interval_singleton x) /\ evolves h m h' m' (fun y => if y =? x then Some v else byte_at h m y).
Proof.
  intros H Hx Hv Hm. destruct (contents (map_ m) x) as [pl|] eqn:E; [|elim Hm; now apply (mapped_byte h m x H)].
  destruct (match_at h m x IMMUTABLE pl H Hx E (or_intror eq_refl)) as (l1 & k & s & l2 & Em & Hk & Epl & Ematch).
  destruct (space_stored _ _ H x pl E) as (_ & b & Hb & Hl). pose proof (place_offset_nonneg _ _ _ E) as Ho.
  assert (Hlen : (Z.to_nat (place_offset pl) < length (values_ b))%nat) by lia. assert (Eb : place_buffer pl = buffer_ s) by now rewrite Epl.
  unfold AddressMap_write. change (c_prohibit IMMUTABLE (one x 0)) with (one x IMMUTABLE). rewrite Ematch. cbn [obind fst snd].
  destruct (copyOnWrite b) eqn:Ecow.
  - (* a copy is made *)
    set (q := nextBuffer h). set (h1 := mkHeap (<[q := {| values_ := values_ b; copyOnWrite := false |}]> (buffers h)) (nextBuffer h + 1)).
    set (m1 := moved_from l1 ((k, s) :: l2) (place_buffer pl) q m).
    assert (Hw : writable_buffer h ((k, s) :: l2) (buffer_ s) = Ret (h1, repoint (buffer_ s) q ((k, s) :: l2), buffer_ (snd (hd (k, s) (repoint (buffer_ s) q ((k, s) :: l2)))))).
    { unfold writable_buffer, heap_get. rewrite <- Eb, Hb. cbn [obind]. rewrite Ecow, copy_ok. cbn. now rewrite Eb, Z.eqb_refl. }
    pose proof (copied_ok h m (place_buffer pl) b l1 ((k, s) :: l2) H Hb Em) as [H1 Hbytes]. fold q h1 m1 in H1, Hbytes.
    set (pl1 := {| place_buffer := q; place_offset := place_offset pl; place_accessibility := place_accessibility pl; place_name := place_name pl |}).
    set (b1 := {| values_ := values_ b; copyOnWrite := false |}) in *.
    assert (E1 : contents (map_ m1) x = Some pl1).
    { cbn [map_ m1 moved_from]. pose proof (space_wf _ _ H) as [Hc _]. rewrite Em in Hc. pose proof Hc as Hc'. apply chain_app in Hc' as [Hc1 Hc2].
      rewrite (contents_app 64 0) by (apply chain_app; rewrite chain_repoint; easy). destruct Hc2 as (Hu & _ & _).
      unfold member in Hk. rewrite (proj2 (Z.ltb_ge _ _)) by lia. rewrite contents_repoint. cbn [SawyerMapFacts.contents]. rewrite memberb_in by assumption.
      change (SawyerMapFacts.holds k s x) with (place 64 k s x). rewrite <- Epl. unfold moved. cbn [option_map]. now rewrite Z.eqb_refl. }
    assert (Hb1 : buffers h1 !! place_buffer pl1 = Some b1) by (cbn; apply lookup_insert_eq).
    node_written (write_node h x v l1 k s l2 b1 (place_offset pl) h1
      (repoint (buffer_ s) q ((k, s) :: l2)) Hk ltac:(lia) Hlen
      ltac:(now rewrite Epl) ltac:(cbn; rewrite Z.eqb_refl; exact Hb1) ltac:(discriminate) Hw).
    assert (Ehd : buffer_ (snd (hd (k, s) (repoint (buffer_ s) q ((k, s) :: l2)))) = q) by (cbn; now rewrite Z.eqb_refl).
    rewrite Ehd, <- Eb. fold (moved_from l1 ((k, s) :: l2) (place_buffer pl) q m). fold m1. split; [|split].
    + exact (set_space h1 m1 v pl1 b1 H1 Hv Hb1 m1 H1).
    + intros y. etransitivity; [exact (set_bytes h1 m1 x v pl1 b1 H1 E1 Hb1 y)|]. now rewrite Hbytes.
    + intros o Hoo Hsep. destruct (copied_other h m (place_buffer pl) b l1 ((k, s) :: l2) H Hb Em o Hoo Hsep) as (O1 & O2 & O3 & O4). fold q h1 m1 in O1, O2, O3, O4.
      destruct (set_other h1 m1 v pl1 b1 Hb1 o O1 O2 O4) as [S1 S2]. split; [exact (set_space h1 m1 v pl1 b1 H1 Hv Hb1 o O1)|].
      split; [exact S1|]. intros y. etransitivity; [exact (S2 y)|apply O3].
  - (* in place *)
    assert (Hw : writable_buffer h ((k, s) :: l2) (buffer_ s) = Ret (h, (k, s) :: l2, buffer_ s)).
    { unfold writable_buffer, heap_get. rewrite <- Eb, Hb. cbn [obind]. now rewrite Ecow. }
    node_written (write_node h x v l1 k s l2 b (place_offset pl) h ((k, s) :: l2) Hk ltac:(lia) Hlen ltac:(now rewrite Epl)
      ltac:(cbn; now rewrite <- Eb) ltac:(discriminate) Hw).
    cbn [hd fst snd]. rewrite map_eta by assumption. rewrite <- Eb. split; [|split].
    + exact (set_space h m v pl b H Hv Hb m H).
    + intros y. exact (set_bytes h m x v pl b H E Hb y).
    + intros o Hoo Hsep. assert (Hne : forall y r, contents (map_ o) y = Some r -> place_buffer r <> place_buffer pl).
      { intros y r Er Eq. destruct (Hsep x y pl r E Er (eq_sym Eq)) as (d & Hd & Hcow). congruence. }
      destruct (set_other h m v pl b Hb o Hoo Hsep Hne). split; [exact (set_space h m v pl b H Hv Hb o Hoo)|now split].
Qed.

Lemma evolves_refl h m : space_ok h m -> evolves h m h m (byte_at h m).
Proof. now split. Qed.

Lemma evolves_trans h m h1 m1 g1 h2 m2 g2 : evolves h m h1 m1 g1 -> evolves h1 m1 h2 m2 g2 -> evolves h m h2 m2 g2.
Proof.
  intros (H1 & E1 & O1) (H2 & E2 & O2). split; [assumption|]. split; [assumption|]. intros o Ho Hs.
  destruct (O1 o Ho Hs) as (Ho1 & Hs1 & Eo1). destruct (O2 o Ho1 Hs1) as (Ho2 & Hs2 & Eo2). split; [assumption|]. split; [assumption|].
  intros y. now rewrite Eo2.
Qed.

Lemma evolves_ext h m h' m' g g' : (forall y, g y = g' y) -> evolves h m h' m' g -> evolves h m h' m' g'.
Proof. intros E (H1 & H2 & H3). split; [assumption|]. split; [|assumption]. intros y. now rewrite H2. Qed.

(** * New storage *)

Lemma lookup_repeat {A} (v : A) n i : (i < n)%nat -> repeat v n !! i = Some v.
Proof. revert i. induction n as [|n IH]; intros [|i] H; cbn; try lia; [reflexivity|]. apply IH. lia. Qed.

Lemma space_empty h : heap_ok h -> space_ok h IntervalMap_empty.
Proof. intros H. split; [assumption|now apply wf_empty|intros x pl E; discriminate|intros x y p q E; discriminate]. Qed.

Section Fill.
Context (h : Heap) (m : AddressMap) (i : Interval) (acc : Z) (nm : string).
Hypothesis Hok : space_ok h m.
Hypothesis Hi : proper 64 i.
Hypothesis Hsize : hi_ i - lo_ i + 1 < 2 ^ 64.
Hypothesis Hacc : Z.land acc IMMUTABLE = 0.
Let q := nextBuffer h.
Let b := buffer_instance (hi_ i - lo_ i + 1).
Let h' := snd (heap_new b h).
Let s := {| buffer_ := q; offset_ := 0; accessibility_ := acc; name_ := nm |}.

Lemma filled_place x : memberb x i = true ->
  place 64 i s x = {| place_buffer := q; place_offset := x - lo_ i; place_accessibility := acc; place_name := nm |}.
Proof.
  destruct (memberb_spec x i) as [Hx|]; [intros _|discriminate]. unfold member, proper, const_max in *. unfold place. cbn [buffer_ offset_ accessibility_ name_ s].
  f_equal. rewrite Z.add_0_l, Z.mod_small by lia. reflexivity.
Qed.

Lemma filled_old p c : buffers h !! p = Some c -> p <> q /\ buffers h' !! p = Some c.
Proof. intros Hp. destruct (space_heap _ _ Hok _ _ Hp) as (Hlt & _). split; [unfold q; lia|]. cbn. rewrite lookup_insert_ne; [assumption|lia]. Qed.

Lemma zero_bytes n : Forall byte_ok (repeat 0 n).
Proof. apply Forall_forall. intros v Hv. apply list_elem_of_In, repeat_spec in Hv as ->. unfold byte_ok. lia. Qed.

Lemma filled_heap : heap_ok h'.
Proof.
  unfold proper in Hi. intros p c Hp. cbn in Hp. destruct (decide (p = nextBuffer h)) as [->|Hne].
  - rewrite lookup_insert_eq in Hp. injection Hp as <-. cbn. rewrite repeat_length. split; [lia|]. split; [lia|apply zero_bytes].
  - rewrite lookup_insert_ne in Hp by congruence. destruct (space_heap _ _ Hok _ _ Hp) as (Hlt & Hl & Hf). cbn. split; [lia|now split].
Qed.

Lemma filled_ok : exists m', IntervalMap_insert 64 i s true m = Ret m' /\
  evolves h m h' m' (fun y => if memberb y i then Some 0 else byte_at h m y).
Proof.
  destruct (insert_spec 64 lt64 i s m (or_intror Hi) (space_wf _ _ Hok)) as (m' & E & Hwf & Hx). exists m'. split; [exact E|].
  assert (Hc : forall y, contents (map_ m') y = if memberb y i then Some (place 64 i s y) else contents (map_ m) y) by exact Hx. clear Hx E.
  assert (Hold : forall y r, contents (map_ m) y = Some r -> place_buffer r <> q).
  { intros y r Hr. destruct (space_stored _ _ Hok y r Hr) as (_ & c & Hb & _). now apply (filled_old _ _ Hb). }
  unfold proper in Hi. split; [split; [apply filled_heap|assumption| |]|split].
  - intros y r Hr. rewrite Hc in Hr. destruct (memberb_spec y i) as [Hy|Hy].
    + injection Hr as <-. rewrite filled_place by now apply memberb_in. split; [assumption|]. exists b. cbn. rewrite lookup_insert_eq, repeat_length.
      split; [reflexivity|]. unfold member in Hy. lia.
    + destruct (space_stored _ _ Hok y r Hr) as (Ha & c & Hb & Hl). split; [assumption|]. exists c. split; [now apply filled_old|assumption].
  - intros x y p r Hp Hr Eb Eo. rewrite Hc in Hp, Hr. destruct (memberb x i) eqn:Mx, (memberb y i) eqn:My.
    + injection Hp as <-. injection Hr as <-. rewrite !filled_place in Eo by assumption. cbn in Eo. lia.
    + injection Hp as <-. elim (Hold _ _ Hr). rewrite <- Eb. now rewrite filled_place.
    + injection Hr as <-. elim (Hold _ _ Hp). rewrite Eb. now rewrite filled_place.
    + exact (space_own _ _ Hok x y p r Hp Hr Eb Eo).
  - intros y. unfold byte_at. rewrite Hc. destruct (memberb_spec y i) as [Hy|Hy].
    + cbn [mbind option_bind]. rewrite filled_place by now apply memberb_in. unfold byte_in. cbn. rewrite lookup_insert_eq. cbn. unfold member in Hy.
      apply lookup_repeat. lia.
    + destruct (contents (map_ m) y) as [r|] eqn:Er; [|reflexivity]. cbn [mbind option_bind]. unfold byte_in. destruct (space_stored _ _ Hok y r Er) as (_ & c & Hb & _).
      now rewrite Hb, (proj2 (filled_old _ _ Hb)).
  - intros o Ho Hs. assert (Ho' : forall y r, contents (map_ o) y = Some r -> place_buffer r <> q /\ buffers h' !! place_buffer r = buffers h !! place_buffer r).
    { intros y r Er. destruct (space_stored _ _ Ho y r Er) as (_ & c & Hb & _). destruct (filled_old _ _ Hb). split; [assumption|congruence]. }
    split; [|split].
    + split; [apply filled_heap|apply Ho| |apply Ho]. intros y r Er. destruct (space_stored _ _ Ho y r Er) as (Ha & c & Hb & Hl). split; [assumption|].
      exists c. split; [now apply filled_old|assumption].
    + intros x y p r Hp Hr Eb. rewrite Hc in Hp. destruct (Ho' y r Hr) as [Hne E']. destruct (memberb x i) eqn:Mx.
      * injection Hp as <-. rewrite filled_place in Eb by assumption. elim Hne. now rewrite <- Eb.
      * destruct (Hs x y p r Hp Hr Eb) as (c & Hb & Hcow). exists c. split; [now apply filled_old|assumption].
    + intros y. unfold byte_at. destruct (contents (map_ o) y) as [r|] eqn:Er; [|reflexivity]. cbn [mbind option_bind]. unfold byte_in. now rewrite (proj2 (Ho' y r Er)).
Qed.
End Fill.
