(* ===== verification/RiscOps.v ===== *)
(** The operations of instruction semantics
    ([src/Rose/BinaryAnalysis/InstructionSemantics/BaseSemantics/RiscOperators.{h,C}]).

    The semantics of a machine instruction is a program over an interface of
    operations on values, [BaseSemantics::RiscOperators].  A semantic domain
    implements the primitive operations; here that is an instance of the class
    [RiscOperators], over a type [V] of values and a type [St] of whatever the
    domain's operations change.  The other operations are built from them.

    An operation returns a value and a new state, or fails.  Arguments of a call
    are evaluated from left to right; C++ leaves their order open, and another
    order only names the variables of a symbolic result differently. *)
From S2P Require Import Prelude SawyerInterval.
Open Scope Z_scope.

(** * Computations over a state *)

Definition M (St A : Type) : Type := St -> outcome (A * St).

Definition ret {St A} (a : A) : M St A := fun s => Ret (a, s).
Definition bind {St A B} (m : M St A) (k : A -> M St B) : M St B :=
  fun s => let! ' r := m s in k r.1 r.2.
Definition lift {St A} (m : outcome A) : M St A := fun s => let! a := m in Ret (a, s).
Definition fail {St A} (e : failure) : M St A := fun _ => Fail e.

Declare Scope risc_scope.
Delimit Scope risc_scope with risc.
Notation "'let*' x ':=' m 'in' k" := (bind m (fun x => k))
  (at level 10, x name, k at level 200) : risc_scope.
Notation "'let*' ' x ':=' m 'in' k" := (bind m (fun y => match y with x => k end))
  (at level 10, x strict pattern, k at level 200) : risc_scope.
Notation "'assert*' b 'else' e 'in' k" := (bind (lift (require_ b e)) (fun _ => k))
  (at level 10, k at level 200) : risc_scope.
Open Scope risc_scope.

(** * The interface *)

Inductive IteStatus := ITE_NEITHER | ITE_A | ITE_B | ITE_BOTH.

Class RiscOperators (V St : Type) := {
  nBits_ : V -> Z;
  toUnsigned_ : V -> option Z;
  undefined_ : Z -> M St V;
  unspecified_ : Z -> M St V;
  bottom_ : Z -> M St V;
  number_ : Z -> Z -> M St V;
  boolean_ : bool -> M St V;
  copy_ : V -> Z -> M St V;
  and_ : V -> V -> M St V;
  or_ : V -> V -> M St V;
  xor_ : V -> V -> M St V;
  invert : V -> M St V;
  extract : V -> Z -> Z -> M St V;
  concat_ : V -> V -> M St V;
  leastSignificantSetBit : V -> M St V;
  mostSignificantSetBit : V -> M St V;
  rotateLeft : V -> V -> M St V;
  rotateRight : V -> V -> M St V;
  shiftLeft : V -> V -> M St V;
  shiftRight : V -> V -> M St V;
  shiftRightArithmetic : V -> V -> M St V;
  equalToZero : V -> M St V;
  iteWithStatus : V -> V -> V -> M St (V * IteStatus);
  unsignedExtend : V -> Z -> M St V;
  signExtend : V -> Z -> M St V;
  add : V -> V -> M St V;
  addWithCarries : V -> V -> V -> M St (V * V);
  negate : V -> M St V;
  signedDivide : V -> V -> M St V;
  signedModulo : V -> V -> M St V;
  signedMultiply : V -> V -> M St V;
  unsignedDivide : V -> V -> M St V;
  unsignedModulo : V -> V -> M St V;
  unsignedMultiply : V -> V -> M St V
}.

(** * Types of machine data *)

(** [SgAsmFloatType]; ranges of bits are intervals. *)
Record FloatType := mkFloatType {
  ft_nBits : Z;
  significandBits : Interval;
  exponentBits : Interval;
  signBit : Z;
  exponentBias : Z;
  gradualUnderflow : bool;
  implicitBitConvention : bool
}.

Definition range_size (i : Interval) : Z := hi_ i - lo_ i + 1.
Definition baseSize (lo n : Z) : Interval := {| lo_ := lo; hi_ := lo + n - 1 |}.

(** [SgAsmFloatType::check], run by the constructor. *)
Definition FloatType_check (t : FloatType) : outcome FloatType :=
  assert! negb (Interval_isEmpty (significandBits t)) && negb (Interval_isEmpty (exponentBits t)) else AssertFail in
  assert! negb (Interval_overlaps (exponentBits t) (significandBits t)) else AssertFail in
  assert! negb (Interval_overlaps (exponentBits t) (Interval_singleton (signBit t))) else AssertFail in
  assert! negb (Interval_overlaps (significandBits t) (Interval_singleton (signBit t))) else AssertFail in
  assert! (hi_ (exponentBits t) <? ft_nBits t) && (hi_ (significandBits t) <? ft_nBits t) && (signBit t <? ft_nBits t)
    else AssertFail in
  Ret t.

Definition instanceIeee32 : outcome FloatType :=
  FloatType_check {| ft_nBits := 32; significandBits := baseSize 0 23; exponentBits := baseSize 23 8; signBit := 31;
                     exponentBias := 127; gradualUnderflow := true; implicitBitConvention := true |}.
Definition instanceIeee64 : outcome FloatType :=
  FloatType_check {| ft_nBits := 64; significandBits := baseSize 0 52; exponentBits := baseSize 52 11; signBit := 63;
                     exponentBias := 1023; gradualUnderflow := true; implicitBitConvention := true |}.

(** [SgAsmType] and its subclasses.  Types are compared by address: a type has
    an identity. *)
Inductive AsmTypeClass := IntegerType (isSigned : bool) | FloatingType (t : FloatType) | VectorType | OtherType.
Record AsmType := mkAsmType { asm_id : Z; asm_nBits : Z; asm_class : AsmTypeClass }.

(** * The operations built from the primitives *)

Section Derived.
Context {V St : Type} {Ops : RiscOperators V St}.

Definition concatLoHi (lowBits highBits : V) : M St V := concat_ lowBits highBits.
Definition concatHiLo (highBits lowBits : V) : M St V := concat_ lowBits highBits.

Definition split_ (a : V) (splitPoint : Z) : M St (V * V) :=
  let* lo := extract a 0 splitPoint in let* hi := extract a splitPoint (nBits_ a) in ret (lo, hi).

Definition ite (cond a b : V) : M St V := let* r := iteWithStatus cond a b in ret r.1.

(** A difference of [size_t]. *)
Definition usub (a b : Z) : Z := (a - b) mod 2 ^ 64.

(** The sum, the carry out and the overflow. *)
Definition addCarry (a b : V) : M St (V * V * V) :=
  assert* nBits_ a =? nBits_ b else AssertFail in
  let nBits := nBits_ a in
  let* c := boolean_ false in
  let* ' (sum, carries) := addWithCarries a b c in
  let* carryOut := extract carries (usub nBits 1) nBits in
  let* carryIn := extract carries (usub nBits 2) (usub nBits 1) in
  let* overflowed := xor_ carryOut carryIn in
  ret (sum, carryOut, overflowed).

Definition subtract (minuend subtrahend : V) : M St V :=
  let* n := negate subtrahend in add minuend n.

Definition subtractCarry (minuend subtrahend : V) : M St (V * V * V) :=
  assert* nBits_ minuend =? nBits_ subtrahend else AssertFail in
  let nBits := nBits_ minuend in
  assert* 1 <? nBits else AssertFail in
  let* negatedSubtrahend := negate subtrahend in
  let* c := boolean_ false in
  let* ' (difference, carries) := addWithCarries minuend negatedSubtrahend c in
  let* carryOut := extract carries (usub nBits 1) nBits in
  let* carryIn := extract carries (usub nBits 2) (usub nBits 1) in
  let* overflowed := xor_ carryOut carryIn in
  ret (difference, carryOut, overflowed).

Definition countLeadingZeros (a : V) : M St V :=
  let* idx := mostSignificantSetBit a in
  let* width := number_ (nBits_ a) (nBits_ a) in
  let* top := number_ (nBits_ a) (usub (nBits_ a) 1) in
  let* diff := subtract top idx in
  let* none := equalToZero a in
  ite none width diff.

Definition countLeadingOnes (a : V) : M St V :=
  let* na := invert a in countLeadingZeros na.

(** The elements [i .. i + n - 1], after those already put together. *)
Fixpoint reverse_loop (n : nat) (a : V) (i elmtNBits : Z) (result : option V) : M St (option V) :=
  match n with
  | O => ret result
  | S n =>
      let* elmt := extract a (i * elmtNBits) ((i + 1) * elmtNBits) in
      let* result := match result with Some r => concatHiLo r elmt | None => ret elmt end in
      reverse_loop n a (i + 1) elmtNBits (Some result)
  end.

Definition reverseElmts (a : V) (elmtNBits : Z) : M St V :=
  assert* 0 <? elmtNBits else AssertFail in
  assert* elmtNBits <=? nBits_ a else AssertFail in
  assert* nBits_ a mod elmtNBits =? 0 else AssertFail in
  let nElmts := nBits_ a / elmtNBits in
  let* result := reverse_loop (Z.to_nat nElmts) a 0 elmtNBits None in
  match result with
  | Some r => assert* nBits_ r =? nBits_ a else AssertFail in ret r
  | None => fail Undefined
  end.

Definition isEqual (a b : V) : M St V := let* x := xor_ a b in equalToZero x.
Definition isNotEqual (a b : V) : M St V := let* e := isEqual a b in invert e.

Definition isUnsignedLessThan (a b : V) : M St V :=
  let* wideA := unsignedExtend a (nBits_ a + 1) in
  let* wideB := unsignedExtend b (nBits_ b + 1) in
  let* diff := subtract wideA wideB in
  extract diff (nBits_ diff - 1) (nBits_ diff).

Definition isUnsignedLessThanOrEqual (a b : V) : M St V :=
  let* lt := isUnsignedLessThan a b in let* eq := isEqual a b in or_ lt eq.
Definition isUnsignedGreaterThan (a b : V) : M St V :=
  let* le := isUnsignedLessThanOrEqual a b in invert le.
Definition isUnsignedGreaterThanOrEqual (a b : V) : M St V :=
  let* lt := isUnsignedLessThan a b in invert lt.

Definition isSignedLessThan (a b : V) : M St V :=
  assert* nBits_ a =? nBits_ b else AssertFail in
  let nBits := nBits_ a in
  let* wideA := signExtend a (nBits + 1) in
  let* wideB := signExtend b (nBits + 1) in
  let* difference := subtract wideA wideB in
  extract difference nBits (nBits + 1).

Definition isSignedLessThanOrEqual (a b : V) : M St V :=
  let* lt := isSignedLessThan a b in let* eq := isEqual a b in or_ lt eq.
Definition isSignedGreaterThan (a b : V) : M St V :=
  let* le := isSignedLessThanOrEqual a b in invert le.
Definition isSignedGreaterThanOrEqual (a b : V) : M St V :=
  let* lt := isSignedLessThan a b in invert lt.

(** What a domain inherits that does not override [unsignedExtend]. *)
Definition base_unsignedExtend (a : V) (new_width : Z) : M St V := copy_ a new_width.

(** ** Values as booleans *)

Definition toUnsigned_get (a : V) : M St Z :=
  match toUnsigned_ a with Some n => ret n | None => fail Throw end.
Definition isTrue (a : V) : bool := match toUnsigned_ a with Some n => negb (n =? 0) | None => false end.
Definition isFalse (a : V) : bool := match toUnsigned_ a with Some n => n =? 0 | None => false end.

(** ** Floating point values, by their bits *)

Definition exponent_of (a : V) (t : FloatType) : M St V :=
  extract a (lo_ (exponentBits t)) (hi_ (exponentBits t) + 1).
Definition significand_of (a : V) (t : FloatType) : M St V :=
  extract a (lo_ (significandBits t)) (hi_ (significandBits t) + 1).

Definition fpIsNan (a : V) (t : FloatType) : M St V :=
  let* exponent := exponent_of a t in
  let* significand := significand_of a t in
  let* ne := invert exponent in
  let* full := equalToZero ne in
  let* zs := equalToZero significand in
  let* nz := invert zs in
  and_ full nz.

Definition fpIsDenormalized (a : V) (t : FloatType) : M St V :=
  if negb (gradualUnderflow t) then boolean_ false
  else
    let* exponent := exponent_of a t in
    let* significand := significand_of a t in
    let* ze := equalToZero exponent in
    let* zs := equalToZero significand in
    let* nz := invert zs in
    and_ ze nz.

Definition fpIsZero (a : V) (t : FloatType) : M St V :=
  let* exponent := exponent_of a t in
  let* significand := significand_of a t in
  let* ze := equalToZero exponent in
  let* zs := equalToZero significand in
  and_ ze zs.

Definition fpIsInfinity (a : V) (t : FloatType) : M St V :=
  let* exponent := exponent_of a t in
  let* significand := significand_of a t in
  let* ne := invert exponent in
  let* full := equalToZero ne in
  let* zs := equalToZero significand in
  and_ full zs.

Definition fpSign (a : V) (t : FloatType) : M St V := extract a (signBit t) (signBit t + 1).

Definition fpEffectiveExponent (a : V) (t : FloatType) : M St V :=
  let expWidth := range_size (exponentBits t) + 1 in
  let* storedExponent := exponent_of a t in
  let* significand := significand_of a t in
  let* ze := equalToZero storedExponent in
  let* zs := equalToZero significand in
  let* zero := number_ expWidth 0 in
  let* least := number_ expWidth ((1 - exponentBias t - range_size (significandBits t)) mod 2 ^ 64) in
  let* top := mostSignificantSetBit significand in
  let* wideTop := unsignedExtend top expWidth in
  let* denormalized := add least wideTop in
  let* small := ite zs zero denormalized in
  let* wideStored := unsignedExtend storedExponent expWidth in
  let* bias := number_ expWidth (exponentBias t) in
  let* normalized := subtract wideStored bias in
  ite ze small normalized.

(** ** Conversions between types *)

Definition reinterpret (a : V) (t : AsmType) : M St V :=
  assert* nBits_ a =? asm_nBits t else Throw in copy_ a 0.

(** [fpConvert] of the base class, which concrete values inherit; symbolic
    semantics has one of its own, and [convert] is modelled for the former. *)
Definition base_fpConvert (a : V) (aType retType : AsmType) : M St V :=
  if asm_id aType =? asm_id retType then copy_ a 0 else fail Throw.

Definition convert (a : V) (srcType dstType : AsmType) : M St V :=
  let* srcVal := reinterpret a srcType in
  if asm_id srcType =? asm_id dstType then ret srcVal
  else
    let truncated := let* v := unsignedExtend srcVal (asm_nBits dstType) in reinterpret v dstType in
    match asm_class srcType, asm_class dstType with
    | IntegerType false, IntegerType false => truncated
    | IntegerType false, IntegerType true =>
        if asm_nBits srcType <? asm_nBits dstType then truncated
        else assert* asm_nBits dstType <? asm_nBits srcType else AssertFail in truncated
    | IntegerType true, IntegerType false => truncated
    | IntegerType true, IntegerType true =>
        if asm_nBits srcType <=? asm_nBits dstType
        then let* v := signExtend srcVal (asm_nBits dstType) in reinterpret v dstType
        else truncated
    | FloatingType _, FloatingType _ => base_fpConvert srcVal srcType dstType
    | _, _ => fail Throw
    end.
End Derived.
