(* ===== verification/RiscConcrete.v ===== *)
(** Concrete values
    ([src/Rose/BinaryAnalysis/InstructionSemantics/ConcreteSemantics.C]).

    A value is a vector of bits.  The operations are those of [BitVector], and
    machine arithmetic of 64 bits where bit vectors have none.  The code for
    x86-64 hosts is the one modelled where the source distinguishes. *)
From S2P Require Import Prelude BitVector SymType SymExpr SymEval RiscOps.
Open Scope Z_scope.

(** * Values *)

(** [SValue]: the width and the bits, which have that width. *)
Record CValue := mkCV { c_nBits : Z; c_bits : Z }.

#[export] Instance CValue_eq_dec : EqDecision CValue.
Proof. solve_decision. Defined.

Definition c_zero (nbits : Z) : CValue := mkCV nbits 0.
Definition c_number (nbits value : Z) : CValue := mkCV nbits (bv_fromInteger nbits value).

(** A number is known, and fits 64 bits. *)
Definition c_toUnsigned (a : CValue) : option Z :=
  if c_nBits a <=? 64 then Some (bv_toInteger (c_nBits a) (c_bits a)) else None.

Definition c_set_width (a : CValue) (newWidth : Z) : outcome CValue :=
  assert! 0 <? newWidth else AssertFail in
  Ret (if newWidth =? c_nBits a then a else mkCV newWidth (bv_resize (c_nBits a) (c_bits a) newWidth)).
Definition c_copy (a : CValue) (new_width : Z) : outcome CValue :=
  if negb (new_width =? 0) && negb (new_width =? c_nBits a) then c_set_width a new_width else Ret a.

Definition c_may_equal (a other : CValue) : bool :=
  bv_compare (c_nBits a) (c_bits a) (c_nBits other) (c_bits other) =? 0.
Definition c_must_equal (a other : CValue) : bool :=
  bv_compare (c_nBits a) (c_bits a) (c_nBits other) (c_bits other) =? 0.

(** * Integer helpers ([src/frontend/SageIII/sageInterface/integerOps.h]) *)

Definition u64 (x : Z) : Z := x mod 2 ^ 64.
Definition shl1 (n : Z) : Z := if 64 <=? n then 0 else 2 ^ n.
Definition genMask (n : Z) : Z := u64 (shl1 n - 1).
Definition signBit2 (value width : Z) : outcome bool :=
  assert! (0 <? width) && (width <=? 64) else Abort in
  Ret (negb (Z.land value (shl1 (width - 1)) =? 0)).
Definition signExtend2 (value from_width to_width : Z) : outcome Z :=
  assert! from_width <=? 64 else Abort in
  assert! to_width <=? 64 else Abort in
  let! s := signBit2 value from_width in
  Ret (Z.lor value (if s then Z.lxor (genMask to_width) (genMask from_width) else 0)).

(** * The operations *)

(** The bitwise operations and the addition assert that the sizes agree. *)
Definition same_size (a b : CValue) : outcome unit := require_ (c_nBits a =? c_nBits b) AssertFail.
Definition c_bitwise (f : Z -> Z -> Z) (a b : CValue) : outcome CValue :=
  let! _ := same_size a b in Ret (mkCV (c_nBits a) (f (c_bits a) (c_bits b))).

Definition c_invert (a : CValue) : CValue := mkCV (c_nBits a) (bv_invert (c_nBits a) (c_bits a)).

Definition c_extract (a : CValue) (begin_bit end_bit : Z) : outcome CValue :=
  assert! end_bit <=? c_nBits a else AssertFail in
  assert! begin_bit <? end_bit else AssertFail in
  let n := end_bit - begin_bit in
  Ret (mkCV n (set_bits 0 0 n (get_bits (c_bits a) begin_bit n))).

Definition c_concat (a b : CValue) : CValue :=
  let resultNBits := c_nBits a + c_nBits b in
  let result := bv_resize (c_nBits a) (c_bits a) resultNBits in
  mkCV resultNBits (set_bits result (c_nBits a) (c_nBits b) (get_bits (c_bits b) 0 (c_nBits b))).

Definition orElse (o : option Z) (d : Z) : Z := match o with Some n => n | None => d end.
Definition c_leastSignificantSetBit (a : CValue) : CValue :=
  c_number (c_nBits a) (orElse (bv_leastSignificantSetBit (c_bits a)) 0).
Definition c_mostSignificantSetBit (a : CValue) : CValue :=
  c_number (c_nBits a) (orElse (bv_mostSignificantSetBit (c_bits a)) 0).

(** [Optional::get] throws when there is nothing. *)
Definition c_get (a : CValue) : outcome Z :=
  match c_toUnsigned a with Some n => Ret n | None => Fail Throw end.

Definition c_shift (f : Z -> Z -> Z -> Z) (a sa : CValue) : outcome CValue :=
  let! n := c_get sa in Ret (mkCV (c_nBits a) (f (c_nBits a) (c_bits a) n)).

Definition c_equalToZero (a : CValue) : CValue := c_number 1 (if bv_isEqualToZero (c_bits a) then 1 else 0).

Definition c_iteWithStatus (sel a b : CValue) : outcome (CValue * IteStatus) :=
  assert! c_nBits sel =? 1 else AssertFail in
  let! n := c_get sel in
  if negb (n =? 0) then let! r := c_copy a 0 in Ret (r, ITE_A) else let! r := c_copy b 0 in Ret (r, ITE_B).

Definition c_unsignedExtend (a : CValue) (new_width : Z) : CValue :=
  mkCV new_width (bv_resize (c_nBits a) (c_bits a) new_width).
Definition c_signExtend (a : CValue) (new_width : Z) : CValue :=
  mkCV new_width (bv_signExtend (c_nBits a) (c_bits a) new_width).

Definition c_add (a b : CValue) : outcome CValue :=
  let! _ := same_size a b in Ret (mkCV (c_nBits a) (bv_add (c_nBits a) (c_bits a) (c_bits b))).

(** The sum, and the carry out of every bit, from operands widened by one bit. *)
Definition c_addWithCarries (a b c : CValue) : CValue * CValue :=
  let nbits := c_nBits a in
  let w := nbits + 1 in
  let ae := bv_resize (c_nBits a) (c_bits a) w in
  let be := bv_resize (c_nBits b) (c_bits b) w in
  let ce := bv_resize (c_nBits c) (c_bits c) w in
  let se := bv_add w (bv_add w ae be) ce in
  let co := bv_shiftRight w (Z.lxor (Z.lxor ae be) se) 1 false in
  (mkCV nbits (bv_resize w se nbits), mkCV nbits (bv_resize w co nbits)).

Definition c_negate (a : CValue) : CValue := mkCV (c_nBits a) (bv_negate (c_nBits a) (c_bits a)).

(** An operand as an [int64_t]. *)
Definition c_signed (a : CValue) : outcome Z :=
  let! n := c_get a in let! e := signExtend2 n (c_nBits a) 64 in Ret (to_long e).

Definition both_small (a b : CValue) : outcome unit :=
  require_ (negb ((64 <? c_nBits a) || (64 <? c_nBits b))) Throw.

Definition c_signedDivide (a b : CValue) : outcome CValue :=
  let! _ := both_small a b in
  let! x := c_signed a in
  let! y := c_signed b in
  assert! negb (y =? 0) else Throw in
  let! q := long_div x y in
  Ret (c_number (c_nBits a) (u64 q)).

Definition c_signedModulo (a b : CValue) : outcome CValue :=
  let! _ := both_small a b in
  let! x := c_signed a in
  let! y := c_signed b in
  assert! negb (y =? 0) else Throw in
  let! r := long_rem x y in
  Ret (c_number (c_nBits b) (u64 r)).

(** The product of 64-bit numbers, 32 bits at a time in 64-bit variables. *)
Definition multiply_64 (a b : Z) : CValue :=
  let a0 := Z.land a (2 ^ 32 - 1) in
  let a1 := Z.shiftr a 32 in
  let b0 := Z.land b (2 ^ 32 - 1) in
  let b1 := Z.shiftr b 32 in
  let c0 := u64 (a0 * b0) in
  let c1 := u64 (a0 * b1 + a1 * b0 + Z.shiftr c0 32) in
  let c2 := u64 (a1 * b1 + Z.shiftr c1 32) in
  let c0 := Z.land c0 (2 ^ 32 - 1) in
  let c1 := Z.land c1 (2 ^ 32 - 1) in
  let product := set_bits 0 0 64 (Z.lor (u64 (Z.shiftl c1 32)) c0) in
  mkCV 128 (set_bits product 64 64 c2).

(** The cases of the two multiplications, up to what multiplies small numbers. *)
Definition c_multiply (small : CValue -> CValue -> outcome CValue) (a b : CValue) : outcome CValue :=
  assert! c_nBits a <=? 64 else AssertFail in
  assert! c_nBits b <=? 64 else AssertFail in
  if (c_nBits a =? 64) && (c_nBits b =? 64) then
    let! x := c_get a in let! y := c_get b in Ret (multiply_64 x y)
  else if 64 <? c_nBits a + c_nBits b then Fail Throw
  else small a b.

Definition c_signedMultiply : CValue -> CValue -> outcome CValue :=
  c_multiply (fun a b =>
    let! x := c_signed a in
    let! y := c_signed b in
    let! p := chk_long (x * y) in
    Ret (c_number (c_nBits a + c_nBits b) (u64 p))).

Definition c_unsignedMultiply : CValue -> CValue -> outcome CValue :=
  c_multiply (fun a b =>
    let! x := c_get a in
    let! y := c_get b in
    Ret (c_number (c_nBits a + c_nBits b) (u64 (x * y)))).

(** The dividend of 128 bits, from its halves. *)
Definition c_numerator (a : CValue) : Z :=
  Z.lor (Z.shiftl (bv_toInteger_range (c_bits a) 64 64) 64) (bv_toInteger_range (c_bits a) 0 64).

Definition c_unsignedDivide (a b : CValue) : outcome CValue :=
  if (c_nBits a =? 128) && (c_nBits b =? 64) then
    let denominator := bv_toInteger 64 (c_bits b) in
    assert! negb (denominator =? 0) else Throw in
    let ratio := c_numerator a / denominator in
    Ret (mkCV 128 (set_bits (set_bits 0 0 64 (u64 ratio)) 64 64 (u64 (Z.shiftr ratio 64))))
  else
    let! _ := both_small a b in
    let! an := c_get a in
    let! bn := c_get b in
    assert! negb (bn =? 0) else Throw in
    Ret (c_number (c_nBits a) (an / bn)).

Definition c_unsignedModulo (a b : CValue) : outcome CValue :=
  if (c_nBits a =? 128) && (c_nBits b =? 64) then
    let denominator := bv_toInteger 64 (c_bits b) in
    assert! negb (denominator =? 0) else Throw in
    Ret (c_number 64 (u64 (c_numerator a mod denominator)))
  else
    let! _ := both_small a b in
    let! an := c_get a in
    let! bn := c_get b in
    assert! negb (bn =? 0) else Throw in
    Ret (c_number (c_nBits b) (an mod bn)).

(** * The domain *)

#[export] Instance ConcreteOps (St : Type) : RiscOperators CValue St := {|
  nBits_ := c_nBits;
  toUnsigned_ := c_toUnsigned;
  undefined_ n := ret (c_zero n);
  unspecified_ n := ret (c_zero n);
  bottom_ n := ret (c_zero n);
  number_ n value := ret (c_number n value);
  boolean_ b := ret (c_number 1 (if b then 1 else 0));
  copy_ a n := lift (c_copy a n);
  and_ a b := lift (c_bitwise Z.land a b);
  or_ a b := lift (c_bitwise Z.lor a b);
  xor_ a b := lift (c_bitwise Z.lxor a b);
  invert a := ret (c_invert a);
  extract a b e := lift (c_extract a b e);
  concat_ a b := ret (c_concat a b);
  leastSignificantSetBit a := ret (c_leastSignificantSetBit a);
  mostSignificantSetBit a := ret (c_mostSignificantSetBit a);
  rotateLeft a sa := lift (c_shift bv_rotateLeft a sa);
  rotateRight a sa := lift (c_shift bv_rotateRight a sa);
  shiftLeft a sa := lift (c_shift (fun w v n => bv_shiftLeft w v n false) a sa);
  shiftRight a sa := lift (c_shift (fun w v n => bv_shiftRight w v n false) a sa);
  shiftRightArithmetic a sa := lift (c_shift bv_shiftRightArithmetic a sa);
  equalToZero a := ret (c_equalToZero a);
  iteWithStatus sel a b := lift (c_iteWithStatus sel a b);
  unsignedExtend a n := ret (c_unsignedExtend a n);
  signExtend a n := ret (c_signExtend a n);
  add a b := lift (c_add a b);
  addWithCarries a b c := ret (c_addWithCarries a b c);
  negate a := ret (c_negate a);
  signedDivide a b := lift (c_signedDivide a b);
  signedModulo a b := lift (c_signedModulo a b);
  signedMultiply a b := lift (c_signedMultiply a b);
  unsignedDivide a b := lift (c_unsignedDivide a b);
  unsignedModulo a b := lift (c_unsignedModulo a b);
  unsignedMultiply a b := lift (c_unsignedMultiply a b)
|}.
