(* ===== verification/RiscConcreteFacts.v ===== *)
(** What every primitive operation on concrete values computes, on values that
    are well formed; a computation is run one such fact at a time. *)
From S2P Require Import Prelude BitVector SymType SymExpr SymEval RiscOps RiscConcrete.
Open Scope Z_scope.

(** * Running computations *)

Lemma bind_Ret {St A B} (m : M St A) (k : A -> M St B) s a s' :
  m s = Ret (a, s') -> bind m k s = k a s'.
Proof. intros H. unfold bind. now rewrite H. Qed.

Lemma bind_Fail {St A B} (m : M St A) (k : A -> M St B) s e : m s = Fail e -> bind m k s = Fail e.
Proof. intros H. unfold bind. now rewrite H. Qed.

Lemma bind_assoc {St A B C} (m : M St A) (k : A -> M St B) (h : B -> M St C) s :
  bind (bind m k) h s = bind m (fun a => bind (k a) h) s.
Proof. unfold bind. now destruct (m s) as [[a s']|e]. Qed.

Lemma lift_Ret {St A} (m : outcome A) (s : St) a : m = Ret a -> lift m s = Ret (a, s).
Proof. now intros ->. Qed.

Lemma assert_Ret {St} (b : bool) (s : St) e : b = true -> lift (require_ b e) s = Ret (tt, s).
Proof. now intros ->. Qed.

Create HintDb risc.
Ltac risc_side := first [assumption | lia | apply Z.eqb_eq; lia | apply Z.ltb_lt; lia | apply Z.leb_le; lia | eauto with risc].

(** Run the next operation by a fact of the data base. *)
Ltac step :=
  first [ erewrite bind_Ret; [|solve [apply assert_Ret; cbn [c_nBits nBits_ ConcreteOps]; risc_side | eauto with risc | reflexivity]]
        | rewrite bind_Ret with (a := _) (s' := _) by (solve [eauto with risc]) ]; cbn [c_nBits nBits_ ConcreteOps fst snd].
Ltac steps := repeat step.

(** * Well-formed values *)

Definition c_ok (a : CValue) : Prop := 0 < c_nBits a /\ bv_ok (c_nBits a) (c_bits a).

Lemma bool_Z_lnot b : 2 ^ 1 - 1 - bool_Z b = bool_Z (negb b).
Proof. now destruct b. Qed.
Lemma bool_Z_land a b : Z.land (bool_Z a) (bool_Z b) = bool_Z (a && b).
Proof. now destruct a, b. Qed.
Lemma bool_Z_lor a b : Z.lor (bool_Z a) (bool_Z b) = bool_Z (a || b).
Proof. now destruct a, b. Qed.
Lemma bool_Z_lxor a b : Z.lxor (bool_Z a) (bool_Z b) = bool_Z (xorb a b).
Proof. now destruct a, b. Qed.
Lemma bool_Z_zero b : (bool_Z b =? 0) = negb b.
Proof. now destruct b. Qed.

(** The single bit [i] of a number. *)
Lemma one_bit v i : 0 <= i -> v / 2 ^ i mod 2 ^ 1 = bool_Z (Z.testbit v i).
Proof. intros Hi. rewrite Z.pow_1_r, <- Z.testbit_spec' by assumption. now destruct (Z.testbit v i). Qed.

Lemma testbit_top w v : 0 < w -> bv_ok w v -> Z.testbit v (w - 1) = (2 ^ (w - 1) <=? v).
Proof. intros Hw Hv. rewrite <- bv_get_testbit by lia. now apply top_bit. Qed.

Lemma sval_top w a : 0 < w -> bv_ok w a -> sval w a = a - bool_Z (2 ^ (w - 1) <=? a) * 2 ^ w.
Proof. intros Hw Ha. unfold sval. rewrite top_bit by assumption. destruct (_ <=? _); cbn [bool_Z]; lia. Qed.

Lemma quot_abs_le x y : y <> 0 -> Z.abs (Z.quot x y) <= Z.abs x.
Proof.
  intros Hy. rewrite <- Z.quot_abs, Z.quot_div_nonneg by lia. apply Z.div_le_upper_bound; nia.
Qed.

(** A bitwise operation that maps clear bits to clear bits stays within a width. *)
Lemma bits_bitwise_ok (f : Z -> Z -> Z) (g : bool -> bool -> bool) w a b :
  (forall x y i, Z.testbit (f x y) i = g (Z.testbit x i) (Z.testbit y i)) -> g false false = false ->
  0 <= w -> bv_ok w a -> bv_ok w b -> bv_ok w (f a b).
Proof.
  intros Hf Hg Hw Ha Hb. replace (f a b) with (f a b mod 2 ^ w); [now apply mod_ok|].
  rewrite <- (Z.mod_small a (2 ^ w) Ha), <- (Z.mod_small b (2 ^ w) Hb).
  apply Z.bits_inj'. intros i Hi. destruct (Z.ltb_spec i w); [now rewrite Z.mod_pow2_bits_low|].
  now rewrite Z.mod_pow2_bits_high, Hf, !Z.mod_pow2_bits_high by lia.
Qed.

Definition land_ok w a b := bits_bitwise_ok Z.land andb w a b Z.land_spec eq_refl.
Definition lor_ok w a b := bits_bitwise_ok Z.lor orb w a b Z.lor_spec eq_refl.
Definition lxor_ok w a b := bits_bitwise_ok Z.lxor xorb w a b Z.lxor_spec eq_refl.

Lemma get_bits_ok v lo n : 0 <= n -> bv_ok n (get_bits v lo n).
Proof. apply get_bits_range. Qed.

(** Writing bits above those there are. *)
Lemma set_bits_above lo n v x : 0 <= lo -> 0 <= n -> bv_ok lo v -> set_bits v lo n x = v + (x mod 2 ^ n) * 2 ^ lo.
Proof.
  intros Hlo Hn Hv. unfold set_bits. rewrite Z.mod_small by exact Hv. rewrite (div_pow2_0 lo) by (assumption || lia). lia.
Qed.

(** * The primitive operations *)

Section Facts.
Context {St : Type}.
Implicit Type s : St.

Lemma c_number_ok w n s : 0 < w -> 0 <= n < 2 ^ 64 ->
  number_ (RiscOperators := ConcreteOps St) w n s = Ret (mkCV w (n mod 2 ^ w), s).
Proof. intros Hw Hn. cbn. unfold ret, c_number. now rewrite fromInteger_spec by lia. Qed.

Lemma c_boolean_ok b s : boolean_ (RiscOperators := ConcreteOps St) b s = Ret (mkCV 1 (bool_Z b), s).
Proof. now destruct b. Qed.

Lemma c_toUnsigned_ok w v : 0 <= w <= 64 -> bv_ok w v -> c_toUnsigned (mkCV w v) = Some v.
Proof.
  intros Hw Hv. unfold c_toUnsigned. cbn [c_nBits c_bits]. rewrite (proj2 (Z.leb_le w 64)) by lia. now rewrite toInteger_small.
Qed.

Lemma c_toUnsigned_wide w v : 64 < w -> c_toUnsigned (mkCV w v) = None.
Proof. intros Hw. unfold c_toUnsigned. cbn [c_nBits]. now rewrite (proj2 (Z.leb_gt w 64)) by lia. Qed.

Lemma c_bitwise_ok f w a b : c_bitwise f (mkCV w a) (mkCV w b) = Ret (mkCV w (f a b)).
Proof. unfold c_bitwise, same_size. cbn. now rewrite Z.eqb_refl. Qed.

Lemma c_and_ok w a b s : and_ (RiscOperators := ConcreteOps St) (mkCV w a) (mkCV w b) s = Ret (mkCV w (Z.land a b), s).
Proof. cbn [and_ ConcreteOps]. apply lift_Ret, c_bitwise_ok. Qed.
Lemma c_or_ok w a b s : or_ (RiscOperators := ConcreteOps St) (mkCV w a) (mkCV w b) s = Ret (mkCV w (Z.lor a b), s).
Proof. cbn [or_ ConcreteOps]. apply lift_Ret, c_bitwise_ok. Qed.
Lemma c_xor_ok w a b s : xor_ (RiscOperators := ConcreteOps St) (mkCV w a) (mkCV w b) s = Ret (mkCV w (Z.lxor a b), s).
Proof. cbn [xor_ ConcreteOps]. apply lift_Ret, c_bitwise_ok. Qed.

Lemma c_invert_ok w a s : 0 < w -> bv_ok w a ->
  invert (RiscOperators := ConcreteOps St) (mkCV w a) s = Ret (mkCV w (2 ^ w - 1 - a), s).
Proof. intros Hw Ha. cbn. unfold ret, c_invert. cbn. now rewrite invert_spec by (assumption || lia). Qed.

Lemma c_extract_ok w a lo hi s : 0 <= lo < hi -> hi <= w ->
  extract (RiscOperators := ConcreteOps St) (mkCV w a) lo hi s = Ret (mkCV (hi - lo) (a / 2 ^ lo mod 2 ^ (hi - lo)), s).
Proof.
  intros Hl Hh. cbn [extract ConcreteOps]. apply lift_Ret. unfold c_extract. cbn [c_nBits c_bits].
  rewrite (proj2 (Z.leb_le hi w)), (proj2 (Z.ltb_lt lo hi)) by lia. cbn [require_ obind].
  rewrite set_bits_fresh. unfold get_bits. now rewrite Z.mod_mod by (pose proof (pow2_pos (hi - lo)); lia).
Qed.

Lemma c_bit_ok w a i j s : 0 <= i < w -> j = i + 1 ->
  extract (RiscOperators := ConcreteOps St) (mkCV w a) i j s = Ret (mkCV 1 (bool_Z (Z.testbit a i)), s).
Proof.
  intros Hi ->. rewrite c_extract_ok by lia. replace (i + 1 - i) with 1 by lia. now rewrite one_bit by lia.
Qed.

Lemma c_concat_ok w a w' b s : 0 <= w -> 0 <= w' -> bv_ok w a -> bv_ok w' b ->
  concat_ (RiscOperators := ConcreteOps St) (mkCV w a) (mkCV w' b) s = Ret (mkCV (w + w') (a + b * 2 ^ w), s).
Proof.
  intros Hw Hw' Ha Hb. cbn. unfold ret, c_concat. cbn [c_nBits c_bits].
  rewrite resize_spec by (assumption || lia). rewrite Z.mod_small by (apply (ok_le w); assumption || lia).
  rewrite set_bits_above by (assumption || lia).
  unfold get_bits. rewrite Z.pow_0_r, Z.div_1_r, Z.mod_mod by (pose proof (pow2_pos w'); lia). now rewrite (Z.mod_small b) by exact Hb.
Qed.

Lemma c_eqz_ok w a s : equalToZero (RiscOperators := ConcreteOps St) (mkCV w a) s = Ret (mkCV 1 (bool_Z (a =? 0)), s).
Proof. cbn. unfold ret, c_equalToZero, bv_isEqualToZero. cbn [c_bits]. now destruct (a =? 0). Qed.

Lemma c_ite_ok b x y s :
  ite (Ops := ConcreteOps St) (mkCV 1 (bool_Z b)) x y s = Ret (if b then x else y, s).
Proof. now destruct b. Qed.

Lemma c_uext_ok w a w' s : 0 <= w -> 0 <= w' -> bv_ok w a ->
  unsignedExtend (RiscOperators := ConcreteOps St) (mkCV w a) w' s = Ret (mkCV w' (a mod 2 ^ w'), s).
Proof. intros. cbn. unfold ret, c_unsignedExtend. cbn. now rewrite resize_spec by assumption. Qed.

Lemma c_sext_ok w a w' s : 0 < w -> 0 <= w' -> bv_ok w a ->
  signExtend (RiscOperators := ConcreteOps St) (mkCV w a) w' s = Ret (mkCV w' (sval w a mod 2 ^ w'), s).
Proof. intros. cbn. unfold ret, c_signExtend. cbn. now rewrite signExtend_spec by assumption. Qed.

Lemma c_add_ok w a b s :
  add (RiscOperators := ConcreteOps St) (mkCV w a) (mkCV w b) s = Ret (mkCV w ((a + b) mod 2 ^ w), s).
Proof. cbn [add ConcreteOps]. apply lift_Ret. unfold c_add, same_size. cbn [c_nBits]. now rewrite Z.eqb_refl. Qed.

Lemma c_negate_ok w a s : 0 <= w -> bv_ok w a ->
  negate (RiscOperators := ConcreteOps St) (mkCV w a) s = Ret (mkCV w ((- a) mod 2 ^ w), s).
Proof. intros. cbn. unfold ret, c_negate. cbn. now rewrite negate_spec by assumption. Qed.

Lemma c_mssb_ok w a s : 0 < w < 2 ^ 64 -> bv_ok w a ->
  mostSignificantSetBit (RiscOperators := ConcreteOps St) (mkCV w a) s = Ret (mkCV w (if a =? 0 then 0 else Z.log2 a), s).
Proof.
  intros Hw Ha. cbn. unfold ret, c_mostSignificantSetBit, c_number, bv_mostSignificantSetBit. cbn [c_nBits c_bits].
  destruct (Z.eqb_spec a 0) as [->|Hz]; cbn [orElse].
  - now rewrite fromInteger_spec, Z.mod_0_l by (pose proof (pow2_pos w); lia).
  - destruct (mostSignificantSetBit_spec w a (Z.log2 a) Ha) as [Hl _].
    { unfold bv_mostSignificantSetBit. now rewrite (proj2 (Z.eqb_neq a 0)). }
    pose proof (Z.pow_gt_lin_r 2 w ltac:(lia) ltac:(lia)).
    rewrite fromInteger_spec, Z.mod_small by lia. reflexivity.
Qed.

Lemma land_ok_l w a b : 0 <= w -> bv_ok w a -> bv_ok w (Z.land a b).
Proof.
  intros Hw Ha. replace (Z.land a b) with (Z.land a b mod 2 ^ w); [now apply mod_ok|].
  rewrite <- (Z.mod_small a (2 ^ w) Ha). apply Z.bits_inj'. intros i Hi. destruct (Z.ltb_spec i w); [now rewrite Z.mod_pow2_bits_low|].
  now rewrite Z.mod_pow2_bits_high, Z.land_spec, Z.mod_pow2_bits_high by lia.
Qed.

(** The position of a bit of a value fits the value. *)
Lemma log2_fits w v : 0 < w -> bv_ok w v -> Z.log2 v mod 2 ^ w = Z.log2 v.
Proof.
  intros Hw Hv. apply Z.mod_small. unfold bv_ok in Hv. pose proof (Z.log2_nonneg v).
  destruct (Z.eq_dec v 0) as [->|]; [cbn; lia|]. pose proof (Z.log2_lt_lin v ltac:(lia)). lia.
Qed.

Lemma c_lssb_ok w a s : 0 < w < 2 ^ 64 -> bv_ok w a ->
  leastSignificantSetBit (RiscOperators := ConcreteOps St) (mkCV w a) s =
  Ret (mkCV w (if a =? 0 then 0 else Z.log2 (Z.land a (- a))), s).
Proof.
  intros Hw Ha. cbn. unfold ret, c_leastSignificantSetBit, c_number, bv_leastSignificantSetBit. cbn [c_nBits c_bits].
  destruct (Z.eqb_spec a 0) as [->|Hz]; cbn [orElse].
  - now rewrite fromInteger_spec, Z.mod_0_l by (pose proof (pow2_pos w); lia).
  - pose proof (land_ok_l w a (- a) ltac:(lia) Ha) as Hl.
    rewrite fromInteger_spec, log2_fits by (assumption || lia || (split; [apply Z.log2_nonneg|];
      unfold bv_ok in Hl; destruct (Z.eq_dec (Z.land a (- a)) 0) as [->|]; [cbn; lia|];
      pose proof (Z.log2_lt_pow2 (Z.land a (- a)) w ltac:(lia)); lia)). reflexivity.
Qed.

(** The difference of two values of one width. *)
Lemma c_subtract_ok w a b s : 0 <= w -> bv_ok w b ->
  subtract (Ops := ConcreteOps St) (mkCV w a) (mkCV w b) s = Ret (mkCV w ((a - b) mod 2 ^ w), s).
Proof.
  intros Hw Hb. unfold subtract. erewrite bind_Ret by now apply c_negate_ok. rewrite c_add_ok.
  now rewrite Z.add_mod_idemp_r, Z.add_opp_r by (pose proof (pow2_pos w); lia).
Qed.
End Facts.

#[export] Hint Resolve c_number_ok c_boolean_ok c_and_ok c_or_ok c_xor_ok c_invert_ok c_extract_ok c_concat_ok c_eqz_ok
  c_ite_ok c_uext_ok c_sext_ok c_add_ok c_negate_ok c_mssb_ok c_subtract_ok bool_Z_ok : risc.
#[export] Hint Resolve mod_ok land_ok lor_ok lxor_ok : risc.
#[export] Hint Extern 5 (_ <= _) => lia : risc.
#[export] Hint Extern 5 (_ < _) => lia : risc.
#[export] Hint Extern 5 (_ /\ _) => lia : risc.
