(* ===== verification/RiscArith.v ===== *)
(** What the operations built from the primitives compute on concrete values:
    additions and subtractions with their carries, comparisons, counting, and
    the multiplications and divisions of the concrete domain. *)
From S2P Require Import Prelude BitVector SymType SymExpr SymEval RiscOps RiscConcrete RiscConcreteFacts.
Open Scope Z_scope.

(** * Carries *)

(** The carry into bit [k] of a sum. *)
Definition carry_into (k a b c : Z) : bool := 2 ^ k <=? a mod 2 ^ k + b mod 2 ^ k + c.

Lemma carry_into_div k a b c :
  0 <= k -> 0 <= c <= 1 -> (a mod 2 ^ k + b mod 2 ^ k + c) / 2 ^ k = bool_Z (carry_into k a b c).
Proof.
  intros Hk Hc. unfold carry_into. pose proof (mod_ok k a Hk). pose proof (mod_ok k b Hk). unfold bv_ok in *.
  destruct (Z.leb_spec (2 ^ k) (a mod 2 ^ k + b mod 2 ^ k + c)); cbn [bool_Z].
  - symmetry. apply Z.div_unique with (r := a mod 2 ^ k + b mod 2 ^ k + c - 2 ^ k); lia.
  - apply Z.div_small. lia.
Qed.

Lemma testbit_div_odd a k : 0 <= k -> Z.testbit a k = Z.odd (a / 2 ^ k).
Proof. intros Hk. now rewrite Z.testbit_odd, Z.shiftr_div_pow2. Qed.

Lemma sum_div k a b c :
  0 <= k -> 0 <= c <= 1 -> (a + b + c) / 2 ^ k = a / 2 ^ k + b / 2 ^ k + bool_Z (carry_into k a b c).
Proof.
  intros Hk Hc. rewrite <- carry_into_div by assumption. pose proof (pow2_pos k Hk).
  rewrite (Z.div_mod a (2 ^ k)) at 1 by lia. rewrite (Z.div_mod b (2 ^ k)) at 1 by lia.
  rewrite <- Z.div_add_l by lia. f_equal. lia.
Qed.

(** A bit of a sum is the sum of the bits and the carry. *)
Lemma testbit_sum k a b c :
  0 <= k -> 0 <= c <= 1 ->
  Z.testbit (a + b + c) k = xorb (xorb (Z.testbit a k) (Z.testbit b k)) (carry_into k a b c).
Proof.
  intros Hk Hc. rewrite !testbit_div_odd, sum_div, !Z.odd_add by assumption. now destruct (carry_into _ _ _ _).
Qed.

(** The bits carried out of every place of a sum of [w] bits. *)
Definition carries (w a b c : Z) : Z := Z.lxor (Z.lxor a b) (a + b + c) / 2 ^ 1 mod 2 ^ w.

Lemma testbit_carries w a b c i :
  0 <= i < w -> 0 <= c <= 1 -> Z.testbit (carries w a b c) i = carry_into (i + 1) a b c.
Proof.
  intros Hi Hc. unfold carries. rewrite Z.mod_pow2_bits_low, Z.div_pow2_bits, !Z.lxor_spec, testbit_sum by lia.
  now destruct (Z.testbit a (i + 1)), (Z.testbit b (i + 1)), (carry_into (i + 1) a b c).
Qed.

Lemma carries_ok w a b c : 0 <= w -> bv_ok w (carries w a b c).
Proof. apply mod_ok. Qed.
#[export] Hint Resolve carries_ok : risc.

Lemma carry_all w a b c : bv_ok w a -> bv_ok w b -> carry_into w a b c = (2 ^ w <=? a + b + c).
Proof. intros Ha Hb. unfold carry_into. now rewrite (Z.mod_small a), (Z.mod_small b). Qed.

(** The top bit of a value is carried out of the bits below it. *)
Lemma top_split w a : 0 < w -> bv_ok w a ->
  a = bool_Z (2 ^ (w - 1) <=? a) * 2 ^ (w - 1) + a mod 2 ^ (w - 1) /\ bv_ok (w - 1) (a mod 2 ^ (w - 1)).
Proof.
  intros Hw Ha. split; [|apply mod_ok; lia].
  pose proof (pow2_split 1 w ltac:(lia)) as Hs. rewrite Z.pow_1_r in Hs. unfold bv_ok in Ha.
  destruct (Z.leb_spec (2 ^ (w - 1)) a); cbn [bool_Z].
  - assert (E : a mod 2 ^ (w - 1) = a - 2 ^ (w - 1)); [|lia]. symmetry. apply Z.mod_unique with (q := 1); lia.
  - rewrite Z.mod_small by lia. lia.
Qed.

(** A signed sum does not fit when the two topmost carries differ. *)
Definition signed_fits (w x : Z) : bool := (- 2 ^ (w - 1) <=? x) && (x <? 2 ^ (w - 1)).

Lemma overflow_carries w a b (c : bool) :
  0 < w -> bv_ok w a -> bv_ok w b ->
  xorb (carry_into w a b (bool_Z c)) (carry_into (w - 1) a b (bool_Z c)) = negb (signed_fits w (sval w a + sval w b + bool_Z c)).
Proof.
  intros Hw Ha Hb. rewrite carry_all by assumption. unfold carry_into, signed_fits. rewrite !sval_top by assumption.
  destruct (top_split w a Hw Ha) as [Ea Ra], (top_split w b Hw Hb) as [Eb Rb].
  pose proof (pow2_split 1 w ltac:(lia)) as Hs. rewrite Z.pow_1_r in Hs. unfold bv_ok in *.
  set (la := a mod 2 ^ (w - 1)) in *. set (lb := b mod 2 ^ (w - 1)) in *. clearbody la lb.
  destruct (2 ^ (w - 1) <=? a), (2 ^ (w - 1) <=? b), c; cbn [bool_Z] in *; case_cmp; cbn [xorb negb andb]; reflexivity || lia.
Qed.

(** * Additions and subtractions *)

Section Arith.
Context {St : Type}.
Implicit Type s : St.

Lemma c_addWithCarries_ok w a b (c : bool) s :
  0 < w -> bv_ok w a -> bv_ok w b ->
  addWithCarries (RiscOperators := ConcreteOps St) (mkCV w a) (mkCV w b) (mkCV 1 (bool_Z c)) s =
  Ret (mkCV w ((a + b + bool_Z c) mod 2 ^ w), mkCV w (carries w a b (bool_Z c)), s).
Proof.
  intros Hw Ha Hb. cbn. unfold ret, c_addWithCarries. cbn [c_nBits c_bits].
  pose proof (pow2_split w (w + 1) ltac:(lia)) as Hs. replace (w + 1 - w) with 1 in Hs by lia. rewrite Z.pow_1_r in Hs.
  assert (Hc : 0 <= bool_Z c <= 1) by (destruct c; cbn; lia).
  assert (Hx : forall v n, 0 <= n -> bv_ok n v -> n <= w + 1 -> bv_resize n v (w + 1) = v).
  { intros v n Hn Hv Hle. rewrite resize_spec by (assumption || lia). apply Z.mod_small. apply (ok_le n); assumption || lia. }
  rewrite (Hx a w), (Hx b w), (Hx (bool_Z c) 1) by (assumption || lia || apply bool_Z_ok).
  unfold bv_add. unfold bv_ok in Ha, Hb. rewrite (Z.mod_small (a + b)), (Z.mod_small (a + b + bool_Z c)) by lia.
  assert (Hsum : bv_ok (w + 1) (a + b + bool_Z c)) by (split; lia).
  assert (Hco : bv_ok (w + 1) (Z.lxor (Z.lxor a b) (a + b + bool_Z c))).
  { apply lxor_ok; [lia|apply lxor_ok; unfold bv_ok; lia|assumption]. }
  rewrite (resize_spec _ _ _ Hsum), (resize_spec _ (bv_shiftRight _ _ _ _)), (shiftRight_spec _ _ _ _ Hco)
    by (lia || apply shiftRight_ok; assumption || lia).
  cbn [fill]. now rewrite Z.mul_0_l, Z.add_0_r.
Qed.
#[local] Hint Resolve c_addWithCarries_ok : risc.

Lemma usub_small a b : 0 <= b <= a -> a < 2 ^ 64 -> usub a b = a - b.
Proof. intros. apply Z.mod_small. lia. Qed.

(** The carry out of a sum and whether it overflows, from its carries. *)
Lemma carry_bits w a b s (k : CValue -> CValue -> M St (CValue * CValue * CValue)) :
  1 < w < 2 ^ 64 -> bv_ok w a -> bv_ok w b ->
  (let* carryOut := extract (RiscOperators := ConcreteOps St) (mkCV w (carries w a b (bool_Z false))) (usub w 1) w in
   let* carryIn := extract (RiscOperators := ConcreteOps St) (mkCV w (carries w a b (bool_Z false))) (usub w 2) (usub w 1) in
   let* overflowed := xor_ (RiscOperators := ConcreteOps St) carryOut carryIn in
   k carryOut overflowed) s =
  k (mkCV 1 (bool_Z (2 ^ w <=? a + b))) (mkCV 1 (bool_Z (negb (signed_fits w (sval w a + sval w b))))) s.
Proof.
  intros Hw Ha Hb. rewrite !usub_small by lia.
  erewrite bind_Ret by (apply c_bit_ok; lia). erewrite bind_Ret by (apply c_bit_ok; lia).
  erewrite bind_Ret by apply c_xor_ok. rewrite bool_Z_lxor, !testbit_carries by (cbn; lia).
  replace (w - 1 + 1) with w by lia. replace (w - 2 + 1) with (w - 1) by lia.
  rewrite overflow_carries, carry_all by (assumption || lia). cbn [bool_Z]. now rewrite !Z.add_0_r.
Qed.

Lemma c_addCarry_ok w a b s :
  1 < w < 2 ^ 64 -> bv_ok w a -> bv_ok w b ->
  addCarry (Ops := ConcreteOps St) (mkCV w a) (mkCV w b) s =
  Ret (mkCV w ((a + b) mod 2 ^ w), mkCV 1 (bool_Z (2 ^ w <=? a + b)), mkCV 1 (bool_Z (negb (signed_fits w (sval w a + sval w b)))), s).
Proof.
  intros Hw Ha Hb. unfold addCarry. cbn [nBits_ ConcreteOps c_nBits]. rewrite Z.eqb_refl. cbn [require_].
  erewrite bind_Ret by now apply lift_Ret. erewrite bind_Ret by apply c_boolean_ok.
  erewrite bind_Ret by (apply c_addWithCarries_ok; assumption || lia). cbv beta iota.
  rewrite carry_bits by (assumption || lia). cbn [bool_Z]. now rewrite Z.add_0_r.
Qed.

(** C32. [addCarry] of values of [w] bits returns the sum wrapped around, the
    carry out, which says whether the unsigned sum needs more bits, and the
    overflow, which says whether the signed sum does.  It is not defined for
    single bits, which the signature admits: the second highest carry is asked
    for, and the assertion in [extract] fails. *)
Theorem addCarry_value w a b s :
  0 < w < 2 ^ 64 -> bv_ok w a -> bv_ok w b ->
  addCarry (Ops := ConcreteOps St) (mkCV w a) (mkCV w b) s =
  if w =? 1 then Fail AssertFail
  else Ret (mkCV w ((a + b) mod 2 ^ w), mkCV 1 (bool_Z (2 ^ w <=? a + b)),
            mkCV 1 (bool_Z (negb (signed_fits w (sval w a + sval w b)))), s).
Proof.
  intros Hw Ha Hb. destruct (Z.eqb_spec w 1) as [->|Hne]; [|apply c_addCarry_ok; assumption || lia].
  unfold addCarry. cbn [nBits_ ConcreteOps c_nBits]. rewrite Z.eqb_refl. cbn [require_].
  erewrite bind_Ret by now apply lift_Ret. erewrite bind_Ret by apply c_boolean_ok.
  erewrite bind_Ret by (apply c_addWithCarries_ok; assumption || lia). cbv beta iota.
  rewrite !usub_small by lia. erewrite bind_Ret by (apply c_bit_ok; lia). reflexivity.
Qed.

(** The carry out of a difference computed by adding the negation. *)
Lemma minus_carry w a b :
  0 <= w -> bv_ok w a -> bv_ok w b -> (2 ^ w <=? a + (- b) mod 2 ^ w) = negb (b =? 0) && (b <=? a).
Proof.
  intros Hw Ha Hb. unfold bv_ok in *. destruct (Z.eqb_spec b 0) as [->|Hz].
  - rewrite Z.mod_0_l by lia. apply Z.leb_gt. lia.
  - replace ((- b) mod 2 ^ w) with (2 ^ w - b) by (apply Z.mod_unique with (q := -1); lia).
    cbn [negb andb]. case_cmp; reflexivity || lia.
Qed.

(** Negation in two's complement keeps the least value. *)
Lemma sval_negate w b :
  0 < w -> bv_ok w b -> sval w ((- b) mod 2 ^ w) = if b =? 2 ^ (w - 1) then - 2 ^ (w - 1) else - sval w b.
Proof.
  intros Hw Hb. pose proof (pow2_split 1 w ltac:(lia)) as Hs. rewrite Z.pow_1_r in Hs.
  pose proof (sval_range w b Hw Hb) as Hr. unfold bv_ok in Hb.
  assert (E : (- b) mod 2 ^ w = (- sval w b) mod 2 ^ w).
  { rewrite sval_top by assumption. destruct (_ <=? _); cbn [bool_Z]; [|f_equal; lia].
    replace (- (b - 1 * 2 ^ w)) with (- b + 1 * 2 ^ w) by lia. symmetry. apply Z.mod_add. lia. }
  destruct (Z.eqb_spec b (2 ^ (w - 1))) as [->|Hne].
  - replace ((- 2 ^ (w - 1)) mod 2 ^ w) with ((- 2 ^ (w - 1)) mod 2 ^ w) by reflexivity. apply sval_of_mod; lia.
  - rewrite E. apply sval_of_mod; [assumption|]. split; [lia|].
    rewrite sval_top in * by assumption. destruct (Z.leb_spec (2 ^ (w - 1)) b); cbn [bool_Z] in *; lia.
Qed.

Lemma c_subtractCarry_ok w a b s :
  1 < w < 2 ^ 64 -> bv_ok w a -> bv_ok w b ->
  subtractCarry (Ops := ConcreteOps St) (mkCV w a) (mkCV w b) s =
  Ret (mkCV w ((a - b) mod 2 ^ w), mkCV 1 (bool_Z (negb (b =? 0) && (b <=? a))),
       mkCV 1 (bool_Z (xorb (negb (signed_fits w (sval w a - sval w b))) (b =? 2 ^ (w - 1)))), s).
Proof.
  intros Hw Ha Hb. unfold subtractCarry. cbn [nBits_ ConcreteOps c_nBits]. rewrite Z.eqb_refl, (proj2 (Z.ltb_lt 1 w)) by lia.
  cbn [require_]. erewrite bind_Ret by now apply lift_Ret. erewrite bind_Ret by now apply lift_Ret.
  erewrite bind_Ret by (apply c_negate_ok; assumption || lia). erewrite bind_Ret by apply c_boolean_ok.
  pose proof (mod_ok w (- b) ltac:(lia)) as Hn.
  erewrite bind_Ret by (apply c_addWithCarries_ok; assumption || lia). cbv beta iota.
  rewrite carry_bits by (assumption || lia). unfold ret. rewrite minus_carry by (assumption || lia). cbn [bool_Z].
  rewrite Z.add_0_r, Z.add_mod_idemp_r, Z.add_opp_r by (pose proof (pow2_pos w); lia). do 5 f_equal.
  rewrite sval_negate by (assumption || lia). pose proof (sval_range w a ltac:(lia) Ha). pose proof (pow2_pos (w - 1) ltac:(lia)).
  destruct (Z.eqb_spec b (2 ^ (w - 1))) as [->|Hne]; [|now rewrite Z.add_opp_r, xorb_false_r].
  rewrite (sval_top w (2 ^ (w - 1))) by (assumption || lia). rewrite Z.leb_refl. cbn [bool_Z].
  pose proof (pow2_split 1 w ltac:(lia)) as Hs. rewrite Z.pow_1_r in Hs. unfold signed_fits. case_cmp; reflexivity || lia.
Qed.

(** C33. [subtractCarry] returns the difference wrapped around; its carry out
    says whether the subtrahend is no greater than the minuend, except that it
    is clear when the subtrahend is zero; its overflow says whether the signed
    difference does not fit, except that it is the opposite when the subtrahend
    is the least signed number, whose negation is itself. *)
Theorem subtractCarry_value w a b s :
  1 < w < 2 ^ 64 -> bv_ok w a -> bv_ok w b ->
  subtractCarry (Ops := ConcreteOps St) (mkCV w a) (mkCV w b) s =
  Ret (mkCV w ((a - b) mod 2 ^ w), mkCV 1 (bool_Z (negb (b =? 0) && (b <=? a))),
       mkCV 1 (bool_Z (xorb (negb (signed_fits w (sval w a - sval w b))) (b =? 2 ^ (w - 1)))), s).
Proof. apply c_subtractCarry_ok. Qed.

(** * Comparisons *)

Lemma c_isEqual_ok w a b s :
  bv_ok w a -> bv_ok w b ->
  isEqual (Ops := ConcreteOps St) (mkCV w a) (mkCV w b) s = Ret (mkCV 1 (bool_Z (a =? b)), s).
Proof.
  intros Ha Hb. unfold isEqual. erewrite bind_Ret by apply c_xor_ok. rewrite c_eqz_ok. do 3 f_equal.
  destruct (Z.eqb_spec (Z.lxor a b) 0) as [H|H], (Z.eqb_spec a b) as [H'|H']; try reflexivity.
  - apply (proj1 (Z.lxor_eq_0_iff _ _)) in H. contradiction.
  - subst. rewrite Z.lxor_nilpotent in H. contradiction.
Qed.

(** The sign of a difference computed with one bit to spare. *)
Lemma sign_of_difference w x y :
  0 <= w -> - 2 ^ w <= x - y < 2 ^ w -> Z.testbit ((x - y) mod 2 ^ (w + 1)) w = (x <? y).
Proof.
  intros Hw Hr. pose proof (pow2_split w (w + 1) ltac:(lia)) as Hs. replace (w + 1 - w) with 1 in Hs by lia. rewrite Z.pow_1_r in Hs.
  pose proof (mod_ok (w + 1) (x - y) ltac:(lia)) as Hm. pose proof (testbit_top (w + 1) _ ltac:(lia) Hm) as Ht.
  replace (w + 1 - 1) with w in Ht by lia. rewrite Ht. destruct (Z.ltb_spec x y).
  - apply Z.leb_le. replace ((x - y) mod 2 ^ (w + 1)) with (x - y + 2 ^ (w + 1)); [lia|].
    apply Z.mod_unique with (q := -1); lia.
  - apply Z.leb_gt. rewrite Z.mod_small; lia.
Qed.

Lemma c_isUnsignedLessThan_ok w a b s :
  0 < w -> bv_ok w a -> bv_ok w b ->
  isUnsignedLessThan (Ops := ConcreteOps St) (mkCV w a) (mkCV w b) s = Ret (mkCV 1 (bool_Z (a <? b)), s).
Proof.
  intros Hw Ha Hb. unfold isUnsignedLessThan. cbn [nBits_ ConcreteOps c_nBits].
  do 2 erewrite bind_Ret by (apply c_uext_ok; assumption || lia).
  rewrite !Z.mod_small by (apply (ok_le w); assumption || lia).
  erewrite bind_Ret by (apply c_subtract_ok; [lia|apply (ok_le w); assumption || lia]). cbn [c_nBits].
  rewrite c_bit_ok by lia. replace (w + 1 - 1) with w by lia. unfold bv_ok in *. now rewrite sign_of_difference by lia.
Qed.

Lemma c_isSignedLessThan_ok w a b s :
  0 < w -> bv_ok w a -> bv_ok w b ->
  isSignedLessThan (Ops := ConcreteOps St) (mkCV w a) (mkCV w b) s = Ret (mkCV 1 (bool_Z (sval w a <? sval w b)), s).
Proof.
  intros Hw Ha Hb. unfold isSignedLessThan. cbn [nBits_ ConcreteOps c_nBits]. rewrite Z.eqb_refl. cbn [require_].
  erewrite bind_Ret by now apply lift_Ret. do 2 erewrite bind_Ret by (apply c_sext_ok; assumption || lia).
  erewrite bind_Ret by (apply c_subtract_ok; [lia|apply mod_ok; lia]). rewrite c_bit_ok by lia.
  pose proof (pow2_split 1 w ltac:(lia)) as Hs. rewrite Z.pow_1_r in Hs.
  pose proof (sval_range w a Hw Ha). pose proof (sval_range w b Hw Hb).
  rewrite <- Zminus_mod. now rewrite sign_of_difference by lia.
Qed.

Lemma c_not_ok b s : invert (RiscOperators := ConcreteOps St) (mkCV 1 (bool_Z b)) s = Ret (mkCV 1 (bool_Z (negb b)), s).
Proof. rewrite c_invert_ok by (lia || apply bool_Z_ok). now rewrite bool_Z_lnot. Qed.

Lemma leb_ltb_eqb x y : (x <? y) || (x =? y) = (x <=? y).
Proof. case_cmp; reflexivity || lia. Qed.

(** The comparisons of values of one width, which the code builds from
    subtractions with one bit to spare, are those of the numbers, unsigned or in
    two's complement. *)
Lemma c_comparisons_ok w a b s :
  0 < w -> bv_ok w a -> bv_ok w b ->
  let op2 (f : CValue -> CValue -> M St CValue) t := f (mkCV w a) (mkCV w b) s = Ret (mkCV 1 (bool_Z t), s) in
  let sa := sval w a in let sb := sval w b in
  op2 isEqual (a =? b) /\ op2 isNotEqual (negb (a =? b)) /\
  op2 isUnsignedLessThan (a <? b) /\ op2 isUnsignedLessThanOrEqual (a <=? b) /\
  op2 isUnsignedGreaterThan (b <? a) /\ op2 isUnsignedGreaterThanOrEqual (b <=? a) /\
  op2 isSignedLessThan (sa <? sb) /\ op2 isSignedLessThanOrEqual (sa <=? sb) /\
  op2 isSignedGreaterThan (sb <? sa) /\ op2 isSignedGreaterThanOrEqual (sb <=? sa).
Proof.
  intros Hw Ha Hb op2 sa sb. subst op2. cbv beta.
  assert (Hu : isUnsignedLessThanOrEqual (Ops := ConcreteOps St) (mkCV w a) (mkCV w b) s = Ret (mkCV 1 (bool_Z (a <=? b)), s)).
  { unfold isUnsignedLessThanOrEqual. erewrite bind_Ret by now apply c_isUnsignedLessThan_ok.
    erewrite bind_Ret by now apply c_isEqual_ok. now rewrite c_or_ok, bool_Z_lor, leb_ltb_eqb. }
  assert (Hs : isSignedLessThanOrEqual (Ops := ConcreteOps St) (mkCV w a) (mkCV w b) s = Ret (mkCV 1 (bool_Z (sa <=? sb)), s)).
  { unfold isSignedLessThanOrEqual. erewrite bind_Ret by now apply c_isSignedLessThan_ok.
    erewrite bind_Ret by now apply c_isEqual_ok. rewrite c_or_ok, bool_Z_lor, <- leb_ltb_eqb. subst sa sb. do 5 f_equal.
    destruct (Z.eqb_spec a b) as [->|Hne]; [now rewrite Z.eqb_refl|]. symmetry. apply Z.eqb_neq. intros E. apply Hne.
    now rewrite <- (sval_mod w a), <- (sval_mod w b), E by assumption. }
  split; [now apply c_isEqual_ok|].
  split; [unfold isNotEqual; erewrite bind_Ret by (now apply c_isEqual_ok); apply c_not_ok|].
  split; [now apply c_isUnsignedLessThan_ok|]. split; [exact Hu|].
  split; [unfold isUnsignedGreaterThan; erewrite bind_Ret by (exact Hu); rewrite c_not_ok; now rewrite Z.leb_antisym, negb_involutive|].
  split; [unfold isUnsignedGreaterThanOrEqual; erewrite bind_Ret by (now apply c_isUnsignedLessThan_ok); rewrite c_not_ok; now rewrite Z.ltb_antisym, negb_involutive|].
  split; [now apply c_isSignedLessThan_ok|]. split; [exact Hs|].
  split; [unfold isSignedGreaterThan; erewrite bind_Ret by (exact Hs); rewrite c_not_ok; now rewrite Z.leb_antisym, negb_involutive|].
  unfold isSignedGreaterThanOrEqual. erewrite bind_Ret by now apply c_isSignedLessThan_ok. rewrite c_not_ok. now rewrite Z.ltb_antisym, negb_involutive.
Qed.

(** * Counting *)

(** [countLeadingZeros] returns the number of bits above the highest bit
    that is set, the width when there is none; [countLeadingOnes] counts above
    the highest bit that is clear. *)
Theorem countLeading_value w a s :
  0 < w < 2 ^ 64 -> bv_ok w a ->
  countLeadingZeros (Ops := ConcreteOps St) (mkCV w a) s =
    Ret (mkCV w (if a =? 0 then w else w - 1 - Z.log2 a), s) /\
  countLeadingOnes (Ops := ConcreteOps St) (mkCV w a) s =
    Ret (mkCV w (if a =? 2 ^ w - 1 then w else w - 1 - Z.log2 (2 ^ w - 1 - a)), s).
Proof.
  intros Hw Ha.
  assert (H : forall x, bv_ok w x -> countLeadingZeros (Ops := ConcreteOps St) (mkCV w x) s =
    Ret (mkCV w (if x =? 0 then w else w - 1 - Z.log2 x), s)).
  { intros x Hx. unfold countLeadingZeros. cbn [nBits_ ConcreteOps c_nBits].
    pose proof (Z.pow_gt_lin_r 2 w ltac:(lia) ltac:(lia)). rewrite usub_small by lia.
    erewrite bind_Ret by (apply c_mssb_ok; assumption || lia). do 2 erewrite bind_Ret by (apply c_number_ok; lia).
    assert (Hl : bv_ok w (if x =? 0 then 0 else Z.log2 x)).
    { destruct (Z.eqb_spec x 0); split; try lia; [apply Z.log2_nonneg|]. unfold bv_ok in Hx. pose proof (Z.log2_lt_lin x ltac:(lia)). lia. }
    erewrite bind_Ret by (apply c_subtract_ok; assumption || lia). erewrite bind_Ret by apply c_eqz_ok. rewrite c_ite_ok.
    rewrite (Z.mod_small w), (Z.mod_small (w - 1)) by lia.
    destruct (Z.eqb_spec x 0) as [->|Hz]; [reflexivity|].
    rewrite Z.mod_small; [reflexivity|]. unfold bv_ok in Hx. pose proof (Z.log2_nonneg x).
    assert (Z.log2 x < w) by (apply Z.log2_lt_pow2; lia). lia. }
  split; [now apply H|]. unfold countLeadingOnes. erewrite bind_Ret by (apply c_invert_ok; assumption || lia).
  rewrite H by (unfold bv_ok in *; lia). do 3 f_equal. destruct (Z.eqb_spec a (2 ^ w - 1)) as [->|Hne].
  - now rewrite Z.sub_diag.
  - now rewrite (proj2 (Z.eqb_neq (2 ^ w - 1 - a) 0)) by lia.
Qed.
End Arith.
#[export] Hint Resolve c_addWithCarries_ok : risc.

(** * Executions *)

(** 100 + 100 overflows eight bits in two's complement only. *)
Theorem addCarry_value_witness :
  (0 < 8 < 2 ^ 64 /\ bv_ok 8 100) /\
  addCarry (Ops := ConcreteOps unit) (mkCV 8 100) (mkCV 8 100) tt = Ret (mkCV 8 200, mkCV 1 0, mkCV 1 1, tt).
Proof.
  split; [now vm_compute|]. exact (addCarry_value 8 100 100 tt ltac:(lia) ltac:(now vm_compute) ltac:(now vm_compute)).
Defined.

(** 0 - (-128) overflows, and -1 - (-128) does not; the code says the opposite. *)
Theorem subtractCarry_value_witness :
  subtractCarry (Ops := ConcreteOps unit) (mkCV 8 0) (mkCV 8 128) tt = Ret (mkCV 8 128, mkCV 1 0, mkCV 1 0, tt) /\
  subtractCarry (Ops := ConcreteOps unit) (mkCV 8 255) (mkCV 8 128) tt = Ret (mkCV 8 127, mkCV 1 1, mkCV 1 1, tt).
Proof.
  split.
  - exact (subtractCarry_value 8 0 128 tt ltac:(lia) ltac:(now vm_compute) ltac:(now vm_compute)).
  - exact (subtractCarry_value 8 255 128 tt ltac:(lia) ltac:(now vm_compute) ltac:(now vm_compute)).
Defined.

Theorem countLeading_value_witness :
  countLeadingZeros (Ops := ConcreteOps unit) (mkCV 8 5) tt = Ret (mkCV 8 5, tt) /\
  countLeadingOnes (Ops := ConcreteOps unit) (mkCV 8 255) tt = Ret (mkCV 8 8, tt).
Proof.
  split.
  - exact (proj1 (countLeading_value 8 5 tt ltac:(lia) ltac:(now vm_compute))).
  - exact (proj2 (countLeading_value 8 255 tt ltac:(lia) ltac:(now vm_compute))).
Defined.
