(* ===== verification/RiscMulDiv.v ===== *)
(** The multiplications and divisions of concrete values, which use machine
    integers of 64 bits. *)
From S2P Require Import Prelude BitVector SymType SymExpr SymEval RiscOps RiscConcrete RiscConcreteFacts.
Open Scope Z_scope.

(** * Machine integers *)

Lemma lor_join n l h : 0 <= n -> bv_ok n l -> Z.lor l (h * 2 ^ n) = l + h * 2 ^ n.
Proof.
  intros Hn Hl. assert (Hd : Z.land l (h * 2 ^ n) = 0).
  { apply Z.bits_inj'. intros i Hi. rewrite Z.land_spec, Z.bits_0. destruct (Z.ltb_spec i n).
    - now rewrite Z.mul_pow2_bits_low, andb_false_r.
    - rewrite <- (Z.mod_small l (2 ^ n) Hl), Z.mod_pow2_bits_high by lia. reflexivity. }
  rewrite <- (Z.lxor_lor _ _ Hd). symmetry. now apply Z.add_nocarry_lxor.
Qed.

Lemma land_low a n : 0 <= n -> Z.land a (2 ^ n - 1) = a mod 2 ^ n.
Proof. intros Hn. now rewrite Z.sub_1_r, <- Z.ones_equiv, Z.land_ones. Qed.

Lemma u64_mod x w : 0 <= w <= 64 -> u64 x mod 2 ^ w = x mod 2 ^ w.
Proof. intros Hw. unfold u64. exact (eqm_le w 64 _ _ Hw (eqm_mod 64 x ltac:(lia))). Qed.

Lemma c_number_u64 w x : 0 <= w <= 64 -> c_number w (u64 x) = mkCV w (x mod 2 ^ w).
Proof.
  intros Hw. unfold c_number. rewrite fromInteger_spec by (lia || apply Z.mod_pos_bound; lia). now rewrite u64_mod.
Qed.

Lemma genMask_spec n : 0 <= n <= 64 -> genMask n = 2 ^ n - 1.
Proof.
  intros Hn. unfold genMask, shl1, u64. destruct (Z.leb_spec 64 n).
  - replace n with 64 by lia. reflexivity.
  - pose proof (pow2_pos n ltac:(lia)). pose proof (pow2_le n 64 ltac:(lia)). apply Z.mod_small. lia.
Qed.

Lemma signBit2_spec w v : 0 < w <= 64 -> bv_ok w v -> signBit2 v w = Ret (2 ^ (w - 1) <=? v).
Proof.
  intros Hw Hv. unfold signBit2. rewrite (proj2 (Z.ltb_lt 0 w)), (proj2 (Z.leb_le w 64)) by lia. cbn [andb require_ obind].
  unfold shl1. rewrite (proj2 (Z.leb_gt 64 (w - 1))) by lia. f_equal. rewrite <- testbit_top by (assumption || lia).
  destruct (Z.testbit v (w - 1)) eqn:E.
  - apply negb_true_iff, Z.eqb_neq. intros H. apply (f_equal (fun x => Z.testbit x (w - 1))) in H.
    rewrite Z.land_spec, E, Z.pow2_bits_true, Z.bits_0 in H by lia. discriminate.
  - apply negb_false_iff, Z.eqb_eq, Z.bits_inj'. intros i Hi. rewrite Z.land_spec, Z.bits_0, Z.pow2_bits_eqb by lia.
    destruct (Z.eqb_spec (w - 1) i) as [<-|]; [now rewrite E|apply andb_false_r].
Qed.

(** An operand of at most 64 bits is read in two's complement, single bits too. *)
Lemma c_signed_ok w v : 0 < w <= 64 -> bv_ok w v -> c_signed (mkCV w v) = Ret (sval w v).
Proof.
  intros Hw Hv. unfold c_signed, c_get. rewrite c_toUnsigned_ok by (assumption || lia). cbn [obind c_nBits].
  unfold signExtend2. rewrite (proj2 (Z.leb_le w 64)), signBit2_spec by (assumption || lia). cbn [require_ obind Z.leb Z.compare Pos.compare Pos.compare_cont].
  f_equal. pose proof (sval_range w v ltac:(lia) Hv) as Hr. pose proof (pow2_le (w - 1) 63 ltac:(lia)).
  rewrite <- (to_signed_id 64 (sval w v)) by lia. unfold to_long, to_signed. f_equal.
  assert (E : forall x y, x mod 2 ^ 64 = y mod 2 ^ 64 -> (x + 2 ^ (64 - 1)) mod 2 ^ 64 = (y + 2 ^ (64 - 1)) mod 2 ^ 64).
  { intros x y Hxy. now rewrite Zplus_mod, Hxy, <- Zplus_mod. }
  apply E. unfold sval. rewrite top_bit by (assumption || lia). destruct (2 ^ (w - 1) <=? v); [|now rewrite Z.lor_0_r].
  rewrite !genMask_spec by lia. pose proof (pow2_pos w ltac:(lia)). pose proof (pow2_le w 64 ltac:(lia)).
  replace (Z.lxor (2 ^ 64 - 1) (2 ^ w - 1)) with ((2 ^ (64 - w) - 1) * 2 ^ w).
  - rewrite lor_join by (assumption || lia). rewrite Z.mul_sub_distr_r, <- pow2_split by lia.
    replace (v + (2 ^ 64 - 1 * 2 ^ w)) with (v - 2 ^ w + 1 * 2 ^ 64) by lia. apply Z.mod_add. lia.
  - pose proof (invert_spec 64 (2 ^ w - 1) ltac:(unfold bv_ok; lia) ltac:(lia)) as Hi. unfold bv_invert in Hi.
    rewrite Z.lxor_comm, Hi, Z.mul_sub_distr_r, <- pow2_split by lia. lia.
Qed.

Lemma c_get_ok w v : 0 <= w <= 64 -> bv_ok w v -> c_get (mkCV w v) = Ret v.
Proof. intros. unfold c_get. now rewrite c_toUnsigned_ok. Qed.

Lemma both_small_ok w1 a w2 b : w1 <= 64 -> w2 <= 64 -> both_small (mkCV w1 a) (mkCV w2 b) = Ret tt.
Proof. intros H1 H2. unfold both_small. cbn [c_nBits]. now rewrite (proj2 (Z.ltb_ge 64 w1)), (proj2 (Z.ltb_ge 64 w2)). Qed.

(** * Multiplication *)

(** The middle column of the long multiplication. *)
Definition middle (a b : Z) : Z :=
  a mod 2 ^ 32 * (b / 2 ^ 32) + a / 2 ^ 32 * (b mod 2 ^ 32) + a mod 2 ^ 32 * (b mod 2 ^ 32) / 2 ^ 32.

Lemma multiply_64_spec a b :
  bv_ok 64 a -> bv_ok 64 b ->
  multiply_64 a b = mkCV 128 (a * b - (if 2 ^ 64 <=? middle a b then 2 ^ 96 else 0)).
Proof.
  intros Ha Hb. unfold multiply_64. rewrite !land_low, !Z.shiftr_div_pow2, Z.shiftl_mul_pow2 by lia.
  pose proof (Z.div_mod a (2 ^ 32) ltac:(lia)) as Ea. pose proof (Z.div_mod b (2 ^ 32) ltac:(lia)) as Eb.
  pose proof (mod_ok 32 a ltac:(lia)) as Ra. pose proof (mod_ok 32 b ltac:(lia)) as Rb.
  pose proof (div_pow2_ok 64 a 32 Ha ltac:(lia)) as Qa. pose proof (div_pow2_ok 64 b 32 Hb ltac:(lia)) as Qb.
  unfold middle. set (a0 := a mod 2 ^ 32) in *. set (a1 := a / 2 ^ 32) in *. set (b0 := b mod 2 ^ 32) in *. set (b1 := b / 2 ^ 32) in *.
  clearbody a0 a1 b0 b1. unfold bv_ok in *. change (64 - 32) with 32 in *.
  assert (P00 : 0 <= a0 * b0 <= (2 ^ 32 - 1) * (2 ^ 32 - 1)) by nia. assert (P01 : 0 <= a0 * b1 <= (2 ^ 32 - 1) * (2 ^ 32 - 1)) by nia.
  assert (P10 : 0 <= a1 * b0 <= (2 ^ 32 - 1) * (2 ^ 32 - 1)) by nia. assert (P11 : 0 <= a1 * b1 <= (2 ^ 32 - 1) * (2 ^ 32 - 1)) by nia.
  assert (Eab : a * b = a1 * b1 * 2 ^ 64 + (a0 * b1 + a1 * b0) * 2 ^ 32 + a0 * b0) by (rewrite Ea, Eb; ring).
  rewrite Eab. clear Ea Eb Eab Ra Rb Qa Qb Ha Hb a b.
  set (p00 := a0 * b0) in *. set (p01 := a0 * b1) in *. set (p10 := a1 * b0) in *. set (p11 := a1 * b1) in *.
  clearbody p00 p01 p10 p11. clear a0 a1 b0 b1.
  unfold u64. rewrite (Z.mod_small p00 (2 ^ 64)) by lia.
  pose proof (Z.div_mod p00 (2 ^ 32) ltac:(lia)) as E0. pose proof (Z.mod_pos_bound p00 (2 ^ 32) ltac:(lia)) as M0.
  set (q0 := p00 / 2 ^ 32) in *. set (r0 := p00 mod 2 ^ 32) in *. clearbody q0 r0.
  set (c1 := p01 + p10 + q0) in *. assert (R1 : 0 <= c1 < 2 ^ 65) by lia.
  pose proof (Z.div_mod (c1 mod 2 ^ 64) (2 ^ 32) ltac:(lia)) as E1. pose proof (Z.mod_pos_bound (c1 mod 2 ^ 64) (2 ^ 32) ltac:(lia)) as M1.
  assert (C : c1 mod 2 ^ 64 = c1 - (if 2 ^ 64 <=? c1 then 2 ^ 64 else 0)).
  { destruct (Z.leb_spec (2 ^ 64) c1); [|rewrite Z.mod_small; lia]. symmetry. apply Z.mod_unique with (q := 1); lia. }
  set (m1 := c1 mod 2 ^ 64) in *. set (q1 := m1 / 2 ^ 32) in *. set (r1 := m1 mod 2 ^ 32) in *. clearbody m1 q1 r1.
  assert (Q1 : 0 <= q1 < 2 ^ 32) by (destruct (Z.leb_spec (2 ^ 64) c1); lia).
  rewrite (Z.mod_small (p11 + q1)) by lia. rewrite (Z.mod_small (r1 * 2 ^ 32)) by lia.
  rewrite Z.lor_comm, lor_join by (unfold bv_ok; lia). rewrite set_bits_fresh, (Z.mod_small (r0 + r1 * 2 ^ 32)) by lia.
  rewrite set_bits_above by (unfold bv_ok; lia). rewrite (Z.mod_small (p11 + q1)) by lia. f_equal.
  change (2 ^ 96) with (2 ^ 64 * 2 ^ 32). change (2 ^ 64) with (2 ^ 32 * 2 ^ 32) at 1 2. destruct (2 ^ 64 <=? c1); lia.
Qed.

(** The products of operands whose widths sum to at most 64 bits. *)
Lemma c_multiply_small small w1 a w2 b :
  0 < w1 -> 0 < w2 -> w1 + w2 <= 64 -> c_multiply small (mkCV w1 a) (mkCV w2 b) = small (mkCV w1 a) (mkCV w2 b).
Proof.
  intros H1 H2 Hs. unfold c_multiply. cbn [c_nBits]. rewrite (proj2 (Z.leb_le w1 64)), (proj2 (Z.leb_le w2 64)) by lia.
  cbn [require_ obind]. rewrite (proj2 (Z.eqb_neq w1 64)), (proj2 (Z.ltb_ge 64 (w1 + w2))) by lia. reflexivity.
Qed.

Lemma c_multiply_64 small a b :
  bv_ok 64 a -> bv_ok 64 b -> c_multiply small (mkCV 64 a) (mkCV 64 b) = Ret (multiply_64 a b).
Proof. intros Ha Hb. unfold c_multiply. cbn [c_nBits Z.leb Z.compare Pos.compare Pos.compare_cont require_ obind Z.eqb Pos.eqb andb]. now rewrite !c_get_ok by (assumption || lia). Qed.

Lemma sval_eqb_0 w b : 0 < w -> bv_ok w b -> (sval w b =? 0) = (b =? 0).
Proof.
  intros Hw Hb. rewrite sval_top by assumption. unfold bv_ok in Hb. pose proof (pow2_pos w ltac:(lia)).
  destruct (Z.leb_spec (2 ^ (w - 1)) b); cbn [bool_Z]; case_cmp; try reflexivity; pose proof (pow2_pos (w - 1)); lia.
Qed.

(** The one quotient of 64-bit numbers that does not fit. *)
Lemma long_quot_ok w x y :
  0 < w <= 64 -> - 2 ^ (w - 1) <= x < 2 ^ (w - 1) -> y <> 0 ->
  long_ok (Z.quot x y) = negb ((w =? 64) && (x =? LONG_MIN) && (y =? -1)).
Proof.
  intros Hw Hx Hy. pose proof (pow2_le (w - 1) 63 ltac:(lia)). destruct ((x =? LONG_MIN) && (y =? -1)) eqn:E.
  - apply andb_true_iff in E as [E1 E2]. apply Z.eqb_eq in E1, E2. subst. cbn [andb].
    destruct (Z.eqb_spec w 64) as [|N]; [reflexivity|].
    pose proof (pow2_le (w - 1) 62 ltac:(lia)). unfold LONG_MIN in Hx. lia.
  - rewrite <- andb_assoc, E, andb_false_r. cbn [negb]. apply long_ok_spec.
    unfold LONG_MIN, LONG_MAX in *. apply andb_false_iff in E. pose proof (quot_abs_le x y Hy).
    destruct (Z.eq_dec (Z.quot x y) (2 ^ 63)) as [Hbig|]; [|lia]. exfalso.
    assert (x = - 2 ^ 63) by lia. pose proof (Z.quot_rem x y Hy). pose proof (Z.rem_bound_abs x y Hy). rewrite Hbig in *.
    destruct E as [E|E]; apply Z.eqb_neq in E; nia.
Qed.

Lemma c_unsignedMultiply_small w1 a w2 b :
  0 < w1 -> 0 < w2 -> w1 + w2 <= 64 -> bv_ok w1 a -> bv_ok w2 b ->
  c_unsignedMultiply (mkCV w1 a) (mkCV w2 b) = Ret (mkCV (w1 + w2) (a * b)).
Proof.
  intros H1 H2 Hs Ha Hb. unfold c_unsignedMultiply. rewrite c_multiply_small, !c_get_ok by (assumption || lia).
  cbn [obind c_nBits]. rewrite c_number_u64 by lia. unfold bv_ok in Ha, Hb. rewrite Z.mod_small; [reflexivity|].
  rewrite Z.pow_add_r by lia. nia.
Qed.

Lemma product_range w1 a w2 b :
  0 < w1 -> 0 < w2 -> bv_ok w1 a -> bv_ok w2 b -> - 2 ^ (w1 + w2 - 2) <= sval w1 a * sval w2 b <= 2 ^ (w1 + w2 - 2).
Proof.
  intros H1 H2 Ha Hb. pose proof (sval_range w1 a H1 Ha). pose proof (sval_range w2 b H2 Hb).
  replace (w1 + w2 - 2) with ((w1 - 1) + (w2 - 1)) by lia. rewrite Z.pow_add_r by lia. nia.
Qed.

Lemma c_signedMultiply_small w1 a w2 b :
  0 < w1 -> 0 < w2 -> w1 + w2 <= 64 -> bv_ok w1 a -> bv_ok w2 b ->
  c_signedMultiply (mkCV w1 a) (mkCV w2 b) = Ret (mkCV (w1 + w2) ((sval w1 a * sval w2 b) mod 2 ^ (w1 + w2))).
Proof.
  intros H1 H2 Hs Ha Hb. unfold c_signedMultiply. rewrite c_multiply_small, !c_signed_ok by (assumption || lia).
  cbn [obind c_nBits]. pose proof (product_range w1 a w2 b H1 H2 Ha Hb). pose proof (pow2_le (w1 + w2 - 2) 62 ltac:(lia)).
  rewrite chk_long_ok by (unfold LONG_MIN, LONG_MAX; lia). cbn [obind]. now rewrite c_number_u64 by lia.
Qed.

(** Divisions of operands of at most 64 bits. *)
Definition division_traps (w x y : Z) : bool := (w =? 64) && (x =? LONG_MIN) && (y =? -1).

Lemma c_unsignedDivision_ok w1 a w2 b :
  0 < w1 <= 64 -> 0 < w2 <= 64 -> bv_ok w1 a -> bv_ok w2 b ->
  c_unsignedDivide (mkCV w1 a) (mkCV w2 b) = (if b =? 0 then Fail Throw else Ret (mkCV w1 (a / b))) /\
  c_unsignedModulo (mkCV w1 a) (mkCV w2 b) = (if b =? 0 then Fail Throw else Ret (mkCV w2 (a mod b))).
Proof.
  intros H1 H2 Ha Hb. unfold c_unsignedDivide, c_unsignedModulo. cbn [c_nBits]. rewrite (proj2 (Z.eqb_neq w1 128)) by lia. cbn [andb].
  rewrite both_small_ok, !c_get_ok by (assumption || lia). cbn [obind].
  pose proof (pow2_le w1 64 ltac:(lia)). pose proof (pow2_le w2 64 ltac:(lia)).
  destruct (Z.eqb_spec b 0) as [->|Hne]; [now cbn|]. cbn [negb require_ obind]. unfold bv_ok, c_number in *. split.
  - rewrite fromInteger_spec, Z.mod_small by (pose proof (Z.div_pos a b); pose proof (Z.div_le_upper_bound a b a); nia). reflexivity.
  - pose proof (Z.mod_pos_bound a b ltac:(lia)). now rewrite fromInteger_spec, Z.mod_small by lia.
Qed.

Lemma c_signedDivision_ok w1 a w2 b :
  0 < w1 <= 64 -> 0 < w2 <= 64 -> bv_ok w1 a -> bv_ok w2 b ->
  let sa := sval w1 a in let sb := sval w2 b in
  let answer w x := if b =? 0 then Fail Throw else if division_traps w1 sa sb then Fail Undefined else Ret (mkCV w (x mod 2 ^ w)) in
  c_signedDivide (mkCV w1 a) (mkCV w2 b) = answer w1 (Z.quot sa sb) /\
  c_signedModulo (mkCV w1 a) (mkCV w2 b) = answer w2 (Z.rem sa sb).
Proof.
  intros H1 H2 Ha Hb sa sb answer. unfold c_signedDivide, c_signedModulo. rewrite both_small_ok, !c_signed_ok by (assumption || lia).
  cbn [obind]. fold sa sb. pose proof (sval_range w1 a ltac:(lia) Ha) as Sa. pose proof (sval_eqb_0 w2 b ltac:(lia) Hb) as Hz.
  fold sa in Sa. fold sb in Hz. unfold answer. rewrite Hz. destruct (Z.eqb_spec b 0) as [->|Hne]; [now cbn|]. cbn [negb require_ obind c_nBits].
  apply Z.eqb_neq in Hz as Hsb. unfold long_div, long_rem, chk_long. rewrite Hz, (long_quot_ok w1) by assumption.
  fold (division_traps w1 sa sb). destruct (division_traps w1 sa sb); [now split|]. cbn [negb obind]. now rewrite !c_number_u64 by lia.
Qed.

Section Theorems.
Context {St : Type}.
Implicit Type s : St.

(** C34. Multiplications of concrete values.  The product of operands whose
    widths sum to at most 64 bits is exact, unsigned or in two's complement.
    The product of two numbers of 64 bits is computed from their halves; the
    code drops the carry out of the middle column, so the result is too small by
    [2^96] when that column needs more than 64 bits.  The signed multiplication
    computes the same bits as the unsigned one.  For other operands it throws,
    or its assertion fails when an operand has more than 64 bits. *)
Theorem multiply_value w1 a w2 b s :
  0 < w1 -> 0 < w2 -> bv_ok w1 a -> bv_ok w2 b ->
  let smul := signedMultiply (RiscOperators := ConcreteOps St) (mkCV w1 a) (mkCV w2 b) s in
  let umul := unsignedMultiply (RiscOperators := ConcreteOps St) (mkCV w1 a) (mkCV w2 b) s in
  (w1 + w2 <= 64 ->
     umul = Ret (mkCV (w1 + w2) (a * b), s) /\
     exists p, smul = Ret (mkCV (w1 + w2) p, s) /\ bv_ok (w1 + w2) p /\
       (1 < w1 + w2 -> sval (w1 + w2) p = sval w1 a * sval w2 b)) /\
  (w1 = 64 -> w2 = 64 ->
     umul = Ret (mkCV 128 (a * b - (if 2 ^ 64 <=? middle a b then 2 ^ 96 else 0)), s) /\ smul = umul) /\
  (w1 <= 64 -> w2 <= 64 -> 64 < w1 + w2 -> w1 + w2 < 128 -> umul = Fail Throw /\ smul = Fail Throw) /\
  (64 < w1 \/ 64 < w2 -> umul = Fail AssertFail /\ smul = Fail AssertFail).
Proof.
  intros H1 H2 Ha Hb smul umul. subst smul umul. cbn [signedMultiply unsignedMultiply ConcreteOps].
  unfold lift. split; [|split; [|split; unfold c_signedMultiply, c_unsignedMultiply]].
  - intros Hs. rewrite c_unsignedMultiply_small, c_signedMultiply_small by assumption. split; [reflexivity|].
    eexists. split; [reflexivity|]. split; [apply mod_ok; lia|]. intros _. apply sval_of_mod; [lia|].
    pose proof (product_range w1 a w2 b H1 H2 Ha Hb).
    pose proof (pow2_split (w1 + w2 - 2) (w1 + w2 - 1) ltac:(lia)) as Hq.
    replace (w1 + w2 - 1 - (w1 + w2 - 2)) with 1 in Hq by lia. pose proof (pow2_pos (w1 + w2 - 2) ltac:(lia)). lia.
  - intros -> ->. unfold c_signedMultiply, c_unsignedMultiply. rewrite !c_multiply_64 by assumption. now rewrite multiply_64_spec.
  - intros L1 L2 Hs Hm. unfold c_multiply. cbn [c_nBits]. rewrite (proj2 (Z.leb_le w1 64)), (proj2 (Z.leb_le w2 64)) by lia.
    cbn [require_ obind]. replace ((w1 =? 64) && (w2 =? 64)) with false.
    + rewrite (proj2 (Z.ltb_lt 64 (w1 + w2))) by assumption. now split.
    + symmetry. apply andb_false_iff. destruct (Z.eqb_spec w1 64); [right; apply Z.eqb_neq; lia|now left].
  - intros Hw. unfold c_multiply. cbn [c_nBits]. destruct (Z.leb_spec w1 64); [|now split]. cbn [require_ obind].
    rewrite (proj2 (Z.leb_gt w2 64)) by lia. now split.
Qed.

(** * Division *)

(** C35. Divisions of concrete values of at most 64 bits truncate toward zero;
    quotients have the width of the dividend, remainders that of the divisor.
    A zero divisor throws.  Dividing the least number of 64 bits by minus one
    is undefined in the machine arithmetic the code uses. *)
Theorem division_value w1 a w2 b s :
  0 < w1 <= 64 -> 0 < w2 <= 64 -> bv_ok w1 a -> bv_ok w2 b ->
  let sa := sval w1 a in let sb := sval w2 b in
  let run (f : CValue -> CValue -> M St CValue) := f (mkCV w1 a) (mkCV w2 b) s in
  run unsignedDivide = (if b =? 0 then Fail Throw else Ret (mkCV w1 (a / b), s)) /\
  run unsignedModulo = (if b =? 0 then Fail Throw else Ret (mkCV w2 (a mod b), s)) /\
  run signedDivide = (if b =? 0 then Fail Throw else if division_traps w1 sa sb then Fail Undefined
                      else Ret (mkCV w1 (Z.quot sa sb mod 2 ^ w1), s)) /\
  run signedModulo = (if b =? 0 then Fail Throw else if division_traps w1 sa sb then Fail Undefined
                      else Ret (mkCV w2 (Z.rem sa sb mod 2 ^ w2), s)).
Proof.
  intros H1 H2 Ha Hb sa sb run. subst run. cbn [signedDivide signedModulo unsignedDivide unsignedModulo ConcreteOps]. unfold lift.
  destruct (c_unsignedDivision_ok w1 a w2 b H1 H2 Ha Hb) as [-> ->]. destruct (c_signedDivision_ok w1 a w2 b H1 H2 Ha Hb) as [-> ->].
  fold sa sb. destruct (b =? 0); [now cbn|]. now destruct (division_traps w1 sa sb).
Qed.
End Theorems.

(** * Executions *)

(** Squares whose middle column needs 65 bits lose its carry. *)
Theorem multiply_value_witness :
  let a := 2 ^ 64 - 1 in
  unsignedMultiply (RiscOperators := ConcreteOps unit) (mkCV 64 a) (mkCV 64 a) tt = Ret (mkCV 128 (a * a - 2 ^ 96), tt) /\
  exists p, signedMultiply (RiscOperators := ConcreteOps unit) (mkCV 8 0xff) (mkCV 8 2) tt = Ret (mkCV 16 p, tt) /\ sval 16 p = -2.
Proof.
  intros a. split.
  - destruct (multiply_value 64 a 64 a tt eq_refl eq_refl ltac:(now vm_compute) ltac:(now vm_compute)) as (_ & H & _).
    exact (proj1 (H eq_refl eq_refl)).
  - destruct (multiply_value 8 0xff 8 2 tt eq_refl eq_refl ltac:(now vm_compute) ltac:(now vm_compute)) as (H & _).
    destruct (H ltac:(lia)) as (_ & p & Hp & _ & Hs). exists p. split; [exact Hp|exact (Hs ltac:(lia))].
Defined.

Theorem division_value_witness :
  signedDivide (RiscOperators := ConcreteOps unit) (mkCV 8 0xf9) (mkCV 8 2) tt = Ret (mkCV 8 0xfd, tt) /\
  signedModulo (RiscOperators := ConcreteOps unit) (mkCV 64 (2 ^ 63)) (mkCV 64 (2 ^ 64 - 1)) tt = Fail Undefined.
Proof.
  split.
  - destruct (division_value 8 0xf9 8 2 tt ltac:(lia) ltac:(lia) ltac:(now vm_compute) ltac:(now vm_compute)) as (_ & _ & H & _). exact H.
  - destruct (division_value 64 (2 ^ 63) 64 (2 ^ 64 - 1) tt ltac:(lia) ltac:(lia) ltac:(now vm_compute) ltac:(now vm_compute)) as (_ & _ & _ & H). exact H.
Defined.
