(* ===== verification/RiscData.v ===== *)
(** Operations on the parts of concrete values: reversing elements, the fields
    of floating point numbers, and conversions between integer types. *)
From S2P Require Import Prelude BitVector SymType SymExpr SymEval SawyerInterval RiscOps RiscConcrete RiscConcreteFacts.
From Stdlib Require Import Morphisms Setoid.
Open Scope Z_scope.

(** * Elements *)

(** Element [i] of a value made of elements of [e] bits. *)
Definition element (a e i : Z) : Z := a / 2 ^ (i * e) mod 2 ^ e.

Lemma element_ok a e i : 0 <= e -> bv_ok e (element a e i).
Proof. apply mod_ok. Qed.

Lemma element_low e x r : 0 <= e -> bv_ok e x -> element (x + r * 2 ^ e) e 0 = x.
Proof. intros He Hx. unfold element. rewrite Z.mul_0_l, Z.pow_0_r, Z.div_1_r. now apply join_mod. Qed.

Lemma element_high e x r i : 0 <= e -> 0 <= i -> bv_ok e x -> element (x + r * 2 ^ e) e (i + 1) = element r e i.
Proof.
  intros He Hi Hx. unfold element. f_equal. replace ((i + 1) * e) with (e + i * e) by lia.
  rewrite Z.pow_add_r by nia. rewrite <- Z.div_div by (try apply pow2_pos; pose proof (pow2_pos e He); pose proof (pow2_pos (i * e)); nia).
  now rewrite join_div.
Qed.

(** Numbers of [n] elements that agree in each are equal. *)
Lemma elements_inj (n : nat) e a b :
  0 < e -> bv_ok (Z.of_nat n * e) a -> bv_ok (Z.of_nat n * e) b ->
  (forall i, 0 <= i < Z.of_nat n -> element a e i = element b e i) -> a = b.
Proof.
  intros He. revert a b. induction n as [|n IH]; intros a b Ha Hb Hab.
  - unfold bv_ok in *. rewrite Z.mul_0_l in *. lia.
  - pose proof (pow2_pos e ltac:(lia)) as Hp.
    rewrite (Z.div_mod a (2 ^ e)), (Z.div_mod b (2 ^ e)) by lia. f_equal; [f_equal|].
    + assert (E : Z.of_nat (S n) * e - e = Z.of_nat n * e) by lia.
      apply IH; [rewrite <- E; apply div_pow2_ok; [assumption|nia]..|]. intros i Hi. specialize (Hab (i + 1) ltac:(lia)).
      unfold element in *. replace ((i + 1) * e) with (e + i * e) in Hab by lia.
      rewrite !Z.pow_add_r, <- !Z.div_div in Hab by (try apply pow2_pos; pose proof (pow2_pos (i * e)); nia). assumption.
    + specialize (Hab 0 ltac:(lia)). unfold element in Hab. now rewrite Z.mul_0_l, Z.pow_0_r, !Z.div_1_r in Hab.
Qed.

(** * Reversing *)

Section Data.
Context {St : Type}.
Implicit Type s : St.
#[local] Notation ops := (ConcreteOps St).

Lemma c_concatHiLo_ok w a w' b s : 0 <= w -> 0 <= w' -> bv_ok w a -> bv_ok w' b ->
  concatHiLo (Ops := ops) (mkCV w' b) (mkCV w a) s = Ret (mkCV (w + w') (a + b * 2 ^ w), s).
Proof. apply c_concat_ok. Qed.

(** The elements put together so far, in reverse. *)
Definition reversed (a e i r : Z) : Prop :=
  bv_ok (i * e) r /\ forall j, 0 <= j < i -> element r e j = element a e (i - 1 - j).

Lemma reverse_loop_ok (n : nat) w a e i r s :
  0 < e -> 1 <= i -> (i + Z.of_nat n) * e <= w -> reversed a e i r ->
  exists r', reverse_loop (Ops := ops) n (mkCV w a) i e (Some (mkCV (i * e) r)) s =
               Ret (Some (mkCV ((i + Z.of_nat n) * e) r'), s) /\ reversed a e (i + Z.of_nat n) r'.
Proof.
  intros He. revert i r. induction n as [|n IH]; intros i r Hi Hw [Hr Hel].
  - exists r. rewrite Z.add_0_r. split; [reflexivity|now split].
  - cbn [reverse_loop]. erewrite bind_Ret by (apply c_extract_ok; nia).
    replace ((i + 1) * e - i * e) with e by lia. fold (element a e i).
    erewrite bind_Ret by (apply c_concatHiLo_ok; try assumption; try nia; apply element_ok; lia).
    replace (e + i * e) with ((i + 1) * e) by lia. replace (i + Z.of_nat (S n)) with (i + 1 + Z.of_nat n) in * by lia.
    apply IH; [lia|nia|]. split.
    + replace ((i + 1) * e) with (e + i * e) by lia. apply join_ok; [nia|apply element_ok; lia|].
      now replace (e + i * e - e) with (i * e) by lia.
    + intros j Hj. destruct (Z.eq_dec j 0) as [->|Hj0].
      * rewrite element_low by (lia || apply element_ok; lia). f_equal. lia.
      * replace j with (j - 1 + 1) at 1 by lia. rewrite element_high by (lia || apply element_ok; lia).
        rewrite Hel by lia. f_equal. lia.
Qed.

Lemma reversed_first a e : 0 <= e -> reversed a e 1 (element a e 0).
Proof.
  intros He. split; [rewrite Z.mul_1_l; now apply element_ok|]. intros j Hj. replace j with 0 by lia.
  unfold element at 1. rewrite Z.mul_0_l, Z.pow_0_r, Z.div_1_r. apply Z.mod_small. now apply element_ok.
Qed.

Lemma reverseElmts_ok (n : nat) a e s :
  0 < e -> (0 < n)%nat -> exists r, reverseElmts (Ops := ops) (mkCV (Z.of_nat n * e) a) e s = Ret (mkCV (Z.of_nat n * e) r, s) /\
  reversed a e (Z.of_nat n) r.
Proof.
  intros He Hn. unfold reverseElmts. cbn [nBits_ ConcreteOps c_nBits].
  rewrite (proj2 (Z.ltb_lt 0 e)), (proj2 (Z.leb_le e (Z.of_nat n * e))), Z.mod_mul, Z.div_mul, Nat2Z.id by nia.
  do 3 (erewrite bind_Ret by now apply assert_Ret). destruct n as [|n]; [lia|]. cbn [reverse_loop].
  rewrite bind_assoc. erewrite bind_Ret by (apply c_extract_ok; nia). rewrite bind_assoc. erewrite bind_Ret by reflexivity.
  rewrite Z.mul_0_l, Z.add_0_l, Z.sub_0_r. replace (a / 2 ^ 0) with (a / 2 ^ (0 * e)) by (f_equal; lia). rewrite Z.mul_1_l. fold (element a e 0).
  destruct (reverse_loop_ok n (Z.of_nat (S n) * e) a e 1 (element a e 0) s He ltac:(lia) ltac:(nia) (reversed_first a e ltac:(lia))) as (r & Hr & Hrev).
  rewrite Z.mul_1_l in Hr. erewrite bind_Ret by exact Hr. exists r. replace (1 + Z.of_nat n) with (Z.of_nat (S n)) in * by lia.
  split; [|assumption]. cbn [c_nBits nBits_ ConcreteOps]. rewrite Z.eqb_refl. reflexivity.
Qed.

(** [reverseElmts] of a value that divides into elements of [e] bits
    returns the elements in the opposite order, and applied again gives the value
    back; an assertion fails for any other size of elements. *)
Theorem reverseElmts_involutive w a e s :
  0 < w -> bv_ok w a ->
  let rev x := reverseElmts (Ops := ops) (mkCV w x) e s in
  if (0 <? e) && (e <=? w) && (w mod e =? 0)
  then exists r, rev a = Ret (mkCV w r, s) /\ bv_ok w r /\
         (forall i, 0 <= i < w / e -> element r e i = element a e (w / e - 1 - i)) /\ rev r = Ret (mkCV w a, s)
  else rev a = Fail AssertFail.
Proof.
  intros Hw Ha rev. subst rev. cbv beta.
  destruct (Z.ltb_spec 0 e) as [He|He]; [|unfold reverseElmts; now rewrite (proj2 (Z.ltb_ge 0 e))].
  destruct (Z.leb_spec e w) as [Hew|Hew].
  2:{ unfold reverseElmts. cbn [nBits_ ConcreteOps c_nBits]. now rewrite (proj2 (Z.ltb_lt 0 e)), (proj2 (Z.leb_gt e w)). }
  destruct (Z.eqb_spec (w mod e) 0) as [Hm|Hm]; cbn [andb].
  2:{ unfold reverseElmts. cbn [nBits_ ConcreteOps c_nBits].
      now rewrite (proj2 (Z.ltb_lt 0 e)), (proj2 (Z.leb_le e w)), (proj2 (Z.eqb_neq (w mod e) 0)). }
  pose proof (Z.div_mod w e ltac:(lia)) as Hd. rewrite Hm, Z.add_0_r, Z.mul_comm in Hd.
  set (q := w / e) in *. clearbody q. subst w. assert (Hq : 0 < q) by nia.
  rewrite <- (Z2Nat.id q) in * by lia. set (n := Z.to_nat q) in *.
  destruct (reverseElmts_ok n a e s He ltac:(lia)) as (r & Hr & Okr & Elr).
  destruct (reverseElmts_ok n r e s He ltac:(lia)) as (a' & Hr' & Oka & Ela).
  exists r. split; [assumption|]. split; [assumption|]. split; [assumption|]. rewrite Hr'. do 3 f_equal.
  apply (elements_inj n e); [assumption..|]. intros i Hi. rewrite Ela, Elr by lia. f_equal. lia.
Qed.

(** * Floating point fields *)

(** A format whose fields lie within the value, in the order of IEEE 754. *)
Definition ieee_layout (t : FloatType) (ne nf : Z) : Prop :=
  significandBits t = {| lo_ := 0; hi_ := nf - 1 |} /\ exponentBits t = {| lo_ := nf; hi_ := nf + ne - 1 |} /\
  signBit t = nf + ne /\ ft_nBits t = nf + ne + 1 /\ 0 < nf /\ 0 < ne <= 63 /\ gradualUnderflow t = true.

Definition ieee32 : FloatType :=
  {| ft_nBits := 32; significandBits := {| lo_ := 0; hi_ := 22 |}; exponentBits := {| lo_ := 23; hi_ := 30 |}; signBit := 31;
     exponentBias := 127; gradualUnderflow := true; implicitBitConvention := true |}.
Definition ieee64 : FloatType :=
  {| ft_nBits := 64; significandBits := {| lo_ := 0; hi_ := 51 |}; exponentBits := {| lo_ := 52; hi_ := 62 |}; signBit := 63;
     exponentBias := 1023; gradualUnderflow := true; implicitBitConvention := true |}.

(** The formats the code makes, whose construction checks them. *)
Lemma ieee_formats :
  instanceIeee32 = Ret ieee32 /\ ieee_layout ieee32 8 23 /\ instanceIeee64 = Ret ieee64 /\ ieee_layout ieee64 11 52.
Proof. vm_compute. intuition discriminate. Qed.

Definition fraction (a nf : Z) : Z := a mod 2 ^ nf.
Definition exponent (a ne nf : Z) : Z := a / 2 ^ nf mod 2 ^ ne.

Lemma exponent_of_ok t ne nf a s :
  ieee_layout t ne nf -> exponent_of (Ops := ops) (mkCV (ft_nBits t) a) t s = Ret (mkCV ne (exponent a ne nf), s).
Proof.
  intros (_ & He & _ & Hn & Hf & Hne & _). unfold exponent_of. rewrite He, Hn. cbn [lo_ hi_].
  rewrite c_extract_ok by lia. now replace (nf + ne - 1 + 1 - nf) with ne by lia.
Qed.

Lemma significand_of_ok t ne nf a s :
  ieee_layout t ne nf -> significand_of (Ops := ops) (mkCV (ft_nBits t) a) t s = Ret (mkCV nf (fraction a nf), s).
Proof.
  intros (Hs & _ & _ & Hn & Hf & Hne & _). unfold significand_of. rewrite Hs, Hn. cbn [lo_ hi_].
  rewrite c_extract_ok by lia. replace (nf - 1 + 1 - 0) with nf by lia. unfold fraction. now rewrite Z.pow_0_r, Z.div_1_r.
Qed.

Lemma c_not_zero_ok w a s : 0 < w -> bv_ok w a ->
  (let* n := invert (RiscOperators := ops) (mkCV w a) in equalToZero n) s = Ret (mkCV 1 (bool_Z (a =? 2 ^ w - 1)), s).
Proof.
  intros Hw Ha. erewrite bind_Ret by (apply c_invert_ok; assumption). rewrite c_eqz_ok.
  replace (2 ^ w - 1 - a =? 0) with (a =? 2 ^ w - 1); [reflexivity|]. case_cmp; reflexivity || lia.
Qed.

(** The classes of floating point numbers in the layout of IEEE 754, from
    their exponent and fraction fields: not a number, infinite, zero and
    denormalized; and the sign. *)
Theorem fp_classes t ne nf a s :
  ieee_layout t ne nf -> bv_ok (ft_nBits t) a ->
  let e := exponent a ne nf in let f := fraction a nf in
  let run (op : CValue -> FloatType -> M St CValue) (b : bool) := op (mkCV (ft_nBits t) a) t s = Ret (mkCV 1 (bool_Z b), s) in
  run fpIsNan ((e =? 2 ^ ne - 1) && negb (f =? 0)) /\
  run fpIsInfinity ((e =? 2 ^ ne - 1) && (f =? 0)) /\
  run fpIsZero ((e =? 0) && (f =? 0)) /\
  run fpIsDenormalized ((e =? 0) && negb (f =? 0)) /\
  run fpSign (2 ^ (nf + ne) <=? a).
Proof.
  intros Hl Ha e f run. subst run. cbv beta. pose proof Hl as (Hs & He & Hsg & Hn & Hf & Hne & Hg).
  assert (Ef : bv_ok nf f) by (apply mod_ok; lia). assert (Ee : bv_ok ne e) by (apply mod_ok; lia).
  unfold fpIsNan, fpIsInfinity, fpIsZero, fpIsDenormalized, fpSign. rewrite Hg. cbn [negb].
  split; [|split; [|split; [|split]]].
  1-4: erewrite bind_Ret by exact (exponent_of_ok t ne nf a s Hl); erewrite bind_Ret by exact (significand_of_ok t ne nf a s Hl); fold e f.
  - rewrite <- bind_assoc. erewrite bind_Ret by (apply c_not_zero_ok; assumption || lia).
    erewrite bind_Ret by apply c_eqz_ok. erewrite bind_Ret by (apply c_invert_ok; lia || apply bool_Z_ok).
    now rewrite bool_Z_lnot, c_and_ok, bool_Z_land.
  - rewrite <- bind_assoc. erewrite bind_Ret by (apply c_not_zero_ok; assumption || lia).
    erewrite bind_Ret by apply c_eqz_ok. now rewrite c_and_ok, bool_Z_land.
  - do 2 erewrite bind_Ret by apply c_eqz_ok. now rewrite c_and_ok, bool_Z_land.
  - do 2 erewrite bind_Ret by apply c_eqz_ok. erewrite bind_Ret by (apply c_invert_ok; lia || apply bool_Z_ok).
    now rewrite bool_Z_lnot, c_and_ok, bool_Z_land.
  - rewrite c_bit_ok by lia. rewrite Hn in Ha. rewrite Hsg. pose proof (testbit_top (nf + ne + 1) a ltac:(lia) Ha) as Ht.
    replace (nf + ne + 1 - 1) with (nf + ne) in Ht by lia. now rewrite Ht.
Qed.

(** The exponent of the last place, and the significand as an integer. *)
Definition significand_value (t : FloatType) (e f nf : Z) : Z := if e =? 0 then f else 2 ^ nf + f.
Definition last_place (t : FloatType) (e nf : Z) : Z := (if e =? 0 then 1 else e) - exponentBias t - nf.

Lemma log2_lt_width n v : 0 < n -> bv_ok n v -> 0 <= Z.log2 v < n.
Proof.
  intros Hn Hv. unfold bv_ok in Hv. split; [apply Z.log2_nonneg|]. destruct (Z.eq_dec v 0) as [->|]; [cbn; lia|].
  apply Z.log2_lt_pow2; lia.
Qed.

Lemma signed_mod_eq n x y : 0 <= n -> eqm (n + 1) x y -> - 2 ^ n <= y < 2 ^ n -> sval (n + 1) (x mod 2 ^ (n + 1)) = y.
Proof. intros Hw H Hy. unfold eqm in H. rewrite H. apply sval_of_mod; [lia|]. now rewrite Z.add_simpl_r. Qed.

Lemma log2_normal n f : 0 <= n -> 0 <= f < 2 ^ n -> Z.log2 (2 ^ n + f) = n.
Proof. intros Hn Hf. apply Z.log2_unique; [assumption|]. rewrite Z.pow_succ_r by assumption. lia. Qed.

(** The effective exponent of a number that is not zero, read in two's
    complement, is the position of the highest bit of its value: the value is
    the significand times two to the last place, with a leading one unless the
    exponent field is zero. *)
Theorem fpEffectiveExponent_value t ne nf a s :
  ieee_layout t ne nf -> bv_ok (ft_nBits t) a -> 0 <= exponentBias t < 2 ^ ne -> exponentBias t + nf <= 2 ^ ne ->
  let e := exponent a ne nf in let f := fraction a nf in
  exists x, fpEffectiveExponent (Ops := ops) (mkCV (ft_nBits t) a) t s = Ret (mkCV (ne + 1) x, s) /\ bv_ok (ne + 1) x /\
    sval (ne + 1) x = if (e =? 0) && (f =? 0) then 0 else Z.log2 (significand_value t e f nf) + last_place t e nf.
Proof.
  intros Hl Ha Hb Hbf e f. pose proof Hl as (Hs & He & Hsg & Hn & Hf & Hne & Hg).
  assert (Ef : bv_ok nf f) by (apply mod_ok; lia). assert (Ee : bv_ok ne e) by (apply mod_ok; lia).
  pose proof (pow2_le ne 63 ltac:(lia)). pose proof (log2_lt_width nf f Hf Ef) as Hlog.
  pose proof (pow2_split ne (ne + 1) ltac:(lia)) as Hp. replace (ne + 1 - ne) with 1 in Hp by lia. rewrite Z.pow_1_r in Hp.
  unfold fpEffectiveExponent, range_size. rewrite He, Hs. cbn [lo_ hi_].
  replace (nf + ne - 1 - nf + 1) with ne by lia. replace (nf - 1 - 0 + 1) with nf by lia.
  erewrite bind_Ret by exact (exponent_of_ok t ne nf a s Hl). erewrite bind_Ret by exact (significand_of_ok t ne nf a s Hl). fold e f.
  do 2 erewrite bind_Ret by apply c_eqz_ok. erewrite bind_Ret by (apply c_number_ok; lia).
  erewrite bind_Ret by (apply c_number_ok; [lia|apply Z.mod_pos_bound; lia]).
  erewrite bind_Ret by (apply c_mssb_ok; assumption || lia).
  assert (Hm : bv_ok nf (if f =? 0 then 0 else Z.log2 f)).
  { pose proof (Z.pow_gt_lin_r 2 nf ltac:(lia) ltac:(lia)). unfold bv_ok. destruct (f =? 0); lia. }
  erewrite bind_Ret by (apply c_uext_ok; assumption || lia). erewrite bind_Ret by apply c_add_ok.
  erewrite bind_Ret by apply c_ite_ok. erewrite bind_Ret by (apply c_uext_ok; assumption || lia).
  erewrite bind_Ret by (apply c_number_ok; lia). erewrite bind_Ret by (apply c_subtract_ok; [lia|apply mod_ok; lia]).
  rewrite c_ite_ok. unfold significand_value, last_place, bv_ok in *.
  destruct (Z.eqb_spec e 0) as [E0|E0]; [destruct (Z.eqb_spec f 0) as [F0|F0]|]; cbn [andb];
    (eexists; split; [reflexivity|split; [apply mod_ok; lia|]]); apply signed_mod_eq; try lia.
  - reflexivity.
  - rewrite !(eqm_mod (ne + 1)) by lia. rewrite (eqm_le (ne + 1) 64 _ _ ltac:(lia) (eqm_mod 64 _ ltac:(lia))).
    unfold eqm. f_equal. lia.
  - rewrite !(eqm_mod (ne + 1)) by lia. unfold eqm. f_equal. rewrite log2_normal; lia.
  - rewrite log2_normal; lia.
Qed.

(** * Conversions *)

Lemma c_copy_ok a s : copy_ (RiscOperators := ops) a 0 s = Ret (a, s).
Proof. reflexivity. Qed.

Lemma reinterpret_ok w a t s : asm_nBits t = w -> reinterpret (Ops := ops) (mkCV w a) t s = Ret (mkCV w a, s).
Proof. intros Hw. unfold reinterpret. cbn [nBits_ ConcreteOps c_nBits]. rewrite Hw, Z.eqb_refl. reflexivity. Qed.

(** Converting between integer types that are not the same: the value
    is kept modulo the width of the result, with two exceptions.  A signed number
    converted to an unsigned type is taken for unsigned, so a negative one is not
    extended by its sign; and an unsigned number converted to a signed type of
    the same width fails an assertion. *)
Theorem convert_integers a src dst sgn1 sgn2 s :
  asm_class src = IntegerType sgn1 -> asm_class dst = IntegerType sgn2 -> asm_id src <> asm_id dst ->
  let w1 := asm_nBits src in let w2 := asm_nBits dst in
  0 < w1 -> 0 < w2 -> bv_ok w1 a ->
  convert (Ops := ops) (mkCV w1 a) src dst s =
  if negb sgn1 && sgn2 && (w1 =? w2) then Fail AssertFail
  else Ret (mkCV w2 ((if sgn1 && sgn2 then sval w1 a else a) mod 2 ^ w2), s).
Proof.
  intros H1 H2 Hid w1 w2 Hw1 Hw2 Ha. unfold convert. erewrite bind_Ret by now apply reinterpret_ok.
  rewrite (proj2 (Z.eqb_neq _ _) Hid), H1, H2. fold w1 w2.
  assert (Ht : (let* v := unsignedExtend (RiscOperators := ops) (mkCV w1 a) w2 in reinterpret v dst) s = Ret (mkCV w2 (a mod 2 ^ w2), s)).
  { erewrite bind_Ret by (apply c_uext_ok; assumption || lia). now apply reinterpret_ok. }
  destruct sgn1, sgn2; cbn [negb andb]; try exact Ht.
  - destruct (Z.leb_spec w1 w2) as [Hle|Hgt].
    + erewrite bind_Ret by (apply c_sext_ok; assumption || lia). now apply reinterpret_ok.
    + rewrite Ht. do 3 f_equal. rewrite sval_top by assumption. symmetry.
      rewrite (pow2_split w2 w1) by lia. rewrite <- Z.add_opp_r, <- Z.mul_opp_l, Z.mul_assoc. apply Z.mod_add. pose proof (pow2_pos w2). lia.
  - destruct (Z.ltb_spec w1 w2) as [Hlt|Hge]; [rewrite (proj2 (Z.eqb_neq w1 w2)) by lia; exact Ht|].
    destruct (Z.eqb_spec w1 w2) as [He|Hn]; [now rewrite He, Z.ltb_irrefl|].
    rewrite (proj2 (Z.ltb_lt w2 w1)) by lia. erewrite bind_Ret by reflexivity. exact Ht.
Qed.
End Data.

(** * Executions *)

(** A word of four bytes. *)
Theorem reverseElmts_involutive_witness :
  0 < 32 /\ bv_ok 32 0x11223344 /\
  exists r, reverseElmts (Ops := ConcreteOps unit) (mkCV 32 0x11223344) 8 tt = Ret (mkCV 32 r, tt) /\ r = 0x44332211 /\
    reverseElmts (Ops := ConcreteOps unit) (mkCV 32 r) 8 tt = Ret (mkCV 32 0x11223344, tt).
Proof.
  split; [reflexivity|]. split; [now vm_compute|].
  destruct (reverseElmts_involutive 32 0x11223344 8 tt eq_refl ltac:(now vm_compute)) as (r & Hr & _ & _ & Hb).
  exists r. split; [exact Hr|]. split; [|exact Hb].
  assert (E : Ret (mkCV 32 r, tt) = Ret (mkCV 32 0x44332211, tt)) by (rewrite <- Hr; vm_compute; reflexivity). now injection E.
Defined.

(** A signalling and a quiet "not a number", of single precision. *)
Theorem fp_classes_witness :
  ieee_layout ieee32 8 23 /\ bv_ok 32 0xff800001 /\
  fpIsNan (Ops := ConcreteOps unit) (mkCV 32 0xff800001) ieee32 tt = Ret (mkCV 1 1, tt) /\
  fpSign (Ops := ConcreteOps unit) (mkCV 32 0xff800001) ieee32 tt = Ret (mkCV 1 1, tt).
Proof.
  pose proof ieee_formats as (_ & L & _). split; [exact L|]. split; [now vm_compute|].
  destruct (fp_classes ieee32 8 23 0xff800001 tt L ltac:(now vm_compute)) as (H1 & _ & _ & _ & H2). split; [exact H1|exact H2].
Defined.

(** The least positive number of single precision is [2^-149], as its exponent
    of nine bits says. *)
Theorem fpEffectiveExponent_value_witness :
  exists x, fpEffectiveExponent (Ops := ConcreteOps unit) (mkCV 32 1) ieee32 tt = Ret (mkCV 9 x, tt) /\ bv_ok 9 x /\ sval 9 x = -149.
Proof.
  pose proof ieee_formats as (_ & L & _).
  exact (fpEffectiveExponent_value ieee32 8 23 1 tt L ltac:(now vm_compute) ltac:(cbn; lia) ltac:(cbn; lia)).
Defined.

(** A byte to an unsigned word and back, and to a signed byte. *)
Theorem convert_integers_witness :
  let byte := mkAsmType 1 8 (IntegerType true) in
  let word := mkAsmType 2 16 (IntegerType false) in
  let ubyte := mkAsmType 3 8 (IntegerType false) in
  convert (Ops := ConcreteOps unit) (mkCV 8 0xff) byte word tt = Ret (mkCV 16 0xff, tt) /\
  convert (Ops := ConcreteOps unit) (mkCV 8 0xff) ubyte byte tt = Fail AssertFail.
Proof.
  intros byte word ubyte. split.
  - exact (convert_integers 0xff byte word true false tt eq_refl eq_refl ltac:(discriminate) eq_refl eq_refl ltac:(now vm_compute)).
  - exact (convert_integers 0xff ubyte byte false true tt eq_refl eq_refl ltac:(discriminate) eq_refl eq_refl ltac:(now vm_compute)).
Defined.
