(* ===== verification/RiscRefine.v ===== *)
(** Simulations between semantic domains.

    One domain covers another when values of the first stand for values of the
    second, in worlds that grow as operations run, and every primitive operation
    keeps that.  The interface [Simulation] says so; whatever is built from the
    primitives is covered then, with no more to know about the domains. *)
From S2P Require Import Prelude SawyerInterval RiscOps.
Open Scope Z_scope.

(** * Relating computations *)

(** Worlds, their order, and the states that belong to a world. *)
Record Frame (S1 S2 : Type) := {
  World : Type;
  extends : World -> World -> Prop;
  extends_refl : forall w, extends w w;
  extends_trans : forall a b c, extends a b -> extends b c -> extends a c;
  states_at : World -> S1 -> S2 -> Prop
}.
Arguments World {S1 S2}.
Arguments extends {S1 S2}.
Arguments states_at {S1 S2}.

Section Frame.
Context {S1 S2 : Type} (F : Frame S1 S2).

(** Whatever both computations return is related in a later world. *)
Definition simulates {A B} (w : World F) (R : World F -> A -> B -> Prop) (m1 : M S1 A) (m2 : M S2 B) : Prop :=
  forall s1 s2 a s1' b s2', states_at F w s1 s2 -> m1 s1 = Ret (a, s1') -> m2 s2 = Ret (b, s2') ->
  exists w', extends F w w' /\ states_at F w' s1' s2' /\ R w' a b.

Lemma simulates_ret {A B} w (R : World F -> A -> B -> Prop) a b : R w a b -> simulates w R (ret a) (ret b).
Proof.
  intros HR s1 s2 a' s1' b' s2' Hs H1 H2. injection H1 as <- <-. injection H2 as <- <-.
  exists w. auto using extends_refl.
Qed.

Lemma simulates_bind {A B A' B'} w (R : World F -> A -> B -> Prop) (R' : World F -> A' -> B' -> Prop) m1 m2 k1 k2 :
  simulates w R m1 m2 -> (forall w' a b, extends F w w' -> R w' a b -> simulates w' R' (k1 a) (k2 b)) ->
  simulates w R' (bind m1 k1) (bind m2 k2).
Proof.
  intros Hm Hk s1 s2 a s1' b s2' Hs H1 H2. unfold bind in H1, H2.
  destruct (m1 s1) as [[x t1]|] eqn:E1; [|discriminate]. destruct (m2 s2) as [[y t2]|] eqn:E2; [|discriminate].
  destruct (Hm _ _ _ _ _ _ Hs E1 E2) as (w1 & L1 & N1 & R1).
  destruct (Hk w1 x y L1 R1 t1 t2 a s1' b s2' N1 H1 H2) as (w2 & L2 & N2 & R2).
  exists w2. eauto using extends_trans.
Qed.

(** An assertion that both sides make. *)
Lemma simulates_assert {A B} w (R : World F -> A -> B -> Prop) (c1 c2 : bool) e1 e2 k1 k2 :
  (c1 = true -> c2 = true -> simulates w R (k1 tt) (k2 tt)) ->
  simulates w R (bind (lift (require_ c1 e1)) k1) (bind (lift (require_ c2 e2)) k2).
Proof.
  intros H s1 s2 a s1' b s2' Hs H1 H2. destruct c1, c2; try discriminate. now apply (H eq_refl eq_refl s1 s2 a s1' b s2').
Qed.

Lemma simulates_weaken {A B} w (R R' : World F -> A -> B -> Prop) m1 m2 :
  simulates w R m1 m2 -> (forall w' a b, extends F w w' -> R w' a b -> R' w' a b) -> simulates w R' m1 m2.
Proof.
  intros H HR s1 s2 a s1' b s2' Hs H1 H2. destruct (H _ _ _ _ _ _ Hs H1 H2) as (w' & L & N & HR'). eauto.
Qed.
End Frame.

(** * The interface *)

(** The first domain covers the second.  Widths are positive and at most 32767;
    conjunctions are only covered up to 64 bits. *)
Class Simulation {V1 S1 V2 S2} (O1 : RiscOperators V1 S1) (O2 : RiscOperators V2 S2) := {
  frame : Frame S1 S2;
  covers : World frame -> V1 -> V2 -> Prop;
  covers_extends : forall w w' a b, extends frame w w' -> covers w a b -> covers w' a b;
  covers_nBits : forall w a b, covers w a b -> nBits_ a = nBits_ b;
  covers_width : forall w a b s1 s2, states_at frame w s1 s2 -> covers w a b -> 0 < nBits_ b <= 32767;
  covers_number : forall w n k, 0 <= n -> 0 <= k < 2 ^ 64 -> simulates frame w covers (number_ n k) (number_ n k);
  covers_boolean : forall w b, simulates frame w covers (boolean_ b) (boolean_ b);
  covers_and : forall w a b x y, covers w a x -> covers w b y -> nBits_ x <= 64 -> simulates frame w covers (and_ a b) (and_ x y);
  covers_or : forall w a b x y, covers w a x -> covers w b y -> simulates frame w covers (or_ a b) (or_ x y);
  covers_xor : forall w a b x y, covers w a x -> covers w b y -> simulates frame w covers (xor_ a b) (xor_ x y);
  covers_invert : forall w a x, covers w a x ->
    simulates frame w (fun w r s => covers w r s /\ nBits_ s = nBits_ x) (invert a) (invert x);
  covers_extract : forall w a x i j, covers w a x -> 0 <= i -> simulates frame w covers (extract a i j) (extract x i j);
  covers_concat : forall w a x b y, covers w a x -> covers w b y -> simulates frame w covers (concat_ a b) (concat_ x y);
  covers_mssb : forall w a x, covers w a x -> simulates frame w covers (mostSignificantSetBit a) (mostSignificantSetBit x);
  covers_equalToZero : forall w a x, covers w a x ->
    simulates frame w (fun w r s => covers w r s /\ nBits_ s = 1) (equalToZero a) (equalToZero x);
  covers_ite : forall w c q a x b y, covers w c q -> covers w a x -> covers w b y ->
    simulates frame w covers (ite c a b) (ite q x y);
  covers_unsignedExtend : forall w a x m, covers w a x -> 0 <= m < 2 ^ 32 ->
    simulates frame w covers (unsignedExtend a m) (unsignedExtend x m);
  covers_signExtend : forall w a x m, covers w a x -> 0 <= m < 2 ^ 32 ->
    simulates frame w covers (signExtend a m) (signExtend x m);
  covers_add : forall w a b x y, covers w a x -> covers w b y -> simulates frame w covers (add a b) (add x y);
  covers_addWithCarries : forall w a b c x y z, covers w a x -> covers w b y -> covers w c z ->
    simulates frame w (fun w r s => covers w r.1 s.1 /\ covers w r.2 s.2) (addWithCarries a b c) (addWithCarries x y z);
  covers_negate : forall w a x, covers w a x -> simulates frame w covers (negate a) (negate x)
}.

(** * What follows for the operations built from the primitives *)

Section Covered.
Context {V1 S1 V2 S2 : Type} {O1 : RiscOperators V1 S1} {O2 : RiscOperators V2 S2} {Sim : Simulation O1 O2}.
#[local] Notation "w ⊢ m1 ≼ m2" := (simulates frame w covers m1 m2) (at level 70, m1 at level 9, m2 at level 9).

Lemma simulates_width {A B} w (R : World frame -> A -> B -> Prop) m1 m2 a x :
  covers w a x -> (0 < nBits_ x <= 32767 -> simulates frame w R m1 m2) -> simulates frame w R m1 m2.
Proof. intros Ha H s1 s2 r s1' r' s2' Hs. apply H; [|exact Hs]. exact (covers_width w a x s1 s2 Hs Ha). Qed.

(** Carry what is known over to a later world. *)
Ltac renew L :=
  match type of L with
  | extends frame ?w ?w' => repeat match goal with H : covers w _ _ |- _ => apply (covers_extends w w' _ _ L) in H end
  end; clear L.

(** The widths of the two sides agree. *)
Ltac same_widths := repeat match goal with H : covers _ ?a ?x |- context [nBits_ ?a] => rewrite (covers_nBits _ a x H) end.

(** Run the next operation, or the last, by what covers it. *)
Ltac next H :=
  eapply simulates_bind; [eapply H; first [eassumption | lia | idtac]|];
  let L := fresh "L" in intros ?w' ?r ?z L ?Hr; renew L; cbv beta in *; same_widths;
  try match goal with Hr : covers _ _ _ /\ _ |- _ => destruct Hr end.
Ltac last H :=
  first [eapply H; first [eassumption | lia | idtac]
        | eapply simulates_weaken; [eapply H; first [eassumption | lia | idtac]|now intros ? ? ? _ []]].

Lemma covers_subtract w a x b y : covers w a x -> covers w b y -> w ⊢ (subtract a b) ≼ (subtract x y).
Proof. intros Ha Hb. unfold subtract. next covers_negate. last covers_add. Qed.

Lemma covers_isEqual w a x b y : covers w a x -> covers w b y -> w ⊢ (isEqual a b) ≼ (isEqual x y).
Proof. intros Ha Hb. unfold isEqual. next covers_xor. last covers_equalToZero. Qed.

Lemma covers_isUnsignedLessThan w a x b y :
  covers w a x -> covers w b y -> w ⊢ (isUnsignedLessThan a b) ≼ (isUnsignedLessThan x y).
Proof.
  intros Ha Hb. apply (simulates_width w _ _ _ a x Ha). intros Wx. apply (simulates_width w _ _ _ b y Hb). intros Wy.
  unfold isUnsignedLessThan. same_widths. next covers_unsignedExtend. next covers_unsignedExtend. next covers_subtract.
  eapply simulates_width; [eassumption|]. intros Wd. last covers_extract.
Qed.

Lemma covers_isSignedLessThan w a x b y :
  covers w a x -> covers w b y -> w ⊢ (isSignedLessThan a b) ≼ (isSignedLessThan x y).
Proof.
  intros Ha Hb. apply (simulates_width w _ _ _ a x Ha). intros Wx.
  unfold isSignedLessThan. same_widths. apply simulates_assert. intros _ _.
  next covers_signExtend. next covers_signExtend. next covers_subtract. last covers_extract.
Qed.

Lemma covers_orEqual w lt1 lt2 a x b y :
  (forall w, covers w a x -> covers w b y -> w ⊢ lt1 ≼ lt2) -> covers w a x -> covers w b y ->
  w ⊢ (let* lt := lt1 in let* eq := isEqual a b in or_ lt eq) ≼ (let* lt := lt2 in let* eq := isEqual x y in or_ lt eq).
Proof. intros H Ha Hb. next H. next covers_isEqual. last covers_or. Qed.

Lemma covers_not w m1 m2 : w ⊢ m1 ≼ m2 -> w ⊢ (let* r := m1 in invert r) ≼ (let* r := m2 in invert r).
Proof. intros H. next H. last covers_invert. Qed.

(** All ten comparisons. *)
Lemma covers_comparisons w a x b y :
  covers w a x -> covers w b y ->
  w ⊢ (isEqual a b) ≼ (isEqual x y) /\ w ⊢ (isNotEqual a b) ≼ (isNotEqual x y) /\
  w ⊢ (isUnsignedLessThan a b) ≼ (isUnsignedLessThan x y) /\
  w ⊢ (isUnsignedLessThanOrEqual a b) ≼ (isUnsignedLessThanOrEqual x y) /\
  w ⊢ (isUnsignedGreaterThan a b) ≼ (isUnsignedGreaterThan x y) /\
  w ⊢ (isUnsignedGreaterThanOrEqual a b) ≼ (isUnsignedGreaterThanOrEqual x y) /\
  w ⊢ (isSignedLessThan a b) ≼ (isSignedLessThan x y) /\
  w ⊢ (isSignedLessThanOrEqual a b) ≼ (isSignedLessThanOrEqual x y) /\
  w ⊢ (isSignedGreaterThan a b) ≼ (isSignedGreaterThan x y) /\
  w ⊢ (isSignedGreaterThanOrEqual a b) ≼ (isSignedGreaterThanOrEqual x y).
Proof.
  intros Ha Hb.
  assert (Hu : w ⊢ (isUnsignedLessThanOrEqual a b) ≼ (isUnsignedLessThanOrEqual x y)).
  { apply covers_orEqual; try assumption. intros. now apply covers_isUnsignedLessThan. }
  assert (Hs : w ⊢ (isSignedLessThanOrEqual a b) ≼ (isSignedLessThanOrEqual x y)).
  { apply covers_orEqual; try assumption. intros. now apply covers_isSignedLessThan. }
  repeat split; try assumption; try apply covers_not; try assumption;
    now (apply covers_isEqual || apply covers_isUnsignedLessThan || apply covers_isSignedLessThan).
Qed.

(** The sum or difference with its carry and overflow. *)
Definition covers3 (w : World frame) (r : V1 * V1 * V1) (s : V2 * V2 * V2) : Prop :=
  covers w r.1.1 s.1.1 /\ covers w r.1.2 s.1.2 /\ covers w r.2 s.2.

Lemma usub_nonneg a b : 0 <= usub a b.
Proof. apply Z.mod_pos_bound. lia. Qed.

Lemma covers_carry_bits w n (sum1 carries1 : V1) (sum2 carries2 : V2) :
  covers w sum1 sum2 -> covers w carries1 carries2 ->
  simulates frame w covers3
    (let* carryOut := extract carries1 (usub n 1) n in let* carryIn := extract carries1 (usub n 2) (usub n 1) in
     let* overflowed := xor_ carryOut carryIn in ret (sum1, carryOut, overflowed))
    (let* carryOut := extract carries2 (usub n 1) n in let* carryIn := extract carries2 (usub n 2) (usub n 1) in
     let* overflowed := xor_ carryOut carryIn in ret (sum2, carryOut, overflowed)).
Proof.
  intros Hs Hc. pose proof (usub_nonneg n 1). pose proof (usub_nonneg n 2).
  next covers_extract. next covers_extract. next covers_xor. apply simulates_ret. repeat split; assumption.
Qed.

Lemma covers_addCarry w a x b y :
  covers w a x -> covers w b y -> simulates frame w covers3 (addCarry a b) (addCarry x y).
Proof.
  intros Ha Hb. unfold addCarry. same_widths. apply simulates_assert. intros _ _. next covers_boolean.
  eapply simulates_bind; [eapply covers_addWithCarries; eassumption|]. intros w2 [s1 c1] [s2 c2] L [H1 H2]. cbn [fst snd] in *.
  now apply covers_carry_bits.
Qed.

Lemma covers_subtractCarry w a x b y :
  covers w a x -> covers w b y -> simulates frame w covers3 (subtractCarry a b) (subtractCarry x y).
Proof.
  intros Ha Hb. unfold subtractCarry. same_widths. apply simulates_assert. intros _ _. apply simulates_assert. intros _ _.
  next covers_negate. next covers_boolean.
  eapply simulates_bind; [eapply covers_addWithCarries; eassumption|]. intros w2 [s1 c1] [s2 c2] L [H1 H2]. cbn [fst snd] in *.
  now apply covers_carry_bits.
Qed.

Lemma covers_countLeadingZeros w a x :
  covers w a x -> w ⊢ (countLeadingZeros a) ≼ (countLeadingZeros x).
Proof.
  intros Ha. apply (simulates_width w _ _ _ a x Ha). intros Wx. unfold countLeadingZeros. same_widths.
  assert (0 <= usub (nBits_ x) 1 < 2 ^ 64) by (apply Z.mod_pos_bound; lia).
  next covers_mssb. next covers_number. next covers_number. next covers_subtract. next covers_equalToZero. last covers_ite.
Qed.

Lemma covers_countLeadingOnes w a x : covers w a x -> w ⊢ (countLeadingOnes a) ≼ (countLeadingOnes x).
Proof. intros Ha. unfold countLeadingOnes. next covers_invert. last covers_countLeadingZeros. Qed.

(** The elements of a value, in reverse. *)
Definition covers_option (w : World frame) (r : option V1) (s : option V2) : Prop :=
  match r, s with Some a, Some b => covers w a b | None, None => True | _, _ => False end.

Lemma covers_reverse_loop n w a x i e r1 r2 :
  0 <= i -> 0 <= e -> covers w a x -> covers_option w r1 r2 ->
  simulates frame w covers_option (reverse_loop n a i e r1) (reverse_loop n x i e r2).
Proof.
  intros Hi He. revert w i Hi r1 r2. induction n as [|n IH]; intros w i Hi r1 r2 Ha Hr; [now apply simulates_ret|].
  cbn [reverse_loop]. eapply simulates_bind; [apply covers_extract; [eassumption|nia]|]. intros w1 e1 e2 L1 H1.
  pose proof (covers_extends _ _ _ _ L1 Ha) as Ha1.
  eapply simulates_bind with (R := covers).
  - destruct r1, r2; try easy; [|now apply simulates_ret]. apply covers_concat; [assumption|]. exact (covers_extends _ _ _ _ L1 Hr).
  - intros w2 r s L2 H2. apply IH; [lia|exact (covers_extends _ _ _ _ L2 Ha1)|exact H2].
Qed.

Lemma covers_reverseElmts w a x e : covers w a x -> w ⊢ (reverseElmts a e) ≼ (reverseElmts x e).
Proof.
  intros Ha. unfold reverseElmts. same_widths. apply simulates_assert. intros He _. apply Z.ltb_lt in He.
  do 2 (apply simulates_assert; intros _ _).
  eapply simulates_bind; [apply covers_reverse_loop; [lia|lia|exact Ha|exact I]|]. intros w' [r|] [s|] L H; try easy.
  apply simulates_assert. intros _ _. now apply simulates_ret.
Qed.

(** ** Floating point fields *)

Definition format_ok (t : FloatType) : Prop :=
  0 <= lo_ (significandBits t) /\ 0 <= lo_ (exponentBits t) /\ 0 <= signBit t /\ 0 <= range_size (exponentBits t) < 2 ^ 32 - 1 /\
  0 <= exponentBias t < 2 ^ 64.

Lemma covers_exponent_of w a x t : covers w a x -> format_ok t -> w ⊢ (exponent_of a t) ≼ (exponent_of x t).
Proof. intros Ha (_ & He & _). now apply covers_extract. Qed.
Lemma covers_significand_of w a x t : covers w a x -> format_ok t -> w ⊢ (significand_of a t) ≼ (significand_of x t).
Proof. intros Ha (Hs & _). now apply covers_extract. Qed.

Lemma covers_fp_classes w a x t :
  covers w a x -> format_ok t ->
  w ⊢ (fpIsNan a t) ≼ (fpIsNan x t) /\ w ⊢ (fpIsInfinity a t) ≼ (fpIsInfinity x t) /\ w ⊢ (fpIsZero a t) ≼ (fpIsZero x t) /\
  w ⊢ (fpIsDenormalized a t) ≼ (fpIsDenormalized x t) /\ w ⊢ (fpSign a t) ≼ (fpSign x t).
Proof.
  intros Ha Ht. unfold fpIsNan, fpIsInfinity, fpIsZero, fpIsDenormalized, fpSign.
  assert (Hsign : 0 <= signBit t) by apply Ht. split; [|split; [|split; [|split]]].
  - next covers_exponent_of. next covers_significand_of. next covers_invert. next covers_equalToZero. next covers_equalToZero.
    next covers_invert. last covers_and.
  - next covers_exponent_of. next covers_significand_of. next covers_invert. next covers_equalToZero. next covers_equalToZero.
    last covers_and.
  - next covers_exponent_of. next covers_significand_of. next covers_equalToZero. next covers_equalToZero. last covers_and.
  - destruct (negb (gradualUnderflow t)); [apply covers_boolean|].
    next covers_exponent_of. next covers_significand_of. next covers_equalToZero. next covers_equalToZero. next covers_invert. last covers_and.
  - last covers_extract.
Qed.

Lemma covers_fpEffectiveExponent w a x t :
  covers w a x -> format_ok t -> w ⊢ (fpEffectiveExponent a t) ≼ (fpEffectiveExponent x t).
Proof.
  intros Ha Ht. unfold fpEffectiveExponent. assert (Hb : 0 <= exponentBias t < 2 ^ 64) by apply Ht.
  assert (He : 0 <= range_size (exponentBits t) < 2 ^ 32 - 1) by apply Ht.
  assert (Hl : 0 <= (1 - exponentBias t - range_size (significandBits t)) mod 2 ^ 64 < 2 ^ 64) by (apply Z.mod_pos_bound; lia).
  next covers_exponent_of. next covers_significand_of. next covers_equalToZero. next covers_equalToZero. next covers_number.
  next covers_number. next covers_mssb. next covers_unsignedExtend. next covers_add. next covers_ite. next covers_unsignedExtend.
  next covers_number. next covers_subtract. last covers_ite.
Qed.
End Covered.
