(* ===== verification/RiscSymbolic.v ===== *)
(** Symbolic values
    ([src/Rose/BinaryAnalysis/InstructionSemantics/SymbolicSemantics.C]).

    A value is a symbolic expression with the set of instructions that defined
    it.  Operations build expressions, so they go through the simplifier, and
    consume identifiers of variables; a value that is not known at all is marked
    by the flag [BOTTOM] of its expression.

    The simplifier, the solver and the identifiers handed out (the [k]-th request
    gets [fresh k]) are arguments.  Operations that set a value's expression
    ([filterResult]) do so on a value they have just made.  Kinds, comments and
    names of values are not modelled. *)
From S2P Require Import Prelude SymType SymExpr SymSimplify SymMake RiscOps.
From stdpp Require Import gmap sets.
Open Scope Z_scope.

(** * Values *)

Definition UNSPECIFIED : Z := 2.
Definition BOTTOM : Z := 4.

(** [SValue]; an instruction is its address in memory. *)
Record SValue := mkSV { s_expr : expr; s_defs : gset Z }.

Definition s_nBits (a : SValue) : Z := expr_nBits (s_expr a).
Definition isBottom (a : SValue) : bool := negb (Z.land (expr_flags (s_expr a)) BOTTOM =? 0).
Definition s_toUnsigned (a : SValue) : option Z :=
  if isIntegerConstant (s_expr a) && (s_nBits a <=? 64) then toUnsigned (s_expr a) else None.

Definition set_width (a : SValue) (nbits : Z) : outcome SValue :=
  assert! nbits =? s_nBits a else AssertFail in Ret a.
Definition s_copy (a : SValue) (new_width : Z) : outcome SValue :=
  if negb (new_width =? 0) && negb (new_width =? s_nBits a) then set_width a new_width else Ret a.

Definition set_expression (a : SValue) (e : expr) : SValue := mkSV e (s_defs a).
Definition set_defining_instructions (a : SValue) (defs : gset Z) : SValue := mkSV (s_expr a) defs.
Definition add_defining_instructions (a : SValue) (defs : gset Z) : SValue := mkSV (s_expr a) (s_defs a ∪ defs).
(** An instruction that may be missing. *)
Definition add_defining_instruction (a : SValue) (insn : option Z) : SValue :=
  add_defining_instructions a (match insn with Some i => {[i]} | None => ∅ end).
Definition defined_by (a : SValue) (insn : option Z) : SValue := add_defining_instruction a insn.

(** * Configuration and state *)

Inductive DefinersMode := TRACK_NO_DEFINERS | TRACK_LATEST_DEFINER | TRACK_ALL_DEFINERS.

Record SymConfig := {
  computingDefiners : DefinersMode;
  omit_cur_insn : bool;
  currentInstruction : option Z;
  trimThreshold : Z
}.

(** How many identifiers have been handed out, and how many expressions trimmed. *)
Record SymState := mkSymState { names : nat; nTrimmed : Z }.

Section Symbolic.
Variable simplify : option SmtSolver -> expr -> outcome expr.
Variable solver : option SmtSolver.
(** Whether an expression can be true together with the solver's assertions. *)
Variable check_true : SmtSolver -> expr -> outcome Satisfiable.
Variable fresh : nat -> Z.
Variable cfg : SymConfig.
#[local] Notation M := (M SymState).

(** ** Variables and constants *)

(** A new variable ([SymbolicExpression::makeVariable] without an identifier). *)
Definition new_variable (t : outcome type) (flags : Z) : M expr :=
  fun s =>
    let! ty := t in
    let! e := makeVariable ty (fresh (names s)) flags in
    Ret (e, mkSymState (S (names s)) (nTrimmed s)).

Definition instance_symbolic (e : expr) : SValue := mkSV e ∅.
Definition instance_undefined (nbits : Z) : M SValue :=
  let* e := new_variable (type_integer nbits) 0 in ret (instance_symbolic e).
Definition instance_unspecified (nbits : Z) : M SValue :=
  let* e := new_variable (type_integer nbits) UNSPECIFIED in ret (instance_symbolic e).
Definition instance_bottom (nbits : Z) : M SValue :=
  let* e := new_variable (type_integer nbits) BOTTOM in ret (instance_symbolic e).
Definition instance_integer (nbits value : Z) : M SValue :=
  let* e := lift (makeIntegerConstant nbits value 0) in ret (instance_symbolic e).

(** The instruction that new values are said to be defined by. *)
Definition insn_defining : option Z := if omit_cur_insn cfg then None else currentInstruction cfg.

Definition s_number (nbits value : Z) : M SValue :=
  let* retval := instance_integer nbits value in
  ret (match computingDefiners cfg with
       | TRACK_NO_DEFINERS => retval
       | _ => if omit_cur_insn cfg then retval else defined_by retval (currentInstruction cfg)
       end).
Definition s_boolean (b : bool) : M SValue := s_number 1 (if b then 1 else 0).

(** [svalueExpr] makes a value with a new variable and then replaces that. *)
Definition svalueExpr (build : outcome expr) : M SValue :=
  let* e := lift build in
  let* newval := instance_undefined (expr_nBits e) in
  ret (set_defining_instructions (set_expression newval e) ∅).

(** Replace an expression that is too large by a new variable. *)
Definition filterResult (a : SValue) : M SValue :=
  if trimThreshold cfg =? 0 then ret a
  else if nNodes (s_expr a) <=? trimThreshold cfg then ret a
  else
    let* e := new_variable (Ret (expr_type (s_expr a))) (expr_flags (s_expr a)) in
    fun s => Ret (set_expression a e, mkSymState (names s) (nTrimmed s + 1)).

(** ** Definers *)

(** The result gets the definers of the operands and the current instruction,
    or only the latter, or nothing. *)
Definition track (operands : list SValue) (retval : SValue) : SValue :=
  let latest r := add_defining_instruction r insn_defining in
  match computingDefiners cfg with
  | TRACK_NO_DEFINERS => retval
  | TRACK_ALL_DEFINERS => latest (fold_left (fun r a => add_defining_instructions r (s_defs a)) operands retval)
  | TRACK_LATEST_DEFINER => latest retval
  end.

(** An extraction that extracts everything preserves the definers. *)
Definition track_extract (a retval : SValue) : SValue :=
  let noop := s_nBits retval =? s_nBits a in
  match computingDefiners cfg with
  | TRACK_NO_DEFINERS => if noop then add_defining_instructions retval (s_defs a) else retval
  | TRACK_ALL_DEFINERS =>
      let retval := add_defining_instructions retval (s_defs a) in
      if noop then retval else add_defining_instruction retval insn_defining
  | TRACK_LATEST_DEFINER =>
      if noop then add_defining_instructions retval (s_defs a) else add_defining_instruction retval insn_defining
  end.

Definition track_extend (a retval : SValue) : SValue :=
  let latest r :=
    if s_nBits retval =? s_nBits a then add_defining_instructions r (s_defs a) else add_defining_instruction r insn_defining in
  match computingDefiners cfg with
  | TRACK_NO_DEFINERS => retval
  | TRACK_ALL_DEFINERS => latest (add_defining_instructions retval (s_defs a))
  | TRACK_LATEST_DEFINER => latest retval
  end.

(** ** Operations *)

Definition bottom_result (nbits : Z) : M SValue := let* b := instance_bottom nbits in filterResult b.

(** The operations on one and on two operands, by what builds their result;
    [w] is the width of the result that is not known. *)
Definition s_unary (w : Z) (build : expr -> outcome expr) (a : SValue) : M SValue :=
  if isBottom a then bottom_result w
  else let* r := svalueExpr (build (s_expr a)) in filterResult (track [a] r).

Definition s_binary (w : Z) (build : expr -> expr -> outcome expr) (a b : SValue) : M SValue :=
  if isBottom a || isBottom b then bottom_result w
  else let* r := svalueExpr (build (s_expr a) (s_expr b)) in filterResult (track [a; b] r).

Definition same_nBits (a b : SValue) : M unit := lift (require_ (s_nBits a =? s_nBits b) AssertFail).

Definition s_and (a b : SValue) : M SValue :=
  let* _ := same_nBits a b in s_binary (s_nBits a) (fun x y => makeAnd simplify solver x y 0) a b.
Definition s_or (a b : SValue) : M SValue :=
  let* _ := same_nBits a b in s_binary (s_nBits a) (fun x y => makeOr simplify solver x y 0) a b.

Definition s_xor (a b : SValue) : M SValue :=
  let* _ := same_nBits a b in
  if isBottom a || isBottom b then bottom_result (s_nBits a)
  else
    let* retval :=
      match s_toUnsigned a, s_toUnsigned b with
      | Some aNum, Some bNum => s_number (s_nBits a) (Z.lxor aNum bNum)
      | _, _ =>
          let* same := lift (mustEqual solver (s_expr a) (s_expr b)) in
          if same then s_number (s_nBits a) 0
          else svalueExpr (makeXor simplify solver (s_expr a) (s_expr b) 0)
      end in
    filterResult (track [a; b] retval).

Definition s_invert (a : SValue) : M SValue := s_unary (s_nBits a) (fun x => makeInvert simplify solver x 0) a.
Definition s_leastSignificantSetBit (a : SValue) : M SValue := s_unary (s_nBits a) (fun x => makeLssb simplify solver x 0) a.
Definition s_mostSignificantSetBit (a : SValue) : M SValue := s_unary (s_nBits a) (fun x => makeMssb simplify solver x 0) a.
Definition s_equalToZero (a : SValue) : M SValue := s_unary 1 (fun x => makeZerop simplify solver x 0) a.
Definition s_negate (a : SValue) : M SValue := s_unary (s_nBits a) (fun x => makeNegate simplify solver x 0) a.

Definition s_extract (a : SValue) (begin_bit end_bit : Z) : M SValue :=
  let* _ := lift (require_ (end_bit <=? s_nBits a) AssertFail) in
  let* _ := lift (require_ (begin_bit <? end_bit) AssertFail) in
  let* beginExpr := lift (makeIntegerConstant 32 begin_bit 0) in
  let* endExpr := lift (makeIntegerConstant 32 end_bit 0) in
  if isBottom a then
    let* r := svalueExpr (makeExtract simplify solver beginExpr endExpr (s_expr a) BOTTOM) in filterResult r
  else
    let* r := svalueExpr (makeExtract simplify solver beginExpr endExpr (s_expr a) 0) in filterResult (track_extract a r).

Definition s_concat (lo hi : SValue) : M SValue :=
  if isBottom lo || isBottom hi then
    let* r := svalueExpr (makeConcat simplify solver (s_expr hi) (s_expr lo) BOTTOM) in filterResult r
  else
    let* r := svalueExpr (makeConcat simplify solver (s_expr hi) (s_expr lo) 0) in filterResult (track [lo; hi] r).

(** A choice the selector determines; [sel] and the current instruction define it too. *)
Definition chosen (sel x : SValue) (status : IteStatus) : M (SValue * IteStatus) :=
  let* r := lift (s_copy x 0) in let* r := filterResult (track [sel] r) in ret (r, status).

(** Whether the solver, if there is one, refutes a condition. *)
Definition refuted (condition : outcome expr) : M bool :=
  match solver with
  | None => ret false
  | Some s =>
      let* c := lift condition in
      let* r := lift (check_true s c) in ret (bool_decide (r = SAT_NO))
  end.

Definition s_iteWithStatus (sel a b : SValue) : M (SValue * IteStatus) :=
  let* _ := lift (require_ (s_nBits sel =? 1) AssertFail) in
  let* _ := same_nBits a b in
  if isBottom sel then let* r := bottom_result (s_nBits a) in ret (r, ITE_NEITHER)
  else
    match s_toUnsigned sel with
    | Some selNum => if negb (selNum =? 0) then chosen sel a ITE_A else chosen sel b ITE_B
    | None =>
        let* never := refuted (Ret (s_expr sel)) in
        if never : bool then chosen sel b ITE_B
        else
          let* always := refuted (makeInvert simplify solver (s_expr sel) 0) in
          if always : bool then chosen sel a ITE_A
          else
            let* r := svalueExpr (makeIte simplify solver (s_expr sel) (s_expr a) (s_expr b) 0) in
            let* r := filterResult (track [a; b; sel] r) in ret (r, ITE_BOTH)
    end.

(** Shifts and rotations; the amount comes first in the expression. *)
Definition s_shift (build : expr -> expr -> outcome expr) (a sa : SValue) : M SValue :=
  s_binary (s_nBits a) (fun x n => build n x) a sa.

Definition s_rotateLeft := s_shift (fun n x => makeRol simplify solver n x 0).
Definition s_rotateRight := s_shift (fun n x => makeRor simplify solver n x 0).
Definition s_shiftLeft := s_shift (fun n x => makeShl0 simplify solver n x 0).
Definition s_shiftRight := s_shift (fun n x => makeShr0 simplify solver n x 0).
Definition s_shiftRightArithmetic := s_shift (fun n x => makeAsr simplify solver n x 0).

Definition s_extend (build : expr -> expr -> outcome expr) (a : SValue) (new_width : Z) : M SValue :=
  if isBottom a then bottom_result new_width
  else
    let* n := lift (makeIntegerConstant 32 new_width 0) in
    let* r := svalueExpr (build n (s_expr a)) in filterResult (track_extend a r).
Definition s_unsignedExtend := s_extend (fun n x => makeExtend simplify solver n x 0).
Definition s_signExtend := s_extend (fun n x => makeSignExtend simplify solver n x 0).

Definition s_add (a b : SValue) : M SValue :=
  let* _ := same_nBits a b in s_binary (s_nBits a) (fun x y => makeAdd simplify solver x y 0) a b.

Definition s_addWithCarries (a b c : SValue) : M (SValue * SValue) :=
  let* _ := lift (require_ ((s_nBits a =? s_nBits b) && (s_nBits c =? 1)) AssertFail) in
  let n := s_nBits a in
  if isBottom a || isBottom b || isBottom c then
    let* carry_out := instance_bottom n in
    let* r := bottom_result n in ret (r, carry_out)
  else
    let* aa := s_unsignedExtend a (n + 1) in
    let* bb := s_unsignedExtend b (n + 1) in
    let* cc := s_unsignedExtend c (n + 1) in
    let* bc := s_add bb cc in
    let* sumco := s_add aa bc in
    let* x := s_xor bb sumco in
    let* y := s_xor aa x in
    let* carries := s_extract y 1 (n + 1) in
    let* carry_out := filterResult carries in
    let* c' := s_unsignedExtend c n in
    let* bc' := s_add b c' in
    let* sum := s_add a bc' in
    let* r := filterResult sum in
    ret (r, carry_out).

(** Quotients and products. *)
Definition s_signedDivide (a b : SValue) : M SValue := s_binary (s_nBits a) (fun x y => makeSignedDiv simplify solver x y 0) a b.
Definition s_signedModulo (a b : SValue) : M SValue := s_binary (s_nBits b) (fun x y => makeSignedMod simplify solver x y 0) a b.
Definition s_signedMultiply (a b : SValue) : M SValue :=
  s_binary (s_nBits a + s_nBits b) (fun x y => makeSignedMul simplify solver x y 0) a b.
Definition s_unsignedDivide (a b : SValue) : M SValue := s_binary (s_nBits a) (fun x y => makeDiv simplify solver x y 0) a b.
Definition s_unsignedModulo (a b : SValue) : M SValue := s_binary (s_nBits b) (fun x y => makeMod simplify solver x y 0) a b.
Definition s_unsignedMultiply (a b : SValue) : M SValue :=
  s_binary (s_nBits a + s_nBits b) (fun x y => makeMul simplify solver x y 0) a b.

(** ** Comparing values *)

Definition s_must_equal (solver : option SmtSolver) (a other : SValue) : outcome bool :=
  if negb (s_nBits a =? s_nBits other) then Ret false
  else if isBottom a || isBottom other then Ret false
  else mustEqual solver (s_expr a) (s_expr other).

(** * The domain *)

Definition SymbolicOps : RiscOperators SValue SymState := {|
  nBits_ := s_nBits;
  toUnsigned_ := s_toUnsigned;
  undefined_ := instance_undefined;
  unspecified_ := instance_unspecified;
  bottom_ := instance_bottom;
  number_ := s_number;
  boolean_ := s_boolean;
  copy_ a n := lift (s_copy a n);
  and_ := s_and;
  or_ := s_or;
  xor_ := s_xor;
  invert := s_invert;
  extract := s_extract;
  concat_ := s_concat;
  leastSignificantSetBit := s_leastSignificantSetBit;
  mostSignificantSetBit := s_mostSignificantSetBit;
  rotateLeft := s_rotateLeft;
  rotateRight := s_rotateRight;
  shiftLeft := s_shiftLeft;
  shiftRight := s_shiftRight;
  shiftRightArithmetic := s_shiftRightArithmetic;
  equalToZero := s_equalToZero;
  iteWithStatus := s_iteWithStatus;
  unsignedExtend := s_unsignedExtend;
  signExtend := s_signExtend;
  add := s_add;
  addWithCarries := s_addWithCarries;
  negate := s_negate;
  signedDivide := s_signedDivide;
  signedModulo := s_signedModulo;
  signedMultiply := s_signedMultiply;
  unsignedDivide := s_unsignedDivide;
  unsignedModulo := s_unsignedModulo;
  unsignedMultiply := s_unsignedMultiply
|}.
End Symbolic.
