(* ===== verification/RiscBuild.v ===== *)
(** The values of the expressions that the operations on symbolic values build. *)
From S2P Require Import Prelude BitVector SymType SymExpr SymSimplify SymEval SymGood SymAC SymSound SymBits SymAdd SymShift SymTop SymMake RiscOps RiscConcrete RiscConcreteFacts.
Open Scope Z_scope.

Section Build.
Variable uf : Operator -> Z -> list Z -> Z.
Variable ctx : (Z -> Z) -> Prop.
Variable simplify : option SmtSolver -> expr -> outcome expr.
Context {simplifier : SoundSimplifier uf ctx simplify}.
Variable solver : option SmtSolver.
Hypothesis solver_sound : solver_ok uf ctx solver.
#[local] Notation ev env e := (eval uf env e).
#[local] Notation worth := (worth uf ctx).

(** A node of operands of given widths, in the fragment the simplifier is sound for. *)
Lemma op_worth op cs w fl e :
  Forall (fun c => operand (expr_nBits c) c) cs ->
  (forall t, adjustWidth op cs type_none = Ret t -> t = mkType INTEGER w 0) ->
  ok_node op (mkType INTEGER w 0) cs = true ->
  node simplify solver type_none op cs fl = Ret e -> worth e w (fun env => eval_list uf env op w cs).
Proof.
  intros Hcs Ht Hok H. apply (node_denotes uf ctx simplify solver solver_sound) in H as (t & Hta & Hd).
  - rewrite (Ht t Hta) in Hd. exact Hd.
  - apply (Forall_impl _ _ _ Hcs). now intros c (Hg & _).
  - intros t Hta. now rewrite (Ht t Hta).
Qed.

Lemma operand_self w e : operand w e -> operand (expr_nBits e) e.
Proof. now intros (Hg & Hi & _). Qed.

Lemma operand_int w e : operand w e -> isIntegerExpr e = true.
Proof. now intros (_ & Hi & _). Qed.

Lemma operand_nBits w e : operand w e -> expr_nBits e = w.
Proof. now intros (_ & _ & Hw). Qed.

Lemma operand_ev w e env : operand w e -> bv_ok w (ev env e).
Proof. intros He. now apply (operand_bits uf w e env). Qed.

Ltac build_node :=
  match goal with
  | |- Forall _ [_] => constructor; [eapply operand_self; eassumption|constructor]
  | |- Forall _ [_; _] => constructor; [eapply operand_self; eassumption|]; constructor; [eapply operand_self; eassumption|constructor]
  | |- ok_node _ _ _ = true => cbn [ok_node ints forallb]; cbn_args; erewrite !operand_int by eassumption; try reflexivity
  | |- _ => let t := fresh "t" in let Ht := fresh "Ht" in intros t Ht; inv_width Ht; cbn_args; try congruence
  end.

Lemma type_default cs w t :
  adjustWidth_default cs = Ret t -> Forall (fun c => operand w c) cs -> cs <> [] -> t = mkType INTEGER w 0.
Proof.
  intros H Hcs Hne. apply width_default in H. destruct cs as [|c cs]; [congruence|].
  apply Forall_cons in H as [<- _]. apply Forall_cons in Hcs as [Hc _]. now apply operand_type.
Qed.

(** ** Bitwise operations *)

Lemma bitwise_worth op f w a b fl e :
  (op = OP_AND /\ f = Z.land /\ w <= 64) \/ (op = OP_OR /\ f = Z.lor) \/ (op = OP_XOR /\ f = Z.lxor) ->
  operand w a -> operand w b -> node simplify solver type_none op [a; b] fl = Ret e ->
  worth e w (fun env => f (ev env a) (ev env b)).
Proof.
  intros Hop Ha Hb H. destruct (operand_bits uf w a (fun _ => 0) Ha) as [Hw _].
  apply (op_worth _ _ w) in H; [|build_node| |].
  - eapply denotes_ext; [|exact H]. intros env _. cbv beta.
    pose proof (operand_ev w a env Ha) as Va. pose proof (operand_ev w b env Hb) as Vb.
    destruct Hop as [(-> & -> & _)|[(-> & ->)|(-> & ->)]]; unfold eval_list, eval_op, ac_val; cbn [ac_op map fold_right ac_comb ac_inj ac_unit wv snd].
    + rewrite Z.land_m1_r. apply Z.mod_small, land_ok; assumption || lia.
    + rewrite Z.lor_0_r. apply Z.mod_small, lor_ok; assumption || lia.
    + rewrite Z.lxor_0_r. apply Z.mod_small, lxor_ok; assumption || lia.
  - intros t Ht. apply adjustWidth_Ret in Ht as (Ht & _ & _).
    rewrite same_type_width in Ht by (now destruct Hop as [(-> & _)|[(-> & _)|(-> & _)]]).
    apply (type_default _ w) in Ht; [assumption| |discriminate]. constructor; [assumption|]. now constructor.
  - destruct Hop as [(-> & _ & Hle)|[(-> & _)|(-> & _)]]; build_node. cbn [nBits]. rewrite (proj2 (Z.leb_le w 64) Hle). reflexivity.
Qed.

(** ** Operations on one value *)

Lemma zerop_worth w a fl e :
  operand w a -> makeZerop simplify solver a fl = Ret e -> worth e 1 (fun env => bool_Z (ev env a =? 0)).
Proof.
  intros Ha H. unfold makeZerop in H. rewrite (operand_not_fp w a Ha) in H.
  apply (op_worth _ _ 1) in H; [|build_node..].
  eapply denotes_ext; [|exact H]. intros env _. cbv beta. eval_args. now destruct (ev env a =? 0).
Qed.

Lemma mssb_worth w a fl e :
  operand w a -> makeMssb simplify solver a fl = Ret e -> worth e w (fun env => if ev env a =? 0 then 0 else Z.log2 (ev env a)).
Proof.
  intros Ha H. destruct (operand_bits uf w a (fun _ => 0) Ha) as [Hw _].
  apply (op_worth _ _ w) in H; [|build_node..]; [|now rewrite (operand_type uf w a Ha) in *].
  eapply denotes_ext; [|exact H]. intros env _. cbv beta. eval_args.
  rewrite (log2_fits w) by (lia || now apply operand_ev). destruct (Z.eqb_spec (ev env a) 0) as [->|]; reflexivity.
Qed.

Lemma lssb_worth w a fl e :
  operand w a -> makeLssb simplify solver a fl = Ret e ->
  worth e w (fun env => if ev env a =? 0 then 0 else Z.log2 (Z.land (ev env a) (- ev env a))).
Proof.
  intros Ha H. destruct (operand_bits uf w a (fun _ => 0) Ha) as [Hw _].
  apply (op_worth _ _ w) in H; [|build_node..]; [|now rewrite (operand_type uf w a Ha) in *].
  eapply denotes_ext; [|exact H]. intros env _. cbv beta. eval_args. pose proof (operand_ev w a env Ha) as Va.
  rewrite log2_fits; [now destruct (Z.eqb_spec (ev env a) 0) as [->|]|lia|].
  apply land_ok_l; assumption || lia.
Qed.

(** ** Shifts and rotations *)

(** A shift of [a] by [n] is not one of a shift of the same kind. *)
Lemma shift_denotes op wn w n a fl e :
  op = OP_SHL0 \/ op = OP_SHR0 \/ op = OP_ASR \/ op = OP_ROL \/ op = OP_ROR ->
  (op = OP_SHL0 \/ op = OP_SHR0 \/ op = OP_ASR -> isOperator a op = false) -> wn <= 64 ->
  operand wn n -> operand w a -> node simplify solver type_none op [n; a] fl = Ret e ->
  worth e w (fun env => eval_op2 uf op w (wn, ev env n) (w, ev env a) mod 2 ^ w).
Proof.
  intros Hop Hn Hwn Hna Ha H. pose proof (operand_nBits _ _ Hna) as Wn. pose proof (operand_nBits _ _ Ha) as Wa.
  apply (op_worth _ _ w) in H; [|build_node| |].
  - eapply denotes_ext; [|exact H]. intros env _. cbv beta. unfold eval_list, eval_op, wv. cbn [map]. rewrite Wn, Wa.
    now destruct Hop as [->|[->|[->|[->| ->]]]].
  - intros t Ht. destruct Hop as [->|[->|[->|[->| ->]]]]; inv_width Ht; cbn_args; congruence.
  - destruct Hop as [->|[->|[->|[->| ->]]]]; build_node; rewrite ?Hn by auto; cbn [negb andb]; rewrite ?Wn;
      reflexivity || now apply Z.leb_le.
Qed.

(** ** Products and quotients *)

Lemma product_node op wa wb a b fl e :
  op = OP_SMUL \/ (op = OP_UMUL /\ wa + wb <= 255) ->
  operand wa a -> operand wb b -> node simplify solver type_none op [a; b] fl = Ret e ->
  worth e (wa + wb) (fun env => (if op_eqb op OP_SMUL then tsval wa (ev env a) * tsval wb (ev env b) else ev env a * ev env b) mod 2 ^ (wa + wb)).
Proof.
  intros Hop Ha Hb H. pose proof (operand_nBits _ _ Ha) as Wa. pose proof (operand_nBits _ _ Hb) as Wb.
  apply (op_worth _ _ (wa + wb)) in H; [|build_node| |].
  - eapply denotes_ext; [|exact H]. intros env _. cbv beta. unfold eval_list, eval_op, wv, ac_val. cbn [map]. rewrite Wa, Wb.
    destruct Hop as [->|(-> & _)]; cbn [ac_op map fold_right ac_comb ac_inj ac_unit fst snd op_eqb op_index Z.eqb Pos.eqb]; now rewrite Z.mul_1_r.
  - intros t Ht. destruct Hop as [->|(-> & _)]; inv_width Ht; cbn [fold_left] in *; cbn_args; subst t; f_equal; lia.
  - destruct Hop as [->|(-> & Hle)]; build_node. cbn [nBits]. rewrite (proj2 (Z.leb_le _ _) Hle). reflexivity.
Qed.

Lemma quotient_node op wa wb a b fl e :
  op = OP_UDIV \/ op = OP_SDIV \/ op = OP_UMOD \/ op = OP_SMOD ->
  let w := if op_eqb op OP_UDIV || op_eqb op OP_SDIV then wa else wb in
  operand wa a -> operand wb b -> node simplify solver type_none op [a; b] fl = Ret e ->
  worth e w (fun env => eval_op2 uf op w (wa, ev env a) (wb, ev env b) mod 2 ^ w).
Proof.
  intros Hop w Ha Hb H. pose proof (operand_nBits _ _ Ha) as Wa. pose proof (operand_nBits _ _ Hb) as Wb.
  pose proof (operand_type uf _ _ Ha) as Ta. pose proof (operand_type uf _ _ Hb) as Tb.
  apply (op_worth _ _ w) in H; [|build_node| |].
  - eapply denotes_ext; [|exact H]. intros env _. cbv beta. unfold eval_list, eval_op, wv. cbn [map]. rewrite Wa, Wb.
    now destruct Hop as [->|[->|[->| ->]]].
  - subst w. intros t Ht. destruct Hop as [->|[->|[->| ->]]]; inv_width Ht; cbn_args; cbn [op_eqb op_index Z.eqb Pos.eqb orb]; congruence.
  - destruct Hop as [->|[->|[->| ->]]]; build_node.
Qed.

(** ** Extension *)

Lemma sextend_worth w w' n a fl e :
  offset uf n w' -> operand w a -> makeSignExtend simplify solver n a fl = Ret e ->
  worth e w' (fun env => sval w (ev env a) mod 2 ^ w').
Proof.
  intros Hn Ha H. pose proof (operand_nBits _ _ Ha) as Wa. pose proof Hn as (Gn & Cn & _ & Un & Vn).
  assert (In : operand (expr_nBits n) n).
  { split; [assumption|]. split; [|reflexivity]. unfold isIntegerConstant in Cn. now apply andb_true_iff in Cn as [? _]. }
  apply (op_worth _ _ w') in H; [|build_node| |].
  - eapply denotes_ext; [|exact H]. intros env _. cbv beta. unfold eval_list, eval_op, wv. cbn [map]. now rewrite Wa.
  - intros t Ht. inv_width Ht. cbn_args. rewrite Un in *. cbn [default from_option id] in *. congruence.
  - build_node.
Qed.
End Build.
