(* ===== verification/RiscSim.v ===== *)
(** Symbolic execution covers concrete execution.

    A symbolic value stands for a concrete one under values for the variables
    named so far.  When an operation on symbolic values returns, some values for
    the variables it has named make the result stand for what the concrete
    operation returns; the values of older variables stay.  The statement is
    closed under sequencing, so it carries over from the primitive operations to
    everything built from them. *)
From S2P Require Import Prelude BitVector SymType SymExpr SymSimplify SymEval SymGood SymAC SymSound SymBits SymAdd SymShift SymTop SymMake.
From S2P Require Import RiscOps RiscConcrete RiscConcreteFacts RiscArith RiscMulDiv RiscRefine RiscSymbolic RiscBuild.
Open Scope Z_scope.

Section Simulation.
Variable uf : Operator -> Z -> list Z -> Z.
Variable ctx : (Z -> Z) -> Prop.
Variable simplify : option SmtSolver -> expr -> outcome expr.
Context {simplifier : SoundSimplifier uf ctx simplify}.
Variable solver : option SmtSolver.
Hypothesis solver_sound : solver_ok uf ctx solver.
Variable check_true : SmtSolver -> expr -> outcome Satisfiable.
Hypothesis check_sound : forall s e, solver = Some s -> check_true s e = Ret SAT_NO ->
  forall env, ctx env -> eval uf env e = 0.
Variable fresh : nat -> Z.
Hypothesis fresh_inj : forall j k, fresh j = fresh k -> j = k.
Variable cfg : SymConfig.
Context {CSt : Type}.
#[local] Notation ev env e := (eval uf env e).
#[local] Notation worth := (worth uf ctx).
#[local] Notation sops := (SymbolicOps simplify solver check_true fresh cfg).
#[local] Notation cops := (ConcreteOps CSt).
#[local] Notation SM := (M SymState).
#[local] Notation CM := (M CSt).

(** * Worlds *)

(** The values of the variables, of which the first [n] have been named. *)
Definition world : Type := nat * (Z -> Z).

(** Only variables not named in [n] requests differ. *)
Definition agree (n : nat) (env env' : Z -> Z) : Prop :=
  forall x, (forall k, (n <= k)%nat -> x <> fresh k) -> env' x = env x.

(** What a solver has been told does not concern variables to come. *)
Hypothesis ctx_fresh : forall env env', ctx env -> agree 0 env env' -> ctx env'.

Definition later (w w' : world) : Prop := (w.1 <= w'.1)%nat /\ agree w.1 w.2 w'.2.

Lemma agree_le n m env env' : (n <= m)%nat -> agree m env env' -> agree n env env'.
Proof. intros Hle H x Hx. apply H. intros k Hk. apply Hx. lia. Qed.

Lemma later_refl w : later w w.
Proof. split; [lia|]. now intros x _. Qed.

Lemma later_trans a b c : later a b -> later b c -> later a c.
Proof.
  intros [L1 H1] [L2 H2]. split; [lia|]. intros x Hx. rewrite H2 by (intros k Hk; apply Hx; lia). now apply H1.
Qed.

Lemma later_ctx w w' : later w w' -> ctx w.2 -> ctx w'.2.
Proof. intros [_ H] Hw. apply (ctx_fresh w.2); [assumption|]. apply (agree_le 0 w.1); [lia|assumption]. Qed.

#[local] Hint Resolve later_refl later_trans later_ctx : sim.

(** * Values *)

(** An expression stands for a number of [n] bits. *)
Definition means (w : world) (e : expr) (n v : Z) : Prop :=
  operand n e /\ forall env, agree w.1 w.2 env -> ctx env -> ev env e = v.

(** A symbolic value stands for a concrete one. *)
Definition stands (w : world) (a : SValue) (b : CValue) : Prop := means w (s_expr a) (c_nBits b) (c_bits b).

Lemma means_later w w' e n v : later w w' -> means w e n v -> means w' e n v.
Proof.
  intros [Hle Ha] [Ho He]. split; [assumption|]. intros env Henv. apply He. intros x Hx.
  rewrite Henv by (intros k Hk; apply Hx; lia). now apply Ha.
Qed.

Lemma stands_later w w' a b : later w w' -> stands w a b -> stands w' a b.
Proof. apply means_later. Qed.

Lemma means_ok w e n v : ctx w.2 -> means w e n v -> 0 < n <= 32767 /\ bv_ok n v.
Proof.
  intros Hw [Ho He]. destruct (operand_bits uf n e w.2 Ho) as [Hn Hv]. split; [assumption|].
  rewrite <- (He w.2); [assumption| |assumption]. now intros x _.
Qed.

Lemma means_worth w e n f v :
  worth e n f -> (forall env, agree w.1 w.2 env -> ctx env -> f env = v) -> means w e n v.
Proof.
  intros H Hf. apply worth_operand in H as [Ho He]. split; [assumption|]. intros env Ha Hc. rewrite He by assumption. now apply Hf.
Qed.

(** * Simulation *)

(** Whatever the two computations return is related in a later world. *)
Definition sim {A B} (w : world) (R : world -> A -> B -> Prop) (ms : SM A) (mc : CM B) : Prop :=
  forall s a s' c b c', names s = w.1 -> ctx w.2 -> ms s = Ret (a, s') -> mc c = Ret (b, c') ->
  exists w', later w w' /\ names s' = w'.1 /\ R w' a b.

Lemma sim_ret {A B} w (R : world -> A -> B -> Prop) a b : (ctx w.2 -> R w a b) -> sim w R (ret a) (ret b).
Proof.
  intros HR s a' s' c b' c' Hn Hc Hs Hm. injection Hs as <- <-. injection Hm as <- <-.
  exists w. auto using later_refl.
Qed.

Lemma sim_bind {A B A' B'} w (R : world -> A -> B -> Prop) (R' : world -> A' -> B' -> Prop) ms mc ks kc :
  sim w R ms mc -> (forall w' a b, later w w' -> R w' a b -> sim w' R' (ks a) (kc b)) ->
  sim w R' (bind ms ks) (bind mc kc).
Proof.
  intros Hm Hk s a s' c b c' Hn Hc Hs Hmc. unfold bind in Hs, Hmc.
  destruct (ms s) as [[x s1]|] eqn:E1; [|discriminate]. destruct (mc c) as [[y c1]|] eqn:E2; [|discriminate].
  cbn [obind fst snd] in Hs, Hmc. destruct (Hm _ _ _ _ _ _ Hn Hc E1 E2) as (w1 & L1 & N1 & R1).
  destruct (Hk w1 x y L1 R1 s1 a s' c1 b c') as (w2 & L2 & N2 & R2); try assumption; [now apply (later_ctx w)|].
  exists w2. eauto using later_trans.
Qed.

(** Steps of one side only. *)
Lemma sim_concrete {A B} w (R : world -> A -> B -> Prop) ms mc b :
  (ctx w.2 -> forall c, mc c = Ret (b, c)) -> sim w R ms (ret b) -> sim w R ms mc.
Proof.
  intros Hb Hm s a s' c b' c' Hn Hc Hs Hmc. rewrite Hb in Hmc by assumption. injection Hmc as <- <-.
  exact (Hm s a s' c b c Hn Hc Hs eq_refl).
Qed.

Lemma sim_lift {A B A'} w (R : world -> A -> B -> Prop) (m : outcome A') ks mc :
  (forall x, m = Ret x -> sim w R (ks x) mc) -> sim w R (bind (lift m) ks) mc.
Proof.
  intros H s a s' c b c' Hn Hc Hs Hmc. unfold bind, lift in Hs. destruct m as [x|]; [|discriminate].
  exact (H x eq_refl s a s' c b c' Hn Hc Hs Hmc).
Qed.

(** A symbolic step after which the values still stand for each other. *)
Lemma sim_after {A B A'} w (R : world -> A -> B -> Prop) (R1 : world -> A' -> B -> Prop) ms ks b :
  sim w R1 ms (ret b) -> (forall w' a, later w w' -> R1 w' a b -> sim w' R (ks a) (ret b)) ->
  sim w R (bind ms ks) (ret b).
Proof.
  intros Hm Hk s a s' c b' c' Hn Hc Hs Hmc. unfold bind in Hs.
  destruct (ms s) as [[x s1]|] eqn:E1; [|discriminate]. cbn [obind fst snd] in Hs.
  destruct (Hm _ _ _ c b c Hn Hc E1 eq_refl) as (w1 & L1 & N1 & R1').
  destruct (Hk w1 x L1 R1' s1 a s' c b' c') as (w2 & L2 & N2 & R2); try assumption; [now apply (later_ctx w)|].
  exists w2. eauto using later_trans.
Qed.

Lemma sim_weaken {A B} w (R R' : world -> A -> B -> Prop) ms mc :
  sim w R ms mc -> (forall w' a b, later w w' -> ctx w'.2 -> R w' a b -> R' w' a b) -> sim w R' ms mc.
Proof.
  intros H HR s a s' c b c' Hn Hc Hs Hmc. destruct (H _ _ _ _ _ _ Hn Hc Hs Hmc) as (w' & L & N & HR').
  exists w'. eauto using later_ctx.
Qed.

(** * New variables *)

Definition update (env : Z -> Z) (x v : Z) : Z -> Z := fun y => if y =? x then v else env y.

(** A new variable stands for any number of its width. *)
Lemma sim_new_variable w n fl v :
  0 < n <= 32767 -> bv_ok n v ->
  sim w (fun w' e b => means w' e n v) (new_variable fresh (Ret (mkType INTEGER n 0)) fl) (ret (mkCV n v)).
Proof.
  intros Hn Hv s e s' c b c' Hs Hc H _. unfold new_variable, makeVariable, createVariable in H. cbn [obind nBits] in H.
  rewrite (proj2 (Z.eqb_neq n 0)) in H by lia. cbn in H. injection H as <- <-.
  exists (S w.1, update w.2 (fresh w.1) v). rewrite Hs. split; [|split; [reflexivity|]].
  - split; [cbn; lia|]. intros x Hx. cbn. unfold update. rewrite (proj2 (Z.eqb_neq x (fresh w.1))); [reflexivity|]. apply Hx. lia.
  - split; [split; [split; [now split|reflexivity]|now split]|]. intros env Henv _. cbn.
    rewrite Henv; cbn.
    + unfold update. rewrite Z.eqb_refl. now apply Z.mod_small.
    + intros k Hk E. apply fresh_inj in E. lia.
Qed.

(** ** Making values *)

#[local] Notation simv w ms mc := (sim w stands ms mc).

Lemma sim_instance w n fl v :
  bv_ok n v -> simv w (let* e := new_variable fresh (type_integer n) fl in ret (instance_symbolic e)) (ret (mkCV n v)).
Proof.
  intros Hv s a s' c b c' Hs Hc H Hm. destruct (type_integer n) as [ty|] eqn:E; [|discriminate].
  apply type_integer_Ret in E as [-> Hn]. destruct (Z.eq_dec n 0) as [->|Hn0]; [discriminate|].
  assert (0 <= n) by (destruct (Z.lt_ge_cases n 0); [unfold bv_ok in Hv; rewrite Z.pow_neg_r in Hv; lia|assumption]).
  refine (sim_after w stands (fun w' e _ => means w' e n v) _ _ _ _ _ s a s' c b c' Hs Hc H Hm).
  - apply sim_new_variable; assumption || lia.
  - intros w' e _ He. apply sim_ret. intros _. exact He.
Qed.

Lemma sim_undefined w n v : bv_ok n v -> simv w (instance_undefined fresh n) (ret (mkCV n v)).
Proof. apply sim_instance. Qed.
Lemma sim_unspecified w n v : bv_ok n v -> simv w (instance_unspecified fresh n) (ret (mkCV n v)).
Proof. apply sim_instance. Qed.
Lemma sim_bottom w n v : bv_ok n v -> simv w (instance_bottom fresh n) (ret (mkCV n v)).
Proof. apply sim_instance. Qed.

(** Definers do not matter. *)
Lemma stands_expr w a a' b : s_expr a = s_expr a' -> stands w a b -> stands w a' b.
Proof. unfold stands. now intros ->. Qed.

Lemma track_expr ops r : s_expr (track cfg ops r) = s_expr r.
Proof.
  unfold track. destruct (computingDefiners cfg); try reflexivity. cbn. revert r.
  induction ops as [|a ops IH]; intros r; [reflexivity|]. cbn. now rewrite IH.
Qed.
Lemma track_extract_expr a r : s_expr (track_extract cfg a r) = s_expr r.
Proof. unfold track_extract. destruct (computingDefiners cfg); cbv zeta; destruct (s_nBits r =? s_nBits a); reflexivity. Qed.
Lemma track_extend_expr a r : s_expr (track_extend cfg a r) = s_expr r.
Proof.
  unfold track_extend. destruct (computingDefiners cfg); [reflexivity|..]; cbv zeta beta;
    destruct (s_nBits r =? s_nBits a); reflexivity.
Qed.

Lemma sim_filter w a b : stands w a b -> simv w (filterResult fresh cfg a) (ret b).
Proof.
  intros Hab. unfold filterResult. destruct (trimThreshold cfg =? 0); [now apply sim_ret|].
  destruct (nNodes (s_expr a) <=? trimThreshold cfg); [now apply sim_ret|].
  intros s a' s' c b' c' Hs Hc H Hm. destruct (means_ok w _ _ _ Hc Hab) as [Hn Hv]. pose proof Hab as [Ho _].
  rewrite (operand_type uf _ _ Ho) in H. unfold bind in H.
  destruct (new_variable _ _ _ s) as [[e s1]|] eqn:E; [|discriminate]. cbn in H. injection H as <- <-.
  destruct (sim_new_variable w _ _ _ Hn Hv s e s1 c _ c Hs Hc E eq_refl) as (w' & L & N & Hw). exists w'.
  split; [assumption|]. split; [assumption|]. injection Hm as <- <-. exact Hw.
Qed.

Lemma sim_svalueExpr w build n v :
  (forall e, build = Ret e -> means w e n v) -> simv w (svalueExpr fresh build) (ret (mkCV n v)).
Proof.
  intros Hb. unfold svalueExpr. apply sim_lift. intros e He. specialize (Hb e He).
  apply sim_after with (R1 := fun _ _ _ => True).
  - intros s a s' c b c' Hs Hc H Hm. destruct (means_ok w _ _ _ Hc Hb) as [Hn Hv].
    rewrite (operand_nBits _ _ (proj1 Hb)) in H.
    destruct (sim_undefined w n v Hv _ _ _ _ _ _ Hs Hc H Hm) as (w' & L & N & _). now exists w'.
  - intros w' a L _. apply sim_ret. intros _. exact (means_later w w' _ _ _ L Hb).
Qed.

(** A value built, tracked, and filtered. *)
Lemma sim_result w build n v (tr : SValue -> SValue) :
  (forall r, s_expr (tr r) = s_expr r) -> (forall e, build = Ret e -> means w e n v) ->
  simv w (let* r := svalueExpr fresh build in filterResult fresh cfg (tr r)) (ret (mkCV n v)).
Proof.
  intros Ht Hb. apply sim_after with (R1 := stands); [now apply sim_svalueExpr|].
  intros w' a _ Ha. apply sim_filter. now apply (stands_expr w' a).
Qed.

Lemma sim_bottom_result w n v : bv_ok n v -> simv w (bottom_result fresh cfg n) (ret (mkCV n v)).
Proof.
  intros Hv. apply sim_after with (R1 := stands); [now apply sim_bottom|]. intros w' a _. apply sim_filter.
Qed.

(** ** Operations on one and two values *)

(** A number computed from the values of the operands. *)
Lemma means_unary w a n v (F : Z -> Z) m e :
  means w a n v -> worth e m (fun env => F (ev env a)) -> means w e m (F v).
Proof. intros [_ Ha] He. apply (means_worth _ _ _ _ _ He). intros env Hg Hc. now rewrite Ha. Qed.

Lemma means_binary w a n v b n' v' (F : Z -> Z -> Z) m e :
  means w a n v -> means w b n' v' -> worth e m (fun env => F (ev env a) (ev env b)) -> means w e m (F v v').
Proof. intros [_ Ha] [_ Hb] He. apply (means_worth _ _ _ _ _ He). intros env Hg Hc. now rewrite Ha, Hb. Qed.

Lemma sim_s_unary w (F : Z -> Z) m build a n v :
  stands w a (mkCV n v) -> bv_ok m (F v) ->
  (forall e, build (s_expr a) = Ret e -> worth e m (fun env => F (ev env (s_expr a)))) ->
  simv w (s_unary fresh cfg m build a) (ret (mkCV m (F v))).
Proof.
  intros Ha Hv Hb. unfold s_unary. destruct (isBottom a); [now apply sim_bottom_result|].
  apply sim_result; [intros r; apply track_expr|]. intros e He. exact (means_unary w _ _ _ F m e Ha (Hb e He)).
Qed.

Lemma sim_s_binary w (F : Z -> Z -> Z) m build a b n v n' v' :
  stands w a (mkCV n v) -> stands w b (mkCV n' v') -> bv_ok m (F v v') ->
  (forall e, build (s_expr a) (s_expr b) = Ret e -> worth e m (fun env => F (ev env (s_expr a)) (ev env (s_expr b)))) ->
  simv w (s_binary fresh cfg m build a b) (ret (mkCV m (F v v'))).
Proof.
  intros Ha Hb Hv He. unfold s_binary. destruct (isBottom a || isBottom b); [now apply sim_bottom_result|].
  apply sim_result; [intros r; apply track_expr|]. intros e H. exact (means_binary w _ _ _ _ _ _ F m e Ha Hb (He e H)).
Qed.

(** ** The primitive operations *)

Lemma sim_ctx {A B} w (R : world -> A -> B -> Prop) ms mc : (ctx w.2 -> sim w R ms mc) -> sim w R ms mc.
Proof. intros H s a s' c b c' Hs Hc. now apply (H Hc). Qed.

Lemma stands_ok w a n v : ctx w.2 -> stands w a (mkCV n v) -> 0 < n <= 32767 /\ bv_ok n v.
Proof. apply means_ok. Qed.

Lemma stands_nBits w a n v : stands w a (mkCV n v) -> s_nBits a = n.
Proof. intros [Ho _]. exact (operand_nBits _ _ Ho). Qed.

Lemma stands_operand w a n v : stands w a (mkCV n v) -> operand n (s_expr a).
Proof. now intros [Ho _]. Qed.

Lemma sim_same_nBits {A B} w (R : world -> A -> B -> Prop) a n v b n' v' ks mc :
  stands w a (mkCV n v) -> stands w b (mkCV n' v') -> (n = n' -> sim w R (ks tt) mc) ->
  sim w R (bind (same_nBits a b) ks) mc.
Proof.
  intros Ha Hb H. apply sim_lift. intros [] E. apply require_Ret, Z.eqb_eq in E.
  rewrite (stands_nBits _ _ _ _ Ha), (stands_nBits _ _ _ _ Hb) in E. now apply H.
Qed.

(** Open a pair of related values. *)
Tactic Notation "open_value" hyp(H) "as" ident(n) ident(v) :=
  match type of H with
  | stands ?w ?a ?x =>
      destruct x as [n v]; let Hw := fresh "Hw" in let Hv := fresh "Hv" in
      destruct (stands_ok w a n v ltac:(assumption) H) as [Hw Hv]; cbn [c_nBits c_bits] in *
  end.
Ltac open_one Ha := apply sim_ctx; intros ?Hctx; open_value Ha as n v.
Ltac open_two Ha Hb := apply sim_ctx; intros ?Hctx; open_value Ha as n v; open_value Hb as n' v'.

Ltac side := first [assumption | lia | eapply stands_operand; eassumption].

Lemma sim_and w a b x y :
  stands w a x -> stands w b y -> c_nBits x <= 64 -> simv w (and_ (RiscOperators := sops) a b) (and_ (RiscOperators := cops) x y).
Proof.
  intros Ha Hb Hle. open_two Ha Hb. eapply sim_same_nBits; [exact Ha|exact Hb|]. intros <-.
  eapply sim_concrete; [intros _ c; apply c_and_ok|]. rewrite (stands_nBits _ _ _ _ Ha).
  eapply (sim_s_binary _ Z.land); [exact Ha|exact Hb|apply land_ok; side|].
  intros e He. eapply (bitwise_worth uf ctx simplify solver solver_sound OP_AND); [left; auto|..|exact He]; side.
Qed.

Lemma sim_or w a b x y :
  stands w a x -> stands w b y -> simv w (or_ (RiscOperators := sops) a b) (or_ (RiscOperators := cops) x y).
Proof.
  intros Ha Hb. open_two Ha Hb. eapply sim_same_nBits; [exact Ha|exact Hb|]. intros <-.
  eapply sim_concrete; [intros _ c; apply c_or_ok|]. rewrite (stands_nBits _ _ _ _ Ha).
  eapply (sim_s_binary _ Z.lor); [exact Ha|exact Hb|apply lor_ok; side|].
  intros e He. eapply (bitwise_worth uf ctx simplify solver solver_sound OP_OR); [right; left; auto|..|exact He]; side.
Qed.

Lemma sim_add w a b x y :
  stands w a x -> stands w b y -> simv w (add (RiscOperators := sops) a b) (add (RiscOperators := cops) x y).
Proof.
  intros Ha Hb. open_two Ha Hb. eapply sim_same_nBits; [exact Ha|exact Hb|]. intros <-.
  eapply sim_concrete; [intros _ c; apply c_add_ok|]. rewrite (stands_nBits _ _ _ _ Ha).
  eapply (sim_s_binary _ (fun x y => (x + y) mod 2 ^ n)); [exact Ha|exact Hb|apply mod_ok; side|].
  intros e He. apply (makeAdd_sound uf ctx simplify simplifier solver solver_sound n) in He; [exact He|apply operand_elem; side..].
Qed.

Lemma sim_invert w a x :
  stands w a x -> simv w (invert (RiscOperators := sops) a) (invert (RiscOperators := cops) x).
Proof.
  intros Ha. open_one Ha. eapply sim_concrete; [intros _ c; apply c_invert_ok; side|].
  cbn [invert SymbolicOps]. unfold s_invert. rewrite (stands_nBits _ _ _ _ Ha).
  eapply (sim_s_unary _ (fun x => 2 ^ n - 1 - x)); [exact Ha|unfold bv_ok in *; lia|].
  intros e He. apply (invert_worth uf ctx simplify solver solver_sound n) in He; [|side].
  eapply denotes_ext; [|exact He]. intros env _. cbv beta.
  pose proof (operand_ev uf n (s_expr a) env (stands_operand _ _ _ _ Ha)) as Hev. unfold bv_ok in Hev.
  symmetry. apply Z.mod_unique with (q := -1); lia.
Qed.

Lemma sim_negate w a x :
  stands w a x -> simv w (negate (RiscOperators := sops) a) (negate (RiscOperators := cops) x).
Proof.
  intros Ha. open_one Ha. eapply sim_concrete; [intros _ c; apply c_negate_ok; side|].
  cbn [negate SymbolicOps]. unfold s_negate. rewrite (stands_nBits _ _ _ _ Ha).
  eapply (sim_s_unary _ (fun x => (- x) mod 2 ^ n)); [exact Ha|apply mod_ok; side|].
  intros e He. apply (makeNegate_sound uf ctx simplify simplifier solver solver_sound n) in He; [exact He|apply operand_elem; side].
Qed.

Lemma sim_equalToZero w a x :
  stands w a x -> simv w (equalToZero (RiscOperators := sops) a) (equalToZero (RiscOperators := cops) x).
Proof.
  intros Ha. open_one Ha. eapply sim_concrete; [intros _ c; apply c_eqz_ok|].
  eapply (sim_s_unary _ (fun x => bool_Z (x =? 0))); [exact Ha|apply bool_Z_ok|].
  intros e He. eapply (zerop_worth uf ctx simplify solver solver_sound n); [side|exact He].
Qed.

Lemma sim_mostSignificantSetBit w a x :
  stands w a x -> simv w (mostSignificantSetBit (RiscOperators := sops) a) (mostSignificantSetBit (RiscOperators := cops) x).
Proof.
  intros Ha. open_one Ha. eapply sim_concrete; [intros _ c; apply c_mssb_ok; side|].
  cbn [mostSignificantSetBit SymbolicOps]. unfold s_mostSignificantSetBit. rewrite (stands_nBits _ _ _ _ Ha).
  eapply (sim_s_unary _ (fun x => if x =? 0 then 0 else Z.log2 x)); [exact Ha| |].
  - rewrite <- (log2_fits n v) by side. destruct (v =? 0); [split; [lia|apply pow2_pos; lia]|apply mod_ok; lia].
  - intros e He. eapply (mssb_worth uf ctx simplify solver solver_sound n); [side|exact He].
Qed.

Lemma sim_leastSignificantSetBit w a x :
  stands w a x -> simv w (leastSignificantSetBit (RiscOperators := sops) a) (leastSignificantSetBit (RiscOperators := cops) x).
Proof.
  intros Ha. open_one Ha. eapply sim_concrete; [intros _ c; apply c_lssb_ok; side|].
  cbn [leastSignificantSetBit SymbolicOps]. unfold s_leastSignificantSetBit. rewrite (stands_nBits _ _ _ _ Ha).
  eapply (sim_s_unary _ (fun x => if x =? 0 then 0 else Z.log2 (Z.land x (- x)))); [exact Ha| |].
  - rewrite <- (log2_fits n (Z.land v (- v))) by (side || (apply land_ok_l; side)).
    destruct (v =? 0); [split; [lia|apply pow2_pos; lia]|apply mod_ok; lia].
  - intros e He. eapply (lssb_worth uf ctx simplify solver solver_sound n); [side|exact He].
Qed.

(** ** Numbers *)

Lemma sim_constant w n k :
  0 <= n -> 0 <= k < 2 ^ 64 -> sim w (fun w' e b => means w' e n (c_bits b)) (lift (makeIntegerConstant n k 0)) (ret (c_number n k)).
Proof.
  intros Hn0 Hk s e s' c b c' Hs Hc H Hm. unfold lift in H. destruct (makeIntegerConstant n k 0) as [e0|] eqn:E; [|discriminate].
  injection H as <- <-. injection Hm as <- <-. apply makeIntegerConstant_Ret in E as (-> & Hn & Hne). exists w.
  split; [apply later_refl|]. split; [assumption|]. cbn [c_number c_bits]. split; [|reflexivity].
  split; [apply Const_Good; [lia|rewrite fromInteger_spec by lia; apply mod_ok; lia]|now split].
Qed.

Lemma sim_s_number w n k : 0 <= n -> 0 <= k < 2 ^ 64 -> simv w (s_number cfg n k) (ret (c_number n k)).
Proof.
  intros Hn Hk. unfold s_number, instance_integer.
  apply sim_after with (R1 := stands).
  - apply sim_after with (R1 := fun w' e b => means w' e n (c_bits b)); [now apply sim_constant|].
    intros w' e _ He. apply sim_ret. intros _. exact He.
  - intros w' a _ Ha. apply sim_ret. intros _.
    destruct (computingDefiners cfg); [exact Ha|..]; destruct (omit_cur_insn cfg); exact Ha.
Qed.

Lemma sim_number w n k :
  0 <= n -> 0 <= k < 2 ^ 64 -> simv w (number_ (RiscOperators := sops) n k) (number_ (RiscOperators := cops) n k).
Proof. apply sim_s_number. Qed.

Lemma sim_boolean w b : simv w (boolean_ (RiscOperators := sops) b) (boolean_ (RiscOperators := cops) b).
Proof. apply sim_s_number; destruct b; lia. Qed.

(** A number that is known to the symbolic domain is that of the concrete one. *)
Lemma s_toUnsigned_stands w a n v k : ctx w.2 -> stands w a (mkCV n v) -> s_toUnsigned a = Some k -> k = v /\ n <= 64.
Proof.
  intros Hc Ha H. pose proof (stands_nBits _ _ _ _ Ha) as Hn. destruct (stands_ok _ _ _ _ Hc Ha) as [Hw Hv].
  unfold s_toUnsigned in H. rewrite Hn in H. destruct (isIntegerConstant (s_expr a)) eqn:Ei; [|discriminate].
  destruct (Z.leb_spec n 64); [|discriminate]. cbn [andb] in H. split; [|assumption].
  destruct Ha as [Ho He]. specialize (He w.2 (fun x _ => eq_refl) Hc). cbn [c_bits c_nBits] in *.
  pose proof (operand_type uf _ _ Ho) as Ht. unfold isIntegerConstant in Ei. apply andb_true_iff in Ei as [_ Ei].
  apply isConstant_inv in Ei as (t & v' & f & E). rewrite E in *. cbn in He, Ht. subst t v'.
  rewrite toUnsigned_64 in H by (assumption || lia). congruence.
Qed.

Lemma operand_wt n e : operand n e -> wt e.
Proof. now intros ((Hw & _) & _). Qed.

Lemma sim_xor w a b x y :
  stands w a x -> stands w b y -> simv w (xor_ (RiscOperators := sops) a b) (xor_ (RiscOperators := cops) x y).
Proof.
  intros Ha Hb. open_two Ha Hb. eapply sim_same_nBits; [exact Ha|exact Hb|]. intros <-.
  eapply sim_concrete; [intros _ c; apply c_xor_ok|]. rewrite (stands_nBits _ _ _ _ Ha).
  pose proof (lxor_ok n v v' ltac:(lia) ltac:(assumption) ltac:(assumption)) as Hx.
  destruct (isBottom a || isBottom b); [now apply sim_bottom_result|].
  apply sim_after with (R1 := stands).
  2:{ intros w' r _ Hr. apply sim_filter. apply (stands_expr w' r); [|assumption]. symmetry. apply track_expr. }
  assert (Hnum : forall k, k = Z.lxor v v' -> 0 <= k < 2 ^ 64 -> simv w (s_number cfg n k) (ret (mkCV n (Z.lxor v v')))).
  { intros k -> Hk. replace (mkCV n (Z.lxor v v')) with (c_number n (Z.lxor v v')); [apply sim_s_number; lia|].
    unfold c_number. rewrite fromInteger_spec by lia. f_equal. apply Z.mod_small. exact Hx. }
  assert (Hexpr : simv w (let* same := lift (mustEqual solver (s_expr a) (s_expr b)) in
      if same : bool then s_number cfg n 0 else svalueExpr fresh (makeXor simplify solver (s_expr a) (s_expr b) 0))
      (ret (mkCV n (Z.lxor v v')))).
  { apply sim_lift. intros [] E.
    - apply Hnum; [|lia]. pose proof Ha as [Oa Ea]. pose proof Hb as [Ob Eb]. specialize (Ea w.2 (fun x _ => eq_refl) Hctx).
      specialize (Eb w.2 (fun x _ => eq_refl) Hctx). cbn [c_bits] in *.
      rewrite <- Ea, <- Eb, (mustEqual_eval uf w.2 solver (s_expr a) (s_expr b)), Z.lxor_nilpotent; try reflexivity; try assumption;
        [now apply solver_sound|eapply operand_wt; eassumption..].
    - apply sim_svalueExpr. intros e He. eapply (means_binary w _ _ _ _ _ _ Z.lxor); [exact Ha|exact Hb|].
      eapply (bitwise_worth uf ctx simplify solver solver_sound OP_XOR); [right; right; auto|..|exact He]; side. }
  destruct (s_toUnsigned a) as [ka|] eqn:Ka; [|exact Hexpr]. destruct (s_toUnsigned b) as [kb|] eqn:Kb; [|exact Hexpr].
  destruct (s_toUnsigned_stands _ _ _ _ _ Hctx Ha Ka) as [-> Hn64], (s_toUnsigned_stands _ _ _ _ _ Hctx Hb Kb) as [-> _].
  apply Hnum; [reflexivity|]. exact (ok_le n 64 _ Hx ltac:(lia)).
Qed.

(** ** Parts of values *)

Lemma sim_require {A B} w (R : world -> A -> B -> Prop) b e ks mc :
  (b = true -> sim w R (ks tt) mc) -> sim w R (bind (lift (require_ b e)) ks) mc.
Proof. intros H. apply sim_lift. intros [] E. apply H. exact (require_Ret _ _ _ E). Qed.

Lemma sim_require_r {A B} w (R : world -> A -> B -> Prop) b e ms kc :
  (b = true -> sim w R ms (kc tt)) -> sim w R ms (bind (lift (require_ b e)) kc).
Proof.
  intros H s a s' c y c' Hs Hc Hms Hmc. destruct b; [|discriminate]. now apply (H eq_refl s a s' c y c').
Qed.

Lemma sim_fail {A B} w (R : world -> A -> B -> Prop) ms mc : (forall c b c', mc c <> Ret (b, c')) -> sim w R ms mc.
Proof. intros H s a s' c b c' _ _ _ Hmc. now apply H in Hmc. Qed.

Lemma sim_value {A B} w (R : world -> A -> B -> Prop) ms mc b :
  sim w R ms mc -> (forall c, mc c = Ret (b, c)) -> sim w R ms (ret b).
Proof.
  intros H Hb s a s' c b' c' Hs Hc Hms Hm. injection Hm as <- <-. now apply (H s a s' c b c).
Qed.

Lemma sim_extract w a x i j :
  stands w a x -> 0 <= i -> simv w (extract (RiscOperators := sops) a i j) (extract (RiscOperators := cops) x i j).
Proof.
  intros Ha Hi. open_one Ha. cbn [extract SymbolicOps]. unfold s_extract. rewrite (stands_nBits _ _ _ _ Ha).
  apply sim_require. intros Hj%Z.leb_le. apply sim_require. intros Hij%Z.ltb_lt.
  eapply sim_concrete; [intros _ c; apply c_extract_ok; lia|].
  apply sim_lift. intros ei Ei. apply sim_lift. intros ej Ej.
  apply (offset_make uf) in Ei; [|lia..]. apply (offset_make uf) in Ej; [|lia..].
  assert (Hb : forall fl e, makeExtract simplify solver ei ej (s_expr a) fl = Ret e -> means w e (j - i) (v / 2 ^ i mod 2 ^ (j - i))).
  { intros fl e He. pose proof (stands_operand _ _ _ _ Ha) as (Ga & Ia & Wa).
    apply (makeExtract_sound uf ctx simplify simplifier solver solver_sound _ _ _ i j) in He; try assumption; try lia.
    exact (means_unary w _ _ _ (fun x => x / 2 ^ i mod 2 ^ (j - i)) _ e Ha He). }
  destruct (isBottom a).
  - apply (sim_result w _ _ _ (fun r => r)); [reflexivity|]. intros e. apply Hb.
  - apply sim_result; [intros r; apply track_extract_expr|]. intros e. apply Hb.
Qed.

Lemma sim_concat w a x b y :
  stands w a x -> stands w b y -> simv w (concat_ (RiscOperators := sops) a b) (concat_ (RiscOperators := cops) x y).
Proof.
  intros Ha Hb. open_two Ha Hb. eapply sim_concrete; [intros _ c; apply c_concat_ok; side|].
  assert (He : forall fl e, makeConcat simplify solver (s_expr b) (s_expr a) fl = Ret e -> means w e (n + n') (v + v' * 2 ^ n)).
  { intros fl e He. pose proof (stands_operand _ _ _ _ Ha) as (Ga & Ia & Wa). pose proof (stands_operand _ _ _ _ Hb) as (Gb & Ib & Wb).
    apply (makeConcat_sound uf ctx simplify simplifier solver solver_sound) in He; try assumption. rewrite Wa, Wb in He.
    rewrite (Z.add_comm n n'). apply (means_binary w _ _ _ _ _ _ (fun x y => x + y * 2 ^ n) _ e Ha Hb).
    eapply denotes_ext; [|exact He]. intros env _. cbv beta. lia. }
  cbn [concat_ SymbolicOps]. unfold s_concat. destruct (isBottom a || isBottom b).
  - apply (sim_result w _ _ _ (fun r => r)); [reflexivity|]. intros e. apply He.
  - apply sim_result; [intros r; apply track_expr|]. intros e. apply He.
Qed.

(** ** Extension *)

Lemma sim_s_extend w build a n v m x :
  stands w a (mkCV n v) -> 0 <= m < 2 ^ 32 -> bv_ok m x ->
  (forall c e, offset uf c m -> build c (s_expr a) = Ret e -> means w e m x) ->
  simv w (s_extend fresh cfg build a m) (ret (mkCV m x)).
Proof.
  intros Ha Hm Hx He. unfold s_extend. destruct (isBottom a); [now apply sim_bottom_result|].
  apply sim_lift. intros c Hc. apply (offset_make uf) in Hc; [|lia..].
  apply sim_result; [intros r; apply track_extend_expr|]. intros e. now apply He.
Qed.

Lemma sim_unsignedExtend w a x m :
  stands w a x -> 0 <= m < 2 ^ 32 -> simv w (unsignedExtend (RiscOperators := sops) a m) (unsignedExtend (RiscOperators := cops) x m).
Proof.
  intros Ha Hm. open_one Ha. eapply sim_concrete; [intros _ c; apply c_uext_ok; side|].
  eapply sim_s_extend; [exact Ha|assumption|apply mod_ok; lia|]. intros c e Hc He.
  apply (means_unary w _ _ _ (fun x => x mod 2 ^ m) _ e Ha). pose proof (stands_operand _ _ _ _ Ha) as Oa.
  pose proof Hc as (Gc & Cc & _ & Uc & _).
  apply (op_worth uf ctx simplify solver solver_sound OP_UEXTEND [c; s_expr a] m 0) in He; [exact He| | |].
  - constructor; [|constructor; [eapply operand_self; exact Oa|constructor]]. split; [assumption|]. split; [|reflexivity].
    unfold isIntegerConstant in Cc. now apply andb_true_iff in Cc as [? _].
  - intros t Ht. inv_width Ht. cbn_args. rewrite Uc in *. cbn [default from_option id] in *. congruence.
  - cbn [ok_node ints forallb]. rewrite (operand_int _ _ Oa). unfold isIntegerConstant in Cc. apply andb_true_iff in Cc as [-> _]. reflexivity.
Qed.

Lemma sim_signExtend w a x m :
  stands w a x -> 0 <= m < 2 ^ 32 -> simv w (signExtend (RiscOperators := sops) a m) (signExtend (RiscOperators := cops) x m).
Proof.
  intros Ha Hm. open_one Ha. eapply sim_concrete; [intros _ c; apply c_sext_ok; side|].
  eapply sim_s_extend; [exact Ha|assumption|apply mod_ok; lia|]. intros c e Hc He.
  apply (means_unary w _ _ _ (fun x => sval n x mod 2 ^ m) _ e Ha).
  eapply (sextend_worth uf ctx simplify solver solver_sound); [exact Hc|side|exact He].
Qed.

(** ** Selection *)

(** The status of a choice; the symbolic domain may not know it. *)
Definition status_covers (st st' : IteStatus) : Prop := st = st' \/ st = ITE_BOTH \/ st = ITE_NEITHER.
Definition stands_status (w : world) (a : SValue * IteStatus) (b : CValue * IteStatus) : Prop :=
  stands w a.1 b.1 /\ status_covers a.2 b.2.

Lemma sim_with_status w ms b st st' :
  simv w ms (ret b) -> status_covers st st' -> sim w stands_status (let* r := ms in ret (r, st)) (ret (b, st')).
Proof.
  intros Hm Hst. apply sim_value with (mc := let* r := ret b in ret (r, st')); [|reflexivity].
  eapply sim_bind; [exact Hm|]. intros w' r y _ Hr. apply sim_ret. intros _. now split.
Qed.

Lemma sim_chosen w sel a b st :
  stands w a b -> sim w stands_status (chosen fresh cfg sel a st) (ret (b, st)).
Proof.
  intros Ha. unfold chosen. apply sim_lift. intros r E. injection E as <-.
  apply sim_with_status; [|now left]. apply sim_filter. apply (stands_expr w a); [|assumption]. symmetry. apply track_expr.
Qed.

Lemma sim_refuted {A B} w (R : world -> A -> B -> Prop) cond ks mc :
  (forall s c, solver = Some s -> cond = Ret c -> check_true s c = Ret SAT_NO -> sim w R (ks true) mc) ->
  sim w R (ks false) mc -> sim w R (bind (refuted solver check_true cond) ks) mc.
Proof.
  intros Ht Hf s a s' c b c' Hs Hc H Hm. unfold refuted, bind, lift, ret in H. destruct solver as [sv|] eqn:Es.
  - destruct cond as [e|] eqn:Ee; [|discriminate]. cbn [obind fst snd] in H.
    destruct (check_true sv e) as [r|] eqn:Er; [|discriminate]. cbn [obind fst snd] in H.
    destruct (bool_decide_reflect (r = SAT_NO)) as [->|_]; [exact (Ht sv e eq_refl eq_refl Er s a s' c b c' Hs Hc H Hm)|].
    exact (Hf s a s' c b c' Hs Hc H Hm).
  - exact (Hf s a s' c b c' Hs Hc H Hm).
Qed.

Lemma sim_iteWithStatus w sel q a x b y :
  stands w sel q -> stands w a x -> stands w b y ->
  sim w stands_status (iteWithStatus (RiscOperators := sops) sel a b) (iteWithStatus (RiscOperators := cops) q x y).
Proof.
  intros Hq Ha Hb. open_two Ha Hb. destruct q as [m k]. destruct (stands_ok w sel m k Hctx Hq) as [Hm Hk].
  cbn [iteWithStatus SymbolicOps]. unfold s_iteWithStatus. rewrite (stands_nBits _ _ _ _ Hq).
  apply sim_require. intros ->%Z.eqb_eq. eapply sim_same_nBits; [exact Ha|exact Hb|]. intros <-. rewrite (stands_nBits _ _ _ _ Ha).
  assert (Hc : forall c, iteWithStatus (RiscOperators := cops) (mkCV 1 k) (mkCV n v) (mkCV n v') c =
                 Ret (if negb (k =? 0) then (mkCV n v, ITE_A) else (mkCV n v', ITE_B), c)).
  { intros c. cbn [iteWithStatus ConcreteOps]. unfold lift, c_iteWithStatus. cbn [c_nBits Z.eqb Pos.eqb require_ obind]. rewrite c_get_ok by (assumption || lia).
    cbn [obind]. now destruct (negb (k =? 0)). }
  eapply sim_concrete; [intros _; exact Hc|].
  assert (Hk01 : k = 0 \/ k = 1) by (unfold bv_ok in Hk; cbn in Hk; lia).
  destruct (isBottom sel).
  { destruct (negb (k =? 0)); apply sim_with_status; try (right; now right); now apply sim_bottom_result. }
  destruct (s_toUnsigned sel) as [k'|] eqn:Ek.
  { destruct (s_toUnsigned_stands _ _ _ _ _ Hctx Hq Ek) as [-> _]. destruct (negb (k =? 0)); now apply sim_chosen. }
  pose proof (stands_operand _ _ _ _ Hq) as Oq. pose proof (proj2 Hq w.2 (fun x _ => eq_refl) Hctx) as Vq. cbn [c_bits] in Vq.
  apply sim_refuted.
  { intros s c Hs E Hno. injection E as <-. rewrite (check_sound s _ Hs Hno w.2 Hctx) in Vq. rewrite <- Vq. now apply sim_chosen. }
  apply sim_refuted.
  { intros s c Hs E Hno. apply (invert_worth uf ctx simplify solver solver_sound 1) in E; [|assumption].
    apply worth_operand in E as [_ E]. specialize (E w.2 Hctx). rewrite (check_sound s _ Hs Hno w.2 Hctx), Vq in E.
    destruct Hk01 as [->| ->]; [discriminate|]. now apply sim_chosen. }
  assert (He : forall e, makeIte simplify solver (s_expr sel) (s_expr a) (s_expr b) 0 = Ret e ->
                means w e n (if k =? 0 then v' else v)).
  { intros e He. pose proof (stands_operand _ _ _ _ Ha) as Oa. pose proof (stands_operand _ _ _ _ Hb) as Ob.
    apply (makeIte_sound uf ctx simplify simplifier solver solver_sound (mkType INTEGER n 0)) in He;
      try apply Oq; try apply Oa; try apply Ob; try now apply (operand_type uf).
    apply (means_worth w e n _ _ He). intros env Hag Hce. cbv beta. rewrite (proj2 Hq), (proj2 Ha), (proj2 Hb) by assumption. reflexivity. }
  assert (Hr : simv w (let* r := svalueExpr fresh (makeIte simplify solver (s_expr sel) (s_expr a) (s_expr b) 0) in
                       filterResult fresh cfg (track cfg [a; b; sel] r)) (ret (mkCV n (if k =? 0 then v' else v)))).
  { apply sim_result; [intros r; apply track_expr|]. exact He. }
  replace (if negb (k =? 0) then (mkCV n v, ITE_A) else (mkCV n v', ITE_B))
    with (mkCV n (if k =? 0 then v' else v), if k =? 0 then ITE_B else ITE_A) by (now destruct (k =? 0)).
  intros s r s' c z c' Hs Hcc H Hm'.
  apply (sim_with_status w _ _ ITE_BOTH (if k =? 0 then ITE_B else ITE_A) Hr ltac:(right; now left) s r s' c z c' Hs Hcc); [|exact Hm'].
  now rewrite bind_assoc.
Qed.

Lemma sim_ite w sel q a x b y :
  stands w sel q -> stands w a x -> stands w b y ->
  simv w (ite (Ops := sops) sel a b) (ite (Ops := cops) q x y).
Proof.
  intros Hq Ha Hb. eapply sim_bind; [now apply sim_iteWithStatus|].
  intros w' r z _ [Hr _]. apply sim_ret. now intros _.
Qed.

(** ** Shifts and rotations *)

(** A shift, by the function on bit vectors that the concrete domain uses. *)
Lemma sim_shift w op f (build : expr -> expr -> outcome expr) a x sa y :
  stands w a x -> stands w sa y ->
  op = OP_SHL0 \/ op = OP_SHR0 \/ op = OP_ASR \/ op = OP_ROL \/ op = OP_ROR ->
  (op = OP_SHL0 \/ op = OP_SHR0 \/ op = OP_ASR -> isOperator (s_expr a) op = false) ->
  (forall n e, build n e = node simplify solver type_none op [n; e] 0) ->
  (forall n v k, 0 < n -> bv_ok n v -> 0 <= k -> f n v k = eval_op2 uf op n (n, k) (n, v) mod 2 ^ n) ->
  (forall n m v k, eval_op2 uf op n (m, k) (n, v) = eval_op2 uf op n (n, k) (n, v)) ->
  simv w (s_shift fresh cfg build a sa) (lift (c_shift f x y)).
Proof.
  intros Ha Hs Hop Hno Hb Hf Hm. open_two Ha Hs. destruct (Z.le_gt_cases n' 64) as [Hle|Hgt].
  2:{ apply sim_fail. intros c b c' H. unfold lift, c_shift, c_get in H. rewrite c_toUnsigned_wide in H by lia. discriminate. }
  assert (Hk : 0 <= v') by apply Hv0.
  eapply sim_concrete.
  { intros _ c. apply lift_Ret. unfold c_shift. rewrite c_get_ok by (assumption || lia). reflexivity. }
  cbn [obind c_nBits c_bits]. unfold s_shift. rewrite (stands_nBits _ _ _ _ Ha).
  rewrite Hf by (assumption || lia).
  eapply (sim_s_binary _ (fun x k => eval_op2 uf op n (n, k) (n, x) mod 2 ^ n)); [exact Ha|exact Hs|apply mod_ok; lia|].
  intros e He. rewrite Hb in He.
  eapply (shift_denotes uf ctx simplify solver solver_sound op n' n) in He; try eassumption; try (eapply stands_operand; eassumption).
  eapply denotes_ext; [|exact He]. intros env _. cbv beta. now rewrite Hm.
Qed.

Lemma sim_shiftLeft w a x sa y :
  stands w a x -> stands w sa y -> isOperator (s_expr a) OP_SHL0 = false ->
  simv w (shiftLeft (RiscOperators := sops) a sa) (shiftLeft (RiscOperators := cops) x y).
Proof.
  intros Ha Hs Hno. apply (sim_shift w OP_SHL0); auto. intros n v k Hn Hv Hk. rewrite shiftLeft_spec by (assumption || lia).
  cbn [fill eval_op2]. lia.
Qed.

Lemma sim_shiftRight w a x sa y :
  stands w a x -> stands w sa y -> isOperator (s_expr a) OP_SHR0 = false ->
  simv w (shiftRight (RiscOperators := sops) a sa) (shiftRight (RiscOperators := cops) x y).
Proof.
  intros Ha Hs Hno. apply (sim_shift w OP_SHR0); auto. intros n v k Hn Hv Hk.
  rewrite shiftRight_spec by (assumption || lia). cbn [fill eval_op2]. rewrite Z.mul_0_l, Z.add_0_r. symmetry. apply Z.mod_small.
  unfold bv_ok in Hv. pose proof (pow2_pos k Hk). split; [apply Z.div_pos; lia|]. apply Z.div_lt_upper_bound; nia.
Qed.

Lemma sim_shiftRightArithmetic w a x sa y :
  stands w a x -> stands w sa y -> isOperator (s_expr a) OP_ASR = false ->
  simv w (shiftRightArithmetic (RiscOperators := sops) a sa) (shiftRightArithmetic (RiscOperators := cops) x y).
Proof.
  intros Ha Hs Hno. apply (sim_shift w OP_ASR); auto. intros n v k Hn Hv Hk. now rewrite shiftRightArithmetic_spec.
Qed.

Lemma sim_rotateLeft w a x sa y :
  stands w a x -> stands w sa y -> simv w (rotateLeft (RiscOperators := sops) a sa) (rotateLeft (RiscOperators := cops) x y).
Proof.
  intros Ha Hs. apply (sim_shift w OP_ROL); auto; [intros [?|[?|?]]; discriminate|].
  intros n v k Hn Hv Hk. symmetry. now apply rotateLeft_value.
Qed.

Lemma sim_rotateRight w a x sa y :
  stands w a x -> stands w sa y -> simv w (rotateRight (RiscOperators := sops) a sa) (rotateRight (RiscOperators := cops) x y).
Proof.
  intros Ha Hs. apply (sim_shift w OP_ROR); auto; [intros [?|[?|?]]; discriminate|].
  intros n v k Hn Hv Hk. symmetry. now apply rotateRight_value.
Qed.

(** ** Products and quotients *)

Lemma sim_unsignedMultiply w a x b y :
  stands w a x -> stands w b y -> c_nBits x + c_nBits y <= 64 ->
  simv w (unsignedMultiply (RiscOperators := sops) a b) (unsignedMultiply (RiscOperators := cops) x y).
Proof.
  intros Ha Hb Hle. open_two Ha Hb. eapply sim_concrete; [intros _ c; apply lift_Ret, c_unsignedMultiply_small; side|].
  cbn [unsignedMultiply SymbolicOps]. unfold s_unsignedMultiply. rewrite (stands_nBits _ _ _ _ Ha), (stands_nBits _ _ _ _ Hb).
  assert (Hp : 0 <= v * v' < 2 ^ (n + n')) by (unfold bv_ok in *; rewrite Z.pow_add_r by lia; nia).
  rewrite <- (Z.mod_small (v * v') (2 ^ (n + n')) Hp).
  eapply (sim_s_binary _ (fun x y => (x * y) mod 2 ^ (n + n'))); [exact Ha|exact Hb|apply mod_ok; lia|].
  intros e He. unfold makeMul in He. rewrite (fp_or_int_node _ _ _ _ n) in He by side.
  eapply (product_node uf ctx simplify solver solver_sound OP_UMUL n n') in He; [exact He|right; split; [reflexivity|lia]|side|side].
Qed.

Lemma tsval_sval n v : 1 < n -> tsval n v = sval n v.
Proof. intros Hn. unfold tsval. now rewrite (proj2 (Z.ltb_lt 1 n)). Qed.

Lemma sim_signedMultiply w a x b y :
  stands w a x -> stands w b y -> c_nBits x + c_nBits y <= 64 -> 1 < c_nBits x -> 1 < c_nBits y ->
  simv w (signedMultiply (RiscOperators := sops) a b) (signedMultiply (RiscOperators := cops) x y).
Proof.
  intros Ha Hb Hle H1 H2. open_two Ha Hb. eapply sim_concrete; [intros _ c; apply lift_Ret, c_signedMultiply_small; side|].
  cbn [signedMultiply SymbolicOps]. unfold s_signedMultiply. rewrite (stands_nBits _ _ _ _ Ha), (stands_nBits _ _ _ _ Hb).
  rewrite <- !tsval_sval by assumption.
  eapply (sim_s_binary _ (fun x y => (tsval n x * tsval n' y) mod 2 ^ (n + n'))); [exact Ha|exact Hb|apply mod_ok; lia|].
  intros e He. unfold makeSignedMul in He. rewrite (fp_or_int_node _ _ _ _ n) in He by side.
  eapply (product_node uf ctx simplify solver solver_sound OP_SMUL n n') in He; [exact He|now left|side|side].
Qed.

(** The quotients and remainders, by the function on numbers of the concrete domain. *)
Lemma sim_quotient w op mk a n v b n' v' r :
  stands w a (mkCV n v) -> stands w b (mkCV n' v') ->
  op = OP_UDIV \/ op = OP_SDIV \/ op = OP_UMOD \/ op = OP_SMOD ->
  let m := if op_eqb op OP_UDIV || op_eqb op OP_SDIV then n else n' in
  bv_ok m r -> r = eval_op2 uf op m (n, v) (n', v') mod 2 ^ m ->
  (forall x y, mk x y = fp_or_int simplify solver (if op_eqb op OP_UDIV || op_eqb op OP_SDIV then OP_FP_DIV else OP_FP_MOD) op x y 0) ->
  simv w (s_binary fresh cfg m mk a b) (ret (mkCV m r)).
Proof.
  intros Ha Hb Hop m Hr -> Hmk.
  eapply (sim_s_binary _ (fun x y => eval_op2 uf op m (n, x) (n', y) mod 2 ^ m)); [exact Ha|exact Hb|assumption|].
  intros e He. rewrite Hmk, (fp_or_int_node _ _ _ _ n) in He by side.
  exact (quotient_node uf ctx simplify solver solver_sound op n n' _ _ _ _ Hop (stands_operand _ _ _ _ Ha) (stands_operand _ _ _ _ Hb) He).
Qed.

Lemma sim_unsignedDivide w a x b y :
  stands w a x -> stands w b y -> c_nBits x <= 64 -> c_nBits y <= 64 ->
  simv w (unsignedDivide (RiscOperators := sops) a b) (unsignedDivide (RiscOperators := cops) x y).
Proof.
  intros Ha Hb H1 H2. open_two Ha Hb. destruct (c_unsignedDivision_ok n v n' v') as [Hd _]; try side.
  cbn [unsignedDivide ConcreteOps]. rewrite Hd. destruct (Z.eqb_spec v' 0) as [|Hne]; [apply sim_fail; discriminate|].
  eapply sim_concrete; [intros _ c; now apply lift_Ret|].
  cbn [unsignedDivide SymbolicOps]. unfold s_unsignedDivide. rewrite (stands_nBits _ _ _ _ Ha).
  assert (Hq : bv_ok n (v / v')) by (unfold bv_ok in *; split; [apply Z.div_pos; lia|apply Z.div_lt_upper_bound; nia]).
  apply (sim_quotient w OP_UDIV _ _ n v _ n' v'); auto. cbn -[Z.pow]. rewrite (proj2 (Z.eqb_neq v' 0) Hne). symmetry. now apply Z.mod_small.
Qed.

Lemma sim_unsignedModulo w a x b y :
  stands w a x -> stands w b y -> c_nBits x <= 64 -> c_nBits y <= 64 ->
  simv w (unsignedModulo (RiscOperators := sops) a b) (unsignedModulo (RiscOperators := cops) x y).
Proof.
  intros Ha Hb H1 H2. open_two Ha Hb. destruct (c_unsignedDivision_ok n v n' v') as [_ Hd]; try side.
  cbn [unsignedModulo ConcreteOps]. rewrite Hd. destruct (Z.eqb_spec v' 0) as [|Hne]; [apply sim_fail; discriminate|].
  eapply sim_concrete; [intros _ c; now apply lift_Ret|].
  cbn [unsignedModulo SymbolicOps]. unfold s_unsignedModulo. rewrite (stands_nBits _ _ _ _ Hb).
  assert (Hq : bv_ok n' (v mod v')) by (unfold bv_ok in *; pose proof (Z.mod_pos_bound v v'); lia).
  apply (sim_quotient w OP_UMOD _ _ n v _ n' v'); auto. cbn -[Z.pow]. rewrite (proj2 (Z.eqb_neq v' 0) Hne). symmetry. now apply Z.mod_small.
Qed.

Lemma sim_signedDivision w a x b y :
  stands w a x -> stands w b y -> 1 < c_nBits x <= 64 -> 1 < c_nBits y <= 64 ->
  simv w (signedDivide (RiscOperators := sops) a b) (signedDivide (RiscOperators := cops) x y) /\
  simv w (signedModulo (RiscOperators := sops) a b) (signedModulo (RiscOperators := cops) x y).
Proof.
  intros Ha Hb H1 H2. split; open_two Ha Hb; destruct (c_signedDivision_ok n v n' v') as [Hd Hm]; try side.
  1: cbn [signedDivide ConcreteOps]; rewrite Hd. 2: cbn [signedModulo ConcreteOps]; rewrite Hm.
  all: destruct (Z.eqb_spec v' 0) as [|Hne]; [apply sim_fail; discriminate|].
  all: destruct (division_traps n (sval n v) (sval n' v')); [apply sim_fail; discriminate|].
  all: eapply sim_concrete; [intros _ c; now apply lift_Ret|].
  - cbn [signedDivide SymbolicOps]. unfold s_signedDivide. rewrite (stands_nBits _ _ _ _ Ha).
    apply (sim_quotient w OP_SDIV _ _ n v _ n' v'); auto; [apply mod_ok; lia|].
    cbn -[Z.pow Z.quot tsval]. now rewrite (proj2 (Z.eqb_neq v' 0) Hne), !tsval_sval by lia.
  - cbn [signedModulo SymbolicOps]. unfold s_signedModulo. rewrite (stands_nBits _ _ _ _ Hb).
    apply (sim_quotient w OP_SMOD _ _ n v _ n' v'); auto; [apply mod_ok; lia|].
    cbn -[Z.pow Z.rem tsval]. now rewrite (proj2 (Z.eqb_neq v' 0) Hne), !tsval_sval by lia.
Qed.

(** ** Sums with carries

    The symbolic domain adds widened operands; the concrete one computes the
    same sum at once. *)

Definition stands_pair (w : world) (a : SValue * SValue) (b : CValue * CValue) : Prop :=
  stands w a.1 b.1 /\ stands w a.2 b.2.

(** Carry earlier values over to a later world. *)
Ltac weaken L :=
  match type of L with
  | later ?w ?w' =>
      repeat match goal with H : stands w _ _ |- _ => apply (stands_later w w' _ _ L) in H end
  end; clear L.

(** The next operation, on both sides. *)
Ltac sim_next H :=
  eapply sim_bind; [eapply H; first [eassumption | cbn [c_nBits]; lia]|];
  let L := fresh "L" in intros ?w ?r ?z L ?Hr; weaken L.

(** The additions of the symbolic domain, on concrete values. *)
Definition adding_with_carries (n : Z) (x y z : CValue) : CM (CValue * CValue) :=
  let* aa := unsignedExtend x (n + 1) in
  let* bb := unsignedExtend y (n + 1) in
  let* cc := unsignedExtend z (n + 1) in
  let* bc := add bb cc in
  let* sumco := add aa bc in
  let* s := xor_ bb sumco in
  let* d := xor_ aa s in
  let* carries := extract d 1 (n + 1) in
  let* carry_out := ret carries in
  let* c' := unsignedExtend z n in
  let* bc' := add y c' in
  let* sum := add x bc' in
  let* r := ret sum in
  ret (r, carry_out).

Lemma adding_with_carries_ok n v v' k st :
  0 < n -> bv_ok n v -> bv_ok n v' ->
  adding_with_carries n (mkCV n v) (mkCV n v') (mkCV 1 (bool_Z k)) st =
  Ret (mkCV n ((v + v' + bool_Z k) mod 2 ^ n), mkCV n (carries n v v' (bool_Z k)), st).
Proof.
  intros Hn Hv Hv'. unfold adding_with_carries. pose proof (bool_Z_ok k) as Hk.
  do 3 erewrite bind_Ret by (apply c_uext_ok; assumption || lia).
  do 2 erewrite bind_Ret by apply c_add_ok. do 2 erewrite bind_Ret by apply c_xor_ok.
  erewrite bind_Ret by (apply c_extract_ok; lia). erewrite bind_Ret by reflexivity.
  erewrite bind_Ret by (apply c_uext_ok; assumption || lia). do 2 erewrite bind_Ret by apply c_add_ok.
  erewrite bind_Ret by reflexivity. unfold ret. replace (n + 1 - 1) with n by lia.
  pose proof (pow2_split n (n + 1) ltac:(lia)) as Hs. replace (n + 1 - n) with 1 in Hs by lia. rewrite Z.pow_1_r in Hs.
  assert (K : 0 <= bool_Z k <= 1) by (destruct k; cbn; lia). unfold bv_ok in Hv, Hv'.
  rewrite (Z.mod_small v), (Z.mod_small v'), (Z.mod_small (bool_Z k) (2 ^ (n + 1))) by lia.
  rewrite (Z.mod_small (v' + bool_Z k)), (Z.mod_small (v + (v' + bool_Z k))) by lia.
  unfold carries. pose proof (pow2_pos n ltac:(lia)).
  rewrite (Z.add_mod_idemp_r v' (bool_Z k)), (Z.add_mod_idemp_r v (v' + bool_Z k)) by lia.
  now rewrite Z.lxor_assoc, Z.add_assoc.
Qed.

Lemma sim_addWithCarries w a x b y c z :
  stands w a x -> stands w b y -> stands w c z ->
  sim w stands_pair (addWithCarries (RiscOperators := sops) a b c) (addWithCarries (RiscOperators := cops) x y z).
Proof.
  intros Ha Hb Hc. open_two Ha Hb. destruct z as [nc vc]. destruct (stands_ok w c nc vc Hctx Hc) as [Hnc Hvc].
  cbn [addWithCarries SymbolicOps]. unfold s_addWithCarries.
  rewrite (stands_nBits _ _ _ _ Ha), (stands_nBits _ _ _ _ Hb), (stands_nBits _ _ _ _ Hc).
  apply sim_require. intros [<-%Z.eqb_eq ->%Z.eqb_eq]%andb_true_iff.
  assert (Eb : exists k, vc = bool_Z k).
  { unfold bv_ok in Hvc. change (2 ^ 1) with 2 in Hvc. exists (vc =? 1). destruct (Z.eqb_spec vc 1); cbn; lia. }
  destruct Eb as [k ->]. eapply sim_concrete; [intros _ st; apply c_addWithCarries_ok; side|].
  destruct (isBottom a || isBottom b || isBottom c).
  { apply sim_value with (mc := let* q := ret (mkCV n (carries n v v' (bool_Z k))) in
      let* r := ret (mkCV n ((v + v' + bool_Z k) mod 2 ^ n)) in ret (r, q)); [|reflexivity].
    eapply sim_bind; [apply sim_bottom, carries_ok; lia|]. intros w1 q q' L1 Hq.
    eapply sim_bind; [apply sim_bottom_result, mod_ok; lia|]. intros w2 r r' L2 Hr. apply sim_ret. intros _. split; [exact Hr|].
    exact (stands_later w1 w2 _ _ L2 Hq). }
  eapply sim_value; [|intros st; apply (adding_with_carries_ok n v v' k st); side]. unfold adding_with_carries.
  do 3 sim_next sim_unsignedExtend. do 2 sim_next sim_add. do 2 sim_next sim_xor. sim_next sim_extract.
  eapply sim_bind; [apply sim_filter; eassumption|]. intros w9 r9 z9 L9 H9. weaken L9.
  sim_next sim_unsignedExtend. do 2 sim_next sim_add.
  eapply sim_bind; [apply sim_filter; eassumption|]. intros w13 r13 z13 L13 H13. weaken L13.
  apply sim_ret. intros _. now split.
Qed.


(** * The simulation *)

Definition worlds : Frame SymState CSt := {|
  World := world;
  extends := later;
  extends_refl := later_refl;
  extends_trans := later_trans;
  states_at w s _ := names s = w.1 /\ ctx w.2
|}.

Lemma sim_and_also {A B} w (R : world -> A -> B -> Prop) (P : B -> Prop) ms mc :
  sim w R ms mc -> (forall c b c', mc c = Ret (b, c') -> P b) -> sim w (fun w a b => R w a b /\ P b) ms mc.
Proof.
  intros H HP s a s' c b c' Hs Hc H1 H2. destruct (H s a s' c b c' Hs Hc H1 H2) as (w' & L & N & HR). exists w'. eauto.
Qed.

Lemma sim_simulates {A B} (w : world) (R : world -> A -> B -> Prop) ms mc : sim w R ms mc -> simulates worlds w R ms mc.
Proof.
  intros H s c a s' b c' [Hs Hc] H1 H2. destruct (H s a s' c b c' Hs Hc H1 H2) as (w' & L & N & HR).
  exists w'. split; [exact L|]. split; [|exact HR]. split; [exact N|]. exact (later_ctx w w' L Hc).
Qed.

#[refine] Instance symbolic_covers_concrete : Simulation sops cops := {|
  frame := worlds;
  covers := stands
|}.
Proof.
  - exact stands_later.
  - intros w a [n v]. apply stands_nBits.
  - intros w a [n v] s c [_ Hc] Ha. now apply (stands_ok w a n v).
  - intros. now apply sim_simulates, sim_number.
  - intros. now apply sim_simulates, sim_boolean.
  - intros. now apply sim_simulates, sim_and.
  - intros. now apply sim_simulates, sim_or.
  - intros. now apply sim_simulates, sim_xor.
  - intros w a x Ha. apply sim_simulates, sim_and_also; [now apply sim_invert|]. intros c b c' H. now injection H as <- _.
  - intros. now apply sim_simulates, sim_extract.
  - intros. now apply sim_simulates, sim_concat.
  - intros. now apply sim_simulates, sim_mostSignificantSetBit.
  - intros w a x Ha. apply sim_simulates, sim_and_also; [now apply sim_equalToZero|]. intros c b c' H. now injection H as <- _.
  - intros. now apply sim_simulates, sim_ite.
  - intros. now apply sim_simulates, sim_unsignedExtend.
  - intros. now apply sim_simulates, sim_signExtend.
  - intros. now apply sim_simulates, sim_add.
  - intros. now apply sim_simulates, sim_addWithCarries.
  - intros. now apply sim_simulates, sim_negate.
Defined.

(** * The theorems *)

(** C9. Symbolic execution covers concrete execution: whenever a primitive
    operation returns on symbolic values and on the concrete values they stand
    for, the result stands for the concrete result, under some values for the
    variables named meanwhile.  Conjunctions are covered up to 64 bits; shifts, of
    expressions that are not shifts of the same kind; products that fit 64 bits;
    quotients and remainders of operands of up to 64 bits; signed products and quotients, of more than one bit, since the two domains
    read a single bit differently. *)
Theorem symbolic_primitives w a x b y :
  stands w a x -> stands w b y ->
  let cover1 (s : SValue -> SM SValue) (c : CValue -> CM CValue) := simv w (s a) (c x) in
  let cover2 (s : SValue -> SValue -> SM SValue) (c : CValue -> CValue -> CM CValue) := simv w (s a b) (c x y) in
  let small n := 1 < n <= 64 in
  let no_shift op := isOperator (s_expr a) op = false in
  (c_nBits x <= 64 -> cover2 (and_ (RiscOperators := sops)) (and_ (RiscOperators := cops))) /\
  cover2 (or_ (RiscOperators := sops)) (or_ (RiscOperators := cops)) /\
  cover2 (xor_ (RiscOperators := sops)) (xor_ (RiscOperators := cops)) /\
  cover2 (add (RiscOperators := sops)) (add (RiscOperators := cops)) /\
  cover2 (concat_ (RiscOperators := sops)) (concat_ (RiscOperators := cops)) /\
  cover1 (invert (RiscOperators := sops)) (invert (RiscOperators := cops)) /\
  cover1 (negate (RiscOperators := sops)) (negate (RiscOperators := cops)) /\
  cover1 (equalToZero (RiscOperators := sops)) (equalToZero (RiscOperators := cops)) /\
  cover1 (leastSignificantSetBit (RiscOperators := sops)) (leastSignificantSetBit (RiscOperators := cops)) /\
  cover1 (mostSignificantSetBit (RiscOperators := sops)) (mostSignificantSetBit (RiscOperators := cops)) /\
  (forall i j, 0 <= i -> cover1 (fun v => extract (RiscOperators := sops) v i j) (fun v => extract (RiscOperators := cops) v i j)) /\
  (forall m, 0 <= m < 2 ^ 32 ->
     cover1 (fun v => unsignedExtend (RiscOperators := sops) v m) (fun v => unsignedExtend (RiscOperators := cops) v m) /\
     cover1 (fun v => signExtend (RiscOperators := sops) v m) (fun v => signExtend (RiscOperators := cops) v m)) /\
  cover2 (rotateLeft (RiscOperators := sops)) (rotateLeft (RiscOperators := cops)) /\
  cover2 (rotateRight (RiscOperators := sops)) (rotateRight (RiscOperators := cops)) /\
  (no_shift OP_SHL0 -> cover2 (shiftLeft (RiscOperators := sops)) (shiftLeft (RiscOperators := cops))) /\
  (no_shift OP_SHR0 -> cover2 (shiftRight (RiscOperators := sops)) (shiftRight (RiscOperators := cops))) /\
  (no_shift OP_ASR -> cover2 (shiftRightArithmetic (RiscOperators := sops)) (shiftRightArithmetic (RiscOperators := cops))) /\
  (c_nBits x + c_nBits y <= 64 -> cover2 (unsignedMultiply (RiscOperators := sops)) (unsignedMultiply (RiscOperators := cops))) /\
  (c_nBits x <= 64 -> c_nBits y <= 64 ->
     cover2 (unsignedDivide (RiscOperators := sops)) (unsignedDivide (RiscOperators := cops)) /\
     cover2 (unsignedModulo (RiscOperators := sops)) (unsignedModulo (RiscOperators := cops))) /\
  (small (c_nBits x) -> small (c_nBits y) ->
     (c_nBits x + c_nBits y <= 64 -> cover2 (signedMultiply (RiscOperators := sops)) (signedMultiply (RiscOperators := cops))) /\
     cover2 (signedDivide (RiscOperators := sops)) (signedDivide (RiscOperators := cops)) /\
     cover2 (signedModulo (RiscOperators := sops)) (signedModulo (RiscOperators := cops))) /\
  (forall sel q, stands w sel q ->
     sim w stands_status (iteWithStatus (RiscOperators := sops) sel a b) (iteWithStatus (RiscOperators := cops) q x y) /\
     sim w stands_pair (addWithCarries (RiscOperators := sops) a b sel) (addWithCarries (RiscOperators := cops) x y q)).
Proof.
  intros Ha Hb cover1 cover2 small no_shift. subst cover1 cover2 small no_shift. cbv beta.
  repeat match goal with |- _ /\ _ => split end; intros;
    eauto using sim_and, sim_or, sim_xor, sim_add, sim_concat, sim_invert, sim_negate, sim_equalToZero,
      sim_leastSignificantSetBit, sim_mostSignificantSetBit, sim_extract, sim_rotateLeft, sim_rotateRight,
      sim_shiftLeft, sim_shiftRight, sim_shiftRightArithmetic, sim_unsignedMultiply.
  - split; [now apply sim_unsignedExtend|now apply sim_signExtend].
  - split; [now apply sim_unsignedDivide|now apply sim_unsignedModulo].
  - split; [intros; apply sim_signedMultiply; assumption || lia|]. now apply sim_signedDivision.
  - split; [now apply sim_iteWithStatus|now apply sim_addWithCarries].
Qed.
End Simulation.
