(* ===== verification/RiscExec.v ===== *)
(** Symbolic execution of the operations built from the primitives.

    The symbolic domain covers the concrete one ([RiscSim]), so it does in
    everything that is built from the primitives ([RiscRefine]); with what the
    concrete operations compute ([RiscArith], [RiscMulDiv], [RiscData]) that gives
    the values of symbolic results. *)
From S2P Require Import Prelude BitVector SymType SymExpr SymSimplify SymEval SymGood SymAC SymSound SymBits SymAdd SymShift SymTop SymMake.
From S2P Require Import RiscOps RiscConcrete RiscConcreteFacts RiscArith RiscMulDiv RiscData RiscRefine RiscSymbolic RiscBuild RiscSim.
Open Scope Z_scope.

Section Execution.
Variable uf : Operator -> Z -> list Z -> Z.
Variable ctx : (Z -> Z) -> Prop.
Variable simplify : option SmtSolver -> expr -> outcome expr.
Context {simplifier : SoundSimplifier uf ctx simplify}.
Variable solver : option SmtSolver.
Hypothesis solver_sound : solver_ok uf ctx solver.
Variable check_true : SmtSolver -> expr -> outcome Satisfiable.
Hypothesis check_sound : forall s e, solver = Some s -> check_true s e = Ret SAT_NO ->
  forall env, ctx env -> eval uf env e = 0.
Variable fresh : nat -> Z.
Hypothesis fresh_inj : forall j k, fresh j = fresh k -> j = k.
Variable cfg : SymConfig.
Context {CSt : Type}.
Hypothesis ctx_fresh : forall env env', ctx env -> agree fresh 0 env env' -> ctx env'.
#[local] Notation sops := (SymbolicOps simplify solver check_true fresh cfg).
#[local] Notation cops := (ConcreteOps CSt).
#[local] Notation stands := (stands uf ctx fresh).

#[local] Instance execution : Simulation sops cops :=
  symbolic_covers_concrete uf ctx simplify solver solver_sound check_true check_sound fresh fresh_inj cfg ctx_fresh.

#[local] Notation covered w s c := (simulates (frame (O1 := sops) (O2 := cops)) w (covers (O1 := sops) (O2 := cops)) s c).

(** Whatever the symbolic computation returns stands for [v] in a later world. *)
Definition yields (w : world) (m : M SymState SValue) (v : CValue) : Prop :=
  forall s r s', names s = w.1 -> ctx w.2 -> m s = Ret (r, s') ->
  exists w', later fresh w w' /\ ctx w'.2 /\ names s' = w'.1 /\ stands w' r v.

Lemma covered_yields w ms mc v (c : CSt) : covered w ms mc -> mc c = Ret (v, c) -> yields w ms v.
Proof.
  intros H Hc s r s' Hn Hw Hs. destruct (H s c r s' v c (conj Hn Hw) Hs Hc) as (w' & L & [N C] & Hr). now exists w'.
Qed.

Lemma yields_ctx w m v : (ctx w.2 -> yields w m v) -> yields w m v.
Proof. intros H s r s' Hn Hw. exact (H Hw s r s' Hn Hw). Qed.

(** C21. Comparisons of symbolic values.  Whatever the comparison of two values of
    one width returns stands for the truth of the comparison of the numbers the
    values stand for, under some values for the variables that the comparison
    named; the context of the solver still holds, and older variables keep
    their values. *)
Theorem symbolic_comparisons (c : CSt) w n a x b y :
  stands w a (mkCV n x) -> stands w b (mkCV n y) ->
  let says (op : SValue -> SValue -> M SymState SValue) (t : bool) := yields w (op a b) (mkCV 1 (bool_Z t)) in
  let sx := sval n x in let sy := sval n y in
  says (isEqual (Ops := sops)) (x =? y) /\ says (isNotEqual (Ops := sops)) (negb (x =? y)) /\
  says (isUnsignedLessThan (Ops := sops)) (x <? y) /\ says (isUnsignedLessThanOrEqual (Ops := sops)) (x <=? y) /\
  says (isUnsignedGreaterThan (Ops := sops)) (y <? x) /\ says (isUnsignedGreaterThanOrEqual (Ops := sops)) (y <=? x) /\
  says (isSignedLessThan (Ops := sops)) (sx <? sy) /\ says (isSignedLessThanOrEqual (Ops := sops)) (sx <=? sy) /\
  says (isSignedGreaterThan (Ops := sops)) (sy <? sx) /\ says (isSignedGreaterThanOrEqual (Ops := sops)) (sy <=? sx).
Proof.
  intros Ha Hb says sx sy. subst says. cbv beta.
  destruct (covers_comparisons (Sim := execution) w a (mkCV n x) b (mkCV n y) Ha Hb) as (H1 & H2 & H3 & H4 & H5 & H6 & H7 & H8 & H9 & H10).
  assert (V : ctx w.2 -> 0 < n /\ bv_ok n x /\ bv_ok n y).
  { intros Hw. destruct (stands_ok _ _ _ w a n x Hw Ha), (stands_ok _ _ _ w b n y Hw Hb). split; [lia|now split]. }
  repeat match goal with |- _ /\ _ => split end; apply yields_ctx; intros (Wn & Vx & Vy)%V;
    destruct (c_comparisons_ok n x y c Wn Vx Vy) as (E1 & E2 & E3 & E4 & E5 & E6 & E7 & E8 & E9 & E10);
    eapply covered_yields; eassumption.
Qed.

(** The same for the three results of an addition with carry. *)
Definition yields3 (w : world) (m : M SymState (SValue * SValue * SValue)) (v : CValue * CValue * CValue) : Prop :=
  forall s r s', names s = w.1 -> ctx w.2 -> m s = Ret (r, s') ->
  exists w', later fresh w w' /\ ctx w'.2 /\ names s' = w'.1 /\ stands w' r.1.1 v.1.1 /\ stands w' r.1.2 v.1.2 /\ stands w' r.2 v.2.

Lemma covered_yields3 w ms mc v (c : CSt) :
  simulates (frame (O1 := sops) (O2 := cops)) w (covers3 (Sim := execution)) ms mc -> mc c = Ret (v, c) -> yields3 w ms v.
Proof.
  intros H Hc s r s' Hn Hw Hs. destruct (H s c r s' v c (conj Hn Hw) Hs Hc) as (w' & L & [N C] & Hr). exists w'. exact (conj L (conj C (conj N Hr))).
Qed.

Lemma ieee_format_ok t ne nf : ieee_layout t ne nf -> 0 <= exponentBias t < 2 ^ ne -> format_ok t.
Proof.
  intros (Hs & He & Hsg & _ & Hf & Hne & _) Hb. pose proof (pow2_le ne 64 ltac:(lia)).
  unfold format_ok, range_size. rewrite Hs, He, Hsg. cbn [SawyerInterval.lo_ SawyerInterval.hi_]. lia.
Qed.

(** C22. What the operations built from the primitives return on symbolic values stands for the
    numbers that they compute, under some values for the variables that they
    named: the difference; the sum and the difference with their carry and
    overflow bits, for more than one bit; the number of leading zeros and of leading ones; the
    value whose elements are those of the operand in reverse; and for a value in a
    floating point format of the layout of IEEE 754 the classes, the sign, and the position of the
    highest bit of the number as its exponent. *)
Theorem symbolic_derived (c : CSt) w n a x b y :
  ctx w.2 -> stands w a (mkCV n x) -> stands w b (mkCV n y) ->
  let bit v := mkCV 1 (bool_Z v) in let sx := sval n x in let sy := sval n y in
  yields w (subtract (Ops := sops) a b) (mkCV n ((x - y) mod 2 ^ n)) /\
  (1 < n ->
     yields3 w (addCarry (Ops := sops) a b)
       (mkCV n ((x + y) mod 2 ^ n), bit (2 ^ n <=? x + y), bit (negb (signed_fits n (sx + sy)))) /\
     yields3 w (subtractCarry (Ops := sops) a b)
       (mkCV n ((x - y) mod 2 ^ n), bit (negb (y =? 0) && (y <=? x)), bit (xorb (negb (signed_fits n (sx - sy))) (y =? 2 ^ (n - 1))))) /\
  yields w (countLeadingZeros (Ops := sops) a) (mkCV n (if x =? 0 then n else n - 1 - Z.log2 x)) /\
  yields w (countLeadingOnes (Ops := sops) a) (mkCV n (if x =? 2 ^ n - 1 then n else n - 1 - Z.log2 (2 ^ n - 1 - x))) /\
  (forall e, 0 < e <= n -> n mod e = 0 -> exists r, yields w (reverseElmts (Ops := sops) a e) (mkCV n r) /\ bv_ok n r /\
     forall i, 0 <= i < n / e -> element r e i = element x e (n / e - 1 - i)) /\
  (forall t ne nf, ieee_layout t ne nf -> ft_nBits t = n -> 0 <= exponentBias t < 2 ^ ne ->
     let e := exponent x ne nf in let f := fraction x nf in
     let says op v := yields w (op a t) (bit v) in
     says (fpIsNan (Ops := sops)) ((e =? 2 ^ ne - 1) && negb (f =? 0)) /\
     says (fpIsInfinity (Ops := sops)) ((e =? 2 ^ ne - 1) && (f =? 0)) /\
     says (fpIsZero (Ops := sops)) ((e =? 0) && (f =? 0)) /\
     says (fpIsDenormalized (Ops := sops)) ((e =? 0) && negb (f =? 0)) /\
     says (fpSign (Ops := sops)) (2 ^ (nf + ne) <=? x) /\
     (exponentBias t + nf <= 2 ^ ne -> exists z, yields w (fpEffectiveExponent (Ops := sops) a t) (mkCV (ne + 1) z) /\ bv_ok (ne + 1) z /\
        sval (ne + 1) z = if (e =? 0) && (f =? 0) then 0 else Z.log2 (significand_value t e f nf) + last_place t e nf)).
Proof.
  intros Hw Ha Hb bit sx sy. destruct (stands_ok _ _ _ w a n x Hw Ha) as [Wn Vx], (stands_ok _ _ _ w b n y Hw Hb) as [_ Vy].
  assert (W64 : n < 2 ^ 64) by lia. destruct (countLeading_value (St := CSt) n x c ltac:(lia) Vx) as [Ez Eo].
  split; [|split; [|split; [|split; [|split]]]].
  - eapply (covered_yields _ _ _ _ c); [exact (covers_subtract (Sim := execution) _ _ _ _ _ Ha Hb)|]. apply c_subtract_ok; assumption || lia.
  - intros Hn. split; (eapply (covered_yields3 _ _ _ _ c);
      [exact (covers_addCarry (Sim := execution) _ _ _ _ _ Ha Hb) || exact (covers_subtractCarry (Sim := execution) _ _ _ _ _ Ha Hb)|]).
    + apply c_addCarry_ok; assumption || lia.
    + apply c_subtractCarry_ok; assumption || lia.
  - exact (covered_yields _ _ _ _ c (covers_countLeadingZeros (Sim := execution) _ _ _ Ha) Ez).
  - exact (covered_yields _ _ _ _ c (covers_countLeadingOnes (Sim := execution) _ _ _ Ha) Eo).
  - intros e He Hm. pose proof (reverseElmts_involutive (St := CSt) n x e c ltac:(lia) Vx) as H. cbv zeta in H.
    rewrite (proj2 (Z.ltb_lt 0 e)), (proj2 (Z.leb_le e n)), (proj2 (Z.eqb_eq (n mod e) 0)) in H by lia.
    destruct H as (r & Hr & Hok & Hel & _). exists r. split; [|now split].
    exact (covered_yields _ _ _ _ c (covers_reverseElmts (Sim := execution) _ _ _ e Ha) Hr).
  - intros t ne nf Hl Hn He e f says. subst says. subst n. cbv beta. pose proof (ieee_format_ok t ne nf Hl He) as Ht.
    destruct (covers_fp_classes (Sim := execution) w a _ t Ha Ht) as (H1 & H2 & H3 & H4 & H5).
    destruct (fp_classes (St := CSt) t ne nf x c Hl Vx) as (E1 & E2 & E3 & E4 & E5).
    repeat match goal with |- _ /\ _ => split end; try (eapply covered_yields; eassumption).
    intros Hbf. destruct (fpEffectiveExponent_value (St := CSt) t ne nf x c Hl Vx He Hbf) as (z & Hz & Hok & Hs).
    exists z. split; [|now split]. exact (covered_yields _ _ _ _ c (covers_fpEffectiveExponent (Sim := execution) _ _ _ t Ha Ht) Hz).
Qed.
End Execution.

(** * Executions *)

Definition track_all : SymConfig :=
  {| computingDefiners := TRACK_ALL_DEFINERS; omit_cur_insn := false; currentInstruction := Some 4096; trimThreshold := 4 |}.
Definition names_from (k : nat) : Z := 100 + Z.of_nat k.
Definition sym_value (x : Z) : SValue := mkSV (byte_var x) ∅.
#[local] Notation run := (simplifyTop 20 (fun _ => 0)).
#[local] Notation unknown := (fun _ _ => Ret SAT_UNKNOWN).
#[local] Notation no_uf := (fun _ _ _ => 0).
#[local] Notation always := (fun _ => True).
#[local] Notation ops := (SymbolicOps run None unknown names_from track_all).
#[local] Notation start := (mkSymState 0 0).

(** The first variable is -56, or 200, and the second 5. *)
Definition two_bytes (x : Z) : Z := if x =? 1 then 200 else 5.
#[local] Notation here := (0%nat, two_bytes).

Lemma names_from_inj j k : names_from j = names_from k -> j = k.
Proof. unfold names_from. lia. Qed.

Lemma sym_value_stands x : x < 100 -> stands no_uf always names_from here (sym_value x) (mkCV 8 (two_bytes x)).
Proof.
  intros Hx. split; [apply byte_operand|]. intros env He _. cbn [eval s_expr sym_value byte_var]. cbn.
  rewrite He by (intros k _; unfold names_from; lia). unfold two_bytes. cbn. now destruct (x =? 1).
Qed.

Lemma check_None (check : SmtSolver -> expr -> outcome Satisfiable) (P : expr -> Prop) :
  forall s e, None = Some s -> check s e = Ret SAT_NO -> P e.
Proof. discriminate. Qed.

(** The expression for the comparison needs a new variable, for the difference. *)
Theorem symbolic_comparisons_witness :
  exists r s', isSignedLessThan (Ops := ops) (sym_value 1) (sym_value 2) start = Ret (r, s') /\ nTrimmed s' = 1 /\
    exists w', later names_from here w' /\ stands no_uf always names_from w' r (mkCV 1 1).
Proof.
  do 2 eexists. split; [vm_compute; reflexivity|]. split; [reflexivity|].
  destruct (symbolic_comparisons no_uf always run None (solver_ok_None _ _) unknown (check_None _ _) names_from names_from_inj
    track_all (fun _ _ _ _ => I) tt here 8 (sym_value 1) 200 (sym_value 2) 5
    (sym_value_stands 1 eq_refl) (sym_value_stands 2 eq_refl)) as (_ & _ & _ & _ & _ & _ & H & _).
  destruct (H start _ _ eq_refl I ltac:(vm_compute; reflexivity)) as (w' & L & _ & _ & Hr). now exists w'.
Defined.

(** 200 + 5 is 205, with no carry and no overflow. *)
Theorem symbolic_derived_witness :
  exists r s', addCarry (Ops := ops) (sym_value 1) (sym_value 2) start = Ret (r, s') /\
    exists w', later names_from here w' /\ stands no_uf always names_from w' r.1.1 (mkCV 8 205) /\
      stands no_uf always names_from w' r.1.2 (mkCV 1 0) /\ stands no_uf always names_from w' r.2 (mkCV 1 0).
Proof.
  do 2 eexists. split; [vm_compute; reflexivity|].
  destruct (symbolic_derived no_uf always run None (solver_ok_None _ _) unknown (check_None _ _) names_from names_from_inj
    track_all (fun _ _ _ _ => I) tt here 8 (sym_value 1) 200 (sym_value 2) 5 I
    (sym_value_stands 1 eq_refl) (sym_value_stands 2 eq_refl)) as (_ & H & _).
  destruct (proj1 (H eq_refl) start _ _ eq_refl I ltac:(vm_compute; reflexivity)) as (w' & L & _ & _ & Hr).
  exists w'. split; [exact L|exact Hr].
Defined.

(** An exclusive or of the bytes 200 and 5 is 205, the product 1000. *)
Theorem symbolic_primitives_witness :
  exists r s', unsignedMultiply (RiscOperators := ops) (sym_value 1) (sym_value 2) start = Ret (r, s') /\
    exists w', later names_from here w' /\ stands no_uf always names_from w' r (mkCV 16 1000).
Proof.
  do 2 eexists. split; [vm_compute; reflexivity|].
  pose proof (symbolic_primitives (CSt := unit) no_uf always run None (solver_ok_None _ _) unknown (check_None _ _) names_from names_from_inj
    track_all (fun _ _ _ _ => I) here (sym_value 1) (mkCV 8 200) (sym_value 2) (mkCV 8 5)
    (sym_value_stands 1 eq_refl) (sym_value_stands 2 eq_refl)) as H.
  do 17 apply proj2 in H. apply proj1 in H.
  destruct (H ltac:(cbn; lia) start _ _ tt _ _ eq_refl I ltac:(vm_compute; reflexivity) ltac:(vm_compute; reflexivity)) as (w' & L & _ & Hr).
  now exists w'.
Defined.
