(* ===== verification/RegDescriptor.v ===== *)
(** Parts of machine registers ([src/Rose/BinaryAnalysis/RegisterDescriptor.{h,C}]).

    A descriptor names the bits [offset .. offset + nBits - 1] of a register
    with a major and a minor number, packed into a word of 32 bits: four bits for
    the major number, ten for the minor number, nine for the offset and nine for
    the width less one.  Patterns whose last bit would lie beyond bit 511 stand
    for widths of zero.

    The theorems say that the accessors return what the constructor and the
    mutators are given, for all arguments, and that intersection and inclusion
    are those of the bits. *)
From S2P Require Import Prelude BitVector SymType RiscConcreteFacts.
Open Scope Z_scope.

(** * Definitions *)

Record RegisterDescriptor := mkRaw { data_ : Z }.

Definition EMPTY_PATTERN : Z := 0x5ff.
Definition OFFSET_WIDTH_MASK : Z := 0x3ffff.
#[local] Notation u32 x := (x mod 2 ^ 32).
#[local] Notation u64 x := (x mod 2 ^ 64).

Definition RegisterDescriptor_default : RegisterDescriptor := {| data_ := EMPTY_PATTERN |}.

Definition maxMajor : Z := 16.
Definition maxMinor : Z := 1023.
Definition maxOffset : Z := 511.
Definition maxNBits : Z := 512.

Definition majorNumber (d : RegisterDescriptor) : Z := Z.shiftr (data_ d) 28.
Definition minorNumber (d : RegisterDescriptor) : Z := Z.land (Z.shiftr (data_ d) 18) 0x3ff.
Definition offset (d : RegisterDescriptor) : Z :=
  if Z.land (data_ d) OFFSET_WIDTH_MASK =? EMPTY_PATTERN then 0
  else Z.land (Z.shiftr (data_ d) 9) 0x1ff.
Definition nBits (d : RegisterDescriptor) : Z :=
  if Z.land (data_ d) OFFSET_WIDTH_MASK =? EMPTY_PATTERN then 0
  else
    let offsetField := Z.land (Z.shiftr (data_ d) 9) 0x1ff in
    let widthField := Z.land (data_ d) 0x1ff in
    if offsetField + widthField =? 512 then 0 else widthField + 1.

Definition isEmpty (d : RegisterDescriptor) : bool := 0 =? nBits d.
Definition isValid (d : RegisterDescriptor) : bool := negb (nBits d =? 0).
Definition descriptor_eqb (a b : RegisterDescriptor) : bool := data_ a =? data_ b.
Definition descriptor_ltb (a b : RegisterDescriptor) : bool := data_ a <? data_ b.

Definition set_majorNumber (majr : Z) (d : RegisterDescriptor) : outcome RegisterDescriptor :=
  assert! majr <=? maxMajor else AssertFail in
  Ret {| data_ := Z.lor (Z.land (data_ d) 0x0fffffff) (u32 (Z.shiftl majr 28)) |}.

Definition set_minorNumber (minr : Z) (d : RegisterDescriptor) : outcome RegisterDescriptor :=
  assert! minr <=? maxMinor else AssertFail in
  Ret {| data_ := Z.lor (Z.land (data_ d) 0xf003ffff) (u32 (Z.shiftl minr 18)) |}.

(** What [setOffsetWidth] stores for an offset and a width, of type [size_t]. *)
Definition offset_width_field (offset width : Z) : Z :=
  if (0 =? offset) && (0 =? width) then EMPTY_PATTERN
  else if 0 =? width then Z.lor (Z.shiftl offset 9) (512 - offset)
  else Z.lor (Z.shiftl offset 9) (u64 (width - 1)).

Definition setOffsetWidth (off width : Z) (d : RegisterDescriptor) : outcome RegisterDescriptor :=
  assert! off <? 512 else AssertFail in
  assert! u64 (off + width) <=? 512 else AssertFail in
  let d := {| data_ := u32 (Z.lor (Z.land (data_ d) (u32 (-1 - OFFSET_WIDTH_MASK))) (offset_width_field off width)) |} in
  assert! offset d =? off else AssertFail in
  assert! nBits d =? width else AssertFail in
  Ret d.

Definition set_offset (off : Z) (d : RegisterDescriptor) : outcome RegisterDescriptor :=
  assert! off <? 512 else AssertFail in
  setOffsetWidth off (Z.min (nBits d) (512 - off)) d.

Definition set_nBits (width : Z) (d : RegisterDescriptor) : outcome RegisterDescriptor :=
  assert! width <=? 512 else AssertFail in
  setOffsetWidth (offset d) width d.

(** The constructor from the parts. *)
Definition mkDescriptor (majr minr offset width : Z) : outcome RegisterDescriptor :=
  let! d := set_majorNumber majr {| data_ := 0 |} in
  let! d := set_minorNumber minr d in
  setOffsetWidth offset width d.

(** [operator&] *)
Definition descriptor_and (d other : RegisterDescriptor) : outcome RegisterDescriptor :=
  if (majorNumber d =? majorNumber other) && (minorNumber d =? minorNumber other) then
    let begin1 := offset d in
    let end1 := begin1 + nBits d in
    let begin2 := offset other in
    let end2 := begin2 + nBits other in
    let begin := Z.max begin1 begin2 in
    let end_ := Z.min end1 end2 in
    if end_ <=? begin then Ret RegisterDescriptor_default
    else mkDescriptor (majorNumber d) (minorNumber d) begin (end_ - begin)
  else Ret RegisterDescriptor_default.

Definition isSubsetOf (d other : RegisterDescriptor) : outcome bool :=
  let! intersection := descriptor_and d other in
  Ret (isValid intersection && ((offset intersection =? offset d) && (nBits intersection =? nBits d))).

(** * Packing *)

(** Conjunctions work on the parts of a word above and below a bit. *)
Lemma land_split k a b c d :
  0 <= k -> bv_ok k b -> bv_ok k d -> Z.land (a * 2 ^ k + b) (c * 2 ^ k + d) = Z.land a c * 2 ^ k + Z.land b d.
Proof.
  intros Hk Hb Hd. apply Z.bits_inj'. intros i Hi. rewrite Z.land_spec.
  assert (T : forall x y, bv_ok k y -> Z.testbit (x * 2 ^ k + y) i = if i <? k then Z.testbit y i else Z.testbit x (i - k)).
  { intros x y Hy. replace (x * 2 ^ k + y) with (y + x * 2 ^ k) by lia. destruct (Z.ltb_spec i k).
    - now rewrite <- (Z.mod_pow2_bits_low _ k i), Z.mod_add, Z.mod_small by (assumption || lia).
    - replace i with ((i - k) + k) at 1 by lia. now rewrite <- Z.div_pow2_bits, Z.div_add, Z.div_small by (assumption || lia). }
  rewrite !T by (assumption || now apply land_ok). destruct (i <? k); now rewrite Z.land_spec.
Qed.

(** The word of four fields. *)
Definition word (majr minr off width : Z) : Z := majr * 2 ^ 28 + (minr * 2 ^ 18 + (off * 2 ^ 9 + width)).
Definition fields (majr minr off width : Z) : Prop := 0 <= majr < 16 /\ 0 <= minr < 1024 /\ 0 <= off < 512 /\ 0 <= width < 512.

Lemma word_range a b c e : fields a b c e -> 0 <= word a b c e < 2 ^ 32.
Proof. unfold fields, word. lia. Qed.

Lemma word_fields d : 0 <= d < 2 ^ 32 -> exists a b c e, fields a b c e /\ d = word a b c e.
Proof.
  intros Hd. exists (d / 2 ^ 28), (d / 2 ^ 18 mod 2 ^ 10), (d / 2 ^ 9 mod 2 ^ 9), (d mod 2 ^ 9).
  unfold fields, word. Z.to_euclidean_division_equations. lia.
Qed.

(** The parts of a word that masks keep. *)
Lemma mask_parts a b c e : fields a b c e ->
  Z.land (word a b c e) 0x0fffffff = word 0 b c e /\ Z.land (word a b c e) 0xf003ffff = word a 0 c e /\
  Z.land (word a b c e) 0xfffc0000 = word a b 0 0 /\ Z.land (word a b c e) OFFSET_WIDTH_MASK = c * 2 ^ 9 + e.
Proof.
  intros (Ha & Hb & Hc & He). unfold word. 
  assert (M : forall x n, 0 <= n -> bv_ok n x -> Z.land x (Z.ones n) = x) by (intros; rewrite Z.land_ones by lia; now apply Z.mod_small).
  change 0x0fffffff with (0 * 2 ^ 28 + Z.ones 28). change 0xf003ffff with (Z.ones 4 * 2 ^ 28 + (0 * 2 ^ 18 + Z.ones 18)).
  change 0xfffc0000 with (Z.ones 14 * 2 ^ 18 + 0). change OFFSET_WIDTH_MASK with (0 * 2 ^ 18 + Z.ones 18).
  assert (L : bv_ok 18 (c * 2 ^ 9 + e)) by (unfold bv_ok; lia). assert (L' : bv_ok 28 (b * 2 ^ 18 + (c * 2 ^ 9 + e))) by (unfold bv_ok; lia).
  assert (E : a * 2 ^ 28 + (b * 2 ^ 18 + (c * 2 ^ 9 + e)) = (a * 2 ^ 10 + b) * 2 ^ 18 + (c * 2 ^ 9 + e)) by lia.
  split; [|split; [|split]].
  - rewrite land_split, Z.land_0_r, M by (assumption || lia || now vm_compute). reflexivity.
  - rewrite land_split, land_split, Z.land_0_r, !M by (assumption || lia || now vm_compute). reflexivity.
  - rewrite E, land_split, Z.land_0_r, M by (assumption || lia || (unfold bv_ok; lia) || now vm_compute). lia.
  - rewrite E, land_split, Z.land_0_r, M by (assumption || lia || now vm_compute). reflexivity.
Qed.

(** ** Accessors *)

(** What an offset field and a width field stand for. *)
Definition decode (c e : Z) : Z * Z :=
  if (c =? 2) && (e =? 511) then (0, 0) else if c + e =? 512 then (c, 0) else (c, e + 1).

Lemma word_shiftr a b c e : fields a b c e ->
  Z.shiftr (word a b c e) 28 = a /\ Z.shiftr (word a b c e) 18 = a * 2 ^ 10 + b /\
  Z.shiftr (word a b c e) 9 = (a * 2 ^ 10 + b) * 2 ^ 9 + c.
Proof.
  unfold fields, word. intros H. rewrite !Z.shiftr_div_pow2 by lia. repeat split; Z.to_euclidean_division_equations; lia.
Qed.

Lemma land_field x y n : 0 <= n -> bv_ok n y -> Z.land (x * 2 ^ n + y) (Z.ones n) = y.
Proof.
  intros Hn Hy. rewrite Z.land_ones, Z.add_comm, Z.mod_add by (pose proof (pow2_pos n); lia). now apply Z.mod_small.
Qed.

Lemma word_accessors a b c e : fields a b c e ->
  let d := {| data_ := word a b c e |} in
  majorNumber d = a /\ minorNumber d = b /\ (offset d, nBits d) = decode c e.
Proof.
  intros Hf d. destruct (word_shiftr a b c e Hf) as (S1 & S2 & S3). destruct (mask_parts a b c e Hf) as (_ & _ & _ & M).
  pose proof Hf as (Ha & Hb & Hc & He). unfold d, majorNumber, minorNumber, offset, nBits. cbn [data_].
  split; [assumption|]. split; [rewrite S2; now apply (land_field _ _ 10)|]. rewrite M, S3.
  change 0x1ff with (Z.ones 9). rewrite !land_field by (assumption || lia).
  replace (word a b c e) with ((a * 2 ^ 19 + b * 2 ^ 9 + c) * 2 ^ 9 + e) by (unfold word; lia). rewrite land_field by (assumption || lia).
  unfold decode, EMPTY_PATTERN. destruct (Z.eqb_spec (c * 2 ^ 9 + e) 0x5ff), (Z.eqb_spec c 2), (Z.eqb_spec e 511); cbn [andb]; try lia; try reflexivity;
    destruct (c + e =? 512); reflexivity.
Qed.

(** Different fields stand for different bits. *)
Lemma decode_inj c e c' e' : 0 <= c < 512 -> 0 <= e < 512 -> 0 <= c' < 512 -> 0 <= e' < 512 -> decode c e = decode c' e' -> c = c' /\ e = e'.
Proof.
  intros Hc He Hc' He'. unfold decode.
  destruct (Z.eqb_spec c 2), (Z.eqb_spec e 511), (Z.eqb_spec c' 2), (Z.eqb_spec e' 511), (Z.eqb_spec (c + e) 512), (Z.eqb_spec (c' + e') 512);
    cbn [andb]; intros H; pose proof (f_equal fst H); pose proof (f_equal snd H); cbn [fst snd] in *; lia.
Qed.

(** ** Mutators *)

Lemma word_set_major a b c e majr : fields a b c e -> 0 <= majr < 2 ^ 32 ->
  set_majorNumber majr {| data_ := word a b c e |} =
  if majr <=? 16 then Ret {| data_ := word (majr mod 16) b c e |} else Fail AssertFail.
Proof.
  intros Hf Hm. unfold set_majorNumber, maxMajor. destruct (Z.leb_spec majr 16) as [Hle|]; [|reflexivity]. cbn [require_ obind data_].
  destruct (mask_parts a b c e Hf) as (-> & _). rewrite Z.shiftl_mul_pow2 by lia.
  replace (majr * 2 ^ 28 mod 2 ^ 32) with (Z.shiftl (majr mod 16) 28) by (rewrite Z.shiftl_mul_pow2 by lia; Z.to_euclidean_division_equations; lia).
  rewrite lor_shiftl by (unfold fields, word in *; lia). do 2 f_equal. unfold word. lia.
Qed.

Lemma word_set_minor a b c e minr : fields a b c e -> 0 <= minr < 2 ^ 32 ->
  set_minorNumber minr {| data_ := word a b c e |} =
  if minr <=? 1023 then Ret {| data_ := word a minr c e |} else Fail AssertFail.
Proof.
  intros Hf Hm. unfold set_minorNumber, maxMinor. destruct (Z.leb_spec minr 1023) as [Hle|]; [|reflexivity]. cbn [require_ obind data_].
  destruct (mask_parts a b c e Hf) as (_ & -> & _). rewrite Z.shiftl_mul_pow2 by lia. destruct Hf as (Ha & Hb & Hc & He).
  rewrite (Z.mod_small (minr * 2 ^ 18)) by lia. do 2 f_equal. unfold word.
  replace (a * 2 ^ 28 + (0 * 2 ^ 18 + (c * 2 ^ 9 + e))) with (c * 2 ^ 9 + e + (a * 2 ^ 10) * 2 ^ 18) by lia.
  rewrite <- lor_shiftl, <- Z.lor_assoc by lia. rewrite Z.shiftl_mul_pow2 by lia.
  replace (Z.lor (a * 2 ^ 10 * 2 ^ 18) (minr * 2 ^ 18)) with (Z.shiftl (a * 2 ^ 10 + minr) 18).
  - rewrite lor_shiftl by lia. lia.
  - rewrite <- !Z.shiftl_mul_pow2, <- Z.shiftl_lor by lia. f_equal. rewrite Z.lor_comm, lor_shiftl, Z.shiftl_mul_pow2 by lia. lia.
Qed.

(** The fields for an offset and a width. *)
Definition encode (off width : Z) : Z * Z :=
  if (0 =? off) && (0 =? width) then (2, 511) else if 0 =? width then (off, 512 - off) else (off, width - 1).

Lemma encode_decode off width c e : 0 <= off < 512 -> 0 <= width -> off + width <= 512 -> encode off width = (c, e) ->
  (0 <= c < 512 /\ 0 <= e < 512) /\ decode c e = (off, width) /\ offset_width_field off width = c * 2 ^ 9 + e.
Proof.
  intros Ho Hw Hs. unfold encode, offset_width_field, decode.
  destruct (Z.eqb_spec 0 off) as [<-|Hno], (Z.eqb_spec 0 width) as [<-|Hnw]; cbn [andb]; intros [= <- <-].
  - split; [lia|]. now split.
  - split; [lia|]. rewrite (proj2 (Z.eqb_neq 0 2)), (proj2 (Z.eqb_neq (0 + (width - 1)) 512)) by lia. cbn [andb].
    rewrite Z.sub_add. split; [reflexivity|]. rewrite Z.mod_small by lia. now rewrite Z.shiftl_0_l.
  - split; [lia|]. rewrite (proj2 (Z.eqb_eq (off + (512 - off)) 512)) by lia.
    replace ((off =? 2) && (512 - off =? 511)) with false by (symmetry; apply andb_false_iff; destruct (Z.eqb_spec off 2); [right; apply Z.eqb_neq; lia|now left]).
    split; [reflexivity|]. rewrite Z.lor_comm, lor_shiftl by lia. lia.
  - split; [lia|]. rewrite (proj2 (Z.eqb_neq (off + (width - 1)) 512)) by lia.
    replace ((off =? 2) && (width - 1 =? 511)) with false by (symmetry; apply andb_false_iff; destruct (Z.eqb_spec off 2); [right; apply Z.eqb_neq; lia|now left]).
    rewrite Z.sub_add. split; [reflexivity|]. rewrite Z.mod_small, Z.lor_comm, lor_shiftl by lia. lia.
Qed.

Lemma nBits_range d : 0 <= data_ d < 2 ^ 32 -> 0 <= offset d < 512 /\ 0 <= nBits d <= 512.
Proof.
  intros Hd. destruct d as [d]. destruct (word_fields d Hd) as (a & b & c & e & Hf & ->).
  destruct (word_accessors a b c e Hf) as (_ & _ & H). destruct Hf as (_ & _ & Hc & He). unfold decode in H.
  destruct ((c =? 2) && (e =? 511)); [|destruct (c + e =? 512)]; injection H as -> ->; lia.
Qed.

Lemma word_set_offset_width a b c e off width :
  fields a b c e -> 0 <= off < 2 ^ 64 -> 0 <= width < 2 ^ 64 ->
  setOffsetWidth off width {| data_ := word a b c e |} =
  if (off <? 512) && (off + width <=? 512)
  then Ret {| data_ := word a b (fst (encode off width)) (snd (encode off width)) |} else Fail AssertFail.
Proof.
  intros Hf Ho Hw. unfold setOffsetWidth. destruct (Z.ltb_spec off 512) as [Lo|]; [|reflexivity]. cbn [require_ obind andb data_].
  change (u32 (-1 - OFFSET_WIDTH_MASK)) with 0xfffc0000. destruct (mask_parts a b c e Hf) as (_ & _ & -> & _).
  destruct (Z.leb_spec (off + width) 512) as [Hs|Hs].
  - rewrite (Z.mod_small (off + width)), (proj2 (Z.leb_le _ 512)) by lia. cbn [require_ obind].
    destruct (encode off width) as [c' e'] eqn:E. cbn [fst snd].
    destruct (encode_decode off width c' e' ltac:(lia) ltac:(lia) Hs E) as ((Hc & He) & D & ->).
    assert (Hf' : fields a b c' e') by (destruct Hf as (? & ? & _); split; [assumption|]; split; [assumption|]; lia).
    replace (word a b 0 0) with (Z.shiftl (a * 2 ^ 10 + b) 18) by (rewrite Z.shiftl_mul_pow2 by lia; unfold word; lia).
    rewrite Z.lor_comm, lor_shiftl by lia.
    replace (c' * 2 ^ 9 + e' + (a * 2 ^ 10 + b) * 2 ^ 18) with (word a b c' e') by (unfold word; lia).
    rewrite Z.mod_small by now apply word_range. destruct (word_accessors a b c' e' Hf') as (_ & _ & H). rewrite D in H. injection H as -> ->.
    now rewrite !Z.eqb_refl.
  - destruct (Z.leb_spec (u64 (off + width)) 512) as [Hle|]; [|reflexivity]. cbn [require_ obind].
    assert (Hbig : 512 < width) by (destruct (Z.lt_ge_cases 512 width); [assumption|]; rewrite Z.mod_small in Hle; lia).
    match goal with |- context [offset ?d] => set (r := d) end.
    assert (R : 0 <= data_ r < 2 ^ 32) by (apply Z.mod_pos_bound; lia). apply nBits_range in R.
    rewrite (proj2 (Z.eqb_neq (nBits r) width)) by lia. now destruct (offset r =? off).
Qed.

Lemma encode_range off width : 0 <= off < 512 -> 0 <= width -> off + width <= 512 ->
  0 <= fst (encode off width) < 512 /\ 0 <= snd (encode off width) < 512.
Proof.
  intros Ho Hw Hs. destruct (encode off width) as [c e] eqn:E. now apply (encode_decode off width c e).
Qed.

(** A descriptor made of parts. *)
Lemma mkDescriptor_word majr minr off width :
  0 <= majr < 2 ^ 32 -> 0 <= minr < 2 ^ 32 -> 0 <= off < 2 ^ 64 -> 0 <= width < 2 ^ 64 ->
  mkDescriptor majr minr off width =
  if (majr <=? 16) && (minr <=? 1023) && (off <? 512) && (off + width <=? 512)
  then Ret {| data_ := word (majr mod 16) minr (fst (encode off width)) (snd (encode off width)) |} else Fail AssertFail.
Proof.
  intros Hm Hn Ho Hw. unfold mkDescriptor. change {| data_ := 0 |} with {| data_ := word 0 0 0 0 |}.
  rewrite word_set_major by (assumption || now vm_compute). destruct (Z.leb_spec majr 16); [|reflexivity]. cbn [obind andb].
  pose proof (Z.mod_pos_bound majr 16 ltac:(lia)).
  rewrite word_set_minor by (assumption || (repeat split; lia)). destruct (Z.leb_spec minr 1023); [|reflexivity]. cbn [obind andb].
  now rewrite word_set_offset_width by (assumption || (repeat split; lia)).
Qed.

Lemma word_encode_accessors a b off width :
  0 <= a < 16 -> 0 <= b < 1024 -> 0 <= off < 512 -> 0 <= width -> off + width <= 512 ->
  let d := {| data_ := word a b (fst (encode off width)) (snd (encode off width)) |} in
  0 <= data_ d < 2 ^ 32 /\ majorNumber d = a /\ minorNumber d = b /\ offset d = off /\ nBits d = width.
Proof.
  intros Ha Hb Ho Hw Hs. cbv zeta. destruct (encode off width) as [c e] eqn:E. cbn [fst snd].
  destruct (encode_decode off width c e Ho Hw Hs E) as ((Hc & He) & D & _).
  assert (Hf : fields a b c e) by (repeat split; lia). destruct (word_accessors a b c e Hf) as (-> & -> & H).
  rewrite D in H. injection H as -> ->. split; [now apply word_range|]. easy.
Qed.

(** * The theorems *)

(** All that a descriptor says. *)
Definition parts (d : RegisterDescriptor) : Z * Z * Z * Z := (majorNumber d, minorNumber d, offset d, nBits d).
Definition raw_ok (d : RegisterDescriptor) : Prop := 0 <= data_ d < 2 ^ 32.

Lemma parts_word d : raw_ok d -> exists a b c e, fields a b c e /\ d = {| data_ := word a b c e |} /\
  parts d = (a, b, fst (decode c e), snd (decode c e)).
Proof.
  intros Hd. destruct d as [d]. destruct (word_fields d Hd) as (a & b & c & e & Hf & ->). exists a, b, c, e.
  split; [assumption|]. split; [reflexivity|]. unfold parts. destruct (word_accessors a b c e Hf) as (-> & -> & H).
  rewrite <- H. reflexivity.
Qed.

Lemma parts_inj a b : raw_ok a -> raw_ok b -> parts a = parts b -> a = b.
Proof.
  intros Ha Hb. destruct (parts_word a Ha) as (a1 & a2 & a3 & a4 & Fa & -> & ->), (parts_word b Hb) as (b1 & b2 & b3 & b4 & Fb & -> & ->).
  intros [= -> -> H1 H2]. destruct Fa as (_ & _ & Ha3 & Ha4), Fb as (_ & _ & Hb3 & Hb4).
  destruct (decode_inj a3 a4 b3 b4) as [-> ->]; try assumption; [|reflexivity].
  destruct (decode a3 a4), (decode b3 b4). cbn in *. congruence.
Qed.

Lemma parts_encode a b off width :
  0 <= a < 16 -> 0 <= b < 1024 -> 0 <= off < 512 -> 0 <= width -> off + width <= 512 ->
  let d := {| data_ := word a b (fst (encode off width)) (snd (encode off width)) |} in
  raw_ok d /\ parts d = (a, b, off, width).
Proof.
  intros Ha Hb Ho Hw Hs d. destruct (word_encode_accessors a b off width Ha Hb Ho Hw Hs) as (R & E1 & E2 & E3 & E4).
  split; [exact R|]. unfold parts. subst d. now rewrite E1, E2, E3, E4.
Qed.

Definition made (r : outcome RegisterDescriptor) (ps : Z * Z * Z * Z) : Prop :=
  exists d, r = Ret d /\ raw_ok d /\ parts d = ps.

Lemma mkDescriptor_made majr minr off width :
  0 <= majr < 16 -> 0 <= minr < 1024 -> 0 <= off < 512 -> 0 <= width -> off + width <= 512 ->
  made (mkDescriptor majr minr off width) (majr, minr, off, width).
Proof.
  intros Hm Hn Ho Hw Hs. rewrite mkDescriptor_word by lia.
  rewrite (proj2 (Z.leb_le majr 16)), (proj2 (Z.leb_le minr 1023)), (proj2 (Z.ltb_lt off 512)), (proj2 (Z.leb_le (off + width) 512)) by lia.
  cbn [andb]. rewrite (Z.mod_small majr) by lia. eexists. split; [reflexivity|]. now apply parts_encode.
Qed.

(** C25. A descriptor made of parts has these parts, and two descriptors are
    equal when their parts are.  Parts that do not fit make an assertion fail, also
    when the sum of the offset and the width wraps around; but the major number
    16, which [maxMajor] admits, is stored as zero. *)
Theorem descriptor_roundtrip majr minr off width :
  0 <= majr < 2 ^ 32 -> 0 <= minr < 2 ^ 32 -> 0 <= off < 2 ^ 64 -> 0 <= width < 2 ^ 64 ->
  (if (majr <=? maxMajor) && (minr <=? maxMinor) && (off <=? maxOffset) && (off + width <=? maxNBits)
   then made (mkDescriptor majr minr off width) (if majr =? 16 then 0 else majr, minr, off, width)
   else mkDescriptor majr minr off width = Fail AssertFail) /\
  (forall a b, raw_ok a -> raw_ok b -> (descriptor_eqb a b = true <-> parts a = parts b)).
Proof.
  intros Hm Hn Ho Hw. split.
  - rewrite mkDescriptor_word by assumption. unfold maxMajor, maxMinor, maxOffset, maxNBits.
    replace (off <=? 511) with (off <? 512) by (destruct (Z.ltb_spec off 512), (Z.leb_spec off 511); reflexivity || lia).
    destruct (Z.leb_spec majr 16), (Z.leb_spec minr 1023), (Z.ltb_spec off 512), (Z.leb_spec (off + width) 512); cbn [andb]; try reflexivity.
    replace (if majr =? 16 then 0 else majr) with (majr mod 16)
      by (destruct (Z.eqb_spec majr 16) as [->|]; [reflexivity|apply Z.mod_small; lia]).
    eexists. split; [reflexivity|]. pose proof (Z.mod_pos_bound majr 16 ltac:(lia)). apply parts_encode; lia.
  - intros a b Ha Hb. unfold descriptor_eqb. rewrite Z.eqb_eq. destruct a as [a], b as [b]. cbn.
    split; [now intros ->|]. intros H. now apply (parts_inj _ _ Ha Hb) in H as [= ->].
Qed.

(** The mutators set what they say and keep the rest: moving the offset
    up may shorten the width; a width that does not fit after the offset makes an
    assertion fail. *)
Theorem descriptor_setters d x :
  raw_ok d -> 0 <= x ->
  let majr := majorNumber d in let minr := minorNumber d in let off := offset d in let n := nBits d in
  (x <= 15 -> made (set_majorNumber x d) (x, minr, off, n)) /\
  (x <= maxMinor -> made (set_minorNumber x d) (majr, x, off, n)) /\
  (x <= maxOffset -> made (set_offset x d) (majr, minr, x, Z.min n (512 - x))) /\
  (x <= maxNBits -> if off + x <=? 512 then made (set_nBits x d) (majr, minr, off, x) else set_nBits x d = Fail AssertFail).
Proof.
  intros Hd Hx majr minr off n. destruct (parts_word d Hd) as (a & b & c & e & Hf & -> & Hp). pose proof Hf as (Ha & Hb & Hc & He).
  pose proof (nBits_range _ Hd) as [Ho Hn]. subst majr minr off n. injection Hp as Pa Pb Po Pn. rewrite Pa, Pb.
  unfold maxMinor, maxOffset, maxNBits.
  assert (W : forall a' b', fields a' b' c e -> raw_ok {| data_ := word a' b' c e |} /\
    parts {| data_ := word a' b' c e |} = (a', b', offset {| data_ := word a b c e |}, nBits {| data_ := word a b c e |})).
  { intros a' b' Hf'. split; [now apply word_range|]. unfold parts. destruct (word_accessors a' b' c e Hf') as (-> & -> & H).
    rewrite Po, Pn. destruct (decode c e) as [o w]. now injection H as -> ->. }
  assert (S : forall o w, 0 <= o < 512 -> 0 <= w -> o + w <= 512 -> made (setOffsetWidth o w {| data_ := word a b c e |}) (a, b, o, w)).
  { intros o w Hoo Hww Hs. rewrite word_set_offset_width by (assumption || lia).
    rewrite (proj2 (Z.ltb_lt o 512)), (proj2 (Z.leb_le (o + w) 512)) by lia. eexists. split; [reflexivity|]. now apply parts_encode. }
  split; [|split; [|split]].
  - intros Hle. rewrite word_set_major, (proj2 (Z.leb_le x 16)), Z.mod_small by (assumption || lia).
    eexists. split; [reflexivity|]. apply W. repeat split; lia.
  - intros Hle. rewrite word_set_minor, (proj2 (Z.leb_le x 1023)) by (assumption || lia).
    eexists. split; [reflexivity|]. apply W. repeat split; lia.
  - intros Hle. unfold set_offset. rewrite (proj2 (Z.ltb_lt x 512)) by lia. cbn [require_ obind]. apply S; lia.
  - intros Hle. unfold set_nBits. rewrite (proj2 (Z.leb_le x 512)) by lia. cbn [require_ obind].
    destruct (Z.leb_spec (offset {| data_ := word a b c e |} + x) 512) as [Hs|Hs]; [apply S; lia|].
    rewrite word_set_offset_width, (proj2 (Z.leb_gt _ 512)), andb_false_r by (assumption || lia). reflexivity.
Qed.

(** The bits a descriptor names. *)
Definition has_bit (d : RegisterDescriptor) (majr minr i : Z) : Prop :=
  majorNumber d = majr /\ minorNumber d = minr /\ offset d <= i < offset d + nBits d.
Definition descriptor_ok (d : RegisterDescriptor) : Prop := raw_ok d /\ offset d + nBits d <= 512.

Lemma descriptor_ranges d : raw_ok d -> 0 <= majorNumber d < 16 /\ 0 <= minorNumber d < 1024.
Proof.
  intros Hd. destruct (parts_word d Hd) as (a & b & c & e & Hf & -> & Hp). injection Hp as -> -> _ _. now destruct Hf as (? & ? & _).
Qed.

Lemma default_ok :
  offset RegisterDescriptor_default = 0 /\ nBits RegisterDescriptor_default = 0 /\ descriptor_ok RegisterDescriptor_default.
Proof. repeat split; vm_compute; discriminate || reflexivity. Qed.

(** The intersection of two descriptors names the bits that both name, and
    a descriptor is a subset of another when it names some bits and the other
    names them all. *)
Theorem descriptor_sets a b :
  descriptor_ok a -> descriptor_ok b ->
  (exists d, descriptor_and a b = Ret d /\ descriptor_ok d /\
     forall majr minr i, has_bit d majr minr i <-> has_bit a majr minr i /\ has_bit b majr minr i) /\
  (exists s, isSubsetOf a b = Ret s /\
     (s = true <-> isEmpty a = false /\ forall majr minr i, has_bit a majr minr i -> has_bit b majr minr i)).
Proof.
  intros [Ra Wa] [Rb Wb]. destruct (nBits_range a Ra) as [Oa Na], (nBits_range b Rb) as [Ob Nb].
  destruct (descriptor_ranges a Ra) as [Ma Ia].
  pose proof default_ok as (D3 & D4 & Dok).
  assert (H : exists d, descriptor_and a b = Ret d /\ descriptor_ok d /\
    (forall majr minr i, has_bit d majr minr i <-> has_bit a majr minr i /\ has_bit b majr minr i)).
  { unfold descriptor_and. destruct (Z.eqb_spec (majorNumber a) (majorNumber b)) as [E1|E1];
      [destruct (Z.eqb_spec (minorNumber a) (minorNumber b)) as [E2|E2]|]; cbn [andb].
    2-3: eexists; split; [reflexivity|]; split; [exact Dok|]; intros majr minr i; unfold has_bit; rewrite D3, D4; split; [lia|]; intros (? & ?); lia.
    destruct (Z.leb_spec (Z.min (offset a + nBits a) (offset b + nBits b)) (Z.max (offset a) (offset b))) as [Hle|Hgt].
    - eexists. split; [reflexivity|]. split; [exact Dok|]. intros majr minr i. unfold has_bit. rewrite D3, D4. lia.
    - destruct (mkDescriptor_made (majorNumber a) (minorNumber a) (Z.max (offset a) (offset b))
        (Z.min (offset a + nBits a) (offset b + nBits b) - Z.max (offset a) (offset b))) as (d & Hd & Rd & Hp); try lia.
      injection Hp as P1 P2 P3 P4. exists d. split; [exact Hd|]. split; [split; [assumption|lia]|].
      intros majr minr i. unfold has_bit. rewrite P1, P2, P3, P4. clear - E1 E2. split; [intros (<- & <- & ?)|intros ((<- & <- & ?) & _ & _ & ?)];
        repeat split; congruence || lia. }
  split; [exact H|]. destruct H as (d & Hd & [Rd Wd] & Hb). unfold isSubsetOf. rewrite Hd. eexists. split; [reflexivity|].
  unfold isValid, isEmpty. destruct (nBits_range d Rd) as [Od Nd].
  rewrite !andb_true_iff, negb_true_iff, !Z.eqb_eq, Z.eqb_neq, Z.eqb_neq. split.
  - intros (Hv & Eo & En). split; [lia|]. intros majr minr i Hi.
    assert (Hd0 := proj1 (Hb (majorNumber d) (minorNumber d) (offset d)) ltac:(split; [reflexivity|split; [reflexivity|lia]])).
    apply (Hb majr minr i). unfold has_bit in Hi, Hd0 |- *. destruct Hd0 as ((E1 & E2 & _) & _). destruct Hi as (<- & <- & Hi).
    rewrite Eo, En. split; [congruence|]. split; [congruence|assumption].
  - intros (Hv & Hsub).
    assert (F : has_bit d (majorNumber a) (minorNumber a) (offset a)) by (apply Hb; split; [|apply Hsub]; (split; [reflexivity|split; [reflexivity|lia]])).
    assert (L : has_bit d (majorNumber a) (minorNumber a) (offset a + nBits a - 1)) by (apply Hb; split; [|apply Hsub]; (split; [reflexivity|split; [reflexivity|lia]])).
    assert (Ed : forall i, offset d <= i < offset d + nBits d -> offset a <= i < offset a + nBits a).
    { intros i Hi. apply (Hb (majorNumber d) (minorNumber d) i). split; [reflexivity|]. split; [reflexivity|assumption]. }
    pose proof (Ed (offset d)). pose proof (Ed (offset d + nBits d - 1)). destruct F as (_ & _ & F), L as (_ & _ & L). lia.
Qed.

(** * Examples *)

(** The high byte of AX within RAX; the major number 16. *)
Theorem descriptor_roundtrip_witness :
  made (mkDescriptor 0 0 8 8) (0, 0, 8, 8) /\ made (mkDescriptor 16 3 0 64) (0, 3, 0, 64).
Proof.
  split.
  - exact (proj1 (descriptor_roundtrip 0 0 8 8 ltac:(lia) ltac:(lia) ltac:(lia) ltac:(lia))).
  - exact (proj1 (descriptor_roundtrip 16 3 0 64 ltac:(lia) ltac:(lia) ltac:(lia) ltac:(lia))).
Defined.

Definition rax : RegisterDescriptor := {| data_ := 63 |}.
Definition ah : RegisterDescriptor := {| data_ := 0x1007 |}.

Theorem descriptor_setters_witness : raw_ok ah /\ made (set_offset 508 ah) (0, 0, 508, 4).
Proof.
  split; [repeat split; vm_compute; discriminate || reflexivity|].
  exact (proj1 (proj2 (proj2 (descriptor_setters ah 508 ltac:(repeat split; vm_compute; discriminate || reflexivity) ltac:(lia)))) ltac:(unfold maxOffset; lia)).
Defined.

Theorem descriptor_sets_witness : descriptor_ok ah /\ descriptor_ok rax /\
  exists s, isSubsetOf ah rax = Ret s /\
    (s = true <-> isEmpty ah = false /\ forall majr minr i, has_bit ah majr minr i -> has_bit rax majr minr i).
Proof.
  split; [repeat split; vm_compute; discriminate || reflexivity|]. split; [repeat split; vm_compute; discriminate || reflexivity|].
  exact (proj2 (descriptor_sets ah rax ltac:(repeat split; vm_compute; discriminate || reflexivity) ltac:(repeat split; vm_compute; discriminate || reflexivity))).
Defined.
