(* ===== verification/RiscRegisters.v ===== *)
(** The registers of a machine state
    ([src/Rose/BinaryAnalysis/InstructionSemantics/BaseSemantics/RegisterStateGeneric.C]).

    A state keeps, for each register with a major and a minor number, a list of
    pairs of a descriptor and a value, the parts of the register that are known.
    Parts are split, joined and created as registers that overlap them are read
    and written, by the operations of a semantic domain.  Two switches say whether
    an access may rearrange the parts there are, and whether it may make new ones.

    A value may be missing from a pair, where the code has a null pointer.  Names
    and comments of values, the sets of writers and the properties of registers
    are not modelled.  [std::sort] is an insertion sort; offsets differ. *)
From S2P Require Import Prelude SawyerInterval SawyerIntervalMap SawyerIntervalSet RegDescriptor RiscOps.
From stdpp Require Import gmap.
Open Scope Z_scope.

(** * Definitions *)

(** [RegPair] *)
Record RegPair (V : Type) := mkRegPair { rp_desc : RegisterDescriptor; rp_value : option V }.
Arguments mkRegPair {V}.
Arguments rp_desc {V}.
Arguments rp_value {V}.

(** The key of a list of parts, [RegStore]. *)
Definition RegStore : Type := Z * Z.
Definition store_of (d : RegisterDescriptor) : RegStore := (majorNumber d, minorNumber d).

Record RegisterState (V : Type) := mkRegisters {
  registers : gmap RegStore (list (RegPair V));
  accessModifiesExistingLocations : bool;
  accessCreatesLocations : bool
}.
Arguments mkRegisters {V}.
Arguments registers {V}.
Arguments accessModifiesExistingLocations {V}.
Arguments accessCreatesLocations {V}.

Definition RegisterState_empty {V} : RegisterState V := mkRegisters ∅ true true.

(** The state with another list of parts for a register. *)
Definition set_pairs {V} (rs : RegisterState V) (reg : RegisterDescriptor) (l : list (RegPair V)) : RegisterState V :=
  mkRegisters (<[store_of reg := l]> (registers rs)) (accessModifiesExistingLocations rs) (accessCreatesLocations rs).
Definition pairs {V} (rs : RegisterState V) (reg : RegisterDescriptor) : list (RegPair V) :=
  default [] (registers rs !! store_of reg).

#[local] Notation size_t := 64.

(** The bits of a descriptor, [BitRange::baseSize]. *)
Definition location (d : RegisterDescriptor) : outcome Interval := Interval_baseSize size_t (offset d) (nBits d).

Section Registers.
Context {V S : Type} {Ops : RiscOperators V S}.
#[local] Notation RegPair := (RegPair V).
#[local] Notation RegisterState := (RegisterState V).

Definition value_of (p : RegPair) : M S V := match rp_value p with Some v => ret v | None => fail Undefined end.

(** ** Splitting parts *)

(** A part of register [reg] with the bits from [lo] on. *)
Definition subreg (reg : RegisterDescriptor) (lo n : Z) : outcome RegisterDescriptor :=
  mkDescriptor (majorNumber reg) (minorNumber reg) lo n.

(** The low bits of a stored part, below [overlap]. *)
Definition low_part (reg : RegisterDescriptor) (p : RegPair) (storedLocation overlap : Interval) : M S (list RegPair) :=
  if lo_ storedLocation <? lo_ overlap then
    let nbits := lo_ overlap - lo_ storedLocation in
    let* d := lift (subreg reg (lo_ storedLocation) nbits) in
    let* v := value_of p in
    let* x := unsignedExtend v nbits in ret [mkRegPair d (Some x)]
  else ret [].

(** The bits of a stored part in [overlap]. *)
Definition middle_part (reg : RegisterDescriptor) (p : RegPair) (storedLocation overlap : Interval) : M S (list RegPair) :=
  let* d := lift (subreg reg (lo_ overlap) (Interval_size size_t overlap)) in
  let extractBegin := lo_ overlap - lo_ storedLocation in
  let* v := value_of p in
  let* x := extract v extractBegin (extractBegin + Interval_size size_t overlap) in ret [mkRegPair d (Some x)].

(** The high bits of a stored part, above [overlap]. *)
Definition high_part (reg : RegisterDescriptor) (p : RegPair) (storedLocation overlap : Interval) : M S (list RegPair) :=
  if hi_ overlap <? hi_ storedLocation then
    let nbits := hi_ storedLocation - hi_ overlap in
    let* d := lift (subreg reg (hi_ overlap + 1) nbits) in
    let extractBegin := hi_ overlap + 1 - lo_ storedLocation in
    let* v := value_of p in
    let* x := extract v extractBegin (extractBegin + nbits) in ret [mkRegPair d (Some x)]
  else ret [].

(** [scanAccessedLocations]: what of the stored parts is accessed, and what of
    those is not. *)
Fixpoint scan_loop (reg : RegisterDescriptor) (accessedLocation : Interval) (l accessedParts preservedParts : list RegPair) :
  M S (list RegPair * list RegPair) :=
  match l with
  | [] => ret (accessedParts, preservedParts)
  | p :: l =>
      let* storedLocation := lift (location (rp_desc p)) in
      let overlap := Interval_intersection storedLocation accessedLocation in
      if Interval_isEmpty overlap then scan_loop reg accessedLocation l accessedParts preservedParts
      else
        let* low := low_part reg p storedLocation overlap in
        let* middle := middle_part reg p storedLocation overlap in
        let* high := high_part reg p storedLocation overlap in
        scan_loop reg accessedLocation l (accessedParts ++ middle) (preservedParts ++ low ++ high)
  end.
Definition scanAccessedLocations (rs : RegisterState) (reg : RegisterDescriptor) : M S (list RegPair * list RegPair) :=
  let* accessedLocation := lift (location reg) in
  scan_loop reg accessedLocation (pairs rs reg) [] [].

(** [clearOverlappingLocations]: values of parts that are accessed become null. *)
Fixpoint clear_loop (accessedLocation : Interval) (l : list RegPair) : outcome (list RegPair) :=
  match l with
  | [] => Ret []
  | p :: l =>
      let! storedLocation := location (rp_desc p) in
      let p := if Interval_isEmpty (Interval_intersection storedLocation accessedLocation) then p else mkRegPair (rp_desc p) None in
      let! l := clear_loop accessedLocation l in Ret (p :: l)
  end.
Definition clearOverlappingLocations (reg : RegisterDescriptor) (l : list RegPair) : outcome (list RegPair) :=
  let! accessedLocation := location reg in clear_loop accessedLocation l.

Definition has_null_value (p : RegPair) : bool := match rp_value p with None => true | Some _ => false end.
Definition remove_null (l : list RegPair) : list RegPair := List.filter (fun p => negb (has_null_value p)) l.

(** ** Reading *)

(** The bits of a register that are not among the parts. *)
Fixpoint minus_parts (l : list RegPair) (newLocations : IntervalSet) : outcome IntervalSet :=
  match l with
  | [] => Ret newLocations
  | p :: l =>
      let! where_ := location (rp_desc p) in
      let! s := IntervalSet_erase size_t where_ newLocations in minus_parts l s
  end.
Definition missing (reg : RegisterDescriptor) (accessedParts : list RegPair) : outcome IntervalSet :=
  let! accessedLocation := location reg in
  let! s := IntervalSet_insert size_t accessedLocation IntervalSet_empty in minus_parts accessedParts s.

(** The parts of [value] for the given bits of the register. *)
Fixpoint parts_for (reg : RegisterDescriptor) (value : V) (l : list Interval) : M S (list RegPair) :=
  match l with
  | [] => ret []
  | newLocation :: l =>
      let* d := lift (subreg reg (lo_ newLocation) (Interval_size size_t newLocation)) in
      let* _ := lift (require_ (offset reg <=? lo_ newLocation) AssertFail) in
      let* newval := extract value (lo_ newLocation - offset reg) (hi_ newLocation + 1 - offset reg) in
      let* rest := parts_for reg value l in ret (mkRegPair d (Some newval) :: rest)
  end.

Fixpoint insert_by_offset (p : RegPair) (l : list RegPair) : list RegPair :=
  match l with
  | [] => [p]
  | q :: l' => if offset (rp_desc q) <? offset (rp_desc p) then q :: insert_by_offset p l' else p :: l
  end.
Definition sort_by_offset (l : list RegPair) : list RegPair := fold_right insert_by_offset [] l.

(** The values of parts, concatenated from the least bits on. *)
Fixpoint concat_values (retval : option V) (l : list RegPair) : M S (option V) :=
  match l with
  | [] => ret retval
  | p :: l =>
      let* v := value_of p in
      let* r := match retval with Some r => concat_ r v | None => ret v end in
      concat_values (Some r) l
  end.

(** What a read finds or makes: the parts found, the parts made of the
    default, and the value. *)
Definition assemble (reg : RegisterDescriptor) (dflt : V) (accessedParts : list RegPair) : M S (list RegPair * V) :=
  let* newLocations := lift (missing reg accessedParts) in
  let* newParts := parts_for reg dflt (intervals newLocations) in
  let* retval := concat_values None (sort_by_offset (accessedParts ++ newParts)) in
  match retval with
  | None => fail Undefined
  | Some retval => assert* nBits_ retval =? nBits reg else AssertFail in ret (newParts, retval)
  end.

(** Contiguous parts, of a sorted list, joined from the first on. *)
Fixpoint join_loop (reg : RegisterDescriptor) (firstOffset nextOffset : Z) (part : V) (l : list RegPair) : M S (list RegPair) :=
  let close (rest : M S (list RegPair)) :=
    let* d := lift (subreg reg firstOffset (nextOffset - firstOffset)) in
    let* _ := lift (require_ (nBits d =? nBits_ part) AssertFail) in
    let* r := rest in ret (mkRegPair d (Some part) :: r) in
  match l with
  | [] => close (ret [])
  | p :: l =>
      let* v := value_of p in
      let next := offset (rp_desc p) + nBits (rp_desc p) in
      if offset (rp_desc p) =? nextOffset
      then let* part := concat_ part v in join_loop reg firstOffset next part l
      else close (join_loop reg (offset (rp_desc p)) next v l)
  end.
Definition join_parts (reg : RegisterDescriptor) (l : list RegPair) : M S (list RegPair) :=
  match l with
  | [] => ret []
  | p :: l => let* v := value_of p in join_loop reg (offset (rp_desc p)) (offset (rp_desc p) + nBits (rp_desc p)) v l
  end.

(** [ASSERT_forbid(reg.isEmpty())] and the width of the default. *)
Definition readable (reg : RegisterDescriptor) (dflt : V) : M S unit :=
  let* _ := lift (require_ (negb (isEmpty reg)) AssertFail) in
  lift (require_ (nBits reg =? nBits_ dflt) AssertFail).

(** The stored parts, without the values that the access replaces. *)
Definition cleared (rs : RegisterState) (reg : RegisterDescriptor) (l : list RegPair) : M S (list RegPair) :=
  if accessModifiesExistingLocations rs then lift (clearOverlappingLocations reg l) else ret l.

Definition readRegister (rs : RegisterState) (reg : RegisterDescriptor) (dflt : V) : M S (V * RegisterState) :=
  let* _ := readable reg dflt in
  match registers rs !! store_of reg with
  | None =>
      if negb (accessCreatesLocations rs) then ret (dflt, rs)
      else let* newval := copy_ dflt 0 in ret (newval, set_pairs rs reg [mkRegPair reg (Some newval)])
  | Some pairList =>
      let* ' (accessedParts, preservedParts) := scanAccessedLocations rs reg in
      let* pairList := cleared rs reg pairList in
      let* ' (newParts, retval) := assemble reg dflt accessedParts in
      if accessModifiesExistingLocations rs then
        let pairList := remove_null pairList ++ preservedParts in
        if accessCreatesLocations rs then ret (retval, set_pairs rs reg (pairList ++ [mkRegPair reg (Some retval)]))
        else let* joined := join_parts reg (sort_by_offset accessedParts) in ret (retval, set_pairs rs reg (pairList ++ joined))
      else if accessCreatesLocations rs then ret (retval, set_pairs rs reg (pairList ++ newParts))
      else ret (retval, rs)
  end.

Definition peekRegister (rs : RegisterState) (reg : RegisterDescriptor) (dflt : V) : M S V :=
  let* _ := readable reg dflt in
  match registers rs !! store_of reg with
  | None => ret dflt
  | Some _ =>
      let* ' (accessedParts, _) := scanAccessedLocations rs reg in
      let* ' (_, retval) := assemble reg dflt accessedParts in ret retval
  end.

(** ** Writing *)

(** How many bits of the register are stored. *)
Fixpoint nBitsFound (accessedLocation : Interval) (l : list RegPair) : outcome Z :=
  match l with
  | [] => Ret 0
  | p :: l =>
      let! storedLocation := location (rp_desc p) in
      let! n := nBitsFound accessedLocation l in
      Ret (Interval_size size_t (Interval_intersection storedLocation accessedLocation) + n)
  end.

(** The value that a write leaves in a stored part: the low bits of the part
    that are not accessed and the written bits, and then the high bits. *)
Definition low_and_written (accessedLocation storedLocation overlap : Interval) (v value : V) : M S V :=
  let* low :=
    if lo_ storedLocation <? lo_ overlap
    then let* x := unsignedExtend v (lo_ overlap - lo_ storedLocation) in ret (Some x) else ret None in
  let extractBegin := lo_ overlap - lo_ accessedLocation in
  let* midValue := extract value extractBegin (extractBegin + Interval_size size_t overlap) in
  match low with Some x => concat_ x midValue | None => ret midValue end.
Definition with_high (storedLocation overlap : Interval) (v valueToWrite : V) : M S V :=
  if hi_ overlap <? hi_ storedLocation then
    let extractBegin := hi_ overlap + 1 - lo_ storedLocation in
    let* hiValue := extract v extractBegin (extractBegin + (hi_ storedLocation - hi_ overlap)) in
    concat_ valueToWrite hiValue
  else ret valueToWrite.

(** Writing to the stored parts without moving their bounds. *)
Definition overwrite_pair (accessedLocation : Interval) (value : V) (p : RegPair) : M S RegPair :=
  let* storedLocation := lift (location (rp_desc p)) in
  let overlap := Interval_intersection storedLocation accessedLocation in
  if Interval_isEmpty overlap then ret p
  else
    let* v := value_of p in
    let* valueToWrite := low_and_written accessedLocation storedLocation overlap v value in
    let* valueToWrite := with_high storedLocation overlap v valueToWrite in
    let* _ := lift (require_ (nBits_ valueToWrite =? nBits (rp_desc p)) AssertFail) in
    ret (mkRegPair (rp_desc p) (Some valueToWrite)).
Fixpoint overwrite (accessedLocation : Interval) (value : V) (l : list RegPair) : M S (list RegPair) :=
  match l with
  | [] => ret []
  | p :: l =>
      let* p := overwrite_pair accessedLocation value p in
      let* l := overwrite accessedLocation value l in ret (p :: l)
  end.

(** The parts of a written value that are new. *)
Fixpoint inserted_parts (reg : RegisterDescriptor) (accessedLocation : Interval) (value : V) (l : list Interval) : M S (list RegPair) :=
  match l with
  | [] => ret []
  | newLocation :: l =>
      let extractBegin := lo_ newLocation - lo_ accessedLocation in
      let n := Interval_size size_t newLocation in
      let* valueToWrite := extract value extractBegin (extractBegin + n) in
      let* _ := lift (require_ (nBits_ valueToWrite =? n) AssertFail) in
      let* d := lift (subreg reg (lo_ newLocation) n) in
      let* rest := inserted_parts reg accessedLocation value l in ret (mkRegPair d (Some valueToWrite) :: rest)
  end.

Definition writeRegister (rs : RegisterState) (reg : RegisterDescriptor) (value : V) : M S RegisterState :=
  let* _ := lift (require_ (nBits reg =? nBits_ value) AssertFail) in
  let* accessedLocation := lift (location reg) in
  match registers rs !! store_of reg with
  | None =>
      if negb (accessCreatesLocations rs) then fail Throw
      else ret (set_pairs rs reg [mkRegPair reg (Some value)])
  | Some pairList =>
      let* _ :=
        if accessCreatesLocations rs then ret tt
        else
          let* n := lift (nBitsFound accessedLocation pairList) in
          let size := Interval_size size_t accessedLocation in
          let* _ := lift (require_ (n <=? size) AssertFail) in
          if n <? size then fail Throw else ret tt in
      let* ' (accessedParts, preservedParts) := scanAccessedLocations rs reg in
      let* pairList := cleared rs reg pairList in
      let* newLocations := lift (missing reg accessedParts) in
      if accessModifiesExistingLocations rs then
        ret (set_pairs rs reg (remove_null pairList ++ preservedParts ++ [mkRegPair reg (Some value)]))
      else
        let* pairList := overwrite accessedLocation value pairList in
        let* new := inserted_parts reg accessedLocation value (intervals newLocations) in
        ret (set_pairs rs reg (pairList ++ new))
  end.

(** ** Erasing *)

(** The parts outside the erased bits of the stored parts that overlap them. *)
Fixpoint nonoverlaps (reg : RegisterDescriptor) (accessedLocation : Interval) (l : list RegPair) : M S (list RegPair) :=
  match l with
  | [] => ret []
  | p :: l =>
      let* haveLocation := lift (location (rp_desc p)) in
      let intersection := Interval_intersection accessedLocation haveLocation in
      let* here :=
        if Interval_isEmpty intersection then ret []
        else
          let* low := low_part reg p haveLocation intersection in
          let* high := high_part reg p haveLocation intersection in ret (low ++ high) in
      let* rest := nonoverlaps reg accessedLocation l in ret (here ++ rest)
  end.

Definition erase_register (rs : RegisterState) (reg : RegisterDescriptor) : M S RegisterState :=
  let* _ := lift (require_ (negb (isEmpty reg)) AssertFail) in
  let* accessedLocation := lift (location reg) in
  match registers rs !! store_of reg with
  | None => ret rs
  | Some pairList =>
      let* kept := nonoverlaps reg accessedLocation pairList in
      let* pairList := lift (clear_loop accessedLocation pairList) in
      ret (set_pairs rs reg (remove_null pairList ++ kept))
  end.

Definition clear_registers (rs : RegisterState) : RegisterState :=
  mkRegisters ∅ (accessModifiesExistingLocations rs) (accessCreatesLocations rs).

(** [initialize_nonoverlapping]; [value] makes zero or an undefined value of a width. *)
Fixpoint initialize_loop (value : Z -> M S V) (regs : list RegisterDescriptor) (rs : RegisterState) : M S RegisterState :=
  match regs with
  | [] => ret rs
  | reg :: regs =>
      let* val := value (nBits reg) in
      initialize_loop value regs (set_pairs rs reg (pairs rs reg ++ [mkRegPair reg (Some val)]))
  end.
Definition initialize_nonoverlapping (value : Z -> M S V) (regs : list RegisterDescriptor) (rs : RegisterState) : M S RegisterState :=
  initialize_loop value regs (clear_registers rs).

(** ** Queries *)

Fixpoint is_partly_loop (want : Interval) (l : list RegPair) : outcome bool :=
  match l with
  | [] => Ret false
  | p :: l =>
      let! loc := location (rp_desc p) in
      if negb (Interval_isEmpty (Interval_intersection want loc)) then Ret true else is_partly_loop want l
  end.
Definition is_partly_stored (rs : RegisterState) (desc : RegisterDescriptor) : outcome bool :=
  let! want := location desc in is_partly_loop want (pairs rs desc).

Definition is_wholly_stored (rs : RegisterState) (desc : RegisterDescriptor) : outcome bool :=
  let! desired := missing desc (pairs rs desc) in Ret (IntervalSet_isEmpty desired).

Definition is_exactly_stored (rs : RegisterState) (desc : RegisterDescriptor) : bool :=
  existsb (fun p => descriptor_eqb desc (rp_desc p)) (pairs rs desc).

Fixpoint overlapping_loop (needleBits : Interval) (l : list RegPair) : outcome (list RegPair) :=
  match l with
  | [] => Ret []
  | p :: l =>
      let! loc := location (rp_desc p) in
      let! rest := overlapping_loop needleBits l in
      Ret (if Interval_isEmpty (Interval_intersection needleBits loc) then rest else p :: rest)
  end.
Definition overlappingRegisters (rs : RegisterState) (needle : RegisterDescriptor) : outcome (list RegPair) :=
  assert! negb (isEmpty needle) else AssertFail in
  let! needleBits := location needle in overlapping_loop needleBits (pairs rs needle).
End Registers.
