(* ===== verification/RiscRegFacts.v ===== *)
(** The parts of registers as sets of bits.

    A list of parts of a register, in the concrete domain, stands for the bits
    that are known of the register.  The lemmas say which bits the operations of
    [RiscRegisters] on such lists keep, find and make. *)
From S2P Require Import Prelude BitVector SawyerInterval SawyerIntervalMap SawyerMapFacts SawyerMapTheorems SawyerIntervalSet.
From S2P Require Import SymEval RegDescriptor RiscOps RiscConcrete RiscConcreteFacts RiscData RiscRegisters.
From stdpp Require Import gmap.
Open Scope Z_scope.

#[local] Notation Pair := (RegPair CValue).

(** * Parts and their bits *)

Definition within (p : Pair) (i : Z) : bool :=
  (offset (rp_desc p) <=? i) && (i <? offset (rp_desc p) + nBits (rp_desc p)).
Definition pvalue (p : Pair) : Z := match rp_value p with Some v => c_bits v | None => 0 end.
Definition pbit (p : Pair) (i : Z) : bool := Z.testbit (pvalue p) (i - offset (rp_desc p)).

(** The bit [i] of the register, if it is known. *)
Definition bit_at (l : list Pair) (i : Z) : option bool :=
  match List.find (fun p => within p i) l with Some p => Some (pbit p i) | None => None end.

(** A part of the register [k] with a value of its width. *)
Definition pair_ok (k : RegStore) (p : Pair) : Prop :=
  descriptor_ok (rp_desc p) /\ store_of (rp_desc p) = k /\ 0 < nBits (rp_desc p) /\
  rp_value p = Some (mkCV (nBits (rp_desc p)) (pvalue p)) /\ bv_ok (nBits (rp_desc p)) (pvalue p).

Definition apart (p q : Pair) : Prop := forall i, within p i = true -> within q i = true -> False.
Definition parts_ok (k : RegStore) (l : list Pair) : Prop := Forall (pair_ok k) l /\ ForallOrdPairs apart l.

Lemma within_spec p i : within p i = true <-> offset (rp_desc p) <= i < offset (rp_desc p) + nBits (rp_desc p).
Proof. unfold within. rewrite andb_true_iff. lia. Qed.

Lemma parts_nil k : parts_ok k [].
Proof. split; constructor. Qed.

Lemma parts_one k p : pair_ok k p -> parts_ok k [p].
Proof. intros Hp. split; [constructor; [assumption|constructor]|repeat constructor]. Qed.

Lemma bit_at_cons p l i : bit_at (p :: l) i = if within p i then Some (pbit p i) else bit_at l i.
Proof. unfold bit_at. cbn. now destruct (within p i). Qed.

Lemma bit_at_app l l' i : bit_at (l ++ l') i = match bit_at l i with Some b => Some b | None => bit_at l' i end.
Proof. induction l as [|p l IH]; [reflexivity|]. rewrite <- app_comm_cons, !bit_at_cons, IH. now destruct (within p i). Qed.

Lemma bit_at_None l i : bit_at l i = None <-> Forall (fun p => within p i = false) l.
Proof.
  induction l as [|p l IH]; [split; [constructor|reflexivity]|]. rewrite bit_at_cons, Forall_cons, <- IH.
  destruct (within p i); [split; [discriminate|now intros [? _]]|]. split; [now split|now intros [_ ?]].
Qed.

(** Lists of parts whose bits differ make one list. *)
Lemma parts_app k l l' :
  parts_ok k l -> parts_ok k l' -> (forall i, bit_at l i = None \/ bit_at l' i = None) -> parts_ok k (l ++ l').
Proof.
  intros [Hl Al] [Hl' Al'] H. split; [now apply Forall_app|]. induction Al as [|p l Hp Al IH]; [assumption|].
  apply Forall_cons in Hl as [Okp Hl]. rewrite <- app_comm_cons. constructor.
  - apply Forall_app. split; [assumption|]. apply List.Forall_forall. intros q Hq i Wp Wq. destruct (H i) as [Hi|Hi].
    + rewrite bit_at_cons, Wp in Hi. discriminate.
    + rewrite bit_at_None, List.Forall_forall in Hi. specialize (Hi q Hq). congruence.
  - apply IH; [assumption|]. intros i. destruct (H i) as [Hi|Hi]; [left|now right]. rewrite bit_at_cons in Hi. now destruct (within p i).
Qed.

Lemma parts_cons k p l : pair_ok k p -> parts_ok k l -> (forall i, within p i = true -> bit_at l i = None) -> parts_ok k (p :: l).
Proof.
  intros Hp Hl H. apply (parts_app k [p] l); [now apply parts_one|assumption|]. intros i. rewrite bit_at_cons.
  destruct (within p i) eqn:W; [right; auto|now left].
Qed.

Lemma parts_inv k p l : parts_ok k (p :: l) ->
  pair_ok k p /\ parts_ok k l /\ forall i, within p i = true -> bit_at l i = None.
Proof.
  intros [Hl Al]. apply Forall_cons in Hl as [Hp Hl]. inversion Al as [|? ? Ap Al']; subst. split; [assumption|]. split; [now split|].
  intros i W. apply bit_at_None. apply (Forall_impl _ _ _ Ap). intros q Hq. destruct (within q i) eqn:E; [|reflexivity].
  exfalso. now apply (Hq i).
Qed.

Lemma parts_app_inv k l l' : parts_ok k (l ++ l') -> parts_ok k l /\ parts_ok k l' /\ forall i, bit_at l i = None \/ bit_at l' i = None.
Proof.
  induction l as [|p l IH]; [intros H; split; [apply parts_nil|]; split; [assumption|]; now left|].
  rewrite <- app_comm_cons. intros H. apply parts_inv in H as (Hp & H & Hd). destruct (IH H) as (Hl & Hl' & Ha).
  split; [apply parts_cons; [assumption..|]; intros i W; specialize (Hd i W); rewrite bit_at_app in Hd; now destruct (bit_at l i)|].
  split; [assumption|]. intros i. rewrite bit_at_cons. destruct (within p i) eqn:W; [|apply Ha]. right.
  specialize (Hd i W). rewrite bit_at_app in Hd. now destruct (bit_at l i).
Qed.

(** The order of the parts does not matter. *)
Lemma parts_swap k l l' : Permutation l l' -> parts_ok k l -> parts_ok k l' /\ forall i, bit_at l' i = bit_at l i.
Proof.
  induction 1 as [|p l l' Hperm IH|p q l|l1 l2 l3 H1 IH1 H2 IH2]; intros Hl.
  - now split.
  - apply parts_inv in Hl as (Hp & Hl & Hd). destruct (IH Hl) as [Hl' E].
    split; [apply parts_cons; [assumption..|]; intros i W; rewrite E; now apply Hd|]. intros i. now rewrite !bit_at_cons, E.
  - apply parts_inv in Hl as (Hp & Hl & Hd). apply parts_inv in Hl as (Hq & Hl & Hd'). 
    assert (D : forall i, within q i = true -> within p i = true -> False).
    { intros i W W'. specialize (Hd i W). rewrite bit_at_cons, W' in Hd. discriminate. }
    split.
    + apply parts_cons; [assumption|apply parts_cons; [assumption..|]|].
      * intros i W. specialize (Hd i W). rewrite bit_at_cons in Hd. now destruct (within p i).
      * intros i W. rewrite bit_at_cons. destruct (within q i) eqn:W'; [now exfalso; apply (D i)|]. now apply Hd'.
    + intros i. rewrite !bit_at_cons. destruct (within p i) eqn:W, (within q i) eqn:W'; try reflexivity. now exfalso; apply (D i).
  - destruct (IH1 Hl) as [Hl2 E1]. destruct (IH2 Hl2) as [Hl3 E2]. split; [assumption|]. intros i. now rewrite E2, E1.
Qed.

(** Replacing each part by parts within it. *)
Lemma parts_flat_map k (g : Pair -> list Pair) (F : Pair -> Z -> option bool) l :
  (forall p, pair_ok k p -> parts_ok k (g p) /\ forall i, bit_at (g p) i = if within p i then F p i else None) ->
  parts_ok k l ->
  parts_ok k (flat_map g l) /\
  forall i, bit_at (flat_map g l) i = match List.find (fun p => within p i) l with Some p => F p i | None => None end.
Proof.
  intros Hg. induction l as [|p l IH]; [now split|]. intros H. apply parts_inv in H as (Hp & Hl & Hd).
  destruct (IH Hl) as [Hr Er]. destruct (Hg p Hp) as [Hq Eq]. cbn [flat_map List.find]. split.
  - apply parts_app; [assumption..|]. intros i. rewrite Eq, Er. destruct (within p i) eqn:W; [right|now left].
    specialize (Hd i W). unfold bit_at in Hd. now destruct (List.find _ l).
  - intros i. rewrite bit_at_app, Eq, Er. destruct (within p i) eqn:W; [|reflexivity].
    specialize (Hd i W). unfold bit_at in Hd. destruct (List.find _ l); [discriminate|]. now destruct (F p i).
Qed.

(** * Making parts *)

Definition the_part (k : RegStore) (lo n v : Z) : Pair :=
  mkRegPair {| data_ := word k.1 k.2 (fst (RegDescriptor.encode lo n)) (snd (RegDescriptor.encode lo n)) |} (Some (mkCV n v)).

Definition room (lo n : Z) : Prop := 0 <= lo < 512 /\ 0 < n /\ lo + n <= 512.

Lemma store_range d : descriptor_ok d -> 0 <= (store_of d).1 < 16 /\ 0 <= (store_of d).2 < 1024.
Proof. intros [Hd _]. exact (descriptor_ranges d Hd). Qed.

Lemma the_part_desc reg lo n v : descriptor_ok reg -> room lo n ->
  let d := rp_desc (the_part (store_of reg) lo n v) in
  subreg reg lo n = Ret d /\ descriptor_ok d /\ store_of d = store_of reg /\ offset d = lo /\ nBits d = n.
Proof.
  intros Hr (Hl & Hn & Hs). destruct (store_range reg Hr) as [H1 H2]. cbn [the_part rp_desc].
  destruct (word_encode_accessors (store_of reg).1 (store_of reg).2 lo n H1 H2 Hl ltac:(lia) Hs) as (R & E1 & E2 & E3 & E4).
  split; [|split; [split; [exact R|rewrite E3, E4; lia]|split; [|now split]]].
  - unfold subreg. cbn [store_of fst snd] in *. rewrite mkDescriptor_word by lia.
    rewrite (proj2 (Z.leb_le _ 16)), (proj2 (Z.leb_le _ 1023)), (proj2 (Z.ltb_lt lo 512)), (proj2 (Z.leb_le (lo + n) 512)) by lia.
    cbn [andb]. now rewrite Z.mod_small by lia.
  - unfold store_of at 1. rewrite E1, E2. reflexivity.
Qed.

Section Part.
Context (reg : RegisterDescriptor) (lo n v : Z).
Hypothesis reg_ok : descriptor_ok reg.
Hypothesis fits : room lo n.
#[local] Notation p := (the_part (store_of reg) lo n v).

Lemma the_part_ok : bv_ok n v -> pair_ok (store_of reg) p.
Proof.
  intros Hv. destruct (the_part_desc reg lo n v reg_ok fits) as (_ & Hd & Hk & Ho & Hn). split; [assumption|]. split; [assumption|].
  rewrite Hn. split; [apply fits|]. now split.
Qed.

Lemma the_part_within i : within p i = (lo <=? i) && (i <? lo + n).
Proof. unfold within. destruct (the_part_desc reg lo n v reg_ok fits) as (_ & _ & _ & -> & ->). reflexivity. Qed.

Lemma the_part_bit i : pbit p i = Z.testbit v (i - lo).
Proof. unfold pbit. now destruct (the_part_desc reg lo n v reg_ok fits) as (_ & _ & _ & -> & _). Qed.

Lemma bit_at_part i : bit_at [p] i = if (lo <=? i) && (i <? lo + n) then Some (Z.testbit v (i - lo)) else None.
Proof. rewrite bit_at_cons, the_part_within, the_part_bit. reflexivity. Qed.
End Part.

(** ** Slices of values *)

Definition slice (v a n : Z) : Z := v / 2 ^ a mod 2 ^ n.

Lemma slice_ok v a n : 0 <= n -> bv_ok n (slice v a n).
Proof. apply mod_ok. Qed.

Lemma slice_bit v a n j : 0 <= a -> 0 <= j < n -> Z.testbit (slice v a n) j = Z.testbit v (a + j).
Proof. intros Ha Hj. unfold slice. rewrite Z.mod_pow2_bits_low, Z.div_pow2_bits by lia. f_equal. lia. Qed.

(** * Locations *)

Definition bits_of (d : RegisterDescriptor) : Interval := mkInterval (offset d) (offset d + nBits d - 1).

Lemma descriptor_bounds d : descriptor_ok d -> 0 < nBits d -> room (offset d) (nBits d).
Proof. intros [Hr Hs] Hn. destruct (nBits_range d Hr). repeat split; lia. Qed.

Lemma location_ok d : descriptor_ok d -> 0 < nBits d -> location d = Ret (bits_of d).
Proof.
  intros Hd Hn. destruct (descriptor_bounds d Hd Hn) as (H1 & H2 & H3). unfold location, Interval_baseSize.
  unfold Interval_baseSizeOverflows. rewrite (Z.mod_small (offset d + nBits d)) by lia.
  rewrite (proj2 (Z.ltb_ge _ _)), (proj2 (Z.eqb_neq 0 (nBits d))), Z.mod_small by lia. cbn [andb negb require_ obind].
  now rewrite hull_le by lia.
Qed.

Lemma bits_proper d : descriptor_ok d -> 0 < nBits d -> proper 64 (bits_of d).
Proof. intros Hd Hn. destruct (descriptor_bounds d Hd Hn) as (H1 & H2 & H3). unfold proper, const_max, bits_of. cbn. lia. Qed.

(** The bits two descriptors share, and whether there are any. *)
Definition shared (a b : RegisterDescriptor) : Interval :=
  mkInterval (Z.max (offset a) (offset b)) (Z.min (offset a + nBits a - 1) (offset b + nBits b - 1)).
Definition meets (a b : RegisterDescriptor) : bool := lo_ (shared a b) <=? hi_ (shared a b).

Lemma intersection_shared a b : descriptor_ok a -> descriptor_ok b -> 0 < nBits a -> 0 < nBits b ->
  Interval_intersection (bits_of a) (bits_of b) = if meets a b then shared a b else Interval_empty.
Proof.
  intros Ha Hb Na Nb. destruct (descriptor_bounds a Ha Na) as (A1 & A2 & A3), (descriptor_bounds b Hb Nb) as (B1 & B2 & B3).
  unfold Interval_intersection, meets. rewrite !isEmpty_false by (cbn; lia). unfold shared, bits_of. cbn [lo_ hi_ orb].
  destruct (Z.ltb_spec (offset a + nBits a - 1) (offset b)), (Z.ltb_spec (offset b + nBits b - 1) (offset a)); cbn [orb].
  4: rewrite hull_le, (proj2 (Z.leb_le _ _)) by lia; reflexivity.
  all: now rewrite (proj2 (Z.leb_gt _ _)) by lia.
Qed.

Lemma overlap_comm a b : Interval_intersection a b = Interval_intersection b a.
Proof.
  unfold Interval_intersection. rewrite (Z.max_comm (lo_ b)), (Z.min_comm (hi_ b)).
  destruct (Interval_isEmpty a), (Interval_isEmpty b), (hi_ a <? lo_ b), (hi_ b <? lo_ a); reflexivity.
Qed.

Lemma intersection_empty a b : descriptor_ok a -> descriptor_ok b -> 0 < nBits a -> 0 < nBits b ->
  Interval_isEmpty (Interval_intersection (bits_of a) (bits_of b)) = negb (meets a b).
Proof.
  intros Ha Hb Na Nb. rewrite intersection_shared by assumption. destruct (meets a b) eqn:E; [|reflexivity].
  apply isEmpty_false. now apply Z.leb_le.
Qed.

(** Bits of a descriptor. *)
Definition inb (d : RegisterDescriptor) (i : Z) : bool := (offset d <=? i) && (i <? offset d + nBits d).

Lemma inb_spec d i : inb d i = true <-> offset d <= i < offset d + nBits d.
Proof. unfold inb. rewrite andb_true_iff. lia. Qed.

Lemma meet_spec a b : meets a b = true <-> exists i, inb a i = true /\ inb b i = true.
Proof.
  unfold meets, shared. cbn [lo_ hi_]. rewrite Z.leb_le. setoid_rewrite inb_spec. split.
  - intros H. exists (Z.max (offset a) (offset b)). lia.
  - intros (i & H1 & H2). lia.
Qed.

Lemma shared_spec a b i : lo_ (shared a b) <= i <= hi_ (shared a b) <-> inb a i = true /\ inb b i = true.
Proof. unfold shared. cbn [lo_ hi_]. rewrite !inb_spec. lia. Qed.

Lemma size_64 lo hi : 0 <= lo <= hi -> hi < 512 -> Interval_size 64 (mkInterval lo hi) = hi - lo + 1.
Proof. intros Hl Hh. unfold Interval_size. rewrite isEmpty_false by (cbn; lia). cbn [lo_ hi_]. apply Z.mod_small. lia. Qed.

(** * Splitting *)

(** The bits [lo .. lo + n - 1] of a part. *)
Definition sub (p : Pair) (lo n : Z) : Pair :=
  the_part (store_of (rp_desc p)) lo n (slice (pvalue p) (lo - offset (rp_desc p)) n).

Lemma sub_ok k p lo n : pair_ok k p -> 0 < n -> offset (rp_desc p) <= lo -> lo + n <= offset (rp_desc p) + nBits (rp_desc p) ->
  pair_ok k (sub p lo n) /\ forall i, bit_at [sub p lo n] i = if (lo <=? i) && (i <? lo + n) then Some (pbit p i) else None.
Proof.
  intros (Hd & <- & Hw & Hv & Hb) Hn Hl Hs. destruct (descriptor_bounds _ Hd Hw) as (B1 & B2 & B3).
  assert (R : room lo n) by (repeat split; lia). split.
  - apply the_part_ok; [assumption..|]. apply slice_ok. lia.
  - intros i. unfold sub. rewrite bit_at_part by assumption.
    destruct (Z.leb_spec lo i), (Z.ltb_spec i (lo + n)); cbn [andb]; try reflexivity.
    rewrite slice_bit by lia. unfold pbit. do 2 f_equal. lia.
Qed.

Section Split.
Context {St : Type} (reg : RegisterDescriptor).
Hypothesis reg_ok : descriptor_ok reg.
Hypothesis reg_bits : 0 < nBits reg.
Implicit Type s : St.
#[local] Notation ops := (ConcreteOps St).
#[local] Notation k := (store_of reg).

Definition first_of (p : Pair) : Z := lo_ (shared (rp_desc p) reg).
Definition last_of (p : Pair) : Z := hi_ (shared (rp_desc p) reg).

Definition below (p : Pair) : list Pair :=
  if offset (rp_desc p) <? first_of p then [sub p (offset (rp_desc p)) (first_of p - offset (rp_desc p))] else [].
Definition inside (p : Pair) : list Pair := [sub p (first_of p) (last_of p - first_of p + 1)].
Definition above (p : Pair) : list Pair :=
  if last_of p <? offset (rp_desc p) + nBits (rp_desc p) - 1
  then [sub p (last_of p + 1) (offset (rp_desc p) + nBits (rp_desc p) - 1 - last_of p)] else [].

Definition mids (p : Pair) : list Pair := if meets (rp_desc p) reg then inside p else [].
Definition outs (p : Pair) : list Pair := if meets (rp_desc p) reg then below p ++ above p else [].
Definition kept (p : Pair) : list Pair := if meets (rp_desc p) reg then [] else [p].

Lemma pair_value p s : pair_ok k p -> value_of (S := St) p s = Ret (mkCV (nBits (rp_desc p)) (pvalue p), s).
Proof. intros (_ & _ & _ & Hv & _). unfold value_of. now rewrite Hv. Qed.

Lemma meet_bounds p : pair_ok k p -> meets (rp_desc p) reg = true ->
  offset (rp_desc p) <= first_of p <= last_of p /\ last_of p < offset (rp_desc p) + nBits (rp_desc p) /\
  offset reg <= first_of p /\ last_of p < offset reg + nBits reg /\ 0 <= first_of p /\ last_of p < 512.
Proof.
  intros (Hd & _ & Hw & _) Hm. destruct (descriptor_bounds _ Hd Hw) as (B1 & B2 & B3). apply Z.leb_le in Hm.
  unfold first_of, last_of, shared in *. cbn [lo_ hi_] in *. lia.
Qed.

Lemma shared_size p : pair_ok k p -> meets (rp_desc p) reg = true -> Interval_size 64 (shared (rp_desc p) reg) = last_of p - first_of p + 1.
Proof.
  intros Hp Hm. pose proof (meet_bounds p Hp Hm) as H. unfold first_of, last_of, shared in *. cbn [lo_ hi_] in *. now rewrite size_64 by lia.
Qed.

Lemma sub_desc p lo n : pair_ok k p -> 0 < n -> offset (rp_desc p) <= lo -> lo + n <= offset (rp_desc p) + nBits (rp_desc p) ->
  subreg reg lo n = Ret (rp_desc (sub p lo n)).
Proof.
  intros (Hd & Hk & Hw & _) Hn Hl Hs. destruct (descriptor_bounds _ Hd Hw) as (B1 & B2 & B3).
  destruct (the_part_desc reg lo n (slice (pvalue p) (lo - offset (rp_desc p)) n) reg_ok ltac:(repeat split; lia)) as (E & _).
  unfold sub. now rewrite Hk.
Qed.

Lemma extract_sub p lo n s : pair_ok k p -> 0 < n -> offset (rp_desc p) <= lo -> lo + n <= offset (rp_desc p) + nBits (rp_desc p) ->
  extract (RiscOperators := ops) (mkCV (nBits (rp_desc p)) (pvalue p)) (lo - offset (rp_desc p)) (lo - offset (rp_desc p) + n) s =
  Ret (mkCV n (slice (pvalue p) (lo - offset (rp_desc p)) n), s).
Proof. intros (_ & _ & _ & _ & Hb) Hn Hl Hs. rewrite c_extract_ok by lia. unfold slice. now rewrite Z.add_simpl_l. Qed.

Lemma low_part_ok p s : pair_ok k p -> meets (rp_desc p) reg = true ->
  low_part (Ops := ops) reg p (bits_of (rp_desc p)) (shared (rp_desc p) reg) s = Ret (below p, s).
Proof.
  intros Hp Hm. destruct (meet_bounds p Hp Hm) as ((H1 & H2) & H3 & _). unfold low_part, below. fold (first_of p). cbn [lo_ bits_of].
  destruct (Z.ltb_spec (offset (rp_desc p)) (first_of p)); [|reflexivity].
  erewrite bind_Ret by (apply lift_Ret, (sub_desc p); assumption || lia). erewrite bind_Ret by now apply pair_value.
  erewrite bind_Ret by (apply c_uext_ok; [lia|lia|apply Hp]). unfold ret, sub. rewrite Z.sub_diag. unfold slice. now rewrite Z.div_1_r.
Qed.

Lemma middle_part_ok p s : pair_ok k p -> meets (rp_desc p) reg = true ->
  middle_part (Ops := ops) reg p (bits_of (rp_desc p)) (shared (rp_desc p) reg) s = Ret (inside p, s).
Proof.
  intros Hp Hm. destruct (meet_bounds p Hp Hm) as ((H1 & H2) & H3 & H4). unfold middle_part, inside. fold (first_of p). cbn [lo_ bits_of].
  rewrite shared_size by assumption.
  erewrite bind_Ret by (apply lift_Ret, (sub_desc p); assumption || lia). erewrite bind_Ret by now apply pair_value.
  erewrite bind_Ret by (apply extract_sub; assumption || lia). reflexivity.
Qed.

Lemma high_part_ok p s : pair_ok k p -> meets (rp_desc p) reg = true ->
  high_part (Ops := ops) reg p (bits_of (rp_desc p)) (shared (rp_desc p) reg) s = Ret (above p, s).
Proof.
  intros Hp Hm. destruct (meet_bounds p Hp Hm) as ((H1 & H2) & H3 & H4). unfold high_part, above. fold (last_of p). cbn [lo_ hi_ bits_of].
  destruct (Z.ltb_spec (last_of p) (offset (rp_desc p) + nBits (rp_desc p) - 1)); [|reflexivity].
  erewrite bind_Ret by (apply lift_Ret, (sub_desc p); assumption || lia). erewrite bind_Ret by now apply pair_value.
  erewrite bind_Ret by (apply extract_sub; assumption || lia). reflexivity.
Qed.

(** ** What splitting keeps *)

Ltac bits_cases := repeat match goal with
  | |- context [Z.leb ?a ?b] => destruct (Z.leb_spec a b) | |- context [Z.ltb ?a ?b] => destruct (Z.ltb_spec a b) end.

Lemma mids_ok p : pair_ok k p -> parts_ok k (mids p) /\
  forall i, bit_at (mids p) i = if within p i then (if inb reg i then Some (pbit p i) else None) else None.
Proof.
  intros Hp. unfold mids. destruct (meets (rp_desc p) reg) eqn:Hm.
  - destruct (meet_bounds p Hp Hm) as ((H1 & H2) & H3 & H4). destruct (sub_ok k p (first_of p) (last_of p - first_of p + 1) Hp) as [Hs Hb]; [lia..|].
    split; [now apply parts_one|]. intros i. unfold inside. rewrite Hb. unfold first_of, last_of, shared, within, inb in *. cbn [lo_ hi_] in *.
    bits_cases; cbn [andb]; reflexivity || lia.
  - split; [apply parts_nil|]. intros i. destruct (within p i) eqn:W; [|reflexivity]. destruct (inb reg i) eqn:I; [|reflexivity].
    rewrite (proj2 (meet_spec _ _)) in Hm by now exists i. discriminate.
Qed.

Lemma outs_ok p : pair_ok k p -> parts_ok k (outs p) /\
  forall i, bit_at (outs p) i =
    if within p i then (if meets (rp_desc p) reg && negb (inb reg i) then Some (pbit p i) else None) else None.
Proof.
  intros Hp. unfold outs. destruct (meets (rp_desc p) reg) eqn:Hm; cbn [andb].
  2:{ split; [apply parts_nil|]. intros i. now destruct (within p i). }
  destruct (meet_bounds p Hp Hm) as ((H1 & H2) & H3 & H4).
  assert (B : parts_ok k (below p) /\ forall i, bit_at (below p) i =
    if (offset (rp_desc p) <=? i) && (i <? first_of p) then Some (pbit p i) else None).
  { unfold below. destruct (Z.ltb_spec (offset (rp_desc p)) (first_of p)).
    - destruct (sub_ok k p (offset (rp_desc p)) (first_of p - offset (rp_desc p)) Hp) as [Hs Hb]; [lia..|].
      split; [now apply parts_one|]. intros i. rewrite Hb. bits_cases; reflexivity || lia.
    - split; [apply parts_nil|]. intros i. bits_cases; reflexivity || lia. }
  assert (A : parts_ok k (above p) /\ forall i, bit_at (above p) i =
    if (last_of p <? i) && (i <? offset (rp_desc p) + nBits (rp_desc p)) then Some (pbit p i) else None).
  { unfold above. destruct (Z.ltb_spec (last_of p) (offset (rp_desc p) + nBits (rp_desc p) - 1)).
    - destruct (sub_ok k p (last_of p + 1) (offset (rp_desc p) + nBits (rp_desc p) - 1 - last_of p) Hp) as [Hs Hb]; [lia..|].
      split; [now apply parts_one|]. intros i. rewrite Hb. bits_cases; reflexivity || lia.
    - split; [apply parts_nil|]. intros i. bits_cases; reflexivity || lia. }
  destruct B as [B1 B2], A as [A1 A2]. split.
  - apply parts_app; [assumption..|]. intros i. rewrite B2, A2. bits_cases; cbn [andb]; (now left) || (now right) || lia.
  - intros i. rewrite bit_at_app, B2, A2. unfold first_of, last_of, shared, within, inb in *. cbn [lo_ hi_] in *.
    bits_cases; cbn [andb negb]; reflexivity || lia.
Qed.

Lemma kept_ok p : pair_ok k p -> parts_ok k (kept p) /\
  forall i, bit_at (kept p) i = if within p i then (if negb (meets (rp_desc p) reg) then Some (pbit p i) else None) else None.
Proof.
  intros Hp. unfold kept. destruct (meets (rp_desc p) reg).
  - split; [apply parts_nil|]. intros i. now destruct (within p i).
  - split; [now apply parts_one|]. intros i. now rewrite bit_at_cons.
Qed.

(** ** The loops *)

Lemma scan_loop_ok l acc pres s : Forall (pair_ok k) l ->
  scan_loop (Ops := ops) reg (bits_of reg) l acc pres s = Ret (acc ++ flat_map mids l, pres ++ flat_map outs l, s).
Proof.
  intros Hl. revert acc pres. induction Hl as [|p l Hp Hl IH]; intros acc pres; [cbn; now rewrite !app_nil_r|].
  cbn [scan_loop flat_map]. destruct Hp as (Hd & Hp'). erewrite bind_Ret by (apply lift_Ret, location_ok; tauto).
  rewrite intersection_empty, intersection_shared by tauto. unfold mids at 1, outs at 1. destruct (meets (rp_desc p) reg) eqn:Hm; cbn [negb].
  - pose proof (conj Hd Hp' : pair_ok k p) as Hp. erewrite bind_Ret by now apply low_part_ok. erewrite bind_Ret by now apply middle_part_ok.
    erewrite bind_Ret by now apply high_part_ok. rewrite IH. now rewrite !app_assoc.
  - apply IH.
Qed.

Definition nulled (p : Pair) : Pair := if meets (rp_desc p) reg then mkRegPair (rp_desc p) None else p.

Lemma remove_nulled p l : pair_ok k p -> remove_null (nulled p :: l) = kept p ++ remove_null l.
Proof.
  intros (_ & _ & _ & Hv & _). unfold remove_null, nulled, kept. destruct (meets (rp_desc p) reg); [reflexivity|].
  cbn [List.filter]. unfold has_null_value at 1. now rewrite Hv.
Qed.

Lemma clear_loop_ok l : Forall (pair_ok k) l -> clear_loop (bits_of reg) l = Ret (map nulled l) /\ remove_null (map nulled l) = flat_map kept l.
Proof.
  intros Hl. induction Hl as [|p l Hp Hl [IH1 IH2]]; [now split|]. cbn [map flat_map]. rewrite remove_nulled, IH2 by assumption.
  split; [|reflexivity]. cbn [clear_loop]. destruct Hp as (Hd & _ & Hw & _).
  rewrite location_ok by assumption. cbn [obind]. rewrite intersection_empty, IH1 by assumption. unfold nulled at 2. now destruct (meets (rp_desc p) reg).
Qed.

(** ** What is accessed, and what is left *)

Lemma accessed_ok l : parts_ok k l ->
  parts_ok k (flat_map mids l) /\ forall i, bit_at (flat_map mids l) i = if inb reg i then bit_at l i else None.
Proof.
  intros Hl. destruct (parts_flat_map k mids _ l (fun p Hp => mids_ok p Hp) Hl) as [Ho Hb]. split; [assumption|].
  intros i. rewrite Hb. unfold bit_at. destruct (List.find _ l); destruct (inb reg i); reflexivity.
Qed.

Lemma rest_ok l : parts_ok k l ->
  parts_ok k (flat_map kept l ++ flat_map outs l) /\
  forall i, bit_at (flat_map kept l ++ flat_map outs l) i = if inb reg i then None else bit_at l i.
Proof.
  intros Hl. destruct (parts_flat_map k kept _ l (fun p Hp => kept_ok p Hp) Hl) as [Ko Kb].
  destruct (parts_flat_map k outs _ l (fun p Hp => outs_ok p Hp) Hl) as [Oo Ob]. split.
  - apply parts_app; [assumption..|]. intros i. rewrite Kb, Ob. destruct (List.find _ l) as [p|]; [|now left].
    destruct (meets (rp_desc p) reg); [now left|now right].
  - intros i. rewrite bit_at_app, Kb, Ob. unfold bit_at. destruct (List.find (fun p => within p i) l) as [p|] eqn:E; [|now destruct (inb reg i)].
    apply List.find_some in E as [_ W]. destruct (meets (rp_desc p) reg) eqn:Hm; cbn [negb andb]; destruct (inb reg i) eqn:I; try reflexivity.
    rewrite (proj2 (meet_spec _ _)) in Hm by now exists i. discriminate.
Qed.

(** ** The bits that are missing *)

#[local] Notation elem := (elem 64).
#[local] Notation makes := (makes 64).
#[local] Notation set_ok := (set_ok 64).

Lemma member_bits d x : member x (bits_of d) <-> inb d x = true.
Proof. unfold member, bits_of. cbn. rewrite inb_spec. lia. Qed.

Lemma minus_parts_makes l m : Forall (pair_ok k) l -> set_ok m ->
  makes (minus_parts l m) (fun x => elem m x /\ bit_at l x = None).
Proof.
  intros Hl. revert m. induction Hl as [|p l Hp Hl IH]; intros m Hs; cbn [minus_parts].
  - apply (makes_ext 64 _ (elem m)); [intros x; now split|now apply makes_ret].
  - destruct Hp as (Hd & _ & Hw & _). rewrite location_ok by assumption. cbn [obind].
    eapply (makes_bind 64); [apply erase_makes; [lia|right; now apply bits_proper|assumption]|]. intros m' Hs' He.
    eapply (makes_ext 64); [|apply IH; assumption]. intros x. cbv beta. rewrite He, member_bits, bit_at_cons. unfold within. fold (inb (rp_desc p) x).
    destruct (inb (rp_desc p) x); (split; [intros [[? H] ?]|intros [? H]]); [now elim H|discriminate|now split|].
    split; [split; [assumption|discriminate]|assumption].
Qed.

Lemma missing_makes l : Forall (pair_ok k) l -> makes (missing reg l) (fun x => inb reg x = true /\ bit_at l x = None).
Proof.
  intros Hl. unfold missing. rewrite location_ok by assumption. cbn [obind].
  eapply (makes_bind 64); [apply insert_makes; [lia|right; now apply bits_proper|now apply set_ok_empty]|]. intros m Hs He.
  eapply (makes_ext 64); [|now apply minus_parts_makes]. intros x. cbv beta. rewrite He, member_bits.
  split; [intros ([H|H] & H'); [now apply not_elem_empty in H|now split]|]. intros (H & H'). split; [now right|assumption].
Qed.

(** ** New parts *)

(** The part of a value of the register for an interval. *)
Definition new_part (d : Z) (i : Interval) : Pair :=
  the_part k (lo_ i) (hi_ i - lo_ i + 1) (slice d (lo_ i - offset reg) (hi_ i - lo_ i + 1)).

(** An interval of bits of the register. *)
Definition interval_in (i : Interval) : Prop := offset reg <= lo_ i <= hi_ i /\ hi_ i < offset reg + nBits reg.

Lemma interval_room i : interval_in i -> room (lo_ i) (hi_ i - lo_ i + 1) /\ Interval_size 64 i = hi_ i - lo_ i + 1.
Proof.
  intros H. unfold interval_in in H. destruct (descriptor_bounds reg reg_ok reg_bits) as (B1 & B2 & B3). destruct i as [lo hi]. cbn in *.
  split; [repeat split; lia|]. now rewrite size_64 by lia.
Qed.

Lemma new_part_ok d i : interval_in i ->
  pair_ok k (new_part d i) /\
  forall x, bit_at [new_part d i] x = if memberb x i then Some (Z.testbit d (x - offset reg)) else None.
Proof.
  intros Hi. destruct (interval_room i Hi) as [Hr _]. unfold interval_in in Hi. split.
  - apply the_part_ok; [assumption..|]. apply slice_ok. lia.
  - intros x. unfold new_part. rewrite bit_at_part by assumption. unfold memberb.
    bits_cases; cbn [andb]; try reflexivity || lia. rewrite slice_bit by lia. do 2 f_equal. lia.
Qed.

Lemma parts_for_ok w d l s : nBits reg <= w -> Forall interval_in l ->
  parts_for (Ops := ops) reg (mkCV w d) l s = Ret (map (new_part d) l, s).
Proof.
  intros Hw Hl. induction Hl as [|i l Hi Hl IH]; [reflexivity|]. cbn [parts_for map]. destruct (interval_room i Hi) as [Hr ->]. unfold interval_in in Hi.
  erewrite bind_Ret by (apply lift_Ret, (the_part_desc reg _ _ 0); assumption). rewrite (proj2 (Z.leb_le (offset reg) (lo_ i))) by lia. cbn [require_].
  erewrite bind_Ret by now apply lift_Ret. erewrite bind_Ret by (apply c_extract_ok; lia). erewrite bind_Ret by exact IH.
  unfold ret, new_part, slice. replace (hi_ i + 1 - offset reg - (lo_ i - offset reg)) with (hi_ i - lo_ i + 1) by lia. reflexivity.
Qed.

Lemma inserted_parts_ok w d l s : nBits reg <= w -> Forall interval_in l ->
  inserted_parts (Ops := ops) reg (bits_of reg) (mkCV w d) l s = Ret (map (new_part d) l, s).
Proof.
  intros Hw Hl. induction Hl as [|i l Hi Hl IH]; [reflexivity|]. cbn [inserted_parts map lo_ bits_of]. destruct (interval_room i Hi) as [Hr ->]. unfold interval_in in Hi.
  erewrite bind_Ret by (apply c_extract_ok; lia). cbn [nBits_ ConcreteOps c_nBits].
  replace (lo_ i - offset reg + (hi_ i - lo_ i + 1) - (lo_ i - offset reg)) with (hi_ i - lo_ i + 1) by lia.
  rewrite Z.eqb_refl. cbn [require_]. erewrite bind_Ret by now apply lift_Ret.
  erewrite bind_Ret by (apply lift_Ret, (the_part_desc reg _ _ 0); assumption). erewrite bind_Ret by exact IH. reflexivity.
Qed.

Lemma new_parts_chain d b nodes : chain 64 b (V := Z) nodes -> Forall interval_in (map fst nodes) ->
  parts_ok k (map (new_part d) (map fst nodes)) /\
  (forall x, bit_at (map (new_part d) (map fst nodes)) x =
     if existsb (memberb x) (map fst nodes) then Some (Z.testbit d (x - offset reg)) else None) /\
  (forall x, x < b -> bit_at (map (new_part d) (map fst nodes)) x = None).
Proof.
  revert b. induction nodes as [|[i v] nodes IH]; intros b Hc Hl; [split; [apply parts_nil|now split]|].
  cbn [map fst] in *. apply Forall_cons in Hl as [Hi Hl]. destruct Hc as (Hb & Hp & Hc). destruct (IH _ Hc Hl) as (Ho & Hx & Hn).
  destruct (new_part_ok d i Hi) as [Hpo Hpb].
  assert (E : forall x l, bit_at (new_part d i :: l) x = if memberb x i then Some (Z.testbit d (x - offset reg)) else bit_at l x).
  { intros x l'. change (new_part d i :: l') with ([new_part d i] ++ l'). rewrite bit_at_app, Hpb. now destruct (memberb x i). }
  split; [|split].
  - apply parts_cons; [assumption..|]. intros x W. apply Hn. pose proof (E x []) as Ex. rewrite bit_at_cons, W in Ex.
    destruct (memberb_spec x i) as [Hm|]; [|discriminate]. unfold member in Hm. lia.
  - intros x. rewrite E, Hx. cbn [existsb]. now destruct (memberb x i).
  - intros x Hlt. rewrite E. destruct (memberb_spec x i) as [Hm|]; [unfold member, interval_in in *; lia|]. apply Hn. unfold interval_in in Hi. lia.
Qed.

(** The parts of a value for a set of bits of the register. *)
Lemma new_parts_ok d m : set_ok m -> (forall x, elem m x -> inb reg x = true) ->
  Forall interval_in (intervals m) /\ parts_ok k (map (new_part d) (intervals m)) /\
  forall x, (elem m x -> bit_at (map (new_part d) (intervals m)) x = Some (Z.testbit d (x - offset reg))) /\
            (~ elem m x -> bit_at (map (new_part d) (intervals m)) x = None).
Proof.
  intros Hm Hin. assert (Hi : Forall interval_in (intervals m)).
  { apply List.Forall_forall. intros i Hi. pose proof (intervals_ok 64 m Hm) as Hok. rewrite List.Forall_forall in Hok.
    assert (He : forall x, member x i -> inb reg x = true).
    { intros x Hx. apply Hin, elem_intervals, List.Exists_exists. now exists i. }
    pose proof (proj1 (proj1 Hm)) as [Hc _]. apply (chain_Forall 64) in Hc. rewrite List.Forall_forall in Hc.
    apply List.in_map_iff in Hi as ([i' v] & <- & Hi). specialize (Hc _ Hi). cbn [fst] in *. destruct Hc as (_ & Hp & _). unfold proper in Hp.
    pose proof (He (lo_ i') ltac:(unfold member; lia)) as H1. pose proof (He (hi_ i') ltac:(unfold member; lia)) as H2.
    rewrite inb_spec in H1, H2. unfold interval_in. lia. }
  split; [assumption|]. destruct (new_parts_chain d 0 (map_ m) (proj1 (proj1 (proj1 Hm))) Hi) as (Ho & Hb & _). split; [assumption|].
  intros x. fold (intervals m) in Hb |- *. rewrite Hb, (elem_intervals 64), List.Exists_exists.
  destruct (existsb (memberb x) (intervals m)) eqn:E.
  - split; [reflexivity|]. intros H. exfalso. apply H. apply existsb_exists in E as (i & H1 & H2). exists i. split; [assumption|].
    now destruct (memberb_spec x i).
  - split; [|reflexivity]. intros (i & H1 & H2). apply not_true_iff_false in E. exfalso. apply E, existsb_exists. exists i.
    split; [assumption|]. now destruct (memberb_spec x i).
Qed.

(** ** Putting parts together *)

Definition ordered (l : list Pair) : Prop := ForallOrdPairs (fun p q => offset (rp_desc p) <= offset (rp_desc q)) l.

Lemma insert_perm (p : Pair) l : Permutation (insert_by_offset p l) (p :: l).
Proof.
  induction l as [|q l IH]; [reflexivity|]. cbn. destruct (_ <? _); [|reflexivity]. rewrite IH. apply perm_swap.
Qed.

Lemma sort_perm (l : list Pair) : Permutation (sort_by_offset l) l.
Proof. induction l as [|p l IH]; [reflexivity|]. cbn. rewrite insert_perm. now rewrite IH. Qed.

Lemma insert_by_offset_ordered p l : ordered l -> ordered (insert_by_offset p l).
Proof.
  unfold ordered. induction 1 as [|q l Hq Ho IH]; [repeat constructor|]. cbn. destruct (Z.ltb_spec (offset (rp_desc q)) (offset (rp_desc p))).
  - constructor; [|assumption]. rewrite insert_perm. constructor; [lia|assumption].
  - constructor; [constructor; [lia|]|now constructor]. apply (Forall_impl _ _ _ Hq). intros x Hx. cbv beta in *. lia.
Qed.

Lemma sort_ordered_offsets (l : list Pair) : ordered (sort_by_offset l).
Proof. induction l as [|p l IH]; [constructor|]. now apply insert_by_offset_ordered. Qed.

(** The known bits are those from [a] up to [e]. *)
Definition spans (l : list Pair) (a e : Z) : Prop := forall i, bit_at l i <> None <-> a <= i < e.

Lemma bit_at_within l i : bit_at l i <> None -> Exists (fun p => within p i = true) l.
Proof.
  induction l as [|p l IH]; [now intros H|]. rewrite bit_at_cons. destruct (within p i) eqn:W; [now left|right; auto].
Qed.

(** The first of ordered parts that span bits starts with the first of these. *)
Lemma spans_head p l a e : parts_ok k (p :: l) -> ordered (p :: l) -> spans (p :: l) a e ->
  offset (rp_desc p) = a /\ a + nBits (rp_desc p) <= e /\ spans l (a + nBits (rp_desc p)) e.
Proof.
  intros Hl Ho Hs. apply parts_inv in Hl as ((Hd & _ & Hw & _) & Hl & Hapart). inversion Ho as [|? ? Hle Ho']; subst.
  assert (Hin : forall i, offset (rp_desc p) <= i < offset (rp_desc p) + nBits (rp_desc p) -> a <= i < e).
  { intros i Hi. apply Hs. rewrite bit_at_cons. now rewrite (proj2 (within_spec p i)). }
  pose proof (Hin (offset (rp_desc p)) ltac:(lia)). pose proof (Hin (offset (rp_desc p) + nBits (rp_desc p) - 1) ltac:(lia)).
  assert (Ea : offset (rp_desc p) = a).
  { assert (Hk : bit_at (p :: l) a <> None) by (apply Hs; lia). apply bit_at_within, List.Exists_exists in Hk as (q & Hq & W).
    apply within_spec in W. destruct Hq as [->|Hq]; [lia|]. rewrite List.Forall_forall in Hle. specialize (Hle q Hq). lia. }
  split; [assumption|]. split; [lia|]. intros i. split.
  - intros H1. assert (Hi : a <= i < e) by (apply Hs; rewrite bit_at_cons; now destruct (within p i)).
    destruct (within p i) eqn:W; [now rewrite (Hapart i W) in H1|]. apply not_true_iff_false in W. rewrite within_spec in W. lia.
  - intros Hi. assert (Hk : bit_at (p :: l) i <> None) by (apply Hs; lia). rewrite bit_at_cons in Hk.
    destruct (within p i) eqn:W; [|assumption]. apply within_spec in W. lia.
Qed.

Lemma spans_nil a e : spans [] a e -> e <= a.
Proof. intros H. destruct (Z.lt_ge_cases a e) as [Hlt|]; [|assumption]. exfalso. now apply (proj2 (H a)); [lia|]. Qed.

Lemma join_bit a b w j : 0 <= w -> bv_ok w a -> 0 <= j -> Z.testbit (a + b * 2 ^ w) j = if j <? w then Z.testbit a j else Z.testbit b (j - w).
Proof.
  intros Hw Ha Hj. destruct (Z.ltb_spec j w).
  - now rewrite <- (Z.mod_pow2_bits_low _ w j), Z.mod_add, Z.mod_small by (assumption || lia).
  - replace j with ((j - w) + w) at 1 by lia. now rewrite <- Z.div_pow2_bits, Z.div_add, Z.div_small by (assumption || lia).
Qed.

(** A value that holds bits of the register from [off] up to [e]. *)
Definition has_bits (off e : Z) (f : Z -> option bool) (v : Z) : Prop :=
  bv_ok (e - off) v /\ forall i, off <= i < e -> f i = Some (Z.testbit v (i - off)).

Lemma concat_chunks off c e v x f s : off < c < e -> has_bits off c f v -> has_bits c e f x ->
  exists v', concat_ (RiscOperators := ops) (mkCV (c - off) v) (mkCV (e - c) x) s = Ret (mkCV (e - off) v', s) /\ has_bits off e f v'.
Proof.
  intros Ho [Hv Hf] [Hx Hg]. eexists. rewrite c_concat_ok by (assumption || lia).
  replace (c - off + (e - c)) with (e - off) by lia. split; [reflexivity|]. split.
  - apply join_ok; [lia|assumption|]. now replace (e - off - (c - off)) with (e - c) by lia.
  - intros i Hi. rewrite join_bit by (assumption || lia). destruct (Z.ltb_spec (i - off) (c - off)); [apply Hf; lia|].
    rewrite Hg by lia. do 2 f_equal. lia.
Qed.

Lemma concat_part_value p off v f s : pair_ok k p -> off < offset (rp_desc p) ->
  has_bits off (offset (rp_desc p)) f v -> (forall i, within p i = true -> f i = Some (pbit p i)) ->
  let e := offset (rp_desc p) + nBits (rp_desc p) in
  exists v', concat_ (RiscOperators := ops) (mkCV (offset (rp_desc p) - off) v) (mkCV (nBits (rp_desc p)) (pvalue p)) s = Ret (mkCV (e - off) v', s) /\
    has_bits off e f v'.
Proof.
  intros (Hd & _ & Hw & _ & Hb) Ho Hv Hp e. subst e.
  pose proof (concat_chunks off (offset (rp_desc p)) (offset (rp_desc p) + nBits (rp_desc p)) v (pvalue p) f s) as H.
  rewrite Z.add_simpl_l in H. apply H; [lia|assumption|]. split; [now rewrite Z.add_simpl_l|]. intros i Hi. apply Hp. now apply within_spec.
Qed.

Lemma concat_values_ok l off e cur v f s :
  parts_ok k l -> ordered l -> off < cur <= e -> spans l cur e -> has_bits off cur f v -> (forall i, bit_at l i <> None -> f i = bit_at l i) ->
  exists v', concat_values (Ops := ops) (Some (mkCV (cur - off) v)) l s = Ret (Some (mkCV (e - off) v'), s) /\ has_bits off e f v'.
Proof.
  revert cur v. induction l as [|p l IH]; intros cur v Hl Ho Hc Hs Hv Hf.
  - apply spans_nil in Hs. replace cur with e in * by lia. exists v. now split.
  - destruct (spans_head p l cur e Hl Ho Hs) as (<- & Hle & Hs'). apply parts_inv in Hl as (Hp & Hl & Hapart). inversion Ho as [|? ? _ Ho']; subst.
    assert (Hfp : forall i, within p i = true -> f i = Some (pbit p i)).
    { intros i W. specialize (Hf i). rewrite bit_at_cons, W in Hf. now apply Hf. }
    destruct (concat_part_value p off v f s Hp ltac:(lia) Hv Hfp) as (v1 & E & Hv1). cbn [concat_values].
    erewrite bind_Ret by now apply pair_value. erewrite bind_Ret by exact E. destruct Hp as (_ & _ & Hw & _).
    apply IH; try assumption; [lia|]. intros i Hi. specialize (Hf i). rewrite bit_at_cons in Hf.
    destruct (within p i) eqn:W; [now rewrite (Hapart i W) in Hi|]. now apply Hf.
Qed.

(** All parts, concatenated. *)
Lemma concat_all_ok l a e s : parts_ok k l -> ordered l -> a < e -> spans l a e ->
  exists v, concat_values (Ops := ops) None l s = Ret (Some (mkCV (e - a) v), s) /\ has_bits a e (bit_at l) v.
Proof.
  intros Hl Ho Hae Hs. destruct l as [|p l]; [apply spans_nil in Hs; lia|].
  destruct (spans_head p l a e Hl Ho Hs) as (<- & Hle & Hs'). pose proof Hl as Hl'. apply parts_inv in Hl' as (Hp & Hl' & Hapart).
  inversion Ho as [|? ? _ Ho']; subst. cbn [concat_values]. erewrite bind_Ret by now apply pair_value. erewrite bind_Ret by reflexivity.
  destruct Hp as (Hd & _ & Hw & _ & Hb).
  pose proof (concat_values_ok l (offset (rp_desc p)) e (offset (rp_desc p) + nBits (rp_desc p)) (pvalue p) (bit_at (p :: l)) s) as H.
  rewrite Z.add_simpl_l in H. apply H; try assumption; [lia| |].
  - split; [now rewrite Z.add_simpl_l|]. intros i Hi. rewrite bit_at_cons. now rewrite (proj2 (within_spec p i)).
  - intros i Hi. rewrite bit_at_cons. destruct (within p i) eqn:W; [|reflexivity]. now rewrite (Hapart i W) in Hi.
Qed.

(** The bits of the register: those known, and those of [d] for the rest. *)
Definition filled (d : Z) (l : list Pair) (i : Z) : bool :=
  match bit_at l i with Some b => b | None => Z.testbit d (i - offset reg) end.
(** The bits of [d] for those of the register that are not known. *)
Definition fresh_bits (d : Z) (l : list Pair) (i : Z) : option bool :=
  if inb reg i then match bit_at l i with Some _ => None | None => Some (Z.testbit d (i - offset reg)) end else None.

Lemma missing_parts_ok l d : parts_ok k l ->
  exists m, missing reg l = Ret m /\ Forall interval_in (intervals m) /\ parts_ok k (map (new_part d) (intervals m)) /\
    forall i, bit_at (map (new_part d) (intervals m)) i = fresh_bits d l i.
Proof.
  intros Hl. destruct (missing_makes l (proj1 Hl)) as (m & Em & Hm & He). exists m. split; [assumption|].
  destruct (new_parts_ok d m Hm) as (Hi & Hn & Hb); [intros x Hx; now apply He|]. split; [assumption|]. split; [assumption|].
  intros i. destruct (Hb i) as [H1 H2]. unfold fresh_bits. destruct (inb reg i) eqn:I; [destruct (bit_at l i) eqn:B|].
  - apply H2. rewrite He, B. now intros [_ ?].
  - apply H1. now rewrite He.
  - apply H2. rewrite He, I. now intros [? _].
Qed.

Lemma assemble_ok l d s : parts_ok k l -> (forall i, bit_at l i <> None -> inb reg i = true) ->
  exists new v, assemble (Ops := ops) reg (mkCV (nBits reg) d) l s = Ret (new, mkCV (nBits reg) v, s) /\
    bv_ok (nBits reg) v /\ (forall i, inb reg i = true -> Z.testbit v (i - offset reg) = filled d l i) /\
    parts_ok k new /\ forall i, bit_at new i = fresh_bits d l i.
Proof.
  intros Hl Hin. unfold assemble. destruct (missing_parts_ok l d Hl) as (m & Em & Hi & Hn & Hb).
  erewrite bind_Ret by (apply lift_Ret; exact Em). erewrite bind_Ret by (apply parts_for_ok; [lia|assumption]). set (new := map (new_part d) (intervals m)) in *.
  assert (Hall : parts_ok k (l ++ new)).
  { apply parts_app; [assumption..|]. intros i. rewrite Hb. unfold fresh_bits. destruct (bit_at l i) eqn:B; [right; now destruct (inb reg i)|now left]. }
  destruct (parts_swap k _ _ (Permutation_sym (sort_perm (l ++ new))) Hall) as [Hsort Bsort].
  assert (Bf : forall i, bit_at (sort_by_offset (l ++ new)) i = if inb reg i then Some (filled d l i) else None).
  { intros i. rewrite Bsort, bit_at_app, Hb. unfold filled, fresh_bits. specialize (Hin i).
    destruct (bit_at l i), (inb reg i); try reflexivity. now discriminate Hin. }
  destruct (concat_all_ok (sort_by_offset (l ++ new)) (offset reg) (offset reg + nBits reg) s Hsort (sort_ordered_offsets _) ltac:(lia)) as (v & Ev & Hv & Hf).
  { intros i. rewrite Bf, <- inb_spec. destruct (inb reg i); split; easy. }
  rewrite Z.add_simpl_l in Ev, Hv. exists new, v. erewrite bind_Ret by exact Ev. cbn [nBits_ ConcreteOps c_nBits]. rewrite Z.eqb_refl.
  split; [reflexivity|]. split; [assumption|]. split; [|now split]. intros i I. pose proof (proj1 (inb_spec reg i) I) as Hr. specialize (Hf i Hr).
  rewrite Bf, I in Hf. congruence.
Qed.

(** ** Joining contiguous parts *)

(** The parts that follow are beyond the end of the first. *)
Lemma ordered_next p l : parts_ok k (p :: l) -> ordered (p :: l) ->
  Forall (fun q => offset (rp_desc p) + nBits (rp_desc p) <= offset (rp_desc q)) l.
Proof.
  intros Hl Ho. destruct (parts_inv _ _ _ Hl) as (_ & [Hf _] & Hapart). inversion Ho as [|? ? Hle _]; subst.
  rewrite List.Forall_forall in *. intros q Hq. specialize (Hle q Hq). destruct (Hf q Hq) as (_ & _ & Hw & _).
  destruct (Z.lt_ge_cases (offset (rp_desc q)) (offset (rp_desc p) + nBits (rp_desc p))) as [Hlt|]; [|assumption]. exfalso.
  specialize (Hapart (offset (rp_desc q)) ltac:(apply within_spec; lia)). rewrite bit_at_None, List.Forall_forall in Hapart.
  specialize (Hapart q Hq). now rewrite (proj2 (within_spec q (offset (rp_desc q)))) in Hapart by lia.
Qed.

Lemma bits_beyond l b i : Forall (fun q : Pair => b <= offset (rp_desc q)) l -> i < b -> bit_at l i = None.
Proof.
  intros H Hi. apply bit_at_None. apply (Forall_impl _ _ _ H). intros q Hq. apply not_true_iff_false. rewrite within_spec. cbv beta in *. lia.
Qed.

Lemma join_loop_ok l first next v s : parts_ok k l -> ordered l -> 0 <= first < next -> next <= 512 -> bv_ok (next - first) v ->
  Forall (fun q => next <= offset (rp_desc q)) l ->
  exists j, join_loop (Ops := ops) reg first next (mkCV (next - first) v) l s = Ret (j, s) /\ parts_ok k j /\
    forall i, bit_at j i = if (first <=? i) && (i <? next) then Some (Z.testbit v (i - first)) else bit_at l i.
Proof.
  revert first next v. induction l as [|p l IH]; intros first next v Hl Ho Hf Hn Hv Hb; cbn [join_loop].
  - assert (R : room first (next - first)) by (repeat split; lia). destruct (the_part_desc reg first (next - first) v reg_ok R) as (E & _ & _ & _ & En).
    erewrite bind_Ret by (apply lift_Ret; exact E). cbn [nBits_ ConcreteOps c_nBits]. rewrite En, Z.eqb_refl. eexists. split; [reflexivity|].
    split; [apply parts_one; now apply the_part_ok|]. intros i. change (mkRegPair _ _) with (the_part k first (next - first) v).
    rewrite bit_at_part by assumption. now replace (first + (next - first)) with next by lia.
  - pose proof (ordered_next p l Hl Ho) as Hnext. apply parts_inv in Hl as (Hp & Hl & Hapart). inversion Ho as [|? ? _ Ho']; subst.
    apply Forall_cons in Hb as [Hbp _]. erewrite bind_Ret by now apply pair_value. pose proof Hp as (Hd & _ & Hw & _ & Hpv).
    destruct (descriptor_bounds _ Hd Hw) as (B1 & B2 & B3). destruct (Z.eqb_spec (offset (rp_desc p)) next) as [Ep|Ep].
    + destruct (concat_part_value p first v (fun i => if within p i then Some (pbit p i) else Some (Z.testbit v (i - first))) s Hp ltac:(lia)) as (v' & Ev & Hv' & Hf').
      { split; [now rewrite Ep|]. intros i Hi. destruct (within p i) eqn:W; [apply within_spec in W; lia|reflexivity]. }
      { intros i W. now rewrite W. }
      rewrite Ep in Ev, Hv', Hf', Hnext |- *. erewrite bind_Ret by exact Ev.
      destruct (IH first (next + nBits (rp_desc p)) v') as (j & Ej & Hj & Bj); try assumption; try lia. exists j. split; [exact Ej|]. split; [assumption|].
      intros i. rewrite Bj, bit_at_cons. specialize (Hf' i). unfold within in *. rewrite Ep in *. bits_cases; cbn [andb] in *; try lia; try reflexivity;
        (rewrite <- Hf' by lia; reflexivity) || (symmetry; apply Hf'; lia).
    + destruct (IH (offset (rp_desc p)) (offset (rp_desc p) + nBits (rp_desc p)) (pvalue p)) as (j & Ej & Hj & Bj); try assumption; try lia.
      { now rewrite Z.add_simpl_l. }
      rewrite Z.add_simpl_l in Ej. assert (R : room first (next - first)) by (repeat split; lia).
      destruct (the_part_desc reg first (next - first) v reg_ok R) as (E & _ & _ & _ & En).
      erewrite bind_Ret by (apply lift_Ret; exact E). cbn [nBits_ ConcreteOps c_nBits]. rewrite En, Z.eqb_refl. cbn [require_].
      erewrite bind_Ret by now apply lift_Ret. erewrite bind_Ret by exact Ej. eexists. split; [reflexivity|].
      change (mkRegPair _ _) with (the_part k first (next - first) v).
      assert (Bp : forall i, bit_at (the_part k first (next - first) v :: j) i =
        if (first <=? i) && (i <? next) then Some (Z.testbit v (i - first)) else bit_at j i).
      { intros i. rewrite bit_at_cons, the_part_within, the_part_bit by assumption. now replace (first + (next - first)) with next by lia. }
      split.
      * apply parts_cons; [now apply the_part_ok|assumption|]. intros i W. rewrite the_part_within in W by assumption.
        rewrite Bj. rewrite (bits_beyond l (offset (rp_desc p) + nBits (rp_desc p))) by (assumption || lia). bits_cases; cbn [andb] in *; easy || lia.
      * intros i. rewrite Bp, Bj, bit_at_cons. reflexivity.
Qed.

Lemma join_parts_ok l s : parts_ok k l -> ordered l ->
  exists j, join_parts (Ops := ops) reg l s = Ret (j, s) /\ parts_ok k j /\ forall i, bit_at j i = bit_at l i.
Proof.
  intros Hl Ho. destruct l as [|p l]; [exists []; split; [reflexivity|now split]|]. pose proof (ordered_next p l Hl Ho) as Hnext.
  apply parts_inv in Hl as (Hp & Hl & _). inversion Ho as [|? ? _ Ho']; subst. unfold join_parts. erewrite bind_Ret by now apply pair_value.
  destruct Hp as (Hd & _ & Hw & _ & Hpv). destruct (descriptor_bounds _ Hd Hw) as (B1 & B2 & B3).
  destruct (join_loop_ok l (offset (rp_desc p)) (offset (rp_desc p) + nBits (rp_desc p)) (pvalue p) s) as (j & Ej & Hj & Bj); try assumption; try lia.
  { now rewrite Z.add_simpl_l. }
  rewrite Z.add_simpl_l in Ej. exists j. split; [exact Ej|]. split; [assumption|]. intros i. rewrite Bj, bit_at_cons. reflexivity.
Qed.

(** ** Overwriting *)

(** The bits of a part once the register has been written. *)
Definition over_bit (d : Z) (p : Pair) (i : Z) : bool := if inb reg i then Z.testbit d (i - offset reg) else pbit p i.

Definition over_f (d : Z) (p : Pair) (i : Z) : option bool := Some (over_bit d p i).

(** Bits of the part outside the register. *)
Lemma slice_over d p c n : pair_ok k p -> offset (rp_desc p) <= c -> 0 < n -> c + n <= offset (rp_desc p) + nBits (rp_desc p) ->
  (forall i, c <= i < c + n -> inb reg i = false) -> has_bits c (c + n) (over_f d p) (slice (pvalue p) (c - offset (rp_desc p)) n).
Proof.
  intros Hp Hc Hn He Ho. split; [rewrite Z.add_simpl_l; apply slice_ok; lia|]. intros i Hi. unfold over_f, over_bit.
  rewrite Ho, slice_bit by lia. unfold pbit. do 2 f_equal. lia.
Qed.

Lemma not_in_register p i : pair_ok k p -> meets (rp_desc p) reg = true -> inb (rp_desc p) i = true ->
  i < first_of p \/ last_of p < i -> inb reg i = false.
Proof.
  intros Hp Hm Hi Ho. apply not_true_iff_false. intros I. pose proof (proj2 (shared_spec (rp_desc p) reg i) (conj Hi I)) as H.
  unfold first_of, last_of in Ho. lia.
Qed.

Lemma low_and_written_ok d p s : pair_ok k p -> meets (rp_desc p) reg = true ->
  exists r, low_and_written (Ops := ops) (bits_of reg) (bits_of (rp_desc p)) (shared (rp_desc p) reg)
      (mkCV (nBits (rp_desc p)) (pvalue p)) (mkCV (nBits reg) d) s = Ret (mkCV (last_of p + 1 - offset (rp_desc p)) r, s) /\
    has_bits (offset (rp_desc p)) (last_of p + 1) (over_f d p) r.
Proof.
  intros Hp Hm. destruct (meet_bounds p Hp Hm) as ((H1 & H2) & H3 & H4 & H5 & H6 & H7). pose proof Hp as (Hd & _ & Hw & _ & Hb).
  unfold low_and_written. fold (first_of p). cbn [lo_ bits_of].
  rewrite shared_size by assumption. replace (last_of p - first_of p + 1) with (last_of p + 1 - first_of p) by lia.
  assert (Fmid : has_bits (first_of p) (last_of p + 1) (over_f d p) (slice d (first_of p - offset reg) (last_of p + 1 - first_of p))).
  { split; [apply slice_ok; lia|]. intros i Hi. unfold over_f, over_bit.
    rewrite (proj2 (proj1 (shared_spec (rp_desc p) reg i) ltac:(unfold first_of, last_of in Hi; lia))), slice_bit by lia. do 2 f_equal. lia. }
  assert (Em : extract (RiscOperators := ops) (mkCV (nBits reg) d) (first_of p - offset reg) (first_of p - offset reg + (last_of p + 1 - first_of p)) s =
    Ret (mkCV (last_of p + 1 - first_of p) (slice d (first_of p - offset reg) (last_of p + 1 - first_of p)), s)).
  { rewrite c_extract_ok by lia. unfold slice. now rewrite Z.add_simpl_l. }
  destruct (Z.ltb_spec (offset (rp_desc p)) (first_of p)) as [Hlt|Hge].
  - pose proof (slice_over d p (offset (rp_desc p)) (first_of p - offset (rp_desc p)) Hp) as Flow. rewrite Z.sub_diag, Zplus_minus in Flow.
    assert (Hout : forall i, offset (rp_desc p) <= i < first_of p -> inb reg i = false).
    { intros i Hi. apply (not_in_register p); try assumption; [apply inb_spec|]; lia. }
    specialize (Flow ltac:(lia) ltac:(lia) ltac:(lia) Hout).
    destruct (concat_chunks (offset (rp_desc p)) (first_of p) (last_of p + 1) _ _ _ s ltac:(lia) Flow Fmid) as (r & Er & Hr).
    exists r. split; [|assumption]. erewrite bind_Ret by (erewrite bind_Ret by (apply c_uext_ok; [lia|lia|exact Hb]); reflexivity).
    erewrite bind_Ret by exact Em. unfold slice in Er at 1. now rewrite Z.pow_0_r, Z.div_1_r in Er.
  - erewrite bind_Ret by reflexivity. erewrite bind_Ret by exact Em. replace (offset (rp_desc p)) with (first_of p) by lia. eexists. split; [reflexivity|assumption].
Qed.

Lemma with_high_ok d p r s : pair_ok k p -> meets (rp_desc p) reg = true -> has_bits (offset (rp_desc p)) (last_of p + 1) (over_f d p) r ->
  exists v, with_high (Ops := ops) (bits_of (rp_desc p)) (shared (rp_desc p) reg) (mkCV (nBits (rp_desc p)) (pvalue p))
      (mkCV (last_of p + 1 - offset (rp_desc p)) r) s = Ret (mkCV (nBits (rp_desc p)) v, s) /\
    has_bits (offset (rp_desc p)) (offset (rp_desc p) + nBits (rp_desc p)) (over_f d p) v.
Proof.
  intros Hp Hm Hr. destruct (meet_bounds p Hp Hm) as ((H1 & H2) & H3 & _). unfold with_high. fold (last_of p). cbn [lo_ hi_ bits_of].
  set (e := offset (rp_desc p) + nBits (rp_desc p)) in *. destruct (Z.ltb_spec (last_of p) (e - 1)) as [Hlt|Hge].
  - pose proof (slice_over d p (last_of p + 1) (e - (last_of p + 1)) Hp) as Fhigh. rewrite Zplus_minus in Fhigh.
    assert (Hout : forall i, last_of p + 1 <= i < e -> inb reg i = false).
    { intros i Hi. apply (not_in_register p); try assumption; [apply inb_spec|]; lia. }
    specialize (Fhigh ltac:(lia) ltac:(lia) ltac:(lia) Hout).
    destruct (concat_chunks (offset (rp_desc p)) (last_of p + 1) e _ _ _ s ltac:(lia) Hr Fhigh) as (v & Ev & Hv).
    exists v. split; [|assumption]. replace (e - 1 - last_of p) with (e - (last_of p + 1)) by lia.
    erewrite bind_Ret by (apply extract_sub; [assumption|lia|lia|lia]). subst e. now rewrite Z.add_simpl_l in Ev.
  - exists r. replace (last_of p + 1) with e in * by lia. subst e. split; [|assumption]. unfold ret. now rewrite Z.add_simpl_l.
Qed.

Lemma overwrite_pair_ok p d s : pair_ok k p ->
  exists q, overwrite_pair (Ops := ops) (bits_of reg) (mkCV (nBits reg) d) p s = Ret (q, s) /\ pair_ok k q /\
    forall i, within q i = within p i /\ (within p i = true -> pbit q i = over_bit d p i).
Proof.
  intros Hp. unfold overwrite_pair. pose proof Hp as (Hd & Hk & Hw & _). erewrite bind_Ret by (apply lift_Ret, location_ok; assumption).
  rewrite intersection_empty, intersection_shared by assumption. destruct (meets (rp_desc p) reg) eqn:Hm; cbn [negb].
  - destruct (low_and_written_ok d p s Hp Hm) as (r & Er & Hr). destruct (with_high_ok d p r s Hp Hm Hr) as (v & Ev & Hv & Hf).
    erewrite bind_Ret by now apply pair_value. erewrite bind_Ret by exact Er. erewrite bind_Ret by exact Ev.
    cbn [nBits_ ConcreteOps c_nBits]. rewrite Z.eqb_refl. cbn [require_]. erewrite bind_Ret by now apply lift_Ret.
    rewrite Z.add_simpl_l in Hv. eexists. split; [reflexivity|]. split; [exact (conj Hd (conj Hk (conj Hw (conj eq_refl Hv))))|]. intros i. split; [reflexivity|].
    intros W. apply within_spec in W. specialize (Hf i W). unfold over_f in Hf. unfold pbit, pvalue. cbn [rp_desc rp_value c_bits]. congruence.
  - exists p. split; [reflexivity|]. split; [assumption|]. intros i. split; [reflexivity|]. intros W. unfold over_bit.
    destruct (inb reg i) eqn:I; [|reflexivity]. rewrite (proj2 (meet_spec _ _)) in Hm by now exists i. discriminate.
Qed.

Lemma overwrite_ok l d s : parts_ok k l ->
  exists l', overwrite (Ops := ops) (bits_of reg) (mkCV (nBits reg) d) l s = Ret (l', s) /\ parts_ok k l' /\
    forall i, bit_at l' i = match bit_at l i with Some b => Some (if inb reg i then Z.testbit d (i - offset reg) else b) | None => None end.
Proof.
  induction l as [|p l IH]; intros Hl; [exists []; split; [reflexivity|now split]|].
  apply parts_inv in Hl as (Hp & Hl & Hapart). destruct (IH Hl) as (l' & El & Hl' & Bl). cbn [overwrite].
  destruct (overwrite_pair_ok p d s Hp) as (q & Eq & Hq & Bq). erewrite bind_Ret by exact Eq. erewrite bind_Ret by exact El.
  eexists. split; [reflexivity|]. split.
  - apply parts_cons; [assumption..|]. intros i W. rewrite (proj1 (Bq i)) in W. now rewrite Bl, (Hapart i W).
  - intros i. rewrite !bit_at_cons, Bl. destruct (Bq i) as [-> Hb]. destruct (within p i); [|reflexivity]. rewrite Hb by reflexivity. unfold over_bit.
    now destruct (inb reg i).
Qed.

(** ** Counting the bits that are stored *)

Fixpoint count (P : Z -> bool) (lo : Z) (n : nat) : Z :=
  match n with O => 0 | S n => bool_Z (P lo) + count P (lo + 1) n end.

Lemma count_or P Q R lo n : (forall i, R i = P i || Q i) -> (forall i, P i = true -> Q i = false) -> count R lo n = count P lo n + count Q lo n.
Proof.
  intros HR HPQ. revert lo. induction n as [|n IH]; intros lo; [reflexivity|]. cbn [count]. rewrite IH, HR. specialize (HPQ lo).
  destruct (P lo); [rewrite HPQ by reflexivity|]; cbn [orb bool_Z]; lia.
Qed.

Lemma count_interval a b lo n : a <= b ->
  count (fun i => (a <=? i) && (i <? b)) lo n = Z.max 0 (Z.min b (lo + Z.of_nat n) - Z.max a lo).
Proof.
  intros Hab. revert lo. induction n as [|n IH]; intros lo; [cbn; lia|]. cbn [count]. rewrite IH.
  bits_cases; cbn [andb bool_Z]; lia.
Qed.

(** Whether a register has a bit that is not stored, as the code finds out. *)
Lemma count_all P lo n : count P lo n <= Z.of_nat n /\ (Z.of_nat n <= count P lo n <-> forall i, lo <= i < lo + Z.of_nat n -> P i = true).
Proof.
  revert lo. induction n as [|n IH]; intros lo; [cbn; split; [lia|]; split; lia|]. cbn [count]. destruct (IH (lo + 1)) as [H1 H2].
  split; [destruct (P lo); cbn; lia|]. split.
  - intros H i Hi. destruct (P lo) eqn:E; cbn [bool_Z] in H; [|lia]. destruct (Z.eq_dec i lo) as [->|]; [assumption|]. apply H2; lia.
  - intros H. rewrite (H lo) by lia. cbn [bool_Z]. assert (Z.of_nat n <= count P (lo + 1) n) by (apply H2; intros i Hi; apply H; lia). lia.
Qed.

Definition known (l : list Pair) (i : Z) : bool := match bit_at l i with Some _ => true | None => false end.

Lemma nBitsFound_ok l : parts_ok k l ->
  nBitsFound (bits_of reg) l = Ret (count (known l) (offset reg) (Z.to_nat (nBits reg))).
Proof.
  induction l as [|p l IH]; intros Hl.
  { cbn. f_equal. symmetry. pose proof (count_interval 1 1 (offset reg) (Z.to_nat (nBits reg)) ltac:(lia)) as H.
    rewrite Z.max_l in H by lia. rewrite <- H. clear. generalize (offset reg). induction (Z.to_nat (nBits reg)) as [|n IHn]; intros lo; [reflexivity|].
    cbn [count]. rewrite <- IHn. unfold known. cbn. bits_cases; reflexivity || lia. }
  apply parts_inv in Hl as (Hp & Hl & Hapart). cbn [nBitsFound]. pose proof Hp as (Hd & _ & Hw & _).
  rewrite location_ok by assumption. cbn [obind]. rewrite IH by assumption. cbn [obind]. f_equal.
  rewrite (count_or (within p) (known l) (known (p :: l))).
  2:{ intros i. unfold known. rewrite bit_at_cons. now destruct (within p i). }
  2:{ intros i W. unfold known. now rewrite (Hapart i W). }
  f_equal. unfold within. rewrite count_interval, Z2Nat.id by lia. rewrite intersection_shared by assumption.
  pose proof (meet_bounds p Hp) as Hm. destruct (meets (rp_desc p) reg) eqn:E.
  - rewrite shared_size by assumption. specialize (Hm eq_refl). unfold first_of, last_of, shared in *. cbn [lo_ hi_] in *. lia.
  - apply Z.leb_gt in E. unfold shared in E. cbn [lo_ hi_] in E. cbn. lia.
Qed.

Lemma bits_found_all l : parts_ok k l ->
  exists n, nBitsFound (bits_of reg) l = Ret n /\ n <= nBits reg /\ (nBits reg <= n <-> forall i, inb reg i = true -> known l i = true).
Proof.
  intros Hl. eexists. split; [now apply nBitsFound_ok|]. pose proof (count_all (known l) (offset reg) (Z.to_nat (nBits reg))) as H.
  rewrite Z2Nat.id in H by lia. setoid_rewrite inb_spec. exact H.
Qed.
End Split.
