(* ===== verification/RiscRegTheorems.v ===== *)
(** What the register state promises: a store of bits.

    A state of registers, in the concrete domain, represents which bits of which
    registers are known.  Reads, writes and erasures of registers do to the state
    what they do to the bits, whichever way the parts are split, joined and
    created on the way. *)
From S2P Require Import Prelude BitVector SawyerInterval SawyerIntervalMap SawyerMapFacts SawyerMapTheorems SawyerIntervalSet.
From S2P Require Import SymEval RegDescriptor RiscOps RiscConcrete RiscConcreteFacts RiscRegisters RiscRegFacts.
From stdpp Require Import gmap.
Open Scope Z_scope.

(** * The bits of a state *)

(** The bits that are known, of every register. *)
Definition Bits : Type := RegStore -> Z -> option bool.

Definition in_register (reg : RegisterDescriptor) (k : RegStore) (i : Z) : bool := bool_decide (k = store_of reg) && inb reg i.

Definition bits_write (reg : RegisterDescriptor) (v : Z) (f : Bits) : Bits :=
  fun k i => if in_register reg k i then Some (Z.testbit v (i - offset reg)) else f k i.
Definition bits_fill (reg : RegisterDescriptor) (d : Z) (f : Bits) : Bits :=
  fun k i => match f k i with Some b => Some b | None => if in_register reg k i then Some (Z.testbit d (i - offset reg)) else None end.
Definition bits_erase (reg : RegisterDescriptor) (f : Bits) : Bits :=
  fun k i => if in_register reg k i then None else f k i.
(** Whether [v] is what a read finds, with [d] for the bits that are not known. *)
Definition bits_read (reg : RegisterDescriptor) (d : Z) (f : Bits) (v : Z) : Prop :=
  bv_ok (nBits reg) v /\
  forall i, inb reg i = true -> Z.testbit v (i - offset reg) = match f (store_of reg) i with Some b => b | None => Z.testbit d (i - offset reg) end.
Definition bits_known (reg : RegisterDescriptor) (f : Bits) : Prop := forall i, inb reg i = true -> f (store_of reg) i <> None.

(** * Representation *)

Definition reg_bit (rs : RegisterState CValue) : Bits := fun k i => bit_at (default [] (registers rs !! k)) i.
Definition regs_ok (rs : RegisterState CValue) : Prop := forall k l, registers rs !! k = Some l -> parts_ok k l.
Definition represents (rs : RegisterState CValue) (f : Bits) : Prop := regs_ok rs /\ forall k i, reg_bit rs k i = f k i.

(** States with the same switches. *)
Definition same_switches (rs rs' : RegisterState CValue) : Prop :=
  accessModifiesExistingLocations rs' = accessModifiesExistingLocations rs /\ accessCreatesLocations rs' = accessCreatesLocations rs.

Lemma same_switches_refl rs : same_switches rs rs.
Proof. now split. Qed.
Lemma same_switches_set rs reg l : same_switches rs (set_pairs rs reg l).
Proof. now split. Qed.
#[local] Hint Resolve same_switches_refl same_switches_set : core.

Lemma represents_pairs rs f reg : represents rs f ->
  parts_ok (store_of reg) (pairs rs reg) /\ forall i, bit_at (pairs rs reg) i = f (store_of reg) i.
Proof.
  intros [Hok Hb]. split; [|intros i; apply Hb]. unfold pairs. destruct (registers rs !! store_of reg) as [l|] eqn:E; [now apply Hok|apply parts_nil].
Qed.

(** Replacing the parts of one register. *)
Lemma represents_set rs f reg l g : represents rs f -> parts_ok (store_of reg) l ->
  (forall i, bit_at l i = g (store_of reg) i) -> (forall k i, k <> store_of reg -> g k i = f k i) ->
  represents (set_pairs rs reg l) g.
Proof.
  intros [Hok Hb] Hl Hg Ho. split.
  - intros k l' Hk. unfold set_pairs in Hk. cbn [registers] in Hk. apply lookup_insert_Some in Hk as [[<- <-]|[_ Hk]]; [assumption|now apply Hok].
  - intros k i. unfold reg_bit, set_pairs. cbn [registers]. destruct (decide (k = store_of reg)) as [->|Hne].
    + rewrite lookup_insert_eq. apply Hg.
    + rewrite lookup_insert_ne by congruence. rewrite Ho by assumption. apply Hb.
Qed.

Lemma represents_ext rs f g : (forall k i, f k i = g k i) -> represents rs f -> represents rs g.
Proof. intros H [Hok Hb]. split; [assumption|]. intros k i. rewrite Hb. apply H. Qed.

Section Operations.
Context {St : Type} (reg : RegisterDescriptor).
Hypothesis reg_ok : descriptor_ok reg.
Hypothesis reg_bits : 0 < nBits reg.
Implicit Type s : St.
#[local] Notation ops := (ConcreteOps St).
#[local] Notation k := (store_of reg).

Lemma in_register_other k' i : k' <> k -> in_register reg k' i = false.
Proof. intros H. unfold in_register. now rewrite bool_decide_eq_false_2. Qed.
Lemma in_register_same i : in_register reg k i = inb reg i.
Proof. unfold in_register. now rewrite bool_decide_eq_true_2. Qed.

Lemma not_empty : isEmpty reg = false.
Proof. unfold isEmpty. apply Z.eqb_neq. lia. Qed.

Lemma scan_ok rs f s : represents rs f ->
  scanAccessedLocations (Ops := ops) rs reg s = Ret (flat_map (mids reg) (pairs rs reg), flat_map (outs reg) (pairs rs reg), s).
Proof.
  intros H. destruct (represents_pairs rs f reg H) as [[Hl _] _]. unfold scanAccessedLocations.
  erewrite bind_Ret by (apply lift_Ret, location_ok; assumption). now rewrite scan_loop_ok by assumption.
Qed.

Lemma cleared_ok rs f l s : represents rs f -> registers rs !! k = Some l ->
  cleared (S := St) rs reg l s = Ret (if accessModifiesExistingLocations rs then map (nulled reg) l else l, s).
Proof.
  intros [Hok _] Hk. unfold cleared, clearOverlappingLocations. destruct (accessModifiesExistingLocations rs); [|reflexivity].
  apply lift_Ret. rewrite location_ok by assumption. cbn [obind]. apply (clear_loop_ok reg reg_ok reg_bits). exact (proj1 (Hok _ _ Hk)).
Qed.

(** What is put together for a read. *)
Lemma assembled rs f d s : represents rs f -> bv_ok (nBits reg) d ->
  exists new v, assemble (Ops := ops) reg (mkCV (nBits reg) d) (flat_map (mids reg) (pairs rs reg)) s = Ret (new, mkCV (nBits reg) v, s) /\
    bits_read reg d f v /\ parts_ok k new /\
    forall i, bit_at new i = if inb reg i then match f k i with Some _ => None | None => Some (Z.testbit d (i - offset reg)) end else None.
Proof.
  intros Hf Hd. destruct (represents_pairs rs f reg Hf) as [Hl Hb]. destruct (accessed_ok reg reg_bits _ Hl) as [Ha Ba].
  destruct (assemble_ok reg reg_ok reg_bits _ d s Ha) as (new & v & E & Hv & Bv & Hn & Bn).
  { intros i. rewrite Ba. now destruct (inb reg i). }
  exists new, v. split; [exact E|]. split; [split; [assumption|]|split; [assumption|]].
  - intros i I. rewrite Bv by assumption. unfold filled. now rewrite Ba, I, Hb.
  - intros i. rewrite Bn. unfold fresh_bits. rewrite Ba, Hb. now destruct (inb reg i).
Qed.

Lemma readable_ok d s : readable (Ops := ops) reg (mkCV (nBits reg) d) s = Ret (tt, s).
Proof. unfold readable. rewrite not_empty. cbn [nBits_ ConcreteOps c_nBits]. now rewrite Z.eqb_refl. Qed.

Lemma peekRegister_ok rs f d s : represents rs f -> bv_ok (nBits reg) d ->
  exists v, peekRegister (Ops := ops) rs reg (mkCV (nBits reg) d) s = Ret (mkCV (nBits reg) v, s) /\ bits_read reg d f v.
Proof.
  intros Hf Hd. unfold peekRegister. erewrite bind_Ret by apply readable_ok. destruct (registers rs !! k) as [l|] eqn:E.
  - erewrite bind_Ret by (eapply scan_ok; exact Hf). cbv beta iota. destruct (assembled rs f d s Hf Hd) as (new & v & Ea & Hv & _).
    erewrite bind_Ret by exact Ea. cbv beta iota. exists v. now split.
  - exists d. split; [reflexivity|]. split; [assumption|]. intros i I. rewrite <- (proj2 Hf). unfold reg_bit. now rewrite E.
Qed.

(** Adding the bits that were missing. *)
Lemma fill_bits rs f d l new : represents rs f -> (forall i, bit_at l i = f k i) ->
  (forall i, bit_at new i = if inb reg i then match f k i with Some _ => None | None => Some (Z.testbit d (i - offset reg)) end else None) ->
  forall i, bit_at (l ++ new) i = bits_fill reg d f k i.
Proof.
  intros Hf Hl Hn i. rewrite bit_at_app, Hl, Hn. unfold bits_fill. rewrite in_register_same. destruct (f k i); [reflexivity|]. now destruct (inb reg i).
Qed.

Lemma readRegister_ok rs f d s : represents rs f -> bv_ok (nBits reg) d ->
  exists v rs', readRegister (Ops := ops) rs reg (mkCV (nBits reg) d) s = Ret (mkCV (nBits reg) v, rs', s) /\ bits_read reg d f v /\
    represents rs' (if accessCreatesLocations rs then bits_fill reg d f else f) /\ same_switches rs rs'.
Proof.
  intros Hf Hd. unfold readRegister. erewrite bind_Ret by apply readable_ok. destruct (represents_pairs rs f reg Hf) as [Hl Hb].
  assert (Fo : forall k' i, k' <> k -> bits_fill reg d f k' i = f k' i).
  { intros k' i Hk. unfold bits_fill. rewrite in_register_other by assumption. now destruct (f k' i). }
  destruct (registers rs !! k) as [l|] eqn:E.
  2:{ assert (Hread : bits_read reg d f d) by (split; [assumption|]; intros i I; rewrite <- (proj2 Hf); unfold reg_bit; now rewrite E).
      destruct (accessCreatesLocations rs); cbn [negb]; [|exists d, rs; split; [reflexivity|]; split; [exact Hread|]; split; [exact Hf|auto]].
      exists d. eexists. split; [reflexivity|]. split; [assumption|]. split; [|auto].
      assert (Hp : pair_ok k (mkRegPair reg (Some (mkCV (nBits reg) d)))) by exact (conj reg_ok (conj eq_refl (conj reg_bits (conj eq_refl Hd)))).
      apply (represents_set rs f); [assumption|now apply parts_one| |assumption]. intros i. rewrite bit_at_cons.
      unfold bits_fill. rewrite in_register_same, <- (proj2 Hf). unfold reg_bit. now rewrite E. }
  assert (El : pairs rs reg = l) by (unfold pairs; now rewrite E).
  erewrite bind_Ret by (eapply scan_ok; exact Hf). cbv beta iota. erewrite bind_Ret by (eapply cleared_ok; [exact Hf|exact E]).
  destruct (assembled rs f d s Hf Hd) as (new & v & Ea & Hv & Hn & Bn). erewrite bind_Ret by exact Ea. cbv beta iota.
  destruct (rest_ok reg reg_bits _ Hl) as [Hr Br]. exists v.
  destruct (accessModifiesExistingLocations rs); [|destruct (accessCreatesLocations rs)]; rewrite El in *.
  - rewrite (proj2 (clear_loop_ok reg reg_ok reg_bits l (proj1 Hl))). destruct (accessCreatesLocations rs).
    + eexists. split; [reflexivity|]. split; [assumption|]. split; [|auto].
      assert (Hp : pair_ok k (mkRegPair reg (Some (mkCV (nBits reg) v)))) by exact (conj reg_ok (conj eq_refl (conj reg_bits (conj eq_refl (proj1 Hv))))).
      apply (represents_set rs f); [assumption| | |assumption].
      * apply parts_app; [assumption|now apply parts_one|]. intros i. rewrite Br, bit_at_cons. unfold within. cbn [rp_desc].
        fold (inb reg i). destruct (inb reg i); [now left|now right].
      * intros i. rewrite bit_at_app, Br, bit_at_cons. unfold within, pbit, pvalue. cbn [rp_desc rp_value c_bits]. fold (inb reg i).
        unfold bits_fill. rewrite in_register_same, Hb. destruct (inb reg i) eqn:I; [|now destruct (f k i)].
        rewrite (proj2 Hv i I). now destruct (f k i).
    + destruct (accessed_ok reg reg_bits _ Hl) as [Ha Ba].
      destruct (parts_swap k _ _ (Permutation_sym (sort_perm (flat_map (mids reg) l))) Ha) as [Hs Bs].
      destruct (join_parts_ok reg reg_ok _ s Hs (sort_ordered_offsets _)) as (j & Ej & Hj & Bj). erewrite bind_Ret by exact Ej.
      eexists. split; [reflexivity|]. split; [assumption|]. split; [|auto].
      apply (represents_set rs f); [assumption| | |easy].
      * apply parts_app; [assumption..|]. intros i. rewrite Br, Bj, Bs, Ba. destruct (inb reg i); [now left|now right].
      * intros i. rewrite bit_at_app, Br, Bj, Bs, Ba, Hb. destruct (inb reg i); [reflexivity|]. now destruct (f k i).
  - eexists. split; [reflexivity|]. split; [assumption|]. split; [|auto].
    apply (represents_set rs f); [assumption| | |assumption].
    + apply parts_app; [assumption..|]. intros i. rewrite Bn, Hb. destruct (f k i); [right; now destruct (inb reg i)|now left].
    + now apply fill_bits with (rs := rs).
  - exists rs. split; [reflexivity|]. split; [assumption|]. split; [assumption|auto].
Qed.

(** ** Writing *)

Lemma written_pair v : bv_ok (nBits reg) v -> pair_ok k (mkRegPair reg (Some (mkCV (nBits reg) v))).
Proof. intros Hv. exact (conj reg_ok (conj eq_refl (conj reg_bits (conj eq_refl Hv)))). Qed.

Lemma bit_at_written v i : bit_at [mkRegPair reg (Some (mkCV (nBits reg) v))] i = if inb reg i then Some (Z.testbit v (i - offset reg)) else None.
Proof. now rewrite bit_at_cons. Qed.

Lemma bits_write_other v f k' i : k' <> k -> bits_write reg v f k' i = f k' i.
Proof. intros H. unfold bits_write. now rewrite in_register_other. Qed.
Lemma bits_write_same v f i : bits_write reg v f k i = if inb reg i then Some (Z.testbit v (i - offset reg)) else f k i.
Proof. unfold bits_write. now rewrite in_register_same. Qed.

(** What a write does that the switches allow. *)
Definition writes (rs : RegisterState CValue) (v : Z) (f : Bits) (m : M St (RegisterState CValue)) s : Prop :=
  exists rs', m s = Ret (rs', s) /\ represents rs' (bits_write reg v f) /\ same_switches rs rs'.

Lemma write_moves rs f v l s : represents rs f -> bv_ok (nBits reg) v -> registers rs !! k = Some l ->
  writes rs v f (ret (set_pairs rs reg (remove_null (map (nulled reg) l) ++ flat_map (outs reg) l ++ [mkRegPair reg (Some (mkCV (nBits reg) v))]))) s.
Proof.
  intros Hf Hv E. destruct (represents_pairs rs f reg Hf) as [Hl Hb]. assert (El : pairs rs reg = l) by (unfold pairs; now rewrite E). rewrite El in *.
  destruct (rest_ok reg reg_bits _ Hl) as [Hr Br]. rewrite (proj2 (clear_loop_ok reg reg_ok reg_bits l (proj1 Hl))).
  eexists. split; [reflexivity|]. split; [|auto]. rewrite app_assoc. apply (represents_set rs f); [assumption| | |apply bits_write_other].
  - apply parts_app; [assumption|apply parts_one, written_pair, Hv|]. intros i. rewrite Br, bit_at_written. destruct (inb reg i); [now left|now right].
  - intros i. rewrite bit_at_app, Br, bit_at_written, bits_write_same, Hb. destruct (inb reg i); [reflexivity|]. now destruct (f k i).
Qed.

Lemma write_in_place rs f v l s : represents rs f -> bv_ok (nBits reg) v -> registers rs !! k = Some l ->
  forall m, missing reg (flat_map (mids reg) l) = Ret m ->
  writes rs v f (let* pairList := overwrite (Ops := ops) (bits_of reg) (mkCV (nBits reg) v) l in
                 let* new := inserted_parts reg (bits_of reg) (mkCV (nBits reg) v) (intervals m) in ret (set_pairs rs reg (pairList ++ new))) s.
Proof.
  intros Hf Hv E m Hm. destruct (represents_pairs rs f reg Hf) as [Hl Hb]. assert (El : pairs rs reg = l) by (unfold pairs; now rewrite E). rewrite El in *.
  destruct (overwrite_ok reg reg_ok reg_bits l v s Hl) as (l' & Eo & Hl' & Bl'). destruct (accessed_ok reg reg_bits _ Hl) as [Ha Ba].
  destruct (missing_parts_ok reg reg_ok reg_bits _ v Ha) as (m' & Em & Hi & Hn & Bn). assert (m' = m) as -> by congruence.
  unfold writes. erewrite bind_Ret by exact Eo. erewrite bind_Ret by (apply (inserted_parts_ok reg reg_ok reg_bits); [lia|assumption]).
  eexists. split; [reflexivity|]. split; [|auto]. unfold fresh_bits in Bn. apply (represents_set rs f); [assumption| | |apply bits_write_other].
  - apply parts_app; [assumption..|]. intros i. rewrite Bl', Bn, Ba. destruct (bit_at l i); [right; now destruct (inb reg i)|now left].
  - intros i. rewrite bit_at_app, Bl', Bn, Ba, bits_write_same, Hb. destruct (f k i), (inb reg i); reflexivity.
Qed.

Lemma writeRegister_ok rs f v s : represents rs f -> bv_ok (nBits reg) v ->
  (accessCreatesLocations rs = true \/ bits_known reg f -> writes rs v f (writeRegister (Ops := ops) rs reg (mkCV (nBits reg) v)) s) /\
  (accessCreatesLocations rs = false -> ~ bits_known reg f -> writeRegister (Ops := ops) rs reg (mkCV (nBits reg) v) s = Fail Throw).
Proof.
  intros Hf Hv. unfold writes, writeRegister. cbn [nBits_ ConcreteOps c_nBits]. rewrite Z.eqb_refl. cbn [require_].
  erewrite bind_Ret by (apply lift_Ret; reflexivity). erewrite bind_Ret by (apply lift_Ret, location_ok; assumption).
  destruct (represents_pairs rs f reg Hf) as [Hl Hb]. destruct (registers rs !! k) as [l|] eqn:E.
  2:{ assert (Hn : forall i, f k i = None) by (intros i; rewrite <- Hb; unfold pairs; now rewrite E).
      destruct (accessCreatesLocations rs); cbn [negb]; (split; [|now intros]); [|intros [H|H]; [discriminate|]].
      - intros _. eexists. split; [reflexivity|]. split; [|auto]. apply (represents_set rs f); [assumption|apply parts_one, written_pair, Hv| |apply bits_write_other].
        intros i. now rewrite bit_at_written, bits_write_same, Hn.
      - exfalso. apply (H (offset reg)); [apply inb_spec; lia|apply Hn]. }
  assert (El : pairs rs reg = l) by (unfold pairs; now rewrite E). rewrite El in *.
  assert (Hgo : writes rs v f (let* ' (accessedParts, preservedParts) := scanAccessedLocations (Ops := ops) rs reg in
      let* pairList := cleared rs reg l in
      let* newLocations := lift (missing reg accessedParts) in
      if accessModifiesExistingLocations rs then ret (set_pairs rs reg (remove_null pairList ++ preservedParts ++ [mkRegPair reg (Some (mkCV (nBits reg) v))]))
      else let* pairList := overwrite (bits_of reg) (mkCV (nBits reg) v) pairList in
           let* new := inserted_parts reg (bits_of reg) (mkCV (nBits reg) v) (intervals newLocations) in ret (set_pairs rs reg (pairList ++ new))) s).
  { unfold writes. erewrite bind_Ret by (eapply scan_ok; exact Hf). cbv beta iota. erewrite bind_Ret by (eapply cleared_ok; [exact Hf|exact E]).
    rewrite El. destruct (accessed_ok reg reg_bits _ Hl) as [Ha _]. destruct (missing_parts_ok reg reg_ok reg_bits _ v Ha) as (m & Em & _).
    erewrite bind_Ret by (apply lift_Ret; exact Em). destruct (accessModifiesExistingLocations rs); [now apply write_moves|now apply write_in_place]. }
  destruct (bits_found_all reg reg_ok reg_bits l Hl) as (n & En & Hle & Hall).
  assert (Hk : nBits reg <= n <-> bits_known reg f).
  { rewrite Hall. unfold bits_known, known. split; intros H i I; specialize (H i I); rewrite Hb in *; now destruct (f k i). }
  unfold writes in *. destruct (accessCreatesLocations rs); (split; [intros Hc|intros Hc Hn]); try discriminate.
  - erewrite bind_Ret by reflexivity. exact Hgo.
  - erewrite bind_Ret; [exact Hgo|]. erewrite bind_Ret by (apply lift_Ret; exact En).
    destruct Hc as [Hc|Hc]; [discriminate|]. apply Hk in Hc. destruct (descriptor_bounds reg reg_ok reg_bits) as (B1 & B2 & B3).
    unfold bits_of. rewrite size_64 by lia. rewrite (proj2 (Z.leb_le n _)), (proj2 (Z.ltb_ge n _)) by lia. reflexivity.
  - apply bind_Fail. erewrite bind_Ret by (apply lift_Ret; exact En). destruct (descriptor_bounds reg reg_ok reg_bits) as (B1 & B2 & B3).
    unfold bits_of. rewrite size_64 by lia. rewrite <- Hk in Hn. rewrite (proj2 (Z.leb_le n _)), (proj2 (Z.ltb_lt n _)) by lia. reflexivity.
Qed.

(** ** Erasing *)

Lemma nonoverlaps_ok l s : parts_ok k l -> nonoverlaps (Ops := ops) reg (bits_of reg) l s = Ret (flat_map (outs reg) l, s).
Proof.
  induction l as [|p l IH]; intros Hl; [reflexivity|]. apply parts_inv in Hl as (Hp & Hl & _). cbn [nonoverlaps flat_map].
  pose proof Hp as (Hd & _ & Hw & _). erewrite bind_Ret by (apply lift_Ret, location_ok; assumption).
  rewrite overlap_comm, intersection_empty, intersection_shared by assumption. unfold outs at 1. destruct (meets (rp_desc p) reg) eqn:Hm; cbn [negb].
  - erewrite bind_Ret.
    2:{ erewrite bind_Ret by now apply low_part_ok. erewrite bind_Ret by now apply high_part_ok. reflexivity. }
    erewrite bind_Ret by now apply IH. reflexivity.
  - erewrite bind_Ret by reflexivity. erewrite bind_Ret by now apply IH. reflexivity.
Qed.

Lemma erase_register_ok rs f s : represents rs f ->
  exists rs', erase_register (Ops := ops) rs reg s = Ret (rs', s) /\ represents rs' (bits_erase reg f) /\ same_switches rs rs'.
Proof.
  intros Hf. unfold erase_register. rewrite not_empty. cbn [negb require_]. erewrite bind_Ret by (apply lift_Ret; reflexivity).
  erewrite bind_Ret by (apply lift_Ret, location_ok; assumption). destruct (represents_pairs rs f reg Hf) as [Hl Hb].
  assert (Fo : forall k' i, k' <> k -> bits_erase reg f k' i = f k' i) by (intros k' i Hk; unfold bits_erase; now rewrite in_register_other).
  destruct (registers rs !! k) as [l|] eqn:E.
  - assert (El : pairs rs reg = l) by (unfold pairs; now rewrite E). rewrite El in *.
    erewrite bind_Ret by now apply nonoverlaps_ok. destruct (clear_loop_ok reg reg_ok reg_bits l (proj1 Hl)) as [Ec En].
    erewrite bind_Ret by (apply lift_Ret; exact Ec). rewrite En. destruct (rest_ok reg reg_bits _ Hl) as [Hr Br].
    eexists. split; [reflexivity|]. split; [|auto]. apply (represents_set rs f); try assumption. intros i. rewrite Br, Hb. unfold bits_erase.
    now rewrite in_register_same.
  - exists rs. split; [reflexivity|]. split; [|auto]. apply (represents_ext rs f); [|assumption]. intros k' i. unfold bits_erase.
    destruct (in_register reg k' i) eqn:I; [|reflexivity]. unfold in_register in I. apply andb_true_iff in I as [->%bool_decide_eq_true _].
    rewrite <- Hb. unfold pairs. now rewrite E.
Qed.
End Operations.

(** ** Queries *)

Section Queries.
Context (reg : RegisterDescriptor).
Hypothesis reg_ok : descriptor_ok reg.
Hypothesis reg_bits : 0 < nBits reg.
#[local] Notation k := (store_of reg).

Lemma is_partly_ok l : parts_ok k l -> exists b, is_partly_loop (bits_of reg) l = Ret b /\
  (b = true <-> exists i, inb reg i = true /\ bit_at l i <> None).
Proof.
  induction l as [|p l IH]; intros Hl.
  { exists false. split; [reflexivity|]. split; [discriminate|]. intros (i & _ & H). now elim H. }
  apply parts_inv in Hl as (Hp & Hl & _). destruct (IH Hl) as (b & Eb & Hb). cbn [is_partly_loop]. pose proof Hp as (Hd & _ & Hw & _).
  rewrite location_ok by assumption. cbn [obind]. rewrite overlap_comm, intersection_empty by assumption.
  destruct (meets (rp_desc p) reg) eqn:Hm; cbn [negb].
  - exists true. split; [reflexivity|]. split; [intros _|easy]. apply meet_spec in Hm as (i & H1 & H2). exists i. split; [assumption|].
    rewrite bit_at_cons. unfold within. fold (inb (rp_desc p) i). now rewrite H1.
  - exists b. split; [assumption|]. rewrite Hb. split; intros (i & H1 & H2); exists i; (split; [assumption|]); rewrite bit_at_cons in *;
      destruct (within p i) eqn:W; try easy. exfalso. apply not_true_iff_false in Hm. apply Hm, meet_spec. now exists i.
Qed.

Lemma stored_ok rs f : represents rs f ->
  (exists b, is_partly_stored rs reg = Ret b /\ (b = true <-> exists i, inb reg i = true /\ f k i <> None)) /\
  (exists b, is_wholly_stored rs reg = Ret b /\ (b = true <-> bits_known reg f)).
Proof.
  intros Hf. destruct (represents_pairs rs f reg Hf) as [Hl Hb]. split.
  - unfold is_partly_stored. rewrite location_ok by assumption. cbn [obind]. destruct (is_partly_ok _ Hl) as (b & Eb & H).
    exists b. split; [assumption|]. rewrite H. now setoid_rewrite Hb.
  - unfold is_wholly_stored. destruct (missing_makes reg reg_ok reg_bits _ (proj1 Hl)) as (m & Em & Hm & He). rewrite Em. cbn [obind].
    eexists. split; [reflexivity|]. unfold IntervalSet_isEmpty, IntervalMap_isEmpty. unfold bits_known. split.
    + intros Hn i I Hi. assert (H : elem 64 m i) by (apply He; split; [assumption|now rewrite Hb]).
      apply elem_intervals, List.Exists_exists in H as (x & Hx & _). unfold intervals in Hx. now destruct (map_ m).
    + intros H. destruct (map_ m) as [|[i v] nodes] eqn:E; [reflexivity|]. exfalso.
      pose proof (proj1 (proj1 (proj1 Hm))) as Hc. rewrite E in Hc. destruct Hc as (_ & Hp & _). unfold proper in Hp.
      assert (Hi : elem 64 m (lo_ i)).
      { apply elem_intervals, List.Exists_exists. exists i. unfold intervals. rewrite E. split; [now left|unfold member; lia]. }
      apply He in Hi as [I Hn]. rewrite Hb in Hn. exact (H _ I Hn).
Qed.
End Queries.

(** ** Initial states *)

Lemma represents_empty m c : represents (mkRegisters ∅ m c) (fun _ _ => None).
Proof. split; [intros k l H; cbn in H; now rewrite lookup_empty in H|]. intros k i. unfold reg_bit. cbn. now rewrite lookup_empty. Qed.

(** Registers with no bits in common. *)
Definition no_overlap (a b : RegisterDescriptor) : Prop := forall k i, in_register a k i = true -> in_register b k i = false.

(** Zero for all the bits of some registers. *)
Definition zeros (regs : list RegisterDescriptor) : Bits := fun k i => if existsb (fun d => in_register d k i) regs then Some false else None.

Lemma initialize_ok {St} (value : Z -> M St CValue) (s : St) regs rs f :
  (forall n, 0 < n -> value n s = Ret (mkCV n 0, s)) -> Forall (fun d => descriptor_ok d /\ 0 < nBits d) regs -> ForallOrdPairs no_overlap regs ->
  represents rs f -> (forall d k i, In d regs -> in_register d k i = true -> f k i = None) ->
  exists rs', initialize_loop value regs rs s = Ret (rs', s) /\
    represents rs' (fun k i => match f k i with Some b => Some b | None => zeros regs k i end) /\ same_switches rs rs'.
Proof.
  intros Hz. revert rs f. induction regs as [|d regs IH]; intros rs f Hok Hno Hf Hfree.
  { exists rs. split; [reflexivity|]. split; [|auto]. apply (represents_ext rs f); [|assumption]. intros k i. unfold zeros. cbn. now destruct (f k i). }
  apply Forall_cons in Hok as [[Hd Hw] Hok]. inversion Hno as [|? ? Hnod Hno']; subst. cbn [initialize_loop]. erewrite bind_Ret by now apply Hz.
  destruct (represents_pairs rs f d Hf) as [Hl Hb].
  assert (Hp : pair_ok (store_of d) (mkRegPair d (Some (mkCV (nBits d) 0)))) by (apply written_pair; try assumption; apply (mod_ok _ 0); lia).
  assert (H1 : represents (set_pairs rs d (pairs rs d ++ [mkRegPair d (Some (mkCV (nBits d) 0))])) (bits_write d 0 f)).
  { apply (represents_set rs f); [assumption| | |intros k i; apply bits_write_other].
    - apply parts_app; [assumption|now apply parts_one|]. intros i. rewrite Hb, bit_at_written. destruct (inb d i) eqn:I; [left|now right].
      apply (Hfree d); [now left|]. now rewrite in_register_same.
    - intros i. rewrite bit_at_app, Hb, bit_at_written, bits_write_same. destruct (inb d i) eqn:I; [|now destruct (f (store_of d) i)].
      now rewrite (Hfree d (store_of d) i (or_introl eq_refl)) by now rewrite in_register_same. }
  destruct (IH _ _ Hok Hno' H1) as (rs' & E & Hr & Hs).
  { intros d' k i Hin I. unfold bits_write. rewrite List.Forall_forall in Hnod. destruct (in_register d k i) eqn:J.
    - rewrite (Hnod d' Hin k i J) in I. discriminate.
    - apply (Hfree d'); [now right|assumption]. }
  exists rs'. split; [exact E|]. split; [|assumption]. apply (represents_ext _ _ _ (fun k i => eq_refl)) in Hr. apply (represents_ext _ _ _) with (2 := Hr).
  intros k i. unfold bits_write, zeros. cbn [existsb]. destruct (in_register d k i) eqn:I; cbn [orb]; [|reflexivity].
  rewrite Z.bits_0. now rewrite (Hfree d k i (or_introl eq_refl) I).
Qed.

(** * The theorems *)

Lemma same_bits w a b : 0 <= w -> bv_ok w a -> bv_ok w b -> (forall j, 0 <= j < w -> Z.testbit a j = Z.testbit b j) -> a = b.
Proof.
  intros Hw Ha Hb H. rewrite <- (Z.mod_small a (2 ^ w) Ha), <- (Z.mod_small b (2 ^ w) Hb). apply Z.bits_inj'. intros j Hj.
  destruct (Z.ltb_spec j w); [|now rewrite !Z.mod_pow2_bits_high by lia]. rewrite !Z.mod_pow2_bits_low by lia. apply H. lia.
Qed.

(** What a read finds is determined. *)
Lemma bits_read_unique reg d f v v' : 0 < nBits reg -> bits_read reg d f v -> bits_read reg d f v' -> v = v'.
Proof.
  intros Hn [Hv Hb] [Hv' Hb']. apply (same_bits (nBits reg)); [lia|assumption..|]. intros j Hj.
  specialize (Hb (offset reg + j) (proj2 (inb_spec reg (offset reg + j)) ltac:(lia))). specialize (Hb' (offset reg + j) (proj2 (inb_spec reg (offset reg + j)) ltac:(lia))).
  rewrite Z.add_simpl_l in Hb, Hb'. now rewrite Hb', Hb.
Qed.

Section Theorems.
Context {St : Type}.
Implicit Type s : St.
#[local] Notation ops := (ConcreteOps St).

(** C16. Reading a register of a state that represents bits returns a value of
    the register's width with the bits that are known, and the bits of the default
    for the rest; peeking returns the same.  A read that may create locations
    makes the new bits known, and one that may not changes no bit; the parts stay
    apart and of the right widths however they are rearranged. *)
Theorem readRegister_reads rs f reg d s :
  represents rs f -> descriptor_ok reg -> 0 < nBits reg -> bv_ok (nBits reg) d ->
  exists v rs', bits_read reg d f v /\
    readRegister (Ops := ops) rs reg (mkCV (nBits reg) d) s = Ret (mkCV (nBits reg) v, rs', s) /\
    peekRegister (Ops := ops) rs reg (mkCV (nBits reg) d) s = Ret (mkCV (nBits reg) v, s) /\
    represents rs' (if accessCreatesLocations rs then bits_fill reg d f else f) /\ same_switches rs rs'.
Proof.
  intros Hf Hr Hn Hd. destruct (readRegister_ok reg Hr Hn rs f d s Hf Hd) as (v & rs' & E & Hv & H).
  destruct (peekRegister_ok reg Hr Hn rs f d s Hf Hd) as (v' & E' & Hv'). exists v, rs'. split; [assumption|]. split; [assumption|].
  split; [|assumption]. rewrite E'. do 3 f_equal. now apply (bits_read_unique reg d f).
Qed.

(** C8. Writing a register sets its bits and keeps all others, if locations may
    be created or all bits of the register are known; otherwise it throws
    [RegisterNotPresent]. *)
Theorem writeRegister_writes rs f reg v s :
  represents rs f -> descriptor_ok reg -> 0 < nBits reg -> bv_ok (nBits reg) v ->
  let run := writeRegister (Ops := ops) rs reg (mkCV (nBits reg) v) s in
  (accessCreatesLocations rs = true \/ bits_known reg f ->
     exists rs', run = Ret (rs', s) /\ represents rs' (bits_write reg v f) /\ same_switches rs rs') /\
  (accessCreatesLocations rs = false -> ~ bits_known reg f -> run = Fail Throw).
Proof. intros Hf Hr Hn Hv. exact (writeRegister_ok reg Hr Hn rs f v s Hf Hv). Qed.

(** C17. Round trips.  What is written to a register is what is read from it; a
    register that shares no bits with it reads as before; and one that contains
    it reads with the written bits in their place. *)
Theorem write_then_read rs rs' f reg v other d s s' s'' :
  represents rs f -> descriptor_ok reg -> 0 < nBits reg -> bv_ok (nBits reg) v ->
  writeRegister (Ops := ops) rs reg (mkCV (nBits reg) v) s = Ret (rs', s') ->
  descriptor_ok other -> 0 < nBits other -> bv_ok (nBits other) d ->
  exists x x', peekRegister (Ops := ops) rs other (mkCV (nBits other) d) s'' = Ret (mkCV (nBits other) x, s'') /\
    peekRegister (Ops := ops) rs' other (mkCV (nBits other) d) s'' = Ret (mkCV (nBits other) x', s'') /\
    (other = reg -> x' = v) /\ (no_overlap reg other -> x' = x) /\
    (forall i, inb other i = true -> Z.testbit x' (i - offset other) =
       if in_register reg (store_of other) i then Z.testbit v (i - offset reg) else Z.testbit x (i - offset other)).
Proof.
  intros Hf Hr Hn Hv Hw Ho Hno Hd. destruct (writeRegister_ok reg Hr Hn rs f v s Hf Hv) as [H1 H2].
  assert (Hw' : represents rs' (bits_write reg v f)).
  { destruct (accessCreatesLocations rs) eqn:Ec.
    - destruct (H1 (or_introl eq_refl)) as (rs1 & E & Hrep & _). congruence.
    - destruct (is_wholly_stored rs reg) as [b|] eqn:Eb; destruct (stored_ok reg Hr Hn rs f Hf) as [_ (b' & Eb' & Hb')]; [|congruence].
      assert (b' = b) as -> by congruence. destruct b.
      + destruct (H1 (or_intror (proj1 Hb' eq_refl))) as (rs1 & E & Hrep & _). congruence.
      + assert (Hx : ~ bits_known reg f) by (intros Hk; apply Hb' in Hk; discriminate). rewrite (H2 eq_refl Hx) in Hw. discriminate. }
  destruct (peekRegister_ok other Ho Hno rs f d s'' Hf Hd) as (x & Ex & Hx).
  destruct (peekRegister_ok other Ho Hno rs' _ d s'' Hw' Hd) as (x' & Ex' & Hx'). exists x, x'. split; [assumption|]. split; [assumption|].
  assert (Hbits : forall i, inb other i = true -> Z.testbit x' (i - offset other) =
    if in_register reg (store_of other) i then Z.testbit v (i - offset reg) else Z.testbit x (i - offset other)).
  { intros i I. rewrite (proj2 Hx' i I), (proj2 Hx i I). unfold bits_write. now destruct (in_register reg (store_of other) i). }
  split; [|split; [|assumption]].
  - intros ->. apply (same_bits (nBits reg)); [lia|apply Hx'|assumption|]. intros j Hj. specialize (Hbits (offset reg + j)).
    rewrite in_register_same, (proj2 (inb_spec reg _)), Z.add_simpl_l in Hbits by lia. now apply Hbits.
  - intros Hapart. apply (same_bits (nBits other)); [lia|apply Hx'|apply Hx|]. intros j Hj. specialize (Hbits (offset other + j)).
    rewrite Z.add_simpl_l in Hbits. rewrite Hbits by (apply inb_spec; lia). destruct (in_register reg _ _) eqn:I; [|reflexivity].
    pose proof (Hapart _ _ I) as Hc. rewrite in_register_same, (proj2 (inb_spec other _)) in Hc by lia. discriminate.
Qed.

(** C26. The invariant and the rest of the interface.  Registers without common
    bits, set to zero, represent zeros, and nothing else is stored.  Erasing a
    register makes its bits unknown and no others, and the queries say whether
    some and whether all bits of a register are known. *)
Theorem registers_interface rs f reg regs s (value : Z -> M St CValue) :
  represents rs f -> descriptor_ok reg -> 0 < nBits reg ->
  (forall n, 0 < n -> value n s = Ret (mkCV n 0, s)) -> Forall (fun d => descriptor_ok d /\ 0 < nBits d) regs -> ForallOrdPairs no_overlap regs ->
  (exists rs', initialize_nonoverlapping value regs rs s = Ret (rs', s) /\ represents rs' (zeros regs) /\ same_switches rs rs') /\
  (exists rs', erase_register (Ops := ops) rs reg s = Ret (rs', s) /\ represents rs' (bits_erase reg f) /\ same_switches rs rs' /\
     is_partly_stored rs' reg = Ret false) /\
  (exists b, is_partly_stored rs reg = Ret b /\ (b = true <-> exists i, inb reg i = true /\ f (store_of reg) i <> None)) /\
  (exists b, is_wholly_stored rs reg = Ret b /\ (b = true <-> bits_known reg f)).
Proof.
  intros Hf Hr Hn Hz Hok Hno. split; [|split; [|exact (stored_ok reg Hr Hn rs f Hf)]].
  - unfold initialize_nonoverlapping.
    destruct (initialize_ok value s regs (clear_registers rs) _ Hz Hok Hno (represents_empty _ _) (fun _ _ _ _ _ => eq_refl)) as (rs' & E & H & Hs).
    exists rs'. split; [exact E|]. split; [exact H|exact Hs].
  - destruct (erase_register_ok reg Hr Hn rs f s Hf) as (rs' & E & H & Hs). exists rs'. split; [exact E|]. split; [exact H|]. split; [exact Hs|].
    destruct (stored_ok reg Hr Hn rs' _ H) as [(b & -> & Hb) _]. destruct b; [|reflexivity].
    destruct (proj1 Hb eq_refl) as (i & I & Hi). unfold bits_erase in Hi. rewrite in_register_same, I in Hi. now elim Hi.
Qed.
End Theorems.

(** * Examples *)

Definition ax : RegisterDescriptor := {| data_ := 15 |}.
(** A state where only AH is known. *)
Definition ah_known : RegisterState CValue := set_pairs RegisterState_empty ah [mkRegPair ah (Some (mkCV 8 0xff))].

Lemma registers_ok : (descriptor_ok ah /\ 0 < nBits ah) /\ (descriptor_ok ax /\ 0 < nBits ax) /\ (descriptor_ok rax /\ 0 < nBits rax).
Proof. repeat split; vm_compute; discriminate || reflexivity. Qed.

Lemma ah_known_represents : represents ah_known (bits_write ah 0xff (fun _ _ => None)).
Proof.
  destruct registers_ok as [[Ha Hn] _].
  apply (represents_set _ (fun _ _ => None)); [apply represents_empty|apply parts_one, (written_pair ah Ha Hn 0xff); now vm_compute| |].
  - intros i. rewrite (bit_at_written ah 0xff), bits_write_same. now destruct (inb ah i).
  - intros k i. apply bits_write_other.
Qed.

(** AX, with 0x1234 for what is not known. *)
Theorem readRegister_reads_witness :
  peekRegister (Ops := ConcreteOps unit) ah_known ax (mkCV 16 0x1234) tt = Ret (mkCV 16 0xff34, tt) /\
  exists rs', readRegister (Ops := ConcreteOps unit) ah_known ax (mkCV 16 0x1234) tt = Ret (mkCV 16 0xff34, rs', tt) /\
    represents rs' (bits_fill ax 0x1234 (bits_write ah 0xff (fun _ _ => None))).
Proof.
  destruct registers_ok as (_ & [Ha Hn] & _).
  destruct (readRegister_reads ah_known _ ax 0x1234 tt ah_known_represents Ha Hn ltac:(now vm_compute)) as (v & rs' & _ & Hr & Hp & Hrep & _).
  assert (E : peekRegister (Ops := ConcreteOps unit) ah_known ax (mkCV 16 0x1234) tt = Ret (mkCV 16 0xff34, tt)) by (vm_compute; reflexivity).
  split; [exact E|]. change (nBits ax) with 16 in Hp, Hr. rewrite E in Hp. injection Hp as <-. exists rs'. split; [exact Hr|exact Hrep].
Defined.

(** RAX may not be written where only AH is known and nothing may be created. *)
Theorem writeRegister_writes_witness :
  let locked := mkRegisters (registers ah_known) true false in
  writeRegister (Ops := ConcreteOps unit) locked rax (mkCV 64 1) tt = Fail Throw /\
  exists rs', writeRegister (Ops := ConcreteOps unit) ah_known rax (mkCV 64 1) tt = Ret (rs', tt) /\
    represents rs' (bits_write rax 1 (bits_write ah 0xff (fun _ _ => None))).
Proof.
  intros locked. destruct registers_ok as (_ & _ & [Ha Hn]). split.
  - destruct (writeRegister_writes locked _ rax 1 tt ah_known_represents Ha Hn ltac:(now vm_compute)) as [_ H].
    apply H; [reflexivity|]. intros Hk. apply (Hk 0); [vm_compute; reflexivity|]. vm_compute. reflexivity.
  - destruct (writeRegister_writes ah_known _ rax 1 tt ah_known_represents Ha Hn ltac:(now vm_compute)) as [H _].
    destruct (H (or_introl eq_refl)) as (rs' & E & Hrep & _). exists rs'. split; [exact E|exact Hrep].
Defined.

(** AL does not change when AH is written. *)
Theorem write_then_read_witness :
  exists rs' x, writeRegister (Ops := ConcreteOps unit) ah_known ax (mkCV 16 0xabcd) tt = Ret (rs', tt) /\
    peekRegister (Ops := ConcreteOps unit) rs' ax (mkCV 16 0) tt = Ret (mkCV 16 x, tt) /\ x = 0xabcd.
Proof.
  destruct registers_ok as (_ & [Ha Hn] & _). eexists.
  destruct (write_then_read ah_known _ _ ax 0xabcd ax 0 tt tt tt ah_known_represents Ha Hn ltac:(now vm_compute)
    ltac:(vm_compute; reflexivity) Ha Hn ltac:(now vm_compute)) as (_ & x & _ & Hx & Hv & _).
  exists x. split; [vm_compute; reflexivity|]. split; [exact Hx|]. now apply Hv.
Defined.

Theorem registers_interface_witness :
  exists rs', erase_register (Ops := ConcreteOps unit) ah_known ah tt = Ret (rs', tt) /\ is_partly_stored rs' ah = Ret false /\
    exists rs0, initialize_nonoverlapping (fun n => number_ (RiscOperators := ConcreteOps unit) n 0) [rax] ah_known tt = Ret (rs0, tt) /\
      represents rs0 (zeros [rax]).
Proof.
  destruct registers_ok as ([Ha Hn] & _ & [Hr Hw]).
  destruct (registers_interface ah_known _ ah [rax] tt (fun n => number_ (RiscOperators := ConcreteOps unit) n 0) ah_known_represents Ha Hn)
    as ((rs0 & E0 & H0 & _) & (rs' & E & _ & _ & H) & _).
  - intros n Hpos. unfold number_, ConcreteOps, ret, c_number. rewrite fromInteger_spec by lia. reflexivity.
  - constructor; [now split|constructor].
  - repeat constructor.
  - exists rs'. split; [exact E|]. split; [exact H|]. exists rs0. split; [exact E0|exact H0].
Defined.
