(* ===== verification/RiscMachine.v ===== *)
(** The machine of instruction semantics
    ([src/Rose/BinaryAnalysis/InstructionSemantics/BaseSemantics/{RiscOperators,State,Dispatcher}.C]
    and [src/AstNodes/BinaryAnalysis/SgAsmIntegerValueExpression.C]).

    An instruction reads and writes registers and memory, through the same
    interface that has the operations on values.  The registers are a
    [RegisterState] in the state of the domain; a memory is whatever implements
    [MemoryOperators].  Operands are expressions, which [read] evaluates and
    [write] assigns to.  The lazily updated initial state and the properties
    of registers are not modelled. *)
From S2P Require Import Prelude BitVector SymType SymEval RegDescriptor RiscOps RiscConcrete RiscRegisters.
Open Scope Z_scope.

(** * Registers and memory *)

(** A state that holds the registers. *)
Class HasRegisters (V St : Type) := {
  get_registers : St -> RegisterState V;
  set_registers : RegisterState V -> St -> St
}.

(** The operations on memory, and what an interrupt does. *)
Class MemoryOperators (V St : Type) := {
  readMemory : RegisterDescriptor -> V -> V -> V -> M St V;
  writeMemory : RegisterDescriptor -> V -> V -> V -> M St unit;
  interrupt : Z -> Z -> M St unit
}.

Section Machine.
Context {V St : Type} {Ops : RiscOperators V St} {Regs : HasRegisters V St} {Mem : MemoryOperators V St}.

(** ** [RiscOperators::readRegister], [peekRegister] and [writeRegister]

    [State] asserts that the descriptor is not empty, too. *)

Definition nonempty (reg : RegisterDescriptor) : M St unit := lift (require_ (negb (isEmpty reg)) AssertFail).

Definition ops_readRegister (reg : RegisterDescriptor) : M St V :=
  let* dflt := undefined_ (nBits reg) in
  let* _ := nonempty reg in
  fun s => let! ' (v, rs, s') := readRegister (get_registers s) reg dflt s in Ret (v, set_registers rs s').

Definition ops_peekRegister (reg : RegisterDescriptor) (dflt : V) : M St V :=
  let* _ := nonempty reg in fun s => peekRegister (get_registers s) reg dflt s.

Definition ops_writeRegister (reg : RegisterDescriptor) (a : V) : M St unit :=
  let* _ := nonempty reg in
  fun s => let! ' (rs, s') := writeRegister (get_registers s) reg a s in Ret (tt, set_registers rs s').
End Machine.

(** * Operands *)

(** [SgAsmIntegerValueExpression]: the bits and the address they are relative to. *)
Record IntegerValue := mkIntegerValue { iv_nBits : Z; iv_bits : Z; baseAddress : Z }.

Definition get_relativeValue (i : IntegerValue) : outcome Z :=
  assert! iv_nBits i <=? 64 else AssertFail in
  assert! 0 <? iv_nBits i else AssertFail in
  let! sv := signExtend2 (bv_toInteger (iv_nBits i) (iv_bits i)) (iv_nBits i) 64 in Ret (to_long sv).
(** The absolute value, without an argument. *)
Definition get_value (i : IntegerValue) : outcome Z :=
  assert! iv_nBits i <=? 64 else AssertFail in
  let! r := get_relativeValue i in Ret (Z.land (u64 (baseAddress i + r)) (genMask (iv_nBits i))).
Definition get_signedValue (i : IntegerValue) : outcome Z :=
  assert! iv_nBits i <=? 64 else AssertFail in
  let! r := get_relativeValue i in Ret (to_long (u64 (baseAddress i + r))).

Inductive AsmBinaryOp := AsmAdd | AsmSubtract | AsmMultiply | AsmLsl | AsmLsr | AsmAsr | AsmRor | AsmPreupdate | AsmPostupdate.
Inductive AsmUnaryOp := AsmTruncate | AsmUnsignedExtend | AsmSignedExtend.

(** [SgAsmExpression], with the width of its type. *)
Inductive AsmExpr :=
  | DirectRegister (n : Z) (descriptor : RegisterDescriptor)
  | IndirectRegister (n : Z) (descriptor offset_ stride : RegisterDescriptor) (index modulus : Z)
  | IntegerExpr (n : Z) (i : IntegerValue)
  | MemoryReference (n : Z) (address : AsmExpr) (segment : option RegisterDescriptor)
  | AsmBinary (n : Z) (op : AsmBinaryOp) (lhs rhs : AsmExpr)
  | AsmUnary (n : Z) (op : AsmUnaryOp) (operand : AsmExpr).

Definition asm_width (e : AsmExpr) : Z :=
  match e with
  | DirectRegister n _ | IndirectRegister n _ _ _ _ _ | IntegerExpr n _ | MemoryReference n _ _ | AsmBinary n _ _ _
  | AsmUnary n _ _ => n
  end.

(** What a dispatcher knows of the architecture. *)
Record Dispatcher := mkDispatcher { addressWidth : Z; bitsPerWord : Z }.

#[local] Notation u32 x := (x mod 2 ^ 32).

Section Operands.
Context {V St : Type} {Ops : RiscOperators V St} {Regs : HasRegisters V St} {Mem : MemoryOperators V St}.
Variable d : Dispatcher.

Definition isConcrete (v : V) : bool := match toUnsigned_ v with Some _ => true | None => false end.

(** The register that an indirect expression names at present. *)
Definition indirect_register (descriptor offset_ stride : RegisterDescriptor) (index modulus : Z) : M St RegisterDescriptor :=
  let* off := ops_readRegister offset_ in
  assert* isConcrete off else Throw in
  let* k := toUnsigned_get off in
  assert* negb (modulus =? 0) else Undefined in
  let idx := u64 (k + index) mod modulus in
  let step (get : RegisterDescriptor -> Z) (r : RegisterDescriptor) := u32 (get r + get stride * idx) in
  lift (let! r := set_majorNumber (step majorNumber descriptor) descriptor in
        let! r := set_minorNumber (step minorNumber r) r in
        let! r := set_offset (u64 (offset r + offset stride * idx)) r in
        set_nBits (u64 (nBits r + nBits stride * idx)) r).

(** [unsignedExtend] expands or shrinks. *)
Definition to_width (v : V) (n : Z) : M St V := if negb (nBits_ v =? n) then unsignedExtend v n else ret v.

(** A width of zero asks for that of the type. *)
Definition value_width (e : AsmExpr) (value_nbits : Z) : M St Z :=
  if value_nbits =? 0 then assert* negb (asm_width e =? 0) else AssertFail in ret (asm_width e) else ret value_nbits.

Definition read_register (e : AsmExpr) (value_nbits : Z) : M St V :=
  let* n := value_width e value_nbits in
  let* v :=
    match e with
    | DirectRegister _ reg => ops_readRegister reg
    | IndirectRegister _ descriptor offset_ stride index modulus =>
        let* reg := indirect_register descriptor offset_ stride index modulus in ops_readRegister reg
    | _ => fail AssertFail
    end in
  to_width v n.

Definition fit_address (v : V) (nbits : Z) : M St V :=
  if nBits_ v <? nbits then signExtend v nbits else if nbits <? nBits_ v then extract v 0 nbits else ret v.

Fixpoint effectiveAddress (e : AsmExpr) (nbits : Z) : M St V :=
  let nbits := if nbits =? 0 then addressWidth d else nbits in
  let* retval :=
    match e with
    | MemoryReference _ address _ => effectiveAddress address nbits
    | DirectRegister _ _ | IndirectRegister _ _ _ _ _ _ => read_register e nbits
    | IntegerExpr _ i => let* v := lift (get_value i) in number_ (iv_nBits i) v
    | AsmBinary _ op lhs rhs =>
        match op with
        | AsmPreupdate | AsmPostupdate => effectiveAddress lhs nbits
        | _ =>
            let* l := effectiveAddress lhs nbits in
            let* r := effectiveAddress rhs nbits in
            match op with
            | AsmAdd => add l r
            | AsmSubtract => subtract l r
            | AsmMultiply => unsignedMultiply l r
            | AsmLsl => shiftLeft l r
            | AsmLsr => shiftRight l r
            | AsmAsr => shiftRightArithmetic l r
            | _ => rotateRight l r
            end
        end
    | AsmUnary n op operand =>
        let* v := effectiveAddress operand (asm_width operand) in
        match op with AsmSignedExtend => signExtend v n | _ => unsignedExtend v n end
    end in
  fit_address retval nbits.

Definition segmentRegister (segment : option RegisterDescriptor) : RegisterDescriptor :=
  match segment with Some reg => reg | None => RegisterDescriptor_default end.

(** The address of a memory reference has the width of a word. *)
Definition memory_address (e : AsmExpr) (addr_nbits : Z) : M St V :=
  let* addr := effectiveAddress e addr_nbits in
  assert* nBits_ addr =? bitsPerWord d else AssertFail in ret addr.

Fixpoint read (e : AsmExpr) (value_nbits addr_nbits : Z) : M St V :=
  let* value_nbits := value_width e value_nbits in
  let operand x := read x (asm_width x) addr_nbits in
  let shifted (op : V -> V -> M St V) l r := let* a := operand l in let* b := operand r in op a b in
  let extended (op : V -> V -> M St V) l r :=
    let n := Z.max (asm_width l) (asm_width r) in
    let* a := operand l in let* a := signExtend a n in
    let* b := operand r in let* b := signExtend b n in op a b in
  match e with
  | AsmBinary _ (AsmPreupdate | AsmPostupdate) lhs _ => read lhs value_nbits addr_nbits
  | _ =>
      let* retval :=
        match e with
        | DirectRegister _ _ | IndirectRegister _ _ _ _ _ _ => read_register e value_nbits
        | MemoryReference _ _ segment =>
            let* addr := memory_address e addr_nbits in
            let* dflt := undefined_ value_nbits in
            let* yes := boolean_ true in
            readMemory (segmentRegister segment) addr dflt yes
        | IntegerExpr _ i => let* v := lift (get_signedValue i) in number_ value_nbits (u64 v)
        | AsmBinary _ op lhs rhs =>
            match op with
            | AsmAdd => extended add lhs rhs
            | AsmSubtract => extended subtract lhs rhs
            | AsmMultiply =>
                let* a := read lhs (asm_width lhs) 0 in let* b := read rhs (asm_width rhs) 0 in unsignedMultiply a b
            | AsmLsl => shifted shiftLeft lhs rhs
            | AsmLsr => shifted shiftRight lhs rhs
            | AsmAsr => shifted shiftRightArithmetic lhs rhs
            | _ => shifted rotateRight lhs rhs
            end
        | AsmUnary n op x =>
            match op with
            | AsmTruncate => let* v := operand x in unsignedExtend v n
            | AsmUnsignedExtend => let* v := effectiveAddress x (asm_width x) in unsignedExtend v n
            | AsmSignedExtend => let* v := effectiveAddress x (asm_width x) in signExtend v n
            end
        end in
      to_width retval value_nbits
  end.

(** [Dispatcher::write], for a way to write registers that are named directly. *)
Definition write_with (write_direct : RegisterDescriptor -> Z -> V -> M St unit) (e : AsmExpr) (value : V) (addr_nbits : Z) : M St unit :=
  match e with
  | DirectRegister n reg => write_direct reg n value
  | IndirectRegister _ descriptor offset_ stride index modulus =>
      let* reg := indirect_register descriptor offset_ stride index modulus in ops_writeRegister reg value
  | MemoryReference _ _ segment =>
      let* addr := memory_address e addr_nbits in
      let* yes := boolean_ true in
      writeMemory (segmentRegister segment) addr value yes
  | _ => fail AssertFail
  end.

(** The base class writes the low part of a register wider than the type. *)
Definition base_write : AsmExpr -> V -> Z -> M St unit :=
  write_with (fun reg n value =>
    let* reg := if n <? nBits reg then lift (mkDescriptor (majorNumber reg) (minorNumber reg) (offset reg) n) else ret reg in
    ops_writeRegister reg value).
End Operands.
