(* ===== verification/RiscRun.v ===== *)
(** Running programs over the machine in the concrete domain.

    A program is described by what it does to the bits of the registers: from
    every state whose registers represent some bits, it ends, returns a value, and
    leaves a state whose registers represent other bits, with nothing else
    changed.  Such facts compose, so that the description of a program is found
    by running it one operation at a time. *)
From S2P Require Import Prelude BitVector SymType SymExpr SymEval RegDescriptor RiscOps RiscConcrete RiscConcreteFacts RiscArith.
From S2P Require Import RiscRegisters RiscRegFacts RiscRegTheorems RiscMachine.
From stdpp Require Import gmap.
From Stdlib Require Import Morphisms.
Open Scope Z_scope.

(** * Registers by their values *)

(** A descriptor that may be accessed. *)
Definition valid_register (reg : RegisterDescriptor) : bool :=
  (0 <=? data_ reg) && (data_ reg <? 2 ^ 32) && (offset reg + nBits reg <=? 512) && (0 <? nBits reg).

Lemma valid_ok reg : valid_register reg = true -> descriptor_ok reg /\ 0 < nBits reg.
Proof. unfold valid_register, descriptor_ok, raw_ok. rewrite !andb_true_iff, !Z.leb_le, !Z.ltb_lt. lia. Qed.

(** A register has a value where all its bits are known. *)
Definition holds (reg : RegisterDescriptor) (v : Z) (f : Bits) : Prop :=
  bv_ok (nBits reg) v /\ forall i, inb reg i = true -> f (store_of reg) i = Some (Z.testbit v (i - offset reg)).

(** Registers with no bit in common. *)
Definition apart (a b : RegisterDescriptor) : bool := negb (bool_decide (store_of a = store_of b) && meets a b).

Lemma apart_ok a b : apart a b = true -> forall i, inb a i = true -> in_register b (store_of a) i = false.
Proof.
  unfold apart, in_register. intros H i I. apply negb_true_iff in H. destruct (bool_decide _); [|reflexivity]. cbn [andb] in *.
  destruct (inb b i) eqn:J; [|reflexivity]. rewrite <- H. symmetry. apply meet_spec. now exists i.
Qed.

Lemma holds_write reg v f : bv_ok (nBits reg) v -> holds reg v (bits_write reg v f).
Proof. intros Hv. split; [assumption|]. intros i I. now rewrite bits_write_same, I. Qed.

Lemma holds_other reg v reg' v' f : apart reg reg' = true -> holds reg v f -> holds reg v (bits_write reg' v' f).
Proof. intros Ha [Hv H]. split; [assumption|]. intros i I. unfold bits_write. rewrite (apart_ok _ _ Ha i I). now apply H. Qed.

Lemma holds_unique reg v v' f : 0 < nBits reg -> holds reg v f -> holds reg v' f -> v = v'.
Proof.
  intros Hn [Hv H] [Hv' H']. apply (same_bits (nBits reg)); [lia|assumption..|]. intros j Hj.
  specialize (H (offset reg + j)). specialize (H' (offset reg + j)). rewrite Z.add_simpl_l in H, H'.
  assert (I : inb reg (offset reg + j) = true) by (apply inb_spec; lia). specialize (H I). specialize (H' I). congruence.
Qed.

Lemma holds_known reg v f : holds reg v f -> bits_known reg f.
Proof. intros [_ H] i I. now rewrite H. Qed.

(** Assignments, the first one first. *)
Definition assign (l : list (RegisterDescriptor * Z)) (f : Bits) : Bits := fold_left (fun f p => bits_write p.1 p.2 f) l f.

Lemma assign_app l l' f : assign (l ++ l') f = assign l' (assign l f).
Proof. apply fold_left_app. Qed.

(** The value of a register after assignments to registers that are the same or apart from it. *)
Lemma holds_assign reg v l f : holds reg v f -> forallb (fun p => apart reg p.1) l = true -> holds reg v (assign l f).
Proof.
  revert f. induction l as [|p l IH]; intros f Hf Hl; [exact Hf|]. apply andb_true_iff in Hl as [Hp Hl]. apply IH; [|assumption].
  now apply holds_other.
Qed.

(** ** Equal bits *)

Definition bits_eq (f g : Bits) : Prop := forall k i, f k i = g k i.

#[export] Instance bits_eq_equiv : Equivalence bits_eq.
Proof. split; [intros f k i; reflexivity|intros f g H k i; now rewrite H|intros f g h H H' k i; now rewrite H]. Qed.

#[export] Instance represents_Proper rs : Proper (bits_eq ==> iff) (represents rs).
Proof. intros f g H. split; apply represents_ext; [exact H|intros k i; symmetry; apply H]. Qed.

#[export] Instance bits_write_Proper reg v : Proper (bits_eq ==> bits_eq) (bits_write reg v).
Proof. intros f g H k i. unfold bits_write. now rewrite H. Qed.

#[export] Instance holds_Proper reg v : Proper (bits_eq ==> iff) (holds reg v).
Proof.
  assert (Go : forall f g, bits_eq f g -> holds reg v f -> holds reg v g).
  { intros f g H [Hv Hf]. split; [assumption|]. intros i I. rewrite <- (H _ _). now apply Hf. }
  intros f g H. split; apply Go; [assumption|now symmetry].
Qed.

#[export] Instance assign_Proper l : Proper (bits_eq ==> bits_eq) (assign l).
Proof. induction l as [|p l IH]; intros f g H; [exact H|]. cbn. apply IH. now rewrite H. Qed.

(** A write that changes nothing. *)
Lemma write_same reg v f : holds reg v f -> bits_eq (bits_write reg v f) f.
Proof.
  intros [_ H] k i. unfold bits_write, in_register. destruct (decide (k = store_of reg)) as [->|Hk].
  - rewrite bool_decide_eq_true_2 by reflexivity. cbn [andb]. destruct (inb reg i) eqn:I; [|reflexivity]. symmetry. now apply H.
  - now rewrite bool_decide_eq_false_2.
Qed.

(** * Programs *)

(** The registers are a part of the state. *)
Class RegisterLaws (St : Type) (Regs : HasRegisters CValue St) : Prop := {
  get_set : forall rs s, get_registers (set_registers rs s) = rs;
  set_set : forall rs rs' s, set_registers rs' (set_registers rs s) = set_registers rs' s;
  set_get : forall s, set_registers (get_registers s) s = s
}.

(** Registers may be created, as the dispatchers have it. *)
Definition holding (rs : RegisterState CValue) (f : Bits) : Prop := represents rs f /\ accessCreatesLocations rs = true.

Lemma zero_ok n : bv_ok n 0 <-> 0 <= n.
Proof.
  unfold bv_ok. split; [|intros H; pose proof (pow2_pos n H); lia]. intros [_ H]. destruct (Z.leb_spec 0 n); [assumption|]. rewrite Z.pow_neg_r in H by assumption. lia.
Qed.

Section Runs.
Context {St : Type} {Regs : HasRegisters CValue St} {Laws : RegisterLaws St Regs}.
#[local] Existing Instance ConcreteOps.

(** A program that ends with a value, and changes the registers only. *)
Definition runs {A} (m : M St A) (f : Bits) (a : A) (g : Bits) : Prop :=
  forall s, holding (get_registers s) f -> exists rs, m s = Ret (a, set_registers rs s) /\ holding rs g.
(** One that fails. *)
Definition fails {A} (m : M St A) (f : Bits) (e : failure) : Prop :=
  forall s, holding (get_registers s) f -> m s = Fail e.

#[export] Instance runs_Proper {A} (m : M St A) : Proper (bits_eq ==> eq ==> bits_eq ==> iff) (runs m).
Proof.
  assert (Go : forall f f' a g g', bits_eq f f' -> bits_eq g g' -> runs m f a g -> runs m f' a g').
  { intros f f' a g g' Hf Hg H s [Hs Hc]. rewrite <- Hf in Hs. destruct (H s (conj Hs Hc)) as (rs & E & Hrs & Hc').
    rewrite Hg in Hrs. exists rs. split; [assumption|now split]. }
  intros f f' Hf a a' <- g g' Hg. split; apply Go; try assumption; now symmetry.
Qed.

Lemma runs_pure {A} (m : M St A) f a : (forall s, m s = Ret (a, s)) -> runs m f a f.
Proof. intros H s Hs. exists (get_registers s). split; [now rewrite H, set_get|assumption]. Qed.

Lemma runs_ret {A} (a : A) f : runs (ret a) f a f.
Proof. now apply runs_pure. Qed.

Lemma runs_lift {A} (m : outcome A) f a : m = Ret a -> runs (lift m) f a f.
Proof. intros ->. now apply runs_pure. Qed.

Lemma runs_assert b e f : b = true -> runs (lift (require_ b e)) f tt f.
Proof. intros ->. now apply runs_lift. Qed.

Lemma runs_bind {A B} (m : M St A) (k : A -> M St B) f a g b h : runs m f a g -> runs (k a) g b h -> runs (bind m k) f b h.
Proof.
  intros Hm Hk s Hs. destruct (Hm s Hs) as (rs & E & Hrs). erewrite bind_Ret by exact E.
  destruct (Hk (set_registers rs s)) as (rs' & E' & Hrs'); [now rewrite get_set|]. rewrite set_set in E'. now exists rs'.
Qed.

Lemma fails_bind {A B} (m : M St A) (k : A -> M St B) f a g e : runs m f a g -> fails (k a) g e -> fails (bind m k) f e.
Proof. intros Hm Hk s Hs. destruct (Hm s Hs) as (rs & E & Hrs). erewrite bind_Ret by exact E. apply Hk. now rewrite get_set. Qed.

Lemma fails_here {A B} (m : M St A) (k : A -> M St B) f e : fails m f e -> fails (bind m k) f e.
Proof. intros Hm s Hs. now apply bind_Fail, Hm. Qed.

Lemma fails_assert b e f : b = false -> fails (lift (require_ b e)) f e.
Proof. intros -> s _. reflexivity. Qed.

Lemma runs_eq {A} (m : M St A) f a a' g g' : runs m f a g -> a = a' -> bits_eq g g' -> runs m f a' g'.
Proof. now intros H <- <-. Qed.

(** The value and the bits that are left are determined, up to equality. *)
Lemma runs_det {A} (m : M St A) f a a' g g' s : holding (get_registers s) f -> runs m f a g -> runs m f a' g' -> a = a' /\ bits_eq g g'.
Proof.
  intros Hs H H'. destruct (H s Hs) as (rs & E & [[_ G] _]), (H' s Hs) as (rs' & E' & [[_ G'] _]). rewrite E in E'. injection E' as -> Er.
  split; [reflexivity|]. intros k i. rewrite <- G, <- G'. apply (f_equal get_registers) in Er. rewrite !get_set in Er. now rewrite Er.
Qed.

(** ** Registers *)

Section Registers.
Context (reg : RegisterDescriptor).
Hypothesis Hvalid : valid_register reg = true.

Lemma nonempty_runs f : runs (nonempty reg) f tt f.
Proof. apply runs_assert. destruct (valid_ok _ Hvalid) as [_ H]. now rewrite not_empty. Qed.

Lemma read_value f d v x : holds reg v f -> bits_read reg d f x -> x = v.
Proof.
  intros [Hv H] [Hx Hb]. apply (same_bits (nBits reg)); [destruct (valid_ok _ Hvalid); lia|assumption..|]. intros j Hj.
  specialize (Hb (offset reg + j)). specialize (H (offset reg + j)). rewrite Z.add_simpl_l in *.
  assert (I : inb reg (offset reg + j) = true) by (apply inb_spec; lia). now rewrite Hb, H.
Qed.

Lemma runs_readRegister v f : holds reg v f -> runs (ops_readRegister reg) f (mkCV (nBits reg) v) f.
Proof.
  intros Hv s [Hf Hc]. destruct (valid_ok _ Hvalid) as [Hd Hn]. unfold ops_readRegister.
  erewrite bind_Ret by reflexivity. erewrite bind_Ret by (apply assert_Ret; now rewrite not_empty).
  destruct (readRegister_ok reg Hd Hn (get_registers s) f 0 s Hf (proj2 (zero_ok _) (Z.lt_le_incl _ _ Hn))) as (x & rs & E & Hx & Hrs & _ & Hs).
  unfold c_zero. rewrite E. cbn [obind]. exists rs. rewrite (read_value _ _ _ _ Hv Hx). split; [reflexivity|]. split; [|now rewrite Hs].
  rewrite Hc in Hrs. apply (represents_ext _ (bits_fill reg 0 f)); [|assumption]. intros k i. unfold bits_fill.
  destruct (f k i) eqn:E'; [reflexivity|]. destruct (in_register reg k i) eqn:I; [|reflexivity].
  unfold in_register in I. apply andb_true_iff in I as [->%bool_decide_eq_true I]. pose proof (proj2 Hv i I). congruence.
Qed.

Lemma runs_peekRegister v f : holds reg v f -> runs (ops_peekRegister reg (c_zero (nBits reg))) f (mkCV (nBits reg) v) f.
Proof.
  intros Hv s [Hf Hc]. destruct (valid_ok _ Hvalid) as [Hd Hn]. unfold ops_peekRegister.
  erewrite bind_Ret by (apply assert_Ret; now rewrite not_empty).
  destruct (peekRegister_ok reg Hd Hn (get_registers s) f 0 s Hf (proj2 (zero_ok _) (Z.lt_le_incl _ _ Hn))) as (x & E & Hx).
  unfold c_zero. rewrite E, (read_value _ _ _ _ Hv Hx). exists (get_registers s). rewrite set_get. split; [reflexivity|now split].
Qed.

Lemma runs_writeRegister n v f : nBits reg = n -> bv_ok n v -> runs (ops_writeRegister reg (mkCV n v)) f tt (bits_write reg v f).
Proof.
  intros <- Hv s [Hf Hc]. destruct (valid_ok _ Hvalid) as [Hd Hn]. unfold ops_writeRegister.
  erewrite bind_Ret by (apply assert_Ret; now rewrite not_empty).
  destruct (writeRegister_ok reg Hd Hn (get_registers s) f v s Hf Hv) as [H _].
  destruct (H (or_introl Hc)) as (rs & E & Hrs & _ & Hs). rewrite E. cbn [obind]. exists rs. split; [reflexivity|].
  split; [assumption|]. now rewrite Hs.
Qed.
End Registers.
End Runs.

(** * Single bits *)

Section Booleans.
Context {St : Type}.
Implicit Type s : St.

Lemma c_band_ok a b s : and_ (RiscOperators := ConcreteOps St) (mkCV 1 (bool_Z a)) (mkCV 1 (bool_Z b)) s = Ret (mkCV 1 (bool_Z (a && b)), s).
Proof. now rewrite c_and_ok, bool_Z_land. Qed.
Lemma c_bor_ok a b s : or_ (RiscOperators := ConcreteOps St) (mkCV 1 (bool_Z a)) (mkCV 1 (bool_Z b)) s = Ret (mkCV 1 (bool_Z (a || b)), s).
Proof. now rewrite c_or_ok, bool_Z_lor. Qed.
Lemma c_bxor_ok a b s : xor_ (RiscOperators := ConcreteOps St) (mkCV 1 (bool_Z a)) (mkCV 1 (bool_Z b)) s = Ret (mkCV 1 (bool_Z (xorb a b)), s).
Proof. now rewrite c_xor_ok, bool_Z_lxor. Qed.
End Booleans.

(** Run the next operation: single bits first, and then values. *)
Create HintDb runs.
Ltac pure_fact :=
  first [ apply c_band_ok | apply c_bor_ok | apply c_bxor_ok | apply c_not_ok | apply c_ite_ok | apply c_boolean_ok
        | apply c_bit_ok; lia | solve [eauto with risc nocore] | solve [eauto with risc] ].
Ltac run_fact :=
  lazymatch goal with
  | |- runs (ret _) _ _ _ => apply runs_ret
  | |- runs (bind _ _) _ _ _ => fail "more than one operation"
  | |- runs (lift (require_ _ _)) _ _ _ => apply runs_assert; cbn [c_nBits nBits_ ConcreteOps]; first [reflexivity | risc_side]
  | |- _ => first [solve [eauto 3 with runs] | apply runs_pure; intros; pure_fact]
  end.
Ltac run := lazymatch goal with |- runs (bind _ _) _ _ _ => eapply runs_bind end; [run_fact|cbn [c_nBits nBits_ ConcreteOps fst snd]; cbv beta iota].
Ltac runs := repeat run.
