(* ===== verification/RiscX86.v ===== *)
(** What the instructions of x86 share
    ([src/Rose/BinaryAnalysis/InstructionSemantics/DispatcherX86.C], from
    [setFlagsForResult] to the end, and the registers of
    [src/Rose/BinaryAnalysis/Architecture/{Intel8086,IntelI386,Amd64}.C]).

    These are programs over the interface of semantic domains and of the machine:
    flags, conditions, repetition, addition with flags, rotations, shifts, the
    stack of floating point registers, and saturation.  The mode of a dispatcher
    is one of 16, 32 and 64 bits. *)
From S2P Require Import Prelude BitVector RegDescriptor RiscOps RiscConcrete RiscRegisters RiscMachine.
Open Scope Z_scope.

(** * Registers *)

Definition x86_regclass_gpr : Z := 0.
Definition x86_regclass_segment : Z := 1.
Definition x86_regclass_st : Z := 4.
Definition x86_regclass_ip : Z := 6.
Definition x86_regclass_flags : Z := 7.
Definition x86_flags_status : Z := 0.

(** An entry of the register dictionary. *)
Definition x86_register (majr minr offset n : Z) : RegisterDescriptor :=
  match mkDescriptor majr minr offset n with Ret d => d | Fail _ => RegisterDescriptor_default end.
Definition gpr (minr offset n : Z) : RegisterDescriptor := x86_register x86_regclass_gpr minr offset n.
Definition flag (offset : Z) : RegisterDescriptor := x86_register x86_regclass_flags x86_flags_status offset 1.

Definition x86_gpr_ax : Z := 0.
Definition x86_gpr_cx : Z := 1.
Definition x86_gpr_dx : Z := 2.
Definition x86_gpr_bx : Z := 3.
Definition x86_gpr_sp : Z := 4.
Definition x86_gpr_bp : Z := 5.

Definition REG_AL := gpr x86_gpr_ax 0 8.
Definition REG_AH := gpr x86_gpr_ax 8 8.
Definition REG_AX := gpr x86_gpr_ax 0 16.
Definition REG_CX := gpr x86_gpr_cx 0 16.
Definition REG_DX := gpr x86_gpr_dx 0 16.
Definition REG_SP := gpr x86_gpr_sp 0 16.
Definition REG_EAX := gpr x86_gpr_ax 0 32.
Definition REG_EBX := gpr x86_gpr_bx 0 32.
Definition REG_ECX := gpr x86_gpr_cx 0 32.
Definition REG_EDX := gpr x86_gpr_dx 0 32.
Definition REG_ESP := gpr x86_gpr_sp 0 32.
Definition REG_RAX := gpr x86_gpr_ax 0 64.
Definition REG_RBX := gpr x86_gpr_bx 0 64.
Definition REG_RCX := gpr x86_gpr_cx 0 64.
Definition REG_RDX := gpr x86_gpr_dx 0 64.
Definition REG_RSP := gpr x86_gpr_sp 0 64.
Definition REG_CF := flag 0.
Definition REG_PF := flag 2.
Definition REG_AF := flag 4.
Definition REG_ZF := flag 6.
Definition REG_SF := flag 7.
Definition REG_DF := flag 10.
Definition REG_OF := flag 11.
Definition x86_flags_fpstatus : Z := 1.
Definition REG_FPSTATUS_TOP := x86_register x86_regclass_flags x86_flags_fpstatus 11 3.
Definition REG_ST0 := x86_register x86_regclass_st 0 0 80.
Definition x86_segreg_ss : Z := 2.
Definition x86_segreg_fs : Z := 4.
Definition x86_segreg_gs : Z := 5.
Definition REG_SS := x86_register x86_regclass_segment x86_segreg_ss 0 16.
Definition REG_FS := x86_register x86_regclass_segment x86_segreg_fs 0 16.
Definition REG_GS := x86_register x86_regclass_segment x86_segreg_gs 0 16.

(** * The dispatcher *)

Inductive X86InstructionSize := x86_insnsize_none | x86_insnsize_16 | x86_insnsize_32 | x86_insnsize_64.

(** The size of addresses and words, the mode of the processor, whether the
    instruction pointer is reset from every instruction, and which registers the
    dictionary has a name for. *)
Record DispatcherX86 := mkX86 {
  x86_base : Dispatcher;
  processorMode : X86InstructionSize;
  autoResetInstructionPointer : bool;
  in_dictionary : RegisterDescriptor -> bool
}.

(** The largest register that the mode has. *)
Definition mode_width (d : DispatcherX86) : Z :=
  match processorMode d with x86_insnsize_64 => 64 | x86_insnsize_32 => 32 | _ => 16 end.
Definition REG_anyCX (d : DispatcherX86) := gpr x86_gpr_cx 0 (mode_width d).
Definition REG_anySP (d : DispatcherX86) := gpr x86_gpr_sp 0 (mode_width d).
Definition REG_anyBP (d : DispatcherX86) := gpr x86_gpr_bp 0 (mode_width d).
Definition REG_anyIP (d : DispatcherX86) := x86_register x86_regclass_ip 0 0 (mode_width d).

(** The kinds of instructions that have a processor, and one that has none. *)
Inductive X86InstructionKind :=
  | x86_aaa | x86_aad | x86_aam | x86_aas | x86_adc | x86_add | x86_and | x86_bsf | x86_bsr | x86_bswap | x86_bt | x86_btc | x86_btr |
  x86_bts | x86_call | x86_cbw | x86_cdq | x86_cdqe | x86_clc | x86_cld | x86_clflush | x86_cmc | x86_cmova | x86_cmovae | x86_cmovb |
  x86_cmovbe | x86_cmove | x86_cmovg | x86_cmovge | x86_cmovl | x86_cmovle | x86_cmovne | x86_cmovno | x86_cmovns | x86_cmovo | x86_cmovpe |
  x86_cmovpo | x86_cmovs | x86_cmp | x86_cmpsb | x86_cmpsw | x86_cmpsd | x86_cmpsq | x86_cmpxchg | x86_cmpxchg8b | x86_cmpxchg16b |
  x86_cpuid | x86_cqo | x86_cvtsi2sd | x86_cwd | x86_cwde | x86_dec | x86_div | x86_fld | x86_fldcw | x86_fnop | x86_fnstcw | x86_fnstsw |
  x86_fst | x86_fstp | x86_hlt | x86_idiv | x86_imul | x86_inc | x86_int | x86_int3 | x86_ja | x86_jae | x86_jb | x86_jbe | x86_jcxz |
  x86_je | x86_jecxz | x86_jg | x86_jge | x86_jl | x86_jle | x86_jmp | x86_jne | x86_jno | x86_jns | x86_jo | x86_jpe | x86_jpo | x86_js |
  x86_lddqu | x86_ldmxcsr | x86_lea | x86_leave | x86_lfence | x86_lodsb | x86_lodsw | x86_lodsd | x86_lodsq | x86_loop | x86_loopnz |
  x86_loopz | x86_maskmovq | x86_mfence | x86_mov | x86_movapd | x86_movaps | x86_movbe | x86_movd | x86_movdqa | x86_movdqu | x86_movhpd |
  x86_movlpd | x86_movq | x86_movntdqa | x86_movntdq | x86_movnti | x86_movntq | x86_movsb | x86_movsw | x86_movsd | x86_movsq |
  x86_movsd_sse | x86_movss | x86_movsx | x86_movsxd | x86_movupd | x86_movups | x86_movzx | x86_mul | x86_neg | x86_nop | x86_not | x86_or
  | x86_pabsb | x86_pabsw | x86_pabsd | x86_packssdw | x86_packsswb | x86_packusdw | x86_packuswb | x86_paddb | x86_paddw | x86_paddd |
  x86_paddq | x86_paddsb | x86_paddsw | x86_paddusb | x86_paddusw | x86_palignr | x86_pand | x86_pandn | x86_pause | x86_pavgb | x86_pavgw |
  x86_pblendvb | x86_pblendw | x86_pcmpeqb | x86_pcmpeqw | x86_pcmpeqd | x86_pcmpeqq | x86_pcmpgtb | x86_pcmpgtw | x86_pcmpgtd | x86_pcmpgtq
  | x86_pextrb | x86_pextrw | x86_pextrd | x86_pextrq | x86_phaddw | x86_phaddd | x86_phaddsw | x86_phminposuw | x86_phsubw | x86_phsubd |
  x86_phsubsw | x86_pinsrb | x86_pinsrw | x86_pinsrd | x86_pinsrq | x86_pmaddubsw | x86_pmaddwd | x86_pmaxsb | x86_pmaxsw | x86_pmaxsd |
  x86_pmaxub | x86_pmaxuw | x86_pmaxud | x86_pminsb | x86_pminsw | x86_pminsd | x86_pminub | x86_pminuw | x86_pminud | x86_pmovmskb |
  x86_pmovsxbw | x86_pmovsxbd | x86_pmovsxbq | x86_pmovsxwd | x86_pmovsxwq | x86_pmovsxdq | x86_pmovzxbw | x86_pmovzxbd | x86_pmovzxbq |
  x86_pmovzxwd | x86_pmovzxwq | x86_pmovzxdq | x86_pmuldq | x86_pmulhrsw | x86_pmulhuw | x86_pmulhw | x86_pmulld | x86_pmullw | x86_pmuludq
  | x86_pop | x86_popa | x86_popad | x86_popf | x86_popfd | x86_popfq | x86_popcnt | x86_por | x86_prefetchnta | x86_psadbw | x86_pshufb |
  x86_pshufd | x86_pshufhw | x86_pshuflw | x86_pshufw | x86_psignb | x86_psignw | x86_psignd | x86_pslldq | x86_psllw | x86_pslld |
  x86_psllq | x86_psraw | x86_psrad | x86_psrldq | x86_psrlw | x86_psrld | x86_psrlq | x86_psubb | x86_psubw | x86_psubd | x86_psubq |
  x86_psubsb | x86_psubsw | x86_psubusb | x86_psubusw | x86_ptest | x86_punpckhbw | x86_punpckhwd | x86_punpckhdq | x86_punpckhqdq |
  x86_punpcklbw | x86_punpcklwd | x86_punpckldq | x86_punpcklqdq | x86_push | x86_pusha | x86_pushad | x86_pushf | x86_pushfd | x86_pushfq |
  x86_pxor | x86_rcl | x86_rcr | x86_rdtsc | x86_rep_lodsb | x86_rep_lodsw | x86_rep_lodsd | x86_rep_lodsq | x86_rep_movsb | x86_rep_movsw |
  x86_rep_movsd | x86_rep_movsq | x86_rep_stosb | x86_rep_stosw | x86_rep_stosd | x86_rep_stosq | x86_repe_cmpsb | x86_repe_cmpsw |
  x86_repe_cmpsd | x86_repe_cmpsq | x86_repe_scasb | x86_repe_scasw | x86_repe_scasd | x86_repe_scasq | x86_repne_cmpsb | x86_repne_cmpsw |
  x86_repne_cmpsd | x86_repne_cmpsq | x86_repne_scasb | x86_repne_scasw | x86_repne_scasd | x86_repne_scasq | x86_ret | x86_rol | x86_ror |
  x86_sar | x86_sbb | x86_scasb | x86_scasw | x86_scasd | x86_scasq | x86_seta | x86_setae | x86_setb | x86_setbe | x86_sete | x86_setg |
  x86_setge | x86_setl | x86_setle | x86_setne | x86_setno | x86_setns | x86_seto | x86_setpe | x86_setpo | x86_sets | x86_sfence | x86_shl
  | x86_shld | x86_shr | x86_shrd | x86_stc | x86_std | x86_stosb | x86_stosw | x86_stosd | x86_stosq | x86_stmxcsr | x86_sub | x86_syscall
  | x86_sysenter | x86_test | x86_ud2 | x86_wait | x86_xadd | x86_xchg | x86_xor | x86_xorpd | x86_xorps | x86_unknown_instruction.

Inductive X86RepeatPrefix := x86_repeat_none | x86_repeat_repne | x86_repeat_repe.
Inductive AccessMode := READ_REGISTER | PEEK_REGISTER.

Section Helpers.
Context {V St : Type} {Ops : RiscOperators V St} {Regs : HasRegisters V St} {Mem : MemoryOperators V St}.
Variable d : DispatcherX86.

(** ** Registers *)

(** [AccessModifiesExistingLocationsGuard]: a setting of the registers for a while. *)
Definition with_modifies {A} (b : bool) (m : M St A) : M St A := fun s =>
  let rs := get_registers s in
  let! ' (a, s') := m (set_registers (mkRegisters (registers rs) b (accessCreatesLocations rs)) s) in
  let rs' := get_registers s' in
  Ret (a, set_registers (mkRegisters (registers rs') (accessModifiesExistingLocations rs) (accessCreatesLocations rs')) s').

Definition access (mode : AccessMode) (reg : RegisterDescriptor) : M St V :=
  match mode with
  | READ_REGISTER => ops_readRegister reg
  | PEEK_REGISTER => let* dflt := undefined_ (nBits reg) in ops_peekRegister reg dflt
  end.

(** Reading the flags as a whole does not join them into one location. *)
Definition x86_readRegister (reg : RegisterDescriptor) (mode : AccessMode) : M St V :=
  if (majorNumber reg =? x86_regclass_flags) && (offset reg =? 0) && (1 <? nBits reg)
  then with_modifies false (access mode reg) else access mode reg.

#[local] Notation readRegister reg := (x86_readRegister reg READ_REGISTER).
#[local] Notation peekRegister reg := (x86_readRegister reg PEEK_REGISTER).

(** Writing 32 bits of a general purpose register clears the upper half in
    64-bit mode; writing an MM register makes the ST register not a number. *)
Definition x86_writeRegister (reg : RegisterDescriptor) (value : V) : M St unit :=
  if (nBits reg =? 32) && (offset reg =? 0) && (nBits (REG_anyIP d) =? 64) then
    let* _ :=
      if (majorNumber reg =? x86_regclass_gpr) || (majorNumber reg =? x86_regclass_ip) then
        let* upperHalf := lift (mkDescriptor (majorNumber reg) (minorNumber reg) 32 32) in
        let* zero := number_ 32 0 in
        ops_writeRegister upperHalf zero
      else ret tt in
    ops_writeRegister reg value
  else if (majorNumber reg =? x86_regclass_st) && (minorNumber reg <? 8) && (offset reg =? 0) && (nBits reg =? 64) then
    let* wider := lift (set_nBits 80 reg) in
    let* ones := number_ 16 0xffff in
    let* v := concat_ value ones in
    ops_writeRegister wider v
  else ops_writeRegister reg value.
#[local] Notation writeRegister := x86_writeRegister.

(** Operands.  A register that is an operand is written as a whole. *)
Definition x86_read (e : AsmExpr) (value_nbits : Z) : M St V := read (x86_base d) e value_nbits 0.
Definition x86_write (e : AsmExpr) (value : V) : M St unit :=
  write_with (x86_base d) (fun reg _ v => writeRegister reg v) e value 0.

(** ** Flags *)

Definition parity (v : V) : M St V :=
  assert* nBits_ v =? 8 else AssertFail in
  let pair i := let* b := extract v (i + 1) (i + 2) in let* a := extract v i (i + 1) in xor_ a b in
  let* p01 := pair 0 in
  let* p23 := pair 2 in
  let* p45 := pair 4 in
  let* p67 := pair 6 in
  let* p0123 := xor_ p01 p23 in
  let* p4567 := xor_ p45 p67 in
  let* pall := xor_ p0123 p4567 in
  invert pall.

Definition setFlagsForResult (result : V) : M St unit :=
  let width := nBits_ result in
  let* lo := extract result 0 8 in
  let* pf := parity lo in
  let* _ := writeRegister REG_PF pf in
  let* sf := extract result (usub width 1) width in
  let* _ := writeRegister REG_SF sf in
  let* zf := equalToZero result in
  writeRegister REG_ZF zf.

(** The same, where a condition holds. *)
Definition setFlagsForResult_if (result cond : V) : M St unit :=
  assert* nBits_ cond =? 1 else AssertFail in
  let* lo_byte := extract result 0 8 in
  let* signbit := extract result (usub (nBits_ result) 1) (nBits_ result) in
  let* pf := peekRegister REG_PF in
  let* p := parity lo_byte in
  let* newPf := ite cond p pf in
  let* _ := writeRegister REG_PF newPf in
  let* sf := peekRegister REG_SF in
  let* newSf := ite cond signbit sf in
  let* _ := writeRegister REG_SF newSf in
  let* zf := peekRegister REG_ZF in
  let* z := equalToZero result in
  let* newZf := ite cond z zf in
  writeRegister REG_ZF newZf.

Definition invertMaybe (value : V) (maybe : bool) : M St V := if maybe then invert value else ret value.

Definition greaterOrEqualToTen (w : V) : M St V :=
  let nbits := nBits_ w in
  let* no := boolean_ false in
  let* six := number_ nbits 6 in
  let* ' (_, carries) := addWithCarries w six no in
  extract carries (usub nbits 1) nbits.

(** ** Conditions *)

Definition not_flag (reg : RegisterDescriptor) : M St V := let* f := readRegister reg in invert f.
Definition sf_xor_of : M St V := let* o := readRegister REG_OF in let* s := readRegister REG_SF in xor_ s o.

Definition flagsCombo (k : X86InstructionKind) : M St V :=
  match k with
  | x86_jne | x86_setne | x86_cmovne => not_flag REG_ZF
  | x86_je | x86_sete | x86_cmove => readRegister REG_ZF
  | x86_jno | x86_setno | x86_cmovno => not_flag REG_OF
  | x86_jo | x86_seto | x86_cmovo => readRegister REG_OF
  | x86_jns | x86_setns | x86_cmovns => not_flag REG_SF
  | x86_js | x86_sets | x86_cmovs => readRegister REG_SF
  | x86_jpo | x86_setpo | x86_cmovpo => not_flag REG_PF
  | x86_jpe | x86_setpe | x86_cmovpe => readRegister REG_PF
  | x86_jae | x86_setae | x86_cmovae => not_flag REG_CF
  | x86_jb | x86_setb | x86_cmovb => readRegister REG_CF
  | x86_jbe | x86_setbe | x86_cmovbe =>
      let* zf := readRegister REG_ZF in let* cf := readRegister REG_CF in or_ cf zf
  | x86_ja | x86_seta | x86_cmova =>
      let* notZf := not_flag REG_ZF in let* notCf := not_flag REG_CF in and_ notCf notZf
  | x86_jl | x86_setl | x86_cmovl => sf_xor_of
  | x86_jge | x86_setge | x86_cmovge => let* x := sf_xor_of in invert x
  | x86_jle | x86_setle | x86_cmovle =>
      let* x := sf_xor_of in let* zf := readRegister REG_ZF in or_ zf x
  | x86_jg | x86_setg | x86_cmovg =>
      let* notZf := not_flag REG_ZF in let* x := sf_xor_of in let* y := invert x in and_ y notZf
  | x86_jcxz => let* c := readRegister REG_CX in equalToZero c
  | x86_jecxz => let* c := readRegister REG_ECX in equalToZero c
  | _ => fail AssertFail
  end.

(** ** Repetition *)

Definition repEnter (repeat : X86RepeatPrefix) : M St V :=
  match repeat with
  | x86_repeat_none => boolean_ true
  | _ =>
      let* cx := readRegister (REG_anyCX d) in
      let* z := equalToZero cx in
      invert z
  end.

Definition minus_one : Z := 2 ^ 64 - 1.

Definition repLeave (repeat_prefix : X86RepeatPrefix) (in_loop : V) (insn_va : Z) (honorZeroFlag : bool) : M St unit :=
  assert* nBits_ in_loop =? 1 else AssertFail in
  let n := nBits (REG_anyCX d) in
  let* zero := number_ n 0 in
  let* less := number_ n minus_one in
  let* maybeDecrement := ite in_loop less zero in
  let* cx := readRegister (REG_anyCX d) in
  let* new_cx := add cx maybeDecrement in
  let* _ := writeRegister (REG_anyCX d) new_cx in
  let* z := equalToZero new_cx in
  let* nonzero_cx := invert z in
  let* again :=
    match repeat_prefix with
    | x86_repeat_none => boolean_ false
    | x86_repeat_repe =>
        if honorZeroFlag then
          let* zf := readRegister REG_ZF in let* a := and_ in_loop nonzero_cx in and_ a zf
        else and_ in_loop nonzero_cx
    | x86_repeat_repne =>
        let* notZf := not_flag REG_ZF in let* a := and_ in_loop nonzero_cx in and_ a notZf
    end in
  let* ip := readRegister (REG_anyIP d) in
  let* va := number_ (nBits (REG_anyIP d)) insn_va in
  let* new_ip := ite again va ip in
  writeRegister (REG_anyIP d) new_ip.

(** ** Addition *)

(** Both operands at the greater width. *)
Definition same_width (a b : V) : M St (V * V) :=
  if nBits_ b <? nBits_ a then let* b := signExtend b (nBits_ a) in ret (a, b)
  else if nBits_ a <? nBits_ b then let* a := signExtend a (nBits_ b) in ret (a, b)
  else ret (a, b).

(** The carries of the two highest bits. *)
Definition top_carries (carries : V) (nbits : Z) : M St (V * V) :=
  let* sign := extract carries (usub nbits 1) nbits in
  let* ofbit := extract carries (usub nbits 2) (usub nbits 1) in ret (sign, ofbit).

Definition doAddOperation (a b : V) (invertCarries : bool) (carryIn : V) : M St V :=
  let* ' (a, b) := same_width a b in
  assert* nBits_ carryIn =? 1 else AssertFail in
  let nbits := nBits_ a in
  let* c := invertMaybe carryIn invertCarries in
  let* ' (result, carries) := addWithCarries a b c in
  let* _ := setFlagsForResult result in
  let* ' (sign, ofbit) := top_carries carries nbits in
  let* af := extract carries 3 4 in
  let* af := invertMaybe af invertCarries in
  let* _ := writeRegister REG_AF af in
  let* cf := invertMaybe sign invertCarries in
  let* _ := writeRegister REG_CF cf in
  let* newof := xor_ sign ofbit in
  let* _ := writeRegister REG_OF newof in
  ret result.

(** The same, with flags that change where a condition holds. *)
Definition write_if (cond : V) (reg : RegisterDescriptor) (value : M St V) : M St unit :=
  let* old := readRegister reg in let* v := value in let* r := ite cond v old in writeRegister reg r.

Definition doAddOperation_if (a b : V) (invertCarries : bool) (carryIn cond : V) : M St V :=
  let* ' (a, b) := same_width a b in
  assert* nBits_ carryIn =? 1 else AssertFail in
  assert* nBits_ cond =? 1 else AssertFail in
  let nbits := nBits_ a in
  let* c := invertMaybe carryIn invertCarries in
  let* ' (result, carries) := addWithCarries a b c in
  let* _ := setFlagsForResult_if result cond in
  let* ' (sign, ofbit) := top_carries carries nbits in
  let* _ := write_if cond REG_AF (let* af := extract carries 3 4 in invertMaybe af invertCarries) in
  let* _ := write_if cond REG_CF (invertMaybe sign invertCarries) in
  let* _ := write_if cond REG_OF (xor_ sign ofbit) in
  ret result.

Definition doIncOperation (a : V) (dec setCarry : bool) : M St V :=
  let nbits := nBits_ a in
  let* no := boolean_ false in
  let* one := number_ nbits (if dec then minus_one else 1) in
  let* ' (result, carries) := addWithCarries a one no in
  let* _ := setFlagsForResult result in
  let* ' (sign, ofbit) := top_carries carries nbits in
  let* af := extract carries 3 4 in
  let* af := invertMaybe af dec in
  let* _ := writeRegister REG_AF af in
  let* newof := xor_ sign ofbit in
  let* _ := writeRegister REG_OF newof in
  let* _ := if setCarry then let* cf := invertMaybe sign dec in writeRegister REG_CF cf else ret tt in
  ret result.

(** ** Rotations *)

Definition doRotateOperation (kind : X86InstructionKind) (operand total_rotate : V) (rotateSignificantBits : Z) : M St V :=
  assert* match kind with x86_rcl | x86_rcr | x86_rol | x86_ror => true | _ => false end else AssertFail in
  assert* (nBits_ total_rotate =? 8) && (rotateSignificantBits <? 8) else AssertFail in
  let n := nBits_ operand in
  let* maskedRotateCount := extract total_rotate 0 rotateSignificantBits in
  let* maskedRotateCount :=
    if (n =? 9) || (n =? 17)
    then let* m := number_ (nBits_ maskedRotateCount) n in unsignedModulo maskedRotateCount m else ret maskedRotateCount in
  let* isZeroRotateCount := equalToZero maskedRotateCount in
  let* mask := number_ rotateSignificantBits (genMask rotateSignificantBits) in
  let* less := add maskedRotateCount mask in
  let* isOneBitRotate := equalToZero less in
  let* result :=
    match kind with
    | x86_rcl | x86_rol => rotateLeft operand maskedRotateCount
    | _ => rotateRight operand maskedRotateCount
    end in
  assert* nBits_ result =? n else AssertFail in
  let top v := extract v (usub (nBits_ v) 1) (nBits_ v) in
  let next v := extract v (usub (nBits_ v) 2) (usub (nBits_ v) 1) in
  let* new_cf := match kind with x86_rol => extract result 0 1 | _ => top result end in
  let* new_of :=
    match kind with
    | x86_rcl | x86_ror => let* v1 := next result in let* v0 := top result in xor_ v0 v1
    | x86_rcr => let* v1 := next operand in let* v0 := top operand in xor_ v0 v1
    | _ => let* v0 := top result in xor_ new_cf v0
    end in
  let* _ := writeRegister REG_CF new_cf in
  let* unspec := unspecified_ 1 in
  let* maybeOf := ite isOneBitRotate new_of unspec in
  let* oldof := peekRegister REG_OF in
  let* newOf := ite isZeroRotateCount oldof maybeOf in
  let* _ := writeRegister REG_OF newOf in
  ret result.

(** ** Shifts *)

(** What is shifted into the operand of a double shift, unless the count is zero. *)
Definition shifted_in (shift : V -> V -> M St V) (source_bits maskedShiftCount isZeroShiftCount : V) (n : Z) : M St V :=
  let* back := negate maskedShiftCount in
  let* v1 := shift source_bits back in
  let* zero := number_ n 0 in
  ite isZeroShiftCount zero v1.

Definition double_shift (towards back : V -> V -> M St V) (operand source_bits maskedShiftCount isZeroShiftCount isLargeShift : V) : M St V :=
  let n := nBits_ operand in
  let* v2 := shifted_in back source_bits maskedShiftCount isZeroShiftCount n in
  let* v := towards operand maskedShiftCount in
  let* v3 := or_ v v2 in
  let* unspec := unspecified_ n in
  ite isLargeShift unspec v3.

(** The last bit shifted off the operand: bit [count - 1], or that counted from the top. *)
Definition last_shifted (kind : X86InstructionKind) (operand maskedShiftCount mask : V) (shiftSignificantBits : Z) : M St V :=
  let* bitPosition :=
    match kind with
    | x86_shr | x86_sar | x86_shrd => add maskedShiftCount mask
    | _ =>
      let* one := number_ shiftSignificantBits 1 in
      let* inverted := invert maskedShiftCount in
      let* term1 := add inverted one in
      let* term0 := number_ shiftSignificantBits (Z.land (nBits_ operand) (genMask shiftSignificantBits)) in
      add term0 term1
    end in
  let* v := shiftRight operand bitPosition in
  extract v 0 1.

(** A flag that keeps its value when nothing is shifted, and is not specified otherwise. *)
Definition flag_or_unspecified (reg : RegisterDescriptor) (isZeroShiftCount : V) : M St V :=
  let* unspec := unspecified_ 1 in
  let* old := peekRegister reg in
  ite isZeroShiftCount old unspec.

Definition doShiftOperation (kind : X86InstructionKind) (operand source_bits total_shift : V) (shiftSignificantBits : Z) : M St V :=
  assert* match kind with x86_shr | x86_sar | x86_shl | x86_shld | x86_shrd => true | _ => false end else AssertFail in
  assert* nBits_ operand =? nBits_ source_bits else AssertFail in
  assert* (nBits_ total_shift =? 8) && (shiftSignificantBits <? 8) else AssertFail in
  let n := nBits_ operand in
  let* maskedShiftCount := extract total_shift 0 shiftSignificantBits in
  let* isZeroShiftCount := equalToZero maskedShiftCount in
  let* extraShiftCount := extract total_shift shiftSignificantBits 8 in
  let* noExtra := equalToZero extraShiftCount in
  let* isLargeShift := invert noExtra in
  let* mask := number_ shiftSignificantBits (genMask shiftSignificantBits) in
  let* less := add maskedShiftCount mask in
  let* isOneBitShift := equalToZero less in
  let* result :=
    match kind with
    | x86_shr => shiftRight operand maskedShiftCount
    | x86_sar => shiftRightArithmetic operand maskedShiftCount
    | x86_shl => shiftLeft operand maskedShiftCount
    | x86_shrd => double_shift shiftRight shiftLeft operand source_bits maskedShiftCount isZeroShiftCount isLargeShift
    | _ => double_shift shiftLeft shiftRight operand source_bits maskedShiftCount isZeroShiftCount isLargeShift
    end in
  assert* n =? nBits_ result else AssertFail in
  let* originalSign := extract operand (usub n 1) n in
  let* resultSign := extract result (usub n 1) n in
  let* af := flag_or_unspecified REG_AF isZeroShiftCount in
  let* _ := writeRegister REG_AF af in
  let* shifted_off := last_shifted kind operand maskedShiftCount mask shiftSignificantBits in
  let* large := match kind with x86_sar => ret originalSign | _ => unspecified_ 1 end in
  let* newCFite := ite isLargeShift large shifted_off in
  let* cf := peekRegister REG_CF in
  let* newCF := ite isZeroShiftCount cf newCFite in
  let* _ := writeRegister REG_CF newCF in
  let* v1 := flag_or_unspecified REG_OF isZeroShiftCount in
  let* one_of :=
    match kind with
    | x86_shr => ret originalSign
    | x86_sar => boolean_ false
    | _ => xor_ originalSign resultSign
    end in
  let* newOF := ite isOneBitShift one_of v1 in
  let* _ := writeRegister REG_OF newOF in
  let* shifted := invert isZeroShiftCount in
  let* _ := setFlagsForResult_if result shifted in
  ret result.

(** ** The stack of floating point registers *)

(** The top of the stack, which has to be concrete, and the register of a position. *)
Definition top_of_stack : M St V :=
  let* top := readRegister REG_FPSTATUS_TOP in
  assert* isConcrete top else Throw in ret top.
Definition stack_register (top : V) : M St RegisterDescriptor :=
  let* k := toUnsigned_get top in
  lift (mkDescriptor (majorNumber REG_ST0) (u64 (minorNumber REG_ST0 + k) mod 8) (offset REG_ST0) (nBits REG_ST0)).

Definition pushFloatingPoint (value : V) : M St unit :=
  let* topOfStack := top_of_stack in
  let* less := number_ (nBits_ topOfStack) minus_one in
  let* newTopOfStack := add topOfStack less in
  assert* isConcrete newTopOfStack else AssertFail in
  let* reg := stack_register newTopOfStack in
  let* _ := writeRegister reg value in
  writeRegister REG_FPSTATUS_TOP newTopOfStack.

(** The position is not used. *)
Definition readFloatingPointStack (position : Z) : M St V :=
  let* topOfStack := top_of_stack in
  let* reg := stack_register topOfStack in
  readRegister reg.

Definition popFloatingPoint : M St unit :=
  let* topOfStack := top_of_stack in
  let* one := number_ (nBits_ topOfStack) 1 in
  let* newTopOfStack := add topOfStack one in
  assert* isConcrete newTopOfStack else AssertFail in
  writeRegister REG_FPSTATUS_TOP newTopOfStack.

(** ** Addresses *)

Definition fixMemoryAddress (addr : V) : M St V :=
  let addrWidth := addressWidth (x86_base d) in
  if addrWidth =? 0 then ret addr
  else if nBits_ addr <? addrWidth then signExtend addr addrWidth
  else if addrWidth <? nBits_ addr then unsignedExtend addr addrWidth
  else ret addr.

(** ** Saturation *)

Definition saturateSignedToUnsigned (src : V) (n : Z) : M St V :=
  assert* n <=? nBits_ src else AssertFail in
  if nBits_ src =? n then ret src
  else
    let* signBit := extract src (usub (nBits_ src) 1) (nBits_ src) in
    let* high := extract src n (nBits_ src) in
    let* noOverflow := equalToZero high in
    let* v1 := signExtend signBit n in
    let* low := extract src 0 n in
    ite noOverflow low v1.

Definition saturateSignedToSigned (src : V) (n : Z) : M St V :=
  assert* n <=? nBits_ src else AssertFail in
  if nBits_ src =? n then ret src
  else
    let* signBit := extract src (usub (nBits_ src) 1) (nBits_ src) in
    let* high := extract src (usub n 1) (nBits_ src) in
    let* zero := number_ (nBits_ high) 0 in
    let* allSet := invert zero in
    let* highZerop := isEqual high allSet in
    let* z := equalToZero high in
    let* noOverflow := or_ z highZerop in
    let* yes := boolean_ true in
    let* low := number_ (usub n 1) 0 in
    let* minResult := concat_ low yes in
    let* maxResult := invert minResult in
    let* minOrMax := ite signBit minResult maxResult in
    let* v := extract src 0 n in
    ite noOverflow v minOrMax.

Definition saturateUnsignedToUnsigned (src : V) (n : Z) : M St V :=
  assert* n <=? nBits_ src else AssertFail in
  if nBits_ src =? n then ret src
  else
    let* high := extract src n (nBits_ src) in
    let* noOverflow := equalToZero high in
    let* zero := number_ n 0 in
    let* allBits := invert zero in
    let* v := extract src 0 n in
    ite noOverflow v allBits.
End Helpers.
