(* ===== verification/RiscX86Insn.v ===== *)
(** Instructions of x86
    ([src/Rose/BinaryAnalysis/InstructionSemantics/DispatcherX86.C], the structures
    [IP_*] of the general purpose instructions, of strings and of decimal numbers).

    Each is a program over operands; a lock prefix where none is allowed raises an
    exception.  Those on vectors are in [RiscX86Vector], and those of the
    floating point unit and of the system in [RiscX86Misc]. *)
From S2P Require Import Prelude BitVector RegDescriptor RiscOps RiscConcrete RiscRegisters RiscMachine RiscX86.
Open Scope Z_scope.

(** [SgAsmX86Instruction]; a segment override is a number. *)
Record X86Insn := mkInsn {
  lockPrefix : bool;
  kind : X86InstructionKind;
  operandSize : X86InstructionSize;
  addressSize : X86InstructionSize;
  segmentOverride : Z;
  insn_address : Z;
  insn_size : Z;
  operands : list AsmExpr
}.

Definition x86_exception_int : Z := 0.
Definition x86_exception_de : Z := 3.
Definition x86_exception_ud : Z := 8.
Definition x86_segreg_es : Z := 0.
Definition x86_segreg_cs : Z := 1.
Definition x86_segreg_ds : Z := 3.
Definition x86_segreg_none : Z := 16.
Definition REG_ES := x86_register x86_regclass_segment x86_segreg_es 0 16.
Definition x86_gpr_si : Z := 6.
Definition x86_gpr_di : Z := 7.

(** The registers of a width chosen by the size of addresses. *)
Definition by_address_size {A} (insn : X86Insn) (k : Z -> outcome A) : outcome A :=
  match addressSize insn with
  | x86_insnsize_16 => k 16 | x86_insnsize_32 => k 32 | x86_insnsize_64 => k 64 | x86_insnsize_none => Fail AssertFail
  end.
Definition register_for (insn : X86Insn) (minr : Z) : outcome RegisterDescriptor := by_address_size insn (fun n => Ret (gpr minr 0 n)).

Definition isMemory (e : AsmExpr) : bool := match e with MemoryReference _ _ _ => true | _ => false end.
Definition isIntegerValue (e : AsmExpr) : bool := match e with IntegerExpr _ _ => true | _ => false end.
Definition isDirectRegister (e : AsmExpr) : option RegisterDescriptor := match e with DirectRegister _ r => Some r | _ => None end.
Definition registerOf (e : AsmExpr) : option RegisterDescriptor :=
  match e with DirectRegister _ r | IndirectRegister _ r _ _ _ _ => Some r | _ => None end.

Section Instructions.
Context {V St : Type} {Ops : RiscOperators V St} {Regs : HasRegisters V St} {Mem : MemoryOperators V St}.
Variable d : DispatcherX86.
#[local] Notation readReg reg := (x86_readRegister reg READ_REGISTER).
#[local] Notation writeReg := (x86_writeRegister d).
#[local] Notation read e := (x86_read d e 0).
#[local] Notation write := (x86_write d).
#[local] Notation invalid := (interrupt x86_exception_ud 0).

(** ** Common parts *)

(** [assert_args] *)
Definition args0 (insn : X86Insn) (k : M St unit) : M St unit := match operands insn with [] => k | _ => fail Throw end.
Definition args1 (insn : X86Insn) (k : AsmExpr -> M St unit) : M St unit := match operands insn with [a] => k a | _ => fail Throw end.
Definition args2 (insn : X86Insn) (k : AsmExpr -> AsmExpr -> M St unit) : M St unit :=
  match operands insn with [a; b] => k a b | _ => fail Throw end.
Definition args3 (insn : X86Insn) (k : AsmExpr -> AsmExpr -> AsmExpr -> M St unit) : M St unit :=
  match operands insn with [a; b; c] => k a b c | _ => fail Throw end.

(** A lock prefix is invalid, or only with an operand in memory. *)
Definition unlocked (insn : X86Insn) (body : M St unit) : M St unit := if lockPrefix insn then invalid else body.
Definition lockable (insn : X86Insn) (a : AsmExpr) (body : M St unit) : M St unit :=
  if lockPrefix insn && negb (isMemory a) then invalid else body.

Definition write_unspecified (regs : list RegisterDescriptor) : M St unit :=
  fold_right (fun reg m => let* u := unspecified_ 1 in let* _ := writeReg reg u in m) (ret tt) regs.
Definition write_flag (reg : RegisterDescriptor) (b : bool) : M St unit := let* v := boolean_ b in writeReg reg v.

(** The second operand at the width of the first, if it is narrower. *)
Definition widened (a b : V) : M St V := if nBits_ b <? nBits_ a then signExtend b (nBits_ a) else ret b.

(** The part of A or D that has a width. *)
Definition resized (reg : RegisterDescriptor) (n : Z) : M St RegisterDescriptor := lift (RegDescriptor.set_nBits n reg).

(** ** Addition and subtraction *)

Definition IP_adc (insn : X86Insn) : M St unit :=
  args2 insn (fun a0 a1 => lockable insn a0 (
    let* cf := readReg REG_CF in
    let* arg1 := read a1 in
    let* arg0 := read a0 in
    let* result := doAddOperation d arg0 arg1 false cf in
    write a0 result)).

Definition IP_add (insn : X86Insn) : M St unit :=
  args2 insn (fun a0 a1 => lockable insn a0 (
    let* no := boolean_ false in
    let* arg1 := read a1 in
    let* arg0 := read a0 in
    let* result := doAddOperation d arg0 arg1 false no in
    write a0 result)).

(** The operands of a difference, the second inverted. *)
Definition minus_operands (a0 a1 : AsmExpr) : M St (V * V) :=
  let* a := read a0 in
  let* b := read a1 in
  let* b := widened a b in
  assert* nBits_ a =? nBits_ b else AssertFail in ret (a, b).

Definition IP_sub (insn : X86Insn) : M St unit :=
  args2 insn (fun a0 a1 => lockable insn a0 (
    let* ' (minuend, subtrahend) := minus_operands a0 a1 in
    let* no := boolean_ false in
    let* nb := invert subtrahend in
    let* difference := doAddOperation d minuend nb true no in
    write a0 difference)).

Definition IP_sbb (insn : X86Insn) : M St unit :=
  args2 insn (fun a0 a1 => lockable insn a0 (
    let* ' (minuend, subtrahend) := minus_operands a0 a1 in
    let* cf := readReg REG_CF in
    let* nb := invert subtrahend in
    let* difference := doAddOperation d minuend nb true cf in
    write a0 difference)).

Definition IP_cmp (insn : X86Insn) : M St unit :=
  args2 insn (fun a0 a1 => unlocked insn (
    let* ' (a, b) := minus_operands a0 a1 in
    let* no := boolean_ false in
    let* nb := invert b in
    let* _ := doAddOperation d a nb true no in ret tt)).

Definition IP_neg (insn : X86Insn) : M St unit :=
  args1 insn (fun a0 => lockable insn a0 (
    let* srcVal := read a0 in
    let* no := boolean_ false in
    let* invertedSrcVal := invert srcVal in
    let* zero := number_ (nBits_ srcVal) 0 in
    let* result := doAddOperation d zero invertedSrcVal true no in
    write a0 result)).

Definition IP_inc (insn : X86Insn) : M St unit :=
  args1 insn (fun a0 => lockable insn a0 (
    let* a := read a0 in let* result := doIncOperation d a false false in write a0 result)).
Definition IP_dec (insn : X86Insn) : M St unit :=
  args1 insn (fun a0 => lockable insn a0 (
    let* a := read a0 in let* result := doIncOperation d a true false in write a0 result)).

(** A lock prefix is allowed if either operand is in memory. *)
Definition IP_xadd (insn : X86Insn) : M St unit :=
  args2 insn (fun a0 a1 =>
    if lockPrefix insn && negb (isMemory a0) && negb (isMemory a1) then invalid
    else
      let* no := boolean_ false in
      let* arg1 := read a1 in
      let* arg0 := read a0 in
      let* sum := doAddOperation d arg0 arg1 false no in
      let* old := read a0 in
      let* _ := write a1 old in
      write a0 sum).

Definition IP_xchg (insn : X86Insn) : M St unit :=
  args2 insn (fun a0 a1 =>
    if lockPrefix insn && negb (isMemory a0) && negb (isMemory a1) then invalid
    else
      let* temp := read a0 in
      let* v := read a1 in
      let* _ := write a0 v in
      write a1 temp).

Definition IP_cmpxchg (insn : X86Insn) : M St unit :=
  args2 insn (fun a0 a1 => lockable insn a0 (
    let nbits := asm_width a0 in
    assert* asm_width a1 =? nbits else AssertFail in
    let* op0 := read a0 in
    let* A := resized REG_AX nbits in
    let* oldA := readReg A in
    let* no := boolean_ false in
    let* nb := invert op0 in
    let* _ := doAddOperation d oldA nb true no in
    let* zf := readReg REG_ZF in
    let* arg1 := read a1 in
    let* v := ite zf arg1 op0 in
    let* _ := write a0 v in
    let* newA := ite zf oldA op0 in
    writeReg A newA)).

(** [CMPXCHG8B] and [CMPXCHG16B]. *)
Definition IP_cmpxchg2 (insn : X86Insn) : M St unit :=
  args1 insn (fun a0 =>
    if negb (isMemory a0) then invalid
    else
      let* a := read a0 in
      let joined lo hi := let* h := readReg hi in let* l := readReg lo in concat_ l h in
      let* ' (b, c) :=
        if nBits_ a =? 64 then let* b := joined REG_EAX REG_EDX in let* c := joined REG_EBX REG_ECX in ret (b, c)
        else if nBits_ a =? 128 then let* b := joined REG_RAX REG_RDX in let* c := joined REG_RBX REG_RCX in ret (b, c)
        else fail AssertFail in
      let* eq := isEqual a b in
      let* _ := writeReg REG_ZF eq in
      let* v := ite eq c a in
      write a0 v).

(** ** Bitwise operations *)

(** The flags of a bitwise operation. *)
Definition write_logic_flags : M St unit :=
  let* _ := write_flag REG_OF false in
  let* _ := write_unspecified [REG_AF] in
  write_flag REG_CF false.

Definition IP_and (insn : X86Insn) : M St unit :=
  args2 insn (fun a0 a1 => lockable insn a0 (
    let* a := read a0 in
    let* b := read a1 in
    let* b := widened a b in
    let* result := and_ a b in
    let* _ := setFlagsForResult d result in
    let* _ := write a0 result in
    write_logic_flags)).

Definition IP_or (insn : X86Insn) : M St unit :=
  args2 insn (fun a0 a1 => lockable insn a0 (
    let* ' (a, b) := minus_operands a0 a1 in
    let* result := or_ a b in
    let* _ := setFlagsForResult d result in
    let* _ := write a0 result in
    write_logic_flags)).

Definition IP_test (insn : X86Insn) : M St unit :=
  args2 insn (fun a0 a1 => unlocked insn (
    let* ' (a, b) := minus_operands a0 a1 in
    let* result := and_ a b in
    let* _ := setFlagsForResult d result in
    write_logic_flags)).

(** A register with itself gives zero, whatever it holds. *)
Definition same_register (a0 a1 : AsmExpr) : bool :=
  match isDirectRegister a0, isDirectRegister a1 with Some r, Some q => descriptor_eqb r q | _, _ => false end.

Definition IP_xor (insn : X86Insn) : M St unit :=
  args2 insn (fun a0 a1 => lockable insn a0 (
    let* result :=
      if same_register a0 a1 then number_ (asm_width a0) 0
      else let* ' (a, b) := minus_operands a0 a1 in xor_ a b in
    let* _ := setFlagsForResult d result in
    let* _ := write a0 result in
    write_logic_flags)).

Definition IP_not (insn : X86Insn) : M St unit :=
  args1 insn (fun a0 => lockable insn a0 (let* v := read a0 in let* r := invert v in write a0 r)).

Definition IP_bitscan (insn : X86Insn) : M St unit :=
  args2 insn (fun a0 a1 => unlocked insn (
    let* _ := write_unspecified [REG_OF; REG_SF; REG_AF; REG_PF; REG_CF] in
    let nbits := asm_width a0 in
    let* src := x86_read d a1 nbits in
    let* isZero := equalToZero src in
    let* _ := writeReg REG_ZF isZero in
    let* bitno :=
      match kind insn with
      | x86_bsf => leastSignificantSetBit src
      | x86_bsr => mostSignificantSetBit src
      | _ => fail AssertFail
      end in
    let* unspec := unspecified_ nbits in
    let* result := ite isZero unspec bitno in
    write a0 result)).

(** A bit of [bits] tested, and set, cleared or complemented; what is written back. *)
Definition changed_bit (k : X86InstructionKind) (bits shiftAmount : V) : M St (option V) :=
  let one := let* o := number_ (nBits_ bits) 1 in shiftLeft o shiftAmount in
  match k with
  | x86_bt => ret None
  | x86_btr => let* m := one in let* nm := invert m in let* r := and_ bits nm in ret (Some r)
  | x86_bts => let* m := one in let* r := or_ bits m in ret (Some r)
  | x86_btc => let* m := one in let* r := xor_ bits m in ret (Some r)
  | _ => fail AssertFail
  end.
Definition write_bit_flags (bit : V) : M St unit :=
  let* _ := writeReg REG_CF bit in
  write_unspecified [REG_OF; REG_SF; REG_ZF; REG_AF; REG_PF].

(** The bit of a string in memory; the offset is signed. *)
Definition bittest_memory (k : X86InstructionKind) (a0 a1 : AsmExpr) (segment : option RegisterDescriptor) : M St unit :=
  let addrSize := nBits (REG_anyIP d) in
  let* ea := effectiveAddress (x86_base d) a0 0 in
  let* bitBase := unsignedExtend ea addrSize in
  let* off := read a1 in
  let* bitOffset := signExtend off addrSize in
  let* three := number_ 8 3 in
  let* byteOffset := shiftRightArithmetic bitOffset three in
  let* sum := add bitBase byteOffset in
  let* addr := fixMemoryAddress d sum in
  let* yes := boolean_ true in
  let* undefA := undefined_ 8 in
  let* fixedAddr := fixMemoryAddress d addr in
  let* byte := readMemory (segmentRegister segment) fixedAddr undefA yes in
  let* offsetA := extract bitOffset 0 3 in
  let* neg := negate bitOffset in
  let* offsetB := extract neg 0 3 in
  let* sign := extract bitOffset (usub (nBits_ bitOffset) 1) (nBits_ bitOffset) in
  let* shiftAmount := ite sign offsetB offsetA in
  let* shifted := shiftRight byte shiftAmount in
  let* bit := extract shifted 0 1 in
  let* r := changed_bit k byte shiftAmount in
  let* _ := match r with Some byte => writeMemory (segmentRegister segment) addr byte yes | None => ret tt end in
  write_bit_flags bit.

Definition bittest_value (k : X86InstructionKind) (a0 a1 : AsmExpr) : M St unit :=
  let* bits := read a0 in
  let* bitOffset := read a1 in
  let* log2modulo :=
    if nBits_ bits =? 16 then ret 4 else if nBits_ bits =? 32 then ret 5 else if nBits_ bits =? 64 then ret 6 else fail AssertFail in
  assert* log2modulo <=? nBits_ bitOffset else AssertFail in
  let* shiftAmount := extract bitOffset 0 log2modulo in
  let* shifted := shiftRight bits shiftAmount in
  let* bit := extract shifted 0 1 in
  let* r := changed_bit k bits shiftAmount in
  let* _ := match r with Some bits => write a0 bits | None => ret tt end in
  write_bit_flags bit.

Definition IP_bittest (insn : X86Insn) : M St unit :=
  args2 insn (fun a0 a1 =>
    if lockPrefix insn && (match kind insn with x86_bt => true | _ => false end || negb (isMemory a0)) then invalid
    else match a0 with
         | MemoryReference _ _ segment => bittest_memory (kind insn) a0 a1 segment
         | _ => bittest_value (kind insn) a0 a1
         end).

Fixpoint bswap_loop (n : nat) (op0 : V) (startbit : Z) (result : V) : M St V :=
  match n with
  | O => ret result
  | S n => let* byte := extract op0 startbit (startbit + 8) in let* r := concat_ byte result in bswap_loop n op0 (startbit + 8) r
  end.
Definition IP_bswap (insn : X86Insn) : M St unit :=
  args1 insn (fun a0 =>
    let nbits := asm_width a0 in
    unlocked insn (
      if nbits =? 16 then let* u := unspecified_ 16 in write a0 u
      else
        let* op0 := x86_read d a0 nbits in
        let* lo := extract op0 0 8 in
        let* result := bswap_loop (Z.to_nat ((nbits - 1) / 8)) op0 8 lo in
        write a0 result)).

Fixpoint popcnt_loop (n : nat) (src : V) (i : Z) (total : V) : M St V :=
  match n with
  | O => ret total
  | S n =>
      let* srcBit := extract src i (i + 1) in
      let* wide := unsignedExtend srcBit (nBits_ total) in
      let* total := add total wide in popcnt_loop n src (i + 1) total
  end.
Definition IP_popcnt (insn : X86Insn) : M St unit :=
  args2 insn (fun a0 a1 => unlocked insn (
    let* src := read a1 in
    let* zero := number_ (asm_width a0) 0 in
    let* total := popcnt_loop (Z.to_nat (nBits_ src)) src 0 zero in
    write a0 total)).

(** Rotations; those through the carry flag take it for the highest bit. *)
Definition IP_rotate (insn : X86Insn) : M St unit :=
  args2 insn (fun a0 a1 => unlocked insn (
    let with_cf := match kind insn with x86_rcl | x86_rcr => true | _ => false end in
    let nbits := asm_width a0 in
    let rotateWidth := if (32 <? nbits) || ((nbits =? 32) && with_cf) then 6 else 5 in
    let* operand := read a0 in
    let* operand := if with_cf then let* cf := readReg REG_CF in concat_ operand cf else ret operand in
    let* rotateCount := x86_read d a1 8 in
    let* result := doRotateOperation d (kind insn) operand rotateCount rotateWidth in
    let* result := if with_cf then extract result 0 nbits else ret result in
    write a0 result)).

Definition IP_shift_1 (insn : X86Insn) : M St unit :=
  args2 insn (fun a0 a1 => unlocked insn (
    let nbits := asm_width a0 in
    let shiftSignificantBits := if nbits <=? 32 then 5 else 6 in
    let* arg1 := x86_read d a1 8 in
    let* unspec := unspecified_ nbits in
    let* arg0 := read a0 in
    let* result := doShiftOperation d (kind insn) arg0 unspec arg1 shiftSignificantBits in
    write a0 result)).

Definition IP_shift_2 (insn : X86Insn) : M St unit :=
  args3 insn (fun a0 a1 a2 => unlocked insn (
    let shiftSignificantBits := if asm_width a0 <=? 32 then 5 else 6 in
    let* arg2 := x86_read d a2 8 in
    let* arg1 := read a1 in
    let* arg0 := read a0 in
    let* result := doShiftOperation d (kind insn) arg0 arg1 arg2 shiftSignificantBits in
    write a0 result)).

(** ** Multiplication and division *)

Definition IP_mul (insn : X86Insn) : M St unit :=
  args1 insn (fun a0 => unlocked insn (
    let* factor1 := read a0 in
    let n := nBits_ factor1 in
    let* factor2 :=
      if n =? 8 then readReg REG_AL else if n =? 16 then readReg REG_AX else if n =? 32 then readReg REG_EAX
      else if n =? 64 then readReg REG_RAX else fail AssertFail in
    assert* n =? nBits_ factor2 else AssertFail in
    let* product := unsignedMultiply factor1 factor2 in
    let halves lo hi :=
      let* l := extract product 0 n in let* _ := writeReg lo l in let* h := extract product n (2 * n) in writeReg hi h in
    let* _ :=
      if n =? 8 then writeReg REG_AX product else if n =? 16 then halves REG_AX REG_DX else if n =? 32 then halves REG_EAX REG_EDX
      else halves REG_RAX REG_RDX in
    let* high := extract product n (2 * n) in
    let* z := equalToZero high in
    let* carry := invert z in
    let* _ := writeReg REG_CF carry in
    let* _ := writeReg REG_OF carry in
    write_unspecified [REG_SF; REG_ZF; REG_AF; REG_PF])).

Definition imul_factors (args : list AsmExpr) (arg0Width : Z) : M St (V * V) :=
  match args with
  | [a0] =>
      let* reg0 := if arg0Width =? 8 then ret REG_AL else resized REG_AX arg0Width in
      let* factor1 := readReg reg0 in
      let* factor2 := read a0 in ret (factor1, factor2)
  | [a0; a1] =>
      assert* 8 <? arg0Width else AssertFail in
      assert* asm_width a1 <=? arg0Width else AssertFail in
      let* factor1 := read a0 in
      let* v := read a1 in
      let* factor2 := signExtend v arg0Width in ret (factor1, factor2)
  | [_; a1; a2] =>
      assert* 8 <? arg0Width else AssertFail in
      assert* asm_width a1 =? arg0Width else AssertFail in
      assert* asm_width a2 <=? arg0Width else AssertFail in
      let* factor1 := read a1 in
      let* v := read a2 in
      let* factor2 := signExtend v arg0Width in ret (factor1, factor2)
  | _ => fail AssertFail
  end.

(** Whether the high half of a product is not the sign of the low half. *)
Definition imul_carry (product : V) : M St V :=
  let w := nBits_ product in
  let half := w / 2 in
  let* lh_signbit := extract product (half - 1) half in
  let* hh_signbit := extract product (usub w 1) w in
  let* hh := extract product half w in
  let* nhh := invert hh in
  let* z1 := equalToZero nhh in
  let* z0 := equalToZero hh in
  let* hh_allsame := or_ z0 z1 in
  let* x := xor_ lh_signbit hh_signbit in
  let* signsame := equalToZero x in
  let* both := and_ hh_allsame signsame in
  invert both.

Definition IP_imul (insn : X86Insn) : M St unit :=
  match operands insn with
  | [] => fail AssertFail
  | a0 :: rest => unlocked insn (
      let n := asm_width a0 in
      let* ' (factor1, factor2) := imul_factors (a0 :: rest) n in
      assert* nBits_ factor1 =? nBits_ factor2 else AssertFail in
      let* product := signedMultiply factor1 factor2 in
      let* _ :=
        match rest with
        | [] =>
            if n =? 8 then writeReg REG_AX product
            else
              let* aReg := resized REG_AX n in
              let* dReg := resized REG_DX n in
              let* l := extract product 0 n in
              let* _ := writeReg aReg l in
              let* h := extract product n (2 * n) in writeReg dReg h
        | _ => let* l := extract product 0 n in write a0 l
        end in
      assert* nBits_ product mod 2 =? 0 else AssertFail in
      let* carry := imul_carry product in
      let* _ := writeReg REG_CF carry in
      let* _ := writeReg REG_OF carry in
      write_unspecified [REG_SF; REG_ZF; REG_AF; REG_PF])
  end.

Definition IP_divide (insn : X86Insn) : M St unit :=
  args1 insn (fun a0 => unlocked insn (
    let nbits := asm_width a0 in
    let n := if nbits =? 8 then 16 else nbits in
    let* regA := resized REG_AX n in
    let* regD := resized REG_DX n in
    let* dividend :=
      if nbits =? 8 then readReg regA
      else let* regDVal := readReg regD in let* regAVal := readReg regA in concat_ regAVal regDVal in
    let* divisor := read a0 in
    let* ' (divResult, modResult) :=
      match kind insn with
      | x86_idiv => let* q := signedDivide dividend divisor in let* r := signedModulo dividend divisor in ret (q, r)
      | x86_div => let* q := unsignedDivide dividend divisor in let* r := unsignedModulo dividend divisor in ret (q, r)
      | _ => fail AssertFail
      end in
    let* _ :=
      if nbits =? 8 then let* q := extract divResult 0 8 in let* v := concat_ q modResult in writeReg regA v
      else let* q := extract divResult 0 nbits in let* _ := writeReg regA q in writeReg regD modResult in
    write_unspecified [REG_SF; REG_ZF; REG_AF; REG_PF; REG_CF; REG_OF])).

(** ** Extensions and copies *)

Definition extend_into (insn : X86Insn) (src dst : RegisterDescriptor) (n : Z) : M St unit :=
  args0 insn (unlocked insn (let* v := readReg src in let* x := signExtend v n in writeReg dst x)).
Definition extend_high (insn : X86Insn) (src dst : RegisterDescriptor) (n : Z) : M St unit :=
  args0 insn (unlocked insn (
    let* v := readReg src in let* x := signExtend v (2 * n) in let* h := extract x n (2 * n) in writeReg dst h)).
Definition IP_cbw (insn : X86Insn) := extend_into insn REG_AL REG_AX 16.
Definition IP_cwde (insn : X86Insn) := extend_into insn REG_AX REG_EAX 32.
Definition IP_cdqe (insn : X86Insn) := extend_into insn REG_EAX REG_RAX 64.
Definition IP_cwd (insn : X86Insn) := extend_high insn REG_AX REG_DX 16.
Definition IP_cdq (insn : X86Insn) := extend_high insn REG_EAX REG_EDX 32.
Definition IP_cqo (insn : X86Insn) := extend_high insn REG_RAX REG_RDX 64.

Definition IP_mov (insn : X86Insn) : M St unit :=
  args2 insn (fun a0 a1 => unlocked insn (
    let dstWidth := asm_width a0 in
    let* value := read a1 in
    let* value :=
      if nBits_ value <? dstWidth then
        if (dstWidth =? 64) && isIntegerValue a1 then signExtend value 64 else unsignedExtend value dstWidth
      else ret value in
    write a0 value)).

Definition IP_move_zero_extend (insn : X86Insn) : M St unit :=
  args2 insn (fun a0 a1 => unlocked insn (
    let* value := read a1 in
    let* value := if negb (nBits_ value =? asm_width a0) then unsignedExtend value (asm_width a0) else ret value in
    write a0 value)).

Definition IP_move_sign_extend (insn : X86Insn) : M St unit :=
  args2 insn (fun a0 a1 => unlocked insn (
    let* value := read a1 in
    let* value := if nBits_ value <? asm_width a0 then signExtend value (asm_width a0) else ret value in
    write a0 value)).

Definition IP_cmovcc (insn : X86Insn) : M St unit :=
  args2 insn (fun a0 a1 => unlocked insn (
    let* arg0 := read a0 in
    let* arg1 := read a1 in
    let* cond := flagsCombo (kind insn) in
    let* v := ite cond arg1 arg0 in
    write a0 v)).

Definition IP_setcc (insn : X86Insn) : M St unit :=
  args1 insn (fun a0 => unlocked insn (
    let* cond := flagsCombo (kind insn) in
    let* zero := number_ 7 0 in
    let* v := concat_ cond zero in
    write a0 v)).

Definition IP_lea (insn : X86Insn) : M St unit :=
  args2 insn (fun a0 a1 => unlocked insn (
    let* ea := effectiveAddress (x86_base d) a1 0 in
    let* v := unsignedExtend ea (asm_width a0) in
    write a0 v)).

(** ** Flags and nothing *)

Definition set_flag (insn : X86Insn) (reg : RegisterDescriptor) (b : bool) : M St unit :=
  args0 insn (unlocked insn (write_flag reg b)).
Definition IP_clc (insn : X86Insn) := set_flag insn REG_CF false.
Definition IP_cld (insn : X86Insn) := set_flag insn REG_DF false.
Definition IP_stc (insn : X86Insn) := set_flag insn REG_CF true.
Definition IP_std (insn : X86Insn) := set_flag insn REG_DF true.
Definition IP_cmc (insn : X86Insn) : M St unit :=
  args0 insn (unlocked insn (let* c := readReg REG_CF in let* n := invert c in writeReg REG_CF n)).
Definition IP_nop (insn : X86Insn) : M St unit := unlocked insn (ret tt).
Definition IP_ud2 (insn : X86Insn) : M St unit := invalid.
Definition IP_hlt (insn : X86Insn) : M St unit :=
  args0 insn (unlocked insn (let* v := number_ (nBits (REG_anyIP d)) (insn_address insn) in writeReg (REG_anyIP d) v)).

(** ** Control flow *)

(** Sixteen bits of a target, for operands of that size in 32-bit mode. *)
Definition short_target (insn : X86Insn) (tgt : V) : M St V :=
  match operandSize insn with
  | x86_insnsize_16 =>
      if nBits (REG_anyIP d) =? 32 then
        let* zero16 := number_ 16 0 in let* lo := extract tgt 0 16 in concat_ lo zero16
      else ret tgt
  | _ => ret tgt
  end.

Definition IP_jmp (insn : X86Insn) : M St unit :=
  args1 insn (fun a0 => unlocked insn (
    let* v := read a0 in
    let* v := unsignedExtend v (nBits (REG_anyIP d)) in
    let* tgt := copy_ v 0 in
    let* tgt := short_target insn tgt in
    writeReg (REG_anyIP d) tgt)).

Definition IP_jcc (insn : X86Insn) : M St unit :=
  args1 insn (fun a0 => unlocked insn (
    let* cond := flagsCombo (kind insn) in
    let* ip := readReg (REG_anyIP d) in
    let* v := read a0 in
    let* v := unsignedExtend v (nBits (REG_anyIP d)) in
    let* tgt := ite cond v ip in
    let* tgt := short_target insn tgt in
    writeReg (REG_anyIP d) tgt)).

Definition IP_loop (insn : X86Insn) : M St unit :=
  args1 insn (fun a0 => unlocked insn (
    let* counterReg := lift (register_for insn x86_gpr_dx) in
    let* oldCounter := readReg counterReg in
    let* less := number_ (nBits_ oldCounter) minus_one in
    let* newCounter := add oldCounter less in
    let* _ := writeReg counterReg newCounter in
    let nonzero := let* z := equalToZero newCounter in invert z in
    let* doLoop :=
      match kind insn with
      | x86_loop => nonzero
      | x86_loopnz => let* notZf := not_flag REG_ZF in let* nz := nonzero in and_ nz notZf
      | x86_loopz => let* zf := readReg REG_ZF in let* nz := nonzero in and_ nz zf
      | _ => fail AssertFail
      end in
    let* ip := readReg (REG_anyIP d) in
    let* tgt := x86_read d a0 (nBits (REG_anyIP d)) in
    let* v := ite doLoop tgt ip in
    writeReg (REG_anyIP d) v)).

(** ** The stack *)

Definition IP_push (insn : X86Insn) : M St unit :=
  args1 insn (fun a0 => unlocked insn (
    let* sp := lift (register_for insn x86_gpr_sp) in
    assert* negb (isEmpty sp) else AssertFail in
    let* toPush := read a0 in
    let* toPush :=
      if isIntegerValue a0 && (nBits_ toPush <? nBits sp) then signExtend toPush (nBits sp)
      else
        match registerOf a0 with
        | Some r =>
            if (nBits_ toPush <? nBits sp) && (descriptor_eqb r REG_FS || descriptor_eqb r REG_GS)
            then unsignedExtend toPush (nBits sp) else ret toPush
        | None => ret toPush
        end in
    let stackDelta := nBits_ toPush / 8 in
    let* oldSp := readReg sp in
    let* delta := number_ (nBits sp) (u64 (- stackDelta)) in
    let* newSp := add oldSp delta in
    let* _ := writeReg sp newSp in
    let* addr := fixMemoryAddress d newSp in
    let* yes := boolean_ true in
    writeMemory REG_SS addr toPush yes)).

Definition IP_pop (insn : X86Insn) : M St unit :=
  args1 insn (fun a0 => unlocked insn (
    let* sp := lift (register_for insn x86_gpr_sp) in
    assert* negb (isEmpty sp) else AssertFail in
    let operandWidth := asm_width a0 in
    assert* operandWidth mod 8 =? 0 else AssertFail in
    let* oldSp := readReg sp in
    let* delta := number_ (nBits sp) (operandWidth / 8) in
    let* newSp := add oldSp delta in
    let* _ := writeReg sp newSp in
    let* yes := boolean_ true in
    let* undefA := undefined_ operandWidth in
    let* addr := fixMemoryAddress d oldSp in
    let* v := readMemory REG_SS addr undefA yes in
    write a0 v)).

Definition IP_call (insn : X86Insn) : M St unit :=
  args1 insn (fun a0 => unlocked insn (
    let ipBits := nBits (REG_anyIP d) in
    let* v := read a0 in
    let* targetVa := unsignedExtend v ipBits in
    let nBytesPush := Z.shiftr ipBits 3 in
    let* oldSp := readReg (REG_anySP d) in
    let* delta := number_ (nBits (REG_anySP d)) (u64 (- nBytesPush)) in
    let* newSp := add oldSp delta in
    let* yes := boolean_ true in
    let* ip := readReg (REG_anyIP d) in
    let* addr := fixMemoryAddress d newSp in
    let* _ := writeMemory REG_SS addr ip yes in
    let* _ := writeReg (REG_anySP d) newSp in
    let* tgt := copy_ targetVa 0 in
    writeReg (REG_anyIP d) tgt)).

Definition IP_ret (insn : X86Insn) : M St unit :=
  let body (extra : M St Z) :=
    let* oldSp := readReg (REG_anySP d) in
    let* bytes := extra in
    let* delta := number_ (nBits_ oldSp) (u64 (nBits (REG_anyIP d) / 8 + bytes)) in
    let* newSp := add oldSp delta in
    let* stackVa := fixMemoryAddress d oldSp in
    let* yes := boolean_ true in
    let* dflt := undefined_ (nBits (REG_anyIP d)) in
    let* v := readMemory REG_SS stackVa dflt yes in
    let* retVa := copy_ v 0 in
    let* _ := writeReg (REG_anyIP d) retVa in
    writeReg (REG_anySP d) newSp in
  match operands insn with
  | [] => body (ret 0)
  | [IntegerExpr _ i] => body (lift (get_value i))
  | [_] => let* _ := readReg (REG_anySP d) in fail AssertFail
  | _ => fail Throw
  end.

Definition IP_leave (insn : X86Insn) : M St unit :=
  args0 insn (unlocked insn (
    let nbitsBP := nBits (REG_anyBP d) in
    let* bp := readReg (REG_anyBP d) in
    let* _ := writeReg (REG_anySP d) bp in
    let* oldSP := readReg (REG_anySP d) in
    let* delta := number_ (nBits_ oldSP) (nbitsBP / 8) in
    let* newSP := add oldSP delta in
    let* addr := fixMemoryAddress d oldSP in
    let* yes := boolean_ true in
    let* dflt := undefined_ nbitsBP in
    let* v := readMemory REG_SS addr dflt yes in
    let* _ := writeReg (REG_anyBP d) v in
    writeReg (REG_anySP d) newSP)).

(** ** Strings *)

(** Whether an instruction goes on, the width of the elements, and the steps of
    the address registers: forwards or, when the direction flag is set, backwards. *)
Definition string_step (reg : RegisterDescriptor) (nbytes : Z) : M St V :=
  let* positiveNBytes := number_ (nBits reg) nbytes in
  let* negativeNBytes := number_ (nBits reg) (u64 (- nbytes)) in
  let* df := readReg REG_DF in
  ite df negativeNBytes positiveNBytes.

(** The address in a register, as memory is addressed. *)
Definition string_register (insn : X86Insn) (minr : Z) : M St RegisterDescriptor :=
  let* reg := lift (register_for insn minr) in
  assert* negb (isEmpty reg) else AssertFail in ret reg.

Definition string_segment (insn : X86Insn) : M St RegisterDescriptor :=
  lift (mkDescriptor x86_regclass_segment
    (if segmentOverride insn =? x86_segreg_none then x86_segreg_ds else segmentOverride insn) 0 16).

Definition advance_if (inLoop : V) (reg : RegisterDescriptor) (old step : V) : M St unit :=
  let* moved := add old step in let* v := ite inLoop moved old in writeReg reg v.

Definition leave_if (repeat : X86RepeatPrefix) (inLoop : V) (insn : X86Insn) (honorZeroFlag : bool) : M St unit :=
  match repeat with x86_repeat_none => ret tt | _ => repLeave d repeat inLoop (insn_address insn) honorZeroFlag end.

Definition IP_movestring (repeat : X86RepeatPrefix) (nbits : Z) (insn : X86Insn) : M St unit :=
  args0 insn (unlocked insn (
    let* inLoop := repEnter d repeat in
    let* srcReg := string_register insn x86_gpr_si in
    let* dstReg := string_register insn x86_gpr_di in
    let* srcRegVal := readReg srcReg in
    let* dstRegVal := readReg dstReg in
    let* srcAddr := fixMemoryAddress d srcRegVal in
    let* dstAddr := fixMemoryAddress d dstRegVal in
    assert* nBits_ srcAddr =? nBits_ dstAddr else AssertFail in
    let* sr := string_segment insn in
    let* dflt := undefined_ nbits in
    let* value := readMemory sr srcAddr dflt inLoop in
    let* _ := writeMemory REG_ES dstAddr value inLoop in
    let* step := string_step srcReg (nbits / 8) in
    let* _ := advance_if inLoop srcReg srcRegVal step in
    let* _ := advance_if inLoop dstReg dstRegVal step in
    leave_if repeat inLoop insn false)).

Definition IP_cmpstrings (repeat : X86RepeatPrefix) (nbits : Z) (insn : X86Insn) : M St unit :=
  args0 insn (unlocked insn (
    let* inLoop := repEnter d repeat in
    let* reg1 := string_register insn x86_gpr_si in
    let* reg2 := string_register insn x86_gpr_di in
    let* addr1 := readReg reg1 in
    let* addr2 := readReg reg2 in
    let* addr1 := fixMemoryAddress d addr1 in
    let* addr2 := fixMemoryAddress d addr2 in
    assert* nBits_ addr1 =? nBits_ addr2 else AssertFail in
    let* sr := string_segment insn in
    let* dflt1 := undefined_ nbits in
    let* val1 := readMemory sr addr1 dflt1 inLoop in
    let* dflt2 := undefined_ nbits in
    let* val2 := readMemory REG_ES addr2 dflt2 inLoop in
    let* no := boolean_ false in
    let* nb := invert val2 in
    let* _ := doAddOperation_if d val1 nb true no inLoop in
    let* step := string_step reg1 (nbits / 8) in
    let moved reg := let* old := readReg reg in let* now := readReg reg in
      let* next := add now step in let* v := ite inLoop next old in writeReg reg v in
    let* _ := moved reg1 in
    let* _ := moved reg2 in
    leave_if repeat inLoop insn true)).

Definition IP_scanstring (repeat : X86RepeatPrefix) (nbits : Z) (insn : X86Insn) : M St unit :=
  args0 insn (unlocked insn (
    let* inLoop := repEnter d repeat in
    let* stringReg := string_register insn x86_gpr_di in
    let* stringPtr := readReg stringReg in
    let* addr := fixMemoryAddress d stringPtr in
    let* compareReg := resized REG_AX nbits in
    let* val1 := readReg compareReg in
    let* dflt := undefined_ nbits in
    let* val2 := readMemory REG_ES addr dflt inLoop in
    let* no := boolean_ false in
    let* nb := invert val2 in
    let* _ := doAddOperation_if d val1 nb true no inLoop in
    let* step := string_step stringReg (nbits / 8) in
    let* _ := advance_if inLoop stringReg stringPtr step in
    leave_if repeat inLoop insn true)).

Definition IP_loadstring (repeat : X86RepeatPrefix) (nbits : Z) (insn : X86Insn) : M St unit :=
  args0 insn (unlocked insn (
    let* inLoop := repEnter d repeat in
    let* srcReg := string_register insn x86_gpr_si in
    let* stringPtr := readReg srcReg in
    let* addr := fixMemoryAddress d stringPtr in
    let* sr := string_segment insn in
    let* dflt := undefined_ nbits in
    let* val := readMemory sr addr dflt inLoop in
    let* dstReg := resized REG_AX nbits in
    let* _ := writeReg dstReg val in
    let* step := string_step srcReg (nbits / 8) in
    let* _ := advance_if inLoop srcReg stringPtr step in
    leave_if repeat inLoop insn false)).

(** The address of element [i] of a string that is stored at once. *)
Definition stored_at (addr step : V) (i : Z) : M St V :=
  let* k := number_ (nBits_ addr) i in
  let* off := unsignedMultiply k step in
  let* off := unsignedExtend off (nBits_ addr) in
  add addr off.
Fixpoint store_loop (n : nat) (i : Z) (addr step src inLoop : V) : M St unit :=
  match n with
  | O => ret tt
  | S n =>
      let* va := stored_at addr step i in
      let* _ := writeMemory REG_ES va src inLoop in store_loop n (i + 1) addr step src inLoop
  end.

(** The count that a repeated store can be unrolled for. *)
Definition unroll_limit : Z := 8192.
Definition unrolled (repeat : X86RepeatPrefix) : M St (option Z) :=
  match repeat with
  | x86_repeat_repe =>
      let* cx := readReg (REG_anyCX d) in
      ret (match toUnsigned_ cx with Some n => if n <=? unroll_limit then Some n else None | None => None end)
  | _ => ret None
  end.

Definition IP_storestring (repeat : X86RepeatPrefix) (nbits : Z) (insn : X86Insn) : M St unit :=
  args0 insn (unlocked insn (
    let nbytes := nbits / 8 in
    let* dstReg := string_register insn x86_gpr_di in
    let* stringPtr := readReg dstReg in
    let* addr := fixMemoryAddress d stringPtr in
    let* directionFlag := readReg REG_DF in
    let* positiveNBytes := number_ (nBits dstReg) nbytes in
    let* negativeNBytes := number_ (nBits dstReg) (u64 (- nbytes)) in
    let* step := ite directionFlag negativeNBytes positiveNBytes in
    let* regA := resized REG_AX nbits in
    let* src := readReg regA in
    let* known := unrolled repeat in
    match known with
    | Some n =>
        let* inLoop := boolean_ true in
        let* _ := store_loop (Z.to_nat n) 0 addr step src inLoop in
        let* zero := number_ (nBits (REG_anyCX d)) 0 in
        let* _ := writeReg (REG_anyCX d) zero in
        let* va := stored_at addr step n in
        writeReg dstReg va
    | None =>
        let* inLoop := repEnter d repeat in
        let* _ := writeMemory REG_ES addr src inLoop in
        let* _ := advance_if inLoop dstReg stringPtr step in
        leave_if repeat inLoop insn false
    end)).

(** ** Decimal arithmetic *)

(** These instructions exist in 32-bit mode. *)
Definition decimal (body : M St unit) : M St unit :=
  match processorMode d with
  | x86_insnsize_32 => body | x86_insnsize_64 => invalid | x86_insnsize_16 => fail Throw | x86_insnsize_none => fail AssertFail
  end.
Definition decimal_flags (adjusted : V) : M St unit :=
  let* _ := write_unspecified [REG_OF; REG_SF; REG_ZF; REG_PF] in
  let* _ := writeReg REG_AF adjusted in
  writeReg REG_CF adjusted.

Definition IP_aaa (insn : X86Insn) : M St unit :=
  args0 insn (decimal (unlocked insn (
    let* al := readReg REG_AL in
    let* nybble := extract al 0 4 in
    let* af := readReg REG_AF in
    let* big := greaterOrEqualToTen nybble in
    let* incAh := or_ af big in
    let* six := number_ 4 6 in
    let* zero4 := number_ 4 0 in
    let* more := ite incAh six zero4 in
    let* al := readReg REG_AL in
    let* low := extract al 0 4 in
    let* newLow := add more low in
    let* zero := number_ 4 0 in
    let* one8 := number_ 8 1 in
    let* zero8 := number_ 8 0 in
    let* carry := ite incAh one8 zero8 in
    let* ah := readReg REG_AH in
    let* newAh := add carry ah in
    let* upper := concat_ zero newAh in
    let* v := concat_ newLow upper in
    let* _ := writeReg REG_AX v in
    decimal_flags incAh))).

Definition IP_aas (insn : X86Insn) : M St unit :=
  args0 insn (decimal (unlocked insn (
    let* al := readReg REG_AL in
    let* nybble := extract al 0 4 in
    let* nybbleGte10 := greaterOrEqualToTen nybble in
    let* af := readReg REG_AF in
    let* decAh := or_ af nybbleGte10 in
    let* ah := readReg REG_AH in
    let* zero8 := number_ 8 0 in
    let* less8 := number_ 8 minus_one in
    let* borrow := ite decAh less8 zero8 in
    let* newAh := add borrow ah in
    let* zero := number_ 4 0 in
    let* newAhWide := concat_ zero newAh in
    let* al := readReg REG_AL in
    let* alNarrow := extract al 0 4 in
    let* zero4 := number_ 4 0 in
    let* less6 := number_ 4 (2 ^ 64 - 6) in
    let* less := ite decAh less6 zero4 in
    let* newLow := add less alNarrow in
    let* v := concat_ newLow newAhWide in
    let* _ := writeReg REG_AX v in
    decimal_flags decAh))).

Definition adjusted_flags (newAl : V) : M St unit :=
  let* _ := write_unspecified [REG_OF; REG_AF; REG_CF] in setFlagsForResult d newAl.

Definition IP_aad (insn : X86Insn) : M St unit :=
  args1 insn (fun a0 => decimal (unlocked insn (
    let* al := readReg REG_AL in
    let* ah := readReg REG_AH in
    let* divisor := x86_read d a0 8 in
    let* p := unsignedMultiply ah divisor in
    let* low := extract p 0 8 in
    let* newAl := add al low in
    let* zero := number_ 8 0 in
    let* v := concat_ newAl zero in
    let* _ := writeReg REG_AX v in
    adjusted_flags newAl))).

Definition IP_aam (insn : X86Insn) : M St unit :=
  args1 insn (fun a0 => decimal (
    let* divisor := x86_read d a0 8 in
    unlocked insn (
      if isFalse divisor then interrupt x86_exception_de 0
      else
        let* al := readReg REG_AL in
        let* newAh := unsignedDivide al divisor in
        let* newAl := unsignedModulo al divisor in
        let* v := concat_ newAl newAh in
        let* _ := writeReg REG_AX v in
        adjusted_flags newAl))).
End Instructions.
