(* ===== verification/RiscX86Flags.v ===== *)
(** The flags of x86: what additions and subtractions set them to, and what the
    conditions read from them, in the concrete domain.

    An addition or subtraction is described by the result and by assignments to
    the six flags of status; the conditions of jumps, moves and sets after a
    comparison are those of the numbers compared. *)
From S2P Require Import Prelude BitVector SymType SymExpr SymEval RegDescriptor RiscOps RiscConcrete RiscConcreteFacts RiscArith.
From S2P Require Import RiscRegisters RiscRegFacts RiscRegTheorems RiscMachine RiscRun RiscX86 RiscX86Insn.
From stdpp Require Import gmap.
Open Scope Z_scope.

(** * Flags and registers of x86 *)

(** A single bit of the flags. *)
Definition is_flag (reg : RegisterDescriptor) : bool := valid_register reg && (majorNumber reg =? x86_regclass_flags) && (nBits reg =? 1).

(** A register that is read and written as it is. *)
Definition plain (d : DispatcherX86) (reg : RegisterDescriptor) : bool :=
  valid_register reg && negb (majorNumber reg =? x86_regclass_flags) && negb (majorNumber reg =? x86_regclass_st) &&
  negb ((nBits reg =? 32) && (offset reg =? 0) && (mode_width d =? 64)).

(** Values that a flag has. *)
Ltac find_holds :=
  solve [ match goal with H : holds ?r _ ?f |- holds ?q _ ?g => constr_eq r q; constr_eq f g; exact H end
        | match goal with |- holds ?r _ (bits_write ?q _ _) => constr_eq r q; apply holds_write, bool_Z_ok end
        | apply holds_other; [vm_compute; reflexivity|find_holds] ].

Lemma anyIP_width d : nBits (REG_anyIP d) = mode_width d.
Proof. unfold REG_anyIP, mode_width. now destruct (processorMode d). Qed.

Section Facts.
Context {St : Type} {Regs : HasRegisters CValue St} {Laws : RegisterLaws St Regs} (d : DispatcherX86).
#[local] Existing Instance ConcreteOps.
Implicit Types (f g : Bits) (reg : RegisterDescriptor).

Lemma runs_read_flag reg b f : is_flag reg = true -> holds reg (bool_Z b) f ->
  runs (x86_readRegister reg READ_REGISTER) f (mkCV 1 (bool_Z b)) f.
Proof.
  unfold is_flag. rewrite !andb_true_iff. intros [[Hv _] Hn%Z.eqb_eq] Hh. unfold x86_readRegister. rewrite Hn, andb_false_r.
  cbn [access]. rewrite <- Hn. now apply runs_readRegister.
Qed.

Lemma runs_peek_flag reg b f : is_flag reg = true -> holds reg (bool_Z b) f ->
  runs (x86_readRegister reg PEEK_REGISTER) f (mkCV 1 (bool_Z b)) f.
Proof.
  unfold is_flag. rewrite !andb_true_iff. intros [[Hv _] Hn%Z.eqb_eq] Hh. unfold x86_readRegister. rewrite Hn, andb_false_r.
  cbn [access]. eapply runs_bind; [now apply runs_pure|]. rewrite <- Hn. now apply runs_peekRegister.
Qed.

Lemma runs_write_flag reg b f : is_flag reg = true ->
  runs (x86_writeRegister d reg (mkCV 1 (bool_Z b))) f tt (bits_write reg (bool_Z b) f).
Proof.
  unfold is_flag. rewrite !andb_true_iff. intros [[Hv Hm%Z.eqb_eq] Hn%Z.eqb_eq]. unfold x86_writeRegister. rewrite Hn, Hm. cbn [Z.eqb Pos.eqb andb].
  change (x86_regclass_flags =? x86_regclass_st) with false. cbn [andb]. apply runs_writeRegister; [assumption..|apply bool_Z_ok].
Qed.

Lemma runs_read_plain reg v f : plain d reg = true -> holds reg v f -> runs (x86_readRegister reg READ_REGISTER) f (mkCV (nBits reg) v) f.
Proof.
  unfold plain. rewrite !andb_true_iff, !negb_true_iff. intros [[[Hv Hm] _] _] Hh. unfold x86_readRegister. rewrite Hm. cbn [andb access].
  now apply runs_readRegister.
Qed.

Lemma runs_write_plain reg v f : plain d reg = true -> bv_ok (nBits reg) v ->
  runs (x86_writeRegister d reg (mkCV (nBits reg) v)) f tt (bits_write reg v f).
Proof.
  unfold plain. rewrite !andb_true_iff, !negb_true_iff. intros [[[Hv _] Hm] Hw] Hok. unfold x86_writeRegister. rewrite anyIP_width, Hw, Hm. cbn [andb].
  now apply runs_writeRegister.
Qed.
End Facts.

#[export] Hint Extern 1 (runs (x86_readRegister _ READ_REGISTER) _ _ _) => (apply runs_read_flag; [vm_compute; reflexivity|find_holds]) : runs.
#[export] Hint Extern 1 (runs (x86_readRegister _ PEEK_REGISTER) _ _ _) => (apply runs_peek_flag; [vm_compute; reflexivity|find_holds]) : runs.
#[export] Hint Extern 1 (runs (x86_writeRegister _ _ (mkCV 1 (bool_Z _))) _ _ _) => (apply runs_write_flag; vm_compute; reflexivity) : runs.

(** * Results *)

(** How many of the low bits are set. *)
Fixpoint count_ones (n : nat) (v : Z) : Z :=
  match n with O => 0 | S n => bool_Z (Z.testbit v (Z.of_nat n)) + count_ones n v end.
(** The parity flag: the lowest byte has an even number of ones. *)
Definition even_parity (v : Z) : bool := Z.even (count_ones 8 v).

(** The flags that a result determines. *)
Definition result_flags (w r : Z) : list (RegisterDescriptor * Z) :=
  [(REG_PF, bool_Z (even_parity r)); (REG_SF, bool_Z (2 ^ (w - 1) <=? r)); (REG_ZF, bool_Z (r =? 0))].
(** The flags of a sum or difference. *)
Definition arith_flags (w r : Z) (af cf ov : bool) : list (RegisterDescriptor * Z) :=
  result_flags w r ++ [(REG_AF, bool_Z af); (REG_CF, bool_Z cf); (REG_OF, bool_Z ov)].

Lemma count_ones_low n m v : Z.of_nat n <= m -> count_ones n (v mod 2 ^ m) = count_ones n v.
Proof. induction n as [|n IH]; intros H; [reflexivity|]. cbn [count_ones]. rewrite IH, Z.mod_pow2_bits_low by lia. reflexivity. Qed.

Section Results.
Context {St : Type} {Regs : HasRegisters CValue St} {Laws : RegisterLaws St Regs} (d : DispatcherX86).
#[local] Existing Instance ConcreteOps.

Lemma parity_ok v f : runs (parity (mkCV 8 v)) f (mkCV 1 (bool_Z (even_parity v))) f.
Proof.
  unfold parity. run. unfold even_parity, count_ones. cbn [Z.of_nat Pos.of_succ_nat Pos.succ].
  cbv zeta. do 4 (eapply runs_bind; [run; run; run_fact|cbv beta]). run. run. run.
  eapply runs_eq; [run_fact| |reflexivity]. do 2 f_equal.
  repeat match goal with |- context [Z.testbit v ?i] => let j := eval vm_compute in i in progress change i with j end.
  destruct (Z.testbit v 0), (Z.testbit v 1), (Z.testbit v 2), (Z.testbit v 3), (Z.testbit v 4), (Z.testbit v 5), (Z.testbit v 6), (Z.testbit v 7); reflexivity.
Qed.
Lemma setFlags_ok w r f : 8 <= w < 2 ^ 64 -> bv_ok w r ->
  runs (setFlagsForResult d (mkCV w r)) f tt (assign (result_flags w r) f).
Proof.
  intros Hw Hr. unfold setFlagsForResult. cbn [nBits_ ConcreteOps c_nBits]. rewrite usub_small by lia.
  run. change (8 - 0) with 8. rewrite Z.pow_0_r, Z.div_1_r. eapply runs_bind; [apply parity_ok|cbv beta]. run. run. rewrite testbit_top by (assumption || lia). run. run.
  unfold even_parity, assign, result_flags. cbn [fold_left fst snd]. rewrite count_ones_low by (cbn; lia). run_fact.
Qed.

Lemma invertMaybe_ok b m f : runs (invertMaybe (mkCV 1 (bool_Z b)) m) f (mkCV 1 (bool_Z (xorb b m))) f.
Proof. destruct m; cbn [invertMaybe]; [rewrite xorb_true_r; run_fact|rewrite xorb_false_r; apply runs_ret]. Qed.

Lemma top_carries_ok w a b c f : 8 <= w < 2 ^ 64 -> 0 <= c <= 1 ->
  runs (top_carries (mkCV w (carries w a b c)) w) f (mkCV 1 (bool_Z (carry_into w a b c)), mkCV 1 (bool_Z (carry_into (w - 1) a b c))) f.
Proof.
  intros Hw Hc. unfold top_carries. rewrite !usub_small by lia. run. run. rewrite !testbit_carries by lia.
  replace (w - 1 + 1) with w by lia. replace (w - 2 + 1) with (w - 1) by lia. run_fact.
Qed.

(** An addition, by its carries; the operands are brought to one width first. *)
Lemma doAdd_carries x y w a b (c inv : bool) f :
  8 <= w < 2 ^ 64 -> bv_ok w a -> bv_ok w b -> runs (same_width x y) f (mkCV w a, mkCV w b) f ->
  let ci := xorb c inv in let r := (a + b + bool_Z ci) mod 2 ^ w in
  runs (doAddOperation d x y inv (mkCV 1 (bool_Z c))) f (mkCV w r)
    (assign (arith_flags w r (xorb (carry_into 4 a b (bool_Z ci)) inv) (xorb (2 ^ w <=? a + b + bool_Z ci) inv)
       (negb (signed_fits w (sval w a + sval w b + bool_Z ci)))) f).
Proof.
  intros Hw Ha Hb Hsame ci r. assert (Hc : 0 <= bool_Z ci <= 1) by (destruct ci; cbn; lia).
  unfold doAddOperation. eapply runs_bind; [exact Hsame|cbv beta iota]. cbn [nBits_ ConcreteOps c_nBits].
  run. eapply runs_bind; [apply invertMaybe_ok|cbv beta]. fold ci.
  eapply runs_bind; [apply runs_pure; intros; apply c_addWithCarries_ok; assumption || lia|cbv beta iota]. fold r.
  eapply runs_bind; [apply setFlags_ok; [assumption|apply mod_ok; lia]|cbv beta].
  eapply runs_bind; [apply top_carries_ok; assumption|cbv beta iota]. run. rewrite testbit_carries by lia.
  eapply runs_bind; [apply invertMaybe_ok|cbv beta]. run. eapply runs_bind; [apply invertMaybe_ok|cbv beta]. run. run. run.
  eapply runs_eq; [run_fact|reflexivity|]. rewrite overflow_carries, carry_all by (assumption || lia). reflexivity.
Qed.
End Results.

(** * Sums and differences *)

(** A value of one width at another, extended by its sign. *)
Definition sext (w w' a : Z) : Z := sval w a mod 2 ^ w'.

Lemma sext_same w a : 0 < w -> bv_ok w a -> sext w w a = a.
Proof.
  intros Hw Ha. unfold sext. rewrite sval_top by assumption. rewrite <- Z.add_opp_r, <- Z.mul_opp_l, Z_mod_plus_full. now apply Z.mod_small.
Qed.

(** The flags of [a + b + c] and of [a - b - c] for values of [w] bits. *)
Definition sum_flags (w a b c : Z) : list (RegisterDescriptor * Z) :=
  arith_flags w ((a + b + c) mod 2 ^ w) (2 ^ 4 <=? a mod 2 ^ 4 + b mod 2 ^ 4 + c) (2 ^ w <=? a + b + c)
    (negb (signed_fits w (sval w a + sval w b + c))).
Definition difference_flags (w a b c : Z) : list (RegisterDescriptor * Z) :=
  arith_flags w ((a - b - c) mod 2 ^ w) (a mod 2 ^ 4 <? b mod 2 ^ 4 + c) (a <? b + c) (negb (signed_fits w (sval w a - sval w b - c))).

Lemma sval_lnot w b : 0 < w -> bv_ok w b -> sval w (2 ^ w - 1 - b) = - 1 - sval w b.
Proof.
  intros Hw Hb. pose proof (pow2_split 1 w ltac:(lia)) as Hs. rewrite Z.pow_1_r in Hs. unfold bv_ok in *.
  rewrite !sval_top by (unfold bv_ok; lia). case_cmp; cbn [bool_Z]; lia.
Qed.

(** What the borrows of a difference are, in terms of the carries of the sum that computes it. *)
Lemma borrows w a b (c : bool) :
  8 <= w -> bv_ok w a -> bv_ok w b -> let nb := 2 ^ w - 1 - b in
  (a + nb + bool_Z (negb c)) mod 2 ^ w = (a - b - bool_Z c) mod 2 ^ w /\
  negb (carry_into 4 a nb (bool_Z (negb c))) = (a mod 2 ^ 4 <? b mod 2 ^ 4 + bool_Z c) /\
  negb (2 ^ w <=? a + nb + bool_Z (negb c)) = (a <? b + bool_Z c) /\
  sval w a + sval w nb + bool_Z (negb c) = sval w a - sval w b - bool_Z c.
Proof.
  intros Hw Ha Hb nb. assert (Hn : bool_Z (negb c) = 1 - bool_Z c) by now destruct c. rewrite Hn.
  assert (H4 : nb mod 2 ^ 4 = 15 - b mod 2 ^ 4).
  { pose proof (pow2_split 4 w ltac:(lia)) as Hs. pose proof (pow2_pos (w - 4) ltac:(lia)). pose proof (mod_ok 4 b ltac:(lia)) as Hm.
    unfold bv_ok in Hm. symmetry. apply Z.mod_unique with (q := 2 ^ (w - 4) - 1 - b / 2 ^ 4); [left; lia|].
    pose proof (Z.div_mod b (2 ^ 4) ltac:(lia)). unfold nb. lia. }
  split; [|split; [|split]].
  - unfold nb. replace (a + (2 ^ w - 1 - b) + (1 - bool_Z c)) with (a - b - bool_Z c + 1 * 2 ^ w) by lia. apply Z_mod_plus_full.
  - unfold carry_into. rewrite H4. case_cmp; cbn [negb]; reflexivity || lia.
  - unfold nb. case_cmp; cbn [negb]; reflexivity || lia.
  - unfold nb. rewrite sval_lnot by (assumption || lia). lia.
Qed.

Section Sums.
Context {St : Type} {Regs : HasRegisters CValue St} {Laws : RegisterLaws St Regs} (d : DispatcherX86).
#[local] Existing Instance ConcreteOps.

(** Operands of different widths are extended to the greater. *)
Lemma same_width_ok wa a wb b f : 0 < wa -> 0 < wb -> bv_ok wa a -> bv_ok wb b -> let w := Z.max wa wb in
  runs (same_width (mkCV wa a) (mkCV wb b)) f (mkCV w (sext wa w a), mkCV w (sext wb w b)) f.
Proof.
  intros Hwa Hwb Ha Hb w. unfold same_width, w. cbn [nBits_ ConcreteOps c_nBits]. case_cmp; try lia.
  - rewrite Z.max_l by lia. rewrite sext_same by assumption. eapply runs_bind; [apply runs_pure; intros; apply c_sext_ok; assumption || lia|apply runs_ret].
  - rewrite Z.max_r by lia. rewrite (sext_same wb) by assumption. eapply runs_bind; [apply runs_pure; intros; apply c_sext_ok; assumption || lia|apply runs_ret].
  - assert (wa = wb) as -> by lia. rewrite Z.max_id, !sext_same by assumption. run_fact.
Qed.

Lemma doAdd_ok wa a wb b (c : bool) f : 0 < wa -> 0 < wb -> bv_ok wa a -> bv_ok wb b -> let w := Z.max wa wb in 8 <= w < 2 ^ 64 ->
  let x := sext wa w a in let y := sext wb w b in
  runs (doAddOperation d (mkCV wa a) (mkCV wb b) false (mkCV 1 (bool_Z c))) f (mkCV w ((x + y + bool_Z c) mod 2 ^ w))
    (assign (sum_flags w x y (bool_Z c)) f).
Proof.
  intros Hwa Hwb Ha Hb w Hw x y. eapply runs_eq; [apply doAdd_carries|now rewrite xorb_false_r|]; try apply mod_ok; try lia.
  - now apply same_width_ok.
  - rewrite !xorb_false_r. reflexivity.
Qed.

Lemma doAdd_same w a b (c : bool) f : 8 <= w < 2 ^ 64 -> bv_ok w a -> bv_ok w b ->
  runs (doAddOperation d (mkCV w a) (mkCV w b) false (mkCV 1 (bool_Z c))) f (mkCV w ((a + b + bool_Z c) mod 2 ^ w))
    (assign (sum_flags w a b (bool_Z c)) f).
Proof.
  intros Hw Ha Hb. pose proof (doAdd_ok w a w b c f ltac:(lia) ltac:(lia) Ha Hb) as H. cbv zeta in H.
  rewrite Z.max_id, !sext_same in H by (assumption || lia). now apply H.
Qed.

Lemma doSub_ok w a b (c : bool) f : 8 <= w < 2 ^ 64 -> bv_ok w a -> bv_ok w b ->
  runs (doAddOperation d (mkCV w a) (mkCV w (2 ^ w - 1 - b)) true (mkCV 1 (bool_Z c))) f (mkCV w ((a - b - bool_Z c) mod 2 ^ w))
    (assign (difference_flags w a b (bool_Z c)) f).
Proof.
  intros Hw Ha Hb. destruct (borrows w a b c ltac:(lia) Ha Hb) as (E1 & E2 & E3 & E4).
  assert (Hn : bv_ok w (2 ^ w - 1 - b)) by (unfold bv_ok in *; lia).
  eapply runs_eq; [apply doAdd_carries with (w := w) (a := a) (b := 2 ^ w - 1 - b)| |]; try assumption.
  - unfold same_width. cbn [nBits_ ConcreteOps c_nBits]. rewrite Z.ltb_irrefl. run_fact.
  - now rewrite xorb_true_r, E1.
  - rewrite !xorb_true_r. unfold difference_flags. rewrite E1, E2, E3, E4. reflexivity.
Qed.

(** Increments and decrements, which may leave the carry flag alone. *)
Definition step_flags (w a : Z) (dec setCarry : bool) : list (RegisterDescriptor * Z) :=
  let delta := if dec then -1 else 1 in
  let r := (a + delta) mod 2 ^ w in
  result_flags w r ++
  [(REG_AF, bool_Z (a mod 2 ^ 4 =? if dec then 0 else 15)); (REG_OF, bool_Z (negb (signed_fits w (sval w a + delta))))] ++
  if setCarry then [(REG_CF, bool_Z (a =? if dec then 0 else 2 ^ w - 1))] else [].

Lemma doInc_ok w a (dec setCarry : bool) f : 8 <= w <= 64 -> bv_ok w a ->
  runs (doIncOperation d (mkCV w a) dec setCarry) f (mkCV w ((a + if dec then -1 else 1) mod 2 ^ w)) (assign (step_flags w a dec setCarry) f).
Proof.
  intros Hw Ha. pose proof (pow2_split 4 w ltac:(lia)) as Hs. pose proof (pow2_pos (w - 4) ltac:(lia)).
  pose proof (pow2_split 1 w ltac:(lia)) as Hs1. rewrite Z.pow_1_r in Hs1. pose proof (pow2_le 7 (w - 1) ltac:(lia)) as H7. cbn in H7.
  set (one := if dec then 2 ^ w - 1 else 1). assert (Hone : bv_ok w one) by (unfold one, bv_ok; destruct dec; lia).
  unfold doIncOperation. cbn [nBits_ ConcreteOps c_nBits]. run.
  eapply runs_bind; [apply (runs_pure _ _ (mkCV w one)); intros s|cbv beta].
  { rewrite c_number_ok by (unfold minus_one; destruct dec; lia). do 3 f_equal. unfold one, minus_one. destruct dec; [|apply Z.mod_small; lia].
    rewrite (pow2_split w 64) by lia. symmetry. pose proof (pow2_pos (64 - w) ltac:(lia)). apply Z.mod_unique with (q := 2 ^ (64 - w) - 1); [left|]; lia. }
  eapply runs_bind; [apply runs_pure; intros; apply c_addWithCarries_ok; assumption || lia|cbv beta iota].
  eapply runs_bind; [apply setFlags_ok; [lia|apply mod_ok; lia]|cbv beta].
  eapply runs_bind; [apply top_carries_ok; cbn; lia|cbv beta iota]. run. rewrite testbit_carries by (cbn; lia).
  eapply runs_bind; [apply invertMaybe_ok|cbv beta]. run. run. run.
  assert (E : (a + one + bool_Z false) mod 2 ^ w = (a + (if dec then -1 else 1)) mod 2 ^ w).
  { unfold one. cbn [bool_Z]. rewrite Z.add_0_r. destruct dec; [|reflexivity]. replace (a + (2 ^ w - 1)) with (a + -1 + 1 * 2 ^ w) by lia. apply Z_mod_plus_full. }
  assert (Hm : one mod 2 ^ 4 = if dec then 15 else 1).
  { unfold one. destruct dec; [|reflexivity]. symmetry. apply Z.mod_unique with (q := 2 ^ (w - 4) - 1); [left|]; lia. }
  assert (E4 : xorb (carry_into (3 + 1) a one (bool_Z false)) dec = (a mod 2 ^ 4 =? if dec then 0 else 15)).
  { unfold carry_into. change (3 + 1) with 4. rewrite Hm. pose proof (mod_ok 4 a ltac:(lia)) as Hr. unfold bv_ok in Hr. cbn [bool_Z].
    destruct dec; case_cmp; cbn [xorb]; reflexivity || lia. }
  assert (Eo : xorb (carry_into w a one (bool_Z false)) (carry_into (w - 1) a one (bool_Z false)) = negb (signed_fits w (sval w a + if dec then -1 else 1))).
  { rewrite overflow_carries by (assumption || lia). do 2 f_equal. rewrite (sval_top w one) by (assumption || lia). cbn [bool_Z].
    unfold one. destruct dec; case_cmp; cbn [bool_Z]; lia. }
  rewrite E4, Eo, E. unfold step_flags. rewrite assign_app. eapply runs_bind; [|apply runs_ret]. destruct setCarry; [|apply runs_ret].
  eapply runs_bind; [apply invertMaybe_ok|cbv beta]. cbn [app assign fold_left fst snd]. rewrite carry_all by assumption.
  replace (xorb (2 ^ w <=? a + one + bool_Z false) dec) with (a =? if dec then 0 else 2 ^ w - 1); [run_fact|].
  unfold one. unfold bv_ok in Ha. cbn [bool_Z]. destruct dec; case_cmp; cbn [xorb]; reflexivity || lia.
Qed.
End Sums.

(** * Conditions *)

(** The conditions as relations of numbers of [w] bits that were compared. *)
Definition condition (k : X86InstructionKind) (w a b : Z) : option bool :=
  match k with
  | x86_je | x86_sete | x86_cmove => Some (a =? b)
  | x86_jne | x86_setne | x86_cmovne => Some (negb (a =? b))
  | x86_jb | x86_setb | x86_cmovb => Some (a <? b)
  | x86_jae | x86_setae | x86_cmovae => Some (b <=? a)
  | x86_jbe | x86_setbe | x86_cmovbe => Some (a <=? b)
  | x86_ja | x86_seta | x86_cmova => Some (b <? a)
  | x86_jl | x86_setl | x86_cmovl => Some (sval w a <? sval w b)
  | x86_jge | x86_setge | x86_cmovge => Some (sval w b <=? sval w a)
  | x86_jle | x86_setle | x86_cmovle => Some (sval w a <=? sval w b)
  | x86_jg | x86_setg | x86_cmovg => Some (sval w b <? sval w a)
  | x86_jo | x86_seto | x86_cmovo => Some (negb (signed_fits w (sval w a - sval w b)))
  | x86_jno | x86_setno | x86_cmovno => Some (signed_fits w (sval w a - sval w b))
  | x86_js | x86_sets | x86_cmovs => Some (2 ^ (w - 1) <=? (a - b) mod 2 ^ w)
  | x86_jns | x86_setns | x86_cmovns => Some (negb (2 ^ (w - 1) <=? (a - b) mod 2 ^ w))
  | x86_jpe | x86_setpe | x86_cmovpe => Some (even_parity ((a - b) mod 2 ^ w))
  | x86_jpo | x86_setpo | x86_cmovpo => Some (negb (even_parity ((a - b) mod 2 ^ w)))
  | _ => None
  end.

(** The formulas of the conditions over the flags. *)
Definition combination (k : X86InstructionKind) (zf cf sf ov pf : bool) : option bool :=
  match k with
  | x86_je | x86_sete | x86_cmove => Some zf
  | x86_jne | x86_setne | x86_cmovne => Some (negb zf)
  | x86_jb | x86_setb | x86_cmovb => Some cf
  | x86_jae | x86_setae | x86_cmovae => Some (negb cf)
  | x86_jbe | x86_setbe | x86_cmovbe => Some (cf || zf)
  | x86_ja | x86_seta | x86_cmova => Some (negb cf && negb zf)
  | x86_jl | x86_setl | x86_cmovl => Some (xorb sf ov)
  | x86_jge | x86_setge | x86_cmovge => Some (negb (xorb sf ov))
  | x86_jle | x86_setle | x86_cmovle => Some (zf || xorb sf ov)
  | x86_jg | x86_setg | x86_cmovg => Some (negb (xorb sf ov) && negb zf)
  | x86_jo | x86_seto | x86_cmovo => Some ov
  | x86_jno | x86_setno | x86_cmovno => Some (negb ov)
  | x86_js | x86_sets | x86_cmovs => Some sf
  | x86_jns | x86_setns | x86_cmovns => Some (negb sf)
  | x86_jpe | x86_setpe | x86_cmovpe => Some pf
  | x86_jpo | x86_setpo | x86_cmovpo => Some (negb pf)
  | _ => None
  end.

(** A difference that is negative, by its sign and overflow. *)
Lemma sign_xor_overflow w a b : 0 < w -> bv_ok w a -> bv_ok w b ->
  xorb (2 ^ (w - 1) <=? (a - b) mod 2 ^ w) (negb (signed_fits w (sval w a - sval w b))) = (sval w a <? sval w b).
Proof.
  intros Hw Ha Hb. pose proof (sval_range w a Hw Ha). pose proof (sval_range w b Hw Hb).
  pose proof (pow2_split 1 w ltac:(lia)) as Hs. rewrite Z.pow_1_r in Hs. pose proof (pow2_pos (w - 1) ltac:(lia)).
  assert (E : (a - b) mod 2 ^ w = (sval w a - sval w b) mod 2 ^ w).
  { rewrite !sval_top by assumption. set (u := bool_Z _). set (v := bool_Z _).
    replace (a - u * 2 ^ w - (b - v * 2 ^ w)) with (a - b + (v - u) * 2 ^ w) by ring.
    now rewrite Z_mod_plus_full. }
  rewrite E. remember (sval w a - sval w b) as x eqn:Ex. unfold signed_fits.
  assert (Hx : x mod 2 ^ w = x \/ x mod 2 ^ w = x + 2 ^ w).
  { destruct (Z.leb_spec 0 x); [left; apply Z.mod_small; lia|right; symmetry; apply Z.mod_unique with (q := -1); [left|]; lia]. }
  pose proof (mod_ok w x ltac:(lia)) as Hm. unfold bv_ok in Hm. destruct Hx as [Hx|Hx]; rewrite Hx in *; case_cmp; cbn [andb negb xorb]; reflexivity || lia.
Qed.

Section Conditions.
Context {St : Type} {Regs : HasRegisters CValue St} {Laws : RegisterLaws St Regs}.
#[local] Existing Instance ConcreteOps.

Lemma not_flag_ok reg b f : is_flag reg = true -> holds reg (bool_Z b) f -> runs (not_flag reg) f (mkCV 1 (bool_Z (negb b))) f.
Proof. intros Hr Hb. unfold not_flag. eapply runs_bind; [apply runs_read_flag; eassumption|run_fact]. Qed.

Lemma sf_xor_of_ok sf ov f : holds REG_SF (bool_Z sf) f -> holds REG_OF (bool_Z ov) f -> runs sf_xor_of f (mkCV 1 (bool_Z (xorb sf ov))) f.
Proof. intros Hs Ho. unfold sf_xor_of. run. run. run_fact. Qed.

#[local] Hint Extern 1 (runs (not_flag _) _ _ _) => (apply not_flag_ok; [vm_compute; reflexivity|find_holds]) : runs.
#[local] Hint Extern 1 (runs sf_xor_of _ _ _) => (apply sf_xor_of_ok; find_holds) : runs.

Lemma flagsCombo_ok k zf cf sf ov pf r f :
  holds REG_ZF (bool_Z zf) f -> holds REG_CF (bool_Z cf) f -> holds REG_SF (bool_Z sf) f -> holds REG_OF (bool_Z ov) f -> holds REG_PF (bool_Z pf) f ->
  combination k zf cf sf ov pf = Some r -> runs (flagsCombo k) f (mkCV 1 (bool_Z r)) f.
Proof.
  intros Hz Hc Hs Ho Hp. destruct k; intros [= <-]; cbn [flagsCombo]; runs; run_fact.
Qed.

Lemma condition_combination k w a b : 0 < w -> bv_ok w a -> bv_ok w b ->
  let r := (a - b - 0) mod 2 ^ w in
  combination k (r =? 0) (a <? b + 0) (2 ^ (w - 1) <=? r) (negb (signed_fits w (sval w a - sval w b - 0))) (even_parity r) = condition k w a b.
Proof.
  intros Hw Ha Hb. cbv zeta. rewrite !Z.sub_0_r, Z.add_0_r. pose proof (sign_xor_overflow w a b Hw Ha Hb) as Hx.
  assert (Hz : ((a - b) mod 2 ^ w =? 0) = (a =? b)).
  { unfold bv_ok in *. destruct (Z.leb_spec b a); [rewrite Z.mod_small by lia; case_cmp; reflexivity || lia|].
    replace ((a - b) mod 2 ^ w) with (a - b + 2 ^ w) by (apply Z.mod_unique with (q := -1); [left|]; lia). case_cmp; reflexivity || lia. }
  assert (Hs : (a =? b) = (sval w a =? sval w b)).
  { destruct (Z.eqb_spec a b) as [->|Hne]; [now rewrite Z.eqb_refl|]. symmetry. apply Z.eqb_neq. intros E. apply Hne.
    apply (f_equal (fun x => x mod 2 ^ w)) in E. fold (sext w w a) in E. fold (sext w w b) in E. now rewrite !sext_same in E by assumption. }
  rewrite Hz. destruct k; cbn [combination condition]; try reflexivity; f_equal; rewrite ?Hx; unfold bv_ok in *; try (rewrite Hs);
    try (now rewrite negb_involutive); case_cmp; cbn [negb andb orb]; reflexivity || lia.
Qed.

(** What a condition reads after a comparison of [a] with [b]. *)
Lemma condition_ok k w a b r f : 8 <= w < 2 ^ 64 -> bv_ok w a -> bv_ok w b -> condition k w a b = Some r ->
  let g := assign (difference_flags w a b 0) f in runs (flagsCombo k) g (mkCV 1 (bool_Z r)) g.
Proof.
  intros Hw Ha Hb Hk g. rewrite <- condition_combination in Hk by (assumption || lia).
  eapply flagsCombo_ok; [..|exact Hk]; unfold g, difference_flags, arith_flags, result_flags; cbn [app assign fold_left fst snd]; find_holds.
Qed.
End Conditions.
