(* ===== verification/RiscX86Operands.v ===== *)
(** Operands of x86 instructions in the concrete domain: registers of the
    general purpose class, and integers. *)
From S2P Require Import Prelude BitVector SymType SymExpr SymEval RegDescriptor RiscOps RiscConcrete RiscConcreteFacts RiscArith RiscMulDiv.
From S2P Require Import RiscRegisters RiscRegFacts RiscRegTheorems RiscMachine RiscRun RiscX86 RiscX86Insn RiscX86Flags.
From stdpp Require Import gmap.
Open Scope Z_scope.

(** Run the body of an instruction that has the operands and no lock prefix. *)
Ltac insn_body :=
  match goal with
  | Ho : operands _ = _, Hl : lockPrefix _ = false |- _ =>
      unfold args0, args1, args2, args3; rewrite Ho; unfold lockable, unlocked; rewrite Hl; cbn [andb]
  end.
(** Run the operation by a lemma. *)
Tactic Notation "by_lemma" uconstr(l) := eapply runs_bind; [eapply l|cbv beta iota].

(** * General purpose registers *)

Definition is_gpr (reg : RegisterDescriptor) : bool := valid_register reg && (majorNumber reg =? x86_regclass_gpr).

(** Whether a write clears the upper half of the register. *)
Definition clears_upper (d : DispatcherX86) (reg : RegisterDescriptor) : bool :=
  (nBits reg =? 32) && (offset reg =? 0) && (mode_width d =? 64).
Definition upper_half (reg : RegisterDescriptor) : RegisterDescriptor := x86_register (majorNumber reg) (minorNumber reg) 32 32.
(** What a write assigns. *)
Definition gpr_assign (d : DispatcherX86) (reg : RegisterDescriptor) (v : Z) : list (RegisterDescriptor * Z) :=
  if clears_upper d reg then [(upper_half reg, 0); (reg, v)] else [(reg, v)].

Lemma register_made majr minr off n :
  0 <= majr < 16 -> 0 <= minr < 1024 -> 0 <= off -> 0 < n -> off + n <= 512 ->
  mkDescriptor majr minr off n = Ret (x86_register majr minr off n) /\ valid_register (x86_register majr minr off n) = true /\
  nBits (x86_register majr minr off n) = n.
Proof.
  intros Ha Hb Ho Hn Hs. destruct (mkDescriptor_made majr minr off n) as (r & E & Hr & Hp); [lia..|]. unfold x86_register. rewrite E.
  split; [reflexivity|]. unfold parts in Hp. injection Hp as _ _ Hoff Hbits. split; [|assumption]. unfold valid_register, raw_ok in *.
  rewrite Hoff, Hbits, !andb_true_iff, !Z.leb_le, !Z.ltb_lt. lia.
Qed.

Lemma accessor_ranges reg : valid_register reg = true -> 0 <= majorNumber reg < 16 /\ 0 <= minorNumber reg < 1024.
Proof.
  intros H. apply valid_ok in H as [[Hr _] _]. destruct (parts_word reg Hr) as (a & b & c & e & (Ha & Hb & _) & _ & Hp).
  unfold parts in Hp. injection Hp as -> -> _ _. lia.
Qed.

Section Operands.
Context {St : Type} {Regs : HasRegisters CValue St} {Mem : MemoryOperators CValue St} {Laws : RegisterLaws St Regs} (d : DispatcherX86).
#[local] Existing Instance ConcreteOps.
Implicit Types (f : Bits) (reg : RegisterDescriptor).

Lemma is_gpr_valid reg : is_gpr reg = true -> valid_register reg = true /\ 0 < nBits reg /\ majorNumber reg = x86_regclass_gpr.
Proof. unfold is_gpr. rewrite andb_true_iff, Z.eqb_eq. intros [Hv Hm]. split; [assumption|]. split; [now apply valid_ok|assumption]. Qed.

Lemma runs_read_gpr reg v f : is_gpr reg = true -> holds reg v f -> runs (x86_readRegister reg READ_REGISTER) f (mkCV (nBits reg) v) f.
Proof.
  intros Hr Hh. destruct (is_gpr_valid _ Hr) as (Hv & _ & Hm). unfold x86_readRegister. rewrite Hm. cbn [access]. now apply runs_readRegister.
Qed.

Lemma runs_write_gpr reg v f : is_gpr reg = true -> bv_ok (nBits reg) v ->
  runs (x86_writeRegister d reg (mkCV (nBits reg) v)) f tt (assign (gpr_assign d reg v) f).
Proof.
  intros Hr Hok. destruct (is_gpr_valid _ Hr) as (Hv & _ & Hm). unfold x86_writeRegister, gpr_assign, clears_upper. rewrite anyIP_width.
  destruct ((nBits reg =? 32) && (offset reg =? 0) && (mode_width d =? 64)).
  - rewrite Hm. cbn [Z.eqb orb x86_regclass_gpr]. destruct (accessor_ranges _ Hv) as [Ha Hb]. rewrite Hm in Ha.
    destruct (register_made x86_regclass_gpr (minorNumber reg) 32 32) as (E & Hu & Hn); [lia..|].
    eapply runs_bind; [eapply runs_bind; [apply runs_lift, E|cbv beta]; run; rewrite Z.mod_0_l by lia|].
    + apply runs_writeRegister; [assumption..|]. apply zero_ok; lia.
    + cbv beta. unfold upper_half, assign. rewrite Hm. cbn [fold_left fst snd]. now apply runs_writeRegister.
  - rewrite Hm. cbn [Z.eqb andb x86_regclass_gpr x86_regclass_st]. now apply runs_writeRegister.
Qed.

(** * Operands *)

(** The value of an operand of [w] bits. *)
Definition operand (e : AsmExpr) (w v : Z) (f : Bits) : Prop :=
  match e with
  | DirectRegister n reg => n = w /\ nBits reg = w /\ is_gpr reg = true /\ holds reg v f
  | IntegerExpr n i => n = w /\ iv_nBits i = w /\ 0 < w <= 64 /\ baseAddress i = 0 /\ iv_bits i = v /\ bv_ok w v
  | _ => False
  end.

Lemma operand_ok e w v f : operand e w v f -> asm_width e = w /\ 0 < w /\ bv_ok w v.
Proof.
  destruct e; cbn [operand asm_width]; try contradiction.
  - intros (-> & <- & Hr & [Hv _]). destruct (is_gpr_valid _ Hr) as (_ & Hn & _). now split.
  - intros (-> & _ & Hw & _ & _ & Hv). split; [reflexivity|]. split; [lia|assumption].
Qed.

(** A value of an operand stays while other registers are assigned to. *)
Definition operand_apart (e : AsmExpr) (l : list (RegisterDescriptor * Z)) : bool :=
  match e with DirectRegister _ reg => forallb (fun p => apart reg p.1) l | _ => true end.

Lemma operand_assign e w v l f : operand e w v f -> operand_apart e l = true -> operand e w v (assign l f).
Proof. destruct e; cbn [operand operand_apart]; try tauto. intros (H1 & H2 & H3 & H4) Ha. exact (conj H1 (conj H2 (conj H3 (holds_assign _ _ _ _ H4 Ha)))). Qed.

(** General purpose registers are apart from other classes. *)
Definition no_gpr (l : list (RegisterDescriptor * Z)) : bool := forallb (fun p => negb (majorNumber p.1 =? x86_regclass_gpr)) l.

Lemma gpr_apart reg l : is_gpr reg = true -> no_gpr l = true -> forallb (fun p => apart reg p.1) l = true.
Proof.
  intros Hr. apply is_gpr_valid in Hr as (_ & _ & Hm). unfold no_gpr. rewrite !forallb_forall. intros H p Hp.
  specialize (H p Hp). apply negb_true_iff, Z.eqb_neq in H. unfold apart. rewrite bool_decide_eq_false_2; [reflexivity|].
  intros E. apply H. apply (f_equal fst) in E. cbn in E. congruence.
Qed.

Lemma operand_flags e w v l f : operand e w v f -> no_gpr l = true -> operand e w v (assign l f).
Proof.
  intros Ho Hl. apply operand_assign; [assumption|]. destruct e; cbn [operand operand_apart] in *; try easy. now apply gpr_apart.
Qed.

Lemma signed_value i w v : iv_nBits i = w -> 0 < w <= 64 -> baseAddress i = 0 -> iv_bits i = v -> bv_ok w v ->
  get_signedValue i = Ret (sval w v).
Proof.
  intros Hn Hw Hb Hv Hok. pose proof (sval_range w v ltac:(lia) Hok) as Hr. pose proof (pow2_le (w - 1) 63 ltac:(lia)).
  unfold get_signedValue. rewrite Hn, (proj2 (Z.leb_le w 64)) by lia. cbn [require_ obind].
  assert (E : get_relativeValue i = Ret (sval w v)).
  { unfold get_relativeValue. rewrite Hn, Hv, (proj2 (Z.leb_le w 64)), (proj2 (Z.ltb_lt 0 w)), toInteger_small by (assumption || lia). cbn [require_ obind].
    pose proof (c_signed_ok w v Hw Hok) as E. unfold c_signed in E. rewrite c_get_ok in E by (assumption || lia). exact E. }
  rewrite E, Hb. cbn [obind]. f_equal. unfold to_long, to_signed, u64. rewrite Z.add_0_l, Zplus_mod_idemp_l.
  rewrite <- (to_signed_id 64 (sval w v)) at 2 by lia. reflexivity.
Qed.

(** Reading an operand, at the width of its type. *)
Lemma runs_read e w v n f : operand e w v f -> n = 0 \/ n = w -> runs (x86_read d e n) f (mkCV w v) f.
Proof.
  intros Ho Hn. destruct (operand_ok e w v f Ho) as (Ew & Hw & Hv).
  assert (Hwidth : runs (value_width (St := St) e n) f w f).
  { unfold value_width. rewrite Ew. destruct Hn as [-> | ->]; [cbn [Z.eqb]; eapply runs_bind; [apply runs_assert, negb_true_iff, Z.eqb_neq; lia|apply runs_ret]|].
    rewrite (proj2 (Z.eqb_neq w 0)) by lia. run_fact. }
  assert (Hto : runs (to_width (mkCV w v) w) f (mkCV w v) f).
  { unfold to_width. cbn [nBits_ ConcreteOps c_nBits]. rewrite Z.eqb_refl. apply runs_ret. }
  destruct e as [m reg| |m i| | |]; cbn [operand] in Ho; try contradiction; unfold x86_read; cbn [read].
  - destruct Ho as (-> & Hb & Hr & Hh). eapply runs_bind; [exact Hwidth|cbv beta]. eapply runs_bind; [|exact Hto].
    unfold read_register. cbn [asm_width] in *. eapply runs_bind.
    + unfold value_width. rewrite (proj2 (Z.eqb_neq w 0)) by lia. run_fact.
    + cbv beta. rewrite <- Hb. eapply runs_bind; [apply runs_readRegister; [now apply is_gpr_valid|exact Hh]|]. rewrite Hb. exact Hto.
  - destruct Ho as (-> & Hb & Hw' & H0 & Hi & _). eapply runs_bind; [exact Hwidth|cbv beta]. eapply runs_bind; [|exact Hto].
    eapply runs_bind; [apply runs_lift; now apply (signed_value i w v)|cbv beta].
    eapply runs_eq; [apply runs_pure; intros; apply c_number_ok; [lia|]|  |reflexivity].
    + apply Z.mod_pos_bound. lia.
    + f_equal. rewrite u64_mod by lia. fold (sext w w v). now apply sext_same.
Qed.

Lemma runs_write n reg v f : is_gpr reg = true -> bv_ok (nBits reg) v ->
  runs (x86_write d (DirectRegister n reg) (mkCV (nBits reg) v)) f tt (assign (gpr_assign d reg v) f).
Proof. intros Hr Hv. exact (runs_write_gpr reg v f Hr Hv). Qed.

(** ** Registers of any class *)

(** An operand that is a whole register. *)
Definition whole_register (e : AsmExpr) (reg : RegisterDescriptor) (w : Z) : Prop :=
  e = DirectRegister w reg /\ nBits reg = w /\ plain d reg = true.

Lemma plain_valid reg : plain d reg = true -> valid_register reg = true /\ 0 < nBits reg.
Proof. unfold plain. rewrite !andb_true_iff. intros [[[Hv _] _] _]. split; [assumption|]. now apply valid_ok. Qed.

Lemma runs_read_whole e reg w v f : whole_register e reg w -> holds reg v f -> runs (x86_read d e 0) f (mkCV w v) f.
Proof.
  intros (-> & Hb & Hr) Hh. destruct (plain_valid _ Hr) as [Hv Hn]. assert (Hw : 0 < w) by lia.
  assert (Hto : runs (to_width (mkCV w v) w) f (mkCV w v) f).
  { unfold to_width. cbn [nBits_ ConcreteOps c_nBits]. rewrite Z.eqb_refl. apply runs_ret. }
  assert (Hwidth : runs (value_width (St := St) (DirectRegister w reg) 0) f w f).
  { unfold value_width. cbn [Z.eqb asm_width]. eapply runs_bind; [apply runs_assert, negb_true_iff, Z.eqb_neq; lia|apply runs_ret]. }
  unfold x86_read. cbn [read]. eapply runs_bind; [exact Hwidth|cbv beta]. eapply runs_bind; [|exact Hto].
  unfold read_register. eapply runs_bind.
  - unfold value_width. rewrite (proj2 (Z.eqb_neq w 0)) by lia. apply runs_ret.
  - cbv beta. pose proof (runs_readRegister reg Hv v f Hh) as Hread. rewrite Hb in Hread. eapply runs_bind; [exact Hread|exact Hto].
Qed.

Lemma runs_write_whole e reg w v f : whole_register e reg w -> bv_ok w v -> runs (x86_write d e (mkCV w v)) f tt (bits_write reg v f).
Proof. intros (-> & <- & Hr) Hv. exact (runs_write_plain d reg v f Hr Hv). Qed.

(** ** The instruction pointer *)

Lemma ip_valid : valid_register (REG_anyIP d) = true /\ plain d (REG_anyIP d) = true.
Proof. unfold plain, REG_anyIP, mode_width. destruct (processorMode d); split; vm_compute; reflexivity. Qed.

Lemma runs_read_ip v f : holds (REG_anyIP d) v f -> runs (x86_readRegister (REG_anyIP d) READ_REGISTER) f (mkCV (mode_width d) v) f.
Proof. intros H. rewrite <- anyIP_width. apply (runs_read_plain d); [apply ip_valid|assumption]. Qed.

Lemma runs_write_ip v f : bv_ok (mode_width d) v -> runs (x86_writeRegister d (REG_anyIP d) (mkCV (mode_width d) v)) f tt (bits_write (REG_anyIP d) v f).
Proof. intros H. rewrite <- anyIP_width in *. apply runs_write_plain; [apply ip_valid|assumption]. Qed.

Lemma ip_apart reg : majorNumber reg <> x86_regclass_ip -> apart (REG_anyIP d) reg = true /\ apart reg (REG_anyIP d) = true.
Proof.
  intros Hm. assert (E : majorNumber (REG_anyIP d) = x86_regclass_ip) by (unfold REG_anyIP, mode_width; destruct (processorMode d); vm_compute; reflexivity).
  unfold apart. rewrite !bool_decide_eq_false_2; [now split|..]; intros H; apply (f_equal fst) in H; cbn in H; congruence.
Qed.

(** Assignments to other registers keep the instruction pointer. *)
Lemma holds_ip l v f : forallb (fun p => negb (majorNumber p.1 =? x86_regclass_ip)) l = true -> holds (REG_anyIP d) v f -> holds (REG_anyIP d) v (assign l f).
Proof.
  intros Hl Hv. apply holds_assign; [assumption|]. rewrite forallb_forall in *. intros p Hp. specialize (Hl p Hp).
  apply negb_true_iff, Z.eqb_neq in Hl. now apply ip_apart.
Qed.
End Operands.
