(* ===== verification/RiscX86Arith.v ===== *)
(** What the arithmetic instructions of x86 do to registers and flags, and what
    a comparison and the conditional instruction that follows it do. *)
From S2P Require Import Prelude BitVector SymType SymExpr SymEval RegDescriptor RiscOps RiscConcrete RiscConcreteFacts RiscArith RiscMulDiv.
From S2P Require Import RiscRegisters RiscRegFacts RiscRegTheorems RiscMachine RiscRun RiscX86 RiscX86Insn RiscX86Flags RiscX86Operands.
From stdpp Require Import gmap.
Open Scope Z_scope.

Section Instructions.
Context {St : Type} {Regs : HasRegisters CValue St} {Mem : MemoryOperators CValue St} {Laws : RegisterLaws St Regs} (d : DispatcherX86).
#[local] Existing Instance ConcreteOps.
Implicit Types (f : Bits) (reg : RegisterDescriptor) (insn : X86Insn).

(** Writing the result to the first operand. *)
Lemma runs_result w e reg n v f : e = DirectRegister n reg -> is_gpr reg = true -> nBits reg = w -> bv_ok w v ->
  runs (x86_write d e (mkCV w v)) f tt (assign (gpr_assign d reg v) f).
Proof. intros -> Hr <- Hv. now apply runs_write. Qed.

Lemma widened_ok w a w' b f : 0 < w' <= w -> bv_ok w' b -> runs (widened (mkCV w a) (mkCV w' b)) f (mkCV w (sext w' w b)) f.
Proof.
  intros Hw Hb. unfold widened. cbn [nBits_ ConcreteOps c_nBits]. destruct (Z.ltb_spec w' w).
  - apply runs_pure. intros s. apply c_sext_ok; assumption || lia.
  - assert (w' = w) as -> by lia. rewrite sext_same by (assumption || lia). apply runs_ret.
Qed.

Lemma minus_operands_ok e0 e1 w a w' b f : operand e0 w a f -> operand e1 w' b f -> w' <= w ->
  runs (minus_operands d e0 e1) f (mkCV w a, mkCV w (sext w' w b)) f.
Proof.
  intros H0 H1 Hw. destruct (operand_ok _ _ _ _ H1) as (_ & Hw1 & Hb). unfold minus_operands.
  by_lemma (runs_read d e0 w a 0 f H0 (or_introl eq_refl)). by_lemma (runs_read d e1 w' b 0 f H1 (or_introl eq_refl)).
  by_lemma widened_ok; [lia|assumption|]. cbn [nBits_ ConcreteOps c_nBits]. eapply runs_bind; [apply runs_assert, Z.eqb_refl|apply runs_ret].
Qed.

(** The flags of a bitwise operation; those that are not specified are zero. *)
Definition logic_flags : list (RegisterDescriptor * Z) := [(REG_OF, 0); (REG_AF, 0); (REG_CF, 0)].

Lemma runs_logic_flags g : runs (write_logic_flags d) g tt (assign logic_flags g).
Proof.
  assert (Hu : unspecified_ (RiscOperators := ConcreteOps St) 1 = ret (mkCV 1 (bool_Z false))) by reflexivity.
  unfold write_logic_flags, write_flag, write_unspecified. cbn [fold_right]. rewrite Hu.
  eapply runs_bind; [run; run_fact|cbv beta]. eapply runs_bind; [run; run; run_fact|cbv beta]. run.
  eapply runs_eq; [run_fact|reflexivity|reflexivity].
Qed.

(** ** Sums and differences of operands *)

Section Binary.
Context insn e0 e1 reg n w a w' b f (lock : lockPrefix insn = false) (ops : operands insn = [e0; e1]) (dst : e0 = DirectRegister n reg)
  (Ha : operand e0 w a f) (Hb : operand e1 w' b f) (Hw' : w' <= w) (Hw : 8 <= w <= 64).
#[local] Notation y := (sext w' w b).
#[local] Notation result v fl := (assign (gpr_assign d reg (v mod 2 ^ w)) (assign fl f)).

Lemma dst_ok : is_gpr reg = true /\ nBits reg = w /\ n = w.
Proof. rewrite dst in Ha. destruct Ha as (H1 & H2 & H3 & _). easy. Qed.
Lemma y_ok : bv_ok w y.
Proof. apply mod_ok. lia. Qed.

Lemma write_result v g : runs (x86_write d e0 (mkCV w (v mod 2 ^ w))) g tt (assign (gpr_assign d reg (v mod 2 ^ w)) g).
Proof. destruct dst_ok as (Hr & Hn & _). eapply runs_result; [exact dst|assumption|assumption|apply mod_ok; lia]. Qed.

Lemma doAdd_operands (c : bool) : runs (doAddOperation d (mkCV w a) (mkCV w' b) false (mkCV 1 (bool_Z c))) f
  (mkCV w ((a + y + bool_Z c) mod 2 ^ w)) (assign (sum_flags w a y (bool_Z c)) f).
Proof.
  destruct (operand_ok _ _ _ _ Ha) as (_ & _ & Hav), (operand_ok _ _ _ _ Hb) as (_ & Hb0 & Hbv).
  pose proof (doAdd_ok d w a w' b c f ltac:(lia) Hb0 Hav Hbv) as H. cbv zeta in H.
  rewrite Z.max_l, !(sext_same w) in H by (assumption || lia). apply H. lia.
Qed.

Lemma doSub_operands (c : bool) : runs (doAddOperation d (mkCV w a) (mkCV w (2 ^ w - 1 - y)) true (mkCV 1 (bool_Z c))) f
  (mkCV w ((a - y - bool_Z c) mod 2 ^ w)) (assign (difference_flags w a y (bool_Z c)) f).
Proof. destruct (operand_ok _ _ _ _ Ha) as (_ & _ & Hav). apply doSub_ok; [lia|assumption|apply y_ok]. Qed.

Lemma invert_y : runs (invert (mkCV w y)) f (mkCV w (2 ^ w - 1 - y)) f.
Proof. apply runs_pure. intros s. apply c_invert_ok; [lia|apply y_ok]. Qed.

Lemma read_dst : runs (x86_read d e0 0) f (mkCV w a) f.
Proof. apply runs_read; [exact Ha|now left]. Qed.
Lemma read_src : runs (x86_read d e1 0) f (mkCV w' b) f.
Proof. apply runs_read; [exact Hb|now left]. Qed.
Lemma read_both : runs (minus_operands d e0 e1) f (mkCV w a, mkCV w y) f.
Proof. now apply minus_operands_ok. Qed.
#[local] Hint Resolve read_dst read_src read_both invert_y : runs.

Lemma IP_add_ok : runs (IP_add d insn) f tt (result (a + y + 0) (sum_flags w a y 0)).
Proof. unfold IP_add. insn_body. runs. by_lemma (doAdd_operands false). apply write_result. Qed.

Lemma IP_adc_ok c : holds REG_CF (bool_Z c) f -> runs (IP_adc d insn) f tt (result (a + y + bool_Z c) (sum_flags w a y (bool_Z c))).
Proof. intros Hc. unfold IP_adc. insn_body. runs. by_lemma (doAdd_operands c). apply write_result. Qed.

Lemma IP_sub_ok : runs (IP_sub d insn) f tt (result (a - y - 0) (difference_flags w a y 0)).
Proof. unfold IP_sub. insn_body. runs. by_lemma (doSub_operands false). apply write_result. Qed.

Lemma IP_sbb_ok c : holds REG_CF (bool_Z c) f -> runs (IP_sbb d insn) f tt (result (a - y - bool_Z c) (difference_flags w a y (bool_Z c))).
Proof. intros Hc. unfold IP_sbb. insn_body. runs. by_lemma (doSub_operands c). apply write_result. Qed.

Lemma IP_cmp_ok : runs (IP_cmp d insn) f tt (assign (difference_flags w a y 0) f).
Proof. unfold IP_cmp. insn_body. runs. by_lemma (doSub_operands false). apply runs_ret. Qed.

(** ** Bitwise operations *)

#[local] Notation logic v := (assign logic_flags (assign (gpr_assign d reg v) (assign (result_flags w v) f))).

Lemma a_ok : bv_ok w a.
Proof. now destruct (operand_ok _ _ _ _ Ha). Qed.

Lemma write_bits v g : bv_ok w v -> runs (x86_write d e0 (mkCV w v)) g tt (assign (gpr_assign d reg v) g).
Proof. intros Hv. destruct dst_ok as (Hr & Hn & _). now apply (runs_result w e0 reg n v g). Qed.

Lemma logic_tail v : bv_ok w v ->
  runs (let* _ := setFlagsForResult d (mkCV w v) in let* _ := x86_write d e0 (mkCV w v) in write_logic_flags d) f tt (logic v).
Proof. intros Hv. by_lemma setFlags_ok; [lia|assumption|]. by_lemma write_bits; [assumption|]. apply runs_logic_flags. Qed.

Lemma IP_and_ok : runs (IP_and d insn) f tt (logic (Z.land a y)).
Proof.
  destruct (operand_ok _ _ _ _ Hb) as (_ & Hb0 & Hbv). unfold IP_and. insn_body. runs. by_lemma widened_ok; [lia|assumption|].
  run. apply logic_tail, land_ok; [lia|apply a_ok|apply y_ok].
Qed.

Lemma IP_or_ok : runs (IP_or d insn) f tt (logic (Z.lor a y)).
Proof. unfold IP_or. insn_body. runs. apply logic_tail, lor_ok; [lia|apply a_ok|apply y_ok]. Qed.

Lemma IP_xor_ok : runs (IP_xor d insn) f tt (logic (Z.lxor a y)).
Proof.
  unfold IP_xor. insn_body. eapply runs_bind.
  - instantiate (1 := f). instantiate (1 := mkCV w (Z.lxor a y)). destruct (same_register e0 e1) eqn:Hs; [|run; run_fact].
    (* the register holds one value *)
    assert (E : Z.lxor a y = 0).
    { rewrite dst in Hs, Ha. unfold same_register in Hs. cbn [isDirectRegister] in Hs. destruct e1 as [m q| | | | |]; cbn [isDirectRegister] in Hs; try discriminate.
      unfold descriptor_eqb in Hs. apply Z.eqb_eq in Hs. assert (reg = q) as <- by (destruct reg, q; cbn in Hs; congruence). destruct Ha as (_ & Hn & Hr & Hh), Hb as (_ & Hn' & _ & Hh').
      assert (w' = w) as -> by congruence. apply is_gpr_valid in Hr as (_ & Hr0 & _).
      assert (a = b) as -> by now apply (holds_unique reg _ _ f). rewrite sext_same by (assumption || lia || (rewrite <- Hn; apply Hh)). apply Z.lxor_nilpotent. }
    rewrite E. rewrite dst. cbn [asm_width]. destruct dst_ok as (_ & _ & ->). eapply runs_eq; [run_fact|now rewrite Z.mod_0_l by (pose proof (pow2_pos w); lia)|reflexivity].
  - cbv beta. apply logic_tail, lxor_ok; [lia|apply a_ok|apply y_ok].
Qed.

Lemma IP_test_ok : runs (IP_test d insn) f tt (assign logic_flags (assign (result_flags w (Z.land a y)) f)).
Proof.
  unfold IP_test. insn_body. runs. by_lemma setFlags_ok; [lia|apply land_ok; [lia|apply a_ok|apply y_ok]|]. apply runs_logic_flags.
Qed.

(** ** Moves *)

(** What a move of a value of [w'] bits to [w] bits stores. *)
Definition zext : Z := b mod 2 ^ w.

Lemma zext_small : zext = b.
Proof. destruct (operand_ok _ _ _ _ Hb) as (_ & Hb0 & Hbv). apply Z.mod_small. apply (ok_le w'); assumption || lia. Qed.

Lemma dst_width : asm_width e0 = w.
Proof. rewrite dst. now destruct dst_ok as (_ & _ & ->). Qed.

Lemma IP_mov_ok : runs (IP_mov d insn) f tt
  (assign (gpr_assign d reg (if (w' <? w) && (w =? 64) && isIntegerValue e1 then y else b)) f).
Proof.
  destruct (operand_ok _ _ _ _ Hb) as (_ & Hb0 & Hbv). pose proof zext_small as Hz. unfold zext in Hz. assert (Hbw : bv_ok w b) by (rewrite <- Hz; apply mod_ok; lia).
  unfold IP_mov. insn_body. run. rewrite dst_width. destruct (Z.ltb_spec w' w); cbn [andb].
  - destruct ((w =? 64) && isIntegerValue e1) eqn:E.
    + apply andb_true_iff in E as [E _]. apply Z.eqb_eq in E. eapply runs_bind; [apply runs_pure; intros s; apply c_sext_ok; assumption || lia|cbv beta].
      rewrite <- E. apply write_bits, y_ok.
    + eapply runs_bind; [apply runs_pure; intros s; apply c_uext_ok; assumption || lia|cbv beta]. rewrite Hz. now apply write_bits.
  - run. assert (w' = w) as -> by lia. now apply write_bits.
Qed.

Lemma IP_move_zero_extend_ok : runs (IP_move_zero_extend d insn) f tt (assign (gpr_assign d reg b) f).
Proof.
  destruct (operand_ok _ _ _ _ Hb) as (_ & Hb0 & Hbv). pose proof zext_small as Hz. unfold zext in Hz. assert (Hbw : bv_ok w b) by (rewrite <- Hz; apply mod_ok; lia).
  unfold IP_move_zero_extend. insn_body. run. rewrite dst_width. destruct (Z.eqb_spec w' w) as [->|Hne]; cbn [negb].
  - run. now apply write_bits.
  - eapply runs_bind; [apply runs_pure; intros s; apply c_uext_ok; assumption || lia|cbv beta]. rewrite Hz. now apply write_bits.
Qed.

Lemma IP_move_sign_extend_ok : runs (IP_move_sign_extend d insn) f tt (assign (gpr_assign d reg y) f).
Proof.
  destruct (operand_ok _ _ _ _ Hb) as (_ & Hb0 & Hbv). unfold IP_move_sign_extend. insn_body. run. rewrite dst_width.
  destruct (Z.ltb_spec w' w).
  - eapply runs_bind; [apply runs_pure; intros s; apply c_sext_ok; assumption || lia|cbv beta]. apply write_bits, y_ok.
  - run. assert (w' = w) as -> by lia. rewrite sext_same by assumption. now apply write_bits.
Qed.
End Binary.

(** ** Instructions of one operand *)

Section Unary.
Context insn e0 reg n w a f (lock : lockPrefix insn = false) (ops : operands insn = [e0]) (dst : e0 = DirectRegister n reg)
  (Ha : operand e0 w a f) (Hw : 8 <= w <= 64).

Lemma read_only : runs (x86_read d e0 0) f (mkCV w a) f.
Proof. apply runs_read; [exact Ha|now left]. Qed.
#[local] Hint Resolve read_only : runs.

Lemma write_only v g : bv_ok w v -> runs (x86_write d e0 (mkCV w v)) g tt (assign (gpr_assign d reg v) g).
Proof. intros Hv. pose proof Ha as H. rewrite dst in H. destruct H as (_ & Hn & Hr & _). now apply (runs_result w e0 reg n v g). Qed.

Lemma only_ok : bv_ok w a.
Proof. now destruct (operand_ok _ _ _ _ Ha). Qed.

Lemma IP_neg_ok : runs (IP_neg d insn) f tt (assign (gpr_assign d reg ((0 - a - 0) mod 2 ^ w)) (assign (difference_flags w 0 a 0) f)).
Proof.
  unfold IP_neg. insn_body. run. run. eapply runs_bind; [apply runs_pure; intros s; apply c_invert_ok; [lia|apply only_ok]|cbv beta].
  eapply runs_bind; [apply runs_pure; intros s; apply c_number_ok; lia|cbv beta]. rewrite Z.mod_0_l by (pose proof (pow2_pos w); lia).
  by_lemma (doSub_ok d w 0 a false); [lia|apply zero_ok; lia|apply only_ok|]. apply write_only, mod_ok. lia.
Qed.

Lemma IP_inc_ok : runs (IP_inc d insn) f tt (assign (gpr_assign d reg ((a + 1) mod 2 ^ w)) (assign (step_flags w a false false) f)).
Proof. unfold IP_inc. insn_body. run. by_lemma doInc_ok; [lia|apply only_ok|]. apply write_only, mod_ok. lia. Qed.

Lemma IP_dec_ok : runs (IP_dec d insn) f tt (assign (gpr_assign d reg ((a + -1) mod 2 ^ w)) (assign (step_flags w a true false) f)).
Proof. unfold IP_dec. insn_body. run. by_lemma doInc_ok; [lia|apply only_ok|]. apply write_only, mod_ok. lia. Qed.

Lemma IP_not_ok : runs (IP_not d insn) f tt (assign (gpr_assign d reg (2 ^ w - 1 - a)) f).
Proof.
  unfold IP_not. insn_body. run. eapply runs_bind; [apply runs_pure; intros s; apply c_invert_ok; [lia|apply only_ok]|cbv beta].
  apply write_only. pose proof only_ok as H. unfold bv_ok in *. lia.
Qed.
End Unary.
End Instructions.
