(* ===== verification/RiscX86Jump.v ===== *)
(** Comparisons followed by conditional instructions, and loops, of x86. *)
From S2P Require Import Prelude BitVector SymType SymExpr SymEval RegDescriptor RiscOps RiscConcrete RiscConcreteFacts RiscArith RiscMulDiv.
From S2P Require Import RiscRegisters RiscRegFacts RiscRegTheorems RiscMachine RiscRun RiscX86 RiscX86Insn RiscX86Flags RiscX86Operands RiscX86Arith.
From stdpp Require Import gmap.
Open Scope Z_scope.

(** * Jumps *)

Section Jumps.
Context {St : Type} {Regs : HasRegisters CValue St} {Mem : MemoryOperators CValue St} {Laws : RegisterLaws St Regs} (d : DispatcherX86).
#[local] Existing Instance ConcreteOps.
Implicit Types (f : Bits) (insn : X86Insn).
#[local] Notation ip := (REG_anyIP d).
#[local] Notation width := (mode_width d).

(** The address a jump goes to: its low 16 bits, for operands of that size in 32-bit mode. *)
Definition short_address insn (v : Z) : Z :=
  if match operandSize insn with x86_insnsize_16 => width =? 32 | _ => false end then v mod 2 ^ 16 else v.

Lemma short_target_ok insn v f : bv_ok width v -> runs (short_target d insn (mkCV width v)) f (mkCV width (short_address insn v)) f.
Proof.
  intros Hv. unfold short_target, short_address. rewrite anyIP_width.
  destruct (operandSize insn); try apply runs_ret.
  destruct (Z.eqb_spec width 32) as [E|E]; [|apply runs_ret]. rewrite E in *.
  eapply runs_bind; [apply runs_pure; intros s; reflexivity|cbv beta].
  eapply runs_bind; [apply runs_pure; intros s; apply c_extract_ok; assumption || lia|cbv beta].
  apply runs_pure. intros s. rewrite Z.pow_0_r, Z.div_1_r.
  refine (eq_trans (c_concat_ok 16 (v mod 2 ^ 16) 16 0 s ltac:(lia) ltac:(lia) (mod_ok 16 v ltac:(lia)) (mod_ok 16 0 ltac:(lia))) _).
  now rewrite Z.mul_0_l, Z.add_0_r.
Qed.

Lemma short_address_ok insn v : bv_ok width v -> bv_ok width (short_address insn v).
Proof.
  intros Hv. unfold short_address. match goal with |- context [if ?c then _ else _] => destruct c end; [|exact Hv]. unfold bv_ok in *. pose proof (Z.mod_pos_bound v (2 ^ 16) ltac:(lia)).
  pose proof (Z.mod_le v (2 ^ 16) ltac:(lia) ltac:(lia)). lia.
Qed.

Lemma mode_width_ok : 8 <= width <= 64.
Proof. unfold mode_width. destruct (processorMode d); lia. Qed.

Lemma runs_ite (b : bool) (x y : CValue) f : runs (ite (mkCV 1 (bool_Z b)) x y) f (if b then x else y) f.
Proof. apply runs_pure. intros s. apply c_ite_ok. Qed.

Lemma jump_value insn e w t f : operand e w t f -> w <= width ->
  runs (let* v := x86_read d e 0 in unsignedExtend v width) f (mkCV width t) f.
Proof.
  intros Ho Hw. destruct (operand_ok _ _ _ _ Ho) as (_ & Hw0 & Ht). by_lemma runs_read; [exact Ho|now left|].
  eapply runs_eq; [apply runs_pure; intros s; apply c_uext_ok; assumption || lia| |reflexivity].
  now rewrite Z.mod_small by (apply (ok_le w); assumption || lia).
Qed.

(** A conditional jump to a known target. *)
Lemma IP_jcc_ok insn e w t i r f :
  lockPrefix insn = false -> operands insn = [e] -> operand e w t f -> w <= width ->
  holds ip i f -> runs (flagsCombo (kind insn)) f (mkCV 1 (bool_Z r)) f ->
  runs (IP_jcc d insn) f tt (bits_write ip (short_address insn (if r then t else i)) f).
Proof.
  intros lock ops Ho Hw Hi Hc. destruct (operand_ok _ _ _ _ Ho) as (_ & Hw0 & Ht). unfold IP_jcc. insn_body. rewrite anyIP_width.
  by_lemma Hc. by_lemma runs_read_ip; [exact Hi|]. by_lemma runs_read; [exact Ho|now left|].
  eapply runs_bind; [apply runs_pure; intros s; apply c_uext_ok; assumption || lia|cbv beta].
  rewrite Z.mod_small by (apply (ok_le w); assumption || lia). by_lemma runs_ite.
  replace (if r then mkCV width t else mkCV width i) with (mkCV width (if r then t else i)) by now destruct r.
  assert (Hv : bv_ok width (if r then t else i)) by (destruct r; [apply (ok_le w); assumption || lia|rewrite <- anyIP_width; apply Hi]).
  by_lemma short_target_ok; [exact Hv|]. now apply runs_write_ip, short_address_ok.
Qed.

Lemma IP_jmp_ok insn e w t f :
  lockPrefix insn = false -> operands insn = [e] -> operand e w t f -> w <= width ->
  runs (IP_jmp d insn) f tt (bits_write ip (short_address insn t) f).
Proof.
  intros lock ops Ho Hw. destruct (operand_ok _ _ _ _ Ho) as (_ & Hw0 & Ht). unfold IP_jmp. insn_body. rewrite anyIP_width.
  by_lemma runs_read; [exact Ho|now left|]. eapply runs_bind; [apply runs_pure; intros s; apply c_uext_ok; assumption || lia|cbv beta].
  rewrite Z.mod_small by (apply (ok_le w); assumption || lia). eapply runs_bind; [apply runs_pure; intros s; reflexivity|cbv beta].
  assert (Hv : bv_ok width t) by (apply (ok_le w); assumption || lia).
  by_lemma short_target_ok; [exact Hv|]. now apply runs_write_ip, short_address_ok.
Qed.

(** ** Conditional moves and sets *)

Lemma IP_cmovcc_ok insn e0 e1 reg n w a b r f :
  lockPrefix insn = false -> operands insn = [e0; e1] -> e0 = DirectRegister n reg -> operand e0 w a f -> operand e1 w b f ->
  runs (flagsCombo (kind insn)) f (mkCV 1 (bool_Z r)) f ->
  runs (IP_cmovcc d insn) f tt (assign (gpr_assign d reg (if r then b else a)) f).
Proof.
  intros lock ops dst Ha Hb Hc. unfold IP_cmovcc. insn_body. by_lemma runs_read; [exact Ha|now left|]. by_lemma runs_read; [exact Hb|now left|].
  by_lemma Hc. by_lemma runs_ite. destruct (operand_ok _ _ _ _ Ha) as (_ & _ & Hav), (operand_ok _ _ _ _ Hb) as (_ & _ & Hbv).
  replace (if r then mkCV w b else mkCV w a) with (mkCV w (if r then b else a)) by now destruct r.
  rewrite dst in Ha. destruct Ha as (_ & Hn & Hr & _). apply (runs_result d w e0 reg n); try assumption. now destruct r.
Qed.

Lemma IP_setcc_ok insn e0 reg n r f :
  lockPrefix insn = false -> operands insn = [e0] -> e0 = DirectRegister n reg -> is_gpr reg = true -> nBits reg = 8 ->
  runs (flagsCombo (kind insn)) f (mkCV 1 (bool_Z r)) f ->
  runs (IP_setcc d insn) f tt (assign (gpr_assign d reg (bool_Z r)) f).
Proof.
  intros lock ops dst Hr Hn Hc. unfold IP_setcc. insn_body. by_lemma Hc. run.
  eapply runs_bind; [apply runs_pure; intros s; apply c_concat_ok; [lia|lia|apply bool_Z_ok|apply mod_ok; lia]|cbv beta].
  rewrite Z.mod_0_l, Z.mul_0_l, Z.add_0_r by lia. apply (runs_result d 8 e0 reg n); try assumption. destruct r; unfold bv_ok; cbn; lia.
Qed.

(** * A comparison and what follows it *)

Section Compared.
Context insn e0 e1 w a w' b k r f (lock : lockPrefix insn = false) (ops : operands insn = [e0; e1])
  (Ha : operand e0 w a f) (Hb : operand e1 w' b f) (Hw' : w' <= w) (Hw : 8 <= w <= 64)
  (Hk : condition k w a (sext w' w b) = Some r).
#[local] Notation y := (sext w' w b).
#[local] Notation compared := (assign (difference_flags w a y 0) f).

Lemma no_gpr_difference : no_gpr (difference_flags w a y 0) = true.
Proof. vm_compute. reflexivity. Qed.

Lemma compared_condition : runs (IP_cmp d insn) f tt compared /\ runs (flagsCombo k) compared (mkCV 1 (bool_Z r)) compared.
Proof.
  destruct (operand_ok _ _ _ _ Ha) as (_ & _ & Hav). split; [now apply (IP_cmp_ok d insn e0 e1)|].
  apply condition_ok; [lia|assumption|apply mod_ok; lia|assumption].
Qed.
End Compared.
End Jumps.
