(* ===== verification/RiscX86Vector.v ===== *)
(** The vector instructions of x86
    ([src/Rose/BinaryAnalysis/InstructionSemantics/DispatcherX86.C], the structures
    [IP_p*] of the MMX and SSE instructions).

    A vector is a value that is cut into elements; an instruction computes the
    elements of the result one after the other, the lowest first, and joins them.
    A result of no elements is a null pointer, which [write] asserts against. *)
From S2P Require Import Prelude BitVector RegDescriptor RiscOps RiscConcrete RiscRegisters RiscMachine RiscX86 RiscX86Insn.
Open Scope Z_scope.

Definition x86_regclass_xmm : Z := 5.
Definition REG_XMM0 := x86_register x86_regclass_xmm 0 0 128.
Definition REG_EDI := gpr x86_gpr_di 0 32.
Definition REG_DS := x86_register x86_regclass_segment x86_segreg_ds 0 16.

Section Vectors.
Context {V St : Type} {Ops : RiscOperators V St} {Regs : HasRegisters V St} {Mem : MemoryOperators V St}.
Variable d : DispatcherX86.
#[local] Notation read e := (x86_read d e 0).

(** * Loops over elements *)

(** [result = result ? ops->concat(result, part) : part], for [n] parts from [i]. *)
Fixpoint packed_from (n : nat) (i : Z) (part : Z -> M St V) (result : option V) : M St (option V) :=
  match n with
  | O => ret result
  | S n =>
      let* p := part i in
      let* r := match result with Some r => concat_ r p | None => ret p end in
      packed_from n (i + 1) part (Some r)
  end.
Definition packed (n : Z) (part : Z -> M St V) : M St (option V) := packed_from (Z.to_nat n) 0 part None.

(** Element [i] of [bits] bits. *)
Definition element_of (v : V) (bits i : Z) : M St V := extract v (i * bits) ((i + 1) * bits).

Definition write_packed (e : AsmExpr) (result : option V) : M St unit :=
  match result with Some r => x86_write d e r | None => fail AssertFail end.

(** An instruction of two vectors of one width. *)
Definition vector2 (insn : X86Insn) (body : V -> V -> M St (option V)) : M St unit :=
  args2 insn (fun a0 a1 => unlocked insn (
    let* a := read a0 in
    let* b := read a1 in
    assert* nBits_ a =? nBits_ b else AssertFail in
    let* result := body a b in
    write_packed a0 result)).

(** The result of an operation on the elements at the same place. *)
Definition elementwise (bits : Z) (op : V -> V -> M St V) (a b : V) : M St (option V) :=
  packed (nBits_ a / bits) (fun i =>
    let* partA := element_of a bits i in
    let* partB := element_of b bits i in op partA partB).

(** An instruction of one vector, read from the second operand. *)
Definition vector1 (insn : X86Insn) (body : V -> M St (option V)) : M St unit :=
  args2 insn (fun a0 a1 => unlocked insn (
    let* src := read a1 in
    let* result := body src in
    write_packed a0 result)).

(** * Arithmetic of elements *)

Definition IP_pabs (bitsPerOp : Z) (insn : X86Insn) : M St unit :=
  vector1 insn (fun src => packed (nBits_ src / bitsPerOp) (fun i =>
    let* part := element_of src bitsPerOp i in
    let* signBit := extract src ((i + 1) * bitsPerOp - 1) ((i + 1) * bitsPerOp) in
    let* n := negate part in
    ite signBit n part)).

Definition IP_padd (bitsPerOp : Z) (insn : X86Insn) : M St unit := vector2 insn (elementwise bitsPerOp add).

(** An operation on elements extended by their signs, and the result saturated. *)
Definition saturating (bitsPerOp : Z) (op : V -> V -> M St V) (saturate : V -> Z -> M St V) (partA partB : V) : M St V :=
  let* a := signExtend partA (bitsPerOp + 1) in
  let* b := signExtend partB (bitsPerOp + 1) in
  let* r := op a b in
  saturate r bitsPerOp.
Definition IP_padds (bitsPerOp : Z) (insn : X86Insn) : M St unit :=
  vector2 insn (elementwise bitsPerOp (saturating bitsPerOp add saturateSignedToSigned)).
Definition IP_paddus (bitsPerOp : Z) (insn : X86Insn) : M St unit :=
  vector2 insn (elementwise bitsPerOp (saturating bitsPerOp add saturateUnsignedToUnsigned)).

(** Subtractions do not assert that the widths agree. *)
Definition vector2_unchecked (insn : X86Insn) (body : V -> V -> M St (option V)) : M St unit :=
  args2 insn (fun a0 a1 => unlocked insn (
    let* dst := read a0 in
    let* src := read a1 in
    let* result := body dst src in
    write_packed a0 result)).
Definition IP_psub (bitsPerOp : Z) (insn : X86Insn) : M St unit := vector2_unchecked insn (elementwise bitsPerOp subtract).
Definition IP_psubs (bitsPerOp : Z) (insn : X86Insn) : M St unit :=
  vector2_unchecked insn (elementwise bitsPerOp (saturating bitsPerOp subtract saturateSignedToSigned)).
Definition IP_psubus (bitsPerOp : Z) (insn : X86Insn) : M St unit :=
  vector2_unchecked insn (elementwise bitsPerOp (saturating bitsPerOp subtract saturateUnsignedToUnsigned)).

(** The average is computed, and not written. *)
Definition IP_pavg (bitsPerOp : Z) (insn : X86Insn) : M St unit :=
  args2 insn (fun a0 a1 => unlocked insn (
    let* a := read a0 in
    let* b := read a1 in
    assert* nBits_ a =? nBits_ b else AssertFail in
    let* _ := elementwise bitsPerOp (fun partA partB =>
      let* partBWide := unsignedExtend partB (bitsPerOp + 1) in
      let* one := number_ (bitsPerOp + 1) 1 in
      let* partAWide := unsignedExtend partA (bitsPerOp + 1) in
      let* sum := add partAWide partBWide in
      let* sum := add sum one in
      extract sum 1 (bitsPerOp + 1)) a b in
    ret tt)).

(** The greater or the lesser element. *)
Definition chosen (less : V -> V -> M St V) (take_less : bool) (partA partB : V) : M St V :=
  let* c := less partA partB in
  if take_less then ite c partA partB else ite c partB partA.
Definition IP_pmaxs (bitsPerOp : Z) (insn : X86Insn) : M St unit := vector2 insn (elementwise bitsPerOp (chosen isSignedLessThan false)).
Definition IP_pmaxu (bitsPerOp : Z) (insn : X86Insn) : M St unit := vector2 insn (elementwise bitsPerOp (chosen isUnsignedLessThan false)).
Definition IP_pmins (bitsPerOp : Z) (insn : X86Insn) : M St unit := vector2 insn (elementwise bitsPerOp (chosen isSignedLessThan true)).
Definition IP_pminu (bitsPerOp : Z) (insn : X86Insn) : M St unit := vector2 insn (elementwise bitsPerOp (chosen isUnsignedLessThan true)).

(** Products, of which a part is kept. *)
Definition product_part (multiply : V -> V -> M St V) (lo hi : Z) (term0 term1 : V) : M St V :=
  let* product := multiply term0 term1 in extract product lo hi.
Definition IP_pmulhuw (insn : X86Insn) : M St unit := vector2 insn (elementwise 16 (product_part unsignedMultiply 16 32)).
Definition IP_pmulhw (insn : X86Insn) : M St unit := vector2 insn (elementwise 16 (product_part signedMultiply 16 32)).
Definition IP_pmull (bitsPerOp : Z) (insn : X86Insn) : M St unit :=
  vector2 insn (elementwise bitsPerOp (product_part signedMultiply 0 bitsPerOp)).

Definition IP_pmulhrsw (insn : X86Insn) : M St unit :=
  vector2 insn (elementwise 16 (fun partA partB =>
    let* product := unsignedMultiply partA partB in
    let* one32 := number_ 32 1 in
    let* fourteen := number_ 32 14 in
    let* shifted := shiftRight product fourteen in
    let* sum := add shifted one32 in
    extract sum 1 17)).

Definition IP_pmuludq (insn : X86Insn) : M St unit :=
  vector2 insn (fun dst src => packed (nBits_ dst / 64) (fun i =>
    let* term0 := element_of dst 32 (2 * i) in
    let* term1 := element_of src 32 (2 * i) in
    unsignedMultiply term0 term1)).

Definition IP_pmuldq (insn : X86Insn) : M St unit :=
  vector2 insn (fun dst src =>
    let* dst_0_32 := extract dst 0 32 in
    let* src_0_32 := extract src 0 32 in
    let* prod0 := signedMultiply src_0_32 dst_0_32 in
    let* dst_64_96 := extract dst 64 96 in
    let* src_64_96 := extract src 64 96 in
    let* prod1 := signedMultiply src_64_96 dst_64_96 in
    let* result := concat_ prod0 prod1 in
    ret (Some result)).

(** Sums of two products, [PMADDUBSW] and [PMADDWD]. *)
Definition IP_pmaddubsw (insn : X86Insn) : M St unit :=
  vector2 insn (fun a b => packed (nBits_ a / 16) (fun i =>
    let* x0 := extract a (i * 16) (i * 16 + 8) in
    let* x1 := extract a (i * 16 + 8) (i * 16 + 16) in
    let* y0 := extract b (i * 16) (i * 16 + 8) in
    let* y1 := extract b (i * 16 + 8) (i * 16 + 16) in
    let* prod0 := unsignedMultiply x0 y0 in
    let* prod1 := unsignedMultiply x1 y1 in
    let* prod1Wide := signExtend prod1 17 in
    let* prod0Wide := signExtend prod0 17 in
    let* sum := add prod0Wide prod1Wide in
    saturateSignedToSigned sum 16)).

(** An odd number of elements is rounded up by the loop, and fails in [extract]. *)
Definition IP_pmaddwd (insn : X86Insn) : M St unit :=
  vector2 insn (fun dst src => packed ((nBits_ dst / 16 + 1) / 2) (fun k =>
    let i := 2 * k in
    let* x0 := element_of src 16 i in
    let* x1 := element_of src 16 (i + 1) in
    let* y0 := element_of dst 16 i in
    let* y1 := element_of dst 16 (i + 1) in
    let* prod0 := unsignedMultiply x0 y0 in
    let* prod1 := unsignedMultiply x1 y1 in
    add prod0 prod1)).

(** Sums of absolute differences of bytes. *)
Fixpoint sum_from (n : nat) (j : Z) (part : Z -> M St V) (sum : option V) : M St (option V) :=
  match n with
  | O => ret sum
  | S n =>
      let* p := part j in
      let* r := match sum with Some s => add s p | None => ret p end in
      sum_from n (j + 1) part (Some r)
  end.
Definition absolute_difference (partA partB : V) : M St V :=
  let* diffAB := subtract partA partB in
  let* diffBA := subtract partB partA in
  let* c := isUnsignedLessThan partA partB in
  ite c diffBA diffAB.
Definition IP_psadbw (insn : X86Insn) : M St unit :=
  vector2 insn (fun dst src =>
    assert* (nBits_ dst =? 64) || (nBits_ dst =? 128) else AssertFail in
    packed (nBits_ dst / 64) (fun i =>
      let* sum := sum_from 8 0 (fun j =>
        let* partA := extract dst (i * 64 + j * 8) (i * 64 + j * 8 + 8) in
        let* partB := extract src (i * 64 + j * 8) (i * 64 + j * 8 + 8) in
        absolute_difference partA partB) None in
      match sum with Some s => unsignedExtend s 64 | None => fail AssertFail end)).

(** * Comparisons *)

Definition IP_pcmpeq (nCmpBits : Z) (insn : X86Insn) : M St unit :=
  vector2 insn (fun a b =>
    assert* negb (nCmpBits =? 0) && (nBits_ a mod nCmpBits =? 0) else AssertFail in
    let* zero := number_ nCmpBits 0 in
    let* ones := invert zero in
    elementwise nCmpBits (fun partA partB =>
      let* n := negate partB in
      let* diff := add partA n in
      let* z := equalToZero diff in
      ite z ones zero) a b).

Definition IP_pcmpgt (bitsPerOp : Z) (insn : X86Insn) : M St unit :=
  vector2 insn (fun a b =>
    let* zero := number_ bitsPerOp 0 in
    let* ones := invert zero in
    elementwise bitsPerOp (fun partA partB =>
      let* partBWide := signExtend partB (bitsPerOp + 1) in
      let* partAWide := signExtend partA (bitsPerOp + 1) in
      let* diff := subtract partAWide partBWide in
      let* isLT := extract diff bitsPerOp (bitsPerOp + 1) in
      let* isEQ := equalToZero diff in
      let* isLE := or_ isLT isEQ in
      ite isLE zero ones) a b).

Definition IP_psign (bitsPerOp : Z) (insn : X86Insn) : M St unit :=
  vector2 insn (fun a b =>
    let* zero := number_ bitsPerOp 0 in
    let* allSet := invert zero in
    elementwise bitsPerOp (fun partA _ =>
      let* isZero := equalToZero b in
      let* isNegative := extract b (bitsPerOp - 1) bitsPerOp in
      let* v := ite isZero zero partA in
      ite isNegative allSet v) a b).

Definition IP_ptest (insn : X86Insn) : M St unit :=
  args2 insn (fun a0 a1 => unlocked insn (
    let* a := read a0 in
    let* b := read a1 in
    assert* nBits_ a =? nBits_ b else AssertFail in
    let* ab := and_ a b in
    let* zf := equalToZero ab in
    let* nb := invert b in
    let* anb := and_ a nb in
    let* cf := equalToZero anb in
    let* no := boolean_ false in
    let* _ := x86_writeRegister d REG_ZF zf in
    let* _ := x86_writeRegister d REG_CF cf in
    let* _ := x86_writeRegister d REG_AF no in
    let* _ := x86_writeRegister d REG_OF no in
    let* _ := x86_writeRegister d REG_PF no in
    x86_writeRegister d REG_SF no)).

(** The least element and its place. *)
Fixpoint minimum_from (n : nat) (i : Z) (src : V) (least : option (V * V)) : M St (option (V * V)) :=
  match n with
  | O => ret least
  | S n =>
      let* part := element_of src 16 i in
      let* r :=
        match least with
        | Some (minVal, minIndex) =>
            let* isLessThan := isUnsignedLessThan part minVal in
            let* v := ite isLessThan part minVal in
            let* k := number_ 3 i in
            let* j := ite isLessThan k minIndex in
            ret (v, j)
        | None => let* k := number_ 3 i in ret (part, k)
        end in
      minimum_from n (i + 1) src (Some r)
  end.
Definition IP_phminposuw (insn : X86Insn) : M St unit :=
  vector1 insn (fun src =>
    let* least := minimum_from (Z.to_nat (nBits_ src / 16)) 0 src None in
    match least with
    | Some (minVal, minIndex) => let* r := concat_ minVal minIndex in let* r := unsignedExtend r 128 in ret (Some r)
    | None => fail AssertFail
    end).

(** * Horizontal operations *)

(** The pairs of neighbours of [a], and those of [b]. *)
Definition horizontal (bitsPerOp : Z) (op : V -> V -> M St V) (a b : V) : M St (option V) :=
  let pairs v i :=
    let* term1 := element_of v bitsPerOp (2 * i) in
    let* term2 := element_of v bitsPerOp (2 * i + 1) in op term1 term2 in
  let nOps := nBits_ a / bitsPerOp in
  let* low := packed (nOps / 2) (pairs a) in
  match low with
  | Some _ => packed_from (Z.to_nat (nOps / 2)) 0 (pairs b) low
  | None => ret None
  end.
Definition IP_phadd (bitsPerOp : Z) (insn : X86Insn) : M St unit := vector2 insn (horizontal bitsPerOp add).
Definition IP_phadds (bitsPerOp : Z) (insn : X86Insn) : M St unit :=
  vector2 insn (horizontal bitsPerOp (saturating bitsPerOp add saturateSignedToSigned)).
Definition IP_phsub (bitsPerOp : Z) (insn : X86Insn) : M St unit := vector2 insn (horizontal bitsPerOp subtract).
Definition IP_phsubs (bitsPerOp : Z) (insn : X86Insn) : M St unit :=
  vector2 insn (horizontal bitsPerOp (saturating bitsPerOp subtract saturateSignedToSigned)).

(** * Conversions and moves of elements *)

(** The elements of [a] and then those of [b], made smaller. *)
Definition pack (srcBitsPerOp dstBitsPerOp : Z) (saturate : V -> Z -> M St V) (a b : V) : M St (option V) :=
  let nOps := nBits_ a / srcBitsPerOp in
  let part v i := let* src := element_of v srcBitsPerOp i in saturate src dstBitsPerOp in
  let* low := packed nOps (part a) in
  packed_from (Z.to_nat nOps) 0 (part b) low.
Definition IP_packss (srcBitsPerOp dstBitsPerOp : Z) (insn : X86Insn) : M St unit :=
  vector2 insn (pack srcBitsPerOp dstBitsPerOp saturateSignedToSigned).
Definition IP_packus (srcBitsPerOp dstBitsPerOp : Z) (insn : X86Insn) : M St unit :=
  vector2 insn (pack srcBitsPerOp dstBitsPerOp saturateSignedToUnsigned).

(** The elements of one half of both vectors, interleaved. *)
Definition unpack (bitsPerOp : Z) (high : bool) (a b : V) : M St (option V) :=
  let halfWidth := nBits_ a / 2 in
  let base := if high then halfWidth else 0 in
  packed (halfWidth / bitsPerOp) (fun i =>
    let* partA := extract a (base + i * bitsPerOp) (base + (i + 1) * bitsPerOp) in
    let* partB := extract b (base + i * bitsPerOp) (base + (i + 1) * bitsPerOp) in
    concat_ partA partB).
Definition IP_punpckh (bitsPerOp : Z) (insn : X86Insn) : M St unit := vector2 insn (unpack bitsPerOp true).
Definition IP_punpckl (bitsPerOp : Z) (insn : X86Insn) : M St unit := vector2 insn (unpack bitsPerOp false).

(** Elements made wider; how many depends on the width of the destination. *)
Definition move_extend (srcBitsPerOp dstBitsPerOp : Z) (extend : V -> Z -> M St V) (insn : X86Insn) : M St unit :=
  args2 insn (fun a0 a1 => unlocked insn (
    let* src := read a1 in
    let* result := packed (asm_width a0 / dstBitsPerOp) (fun i =>
      let* part := element_of src srcBitsPerOp i in extend part dstBitsPerOp) in
    write_packed a0 result)).
Definition IP_pmovsx (srcBitsPerOp dstBitsPerOp : Z) : X86Insn -> M St unit := move_extend srcBitsPerOp dstBitsPerOp signExtend.
Definition IP_pmovzx (srcBitsPerOp dstBitsPerOp : Z) : X86Insn -> M St unit := move_extend srcBitsPerOp dstBitsPerOp unsignedExtend.

(** The sign bits of the bytes. *)
Definition IP_pmovmskb (insn : X86Insn) : M St unit :=
  args2 insn (fun a0 a1 => unlocked insn (
    let* src := read a1 in
    let* result := packed (nBits_ src / 8) (fun i => extract src (8 * i + 7) (8 * i + 8)) in
    match result with
    | Some r => let* r := unsignedExtend r (asm_width a0) in x86_write d a0 r
    | None => fail AssertFail
    end)).

(** The index of an element to extract or insert, as wide as the instruction takes it. *)
Definition element_index (bitsPerOp width index : Z) : M St Z :=
  if bitsPerOp =? 8 then ret (Z.land index 0x0f)
  else if bitsPerOp =? 16 then ret (Z.land index (if width =? 64 then 0x03 else 0x07))
  else if bitsPerOp =? 32 then ret (Z.land index 0x03)
  else if bitsPerOp =? 64 then ret (Z.land index 0x01)
  else fail AssertFail.

Definition IP_pextr (bitsPerOp : Z) (insn : X86Insn) : M St unit :=
  args3 insn (fun a0 a1 a2 => unlocked insn (
    let* src := read a1 in
    let* k := read a2 in
    let* index := toUnsigned_get k in
    let* index := element_index bitsPerOp (nBits_ src) index in
    let* extracted := element_of src bitsPerOp index in
    let* result := unsignedExtend extracted (asm_width a0) in
    x86_write d a0 result)).

Definition IP_pinsr (bitsPerOp : Z) (insn : X86Insn) : M St unit :=
  args3 insn (fun a0 a1 a2 => unlocked insn (
    let* k := read a2 in
    let* index := toUnsigned_get k in
    let* index := element_index bitsPerOp (asm_width a0) index in
    let* v := read a1 in
    let* src := extract v 0 bitsPerOp in
    let* dst := read a0 in
    let* result := if 0 <? index then let* low := extract dst 0 (index * bitsPerOp) in concat_ low src else ret src in
    let* result :=
      if (index + 1) * bitsPerOp <? nBits_ dst
      then let* high := extract dst ((index + 1) * bitsPerOp) (nBits_ dst) in concat_ result high else ret result in
    x86_write d a0 result)).

(** * Shuffles and blends *)

Definition IP_pshufb (insn : X86Insn) : M St unit :=
  vector2 insn (fun original indices =>
    let bitsPerIndex := if nBits_ original =? 64 then 3 else 4 in
    let* eight := number_ 4 8 in
    packed (nBits_ original / 8) (fun i =>
      let* indexMsb := extract indices (i * 8 + 7) (i * 8 + 8) in
      let* index := extract indices (i * 8) (i * 8 + bitsPerIndex) in
      let* sa := unsignedMultiply index eight in
      let* selected := shiftRight original sa in
      let* selected := unsignedExtend selected 8 in
      let* zero := number_ 8 0 in
      ite indexMsb zero selected)).

(** Two bits of [order] for each of four elements. *)
Definition order_index (order i : Z) : Z := Z.land (Z.shiftr order (2 * i)) 3.

Definition IP_pshufd (insn : X86Insn) : M St unit :=
  args3 insn (fun a0 a1 a2 => unlocked insn (
    let* src := read a1 in
    let* o := read a2 in
    assert* isConcrete o else AssertFail in
    let* order := toUnsigned_get o in
    let* result := packed 4 (fun i => element_of src 32 (order_index order i)) in
    write_packed a0 result)).

(** The other shuffles take the source from the first operand. *)
Definition IP_pshufw (insn : X86Insn) : M St unit :=
  args3 insn (fun a0 a1 a2 =>
    assert* (asm_width a0 =? 64) else AssertFail in
    assert* (asm_width a1 =? 64) else AssertFail in
    unlocked insn (
      let* src := read a0 in
      let* o := read a2 in
      let* order := toUnsigned_get o in
      let* result := packed 4 (fun i => element_of src 16 (order_index order i)) in
      write_packed a0 result)).
Definition IP_pshuflw (insn : X86Insn) : M St unit :=
  args3 insn (fun a0 a1 a2 =>
    assert* (asm_width a0 =? 128) else AssertFail in
    assert* (asm_width a1 =? 128) else AssertFail in
    unlocked insn (
      let* src := read a0 in
      let* o := read a2 in
      let* order := toUnsigned_get o in
      let* result := packed 4 (fun i => element_of src 16 (order_index order i)) in
      match result with
      | Some low => let* high := extract src 64 128 in let* r := concat_ low high in x86_write d a0 r
      | None => fail AssertFail
      end)).
Definition IP_pshufhw (insn : X86Insn) : M St unit :=
  args3 insn (fun a0 a1 a2 =>
    assert* (asm_width a0 =? 128) else AssertFail in
    assert* (asm_width a1 =? 128) else AssertFail in
    unlocked insn (
      let* src := read a0 in
      let* low := extract src 0 64 in
      let* o := read a2 in
      let* order := toUnsigned_get o in
      let* result := packed_from 4 0 (fun i => element_of src 16 (4 + order_index order i)) (Some low) in
      write_packed a0 result)).

(** The blends select whole vectors for every element, and write nothing. *)
Definition IP_pblendvb (insn : X86Insn) : M St unit :=
  args2 insn (fun a0 a1 => unlocked insn (
    let* a := read a0 in
    let* b := read a1 in
    let* xmm0 := x86_readRegister REG_XMM0 READ_REGISTER in
    assert* nBits_ a =? nBits_ b else AssertFail in
    let* _ := packed (nBits_ a / 8) (fun i =>
      let* _ := element_of a 8 i in
      let* _ := element_of b 8 i in
      let* selector := extract xmm0 (i * 8 + 7) (i * 8 + 8) in
      ite selector b a) in
    ret tt)).
Definition IP_pblendw (insn : X86Insn) : M St unit :=
  args3 insn (fun a0 a1 a2 => unlocked insn (
    let* a := read a0 in
    let* b := read a1 in
    let* m := read a2 in
    let* mask := toUnsigned_get m in
    assert* nBits_ a =? nBits_ b else AssertFail in
    let* _ := packed (nBits_ a / 16) (fun i =>
      let* _ := element_of a 16 i in
      let* _ := element_of b 16 i in
      ret (if Z.testbit mask i then b else a)) in
    ret tt)).

(** * Bitwise operations and shifts *)

Definition whole (insn : X86Insn) (checked : bool) (op : V -> V -> M St V) : M St unit :=
  args2 insn (fun a0 a1 => unlocked insn (
    let* a := read a0 in
    let* b := read a1 in
    assert* negb checked || (nBits_ a =? nBits_ b) else AssertFail in
    let* result := op a b in
    x86_write d a0 result)).
Definition IP_pand (insn : X86Insn) : M St unit := whole insn false and_.
Definition IP_pandn (insn : X86Insn) : M St unit := whole insn false (fun a b => let* v := and_ a b in invert v).
Definition IP_por (insn : X86Insn) : M St unit := whole insn true or_.

(** A lock prefix is not looked at. *)
Definition IP_pxor (insn : X86Insn) : M St unit :=
  args2 insn (fun a0 a1 =>
    let nbits := asm_width a0 in
    assert* nbits =? asm_width a1 else Throw in
    let same := match registerOf a0, registerOf a1 with Some r1, Some r2 => descriptor_eqb r1 r2 | _, _ => false end in
    let* result :=
      if same then number_ nbits 0
      else let* arg1 := x86_read d a1 nbits in let* arg0 := x86_read d a0 nbits in xor_ arg0 arg1 in
    x86_write d a0 result).

(** The concatenation has the first operand in its low part. *)
Definition IP_palignr (insn : X86Insn) : M St unit :=
  args3 insn (fun a0 a1 a2 => unlocked insn (
    let nbits := asm_width a0 in
    assert* (nbits =? 64) || (nbits =? 128) else Throw in
    assert* asm_width a1 =? nbits else Throw in
    match a2 with
    | IntegerExpr _ nBytes =>
        let* arg1 := read a1 in
        let* arg0 := read a0 in
        let* wide := concat_ arg0 arg1 in
        let* k := lift (get_value nBytes) in
        let* sa := number_ 8 (u64 (k * 8)) in
        let* shifted := shiftRight wide sa in
        let* result := extract shifted 0 nbits in
        x86_write d a0 result
    | _ => fail Throw
    end)).

(** Every element shifted by the second operand. *)
Definition shift_elements (bitsPerOp : Z) (shift : V -> V -> M St V) (insn : X86Insn) : M St unit :=
  args2 insn (fun a0 a1 => unlocked insn (
    let* src := read a0 in
    let* sa := read a1 in
    let* result := packed (nBits_ src / bitsPerOp) (fun i => let* part := element_of src bitsPerOp i in shift part sa) in
    write_packed a0 result)).
Definition IP_psll (bitsPerOp : Z) : X86Insn -> M St unit := shift_elements bitsPerOp shiftLeft.
Definition IP_psrl (bitsPerOp : Z) : X86Insn -> M St unit := shift_elements bitsPerOp shiftRight.
Definition IP_psra (bitsPerOp : Z) : X86Insn -> M St unit := shift_elements bitsPerOp shiftRightArithmetic.

(** The whole vector shifted by bytes; the number of bits is an 8-bit number. *)
Definition shift_bytes (shift : V -> V -> M St V) (insn : X86Insn) : M St unit :=
  args2 insn (fun a0 a1 => unlocked insn (
    let* src := read a0 in
    let* k := read a1 in
    let* nBytesShift := toUnsigned_get k in
    let* sa := number_ 8 (u64 (8 * nBytesShift)) in
    let* result := shift src sa in
    x86_write d a0 result)).
Definition IP_pslldq : X86Insn -> M St unit := shift_bytes shiftLeft.
Definition IP_psrldq : X86Insn -> M St unit := shift_bytes shiftRight.

(** * Masked store *)

Definition IP_maskmov (insn : X86Insn) : M St unit :=
  args2 insn (fun a0 a1 => unlocked insn (
    let* src := read a0 in
    let* mask := read a1 in
    assert* nBits_ src =? nBits_ mask else AssertFail in
    let* startVa := x86_readRegister REG_EDI READ_REGISTER in
    let* yes := boolean_ true in
    let* dflt := undefined_ (nBits_ src) in
    let* mem := readMemory REG_DS startVa dflt yes in
    let* result := packed (nBits_ src / 8) (fun i =>
      let* partMask := extract mask (i * 8) (i * 8 + 1) in
      let* v2 := extract mem (i * 8) (i * 8 + 8) in
      let* v1 := extract src (i * 8) (i * 8 + 8) in
      ite partMask v1 v2) in
    match result with
    | Some r => let* yes := boolean_ true in writeMemory REG_DS startVa r yes
    | None => fail AssertFail
    end)).
End Vectors.
