(* ===== verification/RiscX86VectorFacts.v ===== *)
(** What the vector instructions of x86 compute, element by element, in the
    concrete domain. *)
From S2P Require Import Prelude BitVector SymType SymExpr SymEval RegDescriptor RiscOps RiscConcrete RiscConcreteFacts RiscArith RiscMulDiv RiscData.
From S2P Require Import RiscRegisters RiscRegFacts RiscRegTheorems RiscMachine RiscRun RiscX86 RiscX86Insn RiscX86Vector RiscX86Flags RiscX86Operands.
From stdpp Require Import gmap.
Open Scope Z_scope.

(** * Vectors of numbers *)

(** The vector of [n] elements of [e] bits. *)
Fixpoint vector_of (e : Z) (n : nat) (g : Z -> Z) : Z :=
  match n with O => 0 | S n => vector_of e n g + g (Z.of_nat n) * 2 ^ (Z.of_nat n * e) end.

Lemma vector_ok e n g : 0 < e -> (forall i, 0 <= i < Z.of_nat n -> bv_ok e (g i)) -> bv_ok (Z.of_nat n * e) (vector_of e n g).
Proof.
  intros He. induction n as [|n IH]; intros Hg; [cbn; unfold bv_ok; lia|]. cbn [vector_of].
  specialize (IH (fun i Hi => Hg i ltac:(lia))). specialize (Hg (Z.of_nat n) ltac:(lia)). unfold bv_ok in *.
  replace (Z.of_nat (S n) * e) with (Z.of_nat n * e + e) by lia. rewrite Z.pow_add_r by nia. nia.
Qed.

(** Its elements are what it was made of. *)
Lemma vector_element e n g i : 0 < e -> (forall i, 0 <= i < Z.of_nat n -> bv_ok e (g i)) -> 0 <= i < Z.of_nat n ->
  element (vector_of e n g) e i = g i.
Proof.
  intros He. induction n as [|n IH]; intros Hg Hi; [lia|]. cbn [vector_of].
  pose proof (vector_ok e n g He (fun i Hi => Hg i ltac:(lia))) as Hv. unfold element, bv_ok in *.
  destruct (Z.eq_dec i (Z.of_nat n)) as [->|Hne].
  - rewrite Z.div_add, Z.div_small by lia. cbn [Z.add]. apply Z.mod_small. apply Hg. lia.
  - rewrite <- (IH (fun i Hi => Hg i ltac:(lia)) ltac:(lia)). replace (Z.of_nat n * e) with (i * e + (e + (Z.of_nat n - i - 1) * e)) by lia.
    rewrite !Z.pow_add_r by nia. pose proof (pow2_pos (i * e) ltac:(nia)). set (P := 2 ^ (i * e)) in *. set (R := 2 ^ ((Z.of_nat n - i - 1) * e)).
    replace (g (Z.of_nat n) * (P * (2 ^ e * R))) with (g (Z.of_nat n) * R * 2 ^ e * P) by ring. rewrite Z.div_add by lia. apply Z_mod_plus_full.
Qed.

Section Packed.
Context {St : Type} {Regs : HasRegisters CValue St} {Mem : MemoryOperators CValue St} {Laws : RegisterLaws St Regs} (d : DispatcherX86).
#[local] Existing Instance ConcreteOps.

Lemma packed_from_ok n k part e g f : 0 < e -> (0 < k)%nat ->
  (forall i, 0 <= i < Z.of_nat (k + n) -> bv_ok e (g i)) ->
  (forall i, Z.of_nat k <= i < Z.of_nat (k + n) -> runs (part i) f (mkCV e (g i)) f) ->
  runs (packed_from n (Z.of_nat k) part (Some (mkCV (Z.of_nat k * e) (vector_of e k g)))) f (Some (mkCV (Z.of_nat (k + n) * e) (vector_of e (k + n) g))) f.
Proof.
  intros He. revert k. induction n as [|n IH]; intros k Hk Hg Hp; cbn [packed_from].
  { rewrite Nat.add_0_r. apply runs_ret. }
  eapply runs_bind; [apply Hp; lia|cbv beta]. eapply runs_bind.
  - apply runs_pure. intros s. apply c_concat_ok; [nia|lia| |apply Hg; lia]. apply vector_ok; [assumption|]. intros i Hi. apply Hg. lia.
  - cbv beta. replace (Z.of_nat k * e + e) with (Z.of_nat (S k) * e) by lia. replace (Z.of_nat k + 1) with (Z.of_nat (S k)) by lia.
    fold (vector_of e (S k) g). replace (k + S n)%nat with (S k + n)%nat in * by lia. apply IH; [lia|assumption|]. intros i Hi. apply Hp. lia.
Qed.

Lemma packed_ok n part e g f : 0 < e -> 0 < n -> (forall i, 0 <= i < n -> bv_ok e (g i) /\ runs (part i) f (mkCV e (g i)) f) ->
  runs (packed n part) f (Some (mkCV (n * e) (vector_of e (Z.to_nat n) g))) f.
Proof.
  intros He Hn Hp. unfold packed. destruct (Z.to_nat n) as [|m] eqn:E; [lia|]. cbn [packed_from].
  eapply runs_bind; [apply (Hp 0); lia|cbv beta]. eapply runs_bind; [apply runs_ret|cbv beta].
  pose proof (packed_from_ok m 1 part e g f He ltac:(lia)) as H. cbn [vector_of Z.of_nat Pos.of_succ_nat] in H.
  rewrite Z.mul_0_l, Z.pow_0_r, Z.mul_1_r, Z.mul_1_l, Z.add_0_l in H. replace n with (Z.of_nat (1 + m)) by lia. apply H.
  - intros i Hi. apply Hp. lia.
  - intros i Hi. apply Hp. lia.
Qed.

Lemma element_of_ok w a e i f : 0 < e -> 0 <= i -> (i + 1) * e <= w -> runs (element_of (mkCV w a) e i) f (mkCV e (element a e i)) f.
Proof.
  intros He Hi Hw. unfold element_of. eapply runs_eq; [apply runs_pure; intros s; apply c_extract_ok; nia| |reflexivity].
  unfold element. replace ((i + 1) * e - i * e) with e by lia. reflexivity.
Qed.

(** Elements of [e] bits to elements of [e'] bits. *)
Definition computes (op : CValue -> CValue -> M St CValue) (e e' : Z) (h : Z -> Z -> Z) : Prop :=
  forall x y, bv_ok e x -> bv_ok e y -> bv_ok e' (h x y) /\ forall s, op (mkCV e x) (mkCV e y) s = Ret (mkCV e' (h x y), s).

Lemma computes_ext op e e' h h' : (forall x y, bv_ok e x -> bv_ok e y -> h x y = h' x y) -> computes op e e' h -> computes op e e' h'.
Proof. intros E H x y Hx Hy. rewrite <- E by assumption. now apply H. Qed.

Lemma elementwise_ok op n e e' h w a b f : 0 < e -> 0 < e' -> 0 < n -> w = n * e -> computes op e e' h ->
  runs (elementwise e op (mkCV w a) (mkCV w b)) f (Some (mkCV (n * e') (vector_of e' (Z.to_nat n) (fun i => h (element a e i) (element b e i))))) f.
Proof.
  intros He He' Hn -> Hop. unfold elementwise. cbn [nBits_ ConcreteOps c_nBits]. rewrite Z.div_mul by lia.
  apply packed_ok; [assumption..|]. intros i Hi. split.
  - apply Hop; apply element_ok; lia.
  - eapply runs_bind; [apply element_of_ok; nia|cbv beta]. eapply runs_bind; [apply element_of_ok; nia|cbv beta].
    apply runs_pure. intros s. apply Hop; apply element_ok; lia.
Qed.

(** ** Instructions of two vectors *)

(** The instruction, on vectors of [n] elements of [e] bits in registers, computes
    [h] on the elements at the same place. *)
Definition lanes (IP : X86Insn -> M St unit) (e : Z) (h : Z -> Z -> Z) : Prop :=
  forall insn e0 reg0 e1 reg1 n a b f,
    lockPrefix insn = false -> operands insn = [e0; e1] -> 0 < n ->
    whole_register d e0 reg0 (n * e) -> holds reg0 a f -> whole_register d e1 reg1 (n * e) -> holds reg1 b f ->
    runs (IP insn) f tt (bits_write reg0 (vector_of e (Z.to_nat n) (fun i => h (element a e i) (element b e i))) f).

Lemma vector2_body_lanes e body h : 0 < e -> (forall x y, bv_ok e x -> bv_ok e y -> bv_ok e (h x y)) ->
  (forall n a b f, 0 < n -> runs (body (mkCV (n * e) a) (mkCV (n * e) b)) f
     (Some (mkCV (n * e) (vector_of e (Z.to_nat n) (fun i => h (element a e i) (element b e i))))) f) ->
  lanes (fun insn => vector2 d insn body) e h.
Proof.
  intros He Hok Hbody insn e0 reg0 e1 reg1 n a b f lock ops Hn H0 Ha H1 Hb. unfold vector2. insn_body.
  by_lemma runs_read_whole; [exact H0|exact Ha|]. by_lemma runs_read_whole; [exact H1|exact Hb|].
  cbn [nBits_ ConcreteOps c_nBits]. eapply runs_bind; [apply runs_assert, Z.eqb_refl|cbv beta].
  eapply runs_bind; [now apply Hbody|cbv beta]. unfold write_packed. apply runs_write_whole; [assumption|].
  replace n with (Z.of_nat (Z.to_nat n)) at 1 by lia. apply vector_ok; [assumption|]. intros i Hi. apply Hok; apply element_ok; lia.
Qed.

Lemma vector2_lanes e op h : 0 < e -> computes op e e h -> lanes (fun insn => vector2 d insn (elementwise e op)) e h.
Proof.
  intros He Hop. apply vector2_body_lanes; [assumption|intros x y Hx Hy; now apply Hop|]. intros n a b f Hn. now apply elementwise_ok.
Qed.

Lemma vector2_unchecked_lanes e op h : 0 < e -> computes op e e h -> lanes (fun insn => vector2_unchecked d insn (elementwise e op)) e h.
Proof.
  intros He Hop insn e0 reg0 e1 reg1 n a b f lock ops Hn H0 Ha H1 Hb. unfold vector2_unchecked. insn_body.
  by_lemma runs_read_whole; [exact H0|exact Ha|]. by_lemma runs_read_whole; [exact H1|exact Hb|].
  eapply runs_bind; [now apply (elementwise_ok op n e e h)|cbv beta]. unfold write_packed. apply runs_write_whole; [assumption|].
  replace n with (Z.of_nat (Z.to_nat n)) at 1 by lia. apply vector_ok; [assumption|]. intros i Hi. apply Hop; apply element_ok; lia.
Qed.
End Packed.

(** * Saturation *)

(** A number within the range of [n] bits in two's complement. *)
Definition clamp (n x : Z) : Z := Z.max (- 2 ^ (n - 1)) (Z.min (2 ^ (n - 1) - 1) x).

Lemma clamp_id n x : - 2 ^ (n - 1) <= x < 2 ^ (n - 1) -> clamp n x = x.
Proof. unfold clamp. lia. Qed.

Section Saturation.
Context {St : Type}.
Implicit Type s : St.
#[local] Existing Instance ConcreteOps.

(** The high bits of a number, from the sign of [n] bits on, are all clear or all set when the number fits. *)
Lemma high_bits w n v : 0 < n < w -> bv_ok w v ->
  let high := v / 2 ^ (n - 1) mod 2 ^ (w - (n - 1)) in
  bv_ok (w - (n - 1)) high /\
  ((high =? 0) || (high =? 2 ^ (w - (n - 1)) - 1)) = ((- 2 ^ (n - 1) <=? sval w v) && (sval w v <? 2 ^ (n - 1))).
Proof.
  intros Hn Hv high. pose proof (mod_ok (w - (n - 1)) (v / 2 ^ (n - 1)) ltac:(lia)) as Hh. split; [exact Hh|].
  assert (E : high = v / 2 ^ (n - 1)).
  { apply Z.mod_small. pose proof (pow2_pos (n - 1) ltac:(lia)). unfold bv_ok in Hv. split; [apply Z.div_pos; lia|].
    apply Z.div_lt_upper_bound; [lia|]. rewrite <- Z.pow_add_r by lia. replace (n - 1 + (w - (n - 1))) with w by lia. lia. }
  pose proof (Z.div_mod v (2 ^ (n - 1)) ltac:(pose proof (pow2_pos (n - 1)); lia)) as D. rewrite <- E in D.
  pose proof (mod_ok (n - 1) v ltac:(lia)) as Hr. unfold bv_ok in *. pose proof (pow2_pos (n - 1) ltac:(lia)) as Hp.
  pose proof (pow2_split (n - 1) w ltac:(lia)) as Hs. pose proof (pow2_split 1 w ltac:(lia)) as Hs1. rewrite Z.pow_1_r in Hs1.
  pose proof (pow2_split (n - 1) (w - 1) ltac:(lia)) as Hs2. replace (w - 1 - (n - 1)) with (w - n) in Hs2 by lia.
  pose proof (pow2_split 1 (w - (n - 1)) ltac:(lia)) as Hs3. rewrite Z.pow_1_r in Hs3. replace (w - (n - 1) - 1) with (w - n) in Hs3 by lia.
  rewrite sval_top by (assumption || lia). generalize dependent (v mod 2 ^ (n - 1)). intros r D Hr.
  pose proof (pow2_pos (w - n) ltac:(lia)). set (p := 2 ^ (n - 1)) in *. set (T := 2 ^ (w - n)) in *.
  assert (p <= T * p) by nia. assert (high = 0 -> v < p) by nia. assert (high <> 0 -> p <= v) by nia.
  assert (high = 2 * T - 1 -> 2 * (T * p) - p <= v) by nia. assert (high < 2 * T - 1 -> v < 2 * (T * p) - p) by nia.
  replace (2 ^ w) with (2 * (T * p)) in * by lia. replace (2 ^ (w - 1)) with (T * p) in * by lia.
  fold high in Hh. rewrite Hs3 in *. clearbody p T high. destruct (Z.leb_spec (T * p) v); cbn [bool_Z];
    case_cmp; cbn [orb andb]; try reflexivity; lia.
Qed.

Ltac op l := erewrite bind_Ret by (apply l; first [assumption|lia|apply mod_ok; lia]); cbn [nBits_ ConcreteOps c_nBits].

Lemma saturateSignedToSigned_ok w n v s : 1 < n <= w -> w < 2 ^ 64 -> bv_ok w v ->
  saturateSignedToSigned (mkCV w v) n s = Ret (mkCV n (clamp n (sval w v) mod 2 ^ n), s).
Proof.
  intros Hn Hw Hv. unfold saturateSignedToSigned. cbn [nBits_ ConcreteOps c_nBits]. erewrite bind_Ret by (apply assert_Ret; lia).
  destruct (Z.eqb_spec w n) as [->|Hne].
  { rewrite clamp_id by (apply sval_range; assumption || lia). fold (sext n n v). now rewrite sext_same by (assumption || lia). }
  rewrite !usub_small by lia. op (c_bit_ok (St := St) w v (w - 1)). destruct (high_bits w n v ltac:(lia) Hv) as [Hh Hf]. pose proof (pow2_pos n ltac:(lia)).
  pose proof (pow2_split 1 n ltac:(lia)) as Hs. rewrite Z.pow_1_r in Hs. pose proof (pow2_pos (n - 1) ltac:(lia)).
  op (c_extract_ok (St := St)). set (high := v / 2 ^ (n - 1) mod _) in *. op (c_number_ok (St := St)). rewrite Z.mod_0_l by (pose proof (pow2_pos (w - (n - 1))); lia).
  erewrite bind_Ret by (apply c_invert_ok; [lia|apply zero_ok; lia]). erewrite bind_Ret by (apply c_isEqual_ok; [assumption|]; pose proof (pow2_pos (w - (n - 1)) ltac:(lia)); unfold bv_ok; lia).
  erewrite bind_Ret by apply c_eqz_ok. erewrite bind_Ret by apply c_bor_ok. rewrite Z.sub_0_r, Hf.
  erewrite bind_Ret by apply c_boolean_ok. op (c_number_ok (St := St)). rewrite Z.mod_0_l by lia.
  erewrite bind_Ret by (apply c_concat_ok; try lia; [apply zero_ok; lia|apply bool_Z_ok]). replace (n - 1 + 1) with n by lia. cbn [bool_Z].
  replace (0 + 1 * 2 ^ (n - 1)) with (2 ^ (n - 1)) by lia. erewrite bind_Ret by (apply c_invert_ok; unfold bv_ok; lia). erewrite bind_Ret by apply c_ite_ok.
  op (c_extract_ok (St := St)). rewrite c_ite_ok, Z.sub_0_r, Z.pow_0_r, Z.div_1_r, testbit_top by (assumption || lia).
  pose proof (sval_range w v ltac:(lia) Hv). assert (Hmod : v mod 2 ^ n = sval w v mod 2 ^ n).
  { rewrite sval_top, (pow2_split n w) by (assumption || lia). set (b := bool_Z _).
    replace (v - b * (2 ^ (w - n) * 2 ^ n)) with (v + (- (b * 2 ^ (w - n))) * 2 ^ n) by ring. now rewrite Z_mod_plus_full. }
  pose proof (pow2_split 1 w ltac:(lia)) as Hs1. rewrite Z.pow_1_r in Hs1. assert (Hsign : (2 ^ (w - 1) <=? v) = (sval w v <? 0)).
  { rewrite sval_top by (assumption || lia). unfold bv_ok in Hv. case_cmp; cbn [bool_Z] in *; reflexivity || lia. }
  rewrite Hmod, Hsign. unfold clamp. set (x := sval w v) in *. clearbody x. do 2 f_equal. pose proof (Z_mod_plus_full (- 2 ^ (n - 1)) 1 (2 ^ n)) as Hmin.
  case_cmp; cbn [andb]; f_equal; try (f_equal; lia).
  - rewrite Z.max_l, <- Hmin by lia. rewrite Z.mod_small; lia.
  - rewrite Z.max_r, Z.min_l by lia. rewrite Z.mod_small; lia.
Qed.

Lemma saturateUnsignedToUnsigned_ok w n v s : 0 < n <= w -> w < 2 ^ 64 -> bv_ok w v ->
  saturateUnsignedToUnsigned (mkCV w v) n s = Ret (mkCV n (Z.min v (2 ^ n - 1)), s).
Proof.
  intros Hn Hw Hv. unfold saturateUnsignedToUnsigned. cbn [nBits_ ConcreteOps c_nBits]. erewrite bind_Ret by (apply assert_Ret; lia).
  pose proof (pow2_pos n ltac:(lia)). destruct (Z.eqb_spec w n) as [->|Hne]; [unfold bv_ok in Hv; now rewrite Z.min_l by lia|].
  op (c_extract_ok (St := St)). erewrite bind_Ret by apply c_eqz_ok. op (c_number_ok (St := St)). rewrite Z.mod_0_l by lia.
  erewrite bind_Ret by (apply c_invert_ok; [lia|apply zero_ok; lia]). op (c_extract_ok (St := St)). rewrite c_ite_ok, !Z.sub_0_r, Z.pow_0_r, Z.div_1_r.
  pose proof (pow2_split n w ltac:(lia)) as Hs. unfold bv_ok in Hv. rewrite (Z.mod_small (v / 2 ^ n)).
  - destruct (Z.eqb_spec (v / 2 ^ n) 0) as [E|E].
    + apply Z.div_small_iff in E; [|lia]. rewrite Z.mod_small, Z.min_l by lia. reflexivity.
    + rewrite Z.min_r; [reflexivity|]. destruct (Z.ltb_spec v (2 ^ n)); [elim E; apply Z.div_small; lia|lia].
  - split; [apply Z.div_pos; lia|]. apply Z.div_lt_upper_bound; lia.
Qed.

(** What the code does to signed numbers that are to become unsigned: numbers that
    do not fit become all ones when negative, and zero when positive. *)
Definition saturated_wrong (n x : Z) : Z := if (0 <=? x) && (x <? 2 ^ n) then x else if x <? 0 then 2 ^ n - 1 else 0.

Lemma saturateSignedToUnsigned_ok w n v s : 0 < n < w -> w < 2 ^ 64 -> bv_ok w v ->
  saturateSignedToUnsigned (mkCV w v) n s = Ret (mkCV n (saturated_wrong n (sval w v)), s).
Proof.
  intros Hn Hw Hv. unfold saturateSignedToUnsigned. cbn [nBits_ ConcreteOps c_nBits]. erewrite bind_Ret by (apply assert_Ret; lia).
  rewrite (proj2 (Z.eqb_neq w n)), !usub_small by lia. pose proof (pow2_pos n ltac:(lia)).
  op (c_bit_ok (St := St) w v (w - 1)). op (c_extract_ok (St := St)). erewrite bind_Ret by apply c_eqz_ok.
  erewrite bind_Ret by (apply c_sext_ok; [lia|lia|apply bool_Z_ok]). op (c_extract_ok (St := St)).
  rewrite c_ite_ok, !Z.sub_0_r, Z.pow_0_r, Z.div_1_r, testbit_top by (assumption || lia). do 2 f_equal.
  pose proof (sval_range w v ltac:(lia) Hv). pose proof (pow2_split 1 w ltac:(lia)) as Hs1. rewrite Z.pow_1_r in Hs1.
  pose proof (pow2_split n w ltac:(lia)) as Hs. pose proof (pow2_le n (w - 1) ltac:(lia)) as Hl.
  assert (Hx : (v / 2 ^ n mod 2 ^ (w - n) =? 0) = ((0 <=? sval w v) && (sval w v <? 2 ^ n))).
  { unfold bv_ok in Hv. rewrite Z.mod_small by (split; [apply Z.div_pos; lia|apply Z.div_lt_upper_bound; lia]).
    rewrite sval_top by (unfold bv_ok; lia). destruct (Z.leb_spec (2 ^ (w - 1)) v); cbn [bool_Z]; destruct (Z.eqb_spec (v / 2 ^ n) 0) as [E|E].
    1, 3: apply Z.div_small_iff in E; [|lia]; case_cmp; cbn [andb]; reflexivity || lia.
    all: destruct (Z.ltb_spec v (2 ^ n)); [elim E; apply Z.div_small; lia|]; case_cmp; cbn [andb]; reflexivity || lia. }
  rewrite Hx. unfold saturated_wrong. rewrite sval_top in * by (assumption || lia). unfold bv_ok in Hv. destruct (Z.leb_spec (2 ^ (w - 1)) v); cbn [bool_Z] in *.
  - rewrite (proj2 (Z.leb_gt 0 _)), (proj2 (Z.ltb_lt _ 0)) by lia. cbn [andb]. f_equal. change (sval 1 1) with (-1).
    symmetry. apply Z.mod_unique with (q := -1); [left|]; lia.
  - rewrite Z.mul_0_l, Z.sub_0_r, (proj2 (Z.leb_le 0 v)), (proj2 (Z.ltb_ge v 0)) by lia. cbn [andb].
    destruct (Z.ltb_spec v (2 ^ n)); [now rewrite Z.mod_small by lia|]. change (sval 1 0) with 0. now rewrite Z.mod_0_l by lia.
Qed.
End Saturation.

(** * The operations on elements *)

Section Elements.
Context {St : Type}.
#[local] Existing Instance ConcreteOps.
#[local] Notation computes := (computes (St := St)).
#[local] Notation add := (RiscOps.add (RiscOperators := ConcreteOps St)).
#[local] Notation subtract := (RiscOps.subtract (Ops := ConcreteOps St)).
#[local] Notation unsignedMultiply := (RiscOps.unsignedMultiply (RiscOperators := ConcreteOps St)).
#[local] Notation signedMultiply := (RiscOps.signedMultiply (RiscOperators := ConcreteOps St)).

Lemma add_computes e : 0 < e -> computes add e e (fun x y => (x + y) mod 2 ^ e).
Proof. intros He x y Hx Hy. split; [apply mod_ok; lia|]. intros s. apply c_add_ok. Qed.

Lemma subtract_computes e : 0 < e -> computes subtract e e (fun x y => (x - y) mod 2 ^ e).
Proof. intros He x y Hx Hy. split; [apply mod_ok; lia|]. intros s. apply c_subtract_ok; [lia|assumption]. Qed.

(** Sums and differences at one bit more than the operands. *)
Lemma saturating_computes e op (f : Z -> Z -> Z) saturate g : 0 < e ->
  (forall x y s, op (mkCV (e + 1) (sext e (e + 1) x)) (mkCV (e + 1) (sext e (e + 1) y)) s = Ret (mkCV (e + 1) (f (sval e x) (sval e y) mod 2 ^ (e + 1)), s)) ->
  (forall v, bv_ok (e + 1) v -> bv_ok e (g v) /\ forall s, saturate (mkCV (e + 1) v) e s = Ret (mkCV e (g v), s)) ->
  computes (saturating e op saturate) e e (fun x y => g (f (sval e x) (sval e y) mod 2 ^ (e + 1))).
Proof.
  intros He Hop Hsat x y Hx Hy. destruct (Hsat (f (sval e x) (sval e y) mod 2 ^ (e + 1)) ltac:(apply mod_ok; lia)) as [Hok Hrun].
  split; [assumption|]. intros s. unfold saturating. do 2 erewrite bind_Ret by (apply c_sext_ok; assumption || lia). erewrite bind_Ret by apply Hop. apply Hrun.
Qed.

Lemma wide_add e x y s : 0 < e ->
  add (mkCV (e + 1) (sext e (e + 1) x)) (mkCV (e + 1) (sext e (e + 1) y)) s = Ret (mkCV (e + 1) ((sval e x + sval e y) mod 2 ^ (e + 1)), s).
Proof. intros He. rewrite c_add_ok. unfold sext. now rewrite <- Zplus_mod. Qed.
Lemma wide_subtract e x y s : 0 < e ->
  subtract (mkCV (e + 1) (sext e (e + 1) x)) (mkCV (e + 1) (sext e (e + 1) y)) s = Ret (mkCV (e + 1) ((sval e x - sval e y) mod 2 ^ (e + 1)), s).
Proof. intros He. rewrite c_subtract_ok by (try apply mod_ok; lia). unfold sext. now rewrite <- Zminus_mod. Qed.

(** Sums and differences of two numbers of [e] bits are numbers of one bit more. *)
Lemma sum_fits e x y : 0 < e -> bv_ok e x -> bv_ok e y ->
  sval (e + 1) ((sval e x + sval e y) mod 2 ^ (e + 1)) = sval e x + sval e y /\ sval (e + 1) ((sval e x - sval e y) mod 2 ^ (e + 1)) = sval e x - sval e y.
Proof.
  intros He Hx Hy. pose proof (sval_range e x He Hx). pose proof (sval_range e y He Hy). pose proof (pow2_split 1 e ltac:(lia)) as Hs. rewrite Z.pow_1_r in Hs.
  split; apply sval_of_mod; try lia; replace (e + 1 - 1) with e by lia; lia.
Qed.

Definition saturated_sum (sign : Z) (e x y : Z) : Z := clamp e (sval e x + sign * sval e y) mod 2 ^ e.
Lemma padds_computes e : 1 < e < 2 ^ 63 -> computes (saturating e add saturateSignedToSigned) e e (saturated_sum 1 e).
Proof.
  intros He x y Hx Hy. destruct (saturating_computes e add Z.add saturateSignedToSigned (fun v => clamp e (sval (e + 1) v) mod 2 ^ e) ltac:(lia)
    (fun x y s => wide_add e x y s ltac:(lia)) (fun v Hv => conj (mod_ok e _ ltac:(lia)) (fun s => saturateSignedToSigned_ok (e + 1) e v s ltac:(lia) ltac:(lia) Hv)) x y Hx Hy) as [H1 H2].
  unfold saturated_sum. rewrite Z.mul_1_l. destruct (sum_fits e x y ltac:(lia) Hx Hy) as [E _]. rewrite E in *. now split.
Qed.
Lemma psubs_computes e : 1 < e < 2 ^ 63 -> computes (saturating e subtract saturateSignedToSigned) e e (saturated_sum (-1) e).
Proof.
  intros He x y Hx Hy. destruct (saturating_computes e subtract Z.sub saturateSignedToSigned (fun v => clamp e (sval (e + 1) v) mod 2 ^ e) ltac:(lia)
    (fun x y s => wide_subtract e x y s ltac:(lia)) (fun v Hv => conj (mod_ok e _ ltac:(lia)) (fun s => saturateSignedToSigned_ok (e + 1) e v s ltac:(lia) ltac:(lia) Hv)) x y Hx Hy) as [H1 H2].
  unfold saturated_sum. replace (-1 * sval e y) with (- sval e y) by lia. rewrite Z.add_opp_r. destruct (sum_fits e x y ltac:(lia) Hx Hy) as [_ E]. rewrite E in *. now split.
Qed.

(** The unsigned versions extend by the sign, too. *)
Definition unsigned_saturated (sign : Z) (e x y : Z) : Z := Z.min ((sval e x + sign * sval e y) mod 2 ^ (e + 1)) (2 ^ e - 1).
Lemma min_ok e v : 0 < e -> bv_ok (e + 1) v -> bv_ok e (Z.min v (2 ^ e - 1)).
Proof. intros He Hv. pose proof (pow2_pos e ltac:(lia)). unfold bv_ok in *. lia. Qed.
Lemma paddus_computes e : 0 < e < 2 ^ 63 -> computes (saturating e add saturateUnsignedToUnsigned) e e (unsigned_saturated 1 e).
Proof.
  intros He x y Hx Hy. unfold unsigned_saturated. rewrite Z.mul_1_l.
  exact (saturating_computes e add Z.add saturateUnsignedToUnsigned (fun v => Z.min v (2 ^ e - 1)) ltac:(lia) (fun x y s => wide_add e x y s ltac:(lia))
    (fun v Hv => conj (min_ok e v ltac:(lia) Hv) (fun s => saturateUnsignedToUnsigned_ok (e + 1) e v s ltac:(lia) ltac:(lia) Hv)) x y Hx Hy).
Qed.
Lemma psubus_computes e : 0 < e < 2 ^ 63 -> computes (saturating e subtract saturateUnsignedToUnsigned) e e (unsigned_saturated (-1) e).
Proof.
  intros He x y Hx Hy. unfold unsigned_saturated. replace (-1 * sval e y) with (- sval e y) by lia. rewrite Z.add_opp_r.
  exact (saturating_computes e subtract Z.sub saturateUnsignedToUnsigned (fun v => Z.min v (2 ^ e - 1)) ltac:(lia) (fun x y s => wide_subtract e x y s ltac:(lia))
    (fun v Hv => conj (min_ok e v ltac:(lia) Hv) (fun s => saturateUnsignedToUnsigned_ok (e + 1) e v s ltac:(lia) ltac:(lia) Hv)) x y Hx Hy).
Qed.

Lemma chosen_computes less (lt : Z -> Z -> bool) take_less e : 0 < e ->
  (forall x y s, bv_ok e x -> bv_ok e y -> less (mkCV e x) (mkCV e y) s = Ret (mkCV 1 (bool_Z (lt x y)), s)) ->
  computes (chosen less take_less) e e (fun x y => if Bool.eqb (lt x y) take_less then x else y).
Proof.
  intros He Hlt x y Hx Hy. split; [now destruct (Bool.eqb _ _)|]. intros s. unfold chosen. erewrite bind_Ret by now apply Hlt.
  destruct take_less; rewrite c_ite_ok; now destruct (lt x y).
Qed.

Lemma product_computes multiply e (p : Z -> Z -> Z) lo hi : 0 <= lo < hi -> hi <= 2 * e -> hi - lo = e ->
  (forall x y s, bv_ok e x -> bv_ok e y -> multiply (mkCV e x) (mkCV e y) s = Ret (mkCV (2 * e) (p x y), s)) ->
  computes (product_part multiply lo hi) e e (fun x y => p x y / 2 ^ lo mod 2 ^ e).
Proof.
  intros Hl Hh He Hp x y Hx Hy. split; [apply mod_ok; lia|]. intros s. unfold product_part. erewrite bind_Ret by now apply Hp.
  rewrite c_extract_ok by lia. now rewrite He.
Qed.

Lemma unsigned_product e x y s : 0 < e <= 32 -> bv_ok e x -> bv_ok e y -> unsignedMultiply (mkCV e x) (mkCV e y) s = Ret (mkCV (2 * e) (x * y), s).
Proof.
  intros He Hx Hy. replace (2 * e) with (e + e) by lia. apply lift_Ret. apply c_unsignedMultiply_small; assumption || lia.
Qed.
Lemma signed_product e x y s : 0 < e <= 32 -> bv_ok e x -> bv_ok e y ->
  signedMultiply (mkCV e x) (mkCV e y) s = Ret (mkCV (2 * e) ((sval e x * sval e y) mod 2 ^ (2 * e)), s).
Proof.
  intros He Hx Hy. replace (2 * e) with (e + e) by lia. apply lift_Ret. apply c_signedMultiply_small; assumption || lia.
Qed.

Lemma c_ones_ok e s (k : CValue -> CValue -> M St (option CValue)) : 0 < e ->
  (let* zero := number_ e 0 in let* ones := invert zero in k zero ones) s = k (mkCV e 0) (mkCV e (2 ^ e - 1)) s.
Proof.
  intros He. pose proof (pow2_pos e ltac:(lia)). erewrite bind_Ret by (apply c_number_ok; lia). rewrite Z.mod_0_l by lia.
  erewrite bind_Ret by (apply c_invert_ok; [lia|apply zero_ok; lia]). now rewrite Z.sub_0_r.
Qed.

Lemma pcmpeq_computes e : 0 < e ->
  computes (fun partA partB => let* n := negate partB in let* diff := add partA n in let* z := equalToZero diff in ite z (mkCV e (2 ^ e - 1)) (mkCV e 0))
    e e (fun x y => if x =? y then 2 ^ e - 1 else 0).
Proof.
  intros He x y Hx Hy. pose proof (pow2_pos e ltac:(lia)). split; [destruct (x =? y); unfold bv_ok; lia|]. intros s.
  pose proof (c_isEqual_ok e x y s Hx Hy) as E. unfold isEqual, subtract in E.
  erewrite bind_Ret by (apply c_negate_ok; [lia|assumption]). erewrite bind_Ret by apply c_add_ok. erewrite bind_Ret by apply c_eqz_ok.
  rewrite c_ite_ok, Z.add_mod_idemp_r, Z.add_opp_r by lia.
  replace ((x - y) mod 2 ^ e =? 0) with (x =? y); [now destruct (x =? y)|]. symmetry. unfold bv_ok in *.
  destruct (Z.leb_spec y x); [rewrite Z.mod_small by lia; case_cmp; reflexivity || lia|].
  replace ((x - y) mod 2 ^ e) with (x - y + 2 ^ e) by (apply Z.mod_unique with (q := -1); [left|]; lia). case_cmp; reflexivity || lia.
Qed.

Lemma pcmpgt_computes e : 0 < e ->
  computes (fun partA partB =>
      let* partBWide := signExtend partB (e + 1) in
      let* partAWide := signExtend partA (e + 1) in
      let* diff := subtract partAWide partBWide in
      let* isLT := extract diff e (e + 1) in
      let* isEQ := equalToZero diff in
      let* isLE := or_ isLT isEQ in
      ite isLE (mkCV e 0) (mkCV e (2 ^ e - 1)))
    e e (fun x y => if sval e y <? sval e x then 2 ^ e - 1 else 0).
Proof.
  intros He x y Hx Hy. pose proof (pow2_pos e ltac:(lia)). split; [destruct (_ <? _); unfold bv_ok; lia|]. intros s.
  do 2 erewrite bind_Ret by (apply c_sext_ok; assumption || lia). fold (sext e (e + 1) x). fold (sext e (e + 1) y). erewrite bind_Ret by (apply wide_subtract; lia).
  set (v := (sval e x - sval e y) mod 2 ^ (e + 1)). assert (Hv : bv_ok (e + 1) v) by (apply mod_ok; lia).
  erewrite bind_Ret by (apply c_bit_ok; lia). erewrite bind_Ret by apply c_eqz_ok. erewrite bind_Ret by apply c_bor_ok. rewrite c_ite_ok.
  pose proof (testbit_top (e + 1) v ltac:(lia) Hv) as Ht. replace (e + 1 - 1) with e in Ht by lia. rewrite Ht.
  destruct (sum_fits e x y He Hx Hy) as [_ E]. fold v in E. rewrite sval_top in E by (assumption || lia). replace (e + 1 - 1) with e in E by lia.
  pose proof (pow2_split e (e + 1) ltac:(lia)) as Hs. replace (e + 1 - e) with 1 in Hs by lia. rewrite Z.pow_1_r in Hs. unfold bv_ok in Hv.
  do 2 f_equal. destruct (Z.leb_spec (2 ^ e) v); cbn [bool_Z orb] in *; case_cmp; reflexivity || lia.
Qed.
End Elements.
