(* ===== verification/RiscX86Misc.v ===== *)
(** More instructions of x86
    ([src/Rose/BinaryAnalysis/InstructionSemantics/DispatcherX86.C], structures
    [IP_*]): interrupts, moves of parts of vector registers, the flags and the
    general purpose registers on the stack, and the floating point registers. *)
From S2P Require Import Prelude BitVector RegDescriptor RiscOps RiscConcrete RiscRegisters RiscMachine RiscX86 RiscX86Insn.
Open Scope Z_scope.

Definition x86_exception_sysenter : Z := 1.
Definition x86_exception_syscall : Z := 2.

(** The status flags as a whole, and the registers that control floating point units. *)
Definition status_flags (n : Z) := x86_register x86_regclass_flags x86_flags_status 0 n.
Definition REG_FPSTATUS := x86_register x86_regclass_flags x86_flags_fpstatus 0 16.
Definition REG_FPCTL := x86_register x86_regclass_flags 3 0 16.
Definition REG_MXCSR := x86_register x86_regclass_flags 4 0 32.

Section Instructions.
Context {V St : Type} {Ops : RiscOperators V St} {Regs : HasRegisters V St} {Mem : MemoryOperators V St}.
Variable d : DispatcherX86.
#[local] Notation readReg reg := (x86_readRegister reg READ_REGISTER).
#[local] Notation writeReg := (x86_writeRegister d).
#[local] Notation read e := (x86_read d e 0).
#[local] Notation write := (x86_write d).

(** ** Interrupts and nothing *)

Definition IP_int (insn : X86Insn) : M St unit :=
  args1 insn (fun a0 => unlocked insn (
    match a0 with
    | IntegerExpr _ bv => let* v := lift (get_value bv) in interrupt x86_exception_int v
    | _ => fail Throw
    end)).
Definition IP_int3 (insn : X86Insn) : M St unit := args0 insn (unlocked insn (interrupt x86_exception_int (-3))).
Definition IP_syscall (insn : X86Insn) : M St unit := args0 insn (unlocked insn (interrupt x86_exception_syscall 0)).
Definition IP_sysenter (insn : X86Insn) : M St unit := args0 insn (unlocked insn (interrupt x86_exception_sysenter 0)).
Definition IP_wait (insn : X86Insn) : M St unit := args0 insn (ret tt).
Definition IP_fnop (insn : X86Insn) : M St unit := args0 insn (unlocked insn (ret tt)).
(** Memory is read for side effects. *)
Definition IP_clflush (insn : X86Insn) : M St unit := args1 insn (fun a0 => unlocked insn (let* _ := read a0 in ret tt)).
(** The operators of the modelled domains do nothing here, and return an unspecified value. *)
Definition IP_cpuid (insn : X86Insn) : M St unit := args0 insn (unlocked insn (ret tt)).
Definition IP_rdtsc (insn : X86Insn) : M St unit :=
  args0 insn (unlocked insn (
    let* tsc := unspecified_ 64 in
    let* lo := extract tsc 0 32 in
    let* _ := writeReg REG_EAX lo in
    let* hi := extract tsc 32 64 in
    writeReg REG_EDX hi)).

(** ** Moves *)

Definition IP_move_same (insn : X86Insn) : M St unit :=
  args2 insn (fun a0 a1 => unlocked insn (let* v := read a1 in write a0 v)).

(** The bytes in the opposite order. *)
Fixpoint movbe_loop (n : nat) (i : Z) (src : V) (result : option V) : M St (option V) :=
  match n with
  | O => ret result
  | S n =>
      let* byte := extract src (i * 8) ((i + 1) * 8) in
      let* r := match result with Some r => concat_ byte r | None => ret byte end in
      movbe_loop n (i + 1) src (Some r)
  end.
Definition IP_movbe (insn : X86Insn) : M St unit :=
  args2 insn (fun a0 a1 => unlocked insn (
    let* src := read a1 in
    let* result := movbe_loop (Z.to_nat (nBits_ src / 8)) 0 src None in
    match result with Some r => write a0 r | None => fail AssertFail end)).

(** A part of a vector register: it starts at [lo], and has [n] bits. *)
Definition vector_part (reg : RegisterDescriptor) (lo n : Z) : M St RegisterDescriptor :=
  assert* (offset reg =? 0) && (nBits reg =? 128) else AssertFail in
  lift (if lo =? 0 then set_nBits n reg else let! r := set_offset lo reg in set_nBits n r).

Definition move_half (lo : Z) (insn : X86Insn) : M St unit :=
  args2 insn (fun a0 a1 => unlocked insn (
    match isDirectRegister a0, isDirectRegister a1 with
    | Some reg, _ =>
        let* part := vector_part reg lo 64 in
        let* val := read a1 in
        assert* nBits_ val =? 64 else AssertFail in
        writeReg part val
    | None, Some reg =>
        let* part := vector_part reg lo 64 in
        let* val := readReg part in
        write a0 val
    | None, None => fail AssertFail
    end)).
Definition IP_movhpd : X86Insn -> M St unit := move_half 64.
Definition IP_movlpd : X86Insn -> M St unit := move_half 0.

(** A scalar in the low part of a vector register; one from memory clears the rest. *)
Definition move_scalar (n : Z) (insn : X86Insn) : M St unit :=
  args2 insn (fun a0 a1 => unlocked insn (
    let* v := read a1 in
    let* src := unsignedExtend v n in
    match isDirectRegister a1 with
    | Some _ =>
        match isDirectRegister a0 with
        | Some reg => let* part := vector_part reg 0 n in writeReg part src
        | None => write a0 src
        end
    | None => let* wide := unsignedExtend src 128 in write a0 wide
    end)).
Definition IP_movsd : X86Insn -> M St unit := move_scalar 64.
Definition IP_movss : X86Insn -> M St unit := move_scalar 32.

Definition IP_stmxcsr (insn : X86Insn) : M St unit := args1 insn (fun a0 => unlocked insn (let* v := readReg REG_MXCSR in write a0 v)).
Definition IP_ldmxcsr (insn : X86Insn) : M St unit := args1 insn (fun a0 => unlocked insn (let* v := read a0 in writeReg REG_MXCSR v)).

(** ** Flags on the stack *)

Definition flags_register (insn : X86Insn) : M St RegisterDescriptor :=
  match operandSize insn with
  | x86_insnsize_16 => ret (status_flags 16) | x86_insnsize_32 => ret (status_flags 32) | x86_insnsize_64 => ret (status_flags 64)
  | x86_insnsize_none => fail AssertFail
  end.

(** IOPL and VM are kept; VIP and VIF are cleared. *)
Definition popped_flags (oldFlags poppedFlags : V) : M St V :=
  let append result v := let* x := v in concat_ result x in
  let* newFlags := extract poppedFlags 0 12 in
  let* newFlags := append newFlags (extract oldFlags 12 14) in
  let* newFlags := append newFlags (extract poppedFlags 14 16) in
  if 32 <=? nBits_ oldFlags then
    let* newFlags := append newFlags (extract poppedFlags 16 17) in
    let* newFlags := append newFlags (extract oldFlags 17 18) in
    let* newFlags := append newFlags (extract poppedFlags 18 19) in
    let* newFlags := append newFlags (number_ 2 0) in
    let* newFlags := append newFlags (extract poppedFlags 21 32) in
    if nBits_ oldFlags =? 64 then append newFlags (number_ 32 0) else ret newFlags
  else ret newFlags.

Definition IP_pop_flags (insn : X86Insn) : M St unit :=
  args0 insn (unlocked insn (
    let* stackVa := readReg (REG_anySP d) in
    let* yes := boolean_ true in
    let* flagsReg := flags_register insn in
    let* oldFlags := readReg flagsReg in
    let* dflt := undefined_ (nBits flagsReg) in
    let* poppedFlags := readMemory REG_SS stackVa dflt yes in
    let* poppedFlags :=
      match operandSize insn with
      | x86_insnsize_64 =>
          let* zero32 := number_ 32 0 in
          let* low := unsignedExtend poppedFlags 32 in concat_ low zero32
      | _ => ret poppedFlags
      end in
    let* delta := number_ (nBits_ stackVa) (nBits_ poppedFlags / 8) in
    let* stackVa := add stackVa delta in
    let* _ := writeReg (REG_anySP d) stackVa in
    let* newFlags := popped_flags oldFlags poppedFlags in
    writeReg flagsReg newFlags)).

Definition IP_push_flags (insn : X86Insn) : M St unit :=
  args0 insn (unlocked insn (
    let* flagsReg := flags_register insn in
    let* flags := readReg flagsReg in
    let* valueToPush := extract flags 0 16 in
    let* valueToPush :=
      if 32 <=? nBits_ flags then
        let* cleared := number_ 2 0 in
        let* v := concat_ valueToPush cleared in
        let* middle := extract flags 18 32 in
        let* v := concat_ v middle in
        if nBits_ flags =? 64 then let* high := extract flags 32 64 in concat_ v high else ret v
      else ret valueToPush in
    assert* nBits_ valueToPush mod 8 =? 0 else AssertFail in
    let valueSize := nBits_ valueToPush / 8 in
    let* oldSp := readReg (REG_anySP d) in
    let* delta := number_ (nBits_ oldSp) (u64 (- valueSize)) in
    let* newSp := add oldSp delta in
    let* addr := fixMemoryAddress d newSp in
    let* yes := boolean_ true in
    let* _ := writeMemory REG_SS addr valueToPush yes in
    writeReg (REG_anySP d) newSp)).

(** ** All general purpose registers on the stack *)

(** From the lowest address; the stack pointer is not among them. *)
Definition stacked_registers : list (option Z) :=
  [Some x86_gpr_di; Some x86_gpr_si; Some x86_gpr_bp; None; Some x86_gpr_bx; Some x86_gpr_dx; Some x86_gpr_cx; Some x86_gpr_ax].

Definition stacked_address (base : V) (off : Z) : M St V :=
  if off =? 0 then ret base else let* k := number_ (nBits_ base) off in add base k.

Fixpoint pop_registers (l : list (option Z)) (n : Z) (base yes : V) (off : Z) : M St unit :=
  match l with
  | [] => ret tt
  | r :: l =>
      let* dflt := undefined_ n in
      let* a := stacked_address base off in
      let* v := readMemory REG_SS a dflt yes in
      let* _ := match r with Some minr => writeReg (gpr minr 0 n) v | None => ret tt end in
      pop_registers l n base yes (off + n / 8)
  end.
Fixpoint push_registers (l : list (option Z)) (n : Z) (base oldSp yes : V) (off : Z) : M St unit :=
  match l with
  | [] => ret tt
  | r :: l =>
      let* v := match r with Some minr => readReg (gpr minr 0 n) | None => ret oldSp end in
      let* a := stacked_address base off in
      let* _ := writeMemory REG_SS a v yes in
      push_registers l n base oldSp yes (off + n / 8)
  end.

(** Eight registers of 16 or of 32 bits. *)
Definition gprs_width (insn : X86Insn) : option Z :=
  match addressSize insn with x86_insnsize_16 => Some 16 | x86_insnsize_32 => Some 32 | _ => None end.
Definition IP_pop_gprs (insn : X86Insn) : M St unit :=
  args0 insn (unlocked insn (
    match gprs_width insn with
    | Some n =>
        let* oldSp := readReg (REG_anySP d) in
        let* delta := number_ (nBits_ oldSp) n in
        let* newSp := add oldSp delta in
        let* base := fixMemoryAddress d oldSp in
        let* yes := boolean_ true in
        let* _ := pop_registers stacked_registers n base yes 0 in
        writeReg (REG_anySP d) newSp
    | None => interrupt x86_exception_ud 0
    end)).
Definition IP_push_gprs (insn : X86Insn) : M St unit :=
  args0 insn (unlocked insn (
    match gprs_width insn with
    | Some n =>
        let* oldSp := readReg (REG_anySP d) in
        let* delta := number_ (nBits_ oldSp) (u64 (- n)) in
        let* newSp := add oldSp delta in
        let* base := fixMemoryAddress d newSp in
        let* yes := boolean_ true in
        let* _ := push_registers stacked_registers n base oldSp yes 0 in
        writeReg (REG_anySP d) newSp
    | None => interrupt x86_exception_ud 0
    end)).

(** ** Floating point registers *)

(** Only values of 80 bits are implemented. *)
Definition fp_instruction (insn : X86Insn) (body : AsmExpr -> M St unit) : M St unit :=
  args1 insn (fun a0 => unlocked insn (assert* asm_width a0 =? 80 else Throw in body a0)).
Definition IP_fld (insn : X86Insn) : M St unit :=
  fp_instruction insn (fun a0 => let* fp := x86_read d a0 80 in pushFloatingPoint d fp).
Definition IP_fst (insn : X86Insn) : M St unit :=
  fp_instruction insn (fun a0 => let* v := readFloatingPointStack 0 in write a0 v).
Definition IP_fstp (insn : X86Insn) : M St unit :=
  fp_instruction insn (fun a0 => let* v := readFloatingPointStack 0 in let* _ := write a0 v in popFloatingPoint d).
Definition IP_fldcw (insn : X86Insn) : M St unit :=
  args1 insn (fun a0 => unlocked insn (let* v := x86_read d a0 16 in writeReg REG_FPCTL v)).
Definition IP_fnstcw (insn : X86Insn) : M St unit := args1 insn (fun a0 => unlocked insn (let* v := readReg REG_FPCTL in write a0 v)).
Definition IP_fnstsw (insn : X86Insn) : M St unit := args1 insn (fun a0 => unlocked insn (let* v := readReg REG_FPSTATUS in write a0 v)).
End Instructions.
