(* ===== verification/RiscX86Process.v ===== *)
(** Processing an instruction of x86
    ([src/Rose/BinaryAnalysis/InstructionSemantics/DispatcherX86.C], [InsnProcessor]
    and [iproc_init], and
    [src/Rose/BinaryAnalysis/InstructionSemantics/BaseSemantics/Dispatcher.C],
    [advanceInstructionPointer] to [iprocGet]).

    The table has a processor for every kind that has one in the source.  The
    conversion of an integer to floating point is the only one that is not
    modelled, and is an argument. *)
From S2P Require Import Prelude BitVector RegDescriptor RiscOps RiscConcrete RiscRegisters RiscMachine RiscX86 RiscX86Insn RiscX86Vector RiscX86Misc.
Open Scope Z_scope.

Section Process.
Context {V St : Type} {Ops : RiscOperators V St} {Regs : HasRegisters V St} {Mem : MemoryOperators V St}.
Variable d : DispatcherX86.
Variable IP_cvtsi2sd : DispatcherX86 -> X86Insn -> M St unit.

(** The processor of a kind of instructions. *)
Definition iproc_table (insn : X86Insn) : option (M St unit) :=
  match kind insn with
  | x86_aaa => Some (IP_aaa d insn)
  | x86_aad => Some (IP_aad d insn)
  | x86_aam => Some (IP_aam d insn)
  | x86_aas => Some (IP_aas d insn)
  | x86_adc => Some (IP_adc d insn)
  | x86_add => Some (IP_add d insn)
  | x86_and => Some (IP_and d insn)
  | x86_bsf | x86_bsr => Some (IP_bitscan d insn)
  | x86_bswap => Some (IP_bswap d insn)
  | x86_bt | x86_btc | x86_btr | x86_bts => Some (IP_bittest d insn)
  | x86_call => Some (IP_call d insn)
  | x86_cbw => Some (IP_cbw d insn)
  | x86_cdq => Some (IP_cdq d insn)
  | x86_cdqe => Some (IP_cdqe d insn)
  | x86_clc => Some (IP_clc d insn)
  | x86_cld => Some (IP_cld d insn)
  | x86_clflush => Some (IP_clflush d insn)
  | x86_cmc => Some (IP_cmc d insn)
  | x86_cmova | x86_cmovae | x86_cmovb | x86_cmovbe | x86_cmove | x86_cmovg | x86_cmovge | x86_cmovl | x86_cmovle | x86_cmovne |
    x86_cmovno | x86_cmovns | x86_cmovo | x86_cmovpe | x86_cmovpo | x86_cmovs => Some (IP_cmovcc d insn)
  | x86_cmp => Some (IP_cmp d insn)
  | x86_cmpsb => Some (IP_cmpstrings d x86_repeat_none 8 insn)
  | x86_cmpsw => Some (IP_cmpstrings d x86_repeat_none 16 insn)
  | x86_cmpsd => Some (IP_cmpstrings d x86_repeat_none 32 insn)
  | x86_cmpsq => Some (IP_cmpstrings d x86_repeat_none 64 insn)
  | x86_cmpxchg => Some (IP_cmpxchg d insn)
  | x86_cmpxchg8b | x86_cmpxchg16b => Some (IP_cmpxchg2 d insn)
  | x86_cpuid => Some (IP_cpuid insn)
  | x86_cqo => Some (IP_cqo d insn)
  | x86_cvtsi2sd => Some (IP_cvtsi2sd d insn)
  | x86_cwd => Some (IP_cwd d insn)
  | x86_cwde => Some (IP_cwde d insn)
  | x86_dec => Some (IP_dec d insn)
  | x86_div | x86_idiv => Some (IP_divide d insn)
  | x86_fld => Some (IP_fld d insn)
  | x86_fldcw => Some (IP_fldcw d insn)
  | x86_fnop => Some (IP_fnop insn)
  | x86_fnstcw => Some (IP_fnstcw d insn)
  | x86_fnstsw => Some (IP_fnstsw d insn)
  | x86_fst => Some (IP_fst d insn)
  | x86_fstp => Some (IP_fstp d insn)
  | x86_hlt => Some (IP_hlt d insn)
  | x86_imul => Some (IP_imul d insn)
  | x86_inc => Some (IP_inc d insn)
  | x86_int => Some (IP_int insn)
  | x86_int3 => Some (IP_int3 insn)
  | x86_ja | x86_jae | x86_jb | x86_jbe | x86_jcxz | x86_je | x86_jecxz | x86_jg | x86_jge | x86_jl | x86_jle | x86_jne | x86_jno
    | x86_jns | x86_jo | x86_jpe | x86_jpo | x86_js => Some (IP_jcc d insn)
  | x86_jmp => Some (IP_jmp d insn)
  | x86_lddqu | x86_movapd | x86_movaps | x86_movdqa | x86_movdqu | x86_movntdqa | x86_movntdq | x86_movnti | x86_movntq |
    x86_movupd | x86_movups => Some (IP_move_same d insn)
  | x86_ldmxcsr => Some (IP_ldmxcsr d insn)
  | x86_lea => Some (IP_lea d insn)
  | x86_leave => Some (IP_leave d insn)
  | x86_lfence | x86_mfence | x86_nop | x86_pause | x86_prefetchnta | x86_sfence => Some (IP_nop insn)
  | x86_lodsb => Some (IP_loadstring d x86_repeat_none 8 insn)
  | x86_lodsw => Some (IP_loadstring d x86_repeat_none 16 insn)
  | x86_lodsd => Some (IP_loadstring d x86_repeat_none 32 insn)
  | x86_lodsq => Some (IP_loadstring d x86_repeat_none 64 insn)
  | x86_loop | x86_loopnz | x86_loopz => Some (IP_loop d insn)
  | x86_maskmovq => Some (IP_maskmov d insn)
  | x86_mov => Some (IP_mov d insn)
  | x86_movbe => Some (IP_movbe d insn)
  | x86_movd | x86_movq | x86_movzx => Some (IP_move_zero_extend d insn)
  | x86_movhpd => Some (IP_movhpd d insn)
  | x86_movlpd => Some (IP_movlpd d insn)
  | x86_movsb => Some (IP_movestring d x86_repeat_none 8 insn)
  | x86_movsw => Some (IP_movestring d x86_repeat_none 16 insn)
  | x86_movsd => Some (IP_movestring d x86_repeat_none 32 insn)
  | x86_movsq => Some (IP_movestring d x86_repeat_none 64 insn)
  | x86_movsd_sse => Some (IP_movsd d insn)
  | x86_movss => Some (IP_movss d insn)
  | x86_movsx | x86_movsxd => Some (IP_move_sign_extend d insn)
  | x86_mul => Some (IP_mul d insn)
  | x86_neg => Some (IP_neg d insn)
  | x86_not => Some (IP_not d insn)
  | x86_or => Some (IP_or d insn)
  | x86_pabsb => Some (IP_pabs d 8 insn)
  | x86_pabsw => Some (IP_pabs d 16 insn)
  | x86_pabsd => Some (IP_pabs d 32 insn)
  | x86_packssdw => Some (IP_packss d 32 16 insn)
  | x86_packsswb => Some (IP_packss d 16 8 insn)
  | x86_packusdw => Some (IP_packus d 32 16 insn)
  | x86_packuswb => Some (IP_packus d 16 8 insn)
  | x86_paddb => Some (IP_padd d 8 insn)
  | x86_paddw => Some (IP_padd d 16 insn)
  | x86_paddd => Some (IP_padd d 32 insn)
  | x86_paddq => Some (IP_padd d 64 insn)
  | x86_paddsb => Some (IP_padds d 8 insn)
  | x86_paddsw => Some (IP_padds d 16 insn)
  | x86_paddusb => Some (IP_paddus d 8 insn)
  | x86_paddusw => Some (IP_paddus d 16 insn)
  | x86_palignr => Some (IP_palignr d insn)
  | x86_pand => Some (IP_pand d insn)
  | x86_pandn => Some (IP_pandn d insn)
  | x86_pavgb => Some (IP_pavg d 8 insn)
  | x86_pavgw => Some (IP_pavg d 16 insn)
  | x86_pblendvb => Some (IP_pblendvb d insn)
  | x86_pblendw => Some (IP_pblendw d insn)
  | x86_pcmpeqb => Some (IP_pcmpeq d 8 insn)
  | x86_pcmpeqw => Some (IP_pcmpeq d 16 insn)
  | x86_pcmpeqd => Some (IP_pcmpeq d 32 insn)
  | x86_pcmpeqq => Some (IP_pcmpeq d 64 insn)
  | x86_pcmpgtb => Some (IP_pcmpgt d 8 insn)
  | x86_pcmpgtw => Some (IP_pcmpgt d 16 insn)
  | x86_pcmpgtd => Some (IP_pcmpgt d 32 insn)
  | x86_pcmpgtq => Some (IP_pcmpgt d 64 insn)
  | x86_pextrb => Some (IP_pextr d 8 insn)
  | x86_pextrw => Some (IP_pextr d 16 insn)
  | x86_pextrd => Some (IP_pextr d 32 insn)
  | x86_pextrq => Some (IP_pextr d 64 insn)
  | x86_phaddw => Some (IP_phadd d 16 insn)
  | x86_phaddd => Some (IP_phadd d 32 insn)
  | x86_phaddsw => Some (IP_phadds d 16 insn)
  | x86_phminposuw => Some (IP_phminposuw d insn)
  | x86_phsubw => Some (IP_phsub d 16 insn)
  | x86_phsubd => Some (IP_phsub d 32 insn)
  | x86_phsubsw => Some (IP_phsubs d 16 insn)
  | x86_pinsrb => Some (IP_pinsr d 8 insn)
  | x86_pinsrw => Some (IP_pinsr d 16 insn)
  | x86_pinsrd => Some (IP_pinsr d 32 insn)
  | x86_pinsrq => Some (IP_pinsr d 64 insn)
  | x86_pmaddubsw => Some (IP_pmaddubsw d insn)
  | x86_pmaddwd => Some (IP_pmaddwd d insn)
  | x86_pmaxsb => Some (IP_pmaxs d 8 insn)
  | x86_pmaxsw => Some (IP_pmaxs d 16 insn)
  | x86_pmaxsd => Some (IP_pmaxs d 32 insn)
  | x86_pmaxub => Some (IP_pmaxu d 8 insn)
  | x86_pmaxuw => Some (IP_pmaxu d 16 insn)
  | x86_pmaxud => Some (IP_pmaxu d 32 insn)
  | x86_pminsb => Some (IP_pmins d 8 insn)
  | x86_pminsw => Some (IP_pmins d 16 insn)
  | x86_pminsd => Some (IP_pmins d 32 insn)
  | x86_pminub => Some (IP_pminu d 8 insn)
  | x86_pminuw => Some (IP_pminu d 16 insn)
  | x86_pminud => Some (IP_pminu d 32 insn)
  | x86_pmovmskb => Some (IP_pmovmskb d insn)
  | x86_pmovsxbw => Some (IP_pmovsx d 8 16 insn)
  | x86_pmovsxbd => Some (IP_pmovsx d 8 32 insn)
  | x86_pmovsxbq => Some (IP_pmovsx d 8 64 insn)
  | x86_pmovsxwd => Some (IP_pmovsx d 16 32 insn)
  | x86_pmovsxwq => Some (IP_pmovsx d 16 64 insn)
  | x86_pmovsxdq => Some (IP_pmovsx d 32 64 insn)
  | x86_pmovzxbw => Some (IP_pmovzx d 8 16 insn)
  | x86_pmovzxbd => Some (IP_pmovzx d 8 32 insn)
  | x86_pmovzxbq => Some (IP_pmovzx d 8 64 insn)
  | x86_pmovzxwd => Some (IP_pmovzx d 16 32 insn)
  | x86_pmovzxwq => Some (IP_pmovzx d 16 64 insn)
  | x86_pmovzxdq => Some (IP_pmovzx d 32 64 insn)
  | x86_pmuldq => Some (IP_pmuldq d insn)
  | x86_pmulhrsw => Some (IP_pmulhrsw d insn)
  | x86_pmulhuw => Some (IP_pmulhuw d insn)
  | x86_pmulhw => Some (IP_pmulhw d insn)
  | x86_pmulld => Some (IP_pmull d 32 insn)
  | x86_pmullw => Some (IP_pmull d 16 insn)
  | x86_pmuludq => Some (IP_pmuludq d insn)
  | x86_pop => Some (IP_pop d insn)
  | x86_popa | x86_popad => Some (IP_pop_gprs d insn)
  | x86_popf | x86_popfd | x86_popfq => Some (IP_pop_flags d insn)
  | x86_popcnt => Some (IP_popcnt d insn)
  | x86_por => Some (IP_por d insn)
  | x86_psadbw => Some (IP_psadbw d insn)
  | x86_pshufb => Some (IP_pshufb d insn)
  | x86_pshufd => Some (IP_pshufd d insn)
  | x86_pshufhw => Some (IP_pshufhw d insn)
  | x86_pshuflw => Some (IP_pshuflw d insn)
  | x86_pshufw => Some (IP_pshufw d insn)
  | x86_psignb => Some (IP_psign d 8 insn)
  | x86_psignw => Some (IP_psign d 16 insn)
  | x86_psignd => Some (IP_psign d 32 insn)
  | x86_pslldq => Some (IP_pslldq d insn)
  | x86_psllw => Some (IP_psll d 16 insn)
  | x86_pslld => Some (IP_psll d 32 insn)
  | x86_psllq => Some (IP_psll d 64 insn)
  | x86_psraw => Some (IP_psra d 16 insn)
  | x86_psrad => Some (IP_psra d 32 insn)
  | x86_psrldq => Some (IP_psrldq d insn)
  | x86_psrlw => Some (IP_psrl d 16 insn)
  | x86_psrld => Some (IP_psrl d 32 insn)
  | x86_psrlq => Some (IP_psrl d 64 insn)
  | x86_psubb => Some (IP_psub d 8 insn)
  | x86_psubw => Some (IP_psub d 16 insn)
  | x86_psubd => Some (IP_psub d 32 insn)
  | x86_psubq => Some (IP_psub d 64 insn)
  | x86_psubsb => Some (IP_psubs d 8 insn)
  | x86_psubsw => Some (IP_psubs d 16 insn)
  | x86_psubusb => Some (IP_psubus d 8 insn)
  | x86_psubusw => Some (IP_psubus d 16 insn)
  | x86_ptest => Some (IP_ptest d insn)
  | x86_punpckhbw => Some (IP_punpckh d 8 insn)
  | x86_punpckhwd => Some (IP_punpckh d 16 insn)
  | x86_punpckhdq => Some (IP_punpckh d 32 insn)
  | x86_punpckhqdq => Some (IP_punpckh d 64 insn)
  | x86_punpcklbw => Some (IP_punpckl d 8 insn)
  | x86_punpcklwd => Some (IP_punpckl d 16 insn)
  | x86_punpckldq => Some (IP_punpckl d 32 insn)
  | x86_punpcklqdq => Some (IP_punpckl d 64 insn)
  | x86_push => Some (IP_push d insn)
  | x86_pusha | x86_pushad => Some (IP_push_gprs d insn)
  | x86_pushf | x86_pushfd | x86_pushfq => Some (IP_push_flags d insn)
  | x86_pxor => Some (IP_pxor d insn)
  | x86_rcl | x86_rcr | x86_rol | x86_ror => Some (IP_rotate d insn)
  | x86_rdtsc => Some (IP_rdtsc d insn)
  | x86_rep_lodsb => Some (IP_loadstring d x86_repeat_repe 8 insn)
  | x86_rep_lodsw => Some (IP_loadstring d x86_repeat_repe 16 insn)
  | x86_rep_lodsd => Some (IP_loadstring d x86_repeat_repe 32 insn)
  | x86_rep_lodsq => Some (IP_loadstring d x86_repeat_repe 64 insn)
  | x86_rep_movsb => Some (IP_movestring d x86_repeat_repe 8 insn)
  | x86_rep_movsw => Some (IP_movestring d x86_repeat_repe 16 insn)
  | x86_rep_movsd => Some (IP_movestring d x86_repeat_repe 32 insn)
  | x86_rep_movsq => Some (IP_movestring d x86_repeat_repe 64 insn)
  | x86_rep_stosb => Some (IP_storestring d x86_repeat_repe 8 insn)
  | x86_rep_stosw => Some (IP_storestring d x86_repeat_repe 16 insn)
  | x86_rep_stosd => Some (IP_storestring d x86_repeat_repe 32 insn)
  | x86_rep_stosq => Some (IP_storestring d x86_repeat_repe 64 insn)
  | x86_repe_cmpsb => Some (IP_cmpstrings d x86_repeat_repe 8 insn)
  | x86_repe_cmpsw => Some (IP_cmpstrings d x86_repeat_repe 16 insn)
  | x86_repe_cmpsd => Some (IP_cmpstrings d x86_repeat_repe 32 insn)
  | x86_repe_cmpsq => Some (IP_cmpstrings d x86_repeat_repe 64 insn)
  | x86_repe_scasb => Some (IP_scanstring d x86_repeat_repe 8 insn)
  | x86_repe_scasw => Some (IP_scanstring d x86_repeat_repe 16 insn)
  | x86_repe_scasd => Some (IP_scanstring d x86_repeat_repe 32 insn)
  | x86_repe_scasq => Some (IP_scanstring d x86_repeat_repe 64 insn)
  | x86_repne_cmpsb => Some (IP_cmpstrings d x86_repeat_repne 8 insn)
  | x86_repne_cmpsw => Some (IP_cmpstrings d x86_repeat_repne 16 insn)
  | x86_repne_cmpsd => Some (IP_cmpstrings d x86_repeat_repne 32 insn)
  | x86_repne_cmpsq => Some (IP_cmpstrings d x86_repeat_repne 64 insn)
  | x86_repne_scasb => Some (IP_scanstring d x86_repeat_repne 8 insn)
  | x86_repne_scasw => Some (IP_scanstring d x86_repeat_repne 16 insn)
  | x86_repne_scasd => Some (IP_scanstring d x86_repeat_repne 32 insn)
  | x86_repne_scasq => Some (IP_scanstring d x86_repeat_repne 64 insn)
  | x86_ret => Some (IP_ret d insn)
  | x86_sar | x86_shl | x86_shr => Some (IP_shift_1 d insn)
  | x86_sbb => Some (IP_sbb d insn)
  | x86_scasb => Some (IP_scanstring d x86_repeat_none 8 insn)
  | x86_scasw => Some (IP_scanstring d x86_repeat_none 16 insn)
  | x86_scasd => Some (IP_scanstring d x86_repeat_none 32 insn)
  | x86_scasq => Some (IP_scanstring d x86_repeat_none 64 insn)
  | x86_seta | x86_setae | x86_setb | x86_setbe | x86_sete | x86_setg | x86_setge | x86_setl | x86_setle | x86_setne | x86_setno |
    x86_setns | x86_seto | x86_setpe | x86_setpo | x86_sets => Some (IP_setcc d insn)
  | x86_shld | x86_shrd => Some (IP_shift_2 d insn)
  | x86_stc => Some (IP_stc d insn)
  | x86_std => Some (IP_std d insn)
  | x86_stosb => Some (IP_storestring d x86_repeat_none 8 insn)
  | x86_stosw => Some (IP_storestring d x86_repeat_none 16 insn)
  | x86_stosd => Some (IP_storestring d x86_repeat_none 32 insn)
  | x86_stosq => Some (IP_storestring d x86_repeat_none 64 insn)
  | x86_stmxcsr => Some (IP_stmxcsr d insn)
  | x86_sub => Some (IP_sub d insn)
  | x86_syscall => Some (IP_syscall insn)
  | x86_sysenter => Some (IP_sysenter insn)
  | x86_test => Some (IP_test d insn)
  | x86_ud2 => Some (IP_ud2 insn)
  | x86_wait => Some (IP_wait insn)
  | x86_xadd => Some (IP_xadd d insn)
  | x86_xchg => Some (IP_xchg d insn)
  | x86_xor | x86_xorpd | x86_xorps => Some (IP_xor d insn)
  | x86_unknown_instruction => None
  end.

(** A new state has the segments at address zero; the others are not touched. *)
Definition initializeState : M St unit :=
  let clear (minr : Z) := let* zero := number_ 16 0 in ops_writeRegister (x86_register x86_regclass_segment minr 0 16) zero in
  let* _ := clear x86_segreg_cs in let* _ := clear x86_segreg_ds in let* _ := clear x86_segreg_ss in clear x86_segreg_es.

(** The registers that an operand mentions. *)
Fixpoint asm_registers (e : AsmExpr) : list RegisterDescriptor :=
  match e with
  | DirectRegister _ r | IndirectRegister _ r _ _ _ _ => [r]
  | IntegerExpr _ _ => []
  | MemoryReference _ a segment => asm_registers a ++ match segment with Some r => [r] | None => [] end
  | AsmBinary _ _ l r => asm_registers l ++ asm_registers r
  | AsmUnary _ _ x => asm_registers x
  end.

(** Operands of more than 32 bits may only mention registers of the dictionary. *)
Definition check_arg_width (args : list AsmExpr) : M St unit :=
  assert* forallb (fun e => (asm_width e <=? 32) || forallb (in_dictionary d) (asm_registers e)) args else Throw in ret tt.

(** The address after the instruction.  The old value of the instruction pointer
    counts only if that is asked for, and some of it is known. *)
Definition advanceInstructionPointer (insn : X86Insn) : M St unit :=
  let ipReg := REG_anyIP d in
  let* stored :=
    if autoResetInstructionPointer d then ret false
    else fun s => let! b := is_partly_stored (get_registers s) ipReg in Ret (b, s) in
  let* ipValue := if stored then ops_readRegister ipReg else number_ (nBits ipReg) (insn_address insn) in
  let* size := number_ (nBits ipReg) (insn_size insn) in
  let* next := add ipValue size in
  ops_writeRegister ipReg next.

(** [process] of an instruction with a processor. *)
Definition process (insn : X86Insn) (p : M St unit) : M St unit :=
  let* _ := advanceInstructionPointer insn in
  let* _ := check_arg_width (operands insn) in p.

Definition processInstruction (insn : X86Insn) : M St unit :=
  match iproc_table insn with
  | Some p => process insn p
  | None => fail Throw
  end.
End Process.
