(* ===== verification/RiscMemory.v ===== *)
(** The memory of concrete semantics
    ([src/Rose/BinaryAnalysis/InstructionSemantics/ConcreteSemantics.C], [MemoryState]
    and the operations on memory of [RiscOperators]).

    A memory is a map from addresses to buffers, of which pages are allocated as
    they are needed; copies of a memory share the buffers until they are written
    to.  Values of several bytes are read and written byte by byte, in the byte
    order of the memory.  A lazily updated initial state is not modelled. *)
From S2P Require Import Prelude SawyerInterval SawyerIntervalMap SawyerAddressMap SawyerAddressSpace.
From S2P Require Import BitVector RegDescriptor RiscOps RiscConcrete RiscRegisters RiscMachine.
From Stdlib Require Import String.
From stdpp Require Import gmap.
Open Scope Z_scope.

#[local] Notation wrap x := (x mod 2 ^ 64).
#[local] Existing Instance ConcreteOps.

(** * The state of memory *)

Inductive ByteOrder := ORDER_UNSPECIFIED | ORDER_LSB | ORDER_MSB.

Record ConcreteMemory := mkMemory { map_of : option AddressMap; pageSize_ : Z; byteOrder : ByteOrder }.

Definition MemoryState_instance : ConcreteMemory := mkMemory None 4096 ORDER_UNSPECIFIED.
Definition MemoryState_clear (m : ConcreteMemory) : ConcreteMemory := mkMemory None (pageSize_ m) (byteOrder m).
Definition set_pageSize (nBytes : Z) (m : ConcreteMemory) : outcome ConcreteMemory :=
  assert! match map_of m with None => true | Some a => IntervalMap_isEmpty a end else AssertFail in
  Ret (mkMemory (map_of m) (Z.max nBytes 1) (byteOrder m)).
Definition set_byteOrder (o : ByteOrder) (m : ConcreteMemory) : ConcreteMemory := mkMemory (map_of m) (pageSize_ m) o.
Definition set_map (a : AddressMap) (m : ConcreteMemory) : ConcreteMemory := mkMemory (Some a) (pageSize_ m) (byteOrder m).

(** [alignUp] and [alignDown] of [MemoryMap.h]. *)
Definition alignUp (address alignment : Z) : Z := wrap (wrap (wrap (address + alignment) - 1) / alignment * alignment).
Definition alignDown (address alignment : Z) : Z := address / alignment * alignment.

(** A new page around an address, in place of whatever is mapped there. *)
Definition page_segment (p : Z) : Segment :=
  {| buffer_ := p; offset_ := 0; accessibility_ := Z.lor READABLE WRITABLE; name_ := "ConcreteSemantics demand allocated" |}.
Definition page_of (va size : Z) : Interval :=
  let pageVa := alignDown va size in Interval_hull pageVa (wrap (wrap (pageVa + size) - 1)).
Definition allocatePage (va : Z) (h : Heap) (m : ConcreteMemory) : outcome (Heap * ConcreteMemory) :=
  let a := match map_of m with Some a => a | None => IntervalMap_empty end in
  let (p, h) := heap_new (buffer_instance (pageSize_ m)) h in
  let! a := IntervalMap_insert 64 (page_of va (pageSize_ m)) (page_segment p) true a in
  Ret (h, set_map a m).

(** [map_->at(addr).limit(1)] *)
Definition at_one (addr : Z) : Constraints := c_limit 1 (c_at addr unconstrained).
Definition is_mapped (addr : Z) (m : ConcreteMemory) : outcome bool :=
  match map_of m with None => Ret false | Some a => AddressMap_exists a (c_at addr unconstrained) end.
Definition write_byte (addr value : Z) (h : Heap) (m : ConcreteMemory) : outcome (Heap * ConcreteMemory) :=
  match map_of m with
  | None => Fail Undefined
  | Some a => let! ' (h, a, _) := AddressMap_write h a [value] (at_one addr) in Ret (h, set_map a m)
  end.

Definition readOrPeekByte (addr dflt : CValue) (allowSideEffects : bool) (h : Heap) (m : ConcreteMemory) :
  outcome (CValue * (Heap * ConcreteMemory)) :=
  assert! 8 =? c_nBits dflt else AssertFail in
  let! va := c_get addr in
  let! d := c_get dflt in
  let! found := is_mapped va m in
  if negb found then
    if allowSideEffects then
      let! ' (h, m) := allocatePage va h m in
      let! hm := write_byte va d h m in Ret (dflt, hm)
    else Ret (dflt, (h, m))
  else
    match map_of m with
    | None => Fail Undefined
    | Some a =>
        let! ' (bytes, _) := AddressMap_read h a (at_one va) in
        Ret (c_number 8 (match bytes with b :: _ => b | [] => d end), (h, m))
    end.

Definition writeByte (addr value : CValue) (h : Heap) (m : ConcreteMemory) : outcome (Heap * ConcreteMemory) :=
  assert! 8 =? c_nBits value else AssertFail in
  let! va := c_get addr in
  let! v := c_get value in
  let! found := is_mapped va m in
  if found then write_byte va v h m
  else let! ' (h, m) := allocatePage va h m in write_byte va v h m.

(** The copy constructor: both memories share the buffers, which are marked. *)
Definition MemoryState_clone (h : Heap) (other : ConcreteMemory) : Heap * ConcreteMemory :=
  match map_of other with
  | None => (h, other)
  | Some a => let (h, a) := AddressMap_copy h a true in (h, set_map a other)
  end.

(** ** Giving the memory a map

    [memoryMap] pads the map so that it has whole pages. *)

Definition padding (p acc : Z) : Segment := {| buffer_ := p; offset_ := 0; accessibility_ := acc; name_ := "padding" |}.
Definition access_at (padAccess : option Z) (va : Z) (a : AddressMap) : outcome Z :=
  match padAccess with Some acc => Ret acc | None => let! s := IntervalMap_get va a in Ret (accessibility_ s) end.
Definition pad (lo hi acc : Z) (h : Heap) (a : AddressMap) : outcome (Heap * AddressMap) :=
  let (p, h) := heap_new (buffer_instance (wrap (hi - lo + 1))) h in
  let! a := IntervalMap_insert 64 (Interval_hull lo hi) (padding p acc) true a in Ret (h, a).

(** The body of the loop, for the next mapped address: where it goes on, if it does. *)
Definition memoryMap_step (pageSize : Z) (padAccess : option Z) (va : Z) (h : Heap) (a : AddressMap) :
  outcome (Heap * AddressMap * option Z) :=
  let pageVa := alignDown va pageSize in
  let! ' (h, a) :=
    if pageVa <? va then let! acc := access_at padAccess va a in pad pageVa (va - 1) acc h a else Ret (h, a) in
  let unused := firstUnmapped 64 va a in
  if Interval_isEmpty unused then Ret (h, a, None)
  else
    let va := lo_ unused in
    let nextPageVa := alignUp va pageSize in
    if va <? nextPageVa then
      let! acc := access_at padAccess (wrap (va - 1)) a in
      let! ' (h, a) := pad va (nextPageVa - 1) acc h a in Ret (h, a, Some (wrap nextPageVa))
    else Ret (h, a, Some (wrap (va + 1))).
Fixpoint memoryMap_loop (fuel : nat) (pageSize : Z) (padAccess : option Z) (va : Z) (h : Heap) (a : AddressMap) : outcome (Heap * AddressMap) :=
  match fuel with
  | O => Fail NoFuel
  | S fuel =>
      let! next := AddressMap_next a (c_atOrAfter va unconstrained) in
      match next with
      | None => Ret (h, a)
      | Some va =>
          let! ' (h, a, more) := memoryMap_step pageSize padAccess va h a in
          match more with None => Ret (h, a) | Some va => memoryMap_loop fuel pageSize padAccess va h a end
      end
  end.
Definition set_memoryMap (fuel : nat) (a : AddressMap) (padAccess : option Z) (h : Heap) (m : ConcreteMemory) : outcome (Heap * ConcreteMemory) :=
  let! ' (h, a) := memoryMap_loop fuel (pageSize_ m) padAccess 0 h a in Ret (h, set_map a m).

(** * The machine *)

(** A state of registers and memory, and the heap. *)
Record Machine := mkMachine { m_registers : RegisterState CValue; m_memory : ConcreteMemory; m_heap : Heap }.

#[export] Instance machine_registers : HasRegisters CValue Machine := {|
  get_registers := m_registers;
  set_registers rs s := mkMachine rs (m_memory s) (m_heap s)
|}.

Definition on_memory {A} (f : Heap -> ConcreteMemory -> outcome (A * (Heap * ConcreteMemory))) : M Machine A := fun s =>
  let! ' (a, hm) := f (m_heap s) (m_memory s) in Ret (a, mkMachine (m_registers s) (snd hm) (fst hm)).
Definition read_byte_of (addr dflt : CValue) (allowSideEffects : bool) : M Machine CValue :=
  on_memory (readOrPeekByte addr dflt allowSideEffects).
Definition write_byte_of (addr value : CValue) : M Machine unit :=
  on_memory (fun h m => let! hm := writeByte addr value h m in Ret (tt, hm)).

(** The address in a segment. *)
Definition adjusted (segreg : RegisterDescriptor) (address : CValue) (allowSideEffects : bool) : M Machine CValue :=
  if isEmpty segreg then ret address
  else
    let* segregValue :=
      if allowSideEffects then ops_readRegister segreg
      else let* dflt := undefined_ (nBits segreg) in ops_peekRegister segreg dflt in
    let* offset := signExtend segregValue (c_nBits address) in add address offset.

Definition byte_address (adjustedVa : CValue) (bytenum : Z) : M Machine CValue :=
  let* n := number_ (c_nBits adjustedVa) bytenum in add adjustedVa n.

Fixpoint read_bytes (n : nat) (bytenum nbytes : Z) (o : ByteOrder) (adjustedVa dflt : CValue) (allowSideEffects : bool) (retval : option CValue) :
  M Machine (option CValue) :=
  match n with
  | O => ret retval
  | S n =>
      let byteOffset := match o with ORDER_MSB => nbytes - (bytenum + 1) | _ => bytenum end in
      let* byte_dflt := extract dflt (8 * byteOffset) (8 * byteOffset + 8) in
      let* byte_addr := byte_address adjustedVa bytenum in
      let* byte_value := read_byte_of byte_addr byte_dflt allowSideEffects in
      let* r :=
        match retval, o with
        | None, _ => ret byte_value
        | Some r, ORDER_MSB => concat_ byte_value r
        | Some r, ORDER_LSB => concat_ r byte_value
        | Some _, ORDER_UNSPECIFIED => fail Throw
        end in
      read_bytes n (bytenum + 1) nbytes o adjustedVa dflt allowSideEffects (Some r)
  end.

Definition readOrPeekMemory (segreg : RegisterDescriptor) (address dflt : CValue) (allowSideEffects : bool) : M Machine CValue :=
  let nbits := c_nBits dflt in
  assert* nbits mod 8 =? 0 else AssertFail in
  let* adjustedVa := adjusted segreg address allowSideEffects in
  let* retval := fun s => read_bytes (Z.to_nat (nbits / 8)) 0 (nbits / 8) (byteOrder (m_memory s)) adjustedVa dflt allowSideEffects None s in
  match retval with
  | Some r => assert* c_nBits r =? nbits else AssertFail in ret r
  | None => fail AssertFail
  end.

Definition isFalse (v : CValue) : bool := match c_toUnsigned v with Some n => n =? 0 | None => false end.

Definition c_readMemory (segreg : RegisterDescriptor) (address dflt cond : CValue) : M Machine CValue :=
  assert* 1 =? c_nBits cond else AssertFail in
  if isFalse cond then ret dflt else readOrPeekMemory segreg address dflt true.
Definition c_peekMemory (segreg : RegisterDescriptor) (address dflt : CValue) : M Machine CValue :=
  readOrPeekMemory segreg address dflt false.

Fixpoint write_bytes (n : nat) (bytenum nbytes : Z) (o : ByteOrder) (adjustedVa value : CValue) : M Machine unit :=
  match n with
  | O => ret tt
  | S n =>
      let* byteOffset :=
        if 1 =? nbytes then ret 0
        else match o with
             | ORDER_MSB => ret (nbytes - (bytenum + 1))
             | ORDER_LSB => ret bytenum
             | ORDER_UNSPECIFIED => fail Throw
             end in
      let* byte_value := extract value (8 * byteOffset) (8 * byteOffset + 8) in
      let* byte_addr := byte_address adjustedVa bytenum in
      let* _ := write_byte_of byte_addr byte_value in
      write_bytes n (bytenum + 1) nbytes o adjustedVa value
  end.
Definition c_writeMemory (segreg : RegisterDescriptor) (address value cond : CValue) : M Machine unit :=
  assert* 1 =? c_nBits cond else AssertFail in
  if isFalse cond then ret tt
  else
    let* adjustedVa := adjusted segreg address true in
    let* value := copy_ value 0 in
    let nbits := c_nBits value in
    assert* nbits mod 8 =? 0 else AssertFail in
    fun s => write_bytes (Z.to_nat (nbits / 8)) 0 (nbits / 8) (byteOrder (m_memory s)) adjustedVa value s.

(** An interrupt clears the state. *)
Definition c_interrupt (majr minr : Z) : M Machine unit := fun s =>
  Ret (tt, mkMachine (clear_registers (m_registers s)) (MemoryState_clear (m_memory s)) (m_heap s)).

#[export] Instance machine_memory : MemoryOperators CValue Machine := {|
  readMemory := c_readMemory; writeMemory := c_writeMemory; interrupt := c_interrupt
|}.

(** [DispatcherX86::memory_init]: the bytes of a value are in little endian order,
    unless an order was given to the memory. *)
Definition memory_init (m : ConcreteMemory) : ConcreteMemory :=
  match byteOrder m with ORDER_UNSPECIFIED => set_byteOrder ORDER_LSB m | _ => m end.
