(* ===== verification/RiscMemoryFacts.v ===== *)
(** What the memory of concrete semantics holds: a function from addresses to bytes,
    that reads and writes change as they say, for the memory itself and for none
    of its copies. *)
From S2P Require Import Prelude SawyerInterval SawyerIntervalMap SawyerMapFacts SawyerMapTheorems SawyerAddressMap SawyerAddressSpace SawyerSpaceFacts.
From S2P Require Import BitVector RegDescriptor SymEval RiscOps RiscConcrete RiscConcreteFacts RiscArith RiscMulDiv RiscRegisters RiscMachine RiscMemory.
From Stdlib Require Import String.
From stdpp Require Import gmap.
Open Scope Z_scope.

#[local] Notation wrap x := (x mod 2 ^ 64).

(** * The bytes of a memory *)

Definition map_in (m : ConcreteMemory) : AddressMap := match map_of m with Some a => a | None => IntervalMap_empty end.
Definition mem_byte (h : Heap) (m : ConcreteMemory) (x : Z) : option Z := byte_at h (map_in m) x.

(** Pages divide the address space. *)
Definition page_ok (size : Z) : Prop := 0 < size < 2 ^ 64 /\ (size | 2 ^ 64).
Definition mem_ok (h : Heap) (m : ConcreteMemory) : Prop := space_ok h (map_in m) /\ page_ok (pageSize_ m).

Lemma mem_initial h m : heap_ok h -> map_of m = None -> page_ok (pageSize_ m) -> mem_ok h m /\ forall x, mem_byte h m x = None.
Proof. intros Hh Hm Hp. unfold mem_ok, mem_byte, map_in. rewrite Hm. split; [split; [now apply space_empty|assumption]|reflexivity]. Qed.

(** What a memory and the heap become; see [evolves]. *)
Definition becomes (h : Heap) (m : ConcreteMemory) (h' : Heap) (m' : ConcreteMemory) (g : Z -> option Z) : Prop :=
  evolves h (map_in m) h' (map_in m') g /\ pageSize_ m' = pageSize_ m /\ byteOrder m' = byteOrder m.

Lemma becomes_ok h m h' m' g : mem_ok h m -> becomes h m h' m' g -> mem_ok h' m' /\ forall x, mem_byte h' m' x = g x.
Proof. intros [_ Hp] ((Hs & Hg & _) & Ep & _). split; [split; [assumption|now rewrite Ep]|exact Hg]. Qed.

Lemma becomes_refl h m : mem_ok h m -> becomes h m h m (mem_byte h m).
Proof. intros [H _]. split; [now apply evolves_refl|now split]. Qed.

Lemma becomes_trans h m h1 m1 g1 h2 m2 g2 : becomes h m h1 m1 g1 -> becomes h1 m1 h2 m2 g2 -> becomes h m h2 m2 g2.
Proof.
  intros (H1 & P1 & B1) (H2 & P2 & B2). split; [exact (evolves_trans _ _ _ _ _ _ _ _ H1 H2)|]. split; congruence.
Qed.

Lemma becomes_ext h m h' m' g g' : (forall y, g y = g' y) -> becomes h m h' m' g -> becomes h m h' m' g'.
Proof. intros E (H & HP). split; [exact (evolves_ext _ _ _ _ _ _ E H)|assumption]. Qed.

(** ** Pages *)

Definition page (size va : Z) : Interval := mkInterval (va / size * size) (va / size * size + size - 1).

Lemma page_interval size va : page_ok size -> 0 <= va < 2 ^ 64 ->
  page_of va size = page size va /\ proper 64 (page size va) /\ member va (page size va) /\ hi_ (page size va) - lo_ (page size va) + 1 = size.
Proof.
  intros ([Hs Hs'] & k & Ek) Hva. unfold page_of, alignDown, page, proper, member, const_max. cbn [lo_ hi_].
  pose proof (Z.div_mod va size ltac:(lia)). pose proof (Z.mod_pos_bound va size Hs). pose proof (Z.div_pos va size ltac:(lia) Hs).
  assert (Hlt : va / size < k) by (apply Z.div_lt_upper_bound; lia). assert (Hend : va / size * size + size <= 2 ^ 64) by nia.
  split; [|lia]. unfold Interval_hull. rewrite Zminus_mod_idemp_l. rewrite (Z.mod_small (_ - 1)) by lia. rewrite Z.min_l, Z.max_r by lia. reflexivity.
Qed.

(** The bytes after a page of zeros is allocated around an address, and after a byte is stored. *)
Definition with_page (size va : Z) (f : Z -> option Z) : Z -> option Z := fun y => if memberb y (page size va) then Some 0 else f y.
Definition mapped_page (size va : Z) (f : Z -> option Z) : Z -> option Z := match f va with Some _ => f | None => with_page size va f end.
Definition store (size va v : Z) (f : Z -> option Z) : Z -> option Z := fun y => if y =? va then Some v else mapped_page size va f y.

Lemma mapped_page_ext size va f g : (forall y, f y = g y) -> forall y, mapped_page size va f y = mapped_page size va g y.
Proof. intros E y. unfold mapped_page, with_page. rewrite E. now destruct (g va); rewrite E. Qed.
Lemma store_ext size va v f g : (forall y, f y = g y) -> forall y, store size va v f y = store size va v g y.
Proof. intros E y. unfold store. destruct (y =? va); [reflexivity|]. now apply mapped_page_ext. Qed.

Lemma allocate_ok h m va : mem_ok h m -> 0 <= va < 2 ^ 64 ->
  exists h' m', allocatePage va h m = Ret (h', m') /\ becomes h m h' m' (with_page (pageSize_ m) va (mem_byte h m)).
Proof.
  intros [Hs Hp] Hva. destruct (page_interval _ va Hp Hva) as (Ep & Hprop & Hin & Hsize).
  destruct (filled_ok h (map_in m) (page (pageSize_ m) va) (Z.lor READABLE WRITABLE) (name_ (page_segment 0)) Hs Hprop) as (a & E & Ha); [|reflexivity|].
  { destruct Hp as [[_ Hp] _]. lia. }
  rewrite Hsize in Ha. unfold allocatePage. unfold heap_new at 1. fold (map_in m). rewrite Ep. unfold page_segment in *. cbn [name_] in *. rewrite E. cbn [obind].
  eexists _, _. split; [reflexivity|]. split; [exact Ha|now split].
Qed.

(** ** Bytes *)

Lemma is_mapped_ok h m va : mem_ok h m -> 0 <= va < 2 ^ 64 -> is_mapped va m = Ret (match mem_byte h m va with Some _ => true | None => false end).
Proof.
  intros [Hs _] Hva. unfold is_mapped, mem_byte, map_in in *. destruct (map_of m) as [a|]; [|reflexivity].
  rewrite (exists_ok h a va Hs); [reflexivity|unfold const_max; lia].
Qed.

Lemma write_byte_ok h m va v : mem_ok h m -> 0 <= va < 2 ^ 64 -> byte_ok v -> mem_byte h m va <> None ->
  exists h' m', write_byte va v h m = Ret (h', m') /\ becomes h m h' m' (fun y => if y =? va then Some v else mem_byte h m y).
Proof.
  intros [Hs _] Hva Hv Hm. unfold write_byte, mem_byte, map_in in *. destruct (map_of m) as [a|] eqn:Ea.
  - destruct (write_at h a va v Hs ltac:(unfold const_max; lia) Hv Hm) as (h' & a' & E & H). unfold at_one; rewrite at_one_ok, E. cbn [obind].
    eexists _, _. split; [reflexivity|]. split; [|now split]. unfold map_in. rewrite Ea. exact H.
  - elim Hm. reflexivity.
Qed.

(** Allocate and write. *)
Lemma new_byte_ok h m va v : mem_ok h m -> 0 <= va < 2 ^ 64 -> byte_ok v -> mem_byte h m va = None ->
  exists h1 m1 h' m', allocatePage va h m = Ret (h1, m1) /\ write_byte va v h1 m1 = Ret (h', m') /\
    becomes h m h' m' (store (pageSize_ m) va v (mem_byte h m)).
Proof.
  intros Hm Hva Hv Hn. destruct (allocate_ok h m va Hm Hva) as (h1 & m1 & E1 & B1). destruct (becomes_ok _ _ _ _ _ Hm B1) as [Hm1 Hb1].
  destruct (page_interval _ va (proj2 Hm) Hva) as (_ & _ & Hin & _).
  destruct (write_byte_ok h1 m1 va v Hm1 Hva Hv) as (h' & m' & E2 & B2).
  { rewrite Hb1. unfold with_page. now rewrite memberb_in. }
  exists h1, m1, h', m'. split; [assumption|]. split; [assumption|]. apply (becomes_trans _ _ _ _ _ _ _ _ B1) in B2. revert B2. apply becomes_ext.
  intros y. unfold store, mapped_page. rewrite Hn, Hb1. reflexivity.
Qed.

Lemma get_address n a : 0 <= n <= 64 -> bv_ok n a -> c_get (mkCV n a) = Ret a /\ 0 <= a < 2 ^ 64.
Proof.
  intros Hn Ha. split; [now apply c_get_ok|]. unfold bv_ok in Ha. pose proof (Z.pow_le_mono_r 2 n 64). lia.
Qed.

Lemma writeByte_ok h m n a v : mem_ok h m -> 0 <= n <= 64 -> bv_ok n a -> byte_ok v ->
  exists h' m', writeByte (mkCV n a) (mkCV 8 v) h m = Ret (h', m') /\ becomes h m h' m' (store (pageSize_ m) a v (mem_byte h m)).
Proof.
  intros Hm Hn Ha Hv. destruct (get_address n a Hn Ha) as [Eg Hva]. unfold writeByte. cbn [c_nBits Z.eqb Pos.eqb require_ obind]. rewrite Eg. cbn [obind].
  rewrite c_get_ok by (lia || exact Hv). cbn [obind]. rewrite (is_mapped_ok h m a Hm Hva). cbn [obind]. destruct (mem_byte h m a) as [u|] eqn:E.
  - destruct (write_byte_ok h m a v Hm Hva Hv) as (h' & m' & E' & B); [congruence|]. exists h', m'. split; [assumption|]. revert B. apply becomes_ext.
    intros y. unfold store, mapped_page. now rewrite E.
  - destruct (new_byte_ok h m a v Hm Hva Hv E) as (h1 & m1 & h' & m' & E1 & E2 & B). rewrite E1. cbn [obind]. now exists h', m'.
Qed.

(** What a read returns, and leaves. *)
Definition loaded (a d : Z) (f : Z -> option Z) : Z := match f a with Some v => v | None => d end.
Definition after_load (allow : bool) (size a d : Z) (f : Z -> option Z) : Z -> option Z :=
  match f a with Some _ => f | None => if allow then store size a d f else f end.

Lemma readByte_ok h m n a d allow : mem_ok h m -> 0 <= n <= 64 -> bv_ok n a -> byte_ok d ->
  exists h' m', readOrPeekByte (mkCV n a) (mkCV 8 d) allow h m = Ret (mkCV 8 (loaded a d (mem_byte h m)), (h', m')) /\
    becomes h m h' m' (after_load allow (pageSize_ m) a d (mem_byte h m)).
Proof.
  intros Hm Hn Ha Hd. destruct (get_address n a Hn Ha) as [Eg Hva]. unfold readOrPeekByte. cbn [c_nBits Z.eqb Pos.eqb require_ obind]. rewrite Eg. cbn [obind].
  rewrite c_get_ok by (lia || exact Hd). cbn [obind]. rewrite (is_mapped_ok h m a Hm Hva). cbn [obind]. unfold loaded, after_load. destruct (mem_byte h m a) as [u|] eqn:E.
  - cbn [negb]. unfold mem_byte, map_in in E. destruct (map_of m) as [am|] eqn:Em; [|discriminate].
    assert (Hs : space_ok h am) by (destruct Hm as [Hs _]; unfold map_in in Hs; now rewrite Em in Hs). unfold at_one.
    rewrite at_one_ok, (read_at h am a u Hs ltac:(unfold const_max; lia) E). cbn [obind]. exists h, m. pose proof (byte_at_ok h am a u Hs E) as Hu.
    unfold c_number. rewrite fromInteger_spec, Z.mod_small by (exact Hu || (unfold byte_ok in Hu; lia)). split; [reflexivity|]. now apply becomes_refl.
  - cbn [negb]. destruct allow.
    + destruct (new_byte_ok h m a d Hm Hva Hd E) as (h1 & m1 & h' & m' & E1 & E2 & B). rewrite E1. cbn [obind]. rewrite E2. cbn [obind]. now exists h', m'.
    + exists h, m. split; [reflexivity|]. now apply becomes_refl.
Qed.
