(* ===== verification/RiscMemoryRun.v ===== *)
(** Running programs over registers and memory in the concrete domain.

    As [RiscRun], with the bytes of memory beside the bits of registers.  Memory is
    mapped by whole pages, so that allocating one loses nothing. *)
From S2P Require Import Prelude BitVector SymType SymExpr SymEval SawyerInterval SawyerMapFacts RegDescriptor SawyerAddressSpace SawyerSpaceFacts.
From S2P Require Import RiscOps RiscConcrete RiscConcreteFacts RiscArith RiscMulDiv RiscData RiscRegisters RiscRegFacts RiscRegTheorems RiscMachine RiscRun.
From S2P Require Import RiscMemory RiscMemoryFacts.
From stdpp Require Import gmap.
From Stdlib Require Import Morphisms.
Open Scope Z_scope.

(** * Whole pages *)

Definition Bytes : Type := Z -> option Z.

(** The addresses of a page are mapped together. *)
Definition whole_pages (size : Z) (u : Bytes) : Prop := forall x y, x / size = y / size -> u x = None -> u y = None.

Lemma in_page size va y : 0 < size -> memberb y (page size va) = true <-> y / size = va / size.
Proof.
  intros Hs. unfold memberb, page. cbn [lo_ hi_]. rewrite andb_true_iff, !Z.leb_le.
  pose proof (Z.div_mod y size ltac:(lia)). pose proof (Z.mod_pos_bound y size Hs). split.
  - intros H1. symmetry. apply Z.div_unique_pos with (r := y - va / size * size); lia.
  - intros E. rewrite E in *. lia.
Qed.

Lemma store_here size va v u : store size va v u va = Some v.
Proof. unfold store. now rewrite Z.eqb_refl. Qed.

(** A byte that was mapped stays, unless it is the one that is stored. *)
Lemma store_other size va v u y : 0 < size -> whole_pages size u -> y <> va -> u y <> None -> store size va v u y = u y.
Proof.
  intros Hs Hw Hne Hy. unfold store. rewrite (proj2 (Z.eqb_neq y va)) by assumption. unfold mapped_page. destruct (u va) eqn:E; [reflexivity|].
  unfold with_page. destruct (memberb y (page size va)) eqn:Ep; [|reflexivity]. apply in_page in Ep; [|assumption]. elim Hy. exact (Hw va y (eq_sym Ep) E).
Qed.

Lemma store_mapped size va v u y : 0 < size -> whole_pages size u -> u y <> None -> store size va v u y <> None.
Proof.
  intros Hs Hw Hy. destruct (Z.eq_dec y va) as [->|Hne]; [now rewrite store_here|]. now rewrite store_other.
Qed.

Lemma store_whole size va v u : 0 < size -> whole_pages size u -> whole_pages size (store size va v u).
Proof.
  intros Hs Hw x y E H. unfold store in *. destruct (Z.eqb_spec x va) as [->|Hx]; [discriminate|]. unfold mapped_page in *.
  destruct (u va) as [b|] eqn:Ev.
  - destruct (Z.eqb_spec y va) as [->|_]; [|now apply (Hw x)]. exfalso. now rewrite (Hw x va E H) in Ev.
  - unfold with_page in *. destruct (memberb x (page size va)) eqn:Ep; [discriminate|].
    assert (Hp : memberb y (page size va) = false).
    { apply not_true_iff_false. intros Hp. apply in_page in Hp; [|assumption]. apply not_true_iff_false in Ep. apply Ep. apply in_page; [assumption|congruence]. }
    rewrite Hp. destruct (Z.eqb_spec y va) as [->|_]; [|now apply (Hw x)]. apply not_true_iff_false in Hp. elim Hp. now apply in_page.
Qed.

(** * Programs *)

#[export] Instance machine_laws : RegisterLaws Machine machine_registers.
Proof. now split; intros; cbn; destruct s. Qed.

Definition mem_eq (u v : Bytes) : Prop := forall x, u x = v x.
#[export] Instance mem_eq_equiv : Equivalence mem_eq.
Proof. split; [intros u x; reflexivity|intros u v H x; now rewrite H|intros u v w H H' x; now rewrite H]. Qed.
#[export] Instance store_Proper size va v : Proper (mem_eq ==> mem_eq) (store size va v).
Proof. intros f g E y. now apply store_ext. Qed.
#[export] Instance whole_pages_Proper size : Proper (mem_eq ==> iff) (whole_pages size).
Proof. intros f g E. unfold whole_pages. split; intros H x y Exy; [rewrite <- !E|rewrite !E]; now apply H. Qed.

Section Machine.
Context (ps : Z) (o : ByteOrder).
#[local] Existing Instance ConcreteOps.

(** The machine has some bits in its registers, and bytes in its memory. *)
Definition machine_at (s : Machine) (f : Bits) (u : Bytes) : Prop :=
  holding (m_registers s) f /\ mem_ok (m_heap s) (m_memory s) /\ pageSize_ (m_memory s) = ps /\ byteOrder (m_memory s) = o /\
  (forall x, mem_byte (m_heap s) (m_memory s) x = u x) /\ whole_pages ps u.

(** A program that ends with a value. *)
Definition goes {A} (m : M Machine A) (f : Bits) (u : Bytes) (a : A) (g : Bits) (v : Bytes) : Prop :=
  forall s, machine_at s f u -> exists s', m s = Ret (a, s') /\ machine_at s' g v.

Lemma machine_at_page s f u : machine_at s f u -> page_ok ps.
Proof. intros (_ & (_ & H) & <- & _). exact H. Qed.

Lemma goes_page {A} (m : M Machine A) f u a g v : (page_ok ps -> goes m f u a g v) -> goes m f u a g v.
Proof. intros H s Hs. exact (H (machine_at_page _ _ _ Hs) s Hs). Qed.

Lemma goes_whole {A} (m : M Machine A) f u a g v : (whole_pages ps u -> goes m f u a g v) -> goes m f u a g v.
Proof. intros H s Hs. refine (H _ s Hs). apply Hs. Qed.

Lemma goes_runs {A} (m : M Machine A) f a g u : runs m f a g -> goes m f u a g u.
Proof.
  intros H s (Hf & Hm & Hp & Ho & Hu & Hw). destruct (H s Hf) as (rs & E & Hg). eexists. split; [exact E|]. cbn. unfold machine_at. cbn.
  split; [exact Hg|]. now repeat (split; [assumption|]).
Qed.

Lemma goes_ret {A} (a : A) f u : goes (ret a) f u a f u.
Proof. apply goes_runs, runs_ret. Qed.

Lemma goes_bind {A B} (m : M Machine A) (k : A -> M Machine B) f u a g v b h w : goes m f u a g v -> goes (k a) g v b h w -> goes (bind m k) f u b h w.
Proof. intros Hm Hk s Hs. destruct (Hm s Hs) as (s1 & E & H1). erewrite bind_Ret by exact E. exact (Hk s1 H1). Qed.

Lemma goes_runs_bind {A B} (m : M Machine A) (k : A -> M Machine B) f u a g b h w : runs m f a g -> goes (k a) g u b h w -> goes (bind m k) f u b h w.
Proof. intros Hm Hk. exact (goes_bind _ _ _ _ _ _ _ _ _ _ (goes_runs _ _ _ _ u Hm) Hk). Qed.

Lemma goes_eq {A} (m : M Machine A) f u a a' g g' v v' : goes m f u a g v -> a = a' -> bits_eq g g' -> mem_eq v v' -> goes m f u a' g' v'.
Proof.
  intros H <- Hg Hv s Hs. destruct (H s Hs) as (s' & E & (H1 & H2) & Hm & Hp & Ho & Hu & Hw). exists s'. split; [exact E|]. split; [split; [now rewrite <- Hg|assumption]|].
  repeat (split; [assumption|]). split; [intros x; now rewrite Hu|now rewrite <- Hv].
Qed.

(** ** Bytes *)

Lemma at_memory s f u (h' : Heap) (m' : ConcreteMemory) g : machine_at s f u -> becomes (m_heap s) (m_memory s) h' m' g -> whole_pages ps g ->
  machine_at (mkMachine (m_registers s) m' h') f g.
Proof.
  intros (Hf & Hm & Hp & Ho & Hu & Hw) Hb Hg. destruct (becomes_ok _ _ _ _ _ Hm Hb) as [Hm' Hu']. destruct Hb as (_ & Ep & Eo).
  split; [exact Hf|]. cbn. split; [exact Hm'|]. split; [congruence|]. split; [congruence|]. now split.
Qed.

Lemma write_byte_goes n a v f u : 0 <= n <= 64 -> bv_ok n a -> byte_ok v -> goes (write_byte_of (mkCV n a) (mkCV 8 v)) f u tt f (store ps a v u).
Proof.
  intros Hn Ha Hv s Hs. pose proof Hs as (_ & Hm & Hp & _ & Hu & Hw). destruct (writeByte_ok _ _ n a v Hm Hn Ha Hv) as (h' & m' & E & Hb).
  unfold write_byte_of, on_memory. rewrite E. cbn [obind fst snd]. eexists. split; [reflexivity|]. apply (at_memory s f u); [assumption| |].
  - rewrite Hp in Hb. revert Hb. apply becomes_ext. now apply store_ext.
  - apply store_whole; [|assumption]. destruct (machine_at_page _ _ _ Hs) as [[H _] _]. exact H.
Qed.

(** Reading a byte that is mapped. *)
Lemma read_byte_goes n a d v allow f u : 0 <= n <= 64 -> bv_ok n a -> byte_ok d -> u a = Some v ->
  goes (read_byte_of (mkCV n a) (mkCV 8 d) allow) f u (mkCV 8 v) f u.
Proof.
  intros Hn Ha Hd Hua s Hs. pose proof Hs as (_ & Hm & _ & _ & Hu & Hw). destruct (readByte_ok _ _ n a d allow Hm Hn Ha Hd) as (h' & m' & E & Hb).
  unfold loaded, after_load in *. rewrite Hu, Hua in *. unfold read_byte_of, on_memory. rewrite E. cbn [obind fst snd]. eexists. split; [reflexivity|].
  apply (at_memory s f u); [assumption| |assumption]. revert Hb. now apply becomes_ext.
Qed.

(** ** Values of several bytes *)

(** Byte [i] of a value of [nb] bytes, in the order of addresses. *)
Definition byte_offset (nb i : Z) : Z := match o with ORDER_MSB => nb - (i + 1) | _ => i end.
Definition value_byte (v k : Z) : Z := v / 2 ^ (8 * k) mod 2 ^ 8.

(** The bytes of [v] from the [i]th on, at addresses of [n] bits that wrap around. *)
Fixpoint store_bytes (k : nat) (i nb n a v : Z) (u : Bytes) : Bytes :=
  match k with
  | O => u
  | S k => store_bytes k (i + 1) nb n a v (store ps ((a + i) mod 2 ^ n) (value_byte v (byte_offset nb i)) u)
  end.

Lemma value_byte_ok v k : byte_ok (value_byte v k).
Proof. unfold byte_ok, value_byte. pose proof (Z.mod_pos_bound (v / 2 ^ (8 * k)) (2 ^ 8) ltac:(lia)). lia. Qed.

Lemma byte_address_runs n a i f : 0 < n -> 0 <= i < 2 ^ 64 -> runs (byte_address (mkCV n a) i) f (mkCV n ((a + i) mod 2 ^ n)) f.
Proof.
  intros Hn Hi. unfold byte_address. cbn [nBits_ ConcreteOps c_nBits]. eapply runs_bind; [apply runs_pure; intros s; apply c_number_ok; lia|cbv beta].
  eapply runs_eq; [apply runs_pure; intros s; apply c_add_ok| |reflexivity]. now rewrite Zplus_mod_idemp_r.
Qed.

Lemma byte_of_value w v k f : 0 <= k -> 8 * k + 8 <= w -> runs (extract (mkCV w v) (8 * k) (8 * k + 8)) f (mkCV 8 (value_byte v k)) f.
Proof.
  intros Hk Hw. eapply runs_eq; [apply runs_pure; intros s; apply c_extract_ok; lia| |reflexivity]. unfold value_byte. do 2 f_equal; [lia|]. do 2 f_equal. lia.
Qed.

Section Span.
Context (n a nb : Z).
Hypothesis Hn : 0 < n <= 64.
Hypothesis Hnb : 0 < nb < 2 ^ 61.
Hypothesis Horder : o <> ORDER_UNSPECIFIED \/ nb = 1.

Lemma write_bytes_goes k i v f u : 0 <= i -> i + Z.of_nat k = nb ->
  goes (write_bytes k i nb o (mkCV n a) (mkCV (8 * nb) v)) f u tt f (store_bytes k i nb n a v u).
Proof.
  revert i u. induction k as [|k IH]; intros i u Hi Hk; [apply goes_ret|]. cbn [write_bytes store_bytes].
  apply goes_bind with (a := byte_offset nb i) (g := f) (v := u).
  { destruct (Z.eqb_spec 1 nb) as [E|E].
    - replace (byte_offset nb i) with 0; [apply goes_ret|]. unfold byte_offset. destruct o; lia.
    - unfold byte_offset. destruct o; [destruct Horder; [easy|lia]|apply goes_ret..]. }
  assert (Hoff : 0 <= byte_offset nb i < nb) by (unfold byte_offset; destruct o; lia).
  eapply goes_runs_bind; [apply byte_of_value; lia|cbv beta]. eapply goes_runs_bind; [apply byte_address_runs; lia|cbv beta].
  eapply goes_bind; [apply write_byte_goes; [lia|apply mod_ok; lia|apply value_byte_ok]|cbv beta]. apply IH; lia.
Qed.

(** The bytes of a value are in memory. *)
Definition has_value (v : Z) (u : Bytes) : Prop := forall i, 0 <= i < nb -> u ((a + i) mod 2 ^ n) = Some (value_byte v (byte_offset nb i)).

(** What has been read after [i] bytes. *)
Definition partial (v i : Z) : Z := match o with ORDER_MSB => v / 2 ^ (8 * (nb - i)) | _ => v mod 2 ^ (8 * i) end.

Lemma partial_next v i : bv_ok (8 * nb) v -> 0 <= i < nb ->
  partial v (i + 1) = match o with
    | ORDER_MSB => value_byte v (byte_offset nb i) + partial v i * 2 ^ 8
    | _ => partial v i + value_byte v (byte_offset nb i) * 2 ^ (8 * i)
    end /\ bv_ok (8 * i) (partial v i).
Proof.
  intros Hv Hi. unfold partial, byte_offset, value_byte. pose proof (pow2_pos (8 * i) ltac:(lia)).
  assert (Hlsb : v mod 2 ^ (8 * (i + 1)) = v mod 2 ^ (8 * i) + v / 2 ^ (8 * i) mod 2 ^ 8 * 2 ^ (8 * i)).
  { replace (8 * (i + 1)) with (8 * i + 8) by lia. rewrite Z.pow_add_r, Z.rem_mul_r by lia. lia. }
  assert (Hmsb : v / 2 ^ (8 * (nb - (i + 1))) = v / 2 ^ (8 * (nb - (i + 1))) mod 2 ^ 8 + v / 2 ^ (8 * (nb - i)) * 2 ^ 8).
  { replace (8 * (nb - i)) with (8 * (nb - (i + 1)) + 8) by lia. pose proof (pow2_pos (8 * (nb - (i + 1))) ltac:(lia)).
    rewrite Z.pow_add_r, <- Z.div_div by lia. pose proof (Z.div_mod (v / 2 ^ (8 * (nb - (i + 1)))) (2 ^ 8) ltac:(lia)). lia. }
  destruct o; (split; [assumption|]); [apply mod_ok; lia..|]. unfold bv_ok in *. pose proof (pow2_pos (8 * (nb - i)) ltac:(lia)).
  split; [apply Z.div_pos; lia|]. apply Z.div_lt_upper_bound; [lia|]. rewrite <- Z.pow_add_r by lia. replace (8 * (nb - i) + 8 * i) with (8 * nb) by lia. lia.
Qed.

Lemma read_bytes_goes k i v d allow f u : bv_ok (8 * nb) v -> has_value v u -> 0 <= i -> i + Z.of_nat k = nb ->
  goes (read_bytes k i nb o (mkCV n a) (mkCV (8 * nb) d) allow (if i =? 0 then None else Some (mkCV (8 * i) (partial v i)))) f u
    (if nb =? 0 then None else Some (mkCV (8 * nb) (partial v nb))) f u.
Proof.
  intros Hv Hu. revert i. induction k as [|k IH]; intros i Hi Hk.
  { replace i with nb by lia. apply goes_ret. }
  cbn [read_bytes]. fold (byte_offset nb i). assert (Hoff : 0 <= byte_offset nb i < nb) by (unfold byte_offset; destruct o; lia).
  eapply goes_runs_bind; [apply byte_of_value; lia|cbv beta]. eapply goes_runs_bind; [apply byte_address_runs; lia|cbv beta].
  eapply goes_bind; [apply read_byte_goes; [lia|apply mod_ok; lia|apply value_byte_ok|apply Hu; lia]|cbv beta].
  destruct (partial_next v i Hv ltac:(lia)) as [En Hp].
  apply goes_bind with (a := mkCV (8 * (i + 1)) (partial v (i + 1))) (g := f) (v := u).
  - rewrite En. destruct (Z.eqb_spec i 0) as [->|Hi0].
    + eapply goes_eq; [apply goes_ret| |reflexivity|reflexivity]. unfold partial. cbn. rewrite Z.mod_1_r.
      destruct o; f_equal; try lia. replace (v / 2 ^ (8 * (nb - 0))) with 0; [lia|]. symmetry. apply Z.div_small. rewrite Z.sub_0_r. exact Hv.
    + pose proof (value_byte_ok v (byte_offset nb i)) as Hb. unfold byte_ok in Hb. change 256 with (2 ^ 8) in Hb. fold (bv_ok 8 (value_byte v (byte_offset nb i))) in Hb.
      destruct o; [destruct Horder; [easy|lia]| |]; (eapply goes_eq; [apply goes_runs, runs_pure; intros s; apply c_concat_ok; try assumption; lia| |reflexivity|reflexivity]);
        f_equal; lia.
  - cbv beta. specialize (IH (i + 1) ltac:(lia) ltac:(lia)). rewrite (proj2 (Z.eqb_neq (i + 1) 0)) in IH by lia. exact IH.
Qed.

(** What was written is there, when no byte wraps around onto another. *)
Lemma store_bytes_kept k i v u y : page_ok ps -> whole_pages ps u -> 0 <= i -> i + Z.of_nat k = nb ->
  (forall j, i <= j < nb -> y <> (a + j) mod 2 ^ n) -> u y <> None -> store_bytes k i nb n a v u y = u y.
Proof.
  intros [[Hps _] _]. revert i u. induction k as [|k IH]; intros i u Hw Hi Hk Hy Hu; [reflexivity|]. cbn [store_bytes].
  assert (E : store ps ((a + i) mod 2 ^ n) (value_byte v (byte_offset nb i)) u y = u y) by (apply store_other; [assumption..|apply Hy; lia|assumption]).
  rewrite IH; [exact E|now apply store_whole|lia|lia|intros j Hj; apply Hy; lia|congruence].
Qed.

Lemma store_bytes_whole k i v u : page_ok ps -> whole_pages ps u -> whole_pages ps (store_bytes k i nb n a v u).
Proof. intros [[Hps _] _]. revert i u. induction k as [|k IH]; intros i u Hw; [assumption|]. apply IH. now apply store_whole. Qed.

Lemma addresses_differ i j : nb <= 2 ^ n -> 0 <= i < nb -> 0 <= j < nb -> (a + i) mod 2 ^ n = (a + j) mod 2 ^ n -> i = j.
Proof.
  intros Hfit Hi Hj E. pose proof (pow2_pos n ltac:(lia)). pose proof (Z.div_mod (a + i) (2 ^ n) ltac:(lia)). pose proof (Z.div_mod (a + j) (2 ^ n) ltac:(lia)).
  assert ((a + i) / 2 ^ n = (a + j) / 2 ^ n) by nia. lia.
Qed.

Lemma store_bytes_value v k i u : page_ok ps -> whole_pages ps u -> nb <= 2 ^ n -> 0 <= i -> i + Z.of_nat k = nb ->
  (forall j, 0 <= j < i -> u ((a + j) mod 2 ^ n) = Some (value_byte v (byte_offset nb j))) -> has_value v (store_bytes k i nb n a v u).
Proof.
  intros Hp Hw Hfit. revert i u Hw. induction k as [|k IH]; intros i u Hw Hi Hk Hu; cbn [store_bytes].
  { intros j Hj. apply Hu. lia. }
  pose proof Hp as [[Hps _] _]. apply IH; [now apply store_whole|lia|lia|]. intros j Hj. destruct (Z.eq_dec j i) as [->|Hne]; [apply store_here|].
  rewrite store_other; [apply Hu; lia|assumption|assumption| |rewrite Hu by lia; discriminate].
  intros E. apply Hne. apply addresses_differ; [assumption|lia|lia|exact E].
Qed.
End Span.

(** ** The operations *)

(** The memory after a value of [nb] bytes is written. *)
Definition after_write (n a nb v : Z) (u : Bytes) : Bytes := store_bytes (Z.to_nat nb) 0 nb n a v u.

Section Segment.
Context (segreg : RegisterDescriptor) (n a base : Z) (f : Bits).
Hypothesis Hn : 0 < n <= 64.
Hypothesis Ha : bv_ok n a.
(** The segment register has a value, if there is one. *)
Hypothesis Hseg : if isEmpty segreg then base = 0 else valid_register segreg = true /\ exists sv, holds segreg sv f /\ base = sval (nBits segreg) sv.
#[local] Notation va := ((a + base) mod 2 ^ n).

Lemma adjusted_runs allow : runs (adjusted segreg (mkCV n a) allow) f (mkCV n va) f.
Proof.
  unfold adjusted. destruct (isEmpty segreg) eqn:E.
  - rewrite Hseg, Z.add_0_r, Z.mod_small by exact Ha. apply runs_ret.
  - destruct Hseg as (Hv & sv & Hs & ->). destruct (valid_ok _ Hv) as [_ Hpos].
    apply runs_bind with (a := mkCV (nBits segreg) sv) (g := f).
    + destruct allow; [now apply runs_readRegister|]. eapply runs_bind; [now apply runs_pure|]. now apply runs_peekRegister.
    + cbv beta. cbn [nBits_ ConcreteOps c_nBits]. eapply runs_bind; [apply runs_pure; intros s; apply c_sext_ok; [lia|lia|apply Hs]|cbv beta].
      eapply runs_eq; [apply runs_pure; intros s; apply c_add_ok| |reflexivity]. now rewrite Zplus_mod_idemp_r.
Qed.

Context (nb : Z).
Hypothesis Hnb : 0 < nb < 2 ^ 61.
Hypothesis Horder : o <> ORDER_UNSPECIFIED \/ nb = 1.
Hypothesis Hfit : nb <= 2 ^ n.

Lemma isFalse_bit b : isFalse (mkCV 1 (bool_Z b)) = negb b.
Proof. now destruct b. Qed.

Lemma with_order {A} (m : ByteOrder -> M Machine A) u r g w : goes (m o) f u r g w -> goes (fun s => m (byteOrder (m_memory s)) s) f u r g w.
Proof. intros H s Hs. pose proof Hs as (_ & _ & _ & E & _). rewrite E. now apply H. Qed.

Lemma write_goes v u : bv_ok (8 * nb) v ->
  goes (c_writeMemory segreg (mkCV n a) (mkCV (8 * nb) v) (mkCV 1 (bool_Z true))) f u tt f (after_write n va nb v u).
Proof.
  intros Hv. unfold c_writeMemory. eapply goes_runs_bind; [apply runs_assert; reflexivity|cbv beta]. rewrite isFalse_bit. cbn [negb].
  eapply goes_runs_bind; [apply adjusted_runs|cbv beta]. eapply goes_runs_bind; [now apply runs_pure|cbv beta]. cbn [c_nBits].
  eapply goes_runs_bind; [apply runs_assert; rewrite Z.mul_comm, Z.mod_mul; [reflexivity|lia]|cbv beta].
  replace (8 * nb / 8) with nb by (rewrite Z.mul_comm, Z.div_mul; lia).
  apply (with_order (fun ord => write_bytes (Z.to_nat nb) 0 nb ord (mkCV n va) (mkCV (8 * nb) v))). apply write_bytes_goes; assumption || lia.
Qed.

Lemma no_write_goes v u : goes (c_writeMemory segreg (mkCV n a) v (mkCV 1 (bool_Z false))) f u tt f u.
Proof. unfold c_writeMemory. eapply goes_runs_bind; [apply runs_assert; reflexivity|cbv beta]. rewrite isFalse_bit. apply goes_ret. Qed.

Lemma read_goes v d u : bv_ok (8 * nb) v -> has_value n va nb v u ->
  goes (c_readMemory segreg (mkCV n a) (mkCV (8 * nb) d) (mkCV 1 (bool_Z true))) f u (mkCV (8 * nb) v) f u.
Proof.
  intros Hv Hu. unfold c_readMemory. eapply goes_runs_bind; [apply runs_assert; reflexivity|cbv beta]. rewrite isFalse_bit. cbn [negb].
  unfold readOrPeekMemory. cbn [c_nBits]. eapply goes_runs_bind; [apply runs_assert; rewrite Z.mul_comm, Z.mod_mul; [reflexivity|lia]|cbv beta].
  eapply goes_runs_bind; [apply adjusted_runs|cbv beta]. replace (8 * nb / 8) with nb by (rewrite Z.mul_comm, Z.div_mul; lia).
  eapply goes_bind.
  - apply (with_order (fun ord => read_bytes (Z.to_nat nb) 0 nb ord (mkCV n va) (mkCV (8 * nb) d) true None)).
    apply (read_bytes_goes n va nb Hn Hnb Horder (Z.to_nat nb) 0 v d true f u Hv Hu); lia.
  - cbv beta. rewrite (proj2 (Z.eqb_neq nb 0)) by lia. cbn [c_nBits]. eapply goes_runs_bind; [apply runs_assert, Z.eqb_refl|cbv beta].
    eapply goes_eq; [apply goes_ret| |reflexivity|reflexivity]. f_equal. unfold partial. destruct o; [apply Z.mod_small, Hv..|].
    rewrite Z.sub_diag. cbn [Z.mul]. now rewrite Z.pow_0_r, Z.div_1_r.
Qed.

(** A value that was written is read back. *)
Lemma written_value v u : page_ok ps -> whole_pages ps u -> has_value n va nb v (after_write n va nb v u).
Proof. intros Hp Hw. apply store_bytes_value; try assumption; try lia. Qed.
End Segment.
End Machine.

(** * A machine with given registers, and no memory *)

Definition no_bits : Bits := fun _ _ => None.
Definition no_bytes : Bytes := fun _ => None.

Definition fresh_machine (ps : Z) (o : ByteOrder) : Machine := mkMachine RegisterState_empty (mkMemory None ps o) (mkHeap ∅ 0).

Lemma fresh_ok ps o : page_ok ps -> machine_at ps o (fresh_machine ps o) no_bits no_bytes.
Proof.
  intros Hp. assert (Hh : heap_ok (mkHeap ∅ 0)) by (intros i b E; cbn in E; now rewrite lookup_empty in E).
  destruct (mem_initial (mkHeap ∅ 0) (mkMemory None ps o) Hh eq_refl Hp) as [Hm Hu].
  split; [split; [apply represents_empty|reflexivity]|]. split; [exact Hm|]. split; [reflexivity|]. split; [reflexivity|]. split; [exact Hu|].
  intros x y _ _. reflexivity.
Qed.

Section Setup.
#[local] Existing Instance ConcreteOps.

(** Some values that registers can have. *)
Definition settable (l : list (RegisterDescriptor * Z)) : bool :=
  forallb (fun p => valid_register p.1 && (0 <=? p.2) && (p.2 <? 2 ^ nBits p.1)) l.

Lemma machine_exists ps o l : page_ok ps -> settable l = true -> exists s, machine_at ps o s (assign l no_bits) no_bytes.
Proof.
  intros Hp. assert (Go : forall f, (exists s, machine_at ps o s f no_bytes) -> settable l = true -> exists s, machine_at ps o s (assign l f) no_bytes).
  { induction l as [|[reg v] l IH]; intros f Hs Hl; [exact Hs|]. cbn in Hl. rewrite !andb_true_iff, Z.leb_le, Z.ltb_lt in Hl. destruct Hl as [[[Hv H0] H1] Hl].
    apply IH; [|assumption]. destruct Hs as (s & Hs). pose proof (goes_runs ps o _ _ _ _ no_bytes (runs_writeRegister reg Hv (nBits reg) v f eq_refl (conj H0 H1))) as G.
    destruct (G s Hs) as (s' & _ & Hs'). now exists s'. }
  apply Go. exists (fresh_machine ps o). now apply fresh_ok.
Qed.

(** A register of an assignment, when no later one touches it. *)
Lemma holds_last reg v l f : bv_ok (nBits reg) v -> forallb (fun p => apart reg p.1) l = true -> holds reg v (assign ((reg, v) :: l) f).
Proof. intros Hv Hl. apply (holds_assign reg v l); [|assumption]. now apply holds_write. Qed.
End Setup.
