(* ===== verification/RiscMemoryTheorems.v ===== *)
(** What concrete memory promises: it is a function from addresses to bytes that pages of
    zeros extend, values are read as they were written, and a copy that shares the storage
    has bytes of its own. *)
From S2P Require Import Prelude BitVector SymType SymExpr SymEval SawyerInterval SawyerIntervalMap SawyerAddressMap SawyerMapFacts RegDescriptor SawyerAddressSpace SawyerSpaceFacts.
From S2P Require Import RiscOps RiscConcrete RiscConcreteFacts RiscArith RiscMulDiv RiscData RiscRegisters RiscRegFacts RiscRegTheorems RiscMachine RiscRun.
From S2P Require Import RiscMemory RiscMemoryFacts RiscMemoryRun.
From stdpp Require Import gmap.
Open Scope Z_scope.

#[local] Notation contents := (SawyerMapFacts.contents 64).

(** * Marked storage *)

(** The same buffers, of which more are marked. *)
Definition marks (h h' : Heap) : Prop := nextBuffer h' = nextBuffer h /\ forall p,
  match buffers h !! p with
  | Some b => exists b', buffers h' !! p = Some b' /\ values_ b' = values_ b /\ (copyOnWrite b = true -> copyOnWrite b' = true)
  | None => buffers h' !! p = None
  end.

Lemma marks_refl h : marks h h.
Proof. split; [reflexivity|]. intros p. destruct (buffers h !! p) as [b|]; [now exists b|reflexivity]. Qed.

Lemma marks_trans h h1 h2 : marks h h1 -> marks h1 h2 -> marks h h2.
Proof.
  intros [N1 H1] [N2 H2]. split; [congruence|]. intros p. specialize (H1 p). specialize (H2 p). destruct (buffers h !! p) as [b|].
  - destruct H1 as (b1 & E1 & V1 & C1). rewrite E1 in H2. destruct H2 as (b2 & E2 & V2 & C2). exists b2. split; [assumption|]. split; [congruence|tauto].
  - rewrite H1 in H2. exact H2.
Qed.

Lemma marks_one s h : marks h (mark_copyOnWrite s h) /\ (forall b, buffers (mark_copyOnWrite s h) !! buffer_ s = Some b -> copyOnWrite b = true).
Proof.
  unfold mark_copyOnWrite. destruct (buffers h !! buffer_ s) as [b|] eqn:E.
  - split.
    + split; [reflexivity|]. intros p. cbn. destruct (decide (p = buffer_ s)) as [->|Hne].
      * rewrite E, lookup_insert_eq. eexists. split; [reflexivity|]. now split.
      * rewrite lookup_insert_ne by congruence. destruct (buffers h !! p) as [c|]; [now exists c|reflexivity].
    + intros c. cbn. rewrite lookup_insert_eq. now intros [= <-].
  - split; [apply marks_refl|]. intros b Hb. congruence.
Qed.

Lemma marks_all (l : list (Node Segment)) h : let h' := fold_left (fun h n => mark_copyOnWrite (snd n) h) l h in
  marks h h' /\ forall n b, In n l -> buffers h' !! buffer_ (snd n) = Some b -> copyOnWrite b = true.
Proof.
  revert h. induction l as [|n l IH]; intros h; cbn [fold_left]; [split; [apply marks_refl|easy]|].
  destruct (marks_one (snd n) h) as [M1 C1]. destruct (IH (mark_copyOnWrite (snd n) h)) as [M2 C2]. split; [exact (marks_trans _ _ _ M1 M2)|].
  intros n' b [<-|Hin] Hb; [|now apply (C2 n')]. destruct M2 as [_ M2]. specialize (M2 (buffer_ (snd n))).
  destruct (buffers (mark_copyOnWrite (snd n) h) !! buffer_ (snd n)) as [b1|] eqn:E1; [|congruence].
  destruct M2 as (b2 & E2 & _ & C). rewrite Hb in E2. injection E2 as <-. now apply C, C1.
Qed.

Lemma marks_space h h' m : marks h h' -> space_ok h m -> space_ok h' m /\ forall x, byte_at h' m x = byte_at h m x.
Proof.
  intros [N M] H. assert (Hh : heap_ok h').
  { intros p b Hb. specialize (M p). destruct (buffers h !! p) as [b0|] eqn:E; [|congruence]. destruct M as (b' & E' & V & _).
    rewrite Hb in E'. injection E' as <-. rewrite N, V. exact (space_heap _ _ H _ _ E). }
  split.
  - split; [assumption|apply H| |apply H]. intros x pl Hx. destruct (space_stored _ _ H x pl Hx) as (Ha & b & Hb & Hl). split; [assumption|].
    specialize (M (place_buffer pl)). rewrite Hb in M. destruct M as (b' & E' & V & _). exists b'. split; [assumption|congruence].
  - intros x. unfold byte_at. destruct (contents (map_ m) x) as [pl|]; [|reflexivity]. cbn. unfold byte_in. specialize (M (place_buffer pl)).
    destruct (buffers h !! place_buffer pl) as [b|]; [|now rewrite M]. destruct M as (b' & -> & V & _). cbn. now rewrite V.
Qed.

(** A place is in the buffer of a node. *)
Lemma contents_node (l : list (Node Segment)) x pl : contents l x = Some pl -> exists n, In n l /\ place_buffer pl = buffer_ (snd n).
Proof.
  intros H. apply contents_Some in H as (k & s & Hin & _ & <-). now exists (k, s).
Qed.

Lemma clone_ok h m h' m' : mem_ok h m -> MemoryState_clone h m = (h', m') ->
  mem_ok h' m /\ mem_ok h' m' /\ separate h' (map_in m) (map_in m') /\ (forall x, mem_byte h' m x = mem_byte h m x) /\
  (forall x, mem_byte h' m' x = mem_byte h m x) /\ pageSize_ m' = pageSize_ m.
Proof.
  intros [Hs Hp] E. unfold MemoryState_clone in E. unfold mem_ok, mem_byte, map_in in *. destruct (map_of m) as [a|] eqn:Ea.
  - unfold AddressMap_copy in E. destruct (marks_all (map_ a) h) as [M C]. injection E as <- <-. cbn [map_of set_map pageSize_].
    destruct (marks_space _ _ a M Hs) as [Hs' Hb]. repeat (split; [now split|]). split; [|now split]. intros x y p q Hx Hy Ep.
    destruct (space_stored _ _ Hs' x p Hx) as (_ & b & Hb' & _). exists b. split; [assumption|]. destruct (contents_node _ _ _ Hx) as (n & Hin & En).
    apply (C n b Hin). congruence.
  - injection E as <- <-. rewrite Ea. repeat (split; [now split|]). split; [|now split]. intros x y p q Hx. discriminate.
Qed.

(** * Sequences of accesses *)

(** A byte is read, and the default is stored where nothing is if that is allowed, or a byte is written. *)
Inductive Access := Load (va dflt : Z) (allow : bool) | Store (va v : Z).

Definition access_ok (a : Access) : bool :=
  match a with Load va v _ | Store va v => (0 <=? va) && (va <? 2 ^ 64) && (0 <=? v) && (v <? 256) end.

(** By the memory, and by a function from addresses to bytes. *)
Definition access_memory (a : Access) (h : Heap) (m : ConcreteMemory) : outcome (option Z * (Heap * ConcreteMemory)) :=
  match a with
  | Load va dflt allow => let! ' (v, hm) := readOrPeekByte (mkCV 64 va) (mkCV 8 dflt) allow h m in Ret (Some (c_bits v), hm)
  | Store va v => let! hm := writeByte (mkCV 64 va) (mkCV 8 v) h m in Ret (None, hm)
  end.
Definition access_bytes (size : Z) (a : Access) (u : Bytes) : option Z * Bytes :=
  match a with
  | Load va dflt allow => (Some (loaded va dflt u), after_load allow size va dflt u)
  | Store va v => (None, store size va v u)
  end.

Fixpoint run_memory (ops : list Access) (h : Heap) (m : ConcreteMemory) : outcome (list (option Z) * (Heap * ConcreteMemory)) :=
  match ops with
  | [] => Ret ([], (h, m))
  | a :: ops => let! ' (r, hm) := access_memory a h m in let! ' (l, hm) := run_memory ops (fst hm) (snd hm) in Ret (r :: l, hm)
  end.
Fixpoint run_bytes (size : Z) (ops : list Access) (u : Bytes) : list (option Z) * Bytes :=
  match ops with
  | [] => ([], u)
  | a :: ops => let (r, u) := access_bytes size a u in let (l, u) := run_bytes size ops u in (r :: l, u)
  end.

Lemma access_range a : access_ok a = true -> match a with Load va v _ | Store va v => bv_ok 64 va /\ byte_ok v end.
Proof. unfold access_ok, bv_ok, byte_ok. destruct a; rewrite !andb_true_iff, !Z.leb_le, !Z.ltb_lt; lia. Qed.

(** One access. *)
Lemma access_goes a h m : access_ok a = true -> mem_ok h m -> let (r, u) := access_bytes (pageSize_ m) a (mem_byte h m) in
  exists h' m', access_memory a h m = Ret (r, (h', m')) /\ becomes h m h' m' u.
Proof.
  intros Ha Hm. apply access_range in Ha. destruct a as [va v allow|va v]; destruct Ha as [Hva Hv]; cbn [access_bytes access_memory].
  - destruct (readByte_ok h m 64 va v allow Hm ltac:(lia) Hva Hv) as (h' & m' & E & B). rewrite E. cbn [obind c_bits]. now exists h', m'.
  - destruct (writeByte_ok h m 64 va v Hm ltac:(lia) Hva Hv) as (h' & m' & E & B). rewrite E. cbn [obind]. now exists h', m'.
Qed.

Lemma access_same size a u v : mem_eq u v -> fst (access_bytes size a u) = fst (access_bytes size a v) /\
  mem_eq (snd (access_bytes size a u)) (snd (access_bytes size a v)).
Proof.
  intros E. destruct a as [va d allow|va d]; cbn; unfold loaded, after_load.
  - rewrite E. split; [reflexivity|]. destruct (v va); [exact E|]. destruct allow; [|exact E]. intros y. now apply store_ext.
  - split; [reflexivity|]. intros y. now apply store_ext.
Qed.

Lemma run_same size ops u v : mem_eq u v -> fst (run_bytes size ops u) = fst (run_bytes size ops v) /\ mem_eq (snd (run_bytes size ops u)) (snd (run_bytes size ops v)).
Proof.
  revert u v. induction ops as [|a ops IH]; intros u v E; [now split|]. cbn [run_bytes]. destruct (access_same size a u v E) as [E1 E2].
  destruct (access_bytes size a u) as [r u1], (access_bytes size a v) as [r' v1]. cbn [fst snd] in *. destruct (IH u1 v1 E2) as [E3 E4].
  destruct (run_bytes size ops u1), (run_bytes size ops v1). cbn [fst snd] in *. split; [congruence|assumption].
Qed.

Lemma run_memory_ok ops h m : mem_ok h m -> forallb access_ok ops = true ->
  exists h' m', run_memory ops h m = Ret (fst (run_bytes (pageSize_ m) ops (mem_byte h m)), (h', m')) /\ mem_ok h' m' /\
    forall x, mem_byte h' m' x = snd (run_bytes (pageSize_ m) ops (mem_byte h m)) x.
Proof.
  revert h m. induction ops as [|a ops IH]; intros h m Hm Hops; [now exists h, m|]. cbn [forallb] in Hops. apply andb_true_iff in Hops as [Ha Hops].
  cbn [run_memory run_bytes]. pose proof (access_goes a h m Ha Hm) as H. destruct (access_bytes (pageSize_ m) a (mem_byte h m)) as [r u].
  destruct H as (h1 & m1 & E1 & B1). destruct (becomes_ok _ _ _ _ _ Hm B1) as [Hm1 Hu]. destruct B1 as (_ & Ep & _).
  destruct (IH h1 m1 Hm1 Hops) as (h' & m' & E & Hm' & Hb). destruct (run_same (pageSize_ m1) ops (mem_byte h1 m1) u Hu) as [S1 S2]. rewrite Ep in *.
  rewrite E1. cbn [obind fst snd]. rewrite E. cbn [obind]. destruct (run_bytes (pageSize_ m) ops u) as [l w]. cbn [fst snd] in *. exists h', m'.
  split; [now rewrite S1|]. split; [assumption|]. intros x. now rewrite Hb.
Qed.

(** C4. Any sequence of reads and writes of bytes, from any memory with storage of
    its own (in particular the initial, empty one), behaves as a function from addresses to bytes: a read gives the byte
    that was written last, or the default where nothing is mapped; a write (and
    a read that is allowed to) where nothing is mapped first maps the page of
    zeros around the address.  The memory stays one with storage of its own,
    and no access fails. *)
Theorem memory_refines (ops : list Access) (h : Heap) (m : ConcreteMemory) (Hm : mem_ok h m) (Hops : forallb access_ok ops = true) :
  exists h' m', run_memory ops h m = Ret (fst (run_bytes (pageSize_ m) ops (mem_byte h m)), (h', m')) /\ mem_ok h' m' /\
    forall x, mem_byte h' m' x = snd (run_bytes (pageSize_ m) ops (mem_byte h m)) x.
Proof. now apply run_memory_ok. Qed.

Theorem memory_refines_witness :
  exists h' m', run_memory [Store 5 7; Load 5 0 false; Load 6 9 false; Load 0x5000 9 false] (mkHeap ∅ 0) MemoryState_instance =
    Ret ([None; Some 7; Some 0; Some 9], (h', m')) /\ mem_ok h' m' /\ mem_byte h' m' 4095 = Some 0.
Proof.
  assert (Hh : heap_ok (mkHeap ∅ 0)) by (intros i b E; cbn in E; now rewrite lookup_empty in E).
  assert (Hp : page_ok (pageSize_ MemoryState_instance)) by (split; [cbn; lia|exists (2 ^ 52); reflexivity]).
  destruct (memory_refines [Store 5 7; Load 5 0 false; Load 6 9 false; Load 0x5000 9 false] (mkHeap ∅ 0) MemoryState_instance
    (proj1 (mem_initial _ MemoryState_instance Hh eq_refl Hp)) eq_refl) as (h' & m' & E & Hm & Hb).
  exists h', m'. split; [exact E|]. split; [exact Hm|]. exact (Hb 4095).
Defined.

(** ** A memory and its copy *)

(** Accesses to two memories of one heap: the first one if [true]. *)
Fixpoint run_both (ops : list (bool * Access)) (h : Heap) (m m' : ConcreteMemory) : outcome (list (bool * option Z)) :=
  match ops with
  | [] => Ret []
  | (b, a) :: ops =>
      let! ' (r, hm) := access_memory a h (if b then m else m') in
      let! l := (if b then run_both ops (fst hm) (snd hm) m' else run_both ops (fst hm) m (snd hm)) in
      Ret ((b, r) :: l)
  end.
(** What concerns one of them. *)
Definition side {A} (b : bool) (l : list (bool * A)) : list A := map snd (List.filter (fun p => Bool.eqb (fst p) b) l).

Lemma becomes_apart h m h' m' u other : mem_ok h m -> becomes h m h' m' u -> mem_ok h other -> separate h (map_in m) (map_in other) ->
  mem_ok h' other /\ separate h' (map_in m') (map_in other) /\ forall x, mem_byte h' other x = mem_byte h other x.
Proof.
  intros Hm ((_ & _ & Ho) & _) [Hs Hp] Hsep. destruct (Ho (map_in other) Hs Hsep) as (H1 & H2 & H3). split; [now split|]. now split.
Qed.

Lemma run_both_ok ops : forall h m m', mem_ok h m -> mem_ok h m' -> separate h (map_in m) (map_in m') -> forallb (fun p => access_ok (snd p)) ops = true ->
  exists out, run_both ops h m m' = Ret out /\ side true out = fst (run_bytes (pageSize_ m) (side true ops) (mem_byte h m)) /\
    side false out = fst (run_bytes (pageSize_ m') (side false ops) (mem_byte h m')).
Proof.
  induction ops as [|[b a] ops IH]; intros h m m' Hm Hm' Hsep Hops; [now exists []|]. cbn [forallb snd] in Hops. apply andb_true_iff in Hops as [Ha Hops].
  cbn [run_both]. destruct b; cbn [side List.filter fst Bool.eqb map snd]; fold (side true ops) (side false ops).
  - pose proof (access_goes a h m Ha Hm) as H. cbn [run_bytes]. destruct (access_bytes (pageSize_ m) a (mem_byte h m)) as [r u].
    destruct H as (h1 & m1 & E1 & B1). destruct (becomes_ok _ _ _ _ _ Hm B1) as [Hm1 Hu]. destruct (becomes_apart _ _ _ _ _ _ Hm B1 Hm' Hsep) as (Ho & Hs1 & Hb).
    destruct (IH h1 m1 m' Hm1 Ho Hs1 Hops) as (out & E & S1 & S2). rewrite E1. cbn [obind fst snd]. rewrite E. cbn [obind]. eexists. split; [reflexivity|].
    cbn [side List.filter fst Bool.eqb map snd]. fold (side true out) (side false out). rewrite S1, S2. destruct B1 as (_ & Ep & _). rewrite Ep in *.
    rewrite (proj1 (run_same _ _ _ _ Hb)), (proj1 (run_same _ _ _ _ Hu)). split; [|reflexivity]. now destruct (run_bytes _ _ u).
  - pose proof (access_goes a h m' Ha Hm') as H. cbn [run_bytes]. destruct (access_bytes (pageSize_ m') a (mem_byte h m')) as [r u].
    destruct H as (h1 & m1 & E1 & B1). destruct (becomes_ok _ _ _ _ _ Hm' B1) as [Hm1 Hu].
    destruct (becomes_apart _ _ _ _ _ _ Hm' B1 Hm (separate_sym _ _ _ Hsep)) as (Ho & Hs1 & Hb).
    destruct (IH h1 m m1 Ho Hm1 (separate_sym _ _ _ Hs1) Hops) as (out & E & S1 & S2). rewrite E1. cbn [obind fst snd]. rewrite E. cbn [obind]. eexists. split; [reflexivity|].
    cbn [side List.filter fst Bool.eqb map snd]. fold (side true out) (side false out). rewrite S1, S2. destruct B1 as (_ & Ep & _). rewrite Ep in *.
    rewrite (proj1 (run_same _ _ _ _ Hb)), (proj1 (run_same _ _ _ _ Hu)). split; [reflexivity|]. now destruct (run_bytes _ _ u).
Qed.

(** C5. A memory and a copy of it share their storage, and yet neither sees
    the other: in any interleaving of reads and writes of the two, which never fails,
    the results of each are those of its own accesses alone on the memory
    as it was before it was copied. *)
Theorem clone_isolated (ops : list (bool * Access)) (h h' : Heap) (m m' : ConcreteMemory) (Hm : mem_ok h m) (Hclone : MemoryState_clone h m = (h', m'))
  (Hops : forallb (fun p => access_ok (snd p)) ops = true) :
  exists out, run_both ops h' m m' = Ret out /\
    forall b, exists hm, run_memory (side b ops) h m = Ret (side b out, hm).
Proof.
  destruct (clone_ok h m h' m' Hm Hclone) as (H1 & H2 & Hsep & B1 & B2 & Ep). destruct (run_both_ok ops h' m m' H1 H2 Hsep Hops) as (out & E & S1 & S2).
  exists out. split; [exact E|]. intros b.
  assert (Hside : forallb access_ok (side b ops) = true).
  { rewrite forallb_forall in *. intros a Hin. unfold side in Hin. apply in_map_iff in Hin as (p & <- & Hin). apply filter_In in Hin as [Hin _]. now apply Hops. }
  assert (Es : fst (run_bytes (pageSize_ m) (side b ops) (mem_byte h m)) = side b out).
  { destruct b; [rewrite S1; symmetry; apply (run_same _ _ _ _ B1)|rewrite S2, Ep; symmetry; apply (run_same _ _ _ _ B2)]. }
  destruct (run_memory_ok (side b ops) h m Hm Hside) as (h1 & m1 & E1 & _). rewrite Es in E1. now exists (h1, m1).
Qed.

(** Storage that is shared, of which both sides make copies. *)
Definition shared_runs : list (bool * Access) := [(true, Store 5 7); (false, Load 5 0 false); (false, Store 5 8); (true, Load 5 0 false); (false, Load 5 0 false); (false, Load 4 9 true)].

Theorem clone_isolated_witness :
  exists h m h' m' out, run_memory [Store 5 6] (mkHeap ∅ 0) MemoryState_instance = Ret ([None], (h, m)) /\ MemoryState_clone h m = (h', m') /\
    run_both shared_runs h' m m' = Ret out /\ side true out = [None; Some 7] /\ side false out = [Some 6; None; Some 8; Some 0] /\
    forall b, exists hm, run_memory (side b shared_runs) h m = Ret (side b out, hm).
Proof.
  assert (Hh : heap_ok (mkHeap ∅ 0)) by (intros i b E; cbn in E; now rewrite lookup_empty in E).
  assert (Hp : page_ok (pageSize_ MemoryState_instance)) by (split; [cbn; lia|exists (2 ^ 52); reflexivity]).
  destruct (run_memory_ok [Store 5 6] _ _ (proj1 (mem_initial _ MemoryState_instance Hh eq_refl Hp)) eq_refl) as (h & m & E & Hm & _).
  destruct (MemoryState_clone h m) as [h' m'] eqn:Ec.
  destruct (clone_isolated shared_runs h h' m m' Hm Ec eq_refl) as (out & Er & Hout).
  exists h, m, h', m', out. split; [exact E|]. split; [exact Ec|]. split; [exact Er|].
  assert (Eo : out = [(true, None); (false, Some 6); (false, None); (true, Some 7); (false, Some 8); (false, Some 0)]).
  { vm_compute in E. injection E as <- <-. vm_compute in Ec. injection Ec as <- <-. vm_compute in Er. now injection Er. }
  split; [now rewrite Eo|]. split; [now rewrite Eo|]. exact Hout.
Defined.

(** * Values of several bytes *)

Section Values.
#[local] Existing Instance ConcreteOps.

(** C13. A value of any number of bytes that is written to an address of up
    to 64 bits, with or without a segment, is what is read from there, in
    either byte order and also where the addresses wrap around; every other
    byte that was mapped is kept, and no register changes.  Nothing is
    written where the condition is false. *)
Theorem memory_roundtrip (ps : Z) (o : ByteOrder) (segreg : RegisterDescriptor) (n a base nb v d : Z) (f : Bits) (u : Bytes)
  (Hp : page_ok ps) (Hu : whole_pages ps u) (Hn : 0 < n <= 64) (Ha : bv_ok n a)
  (Hseg : if isEmpty segreg then base = 0 else valid_register segreg = true /\ exists sv, holds segreg sv f /\ base = sval (nBits segreg) sv)
  (Hnb : 0 < nb < 2 ^ 61) (Hfit : nb <= 2 ^ n) (Ho : o <> ORDER_UNSPECIFIED \/ nb = 1) (Hv : bv_ok (8 * nb) v) :
  let always b := mkCV 1 (bool_Z b) in let va := (a + base) mod 2 ^ n in
  let write b := c_writeMemory segreg (mkCV n a) (mkCV (8 * nb) v) (always b) in
  (exists u', goes ps o (let* _ := write true in c_readMemory segreg (mkCV n a) (mkCV (8 * nb) d) (always true)) f u (mkCV (8 * nb) v) f u' /\
    whole_pages ps u' /\ forall y, u y <> None -> (forall i, 0 <= i < nb -> y <> (va + i) mod 2 ^ n) -> u' y = u y) /\
  goes ps o (write false) f u tt f u.
Proof.
  intros always va write. split; [|now apply no_write_goes]. exists (after_write ps o n va nb v u). split; [|split].
  - eapply goes_bind; [now apply write_goes with (base := base)|cbv beta]. apply read_goes with (base := base); try assumption. now apply written_value.
  - apply store_bytes_whole; assumption || lia.
  - intros y Hy Hout. apply store_bytes_kept; assumption || lia.
Qed.

Theorem memory_roundtrip_witness :
  exists s s' u', machine_at 4096 ORDER_MSB s (assign [] no_bits) no_bytes /\
    (let* _ := c_writeMemory RegisterDescriptor_default (mkCV 32 0xfffffffe) (mkCV 32 0x12345678) (mkCV 1 1) in
     c_readMemory RegisterDescriptor_default (mkCV 32 0xfffffffe) (mkCV 32 0) (mkCV 1 1)) s = Ret (mkCV 32 0x12345678, s') /\
    machine_at 4096 ORDER_MSB s' (assign [] no_bits) u'.
Proof.
  assert (Hp : page_ok 4096) by (split; [lia|exists (2 ^ 52); reflexivity]).
  destruct (machine_exists 4096 ORDER_MSB [] Hp eq_refl) as (s & Hs).
  assert (Ha : bv_ok 32 0xfffffffe) by (split; now vm_compute). assert (Hv : bv_ok (8 * 4) 0x12345678) by (split; now vm_compute).
  assert (Hfit : 4 <= 2 ^ 32) by (vm_compute; discriminate). assert (Ho : ORDER_MSB <> ORDER_UNSPECIFIED \/ 4 = 1) by (left; discriminate).
  assert (Hseg : if isEmpty RegisterDescriptor_default then 0 = 0 else
    valid_register RegisterDescriptor_default = true /\ exists sv, holds RegisterDescriptor_default sv (assign [] no_bits) /\ 0 = sval (nBits RegisterDescriptor_default) sv) by reflexivity.
  destruct (memory_roundtrip 4096 ORDER_MSB RegisterDescriptor_default 32 0xfffffffe 0 4 0x12345678 0 (assign [] no_bits) no_bytes Hp (fun _ _ _ _ => eq_refl)
    ltac:(lia) Ha Hseg ltac:(lia) Hfit Ho Hv) as [(u' & H & _) _].
  destruct (H s Hs) as (s' & E & Hs'). exists s, s', u'. split; [exact Hs|]. split; [exact E|exact Hs'].
Defined.
End Values.
