(* ===== verification/RiscX86Stack.v ===== *)
(** The stack instructions of x86 over the memory of concrete semantics: what
    [PUSH], [POP], [CALL] and [RET] do, and that they undo each other. *)
From S2P Require Import Prelude BitVector SymType SymExpr SymEval RegDescriptor RiscOps RiscConcrete RiscConcreteFacts RiscArith RiscMulDiv.
From S2P Require Import RiscRegisters RiscRegFacts RiscRegTheorems RiscMachine RiscRun RiscMemory RiscMemoryFacts RiscMemoryRun.
From S2P Require Import RiscX86 RiscX86Insn RiscX86Flags RiscX86Operands RiscX86Arith RiscX86Jump.
From stdpp Require Import gmap.
Open Scope Z_scope.

(** * Registers of the width of the mode *)

(** The width of addresses that an instruction has. *)
Definition address_bits (insn : X86Insn) : Z :=
  match addressSize insn with x86_insnsize_16 => 16 | x86_insnsize_32 => 32 | x86_insnsize_64 => 64 | x86_insnsize_none => 0 end.

Lemma register_for_ok insn minr : 0 < address_bits insn -> register_for insn minr = Ret (gpr minr 0 (address_bits insn)).
Proof. unfold register_for, by_address_size, address_bits. now destruct (addressSize insn). Qed.

(** A general purpose register as wide as the mode has. *)
Definition wide_gpr (d : DispatcherX86) (minr : Z) : RegisterDescriptor := gpr minr 0 (mode_width d).

Lemma wide_gpr_ok d minr : 0 <= minr < 8 -> let reg := wide_gpr d minr in
  is_gpr reg = true /\ nBits reg = mode_width d /\ isEmpty reg = false /\ forall v, gpr_assign d reg v = [(reg, v)].
Proof.
  intros Hm reg. assert (E : is_gpr reg = true /\ nBits reg = mode_width d /\ isEmpty reg = false /\ clears_upper d reg = false).
  { unfold reg, wide_gpr, clears_upper, mode_width.
    assert (Hc : minr = 0 \/ minr = 1 \/ minr = 2 \/ minr = 3 \/ minr = 4 \/ minr = 5 \/ minr = 6 \/ minr = 7) by lia.
    repeat destruct Hc as [->|Hc]; try subst minr; destruct (processorMode d); vm_compute; repeat split. }
  destruct E as (H1 & H2 & H3 & H4). repeat (split; [assumption|]). intros v. unfold gpr_assign. now rewrite H4.
Qed.

Lemma mode_widths d : mode_width d = 16 \/ mode_width d = 32 \/ mode_width d = 64.
Proof. unfold mode_width. destruct (processorMode d); auto. Qed.

Lemma write_over reg v w f : bits_eq (bits_write reg v (bits_write reg w f)) (bits_write reg v f).
Proof. intros k i. unfold bits_write. now destruct (in_register reg k i). Qed.

Lemma write_back reg v w f : holds reg v f -> bits_eq (bits_write reg v (bits_write reg w f)) f.
Proof. intros H. rewrite write_over. now apply write_same. Qed.

Section Stack.
Context (d : DispatcherX86) (ps : Z) (o : ByteOrder).
#[local] Existing Instance ConcreteOps.
#[local] Notation W := (mode_width d).
#[local] Notation sp := (wide_gpr d x86_gpr_sp).
#[local] Notation goes := (goes ps o).
(** Addresses are as wide as the mode has them, and the memory has an order. *)
Hypothesis Haddr : addressWidth (x86_base d) = W.
Hypothesis Horder : o <> ORDER_UNSPECIFIED.

Lemma fix_address v f : runs (fixMemoryAddress d (mkCV W v)) f (mkCV W v) f.
Proof.
  unfold fixMemoryAddress. rewrite Haddr. cbn [nBits_ ConcreteOps c_nBits]. rewrite Z.ltb_irrefl.
  destruct (mode_widths d) as [->|[->| ->]]; apply runs_ret.
Qed.

Lemma W_range : 16 <= W <= 64.
Proof. destruct (mode_widths d) as [->|[->| ->]]; lia. Qed.

(** ** Moving the stack pointer *)

Lemma sp_ok : is_gpr sp = true /\ nBits sp = W /\ isEmpty sp = false /\ forall v, gpr_assign d sp v = [(sp, v)].
Proof. apply wide_gpr_ok. unfold x86_gpr_sp. lia. Qed.

Lemma read_sp v f : holds sp v f -> runs (x86_readRegister sp READ_REGISTER) f (mkCV W v) f.
Proof. intros H. destruct sp_ok as (Hr & Hn & _). rewrite <- Hn. now apply runs_read_gpr. Qed.

Lemma write_sp v f : bv_ok W v -> runs (x86_writeRegister d sp (mkCV W v)) f tt (bits_write sp v f).
Proof.
  intros Hv. destruct sp_ok as (Hr & Hn & _ & Hg). pose proof (runs_write_gpr d sp v f Hr) as H. rewrite Hn, Hg in H. now apply H.
Qed.

Lemma plus_delta a b f : runs (add (mkCV W a) (mkCV W b)) f (mkCV W ((a + b) mod 2 ^ W)) f.
Proof. apply runs_pure. intros s. apply c_add_ok. Qed.

Lemma below_sp k f : 0 <= k -> runs (number_ W (u64 (- k))) f (mkCV W (- k mod 2 ^ W)) f.
Proof.
  intros Hk. pose proof W_range. eapply runs_eq; [apply runs_pure; intros s; apply c_number_ok; [lia|apply Z.mod_pos_bound; lia]| |reflexivity].
  now rewrite u64_mod by lia.
Qed.

Context (base sv : Z).
(** The segment of the stack. *)
Hypothesis Hbase : base = sval (nBits REG_SS) sv.
#[local] Notation at_sp a := ((a + base) mod 2 ^ W).

Lemma stack_segment f : holds REG_SS sv f ->
  if isEmpty REG_SS then base = 0 else valid_register REG_SS = true /\ exists s, holds REG_SS s f /\ base = sval (nBits REG_SS) s.
Proof. intros H. replace (isEmpty REG_SS) with false by reflexivity. split; [vm_compute; reflexivity|]. now exists sv. Qed.

Lemma segment_sp v f : holds REG_SS sv f -> holds REG_SS sv (bits_write sp v f).
Proof. apply holds_other. unfold wide_gpr, mode_width. destruct (processorMode d); vm_compute; reflexivity. Qed.

Section Sized.
Context (nb : Z).
Hypothesis Hnb : 0 < nb <= 8.

Lemma stack_fits : nb <= 2 ^ W /\ 0 < nb < 2 ^ 61 /\ 0 < W <= 64.
Proof. pose proof W_range. pose proof (pow2_le 16 W ltac:(lia)). lia. Qed.

Lemma stack_write a v f u : holds REG_SS sv f -> bv_ok W a -> bv_ok (8 * nb) v ->
  goes (let* addr := fixMemoryAddress d (mkCV W a) in let* yes := boolean_ true in writeMemory REG_SS addr (mkCV (8 * nb) v) yes) f u tt f
    (after_write ps o W (at_sp a) nb v u).
Proof.
  intros Hs Ha Hv. destruct stack_fits as (Hfit & Hnb' & HW). eapply goes_runs_bind; [apply fix_address|cbv beta].
  eapply goes_runs_bind; [apply runs_pure; intros s; apply c_boolean_ok|cbv beta]. apply write_goes; try assumption; [now apply stack_segment|now left].
Qed.

Lemma stack_read a v f u : holds REG_SS sv f -> bv_ok W a -> bv_ok (8 * nb) v -> has_value o W (at_sp a) nb v u ->
  goes (c_readMemory REG_SS (mkCV W a) (mkCV (8 * nb) 0) (mkCV 1 (bool_Z true))) f u (mkCV (8 * nb) v) f u.
Proof.
  intros Hs Ha Hv Hu. destruct stack_fits as (Hfit & Hnb' & HW). apply read_goes with (base := base); try assumption; [now apply stack_segment|now left].
Qed.
End Sized.

(** ** Push and pop *)

(** An immediate operand is extended to the width of addresses. *)
Definition pushed (e : AsmExpr) (w v : Z) : Z * Z := if isIntegerValue e && (w <? W) then (W, sext w W v) else (w, v).

Lemma pushed_ok e w v f : operand e w v f -> 0 < fst (pushed e w v) /\ bv_ok (fst (pushed e w v)) (snd (pushed e w v)).
Proof.
  intros Ho. destruct (operand_ok _ _ _ _ Ho) as (_ & Hw & Hv). pose proof W_range. unfold pushed.
  destruct (isIntegerValue e && (w <? W)); cbn [fst snd]; [split; [lia|apply mod_ok; lia]|now split].
Qed.

Lemma IP_push_goes insn e w v nb s f u :
  lockPrefix insn = false -> operands insn = [e] -> address_bits insn = W -> operand e w v f -> fst (pushed e w v) = 8 * nb -> 0 < nb <= 8 ->
  holds sp s f -> holds REG_SS sv f ->
  goes (IP_push d insn) f u tt (bits_write sp ((s - nb) mod 2 ^ W) f)
    (after_write ps o W (at_sp ((s - nb) mod 2 ^ W)) nb (snd (pushed e w v)) u).
Proof.
  intros lock ops Haw Ho Hw Hnb Hs Hss. destruct sp_ok as (Hr & Hn & He & _). pose proof W_range as HW.
  destruct (operand_ok _ _ _ _ Ho) as (_ & Hw0 & Hv). destruct (pushed_ok e w v f Ho) as [_ Hpv]. rewrite Hw in Hpv.
  unfold IP_push. insn_body. rewrite register_for_ok by lia. rewrite Haw. fold sp.
  eapply goes_runs_bind; [now apply runs_lift|cbv beta]. eapply goes_runs_bind; [apply runs_assert; now rewrite He|cbv beta]. rewrite Hn.
  eapply goes_runs_bind; [apply runs_read; [exact Ho|now left]|cbv beta]. cbn [nBits_ ConcreteOps c_nBits].
  apply goes_runs_bind with (a := mkCV (8 * nb) (snd (pushed e w v))) (g := f).
  - revert Hw. unfold pushed. destruct (isIntegerValue e && (w <? W)) eqn:Ei; cbn [fst snd]; intros Hw.
    + rewrite <- Hw. apply runs_pure. intros st. apply c_sext_ok; assumption || lia.
    + rewrite <- Hw. destruct e as [k reg| | | | |]; cbn [operand registerOf] in *; try contradiction; [|apply runs_ret].
      replace (descriptor_eqb reg REG_FS || descriptor_eqb reg REG_GS) with false; [rewrite andb_false_r; apply runs_ret|].
      destruct Ho as (_ & _ & Hg & _). apply is_gpr_valid in Hg as (_ & _ & Hm). symmetry. apply orb_false_iff. unfold descriptor_eqb.
      split; apply Z.eqb_neq; intros E; unfold majorNumber in Hm; rewrite E in Hm; vm_compute in Hm; discriminate.
  - cbv beta. cbn [nBits_ ConcreteOps c_nBits]. replace (8 * nb / 8) with nb by (rewrite Z.mul_comm, Z.div_mul; lia).
    eapply goes_runs_bind; [apply read_sp; exact Hs|cbv beta]. eapply goes_runs_bind; [apply below_sp; lia|cbv beta].
    eapply goes_runs_bind; [apply plus_delta|cbv beta]. rewrite Zplus_mod_idemp_r, Z.add_opp_r. eapply goes_runs_bind; [apply write_sp, mod_ok; lia|cbv beta].
    apply stack_write; [assumption|now apply segment_sp|apply mod_ok; lia|assumption].
Qed.

Lemma IP_pop_goes insn n reg v nb s f u :
  lockPrefix insn = false -> operands insn = [DirectRegister n reg] -> address_bits insn = W -> is_gpr reg = true -> nBits reg = n -> n = 8 * nb ->
  0 < nb <= 8 -> bv_ok n v -> holds sp s f -> holds REG_SS sv f -> has_value o W (at_sp s) nb v u ->
  goes (IP_pop d insn) f u tt (assign (gpr_assign d reg v) (bits_write sp ((s + nb) mod 2 ^ W) f)) u.
Proof.
  intros lock ops Haw Hg Hn -> Hnb Hv Hs Hss Hu. destruct sp_ok as (Hr & Hsp & He & _). pose proof W_range as HW.
  assert (Hsv : bv_ok W s) by (rewrite <- Hsp; apply Hs). unfold IP_pop. insn_body. rewrite register_for_ok by lia. rewrite Haw. fold sp. cbn [asm_width].
  eapply goes_runs_bind; [now apply runs_lift|cbv beta]. eapply goes_runs_bind; [apply runs_assert; now rewrite He|cbv beta]. rewrite Hsp.
  eapply goes_runs_bind; [apply runs_assert; rewrite Z.mul_comm, Z.mod_mul; [reflexivity|lia]|cbv beta].
  eapply goes_runs_bind; [apply read_sp; exact Hs|cbv beta]. replace (8 * nb / 8) with nb by (rewrite Z.mul_comm, Z.div_mul; lia).
  eapply goes_runs_bind; [apply runs_pure; intros st; apply c_number_ok; lia|cbv beta]. eapply goes_runs_bind; [apply plus_delta|cbv beta].
  eapply goes_runs_bind; [apply write_sp, mod_ok; lia|cbv beta]. eapply goes_runs_bind; [apply runs_pure; intros st; apply c_boolean_ok|cbv beta].
  eapply goes_runs_bind; [now apply runs_pure|cbv beta]. eapply goes_runs_bind; [apply fix_address|cbv beta].
  eapply goes_bind; [apply stack_read; [exact Hnb|now apply segment_sp|exact Hsv|exact Hv|exact Hu]|cbv beta].
  rewrite Zplus_mod_idemp_r. apply goes_runs. rewrite <- Hn. apply runs_write; [assumption|now rewrite Hn].
Qed.

(** ** Call and return *)

Lemma IP_call_goes insn e w t i s f u :
  lockPrefix insn = false -> operands insn = [e] -> operand e w t f -> w <= W -> holds (REG_anyIP d) i f -> holds sp s f -> holds REG_SS sv f ->
  let s' := (s - W / 8) mod 2 ^ W in
  goes (IP_call d insn) f u tt (bits_write (REG_anyIP d) t (bits_write sp s' f)) (after_write ps o W (at_sp s') (W / 8) i u).
Proof.
  intros lock ops Ho Hw Hi Hs Hss s'. destruct sp_ok as (Hr & Hsp & _). pose proof W_range as HW. destruct (operand_ok _ _ _ _ Ho) as (_ & Hw0 & Ht).
  assert (Hiv : bv_ok W i) by (rewrite <- anyIP_width; apply Hi). assert (E8 : W = 8 * (W / 8)) by (destruct (mode_widths d) as [->|[->| ->]]; reflexivity).
  assert (Htw : bv_ok W t) by (apply (ok_le w); assumption || lia).
  unfold IP_call. insn_body. fold sp. rewrite anyIP_width. change (REG_anySP d) with sp. rewrite Hsp.
  eapply goes_runs_bind; [apply runs_read; [exact Ho|now left]|cbv beta].
  eapply goes_runs_bind; [apply runs_pure; intros st; apply c_uext_ok; assumption || lia|cbv beta]. rewrite Z.mod_small by exact Htw.
  eapply goes_runs_bind; [apply read_sp; exact Hs|cbv beta]. rewrite Z.shiftr_div_pow2 by lia. change (2 ^ 3) with 8.
  eapply goes_runs_bind; [apply below_sp; lia|cbv beta]. eapply goes_runs_bind; [apply plus_delta|cbv beta]. rewrite Zplus_mod_idemp_r, Z.add_opp_r.
  eapply goes_runs_bind; [apply runs_pure; intros st; apply c_boolean_ok|cbv beta]. eapply goes_runs_bind; [apply (runs_read_ip d i); exact Hi|cbv beta].
  eapply goes_runs_bind; [apply fix_address|cbv beta]. fold s'. eapply goes_bind.
  - destruct (stack_fits (W / 8)) as (Hfit & Hnb' & HW'); [lia|]. assert (Hs' : bv_ok W s') by (apply mod_ok; lia).
    pose proof (write_goes ps o REG_SS W s' base f HW' Hs' (stack_segment f Hss) (W / 8) Hnb' (or_introl Horder) i u) as G.
    rewrite <- E8 in G. now apply G.
  - cbv beta. eapply goes_runs_bind; [apply write_sp, mod_ok; lia|cbv beta]. eapply goes_runs_bind; [now apply runs_pure|cbv beta].
    apply goes_runs, runs_write_ip. exact Htw.
Qed.

Lemma IP_ret_goes insn i s f u :
  operands insn = [] -> bv_ok W i -> holds sp s f -> holds REG_SS sv f -> has_value o W (at_sp s) (W / 8) i u ->
  goes (IP_ret d insn) f u tt (bits_write sp ((s + W / 8) mod 2 ^ W) (bits_write (REG_anyIP d) i f)) u.
Proof.
  intros ops Hi Hs Hss Hu. destruct sp_ok as (Hr & Hsp & _). pose proof W_range as HW. assert (Hsv : bv_ok W s) by (rewrite <- Hsp; apply Hs).
  assert (E8 : W = 8 * (W / 8)) by (destruct (mode_widths d) as [->|[->| ->]]; reflexivity).
  unfold IP_ret. rewrite ops, anyIP_width. change (REG_anySP d) with sp.
  eapply goes_runs_bind; [apply read_sp; exact Hs|cbv beta]. eapply goes_runs_bind; [apply runs_ret|cbv beta]. cbn [nBits_ ConcreteOps c_nBits]. rewrite Z.add_0_r.
  replace (u64 (W / 8)) with (W / 8) by (unfold u64; rewrite Z.mod_small; lia). eapply goes_runs_bind; [apply runs_pure; intros st; apply c_number_ok; lia|cbv beta].
  eapply goes_runs_bind; [apply plus_delta|cbv beta]. eapply goes_runs_bind; [apply fix_address|cbv beta].
  eapply goes_runs_bind; [apply runs_pure; intros st; apply c_boolean_ok|cbv beta]. eapply goes_runs_bind; [now apply runs_pure|cbv beta]. eapply goes_bind.
  - unfold c_zero. pose proof (stack_read (W / 8) ltac:(lia) s i f u Hss Hsv) as G. rewrite <- E8 in G. now apply G.
  - cbv beta. eapply goes_runs_bind; [now apply runs_pure|cbv beta]. eapply goes_runs_bind; [apply runs_write_ip; exact Hi|cbv beta].
    rewrite Zplus_mod_idemp_r. apply goes_runs, write_sp, mod_ok. lia.
Qed.
End Stack.
