(* ===== verification/RiscX86StackTheorems.v ===== *)
(** What is pushed is popped, and a call returns. *)
From S2P Require Import Prelude BitVector SymType SymExpr SymEval RegDescriptor RiscOps RiscConcrete RiscConcreteFacts RiscArith RiscMulDiv.
From S2P Require Import RiscRegisters RiscRegFacts RiscRegTheorems RiscMachine RiscRun RiscMemory RiscMemoryFacts RiscMemoryRun.
From S2P Require Import RiscX86 RiscX86Insn RiscX86Flags RiscX86Operands RiscX86Arith RiscX86Jump RiscX86Stack.
From stdpp Require Import gmap.
Open Scope Z_scope.

#[local] Existing Instance ConcreteOps.

Lemma sub_add_mod n a k : 0 <= n -> bv_ok n a -> ((a - k) mod 2 ^ n + k) mod 2 ^ n = a.
Proof. intros Hn Ha. rewrite Zplus_mod_idemp_l. replace (a - k + k) with a by lia. apply Z.mod_small, Ha. Qed.

Lemma width_8 w : 0 < w -> w mod 8 = 0 -> w = 8 * (w / 8) /\ 0 < w / 8.
Proof. intros Hw H. pose proof (Z.div_mod w 8 ltac:(lia)). lia. Qed.

(** Bytes that are mapped, elsewhere. *)
Definition kept_but (n a nb : Z) (u u' : Bytes) : Prop :=
  forall y, u y <> None -> (forall i, 0 <= i < nb -> y <> (a + i) mod 2 ^ n) -> u' y = u y.

Section Wide.
Context (d : DispatcherX86) (ps : Z) (o : ByteOrder).
#[local] Notation W := (mode_width d).
#[local] Notation sp := (wide_gpr d x86_gpr_sp).
#[local] Notation ip := (REG_anyIP d).
Hypothesis Haddr : addressWidth (x86_base d) = W.
Hypothesis Horder : o <> ORDER_UNSPECIFIED.
Context (sv s : Z) (f : Bits) (u : Bytes).
Hypothesis Hs : holds sp s f.
Hypothesis Hss : holds REG_SS sv f.
#[local] Notation base := (sval (nBits REG_SS) sv).
(** Where [nb] bytes are pushed. *)
#[local] Notation top nb := (((s - nb) mod 2 ^ W + base) mod 2 ^ W).

Lemma top_kept nb v : 0 < nb <= 8 -> page_ok ps -> whole_pages ps u -> let u' := after_write ps o W (top nb) nb v u in
  has_value o W (top nb) nb v u' /\ kept_but W (top nb) nb u u'.
Proof.
  intros Hnb Hp Hw. pose proof (W_range d). destruct (stack_fits d nb Hnb) as (Hfit & Hnb' & HW). split.
  - apply (written_value ps o W ((s - nb) mod 2 ^ W) base HW nb Hnb' Hfit v u Hp Hw).
  - intros y Hy Hout. unfold after_write. apply store_bytes_kept; try assumption; try lia.
Qed.

Lemma sp_back nb f' : 0 < nb <= 8 -> bits_eq (bits_write sp (((s - nb) mod 2 ^ W + nb) mod 2 ^ W) (bits_write sp ((s - nb) mod 2 ^ W) f')) (bits_write sp s f').
Proof.
  intros Hnb. pose proof (W_range d). rewrite write_over, sub_add_mod; [reflexivity|lia|]. destruct (sp_ok d) as (_ & <- & _). apply Hs.
Qed.

Section PushPop.
Context (insn insn' : X86Insn) (e : AsmExpr) (reg : RegisterDescriptor) (w v n : Z).
Context (lock : lockPrefix insn = false) (ops : operands insn = [e]) (size : address_bits insn = W) (lock' : lockPrefix insn' = false)
  (ops' : operands insn' = [DirectRegister n reg]) (size' : address_bits insn' = W) (He : operand e w v f) (Hw : w mod 8 = 0) (Hw64 : w <= 64)
  (Hn : n = fst (pushed d e w v)) (Hr : is_gpr reg = true) (Hreg : nBits reg = n).

Lemma pushed_bytes : n = 8 * (n / 8) /\ 0 < n / 8 <= 8.
Proof.
  destruct (pushed_ok d e w v f He) as [Hpos _]. rewrite <- Hn in Hpos. pose proof (W_range d) as HW.
  assert (H : n mod 8 = 0 /\ n <= 64).
  { rewrite Hn. unfold pushed. destruct (isIntegerValue e && (w <? W)); cbn [fst]; [|now split].
    destruct (mode_widths d) as [->|[->| ->]]; split; (reflexivity || lia). }
  destruct (width_8 n Hpos (proj1 H)) as [E Hp]. split; [exact E|]. lia.
Qed.

(** C11. Pushing an operand (a general purpose register or an immediate value, of a whole number of bytes up
    to 64 bits) and popping it into a general purpose register
    of its width, by two instructions without a lock prefix whose address size is that of the mode, leaves the segment registers as they were, the register with the
    value that was pushed (an immediate operand extended by its sign to the
    width of addresses), and the stack pointer as it was, unless it is the register popped
    into, or a part of it is, which then has the value; in either byte order and also where the stack
    wraps around.  Memory holds the value
    below the stack pointer, and every other byte that was mapped is kept. *)
Theorem push_pop_roundtrip (Hp : page_ok ps) (Hu : whole_pages ps u) : let nb := n / 8 in let p := snd (pushed d e w v) in
  exists u', goes ps o (let* _ := IP_push d insn in IP_pop d insn') f u tt (assign (gpr_assign d reg p) f) u' /\
    has_value o W (top nb) nb p u' /\ kept_but W (top nb) nb u u'.
Proof.
  intros nb p. destruct pushed_bytes as [En Hnb]. fold nb in En, Hnb. pose proof (W_range d) as HW. destruct (sp_ok d) as (_ & Hsp & _).
  destruct (pushed_ok d e w v f He) as [_ Hpv]. rewrite <- Hn in Hpv. destruct (top_kept nb p Hnb Hp Hu) as [Hval Hkept].
  eexists. split; [|exact (conj Hval Hkept)]. eapply goes_bind.
  - apply (IP_push_goes d ps o Haddr Horder base sv eq_refl insn e w v nb s f u lock ops size He); try assumption. congruence.
  - cbv beta. eapply goes_eq.
    + apply (IP_pop_goes d ps o Haddr Horder base sv eq_refl insn' n reg p nb ((s - nb) mod 2 ^ W)); try assumption.
      * apply holds_write. rewrite Hsp. apply mod_ok. lia.
      * now apply segment_sp.
    + reflexivity.
    + rewrite sp_back, write_same by assumption. reflexivity.
    + reflexivity.
Qed.
End PushPop.

(** C14. A call followed by a return leaves every register as it was, if
    the return is executed with the stack as the call left it: execution is at the address after
    the call, in any mode and in either byte order; memory holds that address
    below the stack pointer, and every other byte that was mapped is kept. *)
Theorem call_ret_roundtrip (insn insn' : X86Insn) (e : AsmExpr) (w t i : Z)
  (lock : lockPrefix insn = false) (ops : operands insn = [e]) (He : operand e w t f) (Hw : w <= W) (Hi : holds ip i f) (ops' : operands insn' = [])
  (Hp : page_ok ps) (Hu : whole_pages ps u) : let nb := W / 8 in
  exists u', goes ps o (IP_call d insn) f u tt (bits_write ip t (bits_write sp ((s - nb) mod 2 ^ W) f)) u' /\
    goes ps o (let* _ := IP_call d insn in IP_ret d insn') f u tt f u' /\ has_value o W (top nb) nb i u' /\ kept_but W (top nb) nb u u'.
Proof.
  intros nb. pose proof (W_range d) as HW. destruct (sp_ok d) as (_ & Hsp & _). assert (Hnb : 0 < nb <= 8) by (unfold nb; destruct (mode_widths d) as [->|[->| ->]]; vm_compute; easy).
  destruct (top_kept nb i Hnb Hp Hu) as [Hval Hkept]. exists (after_write ps o W (top nb) nb i u).
  pose proof (IP_call_goes d ps o Haddr Horder base sv eq_refl insn e w t i s f u lock ops He Hw Hi Hs Hss) as Hcall. fold nb in Hcall. split; [exact Hcall|].
  split; [|exact (conj Hval Hkept)]. eapply goes_bind; [exact Hcall|cbv beta].
  assert (Hgpr : majorNumber sp <> x86_regclass_ip) by (unfold wide_gpr, mode_width; destruct (processorMode d); vm_compute; discriminate).
  assert (Hseg : majorNumber REG_SS <> x86_regclass_ip) by (vm_compute; discriminate).
  assert (Hsp' : bv_ok (nBits sp) ((s - nb) mod 2 ^ W)) by (rewrite Hsp; apply mod_ok; lia).
  set (g := bits_write ip t (bits_write sp ((s - nb) mod 2 ^ W) f)) in *.
  assert (Hspg : holds sp ((s - nb) mod 2 ^ W) g) by (apply holds_other; [now apply ip_apart|now apply holds_write]).
  assert (Hssg : holds REG_SS sv g) by (apply holds_other; [now apply ip_apart|now apply segment_sp]).
  assert (Hiv : bv_ok W i) by (rewrite <- (anyIP_width d); apply Hi).
  pose proof (IP_ret_goes d ps o Haddr Horder base sv eq_refl insn' i _ g _ ops' Hiv Hspg Hssg Hval) as Hret.
  eapply goes_eq; [exact Hret|reflexivity| |reflexivity].
  assert (Hip : holds ip i (bits_write sp ((s - nb) mod 2 ^ W) f)) by exact (holds_other ip i sp _ f (proj1 (ip_apart d sp Hgpr)) Hi).
  pose proof (write_back ip i t _ Hip : bits_eq (bits_write ip i g) _) as E.
  pose proof (bits_write_Proper sp (((s - nb) mod 2 ^ W + nb) mod 2 ^ W) _ _ E) as E'. cbv beta in E'.
  etransitivity; [exact E'|]. etransitivity; [apply sp_back, Hnb|now apply write_same].
Qed.
End Wide.

(** * Runs *)

(** A processor of 32 bits. *)
Definition i386 : DispatcherX86 := mkX86 (mkDispatcher 32 32) x86_insnsize_32 true (fun _ => true).
Definition insn_32 (k : X86InstructionKind) (ops : list AsmExpr) : X86Insn := mkInsn false k x86_insnsize_32 x86_insnsize_32 0 0x1000 2 ops.
Definition eax := gpr x86_gpr_ax 0 32.
Definition ebx := gpr x86_gpr_bx 0 32.
(** The stack wraps around. *)
Definition stack_bits : Bits := assign [(eax, 0xdeadbeef); (wide_gpr i386 x86_gpr_sp, 2); (REG_SS, 0); (REG_anyIP i386, 0x1002)] no_bits.

Lemma page_4096 : page_ok 4096.
Proof. split; [lia|]. exists (2 ^ 52). reflexivity. Qed.

Lemma no_bytes_whole ps : whole_pages ps no_bytes.
Proof. intros x y _ _. reflexivity. Qed.

Lemma stack_holds : holds eax 0xdeadbeef stack_bits /\ holds (wide_gpr i386 x86_gpr_sp) 2 stack_bits /\ holds REG_SS 0 stack_bits /\
  holds (REG_anyIP i386) 0x1002 stack_bits.
Proof.
  unfold stack_bits. split; [apply holds_last; [split; now vm_compute|vm_compute; reflexivity]|].
  split; [apply (holds_assign _ _ [_; _]); [|vm_compute; reflexivity]; apply holds_write; split; now vm_compute|].
  split; [apply (holds_assign _ _ [_]); [|vm_compute; reflexivity]; apply holds_write; split; now vm_compute|].
  apply (holds_write (REG_anyIP i386)). split; now vm_compute.
Qed.

Theorem push_pop_roundtrip_witness :
  let push := insn_32 x86_push [DirectRegister 32 eax] in let pop := insn_32 x86_pop [DirectRegister 32 ebx] in
  exists s s' u', machine_at 4096 ORDER_LSB s stack_bits no_bytes /\ (let* _ := IP_push i386 push in IP_pop i386 pop) s = Ret (tt, s') /\
    machine_at 4096 ORDER_LSB s' (assign [(ebx, 0xdeadbeef)] stack_bits) u'.
Proof.
  intros push pop. destruct stack_holds as (Ha & Hs & Hss & _).
  destruct (machine_exists 4096 ORDER_LSB [(eax, 0xdeadbeef); (wide_gpr i386 x86_gpr_sp, 2); (REG_SS, 0); (REG_anyIP i386, 0x1002)] page_4096 ltac:(vm_compute; reflexivity)) as (s & Hm).
  destruct (push_pop_roundtrip i386 4096 ORDER_LSB eq_refl ltac:(discriminate) 0 2 stack_bits no_bytes Hs Hss push pop (DirectRegister 32 eax) ebx 32 0xdeadbeef 32
    eq_refl eq_refl eq_refl eq_refl eq_refl eq_refl (conj eq_refl (conj eq_refl (conj eq_refl Ha))) eq_refl ltac:(lia) eq_refl eq_refl eq_refl page_4096 (no_bytes_whole _)) as (u' & H & _).
  destruct (H s Hm) as (s' & E & Hs'). exists s, s', u'. split; [exact Hm|]. split; [exact E|exact Hs'].
Defined.

Theorem call_ret_roundtrip_witness :
  let call := insn_32 x86_call [DirectRegister 32 eax] in let ret := insn_32 x86_ret [] in
  exists s s' u', machine_at 4096 ORDER_MSB s stack_bits no_bytes /\ (let* _ := IP_call i386 call in IP_ret i386 ret) s = Ret (tt, s') /\
    machine_at 4096 ORDER_MSB s' stack_bits u'.
Proof.
  intros call ret. destruct stack_holds as (Ha & Hs & Hss & Hi).
  destruct (machine_exists 4096 ORDER_MSB [(eax, 0xdeadbeef); (wide_gpr i386 x86_gpr_sp, 2); (REG_SS, 0); (REG_anyIP i386, 0x1002)] page_4096 ltac:(vm_compute; reflexivity)) as (s & Hm).
  destruct (call_ret_roundtrip i386 4096 ORDER_MSB eq_refl ltac:(discriminate) 0 2 stack_bits no_bytes Hs Hss call ret (DirectRegister 32 eax) 32 0xdeadbeef 0x1002
    eq_refl eq_refl (conj eq_refl (conj eq_refl (conj eq_refl Ha))) ltac:(vm_compute; discriminate) Hi eq_refl page_4096 (no_bytes_whole _)) as (u' & _ & H & _).
  destruct (H s Hm) as (s' & E & Hs'). exists s, s', u'. split; [exact Hm|]. split; [exact E|exact Hs'].
Defined.
