(* ===== verification/RiscX86String.v ===== *)
(** The repeated store of x86, [REP STOS], over the memory of concrete semantics: a step
    stores one element, or all that are left when they are few; and fetching and
    executing the instruction goes on until all of them are stored. *)
From S2P Require Import Prelude BitVector SymType SymExpr SymEval RegDescriptor RiscOps RiscConcrete RiscConcreteFacts RiscArith RiscMulDiv.
From S2P Require Import RiscRegisters RiscRegFacts RiscRegTheorems RiscMachine RiscRun RiscMemory RiscMemoryFacts RiscMemoryRun.
From S2P Require Import RiscX86 RiscX86Insn RiscX86Flags RiscX86Operands RiscX86Arith RiscX86Jump RiscX86Stack RiscX86Process.
From stdpp Require Import gmap.
Open Scope Z_scope.

(** * Fetching an instruction

    A machine that is at an instruction executes it. *)

Section Fetch.
#[local] Existing Instance ConcreteOps.
Variable d : DispatcherX86.
Variable IP_cvtsi2sd : DispatcherX86 -> X86Insn -> M Machine unit.
Variable insn : X86Insn.

Definition at_insn (s : Machine) : Prop :=
  match ops_peekRegister (REG_anyIP d) (c_zero (mode_width d)) s with Ret (v, _) => v = mkCV (mode_width d) (insn_address insn) | Fail _ => False end.

Inductive fetches (s s' : Machine) : Prop :=
  fetch_insn : at_insn s -> processInstruction d IP_cvtsi2sd insn s = Ret (tt, s') -> fetches s s'.

(** Execution comes to a state, whatever it does. *)
Inductive comes_to (P : Machine -> Prop) (s : Machine) : Prop :=
| comes_to_now : P s -> comes_to P s
| comes_to_later : (exists s', fetches s s') -> (forall s', fetches s s' -> comes_to P s') -> comes_to P s.

Lemma fetches_det s s1 s2 : fetches s s1 -> fetches s s2 -> s1 = s2.
Proof. intros [_ E1] [_ E2]. congruence. Qed.

Lemma comes_to_step P s s' : fetches s s' -> comes_to P s' -> comes_to P s.
Proof.
  intros H He. apply comes_to_later; [now exists s'|]. intros s2 H2. now rewrite (fetches_det _ _ _ H2 H).
Qed.

Lemma comes_to_mono (P Q : Machine -> Prop) s : (forall s', P s' -> Q s') -> comes_to P s -> comes_to Q s.
Proof. intros H. induction 1 as [s Hs|s He _ IH]; [now apply comes_to_now, H|now apply comes_to_later]. Qed.

Lemma at_insn_ok ps o s f u : machine_at ps o s f u -> holds (REG_anyIP d) (insn_address insn) f -> at_insn s.
Proof.
  intros (Hf & _) Hi. destruct (ip_valid d) as [Hv _]. destruct (runs_peekRegister (Laws := machine_laws) _ Hv _ _ Hi s Hf) as (rs & E & _).
  rewrite anyIP_width in E. unfold at_insn. now rewrite E.
Qed.

Lemma advance_runs f : autoResetInstructionPointer d = true -> 0 <= insn_address insn < 2 ^ 64 -> 0 <= insn_size insn < 2 ^ 64 ->
  runs (St := Machine) (advanceInstructionPointer d insn) f tt (bits_write (REG_anyIP d) ((insn_address insn + insn_size insn) mod 2 ^ mode_width d) f).
Proof.
  intros Ha Hva Hsize. destruct (ip_valid d) as [Hv _]. pose proof (W_range d). unfold advanceInstructionPointer. rewrite Ha, anyIP_width.
  eapply runs_bind; [apply runs_ret|cbv beta]. eapply runs_bind; [apply runs_pure; intros s; apply c_number_ok; lia|cbv beta].
  eapply runs_bind; [apply runs_pure; intros s; apply c_number_ok; lia|cbv beta]. eapply runs_bind; [apply runs_pure; intros s; apply c_add_ok|cbv beta].
  rewrite <- Zplus_mod. apply runs_writeRegister; [assumption|apply anyIP_width|]. apply mod_ok. lia.
Qed.

Lemma process_goes ps o p f u g v : autoResetInstructionPointer d = true -> 0 <= insn_address insn < 2 ^ 64 -> 0 <= insn_size insn < 2 ^ 64 ->
  operands insn = [] -> iproc_table d IP_cvtsi2sd insn = Some p ->
  goes ps o p (bits_write (REG_anyIP d) ((insn_address insn + insn_size insn) mod 2 ^ mode_width d) f) u tt g v ->
  goes ps o (processInstruction d IP_cvtsi2sd insn) f u tt g v.
Proof.
  intros Ha Hva Hsize ops Ht Hp. unfold processInstruction. rewrite Ht. unfold process. eapply goes_runs_bind; [now apply advance_runs|cbv beta].
  eapply goes_runs_bind; [|exact Hp]. unfold check_arg_width. rewrite ops. eapply runs_bind; [apply runs_assert; reflexivity|apply runs_ret].
Qed.
End Fetch.

(** * A repeated store *)

Section Store.
Context (d : DispatcherX86) (ps : Z) (o : ByteOrder).
#[local] Existing Instance ConcreteOps.
#[local] Notation W := (mode_width d).
#[local] Notation di := (wide_gpr d x86_gpr_di).
#[local] Notation cx := (wide_gpr d x86_gpr_cx).
#[local] Notation ip := (REG_anyIP d).
#[local] Notation goes := (goes ps o).
Hypothesis Haddr : addressWidth (x86_base d) = W.
Hypothesis Horder : o <> ORDER_UNSPECIFIED.

Context (insn : X86Insn).
Hypothesis Hlock : lockPrefix insn = false.
Hypothesis Hops : operands insn = [].
Hypothesis Hsize : address_bits insn = W.

(** Elements of [nb] bytes, of the value [v], from [a] on in the direction [df]. *)
Context (nb a v : Z) (df : bool) (sv : Z).
Hypothesis Hnb : nb = 1 \/ nb = 2 \/ nb = 4 \/ nb = 8.
Hypothesis Hv : bv_ok (8 * nb) v.
#[local] Notation ax := (gpr x86_gpr_ax 0 (8 * nb)).
#[local] Notation base := (sval (nBits REG_ES) sv).

Definition stride : Z := if df then - nb else nb.
Definition element (i : Z) : Z := (a + i * stride) mod 2 ^ W.
(** The memory after [n] elements from the [i]th on. *)
Fixpoint elements_stored (n : nat) (i : Z) (u : Bytes) : Bytes :=
  match n with O => u | S n => elements_stored n (i + 1) (after_write ps o W ((element i + base) mod 2 ^ W) nb v u) end.

(** What the instruction reads. *)
Definition ready (i c : Z) (f : Bits) : Prop :=
  holds di (element i) f /\ holds cx c f /\ holds ax v f /\ holds REG_DF (bool_Z df) f /\ holds REG_ES sv f.

Lemma nb_range : 0 < nb <= 8.
Proof. lia. Qed.

Lemma string_element_ok i : bv_ok W (element i).
Proof. apply mod_ok. pose proof (W_range d). lia. Qed.

Lemma element_next i : (element i + stride mod 2 ^ W) mod 2 ^ W = element (i + 1).
Proof. unfold element. rewrite <- Zplus_mod. f_equal. lia. Qed.

Lemma wide_read minr x f : 0 <= minr < 8 -> holds (wide_gpr d minr) x f -> runs (St := Machine) (x86_readRegister (wide_gpr d minr) READ_REGISTER) f (mkCV W x) f.
Proof. intros Hm H. destruct (wide_gpr_ok d minr Hm) as (Hr & Hn & _). rewrite <- Hn. now apply runs_read_gpr. Qed.

Lemma wide_write minr x f : 0 <= minr < 8 -> bv_ok W x -> runs (St := Machine) (x86_writeRegister d (wide_gpr d minr) (mkCV W x)) f tt (bits_write (wide_gpr d minr) x f).
Proof.
  intros Hm Hx. destruct (wide_gpr_ok d minr Hm) as (Hr & Hn & _ & Hg). pose proof (runs_write_gpr (St := Machine) d (wide_gpr d minr) x f Hr) as H.
  rewrite Hn, Hg in H. now apply H.
Qed.

Lemma ax_ok : RegDescriptor.set_nBits (8 * nb) REG_AX = Ret ax /\ is_gpr ax = true /\ nBits ax = 8 * nb.
Proof. clear Hv. destruct Hnb as [->|[->|[->| ->]]]; vm_compute; repeat split. Qed.

Lemma read_ax f : holds ax v f -> runs (St := Machine) (x86_readRegister ax READ_REGISTER) f (mkCV (8 * nb) v) f.
Proof. intros H. destruct ax_ok as (_ & Hr & Hn). pose proof (runs_read_gpr (St := Machine) ax v f Hr H) as G. now rewrite Hn in G. Qed.

(** ** One element, and the rest of them *)

Lemma stride_runs f : runs (St := Machine) (ite (mkCV 1 (bool_Z df)) (mkCV W (u64 (- nb) mod 2 ^ W)) (mkCV W (nb mod 2 ^ W))) f (mkCV W (stride mod 2 ^ W)) f.
Proof.
  pose proof (W_range d). eapply runs_eq; [apply runs_ite| |reflexivity]. unfold stride. destruct df; [now rewrite u64_mod by lia|reflexivity].
Qed.

Lemma multiply_goes k f : 0 <= k <= unroll_limit ->
  runs (St := Machine) (let* off := unsignedMultiply (mkCV W k) (mkCV W (stride mod 2 ^ W)) in unsignedExtend off W) f (mkCV W (k * stride mod 2 ^ W)) f.
Proof.
  unfold unroll_limit. intros Hk. pose proof (W_range d). pose proof (pow2_le 16 W ltac:(lia)).
  assert (Hkok : bv_ok W k) by (unfold bv_ok; lia). assert (Hst : bv_ok W (stride mod 2 ^ W)) by (apply mod_ok; lia).
  assert (Hm : c_unsignedMultiply (mkCV W k) (mkCV W (stride mod 2 ^ W)) = Ret (mkCV (W + W) (k * (stride mod 2 ^ W)))).
  { destruct (mode_widths d) as [E|[E|E]]; rewrite E in *; [apply c_unsignedMultiply_small; assumption || lia..|].
    unfold c_unsignedMultiply. rewrite c_multiply_64, multiply_64_spec by assumption. replace (2 ^ 64 <=? middle k (stride mod 2 ^ 64)) with false; [now rewrite Z.sub_0_r|].
    symmetry. apply Z.leb_gt. unfold middle. rewrite (Z.mod_small k), (Z.div_small k) by lia. set (x := stride mod 2 ^ 64) in *.
    pose proof (Z.mod_pos_bound x (2 ^ 32) ltac:(lia)). assert (0 <= x / 2 ^ 32 < 2 ^ 32) by (unfold bv_ok in Hst; split; [apply Z.div_pos|apply Z.div_lt_upper_bound]; lia).
    assert (k * (x mod 2 ^ 32) / 2 ^ 32 <= k * (x mod 2 ^ 32)) by (apply Z.div_le_upper_bound; nia). nia. }
  assert (Hp : bv_ok (W + W) (k * (stride mod 2 ^ W))) by (unfold bv_ok in *; rewrite Z.pow_add_r by lia; nia).
  eapply runs_bind; [apply runs_pure; intros s; cbn [unsignedMultiply ConcreteOps]; rewrite Hm; reflexivity|cbv beta].
  eapply runs_eq; [apply runs_pure; intros s; apply c_uext_ok; assumption || lia| |reflexivity]. f_equal. apply Zmult_mod_idemp_r.
Qed.

Lemma stored_at_runs i k f : 0 <= k <= unroll_limit -> runs (St := Machine) (stored_at (mkCV W (element i)) (mkCV W (stride mod 2 ^ W)) k) f (mkCV W (element (i + k))) f.
Proof.
  intros Hk. pose proof (W_range d). pose proof (pow2_le 16 W ltac:(lia)). unfold stored_at. cbn [nBits_ ConcreteOps c_nBits]. unfold unroll_limit in Hk.
  eapply runs_bind; [apply runs_pure; intros s; apply c_number_ok; lia|cbv beta]. rewrite (Z.mod_small k) by lia.
  intros s Hs. destruct (multiply_goes k f Hk s Hs) as (rs & E & Hrs). unfold bind in E |- *. cbn [unsignedMultiply ConcreteOps] in *.
  destruct (lift (c_unsignedMultiply _ _) s) as [[off s1]|]; [|discriminate]. cbn [obind fst snd] in *. rewrite E. cbn [obind].
  eexists. split; [|exact Hrs]. etransitivity; [apply c_add_ok|]. unfold element. rewrite <- Zplus_mod. do 4 f_equal. lia.
Qed.

Lemma store_one i f u : holds REG_ES sv f ->
  goes (writeMemory REG_ES (mkCV W (element i)) (mkCV (8 * nb) v) (mkCV 1 (bool_Z true))) f u tt f (elements_stored 1 i u).
Proof.
  intros Hs. pose proof nb_range as Hn. destruct (stack_fits d nb Hn) as (Hfit & Hnb' & HW).
  apply (write_goes ps o REG_ES W (element i) base f HW (string_element_ok i)); try assumption; [|now left].
  replace (isEmpty REG_ES) with false by reflexivity. split; [vm_compute; reflexivity|]. now exists sv.
Qed.

Lemma store_loop_goes n i k f u : holds REG_ES sv f -> 0 <= k -> k + Z.of_nat n <= unroll_limit ->
  goes (store_loop n k (mkCV W (element i)) (mkCV W (stride mod 2 ^ W)) (mkCV (8 * nb) v) (mkCV 1 (bool_Z true))) f u tt f (elements_stored n (i + k) u).
Proof.
  intros Hs. revert k u. induction n as [|n IH]; intros k u Hk Hn; [apply goes_ret|]. cbn [store_loop].
  eapply goes_runs_bind; [apply stored_at_runs; lia|cbv beta]. eapply goes_bind; [now apply store_one|cbv beta].
  replace (elements_stored (S n) (i + k) u) with (elements_stored n (i + (k + 1)) (elements_stored 1 (i + k) u)) by (cbn [elements_stored]; f_equal; lia). apply IH; lia.
Qed.

(** The count is known. *)
Lemma unrolled_runs c f : holds cx c f -> runs (St := Machine) (unrolled d x86_repeat_repe) f (if c <=? unroll_limit then Some c else None) f.
Proof.
  intros H. unfold unrolled. pose proof (W_range d). assert (Hc : bv_ok W c) by (destruct (wide_gpr_ok d x86_gpr_cx ltac:(unfold x86_gpr_cx; lia)) as (_ & <- & _); apply H).
  eapply runs_bind; [apply (wide_read x86_gpr_cx); [unfold x86_gpr_cx; lia|exact H]|cbv beta]. cbn [toUnsigned_ ConcreteOps].
  rewrite c_toUnsigned_ok by (assumption || lia). apply runs_ret.
Qed.

(** Registers apart from those that change. *)
Lemma changed_apart : apart di cx = true /\ apart di ip = true /\ apart cx di = true /\ apart cx ip = true /\ apart ax di = true /\ apart ax cx = true /\
  apart ax ip = true /\ apart REG_DF di = true /\ apart REG_DF cx = true /\ apart REG_DF ip = true /\ apart REG_ES di = true /\ apart REG_ES cx = true /\
  apart REG_ES ip = true /\ apart ip di = true /\ apart ip cx = true.
Proof.
  unfold wide_gpr, REG_anyIP, mode_width. destruct Hnb as [->|[->|[->| ->]]]; destruct (processorMode d); vm_compute; repeat split.
Qed.

(** The registers after [n] of [c] elements. *)
Definition after_elements (i c next : Z) (f : Bits) : Bits := bits_write ip next (bits_write cx c (bits_write di (element i) f)).

Lemma di_ok : 0 <= x86_gpr_di < 8. Proof. unfold x86_gpr_di. lia. Qed.
Lemma cx_ok : 0 <= x86_gpr_cx < 8. Proof. unfold x86_gpr_cx. lia. Qed.


Lemma enter_runs c f : holds cx c f -> 0 < c -> runs (St := Machine) (repEnter d x86_repeat_repe) f (mkCV 1 (bool_Z true)) f.
Proof.
  intros H Hc. unfold repEnter. eapply runs_bind; [apply (wide_read x86_gpr_cx); [apply cx_ok|exact H]|cbv beta].
  eapply runs_bind; [apply runs_pure; intros s; apply c_eqz_ok|cbv beta]. rewrite (proj2 (Z.eqb_neq c 0)) by lia. apply runs_pure. intros s. apply c_not_ok.
Qed.

(** More elements are left. *)
Lemma leave_runs c n f : holds cx c f -> holds ip n f -> 1 < c -> 0 <= insn_address insn < 2 ^ 64 ->
  runs (St := Machine) (leave_if d x86_repeat_repe (mkCV 1 (bool_Z true)) insn false) f tt (bits_write ip (insn_address insn mod 2 ^ W) (bits_write cx (c - 1) f)).
Proof.
  intros Hcx Hip Hc1 Hva. pose proof (W_range d) as HW. destruct (wide_gpr_ok d x86_gpr_cx cx_ok) as (_ & Hn & _).
  assert (Hc : bv_ok W c) by (rewrite <- Hn; apply Hcx). destruct changed_apart as (_ & _ & _ & _ & _ & _ & _ & _ & _ & _ & _ & _ & _ & _ & A).
  unfold leave_if, repLeave. change (REG_anyCX d) with cx. rewrite Hn, anyIP_width. eapply runs_bind; [apply runs_assert; reflexivity|cbv beta].
  eapply runs_bind; [apply runs_pure; intros s; apply c_number_ok; lia|cbv beta].
  eapply runs_bind; [apply runs_pure; intros s; apply c_number_ok; unfold minus_one; lia|cbv beta]. eapply runs_bind; [apply runs_ite|cbv beta iota].
  eapply runs_bind; [apply (wide_read x86_gpr_cx); [apply cx_ok|exact Hcx]|cbv beta]. eapply runs_bind; [apply runs_pure; intros s; apply c_add_ok|cbv beta].
  replace ((c + minus_one mod 2 ^ W) mod 2 ^ W) with (c - 1).
  2: { unfold minus_one. change (2 ^ 64 - 1) with (u64 (- 1)). rewrite u64_mod, Zplus_mod_idemp_r by lia. unfold bv_ok in Hc. symmetry. apply Z.mod_small. lia. }
  eapply runs_bind; [apply (wide_write x86_gpr_cx); [apply cx_ok|unfold bv_ok in *; lia]|cbv beta].
  eapply runs_bind; [apply runs_pure; intros s; apply c_eqz_ok|cbv beta]. rewrite (proj2 (Z.eqb_neq (c - 1) 0)) by lia.
  eapply runs_bind; [apply runs_pure; intros s; apply c_not_ok|cbv beta]. eapply runs_bind; [apply runs_pure; intros s; apply c_band_ok|cbv beta].
  eapply runs_bind; [apply (runs_read_ip d n); apply (holds_other ip n cx); [exact A|exact Hip]|cbv beta].
  eapply runs_bind; [apply runs_pure; intros s; apply c_number_ok; lia|cbv beta]. eapply runs_bind; [apply runs_ite|cbv beta iota].
  apply runs_write_ip. apply mod_ok. lia.
Qed.

Lemma storestring_goes i c n f u : ready i c f -> holds ip n f -> 0 <= insn_address insn < 2 ^ 64 ->
  goes (IP_storestring d x86_repeat_repe (8 * nb) insn) f u tt
    (if c <=? unroll_limit then bits_write di (element (i + c)) (bits_write cx 0 f)
     else bits_write ip (insn_address insn mod 2 ^ W) (bits_write cx (c - 1) (bits_write di (element (i + 1)) f)))
    (elements_stored (if c <=? unroll_limit then Z.to_nat c else 1) i u).
Proof.
  intros (Hdi & Hcx & Hax & Hdf & Hes) Hip Hva. pose proof (W_range d) as HW. destruct (wide_gpr_ok d x86_gpr_di di_ok) as (_ & Hn & He & _).
  assert (Hc : bv_ok W c) by (destruct (wide_gpr_ok d x86_gpr_cx cx_ok) as (_ & <- & _); apply Hcx).
  destruct changed_apart as (A1 & A2 & A3 & A4 & _ & _ & _ & _ & _ & _ & _ & _ & _ & A5 & A6).
  unfold IP_storestring, args0, unlocked. rewrite Hops, Hlock.
  eapply goes_runs_bind; [unfold string_register; rewrite register_for_ok by lia; rewrite Hsize; eapply runs_bind; [now apply runs_lift|cbv beta];
    eapply runs_bind; [apply runs_assert; fold di; now rewrite He|apply runs_ret]|cbv beta]. fold di.
  eapply goes_runs_bind; [apply (wide_read x86_gpr_di); [apply di_ok|exact Hdi]|cbv beta].
  eapply goes_runs_bind; [apply (fix_address d Haddr)|cbv beta].
  eapply goes_runs_bind; [apply (runs_read_flag REG_DF df); [vm_compute; reflexivity|exact Hdf]|cbv beta].
  rewrite Hn. replace (8 * nb / 8) with nb by (rewrite Z.mul_comm, Z.div_mul; lia).
  pose proof (pow2_le 16 W ltac:(lia)) as H16.
  eapply goes_runs_bind; [apply runs_pure; intros s; apply c_number_ok; lia|cbv beta].
  eapply goes_runs_bind; [apply runs_pure; intros s; apply c_number_ok; [lia|apply Z.mod_pos_bound; lia]|cbv beta].
  eapply goes_runs_bind; [apply stride_runs|cbv beta]. eapply goes_runs_bind; [apply runs_lift, ax_ok|cbv beta].
  eapply goes_runs_bind; [apply read_ax; exact Hax|cbv beta]. eapply goes_runs_bind; [apply unrolled_runs; exact Hcx|cbv beta].
  destruct (Z.leb_spec c unroll_limit) as [Hl|Hl].
  - unfold bv_ok in Hc. eapply goes_runs_bind; [apply runs_pure; intros s; apply c_boolean_ok|cbv beta].
    eapply goes_bind; [apply store_loop_goes; [exact Hes|lia|lia]|cbv beta]. rewrite Z.add_0_r.
    change (REG_anyCX d) with cx. rewrite (proj1 (proj2 (wide_gpr_ok d x86_gpr_cx cx_ok))).
    eapply goes_runs_bind; [apply runs_pure; intros s; apply c_number_ok; lia|cbv beta]. rewrite Z.mod_0_l by lia.
    eapply goes_runs_bind; [apply (wide_write x86_gpr_cx); [apply cx_ok|unfold bv_ok; lia]|cbv beta].
    eapply goes_runs_bind; [apply stored_at_runs; lia|cbv beta]. apply goes_runs, (wide_write x86_gpr_di); [apply di_ok|apply string_element_ok].
  - unfold unroll_limit in Hl. eapply goes_runs_bind; [apply (enter_runs c); [exact Hcx|lia]|cbv beta].
    eapply goes_bind; [apply store_one; exact Hes|cbv beta]. eapply goes_runs_bind.
    + unfold advance_if. eapply runs_bind; [apply runs_pure; intros s; apply c_add_ok|cbv beta]. rewrite element_next.
      eapply runs_bind; [apply runs_ite|cbv beta iota]. apply (wide_write x86_gpr_di); [apply di_ok|apply string_element_ok].
    + cbv beta. apply goes_runs, (leave_runs c n); [exact (holds_other cx c di _ _ A3 Hcx)|exact (holds_other ip n di _ _ A5 Hip)|lia|assumption].
Qed.

(** ** The elements are stored *)

Lemma place_of_element i x : ((element i + base) mod 2 ^ W + x) mod 2 ^ W = (a + i * stride + base + x) mod 2 ^ W.
Proof. unfold element. rewrite Zplus_mod_idemp_l. rewrite <- Z.add_assoc, Zplus_mod_idemp_l. f_equal. lia. Qed.

Lemma elements_apart n i j x y : n * nb <= 2 ^ W -> 0 <= i < j -> j - i < n -> 0 <= x < nb -> 0 <= y < nb ->
  ((element i + base) mod 2 ^ W + x) mod 2 ^ W <> ((element j + base) mod 2 ^ W + y) mod 2 ^ W.
Proof.
  intros Hfit Hij Hn Hx Hy. rewrite !place_of_element. intros E. pose proof (W_range d). pose proof (pow2_pos W ltac:(lia)).
  assert (Hd : ((j - i) * stride + (y - x)) mod 2 ^ W = 0).
  { replace ((j - i) * stride + (y - x)) with ((a + j * stride + base + y) - (a + i * stride + base + x)) by lia. rewrite Zminus_mod, E, Z.sub_diag. apply Z.mod_0_l. lia. }
  apply Z.mod_divide in Hd; [|lia]. destruct Hd as [q Hq]. assert (Hm : nb <= (j - i) * nb <= n * nb - nb) by nia. unfold stride in Hq. set (D := (j - i) * nb) in *.
  replace ((j - i) * (if df then - nb else nb)) with (if df then - D else D) in Hq by (unfold D; destruct df; lia).
  destruct (Z.lt_trichotomy q 0) as [Hq0|[-> |Hq0]]; destruct df; nia.
Qed.

Lemma filled_kept n i u y : page_ok ps -> whole_pages ps u -> u y <> None ->
  (forall j x, i <= j < i + Z.of_nat n -> 0 <= x < nb -> y <> ((element j + base) mod 2 ^ W + x) mod 2 ^ W) -> elements_stored n i u y = u y.
Proof.
  intros Hp. pose proof nb_range as Hnr. destruct (stack_fits d nb Hnr) as (Hfit & Hnb' & HW). revert i u. induction n as [|n IH]; intros i u Hw Hu Hy; [reflexivity|].
  cbn [elements_stored]. assert (E : after_write ps o W ((element i + base) mod 2 ^ W) nb v u y = u y).
  { unfold after_write. apply store_bytes_kept; try assumption; try lia. intros x Hx. apply Hy; lia. }
  rewrite IH; [exact E| |congruence|intros j x Hj Hx; apply Hy; lia].
  unfold after_write. apply store_bytes_whole; assumption || lia.
Qed.

Lemma filled_value n i u : page_ok ps -> whole_pages ps u -> 0 <= i -> Z.of_nat n * nb <= 2 ^ W ->
  forall j, i <= j < i + Z.of_nat n -> has_value o W ((element j + base) mod 2 ^ W) nb v (elements_stored n i u).
Proof.
  intros Hp. pose proof nb_range as Hnr. destruct (stack_fits d nb Hnr) as (Hfit & Hnb' & HW). revert i u. induction n as [|n IH]; intros i u Hw Hi Hn j Hj; [lia|].
  cbn [elements_stored]. set (u1 := after_write ps o W ((element i + base) mod 2 ^ W) nb v u).
  assert (Hw1 : whole_pages ps u1) by (unfold u1, after_write; apply store_bytes_whole; assumption || lia).
  destruct (Z.eq_dec j i) as [->|Hne]; [|apply IH; assumption || lia].
  assert (H1 : has_value o W ((element i + base) mod 2 ^ W) nb v u1) by now apply written_value.
  intros x Hx. specialize (H1 x Hx). rewrite filled_kept; [exact H1|assumption|assumption|congruence|].
  intros k y Hk Hy. apply (elements_apart (Z.of_nat (S n))); lia.
Qed.

(** ** Fetching the instruction until it is done *)

Lemma write_comm r r' x y f : apart r r' = true -> bits_eq (bits_write r x (bits_write r' y f)) (bits_write r' y (bits_write r x f)).
Proof.
  intros Ha k j. unfold bits_write. destruct (in_register r k j) eqn:E, (in_register r' k j) eqn:E'; try reflexivity.
  unfold in_register in E. apply andb_true_iff in E as [->%bool_decide_eq_true I]. now rewrite (apart_ok _ _ Ha j I) in E'.
Qed.

Section Fetched.
Variable IP_cvtsi2sd : DispatcherX86 -> X86Insn -> M Machine unit.
#[local] Notation fetched := (comes_to d IP_cvtsi2sd insn).
Hypothesis Hreset : autoResetInstructionPointer d = true.
Hypothesis Htable : iproc_table d IP_cvtsi2sd insn = Some (IP_storestring d x86_repeat_repe (8 * nb) insn).
Hypothesis Hva : 0 <= insn_address insn < 2 ^ W.
Hypothesis Hisize : 0 <= insn_size insn < 2 ^ 64.
#[local] Notation next := ((insn_address insn + insn_size insn) mod 2 ^ W).

Lemma va_range : 0 <= insn_address insn < 2 ^ 64 /\ insn_address insn mod 2 ^ W = insn_address insn.
Proof. pose proof (W_range d). pose proof (pow2_le W 64 ltac:(lia)). split; [lia|now apply Z.mod_small]. Qed.

Lemma ready_next i c x f : ready i c f -> ready i c (bits_write ip x f).
Proof.
  intros (H1 & H2 & H3 & H4 & H5). destruct changed_apart as (A1 & A2 & A3 & A4 & A5 & A6 & A7 & A8 & A9 & A10 & A11 & A12 & A13 & _).
  repeat split; try (apply holds_other; assumption); (apply H1 || apply H2 || apply H3 || apply H4 || apply H5).
Qed.

Lemma next_ok : bv_ok (nBits ip) next.
Proof. rewrite anyIP_width. apply mod_ok. pose proof (W_range d). lia. Qed.

Lemma one_fetch i c f u s : ready i c f -> holds ip (insn_address insn) f -> machine_at ps o s f u ->
  exists s', fetches d IP_cvtsi2sd insn s s' /\ machine_at ps o s'
    (if c <=? unroll_limit then after_elements (i + c) 0 next f else after_elements (i + 1) (c - 1) (insn_address insn) (bits_write ip next f))
    (elements_stored (if c <=? unroll_limit then Z.to_nat c else 1) i u).
Proof.
  intros Hr Hip Hs. destruct va_range as [Hva' Emod]. pose proof (ready_next i c next f Hr) as Hr'.
  pose proof (storestring_goes i c next _ u Hr' (holds_write _ _ _ next_ok) Hva') as H. rewrite Emod in H.
  destruct (process_goes d IP_cvtsi2sd insn ps o _ _ _ _ _ Hreset Hva' Hisize Hops Htable H s Hs) as (s' & E & Hs').
  exists s'. split; [split; [now apply (at_insn_ok d insn ps o s f u)|exact E]|]. destruct (c <=? unroll_limit); [|exact Hs'].
  destruct changed_apart as (A1 & A2 & A3 & A4 & _). destruct Hs' as ((Hf & Hacc) & Hm). split; [split; [|assumption]|exact Hm].
  refine (proj1 (represents_Proper _ _ _ _) Hf). unfold after_elements. rewrite (write_comm cx ip) by exact A4. rewrite (write_comm di ip) by exact A2.
  apply bits_write_Proper. apply write_comm. exact A1.
Qed.

Lemma stores_eventually k : forall i c f u s, c <= unroll_limit + Z.of_nat k -> ready i c f -> holds ip (insn_address insn) f -> machine_at ps o s f u ->
  fetched (fun s' => machine_at ps o s' (after_elements (i + c) 0 next f) (elements_stored (Z.to_nat c) i u)) s.
Proof.
  induction k as [|k IH]; intros i c f u s Hk Hr Hip Hs; destruct (one_fetch i c f u s Hr Hip Hs) as (s' & Hf & Hs').
  { rewrite (proj2 (Z.leb_le _ _)) in Hs' by lia. exact (comes_to_step _ _ _ _ _ _ Hf (comes_to_now _ _ _ _ _ Hs')). }
  destruct (Z.leb_spec c unroll_limit) as [Hl|Hl]; [exact (comes_to_step _ _ _ _ _ _ Hf (comes_to_now _ _ _ _ _ Hs'))|]. unfold unroll_limit in Hl, Hk.
  apply (comes_to_step _ _ _ _ _ _ Hf). pose proof (ready_next i c next f Hr) as (H1 & H2 & H3 & H4 & H5).
  destruct changed_apart as (A1 & A2 & A3 & A4 & A5 & A6 & A7 & A8 & A9 & A10 & A11 & A12 & A13 & _).
  destruct (wide_gpr_ok d x86_gpr_cx cx_ok) as (_ & Hcn & _). destruct (wide_gpr_ok d x86_gpr_di di_ok) as (_ & Hdn & _).
  assert (Hr1 : ready (i + 1) (c - 1) (after_elements (i + 1) (c - 1) (insn_address insn) (bits_write ip next f))).
  { unfold after_elements. apply ready_next. split; [|split; [|split; [|split]]].
    - apply holds_other; [exact A1|]. apply holds_write. rewrite Hdn. apply string_element_ok.
    - apply holds_write. destruct H2 as [Hc _]. unfold bv_ok in *. lia.
    - apply holds_other; [exact A6|]. now apply holds_other.
    - apply holds_other; [exact A9|]. now apply holds_other.
    - apply holds_other; [exact A12|]. now apply holds_other. }
  assert (Hip1 : holds ip (insn_address insn) (after_elements (i + 1) (c - 1) (insn_address insn) (bits_write ip next f))).
  { apply holds_write. rewrite anyIP_width. exact Hva. }
  refine (comes_to_mono _ _ _ _ _ _ _ (IH (i + 1) (c - 1) _ _ s' _ Hr1 Hip1 Hs')); [|unfold unroll_limit; lia].
  intros s2 ((Hf2 & Hacc) & Hm). replace (i + 1 + (c - 1)) with (i + c) in Hf2 by lia. split; [split; [|assumption]|].
  - refine (proj1 (represents_Proper _ _ _ _) Hf2). intros r j. unfold after_elements, bits_write.
    destruct (in_register ip r j), (in_register cx r j), (in_register di r j); reflexivity.
  - replace (Z.to_nat c) with (S (Z.to_nat (c - 1))) by lia. exact Hm.
Qed.
End Fetched.
End Store.
