(* ===== verification/RiscX86StringTheorems.v ===== *)
(** A repeated store comes to its end. *)
From S2P Require Import Prelude BitVector SymType SymExpr SymEval RegDescriptor RiscOps RiscConcrete RiscConcreteFacts RiscArith RiscMulDiv.
From S2P Require Import RiscRegisters RiscRegFacts RiscRegTheorems RiscMachine RiscRun RiscMemory RiscMemoryFacts RiscMemoryRun.
From S2P Require Import RiscX86 RiscX86Insn RiscX86Flags RiscX86Operands RiscX86Arith RiscX86Jump RiscX86Stack RiscX86StackTheorems RiscX86Process RiscX86String.
From stdpp Require Import gmap.
Open Scope Z_scope.

#[local] Existing Instance ConcreteOps.

(** [REP STOSB], [REP STOSW], [REP STOSD] and [REP STOSQ]. *)
Definition rep_stos (nb : Z) : X86InstructionKind :=
  if nb =? 1 then x86_rep_stosb else if nb =? 2 then x86_rep_stosw else if nb =? 4 then x86_rep_stosd else x86_rep_stosq.

Section Completes.
Context (d : DispatcherX86) (IP_cvtsi2sd : DispatcherX86 -> X86Insn -> M Machine unit) (ps : Z) (o : ByteOrder) (insn : X86Insn).
#[local] Notation W := (mode_width d).
#[local] Notation di := (wide_gpr d x86_gpr_di).
#[local] Notation cx := (wide_gpr d x86_gpr_cx).
#[local] Notation ip := (REG_anyIP d).
#[local] Notation next := ((insn_address insn + insn_size insn) mod 2 ^ W).

(** C6. Fetching and executing a repeated store of elements of 1, 2, 4 or 8
    bytes, whose address size is that of the mode, always ends: from any machine that is at the instruction, whatever
    the count (with or without unrolling), it comes to a state where the
    instruction pointer is past the instruction, the counter is zero and the
    index register has moved by all the elements, upwards or downwards as the
    direction flag says, and nothing else of the registers has changed.  When the
    elements do not wrap around onto each other, memory then has the value at
    each of them, in the order of bytes it has, and every byte elsewhere that was mapped is
    kept.  The instruction has no lock prefix and no operands, addresses of memory have the width of the mode,
    memory has an order of bytes, and the dispatcher sets the instruction pointer from each instruction.
    (With a narrower address size the code can fail an assertion instead.) *)
Theorem rep_stos_completes (nb a v c sv : Z) (df : bool) (f : Bits) (u : Bytes) (s : Machine)
  (Haddr : addressWidth (x86_base d) = W) (Horder : o <> ORDER_UNSPECIFIED) (Hreset : autoResetInstructionPointer d = true)
  (Hkind : kind insn = rep_stos nb) (Hlock : lockPrefix insn = false) (Hops : operands insn = []) (Hsize : address_bits insn = W)
  (Hva : 0 <= insn_address insn < 2 ^ W) (Hlen : 0 <= insn_size insn < 2 ^ 64)
  (Hnb : nb = 1 \/ nb = 2 \/ nb = 4 \/ nb = 8)
  (Hip : holds ip (insn_address insn) f) (Hdi : holds di a f) (Hcx : holds cx c f) (Hax : holds (gpr x86_gpr_ax 0 (8 * nb)) v f)
  (Hdf : holds REG_DF (bool_Z df) f) (Hes : holds REG_ES sv f) (Hs : machine_at ps o s f u) :
  let element i := (a + i * (if df then - nb else nb)) mod 2 ^ W in
  let place i := (element i + sval (nBits REG_ES) sv) mod 2 ^ W in
  exists u', comes_to d IP_cvtsi2sd insn (fun s' => machine_at ps o s' (bits_write ip next (bits_write cx 0 (bits_write di (element c) f))) u') s /\
    (c * nb <= 2 ^ W -> forall i, 0 <= i < c -> has_value o W (place i) nb v u') /\
    (forall y, u y <> None -> (forall i x, 0 <= i < c -> 0 <= x < nb -> y <> (place i + x) mod 2 ^ W) -> u' y = u y).
Proof.
  intros element place. pose proof (W_range d) as HW.
  assert (Hdi0 : holds di (RiscX86String.element d nb a df 0) f).
  { destruct (wide_gpr_ok d x86_gpr_di (RiscX86String.di_ok)) as (_ & Hn & _). unfold RiscX86String.element. rewrite Z.mul_0_l, Z.add_0_r, Z.mod_small; [exact Hdi|].
    destruct Hdi as [Ha _]. now rewrite Hn in Ha. }
  assert (Hv : bv_ok (8 * nb) v) by (destruct (ax_ok nb Hnb) as (_ & _ & <-); apply Hax).
  assert (Hc : 0 <= c) by (destruct Hcx as [[Hc _] _]; exact Hc).
  assert (Ht : iproc_table d IP_cvtsi2sd insn = Some (IP_storestring d x86_repeat_repe (8 * nb) insn)) by
    (unfold iproc_table; rewrite Hkind; destruct Hnb as [->|[->|[->| ->]]]; reflexivity).
  pose proof (machine_at_page ps o s f u Hs) as Hp. assert (Hw : whole_pages ps u) by apply Hs.
  exists (elements_stored d ps o nb a v df sv (Z.to_nat c) 0 u). split; [|split].
  - refine (stores_eventually d ps o Haddr Horder insn Hlock Hops Hsize nb a v df sv Hnb Hv IP_cvtsi2sd Hreset Ht Hva Hlen (Z.to_nat c) 0 c f u s _ _ Hip Hs).
    + unfold unroll_limit. lia.
    + now repeat split; try (apply Hdi0 || apply Hcx || apply Hax || apply Hdf || apply Hes).
  - intros Hfit i Hi. apply (filled_value d ps o Haddr nb a v df sv Hnb (Z.to_nat c) 0 u Hp Hw); rewrite ?Z2Nat.id by lia; lia.
  - intros y Hy Hout. apply (filled_kept d ps o nb a v df sv Hnb (Z.to_nat c) 0 u y Hp Hw Hy). rewrite Z2Nat.id by lia. intros j x Hj Hx. apply Hout; lia.
Qed.
End Completes.

(** Ten thousand words downwards, from an address near zero. *)
Definition stosw : X86Insn := mkInsn false x86_rep_stosw x86_insnsize_32 x86_insnsize_32 0 0x1000 3 [].
Definition stos_registers : list (RegisterDescriptor * Z) :=
  [(gpr x86_gpr_ax 0 16, 0xbeef); (wide_gpr i386 x86_gpr_di, 2); (wide_gpr i386 x86_gpr_cx, 10000); (REG_DF, 1); (REG_ES, 0); (REG_anyIP i386, 0x1000)].

Lemma stos_holds reg v l l' : stos_registers = l ++ (reg, v) :: l' -> bv_ok (nBits reg) v -> forallb (fun p => apart reg p.1) l' = true ->
  holds reg v (assign stos_registers no_bits).
Proof. intros -> Hv Hl. rewrite assign_app. now apply holds_last. Qed.

Theorem rep_stos_completes_witness (cvt := fun (_ : DispatcherX86) (_ : X86Insn) => ret (St := Machine) tt) : exists s u',
  machine_at 4096 ORDER_LSB s (assign stos_registers no_bits) no_bytes /\
  comes_to i386 cvt stosw (fun s' => machine_at 4096 ORDER_LSB s' (bits_write (REG_anyIP i386) 0x1003 (bits_write (wide_gpr i386 x86_gpr_cx) 0
    (bits_write (wide_gpr i386 x86_gpr_di) ((2 - 20000) mod 2 ^ 32) (assign stos_registers no_bits)))) u') s /\
  has_value ORDER_LSB 32 ((2 - 19998) mod 2 ^ 32) 2 0xbeef u'.
Proof.
  destruct (machine_exists 4096 ORDER_LSB stos_registers page_4096 ltac:(vm_compute; reflexivity)) as (s & Hs).
  destruct (rep_stos_completes i386 cvt 4096 ORDER_LSB stosw 2 2 0xbeef 10000 0 true _ no_bytes s eq_refl ltac:(discriminate) eq_refl eq_refl eq_refl eq_refl eq_refl
    ltac:(split; [discriminate|reflexivity]) ltac:(split; [discriminate|reflexivity]) ltac:(lia)
    (stos_holds _ _ [_; _; _; _; _] [] eq_refl ltac:(split; now vm_compute) eq_refl)
    (stos_holds _ _ [_] [_; _; _; _] eq_refl ltac:(split; now vm_compute) ltac:(vm_compute; reflexivity))
    (stos_holds _ _ [_; _] [_; _; _] eq_refl ltac:(split; now vm_compute) ltac:(vm_compute; reflexivity))
    (stos_holds _ _ [] [_; _; _; _; _] eq_refl ltac:(split; now vm_compute) ltac:(vm_compute; reflexivity))
    (stos_holds _ _ [_; _; _] [_; _] eq_refl ltac:(split; now vm_compute) ltac:(vm_compute; reflexivity))
    (stos_holds _ _ [_; _; _; _] [_] eq_refl ltac:(split; now vm_compute) ltac:(vm_compute; reflexivity)) Hs) as (u' & He & Hv & _).
  exists s, u'. split; [exact Hs|]. split; [exact He|]. exact (Hv ltac:(vm_compute; discriminate) 9999 ltac:(lia)).
Defined.
