(* ===== verification/RiscX86Theorems.v ===== *)
(** What the instructions of x86 promise, in the concrete domain: results and
    flags of arithmetic, conditions after a comparison, and vectors. *)
From S2P Require Import Prelude BitVector SymType SymExpr SymEval RegDescriptor RiscOps RiscConcrete RiscConcreteFacts RiscArith RiscMulDiv RiscData.
From S2P Require Import RiscRegisters RiscRegFacts RiscRegTheorems RiscMachine RiscRun RiscMemory RiscMemoryFacts RiscMemoryRun.
From S2P Require Import RiscX86 RiscX86Insn RiscX86Flags RiscX86Operands RiscX86Arith RiscX86Jump RiscX86Vector RiscX86VectorFacts RiscX86StackTheorems.
From stdpp Require Import gmap.
Open Scope Z_scope.

Section Theorems.
Context {St : Type} {Regs : HasRegisters CValue St} {Mem : MemoryOperators CValue St} {Laws : RegisterLaws St Regs} (d : DispatcherX86).
#[local] Existing Instance ConcreteOps.
Implicit Types (insn : X86Insn) (f : Bits) (e : AsmExpr) (reg : RegisterDescriptor).

(** * Arithmetic *)

(** C3. Additions and subtractions of a general purpose register of 8 to 64
    bits and an operand that is not wider (another such register or an immediate value, without a lock prefix), which is extended by its sign: the result modulo the
    width, with the carry for [ADC] and the borrow for [SBB], goes to the
    register (whose upper half is cleared where a write of 32 bits does that),
    the six flags are those of the sum or the difference as numbers, unsigned and in
    two's complement, and a comparison changes the flags only.  Likewise for [NEG], and for
    [INC] and [DEC], which leave the carry alone. *)
Theorem x86_arithmetic insn insn1 reg n e w a w' b c f
  (lock : lockPrefix insn = false) (ops : operands insn = [DirectRegister n reg; e])
  (lock1 : lockPrefix insn1 = false) (ops1 : operands insn1 = [DirectRegister n reg])
  (Ha : operand (DirectRegister n reg) w a f) (Hb : operand e w' b f) (Hw' : w' <= w) (Hw : 8 <= w <= 64) (Hc : holds REG_CF (bool_Z c) f) :
  let y := sext w' w b in
  let result r flags := assign (gpr_assign d reg (r mod 2 ^ w)) (assign flags f) in
  runs (IP_add d insn) f tt (result (a + y) (sum_flags w a y 0)) /\
  runs (IP_adc d insn) f tt (result (a + y + bool_Z c) (sum_flags w a y (bool_Z c))) /\
  runs (IP_sub d insn) f tt (result (a - y) (difference_flags w a y 0)) /\
  runs (IP_sbb d insn) f tt (result (a - y - bool_Z c) (difference_flags w a y (bool_Z c))) /\
  runs (IP_cmp d insn) f tt (assign (difference_flags w a y 0) f) /\
  runs (IP_neg d insn1) f tt (result (- a) (difference_flags w 0 a 0)) /\
  runs (IP_inc d insn1) f tt (result (a + 1) (step_flags w a false false)) /\
  runs (IP_dec d insn1) f tt (result (a - 1) (step_flags w a true false)).
Proof.
  intros y result. unfold result. split; [|split; [|split; [|split; [|split; [|split; [|split]]]]]].
  - rewrite <- (Z.add_0_r (a + y)). now apply (IP_add_ok d insn (DirectRegister n reg) e reg n w a w' b f).
  - now apply (IP_adc_ok d insn (DirectRegister n reg) e reg n w a w' b f).
  - rewrite <- (Z.sub_0_r (a - y)). now apply (IP_sub_ok d insn (DirectRegister n reg) e reg n w a w' b f).
  - now apply (IP_sbb_ok d insn (DirectRegister n reg) e reg n w a w' b f).
  - now apply (IP_cmp_ok d insn (DirectRegister n reg) e w a w' b f).
  - replace (- a) with (0 - a - 0) by lia. now apply (IP_neg_ok d insn1 (DirectRegister n reg) reg n w a f).
  - now apply (IP_inc_ok d insn1 (DirectRegister n reg) reg n w a f).
  - replace (a - 1) with (a + -1) by lia. now apply (IP_dec_ok d insn1 (DirectRegister n reg) reg n w a f).
Qed.

(** C18. The bitwise operations on the same operands: [AND], [OR], [XOR] (also of a register with
    itself) and [TEST] set the parity, sign and zero
    flags by the result and clear the carry, the overflow and (where the
    architecture leaves it open) the adjust flag; [NOT] changes no flag; [MOV] extends
    an immediate operand to 64 bits by its sign and anything else by zeros, [MOVZX] and [MOVSX]
    by zeros and by the sign. *)
Theorem x86_bitwise insn insn1 reg n e w a w' b f
  (lock : lockPrefix insn = false) (ops : operands insn = [DirectRegister n reg; e])
  (lock1 : lockPrefix insn1 = false) (ops1 : operands insn1 = [DirectRegister n reg])
  (Ha : operand (DirectRegister n reg) w a f) (Hb : operand e w' b f) (Hw' : w' <= w) (Hw : 8 <= w <= 64) :
  let y := sext w' w b in
  let store v g := assign (gpr_assign d reg v) g in
  let logic v := assign logic_flags (store v (assign (result_flags w v) f)) in
  runs (IP_and d insn) f tt (logic (Z.land a y)) /\ runs (IP_or d insn) f tt (logic (Z.lor a y)) /\
  runs (IP_xor d insn) f tt (logic (Z.lxor a y)) /\ runs (IP_test d insn) f tt (assign logic_flags (assign (result_flags w (Z.land a y)) f)) /\
  runs (IP_not d insn1) f tt (store (2 ^ w - 1 - a) f) /\
  runs (IP_mov d insn) f tt (store (if (w' <? w) && (w =? 64) && isIntegerValue e then y else b) f) /\
  runs (IP_move_zero_extend d insn) f tt (store b f) /\ runs (IP_move_sign_extend d insn) f tt (store y f).
Proof.
  intros y store logic. unfold logic, store. split; [|split; [|split; [|split; [|split; [|split; [|split]]]]]].
  - now apply (IP_and_ok d insn (DirectRegister n reg) e reg n w a w' b f).
  - now apply (IP_or_ok d insn (DirectRegister n reg) e reg n w a w' b f).
  - now apply (IP_xor_ok d insn (DirectRegister n reg) e reg n w a w' b f).
  - now apply (IP_test_ok d insn (DirectRegister n reg) e w a w' b f).
  - now apply (IP_not_ok d insn1 (DirectRegister n reg) reg n w a f).
  - now apply (IP_mov_ok d insn (DirectRegister n reg) e reg n w a w' b f).
  - now apply (IP_move_zero_extend_ok d insn (DirectRegister n reg) e reg n w a w' b f).
  - now apply (IP_move_sign_extend_ok d insn (DirectRegister n reg) e reg n w a w' b f).
Qed.

(** * Conditions *)

(** C12. After a comparison, a conditional instruction follows the relation
    of the numbers that were compared: equality, the orders of unsigned
    numbers, those of two's complement, and the overflow, sign and parity of the
    difference.  A conditional jump goes to its target if the relation holds and
    to the next instruction if not, where an operand size of 16 bits in 32-bit
    mode clears the upper half of either address ([short_address]); a conditional move takes the source exactly then and otherwise keeps
    the value of the register, and a conditional set stores the truth value. *)
Theorem x86_conditions cmp insn e0 e1 w a w' b r f
  (lock : lockPrefix cmp = false) (ops : operands cmp = [e0; e1]) (Ha : operand e0 w a f) (Hb : operand e1 w' b f) (Hw' : w' <= w) (Hw : 8 <= w <= 64)
  (lock' : lockPrefix insn = false) (Hk : condition (kind insn) w a (sext w' w b) = Some r) :
  let flags := difference_flags w a (sext w' w b) 0 in
  (forall target wt t i, operands insn = [target] -> operand target wt t f -> wt <= mode_width d ->
    holds (REG_anyIP d) i f ->
    runs (let* _ := IP_cmp d cmp in IP_jcc d insn) f tt (bits_write (REG_anyIP d) (short_address d insn (if r then t else i)) (assign flags f))) /\
  (forall reg n src v p q, operands insn = [DirectRegister n reg; src] -> operand (DirectRegister n reg) v p f -> operand src v q f ->
    runs (let* _ := IP_cmp d cmp in IP_cmovcc d insn) f tt (assign (gpr_assign d reg (if r then q else p)) (assign flags f))) /\
  (forall reg n, operands insn = [DirectRegister n reg] -> is_gpr reg = true -> nBits reg = 8 ->
    runs (let* _ := IP_cmp d cmp in IP_setcc d insn) f tt (assign (gpr_assign d reg (bool_Z r)) (assign flags f))).
Proof.
  intros flags. destruct (compared_condition d cmp e0 e1 w a w' b (kind insn) r f lock ops Ha Hb Hw' Hw Hk) as [Hcmp Hc]. fold flags in Hcmp, Hc.
  assert (Hno : no_gpr flags = true) by apply no_gpr_difference. split; [|split].
  - intros target wt t i Hops Ht Hwt Hi. eapply runs_bind; [exact Hcmp|]. apply (IP_jcc_ok d insn target wt t i r); try assumption.
    + now apply operand_flags.
    + apply holds_ip; [vm_compute; reflexivity|assumption].
  - intros reg n src v p q Hops Hp Hq. eapply runs_bind; [exact Hcmp|]. now apply (IP_cmovcc_ok d insn (DirectRegister n reg) src reg n v p q r); try apply operand_flags.
  - intros reg n Hops Hr Hn. eapply runs_bind; [exact Hcmp|]. now apply (IP_setcc_ok d insn (DirectRegister n reg) reg n r).
Qed.

(** * Vectors *)

Lemma product_bits lo n p : 0 <= lo -> 0 < n -> p mod 2 ^ (lo + n) / 2 ^ lo mod 2 ^ n = p / 2 ^ lo mod 2 ^ n.
Proof.
  intros Hl Hn. rewrite Z.pow_add_r by lia. pose proof (pow2_pos lo Hl). pose proof (pow2_pos n ltac:(lia)).
  rewrite Z.rem_mul_r, (Z.mul_comm (2 ^ lo)), Z.div_add by lia. rewrite (Z.div_small (p mod 2 ^ lo)) by (apply Z.mod_pos_bound; lia). apply Z.mod_mod. lia.
Qed.

Lemma sval_product z x y : 0 < z -> bv_ok z x -> bv_ok z y -> sval z x * sval z y mod 2 ^ z = x * y mod 2 ^ z.
Proof.
  intros He Hx Hy. pose proof (sext_same z x He Hx) as Ex. pose proof (sext_same z y He Hy) as Ey. unfold sext in *.
  rewrite <- Ex, <- Ey at 2. apply Z.mul_mod. pose proof (pow2_pos z). lia.
Qed.

Lemma runs_ones z (k : CValue -> CValue -> M St (option CValue)) f r g : 0 < z -> runs (k (mkCV z 0) (mkCV z (2 ^ z - 1))) f r g ->
  runs (let* zero := number_ z 0 in let* ones := invert zero in k zero ones) f r g.
Proof. intros Hz H s Hs. rewrite c_ones_ok by assumption. now apply H. Qed.

(** C19. Instructions of two vector registers other than the [MMX] ones compute every element, of up to 32 bits, of the
    first one from the elements at the same place, whatever their number: sums
    and differences modulo the width, the lesser and the greater element as
    unsigned and as signed numbers, the high or the low half of a product, and masks for
    equality and for the signed order. *)
Theorem x86_vector_lanes z (He : 0 < z <= 32) :
  let h := 2 ^ z - 1 in
  lanes d (IP_padd d z) z (fun x y => (x + y) mod 2 ^ z) /\ lanes d (IP_psub d z) z (fun x y => (x - y) mod 2 ^ z) /\
  lanes d (IP_pminu d z) z Z.min /\ lanes d (IP_pmaxu d z) z Z.max /\
  lanes d (IP_pmins d z) z (fun x y => if sval z x <? sval z y then x else y) /\
  lanes d (IP_pmaxs d z) z (fun x y => if sval z x <? sval z y then y else x) /\
  lanes d (IP_pmulhuw d) 16 (fun x y => x * y / 2 ^ 16 mod 2 ^ 16) /\
  lanes d (IP_pmulhw d) 16 (fun x y => sval 16 x * sval 16 y / 2 ^ 16 mod 2 ^ 16) /\
  lanes d (IP_pmull d z) z (fun x y => x * y mod 2 ^ z) /\
  lanes d (IP_pcmpeq d z) z (fun x y => if x =? y then h else 0) /\
  lanes d (IP_pcmpgt d z) z (fun x y => if sval z y <? sval z x then h else 0).
Proof.
  intros h. pose proof (pow2_pos z ltac:(lia)) as Hp. repeat split.
  - apply vector2_lanes, add_computes; lia.
  - apply vector2_unchecked_lanes, subtract_computes; lia.
  - apply vector2_lanes; [lia|]. eapply computes_ext; [|apply (chosen_computes _ Z.ltb true); [lia|intros; now apply c_isUnsignedLessThan_ok]].
    intros x y _ _. cbv beta. destruct (Z.ltb_spec x y); cbn [Bool.eqb]; lia.
  - apply vector2_lanes; [lia|]. eapply computes_ext; [|apply (chosen_computes _ Z.ltb false); [lia|intros; now apply c_isUnsignedLessThan_ok]].
    intros x y _ _. cbv beta. destruct (Z.ltb_spec x y); cbn [Bool.eqb]; lia.
  - apply vector2_lanes; [lia|]. eapply computes_ext; [|apply (chosen_computes _ (fun x y => sval z x <? sval z y) true); [lia|intros; now apply c_isSignedLessThan_ok]].
    intros x y _ _. cbv beta. now destruct (_ <? _).
  - apply vector2_lanes; [lia|]. eapply computes_ext; [|apply (chosen_computes _ (fun x y => sval z x <? sval z y) false); [lia|intros; now apply c_isSignedLessThan_ok]].
    intros x y _ _. cbv beta. now destruct (_ <? _).
  - apply vector2_lanes; [lia|]. apply product_computes; try lia. intros. now apply unsigned_product.
  - apply vector2_lanes; [lia|]. eapply computes_ext; [|apply product_computes; try lia; intros; now apply signed_product].
    intros x y _ _. cbv beta. apply (product_bits 16 16); lia.
  - apply vector2_lanes; [lia|]. eapply computes_ext; [|apply product_computes; try lia; intros; apply signed_product; assumption || lia].
    intros x y Hx Hy. cbv beta. replace (2 * z) with (z + z) by lia. rewrite Z.pow_0_r, Z.div_1_r, Z.pow_add_r, Z.rem_mul_r, (Z.mul_comm (2 ^ z)), Z_mod_plus_full by lia.
    rewrite Z.mod_mod by lia. apply sval_product; assumption || lia.
  - apply vector2_body_lanes; [lia|intros x y _ _; destruct (x =? y); unfold h, bv_ok; lia|]. intros n a b f Hn. cbn [nBits_ ConcreteOps c_nBits].
    rewrite Z.mod_mul, (proj2 (Z.eqb_neq z 0)) by lia. eapply runs_bind; [apply runs_assert; reflexivity|cbv beta].
    apply runs_ones; [lia|]. apply (elementwise_ok _ n z z (fun x y => if x =? y then h else 0)); try lia. apply pcmpeq_computes. lia.
  - apply vector2_body_lanes; [lia|intros x y _ _; destruct (_ <? _); unfold h, bv_ok; lia|]. intros n a b f Hn.
    apply runs_ones; [lia|]. apply (elementwise_ok _ n z z (fun x y => if sval z y <? sval z x then h else 0)); try lia. apply pcmpgt_computes. lia.
Qed.

(** C31. Saturation.  A signed number is clamped to the signed range of the narrower width, and an
    unsigned one to the unsigned range; but a signed number that does not fit an
    unsigned range becomes the greatest number when it is negative, and zero when it is
    positive, the opposite of saturation.  The saturating sums and differences of
    signed elements are those of the numbers, clamped.  The
    ones of unsigned elements extend them by their signs first, so that
    they are the least of a residue of the signed sum and the greatest number. *)
Theorem x86_saturation z w v (s : St) (Hz : 1 < z <= 32) (Hw : z < w < 2 ^ 64) (Hv : bv_ok w v) :
  saturateSignedToSigned (mkCV w v) z s = Ret (mkCV z (clamp z (sval w v) mod 2 ^ z), s) /\
  saturateUnsignedToUnsigned (mkCV w v) z s = Ret (mkCV z (Z.min v (2 ^ z - 1)), s) /\
  saturateSignedToUnsigned (mkCV w v) z s =
    (let x := sval w v in Ret (mkCV z (if (0 <=? x) && (x <? 2 ^ z) then x else if x <? 0 then 2 ^ z - 1 else 0), s)) /\
  lanes d (IP_padds d z) z (fun x y => clamp z (sval z x + sval z y) mod 2 ^ z) /\
  lanes d (IP_psubs d z) z (fun x y => clamp z (sval z x - sval z y) mod 2 ^ z) /\
  lanes d (IP_paddus d z) z (fun x y => Z.min ((sval z x + sval z y) mod 2 ^ (z + 1)) (2 ^ z - 1)) /\
  lanes d (IP_psubus d z) z (fun x y => Z.min ((sval z x - sval z y) mod 2 ^ (z + 1)) (2 ^ z - 1)).
Proof.
  pose proof (pow2_le z 63 ltac:(lia)) as H63. split; [apply saturateSignedToSigned_ok; assumption || lia|].
  split; [apply saturateUnsignedToUnsigned_ok; assumption || lia|]. split; [apply saturateSignedToUnsigned_ok; assumption || lia|].
  split; [|split; [|split]].
  - apply vector2_lanes; [lia|]. eapply computes_ext; [|apply padds_computes; lia]. intros x y _ _. unfold saturated_sum. now rewrite Z.mul_1_l.
  - apply vector2_unchecked_lanes; [lia|]. eapply computes_ext; [|apply psubs_computes; lia]. intros x y _ _. unfold saturated_sum. do 2 f_equal.
  - apply vector2_lanes; [lia|]. eapply computes_ext; [|apply paddus_computes; lia]. intros x y _ _. unfold unsigned_saturated. now rewrite Z.mul_1_l.
  - apply vector2_unchecked_lanes; [lia|]. eapply computes_ext; [|apply psubus_computes; lia]. intros x y _ _. unfold unsigned_saturated. do 2 f_equal.
Qed.
End Theorems.

(** * Runs *)

Section Runs.
#[local] Existing Instance ConcreteOps.
Definition xmm (i : Z) : RegisterDescriptor := x86_register x86_regclass_xmm i 0 128.

(** A machine with some registers runs a program. *)
Lemma machine_runs {A} (m : M Machine A) l a g : settable l = true -> runs m (assign l no_bits) a g ->
  exists s s', holding (get_registers s) (assign l no_bits) /\ m s = Ret (a, s') /\ holding (get_registers s') g.
Proof.
  intros Hl Hm. destruct (machine_exists 4096 ORDER_LSB l page_4096 Hl) as (s & Hs). destruct Hs as (Hf & _).
  destruct (Hm s Hf) as (rs & E & Hg). exists s, (set_registers rs s). split; [exact Hf|]. split; [exact E|exact Hg].
Qed.

(** An immediate operand of 8 bits. *)
Definition imm8 (v : Z) : AsmExpr := IntegerExpr 8 (mkIntegerValue 8 v 0).

Lemma imm8_ok v f : bv_ok 8 v -> operand (imm8 v) 8 v f.
Proof. intros Hv. repeat split; (reflexivity || lia || apply Hv). Qed.

(** The registers of the runs. *)
Definition run_registers : list (RegisterDescriptor * Z) :=
  [(eax, 0x7f); (ebx, 5); (REG_CF, 1); (REG_anyIP i386, 0x1002); (xmm 0, 0x7f80ff01); (xmm 1, 0x01ff01ff)].
#[local] Notation f := (assign run_registers no_bits).

Lemma run_settable : settable run_registers = true.
Proof. vm_compute. reflexivity. Qed.

Lemma run_holds reg v l l' : run_registers = l ++ (reg, v) :: l' -> bv_ok (nBits reg) v -> forallb (fun p => apart reg p.1) l' = true -> holds reg v f.
Proof. intros -> Hv Hl. rewrite assign_app. now apply holds_last. Qed.

Lemma run_eax : operand (DirectRegister 32 eax) 32 0x7f f.
Proof. repeat (split; [vm_compute; reflexivity|]). apply (run_holds _ _ [] _ eq_refl); [split; now vm_compute|vm_compute; reflexivity]. Qed.
Lemma run_ebx : operand (DirectRegister 32 ebx) 32 5 f.
Proof. repeat (split; [vm_compute; reflexivity|]). apply (run_holds _ _ [_] _ eq_refl); [split; now vm_compute|vm_compute; reflexivity]. Qed.
Lemma run_carry : holds REG_CF (bool_Z true) f.
Proof. apply (run_holds _ _ [_; _] _ eq_refl); [split; now vm_compute|vm_compute; reflexivity]. Qed.
Lemma run_ip : holds (REG_anyIP i386) 0x1002 f.
Proof. apply (run_holds _ _ [_; _; _] _ eq_refl); [split; now vm_compute|vm_compute; reflexivity]. Qed.
Lemma run_xmm0 : holds (xmm 0) 0x7f80ff01 f.
Proof. apply (run_holds _ _ [_; _; _; _] _ eq_refl); [split; now vm_compute|vm_compute; reflexivity]. Qed.
Lemma run_xmm1 : holds (xmm 1) 0x01ff01ff f.
Proof. apply (run_holds _ _ [_; _; _; _; _] _ eq_refl); [split; now vm_compute|vm_compute; reflexivity]. Qed.
Lemma xmm_whole i : 0 <= i < 2 -> whole_register i386 (DirectRegister 128 (xmm i)) (xmm i) (16 * 8).
Proof. intros Hi. assert (i = 0 \/ i = 1) as [->| ->] by lia; repeat split. Qed.

Definition unary : X86Insn := insn_32 x86_neg [DirectRegister 32 eax].

(** [0x7f - 0x81 + 1], where the immediate is extended by its sign. *)
Theorem x86_arithmetic_witness :
  let insn := insn_32 x86_adc [DirectRegister 32 eax; imm8 0x80] in let y := sext 8 32 0x80 in
  exists s s', holding (get_registers s) f /\ IP_adc i386 insn s = Ret (tt, s') /\
    holding (get_registers s') (assign (gpr_assign i386 eax ((0x7f + y + 1) mod 2 ^ 32)) (assign (sum_flags 32 0x7f y 1) f)) /\ (0x7f + y + 1) mod 2 ^ 32 = 0.
Proof.
  intros insn y.
  destruct (x86_arithmetic (St := Machine) i386 insn unary eax 32 (imm8 0x80) 32 0x7f 8 0x80 true f eq_refl eq_refl eq_refl eq_refl run_eax (imm8_ok 0x80 f ltac:(split; now vm_compute))
    ltac:(lia) ltac:(lia) run_carry) as (_ & H & _).
  destruct (machine_runs _ run_registers _ _ run_settable H) as (s & s' & Hs & E & Hs'). exists s, s'. split; [exact Hs|]. split; [exact E|]. split; [exact Hs'|vm_compute; reflexivity].
Defined.

Theorem x86_bitwise_witness :
  let insn := insn_32 x86_xor [DirectRegister 32 eax; imm8 0x80] in let v := Z.lxor 0x7f (sext 8 32 0x80) in
  exists s s', holding (get_registers s) f /\ IP_xor i386 insn s = Ret (tt, s') /\
    holding (get_registers s') (assign logic_flags (assign (gpr_assign i386 eax v) (assign (result_flags 32 v) f))) /\ v = 2 ^ 32 - 1.
Proof.
  intros insn v.
  destruct (x86_bitwise (St := Machine) i386 insn unary eax 32 (imm8 0x80) 32 0x7f 8 0x80 f eq_refl eq_refl eq_refl eq_refl run_eax (imm8_ok 0x80 f ltac:(split; now vm_compute))
    ltac:(lia) ltac:(lia)) as (_ & _ & H & _).
  destruct (machine_runs _ run_registers _ _ run_settable H) as (s & s' & Hs & E & Hs'). exists s, s'. split; [exact Hs|]. split; [exact E|]. split; [exact Hs'|vm_compute; reflexivity].
Defined.

(** A jump that is taken: [0x7f] is not less than [-128], extended by its sign. *)
Theorem x86_conditions_witness :
  let cmp := insn_32 x86_cmp [DirectRegister 32 eax; imm8 0x80] in let jump := insn_32 x86_jge [DirectRegister 32 ebx] in
  exists s s', holding (get_registers s) f /\ (let* _ := IP_cmp i386 cmp in IP_jcc i386 jump) s = Ret (tt, s') /\
    holding (get_registers s') (bits_write (REG_anyIP i386) 5 (assign (difference_flags 32 0x7f (sext 8 32 0x80) 0) f)).
Proof.
  intros cmp jump.
  destruct (x86_conditions (St := Machine) i386 cmp jump (DirectRegister 32 eax) (imm8 0x80) 32 0x7f 8 0x80 true f eq_refl eq_refl run_eax (imm8_ok 0x80 f ltac:(split; now vm_compute))
    ltac:(lia) ltac:(lia) eq_refl eq_refl) as (H & _ & _).
  specialize (H (DirectRegister 32 ebx) 32 5 0x1002 eq_refl run_ebx ltac:(vm_compute; discriminate) run_ip).
  destruct (machine_runs _ run_registers _ _ run_settable H) as (s & s' & Hs & E & Hs'). exists s, s'. split; [exact Hs|]. split; [exact E|exact Hs'].
Defined.

Definition vectors (k : X86InstructionKind) : X86Insn := insn_32 k [DirectRegister 128 (xmm 0); DirectRegister 128 (xmm 1)].

Theorem x86_vector_lanes_witness :
  exists s s', holding (get_registers s) f /\ IP_padd i386 8 (vectors x86_paddb) s = Ret (tt, s') /\
    holding (get_registers s') (bits_write (xmm 0) (vector_of 8 16 (fun i => (element 0x7f80ff01 8 i + element 0x01ff01ff 8 i) mod 2 ^ 8)) f) /\
    vector_of 8 16 (fun i => (element 0x7f80ff01 8 i + element 0x01ff01ff 8 i) mod 2 ^ 8) = 0x807f0000.
Proof.
  destruct (x86_vector_lanes (St := Machine) i386 8 ltac:(lia)) as (H & _).
  pose proof (H (vectors x86_paddb) _ _ _ _ 16 _ _ f eq_refl eq_refl ltac:(lia) (xmm_whole 0 ltac:(lia)) run_xmm0 (xmm_whole 1 ltac:(lia)) run_xmm1) as Hr.
  destruct (machine_runs _ run_registers _ _ run_settable Hr) as (s & s' & Hs & E & Hs'). exists s, s'. split; [exact Hs|]. split; [exact E|]. split; [exact Hs'|vm_compute; reflexivity].
Defined.

(** The unsigned sums of [0x01] and [0xff], and of [0xff] and [0x01], exceed a byte, and yet come out as zero. *)
Theorem x86_saturation_witness :
  (let s := fresh_machine 4096 ORDER_LSB in saturateSignedToUnsigned (mkCV 16 0xfff0) 8 s = Ret (mkCV 8 0xff, s)) /\
  exists s s', holding (get_registers s) f /\ IP_paddus i386 8 (vectors x86_paddusb) s = Ret (tt, s') /\
    holding (get_registers s') (bits_write (xmm 0) (vector_of 8 16 (fun i => let x := element 0x7f80ff01 8 i in let y := element 0x01ff01ff 8 i in
      Z.min ((sval 8 x + sval 8 y) mod 2 ^ 9) 255)) f) /\
    vector_of 8 16 (fun i => let x := element 0x7f80ff01 8 i in let y := element 0x01ff01ff 8 i in Z.min ((sval 8 x + sval 8 y) mod 2 ^ 9) 255) = 0x80ff0000.
Proof.
  destruct (x86_saturation (St := Machine) i386 8 16 0xfff0 (fresh_machine 4096 ORDER_LSB) ltac:(lia) ltac:(lia) ltac:(split; now vm_compute)) as (_ & _ & H0 & _ & _ & H & _).
  split; [exact H0|].
  pose proof (H (vectors x86_paddusb) _ _ _ _ 16 _ _ f eq_refl eq_refl ltac:(lia) (xmm_whole 0 ltac:(lia)) run_xmm0 (xmm_whole 1 ltac:(lia)) run_xmm1) as Hr.
  destruct (machine_runs _ run_registers _ _ run_settable Hr) as (s & s' & Hs & E & Hs'). exists s, s'. split; [exact Hs|]. split; [exact E|]. split; [exact Hs'|vm_compute; reflexivity].
Defined.
End Runs.
